(* ===== verification/_CoqProject ===== *)
-Q . S2P
Prelude.v
Words.v
CheckedArithmetic.v
BigIntRep.v
BigIntAdd.v
BigIntMul.v
BigIntDiv.v
BigIntShift.v
BigIntBitwise.v
BigIntConvert.v
BigIntValue.v
Numerals.v
FloatingPoint.v
Conversions.v
BigIntDouble.v
BigIntString.v
BigIntPrint.v
BigIntTheorems.v
DoubleTheorems.v
StringTheorems.v
OrderedHashTable.v
OrderedHashInv.v
OrderedHashOps.v
OrderedHashRanges.v
OrderedHashRequests.v
OrderedHashTheorems.v
MoveResolver.v
MoveExec.v
MoveOrder.v
MoveResolve.v
MoveTheorems.v
DoubleArith.v
DoubleWhole.v
DoubleFixed.v
DoubleOrder.v
Dates.v
DateCalendar.v
TimeZone.v
TimeZoneCache.v
DateObject.v
DateObjectInv.v
DateTheorems.v
DateStrings.v
DateDigits.v
DateLegacy.v
DateParse.v
DateStringTheorems.v
RangeAnalysis.v
RangeInv.v
RangeArith.v
RangeProduct.v
RangeLattice.v
RangeMath.v
RangeRound.v
RangeBits.v
RangeShifts.v
RangeWrap.v
RangeDouble.v
RangeNodes.v
RangeBranches.v
RangeDivision.v
RangeSources.v
RangeTheorems.v
JitCode.v
JitDivision.v
JitMagic.v
JitExec.v
JitConstant.v
JitPowerTwo.v
JitRegister.v
JitTheorems.v
