(* ===== verification/Prelude.v ===== *)
(** * Verification of components of the SpiderMonkey 78 engine

    The repository is the stand-alone JavaScript engine: js/src (the front end,
    the interpreter, two JIT tiers, WebAssembly, the garbage collector, the
    builtins) over mfbt (portable C++ helpers).  This library models parts of
    it whose code is pure computation or explicit state, with the definitions
    written operation by operation after the C++ functions and under their
    names, and proves the properties that make them correct.

    ** Conventions

    A fallible engine function is a computation of the monad [M] of this file:
    it reads an allocator (which requests fail, and what bits an uninitialised
    buffer holds), counts its requests, and returns a value or an [error].
    Besides the exceptions of the engine the errors are the events a correct
    program never shows: a failed MOZ_ASSERT, an index out of a
    mozilla::Span, undefined behaviour of C++ (a shift by the operand's width),
    and the exhaustion of a loop's fuel in the model.  [wp m Q E] says that for
    every allocator [m] returns a value in [Q], or fails with an error in [E],
    or fails with [OutOfMemory] because the allocator refused.  A
    specification whose [E] is [no_error] therefore proves that no assertion
    fails, no index is out of range, no shift is undefined and that every loop
    ends within its fuel.

    A machine word is a [Z] with its wrap-around written out; a BigInt digit
    has [DigitBits] bits, 32 or 64, fixed by the class [Platform]; a double is
    its 64-bit pattern; a character is its code.

    ** The parts

    - util/CheckedArithmetic.h: CheckedArithmetic.v.  Both preprocessor
      variants of SafeAdd, SafeSub, SafeMul; the class [CheckedMul] is what the
      BigInt operations ask of it.
    - vm/BigIntType.h and vm/BigIntType.cpp, the arbitrary-precision integers:
      Words.v (digit arithmetic; the class [DigitKernel] states what digitMul
      and digitDiv promise and has the two implementations of the source as
      instances), BigIntRep.v (the cell: sign and digits, allocation, access,
      trimming, the invariant [wf] and the denoted integer [value]), BigIntAdd.v,
      BigIntMul.v, BigIntDiv.v, BigIntShift.v, BigIntBitwise.v,
      BigIntConvert.v (64-bit integers, asIntN, asUintN), BigIntValue.v (the
      fifteen operators the interpreter calls), BigIntDouble.v (doubles),
      BigIntString.v (reading), BigIntPrint.v (printing).  All theorems hold
      for both digit widths and for any kernel that meets the interface.
    - mfbt/FloatingPoint.h, public/Conversions.h, jsnum.cpp: FloatingPoint.v
      (classification of doubles; [scaled], the number times 2^1074, is an
      integer), Conversions.v (ToInt32 and its siblings).
    - jsnum.cpp and vm/JSAtom-inl.h, the int32 printers: Numerals.v, which also
      has the buffers that are filled from their end and the value of a list of
      digits, shared with the BigInt printers.
    - util/Unicode.h: IsSpace, in BigIntString.v; the generated table of the
      non-ASCII spaces is a parameter.
    - ds/OrderedHashTable.h and mfbt/HashFunctions.h, the tables under the Map
      and Set of the language: OrderedHashTable.v (the table, its ranges, the two
      wrappers), OrderedHashInv.v (the invariant [inv]: chains, live count,
      ranges), OrderedHashOps.v and OrderedHashRanges.v (each operation against
      the abstract state [astate], a list of elements and a position for each
      range), OrderedHashRequests.v (the requests for memory that an operation
      makes and the flag that reports them).  The classes [HashPolicyLaws] and [OpsLaws] state what the header
      asks of its template arguments.
    - jit/MoveResolver.h and .cpp, and visitMoveGroup of jit/CodeGenerator.cpp:
      MoveResolver.v (the search for an order, the cycles, the sorting),
      MoveExec.v (what a list of ordered moves does to a machine), MoveOrder.v
      (the optimisations change nothing), MoveResolve.v (the search).
    - jsdate.cpp, vm/DateTime.h and .cpp, vm/DateObject.h, the dates:
      DoubleArith.v (the operators of C++ on doubles, rounded once), DoubleWhole.v
      (integral doubles), DoubleFixed.v (multiples of 2^-62), Dates.v (Day, Year,
      MakeDay and the others), DateCalendar.v (the calendar as integers, and that
      Dates.v computes it), TimeZone.v (DateTimeInfo and its two caches),
      TimeZoneCache.v (the machine without a cache, and that it gives the same
      answers), DateObject.v (slots, the cache of the local fields, getters and
      setters; the class [LocalZone] is what they ask of the time zone),
      DateObjectInv.v (the invariant [coherent]), DateStrings.v (toISOString,
      toUTCString, both parsers, Date.parse), DateDigits.v and DateLegacy.v (their
      fields), DateParse.v (the parsers on any string).  The parsers and the
      printers meet in the strings; the setters reach the zone through
      [LocalZone] only.
    - jit/RangeAnalysis.h and .cpp, what the optimising JIT knows of each double:
      RangeAnalysis.v (the class Range and its operations), RangeInv.v (the
      doubles of a range, its invariant), DoubleOrder.v (rounding keeps order),
      RangeArith.v, RangeProduct.v, RangeLattice.v, RangeMath.v, RangeRound.v,
      RangeBits.v, RangeShifts.v, RangeWrap.v, RangeDouble.v (each operation
      against the operation on doubles), RangeNodes.v, RangeDivision.v,
      RangeSources.v (the computeRange methods of the nodes), RangeBranches.v
      (the beta nodes that a branch adds).
    - jit/shared/CodeGenerator-shared.cpp, jit/x86-shared/Lowering-x86-shared.cpp
      and CodeGenerator-x86-shared.cpp, the integer divisions and remainders of
      the optimising JIT: JitCode.v (instructions, and a machine that executes
      them), JitDivision.v (lowering, the magic constants, the code of each
      node), JitMagic.v (the constants), JitExec.v (what a division must do,
      [outcome_ok]), JitConstant.v, JitPowerTwo.v, JitRegister.v (the code of the
      nodes).  The instructions behave as the processor's manual says: a flag
      left undefined is [None], and reading it is a failure.

    ** The theorems

    BigIntTheorems.v (C1, C2, C4, C6, C9, C11, C14, C15, C17 to C19): the
    operators refine the operations of the language on integers, with the exact
    conditions of each error (C1, C2); long division, by Algorithm D with its
    digit estimate and its in-place buffers (C4); the equivalence of the
    preprocessor variants (C9, C11; on a zero operand the portable product of C11
    asserts); powers, comparison, 64-bit conversions and
    truncations (C14, C15, C17, C18).  C6 and C19 are defects: a division that
    reports "too large" although its result fits, and a shift whose result
    depends on uninitialised memory; the inputs of C19 are left out of C1.
    DoubleTheorems.v (C20 to C22, C24): modular conversions of doubles, BigInts
    from doubles, correct rounding of BigInts to doubles, exact comparison; and
    the wrong return type of ToUint8.
    StringTheorems.v (C26 to C29, C32, C33): the printers write the canonical
    numeral in every radix within buffers of the computed size, the readers
    accept exactly the literals (C29: with white space around), printing and reading are inverse up to a million
    bits (C32), and not beyond (C33).
    OrderedHashTheorems.v (C34 to C36): any history of operations is that of the
    abstract list (C34), a refused allocation is reported and harmless (C35), a
    loop that
    removes elements while it iterates ends and visits each survivor once (C36).
    MoveTheorems.v (C37 to C39): the ordered moves do what the parallel group
    asks for (C37), the sorting ends within a bound on its turns (C38), the cycles are well formed (C39).
    DateTheorems.v (C3, C8, C13, C40): the caches of the offsets are transparent
    (C3), the cache of the local fields is right along any history of calls in
    zones that differ in their standard offsets (C8) and can be stale otherwise
    (C13), the calendar functions invert each other (C40).
    DateStringTheorems.v (C12, C16, C30): Date.parse reads back what toISOString
    and toUTCString print (C12, C16), and on any string ends with NaN or a time
    value, but for an overflow that needs a number of ten digits or a string of
    2^24 characters (C30).
    RangeTheorems.v (C5, C10, C23, C31): the result of an arithmetic node is in
    the range computed for it, whatever doubles its operands are (C5), and so
    for the nodes on 32-bit integers (C23), for phis and the operands of a taken
    branch (C31); normalising, joining and meeting ranges are the operations on
    the sets of their doubles, and the one kind of range that normalising cannot
    take is named (C10).
    JitTheorems.v (C7, C25): the code of a division by a constant (C7), or by a
    register (C25), computes it in every mode of MDiv and MMod, bails out and
    traps only when it has to, never faults, and its emission fails no
    assertion.

    ** Bounds and fuel

    Loops whose bound is explicit are [for_] and [for_down] and need no fuel.
    The other loops are [loop] with a fuel that a measure bounds: at most 66 for
    a loop that divides or shifts one word, the number of bits for repeated
    division and for powers.  Fuel exhaustion is the error [OutOfFuel], which no
    specification allows.
    A lookup in a hash table has the length of the data vector plus one, the
    search for an order of n moves 2n + 3 turns, the sorting n + n^2 + 1, the
    permissive date parser the length of the string plus one.  A table holds
    fewer than 2^31 elements: the capacity of the next size is undefined.  Time
    values are at most 8.64e15 in magnitude, local times a day more, and the
    years that occur stay below 280000, where every product of the calendar is
    an integer below 2^53, which a double holds exactly.  The search for the
    magic constants of a division takes at most 33 turns; the code of a node runs
    60 instructions at most, and the longest path has fewer.

    ** What is not modelled

    The rest of the engine: the front end (parser, bytecode emitter), the
    interpreter and the object model, the rest of the JIT compilers and the
    encoders of the assemblers, the WebAssembly compiler and validator, the garbage collector, regular
    expressions, the builtins, the debugger, Intl, and the vendored libraries
    (ICU, irregexp, libffi, vixl, zlib, double-conversion).  Within the parts
    above: write barriers, finalisation and nursery placement of BigInt cells,
    the contents of string cells, the caches of printed numbers, the conversion
    of values other than BigInts and numbers (it calls back into user code), and
    the ARM assembly variant of ToInt32; the register pairs of ARM and MIPS in
    the move resolver; the loop analysis with its symbolic bounds and the
    truncation phase of the range analysis; the divisions of 64 bits, and of the
    other targets; construction of a Date, its clock, toString and the
    locale formats, and the display names of zones.  Parameters stand for code
    that is not in the repository or that the model cannot see: the hash policy
    of a table, the values and slots that moves are executed on, the
    facts that earlier passes found of an operand, ICU and the C
    library's clock, and ToNumber and ToString, which run code of the program. *)
From Stdlib Require Export ZArith Lia Bool.
From stdpp Require Export base tactics list numbers.
#[global] Open Scope Z_scope.

(** * Outcomes of an engine operation

    Every fallible engine function returns a value or a null pointer with an
    exception pending on the context; debug builds may in addition stop at a
    failed [MOZ_ASSERT], and [mozilla::Span::operator[]] stops the process on
    an index out of range in every build. *)

Inductive error :=
  | BigIntTooLarge          (* JSMSG_BIGINT_TOO_LARGE *)
  | BigIntDivisionByZero    (* JSMSG_BIGINT_DIVISION_BY_ZERO *)
  | BigIntNegativeExponent  (* JSMSG_BIGINT_NEGATIVE_EXPONENT *)
  | NonIntegerNumberToBigInt  (* JSMSG_NONINTEGER_NUMBER_TO_BIGINT *)
  | LengthLimit             (* a digit count does not fit: ReportOutOfMemory *)
  | BigIntToNumber          (* JSMSG_BIGINT_TO_NUMBER *)
  | BigIntInvalidSyntax     (* the caller's haveParseError flag *)
  | InvalidDate             (* JSMSG_INVALID_DATE *)
  | OutOfMemory             (* the allocator returned null *)
  | AssertionFailed         (* MOZ_ASSERT *)
  | OutOfBounds             (* Span index out of range *)
  | UndefinedBehavior       (* a shift by the operand's width or more *)
  | OutOfFuel.              (* the model's loop bound was reached *)

#[global] Instance error_eq_dec : EqDecision error.
Proof. solve_decision. Defined.

Inductive result (A : Type) :=
  | Ok (a : A)
  | Err (e : error).
Arguments Ok {A} _.
Arguments Err {A} _.

(** The allocator as the engine sees it: the [n]-th request either fails or
    yields a buffer whose cells hold arbitrary bits. *)
Record allocator := Allocator {
  alloc_fails : nat -> bool;
  alloc_junk : nat -> Z -> Z;
}.

Definition may_fail (al : allocator) : Prop := exists n, alloc_fails al n = true.

(** The allocator that never fails and hands out zeroed memory. *)
Definition calm : allocator := Allocator (fun _ => false) (fun _ _ => 0).

Lemma calm_never_fails : ~ may_fail calm.
Proof. intros [n Hn]. discriminate. Qed.

(** A computation reads the allocator, counts its requests and returns a
    value or an error. *)
Definition M (A : Type) : Type := allocator -> nat -> result A * nat.

#[global] Instance M_ret : MRet M := fun A a _ n => (Ok a, n).
#[global] Instance M_bind : MBind M := fun A B k m al n =>
  match m al n with
  | (Ok a, n') => k a al n'
  | (Err e, n') => (Err e, n')
  end.

Lemma bind_ret {A B} (a : A) (k : A -> M B) : (mret a ≫= k) = k a.
Proof. reflexivity. Qed.

(** A value that is returned is determined. *)
Lemma ret_inj {A} (a b : A) : (mret a : M A) = mret b -> a = b.
Proof. intros H. apply (f_equal (fun m => (m calm 0%nat).1)) in H. by injection H. Qed.

Lemma bind_assoc {A B C} (m : M A) (k : A -> M B) (l : B -> M C) al n :
  ((m ≫= k) ≫= l) al n = (m ≫= (fun a => k a ≫= l)) al n.
Proof. unfold mbind, M_bind. by destruct (m al n) as [[a|e] n']. Qed.

(** Two continuations that agree where the first computation ends. *)
Lemma bind_cong {A B} (m : M A) (k k' : A -> M B) al n :
  (forall a n', m al n = (Ok a, n') -> k a al n' = k' a al n') -> (m ≫= k) al n = (m ≫= k') al n.
Proof. unfold mbind, M_bind. destruct (m al n) as [[a|e] n']; [|done]. intros H. by apply H. Qed.

Definition throw {A} (e : error) : M A := fun _ n => (Err e, n).

(** A [MOZ_ASSERT]. *)
Definition moz_assert (b : bool) : M unit :=
  if b then mret tt else throw AssertionFailed.

(** One request to the allocator; its number identifies the buffer. *)
Definition allocate : M nat := fun al n =>
  if alloc_fails al n then (Err OutOfMemory, S n) else (Ok n, S n).

(** A request of code that goes on when it is refused. *)
Definition try_allocate : M bool := fun al n => (Ok (negb (alloc_fails al n)), S n).

(** The [len] cells of buffer [n] before anything is written to them. *)
Definition uninitialized (n : nat) (len : nat) : M (list Z) := fun al k =>
  (Ok ((fun i => alloc_junk al n (Z.of_nat i)) <$> seq 0 len), k).

(** Running a computation from the start on a given allocator. *)
Definition run {A} (al : allocator) (m : M A) : result A := (m al 0%nat).1.

(** ** Loops *)

Section loops.
Context {S : Type}.

Fixpoint for_up (n : nat) (i : Z) (body : Z -> S -> M S) (s : S) : M S :=
  match n with
  | O => mret s
  | Datatypes.S n' => s' ← body i s; for_up n' (i + 1) body s'
  end.

(** [for (i = lo; i < hi; i++) s = body(i, s)] *)
Definition for_ (lo hi : Z) (body : Z -> S -> M S) (s : S) : M S :=
  for_up (Z.to_nat (hi - lo)) lo body s.

Fixpoint for_dn (n : nat) (i : Z) (body : Z -> S -> M S) (s : S) : M S :=
  match n with
  | O => mret s
  | Datatypes.S n' => s' ← body i s; for_dn n' (i - 1) body s'
  end.

(** [for (i = hi; i >= lo; i--) s = body(i, s)] *)
Definition for_down (hi lo : Z) (body : Z -> S -> M S) (s : S) : M S :=
  for_dn (Z.to_nat (hi - lo + 1)) hi body s.

(** A general loop: [inl] continues with a new state, [inr] leaves. *)
Fixpoint loop {R : Type} (fuel : nat) (body : S -> M (S + R)) (s : S) : M R :=
  match fuel with
  | O => throw OutOfFuel
  | Datatypes.S f =>
      r ← body s;
      match r with
      | inl s' => loop f body s'
      | inr r => mret r
      end
  end.
End loops.

(** * Partial-failure specifications

    [wp m Q E]: whatever the allocator does, [m] returns a value in [Q], or
    fails with an error in [E], or fails with [OutOfMemory] and then the
    allocator did refuse a request.  Failed assertions, accesses out of range
    and exhausted fuel count as errors, so a specification whose [E] leaves
    them out proves that they cannot happen. *)

Definition outcome_ok {A} (al : allocator) (Q : A -> Prop) (E : error -> Prop)
    (r : result A) : Prop :=
  match r with
  | Ok a => Q a
  | Err OutOfMemory => may_fail al
  | Err e => E e
  end.

(** On one allocator, from any request on. *)
Definition wp_at {A} (al : allocator) (m : M A) (Q : A -> Prop) (E : error -> Prop) : Prop :=
  forall n, outcome_ok al Q E (m al n).1.

(** On every allocator. *)
Definition wp {A} (m : M A) (Q : A -> Prop) (E : error -> Prop) : Prop :=
  forall al, wp_at al m Q E.

(** The only failure is a refused allocation. *)
Definition no_error (e : error) : Prop := False.

Section wp_rules.
Context {A B : Type}.
Implicit Types (E : error -> Prop).

Lemma wpa_ret al (a : A) Q E : Q a -> wp_at al (mret a) Q E.
Proof. intros H n. exact H. Qed.

Lemma wpa_bind al (m : M A) (k : A -> M B) Q E :
  wp_at al m (fun a => wp_at al (k a) Q E) E -> wp_at al (m ≫= k) Q E.
Proof.
  intros H n. specialize (H n). unfold mbind, M_bind.
  destruct (m al n) as [[a|e] n']; simpl in *; [apply H|].
  destruct e; exact H.
Qed.

Lemma wpa_mono al (m : M A) (Q Q' : A -> Prop) (E E' : error -> Prop) :
  wp_at al m Q E -> (forall a, Q a -> Q' a) -> (forall e, E e -> E' e) -> wp_at al m Q' E'.
Proof.
  intros H HQ HE n. specialize (H n). unfold outcome_ok in *.
  destruct (m al n) as [[a|e] n']; simpl in *; [auto|]. destruct e; auto.
Qed.

Lemma wpa_throw al e (Q : A -> Prop) E : E e -> e <> OutOfMemory -> wp_at al (throw e) Q E.
Proof. intros H He n. destruct e; simpl; congruence. Qed.

Lemma wpa_if al (b : bool) (m1 m2 : M A) Q E :
  (b = true -> wp_at al m1 Q E) -> (b = false -> wp_at al m2 Q E) ->
  wp_at al (if b then m1 else m2) Q E.
Proof. destruct b; auto. Qed.

Lemma wp_ret (a : A) Q E : Q a -> wp (mret a) Q E.
Proof. intros H al. by apply wpa_ret. Qed.

Lemma wp_bind (m : M A) (k : A -> M B) Q E :
  wp m (fun a => wp (k a) Q E) E -> wp (m ≫= k) Q E.
Proof. intros H al. apply wpa_bind. eapply wpa_mono; [apply H| |done]. intros a Ha. apply Ha. Qed.

Lemma wp_mono (m : M A) (Q Q' : A -> Prop) (E E' : error -> Prop) :
  wp m Q E -> (forall a, Q a -> Q' a) -> (forall e, E e -> E' e) -> wp m Q' E'.
Proof. intros H HQ HE al. by eapply wpa_mono; [apply H| |]. Qed.

Lemma wp_throw e (Q : A -> Prop) E : E e -> e <> OutOfMemory -> wp (throw e) Q E.
Proof. intros H He al. by apply wpa_throw. Qed.

Lemma wp_if (b : bool) (m1 m2 : M A) Q E :
  (b = true -> wp m1 Q E) -> (b = false -> wp m2 Q E) ->
  wp (if b then m1 else m2) Q E.
Proof. destruct b; auto. Qed.

(** Computations that behave alike. *)
Lemma wpa_ext al (m m' : M A) Q E : (forall n, m al n = m' al n) -> wp_at al m Q E -> wp_at al m' Q E.
Proof. intros Heq H n. rewrite <- Heq. apply H. Qed.

Lemma wp_wpa al (m : M A) Q E : wp m Q E -> wp_at al m Q E.
Proof. intros H. apply H. Qed.

(** A specification read on a run. *)
Lemma wpa_run (m : M A) Q E al : wp_at al m Q E -> ~ may_fail al ->
  match run al m with Ok a => Q a | Err e => E e end.
Proof.
  intros H Hal. specialize (H 0%nat). unfold run, outcome_ok in *.
  destruct (m al 0%nat) as [[a|e] n']; simpl in *; [exact H|]. destruct e; try exact H. contradiction.
Qed.

Lemma wp_run (m : M A) Q E al :
  wp m Q E -> ~ may_fail al ->
  match run al m with Ok a => Q a | Err e => E e end.
Proof. intros H. by apply wpa_run. Qed.
End wp_rules.

Lemma wp_weaken_ok {A} (m : M A) (Q Q' : A -> Prop) E :
  wp m Q E -> (forall a, Q a -> Q' a) -> wp m Q' E.
Proof. intros H HQ. eapply wp_mono; eauto. Qed.

#[global] Instance wp_proper {A} (m : M A) :
  Proper (pointwise_relation A impl ==> pointwise_relation error impl ==> impl) (wp m).
Proof. intros Q Q' HQ E E' HE H. eapply wp_mono; [exact H|exact HQ|exact HE]. Qed.

Lemma wpa_assert al (b : bool) (Q : unit -> Prop) E :
  b = true -> Q tt -> wp_at al (moz_assert b) Q E.
Proof. intros -> H. apply wpa_ret, H. Qed.

(** A request whose failure the caller handles. *)
Lemma wpa_try_allocate al (Q : bool -> Prop) E :
  Q true -> (may_fail al -> Q false) -> wp_at al try_allocate Q E.
Proof.
  intros Ht Hf n. unfold try_allocate. simpl. destruct (alloc_fails al n) eqn:E1; simpl; [|exact Ht].
  apply Hf. by exists n.
Qed.

Lemma wp_assert (b : bool) (Q : unit -> Prop) E :
  b = true -> Q tt -> wp (moz_assert b) Q E.
Proof. intros -> H. apply wp_ret, H. Qed.

Lemma wp_allocate (Q : nat -> Prop) E : (forall n, Q n) -> wp allocate Q E.
Proof.
  intros H al n. unfold allocate. destruct (alloc_fails al n) eqn:Hf; simpl; [|auto].
  exists n; exact Hf.
Qed.

Lemma wp_uninitialized n len (Q : list Z -> Prop) E :
  (forall l, length l = len -> Q l) -> wp (uninitialized n len) Q E.
Proof. intros H al k. apply H. by rewrite length_fmap, length_seq. Qed.

(** On one allocator the cells of a buffer are what it hands out. *)
Lemma wpa_allocate al (Q : nat -> Prop) E : (forall n, Q n) -> wp_at al allocate Q E.
Proof. intros H. by apply wp_allocate. Qed.

Lemma wpa_uninitialized al n len (Q : list Z -> Prop) E :
  Q ((fun i => alloc_junk al n (Z.of_nat i)) <$> seq 0 len) -> wp_at al (uninitialized n len) Q E.
Proof. intros H k. exact H. Qed.

Section loop_rules.
Context {S : Type}.

Lemma wpa_for_up al (I : Z -> S -> Prop) E n : forall lo body s (Q : S -> Prop),
  I lo s ->
  (forall i s, lo <= i < lo + Z.of_nat n -> I i s -> wp_at al (body i s) (I (i + 1)) E) ->
  (forall s, I (lo + Z.of_nat n) s -> Q s) ->
  wp_at al (for_up n lo body s) Q E.
Proof.
  induction n as [|n IH]; intros lo body s Q HI Hstep HQ; cbn [for_up].
  - apply wpa_ret, HQ. by rewrite Z.add_0_r.
  - apply wpa_bind. eapply wpa_mono; [apply Hstep; [lia|exact HI]| |auto].
    intros s' HI'. apply IH; [exact HI'| |].
    + intros i s0 Hi. apply Hstep. lia.
    + intros s0. replace (lo + 1 + Z.of_nat n) with (lo + Z.of_nat (Datatypes.S n)) by lia. auto.
Qed.

(** Invariant rule for an upward loop. *)
Lemma wpa_for al (I : Z -> S -> Prop) lo hi body s (Q : S -> Prop) E :
  lo <= hi -> I lo s ->
  (forall i s, lo <= i < hi -> I i s -> wp_at al (body i s) (I (i + 1)) E) ->
  (forall s, I hi s -> Q s) ->
  wp_at al (for_ lo hi body s) Q E.
Proof.
  intros Hle HI Hstep HQ. eapply (wpa_for_up al I); [exact HI| |].
  - intros i s' Hi. apply Hstep. lia.
  - intros s'. rewrite Z2Nat.id by lia. replace (lo + (hi - lo)) with hi by lia. auto.
Qed.

Lemma wp_for (I : Z -> S -> Prop) lo hi body s (Q : S -> Prop) E :
  lo <= hi -> I lo s ->
  (forall i s, lo <= i < hi -> I i s -> wp (body i s) (I (i + 1)) E) ->
  (forall s, I hi s -> Q s) ->
  wp (for_ lo hi body s) Q E.
Proof. intros Hle HI Hstep HQ al. eapply (wpa_for al I); [done..| |done]. intros i s' Hi Hs. by apply Hstep. Qed.

(** The loop body does not run when the bounds are crossed. *)
Lemma for_empty lo hi body (s : S) : hi <= lo -> for_ lo hi body s = mret s.
Proof. intros H. unfold for_. by replace (Z.to_nat (hi - lo)) with O by lia. Qed.

Lemma wpa_for_dn al (I : Z -> S -> Prop) E n : forall hi body s (Q : S -> Prop),
  I hi s ->
  (forall i s, hi - Z.of_nat n < i <= hi -> I i s -> wp_at al (body i s) (I (i - 1)) E) ->
  (forall s, I (hi - Z.of_nat n) s -> Q s) ->
  wp_at al (for_dn n hi body s) Q E.
Proof.
  induction n as [|n IH]; intros hi body s Q HI Hstep HQ; cbn [for_dn].
  - apply wpa_ret, HQ. by rewrite Z.sub_0_r.
  - apply wpa_bind. eapply wpa_mono; [apply Hstep; [lia|exact HI]| |auto].
    intros s' HI'. apply IH; [exact HI'| |].
    + intros i s0 Hi. apply Hstep. lia.
    + intros s0. replace (hi - 1 - Z.of_nat n) with (hi - Z.of_nat (Datatypes.S n)) by lia. auto.
Qed.

(** Invariant rule for a downward loop; the invariant is indexed by the
    next index to be visited. *)
Lemma wpa_for_down al (I : Z -> S -> Prop) hi lo body s (Q : S -> Prop) E :
  lo - 1 <= hi -> I hi s ->
  (forall i s, lo <= i <= hi -> I i s -> wp_at al (body i s) (I (i - 1)) E) ->
  (forall s, I (lo - 1) s -> Q s) ->
  wp_at al (for_down hi lo body s) Q E.
Proof.
  intros Hle HI Hstep HQ. eapply (wpa_for_dn al I); [exact HI| |].
  - intros i s' Hi. apply Hstep. lia.
  - intros s'. rewrite Z2Nat.id by lia. replace (hi - (hi - lo + 1)) with (lo - 1) by lia. auto.
Qed.

Lemma wp_for_down (I : Z -> S -> Prop) hi lo body s (Q : S -> Prop) E :
  lo - 1 <= hi -> I hi s ->
  (forall i s, lo <= i <= hi -> I i s -> wp (body i s) (I (i - 1)) E) ->
  (forall s, I (lo - 1) s -> Q s) ->
  wp (for_down hi lo body s) Q E.
Proof. intros Hle HI Hstep HQ al. eapply (wpa_for_down al I); [done..| |done]. intros i s' Hi Hs. by apply Hstep. Qed.

(** Invariant and measure rule for a general loop: fuel above the measure
    of the first state is enough. *)
Lemma wpa_loop {R} al (I : S -> Prop) (measure : S -> Z) fuel body s (Q : R -> Prop) E :
  I s -> measure s < Z.of_nat fuel ->
  (forall s, I s -> 0 <= measure s) ->
  (forall s, I s -> wp_at al (body s)
     (fun r => match r with
               | inl s' => I s' /\ measure s' < measure s
               | inr r => Q r
               end) E) ->
  wp_at al (loop fuel body s) Q E.
Proof.
  intros HI Hm Hpos Hstep. revert s HI Hm. induction fuel as [|f IH]; intros s HI Hm.
  - specialize (Hpos s HI). lia.
  - cbn [loop]. apply wpa_bind. eapply wpa_mono; [apply (Hstep s HI)| |auto].
    intros [s'|r] Hr; [|by apply wpa_ret]. apply IH; [apply Hr|lia].
Qed.

Lemma wp_loop {R} (I : S -> Prop) (measure : S -> Z) fuel body s (Q : R -> Prop) E :
  I s -> measure s < Z.of_nat fuel ->
  (forall s, I s -> 0 <= measure s) ->
  (forall s, I s -> wp (body s)
     (fun r => match r with
               | inl s' => I s' /\ measure s' < measure s
               | inr r => Q r
               end) E) ->
  wp (loop fuel body s) Q E.
Proof. intros HI Hm Hpos Hstep al. eapply (wpa_loop al I measure); [done..|]. intros s' Hs. by apply Hstep. Qed.
End loop_rules.

#[global] Opaque wp wp_at.
#[global] Arguments for_ {S} lo hi body s : simpl never.
#[global] Arguments for_down {S} hi lo body s : simpl never.
#[global] Opaque for_ for_down.

(** One step of symbolic execution of a computation. *)
Ltac wp_step :=
  lazymatch goal with
  | |- wp (mret _) _ _ => apply wp_ret
  | |- wp (mbind _ _) _ _ => apply wp_bind
  | |- wp (moz_assert _) _ _ => apply wp_assert
  | |- wp (if _ then _ else _) _ _ => let Hc := fresh "Hc" in apply wp_if; intros Hc
  | |- wp_at _ (mret _) _ _ => apply wpa_ret
  | |- wp_at _ (mbind _ _) _ _ => apply wpa_bind
  | |- wp_at _ (moz_assert _) _ _ => apply wpa_assert
  | |- wp_at _ (if _ then _ else _) _ _ => let Hc := fresh "Hc" in apply wpa_if; intros Hc
  end.

(** Replace a call by its specification: [wp_call H] leaves the
    preconditions of [H] and the continuation. *)
Ltac wp_call H := eapply wp_mono; [eapply H|cbv beta|try contradiction].

(** Case analysis on the boolean tests of the code, with their arithmetic
    meaning left in the context. *)
Ltac bsplit :=
  repeat match goal with
  | H : _ && _ = true |- _ => apply andb_true_iff in H; destruct H
  | H : _ || _ = false |- _ => apply orb_false_iff in H; destruct H
  | H : negb _ = true |- _ => apply negb_true_iff in H
  | H : negb _ = false |- _ => apply negb_false_iff in H
  | H : (_ =? _) = true |- _ => apply Z.eqb_eq in H
  | H : (_ =? _) = false |- _ => apply Z.eqb_neq in H
  | H : (_ <? _) = true |- _ => apply Z.ltb_lt in H
  | H : (_ <? _) = false |- _ => apply Z.ltb_ge in H
  | H : (_ <=? _) = true |- _ => apply Z.leb_le in H
  | H : (_ <=? _) = false |- _ => apply Z.leb_gt in H
  | H : (_ >? _) = true |- _ => apply Z.gtb_lt in H
  | H : (_ >? _) = false |- _ => rewrite Z.gtb_ltb in H; apply Z.ltb_ge in H
  | H : (_ >=? _) = true |- _ => rewrite Z.geb_leb in H; apply Z.leb_le in H
  | H : (_ >=? _) = false |- _ => rewrite Z.geb_leb in H; apply Z.leb_gt in H
  end.

(** The integer with sign flag [neg] and magnitude [a]. *)
Definition signed (neg : bool) (a : Z) : Z := if neg then - a else a.

(** ** Lists addressed by machine integers *)

Definition zlen {A} (l : list A) : Z := Z.of_nat (length l).

(** Read of cell [i]; 0 out of range (every use is guarded). *)
Definition zget (l : list Z) (i : Z) : Z := if i <? 0 then 0 else nth (Z.to_nat i) l 0.
Definition zset (l : list Z) (i v : Z) : list Z := <[Z.to_nat i := v]> l.

Section zlists.
Implicit Types l : list Z.

Lemma zlen_nonneg {A} (l : list A) : 0 <= zlen l.
Proof. unfold zlen. lia. Qed.

Lemma zlen_zset l i v : zlen (zset l i v) = zlen l.
Proof. unfold zlen, zset. by rewrite length_insert. Qed.

Lemma zget_oob l i : i < 0 \/ zlen l <= i -> zget l i = 0.
Proof.
  unfold zget, zlen. intros H. destruct (Z.ltb_spec i 0); [done|].
  apply nth_overflow. lia.
Qed.

Lemma zget_lookup l i : 0 <= i < zlen l -> l !! Z.to_nat i = Some (zget l i).
Proof.
  unfold zget, zlen. intros H. destruct (Z.ltb_spec i 0); [lia|].
  destruct (l !! Z.to_nat i) eqn:E.
  - by rewrite (nth_lookup_Some _ _ _ _ E).
  - apply lookup_ge_None in E. lia.
Qed.

Lemma zget_zset l i j v :
  0 <= i < zlen l -> zget (zset l i v) j = if j =? i then v else zget l j.
Proof.
  unfold zget, zset, zlen. intros Hi. destruct (Z.ltb_spec j 0).
  { destruct (Z.eqb_spec j i); [lia|done]. }
  rewrite !nth_lookup. destruct (Z.eqb_spec j i) as [->|Hne].
  - by rewrite list_lookup_insert_eq by lia.
  - by rewrite list_lookup_insert_ne by lia.
Qed.

Lemma zget_zset_same l i v : 0 <= i < zlen l -> zget (zset l i v) i = v.
Proof. intros H. rewrite zget_zset by done. by rewrite Z.eqb_refl. Qed.

Lemma zget_zset_other l i j v : j <> i -> 0 <= i -> zget (zset l i v) j = zget l j.
Proof.
  unfold zget, zset. intros Hne Hi. destruct (Z.ltb_spec j 0); [done|].
  rewrite !nth_lookup. by rewrite list_lookup_insert_ne by lia.
Qed.

Lemma zget_ext l m :
  zlen l = zlen m -> (forall i, 0 <= i < zlen l -> zget l i = zget m i) -> l = m.
Proof.
  unfold zlen. intros Hlen H. apply list_eq. intros i.
  destruct (decide (i < length l)%nat) as [Hi|Hi].
  - specialize (H (Z.of_nat i)).
    rewrite <- (Nat2Z.id i), !zget_lookup by (unfold zlen; lia). f_equal. apply H. lia.
  - by rewrite !lookup_ge_None_2 by lia.
Qed.

Lemma zget_In l i : 0 <= i < zlen l -> In (zget l i) l.
Proof. unfold zget, zlen. destruct (Z.ltb_spec i 0); [lia|]. intros. apply nth_In. lia. Qed.

Lemma zget_take l n i : 0 <= i < Z.of_nat n -> zget (take n l) i = zget l i.
Proof.
  unfold zget. intros H. destruct (Z.ltb_spec i 0); [lia|].
  rewrite !nth_lookup. by rewrite lookup_take_lt by lia.
Qed.

Lemma zget_cons0 a l : zget (a :: l) 0 = a.
Proof. done. Qed.

Lemma zget_cons_succ a l i : 0 <= i -> zget (a :: l) (i + 1) = zget l i.
Proof.
  unfold zget. intros H. destruct (Z.ltb_spec (i + 1) 0), (Z.ltb_spec i 0); try lia.
  by replace (Z.to_nat (i + 1)) with (S (Z.to_nat i)) by lia.
Qed.
End zlists.

#[global] Arguments zget : simpl never.
#[global] Arguments zset : simpl never.
Create HintDb zlist.
Create Rewrite HintDb zlist.
#[global] Hint Rewrite zlen_zset : zlist.
#[global] Hint Resolve zlen_nonneg : zlist.
