(* ===== verification/Words.v ===== *)
(** Machine words and the digit kernel.

    [Platform] fixes the digit width of vm/BigIntType.h ([Digit] is
    [uintptr_t], so 32 or 64 bits); [DigitKernel] is the interface of the two
    primitive operations the source chooses with the preprocessor, [digitMul]
    and [digitDiv].  The file gives the two instances the source has (a double
    width type and the processor's division; half digits and Warren's
    division) and proves that both meet the interface. *)
From S2P Require Import Prelude.

(** * Digit width *)

Class Platform := {
  DigitBits : Z;
  DigitBits_cases : DigitBits = 32 \/ DigitBits = 64;
}.

Definition platform32 : Platform := {| DigitBits := 32; DigitBits_cases := or_introl eq_refl |}.
Definition platform64 : Platform := {| DigitBits := 64; DigitBits_cases := or_intror eq_refl |}.

Section words.
Context {P : Platform}.

Definition Base : Z := 2 ^ DigitBits.
Definition HalfDigitBits : Z := DigitBits / 2.
Definition HalfDigitMask : Z := 2 ^ HalfDigitBits - 1.
Definition HalfDigitBase : Z := Z.shiftl 1 HalfDigitBits.

(** Conversion to a [Digit] discards the high bits. *)
Definition wrap (z : Z) : Z := z mod Base.

Definition digit_ok (d : Z) : Prop := 0 <= d < Base.

(** Shifts of a digit; the standard leaves shifts by the width undefined. *)
Definition shl (d s : Z) : M Z :=
  if (0 <=? s) && (s <? DigitBits) then mret (wrap (Z.shiftl d s)) else throw UndefinedBehavior.
Definition shr (d s : Z) : M Z :=
  if (0 <=? s) && (s <? DigitBits) then mret (Z.shiftr d s) else throw UndefinedBehavior.

Definition DigitLeadingZeroes (x : Z) : M Z :=
  moz_assert (negb (x =? 0));; mret (DigitBits - 1 - Z.log2 x).

(** Return [a + b], incrementing the carry if the addition overflows. *)
Definition digitAdd (a b carry : Z) : Z * Z :=
  let result := wrap (a + b) in
  (result, wrap (carry + Z.b2z (result <? a))).

(** Return [left - right], incrementing the borrow on underflow. *)
Definition digitSub (left right borrow : Z) : Z * Z :=
  let result := wrap (left - right) in
  (result, wrap (borrow + Z.b2z (result >? left))).

(** ** The two implementations of [digitMul] *)

Definition digitMul_twodigit (a b : Z) : Z * Z :=
  let result := a * b in
  (wrap result, Z.shiftr result DigitBits).

Definition digitMul_portable (a b : Z) : Z * Z :=
  let aLow := Z.land a HalfDigitMask in
  let aHigh := Z.shiftr a HalfDigitBits in
  let bLow := Z.land b HalfDigitMask in
  let bHigh := Z.shiftr b HalfDigitBits in
  let rLow := wrap (aLow * bLow) in
  let rMid1 := wrap (aLow * bHigh) in
  let rMid2 := wrap (aHigh * bLow) in
  let rHigh := wrap (aHigh * bHigh) in
  let '(low, carry) := digitAdd rLow (wrap (Z.shiftl rMid1 HalfDigitBits)) 0 in
  let '(low, carry) := digitAdd low (wrap (Z.shiftl rMid2 HalfDigitBits)) carry in
  (low, wrap (Z.shiftr rMid1 HalfDigitBits + Z.shiftr rMid2 HalfDigitBits + rHigh + carry)).

(** ** The two implementations of [digitDiv] *)

(** The x86 [div] instruction on the pair (high, low). *)
Definition digitDiv_asm (high low divisor : Z) : M (Z * Z) :=
  moz_assert (high <? divisor);;
  mret ((high * Base + low) / divisor, (high * Base + low) mod divisor).

(** One of the two correction loops:
    while (q >= HalfDigitBase || q * vn0 > rhat * HalfDigitBase + un) *)
Definition correct_quotient (vn1 vn0 un : Z) : Z * Z -> M (Z * Z + Z * Z) :=
  fun '(q, rhat) =>
    if (q >=? HalfDigitBase) || (wrap (q * vn0) >? wrap (rhat * HalfDigitBase + un)) then
      let q := wrap (q - 1) in
      let rhat := wrap (rhat + vn1) in
      if rhat >=? HalfDigitBase then mret (inr (q, rhat)) else mret (inl (q, rhat))
    else mret (inr (q, rhat)).

Definition digitDiv_portable (high low divisor : Z) : M (Z * Z) :=
  moz_assert (high <? divisor);;
  s ← DigitLeadingZeroes divisor;
  moz_assert (negb (s =? DigitBits));;
  divisor ← shl divisor s;
  let vn1 := Z.shiftr divisor HalfDigitBits in
  let vn0 := Z.land divisor HalfDigitMask in
  (* static_cast<Digit>((-static_cast<intptr_t>(s)) >> (DigitBits - 1)) *)
  let sZeroMask := wrap (Z.shiftr (- s) (DigitBits - 1)) in
  let shiftMask := DigitBits - 1 in
  hi ← shl high s;
  lo ← shr low (Z.land (DigitBits - s) shiftMask);
  let un32 := Z.lor hi (Z.land lo sZeroMask) in
  un10 ← shl low s;
  let un1 := Z.shiftr un10 HalfDigitBits in
  let un0 := Z.land un10 HalfDigitMask in
  let q1 := un32 / vn1 in
  let rhat := wrap (un32 - q1 * vn1) in
  '(q1, rhat) ← loop 4 (correct_quotient vn1 vn0 un1) (q1, rhat);
  let un21 := wrap (un32 * HalfDigitBase + un1 - q1 * divisor) in
  let q0 := un21 / vn1 in
  let rhat := wrap (un21 - q0 * vn1) in
  '(q0, rhat) ← loop 4 (correct_quotient vn1 vn0 un0) (q0, rhat);
  let rem := wrap (un21 * HalfDigitBase + un0 - q0 * divisor) in
  remainder ← shr rem s;
  mret (wrap (q1 * HalfDigitBase + q0), remainder).
End words.

(** * The interface of the digit kernel *)

Class DigitKernel {P : Platform} := {
  digitMul : Z -> Z -> Z * Z;
  digitDiv : Z -> Z -> Z -> M (Z * Z);
  digitMul_ok a b : digit_ok a -> digit_ok b ->
    digitMul a b = (a * b mod Base, a * b / Base);
  digitDiv_ok high low divisor :
    digit_ok low -> 0 <= high < divisor -> digit_ok divisor ->
    wp (digitDiv high low divisor)
      (fun r => r = ((high * Base + low) / divisor, (high * Base + low) mod divisor)) no_error;
}.

(** * Facts about words *)

Section facts.
Context {P : Platform}.

Lemma DigitBits_pos : 0 < DigitBits.
Proof. destruct DigitBits_cases as [-> | ->]; lia. Qed.

Lemma Base_pos : 0 < Base.
Proof. unfold Base. pose proof DigitBits_pos. apply Z.pow_pos_nonneg; lia. Qed.

Lemma Base_nonzero : Base <> 0.
Proof. pose proof Base_pos. lia. Qed.

Lemma Base_big : 2 ^ 32 <= Base.
Proof. unfold Base. destruct DigitBits_cases as [-> | ->]; lia. Qed.

Lemma HalfDigitBits_double : DigitBits = HalfDigitBits + HalfDigitBits.
Proof. unfold HalfDigitBits. destruct DigitBits_cases as [-> | ->]; reflexivity. Qed.

Lemma HalfDigitBits_pos : 0 < HalfDigitBits.
Proof. unfold HalfDigitBits. destruct DigitBits_cases as [-> | ->]; reflexivity. Qed.

Lemma HalfDigitBase_eq : HalfDigitBase = 2 ^ HalfDigitBits.
Proof. unfold HalfDigitBase. rewrite Z.shiftl_mul_pow2; [lia|]. pose proof HalfDigitBits_pos. lia. Qed.

Lemma Base_half : Base = HalfDigitBase * HalfDigitBase.
Proof.
  rewrite HalfDigitBase_eq. unfold Base. rewrite HalfDigitBits_double at 1.
  pose proof HalfDigitBits_pos. apply Z.pow_add_r; lia.
Qed.

Lemma Base_above_half : 4 * HalfDigitBase <= Base.
Proof.
  rewrite HalfDigitBase_eq. unfold Base, HalfDigitBits.
  destruct DigitBits_cases as [-> | ->]; vm_compute; intros; discriminate.
Qed.

Lemma HalfDigitBase_big : 2 ^ 16 <= HalfDigitBase.
Proof. rewrite HalfDigitBase_eq. unfold HalfDigitBits. destruct DigitBits_cases as [-> | ->]; vm_compute; intros; discriminate. Qed.

Lemma wrap_small z : digit_ok z -> wrap z = z.
Proof. apply Z.mod_small. Qed.

Lemma wrap_ok z : digit_ok (wrap z).
Proof. apply Z.mod_pos_bound, Base_pos. Qed.

Lemma half_low z : Z.land z HalfDigitMask = z mod HalfDigitBase.
Proof.
  unfold HalfDigitMask. rewrite HalfDigitBase_eq. pose proof HalfDigitBits_pos.
  rewrite <- Z.land_ones by lia. f_equal. rewrite Z.ones_equiv. lia.
Qed.

Lemma half_high z : Z.shiftr z HalfDigitBits = z / HalfDigitBase.
Proof. rewrite HalfDigitBase_eq, Z.shiftr_div_pow2; [done|]. pose proof HalfDigitBits_pos. lia. Qed.

Lemma half_shl z : Z.shiftl z HalfDigitBits = z * HalfDigitBase.
Proof. rewrite HalfDigitBase_eq, Z.shiftl_mul_pow2; [done|]. pose proof HalfDigitBits_pos. lia. Qed.

(** An addition and its carry, as one equation. *)
Lemma digitAdd_spec a b c :
  digit_ok a -> digit_ok b -> 0 <= c -> c + 1 < Base ->
  let '(s, c') := digitAdd a b c in
  digit_ok s /\ c <= c' <= c + 1 /\ s + (c' - c) * Base = a + b.
Proof.
  unfold digitAdd, wrap, digit_ok. intros Ha Hb Hc0 Hc.
  destruct (Z.ltb_spec ((a + b) mod Base) a) as [Hlt|Hge]; cbn [Z.b2z].
  - assert (Hov : Base <= a + b).
    { destruct (Z_lt_le_dec (a + b) Base); [|done]. rewrite Z.mod_small in Hlt; lia. }
    assert (Hm : (a + b) mod Base = a + b - Base).
    { symmetry. apply (Z.mod_unique_pos _ _ 1); lia. }
    rewrite (Z.mod_small (c + 1)) by lia. lia.
  - assert (Hov : a + b < Base).
    { destruct (Z_lt_le_dec (a + b) Base); [done|].
      assert ((a + b) mod Base = a + b - Base); [symmetry; apply (Z.mod_unique_pos _ _ 1); lia|lia]. }
    rewrite !Z.mod_small by lia. lia.
Qed.

Lemma digitSub_spec a b c :
  digit_ok a -> digit_ok b -> 0 <= c -> c + 1 < Base ->
  let '(s, c') := digitSub a b c in
  digit_ok s /\ c <= c' <= c + 1 /\ s - (c' - c) * Base = a - b.
Proof.
  unfold digitSub, wrap, digit_ok. intros Ha Hb Hc0 Hc. rewrite Z.gtb_ltb.
  destruct (Z_lt_le_dec (a - b) 0) as [Hneg|Hpos].
  - assert (Hm : (a - b) mod Base = a - b + Base).
    { symmetry. apply (Z.mod_unique_pos _ _ (-1)); lia. }
    rewrite Hm. destruct (Z.ltb_spec a (a - b + Base)); cbn [Z.b2z]; [|lia].
    rewrite Z.mod_small by lia. lia.
  - rewrite (Z.mod_small (a - b)) by lia.
    destruct (Z.ltb_spec a (a - b)); cbn [Z.b2z]; [lia|]. rewrite Z.mod_small by lia. lia.
Qed.
End facts.

(** * Correctness of the two multiplications *)

Section multiplication.
Context {P : Platform}.

Lemma half_parts z : digit_ok z ->
  z = z / HalfDigitBase * HalfDigitBase + z mod HalfDigitBase /\
  0 <= z / HalfDigitBase < HalfDigitBase /\ 0 <= z mod HalfDigitBase < HalfDigitBase.
Proof.
  unfold digit_ok. rewrite Base_half. pose proof HalfDigitBase_big. intros Hz.
  pose proof (Z.div_mod z HalfDigitBase). pose proof (Z.mod_pos_bound z HalfDigitBase).
  repeat split; try lia; [apply Z.div_pos|apply Z.div_lt_upper_bound]; lia.
Qed.

Lemma half_product_ok x y :
  0 <= x < HalfDigitBase -> 0 <= y < HalfDigitBase -> digit_ok (x * y).
Proof. unfold digit_ok. rewrite Base_half. nia. Qed.

Lemma wrap_half_shl z : digit_ok z ->
  wrap (z * HalfDigitBase) = z mod HalfDigitBase * HalfDigitBase.
Proof.
  intros Hz. unfold wrap. rewrite Base_half. pose proof HalfDigitBase_big.
  by rewrite Z.mul_mod_distr_r by lia.
Qed.

Lemma low_high_unique low high n :
  digit_ok low -> n = high * Base + low -> low = n mod Base /\ high = n / Base.
Proof.
  intros Hl ->. unfold digit_ok in *. split.
  - apply (Z.mod_unique_pos _ _ high); lia.
  - apply (Z.div_unique_pos _ _ _ low); lia.
Qed.

Lemma digitMul_twodigit_ok a b : digit_ok a -> digit_ok b ->
  digitMul_twodigit a b = (a * b mod Base, a * b / Base).
Proof.
  intros _ _. unfold digitMul_twodigit. rewrite Z.shiftr_div_pow2; [done|].
  pose proof DigitBits_pos. lia.
Qed.

Lemma digitMul_portable_ok a b : digit_ok a -> digit_ok b ->
  digitMul_portable a b = (a * b mod Base, a * b / Base).
Proof.
  intros Ha Hb. unfold digitMul_portable.
  rewrite !half_low, !half_high, !half_shl.
  destruct (half_parts a Ha) as (Ea & Hah & Hal), (half_parts b Hb) as (Eb & Hbh & Hbl).
  set (al := a mod _) in *. set (ah := a / _) in *.
  set (bl := b mod _) in *. set (bh := b / _) in *.
  rewrite (wrap_small (al * bl)), (wrap_small (al * bh)), (wrap_small (ah * bl)),
    (wrap_small (ah * bh)) by (by apply half_product_ok).
  rewrite !wrap_half_shl by (by apply half_product_ok).
  destruct (half_parts (al * bh)) as (E1 & H1h & H1l); [by apply half_product_ok|].
  destruct (half_parts (ah * bl)) as (E2 & H2h & H2l); [by apply half_product_ok|].
  set (m1 := al * bh) in *. set (m2 := ah * bl) in *.
  pose proof Base_half as HB. pose proof Base_big. pose proof HalfDigitBase_big.
  assert (Hm : forall z, 0 <= z < HalfDigitBase -> digit_ok (z * HalfDigitBase))
    by (unfold digit_ok; nia).
  pose proof (digitAdd_spec (al * bl) (m1 mod HalfDigitBase * HalfDigitBase) 0) as A1.
  destruct (digitAdd _ _ 0) as [s1 c1].
  destruct A1 as (Hs1 & Hc1 & A1); [by apply half_product_ok|by apply Hm|lia|lia|].
  pose proof (digitAdd_spec s1 (m2 mod HalfDigitBase * HalfDigitBase) c1) as A2.
  destruct (digitAdd _ _ c1) as [s2 c2].
  destruct A2 as (Hs2 & Hc2 & A2); [done|by apply Hm|lia|lia|].
  set (high := m1 / HalfDigitBase + m2 / HalfDigitBase + ah * bh + c2).
  assert (Hprod : a * b = high * Base + s2).
  { assert (Ep : a * b = ah * bh * Base + (m1 + m2) * HalfDigitBase + al * bl)
      by (rewrite HB; unfold m1, m2; rewrite Ea, Eb at 1; ring).
    apply (f_equal (fun z => z * HalfDigitBase)) in E1, E2.
    rewrite Ep. unfold high. rewrite HB in *. lia. }
  destruct (low_high_unique s2 high (a * b)) as [El Eh]; [done..|].
  rewrite (wrap_small high); [by rewrite El, Eh at 1|].
  rewrite Eh. unfold digit_ok in *. split; [apply Z.div_pos; [apply Z.mul_nonneg_nonneg|]; lia|].
  apply Z.div_lt_upper_bound; [lia|]. apply Z.mul_lt_mono_nonneg; lia.
Qed.
End multiplication.

(** * Correctness of the two divisions *)

Section word_rules.
Context {P : Platform}.

Lemma wp_shl d s (Q : Z -> Prop) E :
  0 <= s < DigitBits -> Q (wrap (d * 2 ^ s)) -> wp (shl d s) Q E.
Proof.
  intros Hs HQ. unfold shl. rewrite (proj2 (Z.leb_le 0 s)), (proj2 (Z.ltb_lt s _)) by lia.
  apply wp_ret. by rewrite Z.shiftl_mul_pow2 by lia.
Qed.

Lemma wp_shr d s (Q : Z -> Prop) E :
  0 <= s < DigitBits -> Q (d / 2 ^ s) -> wp (shr d s) Q E.
Proof.
  intros Hs HQ. unfold shr. rewrite (proj2 (Z.leb_le 0 s)), (proj2 (Z.ltb_lt s _)) by lia.
  apply wp_ret. by rewrite Z.shiftr_div_pow2 by lia.
Qed.

(** The number of leading zeroes normalises a digit. *)
Lemma wp_DigitLeadingZeroes x (Q : Z -> Prop) E :
  digit_ok x -> x <> 0 ->
  (forall s, 0 <= s < DigitBits -> 2 ^ (DigitBits - 1) <= x * 2 ^ s < Base ->
     Z.log2 x = DigitBits - 1 - s -> Q s) ->
  wp (DigitLeadingZeroes x) Q E.
Proof.
  intros Hx Hnz HQ. unfold DigitLeadingZeroes. wp_step. wp_step.
  { by apply negb_true_iff, Z.eqb_neq. }
  wp_step. unfold digit_ok, Base in *. pose proof DigitBits_pos.
  assert (Hlog : Z.log2 x < DigitBits) by (apply Z.log2_lt_pow2; lia).
  pose proof (Z.log2_nonneg x). pose proof (Z.log2_spec x ltac:(lia)) as [Hlo Hhi].
  apply HQ; [lia| |lia].
  assert (E1 : 2 ^ (DigitBits - 1) = 2 ^ Z.log2 x * 2 ^ (DigitBits - 1 - Z.log2 x))
    by (rewrite <- Z.pow_add_r by lia; f_equal; lia).
  assert (E2 : 2 ^ DigitBits = 2 ^ Z.succ (Z.log2 x) * 2 ^ (DigitBits - 1 - Z.log2 x))
    by (rewrite <- Z.pow_add_r by lia; f_equal; lia).
  pose proof (Z.pow_pos_nonneg 2 (DigitBits - 1 - Z.log2 x)). nia.
Qed.
End word_rules.

Section half_step.
Context {P : Platform}.
(** One quotient digit in base [HalfDigitBase]: a normalised divisor
    [v = vn1 * hb + vn0], a partial remainder [u < v] and the next half
    digit [un]. *)
Variables (vn1 vn0 u un : Z).
Abbreviation hb := HalfDigitBase.
Hypothesis Hvn1 : hb <= 2 * vn1 /\ vn1 < hb.
Hypothesis Hvn0 : 0 <= vn0 < hb.
Hypothesis Hu : 0 <= u < vn1 * hb + vn0.
Hypothesis Hun : 0 <= un < hb.

Let N := u * hb + un.
Let v := vn1 * hb + vn0.
Let q := N / v.

Lemma half_quotient_bounds : 0 <= q < hb /\ v * q <= N < v * (q + 1).
Proof.
  pose proof HalfDigitBase_big. assert (0 < v) by (unfold v; nia).
  assert (0 <= N < v * hb) by (unfold N, v in *; nia).
  unfold q. pose proof (Z.div_mod N v). pose proof (Z.mod_pos_bound N v).
  repeat split; try lia; [apply Z.div_pos|apply Z.div_lt_upper_bound]; lia.
Qed.

Definition correction_inv (qr : Z * Z) : Prop :=
  q <= qr.1 <= hb + 1 /\ qr.1 * vn1 + qr.2 = u /\ 0 <= qr.2 < hb.

Lemma correction_start : correction_inv (u / vn1, wrap (u - u / vn1 * vn1)).
Proof.
  pose proof HalfDigitBase_big. pose proof Base_half. pose proof half_quotient_bounds as [Hq HN].
  pose proof (Z.div_mod u vn1 ltac:(lia)). pose proof (Z.mod_pos_bound u vn1 ltac:(lia)).
  assert (u / vn1 <= hb + 1) by (apply Z.lt_succ_r, Z.div_lt_upper_bound; nia).
  assert (q <= u / vn1).
  { apply Z.div_le_lower_bound; [lia|]. unfold N, v in HN.
    apply Z.lt_succ_r. apply Z.mul_lt_mono_pos_r with hb; [lia|]. nia. }
  pose proof Base_above_half. rewrite wrap_small by (unfold digit_ok; lia).
  unfold correction_inv; cbn [fst snd]. lia.
Qed.

Lemma correction_step qr : correction_inv qr ->
  wp (correct_quotient vn1 vn0 un qr)
    (fun r => match r with
              | inl qr' => correction_inv qr' /\ Z.b2z (qr'.2 <? vn1) < Z.b2z (qr.2 <? vn1)
              | inr qr' => qr'.1 = q
              end) no_error.
Proof.
  destruct qr as [q1 rhat]. unfold correction_inv; cbn [fst snd]. intros (Hq1 & Heq & Hr).
  pose proof HalfDigitBase_big. pose proof Base_half as HB.
  pose proof half_quotient_bounds as [Hq HN].
  assert (Hmul : forall a, a * v = a * vn1 * hb + a * vn0) by (intros; unfold v; ring).
  unfold correct_quotient.
  assert (Hprod : forall x y z, 0 <= x < hb -> 0 <= y < hb -> 0 <= z < hb ->
            wrap (x * y + z) = x * y + z).
  { intros x y z ? ? ?. apply wrap_small. unfold digit_ok. rewrite HB.
    assert (x * y <= (hb - 1) * (hb - 1)) by (apply Z.mul_le_mono_nonneg; lia).
    assert (0 <= x * y) by (apply Z.mul_nonneg_nonneg; lia). lia. }
  assert (Hrh : wrap (rhat * hb + un) = rhat * hb + un).
  { apply wrap_small. unfold digit_ok. rewrite HB.
    assert (rhat * hb <= (hb - 1) * hb) by (apply Z.mul_le_mono_nonneg_r; lia).
    assert (0 <= rhat * hb) by (apply Z.mul_nonneg_nonneg; lia). lia. }
  rewrite Hrh.
  assert (Hsmall : q1 < hb -> wrap (q1 * vn0) = q1 * vn0)
    by (intros; rewrite <- (Z.add_0_r (q1 * vn0)); apply Hprod; lia).
  wp_step.
  - assert (Hgt : q < q1).
    { destruct (Z_lt_le_dec q1 hb) as [Hlt|]; [|lia]. rewrite (Hsmall Hlt) in *.
      apply orb_true_iff in Hc as [?|?]; bsplit; [lia|].
      apply Z.mul_lt_mono_pos_r with v; [nia|]. rewrite (Hmul q1). unfold N in *. nia. }
    pose proof Base_above_half.
    rewrite (wrap_small (q1 - 1)), (wrap_small (rhat + vn1)) by (unfold digit_ok; lia).
    wp_step; wp_step; bsplit; cbn [fst snd].
    + assert (q1 - 1 <= q); [|lia].
      apply Z.div_le_lower_bound; [unfold v in *; lia|]. rewrite Z.mul_comm, Hmul. unfold N.
      assert ((q1 - 1) * vn0 <= hb * hb) by (apply Z.mul_le_mono_nonneg; lia).
      assert (hb * hb <= (rhat + vn1) * hb) by (apply Z.mul_le_mono_nonneg_r; lia).
      rewrite <- Heq. lia.
    + split; [lia|]. destruct (Z.ltb_spec (rhat + vn1) vn1), (Z.ltb_spec rhat vn1); cbn; lia.
  - wp_step. bsplit. cbn [fst]. rewrite Hsmall in * by lia.
    assert (q1 <= q); [|lia].
    apply Z.div_le_lower_bound; [unfold v in *; nia|]. rewrite Z.mul_comm, Hmul. unfold N. nia.
Qed.

(** The correction loop reaches the exact quotient digit. *)
Lemma correction_ok :
  wp (loop 4 (correct_quotient vn1 vn0 un) (u / vn1, wrap (u - u / vn1 * vn1)))
    (fun qr => qr.1 = (u * hb + un) / (vn1 * hb + vn0)) no_error.
Proof.
  eapply (wp_loop correction_inv (fun qr => Z.b2z (qr.2 <? vn1))).
  - apply correction_start.
  - destruct (_ <? _); cbn; lia.
  - intros s _. destruct (_ <? _); cbn; lia.
  - exact correction_step.
Qed.
End half_step.

Section division.
Context {P : Platform}.

Lemma land_shift_mask s : 0 <= s < DigitBits ->
  Z.land (DigitBits - s) (DigitBits - 1) = if s =? 0 then 0 else DigitBits - s.
Proof.
  intros Hs.
  assert (Hm : Z.land (DigitBits - s) (DigitBits - 1) = (DigitBits - s) mod DigitBits).
  { destruct DigitBits_cases as [-> | ->].
    - change (32 - 1) with (Z.ones 5). by rewrite Z.land_ones by lia.
    - change (64 - 1) with (Z.ones 6). by rewrite Z.land_ones by lia. }
  rewrite Hm. destruct (Z.eqb_spec s 0) as [->|]; [|apply Z.mod_small; lia].
  rewrite Z.sub_0_r. apply Z.mod_same. lia.
Qed.

Lemma zero_mask s : 0 <= s < DigitBits ->
  wrap (Z.shiftr (- s) (DigitBits - 1)) = if s =? 0 then 0 else Base - 1.
Proof.
  intros Hs. pose proof Base_big. destruct (Z.eqb_spec s 0) as [->|Hnz].
  { by rewrite Z.shiftr_0_l, wrap_small by (unfold digit_ok; lia). }
  rewrite Z.shiftr_div_pow2 by lia.
  assert (- s / 2 ^ (DigitBits - 1) = -1) as ->.
  { symmetry. apply (Z.div_unique_pos _ _ _ (2 ^ (DigitBits - 1) - s)); [|lia].
    pose proof (Z.pow_gt_lin_r 2 (DigitBits - 1)). lia. }
  unfold wrap. symmetry. apply (Z.mod_unique_pos _ _ (-1)); lia.
Qed.

Lemma lor_disjoint_add a b s : 0 <= s -> 0 <= b < 2 ^ s -> Z.lor (a * 2 ^ s) b = a * 2 ^ s + b.
Proof.
  intros Hs Hb. rewrite <- Z.add_lor_land.
  assert (Z.land (a * 2 ^ s) b = 0) as ->; [|lia].
  apply Z.bits_inj'. intros i Hi. rewrite Z.land_spec, Z.bits_0.
  destruct (Z_lt_le_dec i s) as [Hlt|Hge].
  - by rewrite Z.mul_pow2_bits_low by lia.
  - rewrite (Z.testbit_eqb b) by lia. rewrite Z.div_small; [apply andb_false_r|].
    pose proof (Z.pow_le_mono_r 2 s i). lia.
Qed.

Lemma Base_split s : 0 <= s <= DigitBits -> Base = 2 ^ s * 2 ^ (DigitBits - s).
Proof. intros. unfold Base. rewrite <- Z.pow_add_r by lia. f_equal. lia. Qed.

(** The bits of [low] that a left shift of the pair (high, low) moves up. *)
Lemma shifted_in low s : digit_ok low -> 0 <= s < DigitBits ->
  0 <= low * 2 ^ s / Base < 2 ^ s /\
  (s = 0 -> low * 2 ^ s / Base = 0) /\ (0 < s -> low / 2 ^ (DigitBits - s) = low * 2 ^ s / Base).
Proof.
  intros Hlow Hs. pose proof Base_pos. unfold digit_ok in Hlow.
  pose proof (Z.pow_pos_nonneg 2 s ltac:(lia) ltac:(lia)).
  split; [split; [apply Z.div_pos; nia|apply Z.div_lt_upper_bound; nia]|].
  split; [intros ->; rewrite Z.mul_1_r; apply Z.div_small; lia|]. intros Hs0.
  rewrite (Base_split s) by lia. rewrite (Z.mul_comm (2 ^ s)), Z.div_mul_cancel_r; [done| |lia].
  apply Z.pow_nonzero; lia.
Qed.

Lemma un32_value high low s :
  0 <= high * 2 ^ s < Base -> digit_ok low -> 0 <= s < DigitBits ->
  Z.lor (wrap (high * 2 ^ s))
    (Z.land (low / 2 ^ Z.land (DigitBits - s) (DigitBits - 1))
       (wrap (Z.shiftr (- s) (DigitBits - 1)))) = high * 2 ^ s + low * 2 ^ s / Base.
Proof.
  intros Hh Hlow Hs. destruct (shifted_in low s Hlow Hs) as (Hr & H0 & H1).
  rewrite wrap_small, zero_mask, land_shift_mask by done.
  destruct (Z.eqb_spec s 0) as [->|Hnz].
  { rewrite Z.land_0_r, Z.lor_0_r, H0 by done. lia. }
  rewrite H1 by lia. replace (Base - 1) with (Z.ones DigitBits) by (rewrite Z.ones_equiv; unfold Base; lia).
  pose proof DigitBits_pos. pose proof (Z.pow_lt_mono_r 2 s DigitBits).
  rewrite Z.land_ones by lia. rewrite Z.mod_small; [|unfold Base in *; lia].
  apply lor_disjoint_add; lia.
Qed.

(** Two half-digit steps of long division make one full step. *)
Lemma two_half_steps v u32 u1 u0 :
  0 < v ->
  let hb := HalfDigitBase in
  let n1 := u32 * hb + u1 in
  (n1 / v) * hb + (n1 mod v * hb + u0) / v = (u32 * Base + u1 * hb + u0) / v /\
  (n1 mod v * hb + u0) mod v = (u32 * Base + u1 * hb + u0) mod v.
Proof.
  intros Hv hb n1. rewrite Base_half. fold hb.
  replace (u32 * (hb * hb) + u1 * hb + u0) with (n1 * hb + u0) by (unfold n1; ring).
  pose proof (Z.div_mod n1 v ltac:(lia)) as E.
  apply (f_equal (fun z => z * hb)) in E.
  replace (n1 * hb + u0) with (n1 mod v * hb + u0 + n1 / v * hb * v) by lia.
  rewrite Z.div_add, Z.mod_add by lia. lia.
Qed.

Lemma unscaled_div_mod n d k : 0 < k -> 0 < d ->
  n * k / (d * k) = n / d /\ (n * k) mod (d * k) / k = n mod d.
Proof.
  intros Hk Hd. split; [by apply Z.div_mul_cancel_r; lia|].
  rewrite Z.mul_mod_distr_r by lia. apply Z.div_mul. lia.
Qed.

Lemma wrap_remainder n v : 0 < v -> digit_ok v -> wrap (n - n / v * v) = n mod v.
Proof.
  intros Hv0 Hv. pose proof (Z.mod_pos_bound n v Hv0) as Hb. pose proof (Z.div_mod n v ltac:(lia)).
  replace (n - n / v * v) with (n mod v) by lia.
  apply wrap_small. unfold digit_ok in *. lia.
Qed.

(** What a half step of the portable division computes. *)
Lemma half_step_ok v u un :
  digit_ok v -> Base <= 2 * v -> 0 <= u < v -> 0 <= un < HalfDigitBase ->
  let vn1 := Z.shiftr v HalfDigitBits in
  wp (loop 4 (correct_quotient vn1 (Z.land v HalfDigitMask) un)
        (u / vn1, wrap (u - u / vn1 * vn1)))
    (fun qr => qr.1 = (u * HalfDigitBase + un) / v) no_error.
Proof.
  intros Hv Hnorm Hu Hun vn1. unfold vn1. rewrite half_high, half_low.
  destruct (half_parts v Hv) as (Ev & Hh & Hl). rewrite Base_half in Hnorm.
  eapply wp_weaken_ok; [apply correction_ok; [|lia..]|].
  2: { intros qr ->. by rewrite <- Ev. }
  split; [|lia]. pose proof HalfDigitBase_big.
  assert (HalfDigitBase < 2 * (v / HalfDigitBase) + 2); [|].
  { apply (Z.mul_lt_mono_pos_r HalfDigitBase); lia. }
  destruct (Z.eq_dec HalfDigitBase (2 * (v / HalfDigitBase) + 1)) as [Hodd|]; [|lia].
  exfalso. rewrite HalfDigitBase_eq in Hodd at 1. pose proof HalfDigitBits_pos.
  replace HalfDigitBits with (Z.succ (HalfDigitBits - 1)) in Hodd by lia.
  rewrite Z.pow_succ_r in Hodd by lia. lia.
Qed.

Lemma digitDiv_asm_ok high low divisor :
  digit_ok low -> 0 <= high < divisor -> digit_ok divisor ->
  wp (digitDiv_asm high low divisor)
    (fun r => r = ((high * Base + low) / divisor, (high * Base + low) mod divisor)) no_error.
Proof.
  intros _ Hhigh _. unfold digitDiv_asm. wp_step. wp_step; [lia|].
  wp_step. done.
Qed.

Lemma digitDiv_portable_ok high low divisor :
  digit_ok low -> 0 <= high < divisor -> digit_ok divisor ->
  wp (digitDiv_portable high low divisor)
    (fun r => r = ((high * Base + low) / divisor, (high * Base + low) mod divisor)) no_error.
Proof.
  intros Hlow Hhigh Hd. unfold digitDiv_portable.
  wp_step. wp_step; [lia|].
  wp_step. apply wp_DigitLeadingZeroes; [done|lia|]. intros s Hs Hnorm _.
  wp_step. wp_step; [lia|].
  wp_step. apply wp_shl; [done|]. rewrite (wrap_small (divisor * 2 ^ s)) by (unfold digit_ok; lia).
  assert (Hbase : Base <= 2 * (divisor * 2 ^ s)).
  { unfold Base. replace DigitBits with (Z.succ (DigitBits - 1)) by lia.
    rewrite Z.pow_succ_r by (pose proof DigitBits_pos; lia). lia. }
  pose proof (Z.pow_pos_nonneg 2 s ltac:(lia) ltac:(lia)) as H2s.
  set (v := divisor * 2 ^ s) in *.
  assert (Hv : digit_ok v) by (unfold digit_ok, v in *; lia).
  assert (Hhs : 0 <= high * 2 ^ s /\ high * 2 ^ s + 2 ^ s <= v) by (unfold v; nia).
  wp_step. apply wp_shl; [done|]. wp_step. apply wp_shr.
  { rewrite land_shift_mask by done. destruct (Z.eqb_spec s 0); lia. }
  wp_step. apply wp_shl; [done|].
  rewrite un32_value by (unfold digit_ok in *; lia || done).
  destruct (shifted_in low s Hlow Hs) as (Hr & _).
  set (u32 := high * 2 ^ s + low * 2 ^ s / Base). set (u10 := wrap (low * 2 ^ s)).
  rewrite half_high, half_low.
  destruct (half_parts u10 (wrap_ok _)) as (E10 & H1 & H0).
  set (u1 := u10 / HalfDigitBase) in *. set (u0 := u10 mod HalfDigitBase) in *.
  wp_step. wp_call half_step_ok; [done|done|unfold u32; lia|done|].
  intros [q1 r1] Hq1. cbn [fst] in Hq1. subst q1. clear r1.
  set (n1 := u32 * HalfDigitBase + u1).
  rewrite (wrap_remainder n1 v) by (done || lia). pose proof (Z.mod_pos_bound n1 v ltac:(lia)).
  wp_step. wp_call half_step_ok; [done|done|lia|done|].
  intros [q0 r0] Hq0. cbn [fst] in Hq0. subst q0. clear r0.
  set (n0 := n1 mod v * HalfDigitBase + u0).
  rewrite (wrap_remainder n0 v) by (done || lia). wp_step. apply wp_shr; [done|]. wp_step.
  destruct (two_half_steps v u32 u1 u0 ltac:(lia)) as [Eq Er]. fold n1 in Eq, Er. fold n0 in Eq, Er.
  assert (Enum : u32 * Base + u1 * HalfDigitBase + u0 = (high * Base + low) * 2 ^ s).
  { pose proof (Z.div_mod (low * 2 ^ s) Base Base_nonzero) as Em.
    change (low * 2 ^ s = Base * (low * 2 ^ s / Base) + u10) in Em. unfold u32. lia. }
  rewrite Enum in Eq, Er.
  destruct (unscaled_div_mod (high * Base + low) divisor (2 ^ s)) as [Ed Em]; [lia..|].
  rewrite Er, Eq. unfold v. rewrite Em, Ed, wrap_small; [done|].
  unfold digit_ok in *. split; [apply Z.div_pos; nia|apply Z.div_lt_upper_bound; nia].
Qed.
End division.

(** * The two kernels *)

(** Compilers with a double-width type on x86: [TwoDigit] and the [div]
    instruction. *)
#[local] Instance two_digit_kernel {P : Platform} : DigitKernel := {|
  digitMul := digitMul_twodigit;
  digitDiv := digitDiv_asm;
  digitMul_ok := digitMul_twodigit_ok;
  digitDiv_ok := digitDiv_asm_ok;
|}.

(** Every other target. *)
#[local] Instance portable_kernel {P : Platform} : DigitKernel := {|
  digitMul := digitMul_portable;
  digitDiv := digitDiv_portable;
  digitMul_ok := digitMul_portable_ok;
  digitDiv_ok := digitDiv_portable_ok;
|}.
