(* ===== verification/CheckedArithmetic.v ===== *)
(** Overflow-checked machine arithmetic (util/CheckedArithmetic.h): each
    operation has a variant on compiler builtins and a portable one; both are
    modelled and proved to compute the exact result or to report overflow.
    [CheckedMul] is the interface the BigInt operations use. *)
From S2P Require Import Prelude.

(** * Words *)

Definition uint32 (z : Z) : Z := z mod 2 ^ 32.
Definition int32 (z : Z) : Z := (z + 2 ^ 31) mod 2 ^ 32 - 2 ^ 31.
Definition is_int32 (z : Z) : bool := (- 2 ^ 31 <=? z) && (z <? 2 ^ 31).
Definition uint64 (z : Z) : Z := z mod 2 ^ 64.

(** * The 32-bit operations

    The result is the flag and what [*res] holds afterwards. *)

Definition SafeAdd_builtin (one two : Z) : bool * Z := (is_int32 (one + two), int32 (one + two)).
Definition SafeAdd_portable (one two : Z) : bool * Z :=
  let res := int32 (uint32 (uint32 one + uint32 two)) in
  let ores := one + two in
  (ores =? res, res).

Definition SafeSub_builtin (one two : Z) : bool * Z := (is_int32 (one - two), int32 (one - two)).
Definition SafeSub_portable (one two : Z) : bool * Z :=
  let res := int32 (uint32 (uint32 one - uint32 two)) in
  let ores := one - two in
  (ores =? res, res).

Definition SafeMul32_builtin (one two : Z) : bool * Z := (is_int32 (one * two), int32 (one * two)).
Definition SafeMul32_portable (one two : Z) : bool * Z :=
  let res := int32 (uint32 (uint32 one * uint32 two)) in
  let ores := one * two in
  (ores =? res, res).

(** * 64-bit multiplication *)

(** mfbt/MathAlgorithms.h *)
Definition CountLeadingZeroes64 (x : Z) : M Z :=
  moz_assert (negb (x =? 0));;
  mret (63 - Z.log2 x).

Definition SafeMul_builtin (one two : Z) : M (option Z) :=
  mret (if one * two <? 2 ^ 64 then Some (uint64 (one * two)) else None).

Definition SafeMul_portable (one two : Z) : M (option Z) :=
  z1 ← CountLeadingZeroes64 one;
  z2 ← CountLeadingZeroes64 two;
  let zeroes := z1 + z2 in
  if zeroes <=? 62 then mret None
  else
    let half := uint64 (one * Z.shiftr two 1) in
    if half >=? 2 ^ 63 then mret None          (* int64_t(half) < 0 *)
    else
      let res := uint64 (half * 2) in
      if negb (Z.land two 1 =? 0) then
        let res := uint64 (res + one) in
        mret (if res <? one then None else Some res)
      else mret (Some res).

(** What the BigInt operations rely on. *)
Class CheckedMul := {
  SafeMul : Z -> Z -> M (option Z);
  SafeMul_ok a b : 0 < a < 2 ^ 64 -> 0 < b < 2 ^ 64 ->
    wp (SafeMul a b) (fun r => r = if a * b <? 2 ^ 64 then Some (a * b) else None) no_error;
}.

(** * Correctness *)

Lemma int32_id z : is_int32 z = true -> int32 z = z.
Proof. unfold is_int32, int32. intros. bsplit. rewrite Z.mod_small; lia. Qed.

Lemma int32_range z : is_int32 (int32 z) = true.
Proof. unfold is_int32, int32. pose proof (Z.mod_pos_bound (z + 2 ^ 31) (2 ^ 32)). lia. Qed.

Lemma int32_mod z w : (z - w) mod 2 ^ 32 = 0 -> int32 z = int32 w.
Proof.
  unfold int32. intros E. f_equal. apply Z.mod_divide in E as [k E]; [|done].
  replace (z + 2 ^ 31) with (w + 2 ^ 31 + k * 2 ^ 32) by lia. by rewrite Z.mod_add.
Qed.

(** The comparison through 64 bits detects exactly the overflows. *)
Lemma widened_check z : (z =? int32 z) = is_int32 z.
Proof.
  destruct (is_int32 z) eqn:E; [rewrite int32_id by done; lia|].
  apply Z.eqb_neq. intros H. pose proof (int32_range z). congruence.
Qed.

Lemma int32_uint32 z : int32 (uint32 z) = int32 z.
Proof.
  apply int32_mod. unfold uint32. rewrite Zminus_mod, Z.mod_mod, Z.sub_diag by done. done.
Qed.

Lemma SafeAdd_equiv a b : SafeAdd_portable a b = SafeAdd_builtin a b.
Proof.
  unfold SafeAdd_portable, SafeAdd_builtin. rewrite int32_uint32.
  replace (int32 (uint32 a + uint32 b)) with (int32 (a + b)); [by rewrite widened_check|].
  rewrite <- (int32_uint32 (a + b)), <- (int32_uint32 (uint32 a + uint32 b)). unfold uint32.
  by rewrite <- Zplus_mod.
Qed.

Lemma SafeSub_equiv a b : SafeSub_portable a b = SafeSub_builtin a b.
Proof.
  unfold SafeSub_portable, SafeSub_builtin. rewrite int32_uint32.
  replace (int32 (uint32 a - uint32 b)) with (int32 (a - b)); [by rewrite widened_check|].
  rewrite <- (int32_uint32 (a - b)), <- (int32_uint32 (uint32 a - uint32 b)). unfold uint32.
  by rewrite <- Zminus_mod.
Qed.

Lemma SafeMul32_equiv a b : SafeMul32_portable a b = SafeMul32_builtin a b.
Proof.
  unfold SafeMul32_portable, SafeMul32_builtin. rewrite int32_uint32.
  replace (int32 (uint32 a * uint32 b)) with (int32 (a * b)); [by rewrite widened_check|].
  rewrite <- (int32_uint32 (a * b)), <- (int32_uint32 (uint32 a * uint32 b)). unfold uint32.
  by rewrite <- Zmult_mod.
Qed.

Lemma SafeMul_builtin_ok a b : 0 < a < 2 ^ 64 -> 0 < b < 2 ^ 64 ->
  wp (SafeMul_builtin a b) (fun r => r = if a * b <? 2 ^ 64 then Some (a * b) else None) no_error.
Proof.
  intros Ha Hb. apply wp_ret. destruct (Z.ltb_spec (a * b) (2 ^ 64)); [|done].
  unfold uint64. rewrite Z.mod_small; [done|]. split; [apply Z.mul_nonneg_nonneg; lia|done].
Qed.

(** Products and the binary magnitudes of the factors. *)
Lemma log2_product a b : 0 < a -> 0 < b ->
  2 ^ (Z.log2 a + Z.log2 b) <= a * b /\ a * (b / 2) < 2 ^ (Z.log2 a + Z.log2 b + 1).
Proof.
  intros Ha Hb. pose proof (Z.log2_nonneg a). pose proof (Z.log2_nonneg b).
  pose proof (Z.log2_spec a Ha) as [La Ua]. pose proof (Z.log2_spec b Hb) as [Lb Ub].
  rewrite Z.pow_succ_r in Ua, Ub by done. rewrite !Z.pow_add_r by lia. change (2 ^ 1) with 2.
  assert (0 < 2 ^ Z.log2 a) by (apply Z.pow_pos_nonneg; lia).
  assert (0 < 2 ^ Z.log2 b) by (apply Z.pow_pos_nonneg; lia).
  assert (0 <= b / 2 < 2 ^ Z.log2 b) by (split; [apply Z.div_pos; lia|apply Z.div_lt_upper_bound; lia]).
  split; [apply Z.mul_le_mono_nonneg; lia|].
  assert (a * (b / 2) <= a * (2 ^ Z.log2 b)) by (apply Z.mul_le_mono_nonneg_l; lia).
  assert (a * 2 ^ Z.log2 b < 2 * 2 ^ Z.log2 a * 2 ^ Z.log2 b) by (apply Z.mul_lt_mono_pos_r; lia). lia.
Qed.

Lemma odd_split b : b = 2 * (b / 2) + Z.land b 1 /\ 0 <= Z.land b 1 <= 1.
Proof.
  replace (Z.land b 1) with (b mod 2) by by (symmetry; by apply (Z.land_ones b 1)).
  pose proof (Z.div_mod b 2). pose proof (Z.mod_pos_bound b 2). lia.
Qed.

(** Hacker's Delight, Figure 2-2. *)
Lemma SafeMul_portable_ok a b : 0 < a < 2 ^ 64 -> 0 < b < 2 ^ 64 ->
  wp (SafeMul_portable a b) (fun r => r = if a * b <? 2 ^ 64 then Some (a * b) else None) no_error.
Proof.
  intros Ha Hb. unfold SafeMul_portable, CountLeadingZeroes64.
  do 2 (wp_step; wp_step; wp_step; [lia|]; wp_step).
  rewrite Z.shiftr_div_pow2 by done. change (2 ^ 1) with 2.
  pose proof (log2_product a b ltac:(lia) ltac:(lia)) as [Hlow Hhigh].
  pose proof (odd_split b) as [Hb2 Hodd]. pose proof (Z.log2_nonneg a). pose proof (Z.log2_nonneg b).
  assert (Hab : a * b = 2 * (a * (b / 2)) + a * Z.land b 1) by (rewrite Hb2 at 1; ring).
  assert (0 <= a * Z.land b 1) by (apply Z.mul_nonneg_nonneg; lia).
  wp_step; bsplit.
  { wp_step. assert (2 ^ 64 <= 2 ^ (Z.log2 a + Z.log2 b)) by (apply Z.pow_le_mono_r; lia).
    by replace (a * b <? 2 ^ 64) with false by lia. }
  assert (2 ^ (Z.log2 a + Z.log2 b + 1) <= 2 ^ 64) by (apply Z.pow_le_mono_r; lia).
  assert (0 <= b / 2) by (apply Z.div_pos; lia).
  assert (0 <= a * (b / 2)) by (apply Z.mul_nonneg_nonneg; lia).
  unfold uint64. rewrite (Z.mod_small (a * (b / 2))) by lia.
  wp_step; bsplit.
  { wp_step. by replace (a * b <? 2 ^ 64) with false by lia. }
  rewrite (Z.mod_small (_ * 2)) by lia.
  wp_step; bsplit; wp_step.
  - assert (Z.land b 1 = 1) as E by lia. rewrite E in *.
    destruct (Z.ltb_spec (a * b) (2 ^ 64)).
    + rewrite Z.mod_small by lia. destruct (Z.ltb_spec (a * (b / 2) * 2 + a) a); [lia|]. f_equal. lia.
    + assert ((a * (b / 2) * 2 + a) mod 2 ^ 64 = a * (b / 2) * 2 + a - 2 ^ 64) as ->
        by (symmetry; apply Z.mod_unique with 1; lia).
      by replace (_ <? a) with true by lia.
  - rewrite Hc1 in *. replace (a * b <? 2 ^ 64) with true by lia. f_equal. lia.
Qed.

(** Without a leading one there is nothing to count. *)
Lemma SafeMul_portable_zero a b al : (a =? 0) || (b =? 0) = true -> run al (SafeMul_portable a b) = Err AssertionFailed.
Proof.
  intros H. unfold SafeMul_portable, CountLeadingZeroes64, run. destruct (a =? 0) eqn:Ea; [done|]. cbn in H.
  assert (b = 0) as -> by lia. destruct a; done.
Qed.

(** It asks for no memory. *)
Lemma SafeMul_portable_pure a b al : run al (SafeMul_portable a b) = run calm (SafeMul_portable a b).
Proof.
  unfold SafeMul_portable, CountLeadingZeroes64, run. destruct (a =? 0); [done|]. destruct (b =? 0); [done|].
  change (negb false) with true. cbv zeta. unfold moz_assert. rewrite !bind_ret. by repeat case_match.
Qed.

#[local] Instance builtin_mul : CheckedMul := {| SafeMul := SafeMul_builtin; SafeMul_ok := SafeMul_builtin_ok |}.
#[local] Instance portable_mul : CheckedMul := {| SafeMul := SafeMul_portable; SafeMul_ok := SafeMul_portable_ok |}.

(** * Two's complement (mfbt/WrappingOperations.h) *)

(** [WrapToSigned] at an unsigned type of [w] bits. *)
Definition WrapToSigned (w aValue : Z) : Z :=
  let MaxValue := Z.shiftl 1 (w - 1) - 1 in
  let MinValue := - MaxValue - 1 in
  let MinValueUnsigned := MinValue mod 2 ^ w in
  if aValue <=? MaxValue then aValue else (aValue - MinValueUnsigned) mod 2 ^ w + MinValue.

(** The integer that [v] is congruent to and that fits [bits] signed bits. *)
Definition wrap_signed (bits v : Z) : Z :=
  let m := v mod 2 ^ bits in if 2 ^ (bits - 1) <=? m then m - 2 ^ bits else m.

Section twos_complement.

Lemma two_halves w : 0 < w -> 2 ^ w = 2 * 2 ^ (w - 1) /\ 0 < 2 ^ (w - 1).
Proof.
  intros Hw. split; [|apply Z.pow_pos_nonneg; lia]. rewrite <- Z.pow_succ_r by lia. f_equal. lia.
Qed.

Lemma WrapToSigned_spec w v : 0 < w -> 0 <= v < 2 ^ w -> WrapToSigned w v = wrap_signed w v.
Proof.
  intros Hw Hv. unfold WrapToSigned, wrap_signed. rewrite (Z.mod_small v), Z.shiftl_mul_pow2, Z.mul_1_l by lia.
  destruct (two_halves w Hw) as [E Hp].
  assert (Hm : (- (2 ^ (w - 1) - 1) - 1) mod 2 ^ w = 2 ^ (w - 1)).
  { symmetry. apply (Z.mod_unique _ _ (-1)); lia. }
  rewrite Hm. destruct (Z.leb_spec v (2 ^ (w - 1) - 1)), (Z.leb_spec (2 ^ (w - 1)) v); try lia.
  rewrite Z.mod_small by lia. lia.
Qed.

Lemma wrap_signed_mod bits v : 0 <= bits -> wrap_signed bits (v mod 2 ^ bits) = wrap_signed bits v.
Proof. intros. unfold wrap_signed. rewrite Z.mod_mod; [done|]. assert (0 < 2 ^ bits) by (apply Z.pow_pos_nonneg; lia). lia. Qed.

Lemma wrap_signed_small bits v : 0 < bits -> - 2 ^ (bits - 1) <= v < 2 ^ (bits - 1) -> wrap_signed bits v = v.
Proof.
  intros Hb Hv. unfold wrap_signed. assert (E : 2 ^ bits = 2 * 2 ^ (bits - 1)).
  { rewrite <- Z.pow_succ_r by lia. f_equal. lia. }
  destruct (Z_lt_le_dec v 0).
  - assert (v mod 2 ^ bits = v + 2 ^ bits) as -> by (symmetry; apply Z.mod_unique_pos with (-1); lia).
    destruct (Z.leb_spec (2 ^ (bits - 1)) (v + 2 ^ bits)); lia.
  - rewrite Z.mod_small by lia. destruct (Z.leb_spec (2 ^ (bits - 1)) v); lia.
Qed.
End twos_complement.

(** * Shifts of a [w]-bit unsigned integer; by [w] or more they are undefined *)

Definition shl_w (w d s : Z) : M Z :=
  if (0 <=? s) && (s <? w) then mret (Z.shiftl d s mod 2 ^ w) else throw UndefinedBehavior.
Definition shr_w (w d s : Z) : M Z :=
  if (0 <=? s) && (s <? w) then mret (Z.shiftr d s) else throw UndefinedBehavior.

Lemma wp_shl_w w d s (Q : Z -> Prop) E :
  0 <= s < w -> Q (d * 2 ^ s mod 2 ^ w) -> wp (shl_w w d s) Q E.
Proof.
  intros Hs HQ. unfold shl_w. replace (_ && _) with true by lia. apply wp_ret.
  by rewrite Z.shiftl_mul_pow2 by lia.
Qed.

Lemma wp_shr_w w d s (Q : Z -> Prop) E :
  0 <= s < w -> Q (d / 2 ^ s) -> wp (shr_w w d s) Q E.
Proof.
  intros Hs HQ. unfold shr_w. replace (_ && _) with true by lia. apply wp_ret.
  by rewrite Z.shiftr_div_pow2 by lia.
Qed.
