(* ===== verification/BigIntRep.v ===== *)
(** The representation of BigInt values (vm/BigIntType.h and the first part
    of vm/BigIntType.cpp): sign and magnitude with little-endian digits,
    allocation, digit access, trimming and the small constructors; the integer
    a BigInt denotes and the representation invariant [wf]. *)
From S2P Require Import Prelude Words.

(** * Data and primitive operations *)

Record bigint := BigInt {
  isNegative : bool;
  digits : list Z;
}.

Section rep.
Context {P : Platform}.

Definition MaxBitLength : Z := 1024 * 1024.
Definition MaxDigitLength : Z := MaxBitLength / DigitBits.

(** MinCellSize is 16 bytes, the header takes 8 on both word sizes. *)
Definition InlineDigitsLength : Z := (16 - 8) / (DigitBits / 8).

Definition digitLength (x : bigint) : Z := zlen (digits x).
Definition isZero (x : bigint) : bool := digitLength x =? 0.
Definition hasInlineDigits (x : bigint) : bool := digitLength x <=? InlineDigitsLength.
Definition hasHeapDigits (x : bigint) : bool := negb (hasInlineDigits x).

(** [digits()[idx]]: a Span checks the index in every build. *)
Definition digit (x : bigint) (idx : Z) : M Z :=
  if (0 <=? idx) && (idx <? digitLength x) then mret (zget (digits x) idx) else throw OutOfBounds.
Definition setDigit (x : bigint) (idx d : Z) : M bigint :=
  if (0 <=? idx) && (idx <? digitLength x)
  then mret (BigInt (isNegative x) (zset (digits x) idx d)) else throw OutOfBounds.

Definition HasLeadingZeroes (bi : bigint) : bool :=
  (digitLength bi >? 0) && (zget (digits bi) (digitLength bi - 1) =? 0).

(** The digits keep what the allocator left in the buffer. *)
Definition createUninitialized (len : Z) (neg : bool) : M bigint :=
  if len >? MaxDigitLength then throw BigIntTooLarge
  else
    cell ← allocate;
    buffer ← (if len >? InlineDigitsLength then allocate else mret cell);
    ds ← uninitialized buffer (Z.to_nat len);
    mret (BigInt neg (wrap <$> ds)).

Definition initializeDigitsToZero (x : bigint) : bigint :=
  BigInt (isNegative x) (replicate (length (digits x)) 0).

Definition zero : M bigint := createUninitialized 0 false.

Definition createFromDigit (d : Z) (neg : bool) : M bigint :=
  moz_assert (negb (d =? 0));;
  res ← createUninitialized 1 neg;
  setDigit res 0 d.

Definition one : M bigint := createFromDigit 1 false.
Definition negativeOne : M bigint := createFromDigit 1 true.

(** [n] is a uint64_t. *)
Definition createFromNonZeroRawUint64 (n : Z) (neg : bool) : M bigint :=
  moz_assert (negb (n =? 0));;
  let resultLength := if (DigitBits =? 32) && negb (Z.shiftr n 32 =? 0) then 2 else 1 in
  result ← createUninitialized resultLength neg;
  result ← setDigit result 0 (wrap n);
  result ← (if (DigitBits =? 32) && (resultLength >? 1)
            then setDigit result 1 (wrap (Z.shiftr n 32)) else mret result);
  moz_assert (negb (HasLeadingZeroes result));;
  mret result.

Definition copy (x : bigint) : M bigint :=
  if isZero x then zero
  else
    result ← createUninitialized (digitLength x) (isNegative x);
    for_ 0 (digitLength x) (fun i result => d ← digit x i; setDigit result i d) result.

Definition neg (x : bigint) : M bigint :=
  if isZero x then mret x
  else
    result ← copy x;
    mret (BigInt (negb (isNegative result)) (digits result)).

Definition destructivelyTrimHighZeroDigits (x : bigint) : M bigint :=
  if isZero x then moz_assert (negb (isNegative x));; mret x
  else
    moz_assert (negb (digitLength x =? 0));;
    nonZeroIndex ← loop (Z.to_nat (digitLength x + 1)) (fun nonZeroIndex =>
        if nonZeroIndex >=? 0 then
          d ← digit x nonZeroIndex;
          mret (if d =? 0 then inl (nonZeroIndex - 1) else inr nonZeroIndex)
        else mret (inr nonZeroIndex)) (digitLength x - 1);
    if nonZeroIndex <? 0 then zero
    else if nonZeroIndex =? digitLength x - 1 then mret x
    else
      let newLength := nonZeroIndex + 1 in
      (if newLength >? InlineDigitsLength then
         moz_assert (hasHeapDigits x);;
         _ ← allocate;       (* ReallocateBigIntDigits *)
         mret tt
       else mret tt);;
      mret (BigInt (isNegative x) (take (Z.to_nat newLength) (digits x))).

Definition absFitsInUint64 (x : bigint) : bool := digitLength x <=? 64 / DigitBits.

Definition uint64FromAbsNonZero (x : bigint) : M Z :=
  moz_assert (negb (isZero x));;
  val ← digit x 0;
  if (DigitBits =? 32) && (digitLength x >? 1) then
    d1 ← digit x 1;
    mret (Z.lor val (Z.shiftl d1 32))
  else mret val.

(** ** Conversions from machine integers *)

Definition createFromUint64 (n : Z) : M bigint :=
  if n =? 0 then zero
  else if DigitBits =? 32 then
    let low := wrap n in
    let high := wrap (Z.shiftr n 32) in
    let length := if high =? 0 then 1 else 2 in
    res ← createUninitialized length false;
    res ← setDigit res 0 low;
    if high =? 0 then mret res else setDigit res 1 high
  else createFromDigit n false.

Definition createFromInt64 (n : Z) : M bigint :=
  res ← createFromUint64 (Z.abs n);
  let res := if n <? 0 then BigInt true (digits res) else res in
  moz_assert (Bool.eqb (isNegative res) (n <? 0));;
  mret res.
End rep.

(** * The integer a BigInt denotes *)

Section value.
Context {P : Platform}.

Definition digits_ok (l : list Z) : Prop := Forall digit_ok l.

(** The value of a digit sequence, least significant digit first. *)
Fixpoint eval (l : list Z) : Z :=
  match l with
  | [] => 0
  | d :: l => d + Base * eval l
  end.

Definition absval (x : bigint) : Z := eval (digits x).
Definition value (x : bigint) : Z := if isNegative x then - absval x else absval x.

(** Canonical representation: digits in range, no high zero digit, no
    negative zero, size within the engine's limit. *)
Definition wf (x : bigint) : Prop :=
  digits_ok (digits x) /\
  digitLength x <= MaxDigitLength /\
  (digitLength x = 0 -> isNegative x = false) /\
  (0 < digitLength x -> zget (digits x) (digitLength x - 1) <> 0).

(** A decision procedure for the invariant, for concrete values. *)
Definition wfb (x : bigint) : bool :=
  forallb (fun d => (0 <=? d) && (d <? Base)) (digits x) &&
  (digitLength x <=? MaxDigitLength) &&
  (negb (isZero x) || negb (isNegative x)) && negb (HasLeadingZeroes x).

Lemma wfb_wf x : wfb x = true -> wf x.
Proof.
  unfold wfb, wf, isZero, HasLeadingZeroes. intros H. bsplit.
  split_and!; [|lia|by destruct (isNegative x); [lia|]|lia].
  apply Forall_forall. intros d Hd. rewrite forallb_forall in *.
  match goal with H : forall _, In _ _ -> _ |- _ => apply H in Hd end. unfold digit_ok. lia.
Qed.

(** Value of the [i] lowest digits. *)
Fixpoint psum (f : Z -> Z) (n : nat) : Z :=
  match n with
  | O => 0
  | S m => psum f m + f (Z.of_nat m) * Base ^ Z.of_nat m
  end.
Definition pv (l : list Z) (i : Z) : Z := psum (zget l) (Z.to_nat i).
End value.

(** ** Prefix values *)

Section prefix.
Context {P : Platform}.
Implicit Types l : list Z.

Lemma Base_pow_pos i : 0 <= i -> 0 < Base ^ i.
Proof. intros. apply Z.pow_pos_nonneg; [apply Base_pos|done]. Qed.

Lemma Base_pow_succ i : 0 <= i -> Base ^ (i + 1) = Base * Base ^ i.
Proof. intros. by rewrite Z.add_1_r, Z.pow_succ_r. Qed.

Lemma psum_ext f g n :
  (forall i, 0 <= i < Z.of_nat n -> f i = g i) -> psum f n = psum g n.
Proof.
  induction n as [|n IH]; intros H; [done|]. cbn [psum].
  rewrite IH, H by (intros; try apply H; lia). done.
Qed.

Lemma pv_0 l : pv l 0 = 0.
Proof. done. Qed.

Lemma pv_succ l i : 0 <= i -> pv l (i + 1) = pv l i + zget l i * Base ^ i.
Proof.
  intros Hi. unfold pv. replace (Z.to_nat (i + 1)) with (S (Z.to_nat i)) by lia.
  cbn [psum]. by rewrite Z2Nat.id.
Qed.

Lemma pv_ext l m i : (forall k, 0 <= k < i -> zget l k = zget m k) -> pv l i = pv m i.
Proof. intros H. apply psum_ext. intros k Hk. apply H. lia. Qed.

Lemma pv_zset_low l i j v : j <= i -> pv (zset l i v) j = pv l j.
Proof. intros H. apply pv_ext. intros k Hk. apply zget_zset_other; lia. Qed.

(** Writing the next digit extends the prefix. *)
Lemma pv_zset_next l i v :
  0 <= i < zlen l -> pv (zset l i v) (i + 1) = pv l i + v * Base ^ i.
Proof. intros H. by rewrite pv_succ, pv_zset_low, zget_zset_same by lia. Qed.

Lemma psum_shift d l n :
  psum (zget (d :: l)) (S n) = d + Base * psum (zget l) n.
Proof.
  induction n as [|n IH].
  - cbn [psum]. rewrite zget_cons0. change (Z.of_nat 0) with 0. rewrite Z.pow_0_r. lia.
  - cbn [psum] in *. rewrite IH, Nat2Z.inj_succ, <- Z.add_1_r, zget_cons_succ, Base_pow_succ by lia.
    lia.
Qed.

Lemma eval_pv l : eval l = pv l (zlen l).
Proof.
  unfold pv, zlen. rewrite Nat2Z.id. induction l as [|d l IH]; [done|].
  cbn [length eval]. by rewrite psum_shift, IH.
Qed.

(** Zero digits above a prefix do not count. *)
Lemma pv_stable l i n :
  0 <= i <= n -> (forall k, i <= k < n -> zget l k = 0) -> pv l n = pv l i.
Proof.
  intros Hi. replace n with (i + Z.of_nat (Z.to_nat (n - i))) by lia.
  assert (Hi0 : 0 <= i) by lia. generalize (Z.to_nat (n - i)). clear n Hi. intros m H.
  induction m as [|m IH]; [by rewrite Z.add_0_r|].
  replace (i + Z.of_nat (S m)) with (i + Z.of_nat m + 1) in * by lia.
  rewrite pv_succ, IH, H by (intros; try apply H; lia). lia.
Qed.

Lemma pv_eval l n : zlen l <= n -> pv l n = eval l.
Proof.
  intros H. rewrite eval_pv. pose proof (zlen_nonneg l). apply pv_stable; [lia|].
  intros k Hk. apply zget_oob. lia.
Qed.

Lemma digits_ok_get l i : digits_ok l -> digit_ok (zget l i).
Proof.
  intros H. pose proof Base_pos.
  destruct (Z_lt_le_dec i 0); [rewrite zget_oob by lia; unfold digit_ok; lia|].
  destruct (Z_lt_le_dec i (zlen l)); [|rewrite zget_oob by lia; unfold digit_ok; lia].
  unfold digits_ok in H. rewrite Forall_forall in H. apply H, zget_In. lia.
Qed.

Lemma digits_ok_zset l i d : digits_ok l -> digit_ok d -> digits_ok (zset l i d).
Proof. intros Hl Hd. by apply Forall_insert. Qed.

Lemma digits_ok_take l n : digits_ok l -> digits_ok (take n l).
Proof. apply Forall_take. Qed.

Lemma digits_ok_zeros n : digits_ok (replicate n 0).
Proof. apply Forall_replicate. pose proof Base_pos. unfold digit_ok. lia. Qed.

Lemma pv_bound l i : digits_ok l -> 0 <= i -> 0 <= pv l i < Base ^ i.
Proof.
  intros Hl Hi. pattern i. apply natlike_ind; [..|done].
  - rewrite pv_0, Z.pow_0_r. lia.
  - intros k Hk IH. rewrite <- Z.add_1_r, pv_succ, Base_pow_succ by done.
    pose proof (digits_ok_get l k Hl) as Hd. unfold digit_ok in Hd.
    pose proof (Base_pow_pos k Hk).
    assert (zget l k * Base ^ k <= (Base - 1) * Base ^ k) by (apply Z.mul_le_mono_nonneg_r; lia).
    assert (0 <= zget l k * Base ^ k) by (apply Z.mul_nonneg_nonneg; lia). lia.
Qed.

(** A prefix with a nonzero last digit reaches the corresponding power. *)
Lemma pv_lower l i : digits_ok l -> 0 <= i -> zget l i <> 0 -> Base ^ i <= pv l (i + 1).
Proof.
  intros Hl Hi Hnz. rewrite pv_succ by done. pose proof (pv_bound l i Hl Hi).
  pose proof (digits_ok_get l i Hl) as Hd. unfold digit_ok in Hd. pose proof (Base_pow_pos i Hi).
  assert (1 * Base ^ i <= zget l i * Base ^ i) by (apply Z.mul_le_mono_nonneg_r; lia). lia.
Qed.

(** Writing any digit of a vector. *)
Lemma pv_zset l i n v : 0 <= i < zlen l -> i < n ->
  pv (zset l i v) n = pv l n + (v - zget l i) * Base ^ i.
Proof.
  intros Hi Hn. replace n with (i + 1 + Z.of_nat (Z.to_nat (n - (i + 1)))) by lia.
  generalize (Z.to_nat (n - (i + 1))). intros m. induction m as [|m IH].
  - rewrite Z.add_0_r, pv_zset_next, pv_succ by lia. lia.
  - replace (i + 1 + Z.of_nat (S m)) with (i + 1 + Z.of_nat m + 1) by lia.
    rewrite !pv_succ, IH, zget_zset_other by lia. lia.
Qed.

Lemma zget_zeros n i : zget (replicate n 0) i = 0.
Proof.
  unfold zget. destruct (i <? 0); [done|]. rewrite nth_lookup.
  destruct (replicate n 0 !! Z.to_nat i) eqn:E; [|done]. apply lookup_replicate in E as [-> _]. done.
Qed.

Lemma pv_zeros n i : 0 <= i -> pv (replicate n 0) i = 0.
Proof. intros Hi. rewrite (pv_stable _ 0 i); [done|lia|]. intros. apply zget_zeros. Qed.

Lemma pv_take l n i : 0 <= i <= Z.of_nat n -> pv (take n l) i = pv l i.
Proof. intros H. apply pv_ext. intros k Hk. apply zget_take. lia. Qed.

Lemma zlen_take l n : 0 <= n <= zlen l -> zlen (take (Z.to_nat n) l) = n.
Proof. unfold zlen. intros. rewrite length_take. lia. Qed.

Lemma zlen_replicate (n : nat) (v : Z) : zlen (replicate n v) = Z.of_nat n.
Proof. unfold zlen. by rewrite length_replicate. Qed.
End prefix.
#[global] Opaque pv.

(** ** The invariant and the value *)

Section wf_facts.
Context {P : Platform}.

Lemma digitLength_nonneg x : 0 <= digitLength x.
Proof. apply zlen_nonneg. Qed.

Lemma isZero_spec x : isZero x = (digitLength x =? 0).
Proof. done. Qed.

Lemma absval_pv x : absval x = pv (digits x) (digitLength x).
Proof. apply eval_pv. Qed.

Lemma absval_bound x : digits_ok (digits x) -> 0 <= absval x < Base ^ digitLength x.
Proof. intros H. rewrite absval_pv. apply pv_bound; [done|apply zlen_nonneg]. Qed.

Lemma wf_digits x : wf x -> digits_ok (digits x).
Proof. intros H. apply H. Qed.

Lemma wf_digit x i : wf x -> digit_ok (zget (digits x) i).
Proof. intros H. by apply digits_ok_get, wf_digits. Qed.

Lemma wf_length x : wf x -> 0 <= digitLength x <= MaxDigitLength.
Proof. intros H. split; [apply zlen_nonneg|apply H]. Qed.

Lemma wf_lower x : wf x -> 0 < digitLength x -> Base ^ (digitLength x - 1) <= absval x.
Proof.
  intros (Hd & _ & _ & Hnz) Hlen. rewrite absval_pv.
  replace (digitLength x) with (digitLength x - 1 + 1) at 2 by lia.
  apply pv_lower; [done|lia|by apply Hnz].
Qed.

Lemma absval_zero_length x : digitLength x = 0 -> absval x = 0.
Proof. intros H. rewrite absval_pv, H. apply pv_0. Qed.

Lemma wf_absval_zero x : wf x -> absval x = 0 <-> digitLength x = 0.
Proof.
  intros Hwf. split; [|apply absval_zero_length]. intros H0.
  pose proof (digitLength_nonneg x). destruct (Z.eq_dec (digitLength x) 0); [done|].
  pose proof (wf_lower x Hwf ltac:(lia)). pose proof (Base_pow_pos (digitLength x - 1) ltac:(lia)). lia.
Qed.

Lemma wf_absval_nonneg x : wf x -> 0 <= absval x.
Proof. intros H. apply absval_bound, wf_digits, H. Qed.

Lemma wf_sign x : wf x -> absval x = 0 -> isNegative x = false.
Proof. intros H H0. apply H. by apply wf_absval_zero. Qed.

(** A representation determines, and is determined by, its value. *)
Lemma value_abs x : absval x = Z.abs (value x) \/ ~ wf x.
Proof.
  destruct (decide (0 <= absval x)) as [H|H].
  - left. unfold value. destruct (isNegative x); lia.
  - right. intros Hwf. by apply H, wf_absval_nonneg.
Qed.

Lemma wf_abs_value x : wf x -> absval x = Z.abs (value x).
Proof. intros H. by destruct (value_abs x). Qed.

Lemma wf_value_neg x : wf x -> isNegative x = (value x <? 0).
Proof.
  intros H. pose proof (wf_absval_nonneg x H). unfold value.
  destruct (isNegative x) eqn:Hs; [|lia].
  destruct (Z.eq_dec (absval x) 0); [|lia]. rewrite wf_sign in Hs; done.
Qed.

Lemma eval_inj l m : digits_ok l -> digits_ok m -> length l = length m -> eval l = eval m -> l = m.
Proof.
  revert m. induction l as [|d l IH]; intros [|e m] Hl Hm Hlen Heq; try done.
  inversion Hl as [|? ? Hd Hl']; inversion Hm as [|? ? He Hm']; subst. cbn [eval] in Heq.
  unfold digit_ok in *. pose proof Base_pos.
  assert (eval l = eval m).
  { apply (f_equal (fun z => z / Base)) in Heq.
    rewrite !(Z.add_comm _ (Base * _)), !(Z.mul_comm Base), !Z.div_add_l, !Z.div_small in Heq; lia. }
  f_equal; [lia|]. apply IH; auto.
Qed.

Lemma length_of_absval x y : wf x -> wf y -> digitLength x < digitLength y -> absval x < absval y.
Proof.
  intros Hx Hy Hlt. pose proof (absval_bound x (wf_digits x Hx)). pose proof (digitLength_nonneg x).
  pose proof (wf_lower y Hy ltac:(lia)). pose proof Base_pos.
  assert (Base ^ digitLength x <= Base ^ (digitLength y - 1)) by (apply Z.pow_le_mono_r; lia). lia.
Qed.

Lemma wf_length_unique x y : wf x -> wf y -> absval x = absval y -> digitLength x = digitLength y.
Proof.
  intros Hx Hy Heq. destruct (Z.lt_trichotomy (digitLength x) (digitLength y)) as [Hlt|[?|Hlt]]; [|done|].
  - pose proof (length_of_absval x y Hx Hy Hlt). lia.
  - pose proof (length_of_absval y x Hy Hx Hlt). lia.
Qed.

Lemma wf_value_inj x y : wf x -> wf y -> value x = value y -> x = y.
Proof.
  intros Hx Hy Heq.
  assert (Ha : absval x = absval y) by (rewrite !wf_abs_value by done; congruence).
  pose proof (wf_length_unique x y Hx Hy Ha) as Hlen.
  pose proof (wf_value_neg x Hx) as Hsx. pose proof (wf_value_neg y Hy) as Hsy.
  destruct x as [nx dx], y as [ny dy]. cbn [isNegative digits] in *. f_equal; [congruence|].
  apply eval_inj; [by apply Hx|by apply Hy| |done]. unfold digitLength, zlen in Hlen. cbn in Hlen. lia.
Qed.
End wf_facts.

(** * Specifications of the primitive operations *)

(** [denotes r v]: [r] is the canonical representation of [v]. *)
Definition denotes {P : Platform} (r : bigint) (v : Z) : Prop := wf r /\ value r = v.

(** A BigInt under construction: sign, length, digits in range. *)
Definition shape {P : Platform} (neg : bool) (n : Z) (r : bigint) : Prop :=
  isNegative r = neg /\ digitLength r = n /\ digits_ok (digits r).

Definition with_digit (r : bigint) (i d : Z) : bigint :=
  BigInt (isNegative r) (zset (digits r) i d).

Section rules.
Context {P : Platform}.

Lemma value_signed x : value x = signed (isNegative x) (absval x).
Proof. done. Qed.

Lemma digitLength_with_digit r i d : digitLength (with_digit r i d) = digitLength r.
Proof. apply zlen_zset. Qed.

Lemma shape_with_digit neg n r i d : shape neg n r -> digit_ok d -> shape neg n (with_digit r i d).
Proof.
  intros (Hs & Hn & Hd) Hok. unfold shape, with_digit, digitLength. cbn [isNegative digits].
  rewrite zlen_zset. split_and!; [done|done|by apply digits_ok_zset].
Qed.

Lemma shape_wf x : wf x -> shape (isNegative x) (digitLength x) x.
Proof. intros H. split_and!; [done|done|by apply wf_digits]. Qed.

Lemma MaxDigitLength_big : 16384 <= MaxDigitLength.
Proof. unfold MaxDigitLength, MaxBitLength. destruct DigitBits_cases as [-> | ->]; by vm_compute. Qed.

Lemma MaxBitLength_digits : MaxBitLength = DigitBits * MaxDigitLength.
Proof. unfold MaxDigitLength, MaxBitLength. destruct DigitBits_cases as [-> | ->]; by vm_compute. Qed.

(** A complete digit vector with a nonzero top digit is canonical. *)
Lemma shape_denotes neg n r :
  shape neg n r -> 0 < n <= MaxDigitLength -> zget (digits r) (n - 1) <> 0 ->
  denotes r (signed neg (pv (digits r) n)).
Proof.
  intros (Hs & Hn & Hd) Hlen Hnz. split.
  - split_and!; [done|lia|lia|by rewrite Hn].
  - by rewrite value_signed, absval_pv, Hs, Hn.
Qed.

Lemma shape_empty r : shape false 0 r -> denotes r 0.
Proof.
  intros (Hs & Hn & Hd). pose proof MaxDigitLength_big. split.
  - split_and!; [done|lia|done|lia].
  - by rewrite value_signed, Hs, absval_zero_length.
Qed.

Lemma wp_digit x i (Q : Z -> Prop) E :
  0 <= i < digitLength x -> Q (zget (digits x) i) -> wp (digit x i) Q E.
Proof.
  intros Hi HQ. unfold digit. replace ((0 <=? i) && (i <? digitLength x)) with true by lia.
  by apply wp_ret.
Qed.

Lemma wp_setDigit x i d (Q : bigint -> Prop) E :
  0 <= i < digitLength x -> Q (with_digit x i d) -> wp (setDigit x i d) Q E.
Proof.
  intros Hi HQ. unfold setDigit. replace ((0 <=? i) && (i <? digitLength x)) with true by lia.
  by apply wp_ret.
Qed.

(** Allocation fails with [BigIntTooLarge] exactly above the limit. *)
Lemma wp_create len neg (Q : bigint -> Prop) (E : error -> Prop) :
  0 <= len -> (MaxDigitLength < len -> E BigIntTooLarge) ->
  (forall x, len <= MaxDigitLength -> shape neg len x -> Q x) ->
  wp (createUninitialized len neg) Q E.
Proof.
  intros Hlen HE HQ. unfold createUninitialized. wp_step; bsplit.
  { apply wp_throw; [by apply HE|done]. }
  wp_step. apply wp_allocate. intros cell. wp_step.
  assert (HQ' : forall n, wp (uninitialized n (Z.to_nat len))
                     (fun ds => wp (mret (BigInt neg (wrap <$> ds))) Q E) E).
  { intros n. apply wp_uninitialized. intros l Hl. wp_step. apply HQ; [lia|].
    split_and!; [done| |].
    - unfold digitLength, zlen. cbn [digits]. rewrite length_fmap. lia.
    - apply Forall_fmap, Forall_true. intros d. apply wrap_ok. }
  wp_step; [apply wp_allocate|wp_step]; intros; wp_step; apply HQ'.
Qed.

(** The common case: the size is known to be within the limit. *)
Lemma wp_create_ok len neg (Q : bigint -> Prop) E :
  0 <= len <= MaxDigitLength -> (forall x, shape neg len x -> Q x) ->
  wp (createUninitialized len neg) Q E.
Proof. intros Hlen HQ. apply wp_create; [lia|lia|auto]. Qed.

Lemma zero_spec : wp zero (fun r => denotes r 0) no_error.
Proof. pose proof MaxDigitLength_big. apply wp_create_ok; [lia|]. apply shape_empty. Qed.

Lemma absval_with_digit1 r d : digitLength r = 1 -> absval (with_digit r 0 d) = d.
Proof.
  intros Hn. rewrite absval_pv. unfold digitLength, with_digit in *. cbn [digits] in *.
  rewrite zlen_zset, Hn. change 1 with (0 + 1) at 1. rewrite pv_zset_next by lia.
  rewrite pv_0, Z.pow_0_r. lia.
Qed.

Lemma createFromDigit_spec d neg : digit_ok d -> d <> 0 ->
  wp (createFromDigit d neg) (fun r => denotes r (signed neg d)) no_error.
Proof.
  intros Hd Hnz. pose proof MaxDigitLength_big. unfold createFromDigit.
  wp_step. wp_step; [lia|]. wp_step. apply wp_create_ok; [lia|]. intros r Hr.
  apply wp_setDigit; [destruct Hr as (?&?&?); lia|].
  pose proof (shape_with_digit _ _ _ 0 d Hr Hd) as Hr'. destruct Hr as (_ & Hn & _).
  assert (Hget : zget (digits (with_digit r 0 d)) (1 - 1) = d)
    by (apply zget_zset_same; unfold digitLength in Hn; lia).
  destruct (shape_denotes _ _ _ Hr') as [Hwf Hv]; [lia|congruence|].
  split; [done|]. rewrite value_signed. destruct Hr' as (-> & _). by rewrite absval_with_digit1.
Qed.

Lemma one_spec : wp one (fun r => denotes r 1) no_error.
Proof. pose proof Base_big. apply (createFromDigit_spec 1 false); [unfold digit_ok; lia|done]. Qed.

Lemma negativeOne_spec : wp negativeOne (fun r => denotes r (-1)) no_error.
Proof. pose proof Base_big. apply (createFromDigit_spec 1 true); [unfold digit_ok; lia|done]. Qed.
End rules.

Section trimming.
Context {P : Platform}.

(** Cutting high zero digits preserves the value and canonicalises. *)
Lemma take_denotes neg n r k :
  shape neg n r -> n <= MaxDigitLength -> 0 <= k < n -> zget (digits r) k <> 0 ->
  (forall j, k < j < n -> zget (digits r) j = 0) ->
  denotes (BigInt neg (take (Z.to_nat (k + 1)) (digits r))) (signed neg (pv (digits r) n)).
Proof.
  intros (Hs & Hn & Hd) Hmax Hk Hnz Hz. unfold digitLength in Hn.
  assert (Hlen : zlen (take (Z.to_nat (k + 1)) (digits r)) = k + 1) by (apply zlen_take; lia).
  replace (pv (digits r) n) with (pv (take (Z.to_nat (k + 1)) (digits r)) (k + 1)).
  - apply shape_denotes; [|lia|].
    + split_and!; [done|exact Hlen|by apply digits_ok_take].
    + cbn [digits]. rewrite zget_take by lia. by rewrite Z.add_simpl_r.
  - rewrite pv_take by lia. symmetry. apply pv_stable; [lia|]. intros. apply Hz. lia.
Qed.

(** [destructivelyTrimHighZeroDigits] canonicalises any digit vector. *)
Lemma trim_spec neg n r :
  shape neg n r -> n <= MaxDigitLength -> (n = 0 -> neg = false) ->
  wp (destructivelyTrimHighZeroDigits r)
    (fun r' => denotes r' (signed neg (pv (digits r) n))) no_error.
Proof.
  intros Hr Hmax Hsign. pose proof Hr as (Hs & Hn & Hd). pose proof (digitLength_nonneg r).
  unfold destructivelyTrimHighZeroDigits, isZero. wp_step; bsplit.
  { assert (n = 0) as -> by lia. rewrite Hsign in * by done.
    wp_step. wp_step; [by rewrite Hs|]. wp_step. by apply shape_empty. }
  wp_step. wp_step; [lia|]. wp_step.
  eapply (wp_loop (fun k => -1 <= k < n /\ forall j, k < j < n -> zget (digits r) j = 0)
            (fun k => k + 1)).
  { split; [lia|]. intros j Hj. lia. }
  { lia. }
  { intros; lia. }
  intros k (Hk & Hz). wp_step; bsplit.
  - wp_step. apply wp_digit; [lia|]. wp_step.
    destruct (Z.eqb_spec (zget (digits r) k) 0) as [Hk0|Hk0].
    + split; [|lia]. split; [lia|]. intros j Hj. destruct (Z.eq_dec j k) as [->|]; [done|].
      apply Hz. lia.
    + wp_step; [lia|]. bsplit. pose proof (take_denotes neg n r k Hr Hmax ltac:(lia) Hk0 Hz) as Hden.
      wp_step.
      { wp_step. bsplit. rewrite take_ge in Hden by (unfold digitLength, zlen in *; lia).
        destruct r as [sr dr]. cbn in *. by subst sr. }
      wp_step. wp_step.
      * wp_step. wp_step.
        { unfold hasHeapDigits, hasInlineDigits. lia. }
        wp_step. apply wp_allocate. intros _. wp_step. wp_step. by rewrite Hs.
      * wp_step. wp_step. by rewrite Hs.
  - wp_step. wp_step; [|lia]. assert (k = -1) as -> by lia.
    eapply wp_weaken_ok; [apply zero_spec|]. intros r' Hr'.
    rewrite (pv_stable _ 0 n), pv_0; [by destruct neg|lia|]. intros j Hj. apply Hz. lia.
Qed.
End trimming.

(** The invariant of a loop that has filled the digits below [i] so that
    they are worth [v]. *)
Definition filled {P : Platform} (neg : bool) (n : Z) (v i : Z) (r : bigint) : Prop :=
  shape neg n r /\ pv (digits r) i = v.

Section constructors.
Context {P : Platform}.

Lemma filled_0 neg n r : shape neg n r -> filled neg n 0 0 r.
Proof. intros H. split; [done|apply pv_0]. Qed.

Lemma filled_step neg n v i r d :
  filled neg n v i r -> 0 <= i < n -> digit_ok d ->
  filled neg n (v + d * Base ^ i) (i + 1) (with_digit r i d).
Proof.
  intros [Hr <-] Hi Hd. split; [by apply shape_with_digit|].
  destruct Hr as (_ & Hn & _). unfold digitLength in Hn.
  unfold with_digit. cbn [digits]. rewrite pv_zset_next by lia. done.
Qed.

Lemma filled_len neg n v i r : filled neg n v i r -> digitLength r = n.
Proof. intros [(?&?&?) _]. done. Qed.

(** The write that ends an iteration. *)
Lemma wp_fill neg n v i r d (Q : bigint -> Prop) E :
  filled neg n v i r -> 0 <= i < n -> digit_ok d ->
  (filled neg n (v + d * Base ^ i) (i + 1) (with_digit r i d) ->
   Q (with_digit r i d)) ->
  wp (setDigit r i d) Q E.
Proof.
  intros Hr Hi Hd HQ. apply wp_setDigit; [by rewrite (filled_len _ _ _ _ _ Hr)|].
  apply HQ. by apply filled_step.
Qed.

Lemma filled_trim neg n v r :
  filled neg n v n r -> n <= MaxDigitLength -> (n = 0 -> neg = false) ->
  wp (destructivelyTrimHighZeroDigits r) (fun r' => denotes r' (signed neg v)) no_error.
Proof. intros [Hr <-] Hmax Hs. by apply trim_spec. Qed.

Lemma filled_top_nonzero neg n v r :
  filled neg n v n r -> 0 < n -> Base ^ (n - 1) <= v -> zget (digits r) (n - 1) <> 0.
Proof.
  intros [(_ & _ & Hd) Hv] Hn Hlow Hz.
  replace n with (n - 1 + 1) in Hv by lia. rewrite pv_succ, Hz in Hv by lia.
  pose proof (pv_bound (digits r) (n - 1) Hd ltac:(lia)). lia.
Qed.

(** A full vector whose value needs all its digits is canonical. *)
Lemma filled_denotes neg n v r :
  filled neg n v n r -> 0 < n <= MaxDigitLength -> Base ^ (n - 1) <= v ->
  denotes r (signed neg v).
Proof.
  intros Hr Hn Hlow. pose proof (filled_top_nonzero _ _ _ _ Hr ltac:(lia) Hlow) as Hnz.
  destruct Hr as [Hr <-]. by apply shape_denotes.
Qed.

Lemma no_leading_zeroes r v : denotes r v -> negb (HasLeadingZeroes r) = true.
Proof.
  intros [(_ & _ & _ & H) _]. unfold HasLeadingZeroes.
  destruct (Z.gtb_spec (digitLength r) 0); cbn; [|done]. specialize (H ltac:(lia)). lia.
Qed.

Lemma copy_spec x : wf x -> wp (copy x) (fun r => r = x) no_error.
Proof.
  intros Hx. pose proof (wf_length x Hx). unfold copy. wp_step; bsplit.
  { unfold isZero in *. eapply wp_weaken_ok; [apply zero_spec|]. intros r [Hr Hv].
    apply wf_value_inj; [done..|]. rewrite Hv, value_signed, absval_zero_length by lia.
    by destruct (isNegative x). }
  unfold isZero in *. bsplit. wp_step. apply wp_create_ok; [lia|]. intros r0 Hr0.
  eapply (wp_for (fun i => filled (isNegative x) (digitLength x) (pv (digits x) i) i)).
  { lia. }
  { by apply filled_0. }
  { intros i r Hi Hr. wp_step. apply wp_digit; [lia|].
    eapply wp_fill; [done|lia|by apply wf_digit|]. rewrite <- pv_succ by lia. done. }
  intros r Hr. apply wf_value_inj; [|done|].
  - eapply (filled_denotes _ _ _ _ Hr); [lia|]. rewrite <- absval_pv. by apply wf_lower; [|lia].
  - rewrite value_signed, value_signed. destruct Hr as [(-> & Hn & _) Hp].
    by rewrite !absval_pv, Hn, Hp.
Qed.

Lemma wf_flip x : wf x -> digitLength x <> 0 -> denotes (BigInt (negb (isNegative x)) (digits x)) (- value x).
Proof.
  intros (H1 & H2 & H3 & H4) Hnz. split.
  - split_and!; [done|done|done|done].
  - rewrite !value_signed. unfold absval. cbn. destruct (isNegative x); cbn; lia.
Qed.

Lemma neg_spec x : wf x -> wp (neg x) (fun r => denotes r (- value x)) no_error.
Proof.
  intros Hx. unfold neg, isZero. wp_step; bsplit; wp_step.
  - split; [done|]. rewrite value_signed, absval_zero_length by done. by destruct (isNegative x).
  - wp_call copy_spec; [done|]. intros r ->. wp_step. by apply wf_flip.
Qed.
End constructors.

(** ** 64-bit integers *)

Section uint64.
Context {P : Platform}.

Lemma pv_mod l i n : digits_ok l -> 0 <= i <= n -> pv l n mod Base ^ i = pv l i.
Proof.
  intros Hl Hi. pose proof (Base_pow_pos i ltac:(lia)).
  assert (Hq : exists q, pv l n = pv l i + q * Base ^ i).
  { replace n with (i + Z.of_nat (Z.to_nat (n - i))) by lia.
    assert (Hi0 : 0 <= i) by lia. generalize (Z.to_nat (n - i)). intros m.
    induction m as [|m [q IH]]; [exists 0; rewrite Z.add_0_r; lia|].
    exists (q + zget l (i + Z.of_nat m) * Base ^ Z.of_nat m).
    replace (i + Z.of_nat (S m)) with (i + Z.of_nat m + 1) by lia.
    rewrite pv_succ, IH, (Z.add_comm i (Z.of_nat m)), Z.pow_add_r by lia. ring. }
  destruct Hq as [q ->]. rewrite Z.mod_add by lia. apply Z.mod_small, pv_bound; [done|lia].
Qed.

Lemma two64 : 2 ^ 64 = Base ^ (64 / DigitBits).
Proof. unfold Base. destruct DigitBits_cases as [-> | ->]; reflexivity. Qed.

Lemma digits64_pos : 1 <= 64 / DigitBits <= 2.
Proof. destruct DigitBits_cases as [-> | ->]; by vm_compute. Qed.

Lemma pv_1 l : pv l 1 = zget l 0.
Proof. change 1 with (0 + 1). rewrite pv_succ, pv_0, Z.pow_0_r by lia. lia. Qed.

Lemma pv_2 l : pv l 2 = zget l 0 + zget l 1 * Base.
Proof. change 2 with (1 + 1). by rewrite pv_succ, pv_1, Z.pow_1_r by lia. Qed.

Lemma lor_high_add a b k : 0 <= k -> 0 <= a < 2 ^ k -> Z.lor a (Z.shiftl b k) = a + b * 2 ^ k.
Proof.
  intros Hk Ha. rewrite Z.shiftl_mul_pow2, Z.lor_comm, lor_disjoint_add by done. lia.
Qed.

(** The low 64 bits of the magnitude. *)
Lemma uint64FromAbs_spec x : digits_ok (digits x) -> 0 < digitLength x ->
  wp (uint64FromAbsNonZero x) (fun v => v = absval x mod 2 ^ 64) no_error.
Proof.
  intros Hd Hpos. unfold uint64FromAbsNonZero, isZero. wp_step. wp_step; [lia|].
  wp_step. apply wp_digit; [lia|]. rewrite absval_pv, two64.
  pose proof (digits_ok_get (digits x) 0 Hd) as H0. unfold digit_ok, Base in H0.
  destruct DigitBits_cases as [E|E]; rewrite E in *; cbn [Z.eqb Pos.eqb andb].
  - change (64 / 32) with 2. wp_step; bsplit.
    + wp_step. apply wp_digit; [lia|]. wp_step.
      rewrite lor_high_add, pv_mod, pv_2 by (done || lia). unfold Base. by rewrite E.
    + wp_step. replace (digitLength x) with 1 by lia. rewrite pv_1. symmetry.
      apply Z.mod_small. unfold Base. rewrite E. lia.
  - change (64 / 64) with 1. wp_step. by rewrite pv_mod, pv_1 by (done || lia).
Qed.

Lemma fits_small x : digits_ok (digits x) -> absFitsInUint64 x = true -> absval x mod 2 ^ 64 = absval x.
Proof.
  unfold absFitsInUint64. intros Hd Hfit. bsplit. pose proof (absval_bound x Hd). pose proof Base_pos.
  apply Z.mod_small. rewrite two64.
  assert (Base ^ digitLength x <= Base ^ (64 / DigitBits)) by (apply Z.pow_le_mono_r; lia). lia.
Qed.

Lemma fits_iff x : wf x -> absFitsInUint64 x = true <-> absval x < 2 ^ 64.
Proof.
  intros Hx. split.
  - intros Hfit. pose proof (fits_small x (wf_digits x Hx) Hfit).
    pose proof (Z.mod_pos_bound (absval x) (2 ^ 64)). lia.
  - unfold absFitsInUint64. rewrite two64. intros Hlt. pose proof Base_pos.
    pose proof digits64_pos.
    destruct (Z_le_gt_dec (digitLength x) (64 / DigitBits)); [lia|].
    pose proof (digitLength_nonneg x). pose proof (wf_lower x Hx ltac:(lia)).
    assert (Base ^ (64 / DigitBits) <= Base ^ (digitLength x - 1)) by (apply Z.pow_le_mono_r; lia). lia.
Qed.

(** The magnitude of a value of at most 64 bits. *)
Lemma uint64FromAbs_fits x : wf x -> 0 < digitLength x -> absFitsInUint64 x = true ->
  wp (uint64FromAbsNonZero x) (fun v => v = absval x) no_error.
Proof.
  intros Hx Hpos Hfit. eapply wp_weaken_ok; [apply uint64FromAbs_spec; [by apply wf_digits|done]|].
  intros v ->. apply fits_small; [by apply wf_digits|done].
Qed.

Lemma digit_ok_wrap_div n k : 0 <= n < Base * Base ^ k -> 0 <= k -> digit_ok (n / Base ^ k).
Proof.
  intros Hn Hk. pose proof (Base_pow_pos k Hk). unfold digit_ok. split.
  - apply Z.div_pos; lia.
  - apply Z.div_lt_upper_bound; lia.
Qed.

Lemma createFromNonZeroRawUint64_spec n neg : 0 < n < 2 ^ 64 ->
  wp (createFromNonZeroRawUint64 n neg) (fun r => denotes r (signed neg n)) no_error.
Proof.
  intros Hn. unfold createFromNonZeroRawUint64. pose proof MaxDigitLength_big. pose proof Base_pos.
  pose proof (Z.div_mod n Base Base_nonzero) as Hdm.
  wp_step. wp_step; [lia|]. rewrite Z.shiftr_div_pow2 by lia.
  change (2 ^ 64) with (2 ^ 32 * 2 ^ 32) in Hn.
  assert (Hend : forall r, denotes r (signed neg n) ->
     wp (moz_assert (negb (HasLeadingZeroes r));; mret r) (fun r => denotes r (signed neg n)) no_error).
  { intros r Hr. wp_step. wp_step; [by eapply no_leading_zeroes|]. by wp_step. }
  destruct DigitBits_cases as [E|E]; rewrite E in *; cbn [Z.eqb Pos.eqb andb].
  - assert (EB : Base = 2 ^ 32) by (unfold Base; by rewrite E). rewrite EB in *.
    assert (Hok : forall z, digit_ok (z mod 2 ^ 32)) by (intros; rewrite <- EB; apply wrap_ok).
    unfold wrap. rewrite EB.
    destruct (Z.eqb_spec (n / 2 ^ 32) 0) as [Hz|Hz]; cbn [negb Z.gtb Z.compare Pos.compare Pos.compare_cont].
    + wp_step. apply wp_create_ok; [lia|]. intros r Hr. apply filled_0 in Hr.
      wp_step. eapply wp_fill; [done|lia|apply Hok|]. intros Hf. wp_step. wp_step.
      apply Hend. rewrite Z.pow_0_r in Hf.
      replace (0 + n mod 2 ^ 32 * 1) with n in Hf by lia.
      apply (filled_denotes _ _ _ _ Hf); [lia|]. cbn. lia.
    + wp_step. apply wp_create_ok; [lia|]. intros r Hr. apply filled_0 in Hr.
      wp_step. eapply wp_fill; [done|lia|apply Hok|]. intros Hf. wp_step.
      eapply wp_fill; [done|lia|apply Hok|]. clear Hf. intros Hf.
      apply Hend. rewrite Z.pow_0_r, Z.pow_1_r, EB in Hf.
      rewrite (Z.mod_small (n / 2 ^ 32)) in Hf |- *.
      2, 3: split; [apply Z.div_pos; lia|apply Z.div_lt_upper_bound; lia].
      replace (0 + n mod 2 ^ 32 * 1 + n / 2 ^ 32 * 2 ^ 32) with n in Hf by lia.
      apply (filled_denotes _ _ _ _ Hf); [lia|]. rewrite EB, Z.pow_1_r.
      assert (0 < n / 2 ^ 32) by (assert (0 <= n / 2 ^ 32) by (apply Z.div_pos; lia); lia).
      pose proof (Z.mod_pos_bound n (2 ^ 32)). lia.
  - wp_step. apply wp_create_ok; [lia|]. intros r Hr. apply filled_0 in Hr.
    wp_step. eapply wp_fill; [done|lia|apply wrap_ok|]. intros Hf. wp_step. wp_step.
    apply Hend. rewrite Z.pow_0_r in Hf. rewrite wrap_small in Hf |- *.
    2, 3: unfold digit_ok, Base; rewrite E; change (2 ^ 64) with (2 ^ 32 * 2 ^ 32); lia.
    replace (0 + n * 1) with n in Hf by lia.
    apply (filled_denotes _ _ _ _ Hf); [lia|]. cbn. lia.
Qed.
End uint64.
