(* ===== verification/BigIntAdd.v ===== *)
(** Addition, subtraction and comparison of BigInts (vm/BigIntType.cpp:
    [absoluteCompare], [absoluteAdd], [absoluteSub], [absoluteAddOne],
    [absoluteSubOne], [add], [sub], [inc], [dec], [compare], [equal],
    [lessThan]), with the integer operation each one implements. *)
From S2P Require Import Prelude Words BigIntRep.

(** * Definitions *)

Section definitions.
Context {P : Platform}.

Definition no_negative_zero (x : bigint) : bool := negb (isNegative x) || negb (isZero x).

Definition absoluteCompare (x y : bigint) : M Z :=
  moz_assert (negb (HasLeadingZeroes x));;
  moz_assert (negb (HasLeadingZeroes y));;
  moz_assert (no_negative_zero x);;
  moz_assert (no_negative_zero y);;
  let diff := digitLength x - digitLength y in
  if negb (diff =? 0) then mret (if diff <? 0 then -1 else 1)
  else
    i ← loop (Z.to_nat (digitLength x + 1)) (fun i =>
        if i >=? 0 then
          dx ← digit x i;
          dy ← digit y i;
          mret (if dx =? dy then inl (i - 1) else inr i)
        else mret (inr i)) (digitLength x - 1);
    if i <? 0 then mret 0
    else
      dx ← digit x i;
      dy ← digit y i;
      mret (if dx >? dy then 1 else -1).

Definition absoluteAdd (x y : bigint) (resultNegative : bool) : M bigint :=
  let swap := digitLength x <? digitLength y in
  let left := if swap then y else x in
  let right := if swap then x else y in
  if isZero left then moz_assert (isZero right);; mret left
  else if isZero right then
    if Bool.eqb resultNegative (isNegative left) then mret left else neg left
  else if absFitsInUint64 left then
    moz_assert (absFitsInUint64 right);;
    lhs ← uint64FromAbsNonZero left;
    rhs ← uint64FromAbsNonZero right;
    let res := (lhs + rhs) mod 2 ^ 64 in
    let overflow := res <? lhs in
    moz_assert (negb (res =? 0) || overflow);;
    let resultLength :=
      if DigitBits =? 32 then
        if overflow then 3 else if negb (Z.shiftr res 32 =? 0) then 2 else 1
      else if overflow then 2 else 1 in
    result ← createUninitialized resultLength resultNegative;
    result ← setDigit result 0 (wrap res);
    result ← (if (DigitBits =? 32) && (resultLength >? 1)
              then setDigit result 1 (wrap (Z.shiftr res 32)) else mret result);
    result ← (if overflow
              then setDigit result (if DigitBits =? 32 then 2 else 1) 1 else mret result);
    moz_assert (negb (HasLeadingZeroes result));;
    mret result
  else
    result ← createUninitialized (digitLength left + 1) resultNegative;
    '(carry, result) ← for_ 0 (digitLength right) (fun i '(carry, result) =>
        dl ← digit left i;
        dr ← digit right i;
        let '(sum, newCarry) := digitAdd dl dr 0 in
        let '(sum, newCarry) := digitAdd sum carry newCarry in
        result ← setDigit result i sum;
        mret (newCarry, result)) (0, result);
    '(carry, result) ← for_ (digitLength right) (digitLength left) (fun i '(carry, result) =>
        dl ← digit left i;
        let '(sum, newCarry) := digitAdd dl carry 0 in
        result ← setDigit result i sum;
        mret (newCarry, result)) (carry, result);
    result ← setDigit result (digitLength left) carry;
    destructivelyTrimHighZeroDigits result.

Definition absoluteSub (x y : bigint) (resultNegative : bool) : M bigint :=
  moz_assert (digitLength x >=? digitLength y);;
  c ← absoluteCompare x y;
  moz_assert (c >? 0);;
  moz_assert (negb (isZero x));;
  if isZero y then
    if Bool.eqb resultNegative (isNegative x) then mret x else neg x
  else if absFitsInUint64 x then
    moz_assert (absFitsInUint64 y);;
    lhs ← uint64FromAbsNonZero x;
    rhs ← uint64FromAbsNonZero y;
    moz_assert (lhs >? rhs);;
    let res := (lhs - rhs) mod 2 ^ 64 in
    moz_assert (negb (res =? 0));;
    createFromNonZeroRawUint64 res resultNegative
  else
    result ← createUninitialized (digitLength x) resultNegative;
    '(borrow, result) ← for_ 0 (digitLength y) (fun i '(borrow, result) =>
        dx ← digit x i;
        dy ← digit y i;
        let '(difference, newBorrow) := digitSub dx dy 0 in
        let '(difference, newBorrow) := digitSub difference borrow newBorrow in
        result ← setDigit result i difference;
        mret (newBorrow, result)) (0, result);
    '(borrow, result) ← for_ (digitLength y) (digitLength x) (fun i '(borrow, result) =>
        dx ← digit x i;
        let '(difference, newBorrow) := digitSub dx borrow 0 in
        result ← setDigit result i difference;
        mret (newBorrow, result)) (borrow, result);
    moz_assert (borrow =? 0);;
    destructivelyTrimHighZeroDigits result.

(** Return [(|x| + 1) * (resultNegative ? -1 : +1)]. *)
Definition absoluteAddOne (x : bigint) (resultNegative : bool) : M bigint :=
  let inputLength := digitLength x in
  willOverflow ← loop (Z.to_nat (inputLength + 1)) (fun i =>
      if i <? inputLength then
        d ← digit x i;
        mret (if negb (Base - 1 =? d) then inr false else inl (i + 1))
      else mret (inr true)) 0;
  let resultLength := inputLength + Z.b2z willOverflow in
  result ← createUninitialized resultLength resultNegative;
  '(carry, result) ← for_ 0 inputLength (fun i '(carry, result) =>
      d ← digit x i;
      let '(sum, newCarry) := digitAdd d carry 0 in
      result ← setDigit result i sum;
      mret (newCarry, result)) (1, result);
  result ← (if resultLength >? inputLength then
              moz_assert (carry =? 1);;
              setDigit result inputLength 1
            else
              moz_assert (carry =? 0);;
              mret result);
  destructivelyTrimHighZeroDigits result.

(** Return [(|x| - 1) * (resultNegative ? -1 : +1)], for [|x| != 0]. *)
Definition absoluteSubOne (x : bigint) (resultNegative : bool) : M bigint :=
  moz_assert (negb (isZero x));;
  let length := digitLength x in
  if length =? 1 then
    d ← digit x 0;
    if d =? 1 then zero else createFromDigit (wrap (d - 1)) resultNegative
  else
    result ← createUninitialized length resultNegative;
    '(borrow, result) ← for_ 0 length (fun i '(borrow, result) =>
        d ← digit x i;
        let '(difference, newBorrow) := digitSub d borrow 0 in
        result ← setDigit result i difference;
        mret (newBorrow, result)) (1, result);
    moz_assert (borrow =? 0);;
    destructivelyTrimHighZeroDigits result.

Definition inc (x : bigint) : M bigint :=
  if isZero x then one
  else if isNegative x then absoluteSubOne x (isNegative x)
  else absoluteAddOne x (isNegative x).

Definition dec (x : bigint) : M bigint :=
  if isZero x then negativeOne
  else if isNegative x then absoluteAddOne x (isNegative x)
  else absoluteSubOne x (isNegative x).

Definition add (x y : bigint) : M bigint :=
  let xNegative := isNegative x in
  if Bool.eqb xNegative (isNegative y) then absoluteAdd x y xNegative
  else
    compare ← absoluteCompare x y;
    if compare =? 0 then zero
    else if compare >? 0 then absoluteSub x y xNegative
    else absoluteSub y x (negb xNegative).

Definition sub (x y : bigint) : M bigint :=
  let xNegative := isNegative x in
  if negb (Bool.eqb xNegative (isNegative y)) then absoluteAdd x y xNegative
  else
    compare ← absoluteCompare x y;
    if compare =? 0 then zero
    else if compare >? 0 then absoluteSub x y xNegative
    else absoluteSub y x (negb xNegative).

Definition compare (x y : bigint) : M Z :=
  moz_assert (no_negative_zero x);;
  moz_assert (no_negative_zero y);;
  let xSign := isNegative x in
  if negb (Bool.eqb xSign (isNegative y)) then mret (if xSign then -1 else 1)
  else if xSign then absoluteCompare y x else absoluteCompare x y.

(** [same_cell]: the two pointers are equal. *)
Definition equal (same_cell : bool) (lhs rhs : bigint) : M bool :=
  if same_cell then mret true
  else if negb (digitLength lhs =? digitLength rhs) then mret false
  else if negb (Bool.eqb (isNegative lhs) (isNegative rhs)) then mret false
  else
    loop (Z.to_nat (digitLength lhs + 1)) (fun i =>
      if i <? digitLength lhs then
        dl ← digit lhs i;
        dr ← digit rhs i;
        mret (if negb (dl =? dr) then inr false else inl (i + 1))
      else mret (inr true)) 0.

Definition lessThan (x y : bigint) : M bool :=
  c ← compare x y;
  mret (c <? 0).
End definitions.

(** * Comparison *)

Section comparison.
Context {P : Platform}.

Lemma pv_lt_digit l m i n :
  digits_ok l -> digits_ok m -> 0 <= i < n -> zget l i < zget m i ->
  (forall j, i < j < n -> zget l j = zget m j) -> pv l n < pv m n.
Proof.
  intros Hl Hm Hi Hlt Heq.
  assert (Hbase : pv l (i + 1) < pv m (i + 1)).
  { rewrite !pv_succ by lia. pose proof (pv_bound l i Hl ltac:(lia)).
    pose proof (pv_bound m i Hm ltac:(lia)). pose proof (Base_pow_pos i ltac:(lia)).
    assert ((zget l i + 1) * Base ^ i <= zget m i * Base ^ i) by (apply Z.mul_le_mono_nonneg_r; lia).
    lia. }
  replace n with (i + 1 + Z.of_nat (Z.to_nat (n - (i + 1)))) in * by lia.
  assert (Hi0 : 0 <= i) by lia. clear Hi.
  generalize dependent (Z.to_nat (n - (i + 1))). intros k Heq.
  induction k as [|k IH]; [by rewrite Z.add_0_r|].
  replace (i + 1 + Z.of_nat (S k)) with (i + 1 + Z.of_nat k + 1) in * by lia.
  rewrite !pv_succ, Heq by lia. assert (pv l (i + 1 + Z.of_nat k) < pv m (i + 1 + Z.of_nat k)); [|lia].
  apply IH. intros j Hj. apply Heq. lia.
Qed.

Lemma wf_no_leading_zeroes x : wf x -> negb (HasLeadingZeroes x) = true.
Proof. intros H. by eapply no_leading_zeroes. Qed.

Lemma wf_no_negative_zero x : wf x -> no_negative_zero x = true.
Proof.
  intros (_ & _ & H & _). unfold no_negative_zero, isZero.
  destruct (Z.eqb_spec (digitLength x) 0); [by rewrite H|]. apply orb_true_r.
Qed.

(** [absoluteCompare] orders the magnitudes. *)
Lemma absoluteCompare_spec x y : wf x -> wf y ->
  wp (absoluteCompare x y) (fun r => r = Z.sgn (absval x - absval y)) no_error.
Proof.
  intros Hx Hy. unfold absoluteCompare.
  do 4 (wp_step; wp_step; [by first [apply wf_no_leading_zeroes|apply wf_no_negative_zero]|]).
  pose proof (digitLength_nonneg x). pose proof (digitLength_nonneg y).
  wp_step; bsplit.
  { wp_step. destruct (Z.ltb_spec (digitLength x - digitLength y) 0).
    - pose proof (length_of_absval x y Hx Hy). lia.
    - pose proof (length_of_absval y x Hy Hx). lia. }
  wp_step.
  eapply (wp_loop (fun i => -1 <= i < digitLength x /\
      forall j, i < j < digitLength x -> zget (digits x) j = zget (digits y) j) (fun i => i + 1)).
  { split; [lia|]. intros; lia. }
  { lia. }
  { intros; lia. }
  intros i [Hi Heq]. wp_step; bsplit.
  - wp_step. apply wp_digit; [lia|]. wp_step. apply wp_digit; [lia|]. wp_step.
    destruct (Z.eqb_spec (zget (digits x) i) (zget (digits y) i)) as [E|E].
    { split; [split; [lia|]|lia]. intros j Hj. destruct (Z.eq_dec j i) as [->|]; [done|]. apply Heq. lia. }
    wp_step; [lia|]. wp_step. apply wp_digit; [lia|]. wp_step. apply wp_digit; [lia|]. wp_step.
    rewrite !absval_pv. replace (digitLength y) with (digitLength x) by lia.
    destruct (Z.gtb_spec (zget (digits x) i) (zget (digits y) i)).
    + pose proof (pv_lt_digit (digits y) (digits x) i (digitLength x) (wf_digits y Hy) (wf_digits x Hx)).
      assert (pv (digits y) (digitLength x) < pv (digits x) (digitLength x)); [|lia].
      apply pv_lt_digit with i; [by apply wf_digits..|lia|lia|]. intros. symmetry. by apply Heq.
    + assert (pv (digits x) (digitLength x) < pv (digits y) (digitLength x)); [|lia].
      apply pv_lt_digit with i; [by apply wf_digits..|lia|lia|]. done.
  - wp_step. wp_step; [|lia]. wp_step. rewrite !absval_pv.
    replace (digitLength y) with (digitLength x) by lia.
    rewrite (pv_ext (digits x) (digits y)); [lia|]. intros k Hk. apply Heq. lia.
Qed.

Lemma compare_spec x y : wf x -> wf y ->
  wp (compare x y) (fun r => r = Z.sgn (value x - value y)) no_error.
Proof.
  intros Hx Hy. unfold compare.
  do 2 (wp_step; wp_step; [by apply wf_no_negative_zero|]).
  pose proof (wf_absval_nonneg x Hx). pose proof (wf_absval_nonneg y Hy).
  pose proof (wf_sign x Hx). pose proof (wf_sign y Hy).
  rewrite !value_signed in *.
  destruct (isNegative x), (isNegative y); cbn [Bool.eqb negb signed].
  - wp_call absoluteCompare_spec; [done..|]. intros r ->. f_equal. lia.
  - wp_step. destruct (Z.eq_dec (absval x) 0); [naive_solver|lia].
  - wp_step. destruct (Z.eq_dec (absval y) 0); [naive_solver|lia].
  - wp_call absoluteCompare_spec; [done..|]. by intros r ->.
Qed.

Lemma equal_spec same x y : wf x -> wf y -> (same = true -> x = y) ->
  wp (equal same x y) (fun b => b = (value x =? value y)) no_error.
Proof.
  intros Hx Hy Hsame. unfold equal.
  assert (Hdiff : x <> y -> false = (value x =? value y)).
  { intros Hne. symmetry. apply Z.eqb_neq. intros Heq. by apply Hne, wf_value_inj. }
  wp_step; [wp_step; rewrite Hsame by done; lia|].
  wp_step; [wp_step; apply Hdiff; intros ->; lia|].
  wp_step; [wp_step; apply Hdiff; intros ->; by rewrite eqb_reflx in *|]. bsplit.
  pose proof (digitLength_nonneg x).
  eapply (wp_loop (fun i => 0 <= i <= digitLength x /\
      forall j, 0 <= j < i -> zget (digits x) j = zget (digits y) j) (fun i => digitLength x - i)).
  { split; [lia|]. intros; lia. }
  { lia. }
  { intros; lia. }
  intros i [Hi Heq]. wp_step; bsplit.
  - wp_step. apply wp_digit; [lia|]. wp_step. apply wp_digit; [lia|]. wp_step.
    destruct (Z.eqb_spec (zget (digits x) i) (zget (digits y) i)) as [E|E]; cbn [negb].
    + split; [split; [lia|]|lia]. intros j Hj. destruct (Z.eq_dec j i) as [->|]; [done|]. apply Heq. lia.
    + apply Hdiff. by intros ->.
  - wp_step. symmetry. apply Z.eqb_eq. f_equal.
    destruct x as [sx dx], y as [sy dy]. unfold digitLength in *. cbn [isNegative digits] in *. f_equal.
    + by apply eqb_prop.
    + apply zget_ext; [lia|]. intros k Hk. apply Heq. lia.
Qed.

Lemma lessThan_spec x y : wf x -> wf y ->
  wp (lessThan x y) (fun b => b = (value x <? value y)) no_error.
Proof.
  intros Hx Hy. unfold lessThan. wp_step. wp_call compare_spec; [done..|]. intros r ->. wp_step. lia.
Qed.
End comparison.

(** * Magnitude addition *)

(** An addition that needs more digits than a BigInt may have. *)
Definition sum_too_large {P : Platform} (x y : bigint) (e : error) : Prop :=
  e = BigIntTooLarge /\ MaxDigitLength <= Z.max (digitLength x) (digitLength y).

Section addition.
Context {P : Platform}.

(** One column of an addition with carry. *)
Lemma add_column a b c :
  digit_ok a -> digit_ok b -> 0 <= c <= 1 ->
  let '(s1, c1) := digitAdd a b 0 in
  let '(s2, c2) := digitAdd s1 c c1 in
  digit_ok s2 /\ 0 <= c2 <= 1 /\ s2 + c2 * Base = a + b + c.
Proof.
  intros Ha Hb Hc. pose proof Base_big.
  pose proof (digitAdd_spec a b 0 Ha Hb) as H1. destruct (digitAdd a b 0) as [s1 c1].
  destruct H1 as (Hs1 & Hc1 & E1); [lia..|].
  pose proof (digitAdd_spec s1 c c1 Hs1) as H2. destruct (digitAdd s1 c c1) as [s2 c2].
  destruct H2 as (Hs2 & Hc2 & E2); [unfold digit_ok; lia|lia|lia|].
  split; [done|]. unfold digit_ok in *. assert (c2 * Base < 2 * Base) by lia.
  assert (c2 < 2) by (apply Z.mul_lt_mono_pos_r with Base; lia). lia.
Qed.

Lemma add_column1 a c :
  digit_ok a -> 0 <= c <= 1 ->
  let '(s, c') := digitAdd a c 0 in
  digit_ok s /\ 0 <= c' <= 1 /\ s + c' * Base = a + c.
Proof.
  intros Ha Hc. pose proof Base_big. pose proof (digitAdd_spec a c 0 Ha) as H1.
  destruct (digitAdd a c 0) as [s c']. destruct H1 as (Hs1 & Hc1 & E1); [unfold digit_ok; lia|lia|lia|].
  split; [done|]. lia.
Qed.

(** Loop invariant of the carry chain: the digits written so far and the
    pending carry are worth [f i]. *)
Definition carry_inv (neg : bool) (n : Z) (f : Z -> Z) (i : Z) (s : Z * bigint) : Prop :=
  0 <= s.1 <= 1 /\ filled neg n (f i - s.1 * Base ^ i) i s.2.

Lemma carry_step neg n f i c r s c' d (Q : Z * bigint -> Prop) E :
  carry_inv neg n f i (c, r) -> 0 <= i < n ->
  digit_ok s -> 0 <= c' <= 1 -> s + c' * Base = d + c -> f (i + 1) = f i + d * Base ^ i ->
  (forall r', carry_inv neg n f (i + 1) (c', r') -> Q (c', r')) ->
  wp (result ← setDigit r i s; mret (c', result)) Q E.
Proof.
  intros [Hc Hr] Hi Hs Hc' Heq Hf HQ. wp_step. eapply wp_fill; [done|lia|done|]. intros Hfill.
  wp_step. apply HQ. split; [done|]. cbn [fst snd] in *. rewrite Hf, Base_pow_succ by lia.
  replace (f i + d * Base ^ i - c' * (Base * Base ^ i)) with (f i - c * Base ^ i + s * Base ^ i); [done|].
  apply (f_equal (fun z => z * Base ^ i)) in Heq. lia.
Qed.

Lemma digitLength_pos_absval x : wf x -> isZero x = false -> 0 < digitLength x /\ 0 < absval x.
Proof.
  unfold isZero. intros Hx Hz. bsplit. pose proof (digitLength_nonneg x).
  pose proof (wf_absval_nonneg x Hx). pose proof (proj1 (wf_absval_zero x Hx)). lia.
Qed.

(** The final carry: a digit more than [left] has. *)
Lemma sum_fits_one_more x v :
  digits_ok (digits x) -> 0 <= v < Base ^ digitLength x -> absval x + v < 2 * Base ^ digitLength x.
Proof. intros Hx Hv. pose proof (absval_bound x Hx). lia. Qed.

(** The slow path of [absoluteAdd]. *)
Lemma add_loops_spec left right neg :
  wf left -> wf right -> digitLength right <= digitLength left -> 0 < digitLength left ->
  wp (result ← createUninitialized (digitLength left + 1) neg;
      '(carry, result) ← for_ 0 (digitLength right) (fun i '(carry, result) =>
        dl ← digit left i;
        dr ← digit right i;
        let '(sum, newCarry) := digitAdd dl dr 0 in
        let '(sum, newCarry) := digitAdd sum carry newCarry in
        result ← setDigit result i sum;
        mret (newCarry, result)) (0, result);
      '(carry, result) ← for_ (digitLength right) (digitLength left) (fun i '(carry, result) =>
        dl ← digit left i;
        let '(sum, newCarry) := digitAdd dl carry 0 in
        result ← setDigit result i sum;
        mret (newCarry, result)) (carry, result);
      result ← setDigit result (digitLength left) carry;
      destructivelyTrimHighZeroDigits result)
    (fun r => denotes r (signed neg (absval left + absval right)))
    (fun e => e = BigIntTooLarge /\ MaxDigitLength <= digitLength left).
Proof.
  intros Hl Hr Hle Hpos. pose proof (digitLength_nonneg right).
  set (n := digitLength left + 1). set (f i := pv (digits left) i + pv (digits right) i).
  wp_step. apply wp_create; [lia|intros; split; [done|lia]|]. intros r0 Hmax Hr0.
  wp_step. eapply (wp_for (carry_inv neg n f)); [lia| | |].
  { split; [cbn; lia|]. cbn [fst snd]. unfold f. rewrite !pv_0. by apply filled_0. }
  { intros i [c r] Hi Hinv. wp_step. apply wp_digit; [lia|]. wp_step. apply wp_digit; [lia|].
    pose proof (add_column _ _ c (wf_digit left i Hl) (wf_digit right i Hr) (proj1 Hinv)) as Hcol.
    destruct (digitAdd _ _ 0) as [s1 c1], (digitAdd s1 c c1) as [s2 c2].
    destruct Hcol as (Hs & Hc2 & Hcol).
    eapply carry_step; [done|lia|done|done|done| |done]. unfold f. rewrite !pv_succ by lia. lia. }
  intros [c r] Hinv. wp_step.
  eapply (wp_for (carry_inv neg n f)); [lia|done| |].
  { clear c r Hinv. intros i [c r] Hi Hinv. wp_step. apply wp_digit; [lia|].
    pose proof (add_column1 _ c (wf_digit left i Hl) (proj1 Hinv)) as Hcol.
    destruct (digitAdd _ c 0) as [s2 c2]. destruct Hcol as (Hs & Hc2 & Hcol).
    eapply carry_step; [done|lia|done|done|done| |done]. unfold f.
    rewrite !pv_succ by lia. rewrite (zget_oob (digits right)) by (unfold digitLength in *; lia). lia. }
  clear c r Hinv. intros [c r] [Hc Hinv]. cbn [fst snd] in *. wp_step.
  pose proof Base_big. eapply wp_fill; [done|lia|unfold digit_ok; lia|]. intros Hfill.
  replace (f (digitLength left) - c * Base ^ digitLength left + c * Base ^ digitLength left)
    with (absval left + absval right) in Hfill
    by (unfold f; rewrite absval_pv, (pv_eval (digits right)) by (unfold digitLength in *; lia);
        unfold absval at 1; lia).
  eapply wp_mono; [eapply (filled_trim _ _ _ _ Hfill); lia|done|done].
Qed.

(** Unsigned 64-bit addition, with the overflow test of the code. *)
Lemma sum64 a b : 0 < a < 2 ^ 64 -> 0 < b < 2 ^ 64 ->
  0 <= (a + b) mod 2 ^ 64 < 2 ^ 64 /\
  a + b = (a + b) mod 2 ^ 64 + Z.b2z ((a + b) mod 2 ^ 64 <? a) * 2 ^ 64.
Proof.
  intros Ha Hb. split; [apply Z.mod_pos_bound; lia|].
  destruct (Z_lt_le_dec (a + b) (2 ^ 64)).
  - rewrite Z.mod_small by lia. destruct (Z.ltb_spec (a + b) a); cbn; lia.
  - assert ((a + b) mod 2 ^ 64 = a + b - 2 ^ 64) as ->.
    { symmetry. apply Z.mod_unique with 1; lia. }
    destruct (Z.ltb_spec (a + b - 2 ^ 64) a); cbn [Z.b2z]; lia.
Qed.

(** The 64-bit fast path of [absoluteAdd]. *)
Lemma add64_spec lhs rhs neg :
  0 < lhs < 2 ^ 64 -> 0 < rhs < 2 ^ 64 ->
  wp (let res := (lhs + rhs) mod 2 ^ 64 in
      let overflow := res <? lhs in
      moz_assert (negb (res =? 0) || overflow);;
      let resultLength :=
        if DigitBits =? 32 then
          if overflow then 3 else if negb (Z.shiftr res 32 =? 0) then 2 else 1
        else if overflow then 2 else 1 in
      result ← createUninitialized resultLength neg;
      result ← setDigit result 0 (wrap res);
      result ← (if (DigitBits =? 32) && (resultLength >? 1)
                then setDigit result 1 (wrap (Z.shiftr res 32)) else mret result);
      result ← (if overflow
                then setDigit result (if DigitBits =? 32 then 2 else 1) 1 else mret result);
      moz_assert (negb (HasLeadingZeroes result));;
      mret result)
    (fun r => denotes r (signed neg (lhs + rhs))) no_error.
Proof.
  intros Hl Hr. cbv zeta. set (res := (lhs + rhs) mod 2 ^ 64).
  pose proof (sum64 lhs rhs Hl Hr) as [Hres Hsum]. fold res in Hres, Hsum. clearbody res.
  pose proof MaxDigitLength_big. pose proof Base_big.
  assert (H1 : digit_ok 1) by (unfold digit_ok; lia).
  wp_step. wp_step; [destruct (res <? lhs); cbn [Z.b2z] in Hsum; lia|].
  assert (Hend : forall n r, filled neg n (lhs + rhs) n r -> 0 < n <= MaxDigitLength ->
      Base ^ (n - 1) <= lhs + rhs ->
      wp (moz_assert (negb (HasLeadingZeroes r));; mret r) (fun r => denotes r (signed neg (lhs + rhs))) no_error).
  { intros n r Hf Hn Hlow. pose proof (filled_denotes _ _ _ _ Hf Hn Hlow) as Hden.
    wp_step. wp_step; [by eapply no_leading_zeroes|]. by wp_step. }
  unfold wrap. rewrite (Z.shiftr_div_pow2 res 32) by lia.
  destruct DigitBits_cases as [EP|EP]; rewrite EP; cbn [Z.eqb Pos.eqb andb];
    (assert (EB : Base = 2 ^ DigitBits) by done); rewrite EP in EB; rewrite EB in *.
  - pose proof (Z.div_mod res (2 ^ 32)) as Hdm. pose proof (Z.mod_pos_bound res (2 ^ 32)) as Hm0.
    assert (Hm1 : 0 <= res / 2 ^ 32 < 2 ^ 32) by (split; [apply Z.div_pos; lia|apply Z.div_lt_upper_bound; lia]).
    rewrite (Z.mod_small (res / 2 ^ 32)) by lia.
    assert (Hok0 : digit_ok (res mod 2 ^ 32)) by (unfold digit_ok; rewrite EB; lia).
    assert (Hok1 : digit_ok (res / 2 ^ 32)) by (unfold digit_ok; rewrite EB; lia).
    destruct (res <? lhs) eqn:Ho; cbn [Z.b2z] in Hsum; [|destruct (Z.eqb_spec (res / 2 ^ 32) 0) as [Ez|Ez]; cbn [negb]];
      cbn [Z.gtb Z.compare Pos.compare Pos.compare_cont];
      (wp_step; apply wp_create_ok; [lia|]; intros r Hf; apply filled_0 in Hf;
       wp_step; eapply wp_fill; [done|lia|done|]; clear Hf; intros Hf; wp_step; rewrite Z.pow_0_r in Hf).
    + eapply wp_fill; [done|lia|done|]. clear Hf. intros Hf. wp_step.
      eapply wp_fill; [done|lia|done|]. clear Hf. intros Hf.
      eapply (Hend 3); [|lia|lia].
      replace (lhs + rhs) with (0 + res mod 2 ^ 32 * 1 + res / 2 ^ 32 * Base ^ (0 + 1) + 1 * Base ^ (0 + 1 + 1)); [done|].
      rewrite EB. lia.
    + wp_step. wp_step. wp_step. eapply (Hend 1); [|lia|lia].
      replace (lhs + rhs) with (0 + res mod 2 ^ 32 * 1); [done|]. lia.
    + eapply wp_fill; [done|lia|done|]. clear Hf. intros Hf. wp_step. wp_step.
      eapply (Hend 2); [|lia|lia].
      replace (lhs + rhs) with (0 + res mod 2 ^ 32 * 1 + res / 2 ^ 32 * Base ^ (0 + 1)); [done|].
      rewrite EB. lia.
  - rewrite (Z.mod_small res) by lia.
    assert (Hok0 : digit_ok res) by (unfold digit_ok; rewrite EB; lia).
    destruct (res <? lhs) eqn:Ho; cbn [Z.b2z] in Hsum;
      (wp_step; apply wp_create_ok; [lia|]; intros r Hf; apply filled_0 in Hf;
       wp_step; eapply wp_fill; [done|lia|done|]; clear Hf; intros Hf; wp_step; rewrite Z.pow_0_r in Hf; wp_step; wp_step).
    + eapply wp_fill; [done|lia|done|]. clear Hf. intros Hf.
      eapply (Hend 2); [|lia|lia].
      replace (lhs + rhs) with (0 + res * 1 + 1 * Base ^ (0 + 1)); [done|].
      rewrite EB. lia.
    + wp_step. eapply (Hend 1); [|lia|lia].
      replace (lhs + rhs) with (0 + res * 1); [done|]. lia.
Qed.

Lemma absval_pos x : wf x -> 0 < digitLength x -> 0 < absval x.
Proof.
  intros Hx Hpos. pose proof (wf_lower x Hx Hpos). pose proof (Base_pow_pos (digitLength x - 1)). lia.
Qed.

Lemma fits_bound x : wf x -> absFitsInUint64 x = true -> absval x < 2 ^ 64.
Proof. intros Hx. by apply fits_iff. Qed.

(** Giving a value another sign. *)
Lemma with_sign_spec x s : wf x ->
  wp (if Bool.eqb s (isNegative x) then mret x else neg x)
    (fun r => denotes r (signed s (absval x))) no_error.
Proof.
  intros Hx. wp_step.
  - apply eqb_prop in Hc as ->. by wp_step.
  - eapply wp_weaken_ok; [by apply neg_spec|]. intros r [Hr Hv]. split; [done|]. rewrite Hv, value_signed.
    destruct s, (isNegative x); try done; cbn; lia.
Qed.

(** [absoluteAdd] adds magnitudes; it refuses, and refuses only, when the
    longer operand already has the maximal length. *)
Lemma absoluteAdd_spec x y neg : wf x -> wf y ->
  wp (absoluteAdd x y neg) (fun r => denotes r (signed neg (absval x + absval y))) (sum_too_large x y).
Proof.
  intros Hx Hy. unfold absoluteAdd.
  set (left := if digitLength x <? digitLength y then y else x).
  set (right := if digitLength x <? digitLength y then x else y).
  assert (Hl : wf left) by (unfold left; by destruct (_ <? _)).
  assert (Hr : wf right) by (unfold right; by destruct (_ <? _)).
  assert (Hle : digitLength right <= digitLength left)
    by (unfold left, right; destruct (Z.ltb_spec (digitLength x) (digitLength y)); lia).
  assert (Hmax : digitLength left = Z.max (digitLength x) (digitLength y))
    by (unfold left; destruct (Z.ltb_spec (digitLength x) (digitLength y)); lia).
  assert (Hsum : absval x + absval y = absval left + absval right)
    by (unfold left, right; destruct (_ <? _); lia).
  unfold sum_too_large. rewrite Hsum, <- Hmax. clearbody left right. clear Hmax Hsum Hx Hy x y. unfold isZero.
  pose proof (digitLength_nonneg right).
  wp_step; bsplit.
  { wp_step. wp_step; [lia|]. wp_step. split; [done|].
    rewrite value_signed, !absval_zero_length by lia. by destruct neg, (isNegative left). }
  wp_step; bsplit.
  { rewrite (absval_zero_length right), Z.add_0_r by lia. wp_call with_sign_spec; done. }
  pose proof (absval_pos left Hl). pose proof (absval_pos right Hr).
  wp_step.
  - pose proof (fits_bound left Hl Hc1).
    assert (Hfr : absFitsInUint64 right = true) by (unfold absFitsInUint64 in *; lia).
    pose proof (fits_bound right Hr Hfr).
    wp_step. wp_step; [done|]. wp_step. wp_call (uint64FromAbs_fits left); [done|lia|done|]. intros lhs ->.
    wp_step. wp_call (uint64FromAbs_fits right); [done|lia|done|]. intros rhs ->.
    wp_call add64_spec; [lia|lia|done].
  - apply add_loops_spec; [done..|lia].
Qed.
End addition.

(** * Magnitude subtraction *)

Section subtraction.
Context {P : Platform}.

(** One column of a subtraction with borrow. *)
Lemma sub_column a b c :
  digit_ok a -> digit_ok b -> 0 <= c <= 1 ->
  let '(d1, c1) := digitSub a b 0 in
  let '(d2, c2) := digitSub d1 c c1 in
  digit_ok d2 /\ 0 <= c2 <= 1 /\ d2 - c2 * Base = a - b - c.
Proof.
  intros Ha Hb Hc. pose proof Base_big.
  pose proof (digitSub_spec a b 0 Ha Hb) as H1. destruct (digitSub a b 0) as [d1 c1].
  destruct H1 as (Hd1 & Hc1 & E1); [lia..|].
  pose proof (digitSub_spec d1 c c1 Hd1) as H2. destruct (digitSub d1 c c1) as [d2 c2].
  destruct H2 as (Hd2 & Hc2 & E2); [unfold digit_ok; lia|lia|lia|].
  split; [done|]. unfold digit_ok in *. assert (c2 * Base < 2 * Base) by lia.
  assert (c2 < 2) by (apply Z.mul_lt_mono_pos_r with Base; lia). lia.
Qed.

Lemma sub_column1 a c :
  digit_ok a -> 0 <= c <= 1 ->
  let '(d, c') := digitSub a c 0 in
  digit_ok d /\ 0 <= c' <= 1 /\ d - c' * Base = a - c.
Proof.
  intros Ha Hc. pose proof Base_big. pose proof (digitSub_spec a c 0 Ha) as H1.
  destruct (digitSub a c 0) as [d c']. destruct H1 as (Hd1 & Hc1 & E1); [unfold digit_ok; lia|lia|lia|].
  split; [done|]. lia.
Qed.

Definition borrow_inv (neg : bool) (n : Z) (f : Z -> Z) (i : Z) (s : Z * bigint) : Prop :=
  0 <= s.1 <= 1 /\ filled neg n (f i + s.1 * Base ^ i) i s.2.

Lemma borrow_step neg n f i c r s c' d (Q : Z * bigint -> Prop) E :
  borrow_inv neg n f i (c, r) -> 0 <= i < n ->
  digit_ok s -> 0 <= c' <= 1 -> s - c' * Base = d - c -> f (i + 1) = f i + d * Base ^ i ->
  (forall r', borrow_inv neg n f (i + 1) (c', r') -> Q (c', r')) ->
  wp (result ← setDigit r i s; mret (c', result)) Q E.
Proof.
  intros [Hc Hr] Hi Hs Hc' Heq Hf HQ. wp_step. eapply wp_fill; [done|lia|done|]. intros Hfill.
  wp_step. apply HQ. split; [done|]. cbn [fst snd] in *. rewrite Hf, Base_pow_succ by lia.
  replace (f i + d * Base ^ i + c' * (Base * Base ^ i)) with (f i + c * Base ^ i + s * Base ^ i); [done|].
  apply (f_equal (fun z => z * Base ^ i)) in Heq. lia.
Qed.

(** No borrow is left when the total is not negative. *)
Lemma no_final_borrow neg n f c r :
  borrow_inv neg n f n (c, r) -> 0 <= n -> 0 <= f n -> c = 0.
Proof.
  intros [Hc [(_ & _ & Hd) Hf]] Hn Hpos. cbn [fst snd] in *.
  pose proof (pv_bound (digits r) n Hd Hn). destruct (Z.eq_dec c 1) as [->|]; lia.
Qed.

(** The slow path of [absoluteSub]. *)
Lemma sub_loops_spec x y neg :
  wf x -> wf y -> 0 < digitLength x -> absval y < absval x ->
  wp (result ← createUninitialized (digitLength x) neg;
      '(borrow, result) ← for_ 0 (digitLength y) (fun i '(borrow, result) =>
        dx ← digit x i;
        dy ← digit y i;
        let '(difference, newBorrow) := digitSub dx dy 0 in
        let '(difference, newBorrow) := digitSub difference borrow newBorrow in
        result ← setDigit result i difference;
        mret (newBorrow, result)) (0, result);
      '(borrow, result) ← for_ (digitLength y) (digitLength x) (fun i '(borrow, result) =>
        dx ← digit x i;
        let '(difference, newBorrow) := digitSub dx borrow 0 in
        result ← setDigit result i difference;
        mret (newBorrow, result)) (borrow, result);
      moz_assert (borrow =? 0);;
      destructivelyTrimHighZeroDigits result)
    (fun r => denotes r (signed neg (absval x - absval y))) no_error.
Proof.
  intros Hx Hy Hpos Hlt. pose proof (digitLength_nonneg y). pose proof (wf_length x Hx).
  assert (Hle : digitLength y <= digitLength x).
  { destruct (Z_le_gt_dec (digitLength y) (digitLength x)); [done|].
    pose proof (length_of_absval x y Hx Hy). lia. }
  set (n := digitLength x) in *. set (f i := pv (digits x) i - pv (digits y) i).
  assert (Hfn : f n = absval x - absval y).
  { unfold f, n. rewrite absval_pv, (pv_eval (digits y)) by (unfold digitLength in *; lia). done. }
  wp_step. apply wp_create_ok; [lia|]. intros r0 Hr0.
  wp_step. eapply (wp_for (borrow_inv neg n f)); [lia| | |].
  { split; [cbn; lia|]. cbn [fst snd]. unfold f. rewrite !pv_0. by apply filled_0. }
  { intros i [c r] Hi Hinv. wp_step. apply wp_digit; [lia|]. wp_step. apply wp_digit; [lia|].
    pose proof (sub_column _ _ c (wf_digit x i Hx) (wf_digit y i Hy) (proj1 Hinv)) as Hcol.
    destruct (digitSub _ _ 0) as [s1 c1], (digitSub s1 c c1) as [s2 c2].
    destruct Hcol as (Hs & Hc2 & Hcol).
    eapply borrow_step; [done|lia|done|done|done| |done]. unfold f. rewrite !pv_succ by lia. lia. }
  intros [c r] Hinv. wp_step.
  eapply (wp_for (borrow_inv neg n f)); [lia|done| |].
  { clear c r Hinv. intros i [c r] Hi Hinv. wp_step. apply wp_digit; [lia|].
    pose proof (sub_column1 _ c (wf_digit x i Hx) (proj1 Hinv)) as Hcol.
    destruct (digitSub _ c 0) as [s2 c2]. destruct Hcol as (Hs & Hc2 & Hcol).
    eapply borrow_step; [done|lia|done|done|done| |done]. unfold f.
    rewrite !pv_succ by lia. rewrite (zget_oob (digits y)) by (unfold digitLength in *; lia). lia. }
  clear c r Hinv. intros [c r] Hinv.
  assert (c = 0) as -> by (eapply no_final_borrow; [done|lia|lia]). destruct Hinv as [_ Hf]. cbn [fst snd] in Hf.
  wp_step. wp_step; [done|]. rewrite Hfn, Z.mul_0_l, Z.add_0_r in Hf.
  eapply wp_mono; [eapply (filled_trim _ _ _ _ Hf); lia|done|done].
Qed.

(** [absoluteSub] subtracts magnitudes when the first is the larger. *)
Lemma absoluteSub_spec x y neg : wf x -> wf y -> absval y < absval x ->
  wp (absoluteSub x y neg) (fun r => denotes r (signed neg (absval x - absval y))) no_error.
Proof.
  intros Hx Hy Hlt. unfold absoluteSub. pose proof (digitLength_nonneg y).
  assert (Hle : digitLength y <= digitLength x).
  { destruct (Z_le_gt_dec (digitLength y) (digitLength x)); [done|].
    pose proof (length_of_absval x y Hx Hy). lia. }
  assert (Hpos : 0 < digitLength x).
  { pose proof (wf_absval_nonneg y Hy). pose proof (absval_zero_length x). lia. }
  wp_step. wp_step; [lia|]. wp_step. wp_call absoluteCompare_spec; [done..|]. intros c ->.
  wp_step. wp_step; [lia|]. wp_step. wp_step; [unfold isZero; lia|]. unfold isZero.
  wp_step; bsplit.
  { rewrite (absval_zero_length y), Z.sub_0_r by lia. by apply with_sign_spec. }
  pose proof (absval_pos y Hy).
  wp_step; [|by apply sub_loops_spec].
  assert (Hfy : absFitsInUint64 y = true) by (unfold absFitsInUint64 in *; lia).
  pose proof (fits_bound x Hx Hc0). pose proof (fits_bound y Hy Hfy).
  wp_step. wp_step; [done|]. wp_step. wp_call (uint64FromAbs_fits x); [done|lia|done|]. intros lhs ->.
  wp_step. wp_call (uint64FromAbs_fits y); [done|lia|done|]. intros rhs ->.
  wp_step. wp_step; [lia|]. rewrite Z.mod_small by lia. wp_step. wp_step; [lia|].
  apply createFromNonZeroRawUint64_spec. lia.
Qed.
End subtraction.

(** * Adding and subtracting one *)

(** The only BigInts whose magnitude cannot be incremented. *)
Definition increment_too_large {P : Platform} (x : bigint) (e : error) : Prop :=
  e = BigIntTooLarge /\ absval x + 1 = Base ^ MaxDigitLength.

Section unit_steps.
Context {P : Platform}.

Lemma pv_all_max l i : 0 <= i -> (forall k, 0 <= k < i -> zget l k = Base - 1) -> pv l i = Base ^ i - 1.
Proof.
  intros Hi. pattern i. apply natlike_ind; [..|done].
  - intros _. by rewrite pv_0, Z.pow_0_r.
  - intros k Hk IH Hall. rewrite <- Z.add_1_r, pv_succ, Base_pow_succ, IH, Hall by (done || lia || (intros; apply Hall; lia)).
    lia.
Qed.

Lemma pv_max_digits l i k : digits_ok l -> 0 <= k < i -> pv l i = Base ^ i - 1 -> zget l k = Base - 1.
Proof.
  intros Hl. assert (Hi : 0 <= i \/ i < 0) by lia. destruct Hi as [Hi|]; [|lia].
  pattern i. apply natlike_ind; [lia| |done]. clear i Hi. intros i Hi IH Hk Hpv.
  rewrite <- Z.add_1_r, pv_succ, Base_pow_succ in Hpv by done.
  pose proof (pv_bound l i Hl Hi) as Hb. pose proof (digits_ok_get l i Hl) as Hd. unfold digit_ok in Hd.
  assert (zget l i = Base - 1).
  { destruct (Z_le_gt_dec (Base - 1) (zget l i)); [lia|].
    assert (zget l i * Base ^ i <= (Base - 2) * Base ^ i) by (apply Z.mul_le_mono_nonneg_r; lia). lia. }
  destruct (Z.eq_dec k i) as [->|]; [done|]. apply IH; [lia|].
  apply (f_equal (fun z => z * Base ^ i)) in H. lia.
Qed.

(** The carry chain of a unit added to (or removed from) [x]. *)
Lemma carry_chain_spec x neg n c r0 (Q : Z * bigint -> Prop) E :
  digits_ok (digits x) -> shape neg n r0 -> digitLength x <= n -> 0 <= c <= 1 ->
  (forall c' r, carry_inv neg n (fun i => pv (digits x) i + c) (digitLength x) (c', r) -> Q (c', r)) ->
  wp (for_ 0 (digitLength x) (fun i '(carry, result) =>
        d ← digit x i;
        let '(sum, newCarry) := digitAdd d carry 0 in
        result ← setDigit result i sum;
        mret (newCarry, result)) (c, r0)) Q E.
Proof.
  intros Hx Hr0 Hn Hc HQ. pose proof (digitLength_nonneg x).
  eapply (wp_for (carry_inv neg n (fun i => pv (digits x) i + c))); [lia| | |].
  - split; [done|]. cbn [fst snd]. rewrite pv_0, Z.pow_0_r.
    replace (0 + c - c * 1) with 0 by lia. by apply filled_0.
  - intros i [c' r] Hi Hinv. wp_step. apply wp_digit; [lia|].
    pose proof (add_column1 _ c' (digits_ok_get _ i Hx) (proj1 Hinv)) as Hcol.
    destruct (digitAdd _ c' 0) as [s c2]. destruct Hcol as (Hs & Hc2 & Hcol).
    eapply carry_step; [done|lia|done|done|done| |done]. cbv beta. rewrite pv_succ by lia. lia.
  - intros [c' r]. apply HQ.
Qed.

(** The operand need not be canonical: [rshByAbsolute] passes one that is
    not. *)
Lemma absoluteAddOne_spec x neg : digits_ok (digits x) -> digitLength x <= MaxDigitLength ->
  wp (absoluteAddOne x neg) (fun r => denotes r (signed neg (absval x + 1))) (increment_too_large x).
Proof.
  intros Hx Hxmax. pose proof (digitLength_nonneg x). set (n := digitLength x) in *. unfold absoluteAddOne. fold n.
  wp_step.
  eapply (wp_loop (fun i => 0 <= i <= n /\ forall j, 0 <= j < i -> zget (digits x) j = Base - 1) (fun i => n - i)).
  { split; [lia|]. intros; lia. }
  { lia. }
  { intros; lia. }
  intros i [Hi Hall]. wp_step; bsplit.
  - wp_step. apply wp_digit; [lia|]. wp_step.
    destruct (Z.eqb_spec (Base - 1) (zget (digits x) i)) as [E|E]; cbn [negb].
    { split; [split; [lia|]|lia]. intros j Hj. destruct (Z.eq_dec j i) as [->|]; [done|]. apply Hall. lia. }
    cbn [Z.b2z]. rewrite Z.add_0_r. wp_step. apply wp_create_ok; [lia|]. intros r0 Hr0. wp_step.
    eapply (carry_chain_spec x); [done|done|unfold n; lia|lia|]. intros c r [Hc' Hf]. fold n in Hf. cbn [fst snd] in *.
    replace (n >? n) with false by lia. wp_step.
    assert (Hc0 : c = 0).
    { destruct (Z.eq_dec c 1) as [->|]; [|lia]. destruct Hf as [(_ & _ & Hd) Hf].
      pose proof (pv_bound (digits r) n Hd). pose proof (pv_bound (digits x) n Hx).
      destruct E. symmetry. apply pv_max_digits with n; [done|lia|lia]. }
    subst c. wp_step. wp_step; [done|]. wp_step. rewrite Z.mul_0_l, Z.sub_0_r in Hf.
    rewrite absval_pv. fold n. eapply wp_mono; [eapply (filled_trim _ _ _ _ Hf); lia|done|done].
  - wp_step. assert (i = n) as -> by lia. cbn [Z.b2z].
    pose proof (pv_all_max (digits x) n ltac:(lia) Hall) as Hmax. rewrite absval_pv. fold n.
    wp_step. apply wp_create; [lia| |].
    { intros Hbig. split; [done|]. rewrite absval_pv. fold n. rewrite Hmax.
      replace n with MaxDigitLength by lia. lia. }
    intros r0 Hlen Hr0. wp_step. eapply (carry_chain_spec x); [done|done|unfold n; lia|lia|].
    intros c r [Hc' Hf]. fold n in Hf. cbn [fst snd] in *.
    replace (n + 1 >? n) with true by lia.
    assert (c = 1) as ->.
    { destruct Hf as [(_ & _ & Hd) Hf]. pose proof (pv_bound (digits r) n Hd).
      destruct (Z.eq_dec c 0) as [->|]; lia. }
    wp_step. wp_step. wp_step; [done|]. pose proof Base_big.
    eapply wp_fill; [done|lia|unfold digit_ok; lia|]. clear Hf. intros Hf.
    replace (pv (digits x) n + 1 - 1 * Base ^ n + 1 * Base ^ n) with (pv (digits x) n + 1) in Hf by lia.
    eapply wp_mono; [eapply (filled_trim _ _ _ _ Hf); lia|done|done].
Qed.

Lemma absoluteSubOne_spec x neg : wf x -> 0 < digitLength x ->
  wp (absoluteSubOne x neg) (fun r => denotes r (signed neg (absval x - 1))) no_error.
Proof.
  intros Hx Hpos. pose proof (wf_length x Hx). pose proof (absval_pos x Hx Hpos).
  set (n := digitLength x) in *. unfold absoluteSubOne. fold n.
  wp_step. wp_step; [unfold isZero; lia|]. wp_step; bsplit.
  - wp_step. apply wp_digit; [lia|]. rewrite absval_pv in *. fold n in H0 |- *. rewrite Hc, pv_1 in *.
    pose proof (wf_digit x 0 Hx) as Hd. unfold digit_ok in Hd. wp_step; bsplit.
    + rewrite Hc0. wp_call zero_spec. intros r. by destruct neg.
    + rewrite wrap_small by (unfold digit_ok; lia). apply createFromDigit_spec; [unfold digit_ok; lia|lia].
  - wp_step. apply wp_create_ok; [lia|]. intros r0 Hr0. wp_step.
    eapply (wp_for (borrow_inv neg n (fun i => pv (digits x) i - 1))); [lia| | |].
    { split; [cbn; lia|]. cbn [fst snd]. rewrite pv_0, Z.pow_0_r. by apply filled_0. }
    { intros i [c r] Hi Hinv. wp_step. apply wp_digit; [lia|].
      pose proof (sub_column1 _ c (wf_digit x i Hx) (proj1 Hinv)) as Hcol.
      destruct (digitSub _ c 0) as [s c2]. destruct Hcol as (Hs & Hc2 & Hcol).
      eapply borrow_step; [done|lia|done|done|done| |done]. cbv beta. rewrite pv_succ by lia. lia. }
    intros [c r] Hinv. rewrite absval_pv in *. fold n in H0 |- *.
    assert (c = 0) as -> by (eapply no_final_borrow; [done|lia|cbv beta; lia]).
    destruct Hinv as [_ Hf]. cbn [fst snd] in Hf. rewrite Z.mul_0_l, Z.add_0_r in Hf.
    wp_step. wp_step; [done|]. eapply wp_mono; [eapply (filled_trim _ _ _ _ Hf); lia|done|done].
Qed.

Lemma nonneg_value x : isNegative x = false -> value x = absval x.
Proof. intros E. by rewrite value_signed, E. Qed.

Lemma negative_value x : isNegative x = true -> value x = - absval x.
Proof. intros E. by rewrite value_signed, E. Qed.

Lemma zero_value x : isZero x = true -> value x = 0.
Proof.
  unfold isZero. intros E. bsplit. rewrite value_signed, absval_zero_length by done. by destruct (isNegative x).
Qed.

Lemma nonzero_length x : isZero x = false -> 0 < digitLength x.
Proof. unfold isZero. pose proof (digitLength_nonneg x). lia. Qed.

Lemma inc_spec x : wf x ->
  wp (inc x) (fun r => denotes r (value x + 1)) (fun e => isNegative x = false /\ increment_too_large x e).
Proof.
  intros Hx. unfold inc. wp_step.
  { rewrite zero_value by done. wp_call one_spec; done. }
  apply nonzero_length in Hc. wp_step; rewrite Hc0.
  - rewrite negative_value by done. wp_call absoluteSubOne_spec; [done|done|]. intros r Hr.
    replace (- absval x + 1) with (signed true (absval x - 1)); [done|cbn; lia].
  - rewrite nonneg_value by done. wp_call absoluteAddOne_spec; [by apply wf_digits|by apply wf_length|done|done].
Qed.

Lemma dec_spec x : wf x ->
  wp (dec x) (fun r => denotes r (value x - 1)) (fun e => isNegative x = true /\ increment_too_large x e).
Proof.
  intros Hx. unfold dec. wp_step.
  { rewrite zero_value by done. wp_call negativeOne_spec; done. }
  apply nonzero_length in Hc. wp_step; rewrite Hc0.
  - rewrite negative_value by done. wp_call absoluteAddOne_spec; [by apply wf_digits|by apply wf_length| |done]. intros r Hr.
    replace (- absval x - 1) with (signed true (absval x + 1)); [done|cbn; lia].
  - rewrite nonneg_value by done. wp_call absoluteSubOne_spec; done.
Qed.
End unit_steps.

(** * Signed addition and subtraction *)

Section signed_operations.
Context {P : Platform}.

(** The tail shared by [add] and [sub]: operands whose magnitudes are
    subtracted. *)
Lemma difference_spec x y neg : wf x -> wf y ->
  wp (compare ← absoluteCompare x y;
      if compare =? 0 then zero
      else if compare >? 0 then absoluteSub x y neg
      else absoluteSub y x (negb neg))
    (fun r => denotes r (signed neg (absval x - absval y))) no_error.
Proof.
  intros Hx Hy. wp_step. wp_call absoluteCompare_spec; [done..|]. intros c ->. wp_step; bsplit.
  - wp_call zero_spec. intros r Hr. replace (absval x - absval y) with 0 by lia. by destruct neg.
  - wp_step; bsplit.
    + wp_call absoluteSub_spec; [done|done|lia|done].
    + wp_call absoluteSub_spec; [done|done|lia|]. intros r.
      replace (signed (negb neg) (absval y - absval x)) with (signed neg (absval x - absval y)); [done|].
      destruct neg; cbn; lia.
Qed.

Lemma add_spec x y : wf x -> wf y ->
  wp (add x y) (fun r => denotes r (value x + value y))
    (fun e => isNegative x = isNegative y /\ sum_too_large x y e).
Proof.
  intros Hx Hy. unfold add. rewrite !value_signed. wp_step.
  - apply eqb_prop in Hc. wp_call absoluteAdd_spec; [done|done| |done]. intros r Hr.
    rewrite <- Hc. replace (signed _ _ + _) with (signed (isNegative x) (absval x + absval y)); [done|].
    destruct (isNegative x); cbn; lia.
  - wp_call difference_spec; [done..|]. intros r Hr.
    replace (signed _ _ + _) with (signed (isNegative x) (absval x - absval y)); [done|].
    destruct (isNegative x), (isNegative y); try done; cbn; lia.
Qed.

Lemma sub_spec x y : wf x -> wf y ->
  wp (sub x y) (fun r => denotes r (value x - value y))
    (fun e => isNegative x <> isNegative y /\ sum_too_large x y e).
Proof.
  intros Hx Hy. unfold sub. rewrite !value_signed. wp_step; bsplit.
  - apply eqb_false_iff in Hc. wp_call absoluteAdd_spec; [done|done| |done]. intros r Hr.
    replace (signed _ _ - _) with (signed (isNegative x) (absval x + absval y)); [done|].
    destruct (isNegative x), (isNegative y); try done; cbn; lia.
  - apply eqb_prop in Hc. rewrite <- Hc. wp_call difference_spec; [done..|]. intros r Hr.
    replace (signed _ _ - _) with (signed (isNegative x) (absval x - absval y)); [done|].
    destruct (isNegative x); cbn; lia.
Qed.
End signed_operations.
