(* ===== verification/BigIntMul.v ===== *)
(** Multiplication and exponentiation of BigInts (vm/BigIntType.cpp:
    [internalMultiplyAdd], [inplaceMultiplyAdd], [multiplyAccumulate], [mul],
    [pow]), over any correct digit kernel. *)
From S2P Require Import Prelude Words CheckedArithmetic BigIntRep BigIntAdd.

(** * Definitions *)

Section definitions.
Context {P : Platform} {K : DigitKernel} {C : CheckedMul}.

(** [source] is [None] when it is the same BigInt as [result]. *)
Definition internalMultiplyAdd (source : option bigint) (factor summand n : Z) (result : bigint) : M bigint :=
  let src result := match source with Some s => s | None => result end in
  moz_assert (digitLength (src result) >=? n);;
  moz_assert (digitLength result >=? n);;
  '(carry, high, result) ← for_ 0 n (fun i '(carry, high, result) =>
      current ← digit (src result) i;
      let '(current, newHigh) := digitMul current factor in
      let '(current, newCarry) := digitAdd current high 0 in
      let '(current, newCarry) := digitAdd current carry newCarry in
      result ← setDigit result i current;
      mret (newCarry, newHigh, result)) (summand, 0, result);
  if digitLength result >? n then
    result ← setDigit result n (wrap (carry + high));
    for_ (n + 1) (digitLength result) (fun i result => setDigit result i 0) result
  else
    moz_assert (wrap (carry + high) =? 0);;
    mret result.

Definition inplaceMultiplyAdd (this : bigint) (factor summand : Z) : M bigint :=
  internalMultiplyAdd None factor summand (digitLength this) this.

Definition multiplyAccumulate (multiplicand : bigint) (multiplier : Z)
    (accumulator : bigint) (accumulatorIndex : Z) : M bigint :=
  moz_assert (digitLength accumulator >? digitLength multiplicand + accumulatorIndex);;
  if multiplier =? 0 then mret accumulator
  else
    '(carry, high, accumulator) ← for_ 0 (digitLength multiplicand) (fun i '(carry, high, accumulator) =>
        acc ← digit accumulator (accumulatorIndex + i);
        let '(acc, newCarry) := digitAdd acc high 0 in
        let '(acc, newCarry) := digitAdd acc carry newCarry in
        multiplicandDigit ← digit multiplicand i;
        let '(low, high) := digitMul multiplier multiplicandDigit in
        let '(acc, newCarry) := digitAdd acc low newCarry in
        accumulator ← setDigit accumulator (accumulatorIndex + i) acc;
        mret (newCarry, high, accumulator)) (0, 0, accumulator);
    let accumulatorIndex := accumulatorIndex + digitLength multiplicand in
    loop (S (length (digits accumulator))) (fun '(carry, high, accumulator, accumulatorIndex) =>
        if negb (carry =? 0) || negb (high =? 0) then
          moz_assert (accumulatorIndex <? digitLength accumulator);;
          acc ← digit accumulator accumulatorIndex;
          let '(acc, newCarry) := digitAdd acc high 0 in
          let '(acc, newCarry) := digitAdd acc carry newCarry in
          accumulator ← setDigit accumulator accumulatorIndex acc;
          mret (inl (newCarry, 0, accumulator, accumulatorIndex + 1))
        else mret (inr accumulator)) (carry, high, accumulator, accumulatorIndex).

Definition mul (x y : bigint) : M bigint :=
  if isZero x then mret x
  else if isZero y then mret y
  else
    let resultNegative := negb (Bool.eqb (isNegative x) (isNegative y)) in
    fast ← (if absFitsInUint64 x && absFitsInUint64 y then
              lhs ← uint64FromAbsNonZero x;
              rhs ← uint64FromAbsNonZero y;
              SafeMul lhs rhs
            else mret None);
    match fast with
    | Some res =>
        moz_assert (negb (res =? 0));;
        createFromNonZeroRawUint64 res resultNegative
    | None =>
        let resultLength := digitLength x + digitLength y in
        result ← createUninitialized resultLength resultNegative;
        let result := initializeDigitsToZero result in
        result ← for_ 0 (digitLength x) (fun i result =>
            d ← digit x i;
            multiplyAccumulate y d result i) result;
        destructivelyTrimHighZeroDigits result
    end.

(** mfbt/MathAlgorithms.h *)
Definition IsPowerOfTwo (x : Z) : bool := negb (x =? 0) && (Z.land x (x - 1) =? 0).
Definition FloorLog2 (x : Z) : Z := Z.log2 (Z.lor x 1).

(** The 64-bit loop of [pow]: [inl] is the finished power, [inr] the state
    at which a product overflowed. *)
Definition pow_uint64 (n runningSquareInt resultInt : Z) : M (Z + Z * Z * Z) :=
  loop 20 (fun '(n, runningSquareInt, resultInt) =>
    let runningSquareStart := runningSquareInt in
    r ← SafeMul runningSquareInt runningSquareInt;
    match r with
    | None => mret (inr (inr (n, runningSquareInt, resultInt)))
    | Some runningSquareInt =>
        r ← (if negb (Z.land n 1 =? 0) then SafeMul resultInt runningSquareInt else mret (Some resultInt));
        match r with
        | None => mret (inr (inr (n, runningSquareStart, resultInt)))
        | Some resultInt =>
            let n := n / 2 in
            mret (if n =? 0 then inr (inl resultInt) else inl (n, runningSquareInt, resultInt))
        end
    end) (n, runningSquareInt, resultInt).

(** The BigInt loop of [pow]; [None] is the null [result]. *)
Definition pow_bigint (n : Z) (runningSquare : bigint) (result : option bigint) : M bigint :=
  loop 20 (fun '(n, runningSquare, result) =>
    runningSquare ← mul runningSquare runningSquare;
    result ← (if negb (Z.land n 1 =? 0) then
                match result with
                | None => mret (Some runningSquare)
                | Some result => result ← mul result runningSquare; mret (Some result)
                end
              else mret result);
    let n := n / 2 in
    if n =? 0 then
      match result with
      | Some result => mret (inr result)
      | None => throw UndefinedBehavior   (* a null result without an exception *)
      end
    else mret (inl (n, runningSquare, result))) (n, runningSquare, result).

Definition pow (x y : bigint) : M bigint :=
  if isNegative y then throw BigIntNegativeExponent
  else if isZero y then one
  else if isZero x then mret x
  else
    isOne ← (if digitLength x =? 1 then d ← digit x 0; mret (d =? 1) else mret false);
    if isOne : bool then
      even ← (if isNegative x then d ← digit y 0; mret (Z.land d 1 =? 0) else mret false);
      if even : bool then neg x else mret x
    else if digitLength y >? 1 then throw BigIntTooLarge
    else
      exponent ← digit y 0;
      if exponent =? 1 then mret x
      else if exponent >=? MaxBitLength then throw BigIntTooLarge
      else
        let n := exponent in
        let isOddPower := negb (Z.land n 1 =? 0) in
        isPower ← (if digitLength x =? 1 then d ← digit x 0; mret (IsPowerOfTwo d) else mret false);
        if isPower : bool then
          let resultNegative := isNegative x && isOddPower in
          d ← digit x 0;
          let m := FloorLog2 d in
          moz_assert (m <? DigitBits);;
          let n := n * m in
          let length := 1 + n / DigitBits in
          result ← createUninitialized length resultNegative;
          let result := initializeDigitsToZero result in
          d ← shl 1 (n mod DigitBits);
          setDigit result (length - 1) d
        else
          let runningSquare := x in
          let result := if isOddPower then Some x else None in
          let n := n / 2 in
          if absFitsInUint64 x then
            let resultNegative := isNegative x && isOddPower in
            runningSquareInt ← uint64FromAbsNonZero x;
            let resultInt := if isOddPower then runningSquareInt else 1 in
            r ← pow_uint64 n runningSquareInt resultInt;
            match r with
            | inl resultInt => createFromNonZeroRawUint64 resultInt resultNegative
            | inr (n, runningSquareInt, resultInt) =>
                runningSquare ← createFromNonZeroRawUint64 runningSquareInt false;
                result ← createFromNonZeroRawUint64 resultInt resultNegative;
                pow_bigint n runningSquare (Some result)
            end
          else pow_bigint n runningSquare result.
End definitions.

(** * Digit-level products *)

Section products.
Context {P : Platform} {K : DigitKernel}.

(** One product digit: low and high halves. *)
Lemma mul_column a b : digit_ok a -> digit_ok b ->
  let '(low, high) := digitMul a b in
  digit_ok low /\ 0 <= high <= Base - 2 /\ low + high * Base = a * b.
Proof.
  intros Ha Hb. rewrite digitMul_ok by done. pose proof Base_big. unfold digit_ok in *.
  pose proof (Z.div_mod (a * b) Base Base_nonzero). pose proof (Z.mod_pos_bound (a * b) Base).
  assert (a * b <= (Base - 1) * (Base - 1)) by (apply Z.mul_le_mono_nonneg; lia).
  split; [lia|]. split; [|lia]. split; [apply Z.div_pos; [apply Z.mul_nonneg_nonneg|]; lia|].
  assert (a * b / Base < Base - 1) by (apply Z.div_lt_upper_bound; lia). lia.
Qed.

(** Two carries added to a digit. *)
Lemma add_two a b c k : digit_ok a -> digit_ok b -> digit_ok c -> 0 <= k <= 2 ->
  let '(s1, k1) := digitAdd a b k in
  let '(s2, k2) := digitAdd s1 c k1 in
  digit_ok s2 /\ k <= k2 <= k + 2 /\ s2 + (k2 - k) * Base = a + b + c.
Proof.
  intros Ha Hb Hc Hk. pose proof Base_big.
  pose proof (digitAdd_spec a b k Ha Hb) as H1. destruct (digitAdd a b k) as [s1 k1].
  destruct H1 as (Hs1 & Hk1 & E1); [lia..|].
  pose proof (digitAdd_spec s1 c k1 Hs1 Hc) as H2. destruct (digitAdd s1 c k1) as [s2 k2].
  destruct H2 as (Hs2 & Hk2 & E2); [lia..|]. split; [done|]. lia.
Qed.

(** Three digits and a small carry overflow a digit at most twice. *)
Lemma carry_at_most_two s k a b c d :
  digit_ok s -> digit_ok a -> 0 <= c <= 2 -> 0 <= b <= Base - 2 -> digit_ok d ->
  s + k * Base = a + b + c + d -> k <= 2.
Proof.
  unfold digit_ok. intros. pose proof Base_big.
  assert (k < 3) by (apply (Z.mul_lt_mono_pos_r Base); lia). lia.
Qed.

(** The invariant of [internalMultiplyAdd]: what is written, plus the
    pending carry and high half, is the product of the prefix read. *)
Definition mulladd_inv (src : list Z) (aliased : bool) (factor summand neg len i : Z)
    (s : Z * Z * bigint) : Prop :=
  let '(carry, high, r) := s in
  digit_ok carry /\ 0 <= high <= Base - 2 /\
  digits_ok (digits r) /\ digitLength r = len /\ isNegative r = (neg =? 1) /\
  (aliased = true -> forall k, i <= k -> zget (digits r) k = zget src k) /\
  pv (digits r) i + (carry + high) * Base ^ i = pv src i * factor + summand.

Lemma internalMultiplyAdd_spec source factor summand n r :
  let src := match source with Some s => digits s | None => digits r end in
  digits_ok src -> digits_ok (digits r) -> digit_ok factor -> digit_ok summand ->
  0 <= n <= zlen src -> n <= digitLength r ->
  (digitLength r = n -> pv src n * factor + summand < Base ^ n) ->
  wp (internalMultiplyAdd source factor summand n r)
    (fun r' => shape (isNegative r) (digitLength r) r' /\
       absval r' = pv src n * factor + summand) no_error.
Proof.
  intros src Hsrc Hr Hf Hs Hn Hlen Hfits. unfold internalMultiplyAdd.
  set (len := digitLength r). set (sg := Z.b2z (isNegative r)). pose proof Base_big.
  set (al := match source with Some _ => false | None => true end).
  assert (Hsl : digitLength (match source with Some s => s | None => r end) = zlen src)
    by (unfold src; by destruct source).
  wp_step. wp_step; [lia|]. wp_step. wp_step; [unfold len; lia|]. wp_step.
  eapply (wp_for (mulladd_inv src al factor summand sg len)); [lia| | |].
  { unfold mulladd_inv. rewrite pv_0, Z.pow_0_r, pv_0. split_and!; [done|lia|lia|done|done| |  |lia].
    - unfold sg. by destruct (isNegative r).
    - unfold al, src. destruct source; [done|]. done. }
  { intros i [[carry high] q] Hi (Hc & Hh & Hq & Hql & Hqs & Hal & Heq). wp_step.
    assert (Hget : zget (digits (match source with Some s => s | None => q end)) i = zget src i).
    { unfold src, al in *. destruct source; [done|]. apply Hal; [done|lia]. }
    apply wp_digit.
    { unfold src, len in *. destruct source; [unfold digitLength in *; lia|lia]. }
    rewrite Hget. pose proof (digits_ok_get src i Hsrc) as Hd.
    pose proof (mul_column _ _ Hd Hf) as Hm. destruct (digitMul (zget src i) factor) as [low nh].
    destruct Hm as (Hlow & Hnh & Hm). assert (Hh' : digit_ok high) by (unfold digit_ok; lia).
    pose proof (add_two low high carry 0 Hlow Hh' Hc ltac:(lia)) as Ha.
    destruct (digitAdd low high 0) as [s1 k1]. destruct (digitAdd s1 carry k1) as [s2 k2].
    destruct Ha as (Hs2 & Hk2 & Ha). wp_step. apply wp_setDigit; [unfold len in *; lia|]. wp_step.
    unfold mulladd_inv. unfold with_digit, digitLength in *. cbn [digits isNegative]. rewrite zlen_zset.
    split_and!; try done; [unfold digit_ok; lia|lia|lia|by apply digits_ok_zset| |].
    - intros Hal' k Hk. rewrite zget_zset_other by lia. apply Hal; [done|lia].
    - rewrite pv_zset_next, pv_succ, Base_pow_succ by (unfold len in *; lia).
      replace (_ + s2 * Base ^ i + (k2 + nh) * (Base * Base ^ i)) with
        (pv (digits q) i + (carry + high) * Base ^ i + (low + nh * Base) * Base ^ i).
      { rewrite Heq, Hm. ring. }
      apply (f_equal (fun z => z * Base ^ i)) in Ha. lia. }
  intros [[carry high] q] (Hc & Hh & Hq & Hql & Hqs & _ & Heq).
  pose proof (pv_bound src n Hsrc ltac:(lia)) as Hb. pose proof (pv_bound (digits q) n Hq ltac:(lia)) as Hbq.
  assert (Hqs' : isNegative q = isNegative r) by (rewrite Hqs; unfold sg; by destruct (isNegative r)).
  unfold digit_ok in Hc, Hf, Hs.
  assert (Hch : carry + high < Base).
  { apply (Z.mul_lt_mono_pos_r (Base ^ n)); [lia|].
    assert (pv src n * factor <= (Base ^ n - 1) * (Base - 1)) by (apply Z.mul_le_mono_nonneg; lia). lia. }
  rewrite wrap_small by (unfold digit_ok; lia). wp_step; bsplit.
  - wp_step. apply wp_setDigit; [lia|]. rewrite digitLength_with_digit, Hql.
    eapply (wp_for (fun i q' => shape (isNegative r) len q' /\ pv (digits q') i = pv src n * factor + summand)).
    { lia. }
    { split.
      - unfold shape, with_digit, digitLength in *. cbn [digits isNegative]. rewrite zlen_zset.
        split_and!; [done|lia|]. apply digits_ok_zset; [done|unfold digit_ok; lia].
      - unfold with_digit. cbn [digits]. rewrite pv_zset_next by (unfold digitLength in *; lia). lia. }
    { intros i q' Hi [Hq' Hv]. apply wp_setDigit; [destruct Hq' as (_&?&_); lia|]. split.
      - apply shape_with_digit; [done|unfold digit_ok; lia].
      - unfold with_digit. cbn [digits].
        rewrite pv_zset_next by (destruct Hq' as (_&?&_); unfold digitLength in *; lia). lia. }
    intros q' [Hq' Hv]. split; [done|]. rewrite absval_pv.
    by destruct Hq' as (_ & -> & _).
  - assert (n = len) as -> by (unfold len in *; lia).
    assert (carry + high = 0) as Hz.
    { specialize (Hfits eq_refl). destruct (Z.eq_dec (carry + high) 0); [done|].
      assert (1 * Base ^ len <= (carry + high) * Base ^ len) by (apply Z.mul_le_mono_nonneg_r; lia). lia. }
    wp_step. wp_step; [lia|]. wp_step. split; [done|]. rewrite absval_pv, Hql. rewrite Hz in Heq. lia.
Qed.

Lemma inplaceMultiplyAdd_spec r factor summand :
  digits_ok (digits r) -> digit_ok factor -> digit_ok summand ->
  absval r * factor + summand < Base ^ digitLength r ->
  wp (inplaceMultiplyAdd r factor summand)
    (fun r' => shape (isNegative r) (digitLength r) r' /\ absval r' = absval r * factor + summand) no_error.
Proof.
  intros Hr Hf Hs Hfits. pose proof (digitLength_nonneg r). rewrite absval_pv in *.
  apply (internalMultiplyAdd_spec None factor summand (digitLength r) r); [done..|unfold digitLength in *; lia|lia|done].
Qed.

(** The invariant of [multiplyAccumulate]: what the accumulator holds plus
    the pending carry and high half at [idx]. *)
Definition mac_inv (neg : bool) (len total : Z) (carry high : Z) (acc : bigint) (idx : Z) : Prop :=
  0 <= carry <= 2 /\ 0 <= high <= Base - 2 /\ shape neg len acc /\
  absval acc + (carry + high) * Base ^ idx = total.

Lemma absval_with_digit r i d : 0 <= i < digitLength r ->
  absval (with_digit r i d) = absval r + (d - zget (digits r) i) * Base ^ i.
Proof.
  intros Hi. rewrite !absval_pv, digitLength_with_digit. unfold with_digit, digitLength in *. cbn [digits].
  apply pv_zset; lia.
Qed.

(** The carries of an exhausted accumulator are zero. *)
Lemma mac_done neg len total carry high acc :
  mac_inv neg len total carry high acc len -> 0 <= len -> total < Base ^ len -> carry = 0 /\ high = 0.
Proof.
  intros (Hc & Hh & (_ & Hl & Hd) & Heq) Hlen Ht. pose proof (absval_bound acc Hd) as Hb. rewrite Hl in Hb.
  destruct (Z.eq_dec (carry + high) 0); [lia|].
  assert (1 * Base ^ len <= (carry + high) * Base ^ len) by (apply Z.mul_le_mono_nonneg_r; lia). lia.
Qed.

(** The carries that remain when the multiplicand is exhausted. *)
Lemma mac_tail_spec neg len total carry high acc idx :
  mac_inv neg len total carry high acc idx -> 0 <= idx <= len -> total < Base ^ len ->
  wp (loop (S (length (digits acc))) (fun '(carry, high, accumulator, accumulatorIndex) =>
        if negb (carry =? 0) || negb (high =? 0) then
          moz_assert (accumulatorIndex <? digitLength accumulator);;
          acc ← digit accumulator accumulatorIndex;
          let '(acc, newCarry) := digitAdd acc high 0 in
          let '(acc, newCarry) := digitAdd acc carry newCarry in
          accumulator ← setDigit accumulator accumulatorIndex acc;
          mret (inl (newCarry, 0, accumulator, accumulatorIndex + 1))
        else mret (inr accumulator)) (carry, high, acc, idx))
    (fun r => shape neg len r /\ absval r = total) no_error.
Proof.
  intros Hinv Hidx Ht. pose proof Base_big.
  assert (Hlen : Z.of_nat (length (digits acc)) = len) by (destruct Hinv as (_ & _ & (_ & Hl & _) & _); exact Hl).
  eapply (wp_loop (fun '(c, h, a, i) => mac_inv neg len total c h a i /\ 0 <= i <= len)
            (fun '(c, h, a, i) => len - i)).
  { done. }
  { lia. }
  { intros [[[c h] a] i]. lia. }
  clear carry high acc idx Hinv Hidx Hlen. intros [[[c h] a] i] [Hinv Hi].
  destruct (negb (c =? 0) || negb (h =? 0)) eqn:Hch.
  - assert (i <> len).
    { intros ->. pose proof (mac_done _ _ _ _ _ _ Hinv ltac:(lia) Ht). lia. }
    destruct Hinv as (Hc & Hh & Hsh & Heq). pose proof Hsh as (_ & Hl & Hd).
    wp_step. wp_step; [lia|]. wp_step. apply wp_digit; [lia|].
    assert (Hh' : digit_ok h) by (unfold digit_ok; lia). assert (Hc' : digit_ok c) by (unfold digit_ok; lia).
    pose proof (add_two _ _ _ 0 (digits_ok_get _ i Hd) Hh' Hc' ltac:(lia)) as Ha.
    destruct (digitAdd _ h 0) as [s1 k1]. destruct (digitAdd s1 c k1) as [s2 k2].
    destruct Ha as (Hs2 & Hk2 & Ha). wp_step. apply wp_setDigit; [lia|]. wp_step.
    split; [|lia]. split; [|lia]. split_and!; [lia|lia|lia|lia|by apply shape_with_digit|].
    rewrite absval_with_digit, Base_pow_succ by lia.
    apply (f_equal (fun z => z * Base ^ i)) in Ha. lia.
  - wp_step. destruct Hinv as (Hc & Hh & Hsh & Heq). split; [done|].
    replace (c + h) with 0 in Heq by lia. lia.
Qed.

Lemma multiplyAccumulate_spec y m acc idx neg len :
  digits_ok (digits y) -> digit_ok m -> shape neg len acc -> 0 <= idx -> digitLength y + idx < len ->
  absval acc + absval y * m * Base ^ idx < Base ^ len ->
  wp (multiplyAccumulate y m acc idx)
    (fun r => shape neg len r /\ absval r = absval acc + absval y * m * Base ^ idx) no_error.
Proof.
  intros Hy Hm Hacc Hidx Hlen Hfits. pose proof Base_big. pose proof (digitLength_nonneg y).
  unfold multiplyAccumulate. wp_step. wp_step; [destruct Hacc as (_ & -> & _); lia|].
  wp_step; bsplit.
  { wp_step. split; [done|]. subst m. lia. }
  set (total i := absval acc + pv (digits y) i * m * Base ^ idx). wp_step.
  eapply (wp_for (fun i '(c, h, a) => mac_inv neg len (total i) c h a (idx + i))); [lia| | |].
  { split_and!; [lia..|done|]. unfold total. rewrite pv_0. lia. }
  - intros i [[c h] a] Hi (Hcar & Hh & Hsh & Heq). pose proof Hsh as (_ & Hl & Hd).
    wp_step. apply wp_digit; [lia|].
    assert (Hh' : digit_ok h) by (unfold digit_ok; lia). assert (Hc' : digit_ok c) by (unfold digit_ok; lia).
    pose proof (add_two _ _ _ 0 (digits_ok_get _ (idx + i) Hd) Hh' Hc' ltac:(lia)) as Ha.
    destruct (digitAdd _ h 0) as [s1 k1]. destruct (digitAdd s1 c k1) as [s2 k2].
    destruct Ha as (Hs2 & Hk2 & Ha). wp_step. apply wp_digit; [lia|].
    pose proof (mul_column m (zget (digits y) i) Hm (digits_ok_get _ i Hy)) as Hp.
    destruct (digitMul m _) as [low nh]. destruct Hp as (Hlow & Hnh & Hp).
    pose proof (digitAdd_spec s2 low k2 Hs2 Hlow) as Ha'. destruct (digitAdd s2 low k2) as [s3 k3].
    destruct Ha' as (Hs3 & Hk3 & Ha'); [lia..|].
    wp_step. apply wp_setDigit; [lia|]. wp_step.
    assert (k3 <= 2) by (apply (carry_at_most_two s3 k3 (zget (digits a) (idx + i)) h c low); (done || lia || by apply digits_ok_get)).
    split_and!; [lia|lia|lia|lia|by apply shape_with_digit|].
    unfold total in *. rewrite absval_with_digit, Z.add_assoc, Base_pow_succ, pv_succ by lia.
    replace (absval acc + (pv (digits y) i + zget (digits y) i * Base ^ i) * m * Base ^ idx) with
      (absval a + (c + h) * Base ^ (idx + i) + (low + nh * Base) * Base ^ (idx + i)).
    { assert (E : s3 + k3 * Base = zget (digits a) (idx + i) + h + c + low) by lia.
      apply (f_equal (fun z => z * Base ^ (idx + i))) in E. lia. }
    rewrite Heq, Hp, Z.pow_add_r by lia. ring.
  - intros [[c h] a] Hinv.
    replace (total (digitLength y)) with (absval acc + absval y * m * Base ^ idx) in Hinv
      by (unfold total; by rewrite absval_pv with (x := y)).
    apply mac_tail_spec; [done|lia|done].
Qed.
End products.

(** * Multiplication *)

(** A product whose schoolbook buffer exceeds the limit. *)
Definition product_too_large {P : Platform} (x y : bigint) (e : error) : Prop :=
  e = BigIntTooLarge /\ MaxDigitLength < digitLength x + digitLength y.

Section multiplication.
Context {P : Platform} {K : DigitKernel} {C : CheckedMul}.

Lemma zeroed neg n r : shape neg n r ->
  shape neg n (initializeDigitsToZero r) /\ absval (initializeDigitsToZero r) = 0.
Proof.
  intros (Hs & Hn & Hd). unfold initializeDigitsToZero. split.
  - split_and!; [done| |apply digits_ok_zeros]. unfold digitLength, zlen in *. cbn [digits].
    by rewrite length_replicate.
  - rewrite absval_pv. cbn [digits]. apply pv_zeros, digitLength_nonneg.
Qed.

Lemma signed_mul s t a b : signed s a * signed t b = signed (negb (Bool.eqb s t)) (a * b).
Proof. destruct s, t; cbn; lia. Qed.

(** The schoolbook product. *)
Lemma mul_loop_spec x y neg : wf x -> wf y -> 0 < digitLength x -> 0 < digitLength y ->
  wp (result ← createUninitialized (digitLength x + digitLength y) neg;
      result ← for_ 0 (digitLength x) (fun i result =>
            d ← digit x i;
            multiplyAccumulate y d result i) (initializeDigitsToZero result);
      destructivelyTrimHighZeroDigits result)
    (fun r => denotes r (signed neg (absval x * absval y))) (product_too_large x y).
Proof.
  intros Hx Hy Hlx Hly. set (len := digitLength x + digitLength y).
  wp_step. apply wp_create; [lia|done|]. intros r0 Hmax Hr0. destruct (zeroed _ _ _ Hr0) as [Hz Hz0].
  wp_step. eapply (wp_for (fun i r => shape neg len r /\ absval r = pv (digits x) i * absval y)); [lia|..].
  - split; [done|]. by rewrite pv_0.
  - intros i r Hi [Hr Hv]. wp_step. apply wp_digit; [lia|].
    eapply wp_mono; [eapply multiplyAccumulate_spec|..|intros e []]; try done.
    + by apply wf_digits.
    + by apply wf_digit.
    + lia.
    + lia.
    + rewrite Hv. pose proof (pv_bound (digits x) (i + 1) (wf_digits x Hx) ltac:(lia)) as Hb.
      pose proof (absval_bound y (wf_digits y Hy)) as Hby. rewrite pv_succ in Hb by lia.
      assert (Base ^ (i + 1) * Base ^ digitLength y <= Base ^ len).
      { rewrite <- Z.pow_add_r by lia. pose proof Base_pos. apply Z.pow_le_mono_r; lia. }
      assert ((pv (digits x) i + zget (digits x) i * Base ^ i) * absval y < Base ^ (i + 1) * Base ^ digitLength y); [|lia].
      apply Z.le_lt_trans with ((Base ^ (i + 1) - 1) * absval y); [apply Z.mul_le_mono_nonneg_r; lia|].
      pose proof (Base_pow_pos (i + 1) ltac:(lia)).
      apply Z.lt_le_trans with ((Base ^ (i + 1)) * absval y + 1); [lia|].
      assert (Base ^ (i + 1) * absval y <= Base ^ (i + 1) * (Base ^ digitLength y - 1)); [|lia].
      apply Z.mul_le_mono_nonneg_l; lia.
    + intros r' [Hr' Hv']. split; [done|]. rewrite Hv', Hv, pv_succ by lia. ring.
  - intros r [Hr Hv]. rewrite <- absval_pv in Hv. rewrite <- Hv.
    pose proof (trim_spec neg len r Hr Hmax) as Ht. rewrite absval_pv. destruct Hr as (_ & -> & _).
    eapply wp_mono; [apply Ht; lia|done|done].
Qed.

Lemma mul_spec x y : wf x -> wf y ->
  wp (mul x y) (fun r => denotes r (value x * value y)) (product_too_large x y).
Proof.
  intros Hx Hy. unfold mul. wp_step; [|wp_step].
  - wp_step. split; [done|]. by rewrite zero_value.
  - wp_step. split; [done|]. rewrite zero_value by done. lia.
  - apply nonzero_length in Hc, Hc0. rewrite !value_signed, signed_mul.
    set (neg := negb (Bool.eqb (isNegative x) (isNegative y))).
    pose proof (absval_pos x Hx Hc). pose proof (absval_pos y Hy Hc0).
    assert (Hloop := mul_loop_spec x y neg Hx Hy Hc Hc0).
    wp_step. wp_step; bsplit; [|wp_step; exact Hloop].
    wp_step. wp_call (uint64FromAbs_fits x); [done|lia|done|]. intros a ->.
    wp_step. wp_call (uint64FromAbs_fits y); [done|lia|done|]. intros b ->.
    pose proof (fits_bound x Hx H1). pose proof (fits_bound y Hy H2).
    wp_call SafeMul_ok; [lia|lia|]. intros r ->. destruct (Z.ltb_spec (absval x * absval y) (2 ^ 64)); [|exact Hloop].
    assert (0 < absval x * absval y) by (apply Z.mul_pos_pos; lia).
    wp_step. wp_step; [lia|]. wp_call createFromNonZeroRawUint64_spec; [lia|done].
Qed.

Lemma wf_nonzero_length x : wf x -> value x <> 0 -> 0 < digitLength x.
Proof.
  intros Hx Hnz. pose proof (digitLength_nonneg x). destruct (Z.eq_dec (digitLength x) 0) as [E|]; [|lia].
  destruct Hnz. apply zero_value. unfold isZero. lia.
Qed.

Lemma wf_lower_value x : wf x -> value x <> 0 -> Base ^ (digitLength x - 1) <= Z.abs (value x).
Proof. intros Hx Hnz. rewrite <- wf_abs_value by done. apply wf_lower; [done|by apply wf_nonzero_length]. Qed.

(** A refused product is at least [Base ^ (MaxDigitLength - 1)]. *)
Lemma product_too_large_bound x y e : wf x -> wf y -> value x <> 0 -> value y <> 0 ->
  product_too_large x y e -> e = BigIntTooLarge /\ Base ^ (MaxDigitLength - 1) <= Z.abs (value x * value y).
Proof.
  intros Hx Hy Hnx Hny [-> Hlen]. split; [done|]. rewrite Z.abs_mul. pose proof Base_pos.
  pose proof (wf_nonzero_length x Hx Hnx). pose proof (wf_nonzero_length y Hy Hny).
  pose proof (wf_lower_value x Hx Hnx). pose proof (wf_lower_value y Hy Hny).
  apply Z.le_trans with (Base ^ (digitLength x - 1 + (digitLength y - 1))).
  - apply Z.pow_le_mono_r; lia.
  - rewrite Z.pow_add_r by lia. pose proof (Base_pow_pos (digitLength x - 1)). pose proof (Base_pow_pos (digitLength y - 1)).
    apply Z.mul_le_mono_nonneg; lia.
Qed.
End multiplication.

(** * Exponentiation *)

(** A power that a BigInt of [MaxDigitLength - 1] digits cannot hold. *)
Definition power_too_large {P : Platform} (v : Z) (e : error) : Prop :=
  e = BigIntTooLarge /\ Base ^ (MaxDigitLength - 1) <= Z.abs v.

Section exponentiation.
Context {P : Platform} {K : DigitKernel} {C : CheckedMul}.

Lemma half_odd n : 0 <= n -> n = 2 * (n / 2) + Z.b2z (negb (Z.land n 1 =? 0)).
Proof.
  intros Hn. pose proof (odd_split n) as [Hs Ho]. destruct (Z.eqb_spec (Z.land n 1) 0); cbn [negb Z.b2z]; lia.
Qed.

Lemma log2_half n : 2 <= n -> Z.log2 (n / 2) < Z.log2 n.
Proof.
  intros Hn. assert (1 <= n / 2) by (apply Z.div_le_lower_bound; lia).
  pose proof (Z.log2_double (n / 2) ltac:(lia)) as Hd. pose proof (Z.div_mod n 2). pose proof (Z.mod_pos_bound n 2).
  assert (Z.log2 (2 * (n / 2)) <= Z.log2 n) by (apply Z.log2_le_mono; lia). lia.
Qed.

(** One step of the square-and-multiply recurrence. *)
Lemma square_step rv rs n : 0 <= n ->
  rv * rs ^ (2 * n) = rv * (rs * rs) ^ Z.b2z (negb (Z.land n 1 =? 0)) * (rs * rs) ^ (2 * (n / 2)).
Proof.
  intros Hn. rewrite <- Z.mul_assoc, <- Z.pow_add_r.
  - replace (Z.b2z _ + _) with n by (rewrite (half_odd n Hn) at 1; lia).
    by rewrite Z.pow_mul_r, Z.pow_2_r by lia.
  - destruct (negb _); cbn; lia.
  - assert (0 <= n / 2) by (apply Z.div_pos; lia). lia.
Qed.

Lemma pow_uint64_spec n rs ri (T : Z) :
  1 <= n < 2 ^ 20 -> 0 < rs < 2 ^ 64 -> 0 < ri < 2 ^ 64 -> ri * rs ^ (2 * n) = T ->
  wp (pow_uint64 n rs ri)
    (fun r => match r with
              | inl res => res = T /\ 0 < res < 2 ^ 64
              | inr (n', rs', ri') =>
                  1 <= n' < 2 ^ 20 /\ 0 < rs' < 2 ^ 64 /\ 0 < ri' < 2 ^ 64 /\ ri' * rs' ^ (2 * n') = T
              end) no_error.
Proof.
  intros Hn Hrs Hri HT. unfold pow_uint64.
  eapply (wp_loop (fun '(n, rs, ri) => 1 <= n < 2 ^ 20 /\ 0 < rs < 2 ^ 64 /\ 0 < ri < 2 ^ 64 /\ ri * rs ^ (2 * n) = T)
            (fun '(n, _, _) => Z.log2 n)).
  { done. }
  { change (Z.of_nat 20) with 20. apply Z.log2_lt_pow2; lia. }
  { intros [[n0 ?] ?] _. apply Z.log2_nonneg. }
  clear n rs ri Hn Hrs Hri HT. intros [[n rs] ri] (Hn & Hrs & Hri & HT).
  pose proof HT as HT'. rewrite square_step in HT' by lia.
  wp_step. wp_call SafeMul_ok; [lia|lia|]. intros r ->.
  destruct (Z.ltb_spec (rs * rs) (2 ^ 64)); [|by wp_step].
  assert (Hsq : 0 < rs * rs) by (apply Z.mul_pos_pos; lia).
  assert (Hend : forall ri', 0 < ri' < 2 ^ 64 -> ri' * (rs * rs) ^ (2 * (n / 2)) = T ->
    match (if n / 2 =? 0 then inr (inl ri') else inl (n / 2, rs * rs, ri')) : Z * Z * Z + (Z + Z * Z * Z) with
    | inl s' => (let '(n, rs, ri) := s' in
        1 <= n < 2 ^ 20 /\ 0 < rs < 2 ^ 64 /\ 0 < ri < 2 ^ 64 /\ ri * rs ^ (2 * n) = T) /\
        (let '(n, _, _) := s' in Z.log2 n) < Z.log2 n
    | inr (inl res) => res = T /\ 0 < res < 2 ^ 64
    | inr (inr (n', rs', ri')) =>
        1 <= n' < 2 ^ 20 /\ 0 < rs' < 2 ^ 64 /\ 0 < ri' < 2 ^ 64 /\ ri' * rs' ^ (2 * n') = T
    end).
  { intros ri' Hri' HT2. destruct (Z.eqb_spec (n / 2) 0) as [E|E].
    - rewrite E in HT2. rewrite Z.mul_0_r, Z.pow_0_r in HT2. split; [lia|done].
    - assert (0 <= n / 2 <= n) by (split; [apply Z.div_pos; lia|apply Z.div_le_upper_bound; lia]).
      split; [done || (split_and!; try done; lia)|]. apply log2_half.
      destruct (Z_le_gt_dec 2 n); [done|]. assert (n = 1) as -> by lia. done. }
  wp_step. destruct (negb (Z.land n 1 =? 0)); cbn [Z.b2z] in HT'.
  - rewrite Z.pow_1_r in HT'. wp_call SafeMul_ok; [lia|lia|]. intros r ->.
    assert (0 < ri * (rs * rs)) by (apply Z.mul_pos_pos; lia).
    destruct (Z.ltb_spec (ri * (rs * rs)) (2 ^ 64)); wp_step; [|done].
    by apply Hend.
  - rewrite Z.pow_0_r, Z.mul_1_r in HT'. wp_step. wp_step. by apply Hend.
Qed.

Lemma pow_ge_base b n : 1 <= b -> 1 <= n -> b <= b ^ n.
Proof. intros Hb Hn. rewrite <- (Z.pow_1_r b) at 1. apply Z.pow_le_mono_r; lia. Qed.

(** A factor of the final power bounds it from below. *)
Lemma partial_power_bound rv sq n : rv <> 0 -> sq <> 0 -> 1 <= n -> Z.abs sq <= Z.abs (rv * sq ^ n).
Proof.
  intros Hr Hs Hn. rewrite Z.abs_mul, Z.abs_pow. pose proof (pow_ge_base (Z.abs sq) n ltac:(lia) Hn).
  assert (1 * Z.abs sq ^ n <= Z.abs rv * Z.abs sq ^ n) by (apply Z.mul_le_mono_nonneg_r; lia). lia.
Qed.

Definition pow_value (result : option bigint) : Z :=
  match result with None => 1 | Some r => value r end.
Definition pow_inv (T : Z) (s : Z * bigint * option bigint) : Prop :=
  let '(n, rs, result) := s in
  1 <= n < 2 ^ 20 /\ wf rs /\ value rs <> 0 /\ pow_value result <> 0 /\
  (forall r, result = Some r -> wf r) /\ pow_value result * value rs ^ (2 * n) = T.

Lemma pow_bigint_spec n rs result T : pow_inv T (n, rs, result) ->
  wp (pow_bigint n rs result) (fun r => denotes r T) (power_too_large T).
Proof.
  intros Hinv. unfold pow_bigint.
  eapply (wp_loop (pow_inv T) (fun '(n, _, _) => Z.log2 n)).
  { done. }
  { change (Z.of_nat 20) with 20. apply Z.log2_lt_pow2; destruct Hinv as [? _]; lia. }
  { intros [[n0 ?] ?] _. apply Z.log2_nonneg. }
  clear n rs result Hinv. intros [[n rs] result] (Hn & Hrs & Hrs0 & Hr0 & Hr & HT).
  assert (HT' := HT). rewrite Z.pow_mul_r, Z.pow_2_r in HT' by lia.
  assert (Hsq0 : value rs * value rs <> 0) by (intros E; apply Z.mul_eq_0 in E; lia).
  rewrite square_step in HT by lia.
  assert (0 <= n / 2 <= n) by (split; [apply Z.div_pos; lia|apply Z.div_le_upper_bound; lia]).
  wp_step. eapply wp_mono; [by apply mul_spec| |].
  2: { intros e He. apply product_too_large_bound in He as [-> He]; [|done..]. split; [done|].
       pose proof (partial_power_bound _ _ n Hr0 Hsq0 ltac:(lia)). rewrite HT' in *. by etransitivity. }
  intros sq [Hsq Hv]. rewrite <- Hv in *. wp_step.
  set (odd := negb (Z.land n 1 =? 0)) in *.
  assert (Hend : forall result', (odd = true -> exists r, result' = Some r) ->
    pow_value result' <> 0 -> (forall r, result' = Some r -> wf r) ->
    pow_value result' * value sq ^ (2 * (n / 2)) = T ->
    wp (if n / 2 =? 0 then
          match result' with Some r => mret (inr r) | None => throw UndefinedBehavior end
        else mret (inl (n / 2, sq, result')))
      (fun r => match r with
                | inl s' => pow_inv T s' /\ (let '(n0, _, _) := s' in Z.log2 n0) < Z.log2 n
                | inr r => denotes r T
                end) (power_too_large T)).
  { intros result' Hsome H0 Hwf HT2. wp_step; bsplit.
    - rewrite Hc, Z.mul_0_r, Z.pow_0_r, Z.mul_1_r in HT2.
      assert (n = 1) as ->. { pose proof (Z.div_mod n 2). pose proof (Z.mod_pos_bound n 2). lia. }
      destruct (Hsome eq_refl) as [r ->]. wp_step. split; [by apply Hwf|done].
    - wp_step. split; [|apply log2_half; destruct (Z_le_gt_dec 2 n); [done|]; assert (n = 1) as -> by lia; done].
      split_and!; try done; lia. }
  destruct odd; cbn [Z.b2z] in HT.
  - rewrite Z.pow_1_r in HT. destruct result as [r|]; cbn [pow_value] in *.
    + wp_step. eapply wp_mono; [apply mul_spec; [by apply Hr|done]| |].
      * intros r' [Hr' Hv']. wp_step. apply (Hend (Some r')); cbn [pow_value]; [by eexists| | |].
        -- rewrite Hv'. intros E. apply Z.mul_eq_0 in E. lia.
        -- by intros ? [= <-].
        -- by rewrite Hv'.
      * intros e He. apply product_too_large_bound in He as [-> He]; [|by first [done|apply Hr]..]. split; [done|].
        etransitivity; [exact He|]. rewrite <- HT, (Z.abs_mul (value r * value sq)), Z.abs_pow.
        rewrite <- (Z.mul_1_r (Z.abs (value r * value sq))) at 1.
        apply Z.mul_le_mono_nonneg_l; [apply Z.abs_nonneg|]. apply (Z.le_succ_l 0), Z.pow_pos_nonneg; clear - Hsq0 H; lia.
    + wp_step. apply (Hend (Some sq)); cbn [pow_value]; [by eexists|done|by intros ? [= <-]|by rewrite Z.mul_1_l in HT].
  - rewrite Z.pow_0_r, Z.mul_1_r in HT. wp_step. by apply Hend.
Qed.

(** [x & (x - 1)] clears the lowest set bit. *)
Lemma IsPowerOfTwo_spec d : 0 <= d -> IsPowerOfTwo d = true -> d = 2 ^ Z.log2 d.
Proof.
  unfold IsPowerOfTwo. intros Hd H. bsplit. pose proof (Z.log2_spec d ltac:(lia)) as [Hl Hu].
  destruct (Z.eq_dec d (2 ^ Z.log2 d)) as [|Hne]; [done|exfalso].
  assert (Hlog : Z.log2 (d - 1) = Z.log2 d) by (apply Z.log2_unique; [apply Z.log2_nonneg|lia]).
  apply (f_equal (fun z => Z.testbit z (Z.log2 d))) in H0. rewrite Z.land_spec, Z.bits_0 in H0.
  pose proof (Z.pow_pos_nonneg 2 (Z.log2 d) ltac:(lia) (Z.log2_nonneg d)).
  rewrite Z.bit_log2, <- Hlog, Z.bit_log2 in H0 by lia. done.
Qed.

Lemma FloorLog2_spec d : 0 < d -> FloorLog2 d = Z.log2 d.
Proof. intros Hd. unfold FloorLog2. rewrite Z.log2_lor by lia. pose proof (Z.log2_nonneg d). change (Z.log2 1) with 0. lia. Qed.

Lemma signed_pow s a n : 0 <= n ->
  signed s a ^ n = signed (s && negb (Z.land n 1 =? 0)) (a ^ n).
Proof.
  intros Hn. pose proof (half_odd n Hn) as Ho. destruct s; cbn [signed andb]; [|done].
  destruct (negb (Z.land n 1 =? 0)); cbn [Z.b2z signed] in *.
  - apply Z.pow_opp_odd. by exists (n / 2).
  - apply Z.pow_opp_even. exists (n / 2). lia.
Qed.

(** The result of the power-of-two path. *)
Lemma power_of_two_result neg k r : 0 <= k -> shape neg (1 + k / DigitBits) r -> 1 + k / DigitBits <= MaxDigitLength ->
  wp (d ← shl 1 (k mod DigitBits); setDigit (initializeDigitsToZero r) (1 + k / DigitBits - 1) d)
    (fun r' => denotes r' (signed neg (2 ^ k))) no_error.
Proof.
  intros Hk Hr Hmax. pose proof DigitBits_pos. assert (Hm : 0 <= k mod DigitBits < DigitBits) by (apply Z.mod_pos_bound; lia).
  assert (0 <= k / DigitBits) by (apply Z.div_pos; lia). destruct (zeroed _ _ _ Hr) as [Hz Hz0].
  wp_step. apply wp_shl; [lia|]. rewrite Z.mul_1_l. replace (1 + k / DigitBits - 1) with (k / DigitBits) by lia.
  assert (0 < 2 ^ (k mod DigitBits)) by (apply Z.pow_pos_nonneg; lia).
  assert (Hok : digit_ok (2 ^ (k mod DigitBits))) by (unfold digit_ok, Base; split; [lia|apply Z.pow_lt_mono_r; lia]).
  rewrite wrap_small by done. pose proof Hz as (_ & Hl & _).
  apply wp_setDigit; [lia|]. set (r' := with_digit _ _ _).
  assert (Hr' : shape neg (1 + k / DigitBits) r') by (by apply shape_with_digit).
  replace (2 ^ k) with (absval r').
  - rewrite absval_pv. pose proof Hr' as (_ & -> & _). apply shape_denotes; [done|lia|].
    replace (1 + k / DigitBits - 1) with (k / DigitBits) by lia. unfold r', with_digit. cbn [digits].
    unfold digitLength in Hl. rewrite zget_zset_same; lia.
  - unfold r'. rewrite absval_with_digit, Hz0 by lia. unfold initializeDigitsToZero. cbn [digits].
    rewrite zget_zeros. unfold Base. rewrite <- Z.pow_mul_r, Z.sub_0_r, Z.add_0_l, <- Z.pow_add_r by lia.
    f_equal. pose proof (Z.div_mod k DigitBits). lia.
Qed.

(** Exponents of [MaxBitLength] or more overflow for every base above 1. *)
Lemma huge_exponent v n : 2 <= Z.abs v -> MaxBitLength <= n -> power_too_large (v ^ n) BigIntTooLarge.
Proof.
  intros Hv Hn. split; [done|]. rewrite Z.abs_pow, MaxBitLength_digits in *. pose proof MaxDigitLength_big.
  pose proof DigitBits_pos. pose proof Base_pos.
  assert (2 ^ n <= Z.abs v ^ n) by (apply Z.pow_le_mono_l; lia).
  assert (0 <= DigitBits * MaxDigitLength) by (apply Z.mul_nonneg_nonneg; lia).
  assert (2 ^ (DigitBits * MaxDigitLength) <= 2 ^ n) by (apply Z.pow_le_mono_r; lia).
  assert (Base ^ (MaxDigitLength - 1) <= Base ^ MaxDigitLength) by (apply Z.pow_le_mono_r; lia).
  unfold Base at 2 in H5. rewrite <- Z.pow_mul_r in H5 by lia. lia.
Qed.

Definition pow_error (x y : bigint) (e : error) : Prop :=
  (e = BigIntNegativeExponent /\ value y < 0) \/
  (0 <= value y /\ power_too_large (value x ^ value y) e).

(** [x->digitLength() == 1 && f(x->digit(0))] *)
Lemma one_digit_test x (f : Z -> bool) (Q : bool -> Prop) E : 0 < digitLength x ->
  (digitLength x = 1 -> f (absval x) = true -> Q true) ->
  (digitLength x <> 1 \/ f (absval x) = false -> Q false) ->
  wp (if digitLength x =? 1 then d ← digit x 0; mret (f d) else mret false) Q E.
Proof.
  intros Hpos Ht Hf. wp_step; bsplit; [|by wp_step; apply Hf; left].
  wp_step. apply wp_digit; [lia|]. wp_step. rewrite absval_pv, Hc, pv_1 in *.
  destruct (f (zget (digits x) 0)); auto.
Qed.

Lemma digit0_parity x : Z.land (zget (digits x) 0) 1 = Z.land (absval x) 1.
Proof.
  assert (Hl1 : forall a, Z.land a 1 = a mod 2) by (intros a; by apply (Z.land_ones a 1)). rewrite !Hl1.
  rewrite absval_pv. pose proof (digitLength_nonneg x). destruct (Z.eq_dec (digitLength x) 0) as [E|].
  { rewrite E, pv_0. by rewrite zget_oob by (unfold digitLength in E; lia). }
  rewrite <- (pv_1 (digits x)).
  assert (Hq : exists q, pv (digits x) (digitLength x) = pv (digits x) 1 + q * 2).
  { replace (digitLength x) with (1 + Z.of_nat (Z.to_nat (digitLength x - 1))) by lia.
    generalize (Z.to_nat (digitLength x - 1)). intros m. induction m as [|m [q IH]]; [exists 0; rewrite Z.add_0_r; lia|].
    exists (q + zget (digits x) (1 + Z.of_nat m) * (2 ^ (DigitBits - 1) * Base ^ Z.of_nat m)).
    replace (1 + Z.of_nat (S m)) with (1 + Z.of_nat m + 1) by lia.
    rewrite pv_succ, IH, Z.pow_add_r, Z.pow_1_r by lia.
    assert (E : Base = 2 ^ (DigitBits - 1) * 2).
    { unfold Base. rewrite (Z.mul_comm _ 2), <- Z.pow_succ_r by (pose proof DigitBits_pos; lia). f_equal. lia. }
    rewrite E at 1. ring. }
  destruct Hq as [q ->]. symmetry. by rewrite Z.mod_add.
Qed.

(** The general path: at least two bits set in [x]. *)
Lemma pow_general x N : wf x -> 2 <= absval x -> 2 <= N < 2 ^ 20 ->
  wp (let isOddPower := negb (Z.land N 1 =? 0) in
      let runningSquare := x in
      let result := if isOddPower then Some x else None in
      let n := N / 2 in
      if absFitsInUint64 x then
        let resultNegative := isNegative x && isOddPower in
        runningSquareInt ← uint64FromAbsNonZero x;
        let resultInt := if isOddPower then runningSquareInt else 1 in
        r ← pow_uint64 n runningSquareInt resultInt;
        match r with
        | inl resultInt => createFromNonZeroRawUint64 resultInt resultNegative
        | inr (n, runningSquareInt, resultInt) =>
            runningSquare ← createFromNonZeroRawUint64 runningSquareInt false;
            result ← createFromNonZeroRawUint64 resultInt resultNegative;
            pow_bigint n runningSquare (Some result)
        end
      else pow_bigint n runningSquare result)
    (fun r => denotes r (value x ^ N)) (power_too_large (value x ^ N)).
Proof.
  intros Hx H2 HN. cbv zeta. pose proof (half_odd N ltac:(lia)) as Hodd.
  assert (Hn : 1 <= N / 2 < 2 ^ 20) by (split; [apply Z.div_le_lower_bound; lia|apply Z.div_lt_upper_bound; lia]).
  assert (Hv2 : 2 <= Z.abs (value x)) by (rewrite <- wf_abs_value; done).
  assert (Hpos : 0 < digitLength x) by (apply wf_nonzero_length; [done|lia]).
  set (odd := negb (Z.land N 1 =? 0)) in *.
  assert (Hsplit : forall b, b ^ N = b ^ Z.b2z odd * b ^ (2 * (N / 2))).
  { intros b. rewrite <- Z.pow_add_r by (destruct odd; cbn; lia). f_equal. lia. }
  wp_step.
  - pose proof (fits_bound x Hx Hc) as Hfit. wp_step. wp_call (uint64FromAbs_fits x); [done|done|done|]. intros v ->.
    wp_step. eapply wp_mono; [eapply (pow_uint64_spec _ _ _ (absval x ^ N)); [done|lia| |]|..|intros e []].
    { destruct odd; lia. }
    { rewrite Hsplit. destruct odd; cbn [Z.b2z]; [by rewrite Z.pow_1_r|by rewrite Z.pow_0_r]. }
    rewrite value_signed, signed_pow by lia. fold odd. intros [res|[[n' rs] ri]].
    + intros [-> Hres]. wp_call createFromNonZeroRawUint64_spec; done.
    + intros (Hn' & Hrs & Hri & HT). wp_step. wp_call createFromNonZeroRawUint64_spec; [done|]. intros rs' [Hrs' Hvrs].
      wp_step. wp_call createFromNonZeroRawUint64_spec; [done|]. intros ri' [Hri' Hvri].
      apply pow_bigint_spec. cbn [signed] in Hvrs. cbn [pow_inv pow_value].
      split_and!; try done; try lia.
      * rewrite Hvri. destruct (isNegative x && odd); cbn; lia.
      * by intros ? [= <-].
      * rewrite Hvrs, Hvri, <- HT. destruct (isNegative x && odd); cbn [signed]; lia.
  - apply pow_bigint_spec. cbn [pow_inv]. split_and!; try done; try lia.
    + destruct odd; cbn; lia.
    + destruct odd; [by intros ? [= <-]|done].
    + rewrite (Hsplit (value x)). destruct odd; cbn [pow_value Z.b2z]; [by rewrite Z.pow_1_r|by rewrite Z.pow_0_r].
Qed.

Lemma pow_spec x y : wf x -> wf y ->
  wp (pow x y) (fun r => denotes r (value x ^ value y)) (pow_error x y).
Proof.
  intros Hx Hy. unfold pow. pose proof (wf_absval_nonneg y Hy) as Hay.
  wp_step.
  { apply wp_throw; [|done]. left. split; [done|]. rewrite wf_value_neg in Hc by done. lia. }
  assert (Hvy : value y = absval y) by (by apply nonneg_value).
  wp_step.
  { rewrite (zero_value y) by done. wp_call one_spec. by rewrite Z.pow_0_r. }
  apply nonzero_length in Hc0. pose proof (absval_pos y Hy Hc0).
  wp_step.
  { wp_step. split; [done|]. rewrite (zero_value x), Z.pow_0_l by (done || lia). done. }
  apply nonzero_length in Hc1. pose proof (absval_pos x Hx Hc1). pose proof Base_big.
  wp_step. apply (one_digit_test x (fun d => d =? 1)); [done| |].
  - intros Hl1 Hone. assert (Ha1 : absval x = 1) by lia. wp_step.
    assert (Hxv : value x = signed (isNegative x) 1) by (by rewrite value_signed, Ha1).
    rewrite Hxv, signed_pow, Z.pow_1_l, Hvy, <- digit0_parity by lia. wp_step.
    + wp_step. apply wp_digit; [lia|]. wp_step. destruct (Z.eqb_spec (Z.land (zget (digits y) 0) 1) 0); cbn [negb andb].
      * wp_call neg_spec; [done|]. intros r Hr. rewrite Hc2 in *. by rewrite Hxv in Hr.
      * wp_step. split; [done|]. by rewrite Hxv, Hc2.
    + wp_step. cbn [andb]. wp_step. split; [done|]. by rewrite Hxv, Hc2.
  - intros Hnot1. assert (Ha2 : 2 <= absval x).
    { destruct Hnot1 as [Hl|Hl]; [|lia]. pose proof (wf_lower x Hx Hc1).
      assert (Base ^ 1 <= Base ^ (digitLength x - 1)) by (apply Z.pow_le_mono_r; lia). lia. }
    assert (Hv2 : 2 <= Z.abs (value x)) by (rewrite <- wf_abs_value; done).
    assert (Hbad : MaxBitLength <= absval y -> pow_error x y BigIntTooLarge).
    { intros Hbig. right. split; [lia|]. rewrite Hvy. by apply huge_exponent. }
    wp_step; bsplit.
    { apply wp_throw; [|done]. apply Hbad. pose proof (wf_lower y Hy Hc0).
      assert (Base ^ 1 <= Base ^ (digitLength y - 1)) by (apply Z.pow_le_mono_r; lia).
      unfold MaxBitLength. lia. }
    wp_step. apply wp_digit; [lia|].
    assert (Hyd : zget (digits y) 0 = absval y) by (rewrite absval_pv; replace (digitLength y) with 1 by lia; by rewrite pv_1).
    rewrite Hyd. wp_step; bsplit.
    { wp_step. split; [done|]. by rewrite Hvy, Hc3, Z.pow_1_r. }
    wp_step; bsplit; [by apply wp_throw; [apply Hbad|]|].
    assert (HN : 2 <= absval y < 2 ^ 20) by (unfold MaxBitLength in *; lia).
    rewrite Hvy. assert (HE : forall e, power_too_large (value x ^ absval y) e -> pow_error x y e).
    { intros e He. right. by rewrite Hvy. }
    wp_step. apply (one_digit_test x IsPowerOfTwo); [done| |].
    + intros Hl1 Hp2. apply IsPowerOfTwo_spec in Hp2; [|lia]. wp_step. apply wp_digit; [lia|].
      assert (Hxd : zget (digits x) 0 = absval x) by (by rewrite absval_pv, Hl1, pv_1).
      rewrite Hxd, FloorLog2_spec by lia. pose proof (Z.log2_nonneg (absval x)).
      assert (Hlog : Z.log2 (absval x) < DigitBits).
      { apply Z.log2_lt_pow2; [lia|]. pose proof (wf_digit x 0 Hx) as Hd. unfold digit_ok in Hd. unfold Base in Hd. lia. }
      wp_step. wp_step; [lia|]. set (k := absval y * Z.log2 (absval x)).
      assert (Hk : 0 <= k) by (apply Z.mul_nonneg_nonneg; lia). pose proof DigitBits_pos.
      assert (0 <= k / DigitBits) by (apply Z.div_pos; lia).
      assert (Hpow : absval x ^ absval y = 2 ^ k)
        by (rewrite Hp2 at 1; rewrite <- Z.pow_mul_r by lia; f_equal; unfold k; lia).
      wp_step. apply wp_create; [lia| |].
      { intros Hbig. apply HE. split; [done|]. rewrite Z.abs_pow, <- wf_abs_value, Hpow by done.
        unfold Base. pose proof MaxDigitLength_big. rewrite <- Z.pow_mul_r by lia. apply Z.pow_le_mono_r; [lia|].
        assert (MaxDigitLength <= k / DigitBits) by lia.
        assert (DigitBits * MaxDigitLength <= DigitBits * (k / DigitBits)) by (apply Z.mul_le_mono_nonneg_l; lia).
        pose proof (Z.mul_div_le k DigitBits). lia. }
      intros r Hmax Hr. rewrite value_signed, signed_pow, Hpow by lia.
      eapply wp_mono; [by apply power_of_two_result|done|intros e []].
    + intros _. eapply wp_mono; [apply (pow_general x (absval y) Hx Ha2 HN)|done|done].
Qed.
End exponentiation.
