(* ===== verification/BigIntDiv.v ===== *)
(** Division of BigInts (vm/BigIntType.cpp: [absoluteDivWithDigitDivisor],
    [absoluteInplaceAdd], [absoluteInplaceSub], [productGreaterThan],
    [inplaceRightShiftLowZeroBits], [absoluteLeftShiftAlwaysCopy],
    [absoluteDivWithBigIntDivisor], [div], [mod]): short division and Knuth's
    Algorithm D, over any correct digit kernel. *)
From S2P Require Import Prelude Words BigIntRep BigIntAdd BigIntMul.

(** * Definitions *)

(** The [quotient] argument of [absoluteDivWithDigitDivisor]: [Nothing()], an
    empty handle to be allocated, or the dividend itself. *)
Inductive quotient_arg := NoQuotient | NewQuotient | InPlaceQuotient.

Inductive LeftShiftMode := SameSizeResult | AlwaysAddOneDigit.

Section definitions.
Context {P : Platform} {K : DigitKernel}.

(** The digits are divided from the top; [quotient] is the BigInt written,
    [None] when there is none. *)
Definition absoluteDivWithDigitDivisor (x : bigint) (divisor : Z) (quotient : quotient_arg)
    (quotientNegative : bool) : M (option bigint * Z) :=
  moz_assert (negb (divisor =? 0));;
  moz_assert (negb (isZero x));;
  if divisor =? 1 then
    match quotient with
    | NoQuotient => mret (None, 0)
    | _ =>
        q ← (if Bool.eqb (isNegative x) quotientNegative then mret x else neg x);
        mret (Some q, 0)
    end
  else
    let length := digitLength x in
    match quotient with
    | NoQuotient =>
        remainder ← for_down (length - 1) 0 (fun i remainder =>
            d ← digit x i;
            '(_, remainder) ← digitDiv remainder d divisor;
            mret remainder) 0;
        mret (None, remainder)
    | _ =>
        q ← (match quotient with
             | NewQuotient => createUninitialized length quotientNegative
             | _ => mret x
             end);
        '(q, remainder) ← for_down (length - 1) 0 (fun i '(q, remainder) =>
            d ← digit (match quotient with InPlaceQuotient => q | _ => x end) i;
            '(qd, remainder) ← digitDiv remainder d divisor;
            q ← setDigit q i qd;
            mret (q, remainder)) (q, 0);
        mret (Some q, remainder)
    end.

Definition absoluteInplaceAdd (this summand : bigint) (startIndex : Z) : M (bigint * Z) :=
  let n := digitLength summand in
  moz_assert (digitLength this >? startIndex);;
  moz_assert (digitLength this - startIndex >=? n);;
  for_ 0 n (fun i '(this, carry) =>
    d ← digit this (startIndex + i);
    s ← digit summand i;
    let '(sum, newCarry) := digitAdd d s 0 in
    let '(sum, newCarry) := digitAdd sum carry newCarry in
    this ← setDigit this (startIndex + i) sum;
    mret (this, newCarry)) (this, 0).

Definition absoluteInplaceSub (this subtrahend : bigint) (startIndex : Z) : M (bigint * Z) :=
  let n := digitLength subtrahend in
  moz_assert (digitLength this >? startIndex);;
  moz_assert (digitLength this - startIndex >=? n);;
  for_ 0 n (fun i '(this, borrow) =>
    d ← digit this (startIndex + i);
    s ← digit subtrahend i;
    let '(difference, newBorrow) := digitSub d s 0 in
    let '(difference, newBorrow) := digitSub difference borrow newBorrow in
    this ← setDigit this (startIndex + i) difference;
    mret (this, newBorrow)) (this, 0).

Definition productGreaterThan (factor1 factor2 high low : Z) : bool :=
  let '(resultLow, resultHigh) := digitMul factor1 factor2 in
  (resultHigh >? high) || ((resultHigh =? high) && (resultLow >? low)).

Definition inplaceRightShiftLowZeroBits (this : bigint) (shift : Z) : M bigint :=
  moz_assert (shift <? DigitBits);;
  d0 ← digit this 0;
  one ← shl 1 shift;
  moz_assert (Z.land d0 (wrap (one - 1)) =? 0);;
  if shift =? 0 then mret this
  else
    carry ← shr d0 shift;
    let last := digitLength this - 1 in
    '(this, carry) ← for_ 0 last (fun i '(this, carry) =>
        d ← digit this (i + 1);
        high ← shl d (DigitBits - shift);
        this ← setDigit this i (Z.lor high carry);
        carry ← shr d shift;
        mret (this, carry)) (this, carry);
    setDigit this last carry.

Definition absoluteLeftShiftAlwaysCopy (x : bigint) (shift : Z) (mode : LeftShiftMode) : M bigint :=
  moz_assert (shift <? DigitBits);;
  moz_assert (negb (isZero x));;
  let n := digitLength x in
  let resultLength := match mode with AlwaysAddOneDigit => n + 1 | SameSizeResult => n end in
  result ← createUninitialized resultLength (isNegative x);
  if shift =? 0 then
    result ← for_ 0 n (fun i result => d ← digit x i; setDigit result i d) result;
    match mode with
    | AlwaysAddOneDigit => setDigit result n 0
    | SameSizeResult => mret result
    end
  else
    '(result, carry) ← for_ 0 n (fun i '(result, carry) =>
        d ← digit x i;
        low ← shl d shift;
        result ← setDigit result i (Z.lor low carry);
        carry ← shr d (DigitBits - shift);
        mret (result, carry)) (result, 0);
    match mode with
    | AlwaysAddOneDigit => setDigit result n carry
    | SameSizeResult => moz_assert (carry =? 0);; mret result
    end.

(** Step D3: the estimate [qhat] of the quotient digit [j]. *)
Definition estimate_digit (shiftedDivisor : bigint) (n vn1 : Z) (u : bigint) (j : Z) : M Z :=
  let qhat := Base - 1 in
  ujn ← digit u (j + n);
  if negb (ujn =? vn1) then
    ujn1 ← digit u (j + n - 1);
    '(qhat, rhat) ← digitDiv ujn ujn1 vn1;
    vn2 ← digit shiftedDivisor (n - 2);
    ujn2 ← digit u (j + n - 2);
    loop 4 (fun '(qhat, rhat) =>
      if productGreaterThan qhat vn2 rhat ujn2 then
        let qhat := wrap (qhat - 1) in
        let prevRhat := rhat in
        let rhat := wrap (rhat + vn1) in
        mret (if rhat <? prevRhat then inr qhat else inl (qhat, rhat))
      else mret (inr qhat)) (qhat, rhat)
  else mret qhat.

(** Steps D3 and D4 for the quotient digit [j]. *)
Definition divide_step (shiftedDivisor : bigint) (n vn1 : Z) (j : Z)
    (s : option bigint * bigint * bigint) : M (option bigint * bigint * bigint) :=
  let '(q, qhatv, u) := s in
  qhat ← estimate_digit shiftedDivisor n vn1 u j;
  qhatv ← internalMultiplyAdd (Some shiftedDivisor) qhat 0 n qhatv;
  '(u, qhat) ← ('(u, c) ← absoluteInplaceSub u qhatv j;
                if negb (c =? 0) then
                  '(u, c) ← absoluteInplaceAdd u shiftedDivisor j;
                  d ← digit u (j + n);
                  u ← setDigit u (j + n) (wrap (d + c));
                  mret (u, wrap (qhat - 1))
                else mret (u, qhat));
  match q with
  | Some q => q ← setDigit q j qhat; mret (Some q, qhatv, u)
  | None => mret (None, qhatv, u)
  end.

Definition absoluteDivWithBigIntDivisor (dividend divisor : bigint) (quotient remainder : bool)
    (negative : bool) : M (option bigint * option bigint) :=
  moz_assert (digitLength divisor >=? 2);;
  moz_assert (digitLength dividend >=? digitLength divisor);;
  let n := digitLength divisor in
  let m := digitLength dividend - n in
  q ← (if quotient then q ← createUninitialized (m + 1) negative; mret (Some q) else mret None);
  qhatv ← createUninitialized (n + 1) negative;
  lastDigit ← digit divisor (n - 1);
  shift ← DigitLeadingZeroes lastDigit;
  shiftedDivisor ← (if shift >? 0 then absoluteLeftShiftAlwaysCopy divisor shift SameSizeResult
                    else mret divisor);
  u ← absoluteLeftShiftAlwaysCopy dividend shift AlwaysAddOneDigit;
  vn1 ← digit shiftedDivisor (n - 1);
  '(q, qhatv, u) ← for_down m 0 (divide_step shiftedDivisor n vn1) (q, qhatv, u);
  quotient ← match q with
             | Some q =>
                 bi ← destructivelyTrimHighZeroDigits q;
                 (* [q] is trimmed in place unless all its digits are zero *)
                 mret (Some (if isZero bi then q else bi))
             | None => mret None
             end;
  remainder ← (if remainder then u ← inplaceRightShiftLowZeroBits u shift; mret (Some u) else mret None);
  mret (quotient, remainder).

(** The value of a [RootedBigInt] that the callee has set. *)
Definition from_handle (h : option bigint) : M bigint :=
  match h with
  | Some x => mret x
  | None => throw UndefinedBehavior        (* a null pointer is dereferenced *)
  end.

Definition div (x y : bigint) : M bigint :=
  if isZero y then throw BigIntDivisionByZero
  else if isZero x then mret x
  else
    c ← absoluteCompare x y;
    if c <? 0 then zero
    else
      let resultNegative := negb (Bool.eqb (isNegative x) (isNegative y)) in
      if digitLength y =? 1 then
        divisor ← digit y 0;
        if divisor =? 1 then
          if Bool.eqb resultNegative (isNegative x) then mret x else neg x
        else
          '(quotient, _) ← absoluteDivWithDigitDivisor x divisor NewQuotient resultNegative;
          quotient ← from_handle quotient;
          destructivelyTrimHighZeroDigits quotient
      else
        '(quotient, _) ← absoluteDivWithBigIntDivisor x y true false resultNegative;
        quotient ← from_handle quotient;
        destructivelyTrimHighZeroDigits quotient.

Definition mod_ (x y : bigint) : M bigint :=
  if isZero y then throw BigIntDivisionByZero
  else if isZero x then mret x
  else
    c ← absoluteCompare x y;
    if c <? 0 then mret x
    else if digitLength y =? 1 then
      divisor ← digit y 0;
      if divisor =? 1 then zero
      else
        '(_, remainderDigit) ← absoluteDivWithDigitDivisor x divisor NoQuotient false;
        if remainderDigit =? 0 then zero
        else createFromDigit remainderDigit (isNegative x)
    else
      '(_, remainder) ← absoluteDivWithBigIntDivisor x y false true (isNegative x);
      moz_assert (match remainder with Some _ => true | None => false end);;
      remainder ← from_handle remainder;
      destructivelyTrimHighZeroDigits remainder.
End definitions.

(** * Short division *)

Section short_division.
Context {P : Platform} {K : DigitKernel}.

(** The value of the digits from [i] up. *)
Definition high (x : bigint) (i : Z) : Z := absval x / Base ^ i.

Lemma high_0 x : high x 0 = absval x.
Proof. unfold high. by rewrite Z.pow_0_r, Z.div_1_r. Qed.

Lemma high_length x : digits_ok (digits x) -> high x (digitLength x) = 0.
Proof. intros Hx. apply Z.div_small, absval_bound, Hx. Qed.

Lemma absval_split x i : digits_ok (digits x) -> 0 <= i <= digitLength x ->
  absval x = high x i * Base ^ i + pv (digits x) i /\ 0 <= high x i.
Proof.
  intros Hx Hi. unfold high. pose proof (Base_pow_pos i ltac:(lia)).
  pose proof (pv_mod (digits x) i (digitLength x) Hx Hi) as Hm. rewrite <- absval_pv in Hm.
  pose proof (Z.div_mod (absval x) (Base ^ i)). pose proof (absval_bound x Hx).
  split; [lia|apply Z.div_pos; lia].
Qed.

Lemma high_step x i : digits_ok (digits x) -> 0 <= i < digitLength x ->
  high x i = high x (i + 1) * Base + zget (digits x) i.
Proof.
  intros Hx Hi. pose proof (absval_split x i Hx ltac:(lia)) as [E0 _].
  pose proof (absval_split x (i + 1) Hx ltac:(lia)) as [E1 _]. rewrite pv_succ, Base_pow_succ in E1 by lia.
  pose proof (Base_pow_pos i ltac:(lia)). apply (Z.mul_cancel_r _ _ (Base ^ i)); lia.
Qed.

(** A division step: the next remainder and quotient digit. *)
Lemma short_step h d v : 0 < v -> digit_ok v -> digit_ok d -> 0 <= h ->
  let r := h mod v in
  digit_ok ((r * Base + d) / v) /\
  (r * Base + d) mod v = (h * Base + d) mod v /\
  (h * Base + d) / v = h / v * Base + (r * Base + d) / v.
Proof.
  intros Hv Hvok Hd Hh r. unfold digit_ok in *. pose proof Base_pos.
  assert (Hr : 0 <= r < v) by (apply Z.mod_pos_bound; lia).
  assert (E : h * Base + d = r * Base + d + h / v * Base * v)
    by (unfold r; pose proof (Z.div_mod h v ltac:(lia)) as E; rewrite E at 1; ring).
  rewrite E, Z.mod_add, Z.div_add by lia.
  assert (r * Base <= (v - 1) * Base) by (apply Z.mul_le_mono_nonneg_r; lia).
  assert (0 <= r * Base) by (apply Z.mul_nonneg_nonneg; lia).
  split_and!; [apply Z.div_pos; lia|apply Z.div_lt_upper_bound; lia|done|lia].
Qed.

Lemma short_remainder x v : digits_ok (digits x) -> 0 < v -> digit_ok v ->
  wp (for_down (digitLength x - 1) 0 (fun i remainder =>
        d ← digit x i;
        '(_, remainder) ← digitDiv remainder d v;
        mret remainder) 0)
    (fun r => r = absval x mod v) no_error.
Proof.
  intros Hx Hv Hvok. pose proof (digitLength_nonneg x).
  eapply (wp_for_down (fun i r => r = high x (i + 1) mod v)).
  { lia. }
  { replace (digitLength x - 1 + 1) with (digitLength x) by lia. by rewrite high_length. }
  { intros i r Hi ->. wp_step. apply wp_digit; [lia|]. pose proof (digits_ok_get _ i Hx) as Hd.
    assert (Hm : 0 <= high x (i + 1) mod v < v) by (apply Z.mod_pos_bound; lia).
    wp_step. wp_call digitDiv_ok; [done|done|done|]. intros [qd r'] [= -> ->]. wp_step.
    pose proof (absval_split x (i + 1) Hx ltac:(lia)) as [_ Hh].
    pose proof (short_step (high x (i + 1)) _ v Hv Hvok Hd Hh) as (_ & -> & _).
    replace (i - 1 + 1) with i by lia. by rewrite <- high_step by (done || lia). }
  intros r ->. replace (0 - 1 + 1) with 0 by lia. by rewrite high_0.
Qed.

(** The invariant of the loop that also writes the quotient. *)
Definition short_inv (x : bigint) (v : Z) (aliased neg : bool) (i : Z) (s : bigint * Z) : Prop :=
  let '(q, r) := s in
  shape neg (digitLength x) q /\ r = high x (i + 1) mod v /\
  (aliased = true -> forall k, k <= i -> zget (digits q) k = zget (digits x) k) /\
  absval q = high x (i + 1) / v * Base ^ (i + 1) + pv (digits q) (i + 1).

Lemma short_division_spec x v q0 aliased neg : digits_ok (digits x) -> 1 < v -> digit_ok v ->
  shape neg (digitLength x) q0 -> (aliased = true -> q0 = x) ->
  wp (for_down (digitLength x - 1) 0 (fun i '(q, remainder) =>
        d ← digit (if aliased then q else x) i;
        '(qd, remainder) ← digitDiv remainder d v;
        q ← setDigit q i qd;
        mret (q, remainder)) (q0, 0))
    (fun '(q, r) => shape neg (digitLength x) q /\ absval q = absval x / v /\ r = absval x mod v) no_error.
Proof.
  intros Hx Hv Hvok Hq0 Hal. pose proof (digitLength_nonneg x). pose proof Base_pos.
  eapply (wp_for_down (short_inv x v aliased neg)).
  { lia. }
  { unfold short_inv. replace (digitLength x - 1 + 1) with (digitLength x) by lia. rewrite high_length by done.
    split; [done|]. split; [by rewrite Z.mod_0_l by lia|]. split; [by intros E; rewrite Hal|].
    rewrite Z.div_0_l by lia. destruct Hq0 as (_ & E & _). by rewrite absval_pv, E. }
  { intros i [q r] Hi (Hq & -> & Ha & Hval). wp_step. pose proof Hq as (_ & Hl & Hqd).
    assert (Hget : zget (digits (if aliased then q else x)) i = zget (digits x) i)
      by (destruct aliased; [by rewrite Ha by (done || lia)|done]).
    apply wp_digit; [destruct aliased; lia|]. rewrite Hget. pose proof (digits_ok_get _ i Hx) as Hd.
    assert (Hm : 0 <= high x (i + 1) mod v < v) by (apply Z.mod_pos_bound; lia).
    wp_step. wp_call digitDiv_ok; [done|done|done|]. intros [qd r'] [= -> ->]. wp_step.
    pose proof (absval_split x (i + 1) Hx ltac:(lia)) as [_ Hh].
    pose proof (short_step (high x (i + 1)) _ v ltac:(lia) Hvok Hd Hh) as (Hok & Hr & Hdiv).
    apply wp_setDigit; [lia|]. wp_step. unfold short_inv. replace (i - 1 + 1) with i by lia.
    rewrite (high_step x i) by (done || lia). split; [by apply shape_with_digit|]. split; [done|]. split.
    - intros E k Hk. unfold with_digit. cbn [digits]. rewrite zget_zset_other by lia. apply Ha; [done|lia].
    - rewrite absval_with_digit, Hdiv, Hval, pv_succ, Base_pow_succ by lia. unfold with_digit. cbn [digits].
      rewrite pv_zset_low by lia. ring. }
  intros [q r] (Hq & Hr & _ & Hval). replace (0 - 1 + 1) with 0 in * by lia.
  rewrite high_0, pv_0, Z.pow_0_r in *. split; [done|]. split; [lia|done].
Qed.
End short_division.

(** * Shifting whole digit vectors *)

Section shifting.
Context {P : Platform}.

(** The two halves of a shifted digit, and the digit assembled from a
    shifted digit and what the neighbour shifted out. *)
Lemma shift_column d s c : digit_ok d -> 0 < s < DigitBits -> 0 <= c < 2 ^ s ->
  let low := wrap (d * 2 ^ s) in let out := d / 2 ^ (DigitBits - s) in
  digit_ok (Z.lor low c) /\ 0 <= out < 2 ^ s /\ Z.lor low c + out * Base = d * 2 ^ s + c.
Proof.
  intros Hd Hs Hc low out. unfold digit_ok in Hd. assert (EB : Base = 2 ^ s * 2 ^ (DigitBits - s)) by (apply Base_split; lia).
  assert (0 < 2 ^ s) by (apply Z.pow_pos_nonneg; lia).
  assert (0 < 2 ^ (DigitBits - s)) by (apply Z.pow_pos_nonneg; lia).
  assert (Hdm : d = 2 ^ (DigitBits - s) * out + d mod 2 ^ (DigitBits - s)) by (apply Z.div_mod; lia).
  assert (Hmb : 0 <= d mod 2 ^ (DigitBits - s) < 2 ^ (DigitBits - s)) by (apply Z.mod_pos_bound; lia).
  set (rest := d mod 2 ^ (DigitBits - s)) in *.
  assert (Hout : 0 <= out < 2 ^ s) by (split; [apply Z.div_pos; lia|apply Z.div_lt_upper_bound; lia]).
  assert (Hlow : low = rest * 2 ^ s).
  { unfold low, wrap. symmetry. apply Z.mod_unique_pos with out.
    - split; [apply Z.mul_nonneg_nonneg; lia|]. rewrite EB.
      rewrite (Z.mul_comm (2 ^ s)). apply Z.mul_lt_mono_pos_r; lia.
    - rewrite Hdm at 1. rewrite EB. ring. }
  rewrite Hlow, lor_disjoint_add by lia. split; [|split; [done|]].
  - unfold digit_ok. rewrite EB.
    assert (rest * 2 ^ s <= (2 ^ (DigitBits - s) - 1) * 2 ^ s) by (apply Z.mul_le_mono_nonneg_r; lia).
    assert (0 <= rest * 2 ^ s) by (apply Z.mul_nonneg_nonneg; lia). lia.
  - rewrite Hdm, EB. ring.
Qed.

(** The invariant of a loop that shifts left by [s] bits. *)
Definition lshift_inv (x : bigint) (neg : bool) (n s i : Z) (st : bigint * Z) : Prop :=
  let '(r, c) := st in
  0 <= c < 2 ^ s /\ filled neg n (pv (digits x) i * 2 ^ s - c * Base ^ i) i r.

Lemma lshift_loop x neg n s r0 (Q : bigint * Z -> Prop) E :
  wf x -> shape neg n r0 -> digitLength x <= n -> 0 < s < DigitBits ->
  (forall r c, lshift_inv x neg n s (digitLength x) (r, c) -> Q (r, c)) ->
  wp (for_ 0 (digitLength x) (fun i '(result, carry) =>
        d ← digit x i;
        low ← shl d s;
        result ← setDigit result i (Z.lor low carry);
        carry ← shr d (DigitBits - s);
        mret (result, carry)) (r0, 0)) Q E.
Proof.
  intros Hx Hr0 Hn Hs HQ. pose proof (digitLength_nonneg x).
  assert (0 < 2 ^ s) by (apply Z.pow_pos_nonneg; lia).
  eapply (wp_for (lshift_inv x neg n s)); [lia|..].
  - split; [lia|]. rewrite pv_0. by apply filled_0.
  - intros i [r c] Hi [Hc Hf]. wp_step. apply wp_digit; [lia|]. wp_step. apply wp_shl; [lia|].
    pose proof (shift_column _ s c (wf_digit x i Hx) Hs Hc) as (Hok & Hout & Heq).
    wp_step. eapply wp_fill; [done|lia|done|]. intros Hf'. wp_step. apply wp_shr; [lia|]. wp_step.
    split; [done|]. rewrite pv_succ, Base_pow_succ by lia.
    replace ((pv (digits x) i + _) * _ - _) with
      (pv (digits x) i * 2 ^ s - c * Base ^ i + Z.lor (wrap (zget (digits x) i * 2 ^ s)) c * Base ^ i); [done|].
    apply (f_equal (fun z => z * Base ^ i)) in Heq. lia.
  - intros [r c] Hinv. by apply HQ.
Qed.

Lemma absoluteLeftShift_spec x s mode : wf x -> 0 < digitLength x -> 0 <= s < DigitBits ->
  (mode = SameSizeResult -> absval x * 2 ^ s < Base ^ digitLength x) ->
  let n := match mode with AlwaysAddOneDigit => digitLength x + 1 | SameSizeResult => digitLength x end in
  wp (absoluteLeftShiftAlwaysCopy x s mode)
    (fun r => shape (isNegative x) n r /\ absval r = absval x * 2 ^ s /\ n <= MaxDigitLength)
    (fun e => e = BigIntTooLarge /\ MaxDigitLength < n).
Proof.
  intros Hx Hpos Hs Hfits n. pose proof (wf_length x Hx). pose proof Base_big.
  assert (Hend : forall v r k, filled (isNegative x) k v k r ->
    k <= MaxDigitLength -> shape (isNegative x) k r /\ absval r = v /\ k <= MaxDigitLength).
  { intros v r k [Hr Hv] Hk. split; [done|]. split; [|done]. rewrite absval_pv. by destruct Hr as (_ & -> & _). }
  unfold absoluteLeftShiftAlwaysCopy. wp_step. wp_step; [lia|]. wp_step. wp_step; [unfold isZero; lia|].
  wp_step. apply wp_create; [destruct mode; lia|done|]. fold n. intros r0 Hmax Hr0.
  wp_step; bsplit; wp_step.
  - rewrite Hc, Z.pow_0_r, Z.mul_1_r. eapply (wp_for (fun i => filled (isNegative x) n (pv (digits x) i) i)); [lia|..].
    { rewrite pv_0. by apply filled_0. }
    { intros i r Hi Hr. wp_step. apply wp_digit; [lia|].
      eapply wp_fill; [done|unfold n; destruct mode; lia|by apply wf_digit|]. rewrite <- pv_succ by lia. done. }
    intros r Hr. rewrite <- absval_pv in Hr. destruct mode; [wp_step; by apply Hend|].
    eapply wp_fill; [done|unfold n; lia|unfold digit_ok; lia|]. rewrite Z.mul_0_l, Z.add_0_r. intros Hf. by apply Hend.
  - eapply lshift_loop; [done|done|unfold n; destruct mode; lia|lia|]. intros r c [Hc' Hf]. rewrite <- absval_pv in Hf.
    destruct mode.
    + assert (c = 0) as ->.
      { destruct Hf as [(_ & _ & Hd) Hf]. pose proof (pv_bound (digits r) (digitLength x) Hd ltac:(lia)).
        specialize (Hfits eq_refl). destruct (Z.eq_dec c 0); [done|].
        assert (1 * Base ^ digitLength x <= c * Base ^ digitLength x) by (apply Z.mul_le_mono_nonneg_r; lia). lia. }
      wp_step. wp_step; [done|]. wp_step. rewrite Z.mul_0_l, Z.sub_0_r in Hf. by apply Hend.
    + assert (2 ^ s < Base) by (unfold Base; apply Z.pow_lt_mono_r; lia).
      eapply wp_fill; [done|unfold n; lia|unfold digit_ok; lia|]. clear Hf. intros Hf. apply Hend; [|done]. unfold n.
      by replace (absval x * 2 ^ s - c * Base ^ digitLength x + c * Base ^ digitLength x) with (absval x * 2 ^ s) in Hf by lia.
Qed.

(** Shifting away zero bits divides exactly. *)
Lemma inplaceRightShift_spec r s neg n : shape neg n r -> 0 < n -> 0 <= s < DigitBits -> (2 ^ s | absval r) ->
  wp (inplaceRightShiftLowZeroBits r s)
    (fun r' => shape neg n r' /\ absval r' = absval r / 2 ^ s) no_error.
Proof.
  intros Hr Hn Hs Hdiv. pose proof Hr as (Hsg & Hl & Hd). pose proof Base_big.
  assert (H2s : 0 < 2 ^ s) by (apply Z.pow_pos_nonneg; lia).
  assert (H2b : 2 ^ s < Base) by (unfold Base; apply Z.pow_lt_mono_r; lia).
  assert (Hd0 : zget (digits r) 0 mod 2 ^ s = 0).
  { pose proof (absval_split r 1 Hd ltac:(lia)) as [E _]. rewrite pv_1, Z.pow_1_r in E.
    apply Z.mod_divide; [lia|]. replace (zget (digits r) 0) with (absval r - high r 1 * Base) by lia.
    apply Z.divide_sub_r; [done|]. rewrite (Base_split s) by lia. exists (high r 1 * 2 ^ (DigitBits - s)). ring. }
  unfold inplaceRightShiftLowZeroBits. wp_step. wp_step; [lia|]. wp_step. apply wp_digit; [lia|].
  wp_step. apply wp_shl; [lia|]. rewrite Z.mul_1_l, (wrap_small (2 ^ s)) by (unfold digit_ok; lia).
  rewrite wrap_small by (unfold digit_ok; lia). wp_step.
  replace (2 ^ s - 1) with (Z.ones s) by (rewrite Z.ones_equiv; lia). rewrite Z.land_ones, Hd0 by lia.
  wp_step; [done|]. wp_step; bsplit.
  { wp_step. by rewrite Hc, Z.pow_0_r, Z.div_1_r. }
  wp_step. apply wp_shr; [lia|]. wp_step. rewrite Hl.
  set (t := DigitBits - s). assert (Ht : 0 < t < DigitBits) by (unfold t; lia).
  assert (H2t : 0 < 2 ^ t) by (apply Z.pow_pos_nonneg; lia).
  assert (EB : Base = 2 ^ s * 2 ^ (DigitBits - s)) by (apply Base_split; lia). fold t in EB.
  eapply (wp_for (fun i '(q, c) => shape neg n q /\ 0 <= c < 2 ^ t /\
    (forall k, i <= k -> zget (digits q) k = zget (digits r) k) /\
    (pv (digits q) i + c * Base ^ i) * 2 ^ s = pv (digits r) (i + 1))); [lia|..].
  - split; [done|]. pose proof (digits_ok_get _ 0 Hd) as Hg. unfold digit_ok in Hg.
    split; [split; [apply Z.div_pos; lia|apply Z.div_lt_upper_bound; lia]|]. split; [done|].
    rewrite pv_0, Z.pow_0_r, pv_1. pose proof (Z.div_mod (zget (digits r) 0) (2 ^ s)). lia.
  - intros i [q c] Hi (Hq & Hcb & Hkeep & Heq). wp_step. pose proof Hq as (_ & Hlq & Hdq). apply wp_digit; [lia|].
    pose proof (digits_ok_get _ (i + 1) Hdq) as Hdi. pose proof (shift_column _ t c Hdi Ht Hcb) as (Hok & Hout & Hsc).
    replace (DigitBits - t) with s in * by (unfold t; lia).
    wp_step. apply wp_shl; [lia|]. wp_step. apply wp_setDigit; [lia|]. wp_step. apply wp_shr; [lia|]. wp_step.
    split; [by apply shape_with_digit|]. split; [done|]. unfold with_digit, digitLength in *. cbn [digits]. split.
    + intros k Hk. rewrite zget_zset_other by lia. apply Hkeep. lia.
    + rewrite pv_zset_next, (pv_succ _ (i + 1)), <- Heq, <- (Hkeep (i + 1)) by lia.
      set (d := zget (digits q) (i + 1)) in *. rewrite Base_pow_succ by lia.
      replace (d * (Base * Base ^ i)) with (d * 2 ^ t * Base ^ i * 2 ^ s) by (rewrite EB; ring).
      apply (f_equal (fun z => z * Base ^ i * 2 ^ s)) in Hsc. lia.
  - intros [q c] (Hq & Hcb & _ & Heq). pose proof Hq as (_ & Hlq & Hdq).
    assert (2 ^ t < Base) by (unfold Base; apply Z.pow_lt_mono_r; lia).
    apply wp_setDigit; [lia|]. split; [apply shape_with_digit; [done|unfold digit_ok; lia]|].
    replace (n - 1 + 1) with n in Heq by lia. rewrite (absval_pv r), Hl, <- Heq, Z.div_mul by lia.
    rewrite absval_with_digit, absval_pv, Hlq by lia.
    replace (pv (digits q) n) with (pv (digits q) (n - 1 + 1)) by (f_equal; lia). rewrite pv_succ by lia. lia.
Qed.
End shifting.

(** * Adding and subtracting in place *)

Section inplace.
Context {P : Platform}.

(** What an in-place operation at [start] over [k] digits leaves alone. *)
Definition window (neg : bool) (len : Z) (u0 u : bigint) (start k : Z) : Prop :=
  shape neg len u /\ (forall i, start + k <= i -> zget (digits u) i = zget (digits u0) i).

Lemma window_step neg len u0 u start k d : window neg len u0 u start k -> 0 <= start + k < len -> digit_ok d ->
  window neg len u0 (with_digit u (start + k) d) start (k + 1).
Proof.
  intros [Hu Hk] Hi Hd. split; [by apply shape_with_digit|]. intros i Hi'. unfold with_digit. cbn [digits].
  rewrite zget_zset_other by lia. apply Hk. lia.
Qed.

Lemma absoluteInplaceSub_spec u y start neg len : shape neg len u -> digits_ok (digits y) ->
  0 <= start -> start < len -> start + digitLength y <= len ->
  wp (absoluteInplaceSub u y start)
    (fun '(u', c) => window neg len u u' start (digitLength y) /\ 0 <= c <= 1 /\
       pv (digits u') (start + digitLength y) =
       pv (digits u) (start + digitLength y) - absval y * Base ^ start + c * Base ^ (start + digitLength y))
    no_error.
Proof.
  intros Hu Hy Hst Hlt Hlen. pose proof (digitLength_nonneg y). unfold absoluteInplaceSub.
  pose proof Hu as (_ & Hl & _). wp_step. wp_step; [lia|]. wp_step. wp_step; [lia|].
  eapply (wp_for (fun i '(u', c) => window neg len u u' start i /\ 0 <= c <= 1 /\
     pv (digits u') (start + i) = pv (digits u) (start + i) - pv (digits y) i * Base ^ start + c * Base ^ (start + i))); [lia|..].
  - split; [by split|]. split; [lia|]. rewrite pv_0. lia.
  - intros i [u' c] Hi (Hw & Hc & Heq). pose proof Hw as [(_ & Hl' & Hd') Hkeep].
    wp_step. apply wp_digit; [lia|]. wp_step. apply wp_digit; [lia|].
    pose proof (sub_column _ _ c (digits_ok_get _ (start + i) Hd') (digits_ok_get _ i Hy) Hc) as Hcol.
    destruct (digitSub _ _ 0) as [s1 c1], (digitSub s1 c c1) as [s2 c2]. destruct Hcol as (Hs & Hc2 & Hcol).
    wp_step. apply wp_setDigit; [lia|]. wp_step. split; [apply window_step; [done|lia|done]|]. split; [done|].
    unfold with_digit, digitLength in *. cbn [digits]. rewrite Z.add_assoc, pv_zset_next, Heq by lia.
    rewrite !pv_succ, Base_pow_succ, Z.mul_add_distr_r, <- Z.mul_assoc, <- Z.pow_add_r by lia.
    rewrite (Z.add_comm i start). rewrite Hkeep in Hcol by lia.
    apply (f_equal (fun z => z * Base ^ (start + i))) in Hcol. lia.
  - intros [u' c]. rewrite absval_pv. done.
Qed.

Lemma absoluteInplaceAdd_spec u y start neg len : shape neg len u -> digits_ok (digits y) ->
  0 <= start -> start < len -> start + digitLength y <= len ->
  wp (absoluteInplaceAdd u y start)
    (fun '(u', c) => window neg len u u' start (digitLength y) /\ 0 <= c <= 1 /\
       pv (digits u') (start + digitLength y) =
       pv (digits u) (start + digitLength y) + absval y * Base ^ start - c * Base ^ (start + digitLength y))
    no_error.
Proof.
  intros Hu Hy Hst Hlt Hlen. pose proof (digitLength_nonneg y). unfold absoluteInplaceAdd.
  pose proof Hu as (_ & Hl & _). wp_step. wp_step; [lia|]. wp_step. wp_step; [lia|].
  eapply (wp_for (fun i '(u', c) => window neg len u u' start i /\ 0 <= c <= 1 /\
     pv (digits u') (start + i) = pv (digits u) (start + i) + pv (digits y) i * Base ^ start - c * Base ^ (start + i))); [lia|..].
  - split; [by split|]. split; [lia|]. rewrite pv_0. lia.
  - intros i [u' c] Hi (Hw & Hc & Heq). pose proof Hw as [(_ & Hl' & Hd') Hkeep].
    wp_step. apply wp_digit; [lia|]. wp_step. apply wp_digit; [lia|].
    pose proof (add_column _ _ c (digits_ok_get _ (start + i) Hd') (digits_ok_get _ i Hy) Hc) as Hcol.
    destruct (digitAdd _ _ 0) as [s1 c1], (digitAdd s1 c c1) as [s2 c2]. destruct Hcol as (Hs & Hc2 & Hcol).
    wp_step. apply wp_setDigit; [lia|]. wp_step. split; [apply window_step; [done|lia|done]|]. split; [done|].
    unfold with_digit, digitLength in *. cbn [digits]. rewrite Z.add_assoc, pv_zset_next, Heq by lia.
    rewrite !pv_succ, Base_pow_succ, Z.mul_add_distr_r, <- Z.mul_assoc, <- Z.pow_add_r by lia.
    rewrite (Z.add_comm i start). rewrite Hkeep in Hcol by lia.
    apply (f_equal (fun z => z * Base ^ (start + i))) in Hcol. lia.
  - intros [u' c]. rewrite absval_pv. done.
Qed.
End inplace.

(** * The quotient estimate of Algorithm D *)

Section estimate.
Context {P : Platform} {K : DigitKernel}.

Lemma productGreaterThan_spec a b h l : digit_ok a -> digit_ok b -> digit_ok h -> digit_ok l ->
  productGreaterThan a b h l = (h * Base + l <? a * b).
Proof.
  intros Ha Hb Hh Hl. unfold productGreaterThan. pose proof (mul_column a b Ha Hb) as Hm.
  destruct (digitMul a b) as [lo hi]. destruct Hm as (Hlo & Hhi & <-). unfold digit_ok in *.
  destruct (Z.gtb_spec hi h).
  - assert ((h + 1) * Base <= hi * Base) by (apply Z.mul_le_mono_nonneg_r; lia). lia.
  - destruct (Z.eqb_spec hi h) as [->|]; [lia|].
    assert ((hi + 1) * Base <= h * Base) by (apply Z.mul_le_mono_nonneg_r; lia). lia.
Qed.

(** The three leading digits of the dividend against the two leading digits
    of the divisor. *)
Lemma lead_bound q vn1 vn2 u2 un : 0 <= vn2 -> 0 < vn1 -> digit_ok un -> 0 <= q ->
  q * (vn1 * Base + vn2) <= u2 * Base + un -> q <= u2 / vn1.
Proof.
  intros Hv2 Hv1 Hun Hq Hle. unfold digit_ok in Hun. apply Z.div_le_lower_bound; [lia|].
  assert (0 <= q * vn2) by (apply Z.mul_nonneg_nonneg; lia). pose proof Base_pos.
  assert (vn1 * q < u2 + 1); [|lia]. apply (Z.mul_lt_mono_pos_r Base); [lia|].
  replace (vn1 * q * Base) with (q * (vn1 * Base)) by ring. lia.
Qed.

(** The correction loop finds the exact quotient of the leading digits. *)
Lemma estimate_loop vn1 vn2 u2 un q0 r0 :
  digit_ok vn1 -> Base <= 2 * vn1 -> digit_ok vn2 -> digit_ok un -> digit_ok q0 -> 0 <= r0 < vn1 ->
  q0 * vn1 + r0 = u2 ->
  wp (loop 4 (fun '(qhat, rhat) =>
      if productGreaterThan qhat vn2 rhat un then
        let qhat := wrap (qhat - 1) in
        let prevRhat := rhat in
        let rhat := wrap (rhat + vn1) in
        mret (if rhat <? prevRhat then inr qhat else inl (qhat, rhat))
      else mret (inr qhat)) (q0, r0))
    (fun q => digit_ok q /\ q = (u2 * Base + un) / (vn1 * Base + vn2)) no_error.
Proof.
  intros Hv1 Hbig Hv2 Hun Hq0 Hr0 Hu2. pose proof Base_big. unfold digit_ok in *.
  set (v2 := vn1 * Base + vn2). set (u3 := u2 * Base + un).
  assert (Hv1B : 0 < vn1 * Base) by (apply Z.mul_pos_pos; lia).
  assert (Hr0B : r0 * Base <= (vn1 - 1) * Base) by (apply Z.mul_le_mono_nonneg_r; lia).
  assert (Hu2pos : 0 <= u2) by (assert (0 <= q0 * vn1) by (apply Z.mul_nonneg_nonneg; lia); lia).
  assert (Hu2B : 0 <= u2 * Base) by (apply Z.mul_nonneg_nonneg; lia).
  assert (Hu3pos : 0 <= u3 / v2) by (apply Z.div_pos; lia).
  (* when the test fails, the estimate is exact *)
  assert (Hexact : forall q, 0 <= q -> u3 / v2 <= q -> q * v2 <= u3 -> q = u3 / v2).
  { intros q Hq Hle Hmul. assert (q <= u3 / v2) by (apply Z.div_le_lower_bound; lia). lia. }
  eapply (wp_loop (fun '(q, r) => 0 <= q < Base /\ 0 <= r < Base /\ q * vn1 + r = u2 /\ u3 / v2 <= q)
            (fun '(q, r) => (Base - 1 - r) / vn1)).
  { split_and!; try lia. assert (u3 / v2 <= u2 / vn1).
    { apply (lead_bound _ vn1 vn2 u2 un); try done; try lia. rewrite (Z.mul_comm _ v2). apply Z.mul_div_le. lia. }
    replace (u2 / vn1) with q0 in *; [done|]. apply Z.div_unique_pos with r0; lia. }
  { assert ((Base - 1 - r0) / vn1 < 2) by (apply Z.div_lt_upper_bound; lia). lia. }
  { intros [q r] Hi. apply Z.div_pos; lia. }
  intros [q r] (Hq & Hr & Heq & Hle).
  rewrite productGreaterThan_spec by (unfold digit_ok; lia).
  assert (Hqv : q * v2 = u2 * Base - r * Base + q * vn2) by (rewrite <- Heq; unfold v2; ring).
  wp_step; bsplit.
  - assert (Hq1 : 0 < q). { destruct (Z.eq_dec q 0) as [->|]; [|lia]. assert (0 <= r * Base) by (apply Z.mul_nonneg_nonneg; lia). lia. }
    assert (Hdec : u3 / v2 <= q - 1).
    { assert (u3 / v2 < q) by (apply Z.div_lt_upper_bound; lia). lia. }
    rewrite (wrap_small (q - 1)) by (unfold digit_ok; lia).
    destruct (Z_lt_le_dec (r + vn1) Base).
    + rewrite wrap_small by (unfold digit_ok; lia). wp_step. destruct (Z.ltb_spec (r + vn1) r); [lia|].
      split; [split_and!; lia|].
      replace (Base - 1 - (r + vn1)) with (Base - 1 - r + (-1) * vn1) by lia. rewrite Z.div_add by lia. lia.
    + assert (wrap (r + vn1) = r + vn1 - Base) as -> by (unfold wrap; symmetry; apply Z.mod_unique_pos with 1; lia).
      wp_step. destruct (Z.ltb_spec (r + vn1 - Base) r); [|lia]. split; [lia|]. apply Hexact; [lia|done|].
      assert ((q - 1) * vn2 <= (Base - 1) * (Base - 1)) by (apply Z.mul_le_mono_nonneg; lia).
      assert (Base * Base <= (r + vn1) * Base) by (apply Z.mul_le_mono_nonneg_r; lia).
      replace ((q - 1) * v2) with (u2 * Base - (r + vn1) * Base + (q - 1) * vn2)
        by (rewrite <- Heq; unfold v2; ring). unfold u3. lia.
  - wp_step. split; [lia|]. apply Hexact; [lia|done|]. unfold u3. lia.
Qed.

(** Knuth, Theorems A and B of 4.3.1: a quotient digit is at most one less
    than its estimate.  [T] weighs the digits below the leading ones. *)
Lemma knuth_bound vn1 vn2 ujn ujn1 ujn2 T vl al q :
  digit_ok vn1 -> Base <= 2 * vn1 -> digit_ok vn2 -> digit_ok ujn1 -> digit_ok ujn2 ->
  0 <= ujn <= vn1 -> 0 < T -> 0 <= vl < T -> 0 <= al < T ->
  let v := (vn1 * Base + vn2) * T + vl in
  let u3 := (ujn * Base + ujn1) * Base + ujn2 in
  let a := u3 * T + al in
  a < v * Base ->
  (ujn = vn1 -> q = Base - 1) -> (ujn < vn1 -> q = u3 / (vn1 * Base + vn2)) -> 0 <= q < Base ->
  q - 1 <= a / v <= q.
Proof.
  intros Hv1 Hbig Hv2 Hu1 Hu2 Hun HT Hvl Hal v u3 a Hav Heq Hlt Hq. pose proof Base_big. unfold digit_ok in *.
  set (v2 := vn1 * Base + vn2) in *.
  assert (Hv1B : 0 < vn1 * Base) by (apply Z.mul_pos_pos; lia).
  assert (HBT : Base * T <= v2 * T) by (apply Z.mul_le_mono_nonneg_r; [lia|];
    assert (1 * Base <= vn1 * Base) by (apply Z.mul_le_mono_nonneg_r; lia); lia).
  assert (0 < v) by (unfold v; lia).
  assert (0 <= ujn * Base) by (apply Z.mul_nonneg_nonneg; lia).
  assert (0 <= (ujn * Base + ujn1) * Base) by (apply Z.mul_nonneg_nonneg; lia).
  assert (0 <= u3 * T) by (apply Z.mul_nonneg_nonneg; lia).
  assert (Hqvl : q * vl <= (Base - 1) * T) by (apply Z.mul_le_mono_nonneg; lia).
  assert (Hup : (q - 1) * v <= a -> q - 1 <= a / v) by (intros; apply Z.div_le_lower_bound; lia).
  destruct (Z.eq_dec ujn vn1) as [E|E].
  - specialize (Heq E). subst q. split.
    + apply Hup. assert (a >= vn1 * Base * Base * T).
      { unfold a, u3. rewrite E. assert (0 <= ujn1 * Base * T) by (repeat apply Z.mul_nonneg_nonneg; lia).
        assert (0 <= ujn2 * T) by (apply Z.mul_nonneg_nonneg; lia). lia. }
      assert ((vn2 + 1) * T <= Base * T) by (apply Z.mul_le_mono_nonneg_r; lia).
      assert (Hvb : v <= (vn1 * Base + Base) * T) by (unfold v, v2; lia).
      assert ((Base - 1 - 1) * v <= (Base - 1 - 1) * ((vn1 * Base + Base) * T)) by (apply Z.mul_le_mono_nonneg_l; lia).
      assert (0 <= (2 * vn1 + 2 - Base) * (Base * T)) by (apply Z.mul_nonneg_nonneg; [lia|apply Z.mul_nonneg_nonneg; lia]). lia.
    + assert (a / v < Base) by (apply Z.div_lt_upper_bound; lia). lia.
  - specialize (Hlt ltac:(lia)).
    assert (Hqv2 : q * v2 <= u3) by (rewrite Hlt, Z.mul_comm; apply Z.mul_div_le; lia).
    assert (Hqv2' : u3 < (q + 1) * v2).
    { pose proof (Z.mul_succ_div_gt u3 v2 ltac:(lia)) as Hg. rewrite <- Hlt in Hg. lia. }
    assert (q * v2 * T <= u3 * T) by (apply Z.mul_le_mono_nonneg_r; lia).
    split.
    + apply Hup. unfold v, a in *. lia.
    + assert (a / v < q + 1); [|lia]. apply Z.div_lt_upper_bound; [lia|].
      assert ((u3 + 1) * T <= (q + 1) * v2 * T) by (apply Z.mul_le_mono_nonneg_r; lia).
      assert (0 <= vl * (q + 1)) by (apply Z.mul_nonneg_nonneg; lia). unfold v, a. lia.
Qed.
End estimate.

(** * Algorithm D *)

Section long_division.
Context {P : Platform} {K : DigitKernel}.

(** The normalised divisor: [n >= 2] digits, the top one at least half the
    base. *)
Context (vd : bigint) (n : Z).
Hypothesis vd_length : digitLength vd = n.
Hypothesis vd_digits : digits_ok (digits vd).
Hypothesis n_big : 2 <= n.
Local Abbreviation v := (absval vd).
Local Abbreviation vn1 := (zget (digits vd) (n - 1)).
Hypothesis vn1_big : Base <= 2 * vn1.

Lemma divisor_leading : v = (vn1 * Base + zget (digits vd) (n - 2)) * Base ^ (n - 2) + pv (digits vd) (n - 2).
Proof.
  rewrite absval_pv, vd_length. replace n with (n - 2 + 1 + 1) at 1 by lia.
  rewrite !pv_succ, Base_pow_succ by lia. replace (n - 2 + 1) with (n - 1) by lia. ring.
Qed.

Lemma divisor_lower : Base ^ n <= 2 * v /\ v < Base ^ n.
Proof.
  split; [|rewrite <- vd_length; by apply absval_bound]. rewrite absval_pv, vd_length.
  replace (Base ^ n) with (Base * Base ^ (n - 1)) by (rewrite <- Base_pow_succ by lia; f_equal; lia).
  replace (pv (digits vd) n) with (pv (digits vd) (n - 1 + 1)) by (f_equal; lia). rewrite pv_succ by lia.
  pose proof (pv_bound (digits vd) (n - 1) vd_digits ltac:(lia)). pose proof (Base_pow_pos (n - 1) ltac:(lia)).
  assert (Base * Base ^ (n - 1) <= 2 * vn1 * Base ^ (n - 1)) by (apply Z.mul_le_mono_nonneg_r; lia). lia.
Qed.

Lemma dividend_leading u j : 0 <= j -> digits_ok (digits u) ->
  pv (digits u) (j + n + 1) / Base ^ j =
  ((zget (digits u) (j + n) * Base + zget (digits u) (j + n - 1)) * Base + zget (digits u) (j + n - 2)) * Base ^ (n - 2)
  + pv (digits u) (j + n - 2) / Base ^ j /\
  0 <= pv (digits u) (j + n - 2) / Base ^ j < Base ^ (n - 2).
Proof.
  intros Hj Hu. pose proof (Base_pow_pos j Hj). pose proof (pv_bound (digits u) (j + n - 2) Hu ltac:(lia)) as Hb.
  split.
  - rewrite <- Z.div_add_l by lia. f_equal.
    replace (j + n + 1) with (j + n - 2 + 1 + 1 + 1) by lia. rewrite !pv_succ, !Base_pow_succ by lia.
    replace (j + n - 2 + 1 + 1) with (j + n) by lia. replace (j + n - 2 + 1) with (j + n - 1) by lia.
    assert (E : Base ^ (j + n - 2) = Base ^ (n - 2) * Base ^ j) by (rewrite <- Z.pow_add_r by lia; f_equal; lia).
    rewrite E. ring.
  - split; [apply Z.div_pos; lia|]. apply Z.div_lt_upper_bound; [lia|]. rewrite <- Z.pow_add_r by lia.
    replace (j + (n - 2)) with (j + n - 2) by lia. lia.
Qed.

(** The estimate brackets the quotient digit of the remaining dividend. *)
Lemma estimate_spec u len neg j : shape neg len u -> 0 <= j -> j + n < len ->
  pv (digits u) (j + n + 1) < v * Base ^ (j + 1) ->
  wp (estimate_digit vd n vn1 u j)
    (fun qhat => digit_ok qhat /\
       (qhat - 1) * v * Base ^ j <= pv (digits u) (j + n + 1) < (qhat + 1) * v * Base ^ j) no_error.
Proof.
  intros (_ & Hl & Hu) Hj Hlen Hlt. pose proof Base_big. pose proof (Base_pow_pos j Hj) as HBj.
  pose proof (Base_pow_pos (n - 2) ltac:(lia)). pose proof divisor_lower as [Hv1 Hv2].
  set (X := pv (digits u) (j + n + 1)) in *.
  pose proof (pv_bound (digits u) (j + n + 1) Hu ltac:(lia)) as HX. fold X in HX.
  destruct (dividend_leading u j Hj Hu) as [HA Hal]. fold X in HA. set (al := pv (digits u) (j + n - 2) / Base ^ j) in *.
  pose proof (digits_ok_get _ (j + n) Hu) as Hg0. pose proof (digits_ok_get _ (j + n - 1) Hu) as Hg1.
  pose proof (digits_ok_get _ (j + n - 2) Hu) as Hg2. pose proof (digits_ok_get _ (n - 1) vd_digits) as Hh1.
  pose proof (digits_ok_get _ (n - 2) vd_digits) as Hh2.
  pose proof (pv_bound (digits vd) (n - 2) vd_digits ltac:(lia)) as Hvl.
  assert (Hvpos : 0 < v) by (pose proof (Base_pow_pos n ltac:(lia)); lia).
  assert (HAv : X / Base ^ j < v * Base) by (apply Z.div_lt_upper_bound; [lia|]; rewrite Base_pow_succ in Hlt by done; lia).
  set (ujn := zget (digits u) (j + n)) in *. set (ujn1 := zget (digits u) (j + n - 1)) in *.
  set (ujn2 := zget (digits u) (j + n - 2)) in *. set (vn2 := zget (digits vd) (n - 2)) in *.
  assert (Hle : ujn <= vn1).
  { unfold digit_ok in *. rewrite HA, divisor_leading in HAv. fold vn2 in HAv. set (T := Base ^ (n - 2)) in *.
    assert (0 <= ujn1 * Base * T) by (repeat apply Z.mul_nonneg_nonneg; lia).
    assert (0 <= ujn2 * T) by (apply Z.mul_nonneg_nonneg; lia).
    assert ((vn2 + 1) * T * Base <= Base * T * Base) by (repeat apply Z.mul_le_mono_nonneg_r; lia).
    assert (pv (digits vd) (n - 2) * Base <= T * Base) by (apply Z.mul_le_mono_nonneg_r; lia).
    assert (ujn * (Base * Base * T) < (vn1 + 1) * (Base * Base * T)) by lia.
    assert (ujn < vn1 + 1); [|lia]. apply (Z.mul_lt_mono_pos_r (Base * Base * T)); [|done].
    repeat apply Z.mul_pos_pos; lia. }
  assert (Hfinal : forall q, 0 <= q < Base -> (ujn = vn1 -> q = Base - 1) ->
    (ujn < vn1 -> q = ((ujn * Base + ujn1) * Base + ujn2) / (vn1 * Base + vn2)) ->
    digit_ok q /\ (q - 1) * v * Base ^ j <= X < (q + 1) * v * Base ^ j).
  { intros q Hq Hq1 Hq2. split; [done|]. unfold digit_ok in Hg0.
    assert (Hun : 0 <= ujn <= vn1) by lia. assert (HT : 0 < Base ^ (n - 2)) by lia.
    pose proof (knuth_bound vn1 vn2 ujn ujn1 ujn2 (Base ^ (n - 2)) (pv (digits vd) (n - 2)) al q
      Hh1 vn1_big Hh2 Hg1 Hg2 Hun HT Hvl Hal) as Hk. cbv zeta in Hk.
    rewrite <- HA in Hk. unfold vn2 in Hk at 1 3 4. rewrite <- divisor_leading in Hk.
    destruct (Hk HAv Hq1 Hq2 Hq) as [Hk1 Hk2].
    pose proof (Z.mul_div_le X (Base ^ j) HBj) as HX1. pose proof (Z.mul_succ_div_gt X (Base ^ j) HBj) as HX2.
    pose proof (Z.mul_div_le (X / Base ^ j) v Hvpos) as HA1. pose proof (Z.mul_succ_div_gt (X / Base ^ j) v Hvpos) as HA2.
    set (A := X / Base ^ j) in *. set (qt := A / v) in *.
    assert ((q - 1) * v <= qt * v) by (apply Z.mul_le_mono_nonneg_r; lia).
    assert ((qt + 1) * v <= (q + 1) * v) by (apply Z.mul_le_mono_nonneg_r; lia).
    assert ((q - 1) * v * Base ^ j <= A * Base ^ j) by (apply Z.mul_le_mono_nonneg_r; lia).
    assert ((A + 1) * Base ^ j <= (q + 1) * v * Base ^ j) by (apply Z.mul_le_mono_nonneg_r; lia). lia. }
  unfold estimate_digit. wp_step. apply wp_digit; [lia|]. fold ujn. wp_step; bsplit.
  - wp_step. apply wp_digit; [lia|]. fold ujn1. wp_step. unfold digit_ok in Hg0.
    wp_call digitDiv_ok; [done|lia|done|]. intros [q0 r0] [= -> ->].
    wp_step. apply wp_digit; [lia|]. wp_step. apply wp_digit; [lia|]. fold vn2 ujn2.
    assert (0 <= ujn * Base) by (apply Z.mul_nonneg_nonneg; lia). pose proof Hg1 as Hg1'. unfold digit_ok in Hg1'.
    assert (Hq0 : digit_ok ((ujn * Base + ujn1) / vn1)).
    { unfold digit_ok. split; [apply Z.div_pos; lia|]. apply Z.div_lt_upper_bound; [lia|].
      assert ((ujn + 1) * Base <= vn1 * Base) by (apply Z.mul_le_mono_nonneg_r; lia). lia. }
    wp_call (estimate_loop vn1 vn2 (ujn * Base + ujn1) ujn2); try done.
    + apply Z.mod_pos_bound. lia.
    + pose proof (Z.div_mod (ujn * Base + ujn1) vn1 ltac:(lia)). lia.
    + intros q [Hq ->]. apply Hfinal; [done|lia|done].
  - wp_step. apply Hfinal; [lia|done|lia].
Qed.

(** Step D4: what is left of the dividend after subtracting a multiple of
    the divisor, with the correction when the estimate was one too high. *)
Lemma subtract_spec u neg len j qhat qhatv : shape neg len u -> 0 <= j -> j + n < len ->
  (forall k, j + n + 1 <= k -> zget (digits u) k = 0) -> digit_ok qhat ->
  digits_ok (digits qhatv) -> digitLength qhatv = n + 1 -> absval qhatv = qhat * v ->
  (qhat - 1) * v * Base ^ j <= pv (digits u) (j + n + 1) < (qhat + 1) * v * Base ^ j ->
  wp ('(u, c) ← absoluteInplaceSub u qhatv j;
      if negb (c =? 0) then
        '(u, c) ← absoluteInplaceAdd u vd j;
        d ← digit u (j + n);
        u ← setDigit u (j + n) (wrap (d + c));
        mret (u, wrap (qhat - 1))
      else mret (u, qhat))
    (fun '(u', q) => shape neg len u' /\ digit_ok q /\ (forall k, j + n <= k -> zget (digits u') k = 0) /\
       pv (digits u') (j + n) = pv (digits u) (j + n + 1) - q * v * Base ^ j /\
       pv (digits u') (j + n) < v * Base ^ j) no_error.
Proof.
  intros Hu Hj Hlen Hz Hq Hqd Hql Hqv [Hlo Hhi]. pose proof Base_big. pose proof (Base_pow_pos j Hj) as HBj.
  pose proof divisor_lower as [Hv1 Hv2]. pose proof (Base_pow_pos n ltac:(lia)). unfold digit_ok in Hq.
  set (X := pv (digits u) (j + n + 1)) in *.
  assert (HBv : v * Base ^ j < Base ^ (j + n)).
  { rewrite Z.add_comm, Z.pow_add_r by lia. apply Z.mul_lt_mono_pos_r; lia. }
  (* a window value below [v * Base ^ j] leaves a zero top digit *)
  assert (Htop : forall u', digits_ok (digits u') -> pv (digits u') (j + n + 1) < v * Base ^ j ->
    (forall k, j + n + 1 <= k -> zget (digits u') k = 0) ->
    (forall k, j + n <= k -> zget (digits u') k = 0) /\ pv (digits u') (j + n) = pv (digits u') (j + n + 1)).
  { intros u' Hd' Hlt' Hz'. pose proof (digits_ok_get _ (j + n) Hd') as Hg. unfold digit_ok in Hg.
    pose proof (pv_bound (digits u') (j + n) Hd' ltac:(lia)). pose proof (Base_pow_pos (j + n) ltac:(lia)).
    assert (Hd0 : zget (digits u') (j + n) = 0).
    { rewrite pv_succ in Hlt' by lia. destruct (Z.eq_dec (zget (digits u') (j + n)) 0); [done|].
      assert (1 * Base ^ (j + n) <= zget (digits u') (j + n) * Base ^ (j + n)) by (apply Z.mul_le_mono_nonneg_r; lia). lia. }
    split; [|rewrite pv_succ, Hd0 by lia; lia]. intros k Hk. destruct (Z.eq_dec k (j + n)) as [->|]; [done|]. apply Hz'. lia. }
  wp_step. wp_call (absoluteInplaceSub_spec u qhatv j neg len); [done|done|lia|lia|lia|].
  intros [u1 c] (Hw1 & Hc & Heq1). rewrite Hql, Hqv, Z.add_assoc in *. fold X in Heq1. pose proof Hw1 as [Hu1 Hk1].
  pose proof Hu1 as (_ & Hl1 & Hd1). pose proof (pv_bound (digits u1) (j + n + 1) Hd1 ltac:(lia)) as Hb1.
  assert (Hz1 : forall k, j + n + 1 <= k -> zget (digits u1) k = 0) by (intros k Hk; rewrite Hk1 by lia; by apply Hz).
  wp_step; bsplit.
  - assert (c = 1) as -> by lia. wp_step.
    wp_call (absoluteInplaceAdd_spec u1 vd j neg len); [done|done|lia|lia|lia|].
    intros [u2 c2] (Hw2 & Hc2 & Heq2). rewrite vd_length in *. pose proof Hw2 as [Hu2 Hk2]. pose proof Hu2 as (_ & Hl2 & Hd2).
    wp_step. apply wp_digit; [lia|]. wp_step. apply wp_setDigit; [lia|]. wp_step.
    rewrite Hk2 by lia. pose proof (digits_ok_get _ (j + n) Hd1) as Hg1. unfold digit_ok in Hg1.
    set (d1 := zget (digits u1) (j + n)) in *. set (u3 := with_digit u2 (j + n) (wrap (d1 + c2))).
    assert (Hu3 : shape neg len u3) by (apply shape_with_digit; [done|apply wrap_ok]). pose proof Hu3 as (_ & Hl3 & Hd3).
    assert (Hpv3 : pv (digits u3) (j + n + 1) = pv (digits u2) (j + n) + wrap (d1 + c2) * Base ^ (j + n)).
    { unfold u3, with_digit. cbn [digits]. apply pv_zset_next. unfold digitLength in *. lia. }
    assert (Hwrap : exists k, wrap (d1 + c2) = d1 + c2 - k * Base /\ 0 <= k <= 1).
    { unfold wrap. destruct (Z_lt_le_dec (d1 + c2) Base).
      - exists 0. rewrite Z.mod_small by lia. lia.
      - exists 1. split; [|lia]. symmetry. apply Z.mod_unique_pos with 1; lia. }
    destruct Hwrap as (k & Hwk & Hk). rewrite Hwk in Hpv3. pose proof (pv_bound (digits u3) (j + n + 1) Hd3 ltac:(lia)) as Hb3.
    assert (Hval : pv (digits u3) (j + n + 1) = X - (qhat - 1) * v * Base ^ j + (1 - k) * Base ^ (j + n + 1)).
    { rewrite Hpv3, Heq2. rewrite pv_succ in Heq1 by lia. fold d1 in Heq1. rewrite Base_pow_succ in * by lia. lia. }
    (* the borrow shows that the estimate was too high *)
    assert (Hneg : X < qhat * v * Base ^ j) by lia.
    assert (k = 1) as -> by (destruct (Z.eq_dec k 0) as [->|]; lia).
    destruct (Htop u3) as [Htop1 Htop2]; [done|lia| |].
    { intros i Hi. unfold u3, with_digit. cbn [digits]. rewrite zget_zset_other, Hk2 by lia. by apply Hz1. }
    assert (1 <= qhat). { destruct (Z.eq_dec qhat 0) as [->|]; [|lia].
      destruct Hu as (_ & _ & Hdu). pose proof (pv_bound (digits u) (j + n + 1) Hdu ltac:(lia)). lia. }
    rewrite wrap_small by (unfold digit_ok; lia). split; [done|]. split; [unfold digit_ok; lia|]. split; [done|].
    rewrite Htop2, Hval. lia.
  - rewrite Hc0 in *. wp_step. destruct (Htop u1) as [Htop1 Htop2]; [done|lia|done|].
    split; [done|]. split; [done|]. split; [done|]. rewrite Htop2. lia.
Qed.

(** The invariant before the quotient digit [j] is computed: [U] is what
    the digits found so far account for plus the remaining dividend. *)
Definition div_inv (su sq sh : bool) (m U : Z) (wanted : bool) (j : Z)
    (s : option bigint * bigint * bigint) : Prop :=
  let '(q, qhatv, u) := s in
  shape su (m + n + 1) u /\ shape sh (n + 1) qhatv /\
  (forall k, j + n + 1 <= k -> zget (digits u) k = 0) /\
  pv (digits u) (j + n + 1) < v * Base ^ (j + 1) /\
  exists Qh, 0 <= Qh /\ U = Qh * Base ^ (j + 1) * v + pv (digits u) (j + n + 1) /\
    match q with
    | Some q => wanted = true /\ shape sq (m + 1) q /\ pv (digits q) (m + 1) = Qh * Base ^ (j + 1) + pv (digits q) (j + 1)
    | None => wanted = false
    end.

Lemma divide_step_spec su sq sh m U wanted j s : 0 <= j <= m ->
  div_inv su sq sh m U wanted j s ->
  wp (divide_step vd n vn1 j s) (div_inv su sq sh m U wanted (j - 1)) no_error.
Proof.
  destruct s as [[q qhatv] u]. intros Hj (Hu & Hqh & Hz & Hlt & Qh & HQ & HU & Hq).
  unfold divide_step. wp_step. wp_call (estimate_spec u (m + n + 1) su j); [done|lia|lia|done|].
  intros qhat [Hqok Hbr]. pose proof Hqh as (Hqs & Hql & Hqd). pose proof Base_big.
  wp_step. wp_call (internalMultiplyAdd_spec (Some vd) qhat 0 n qhatv);
    [done|done|done|unfold digit_ok; lia|unfold digitLength in *; lia|lia|lia|].
  intros qhatv' [Hqh' Hval]. pose proof Hqh' as (Hqs' & Hql' & Hqd'). rewrite Hql in Hql'.
  assert (Hval' : absval qhatv' = qhat * v)
    by (rewrite Hval, (absval_pv vd), vd_length; lia).
  wp_step. wp_call (subtract_spec u su (m + n + 1) j qhat qhatv'); [done|lia|lia|done|done|done|lia|done|done|].
  intros [u' qd] (Hu' & Hqdok & Hz' & Hval2 & Hlt').
  assert (Hinv : forall q' : option bigint,
    match q' with
    | Some q' => wanted = true /\ shape sq (m + 1) q' /\
        pv (digits q') (m + 1) = (Qh * Base + qd) * Base ^ j + pv (digits q') j
    | None => wanted = false
    end -> div_inv su sq sh m U wanted (j - 1) (q', qhatv', u')).
  { intros q' Hq'. unfold div_inv. replace (j - 1 + n + 1) with (j + n) by lia. replace (j - 1 + 1) with j by lia.
    split; [done|]. split; [by rewrite Hqs, Hql in Hqh'|]. split; [done|]. split; [done|].
    exists (Qh * Base + qd). unfold digit_ok in Hqdok.
    assert (0 <= Qh * Base) by (apply Z.mul_nonneg_nonneg; lia).
    split; [lia|]. split; [|done]. rewrite HU, Hval2, Base_pow_succ by lia. ring. }
  destruct q as [q|].
  - destruct Hq as (Hw & Hq & Hqv). pose proof Hq as (_ & Hlq & _).
    wp_step. apply wp_setDigit; [lia|]. wp_step. apply Hinv. split; [done|]. split; [by apply shape_with_digit|].
    unfold with_digit, digitLength in *. cbn [digits]. rewrite pv_zset, pv_zset_low, Hqv, pv_succ, Base_pow_succ by lia. ring.
  - wp_step. by apply Hinv.
Qed.
End long_division.

(** The error of a division whose normalised dividend does not fit. *)
Definition dividend_too_large {P : Platform} (x : bigint) (e : error) : Prop :=
  e = BigIntTooLarge /\ digitLength x = MaxDigitLength.

Section long_division_spec.
Context {P : Platform} {K : DigitKernel}.

(** Step D1 neither overflows the divisor's digits... *)
Lemma normalised_fits y s : wf y -> 0 < digitLength y -> 0 <= s < DigitBits ->
  zget (digits y) (digitLength y - 1) * 2 ^ s < Base -> absval y * 2 ^ s < Base ^ digitLength y.
Proof.
  intros Hy Hpos Hs Hnorm. rewrite absval_pv. set (n := digitLength y) in *.
  assert (H2s : 0 < 2 ^ s) by (apply Z.pow_pos_nonneg; lia).
  replace (Base ^ n) with (Base * Base ^ (n - 1)) by (rewrite <- Base_pow_succ by lia; f_equal; lia).
  replace (pv (digits y) n) with (pv (digits y) (n - 1 + 1)) by (f_equal; lia). rewrite pv_succ by lia.
  pose proof (pv_bound (digits y) (n - 1) (wf_digits y Hy) ltac:(lia)). pose proof (Base_pow_pos (n - 1) ltac:(lia)).
  set (d := zget (digits y) (n - 1)) in *.
  assert (Hd1 : (d + 1) * 2 ^ s <= Base).
  { rewrite (Base_split s) in * by lia. assert (d < 2 ^ (DigitBits - s)) by (apply (Z.mul_lt_mono_pos_r (2 ^ s)); lia).
    rewrite (Z.mul_comm (2 ^ s)). apply Z.mul_le_mono_nonneg_r; lia. }
  assert ((pv (digits y) (n - 1) + d * Base ^ (n - 1)) * 2 ^ s < (d + 1) * Base ^ (n - 1) * 2 ^ s)
    by (apply Z.mul_lt_mono_pos_r; lia).
  assert ((d + 1) * 2 ^ s * Base ^ (n - 1) <= Base * Base ^ (n - 1)) by (apply Z.mul_le_mono_nonneg_r; lia). lia.
Qed.

(** ...nor leaves the top bit of the divisor clear. *)
Lemma normalised_top y vd s : wf y -> 0 < digitLength y -> 0 <= s < DigitBits ->
  digitLength vd = digitLength y -> digits_ok (digits vd) -> absval vd = absval y * 2 ^ s ->
  2 ^ (DigitBits - 1) <= zget (digits y) (digitLength y - 1) * 2 ^ s ->
  Base <= 2 * zget (digits vd) (digitLength y - 1).
Proof.
  intros Hy Hpos Hs Hvl Hvok Hvdv Hnorm. set (n := digitLength y) in *.
  assert (H2s : 0 < 2 ^ s) by (apply Z.pow_pos_nonneg; lia).
  destruct (Z_le_gt_dec Base (2 * zget (digits vd) (n - 1))); [done|exfalso].
  assert (Hv2 : absval vd < (zget (digits vd) (n - 1) + 1) * Base ^ (n - 1)).
  { rewrite absval_pv, Hvl. replace (pv (digits vd) n) with (pv (digits vd) (n - 1 + 1)) by (f_equal; lia).
    rewrite pv_succ by lia. pose proof (pv_bound (digits vd) (n - 1) Hvok ltac:(lia)). lia. }
  assert (Hy2 : zget (digits y) (n - 1) * Base ^ (n - 1) * 2 ^ s <= absval vd).
  { rewrite Hvdv. apply Z.mul_le_mono_nonneg_r; [lia|]. rewrite absval_pv. fold n.
    replace (pv (digits y) n) with (pv (digits y) (n - 1 + 1)) by (f_equal; lia).
    rewrite pv_succ by lia. pose proof (pv_bound (digits y) (n - 1) (wf_digits y Hy) ltac:(lia)). lia. }
  pose proof (Base_pow_pos (n - 1) ltac:(lia)).
  assert (HB2 : Base = 2 * 2 ^ (DigitBits - 1)).
  { unfold Base. rewrite <- Z.pow_succ_r by lia. f_equal. lia. }
  assert (2 ^ (DigitBits - 1) * Base ^ (n - 1) <= zget (digits y) (n - 1) * 2 ^ s * Base ^ (n - 1))
    by (apply Z.mul_le_mono_nonneg_r; lia).
  assert ((zget (digits vd) (n - 1) + 1) * Base ^ (n - 1) <= 2 ^ (DigitBits - 1) * Base ^ (n - 1))
    by (apply Z.mul_le_mono_nonneg_r; lia). lia.
Qed.

Lemma absoluteDivWithBigIntDivisor_spec x y wantq wantr neg :
  wf x -> wf y -> 2 <= digitLength y -> absval y <= absval x ->
  wp (absoluteDivWithBigIntDivisor x y wantq wantr neg)
    (fun '(q, r) =>
       digitLength x < MaxDigitLength /\
       (if wantq then exists q', q = Some q' /\ denotes q' (signed neg (absval x / absval y)) else q = None) /\
       (if wantr then exists r', r = Some r' /\ shape (isNegative x) (digitLength x + 1) r' /\
                                 absval r' = absval x mod absval y
        else r = None))
    (dividend_too_large x).
Proof.
  intros Hx Hy Hn2 Hxy. pose proof (wf_length x Hx). pose proof (wf_length y Hy). pose proof MaxDigitLength_big.
  assert (Hlen : digitLength y <= digitLength x).
  { destruct (Z_le_gt_dec (digitLength y) (digitLength x)); [done|]. pose proof (length_of_absval x y Hx Hy). lia. }
  pose proof (absval_pos y Hy ltac:(lia)) as Hypos. pose proof Base_big.
  unfold absoluteDivWithBigIntDivisor. set (n := digitLength y) in *. set (m := digitLength x - n).
  wp_step. wp_step; [lia|]. wp_step. wp_step; [lia|]. wp_step.
  apply wp_weaken_ok with (fun q : option bigint => match q with
    | Some q => wantq = true /\ shape neg (m + 1) q | None => wantq = false end).
  { wp_step; subst wantq; [|by wp_step]. wp_step. apply wp_create_ok; [lia|]. intros q Hq. by wp_step. }
  intros q Hq. wp_step. apply wp_create; [lia| |].
  { intros Hbig. split; [done|]. lia. }
  intros qhatv Hmax Hqhatv. wp_step. apply wp_digit; [lia|].
  pose proof (wf_digit y (n - 1) Hy) as Htop. assert (Htop0 : zget (digits y) (n - 1) <> 0) by (apply Hy; lia).
  wp_step. apply wp_DigitLeadingZeroes; [done|done|]. intros s Hs Hnorm _.
  assert (H2s : 0 < 2 ^ s) by (apply Z.pow_pos_nonneg; lia).
  assert (Hyfit : absval y * 2 ^ s < Base ^ n) by (apply normalised_fits; fold n; (done || lia)).
  wp_step. apply wp_weaken_ok with (fun vd => shape (isNegative y) n vd /\ absval vd = absval y * 2 ^ s).
  { wp_step; bsplit.
    - eapply wp_mono; [apply (absoluteLeftShift_spec y s SameSizeResult Hy); [lia|lia|done]|by intros r (? & ? & _)|].
      intros e [_ Hbig]. cbn in Hbig. lia.
    - wp_step. assert (s = 0) as -> by lia. rewrite Z.pow_0_r, Z.mul_1_r. split; [by apply shape_wf|done]. }
  intros vd [Hvd Hvdv]. wp_step.
  eapply wp_mono; [apply (absoluteLeftShift_spec x s AlwaysAddOneDigit Hx); [lia|lia|done]| |].
  2: { intros e [-> Hbig]. split; [done|]. lia. }
  intros u (Hu & Huv & Humax). pose proof Hvd as (_ & Hvl & Hvok). wp_step. apply wp_digit; [lia|].
  replace (digitLength x + 1) with (m + n + 1) in * by (unfold m; lia).
  assert (Hvn1 : Base <= 2 * zget (digits vd) (n - 1)) by (apply (normalised_top y vd s); fold n; (done || lia)).
  pose proof (divisor_lower vd n Hvl Hvok ltac:(lia) Hvn1) as [Hlow _].
  wp_step. eapply (wp_for_down (div_inv vd n (isNegative x) neg neg m (absval u) wantq)).
  { unfold m. lia. }
  { pose proof Hu as (_ & Hul & Hud). unfold div_inv. split; [done|]. split; [done|]. split.
    - intros k Hk. apply zget_oob. unfold digitLength in Hul. lia.
    - rewrite <- Hul, <- absval_pv. split.
      + rewrite Huv. pose proof (absval_bound x (wf_digits x Hx)) as Hxb. replace (digitLength x) with (m + n) in Hxb by (unfold m; lia).
        assert (2 * 2 ^ s <= Base) by (unfold Base; rewrite <- Z.pow_succ_r by lia; apply Z.pow_le_mono_r; lia).
        assert (absval x * (2 * 2 ^ s) <= absval x * Base) by (apply Z.mul_le_mono_nonneg_l; lia).
        assert (absval x * Base < Base ^ (m + n) * Base) by (apply Z.mul_lt_mono_pos_r; lia).
        pose proof (Base_pow_pos (m + 1) ltac:(unfold m; lia)).
        assert (Base ^ n * Base ^ (m + 1) <= 2 * absval vd * Base ^ (m + 1)) by (apply Z.mul_le_mono_nonneg_r; lia).
        rewrite <- Z.pow_add_r in * by (unfold m; lia). replace (n + (m + 1)) with (m + n + 1) in * by lia.
        rewrite (Base_pow_succ (m + n)) in * by (unfold m; lia). lia.
      + exists 0. split; [lia|]. split; [lia|]. destruct q as [q|]; [|done]. destruct Hq as [Hw Hq]. split; [done|]. split; [done|lia]. }
  { intros j st Hj Hinv. eapply wp_mono; [by apply divide_step_spec|done|intros e []]. }
  intros [[q' qhatv'] u'] (Hu' & _ & Hz & Hlt & Qh & HQ & HU & Hq').
  replace (0 - 1 + n + 1) with n in * by lia. replace (0 - 1 + 1) with 0 in * by lia.
  rewrite Z.pow_0_r, Z.mul_1_r in Hlt, HU.
  pose proof Hu' as (_ & Hul' & Hud').
  assert (Hu'v : absval u' = pv (digits u') n).
  { rewrite absval_pv, Hul'. apply pv_stable; [unfold m; lia|]. intros k Hk. apply Hz. lia. }
  rewrite <- Hu'v in *. pose proof (absval_bound u' Hud') as Hu'b.
  assert (HQv : Qh = absval x / absval y /\ absval u' = absval x mod absval y * 2 ^ s).
  { rewrite Huv, Hvdv in *.
    assert (Hdm : absval x * 2 ^ s = absval y * 2 ^ s * Qh + absval u') by lia. split.
    - rewrite <- (Z.div_mul_cancel_r (absval x) (absval y) (2 ^ s)) by lia. apply Z.div_unique_pos with (absval u'); lia.
    - rewrite <- Zmult_mod_distr_r. apply Z.mod_unique_pos with Qh; lia. }
  destruct HQv as [HQv Huv'].
  wp_step. apply wp_weaken_ok with (fun q => if wantq then exists q', q = Some q' /\ denotes q' (signed neg (absval x / absval y)) else q = None).
  { destruct q' as [q'|].
    - destruct Hq' as (-> & Hq' & Hqv). wp_step.
      wp_call (trim_spec neg (m + 1) q'); [done|unfold m in *; lia|lia|]. intros bi Hbi. wp_step.
      rewrite Z.pow_0_r, pv_0, Z.add_0_r, Z.mul_1_r in Hqv. rewrite Hqv, HQv in Hbi.
      assert (1 <= absval x / absval y) by (apply Z.div_le_lower_bound; lia).
      destruct (isZero bi) eqn:Hbz; [|by exists bi]. exfalso. destruct Hbi as [_ Hbv]. rewrite zero_value in Hbv by done.
      destruct neg; cbn in Hbv; lia.
    - subst wantq. by wp_step. }
  intros qr Hqr. wp_step. apply wp_weaken_ok with (fun r => if wantr then exists r', r = Some r' /\
      shape (isNegative x) (m + n + 1) r' /\ absval r' = absval x mod absval y else r = None).
  { wp_step; subst wantr; [|by wp_step]. wp_step.
    wp_call (inplaceRightShift_spec u' s (isNegative x) (m + n + 1)); [done|unfold m; lia|done|rewrite Huv'; by exists (absval x mod absval y)|].
    intros r' [Hr' Hrv]. wp_step. exists r'. split; [done|]. split; [done|]. by rewrite Hrv, Huv', Z.div_mul by lia. }
  intros rr Hrr. wp_step. split; [lia|done].
Qed.
End long_division_spec.

(** * Division and remainder *)

(** The operands go through Algorithm D. *)
Definition long_operands {P : Platform} (x y : bigint) : Prop :=
  2 <= digitLength y /\ absval y <= absval x.

Definition division_error {P : Platform} (x y : bigint) (e : error) : Prop :=
  (e = BigIntDivisionByZero /\ value y = 0) \/
  (value y <> 0 /\ long_operands x y /\ dividend_too_large x e).

Section quotients.
Context {P : Platform} {K : DigitKernel}.

Lemma signed_quot s t a b : 0 <= a -> 0 < b ->
  Z.quot (signed s a) (signed t b) = signed (negb (Bool.eqb s t)) (a / b).
Proof.
  intros Ha Hb. destruct s, t; cbn [signed Bool.eqb negb];
    rewrite ?Z.quot_opp_l, ?Z.quot_opp_r, ?Z.opp_involutive, Z.quot_div_nonneg by lia; lia.
Qed.

Lemma signed_rem s t a b : 0 <= a -> 0 < b -> Z.rem (signed s a) (signed t b) = signed s (a mod b).
Proof.
  intros Ha Hb. destruct s, t; cbn [signed];
    rewrite ?Z.rem_opp_l, ?Z.rem_opp_r, Z.rem_mod_nonneg by lia; done.
Qed.

Lemma eqb_flip s x : (if Bool.eqb s (isNegative x) then mret x else neg x) =
                     (if Bool.eqb (isNegative x) s then mret x else neg x) :> M bigint.
Proof. by destruct s, (isNegative x). Qed.

Lemma absoluteDivWithDigitDivisor_new x v neg0 : wf x -> 0 < digitLength x -> 1 < v -> digit_ok v ->
  wp (absoluteDivWithDigitDivisor x v NewQuotient neg0)
    (fun '(q, r) => exists q', q = Some q' /\ shape neg0 (digitLength x) q' /\
       absval q' = absval x / v /\ r = absval x mod v) no_error.
Proof.
  intros Hx Hpos Hv Hvok. pose proof (wf_length x Hx). unfold absoluteDivWithDigitDivisor.
  wp_step. wp_step; [lia|]. wp_step. wp_step; [unfold isZero; lia|]. wp_step; bsplit; [lia|].
  wp_step. apply wp_create_ok; [lia|]. intros q0 Hq0. wp_step.
  wp_call (short_division_spec x v q0 false neg0); [by apply wf_digits|done|done|done|done|].
  intros [q r] (Hq & Hqv & Hr). wp_step. by exists q.
Qed.

(** In place, as [toStringGeneric] divides. *)
Lemma absoluteDivWithDigitDivisor_inplace x v neg0 : digits_ok (digits x) -> 0 < digitLength x -> 1 < v -> digit_ok v ->
  isNegative x = neg0 ->
  wp (absoluteDivWithDigitDivisor x v InPlaceQuotient neg0)
    (fun '(q, r) => exists q', q = Some q' /\ shape neg0 (digitLength x) q' /\
       absval q' = absval x / v /\ r = absval x mod v) no_error.
Proof.
  intros Hx Hpos Hv Hvok Hs. unfold absoluteDivWithDigitDivisor.
  wp_step. wp_step; [lia|]. wp_step. wp_step; [unfold isZero; lia|]. wp_step; bsplit; [lia|].
  wp_step. wp_step. wp_step.
  wp_call (short_division_spec x v x true neg0); [done|done|done|by split|done|].
  intros [q r] (Hq & Hqv & Hr). wp_step. by exists q.
Qed.

Lemma absoluteDivWithDigitDivisor_none x v neg0 : wf x -> 0 < digitLength x -> 1 < v -> digit_ok v ->
  wp (absoluteDivWithDigitDivisor x v NoQuotient neg0)
    (fun '(q, r) => q = None /\ r = absval x mod v) no_error.
Proof.
  intros Hx Hpos Hv Hvok. unfold absoluteDivWithDigitDivisor.
  wp_step. wp_step; [lia|]. wp_step. wp_step; [unfold isZero; lia|]. wp_step; bsplit; [lia|].
  wp_step. wp_call (short_remainder x v); [by apply wf_digits|lia|done|]. intros r ->. by wp_step.
Qed.

Lemma absval_shape neg0 n r : shape neg0 n r -> absval r = pv (digits r) n.
Proof. intros (_ & <- & _). apply absval_pv. Qed.

(** The digit of a one-digit BigInt is its magnitude. *)
Lemma one_digit x : digitLength x = 1 -> zget (digits x) 0 = absval x.
Proof. intros E. by rewrite absval_pv, E, pv_1. Qed.

Lemma div_spec x y : wf x -> wf y ->
  wp (div x y) (fun r => denotes r (Z.quot (value x) (value y)) /\ value y <> 0 /\
                         (long_operands x y -> digitLength x < MaxDigitLength))
    (division_error x y).
Proof.
  intros Hx Hy. unfold div. pose proof Base_big. wp_step.
  { apply wp_throw; [|done]. left. split; [done|]. by apply zero_value. }
  apply nonzero_length in Hc. pose proof (absval_pos y Hy Hc).
  assert (Hvy : value y <> 0) by (rewrite value_signed; destruct (isNegative y); cbn; lia).
  wp_step.
  { wp_step. rewrite (zero_value x), Z.quot_0_l by done. split; [by split; [|apply zero_value]|]. split; [done|].
    intros [_ Hl]. unfold isZero in Hc0. rewrite (absval_zero_length x) in Hl by lia. lia. }
  apply nonzero_length in Hc0. pose proof (absval_pos x Hx Hc0).
  rewrite (value_signed x), (value_signed y), signed_quot by lia.
  wp_step. wp_call absoluteCompare_spec; [done..|]. intros c ->. wp_step; bsplit.
  { wp_call zero_spec. intros r Hr. rewrite Z.div_small by lia. rewrite <- value_signed.
    split; [by destruct (negb _)|]. split; [done|]. intros [_ ?]. lia. }
  set (sg := negb (Bool.eqb (isNegative x) (isNegative y))). rewrite <- value_signed.
  wp_step; bsplit.
  - assert (Hnl : ~ long_operands x y) by (intros [? _]; lia).
    wp_step. apply wp_digit; [lia|]. rewrite one_digit by done. wp_step; bsplit.
    { rewrite Hc3, Z.div_1_r. wp_call (with_sign_spec x sg); [done|]. intros r Hr. by split. }
    pose proof (wf_digit y 0 Hy) as Hyd. rewrite one_digit in Hyd by done.
    wp_step. wp_call (absoluteDivWithDigitDivisor_new x (absval y) sg); [done|done|lia|done|].
    intros [q r] (q' & -> & Hq & Hqv & _). wp_step. unfold from_handle. wp_step. pose proof (wf_length x Hx).
    wp_call (trim_spec sg (digitLength x) q'); [done|lia|lia|]. intros r' Hr'.
    rewrite <- (absval_shape _ _ _ Hq), Hqv in Hr'. by split.
  - assert (Hn2 : 2 <= digitLength y) by lia.
    wp_step. eapply wp_mono; [apply (absoluteDivWithBigIntDivisor_spec x y true false sg Hx Hy Hn2); lia| |].
    2: { intros e He. right. split; [done|]. split; [|done]. split; [done|lia]. }
    intros [q r] (Hlt & (q' & -> & Hq) & ->). wp_step. unfold from_handle. wp_step. destruct Hq as [Hq Hqv].
    wp_call (trim_spec _ _ q' (shape_wf q' Hq)); [by apply wf_length|by apply Hq|].
    intros r' Hr'. rewrite <- absval_pv, <- value_signed, Hqv in Hr'. by split.
Qed.

Lemma mod_spec x y : wf x -> wf y ->
  wp (mod_ x y) (fun r => denotes r (Z.rem (value x) (value y)) /\ value y <> 0 /\
                          (long_operands x y -> digitLength x < MaxDigitLength))
    (division_error x y).
Proof.
  intros Hx Hy. unfold mod_. pose proof Base_big. wp_step.
  { apply wp_throw; [|done]. left. split; [done|]. by apply zero_value. }
  apply nonzero_length in Hc. pose proof (absval_pos y Hy Hc).
  assert (Hvy : value y <> 0) by (rewrite value_signed; destruct (isNegative y); cbn; lia).
  wp_step.
  { wp_step. rewrite (zero_value x), Z.rem_0_l by done. split; [by split; [|apply zero_value]|]. split; [done|].
    intros [_ Hl]. unfold isZero in Hc0. rewrite (absval_zero_length x) in Hl by lia. lia. }
  apply nonzero_length in Hc0. pose proof (absval_pos x Hx Hc0).
  rewrite (value_signed x), (value_signed y), signed_rem by lia. rewrite <- (value_signed y).
  wp_step. wp_call absoluteCompare_spec; [done..|]. intros c ->. wp_step; bsplit.
  { wp_step. rewrite Z.mod_small by lia. split; [by split|]. split; [done|]. intros [_ ?]. lia. }
  wp_step; bsplit.
  - assert (Hnl : ~ long_operands x y) by (intros [? _]; lia).
    assert (Hzero : absval x mod absval y = 0 -> wp zero (fun r => denotes r (signed (isNegative x) (absval x mod absval y)) /\
              value y <> 0 /\ (long_operands x y -> digitLength x < MaxDigitLength)) (division_error x y)).
    { intros ->. wp_call zero_spec. intros r Hr. split; [by destruct (isNegative x)|by split]. }
    wp_step. apply wp_digit; [lia|]. rewrite one_digit by done. wp_step; bsplit.
    { apply Hzero. by rewrite Hc3, Z.mod_1_r. }
    pose proof (wf_digit y 0 Hy) as Hyd. rewrite one_digit in Hyd by done.
    wp_step. wp_call (absoluteDivWithDigitDivisor_none x (absval y) false); [done|done|lia|done|].
    intros [q r] (-> & ->). wp_step; bsplit; [by apply Hzero|].
    assert (0 <= absval x mod absval y < absval y) by (apply Z.mod_pos_bound; lia). unfold digit_ok in Hyd.
    wp_call createFromDigit_spec; [unfold digit_ok; lia|done|]. intros r Hr. by split.
  - assert (Hn2 : 2 <= digitLength y) by lia.
    wp_step. eapply wp_mono; [apply (absoluteDivWithBigIntDivisor_spec x y false true (isNegative x) Hx Hy Hn2); lia| |].
    2: { intros e He. right. split; [done|]. split; [|done]. split; [done|lia]. }
    intros [q r] (Hlt & -> & (r' & -> & Hr & Hrv)). wp_step. wp_step; [done|]. wp_step. unfold from_handle. wp_step.
    wp_call (trim_spec _ _ r' Hr); [lia|lia|].
    intros r2 Hr2. rewrite <- (absval_shape _ _ _ Hr), Hrv in Hr2. by split.
Qed.
End quotients.
