(* ===== verification/BigIntShift.v ===== *)
(** Shifts of BigInts (vm/BigIntType.cpp: [lshByAbsolute], [rshByMaximum],
    [rshByAbsolute], [lsh], [rsh]): multiplication by and floor division by a
    power of two, and the case in which [rshByAbsolute] reads a digit it never
    wrote. *)
From S2P Require Import Prelude Words BigIntRep BigIntAdd BigIntMul BigIntDiv.

(** * Definitions *)

Section definitions.
Context {P : Platform}.

Definition lshByAbsolute (x y : bigint) : M bigint :=
  if isZero x || isZero y then mret x
  else
    tooBig ← (if digitLength y >? 1 then mret true
              else d ← digit y 0; mret (d >? MaxBitLength));
    if tooBig : bool then throw BigIntTooLarge
    else
      shift ← digit y 0;
      let digitShift := shift / DigitBits in
      let bitsShift := shift mod DigitBits in
      let length := digitLength x in
      grow ← (if negb (bitsShift =? 0) then
                d ← digit x (length - 1);
                high ← shr d (DigitBits - bitsShift);
                mret (negb (high =? 0))
              else mret false);
      let resultLength := length + digitShift + Z.b2z grow in
      result ← createUninitialized resultLength (isNegative x);
      result ← for_ 0 digitShift (fun i result => setDigit result i 0) result;
      if bitsShift =? 0 then
        for_ digitShift resultLength (fun i result =>
          d ← digit x (i - digitShift); setDigit result i d) result
      else
        '(result, carry) ← for_ 0 length (fun j '(result, carry) =>
            d ← digit x j;
            low ← shl d bitsShift;
            result ← setDigit result (digitShift + j) (Z.lor low carry);
            carry ← shr d (DigitBits - bitsShift);
            mret (result, carry)) (result, 0);
        if grow : bool then setDigit result (digitShift + length) carry
        else moz_assert (carry =? 0);; mret result.

Definition rshByMaximum (neg : bool) : M bigint := if neg then negativeOne else zero.

(** Whether a bit that is one is shifted out of a negative number. *)
Definition must_round_down (x : bigint) (digitShift bitsShift : Z) : M bool :=
  if isNegative x then
    one ← shl 1 bitsShift;
    let mask := wrap (one - 1) in
    d ← digit x digitShift;
    if negb (Z.land d mask =? 0) then mret true
    else
      loop (Z.to_nat (digitShift + 1)) (fun i =>
        if i <? digitShift then
          d ← digit x i;
          mret (if negb (d =? 0) then inr true else inl (i + 1))
        else mret (inr false)) 0
  else mret false.

Definition rshByAbsolute (x y : bigint) : M bigint :=
  if isZero x || isZero y then mret x
  else
    tooBig ← (if digitLength y >? 1 then mret true
              else d ← digit y 0; mret (d >=? MaxBitLength));
    if tooBig : bool then rshByMaximum (isNegative x)
    else
      shift ← digit y 0;
      let length := digitLength x in
      let digitShift := shift / DigitBits in
      let bitsShift := shift mod DigitBits in
      let resultLength := length - digitShift in
      if resultLength <=? 0 then rshByMaximum (isNegative x)
      else
        mustRoundDown ← must_round_down x digitShift bitsShift;
        msd ← digit x (length - 1);
        let resultLength :=
          if mustRoundDown && (bitsShift =? 0) && (msd =? Base - 1) then resultLength + 1 else resultLength in
        moz_assert (resultLength <=? length);;
        result ← createUninitialized resultLength (isNegative x);
        result ← (if bitsShift =? 0 then
            for_ digitShift length (fun i result =>
              d ← digit x i; setDigit result (i - digitShift) d) result
          else
            d ← digit x digitShift;
            carry ← shr d bitsShift;
            let last := length - digitShift - 1 in
            '(result, carry) ← for_ 0 last (fun i '(result, carry) =>
                d ← digit x (i + digitShift + 1);
                high ← shl d (DigitBits - bitsShift);
                result ← setDigit result i (Z.lor high carry);
                carry ← shr d bitsShift;
                mret (result, carry)) (result, carry);
            setDigit result last carry);
        if mustRoundDown : bool then
          moz_assert (isNegative x);;
          absoluteAddOne result (isNegative x)
        else destructivelyTrimHighZeroDigits result.

Definition lsh (x y : bigint) : M bigint :=
  if isNegative y then rshByAbsolute x y else lshByAbsolute x y.

Definition rsh (x y : bigint) : M bigint :=
  if isNegative y then lshByAbsolute x y else rshByAbsolute x y.
End definitions.

(** * Left shifts *)

(** A shift whose result has more than [MaxDigitLength] digits. *)
Definition shift_too_large {P : Platform} (x y : bigint) (e : error) : Prop :=
  e = BigIntTooLarge /\ Base ^ MaxDigitLength <= absval x * 2 ^ absval y.

Section left_shift.
Context {P : Platform}.

Lemma split_shift s : 0 <= s -> 2 ^ s = Base ^ (s / DigitBits) * 2 ^ (s mod DigitBits) /\
  0 <= s / DigitBits /\ 0 <= s mod DigitBits < DigitBits.
Proof.
  intros Hs. pose proof DigitBits_pos. assert (Hd : 0 <= s / DigitBits) by (apply Z.div_pos; lia).
  assert (Hm : 0 <= s mod DigitBits < DigitBits) by (apply Z.mod_pos_bound; lia).
  split; [|done]. unfold Base. rewrite <- Z.pow_mul_r, <- Z.pow_add_r by lia. f_equal. apply Z.div_mod. lia.
Qed.

Lemma max_bits : 2 ^ MaxBitLength = Base ^ MaxDigitLength.
Proof.
  rewrite MaxBitLength_digits. unfold Base. pose proof DigitBits_pos. pose proof MaxDigitLength_big.
  rewrite Z.pow_mul_r by lia. done.
Qed.

(** The test on the shift count; [lim] is exclusive. *)
Lemma count_test y (f : Z -> bool) lim (Q : bool -> Prop) E : wf y -> 0 < digitLength y -> 0 <= lim <= Base ->
  (forall d, f d = (lim <=? d)) ->
  (lim <= absval y -> Q true) ->
  (absval y < lim -> digitLength y = 1 -> zget (digits y) 0 = absval y -> Q false) ->
  wp (if digitLength y >? 1 then mret true else d ← digit y 0; mret (f d)) Q E.
Proof.
  intros Hy Hpos Hlim Hf Ht Hff. wp_step; bsplit.
  - wp_step. apply Ht. pose proof (wf_lower y Hy Hpos). pose proof Base_pos.
    assert (Base ^ 1 <= Base ^ (digitLength y - 1)) by (apply Z.pow_le_mono_r; lia). lia.
  - wp_step. apply wp_digit; [lia|]. wp_step. rewrite one_digit, Hf by lia.
    destruct (Z.leb_spec lim (absval y)); [by apply Ht|apply Hff; [lia|lia|apply one_digit; lia]].
Qed.

(** The result of a left shift needs all the digits allocated for it. *)
Lemma lsh_lower x bs ds grow : wf x -> 0 < digitLength x -> 0 <= bs < DigitBits -> 0 <= ds ->
  grow = negb (bs =? 0) && negb (zget (digits x) (digitLength x - 1) / 2 ^ (DigitBits - bs) =? 0) ->
  Base ^ (digitLength x + ds + Z.b2z grow - 1) <= absval x * (Base ^ ds * 2 ^ bs).
Proof.
  intros Hx Hpos Hbs Hds Hgrow. set (len := digitLength x) in *. set (top := zget (digits x) (len - 1)) in *.
  assert (H2b : 0 < 2 ^ bs) by (apply Z.pow_pos_nonneg; lia). pose proof (Base_pow_pos ds Hds).
  pose proof (wf_lower x Hx Hpos) as Hlow. fold len in Hlow. pose proof (Base_pow_pos (len - 1) ltac:(lia)).
  rewrite Z.mul_assoc, (Z.mul_comm (absval x)), <- Z.mul_assoc.
  replace (len + ds + Z.b2z grow - 1) with (ds + (len - 1 + Z.b2z grow)) by lia.
  rewrite Z.pow_add_r by (destruct grow; cbn; lia). apply Z.mul_le_mono_nonneg_l; [lia|].
  destruct grow; cbn [Z.b2z].
  - symmetry in Hgrow. apply andb_true_iff in Hgrow as [_ Hg]. bsplit. rewrite Base_pow_succ by lia.
    assert (H2r : 0 < 2 ^ (DigitBits - bs)) by (apply Z.pow_pos_nonneg; lia).
    assert (Htop : 2 ^ (DigitBits - bs) <= top).
    { destruct (Z_le_gt_dec (2 ^ (DigitBits - bs)) top); [done|]. destruct Hg. apply Z.div_small.
      pose proof (wf_digit x (len - 1) Hx) as Hd. fold top in Hd. unfold digit_ok in Hd. lia. }
    assert (HB : Base <= top * 2 ^ bs).
    { rewrite (Base_split bs) by lia. rewrite Z.mul_comm. apply Z.mul_le_mono_nonneg_r; lia. }
    assert (Hx1 : top * Base ^ (len - 1) <= absval x).
    { rewrite absval_pv. fold len. replace (pv (digits x) len) with (pv (digits x) (len - 1 + 1)) by (f_equal; lia).
      rewrite pv_succ by lia. pose proof (pv_bound (digits x) (len - 1) (wf_digits x Hx) ltac:(lia)). lia. }
    assert (Base * Base ^ (len - 1) <= top * 2 ^ bs * Base ^ (len - 1)) by (apply Z.mul_le_mono_nonneg_r; lia).
    assert (top * Base ^ (len - 1) * 2 ^ bs <= absval x * 2 ^ bs) by (apply Z.mul_le_mono_nonneg_r; lia). lia.
  - rewrite Z.add_0_r. assert (absval x * 1 <= absval x * 2 ^ bs) by (apply Z.mul_le_mono_nonneg_l; lia). lia.
Qed.

(** Nothing is carried out of the top digit when it was found not to grow. *)
Lemma lsh_no_carry x bs ds c r : wf x -> 0 < bs < DigitBits -> 0 <= ds -> 0 <= c ->
  digits_ok (digits r) -> zget (digits x) (digitLength x - 1) / 2 ^ (DigitBits - bs) = 0 ->
  pv (digits r) (ds + digitLength x) = (absval x * 2 ^ bs - c * Base ^ digitLength x) * Base ^ ds -> c = 0.
Proof.
  intros Hx Hbs Hds Hc Hr Htop Hv. set (len := digitLength x) in *. pose proof (digitLength_nonneg x) as Hl. fold len in Hl.
  pose proof (pv_bound (digits r) (ds + len) Hr ltac:(lia)) as [Hlo _]. pose proof (Base_pow_pos ds Hds).
  assert (H2b : 0 < 2 ^ bs) by (apply Z.pow_pos_nonneg; lia).
  assert (Hfit : absval x * 2 ^ bs < Base ^ len).
  { destruct (Z.eq_dec len 0) as [E|]; [rewrite absval_zero_length by done; pose proof (Base_pow_pos len ltac:(lia)); lia|].
    apply normalised_fits; [done|unfold len in *; lia|lia|]. fold len.
    assert (H2r : 0 < 2 ^ (DigitBits - bs)) by (apply Z.pow_pos_nonneg; lia).
    pose proof (wf_digit x (len - 1) Hx) as Hd. unfold digit_ok in Hd.
    apply Z.div_small_iff in Htop; [|lia]. rewrite (Base_split bs) by lia.
    rewrite (Z.mul_comm (2 ^ bs)). apply Z.mul_lt_mono_pos_r; lia. }
  rewrite Hv in Hlo. destruct (Z.eq_dec c 0) as [|Hne]; [done|]. pose proof (Base_pow_pos len Hl).
  assert (1 * Base ^ len <= c * Base ^ len) by (apply Z.mul_le_mono_nonneg_r; lia).
  assert ((absval x * 2 ^ bs - c * Base ^ len) * Base ^ ds < 0) by (apply Z.mul_neg_pos; lia). lia.
Qed.

(** Writing the low zero digits. *)
Lemma zero_fill neg n k r0 (Q : bigint -> Prop) E : shape neg n r0 -> 0 <= k <= n ->
  (forall r, filled neg n 0 k r -> Q r) ->
  wp (for_ 0 k (fun i result => setDigit result i 0) r0) Q E.
Proof.
  intros Hr Hk HQ. pose proof Base_pos. eapply (wp_for (fun i => filled neg n 0 i)); [lia|by apply filled_0| |done].
  intros i r Hi Hf. eapply wp_fill; [done|lia|unfold digit_ok; lia|]. by rewrite Z.mul_0_l.
Qed.

Lemma lshByAbsolute_spec x y : wf x -> wf y ->
  wp (lshByAbsolute x y) (fun r => denotes r (value x * 2 ^ absval y)) (shift_too_large x y).
Proof.
  intros Hx Hy. unfold lshByAbsolute. wp_step.
  { wp_step. split; [done|]. apply orb_true_iff in Hc as [Hz|Hz]; [by rewrite zero_value|].
    unfold isZero in Hz. rewrite (absval_zero_length y), Z.pow_0_r by lia. lia. }
  bsplit. apply nonzero_length in H, H0. pose proof (absval_pos x Hx H). pose proof (absval_pos y Hy H0).
  pose proof Base_big. pose proof (Base_pow_pos (digitLength x - 1) ltac:(lia)).
  wp_step. apply (count_test y _ (MaxBitLength + 1)); [done|done|unfold MaxBitLength; lia|intros; lia|..].
  { intros Hbig. apply wp_throw; [|done]. split; [done|]. rewrite <- max_bits.
    assert (2 ^ MaxBitLength <= 2 ^ absval y) by (apply Z.pow_le_mono_r; lia).
    assert (1 * 2 ^ absval y <= absval x * 2 ^ absval y) by (apply Z.mul_le_mono_nonneg_r; lia). lia. }
  intros Hsmall Hy1 Hyd. wp_step. apply wp_digit; [lia|]. rewrite Hyd. unfold shift_too_large.
  destruct (split_shift (absval y)) as (-> & Hds & Hbs); [lia|].
  set (ds := absval y / DigitBits) in *. set (bs := absval y mod DigitBits) in *.
  set (len := digitLength x) in *. pose proof (Base_pow_pos ds Hds) as HBds.
  set (top := zget (digits x) (len - 1)). pose proof (wf_digit x (len - 1) Hx) as Htop. fold top in Htop.
  assert (H2b : 0 < 2 ^ bs) by (apply Z.pow_pos_nonneg; lia).
  wp_step. apply wp_weaken_ok with (fun g : bool => g = negb (bs =? 0) && negb (top / 2 ^ (DigitBits - bs) =? 0)).
  { wp_step; bsplit.
    - wp_step. apply wp_digit; [lia|]. wp_step. apply wp_shr; [lia|]. wp_step. by rewrite (proj2 (Z.eqb_neq bs 0)).
    - wp_step. by rewrite Hc. }
  intros grow Hgrow. set (n := len + ds + Z.b2z grow).
  assert (Hn : 0 < n /\ len + ds <= n) by (unfold n; destruct grow; cbn; lia).
  assert (Hlower : Base ^ (n - 1) <= absval x * (Base ^ ds * 2 ^ bs)).
  { apply (lsh_lower x bs ds grow); (done || lia). }
  assert (Habs : forall r, filled (isNegative x) n (absval x * (Base ^ ds * 2 ^ bs)) n r -> n <= MaxDigitLength ->
    denotes r (value x * (Base ^ ds * 2 ^ bs))).
  { intros r Hf Hmax. replace (value x * _) with (signed (isNegative x) (absval x * (Base ^ ds * 2 ^ bs)))
      by (rewrite (value_signed x); destruct (isNegative x); cbn; lia).
    by apply (filled_denotes _ _ _ _ Hf); [lia|]. }
  assert (Hpvx : pv (digits x) len = absval x) by (by rewrite absval_pv).
  wp_step. apply wp_create; [destruct grow; cbn; lia| |].
  { intros Hbig. split; [done|]. fold n in Hbig.
    assert (Base ^ MaxDigitLength <= Base ^ (n - 1)) by (apply Z.pow_le_mono_r; lia). lia. }
  fold n. intros r0 Hmax Hr0. wp_step. apply zero_fill with (isNegative x) n; [done|unfold n; destruct grow; cbn; lia|].
  intros r1 Hr1. wp_step; bsplit.
  - assert (grow = false) as -> by (rewrite Hgrow, Hc; done). rewrite Hc, Z.pow_0_r, Z.mul_1_r in *.
    eapply (wp_for (fun i => filled (isNegative x) n (pv (digits x) (i - ds) * Base ^ ds) i)); [unfold n; cbn; lia|..].
    + by rewrite Z.sub_diag, pv_0.
    + intros i r Hi Hf. wp_step. apply wp_digit; [unfold n in *; cbn in *; lia|].
      eapply wp_fill; [done|lia|by apply wf_digit|]. replace (i + 1 - ds) with (i - ds + 1) by lia.
      rewrite pv_succ by lia. replace (Base ^ i) with (Base ^ (i - ds) * Base ^ ds) by (rewrite <- Z.pow_add_r by lia; f_equal; lia).
      by rewrite Z.mul_add_distr_r, Z.mul_assoc.
    + intros r Hf. replace (n - ds) with len in Hf by (unfold n; cbn; lia). rewrite Hpvx in Hf. by apply Habs.
  - wp_step. eapply (wp_for (fun j '(r, c) => 0 <= c < 2 ^ bs /\
      filled (isNegative x) n ((pv (digits x) j * 2 ^ bs - c * Base ^ j) * Base ^ ds) (ds + j) r)); [lia|..].
    + split; [lia|]. by rewrite pv_0, Z.add_0_r.
    + intros j [r c] Hj [Hcb Hf]. wp_step. apply wp_digit; [lia|]. wp_step. apply wp_shl; [lia|].
      assert (Hbs' : 0 < bs < DigitBits) by lia. pose proof (shift_column _ bs c (wf_digit x j Hx) Hbs' Hcb) as (Hok & Hout & Heq).
      wp_step. eapply wp_fill; [done|lia|done|]. intros Hf'. wp_step. apply wp_shr; [lia|]. wp_step.
      split; [done|]. rewrite Z.add_assoc, pv_succ, Base_pow_succ by lia.
      rewrite (Z.pow_add_r Base ds j) in Hf' by lia.
      replace (((pv (digits x) j + _) * _ - _) * _) with
        ((pv (digits x) j * 2 ^ bs - c * Base ^ j) * Base ^ ds +
         Z.lor (wrap (zget (digits x) j * 2 ^ bs)) c * (Base ^ ds * Base ^ j)); [done|].
      apply (f_equal (fun z => z * (Base ^ ds * Base ^ j))) in Heq. lia.
    + intros [r c] [Hcb Hf]. rewrite Hpvx in Hf. pose proof Hf as [(_ & _ & Hd) Hfv].
      destruct grow; cbn [Z.b2z] in *.
      * assert (2 ^ bs < Base) by (unfold Base; apply Z.pow_lt_mono_r; lia).
        eapply wp_fill; [done|unfold n; lia|unfold digit_ok; lia|]. clear Hf Hfv. intros Hf.
        apply Habs; [|done]. replace n with (ds + len + 1) in Hf |- * by (unfold n; lia).
        rewrite (Z.pow_add_r Base ds len) in Hf by lia.
        replace (absval x * (Base ^ ds * 2 ^ bs)) with
          ((absval x * 2 ^ bs - c * Base ^ len) * Base ^ ds + c * (Base ^ ds * Base ^ len)) by ring. done.
      * assert (c = 0) as ->.
        { apply (lsh_no_carry x bs ds c r); [done|lia|lia|lia|done| |done]. fold len top.
          destruct (Z.eqb_spec (top / 2 ^ (DigitBits - bs)) 0) as [E|E]; [done|lia]. }
        wp_step. wp_step; [done|]. wp_step. apply Habs; [|done].
        replace n with (ds + len) in Hf |- * by (unfold n; lia).
        by replace (absval x * (Base ^ ds * 2 ^ bs)) with ((absval x * 2 ^ bs - 0 * Base ^ len) * Base ^ ds) by ring.
Qed.
End left_shift.

(** * Right shifts *)

(** The inputs on which [rshByAbsolute] allocates a digit it does not write:
    a negative operand shifted by whole digits, with one bits shifted out and
    a most significant digit of all ones. *)
Definition rounding_reads_junk {P : Platform} (x y : bigint) : bool :=
  isNegative x && negb (absval y =? 0) && (absval y mod DigitBits =? 0) && (absval y <? DigitBits * digitLength x) &&
  negb (absval x mod 2 ^ absval y =? 0) && (zget (digits x) (digitLength x - 1) =? Base - 1).

Section right_shift.
Context {P : Platform}.

(** Floor division of a signed magnitude. *)
Lemma signed_floor s a k : 0 <= a -> 0 < k ->
  signed s a / k = signed s (a / k + Z.b2z (s && negb (a mod k =? 0))).
Proof.
  intros Ha Hk. destruct s; cbn [signed andb Z.b2z]; [|by rewrite Z.add_0_r].
  destruct (Z.eqb_spec (a mod k) 0) as [E|E]; cbn [negb Z.b2z].
  - rewrite Z.div_opp_l_z by lia. lia.
  - rewrite Z.div_opp_l_nz by lia. lia.
Qed.

Lemma rshByMaximum_spec x k : wf x -> 0 <= k -> absval x < 2 ^ k -> 0 < absval x ->
  wp (rshByMaximum (isNegative x)) (fun r => denotes r (value x / 2 ^ k)) no_error.
Proof.
  intros Hx Hk Hlt Hpos. rewrite value_signed, signed_floor, Z.div_small, Z.mod_small by lia.
  replace (negb (absval x =? 0)) with true by lia. unfold rshByMaximum. wp_step; rewrite Hc; cbn.
  - apply negativeOne_spec.
  - apply zero_spec.
Qed.

(** The bits that a shift by [ds] digits and [bs] bits drops. *)
Definition dropped (x : bigint) (ds bs : Z) : Z :=
  zget (digits x) ds mod 2 ^ bs * Base ^ ds + pv (digits x) ds.

Lemma dropped_bound x ds bs : digits_ok (digits x) -> 0 <= ds -> 0 <= bs ->
  0 <= dropped x ds bs < Base ^ ds * 2 ^ bs.
Proof.
  intros Hx Hds Hbs. unfold dropped. pose proof (pv_bound (digits x) ds Hx Hds). pose proof (Base_pow_pos ds Hds).
  assert (H2 : 0 < 2 ^ bs) by (apply Z.pow_pos_nonneg; lia).
  pose proof (Z.mod_pos_bound (zget (digits x) ds) (2 ^ bs) H2) as Hm. set (d := zget (digits x) ds mod 2 ^ bs) in *.
  assert (d * Base ^ ds <= (2 ^ bs - 1) * Base ^ ds) by (apply Z.mul_le_mono_nonneg_r; lia).
  assert (0 <= d * Base ^ ds) by (apply Z.mul_nonneg_nonneg; lia). lia.
Qed.

Lemma low_digit_nonzero l i n : digits_ok l -> 0 <= i < n -> zget l i <> 0 -> pv l n <> 0.
Proof.
  intros Hl Hi Hnz E. pose proof (pv_lower l i Hl ltac:(lia) Hnz) as Hlow. pose proof (Base_pow_pos i ltac:(lia)).
  pose proof (pv_mod l (i + 1) n Hl ltac:(lia)) as Hm. rewrite E, Z.mod_0_l in Hm; [lia|].
  pose proof (Base_pow_pos (i + 1) ltac:(lia)). lia.
Qed.

Lemma must_round_down_spec x ds bs : wf x -> 0 <= ds < digitLength x -> 0 <= bs < DigitBits ->
  wp (must_round_down x ds bs) (fun b => b = isNegative x && negb (dropped x ds bs =? 0)) no_error.
Proof.
  intros Hx Hds Hbs. unfold must_round_down. wp_step; rewrite Hc; [|by wp_step].
  assert (H2 : 0 < 2 ^ bs) by (apply Z.pow_pos_nonneg; lia).
  assert (H2b : 2 ^ bs < Base) by (unfold Base; apply Z.pow_lt_mono_r; lia).
  wp_step. apply wp_shl; [lia|]. rewrite Z.mul_1_l, (wrap_small (2 ^ bs)) by (unfold digit_ok; lia).
  rewrite wrap_small by (unfold digit_ok; lia). wp_step. apply wp_digit; [lia|].
  replace (2 ^ bs - 1) with (Z.ones bs) by (rewrite Z.ones_equiv; lia). rewrite Z.land_ones by lia.
  unfold dropped. set (d := zget (digits x) ds mod 2 ^ bs).
  assert (Hd : 0 <= d) by (apply Z.mod_pos_bound; lia). pose proof (Base_pow_pos ds ltac:(lia)).
  pose proof (pv_bound (digits x) ds (wf_digits x Hx) ltac:(lia)). cbn [andb].
  wp_step; bsplit.
  { wp_step. symmetry. apply negb_true_iff, Z.eqb_neq.
    assert (1 * Base ^ ds <= d * Base ^ ds) by (apply Z.mul_le_mono_nonneg_r; lia). lia. }
  rewrite Hc0, Z.mul_0_l, Z.add_0_l.
  eapply (wp_loop (fun i => 0 <= i <= ds /\ forall j, 0 <= j < i -> zget (digits x) j = 0) (fun i => ds - i)).
  { split; [lia|]. intros; lia. }
  { lia. }
  { intros; lia. }
  intros i [Hi Hall]. wp_step; bsplit.
  - wp_step. apply wp_digit; [lia|]. wp_step. destruct (Z.eqb_spec (zget (digits x) i) 0) as [E|E]; cbn [negb].
    + split; [split; [lia|]|lia]. intros j Hj. destruct (Z.eq_dec j i) as [->|]; [done|]. apply Hall. lia.
    + pose proof (low_digit_nonzero _ i ds (wf_digits x Hx) ltac:(lia) E). lia.
  - wp_step. assert (i = ds) as -> by lia. rewrite (pv_stable _ 0 ds), pv_0 by (lia || (intros; apply Hall; lia)). done.
Qed.

Lemma dropped_mod x ds bs : digits_ok (digits x) -> 0 <= ds < digitLength x -> 0 <= bs < DigitBits ->
  dropped x ds bs = absval x mod (Base ^ ds * 2 ^ bs).
Proof.
  intros Hx Hds Hbs. pose proof (dropped_bound x ds bs Hx ltac:(lia) ltac:(lia)) as Hb.
  pose proof (absval_split x ds Hx ltac:(lia)) as [E _]. rewrite high_step in E by (done || lia).
  assert (H2 : 0 < 2 ^ bs) by (apply Z.pow_pos_nonneg; lia). unfold dropped in *.
  set (d := zget (digits x) ds) in *. pose proof (Z.div_mod d (2 ^ bs) ltac:(lia)) as Hdm.
  apply Z.mod_unique_pos with (high x (ds + 1) * 2 ^ (DigitBits - bs) + d / 2 ^ bs); [done|].
  assert (EB : Base = 2 ^ bs * 2 ^ (DigitBits - bs)) by (apply Base_split; lia).
  rewrite E, EB at 1. rewrite Hdm at 1. ring.
Qed.

(** The digits kept by a shift: [r] holds [|x| / 2^k]. *)
Lemma kept_value x r ds bs : wf x -> 0 <= ds < digitLength x -> 0 <= bs ->
  absval r * (Base ^ ds * 2 ^ bs) + dropped x ds bs = absval x ->
  absval r = absval x / (Base ^ ds * 2 ^ bs).
Proof.
  intros Hx Hds Hbs Heq. pose proof (dropped_bound x ds bs (wf_digits x Hx) ltac:(lia) Hbs).
  apply Z.div_unique_pos with (dropped x ds bs); lia.
Qed.

(** The copy of the digits, for a result of exactly the kept length. *)
Lemma rsh_copy_spec x neg ds bs r0 : wf x -> 0 <= ds < digitLength x -> 0 <= bs < DigitBits ->
  shape neg (digitLength x - ds) r0 ->
  wp (if bs =? 0 then
        for_ ds (digitLength x) (fun i result => d ← digit x i; setDigit result (i - ds) d) r0
      else
        d ← digit x ds;
        carry ← shr d bs;
        let last := digitLength x - ds - 1 in
        '(result, carry) ← for_ 0 last (fun i '(result, carry) =>
            d ← digit x (i + ds + 1);
            high ← shl d (DigitBits - bs);
            result ← setDigit result i (Z.lor high carry);
            carry ← shr d bs;
            mret (result, carry)) (r0, carry);
        setDigit result last carry)
    (fun r => shape neg (digitLength x - ds) r /\ absval r = absval x / (Base ^ ds * 2 ^ bs)) no_error.
Proof.
  intros Hx Hds Hbs Hr0. set (n := digitLength x - ds) in *. pose proof (Base_pow_pos ds ltac:(lia)).
  assert (Hend : forall r, shape neg n r -> pv (digits r) n * (Base ^ ds * 2 ^ bs) + dropped x ds bs = absval x ->
    shape neg n r /\ absval r = absval x / (Base ^ ds * 2 ^ bs)).
  { intros r Hr Hv. rewrite <- (absval_shape _ _ _ Hr) in Hv. split; [done|]. apply kept_value; (done || lia). }
  assert (H2 : 0 < 2 ^ bs) by (apply Z.pow_pos_nonneg; lia).
  wp_step; bsplit.
  - unfold dropped in *. rewrite Hc in *. rewrite Z.pow_0_r, Z.mod_1_r, Z.mul_0_l, Z.add_0_l, !Z.mul_1_r in *.
    eapply (wp_for (fun i r => shape neg n r /\ pv (digits r) (i - ds) * Base ^ ds + pv (digits x) ds = pv (digits x) i)); [lia|..].
    + split; [done|]. rewrite Z.sub_diag, pv_0. lia.
    + intros i r Hi [Hr Hv]. pose proof Hr as (_ & Hl & _). wp_step. apply wp_digit; [lia|].
      apply wp_setDigit; [unfold n in Hl; lia|]. split; [apply shape_with_digit; [done|by apply wf_digit]|].
      unfold with_digit, digitLength in *. cbn [digits]. replace (i + 1 - ds) with (i - ds + 1) by lia.
      rewrite pv_zset_next, pv_succ, <- Hv by (unfold n in Hl; lia).
      replace (Base ^ i) with (Base ^ (i - ds) * Base ^ ds) by (rewrite <- Z.pow_add_r by lia; f_equal; lia). ring.
    + intros r [Hr Hv]. fold n in Hv. apply Hend; [done|]. by rewrite absval_pv.
  - set (t := DigitBits - bs) in *. assert (Ht : 0 < t < DigitBits) by (unfold t; lia).
    assert (H2t : 0 < 2 ^ t) by (apply Z.pow_pos_nonneg; lia).
    assert (EB : Base = 2 ^ bs * 2 ^ t) by (apply Base_split; lia).
    wp_step. apply wp_digit; [lia|]. wp_step. apply wp_shr; [lia|]. cbv zeta. wp_step. fold n.
    eapply (wp_for (fun i '(r, c) => shape neg n r /\ 0 <= c < 2 ^ t /\
      (pv (digits r) i + c * Base ^ i) * (Base ^ ds * 2 ^ bs) + dropped x ds bs = pv (digits x) (ds + i + 1))); [lia|..].
    + split; [done|]. pose proof (wf_digit x ds Hx) as Hg. unfold digit_ok in Hg.
      split; [split; [apply Z.div_pos; lia|apply Z.div_lt_upper_bound; lia]|].
      rewrite pv_0, Z.pow_0_r, Z.add_0_r, pv_succ by lia. unfold dropped.
      pose proof (Z.div_mod (zget (digits x) ds) (2 ^ bs) ltac:(lia)) as Hdm.
      apply (f_equal (fun z => z * Base ^ ds)) in Hdm. lia.
    + intros i [r c] Hi (Hr & Hcb & Hv). pose proof Hr as (_ & Hl & _). wp_step. apply wp_digit; [unfold n in Hi; lia|].
      pose proof (shift_column _ t c (wf_digit x (i + ds + 1) Hx) Ht Hcb) as (Hok & Hout & Hsc).
      replace (DigitBits - t) with bs in * by (unfold t; lia).
      wp_step. apply wp_shl; [lia|]. wp_step. apply wp_setDigit; [lia|]. wp_step. apply wp_shr; [lia|]. wp_step.
      split; [by apply shape_with_digit|]. split; [done|]. unfold with_digit, digitLength in *. cbn [digits].
      rewrite pv_zset_next by lia. replace (ds + (i + 1) + 1) with (ds + i + 1 + 1) by lia.
      rewrite (pv_succ _ (ds + i + 1)), <- Hv by lia. replace (i + ds + 1) with (ds + i + 1) in * by lia.
      set (d := zget (digits x) (ds + i + 1)) in *.
      replace (Base ^ (ds + i + 1)) with (Base ^ ds * (2 ^ bs * 2 ^ t * Base ^ i))
        by (rewrite <- EB, <- Base_pow_succ, <- Z.pow_add_r by lia; f_equal; lia).
      rewrite Base_pow_succ by lia.
      apply (f_equal (fun z => z * Base ^ i * (Base ^ ds * 2 ^ bs))) in Hsc. lia.
    + intros [r c] (Hr & Hcb & Hv). pose proof Hr as (_ & Hl & Hd).
      assert (2 ^ t < Base) by (unfold Base; apply Z.pow_lt_mono_r; lia).
      apply wp_setDigit; [lia|]. apply Hend; [apply shape_with_digit; [done|unfold digit_ok; lia]|].
      unfold with_digit, digitLength in *. cbn [digits].
      replace (pv (zset (digits r) (n - 1) c) n) with (pv (zset (digits r) (n - 1) c) (n - 1 + 1)) by (f_equal; lia).
      rewrite pv_zset_next, Hv by lia. rewrite absval_pv. f_equal. unfold n, digitLength. lia.
Qed.

Lemma rshByAbsolute_spec x y : wf x -> wf y -> rounding_reads_junk x y = false ->
  wp (rshByAbsolute x y) (fun r => denotes r (value x / 2 ^ absval y)) no_error.
Proof.
  intros Hx Hy Hjunk. unfold rshByAbsolute. wp_step.
  { wp_step. apply orb_true_iff in Hc as [Hz|Hz].
    - split; [done|]. rewrite zero_value by done. pose proof (wf_absval_nonneg y Hy).
      assert (0 < 2 ^ absval y) by (apply Z.pow_pos_nonneg; lia). symmetry. apply Z.div_0_l. lia.
    - split; [done|]. unfold isZero in Hz. by rewrite (absval_zero_length y), Z.pow_0_r, Z.div_1_r by lia. }
  bsplit. apply nonzero_length in H, H0. pose proof (absval_pos x Hx H). pose proof (absval_pos y Hy H0).
  pose proof Base_big. pose proof (absval_bound x (wf_digits x Hx)) as Hxb. pose proof (wf_length x Hx) as Hlx.
  pose proof DigitBits_pos.
  wp_step. apply (count_test y _ MaxBitLength); [done|done|unfold MaxBitLength; lia|intros; lia|..].
  { intros Hbig. apply rshByMaximum_spec; [done|lia| |done].
    assert (2 ^ MaxBitLength <= 2 ^ absval y) by (apply Z.pow_le_mono_r; lia). rewrite max_bits in *.
    assert (Base ^ digitLength x <= Base ^ MaxDigitLength) by (apply Z.pow_le_mono_r; lia). lia. }
  intros Hsmall Hy1 Hyd. wp_step. apply wp_digit; [lia|]. rewrite Hyd.
  destruct (split_shift (absval y)) as (Esh & Hds & Hbs); [lia|].
  unfold rounding_reads_junk in Hjunk. set (ds := absval y / DigitBits) in *. set (bs := absval y mod DigitBits) in *.
  set (len := digitLength x) in *. assert (Hay : absval y = DigitBits * ds + bs) by (apply Z.div_mod; lia).
  assert (H2b : 0 < 2 ^ bs) by (apply Z.pow_pos_nonneg; lia).
  wp_step; bsplit.
  { apply rshByMaximum_spec; [done|lia| |done]. rewrite Esh. pose proof (Base_pow_pos ds Hds).
    assert (Base ^ len <= Base ^ ds) by (apply Z.pow_le_mono_r; lia).
    assert (Base ^ ds * 1 <= Base ^ ds * 2 ^ bs) by (apply Z.mul_le_mono_nonneg_l; lia). lia. }
  assert (Hdrop : dropped x ds bs = absval x mod 2 ^ absval y)
    by (rewrite Esh; apply dropped_mod; [by apply wf_digits|lia|lia]).
  wp_step. eapply wp_mono; [by apply must_round_down_spec; [|lia|]| |intros e []].
  rewrite Hdrop. set (low := absval x mod 2 ^ absval y) in *. intros round Hround.
  wp_step. apply wp_digit; [lia|].
  replace (round && (bs =? 0) && _) with false.
  2: { rewrite Hround. symmetry. replace (negb (absval y =? 0)) with true in Hjunk by lia.
       replace (absval y <? DigitBits * len) with true in Hjunk.
       - destruct (isNegative x), (bs =? 0), (low =? 0), (zget (digits x) (len - 1) =? Base - 1); done.
       - symmetry. apply Z.ltb_lt. assert (DigitBits * (ds + 1) <= DigitBits * len) by (apply Z.mul_le_mono_nonneg_l; lia). lia. }
  wp_step. wp_step; [lia|]. wp_step. apply wp_create_ok; [lia|]. intros r0 Hr0.
  wp_step. eapply wp_mono; [apply (rsh_copy_spec x (isNegative x) ds bs r0 Hx); [lia|lia|done]| |intros e []].
  fold len. intros r [Hr Hrv]. rewrite <- Esh in Hrv. pose proof Hr as (_ & Hl & Hd).
  assert (H2y : 2 <= 2 ^ absval y) by (change 2 with (2 ^ 1) at 1; apply Z.pow_le_mono_r; lia).
  rewrite value_signed, signed_floor by lia. fold low. rewrite <- Hround, <- Hrv.
  destruct round; cbn [Z.b2z].
  - symmetry in Hround. apply andb_true_iff in Hround as [Hneg _].
    wp_step. wp_step; [done|].
    eapply wp_mono; [apply absoluteAddOne_spec; [done|lia]|done|].
    intros e [-> Hbig]. exfalso.
    assert (absval r * 2 <= absval x).
    { rewrite Hrv. pose proof (Z.mul_div_le (absval x) (2 ^ absval y)).
      assert (absval x / 2 ^ absval y * 2 <= absval x / 2 ^ absval y * 2 ^ absval y)
        by (apply Z.mul_le_mono_nonneg_l; [apply Z.div_pos; lia|lia]). lia. }
    assert (Base ^ len <= Base ^ MaxDigitLength) by (apply Z.pow_le_mono_r; lia).
    assert (Base ^ 1 <= Base ^ MaxDigitLength) by (apply Z.pow_le_mono_r; lia). lia.
  - rewrite Z.add_0_r. pose proof (trim_spec _ _ r Hr) as Ht. rewrite <- (absval_shape _ _ _ Hr) in Ht.
    apply Ht; lia.
Qed.

Lemma lsh_spec x y : wf x -> wf y -> (value y < 0 -> rounding_reads_junk x y = false) ->
  wp (lsh x y) (fun r => denotes r (Z.shiftl (value x) (value y)))
    (fun e => 0 < value y /\ shift_too_large x y e).
Proof.
  intros Hx Hy Hj. unfold lsh. pose proof (wf_value_neg y Hy) as Hn. pose proof (wf_abs_value y Hy) as Ha.
  wp_step; rewrite Hc in Hn.
  - replace (value y) with (- absval y) by lia. rewrite Z.shiftl_opp_r, Z.shiftr_div_pow2 by lia.
    eapply wp_mono; [apply rshByAbsolute_spec; [done|done|apply Hj; lia]|done|intros e []].
  - replace (value y) with (absval y) by lia. rewrite Z.shiftl_mul_pow2 by lia.
    eapply wp_mono; [by apply lshByAbsolute_spec|done|]. intros e [-> Hbig]. split; [|done].
    destruct (Z.eq_dec (absval y) 0) as [E|]; [|lia]. exfalso. rewrite E, Z.pow_0_r in Hbig.
    pose proof (absval_bound x (wf_digits x Hx)). pose proof (wf_length x Hx). pose proof Base_pos.
    assert (Base ^ digitLength x <= Base ^ MaxDigitLength) by (apply Z.pow_le_mono_r; lia). lia.
Qed.

Lemma rsh_spec x y : wf x -> wf y -> (0 <= value y -> rounding_reads_junk x y = false) ->
  wp (rsh x y) (fun r => denotes r (Z.shiftr (value x) (value y)))
    (fun e => value y < 0 /\ shift_too_large x y e).
Proof.
  intros Hx Hy Hj. unfold rsh. pose proof (wf_value_neg y Hy) as Hn. pose proof (wf_abs_value y Hy) as Ha.
  wp_step; rewrite Hc in Hn.
  - replace (value y) with (- absval y) by lia. rewrite Z.shiftr_opp_r, Z.shiftl_mul_pow2 by lia.
    eapply wp_mono; [by apply lshByAbsolute_spec|done|]. intros e He. split; [lia|done].
  - replace (value y) with (absval y) by lia. rewrite Z.shiftr_div_pow2 by lia.
    eapply wp_mono; [apply rshByAbsolute_spec; [done|done|apply Hj; lia]|done|intros e []].
Qed.

(** ** The digit that rounding does not write *)

(** The allocator that grants every request and whose buffers hold [j]. *)
Definition heap_of (j : Z) : allocator := Allocator (fun _ => false) (fun _ _ => j).

Lemma heap_never_fails j : ~ may_fail (heap_of j).
Proof. by intros [n Hn]. Qed.

Lemma create_heap j len neg (Q : bigint -> Prop) E : digit_ok j -> 0 <= len <= MaxDigitLength ->
  Q (BigInt neg (replicate (Z.to_nat len) j)) -> wp_at (heap_of j) (createUninitialized len neg) Q E.
Proof.
  intros Hj Hlen HQ. unfold createUninitialized. replace (len >? MaxDigitLength) with false by lia.
  assert (Hcells : forall n, wp_at (heap_of j) (ds ← uninitialized n (Z.to_nat len); mret (BigInt neg (wrap <$> ds))) Q E).
  { intros n. wp_step. apply wpa_uninitialized. wp_step. replace (wrap <$> _) with (replicate (Z.to_nat len) j); [exact HQ|]. rewrite <- list_fmap_compose.
    symmetry. rewrite (const_fmap _ _ j); [by rewrite length_seq|]. intros ? ? _. cbn. by rewrite wrap_small. }
  wp_step. apply wpa_allocate. intros cell. wp_step. wp_step; [apply wpa_allocate; intros n; apply Hcells|wp_step; apply Hcells].
Qed.

(** A right shift by whole digits copies the kept digits and leaves the one
    above them as it finds it. *)
Lemma rsh_copy_junk x neg ds r0 j : wf x -> 0 <= ds < digitLength x -> shape neg (digitLength x - ds + 1) r0 -> zget (digits r0) (digitLength x - ds) = j ->
  wp (for_ ds (digitLength x) (fun i result => d ← digit x i; setDigit result (i - ds) d) r0)
    (fun r => shape neg (digitLength x - ds + 1) r /\ absval r = absval x / Base ^ ds + j * Base ^ (digitLength x - ds)) no_error.
Proof.
  intros Hx Hds Hr0 Hj0. set (n := digitLength x - ds) in *. pose proof (Base_pow_pos ds ltac:(lia)) as HB.
  eapply (wp_for (fun i r => shape neg (n + 1) r /\ zget (digits r) n = j /\ pv (digits r) (i - ds) * Base ^ ds + pv (digits x) ds = pv (digits x) i)); [lia|..].
  - split; [done|]. split; [done|]. rewrite Z.sub_diag, pv_0. lia.
  - intros i r Hi (Hr & Hjr & Hv). pose proof Hr as (_ & Hl & _). wp_step. apply wp_digit; [lia|]. apply wp_setDigit; [unfold n in Hl; lia|].
    split; [apply shape_with_digit; [done|by apply wf_digit]|]. unfold with_digit, digitLength in *. cbn [digits]. split; [rewrite zget_zset_other by (unfold n; lia); done|].
    replace (i + 1 - ds) with (i - ds + 1) by lia. rewrite pv_zset_next, pv_succ, <- Hv by (unfold n in Hl; lia).
    replace (Base ^ i) with (Base ^ (i - ds) * Base ^ ds) by (rewrite <- Z.pow_add_r by lia; f_equal; lia). ring.
  - intros r (Hr & Hjr & Hv). fold n in Hv. split; [done|]. rewrite (absval_shape _ _ _ Hr), pv_succ, Hjr by (unfold n; lia). f_equal.
    pose proof (pv_bound (digits x) ds (wf_digits x Hx) ltac:(lia)). rewrite absval_pv. apply Z.div_unique_pos with (pv (digits x) ds); lia.
Qed.

(** The rounded result is off by what the extra digit held. *)
Lemma rshByAbsolute_junk x y j : wf x -> wf y -> rounding_reads_junk x y = true -> 0 <= j < Base - 1 ->
  wp_at (heap_of j) (rshByAbsolute x y) (fun r => denotes r (value x / 2 ^ absval y - j * Base ^ (digitLength x - absval y / DigitBits))) no_error.
Proof.
  intros Hx Hy Hjunk Hj. unfold rounding_reads_junk in Hjunk. bsplit. unfold rshByAbsolute. set (len := digitLength x) in *. pose proof DigitBits_pos. pose proof Base_big. pose proof (wf_absval_nonneg y Hy) as Hy0.
  match goal with H : absval x mod _ <> 0 |- _ => rename H into Hlow end. match goal with H : zget (digits x) (len - 1) = _ |- _ => rename H into Htop end. match goal with H : absval y < _ |- _ => rename H into Hcount end. match goal with H : absval y mod DigitBits = 0 |- _ => rename H into Hbits end. match goal with H : isNegative x = true |- _ => rename H into Hneg end.
  assert (Hlen : 0 < len) by (destruct (Z.eq_dec len 0) as [E|]; [rewrite E, Z.mul_0_r in Hcount; lia|pose proof (digitLength_nonneg x); unfold len in *; lia]).
  assert (Hylen : 0 < digitLength y) by (pose proof (digitLength_nonneg y); destruct (Z.eq_dec (digitLength y) 0) as [E|]; [pose proof (absval_zero_length y ltac:(lia)); lia|lia]).
  pose proof (wf_length x Hx) as Hlx. fold len in Hlx. unfold isZero. fold len. replace (len =? 0) with false by lia. replace (digitLength y =? 0) with false by lia. cbn [orb].
  assert (Hmax : DigitBits * len <= MaxBitLength) by (rewrite MaxBitLength_digits; apply Z.mul_le_mono_nonneg_l; lia).
  wp_step. apply wp_wpa, (count_test y _ MaxBitLength); [done|done|unfold MaxBitLength; lia|intros; lia|lia|]. intros _ Hy1 Hyd.
  destruct (split_shift (absval y)) as (Esh & Hds & _); [lia|]. rewrite Hbits, Z.pow_0_r, Z.mul_1_r in Esh. set (ds := absval y / DigitBits) in *.
  assert (Hay : absval y = DigitBits * ds) by (unfold ds; rewrite (Z.div_mod (absval y) DigitBits) at 1 by lia; lia).
  assert (Hdsl : ds < len) by (rewrite Hay in Hcount; by apply Z.mul_lt_mono_pos_l in Hcount). assert (Hds1 : 0 < ds) by (destruct (Z.eq_dec ds 0) as [E|]; [rewrite E in Hay; lia|lia]).
  wp_step. apply wp_wpa, wp_digit; [lia|]. rewrite Hyd. fold ds. rewrite Hbits. cbv zeta. replace (len - ds <=? 0) with false by lia.
  wp_step. eapply wpa_mono; [apply wp_wpa, (must_round_down_spec x ds 0 Hx); lia| |intros e []]. rewrite dropped_mod, Z.pow_0_r, Z.mul_1_r, <- Esh by (by apply wf_digits || lia). rewrite Hneg. replace (absval x mod 2 ^ absval y =? 0) with false by lia. cbn [negb andb]. intros round ->.
  wp_step. apply wp_wpa, wp_digit; [lia|]. rewrite Htop, !Z.eqb_refl. cbn [andb]. wp_step. wp_step; [lia|]. wp_step. apply create_heap; [unfold digit_ok; lia|lia|].
  set (r0 := BigInt true _). assert (Hr0 : shape true (len - ds + 1) r0).
  { split; [done|]. split; [unfold digitLength, zlen; cbn; rewrite length_replicate; lia|]. apply Forall_replicate. unfold digit_ok. lia. }
  assert (Hj0 : zget (digits r0) (len - ds) = j) by (unfold zget; cbn; replace (len - ds <? 0) with false by lia; rewrite nth_lookup, lookup_replicate_2 by lia; done).
  wp_step. eapply wpa_mono; [apply wp_wpa, (rsh_copy_junk x true ds r0 j Hx ltac:(lia) Hr0 Hj0)| |intros e []]. fold len. intros r [Hr Hv]. pose proof Hr as (_ & Hl & Hd). rewrite <- Esh in Hv.
  wp_step. wp_step; [done|]. eapply wpa_mono; [apply wp_wpa, absoluteAddOne_spec; [done|lia]| |].
  - intros res Hres. rewrite Hv in Hres. replace (value x / 2 ^ absval y) with (- (absval x / 2 ^ absval y + 1)); [cbn [signed] in Hres; by replace (- (absval x / 2 ^ absval y + 1) - j * Base ^ (len - ds)) with (- (absval x / 2 ^ absval y + j * Base ^ (len - ds) + 1)) by lia|].
    assert (0 < 2 ^ absval y) by (apply Z.pow_pos_nonneg; lia). pose proof (wf_absval_nonneg x Hx). rewrite value_signed, Hneg, signed_floor by lia. replace (absval x mod 2 ^ absval y =? 0) with false by lia. cbn. lia.
  - intros e [_ Hbig]. exfalso. rewrite Hv in Hbig. assert (Hkept : absval x / 2 ^ absval y < Base ^ (len - ds)).
      { apply Z.div_lt_upper_bound; [by apply Z.pow_pos_nonneg; lia|]. rewrite Esh, <- Z.pow_add_r by lia. replace (ds + (len - ds)) with len by lia. apply absval_bound, wf_digits, Hx. }
      assert (Base ^ (len - ds + 1) <= Base ^ MaxDigitLength) by (apply Z.pow_le_mono_r; lia). rewrite Z.pow_add_r, Z.pow_1_r in * by lia.
      assert (j * Base ^ (len - ds) <= (Base - 2) * Base ^ (len - ds)) by (apply Z.mul_le_mono_nonneg_r; lia). lia.
Qed.
End right_shift.
