(* ===== verification/BigIntBitwise.v ===== *)
(** Bitwise operations on BigInts (vm/BigIntType.cpp: [absoluteBitwiseOp],
    [absoluteAnd], [absoluteOr], [absoluteAndNot], [absoluteXor], [bitAnd],
    [bitXor], [bitOr], [bitNot]): sign-magnitude implementations of the
    two's-complement operations on integers. *)
From S2P Require Import Prelude Words BigIntRep BigIntAdd BigIntMul.

(** * Definitions *)

Inductive BitwiseOpKind := SymmetricTrim | SymmetricFill | AsymmetricFill.

#[global] Instance BitwiseOpKind_eq_dec : EqDecision BitwiseOpKind.
Proof. solve_decision. Defined.

Section definitions.
Context {P : Platform}.

Definition absoluteBitwiseOp (kind : BitwiseOpKind) (op : Z -> Z -> Z) (x y : bigint) : M bigint :=
  let xLength := digitLength x in
  let yLength := digitLength y in
  let numPairs := Z.min xLength yLength in
  let resultLength :=
    match kind with
    | SymmetricTrim => numPairs
    | SymmetricFill => Z.max xLength yLength
    | AsymmetricFill => xLength
    end in
  let resultNegative := false in
  result ← createUninitialized resultLength resultNegative;
  result ← for_ 0 numPairs (fun i result =>
      dx ← digit x i;
      dy ← digit y i;
      setDigit result i (op dx dy)) result;
  '(result, i) ← (if decide (kind = SymmetricTrim) then mret (result, numPairs)
    else
      let source := if decide (kind = AsymmetricFill) then x
                    else if xLength =? numPairs then y else x in
      result ← for_ numPairs resultLength (fun i result =>
          d ← digit source i;
          setDigit result i d) result;
      mret (result, Z.max numPairs resultLength));
  moz_assert (i =? resultLength);;
  destructivelyTrimHighZeroDigits result.

Definition absoluteAnd (x y : bigint) : M bigint := absoluteBitwiseOp SymmetricTrim Z.land x y.
Definition absoluteOr (x y : bigint) : M bigint := absoluteBitwiseOp SymmetricFill Z.lor x y.
Definition absoluteAndNot (x y : bigint) : M bigint :=
  absoluteBitwiseOp AsymmetricFill (fun a b => Z.land a (wrap (Z.lnot b))) x y.
Definition absoluteXor (x y : bigint) : M bigint := absoluteBitwiseOp SymmetricFill Z.lxor x y.

Definition bitAnd (x y : bigint) : M bigint :=
  if isZero x then mret x
  else if isZero y then mret y
  else if negb (isNegative x) && negb (isNegative y) then absoluteAnd x y
  else if isNegative x && isNegative y then
    x1 ← absoluteSubOne x false;
    y1 ← absoluteSubOne y false;
    result ← absoluteOr x1 y1;
    absoluteAddOne result true
  else
    moz_assert (negb (Bool.eqb (isNegative x) (isNegative y)));;
    let pos := if isNegative x then y else x in
    let neg := if isNegative x then x else y in
    neg1 ← absoluteSubOne neg false;
    absoluteAndNot pos neg1.

Definition bitXor (x y : bigint) : M bigint :=
  if isZero x then mret y
  else if isZero y then mret x
  else if negb (isNegative x) && negb (isNegative y) then absoluteXor x y
  else if isNegative x && isNegative y then
    x1 ← absoluteSubOne x false;
    y1 ← absoluteSubOne y false;
    absoluteXor x1 y1
  else
    moz_assert (negb (Bool.eqb (isNegative x) (isNegative y)));;
    let pos := if isNegative x then y else x in
    let neg := if isNegative x then x else y in
    result ← absoluteSubOne neg false;
    result ← absoluteXor result pos;
    absoluteAddOne result true.

Definition bitOr (x y : bigint) : M bigint :=
  if isZero x then mret y
  else if isZero y then mret x
  else
    let resultNegative := isNegative x || isNegative y in
    if negb resultNegative then absoluteOr x y
    else if isNegative x && isNegative y then
      result ← absoluteSubOne x false;
      y1 ← absoluteSubOne y false;
      result ← absoluteAnd result y1;
      absoluteAddOne result resultNegative
    else
      moz_assert (negb (Bool.eqb (isNegative x) (isNegative y)));;
      let pos := if isNegative x then y else x in
      let neg := if isNegative x then x else y in
      result ← absoluteSubOne neg false;
      result ← absoluteAndNot result pos;
      absoluteAddOne result resultNegative.

Definition bitNot (x : bigint) : M bigint :=
  if isNegative x then absoluteSubOne x false
  else absoluteAddOne x true.
End definitions.

(** * Bitwise operations digit by digit *)

(** A binary operation on integers that acts on each bit alone. *)
Class BitOp (F : Z -> Z -> Z) (g : bool -> bool -> bool) := {
  bitop_spec a b i : Z.testbit (F a b) i = g (Z.testbit a i) (Z.testbit b i);
  bitop_zero : g false false = false;
}.

#[global] Instance land_bitop : BitOp Z.land andb := {| bitop_spec := Z.land_spec; bitop_zero := eq_refl |}.
#[global] Instance lor_bitop : BitOp Z.lor orb := {| bitop_spec := Z.lor_spec; bitop_zero := eq_refl |}.
#[global] Instance lxor_bitop : BitOp Z.lxor xorb := {| bitop_spec := Z.lxor_spec; bitop_zero := eq_refl |}.
#[global] Instance ldiff_bitop : BitOp Z.ldiff (fun a b => a && negb b) :=
  {| bitop_spec := Z.ldiff_spec; bitop_zero := eq_refl |}.

Section bitop.
Context (F : Z -> Z -> Z) (g : bool -> bool -> bool) `{HF : !BitOp F g}.

Lemma bitop_mod a b k : 0 <= k -> F a b mod 2 ^ k = F (a mod 2 ^ k) (b mod 2 ^ k).
Proof.
  intros Hk. apply Z.bits_inj'. intros i Hi. rewrite (bitop_spec (F:=F)).
  destruct (Z_lt_le_dec i k).
  - by rewrite !Z.mod_pow2_bits_low, (bitop_spec (F:=F)) by lia.
  - by rewrite !Z.mod_pow2_bits_high, bitop_zero by lia.
Qed.

Lemma bitop_div a b k : 0 <= k -> F a b / 2 ^ k = F (a / 2 ^ k) (b / 2 ^ k).
Proof.
  intros Hk. rewrite <- !Z.shiftr_div_pow2 by done. apply Z.bits_inj'. intros i Hi.
  by rewrite (bitop_spec (F:=F)), !Z.shiftr_spec, (bitop_spec (F:=F)) by done.
Qed.

(** The operation distributes over a split of both operands. *)
Lemma bitop_split a b c d k : 0 <= k -> 0 <= a < 2 ^ k -> 0 <= b < 2 ^ k ->
  F (a + c * 2 ^ k) (b + d * 2 ^ k) = F a b + F c d * 2 ^ k.
Proof.
  intros Hk Ha Hb. assert (0 < 2 ^ k) by (apply Z.pow_pos_nonneg; lia).
  rewrite (Z.div_mod (F (a + _) _) (2 ^ k)), bitop_div, bitop_mod, !Z.mod_add, !Z.div_add by lia.
  rewrite !(Z.mod_small a), !(Z.mod_small b), !(Z.div_small a), !(Z.div_small b) by lia. rewrite !Z.add_0_l. lia.
Qed.

Lemma bitop_bound a b k : 0 <= k -> 0 <= a < 2 ^ k -> 0 <= b < 2 ^ k -> 0 <= F a b < 2 ^ k.
Proof.
  intros Hk Ha Hb. pose proof (bitop_mod a b k Hk) as E. rewrite !(Z.mod_small a), !(Z.mod_small b) in E by done.
  rewrite <- E. apply Z.mod_pos_bound, Z.pow_pos_nonneg; lia.
Qed.

Context {P : Platform}.

Lemma Base_pow i : 0 <= i -> Base ^ i = 2 ^ (DigitBits * i).
Proof. intros Hi. unfold Base. pose proof DigitBits_pos. by rewrite Z.pow_mul_r by lia. Qed.

Lemma bitop_digit a b : digit_ok a -> digit_ok b -> digit_ok (F a b).
Proof. unfold digit_ok, Base. pose proof DigitBits_pos. intros. apply bitop_bound; lia. Qed.

Lemma bitop_pv_succ l m i : digits_ok l -> digits_ok m -> 0 <= i ->
  F (pv l (i + 1)) (pv m (i + 1)) = F (pv l i) (pv m i) + F (zget l i) (zget m i) * Base ^ i.
Proof.
  intros Hl Hm Hi. rewrite !pv_succ by done. pose proof (pv_bound l i Hl Hi). pose proof (pv_bound m i Hm Hi).
  pose proof DigitBits_pos. rewrite Base_pow in * by done.
  apply bitop_split; [apply Z.mul_nonneg_nonneg; lia|done|done].
Qed.

Lemma bitop_00 : F 0 0 = 0.
Proof. apply Z.bits_inj'. intros i Hi. by rewrite (bitop_spec (F:=F)), Z.bits_0, bitop_zero. Qed.

(** Digits on which the operation vanishes do not count. *)
Lemma bitop_stable l m n N : digits_ok l -> digits_ok m -> 0 <= n <= N ->
  (forall k, n <= k < N -> F (zget l k) (zget m k) = 0) -> F (pv l N) (pv m N) = F (pv l n) (pv m n).
Proof.
  intros Hl Hm Hn. replace N with (n + Z.of_nat (Z.to_nat (N - n))) by lia. generalize (Z.to_nat (N - n)).
  intros k Hz. induction k as [|k IH]; [by rewrite Z.add_0_r|].
  replace (n + Z.of_nat (S k)) with (n + Z.of_nat k + 1) in * by lia.
  rewrite bitop_pv_succ, IH, Hz by (done || lia || (intros; apply Hz; lia)). lia.
Qed.

(** How the digits beyond the shorter operand come out. *)
Definition fill_ok (kind : BitwiseOpKind) : Prop :=
  match kind with
  | SymmetricTrim => forall a, F a 0 = 0 /\ F 0 a = 0
  | SymmetricFill => forall a, F a 0 = a /\ F 0 a = a
  | AsymmetricFill => forall a, F a 0 = a /\ F 0 a = 0
  end.

Lemma absoluteBitwiseOp_spec kind op x y : wf x -> wf y -> fill_ok kind ->
  (forall a b, digit_ok a -> digit_ok b -> op a b = F a b) ->
  wp (absoluteBitwiseOp kind op x y) (fun r => denotes r (F (absval x) (absval y))) no_error.
Proof.
  intros Hx Hy Hfill Hop. unfold absoluteBitwiseOp. pose proof (wf_length x Hx). pose proof (wf_length y Hy).
  set (np := Z.min (digitLength x) (digitLength y)).
  set (n := match kind with SymmetricTrim => np | SymmetricFill => Z.max (digitLength x) (digitLength y)
                       | AsymmetricFill => digitLength x end).
  assert (Hn : np <= n <= Z.max (digitLength x) (digitLength y)) by (unfold n, np; destruct kind; lia).
  set (G i := F (pv (digits x) i) (pv (digits y) i)). pose proof (wf_digits x Hx) as Hdx. pose proof (wf_digits y Hy) as Hdy.
  assert (Hsucc : forall i r, 0 <= i < n -> filled false n (G i) i r ->
    filled false n (G (i + 1)) (i + 1) (with_digit r i (F (zget (digits x) i) (zget (digits y) i)))).
  { intros i r Hi Hf. unfold G. rewrite bitop_pv_succ by (done || lia).
    apply filled_step; [done|done|]. apply bitop_digit; by apply wf_digit. }
  wp_step. apply wp_create_ok; [lia|]. intros r0 Hr0. wp_step.
  eapply (wp_for (fun i => filled false n (G i) i)); [lia|..].
  { unfold G. rewrite !pv_0, bitop_00. by apply filled_0. }
  { intros i r Hi Hf. wp_step. apply wp_digit; [lia|]. wp_step. apply wp_digit; [lia|].
    rewrite Hop by (by apply wf_digit). apply wp_setDigit; [rewrite (filled_len _ _ _ _ _ Hf); lia|]. apply Hsucc; [lia|done]. }
  intros r1 Hf1.
  assert (Hsrc : kind <> SymmetricTrim -> forall i, np <= i < n ->
    let source := if decide (kind = AsymmetricFill) then x else if digitLength x =? np then y else x in
    i < digitLength source /\ zget (digits source) i = F (zget (digits x) i) (zget (digits y) i)).
  { unfold np, n, digitLength in *. intros Hk i Hi. destruct kind; [done| |]; cbn [fill_ok] in Hfill.
    - destruct (decide (SymmetricFill = AsymmetricFill)); [done|].
      destruct (Z.eqb_spec (zlen (digits x)) (Z.min (zlen (digits x)) (zlen (digits y)))).
      + split; [lia|]. rewrite (zget_oob (digits x)) by lia. symmetry. apply Hfill.
      + split; [lia|]. rewrite (zget_oob (digits y)) by lia. symmetry. apply Hfill.
    - destruct (decide (AsymmetricFill = AsymmetricFill)); [|done].
      split; [lia|]. rewrite (zget_oob (digits y)) by lia. symmetry. apply Hfill. }
  assert (HG : G n = F (absval x) (absval y)).
  { unfold G, absval. rewrite <- (pv_eval (digits x) (Z.max (digitLength x) (digitLength y))) by (unfold digitLength; lia).
    rewrite <- (pv_eval (digits y) (Z.max (digitLength x) (digitLength y))) by (unfold digitLength; lia).
    symmetry. apply bitop_stable; [done|done|lia|]. unfold n, np, digitLength in *. intros k Hk.
    destruct kind; cbn [fill_ok] in Hfill; [|lia|].
    - destruct (Z_lt_le_dec k (zlen (digits x))).
      + rewrite (zget_oob (digits y)) by lia. apply Hfill.
      + rewrite (zget_oob (digits x)) by lia. apply Hfill.
    - rewrite (zget_oob (digits x)) by lia. apply Hfill. }
  wp_step. apply wp_weaken_ok with (fun '(r, i) => i = n /\ filled false n (G n) n r).
  { destruct (decide (kind = SymmetricTrim)) as [->|Hk]; [by wp_step|]. specialize (Hsrc Hk). cbv zeta in *.
    set (source := if decide _ then x else _) in *. fold n. wp_step.
    eapply (wp_for (fun i => filled false n (G i) i)); [lia|done|..].
    - intros i r Hi Hf. destruct (Hsrc i Hi) as [Hlt Heq]. wp_step. apply wp_digit; [lia|]. rewrite Heq.
      apply wp_setDigit; [rewrite (filled_len _ _ _ _ _ Hf); lia|]. apply Hsucc; [lia|done].
    - intros r Hf. wp_step. split; [lia|done]. }
  intros [r i] [-> Hf]. wp_step. wp_step; [unfold n; lia|]. rewrite HG in Hf.
  eapply wp_mono; [eapply (filled_trim _ _ _ _ Hf); lia|done|done].
Qed.
End bitop.

Section absolute_operations.
Context {P : Platform}.

Lemma absoluteAnd_spec x y : wf x -> wf y ->
  wp (absoluteAnd x y) (fun r => denotes r (Z.land (absval x) (absval y))) no_error.
Proof. intros Hx Hy. apply (absoluteBitwiseOp_spec Z.land andb); [done|done| |done]. intros a. by rewrite Z.land_0_r. Qed.

Lemma absoluteOr_spec x y : wf x -> wf y ->
  wp (absoluteOr x y) (fun r => denotes r (Z.lor (absval x) (absval y))) no_error.
Proof. intros Hx Hy. apply (absoluteBitwiseOp_spec Z.lor orb); [done|done| |done]. intros a. by rewrite Z.lor_0_r. Qed.

Lemma absoluteXor_spec x y : wf x -> wf y ->
  wp (absoluteXor x y) (fun r => denotes r (Z.lxor (absval x) (absval y))) no_error.
Proof. intros Hx Hy. apply (absoluteBitwiseOp_spec Z.lxor xorb); [done|done| |done]. intros a. by rewrite Z.lxor_0_r. Qed.

Lemma digit_andnot a b : digit_ok a -> digit_ok b -> Z.land a (wrap (Z.lnot b)) = Z.ldiff a b.
Proof.
  intros Ha Hb. unfold digit_ok, Base, wrap in *. pose proof DigitBits_pos. apply Z.bits_inj'. intros i Hi.
  rewrite Z.land_spec, Z.ldiff_spec. unfold Base. destruct (Z_lt_le_dec i DigitBits).
  - by rewrite Z.mod_pow2_bits_low, Z.lnot_spec by lia.
  - rewrite Z.mod_pow2_bits_high by lia. rewrite (Z.bits_above_log2 a); [done|lia|].
    destruct (Z.eq_dec a 0) as [->|]; [cbn; lia|]. assert (Z.log2 a < DigitBits) by (apply Z.log2_lt_pow2; lia). lia.
Qed.

Lemma absoluteAndNot_spec x y : wf x -> wf y ->
  wp (absoluteAndNot x y) (fun r => denotes r (Z.ldiff (absval x) (absval y))) no_error.
Proof.
  intros Hx Hy. apply (absoluteBitwiseOp_spec Z.ldiff (fun a b => a && negb b)); [done|done| |apply digit_andnot].
  intros a. by rewrite Z.ldiff_0_r.
Qed.
End absolute_operations.

(** * Signed operations *)

(** A result one below the most negative BigInt. *)
Definition bits_too_large {P : Platform} (v : Z) (e : error) : Prop :=
  e = BigIntTooLarge /\ v = - Base ^ MaxDigitLength.

Section signed_bitwise.
Context {P : Platform}.

Lemma minus_lnot a : - a = Z.lnot (a - 1).
Proof. unfold Z.lnot. lia. Qed.

Lemma negative_lnot x : isNegative x = true -> value x = Z.lnot (absval x - 1).
Proof. intros E. by rewrite negative_value, minus_lnot. Qed.

(** [-(r + 1)] for a nonnegative [r], as all four operations end. *)
Lemma complement_spec r v : denotes r v -> 0 <= v ->
  wp (absoluteAddOne r true) (fun r' => denotes r' (Z.lnot v)) (bits_too_large (Z.lnot v)).
Proof.
  intros [Hr Hv] Hpos. assert (Ha : absval r = v) by (rewrite wf_abs_value by done; lia).
  eapply wp_mono; [apply absoluteAddOne_spec; [by apply wf_digits|by apply wf_length]| |].
  - intros r'. rewrite Ha. replace (Z.lnot v) with (signed true (v + 1)) by (unfold Z.lnot; cbn; lia). done.
  - intros e [-> Hbig]. split; [done|]. unfold Z.lnot. lia.
Qed.

Lemma subOne_spec x : wf x -> 0 < digitLength x ->
  wp (absoluteSubOne x false) (fun r => denotes r (absval x - 1) /\ absval r = absval x - 1) no_error.
Proof.
  intros Hx Hpos. wp_call absoluteSubOne_spec; [done|done|]. intros r [Hr Hv]. split; [done|].
  pose proof (absval_pos x Hx Hpos). rewrite wf_abs_value by done. cbn in Hv. lia.
Qed.

Lemma bitAnd_spec x y : wf x -> wf y ->
  wp (bitAnd x y) (fun r => denotes r (Z.land (value x) (value y))) (bits_too_large (Z.land (value x) (value y))).
Proof.
  intros Hx Hy. unfold bitAnd.
  wp_step; [wp_step; rewrite (zero_value x) by done; split; [done|by apply zero_value]|].
  wp_step; [wp_step; rewrite (zero_value y), Z.land_0_r by done; split; [done|by apply zero_value]|].
  apply nonzero_length in Hc, Hc0.
  destruct (isNegative x) eqn:Ex, (isNegative y) eqn:Ey; cbn [negb andb Bool.eqb].
  - rewrite !negative_lnot, <- Z.lnot_lor by done. pose proof (absval_pos x Hx Hc). pose proof (absval_pos y Hy Hc0).
    wp_step. wp_call subOne_spec; [done|done|]. intros x1 [[Hx1 _] Hv1].
    wp_step. wp_call subOne_spec; [done|done|]. intros y1 [[Hy1 _] Hv2].
    wp_step. wp_call absoluteOr_spec; [done|done|]. intros r Hr. rewrite Hv1, Hv2 in Hr.
    apply complement_spec; [done|]. apply Z.lor_nonneg. lia.
  - rewrite (negative_lnot x), (nonneg_value y) by done. wp_step. wp_step; [done|].
    wp_step. wp_call subOne_spec; [done|done|]. intros x1 [[Hx1 _] Hv1].
    wp_call absoluteAndNot_spec; [done|done|]. intros r Hr. by rewrite Hv1, Z.ldiff_land, Z.land_comm in Hr.
  - rewrite (nonneg_value x), (negative_lnot y) by done. wp_step. wp_step; [done|].
    wp_step. wp_call subOne_spec; [done|done|]. intros y1 [[Hy1 _] Hv1].
    wp_call absoluteAndNot_spec; [done|done|]. intros r Hr. by rewrite Hv1, Z.ldiff_land in Hr.
  - rewrite !nonneg_value by done. wp_call absoluteAnd_spec; done.
Qed.

Lemma bitXor_spec x y : wf x -> wf y ->
  wp (bitXor x y) (fun r => denotes r (Z.lxor (value x) (value y))) (bits_too_large (Z.lxor (value x) (value y))).
Proof.
  intros Hx Hy. unfold bitXor.
  wp_step; [wp_step; by rewrite (zero_value x), Z.lxor_0_l by done|].
  wp_step; [wp_step; by rewrite (zero_value y), Z.lxor_0_r by done|].
  apply nonzero_length in Hc, Hc0.
  assert (Hmix : forall p n, wf p -> wf n -> 0 < digitLength n -> 0 < digitLength p -> isNegative p = false -> isNegative n = true ->
    wp (result ← absoluteSubOne n false; result ← absoluteXor result p; absoluteAddOne result true)
      (fun r => denotes r (Z.lxor (value p) (value n))) (bits_too_large (Z.lxor (value p) (value n)))).
  { intros p n Hp Hn Hln Hlp Ep En. pose proof (absval_pos n Hn Hln). pose proof (absval_pos p Hp Hlp).
    rewrite (nonneg_value p), (negative_lnot n), Z.lxor_comm, <- Z.lnot_lxor_l by done.
    wp_step. wp_call subOne_spec; [done|done|]. intros n1 [[Hn1 _] Hv1].
    wp_step. wp_call absoluteXor_spec; [done|done|]. intros r Hr. rewrite Hv1 in Hr.
    apply complement_spec; [done|]. apply Z.lxor_nonneg. lia. }
  destruct (isNegative x) eqn:Ex, (isNegative y) eqn:Ey; cbn [negb andb Bool.eqb].
  - rewrite !negative_lnot, Z.lxor_lnot_lnot by done.
    wp_step. wp_call subOne_spec; [done|done|]. intros x1 [[Hx1 _] Hv1].
    wp_step. wp_call subOne_spec; [done|done|]. intros y1 [[Hy1 _] Hv2].
    wp_call absoluteXor_spec; [done|done|]. intros r Hr. by rewrite Hv1, Hv2 in Hr.
  - wp_step. wp_step; [done|]. rewrite Z.lxor_comm. by apply Hmix.
  - wp_step. wp_step; [done|]. by apply Hmix.
  - rewrite !nonneg_value by done. wp_call absoluteXor_spec; done.
Qed.

Lemma complement_small r v b : denotes r v -> 0 <= v < b -> b < Base ^ MaxDigitLength ->
  wp (absoluteAddOne r true) (fun r' => denotes r' (Z.lnot v)) no_error.
Proof.
  intros Hr Hv Hb. eapply wp_mono; [apply complement_spec; [done|lia]|done|]. intros e [_ Hbig]. unfold Z.lnot in Hbig. lia.
Qed.

Lemma wf_absval_bound x : wf x -> absval x < Base ^ MaxDigitLength.
Proof.
  intros Hx. pose proof (absval_bound x (wf_digits x Hx)). pose proof (wf_length x Hx). pose proof Base_pos.
  assert (Base ^ digitLength x <= Base ^ MaxDigitLength) by (apply Z.pow_le_mono_r; lia). lia.
Qed.

(** A conjunction does not exceed its first operand. *)
Lemma land_le a b : 0 <= a -> Z.land a b <= a.
Proof.
  intros Ha. assert (E : Z.ldiff (Z.land a b) a = 0).
  { apply Z.bits_inj'. intros i Hi. rewrite Z.ldiff_spec, Z.land_spec, Z.bits_0. by destruct (Z.testbit a i), (Z.testbit b i). }
  apply Z.sub_nocarry_ldiff in E. assert (0 <= Z.ldiff a (Z.land a b)) by (apply Z.ldiff_nonneg; by left). lia.
Qed.

Lemma bitOr_spec x y : wf x -> wf y ->
  wp (bitOr x y) (fun r => denotes r (Z.lor (value x) (value y))) no_error.
Proof.
  intros Hx Hy. unfold bitOr.
  wp_step; [wp_step; by rewrite (zero_value x), Z.lor_0_l by done|].
  wp_step; [wp_step; by rewrite (zero_value y), Z.lor_0_r by done|].
  apply nonzero_length in Hc, Hc0.
  assert (Hmix : forall p n, wf p -> wf n -> 0 < digitLength n -> 0 < digitLength p -> isNegative p = false -> isNegative n = true ->
    wp (result ← absoluteSubOne n false; result ← absoluteAndNot result p; absoluteAddOne result true)
      (fun r => denotes r (Z.lor (value p) (value n))) no_error).
  { intros p n Hp Hn Hln Hlp Ep En. pose proof (absval_pos n Hn Hln). pose proof (absval_pos p Hp Hlp).
    rewrite (nonneg_value p), (negative_lnot n) by done.
    replace (Z.lor (absval p) (Z.lnot (absval n - 1))) with (Z.lnot (Z.ldiff (absval n - 1) (absval p)))
      by (by rewrite Z.ldiff_land, Z.lnot_land, Z.lnot_involutive, Z.lor_comm).
    wp_step. wp_call subOne_spec; [done|done|]. intros n1 [[Hn1 _] Hv1].
    wp_step. wp_call absoluteAndNot_spec; [done|done|]. intros r Hr. rewrite Hv1 in Hr.
    apply complement_small with (absval n); [done| |by apply wf_absval_bound].
    assert (Hle : Z.ldiff (absval n - 1) (absval p) <= absval n - 1) by (rewrite Z.ldiff_land; apply land_le; lia).
    split; [apply Z.ldiff_nonneg; left; lia|lia]. }
  destruct (isNegative x) eqn:Ex, (isNegative y) eqn:Ey; cbn [negb andb orb Bool.eqb].
  - rewrite !negative_lnot, <- Z.lnot_land by done. pose proof (absval_pos x Hx Hc). pose proof (absval_pos y Hy Hc0).
    wp_step. wp_call subOne_spec; [done|done|]. intros x1 [[Hx1 _] Hv1].
    wp_step. wp_call subOne_spec; [done|done|]. intros y1 [[Hy1 _] Hv2].
    wp_step. wp_call absoluteAnd_spec; [done|done|]. intros r Hr. rewrite Hv1, Hv2 in Hr.
    apply complement_small with (absval x); [done| |by apply wf_absval_bound].
    assert (Z.land (absval x - 1) (absval y - 1) <= absval x - 1) by (apply land_le; lia). split; [apply Z.land_nonneg; lia|lia].
  - wp_step. wp_step; [done|]. rewrite Z.lor_comm. by apply Hmix.
  - wp_step. wp_step; [done|]. by apply Hmix.
  - rewrite !nonneg_value by done. wp_call absoluteOr_spec; done.
Qed.

Lemma bitNot_spec x : wf x ->
  wp (bitNot x) (fun r => denotes r (Z.lnot (value x))) (bits_too_large (Z.lnot (value x))).
Proof.
  intros Hx. unfold bitNot. wp_step.
  - assert (Hpos : 0 < digitLength x) by (pose proof (digitLength_nonneg x); destruct Hx as (_ & _ & Hs & _);
      destruct (Z.eq_dec (digitLength x) 0); [rewrite Hs in Hc by done; done|lia]).
    rewrite negative_lnot, Z.lnot_involutive by done. wp_call subOne_spec; [done|done|]. by intros r [Hr _].
  - rewrite nonneg_value by done. apply complement_spec; [|by apply wf_absval_nonneg].
    split; [done|by apply nonneg_value].
Qed.
End signed_bitwise.
