(* ===== verification/BigIntConvert.v ===== *)
(** Conversions between BigInts and machine integers (vm/BigIntType.cpp:
    [toUint64], [toInt64], [isInt64], [createFromUint64], [createFromInt64],
    [truncateAndSubFromPowerOfTwo], [asUintN], [asIntN], [CeilDiv]). *)
From S2P Require Import Prelude Words CheckedArithmetic BigIntRep BigIntAdd BigIntMul BigIntDiv BigIntShift BigIntBitwise.

(** * Definitions *)

Section definitions.
Context {P : Platform}.

Definition toUint64 (x : bigint) : M Z :=
  if isZero x then mret 0
  else
    digit ← uint64FromAbsNonZero x;
    if isNegative x then mret (uint64 (Z.lnot (uint64 (digit - 1)))) else mret digit.

Definition toInt64 (x : bigint) : M Z :=
  u ← toUint64 x;
  mret (WrapToSigned 64 u).

(** [None]: the function returns false. *)
Definition isInt64 (x : bigint) : M (option Z) :=
  if negb (absFitsInUint64 x) then mret None
  else if isZero x then mret (Some 0)
  else
    magnitude ← uint64FromAbsNonZero x;
    if isNegative x then
      let Int64MinMagnitude := 2 ^ 63 in
      if magnitude <=? Int64MinMagnitude then
        if magnitude =? Int64MinMagnitude then mret (Some (- 2 ^ 63))
        else moz_assert (magnitude <=? 2 ^ 63 - 1);; mret (Some (- magnitude))
      else mret None
    else
      if magnitude <=? 2 ^ 63 - 1 then
        moz_assert (magnitude <=? 2 ^ 63 - 1);; mret (Some magnitude)
      else mret None.

Definition CeilDiv (numerator denominator : Z) : M Z :=
  moz_assert (negb (numerator =? 0));;
  mret (1 + (numerator - 1) / denominator).

Definition truncateAndSubFromPowerOfTwo (x : bigint) (bits : Z) (resultNegative : bool) : M bigint :=
  moz_assert (negb (bits =? 0));;
  moz_assert (negb (isZero x));;
  if bits >? MaxBitLength then throw BigIntTooLarge
  else
    resultLength ← CeilDiv bits DigitBits;
    result ← createUninitialized resultLength resultNegative;
    let xLength := digitLength x in
    '(borrow, result) ← for_ 0 (Z.min (resultLength - 1) xLength) (fun i '(borrow, result) =>
        d ← digit x i;
        let '(difference, newBorrow) := digitSub 0 d 0 in
        let '(difference, newBorrow) := digitSub difference borrow newBorrow in
        result ← setDigit result i difference;
        mret (newBorrow, result)) (0, result);
    '(borrow, result) ← for_ xLength (resultLength - 1) (fun i '(borrow, result) =>
        let '(difference, newBorrow) := digitSub 0 borrow 0 in
        result ← setDigit result i difference;
        mret (newBorrow, result)) (borrow, result);
    xMSD ← (if resultLength <=? xLength then digit x (resultLength - 1) else mret 0);
    resultMSD ← (if bits mod DigitBits =? 0 then
        let '(resultMSD, newBorrow) := digitSub 0 xMSD 0 in
        let '(resultMSD, newBorrow) := digitSub resultMSD borrow newBorrow in
        mret resultMSD
      else
        let drop := DigitBits - bits mod DigitBits in
        up ← shl xMSD drop;
        xMSD ← shr up drop;
        minuendMSD ← shl 1 (DigitBits - drop);
        let '(resultMSD, newBorrow) := digitSub minuendMSD xMSD 0 in
        let '(resultMSD, newBorrow) := digitSub resultMSD borrow newBorrow in
        moz_assert (newBorrow =? 0);;
        mret (Z.land resultMSD (wrap (minuendMSD - 1))));
    result ← setDigit result (resultLength - 1) resultMSD;
    destructivelyTrimHighZeroDigits result.

(** The trimming loop of [asUintN]: the length and mask at which it stops. *)
Definition trim_masked (x : bigint) (length mask : Z) : M (Z * Z) :=
  loop (S (Z.to_nat length)) (fun '(length, mask) =>
    if length >? 0 then
      d ← digit x (length - 1);
      mret (if negb (Z.land d mask =? 0) then inr (length, mask) else inl (length - 1, Base - 1))
    else mret (inr (length, mask))) (length, mask).

Definition asUintN (x : bigint) (bits : Z) : M bigint :=
  if isZero x then mret x
  else if bits =? 0 then zero
  else if isNegative x then truncateAndSubFromPowerOfTwo x bits false
  else if bits <=? 64 then
    u64 ← toUint64 x;
    let mask := Z.shiftr (2 ^ 64 - 1) (64 - bits) in
    createFromUint64 (Z.land u64 mask)
  else if bits >=? MaxBitLength then mret x
  else
    msd ← digit x (digitLength x - 1);
    zeroes ← DigitLeadingZeroes msd;
    let msdBits := DigitBits - zeroes in
    let bitLength := msdBits + (digitLength x - 1) * DigitBits in
    if bits >=? bitLength then mret x
    else
      length ← CeilDiv bits DigitBits;
      moz_assert (length >=? 2);;
      moz_assert (length <=? digitLength x);;
      let highDigitBits := (bits - 1) mod DigitBits + 1 in
      highDigitMask ← shr (Base - 1) (DigitBits - highDigitBits);
      '(length, mask) ← trim_masked x length highDigitMask;
      res ← createUninitialized length false;
      '(res, _) ← for_down (length - 1) 0 (fun i '(res, mask) =>
          d ← digit x i;
          res ← setDigit res i (Z.land d mask);
          mret (res, Base - 1)) (res, mask);
      mret res.

Definition asIntN (x : bigint) (bits : Z) : M bigint :=
  if isZero x then mret x
  else if bits =? 0 then zero
  else if bits =? 64 then
    i ← toInt64 x;
    createFromInt64 i
  else if bits >? MaxBitLength then mret x
  else
    msd ← digit x (digitLength x - 1);
    zeroes ← DigitLeadingZeroes msd;
    let msdBits := DigitBits - zeroes in
    let bitLength := msdBits + (digitLength x - 1) * DigitBits in
    if bits >? bitLength then mret x
    else
      signBit ← shl 1 ((bits - 1) mod DigitBits);
      if (bits =? bitLength) && (msd <? signBit) then mret x
      else
        mod_ ← asUintN x bits;
        n ← CeilDiv bits DigitBits;
        if digitLength mod_ =? n then
          moz_assert (negb (isZero mod_));;
          d ← digit mod_ (digitLength mod_ - 1);
          if negb (Z.land d signBit =? 0) then
            truncateAndSubFromPowerOfTwo mod_ bits true
          else mret mod_
        else mret mod_.
End definitions.

(** * 64-bit conversions *)

Section machine_integers.
Context {P : Platform}.

Lemma toUint64_spec x : wf x -> wp (toUint64 x) (fun r => r = value x mod 2 ^ 64) no_error.
Proof.
  intros Hx. unfold toUint64. wp_step.
  { wp_step. by rewrite zero_value. }
  apply nonzero_length in Hc. wp_step.
  wp_call uint64FromAbs_spec; [by apply wf_digits|done|]. intros d ->.
  pose proof (Z.mod_pos_bound (absval x) (2 ^ 64) ltac:(lia)) as Hb.
  wp_step; wp_step; [rewrite negative_value by done|by rewrite nonneg_value].
  unfold uint64, Z.lnot. rewrite <- Z.sub_1_r.
  replace (- ((absval x mod 2 ^ 64 - 1) mod 2 ^ 64) - 1) with (- 1 - (absval x mod 2 ^ 64 - 1) mod 2 ^ 64) by lia.
  rewrite Zminus_mod_idemp_r. replace (-1 - (absval x mod 2 ^ 64 - 1)) with (0 - absval x mod 2 ^ 64) by lia.
  rewrite Zminus_mod_idemp_r. done.
Qed.

Lemma toInt64_spec x : wf x -> wp (toInt64 x) (fun r => r = wrap_signed 64 (value x)) no_error.
Proof.
  intros Hx. unfold toInt64. wp_step. wp_call toUint64_spec; [done|]. intros u ->. wp_step.
  rewrite WrapToSigned_spec by (done || (apply Z.mod_pos_bound; lia)). by rewrite wrap_signed_mod.
Qed.

Lemma isInt64_spec x : wf x ->
  wp (isInt64 x) (fun r => r = if (- 2 ^ 63 <=? value x) && (value x <? 2 ^ 63) then Some (value x) else None) no_error.
Proof.
  intros Hx. unfold isInt64. pose proof (wf_absval_nonneg x Hx). wp_step; bsplit.
  { wp_step. assert (~ absval x < 2 ^ 64) by (rewrite <- fits_iff by done; congruence).
    replace (_ && _) with false; [done|]. rewrite value_signed. destruct (isNegative x); cbn [signed]; lia. }
  pose proof (fits_bound x Hx Hc). wp_step; [wp_step; by rewrite zero_value|]. apply nonzero_length in Hc0.
  wp_step. wp_call (uint64FromAbs_fits x); [done|done|done|]. intros m ->. rewrite value_signed.
  destruct (isNegative x); cbn [signed].
  - wp_step; bsplit; [wp_step; bsplit|]; wp_step.
    + rewrite Hc2. done.
    + wp_step; [lia|]. wp_step. by replace (_ && _) with true by lia.
    + by replace (_ && _) with false by lia.
  - wp_step; bsplit; wp_step.
    + wp_step; [lia|]. wp_step. by replace (_ && _) with true by lia.
    + by replace (_ && _) with false by lia.
Qed.

Lemma createFromUint64_spec n : 0 <= n < 2 ^ 64 ->
  wp (createFromUint64 n) (fun r => denotes r n) no_error.
Proof.
  intros Hn. unfold createFromUint64. pose proof MaxDigitLength_big. wp_step; bsplit; [rewrite Hc; apply zero_spec|].
  rewrite Z.shiftr_div_pow2 by lia.
  assert (EB : Base = 2 ^ DigitBits) by done. destruct DigitBits_cases as [E|E]; rewrite E in *; cbn [Z.eqb Pos.eqb].
  - assert (Hhi : digit_ok (n / 2 ^ 32)) by (unfold digit_ok; rewrite EB; split; [apply Z.div_pos|apply Z.div_lt_upper_bound]; lia).
    rewrite (wrap_small (n / 2 ^ 32)) by done. cbv zeta.
    pose proof (Z.div_mod n (2 ^ 32)) as Hdm. pose proof (Z.mod_pos_bound n (2 ^ 32)) as Hmb. unfold digit_ok in Hhi.
    wp_step. apply wp_create_ok; [destruct (n / 2 ^ 32 =? 0); lia|]. intros r Hr. apply filled_0 in Hr.
    wp_step. eapply wp_fill; [done|destruct (n / 2 ^ 32 =? 0); lia|apply wrap_ok|]. clear Hr. intros Hr.
    rewrite Z.pow_0_r in Hr. unfold wrap in *. rewrite EB in *. wp_step; rewrite Hc0 in *; bsplit.
    + wp_step. replace (0 + n mod 2 ^ 32 * 1) with n in Hr by lia.
      apply (filled_denotes _ _ _ _ Hr); [lia|]. rewrite Z.pow_0_r. lia.
    + eapply wp_fill; [done|lia|unfold digit_ok; lia|]. clear Hr. intros Hr. rewrite EB, Z.pow_1_r in Hr.
      replace (0 + n mod 2 ^ 32 * 1 + n / 2 ^ 32 * 2 ^ 32) with n in Hr by lia.
      apply (filled_denotes _ _ _ _ Hr); [lia|]. rewrite EB, Z.pow_1_r. lia.
  - apply (createFromDigit_spec n false); [unfold digit_ok; lia|done].
Qed.

Lemma createFromInt64_spec n : - 2 ^ 63 <= n < 2 ^ 63 ->
  wp (createFromInt64 n) (fun r => denotes r n) no_error.
Proof.
  intros Hn. unfold createFromInt64. wp_step. wp_call createFromUint64_spec; [lia|]. intros r [Hr Hv].
  pose proof (wf_value_neg r Hr) as Hs. replace (value r <? 0) with false in Hs by lia.
  destruct (Z.ltb_spec n 0); wp_step; (wp_step; [by rewrite ?Hs|]); wp_step.
  - pose proof (wf_flip r Hr) as Hf. rewrite Hs in Hf. cbn in Hf.
    replace n with (- value r) by lia. apply Hf. intros E. rewrite zero_value in Hv; [lia|unfold isZero; lia].
  - split; [done|]. lia.
Qed.
End machine_integers.

(** * Truncation to a number of bits *)

Section truncation.
Context {P : Platform}.

Lemma CeilDiv_spec bits (Q : Z -> Prop) E : 0 < bits ->
  (forall n, 0 < n -> (n - 1) * DigitBits < bits <= n * DigitBits -> (bits - 1) / DigitBits = n - 1 -> Q n) ->
  wp (CeilDiv bits DigitBits) Q E.
Proof.
  intros Hb HQ. unfold CeilDiv. pose proof DigitBits_pos. wp_step. wp_step; [lia|]. wp_step.
  assert (Hq : 0 <= (bits - 1) / DigitBits) by (apply Z.div_pos; lia).
  assert (Hm : 0 <= (bits - 1) mod DigitBits < DigitBits) by (apply Z.mod_pos_bound; lia).
  assert (Hdm : bits - 1 = DigitBits * ((bits - 1) / DigitBits) + (bits - 1) mod DigitBits) by (apply Z.div_mod; lia).
  apply HQ; lia.
Qed.

(** [bits] as whole digits below the top one and the bits used of it. *)
Lemma bits_split bits n : 0 < n -> (n - 1) * DigitBits < bits <= n * DigitBits ->
  let hb := bits - (n - 1) * DigitBits in
  0 < hb <= DigitBits /\ 2 ^ bits = Base ^ (n - 1) * 2 ^ hb /\
  (hb = DigitBits <-> bits mod DigitBits = 0) /\ (hb < DigitBits -> bits mod DigitBits = hb) /\
  (bits - 1) mod DigitBits = hb - 1.
Proof.
  intros Hn Hb hb. pose proof DigitBits_pos.
  assert (Hhb : 0 < hb <= DigitBits) by (unfold hb; lia).
  assert (Hlt : hb < DigitBits -> bits mod DigitBits = hb)
    by (intros; symmetry; apply Z.mod_unique_pos with (n - 1); unfold hb in *; lia).
  assert (Heq : hb = DigitBits -> bits mod DigitBits = 0)
    by (intros; symmetry; apply Z.mod_unique_pos with n; unfold hb in *; lia).
  split; [done|]. split; [|split; [|split; [done|]]].
  - rewrite Base_pow, <- Z.pow_add_r by (lia || (apply Z.mul_nonneg_nonneg; lia)). f_equal. unfold hb. lia.
  - split; [done|]. intros Hz. destruct (Z_lt_le_dec hb DigitBits) as [Hc|]; [|lia]. specialize (Hlt Hc). lia.
  - symmetry. apply Z.mod_unique_pos with (n - 1); unfold hb; lia.
Qed.

(** The magnitude modulo a power of two, by digits. *)
Lemma absval_mod_bits x n hb : digits_ok (digits x) -> 0 < n -> 0 < hb <= DigitBits ->
  absval x mod (Base ^ (n - 1) * 2 ^ hb) = pv (digits x) (n - 1) + zget (digits x) (n - 1) mod 2 ^ hb * Base ^ (n - 1).
Proof.
  intros Hx Hn Hhb. pose proof (Base_pow_pos (n - 1) ltac:(lia)) as HB. assert (H2 : 0 < 2 ^ hb) by (apply Z.pow_pos_nonneg; lia).
  assert (EB : Base = 2 ^ hb * 2 ^ (DigitBits - hb)) by (apply Base_split; lia).
  assert (Hsplit : exists q, absval x = pv (digits x) (n - 1) + zget (digits x) (n - 1) * Base ^ (n - 1) + q * Base ^ n).
  { destruct (Z_le_gt_dec n (digitLength x)) as [Hle|Hgt].
    - exists (high x n). pose proof (absval_split x n Hx ltac:(lia)) as [E _]. rewrite E.
      replace (pv (digits x) n) with (pv (digits x) (n - 1 + 1)) by (f_equal; lia). rewrite pv_succ by lia. lia.
    - exists 0. rewrite zget_oob by (unfold digitLength in Hgt; lia).
      rewrite pv_eval by (unfold digitLength in Hgt; lia). unfold absval. lia. }
  destruct Hsplit as [q Hq]. replace (Base ^ n) with (Base * Base ^ (n - 1)) in Hq by (rewrite <- Base_pow_succ by lia; f_equal; lia).
  set (d := zget (digits x) (n - 1)) in *. pose proof (Z.div_mod d (2 ^ hb) ltac:(lia)) as Hdm.
  pose proof (Z.mod_pos_bound d (2 ^ hb) H2) as Hmb. pose proof (pv_bound (digits x) (n - 1) Hx ltac:(lia)) as Hpb.
  symmetry. apply Z.mod_unique_pos with (d / 2 ^ hb + q * 2 ^ (DigitBits - hb)).
  - assert (d mod 2 ^ hb * Base ^ (n - 1) <= (2 ^ hb - 1) * Base ^ (n - 1)) by (apply Z.mul_le_mono_nonneg_r; lia).
    assert (0 <= d mod 2 ^ hb * Base ^ (n - 1)) by (apply Z.mul_nonneg_nonneg; lia). lia.
  - rewrite Hq. set (K := Base ^ (n - 1)). replace (q * (Base * K)) with (q * (2 ^ hb * 2 ^ (DigitBits - hb) * K))
      by (rewrite <- EB; ring).
    apply (f_equal (fun z => z * K)) in Hdm. lia.
Qed.

(** The negated low digits, with the pending borrow. *)
Lemma negate_loops x neg n r0 E : wf x -> 0 < n -> shape neg n r0 ->
  wp (for_ 0 (Z.min (n - 1) (digitLength x)) (fun i '(borrow, result) =>
        d ← digit x i;
        let '(difference, newBorrow) := digitSub 0 d 0 in
        let '(difference, newBorrow) := digitSub difference borrow newBorrow in
        result ← setDigit result i difference;
        mret (newBorrow, result)) (0, r0))
    (fun s => wp (for_ (digitLength x) (n - 1) (fun i '(borrow, result) =>
        let '(difference, newBorrow) := digitSub 0 borrow 0 in
        result ← setDigit result i difference;
        mret (newBorrow, result)) s) (borrow_inv neg n (fun i => - pv (digits x) i) (n - 1)) E) E.
Proof.
  intros Hx Hn Hr0. pose proof (digitLength_nonneg x). pose proof Base_big.
  assert (Hz0 : digit_ok 0) by (unfold digit_ok; lia).
  eapply (wp_for (borrow_inv neg n (fun i => - pv (digits x) i))); [lia|..].
  - split; [cbn; lia|]. cbn [fst snd]. rewrite pv_0. by apply filled_0.
  - intros i [b r] Hi Hinv. wp_step. apply wp_digit; [lia|].
    pose proof (sub_column 0 _ b Hz0 (wf_digit x i Hx) (proj1 Hinv)) as Hcol.
    destruct (digitSub 0 _ 0) as [s1 c1], (digitSub s1 b c1) as [s2 c2]. destruct Hcol as (Hs & Hc2 & Hcol).
    eapply (borrow_step _ _ _ _ _ _ _ _ (- zget (digits x) i)); [done|lia|done|done|lia| |done].
    cbv beta. rewrite pv_succ by lia. lia.
  - intros s Hinv. destruct (Z_le_gt_dec (n - 1) (digitLength x)).
    + rewrite for_empty by lia. wp_step. by replace (n - 1) with (Z.min (n - 1) (digitLength x)) at 1 by lia.
    + replace (Z.min (n - 1) (digitLength x)) with (digitLength x) in Hinv by lia.
      eapply (wp_for (borrow_inv neg n (fun i => - pv (digits x) i))); [lia|done|..|done].
      intros i [b r] Hi Hinv'. pose proof (sub_column1 0 b Hz0 (proj1 Hinv')) as Hcol.
      destruct (digitSub 0 b 0) as [s2 c2]. destruct Hcol as (Hs & Hc2 & Hcol).
      eapply (borrow_step _ _ _ _ _ _ _ _ 0); [done|lia|done|done|lia| |done].
      cbv beta. rewrite pv_succ, (zget_oob (digits x)) by (unfold digitLength in *; lia). lia.
Qed.

(** The most significant digit of the negated value. *)
Lemma negated_msd d b hb : digit_ok d -> 0 <= b <= 1 -> 0 < hb <= DigitBits ->
  (hb = DigitBits ->
    let '(m, k) := digitSub 0 d 0 in let '(m, k) := digitSub m b k in m = (- d - b) mod 2 ^ hb) /\
  (hb < DigitBits ->
    let '(m, k) := digitSub (2 ^ hb) (d mod 2 ^ hb) 0 in let '(m, k) := digitSub m b k in
    k = 0 /\ m mod 2 ^ hb = (- d - b) mod 2 ^ hb).
Proof.
  intros Hd Hb Hhb. pose proof Base_big. assert (Hz0 : digit_ok 0) by (unfold digit_ok; lia).
  assert (H2 : 0 < 2 ^ hb) by (apply Z.pow_pos_nonneg; lia). split.
  - intros ->. pose proof (sub_column 0 d b Hz0 Hd Hb) as Hcol.
    destruct (digitSub 0 d 0) as [s1 c1], (digitSub s1 b c1) as [s2 c2]. destruct Hcol as (Hs & Hc2 & Hcol).
    fold Base. apply Z.mod_unique_pos with (- c2); [done|]. lia.
  - intros Hlt. assert (H2b : 2 ^ hb < Base) by (unfold Base; apply Z.pow_lt_mono_r; lia).
    pose proof (Z.mod_pos_bound d (2 ^ hb) H2) as Hm.
    pose proof (sub_column (2 ^ hb) (d mod 2 ^ hb) b) as Hcol.
    destruct (digitSub (2 ^ hb) _ 0) as [s1 c1], (digitSub s1 b c1) as [s2 c2].
    destruct Hcol as (Hs & Hc2 & Hcol); [unfold digit_ok; lia|unfold digit_ok; lia|done|].
    unfold digit_ok in Hs. assert (c2 = 0) as -> by (destruct (Z.eq_dec c2 1) as [->|]; lia). split; [done|].
    replace s2 with (2 ^ hb - d mod 2 ^ hb - b) by lia.
    rewrite (Z.div_mod d (2 ^ hb)) at 2 by lia.
    replace (- (2 ^ hb * (d / 2 ^ hb) + d mod 2 ^ hb) - b) with (2 ^ hb - d mod 2 ^ hb - b + (- (d / 2 ^ hb) - 1) * 2 ^ hb) by ring.
    by rewrite Z.mod_add by lia.
Qed.

(** [(x << s) >> s] keeps the low bits of a digit. *)
Lemma drop_high d hb : digit_ok d -> 0 < hb < DigitBits ->
  wrap (d * 2 ^ (DigitBits - hb)) / 2 ^ (DigitBits - hb) = d mod 2 ^ hb.
Proof.
  intros Hd Hhb. unfold wrap. rewrite (Base_split (DigitBits - hb)) by lia.
  replace (DigitBits - (DigitBits - hb)) with hb by lia.
  assert (0 < 2 ^ hb) by (apply Z.pow_pos_nonneg; lia). assert (0 < 2 ^ (DigitBits - hb)) by (apply Z.pow_pos_nonneg; lia).
  rewrite (Z.mul_comm (2 ^ (DigitBits - hb))), Z.mul_mod_distr_r, Z.div_mul by lia. done.
Qed.

(** The assembled digits negate the value modulo the power of two. *)
Lemma negated_value K h A L d b m : 0 < K -> 0 < h -> A mod (K * h) = L + d mod h * K ->
  m = (- d - b) mod h -> 0 <= - L + b * K < K -> - L + b * K + m * K = (- A) mod (K * h).
Proof.
  intros HK Hh Hmod Hm Hlow. assert (HKh : 0 < K * h) by (apply Z.mul_pos_pos; lia).
  pose proof (Z.div_mod A (K * h) ltac:(lia)) as Hdm. rewrite Hmod in Hdm.
  pose proof (Z.div_mod (- d - b) h ltac:(lia)) as Hdb. pose proof (Z.mod_pos_bound (- d - b) h Hh) as Hmb.
  rewrite <- Hm in Hdb, Hmb. pose proof (Z.div_mod d h ltac:(lia)) as Hdd.
  assert (m * K <= (h - 1) * K) by (apply Z.mul_le_mono_nonneg_r; lia).
  assert (0 <= m * K) by (apply Z.mul_nonneg_nonneg; lia).
  set (Q := A / (K * h)) in *. set (R := (- d - b) / h) in *. set (S := d / h) in *.
  apply Z.mod_unique_pos with (- Q + R + S); [lia|].
  rewrite Hdm. replace (d mod h) with (d - h * S) by lia. replace m with (- d - b - h * R) by lia. ring.
Qed.

Lemma truncateAndSub_spec x bits neg : wf x -> 0 < digitLength x -> 0 < bits ->
  wp (truncateAndSubFromPowerOfTwo x bits neg)
    (fun r => denotes r (signed neg ((- absval x) mod 2 ^ bits)))
    (fun e => e = BigIntTooLarge /\ MaxBitLength < bits).
Proof.
  intros Hx Hpos Hbits. pose proof Base_big. pose proof DigitBits_pos. unfold truncateAndSubFromPowerOfTwo.
  wp_step. wp_step; [lia|]. wp_step. wp_step; [unfold isZero; lia|].
  wp_step; bsplit; [by apply wp_throw|]. wp_step. apply CeilDiv_spec; [done|]. intros n Hn Hb _.
  assert (Hnmax : n <= MaxDigitLength).
  { rewrite MaxBitLength_digits in Hc. destruct (Z_le_gt_dec n MaxDigitLength); [done|].
    assert (MaxDigitLength * DigitBits <= (n - 1) * DigitBits) by (apply Z.mul_le_mono_nonneg_r; lia). lia. }
  destruct (bits_split bits n Hn Hb) as (Hhb & Epow & Hfull & Hpart & _). set (hb := bits - (n - 1) * DigitBits) in *.
  assert (H2 : 0 < 2 ^ hb) by (apply Z.pow_pos_nonneg; lia). pose proof (Base_pow_pos (n - 1) ltac:(lia)) as HB.
  assert (H2b : 2 ^ hb <= Base) by (unfold Base; apply Z.pow_le_mono_r; lia).
  wp_step. apply wp_create_ok; [lia|]. intros r0 Hr0. cbv zeta.
  wp_step. eapply wp_weaken_ok; [by apply (negate_loops x neg n)|]. intros [b1 r1] Hloop.
  wp_step. eapply wp_weaken_ok; [exact Hloop|]. intros [b r] [Hbb Hf]. cbn [fst snd] in Hbb, Hf.
  wp_step. apply wp_weaken_ok with (fun d => d = zget (digits x) (n - 1)).
  { wp_step; bsplit; [apply wp_digit; [lia|done]|]. wp_step. by rewrite zget_oob by (unfold digitLength in *; lia). }
  intros d ->. set (d := zget (digits x) (n - 1)). pose proof (wf_digit x (n - 1) Hx) as Hd. fold d in Hd.
  destruct (negated_msd d b hb Hd Hbb Hhb) as [Hmf Hmp].
  wp_step. apply wp_weaken_ok with (fun m => m = (- d - b) mod 2 ^ hb).
  { wp_step; bsplit.
    - apply Hfull in Hc0. specialize (Hmf Hc0).
      destruct (digitSub 0 d 0) as [s1 c1], (digitSub s1 b c1) as [s2 c2]. by wp_step.
    - assert (Hlt : hb < DigitBits) by (destruct (Z.eq_dec hb DigitBits); [tauto|lia]). specialize (Hmp Hlt).
      rewrite Hpart by done. wp_step. apply wp_shl; [lia|]. wp_step. apply wp_shr; [lia|]. rewrite drop_high by (done || lia).
      wp_step. apply wp_shl; [lia|]. replace (DigitBits - (DigitBits - hb)) with hb by lia.
      assert (2 ^ hb < Base) by (unfold Base; apply Z.pow_lt_mono_r; lia).
      rewrite Z.mul_1_l, (wrap_small (2 ^ hb)), (wrap_small (2 ^ hb - 1)) by (unfold digit_ok; lia).
      destruct (digitSub (2 ^ hb) _ 0) as [s1 c1], (digitSub s1 b c1) as [s2 c2]. destruct Hmp as [-> Hm].
      wp_step. wp_step; [done|]. wp_step. replace (2 ^ hb - 1) with (Z.ones hb) by (rewrite Z.ones_equiv; lia).
      by rewrite Z.land_ones by lia. }
  intros m ->. pose proof (Z.mod_pos_bound (- d - b) (2 ^ hb) H2) as Hmb. set (m := (- d - b) mod 2 ^ hb) in *.
  wp_step. eapply wp_fill; [done|lia|unfold digit_ok; lia|]. intros Hf'.
  replace (n - 1 + 1) with n in Hf' by lia.
  pose proof (pv_bound (digits r) (n - 1)) as Hrb. destruct Hf as [(_ & _ & Hrd) Hrv]. specialize (Hrb Hrd ltac:(lia)).
  rewrite Hrv in Hrb.
  assert (Hval : - pv (digits x) (n - 1) + b * Base ^ (n - 1) + m * Base ^ (n - 1) = (- absval x) mod 2 ^ bits).
  { rewrite Epow. apply negated_value with d; [done|done|by apply absval_mod_bits; [apply wf_digits|..]|done|done]. }
  rewrite Hval in Hf'. eapply wp_mono; [eapply (filled_trim _ _ _ _ Hf'); lia|done|done].
Qed.
End truncation.

(** * [asUintN] and [asIntN] *)

Section as_n.
Context {P : Platform}.

(** The bit length computed from the top digit. *)
Lemma bit_length x s : wf x -> 0 < digitLength x ->
  Z.log2 (zget (digits x) (digitLength x - 1)) = DigitBits - 1 - s ->
  Z.log2 (absval x) + 1 = DigitBits - s + (digitLength x - 1) * DigitBits.
Proof.
  intros Hx Hpos Hlog. set (len := digitLength x) in *. set (top := zget (digits x) (len - 1)) in *.
  assert (Htop : top <> 0) by (apply Hx; unfold len in *; lia).
  pose proof (wf_digit x (len - 1) Hx) as Hd. fold top in Hd. unfold digit_ok in Hd. pose proof DigitBits_pos.
  pose proof (Z.log2_spec top ltac:(lia)) as [Hlo Hhi]. pose proof (Z.log2_nonneg top) as Hln.
  assert (Hv : absval x = pv (digits x) (len - 1) + top * Base ^ (len - 1)).
  { rewrite absval_pv. fold len. replace (pv (digits x) len) with (pv (digits x) (len - 1 + 1)) by (f_equal; lia).
    by rewrite pv_succ by lia. }
  pose proof (pv_bound (digits x) (len - 1) (wf_digits x Hx) ltac:(lia)) as Hpb.
  pose proof (Base_pow_pos (len - 1) ltac:(lia)) as HB.
  assert (HBp : Base ^ (len - 1) = 2 ^ ((len - 1) * DigitBits)) by (rewrite Base_pow by lia; f_equal; lia).
  assert (0 <= (len - 1) * DigitBits) by (apply Z.mul_nonneg_nonneg; lia).
  assert (Hl : Z.log2 (absval x) = Z.log2 top + (len - 1) * DigitBits); [|lia].
  apply Z.log2_unique; [lia|]. rewrite Z.pow_succ_r in * by lia. rewrite Z.pow_add_r, <- HBp by lia.
  assert (2 ^ Z.log2 top * Base ^ (len - 1) <= top * Base ^ (len - 1)) by (apply Z.mul_le_mono_nonneg_r; lia).
  assert ((top + 1) * Base ^ (len - 1) <= 2 * 2 ^ Z.log2 top * Base ^ (len - 1)) by (apply Z.mul_le_mono_nonneg_r; lia). lia.
Qed.

(** The invariant of the trimming loop: the value sought is made of the
    digits below [length - 1] and of the masked digit there. *)
Definition masked_inv (x : bigint) (n T : Z) (s : Z * Z) : Prop :=
  let '(length, mask) := s in
  0 <= length <= n /\ (exists k, 0 < k <= DigitBits /\ mask = Z.ones k) /\
  T = if length =? 0 then 0
      else pv (digits x) (length - 1) + Z.land (zget (digits x) (length - 1)) mask * Base ^ (length - 1).

Lemma land_all d : digit_ok d -> Z.land d (Base - 1) = d.
Proof.
  intros Hd. unfold digit_ok, Base in *. pose proof DigitBits_pos.
  replace (2 ^ DigitBits - 1) with (Z.ones DigitBits) by (rewrite Z.ones_equiv; lia).
  rewrite Z.land_ones by lia. by rewrite Z.mod_small.
Qed.

Lemma trim_masked_spec x n T s : wf x -> n <= digitLength x -> masked_inv x n T s ->
  wp (trim_masked x s.1 s.2)
    (fun s' => masked_inv x n T s' /\
       (0 < s'.1 -> Z.land (zget (digits x) (s'.1 - 1)) s'.2 <> 0)) no_error.
Proof.
  intros Hx Hn Hinv. unfold trim_masked. pose proof DigitBits_pos.
  eapply (wp_loop (masked_inv x n T) (fun '(length, _) => length)).
  { by destruct s. }
  { destruct s as [l m], Hinv as [Hl _]. cbn in *. lia. }
  { intros [l m] (Hl & _). lia. }
  clear s Hinv. intros [length mask] (Hl & (k & Hk & ->) & HT). wp_step; bsplit.
  - wp_step. apply wp_digit; [lia|]. wp_step. replace (length =? 0) with false in HT by lia.
    destruct (Z.eqb_spec (Z.land (zget (digits x) (length - 1)) (Z.ones k)) 0) as [E|E]; cbn [negb].
    + split; [|lia]. split; [lia|]. split; [exists DigitBits; split; [lia|unfold Base; rewrite Z.ones_equiv; lia]|].
      rewrite E, Z.mul_0_l, Z.add_0_r in HT. rewrite HT. destruct (Z.eqb_spec (length - 1) 0) as [->|]; [apply pv_0|].
      rewrite land_all by (by apply wf_digit).
      replace (pv (digits x) (length - 1)) with (pv (digits x) (length - 1 - 1 + 1)) by (f_equal; lia).
      by rewrite pv_succ by lia.
    + split; [|done]. split; [done|]. split; [by exists k|]. by replace (length =? 0) with false by lia.
  - wp_step. cbn. split; [|lia]. split; [lia|]. split; [by exists k|done].
Qed.

(** The masked copy. *)
Lemma masked_copy_spec x length mask r0 T : wf x -> 0 <= length <= digitLength x -> length <= MaxDigitLength ->
  masked_inv x length T (length, mask) -> shape false length r0 ->
  (0 < length -> Z.land (zget (digits x) (length - 1)) mask <> 0) ->
  wp (for_down (length - 1) 0 (fun i '(res, mask) =>
        d ← digit x i;
        res ← setDigit res i (Z.land d mask);
        mret (res, Base - 1)) (r0, mask))
    (fun '(r, _) => denotes r T) no_error.
Proof.
  intros Hx Hlen Hmax (_ & (k & Hk & ->) & HT) Hr0 Htop. pose proof Base_big. pose proof DigitBits_pos.
  set (want i := if i =? length - 1 then Z.land (zget (digits x) i) (Z.ones k) else zget (digits x) i).
  assert (Hwant : forall i, digit_ok (want i)).
  { intros i. unfold want. pose proof (wf_digit x i Hx) as Hd. destruct (i =? length - 1); [|done].
    rewrite Z.land_ones by lia. unfold digit_ok in *. assert (0 < 2 ^ k) by (apply Z.pow_pos_nonneg; lia).
    pose proof (Z.mod_pos_bound (zget (digits x) i) (2 ^ k) ltac:(lia)).
    pose proof (Z.mod_le (zget (digits x) i) (2 ^ k) ltac:(lia) ltac:(lia)). lia. }
  eapply (wp_for_down (fun i '(r, m) => shape false length r /\ (m = if i =? length - 1 then Z.ones k else Base - 1) /\
    forall j, i < j < length -> zget (digits r) j = want j)); [lia|..].
  - rewrite Z.eqb_refl. split; [done|]. split; [done|]. intros; lia.
  - intros i [r m] Hi (Hr & -> & Hj). pose proof Hr as (_ & Hl & _). wp_step. apply wp_digit; [lia|].
    assert (Hmask : Z.land (zget (digits x) i) (if i =? length - 1 then Z.ones k else Base - 1) = want i).
    { unfold want. destruct (i =? length - 1); [done|]. by apply land_all, wf_digit. }
    rewrite Hmask. wp_step. apply wp_setDigit; [lia|]. wp_step. split; [by apply shape_with_digit|].
    split; [by replace (i - 1 =? length - 1) with false by lia|]. intros j Hj'. unfold with_digit, digitLength in *. cbn [digits].
    rewrite zget_zset by lia. destruct (Z.eqb_spec j i) as [->|]; [done|]. apply Hj. lia.
  - intros [r m] (Hr & _ & Hj). destruct (Z.eqb_spec length 0) as [E|E].
    { rewrite HT. apply shape_empty. by rewrite E in Hr. }
    replace T with (signed false (pv (digits r) length)).
    + apply shape_denotes; [done|lia|]. rewrite Hj by lia. unfold want. rewrite Z.eqb_refl. apply Htop. lia.
    + cbn [signed]. rewrite HT. replace (pv (digits r) length) with (pv (digits r) (length - 1 + 1)) by (f_equal; lia).
      rewrite pv_succ, Hj by lia. unfold want at 1. rewrite Z.eqb_refl. f_equal. apply pv_ext. intros j Hj'.
      rewrite Hj by lia. unfold want. by replace (j =? length - 1) with false by lia.
Qed.

Lemma asUintN_spec x bits : wf x -> 0 <= bits < 2 ^ 64 ->
  wp (asUintN x bits) (fun r => denotes r (value x mod 2 ^ bits))
    (fun e => e = BigIntTooLarge /\ value x < 0 /\ MaxBitLength < bits).
Proof.
  intros Hx Hbits. unfold asUintN. pose proof Base_big. pose proof DigitBits_pos.
  assert (H2bits : 0 < 2 ^ bits) by (apply Z.pow_pos_nonneg; lia). pose proof (wf_absval_nonneg x Hx) as Hax.
  wp_step; [wp_step; rewrite (zero_value x), Z.mod_0_l by (done || lia); split; [done|by apply zero_value]|].
  wp_step; bsplit; [rewrite Hc0, Z.pow_0_r, Z.mod_1_r; wp_call zero_spec; done|].
  apply nonzero_length in Hc. pose proof (absval_pos x Hx Hc) as Hap.
  wp_step.
  { rewrite negative_value by done. eapply wp_mono; [apply truncateAndSub_spec; (done || lia)|done|].
    intros e [-> ?]. split; [done|]. split; [lia|done]. }
  rewrite nonneg_value by done.
  wp_step; bsplit.
  { wp_step. wp_call toUint64_spec; [done|]. intros u ->. rewrite nonneg_value by done.
    assert (Hmask : Z.shiftr (2 ^ 64 - 1) (64 - bits) = Z.ones bits).
    { rewrite Z.shiftr_div_pow2, Z.ones_equiv by lia. symmetry. apply Z.div_unique_pos with (2 ^ (64 - bits) - 1).
      - assert (0 < 2 ^ (64 - bits)) by (apply Z.pow_pos_nonneg; lia). lia.
      - assert (E : 2 ^ 64 = 2 ^ (64 - bits) * 2 ^ bits) by (rewrite <- Z.pow_add_r by lia; f_equal; lia). rewrite E. lia. }
    rewrite Hmask, Z.land_ones by lia.
    assert (E : (absval x mod 2 ^ 64) mod 2 ^ bits = absval x mod 2 ^ bits).
    { replace (2 ^ 64) with (2 ^ bits * 2 ^ (64 - bits)) by (rewrite <- Z.pow_add_r by lia; f_equal; lia).
      assert (0 < 2 ^ (64 - bits)) by (apply Z.pow_pos_nonneg; lia). rewrite Z.rem_mul_r by lia.
      rewrite (Z.mul_comm (2 ^ bits)), Z.mod_add by lia. apply Z.mod_mod. lia. }
    rewrite E. pose proof (Z.mod_pos_bound (absval x) (2 ^ bits) H2bits).
    assert (2 ^ bits <= 2 ^ 64) by (apply Z.pow_le_mono_r; lia).
    wp_call createFromUint64_spec; [lia|done]. }
  assert (Hsmall : absval x < 2 ^ bits -> denotes x (absval x mod 2 ^ bits)).
  { intros Hlt. rewrite Z.mod_small by lia. split; [done|]. by apply nonneg_value. }
  wp_step; bsplit.
  { wp_step. apply Hsmall. pose proof (wf_absval_bound x Hx). rewrite <- max_bits in *.
    assert (2 ^ MaxBitLength <= 2 ^ bits) by (apply Z.pow_le_mono_r; lia). lia. }
  wp_step. apply wp_digit; [lia|]. pose proof (wf_digit x (digitLength x - 1) Hx) as Htop.
  assert (Htop0 : zget (digits x) (digitLength x - 1) <> 0) by (apply Hx; lia).
  wp_step. apply wp_DigitLeadingZeroes; [done|done|]. intros s Hs _ Hlog.
  rewrite <- (bit_length x s Hx Hc Hlog). pose proof (Z.log2_spec (absval x) Hap) as [Hl2 Hu2].
  wp_step; bsplit.
  { wp_step. apply Hsmall. rewrite <- Z.add_1_r in Hu2.
    assert (2 ^ (Z.log2 (absval x) + 1) <= 2 ^ bits) by (apply Z.pow_le_mono_r; lia). lia. }
  wp_step. apply CeilDiv_spec; [lia|]. intros n Hn Hb _.
  destruct (bits_split bits n Hn Hb) as (Hhb & Epow & _ & _ & Hm1). set (hb := bits - (n - 1) * DigitBits) in *.
  assert (Hn2 : 2 <= n). { destruct (Z_le_gt_dec 2 n); [done|]. assert (n = 1) as -> by lia. destruct DigitBits_cases; lia. }
  assert (Hnlen : n <= digitLength x).
  { destruct (Z_le_gt_dec n (digitLength x)); [done|]. pose proof (bit_length x s Hx Hc Hlog).
    assert (digitLength x * DigitBits <= (n - 1) * DigitBits) by (apply Z.mul_le_mono_nonneg_r; lia). lia. }
  wp_step. wp_step; [lia|]. wp_step. wp_step; [lia|]. rewrite Hm1. replace (hb - 1 + 1) with hb by lia.
  wp_step. apply wp_shr; [lia|].
  assert (Hhigh : (Base - 1) / 2 ^ (DigitBits - hb) = Z.ones hb).
  { rewrite Z.ones_equiv. symmetry. assert (0 < 2 ^ (DigitBits - hb)) by (apply Z.pow_pos_nonneg; lia).
    apply Z.div_unique_pos with (2 ^ (DigitBits - hb) - 1); [lia|]. rewrite (Base_split hb) by lia. lia. }
  rewrite Hhigh. wp_step.
  eapply wp_mono; [apply (trim_masked_spec x n (absval x mod 2 ^ bits) (n, Z.ones hb) Hx Hnlen)| |intros e []].
  { split; [lia|]. split; [by exists hb|]. replace (n =? 0) with false by lia. rewrite Epow, Z.land_ones by lia.
    apply absval_mod_bits; [by apply wf_digits|lia|lia]. }
  intros [length mask] [(Hl & Hk & HT) Hnz]. cbn [fst snd] in Hnz. pose proof (wf_length x Hx).
  wp_step. apply wp_create_ok; [lia|]. intros r0 Hr0.
  wp_step. eapply wp_mono; [apply (masked_copy_spec x length mask r0 (absval x mod 2 ^ bits));
    [done|lia|lia|by split; [lia|split]|done|done]| |intros e []].
  intros [r m] Hr. by wp_step.
Qed.

(** A value that fits in [bits] signed bits is its own truncation. *)
(** The sign-bit test of [asIntN] compares with [2^(bits - 1)]. *)
Lemma sign_bit_test m bits n : wf m -> 0 <= absval m < 2 ^ bits -> 0 < n -> (n - 1) * DigitBits < bits <= n * DigitBits ->
  digitLength m = n ->
  (Z.land (zget (digits m) (n - 1)) (2 ^ ((bits - 1) mod DigitBits)) =? 0) = (absval m <? 2 ^ (bits - 1)).
Proof.
  intros Hm Hlt Hn Hb Hlen. destruct (bits_split bits n Hn Hb) as (Hhb & Epow & _ & _ & ->).
  pose proof DigitBits_pos. assert (0 <= (n - 1) * DigitBits) by (apply Z.mul_nonneg_nonneg; lia).
  set (hb := bits - (n - 1) * DigitBits) in *. set (d := zget (digits m) (n - 1)).
  assert (Hv : absval m = pv (digits m) (n - 1) + d * Base ^ (n - 1)).
  { rewrite absval_pv, Hlen. replace (pv (digits m) n) with (pv (digits m) (n - 1 + 1)) by (f_equal; lia). by rewrite pv_succ by lia. }
  pose proof (pv_bound (digits m) (n - 1) (wf_digits m Hm) ltac:(lia)) as Hpb. pose proof (Base_pow_pos (n - 1) ltac:(lia)) as HB.
  pose proof (wf_digit m (n - 1) Hm) as Hd. fold d in Hd. unfold digit_ok in Hd.
  assert (E2 : 2 ^ hb = 2 * 2 ^ (hb - 1)) by (rewrite <- Z.pow_succ_r by lia; f_equal; lia).
  assert (Epow1 : 2 ^ (bits - 1) = Base ^ (n - 1) * 2 ^ (hb - 1)).
  { assert (Eb : 2 ^ bits = 2 * 2 ^ (bits - 1)) by (rewrite <- Z.pow_succ_r by lia; f_equal; lia).
    rewrite Epow, E2 in Eb. lia. }
  assert (H2 : 0 < 2 ^ (hb - 1)) by (apply Z.pow_pos_nonneg; lia).
  assert (Hdlt : d < 2 * 2 ^ (hb - 1)).
  { apply (Z.mul_lt_mono_pos_r (Base ^ (n - 1))); [lia|]. rewrite Epow, E2 in Hlt. lia. }
  (* the sign bit of the top digit *)
  assert (Hbit : Z.land d (2 ^ (hb - 1)) = if d <? 2 ^ (hb - 1) then 0 else 2 ^ (hb - 1)).
  { apply Z.bits_inj'. intros i Hi. rewrite Z.land_spec, Z.pow2_bits_eqb by lia.
    destruct (Z.eqb_spec (hb - 1) i) as [<-|Hne].
    - rewrite andb_true_r. destruct (Z.ltb_spec d (2 ^ (hb - 1))).
      + rewrite Z.bits_0, Z.testbit_false, Z.div_small by lia. done.
      + rewrite Z.pow2_bits_true by lia. apply Z.testbit_true; [lia|].
        replace (d / 2 ^ (hb - 1)) with 1; [done|]. apply Z.div_unique_pos with (d - 2 ^ (hb - 1)); lia.
    - rewrite andb_false_r. destruct (d <? 2 ^ (hb - 1)); [by rewrite Z.bits_0|]. by rewrite Z.pow2_bits_false by lia. }
  rewrite Hbit, Epow1, Hv. destruct (Z.ltb_spec d (2 ^ (hb - 1))) as [Hlt1|Hge].
  - assert ((d + 1) * Base ^ (n - 1) <= 2 ^ (hb - 1) * Base ^ (n - 1)) by (apply Z.mul_le_mono_nonneg_r; lia). symmetry. lia.
  - assert (2 ^ (hb - 1) * Base ^ (n - 1) <= d * Base ^ (n - 1)) by (apply Z.mul_le_mono_nonneg_r; lia). symmetry. lia.
Qed.

Lemma asIntN_spec x bits : wf x -> 0 <= bits < 2 ^ 64 ->
  wp (asIntN x bits) (fun r => denotes r (if bits =? 0 then 0 else wrap_signed bits (value x))) no_error.
Proof.
  intros Hx Hbits. unfold asIntN. pose proof Base_big. pose proof DigitBits_pos. pose proof (wf_absval_nonneg x Hx) as Hax.
  wp_step.
  { wp_step. split; [done|]. rewrite zero_value by done. destruct (Z.eqb_spec bits 0); [done|].
    assert (0 < 2 ^ (bits - 1)) by (apply Z.pow_pos_nonneg; lia). rewrite wrap_signed_small; lia. }
  wp_step; rewrite Hc0; bsplit; [apply zero_spec|]. apply nonzero_length in Hc. pose proof (absval_pos x Hx Hc) as Hap.
  wp_step; bsplit.
  { subst bits. wp_step. wp_call toInt64_spec; [done|]. intros i ->. apply createFromInt64_spec.
    unfold wrap_signed. pose proof (Z.mod_pos_bound (value x) (2 ^ 64) ltac:(lia)). change (64 - 1) with 63.
    destruct (Z.leb_spec (2 ^ 63) (value x mod 2 ^ 64)); lia. }
  assert (Hsmall : absval x < 2 ^ (bits - 1) -> denotes x (wrap_signed bits (value x))).
  { intros Hlt. split; [done|]. rewrite wrap_signed_small; [done|lia|]. rewrite value_signed. destruct (isNegative x); cbn; lia. }
  wp_step; bsplit.
  { wp_step. apply Hsmall. pose proof (wf_absval_bound x Hx). rewrite <- max_bits in *.
    assert (2 ^ MaxBitLength <= 2 ^ (bits - 1)) by (apply Z.pow_le_mono_r; lia). lia. }
  wp_step. apply wp_digit; [lia|]. pose proof (wf_digit x (digitLength x - 1) Hx) as Htop.
  assert (Htop0 : zget (digits x) (digitLength x - 1) <> 0) by (apply Hx; lia).
  wp_step. apply wp_DigitLeadingZeroes; [done|done|]. intros s Hs Hnorm Hlog.
  pose proof (bit_length x s Hx Hc Hlog) as Hbl. rewrite <- Hbl. pose proof (Z.log2_spec (absval x) Hap) as [Hl2 Hu2].
  rewrite <- Z.add_1_r in Hu2.
  wp_step; bsplit.
  { wp_step. apply Hsmall. assert (2 ^ (Z.log2 (absval x) + 1) <= 2 ^ (bits - 1)) by (apply Z.pow_le_mono_r; lia). lia. }
  assert (Hbm : 0 <= (bits - 1) mod DigitBits < DigitBits) by (apply Z.mod_pos_bound; lia).
  wp_step. apply wp_shl; [lia|]. assert (Hsb : digit_ok (2 ^ ((bits - 1) mod DigitBits))).
  { unfold digit_ok, Base. split; [apply Z.pow_nonneg; lia|apply Z.pow_lt_mono_r; lia]. }
  rewrite Z.mul_1_l, wrap_small by done.
  wp_step.
  { (* the top bit of the top digit is the sign bit: this branch is dead *)
    exfalso. bsplit. assert (Hmod : (bits - 1) mod DigitBits = DigitBits - 1 - s).
    { symmetry. apply Z.mod_unique_pos with (digitLength x - 1); lia. }
    rewrite Hmod, <- Hlog in *. pose proof (Z.log2_spec (zget (digits x) (digitLength x - 1))) as Hls. unfold digit_ok in Htop. lia. }
  set (v := value x) in *. assert (H2bits : 0 < 2 ^ bits) by (apply Z.pow_pos_nonneg; lia).
  wp_step. eapply wp_mono; [apply asUintN_spec; [done|lia]| |intros e (_ & _ & ?); lia].
  intros m [Hm Hmv]. fold v in Hmv. pose proof (Z.mod_pos_bound v (2 ^ bits) H2bits) as Hmb.
  assert (Hma : absval m = value m) by (rewrite wf_abs_value by done; lia).
  wp_step. apply CeilDiv_spec; [lia|]. intros n Hn Hb _.
  assert (E2 : 2 ^ bits = 2 * 2 ^ (bits - 1)) by (rewrite <- Z.pow_succ_r by lia; f_equal; lia).
  wp_step; bsplit.
  - wp_step. wp_step; [unfold isZero; lia|]. wp_step. apply wp_digit; [lia|].
    replace (digitLength m) with n by lia. rewrite (sign_bit_test m bits n) by (done || lia).
    unfold wrap_signed. rewrite <- Hmv. wp_step; bsplit.
    + replace (2 ^ (bits - 1) <=? value m) with true by lia.
      eapply wp_mono; [apply truncateAndSub_spec; [done|lia|lia]| |intros e [_ ?]; lia].
      intros r Hr. replace (value m - 2 ^ bits) with (signed true ((- absval m) mod 2 ^ bits)); [done|].
      cbn [signed]. rewrite Hma. replace ((- value m) mod 2 ^ bits) with (2 ^ bits - value m); [lia|].
      apply Z.mod_unique_pos with (-1); [|lia]. assert (0 < 2 ^ (bits - 1)) by (apply Z.pow_pos_nonneg; lia). lia.
    + replace (2 ^ (bits - 1) <=? value m) with false by lia. wp_step. by split.
  - wp_step. split; [done|]. unfold wrap_signed. rewrite <- Hmv.
    assert (Hml : value m < 2 ^ (bits - 1)).
    { destruct (Z_lt_le_dec (digitLength m) n) as [Hlt|Hge].
      - rewrite <- Hma. pose proof (absval_bound m (wf_digits m Hm)). pose proof (digitLength_nonneg m).
        assert (Base ^ digitLength m <= Base ^ (n - 1)) by (apply Z.pow_le_mono_r; lia).
        rewrite (Base_pow (n - 1)) in * by lia.
        assert (2 ^ (DigitBits * (n - 1)) <= 2 ^ (bits - 1)) by (apply Z.pow_le_mono_r; lia). lia.
      - exfalso. pose proof (wf_lower m Hm ltac:(lia)).
        assert (Base ^ n <= Base ^ (digitLength m - 1)) by (apply Z.pow_le_mono_r; lia).
        rewrite (Base_pow n) in * by lia. assert (2 ^ bits <= 2 ^ (DigitBits * n)) by (apply Z.pow_le_mono_r; lia). lia. }
    destruct (Z.leb_spec (2 ^ (bits - 1)) (value m)); [lia|done].
Qed.
End as_n.
