(* ===== verification/BigIntValue.v ===== *)
(** The entry points the interpreter and the JITs call with JavaScript values
    (vm/BigIntType.cpp: [ValidBigIntOperands], [addValue] to [bitNotValue]),
    and the refinement theorem: each operator computes the integer operation
    of the language specification. *)
From S2P Require Import Prelude Words CheckedArithmetic BigIntRep BigIntAdd BigIntMul BigIntDiv BigIntShift BigIntBitwise.

(** * Definitions *)

(** A value as these functions see it: a BigInt or anything else. *)
Inductive jsvalue :=
  | BigIntValue (b : bigint)
  | OtherValue.

Section definitions.
Context {P : Platform} {K : DigitKernel} {C : CheckedMul}.

Definition isBigInt (v : jsvalue) : bool := match v with BigIntValue _ => true | OtherValue => false end.

(** The unboxing accessor is guarded by the checks of its callers. *)
Definition toBigInt (v : jsvalue) : M bigint :=
  match v with BigIntValue b => mret b | OtherValue => throw AssertionFailed end.

(** Throws the pending TypeError itself instead of returning false. *)
Definition ValidBigIntOperands (lhs rhs : jsvalue) : M unit :=
  moz_assert (isBigInt lhs || isBigInt rhs);;
  if negb (isBigInt lhs) || negb (isBigInt rhs) then throw BigIntToNumber else mret tt.

Definition addValue (lhs rhs : jsvalue) : M jsvalue :=
  ValidBigIntOperands lhs rhs;;
  lhsBigInt ← toBigInt lhs;
  rhsBigInt ← toBigInt rhs;
  resBigInt ← add lhsBigInt rhsBigInt;
  mret (BigIntValue resBigInt).

Definition subValue (lhs rhs : jsvalue) : M jsvalue :=
  ValidBigIntOperands lhs rhs;;
  lhsBigInt ← toBigInt lhs;
  rhsBigInt ← toBigInt rhs;
  resBigInt ← sub lhsBigInt rhsBigInt;
  mret (BigIntValue resBigInt).

Definition mulValue (lhs rhs : jsvalue) : M jsvalue :=
  ValidBigIntOperands lhs rhs;;
  lhsBigInt ← toBigInt lhs;
  rhsBigInt ← toBigInt rhs;
  resBigInt ← mul lhsBigInt rhsBigInt;
  mret (BigIntValue resBigInt).

Definition divValue (lhs rhs : jsvalue) : M jsvalue :=
  ValidBigIntOperands lhs rhs;;
  lhsBigInt ← toBigInt lhs;
  rhsBigInt ← toBigInt rhs;
  resBigInt ← div lhsBigInt rhsBigInt;
  mret (BigIntValue resBigInt).

Definition modValue (lhs rhs : jsvalue) : M jsvalue :=
  ValidBigIntOperands lhs rhs;;
  lhsBigInt ← toBigInt lhs;
  rhsBigInt ← toBigInt rhs;
  resBigInt ← mod_ lhsBigInt rhsBigInt;
  mret (BigIntValue resBigInt).

Definition powValue (lhs rhs : jsvalue) : M jsvalue :=
  ValidBigIntOperands lhs rhs;;
  lhsBigInt ← toBigInt lhs;
  rhsBigInt ← toBigInt rhs;
  resBigInt ← pow lhsBigInt rhsBigInt;
  mret (BigIntValue resBigInt).

Definition lshValue (lhs rhs : jsvalue) : M jsvalue :=
  ValidBigIntOperands lhs rhs;;
  lhsBigInt ← toBigInt lhs;
  rhsBigInt ← toBigInt rhs;
  resBigInt ← lsh lhsBigInt rhsBigInt;
  mret (BigIntValue resBigInt).

Definition rshValue (lhs rhs : jsvalue) : M jsvalue :=
  ValidBigIntOperands lhs rhs;;
  lhsBigInt ← toBigInt lhs;
  rhsBigInt ← toBigInt rhs;
  resBigInt ← rsh lhsBigInt rhsBigInt;
  mret (BigIntValue resBigInt).

Definition bitAndValue (lhs rhs : jsvalue) : M jsvalue :=
  ValidBigIntOperands lhs rhs;;
  lhsBigInt ← toBigInt lhs;
  rhsBigInt ← toBigInt rhs;
  resBigInt ← bitAnd lhsBigInt rhsBigInt;
  mret (BigIntValue resBigInt).

Definition bitXorValue (lhs rhs : jsvalue) : M jsvalue :=
  ValidBigIntOperands lhs rhs;;
  lhsBigInt ← toBigInt lhs;
  rhsBigInt ← toBigInt rhs;
  resBigInt ← bitXor lhsBigInt rhsBigInt;
  mret (BigIntValue resBigInt).

Definition bitOrValue (lhs rhs : jsvalue) : M jsvalue :=
  ValidBigIntOperands lhs rhs;;
  lhsBigInt ← toBigInt lhs;
  rhsBigInt ← toBigInt rhs;
  resBigInt ← bitOr lhsBigInt rhsBigInt;
  mret (BigIntValue resBigInt).

Definition negValue (operand : jsvalue) : M jsvalue :=
  moz_assert (isBigInt operand);;
  operandBigInt ← toBigInt operand;
  resBigInt ← neg operandBigInt;
  mret (BigIntValue resBigInt).

Definition incValue (operand : jsvalue) : M jsvalue :=
  moz_assert (isBigInt operand);;
  operandBigInt ← toBigInt operand;
  resBigInt ← inc operandBigInt;
  mret (BigIntValue resBigInt).

Definition decValue (operand : jsvalue) : M jsvalue :=
  moz_assert (isBigInt operand);;
  operandBigInt ← toBigInt operand;
  resBigInt ← dec operandBigInt;
  mret (BigIntValue resBigInt).

Definition bitNotValue (operand : jsvalue) : M jsvalue :=
  moz_assert (isBigInt operand);;
  operandBigInt ← toBigInt operand;
  resBigInt ← bitNot operandBigInt;
  mret (BigIntValue resBigInt).
End definitions.

(** * The operators of the language and their mathematical meaning *)

Inductive binary_operator :=
  | OpAdd | OpSub | OpMul | OpDiv | OpMod | OpPow | OpLsh | OpRsh | OpBitAnd | OpBitXor | OpBitOr.
Inductive unary_operator := OpNeg | OpInc | OpDec | OpBitNot.

(** ECMAScript's BigInt operations on mathematical integers: division
    truncates, the remainder takes the sign of the dividend, shifts are
    arithmetic, bitwise operations act on two's complement. *)
Definition binary_spec (op : binary_operator) (a b : Z) : Z :=
  match op with
  | OpAdd => a + b
  | OpSub => a - b
  | OpMul => a * b
  | OpDiv => Z.quot a b
  | OpMod => Z.rem a b
  | OpPow => a ^ b
  | OpLsh => Z.shiftl a b
  | OpRsh => Z.shiftr a b
  | OpBitAnd => Z.land a b
  | OpBitXor => Z.lxor a b
  | OpBitOr => Z.lor a b
  end.

Definition unary_spec (op : unary_operator) (a : Z) : Z :=
  match op with
  | OpNeg => - a
  | OpInc => a + 1
  | OpDec => a - 1
  | OpBitNot => Z.lnot a
  end.

(** The RangeErrors the specification prescribes. *)
Definition range_error (op : binary_operator) (a b : Z) (e : error) : Prop :=
  match op with
  | OpDiv | OpMod => e = BigIntDivisionByZero /\ b = 0
  | OpPow => e = BigIntNegativeExponent /\ b < 0
  | _ => False
  end.

(** The implementation limit: how large an operand or a result has to be for
    the engine to give up. *)
Definition over_limit {P : Platform} (op : binary_operator) (x y : bigint) : Prop :=
  match op with
  | OpAdd | OpSub => MaxDigitLength <= Z.max (digitLength x) (digitLength y)
  | OpMul => MaxDigitLength < digitLength x + digitLength y
  | OpDiv | OpMod => digitLength x = MaxDigitLength /\ 2 <= digitLength y
  | OpPow => Base ^ (MaxDigitLength - 1) <= Z.abs (value x ^ value y)
  | OpLsh => 0 < value y /\ Base ^ MaxDigitLength <= Z.abs (Z.shiftl (value x) (value y))
  | OpRsh => value y < 0 /\ Base ^ MaxDigitLength <= Z.abs (Z.shiftr (value x) (value y))
  | OpBitAnd | OpBitXor => binary_spec op (value x) (value y) = - Base ^ MaxDigitLength
  | OpBitOr => False
  end.

Definition operator_error {P : Platform} (op : binary_operator) (x y : bigint) (e : error) : Prop :=
  range_error op (value x) (value y) e \/ (e = BigIntTooLarge /\ over_limit op x y).

(** The shifts that round a negative number and read an unwritten digit are
    outside the refinement. *)
Definition reads_junk {P : Platform} (op : binary_operator) (x y : bigint) : bool :=
  match op with
  | OpLsh => (value y <? 0) && rounding_reads_junk x y
  | OpRsh => (0 <=? value y) && rounding_reads_junk x y
  | _ => false
  end.

(** Unfolding the wrapper at hand. *)
Ltac wp_unwrap :=
  unfold addValue, subValue, mulValue, divValue, modValue, powValue, lshValue, rshValue, bitAndValue, bitXorValue, bitOrValue, negValue, incValue, decValue, bitNotValue.

Section dispatch.
Context {P : Platform} {K : DigitKernel} {C : CheckedMul}.

Definition binary_value (op : binary_operator) : jsvalue -> jsvalue -> M jsvalue :=
  match op with
  | OpAdd => addValue
  | OpSub => subValue
  | OpMul => mulValue
  | OpDiv => divValue
  | OpMod => modValue
  | OpPow => powValue
  | OpLsh => lshValue
  | OpRsh => rshValue
  | OpBitAnd => bitAndValue
  | OpBitXor => bitXorValue
  | OpBitOr => bitOrValue
  end.

Definition unary_value (op : unary_operator) : jsvalue -> M jsvalue :=
  match op with
  | OpNeg => negValue
  | OpInc => incValue
  | OpDec => decValue
  | OpBitNot => bitNotValue
  end.

Definition binary_op (op : binary_operator) : bigint -> bigint -> M bigint :=
  match op with
  | OpAdd => add
  | OpSub => sub
  | OpMul => mul
  | OpDiv => div
  | OpMod => mod_
  | OpPow => pow
  | OpLsh => lsh
  | OpRsh => rsh
  | OpBitAnd => bitAnd
  | OpBitXor => bitXor
  | OpBitOr => bitOr
  end.

(** The value-level wrapper around an operation on BigInts. *)
Lemma binary_value_wrap op x y Q E : wp (binary_op op x y) (fun r => Q (BigIntValue r)) E ->
  wp (binary_value op (BigIntValue x) (BigIntValue y)) Q E.
Proof.
  intros H. destruct op; cbn [binary_value binary_op] in *;
    (wp_unwrap; wp_step; unfold ValidBigIntOperands, toBigInt; wp_step; wp_step; [done|]; wp_step; [done|];
     wp_step; wp_step; wp_step; wp_step; wp_step; wp_step;
     eapply wp_weaken_ok; [exact H|]; intros r Hr; by wp_step).
Qed.

Lemma signed_shiftl_abs x k : wf x -> 0 <= k -> Z.abs (value x * 2 ^ k) = absval x * 2 ^ k.
Proof.
  intros Hx Hk. assert (0 < 2 ^ k) by (apply Z.pow_pos_nonneg; lia).
  rewrite Z.abs_mul, (Z.abs_eq (2 ^ k)), wf_abs_value by (done || lia). done.
Qed.

Lemma binary_op_spec op x y : wf x -> wf y -> reads_junk op x y = false ->
  wp (binary_op op x y) (fun r => denotes r (binary_spec op (value x) (value y))) (operator_error op x y).
Proof.
  intros Hx Hy Hj. unfold operator_error.
  destruct op; cbn [binary_op binary_spec range_error over_limit reads_junk] in *.
  - eapply wp_mono; [by apply add_spec|done|]. intros e (_ & -> & ?). by right.
  - eapply wp_mono; [by apply sub_spec|done|]. intros e (_ & -> & ?). by right.
  - eapply wp_mono; [by apply mul_spec|done|]. intros e [-> ?]. by right.
  - eapply wp_mono; [by apply div_spec|by intros r [? _]|]. intros e [?|(_ & [? _] & -> & ?)]; [by left|by right].
  - eapply wp_mono; [by apply mod_spec|by intros r [? _]|]. intros e [?|(_ & [? _] & -> & ?)]; [by left|by right].
  - eapply wp_mono; [by apply pow_spec|done|]. intros e [?|(_ & -> & ?)]; [by left|by right].
  - eapply wp_mono; [apply lsh_spec; [done|done|intros Hn; by rewrite (proj2 (Z.ltb_lt _ _) Hn) in Hj]|done|]. intros e (Hpos & -> & Hbig). right. split; [done|]. split; [done|].
    rewrite Z.shiftl_mul_pow2, signed_shiftl_abs by (done || lia). by rewrite (wf_abs_value y), (Z.abs_eq (value y)) in Hbig by (done || lia).
  - eapply wp_mono; [apply rsh_spec; [done|done|intros Hn; by rewrite (proj2 (Z.leb_le _ _) Hn) in Hj]|done|]. intros e (Hneg & -> & Hbig). right. split; [done|]. split; [done|].
    pose proof (wf_abs_value y Hy) as Ha. replace (value y) with (- absval y) by lia.
    rewrite Z.shiftr_opp_r, Z.shiftl_mul_pow2, signed_shiftl_abs by (done || lia). done.
  - eapply wp_mono; [by apply bitAnd_spec|done|]. intros e [-> ?]. by right.
  - eapply wp_mono; [by apply bitXor_spec|done|]. intros e [-> ?]. by right.
  - eapply wp_mono; [by apply bitOr_spec|done|intros e []].
Qed.

Lemma unary_value_spec op x : wf x ->
  wp (unary_value op (BigIntValue x))
    (fun v => exists r, v = BigIntValue r /\ denotes r (unary_spec op (value x)))
    (fun e => e = BigIntTooLarge /\ absval x + 1 = Base ^ MaxDigitLength).
Proof.
  intros Hx. destruct op; cbn [unary_value unary_spec]; (wp_unwrap; unfold toBigInt; wp_step; wp_step; [done|]; wp_step; wp_step; wp_step).
  - wp_call neg_spec; [done|]. intros r Hr. wp_step. by exists r.
  - eapply wp_mono; [by apply inc_spec| |by intros e (_ & -> & ?)]. intros r Hr. wp_step. by exists r.
  - eapply wp_mono; [by apply dec_spec| |by intros e (_ & -> & ?)]. intros r Hr. wp_step. by exists r.
  - eapply wp_mono; [by apply bitNot_spec| |].
    + intros r Hr. wp_step. by exists r.
    + intros e [-> Hv]. split; [done|]. unfold Z.lnot in Hv. pose proof (wf_absval_nonneg x Hx).
      pose proof (Base_pow_pos MaxDigitLength). pose proof MaxDigitLength_big.
      rewrite value_signed in Hv. destruct (isNegative x); cbn in Hv; lia.
Qed.
End dispatch.
