(* ===== verification/Numerals.v ===== *)
(** Positional numerals: character buffers that are filled from the end,
    the integer printers of the engine (vm/JSAtom-inl.h:
    [BackfillIndexInCharBuffer]; jsnum.cpp: [BackfillInt32InBuffer],
    [Int32ToCString]) and the value of a list of digits.  A character is its
    code. *)
From Stdlib Require Import Ascii String.
From S2P Require Import Prelude CheckedArithmetic.

#[local] Open Scope Z_scope.

(** * Character buffers *)

(** A buffer of which the cells from [pos] to the end have been written; the
    pair holds [pos] and their contents. *)
Definition backfill : Type := Z * list Z.

(** [buffer[--pos] = c], with the assertion that [pos] is positive. *)
Definition push (s : backfill) (c : Z) : M backfill :=
  let '(pos, chars) := s in moz_assert (pos >? 0);; mret (pos - 1, c :: chars).

Definition codes (s : string) : list Z := (fun a => Z.of_N (N_of_ascii a)) <$> list_ascii_of_string s.

Definition radixDigits : list Z := codes "0123456789abcdefghijklmnopqrstuvwxyz".
Definition radixDigit (d : Z) : Z := zget radixDigits d.

(** [do { buffer[--pos] = f(n % radix); n /= radix; } while (n > 0)] *)
Definition emit_do (f : Z -> Z) (radix n : Z) (s : backfill) : M backfill :=
  loop 65 (fun '(n, s) =>
    s ← push s (f (n mod radix));
    let n := n / radix in
    mret (if n >? 0 then inl (n, s) else inr s)) (n, s).

(** [while (n != 0) { buffer[--pos] = radixDigits[n % radix]; n /= radix; }] *)
Definition emit_while (radix n : Z) (s : backfill) : M backfill :=
  loop 66 (fun '(n, s) =>
    if negb (n =? 0) then
      s ← push s (radixDigit (n mod radix));
      mret (inl (n / radix, s))
    else mret (inr s)) (n, s).

(** ** The int32 printers *)

Definition UINT32_CHAR_BUFFER_LENGTH : Z := 10.

(** The debug build first checks that ten characters fit. *)
Definition BackfillIndexInCharBuffer (index : Z) (s : backfill) : M backfill :=
  moz_assert (s.1 >=? UINT32_CHAR_BUFFER_LENGTH);;
  emit_do (fun digit => 48 + digit) 10 index s.

(** The characters before the terminator that [*end] receives. *)
Definition BackfillInt32InBuffer (si size : Z) : M (list Z) :=
  let ui := uint32 (Z.abs si) in
  '(pos, chars) ← BackfillIndexInCharBuffer ui (size - 1, []);
  '(pos, chars) ← (if si <? 0 then push (pos, chars) 45 else mret (pos, chars));
  mret chars.

(** [Int32ToString], less its caches, which hold strings it produced. *)
Definition Int32ToString (si : Z) : M (list Z) := BackfillInt32InBuffer si (24 + 1).

(** [ToCStringBuf::sbufSize] *)
Definition sbufSize : Z := 34.

Definition Int32ToCString (i base : Z) : M (list Z) :=
  let u := uint32 (Z.abs i) in
  let cp := (sbufSize - 1, []) in
  cp ← (if base =? 10 then BackfillIndexInCharBuffer u cp
        else if base =? 16 then emit_do radixDigit 16 u cp
        else moz_assert ((base >=? 2) && (base <=? 36));; emit_do radixDigit base u cp);
  '(pos, chars) ← (if i <? 0 then push cp 45 else mret cp);
  mret chars.

(** * The value of a list of digits *)

Fixpoint number_of (radix : Z) (ds : list Z) : Z :=
  match ds with
  | [] => 0
  | d :: ds => d * radix ^ zlen ds + number_of radix ds
  end.

Definition digits_in (radix : Z) (ds : list Z) : Prop := Forall (fun d => 0 <= d < radix) ds.

(** No leading zero, except in the numeral of zero. *)
Definition canonical (ds : list Z) : Prop := ds = [0] \/ exists d ds', ds = d :: ds' /\ d <> 0.

(** [chars] is the canonical numeral of [n], in lower-case digits. *)
Definition numeral (radix n : Z) (chars : list Z) : Prop :=
  exists ds, chars = radixDigit <$> ds /\ digits_in radix ds /\ canonical ds /\ number_of radix ds = n.

(** The numeral of an integer with its sign. *)
Definition signed_numeral (radix v : Z) (chars : list Z) : Prop :=
  exists ds, numeral radix (Z.abs v) ds /\ chars = if v <? 0 then 45 :: ds else ds.

Section numbers.
Context (radix : Z) (Hradix : 2 <= radix).

Lemma zlen_cons {A} (a : A) l : zlen (a :: l) = zlen l + 1.
Proof. unfold zlen. cbn [length]. lia. Qed.

Lemma zlen_app {A} (l m : list A) : zlen (l ++ m) = zlen l + zlen m.
Proof. unfold zlen. rewrite length_app. lia. Qed.

Lemma zlen_fmap {A B} (f : A -> B) l : zlen (f <$> l) = zlen l.
Proof. unfold zlen. by rewrite length_fmap. Qed.

Lemma radix_pow_pos n : 0 <= n -> 0 < radix ^ n.
Proof. intros. apply Z.pow_pos_nonneg; lia. Qed.

Lemma number_of_app ds es : number_of radix (ds ++ es) = number_of radix ds * radix ^ zlen es + number_of radix es.
Proof using Hradix.
  induction ds as [|d ds IH]; cbn [number_of app]; [lia|].
  rewrite IH, zlen_app, Z.pow_add_r by apply zlen_nonneg. ring.
Qed.

Lemma number_of_bound ds : digits_in radix ds -> 0 <= number_of radix ds < radix ^ zlen ds.
Proof using Hradix.
  induction 1 as [|d ds Hd _ IH]; cbn [number_of]; [change (zlen []) with 0; rewrite Z.pow_0_r; lia|].
  rewrite zlen_cons, Z.pow_add_r, Z.pow_1_r by (pose proof (zlen_nonneg ds); lia).
  assert (0 <= d * radix ^ zlen ds) by (apply Z.mul_nonneg_nonneg; lia).
  assert ((d + 1) * radix ^ zlen ds <= radix * radix ^ zlen ds) by (apply Z.mul_le_mono_nonneg_r; lia). lia.
Qed.

(** A numeral without leading zero needs all its digits. *)
Lemma number_of_lower d ds : digits_in radix (d :: ds) -> d <> 0 -> radix ^ zlen ds <= number_of radix (d :: ds).
Proof using Hradix.
  intros H Hd. inversion H as [|? ? Hd0 Hds]; subst. cbn [number_of]. pose proof (number_of_bound ds Hds).
  assert (1 * radix ^ zlen ds <= d * radix ^ zlen ds) by (apply Z.mul_le_mono_nonneg_r; lia). lia.
Qed.

(** The length of a canonical numeral is the least that fits. *)
Lemma canonical_length ds n p : digits_in radix ds -> canonical ds -> number_of radix ds = n ->
  1 <= p -> n < radix ^ p -> 1 <= zlen ds <= p.
Proof using Hradix.
  intros Hds [->|(d & ds' & -> & Hd)] Hn Hp Hlt; [change (zlen [0]) with 1; lia|]. rewrite zlen_cons. pose proof (zlen_nonneg ds').
  pose proof (number_of_lower d ds' Hds Hd) as Hl. rewrite Hn in Hl.
  assert (zlen ds' < p); [|lia]. apply (Z.pow_lt_mono_r_iff radix); lia.
Qed.

(** What a loop has emitted: the low digits of the number. *)
Definition emitted (f : Z -> Z) (n rest : Z) (s0 s : backfill) : Prop :=
  exists ds, s.2 = (f <$> ds) ++ s0.2 /\ s.1 = s0.1 - zlen ds /\ digits_in radix ds /\
    n = rest * radix ^ zlen ds + number_of radix ds.

Lemma emitted_nil f n s : emitted f n n s s.
Proof. exists []. split_and!; [done|change (zlen []) with 0; lia|constructor|change (zlen []) with 0; cbn; lia]. Qed.

Lemma emitted_step f n rest s0 pos cs : emitted f n rest s0 (pos, cs) ->
  emitted f n (rest / radix) s0 (pos - 1, f (rest mod radix) :: cs).
Proof using Hradix.
  intros (ds & Hcs & Hpos & Hds & Hn). cbn in Hcs, Hpos. pose proof (Z.mod_pos_bound rest radix ltac:(lia)).
  exists (rest mod radix :: ds). cbn [fst snd fmap list_fmap app]. rewrite Hcs, Hpos, zlen_cons.
  split_and!; [done|lia|constructor; [lia|done]|]. cbn [number_of]. rewrite Hn at 1.
  rewrite (Z.div_mod rest radix) at 1 by lia. rewrite Z.pow_add_r, Z.pow_1_r by (pose proof (zlen_nonneg ds); lia). ring.
Qed.

(** Room for the digits of [n] suffices: when [rest] is not zero a cell is
    left. *)
Lemma emitted_room f n rest s0 s p : emitted f n rest s0 s -> 0 < rest -> 0 <= p <= s0.1 -> n < radix ^ p -> 0 < s.1.
Proof using Hradix.
  intros (ds & _ & -> & Hds & Hn) Hr Hp Hlt. pose proof (number_of_bound ds Hds). pose proof (zlen_nonneg ds).
  assert (1 * radix ^ zlen ds <= rest * radix ^ zlen ds)
    by (apply Z.mul_le_mono_nonneg_r; [apply Z.pow_nonneg|]; lia).
  assert (zlen ds < p); [|lia]. apply (Z.pow_lt_mono_r_iff radix); lia.
Qed.

(** The digits emitted when nothing is left are the canonical numeral. *)
Definition all_emitted (f : Z -> Z) (n : Z) (s0 s : backfill) : Prop :=
  exists ds, s.2 = (f <$> ds) ++ s0.2 /\ s.1 = s0.1 - zlen ds /\ digits_in radix ds /\
    canonical ds /\ number_of radix ds = n.

Lemma emitted_last f n rest s0 s : emitted f n rest s0 s -> 0 < rest < radix \/ (rest = 0 /\ n = 0 /\ s = s0) ->
  all_emitted f n s0 (s.1 - 1, f rest :: s.2).
Proof using Hradix.
  intros (ds & Hcs & Hpos & Hds & Hn) Hr. exists (rest :: ds). cbn [fst snd fmap list_fmap app number_of].
  rewrite Hcs, Hpos, zlen_cons. split_and!; [done|lia|constructor; [lia|done]| |lia].
  destruct Hr as [Hr|(-> & -> & ->)]; [right; exists rest, ds; split; [done|lia]|left].
  pose proof (zlen_nonneg ds). assert (ds = []) as ->; [|done]. destruct ds; [done|]. rewrite zlen_cons in *. pose proof (zlen_nonneg ds). lia.
Qed.

Lemma pow2_steps n k : 0 <= n < 2 ^ (k + 1) -> 0 <= k -> 0 <= n / radix < 2 ^ k.
Proof using Hradix.
  intros Hn Hk. rewrite Z.pow_add_r in Hn by lia. split; [apply Z.div_pos; lia|].
  apply Z.div_lt_upper_bound; [lia|].
  assert (2 * 2 ^ k <= radix * 2 ^ k) by (apply Z.mul_le_mono_nonneg_r; [apply Z.pow_nonneg|]; lia). lia.
Qed.

Lemma log2_div_radix rest : 0 < rest / radix -> 0 < rest -> Z.log2 (rest / radix) < Z.log2 rest.
Proof using Hradix.
  intros Hg Hr. assert (rest / radix <= rest / 2) by (apply Z.div_le_compat_l; lia).
  assert (Z.log2 (rest / radix) <= Z.log2 (rest / 2)) by (apply Z.log2_le_mono; lia).
  assert (E2 : rest / 2 = Z.shiftr rest 1) by (by rewrite Z.shiftr_div_pow2 by lia).
  rewrite E2, Z.log2_shiftr in * by lia.
  assert (1 <= Z.log2 rest); [|lia]. apply Z.log2_le_pow2; [lia|]. change (2 ^ 1) with 2.
  destruct (Z_lt_le_dec rest 2); [|done]. rewrite Z.div_small in Hg by lia. lia.
Qed.

(** The loops go on from the digits emitted so far. *)
Lemma emit_do_from f n rest0 s0 s p : 0 <= rest0 < 2 ^ 64 -> emitted f n rest0 s0 s -> (rest0 = 0 -> n = 0 /\ s = s0) ->
  1 <= p <= s0.1 -> n < radix ^ p ->
  wp (emit_do f radix rest0 s) (all_emitted f n s0) no_error.
Proof using Hradix.
  intros Hn He0 Hz0 Hp Hlt. unfold emit_do.
  eapply (wp_loop (fun '(rest, s') => 0 <= rest /\ emitted f n rest s0 s' /\ (rest = 0 -> n = 0 /\ s' = s0))
            (fun '(rest, _) => Z.log2 rest)).
  { split; [lia|]. done. }
  { destruct (Z.eq_dec rest0 0) as [->|]; [done|]. assert (Z.log2 rest0 < 64) by (apply Z.log2_lt_pow2; lia). lia. }
  { intros [rest s'] _. apply Z.log2_nonneg. }
  intros [rest [pos cs]] (Hr & He & H0). wp_step. unfold push at 1. wp_step. wp_step.
  { destruct (Z.eq_dec rest 0) as [->|].
    - destruct H0 as [_ <-]; [done|]. cbn [fst] in *. lia.
    - pose proof (emitted_room _ _ _ _ _ p He) as Hroom. cbn [fst] in Hroom. lia. }
  wp_step. cbv zeta. wp_step. pose proof (Z.mod_pos_bound rest radix ltac:(lia)).
  destruct (Z.gtb_spec (rest / radix) 0) as [Hg|Hg].
  - assert (0 < rest) by (destruct (Z.eq_dec rest 0) as [->|]; [rewrite Z.div_0_l in Hg by lia; lia|lia]).
    split; [split; [lia|split; [by apply emitted_step|lia]]|by apply log2_div_radix].
  - assert (Hd : rest / radix = 0) by (pose proof (Z.div_pos rest radix); lia).
    apply Z.div_small_iff in Hd; [|lia]. rewrite Z.mod_small by lia.
    apply (emitted_last f n rest s0 (pos, cs)); [done|].
    destruct (Z.eq_dec rest 0) as [E|]; [right|left; lia]. destruct (H0 E). done.
Qed.

Lemma emit_do_spec f n s p : 0 <= n < 2 ^ 64 -> 1 <= p <= s.1 -> n < radix ^ p ->
  wp (emit_do f radix n s) (all_emitted f n s) no_error.
Proof using Hradix. intros Hn Hp Hlt. by apply (emit_do_from f n n s s p Hn (emitted_nil f n s)). Qed.

Lemma emit_while_spec n s p : 0 < n < 2 ^ 64 -> 1 <= p <= s.1 -> n < radix ^ p ->
  wp (emit_while radix n s) (all_emitted radixDigit n s) no_error.
Proof using Hradix.
  intros Hn Hp Hlt. unfold emit_while.
  eapply (wp_loop (fun '(rest, s') => 0 <= rest /\ emitted radixDigit n rest s s' /\
                                      (rest = 0 -> all_emitted radixDigit n s s'))
            (fun '(rest, _) => if rest =? 0 then 0 else Z.log2 rest + 1)).
  { split; [lia|]. split; [apply emitted_nil|lia]. }
  { replace (n =? 0) with false by lia. assert (Z.log2 n < 64) by (apply Z.log2_lt_pow2; lia). lia. }
  { intros [rest s'] _. pose proof (Z.log2_nonneg rest). destruct (rest =? 0); lia. }
  intros [rest [pos cs]] (Hr & He & H0). destruct (Z.eqb_spec rest 0) as [->|Hne]; cbn [negb]; wp_step; [by apply H0|].
  pose proof (emitted_room _ _ _ _ _ p He) as Hroom. cbn [fst] in Hroom.
  unfold push at 1. wp_step. wp_step; [lia|]. wp_step. wp_step.
  assert (0 <= rest / radix) by (apply Z.div_pos; lia). split.
  - split; [done|]. split; [by apply emitted_step|]. intros Hd. apply Z.div_small_iff in Hd; [|lia].
    rewrite Z.mod_small by lia. apply (emitted_last radixDigit n rest s (pos, cs)); [done|]. left. lia.
  - pose proof (Z.log2_nonneg rest). destruct (Z.eqb_spec (rest / radix) 0); [lia|].
    pose proof (log2_div_radix rest). lia.
Qed.

(** The emitted characters of a fresh buffer. *)
Lemma all_emitted_numeral f n pos s : (forall d, 0 <= d < radix -> f d = radixDigit d) ->
  all_emitted f n (pos, []) s -> numeral radix n s.2 /\ exists ds, zlen s.2 = zlen ds /\ s.1 = pos - zlen ds /\
    digits_in radix ds /\ canonical ds /\ number_of radix ds = n.
Proof.
  intros Hf (ds & Hcs & Hpos & Hds & Hc & Hn). cbn in Hcs, Hpos. rewrite app_nil_r in Hcs. split.
  - exists ds. split_and!; [|done..]. rewrite Hcs. apply list_fmap_ext. intros i d Hd. apply Hf.
    by apply (Forall_lookup_1 _ _ _ _ Hds Hd).
  - exists ds. rewrite Hcs, zlen_fmap. split_and!; done.
Qed.
End numbers.

(** * The int32 printers *)

Section int32.

Lemma decimal_digit d : 0 <= d < 10 -> 48 + d = radixDigit d.
Proof. intros Hd. assert (d ∈ [0;1;2;3;4;5;6;7;8;9]) as H by (rewrite !elem_of_cons; lia).
  repeat (apply elem_of_cons in H as [-> | H]; [by vm_compute|]). by apply elem_of_nil in H.
Qed.

(** A magnitude and a minus sign. *)
Lemma with_minus radix (Hr : 2 <= radix) v pos s : all_emitted radix radixDigit (Z.abs v) (pos, []) s ->
  forall p, 1 <= p -> Z.abs v < radix ^ p -> p < pos ->
  wp (if v <? 0 then push s 45 else mret s) (fun s' => signed_numeral radix v s'.2 /\ 0 <= s'.1) no_error.
Proof.
  intros Ha p Hp Hlt Hpos.
  destruct (all_emitted_numeral radix radixDigit (Z.abs v) pos s) as [Hn (ds & _ & Hps & Hds & Hc & Hv)]; [done..|].
  pose proof (canonical_length radix Hr ds (Z.abs v) p Hds Hc Hv Hp Hlt). destruct s as [q cs]. cbn [fst snd] in *.
  destruct (v <? 0) eqn:E.
  - unfold push. wp_step. wp_step; [lia|]. wp_step. cbn [fst snd]. split; [|lia]. exists cs. rewrite E. done.
  - wp_step. cbn [fst snd]. split; [|lia]. exists cs. rewrite E. done.
Qed.

Lemma all_emitted_ext radix f g n s s' : (forall d, 0 <= d < radix -> f d = g d) ->
  all_emitted radix f n s s' -> all_emitted radix g n s s'.
Proof.
  intros Hfg (ds & Hcs & Hpos & Hds & Hc & Hn). exists ds. split_and!; [|done..]. rewrite Hcs. f_equal.
  apply list_fmap_ext. intros i d Hd. apply Hfg. by apply (Forall_lookup_1 _ _ _ _ Hds Hd).
Qed.

Lemma uint32_abs v : is_int32 v = true -> uint32 (Z.abs v) = Z.abs v /\ Z.abs v <= 2 ^ 31.
Proof. unfold is_int32, uint32. intros H. bsplit. split; [apply Z.mod_small|]; lia. Qed.

Lemma BackfillIndex_spec index s : 0 <= index < 2 ^ 32 -> 10 <= s.1 ->
  wp (BackfillIndexInCharBuffer index s) (all_emitted 10 radixDigit index s) no_error.
Proof.
  intros Hi Hs. unfold BackfillIndexInCharBuffer, UINT32_CHAR_BUFFER_LENGTH. wp_step. wp_step; [lia|].
  eapply wp_weaken_ok; [apply (emit_do_spec 10 ltac:(lia) _ index s 10); lia|].
  intros s' Hs'. eapply all_emitted_ext; [|exact Hs']. apply decimal_digit.
Qed.

Lemma Int32ToString_spec si : is_int32 si = true ->
  wp (Int32ToString si) (signed_numeral 10 si) no_error.
Proof.
  intros Hsi. destruct (uint32_abs si Hsi) as [Eu Hb]. unfold Int32ToString, BackfillInt32InBuffer. rewrite Eu.
  wp_step. wp_call BackfillIndex_spec; [lia|cbn; lia|]. intros [q cs] Ha. wp_step.
  eapply (wp_mono _ (fun s' => signed_numeral 10 si s'.2 /\ 0 <= s'.1)); [apply (with_minus 10 ltac:(lia) si (24 + 1 - 1) (q, cs) Ha 10); lia| |done].
  intros [q' cs'] [Hs _]. wp_step. exact Hs.
Qed.

(** [Int32ToCString] in every base: 34 characters are enough for -2^31 in
    base 2. *)
Lemma Int32ToCString_spec i base : is_int32 i = true -> 2 <= base <= 36 ->
  wp (Int32ToCString i base) (signed_numeral base i) no_error.
Proof.
  intros Hi Hb. assert (Hsz : sbufSize = 34) by done. destruct (uint32_abs i Hi) as [Eu Hab]. unfold Int32ToCString. rewrite Eu. wp_step.
  assert (Hp : Z.abs i < base ^ 32).
  { apply Z.le_lt_trans with (2 ^ 31); [lia|]. apply Z.lt_le_trans with (2 ^ 32); [lia|]. apply Z.pow_le_mono_l. lia. }
  eapply (wp_mono _ (all_emitted base radixDigit (Z.abs i) (sbufSize - 1, []))); [| |done].
  { destruct (Z.eqb_spec base 10) as [->|]; [apply BackfillIndex_spec; cbn; lia|].
    destruct (Z.eqb_spec base 16) as [->|]; [apply (emit_do_spec 16 ltac:(lia) _ _ _ 32); cbn [fst]; lia|].
    wp_step. wp_step; [lia|]. apply (emit_do_spec base ltac:(lia) _ _ _ 32); cbn [fst]; lia. }
  intros [q cs] Ha. wp_step.
  eapply (wp_mono _ (fun s' => signed_numeral base i s'.2 /\ 0 <= s'.1));
    [apply (with_minus base ltac:(lia) i (sbufSize - 1) (q, cs) Ha 32); lia| |done].
  intros [q' cs'] [Hs _]. wp_step. exact Hs.
Qed.
End int32.
