(* ===== verification/FloatingPoint.v ===== *)
(** IEEE-754 doubles as bit patterns (mfbt/FloatingPoint.h): the constants of
    [FloatingPoint<double>], the classification predicates and the exponent.
    A double is the 64-bit integer [BitwiseCast<uint64_t>] gives; [scaled]
    is the number it denotes, times 2^1074, so that every finite double is an
    integer. *)
From S2P Require Import Prelude CheckedArithmetic.

(** * [FloatingPoint<double>] *)

Definition kExponentWidth : Z := 11.
Definition kSignificandWidth : Z := 52.
Definition kExponentBias : Z := Z.shiftl 1 (kExponentWidth - 1) - 1.
Definition kExponentShift : Z := kSignificandWidth.
Definition kSignBit : Z := Z.shiftl 1 63.
Definition kExponentBits : Z := Z.shiftl (Z.shiftl 1 kExponentWidth - 1) kSignificandWidth.
Definition kSignificandBits : Z := Z.shiftl 1 kSignificandWidth - 1.

Definition IsNaN (bits : Z) : bool :=
  (Z.land bits kExponentBits =? kExponentBits) && negb (Z.land bits kSignificandBits =? 0).
Definition IsInfinite (bits : Z) : bool := Z.land bits (uint64 (Z.lnot kSignBit)) =? kExponentBits.
Definition IsFinite (bits : Z) : bool := negb (Z.land bits kExponentBits =? kExponentBits).
Definition IsNegative (bits : Z) : M bool :=
  moz_assert (negb (IsNaN bits));; mret (negb (Z.land bits kSignBit =? 0)).
Definition IsNegativeZero (bits : Z) : bool := bits =? kSignBit.
Definition IsPositiveZero (bits : Z) : bool := bits =? 0.
Definition ExponentComponent (bits : Z) : Z :=
  Z.shiftr (Z.land bits kExponentBits) kExponentShift - kExponentBias.
Definition PositiveInfinity : Z := kExponentBits.
Definition NegativeInfinity : Z := Z.lor kSignBit kExponentBits.

(** [SpecificNaN] and the NaN the engine uses. *)
Definition SpecificNaN (signbit significand : Z) : M Z :=
  moz_assert ((signbit =? 0) || (signbit =? 1));;
  moz_assert (Z.land significand (uint64 (Z.lnot kSignificandBits)) =? 0);;
  moz_assert (negb (Z.land significand kSignificandBits =? 0));;
  let result := Z.lor (Z.lor (if signbit =? 0 then 0 else kSignBit) kExponentBits) significand in
  moz_assert (IsNaN result);;
  mret result.
Definition UnspecifiedNaN : M Z := SpecificNaN 1 kSignificandBits.

Definition NumbersAreIdentical (bits1 bits2 : Z) : bool :=
  if IsNaN bits1 then IsNaN bits2 else bits1 =? bits2.

(** * The number a double denotes *)

Definition is_double (bits : Z) : Prop := 0 <= bits < 2 ^ 64.

Definition sign_of (bits : Z) : bool := 2 ^ 63 <=? bits.
Definition biased_of (bits : Z) : Z := bits / 2 ^ 52 mod 2 ^ 11.
Definition fraction_of (bits : Z) : Z := bits mod 2 ^ 52.

(** 2^1074 times the magnitude: subnormals have the exponent of 1. *)
Definition scaled_magnitude (bits : Z) : Z :=
  if biased_of bits =? 0 then fraction_of bits
  else (2 ^ 52 + fraction_of bits) * 2 ^ (biased_of bits - 1).
Definition scaled (bits : Z) : Z := signed (sign_of bits) (scaled_magnitude bits).

(** The double with the given fields. *)
Definition assemble (s : bool) (e f : Z) : Z := (if s then 2 ^ 63 else 0) + e * 2 ^ 52 + f.

(** The operators [==], [<] and [>] of C++ between a double and 0. *)
Definition double_is_zero (bits : Z) : bool := bits mod 2 ^ 63 =? 0.
Definition double_lt_zero (bits : Z) : bool := negb (IsNaN bits) && negb (double_is_zero bits) && sign_of bits.
Definition double_gt_zero (bits : Z) : bool := negb (IsNaN bits) && negb (double_is_zero bits) && negb (sign_of bits).

(** * Fields *)

(** A mask that selects the bits [k .. k+w-1]. *)
Lemma land_field b k w : 0 <= k -> 0 <= w ->
  Z.land b (Z.shiftl (2 ^ w - 1) k) = b / 2 ^ k mod 2 ^ w * 2 ^ k.
Proof.
  intros Hk Hw. rewrite <- Z.shiftr_div_pow2, <- Z.shiftl_mul_pow2 by done.
  apply Z.bits_inj'. intros i Hi. rewrite Z.land_spec, !Z.shiftl_spec by done.
  destruct (Z_lt_le_dec i k).
  - rewrite !(Z.testbit_neg_r _ (i - k)), andb_false_r by lia. done.
  - rewrite <- Z.land_ones, Z.land_spec, Z.shiftr_spec by lia. rewrite Z.sub_add.
    by rewrite Z.ones_equiv, Z.sub_1_r.
Qed.

Lemma land_low b w : 0 <= w -> Z.land b (2 ^ w - 1) = b mod 2 ^ w.
Proof. intros Hw. rewrite <- Z.land_ones by done. by rewrite Z.ones_equiv, Z.sub_1_r. Qed.

Lemma land_exponent b : Z.land b kExponentBits = biased_of b * 2 ^ 52.
Proof. apply (land_field b 52 11); lia. Qed.

Lemma land_significand b : Z.land b kSignificandBits = fraction_of b.
Proof. apply (land_low b 52). lia. Qed.

Lemma ExponentComponent_eq b : ExponentComponent b = biased_of b - 1023.
Proof.
  unfold ExponentComponent. rewrite land_exponent, Z.shiftr_div_pow2 by done.
  change kExponentShift with 52. change kExponentBias with 1023. rewrite Z.div_mul by lia. done.
Qed.

Lemma biased_bound b : 0 <= biased_of b < 2048.
Proof. apply (Z.mod_pos_bound _ (2 ^ 11)). lia. Qed.

Lemma fraction_bound b : 0 <= fraction_of b < 2 ^ 52.
Proof. apply Z.mod_pos_bound. lia. Qed.

(** Every 64-bit pattern is assembled from its fields. *)
Lemma double_split b : is_double b ->
  b = assemble (sign_of b) (biased_of b) (fraction_of b).
Proof.
  unfold is_double, assemble, sign_of, biased_of, fraction_of. intros Hb.
  pose proof (Z.div_mod b (2 ^ 52) ltac:(lia)).
  pose proof (Z.div_mod (b / 2 ^ 52) (2 ^ 11) ltac:(lia)).
  rewrite Z.div_div in * by lia. change (2 ^ 52 * 2 ^ 11) with (2 ^ 63) in *.
  assert (b / 2 ^ 63 = if 2 ^ 63 <=? b then 1 else 0).
  { destruct (Z.leb_spec (2 ^ 63) b); symmetry; [apply (Z.div_unique _ _ _ (b - 2 ^ 63))|apply (Z.div_unique _ _ _ b)]; lia. }
  destruct (2 ^ 63 <=? b); lia.
Qed.

Lemma assemble_double s e f : 0 <= e < 2048 -> 0 <= f < 2 ^ 52 -> is_double (assemble s e f).
Proof. unfold is_double, assemble. intros He Hf. destruct s; lia. Qed.

Lemma assemble_fields s e f : 0 <= e < 2048 -> 0 <= f < 2 ^ 52 ->
  sign_of (assemble s e f) = s /\ biased_of (assemble s e f) = e /\ fraction_of (assemble s e f) = f.
Proof.
  intros He Hf. unfold assemble, sign_of, biased_of, fraction_of.
  set (S := if s then 1 else 0).
  assert (E : (if s then 2 ^ 63 else 0) = S * 2 ^ 63) by (destruct s; reflexivity).
  assert (HS : 0 <= S <= 1) by (destruct s; cbn; lia).
  assert (Hd : ((if s then 2 ^ 63 else 0) + e * 2 ^ 52 + f) / 2 ^ 52 = S * 2 ^ 11 + e)
    by (symmetry; apply (Z.div_unique _ _ _ f); lia).
  split_and!.
  - destruct s; [apply Z.leb_le|apply Z.leb_gt]; lia.
  - rewrite Hd. symmetry. apply (Z.mod_unique _ _ S); lia.
  - symmetry. apply (Z.mod_unique _ _ (S * 2 ^ 11 + e)); lia.
Qed.

(** The classification predicates read on the fields. *)
Lemma IsFinite_iff b : IsFinite b = true <-> biased_of b < 2047.
Proof.
  unfold IsFinite. rewrite land_exponent. change kExponentBits with (2047 * 2 ^ 52).
  pose proof (biased_bound b). rewrite negb_true_iff, Z.eqb_neq. lia.
Qed.

Lemma IsNaN_iff b : IsNaN b = true <-> biased_of b = 2047 /\ fraction_of b <> 0.
Proof.
  unfold IsNaN. rewrite land_exponent, land_significand, andb_true_iff, negb_true_iff, Z.eqb_eq, Z.eqb_neq.
  change kExponentBits with (2047 * 2 ^ 52). lia.
Qed.

Lemma scaled_magnitude_nonneg b : 0 <= scaled_magnitude b.
Proof.
  unfold scaled_magnitude. pose proof (fraction_bound b). pose proof (biased_bound b).
  destruct (Z.eqb_spec (biased_of b) 0); [lia|]. apply Z.mul_nonneg_nonneg; [lia|]. apply Z.pow_nonneg. lia.
Qed.

Lemma fields_zero b : b mod 2 ^ 63 = 0 <-> biased_of b = 0 /\ fraction_of b = 0.
Proof.
  unfold biased_of, fraction_of.
  assert (E : b mod 2 ^ 63 = b mod 2 ^ 52 + 2 ^ 52 * (b / 2 ^ 52 mod 2 ^ 11)).
  { change (2 ^ 63) with (2 ^ 52 * 2 ^ 11). by apply Z.rem_mul_r. }
  pose proof (Z.mod_pos_bound b (2 ^ 52) ltac:(lia)). pose proof (Z.mod_pos_bound (b / 2 ^ 52) (2 ^ 11) ltac:(lia)).
  lia.
Qed.

Lemma double_is_zero_iff b : double_is_zero b = true <-> scaled b = 0.
Proof.
  unfold double_is_zero, scaled, scaled_magnitude. rewrite Z.eqb_eq, fields_zero.
  pose proof (fraction_bound b). pose proof (biased_bound b).
  destruct (Z.eqb_spec (biased_of b) 0).
  - destruct (sign_of b); cbn [signed]; lia.
  - assert (0 < 2 ^ (biased_of b - 1)) by (apply Z.pow_pos_nonneg; lia).
    assert (0 < (2 ^ 52 + fraction_of b) * 2 ^ (biased_of b - 1)) by (apply Z.mul_pos_pos; lia).
    destruct (sign_of b); cbn [signed]; lia.
Qed.

Lemma finite_not_nan b : IsFinite b = true -> IsNaN b = false.
Proof. rewrite IsFinite_iff. intros H. destruct (IsNaN b) eqn:E; [|done]. apply IsNaN_iff in E. lia. Qed.

Lemma double_lt_zero_iff b : IsFinite b = true -> double_lt_zero b = true <-> scaled b < 0.
Proof.
  intros Hf. unfold double_lt_zero. rewrite finite_not_nan by done. cbn [negb andb].
  pose proof (double_is_zero_iff b) as Hz. pose proof (scaled_magnitude_nonneg b). unfold scaled in *.
  destruct (double_is_zero b), (sign_of b); cbn [negb andb signed] in *; split; intros; try done; try lia.
Qed.

Lemma double_gt_zero_iff b : IsFinite b = true -> double_gt_zero b = true <-> 0 < scaled b.
Proof.
  intros Hf. unfold double_gt_zero. rewrite finite_not_nan by done. cbn [negb andb].
  pose proof (double_is_zero_iff b) as Hz. pose proof (scaled_magnitude_nonneg b). unfold scaled in *.
  destruct (double_is_zero b), (sign_of b); cbn [negb andb signed] in *; split; intros; try done; try lia.
Qed.

(** * The order of doubles *)

Lemma fields63 b : b mod 2 ^ 63 = biased_of b * 2 ^ 52 + fraction_of b.
Proof.
  unfold biased_of, fraction_of. change (2 ^ 63) with (2 ^ 52 * 2 ^ 11). rewrite Z.rem_mul_r by lia. lia.
Qed.

Lemma scaled_magnitude_bounds b : biased_of b <> 0 ->
  2 ^ 52 * 2 ^ (biased_of b - 1) <= scaled_magnitude b < 2 ^ 52 * 2 ^ biased_of b.
Proof.
  intros Hb. unfold scaled_magnitude. destruct (Z.eqb_spec (biased_of b) 0); [done|].
  pose proof (biased_bound b). pose proof (fraction_bound b).
  assert (0 < 2 ^ (biased_of b - 1)) by (apply Z.pow_pos_nonneg; lia).
  replace (2 ^ biased_of b) with (2 * 2 ^ (biased_of b - 1)) by (rewrite <- Z.pow_succ_r by lia; f_equal; lia).
  rewrite Z.mul_add_distr_r.
  assert (0 <= fraction_of b * 2 ^ (biased_of b - 1)) by (apply Z.mul_nonneg_nonneg; lia).
  assert (fraction_of b * 2 ^ (biased_of b - 1) < 2 ^ 52 * 2 ^ (biased_of b - 1)) by (apply Z.mul_lt_mono_pos_r; lia).
  lia.
Qed.

(** Doubles of one sign are ordered like their bit patterns. *)
Lemma scaled_magnitude_mono a b : a mod 2 ^ 63 < b mod 2 ^ 63 -> scaled_magnitude a < scaled_magnitude b.
Proof.
  rewrite !fields63. pose proof (fraction_bound a). pose proof (fraction_bound b).
  pose proof (biased_bound a). pose proof (biased_bound b). intros Hlt.
  destruct (Z.eq_dec (biased_of a) (biased_of b)) as [E|E].
  - unfold scaled_magnitude. rewrite E in *. destruct (Z.eqb_spec (biased_of b) 0); [lia|].
    apply Z.mul_lt_mono_pos_r; [apply Z.pow_pos_nonneg|]; lia.
  - destruct (scaled_magnitude_bounds b) as [Hlow _]; [lia|]. apply Z.lt_le_trans with (2 ^ 52 * 2 ^ (biased_of b - 1)); [|done].
    assert (1 <= 2 ^ (biased_of b - 1)) by (apply (Z.pow_le_mono_r 2 0); lia).
    destruct (Z.eq_dec (biased_of a) 0) as [E0|E0].
    + unfold scaled_magnitude. rewrite E0. cbn [Z.eqb]. lia.
    + destruct (scaled_magnitude_bounds a) as [_ Hup]; [done|].
      assert (2 ^ biased_of a <= 2 ^ (biased_of b - 1)) by (apply Z.pow_le_mono_r; lia). lia.
Qed.

Lemma scaled_magnitude_inj a b : scaled_magnitude a = scaled_magnitude b -> a mod 2 ^ 63 = b mod 2 ^ 63.
Proof.
  intros E. destruct (Z.lt_total (a mod 2 ^ 63) (b mod 2 ^ 63)) as [H|[H|H]]; [|done|];
    apply scaled_magnitude_mono in H; lia.
Qed.

(** The C++ operator [==] on doubles. *)
Definition double_eq (a b : Z) : bool :=
  negb (IsNaN a) && negb (IsNaN b) && ((a =? b) || (double_is_zero a && double_is_zero b)).

Lemma sign_mod63 b : is_double b -> b = (if sign_of b then 2 ^ 63 else 0) + b mod 2 ^ 63.
Proof. intros Hb. rewrite fields63. rewrite (double_split b Hb) at 1. unfold assemble. lia. Qed.

Lemma double_eq_iff a b : is_double a -> is_double b -> IsFinite a = true -> IsFinite b = true ->
  double_eq a b = true <-> scaled a = scaled b.
Proof.
  intros Ha Hb Fa Fb. unfold double_eq. rewrite !finite_not_nan by done. cbn [negb andb].
  pose proof (double_is_zero_iff a) as Za. pose proof (double_is_zero_iff b) as Zb.
  rewrite orb_true_iff, andb_true_iff, Za, Zb, Z.eqb_eq. split; [intros [->|[-> ->]]; done|].
  intros E. destruct (Z.eq_dec (scaled a) 0) as [E0|E0]; [right; lia|left].
  unfold scaled in *. pose proof (scaled_magnitude_nonneg a). pose proof (scaled_magnitude_nonneg b).
  assert (sign_of a = sign_of b /\ scaled_magnitude a = scaled_magnitude b) as [Es Em].
  { destruct (sign_of a), (sign_of b); cbn [signed] in *; first [exfalso; lia|split; [done|lia]]. }
  apply scaled_magnitude_inj in Em. rewrite (sign_mod63 a), (sign_mod63 b) by done. by rewrite Es, Em.
Qed.
