(* ===== verification/Conversions.v ===== *)
(** Conversions from doubles to machine integers (js/public/Conversions.h:
    [ToUnsignedInteger], [ToSignedInteger] and their uses, [ToInteger];
    jsnum.cpp: [IsInteger]).  They never call the floating-point unit: they
    shift the bit pattern. *)
From S2P Require Import Prelude CheckedArithmetic FloatingPoint.

(** * Definitions *)

(** [ToUnsignedInteger] at a type of [ResultWidth] bits. *)
Definition ToUnsignedInteger (ResultWidth bits : Z) : M Z :=
  let DoubleExponentShift := kExponentShift in
  let exp := Z.shiftr (Z.land bits kExponentBits) DoubleExponentShift - kExponentBias in
  if exp <? 0 then mret 0
  else
    moz_assert (0 <=? exp);;                      (* AssertedCast *)
    let exponent := exp in
    if exponent >=? DoubleExponentShift + ResultWidth then mret 0
    else
      shifted ← (if exponent >? DoubleExponentShift then shl_w 64 bits (exponent - DoubleExponentShift)
                 else shr_w 64 bits (DoubleExponentShift - exponent));
      let result := shifted mod 2 ^ ResultWidth in
      result ← (if exponent <? ResultWidth then
                  implicitOne ← shl_w ResultWidth 1 exponent;
                  let result := Z.land result (implicitOne - 1) in
                  mret ((result + implicitOne) mod 2 ^ ResultWidth)
                else mret result);
      mret (if negb (Z.land bits kSignBit =? 0) then (Z.lnot result + 1) mod 2 ^ ResultWidth else result).

(** [ToSignedInteger] at a type of [w] bits. *)
Definition ToSignedInteger (w bits : Z) : M Z :=
  u ← ToUnsignedInteger w bits;
  mret (WrapToSigned w u).

Definition ToInt8 : Z -> M Z := ToSignedInteger 8.
(** [ToUint8] is declared to return [int8_t]: the result is converted. *)
Definition ToUint8 (bits : Z) : M Z := u ← ToUnsignedInteger 8 bits; mret (wrap_signed 8 u).
Definition ToInt16 : Z -> M Z := ToSignedInteger 16.
Definition ToUint16 : Z -> M Z := ToUnsignedInteger 16.
Definition ToInt32 : Z -> M Z := ToSignedInteger 32.
Definition ToUint32 : Z -> M Z := ToUnsignedInteger 32.
Definition ToInt64 : Z -> M Z := ToSignedInteger 64.
Definition ToUint64 : Z -> M Z := ToUnsignedInteger 64.

(** C's [trunc]: clear the fraction bits below the binary point. *)
Definition trunc (bits : Z) : Z :=
  let e := ExponentComponent bits in
  if e <? 0 then (if sign_of bits then kSignBit else 0)
  else if e <? 52 then bits - bits mod 2 ^ (52 - e)
  else bits.

Definition ToInteger (d : Z) : Z :=
  if double_is_zero d then 0
  else if negb (IsFinite d) then if IsNaN d then 0 else d
  else let t := trunc d in if t =? kSignBit then 0 else t.     (* + (+0.0) *)

Definition IsInteger (d : Z) : bool := IsFinite d && double_eq (ToInteger d) d.

(** * The value a conversion truncates *)

(** The integer part of a finite double, towards zero. *)
Definition integer_part (bits : Z) : Z := Z.quot (scaled bits) (2 ^ 1074).

(** ECMAScript's ToInt32 and its siblings start from this integer. *)
Definition to_integer_value (bits : Z) : Z := if IsFinite bits then integer_part bits else 0.

Section conversions.

(** The integer part of the magnitude at exponent [e]: the implicit one and
    the fraction bits above the binary point. *)
Definition fraction_int (e f : Z) : Z := if e >? 52 then f * 2 ^ (e - 52) else f / 2 ^ (52 - e).

Lemma fraction_int_bound e f : 0 <= e -> 0 <= f < 2 ^ 52 -> 0 <= fraction_int e f < 2 ^ e.
Proof.
  intros He Hf. unfold fraction_int. destruct (Z.gtb_spec e 52).
  - replace e with (52 + (e - 52)) at 3 by lia. rewrite Z.pow_add_r by lia.
    assert (0 < 2 ^ (e - 52)) by (apply Z.pow_pos_nonneg; lia).
    split; [apply Z.mul_nonneg_nonneg; lia|]. by apply Z.mul_lt_mono_pos_r; lia.
  - assert (0 < 2 ^ (52 - e)) by (apply Z.pow_pos_nonneg; lia).
    split; [apply Z.div_pos; lia|]. apply Z.div_lt_upper_bound; [done|].
    rewrite <- Z.pow_add_r by lia. replace (52 - e + e) with 52 by lia. lia.
Qed.

Lemma integer_magnitude b : 0 <= biased_of b - 1023 ->
  scaled_magnitude b / 2 ^ 1074 = 2 ^ (biased_of b - 1023) + fraction_int (biased_of b - 1023) (fraction_of b).
Proof.
  intros He. unfold scaled_magnitude, fraction_int. set (e := biased_of b - 1023) in *.
  replace (biased_of b =? 0) with false by lia. pose proof (fraction_bound b) as Hf.
  replace (biased_of b - 1) with (e + 1022) by lia.
  destruct (Z.gtb_spec e 52).
  - replace (e + 1022) with ((e - 52) + 1074) by lia. rewrite Z.pow_add_r, Z.mul_assoc by lia.
    rewrite Z.div_mul by (apply Z.pow_nonzero; lia). rewrite Z.mul_add_distr_r, <- Z.pow_add_r by lia.
    f_equal. f_equal. lia.
  - replace 1074 with ((e + 1022) + (52 - e)) by lia. rewrite (Z.pow_add_r 2 (e + 1022)) by lia.
    rewrite <- Z.div_div by (apply Z.pow_nonzero || apply Z.pow_pos_nonneg; lia).
    rewrite Z.div_mul by (apply Z.pow_nonzero; lia).
    assert (E : 2 ^ 52 = 2 ^ e * 2 ^ (52 - e)) by (rewrite <- Z.pow_add_r by lia; f_equal; lia).
    rewrite E, Z.add_comm, Z.div_add by (apply Z.pow_nonzero; lia). lia.
Qed.

Lemma integer_part_signed b :
  integer_part b = signed (sign_of b) (scaled_magnitude b / 2 ^ 1074).
Proof.
  unfold integer_part, scaled. pose proof (scaled_magnitude_nonneg b).
  assert (H2 : 0 < 2 ^ 1074) by (apply Z.pow_pos_nonneg; lia). revert H2. generalize (2 ^ 1074). intros T HT.
  destruct (sign_of b); cbn [signed].
  - rewrite Z.quot_opp_l, Z.quot_div_nonneg by lia. done.
  - by rewrite Z.quot_div_nonneg by lia.
Qed.

(** A double below one in magnitude. *)
Lemma small_magnitude b : biased_of b < 1023 -> scaled_magnitude b / 2 ^ 1074 = 0.
Proof.
  intros He. apply Z.div_small. split; [apply scaled_magnitude_nonneg|].
  unfold scaled_magnitude. pose proof (fraction_bound b). pose proof (biased_bound b).
  destruct (Z.eqb_spec (biased_of b) 0).
  - apply Z.lt_le_trans with (2 ^ 52); [lia|]. apply Z.pow_le_mono_r; lia.
  - apply Z.lt_le_trans with (2 ^ 53 * 2 ^ (biased_of b - 1)).
    + apply Z.mul_lt_mono_pos_r; [apply Z.pow_pos_nonneg|]; lia.
    + rewrite <- Z.pow_add_r by lia. apply Z.pow_le_mono_r; lia.
Qed.

(** The bits above the fraction, the exponent and the sign, that a shift
    leaves above the integer part. *)
Definition upper_bits (b : Z) : Z := b / 2 ^ 52.

Lemma double_bits_split b : b = upper_bits b * 2 ^ 52 + fraction_of b.
Proof. unfold upper_bits, fraction_of. pose proof (Z.div_mod b (2 ^ 52) ltac:(lia)). lia. Qed.

Lemma mod_mod_pow a n m : 0 <= n <= m -> (a mod 2 ^ m) mod 2 ^ n = a mod 2 ^ n.
Proof.
  intros H. apply Z.mod_mod_divide. exists (2 ^ (m - n)). rewrite <- Z.pow_add_r by lia. f_equal. lia.
Qed.

Lemma drop_upper U g e w : 0 <= w <= e -> (U * 2 ^ e + g) mod 2 ^ w = g mod 2 ^ w.
Proof.
  intros H. replace (2 ^ e) with (2 ^ (e - w) * 2 ^ w) by (rewrite <- Z.pow_add_r by lia; f_equal; lia).
  rewrite Z.mul_assoc, Z.add_comm. apply Z.mod_add, Z.pow_nonzero; lia.
Qed.

(** Both shifts of the bit pattern, up to the width of the result. *)
Lemma shifted_bits b e w : 0 <= e < 52 + w -> w <= 64 ->
  (if e >? 52 then b * 2 ^ (e - 52) mod 2 ^ 64 else b / 2 ^ (52 - e)) mod 2 ^ w =
  (upper_bits b * 2 ^ e + fraction_int e (fraction_of b)) mod 2 ^ w.
Proof.
  intros He Hw. unfold fraction_int. destruct (Z.gtb_spec e 52).
  - rewrite mod_mod_pow by lia. f_equal. rewrite (double_bits_split b) at 1.
    rewrite Z.mul_add_distr_r, <- Z.mul_assoc, <- Z.pow_add_r by lia. f_equal. f_equal. f_equal. lia.
  - f_equal. assert (E : 2 ^ 52 = 2 ^ e * 2 ^ (52 - e)) by (rewrite <- Z.pow_add_r by lia; f_equal; lia).
    rewrite (double_bits_split b) at 1. rewrite E, Z.mul_assoc, Z.add_comm, Z.div_add by (apply Z.pow_nonzero; lia). lia.
Qed.

(** The sign bit is the top bit. *)
Lemma sign_test b : is_double b -> negb (Z.land b kSignBit =? 0) = sign_of b.
Proof.
  intros Hb. unfold sign_of, is_double in *. change kSignBit with (Z.shiftl (2 ^ 1 - 1) 63).
  rewrite land_field by lia.
  assert (E : b / 2 ^ 63 = if 2 ^ 63 <=? b then 1 else 0).
  { destruct (Z.leb_spec (2 ^ 63) b); symmetry; [apply (Z.div_unique _ _ _ (b - 2 ^ 63))|apply (Z.div_unique _ _ _ b)]; lia. }
  rewrite E. by destruct (2 ^ 63 <=? b).
Qed.

Lemma negate_mod r w : 0 <= w -> (Z.lnot (r mod 2 ^ w) + 1) mod 2 ^ w = (- r) mod 2 ^ w.
Proof.
  intros Hw. unfold Z.lnot. replace (Z.pred (- (r mod 2 ^ w)) + 1) with (0 - r mod 2 ^ w) by lia.
  rewrite Zminus_mod_idemp_r. f_equal.
Qed.

(** The bogus bits go, the implicit one comes. *)
Lemma implicit_one U g e w : 0 <= e < w -> 0 <= g < 2 ^ e ->
  (Z.land ((U * 2 ^ e + g) mod 2 ^ w) (1 * 2 ^ e mod 2 ^ w - 1) + 1 * 2 ^ e mod 2 ^ w) mod 2 ^ w =
  (2 ^ e + g) mod 2 ^ w.
Proof.
  intros He Hg. assert (2 ^ e < 2 ^ w) by (apply Z.pow_lt_mono_r; lia).
  rewrite Z.mul_1_l, (Z.mod_small (2 ^ e)) by lia. rewrite land_low by lia.
  rewrite mod_mod_pow, Z.add_comm, (Z.add_comm _ g), Z.mod_add, (Z.mod_small g) by lia. done.
Qed.

Lemma signed_mod s a w : signed s a mod 2 ^ w = (if s then - (a mod 2 ^ w) else a) mod 2 ^ w.
Proof.
  destruct s; cbn [signed]; [|done]. replace (- a) with (0 - a) by lia.
  by rewrite <- Zminus_mod_idemp_r, Z.sub_0_l.
Qed.

(** ToInt32 and its siblings compute the residue of the integer part. *)
Lemma ToUnsignedInteger_spec w b : 0 < w <= 64 -> is_double b ->
  wp (ToUnsignedInteger w b) (fun r => r = to_integer_value b mod 2 ^ w) no_error.
Proof.
  intros Hw Hb. unfold ToUnsignedInteger, to_integer_value.
  change (Z.shiftr _ _ - _) with (ExponentComponent b). rewrite ExponentComponent_eq.
  pose proof (IsFinite_iff b) as Hfin. change kExponentShift with 52.
  pose proof (biased_bound b). pose proof (fraction_bound b).
  assert (H2w : 0 < 2 ^ w) by (apply Z.pow_pos_nonneg; lia).
  set (e := biased_of b - 1023) in *. wp_step; bsplit.
  { wp_step. replace (IsFinite b) with true by (symmetry; apply Hfin; lia).
    rewrite integer_part_signed, small_magnitude by lia. by destruct (sign_of b). }
  wp_step. wp_step; [lia|]. wp_step; bsplit.
  { wp_step. destruct (IsFinite b) eqn:Hf; [|by rewrite Z.mod_0_l by lia].
    rewrite integer_part_signed, integer_magnitude, signed_mod by lia. fold e. unfold fraction_int.
    replace (e >? 52) with true by lia. replace (2 ^ e) with (2 ^ 52 * 2 ^ (e - 52))
      by (rewrite <- Z.pow_add_r by lia; f_equal; lia).
    rewrite <- Z.mul_add_distr_r. replace (e - 52) with ((e - 52 - w) + w) by lia.
    rewrite Z.pow_add_r, Z.mul_assoc, Z.mod_mul by lia. destruct (sign_of b); [done|].
    by rewrite Z.mod_mul by lia. }
  assert (Hf : IsFinite b = true) by (apply Hfin; lia). rewrite Hf. clear Hfin.
  rewrite integer_part_signed, integer_magnitude by lia. fold e.
  pose proof (fraction_int_bound e (fraction_of b) ltac:(lia) ltac:(lia)) as Hg.
  pose proof (shifted_bits b e w ltac:(lia) ltac:(lia)) as Hs.
  set (sh := if e >? 52 then b * 2 ^ (e - 52) mod 2 ^ 64 else b / 2 ^ (52 - e)) in *.
  wp_step. assert (Hsh : forall Q E, Q sh -> wp (if e >? 52 then shl_w 64 b (e - 52) else shr_w 64 b (52 - e)) Q E).
  { intros Q E HQ. subst sh. destruct (Z.gtb_spec e 52); [apply wp_shl_w|apply wp_shr_w]; (lia || done). }
  apply Hsh. cbv zeta. rewrite Hs. set (g := fraction_int e (fraction_of b)) in *.
  wp_step. eapply (wp_mono _ (fun r => r = (2 ^ e + g) mod 2 ^ w)); [| |done].
  { wp_step; bsplit.
    - wp_step. apply wp_shl_w; [lia|]. wp_step. apply implicit_one; lia.
    - wp_step. rewrite drop_upper by lia. rewrite <- (Z.mul_1_l (2 ^ e)). by rewrite drop_upper by lia. }
  intros r ->. wp_step. rewrite sign_test by done. destruct (sign_of b); cbn [signed]; [|done].
  by apply negate_mod; lia.
Qed.

Lemma ToSignedInteger_spec w b : 0 < w <= 64 -> is_double b ->
  wp (ToSignedInteger w b) (fun r => r = wrap_signed w (to_integer_value b)) no_error.
Proof.
  intros Hw Hb. unfold ToSignedInteger. wp_step. wp_call ToUnsignedInteger_spec; [done|done|]. intros u ->.
  wp_step. assert (0 < 2 ^ w) by (apply Z.pow_pos_nonneg; lia).
  rewrite WrapToSigned_spec by (lia || (apply Z.mod_pos_bound; lia)). apply wrap_signed_mod. lia.
Qed.

(** [trunc] and the integer part. *)
Lemma trunc_ok b : is_double b -> IsFinite b = true ->
  is_double (trunc b) /\ IsFinite (trunc b) = true /\ scaled (trunc b) = integer_part b * 2 ^ 1074.
Proof.
  intros Hb Hf. pose proof Hf as Hf'. apply IsFinite_iff in Hf'. pose proof (biased_bound b). pose proof (fraction_bound b).
  unfold trunc. rewrite ExponentComponent_eq, integer_part_signed.
  destruct (Z.ltb_spec (biased_of b - 1023) 0).
  { rewrite small_magnitude by lia. by destruct (sign_of b). }
  rewrite integer_magnitude by lia. unfold fraction_int. set (e := biased_of b - 1023) in *.
  destruct (Z.ltb_spec e 52).
  - replace (e >? 52) with false by lia. set (k := 52 - e).
    assert (Hk : 0 < 2 ^ k) by (apply Z.pow_pos_nonneg; lia).
    assert (E52 : 2 ^ 52 = 2 ^ e * 2 ^ k) by (rewrite <- Z.pow_add_r by lia; f_equal; lia).
    assert (Hm : b mod 2 ^ k = fraction_of b mod 2 ^ k) by (unfold fraction_of; by rewrite mod_mod_pow by lia).
    pose proof (Z.div_mod (fraction_of b) (2 ^ k) ltac:(lia)) as Hdm.
    pose proof (Z.mod_pos_bound (fraction_of b) (2 ^ k) Hk).
    assert (0 <= fraction_of b / 2 ^ k) by (apply Z.div_pos; lia).
    assert (0 <= fraction_of b - fraction_of b mod 2 ^ k) by (rewrite Hdm at 1; apply Z.le_0_sub; lia).
    assert (Et : b - b mod 2 ^ k = assemble (sign_of b) (biased_of b) (fraction_of b - fraction_of b mod 2 ^ k))
      by (rewrite Hm; rewrite (double_split b Hb) at 1; unfold assemble; lia).
    rewrite Et. destruct (assemble_fields (sign_of b) (biased_of b) (fraction_of b - fraction_of b mod 2 ^ k)) as (Es & Ee & Ef); [lia..|].
    split; [apply assemble_double; lia|]. split; [apply IsFinite_iff; lia|].
    unfold scaled, scaled_magnitude. rewrite Es, Ee, Ef. replace (biased_of b =? 0) with false by lia.
    replace (biased_of b - 1) with (e + 1022) by lia.
    replace 1074 with (k + (e + 1022)) by lia. rewrite (Z.pow_add_r 2 k) by lia.
    replace (2 ^ 52 + (fraction_of b - fraction_of b mod 2 ^ k)) with ((2 ^ e + fraction_of b / 2 ^ k) * 2 ^ k) by lia.
    rewrite <- Z.mul_assoc. destruct (sign_of b); cbn [signed]; lia.
  - split; [done|]. split; [done|]. unfold scaled, scaled_magnitude. replace (biased_of b =? 0) with false by lia.
    replace (biased_of b - 1) with ((e - 52) + 1074) by lia. rewrite (Z.pow_add_r 2 (e - 52)) by lia.
    assert (E : 2 ^ e + (if e >? 52 then fraction_of b * 2 ^ (e - 52) else fraction_of b / 2 ^ (52 - e)) =
            (2 ^ 52 + fraction_of b) * 2 ^ (e - 52)).
    { replace (2 ^ e) with (2 ^ 52 * 2 ^ (e - 52)) by (rewrite <- Z.pow_add_r by lia; f_equal; lia).
      destruct (Z.gtb_spec e 52); [lia|]. replace e with 52 by lia. rewrite Z.sub_diag, Z.pow_0_r, Z.div_1_r. lia. }
    rewrite E, Z.mul_assoc. destruct (sign_of b); cbn [signed]; lia.
Qed.

Lemma ToInteger_ok b : is_double b -> IsFinite b = true ->
  is_double (ToInteger b) /\ IsFinite (ToInteger b) = true /\ scaled (ToInteger b) = integer_part b * 2 ^ 1074.
Proof.
  intros Hb Hf. unfold ToInteger. rewrite Hf. cbn [negb]. destruct (double_is_zero b) eqn:Hz.
  { apply double_is_zero_iff in Hz. unfold integer_part. rewrite Hz, Z.quot_0_l by (apply Z.pow_nonzero; lia). done. }
  destruct (trunc_ok b Hb Hf) as (Ht & Hft & Hs). destruct (Z.eqb_spec (trunc b) kSignBit) as [E|E]; [|done].
  rewrite E in Hs. rewrite <- Hs. done.
Qed.

(** [IsInteger] accepts exactly the integral values. *)
Lemma IsInteger_spec b : is_double b ->
  IsInteger b = true <-> IsFinite b = true /\ scaled b = integer_part b * 2 ^ 1074.
Proof.
  intros Hb. unfold IsInteger. rewrite andb_true_iff. split.
  - intros [Hf He]. split; [done|]. destruct (ToInteger_ok b Hb Hf) as (Ht & Hft & Hs).
    apply double_eq_iff in He; [|done..]. lia.
  - intros [Hf He]. split; [done|]. destruct (ToInteger_ok b Hb Hf) as (Ht & Hft & Hs).
    apply double_eq_iff; [done..|]. lia.
Qed.
End conversions.
