(* ===== verification/BigIntDouble.v ===== *)
(** BigInts and doubles (vm/BigIntType.cpp: [createFromDouble],
    [NumberToBigInt], [numberValue], [compare], [equal] and [lessThan] with a
    double).  A double is its bit pattern.  Counts of bits of type [uint8_t]
    are plain integers: every one of them is a shift count, and a shift out of
    range is an error of the model. *)
From S2P Require Import Prelude Words CheckedArithmetic BigIntRep BigIntAdd BigIntDiv BigIntConvert FloatingPoint Conversions.

(** * Definitions *)

Definition double_neg (bits : Z) : Z := Z.lxor bits kSignBit.

(** Conversion of an integer to the nearest double, ties to even: the meaning
    of the C++ conversion [double(n)]. *)
Definition round_to_double (s : bool) (a : Z) : Z :=
  if a =? 0 then assemble s 0 0
  else
    let e := Z.log2 a in
    if e <=? 52 then assemble s (e + 1023) (a * 2 ^ (52 - e) - 2 ^ 52)
    else
      let k := e - 52 in
      let q := a / 2 ^ k in
      let r := a mod 2 ^ k in
      let q := if (2 * r >? 2 ^ k) || ((2 * r =? 2 ^ k) && Z.odd q) then q + 1 else q in
      let e := if q =? 2 ^ 53 then e + 1 else e in
      let q := if q =? 2 ^ 53 then 2 ^ 52 else q in
      if e >? 1023 then assemble s 2047 0 else assemble s (e + 1023) (q - 2 ^ 52).

Section definitions.
Context {P : Platform}.

(** The most significant digit of [createFromDouble] and the rest of the
    mantissa, moved to the top of 64 bits. *)
Definition double_msd (mantissa msdTopBit : Z) : M (Z * Z) :=
  let mantissaTopBit := kSignificandWidth in
  if msdTopBit <? mantissaTopBit then
    let remainingMantissaBits := mantissaTopBit - msdTopBit in
    digit ← shr_w 64 mantissa remainingMantissaBits;
    mantissa ← shl_w 64 mantissa (64 - remainingMantissaBits);
    mret (wrap digit, mantissa)
  else
    moz_assert (msdTopBit >=? mantissaTopBit);;
    digit ← shl_w 64 mantissa (msdTopBit - mantissaTopBit);
    mret (wrap digit, 0).

(** The digits that hold mantissa bits, down to the index [length]. *)
Definition double_mantissa_digits (result : bigint) (mantissa length : Z) : M (bigint * Z) :=
  loop 4 (fun '(result, mantissa, length) =>
    if negb (mantissa =? 0) then
      moz_assert (length >? 0);;
      if DigitBits =? 64 then
        result ← setDigit result (length - 1) (wrap mantissa);
        mret (inr (result, length - 1))
      else
        moz_assert (DigitBits =? 32);;
        current ← shr_w 64 mantissa 32;
        mantissa ← shl_w 64 mantissa 32;
        result ← setDigit result (length - 1) (wrap current);
        mret (inl (result, mantissa, length - 1))
    else mret (inr (result, length))) (result, mantissa, length).

Definition createFromDouble (d : Z) : M bigint :=
  moz_assert (IsInteger d);;
  if double_is_zero d then zero
  else
    let exponent := ExponentComponent d in
    moz_assert (exponent >=? 0);;
    let length := exponent / DigitBits + 1 in
    result ← createUninitialized length (double_lt_zero d);
    let mantissa := Z.lor (Z.land d kSignificandBits) (Z.shiftl 1 kSignificandWidth) in
    let msdTopBit := exponent mod DigitBits in
    '(digit, mantissa) ← double_msd mantissa msdTopBit;
    moz_assert (negb (digit =? 0));;
    result ← setDigit result (length - 1) digit;
    '(result, length) ← double_mantissa_digits result mantissa (length - 1);
    for_down (length - 1) 0 (fun i result => setDigit result i 0) result.

(** [None]: a RangeError, the number is not an integer. *)
Definition NumberToBigInt (d : Z) : M bigint :=
  if negb (IsInteger d) then throw NonIntegerNumberToBigInt else createFromDouble d.

(** The 64-bit mantissa of [numberValue], the index of the digit that holds
    the bit after the last one kept, and the bits of that digit below it. *)
Definition mantissa_bits (x : bigint) (msd msdIgnoredBits msdIncludedBits : Z) : M (Z * Z * Z) :=
  let length := digitLength x in
  let BitsNeededForShiftedMantissa := kSignificandWidth + 1 in
  shiftedMantissa ← (if msdIncludedBits =? 0 then mret 0 else shl_w 64 msd (64 - msdIncludedBits));
  if msdIncludedBits >=? BitsNeededForShiftedMantissa then
    one ← shl 1 (DigitBits - BitsNeededForShiftedMantissa - msdIgnoredBits);
    mret (shiftedMantissa, length - 1, Z.land msd (wrap (one - 1)))
  else
    moz_assert (length >=? 2);;
    second ← digit x (length - 2);
    if DigitBits =? 64 then
      high ← shr second msdIncludedBits;
      let countOfBitsInSecondDigitBelowExtraBit := msdIncludedBits + DigitBits - BitsNeededForShiftedMantissa in
      beneath ← shl second (DigitBits - countOfBitsInSecondDigitBelowExtraBit);
      mret (Z.lor shiftedMantissa high, length - 2, beneath)
    else
      high ← shl_w 64 second msdIgnoredBits;
      let shiftedMantissa := Z.lor shiftedMantissa high in
      if msdIncludedBits + DigitBits >=? BitsNeededForShiftedMantissa then
        one ← shl 1 (msdIncludedBits + DigitBits - BitsNeededForShiftedMantissa);
        mret (shiftedMantissa, length - 2, Z.land second (wrap (one - 1)))
      else
        moz_assert (length >=? 3);;
        third ← digit x (length - 3);
        high ← shr_w 64 third msdIncludedBits;
        let countOfBitsInThirdDigitBelowExtraBit := msdIncludedBits + 2 * DigitBits - BitsNeededForShiftedMantissa in
        beneath ← shl third (DigitBits - countOfBitsInThirdDigitBelowExtraBit);
        mret (Z.lor shiftedMantissa high, length - 3, beneath).

(** Is a digit below [index] nonzero? *)
Definition any_digit_below (x : bigint) (index : Z) : M bool :=
  loop (S (Z.to_nat index)) (fun index =>
    if index >? 0 then
      d ← digit x (index - 1);
      mret (if negb (d =? 0) then inr true else inl (index - 1))
    else mret (inr false)) index.

(** The rounding of the mantissa and the assembly of the double. *)
Definition rounded_number (x : bigint) (shiftedMantissa digitContainingExtraBit bitsBeneath exponent : Z) : M Z :=
  let LeastSignificantBit := Z.shiftl 1 (64 - kSignificandWidth) in
  let ExtraBit := Z.shiftr LeastSignificantBit 1 in
  shouldRoundUp ← (if negb (Z.land shiftedMantissa ExtraBit =? 0) then
                     if negb (Z.land shiftedMantissa LeastSignificantBit =? 0) then mret true
                     else if negb (bitsBeneath =? 0) then mret true
                     else any_digit_below x digitContainingExtraBit
                   else mret false);
  let before := shiftedMantissa in
  let shiftedMantissa := if shouldRoundUp : bool then uint64 (shiftedMantissa + ExtraBit) else shiftedMantissa in
  let exponent := if shouldRoundUp && (shiftedMantissa <? before) then exponent + 1 else exponent in
  if exponent >? kExponentBias then mret (if isNegative x then NegativeInfinity else PositiveInfinity)
  else
    let significandBits := Z.shiftr shiftedMantissa (64 - kSignificandWidth) in
    let signBit := Z.shiftl (if isNegative x then 1 else 0) (kExponentWidth + kSignificandWidth) in
    let exponentBits := Z.shiftl (exponent + kExponentBias) kExponentShift in
    mret (Z.lor (Z.lor signBit exponentBits) significandBits).

Definition numberValue (x : bigint) : M Z :=
  if isZero x then mret 0
  else
    moz_assert (digitLength x >? 0);;
    small ← (if absFitsInUint64 x then
               magnitude ← uint64FromAbsNonZero x;
               mret (if magnitude <=? Z.shiftl 1 (kSignificandWidth + 1) then Some magnitude else None)
             else mret None);
    match small with
    | Some magnitude =>
        let d := round_to_double false magnitude in
        mret (if isNegative x then double_neg d else d)
    | None =>
        let length := digitLength x in
        msd ← digit x (length - 1);
        msdLeadingZeroes ← DigitLeadingZeroes msd;
        let exponent := length * DigitBits - msdLeadingZeroes - 1 in
        if exponent >? kExponentBias then mret (if isNegative x then NegativeInfinity else PositiveInfinity)
        else
          let msdIgnoredBits := msdLeadingZeroes + 1 in
          let msdIncludedBits := DigitBits - msdIgnoredBits in
          '(shiftedMantissa, digitContainingExtraBit, bitsBeneath) ← mantissa_bits x msd msdIgnoredBits msdIncludedBits;
          rounded_number x shiftedMantissa digitContainingExtraBit bitsBeneath exponent
    end.

(** ** Comparison with a double *)

(** The high 64 bits of [x] in [compare], the number of digits not looked at
    and whether bits of the last digit looked at are left over. *)
Definition high64_bits (x : bigint) (xMSD shift xBitLength : Z) : M (Z * Z * bool) :=
  let xBitsFilled := DigitBits - shift in
  xHigh64Bits ← shl_w 64 xMSD (64 - xBitsFilled);
  let xLength := digitLength x - 1 in
  if xBitsFilled <? Z.min xBitLength 64 then
    moz_assert (xLength >=? 1);;
    second ← digit x (xLength - 1);
    let xLength := xLength - 1 in
    if DigitBits =? 32 then
      let xBitsFilled := xBitsFilled + 32 in
      high ← shl_w 64 second (64 - xBitsFilled);
      let xHigh64Bits := Z.lor xHigh64Bits high in
      if (xBitsFilled <? 64) && (xLength >=? 1) then
        third ← digit x (xLength - 1);
        let neededBits := 64 - xBitsFilled in
        high ← shr_w 64 third (DigitBits - neededBits);
        rest ← shl third neededBits;
        mret (Z.lor xHigh64Bits high, xLength - 1, negb (rest =? 0))
      else mret (xHigh64Bits, xLength, false)
    else
      let neededBits := 64 - xBitsFilled in
      high ← shr_w 64 second (DigitBits - neededBits);
      rest ← shl second neededBits;
      mret (Z.lor xHigh64Bits high, xLength, negb (rest =? 0))
  else mret (xHigh64Bits, xLength, false).

(** [compare(BigInt*, double)] *)
Definition compare_double (x : bigint) (y : Z) : M Z :=
  moz_assert (negb (IsNaN y));;
  let LessThan := -1 in
  let GreaterThan := 1 in
  if negb (IsFinite y) then mret (if double_gt_zero y then LessThan else GreaterThan)
  else if isZero x then
    if double_is_zero y then mret 0 else mret (if double_gt_zero y then LessThan else GreaterThan)
  else
    let xNegative := isNegative x in
    if double_is_zero y then mret (if xNegative then LessThan else GreaterThan)
    else
      let yNegative := double_lt_zero y in
      if negb (Bool.eqb xNegative yNegative) then mret (if xNegative then LessThan else GreaterThan)
      else
        let exponent := ExponentComponent y in
        if exponent <? 0 then mret (if xNegative then LessThan else GreaterThan)
        else
          let xLength := digitLength x in
          moz_assert (xLength >? 0);;
          xMSD ← digit x (xLength - 1);
          shift ← DigitLeadingZeroes xMSD;
          let xBitLength := xLength * DigitBits - shift in
          let yBitLength := exponent + 1 in
          if xBitLength <? yBitLength then mret (if xNegative then GreaterThan else LessThan)
          else if xBitLength >? yBitLength then mret (if xNegative then LessThan else GreaterThan)
          else
            let significandBits := Z.land y kSignificandBits in
            yHigh64Bits ← shl_w 64 (Z.lor (Z.shiftl 1 kSignificandWidth) significandBits) (64 - kSignificandWidth - 1);
            '(xHigh64Bits, xLength, xHasNonZeroLeftoverBits) ← high64_bits x xMSD shift xBitLength;
            if yHigh64Bits >? xHigh64Bits then mret (if xNegative then GreaterThan else LessThan)
            else if xHigh64Bits >? yHigh64Bits then mret (if xNegative then LessThan else GreaterThan)
            else if xHasNonZeroLeftoverBits : bool then mret (if xNegative then LessThan else GreaterThan)
            else
              more ← any_digit_below x xLength;
              if more : bool then mret (if xNegative then LessThan else GreaterThan) else mret 0.

Definition equal_double (lhs : bigint) (rhs : Z) : M bool :=
  if IsNaN rhs then mret false else c ← compare_double lhs rhs; mret (c =? 0).

(** [lessThan] with a double on the right and on the left; [None] for NaN. *)
Definition lessThan_double (lhs : bigint) (rhs : Z) : M (option bool) :=
  if IsNaN rhs then mret None else c ← compare_double lhs rhs; mret (Some (c <? 0)).
Definition double_lessThan (lhs : Z) (rhs : bigint) : M (option bool) :=
  if IsNaN lhs then mret None else c ← compare_double rhs lhs; mret (Some (- c <? 0)).
End definitions.

(** * From doubles *)

Section from_double.
Context {P : Platform}.

(** The digits from [L] up are those of [T]. *)
Definition top_filled (neg : bool) (n T L : Z) (r : bigint) : Prop :=
  shape neg n r /\ forall j, L <= j < n -> zget (digits r) j = T / Base ^ j mod Base.

Lemma top_filled_step neg n T L r : top_filled neg n T L r -> 1 <= L <= n ->
  top_filled neg n T (L - 1) (with_digit r (L - 1) (T / Base ^ (L - 1) mod Base)).
Proof.
  intros [Hr Hd] HL. split; [apply shape_with_digit; [done|apply wrap_ok]|].
  intros j Hj. destruct Hr as (_ & Hn & _). unfold with_digit, digitLength in *. cbn [digits].
  rewrite zget_zset by lia. destruct (Z.eqb_spec j (L - 1)) as [->|]; [done|]. apply Hd. lia.
Qed.

Lemma top_filled_value neg n T r : top_filled neg n T 0 r -> 0 <= n -> 0 <= T < Base ^ n ->
  pv (digits r) n = T.
Proof.
  intros [_ Hd] Hn HT.
  assert (H : forall i, 0 <= i -> i <= n -> pv (digits r) i = T mod Base ^ i).
  { intros i Hi. pattern i. apply natlike_ind; [|intros k Hk IH|done]; intros Hle.
    - by rewrite pv_0, Z.pow_0_r, Z.mod_1_r.
    - rewrite <- Z.add_1_r in *. pose proof (Base_pow_pos k Hk). pose proof Base_pos.
      rewrite pv_succ, IH, Hd, Base_pow_succ, (Z.mul_comm Base), Z.rem_mul_r by lia. lia. }
  rewrite H by lia. by apply Z.mod_small.
Qed.

(** The 64-bit mantissa [M] stands for the digits of [T] below [L]. *)
Definition aligned (T L M : Z) : Prop := 0 <= M < 2 ^ 64 /\ T mod Base ^ L * 2 ^ 64 = M * Base ^ L.

Lemma aligned_zero T L : 0 <= L -> aligned T L 0 -> T mod Base ^ L = 0.
Proof. intros HL [_ H]. pose proof (Z.mod_pos_bound T (Base ^ L) (Base_pow_pos L HL)). lia. Qed.

Lemma scale_div X k M B : 0 < k -> 0 < B -> X * k = M * B ->
  X / B = M / k /\ X mod B * k = M mod k * B.
Proof.
  intros Hk HB E. pose proof (Z.div_mod M k ltac:(lia)) as Hm. pose proof (Z.mod_pos_bound M k Hk) as Hr.
  assert (Es : (X - M / k * B) * k = M mod k * B).
  { rewrite Z.mul_sub_distr_r, E. rewrite Hm at 1. ring. }
  assert (0 <= X - M / k * B < B) as Hs.
  { split.
    - apply (Z.mul_le_mono_pos_r _ _ k Hk). rewrite Es, Z.mul_0_l. apply Z.mul_nonneg_nonneg; lia.
    - apply (Z.mul_lt_mono_pos_r k); [done|]. rewrite Es, (Z.mul_comm B). apply Z.mul_lt_mono_pos_r; lia. }
  assert (Eq : X / B = M / k) by (symmetry; apply (Z.div_unique _ _ _ (X - M / k * B)); lia).
  split; [done|]. rewrite Z.mod_eq, Eq by lia. rewrite <- Es. f_equal. lia.
Qed.

Lemma double_msd_spec m t e T L : 2 ^ 52 <= m < 2 ^ 53 -> 0 <= L -> 0 <= t < DigitBits ->
  e = DigitBits * L + t -> T * 2 ^ 52 = m * 2 ^ e ->
  wp (double_msd m t)
    (fun '(d, M) => d = T / Base ^ L /\ d <> 0 /\ digit_ok d /\ aligned T L M /\ M mod 2 ^ 12 = 0) no_error.
Proof.
  intros Hm HL Ht -> HT. unfold double_msd. change kSignificandWidth with 52.
  pose proof (Base_pow_pos L HL) as HB. pose proof DigitBits_pos.
  assert (HDL : 0 <= DigitBits * L) by (apply Z.mul_nonneg_nonneg; lia).
  assert (EB : 2 ^ (DigitBits * L + t) = 2 ^ t * Base ^ L).
  { unfold Base. rewrite <- Z.pow_mul_r, <- Z.pow_add_r by lia. f_equal. lia. }
  rewrite EB in HT. clear EB.
  assert (HtB : 2 ^ t * 2 <= Base) by (rewrite Z.mul_comm, <- Z.pow_succ_r by lia; apply Z.pow_le_mono_r; lia).
  assert (H2t : 0 < 2 ^ t) by (apply Z.pow_pos_nonneg; lia).
  wp_step; bsplit.
  - assert (H2 : 0 < 2 ^ (52 - t)) by (apply Z.pow_pos_nonneg; lia).
    assert (E52 : 2 ^ 52 = 2 ^ t * 2 ^ (52 - t)) by (rewrite <- Z.pow_add_r by lia; f_equal; lia).
    destruct (scale_div T (2 ^ (52 - t)) m (Base ^ L) H2 HB) as [Eq Er].
    { apply (Z.mul_cancel_r _ _ (2 ^ t)); [lia|]. rewrite E52 in HT. lia. }
    wp_step. apply wp_shr_w; [lia|]. wp_step. apply wp_shl_w; [lia|]. wp_step.
    assert (Hq : 2 ^ t <= m / 2 ^ (52 - t) < 2 ^ t * 2).
    { split; [apply Z.div_le_lower_bound|apply Z.div_lt_upper_bound]; lia. }
    rewrite wrap_small by (unfold digit_ok; lia). split; [done|]. split; [lia|]. split; [unfold digit_ok; lia|].
    replace (64 - (52 - t)) with (12 + t) by lia.
    assert (H2b : 0 < 2 ^ (12 + t)) by (apply Z.pow_pos_nonneg; lia).
    assert (EM : m * 2 ^ (12 + t) mod 2 ^ 64 = m mod 2 ^ (52 - t) * 2 ^ (12 + t)).
    { replace 64 with ((52 - t) + (12 + t)) by lia. rewrite (Z.pow_add_r 2 (52 - t)) by lia. apply Z.mul_mod_distr_r; lia. }
    rewrite EM. split; [split|].
    + rewrite <- EM. apply Z.mod_pos_bound. lia.
    + replace (2 ^ 64) with (2 ^ (52 - t) * 2 ^ (12 + t)) by (rewrite <- Z.pow_add_r by lia; f_equal; lia).
      rewrite Z.mul_assoc, Er. lia.
    + rewrite Z.pow_add_r, Z.mul_assoc, (Z.mul_comm _ (2 ^ t)), Z.mul_assoc by lia. apply Z.mod_mul. lia.
  - wp_step. wp_step; [lia|]. wp_step. apply wp_shl_w; [destruct DigitBits_cases as [E|E]; rewrite E in *; lia|]. wp_step.
    assert (H2 : 0 < 2 ^ (t - 52)) by (apply Z.pow_pos_nonneg; lia).
    assert (Et : 2 ^ t = 2 ^ 52 * 2 ^ (t - 52)) by (rewrite <- Z.pow_add_r by lia; f_equal; lia).
    assert (ET : T = m * 2 ^ (t - 52) * Base ^ L) by (rewrite Et in HT; lia).
    assert (Hd : m * 2 ^ (t - 52) < 2 ^ t * 2) by (rewrite Et; change (2 ^ 53) with (2 ^ 52 * 2) in Hm;
      replace (2 ^ 52 * 2 ^ (t - 52) * 2) with (2 ^ 52 * 2 * 2 ^ (t - 52)) by lia; apply Z.mul_lt_mono_pos_r; lia).
    assert (Hd0 : 0 < m * 2 ^ (t - 52)) by (apply Z.mul_pos_pos; lia).
    assert (HB64 : Base <= 2 ^ 64) by (unfold Base; destruct DigitBits_cases as [-> | ->]; lia).
    rewrite (Z.mod_small (m * _)), wrap_small by (unfold digit_ok; lia).
    rewrite ET, Z.div_mul by lia. split; [done|]. split; [lia|]. split; [unfold digit_ok; lia|].
    split; [|done]. split; [lia|]. by rewrite Z.mod_mul, Z.mul_0_l, Z.mul_0_l by lia.
Qed.

(** One digit taken off the mantissa. *)
Lemma aligned_digit T L M : 1 <= L -> aligned T L M ->
  let k := 2 ^ (64 - DigitBits) in
  T / Base ^ (L - 1) mod Base = M / k /\ T mod Base ^ (L - 1) * k = M mod k * Base ^ (L - 1).
Proof.
  intros HL [HM Ha] k. pose proof (Base_pow_pos (L - 1) ltac:(lia)) as HB. pose proof Base_pos.
  assert (Hdb : 0 < DigitBits <= 64) by (destruct DigitBits_cases as [-> | ->]; lia).
  assert (Hk : 0 < k) by (apply Z.pow_pos_nonneg; lia).
  assert (E64 : 2 ^ 64 = Base * k).
  { unfold k, Base. rewrite <- Z.pow_add_r by lia. f_equal. lia. }
  assert (EL : Base ^ L = Base ^ (L - 1) * Base) by (rewrite Z.mul_comm, <- Base_pow_succ by lia; f_equal; lia).
  assert (EX : T mod Base ^ L = T mod Base ^ (L - 1) + Base ^ (L - 1) * (T / Base ^ (L - 1) mod Base))
    by (rewrite EL; apply Z.rem_mul_r; lia).
  pose proof (Z.mod_pos_bound T (Base ^ (L - 1)) HB).
  destruct (scale_div (T mod Base ^ L) k M (Base ^ (L - 1)) Hk HB) as [Eq Er].
  { apply (Z.mul_cancel_r _ _ Base); [lia|]. rewrite E64, EL in Ha. rewrite EL. lia. }
  rewrite EX in Eq, Er. rewrite (Z.mul_comm (Base ^ (L - 1))), Z.div_add, Z.div_small in Eq by lia.
  rewrite (Z.mul_comm (Base ^ (L - 1))), Z.mod_add, Z.mod_mod in Er by lia. split; [lia|done].
Qed.

Definition mantissa_inv (neg : bool) (n T : Z) (s : bigint * Z * Z) : Prop :=
  let '(r, M, L) := s in 0 <= L <= n /\ top_filled neg n T L r /\ aligned T L M /\ M mod 2 ^ 12 = 0.

Lemma double_mantissa_digits_spec neg n T r M L : mantissa_inv neg n T (r, M, L) ->
  wp (double_mantissa_digits r M L)
    (fun '(r', L') => 0 <= L' <= n /\ top_filled neg n T L' r' /\ T mod Base ^ L' = 0) no_error.
Proof.
  intros Hinv. unfold double_mantissa_digits.
  eapply (wp_loop (mantissa_inv neg n T)
            (fun '(_, M, _) => if M =? 0 then 0 else if M mod 2 ^ 44 =? 0 then 1 else 2)); [exact Hinv|..].
  { destruct (M =? 0), (M mod 2 ^ 44 =? 0); done. }
  { intros [[r0 M0] L0] _. destruct (M0 =? 0), (M0 mod 2 ^ 44 =? 0); done. }
  clear Hinv r M L. intros [[r M] L] (HL & Hr & Ha & Hm). wp_step; bsplit.
  2:{ wp_step. subst M. split; [done|]. split; [done|]. apply aligned_zero; [lia|done]. }
  assert (HL0 : L <> 0).
  { intros ->. destruct Ha as [_ Ha]. rewrite Z.pow_0_r, Z.mod_1_r in Ha. lia. }
  destruct (aligned_digit T L M) as [Ed Er]; [lia|done|].
  pose proof (top_filled_step _ _ _ _ _ Hr ltac:(lia)) as Hr'. rewrite Ed in Hr'.
  assert (Hlen : digitLength r = n) by apply Hr.
  destruct Ha as [HM _]. wp_step. wp_step; [lia|]. destruct (Z.eqb_spec DigitBits 64) as [E64|E64].
  - rewrite E64 in *. change (2 ^ (64 - 64)) with 1 in *. rewrite Z.div_1_r in *. rewrite Z.mod_1_r in Er.
    wp_step. apply wp_setDigit; [lia|]. wp_step.
    rewrite wrap_small by (unfold digit_ok, Base; rewrite E64; lia).
    split; [lia|]. split; [done|]. lia.
  - destruct DigitBits_cases as [E|E]; [|lia]. clear E64. rewrite E in *.
    change (2 ^ (64 - 32)) with (2 ^ 32) in *.
    wp_step. wp_step; [lia|]. wp_step. apply wp_shr_w; [lia|]. wp_step. apply wp_shl_w; [lia|].
    wp_step. apply wp_setDigit; [lia|]. wp_step.
    rewrite wrap_small by (unfold digit_ok, Base; rewrite E; split; [apply Z.div_pos|apply Z.div_lt_upper_bound]; lia).
    assert (EM : M * 2 ^ 32 mod 2 ^ 64 = M mod 2 ^ 32 * 2 ^ 32)
      by (change (2 ^ 64) with (2 ^ 32 * 2 ^ 32); apply Z.mul_mod_distr_r; lia).
    assert (E12 : M = M / 2 ^ 12 * 2 ^ 12) by (pose proof (Z.div_mod M (2 ^ 12) ltac:(lia)); lia).
    assert (H44 : (M * 2 ^ 32 mod 2 ^ 64) mod 2 ^ 44 = 0).
    { rewrite mod_mod_pow by lia. rewrite E12, <- Z.mul_assoc. apply Z.mod_mul. lia. }
    split.
    + split; [lia|]. split; [done|]. split; [split; [apply Z.mod_pos_bound; lia|]|].
      * rewrite EM. change (2 ^ 64) with (2 ^ 32 * 2 ^ 32). lia.
      * rewrite <- (mod_mod_pow _ 12 44) by lia. by rewrite H44.
    + rewrite H44. replace (M =? 0) with false by lia. cbn [Z.eqb].
      destruct (Z.eqb_spec (M * 2 ^ 32 mod 2 ^ 64) 0); destruct (Z.eqb_spec (M mod 2 ^ 44) 0) as [E44|]; try lia.
      exfalso. rewrite EM in *. rewrite <- (mod_mod_pow M 32 44), E44 in n0 by lia. done.
Qed.

(** The integer a double denotes has its top 53 bits in the mantissa. *)
Lemma integral_double d : is_double d -> IsInteger d = true -> double_is_zero d = false ->
  let T := scaled_magnitude d / 2 ^ 1074 in
  0 <= ExponentComponent d /\ T * 2 ^ 52 = (2 ^ 52 + fraction_of d) * 2 ^ ExponentComponent d /\
  integer_part d = signed (double_lt_zero d) T.
Proof.
  intros Hd Hi Hz T. pose proof Hi as Hi'. apply IsInteger_spec in Hi' as [Hf Hs]; [|done].
  assert (Hs0 : scaled d <> 0) by (rewrite <- double_is_zero_iff; congruence).
  assert (Hsign : double_lt_zero d = sign_of d).
  { unfold double_lt_zero. by rewrite finite_not_nan, Hz. }
  rewrite Hsign. rewrite integer_part_signed in *. fold T in Hs. fold T.
  assert (HT : scaled_magnitude d = T * 2 ^ 1074).
  { unfold scaled in Hs. revert Hs. generalize (2 ^ 1074). intros w Hs. destruct (sign_of d); cbn [signed] in Hs; lia. }
  assert (HT0 : T <> 0).
  { intros E. rewrite E, Z.mul_0_l in HT. apply Hs0. unfold scaled. rewrite HT. by destruct (sign_of d). }
  rewrite ExponentComponent_eq.
  assert (He : 0 <= biased_of d - 1023).
  { destruct (Z_le_gt_dec 0 (biased_of d - 1023)); [done|]. exfalso. apply HT0, small_magnitude. lia. }
  split; [done|]. split; [|done]. unfold scaled_magnitude in HT.
  replace (biased_of d =? 0) with false in HT by lia.
  replace (biased_of d - 1) with ((biased_of d - 1023) + 1022) in HT by lia.
  rewrite Z.pow_add_r in HT by lia. change 1074 with (52 + 1022) in HT. rewrite (Z.pow_add_r 2 52) in HT by lia.
  assert (H1022 : 0 < 2 ^ 1022) by (apply Z.pow_pos_nonneg; lia). revert HT H1022. generalize (2 ^ 1022). intros w HT Hw.
  apply (Z.mul_cancel_r _ _ w); lia.
Qed.

Lemma lor_implicit_bit f : 0 <= f < 2 ^ 52 -> Z.lor f (Z.shiftl 1 kSignificandWidth) = 2 ^ 52 + f.
Proof.
  intros Hf. rewrite Z.lor_comm, Z.shiftl_mul_pow2 by done. rewrite lor_disjoint_add by done. done.
Qed.

Lemma zero_tail_spec neg n T r L : top_filled neg n T L r -> 0 <= L <= n -> T mod Base ^ L = 0 ->
  wp (for_down (L - 1) 0 (fun i result => setDigit result i 0) r) (top_filled neg n T 0) no_error.
Proof.
  intros Hr HL Hz. eapply (wp_for_down (fun i => top_filled neg n T (i + 1))).
  { lia. }
  { by rewrite Z.sub_add. }
  { intros i r0 Hi Hr0. apply wp_setDigit; [destruct Hr0 as [(_ & -> & _) _]; lia|].
    pose proof (top_filled_step _ _ _ _ _ Hr0 ltac:(lia)) as Hs. rewrite Z.add_simpl_r in Hs.
    rewrite Z.sub_add. pose proof (Base_pow_pos i ltac:(lia)) as HB. pose proof Base_pos.
    assert (Hd : T / Base ^ i mod Base = 0).
    { pose proof (Z.div_mod T (Base ^ L)) as Hdm. rewrite Hz, Z.add_0_r in Hdm.
      rewrite Hdm by (apply Z.pow_nonzero; lia). replace L with (i + 1 + (L - i - 1)) by lia.
      rewrite Z.pow_add_r, Base_pow_succ by lia.
      replace (Base * Base ^ i * Base ^ (L - i - 1) * (T / (Base * Base ^ i * Base ^ (L - i - 1))))
        with (Base ^ (L - i - 1) * (T / (Base * Base ^ i * Base ^ (L - i - 1))) * Base * Base ^ i) by lia.
      rewrite Z.div_mul by lia. apply Z.mod_mul. lia. }
    by rewrite Hd in Hs. }
  intros r0. by rewrite Z.sub_add.
Qed.

Lemma createFromDouble_spec d : is_double d -> IsInteger d = true ->
  wp (createFromDouble d) (fun r => denotes r (integer_part d)) no_error.
Proof.
  intros Hd Hi. unfold createFromDouble. wp_step. wp_step; [done|].
  destruct (double_is_zero d) eqn:Hz.
  { apply double_is_zero_iff in Hz. unfold integer_part. rewrite Hz, Z.quot_0_l by (apply Z.pow_nonzero; lia).
    apply zero_spec. }
  destruct (integral_double d Hd Hi Hz) as (He & HT & ->).
  set (T := scaled_magnitude d / 2 ^ 1074) in *. set (s := double_lt_zero d).
  pose proof DigitBits_pos. pose proof (fraction_bound d) as Hf.
  assert (HeM : ExponentComponent d <= 1024) by (rewrite ExponentComponent_eq; pose proof (biased_bound d); lia).
  assert (Hnzb : DigitBits <> 0) by lia.
  pose proof (Z.div_mod (ExponentComponent d) DigitBits Hnzb) as Hdm.
  pose proof (Z.mod_pos_bound (ExponentComponent d) DigitBits DigitBits_pos) as Ht.
  set (e := ExponentComponent d) in *. set (L := e / DigitBits) in *. set (t := e mod DigitBits) in *.
  assert (HL : 0 <= L) by (apply Z.div_pos; lia).
  assert (HLM : L <= 1024) by (apply Z.div_le_upper_bound; [lia|]; apply Z.le_trans with (1 * 1024); [lia|]; apply Z.mul_le_mono_nonneg_r; lia).
  pose proof MaxDigitLength_big.
  wp_step. wp_step; [lia|]. wp_step. apply wp_create_ok; [lia|]. intros r0 Hr0.
  rewrite land_significand, lor_implicit_bit by done. wp_step.
  wp_call (double_msd_spec (2 ^ 52 + fraction_of d) t e T L); [lia|done|done|done|done|].
  intros [digit M] (-> & Hnz & Hok & Ha & Hm). wp_step. wp_step; [lia|]. wp_step.
  rewrite !Z.add_simpl_r. apply wp_setDigit; [destruct Hr0 as (_ & -> & _); lia|].
  assert (HTB : T / Base ^ L mod Base = T / Base ^ L) by (apply Z.mod_small; exact Hok).
  assert (Hinv : mantissa_inv s (L + 1) T (with_digit r0 L (T / Base ^ L), M, L)).
  { split; [lia|]. split; [|done]. split; [by apply shape_with_digit|]. intros j Hj. replace j with L by lia.
    destruct Hr0 as (_ & Hn & _). unfold digitLength in Hn. unfold with_digit. cbn [digits].
    by rewrite zget_zset_same by lia. }
  wp_step. wp_call (double_mantissa_digits_spec _ _ _ _ _ _ Hinv).
  intros [r1 L1] (HL1 & Hr1 & Hz1). eapply wp_weaken_ok; [by apply (zero_tail_spec s (L + 1) T)|].
  intros r Hr. pose proof (Base_pow_pos L HL) as HB. unfold digit_ok in Hok.
  assert (HTn : 0 <= T < Base ^ (L + 1)).
  { split; [apply Z.div_pos; [apply scaled_magnitude_nonneg|apply Z.pow_pos_nonneg; lia]|].
    rewrite Base_pow_succ, Z.mul_comm by lia. pose proof (Z.div_mod T (Base ^ L)).
    pose proof (Z.mod_pos_bound T (Base ^ L) HB).
    assert (Base ^ L * (T / Base ^ L + 1) <= Base ^ L * Base) by (apply Z.mul_le_mono_nonneg_l; lia). lia. }
  rewrite <- (top_filled_value s (L + 1) T r) by (done || lia).
  apply shape_denotes; [apply Hr|lia|]. destruct Hr as [_ Hr]. rewrite Z.add_simpl_r, Hr, HTB by lia. done.
Qed.

Lemma NumberToBigInt_spec d : is_double d ->
  wp (NumberToBigInt d)
    (fun r => IsInteger d = true /\ denotes r (integer_part d))
    (fun e => e = NonIntegerNumberToBigInt /\ IsInteger d = false).
Proof.
  intros Hd. unfold NumberToBigInt. wp_step; bsplit.
  - apply wp_throw; done.
  - eapply wp_mono; [by apply createFromDouble_spec|done|done].
Qed.
End from_double.

(** * To doubles *)

Section mantissa.
Context {P : Platform}.

(** The mantissa without its top bit, moved to the top of 64 bits, when the
    fraction [G] has at most 64 bits ... *)
Lemma aligned_left G w : 53 <= w <= 64 -> 0 <= G < 2 ^ w ->
  G * 2 ^ (64 - w) / 2 ^ 11 + 2 ^ 53 = (2 ^ w + G) / 2 ^ (w - 53).
Proof.
  intros Hw HG. assert (H1 : 0 < 2 ^ (64 - w)) by (apply Z.pow_pos_nonneg; lia).
  assert (H2 : 0 < 2 ^ (w - 53)) by (apply Z.pow_pos_nonneg; lia).
  replace (2 ^ 11) with (2 ^ (w - 53) * 2 ^ (64 - w)) by (rewrite <- Z.pow_add_r by lia; f_equal; lia).
  rewrite Z.div_mul_cancel_r by lia.
  replace (2 ^ w) with (2 ^ 53 * 2 ^ (w - 53)) by (rewrite <- Z.pow_add_r by lia; f_equal; lia).
  rewrite Z.add_comm, Z.div_add_l by lia. lia.
Qed.

(** ... and when it has [i] bits more. *)
Lemma aligned_right G i : 0 <= i -> 0 <= G < 2 ^ (i + 64) ->
  G / 2 ^ i / 2 ^ 11 + 2 ^ 53 = (2 ^ (i + 64) + G) / 2 ^ (i + 11).
Proof.
  intros Hi HG. assert (H1 : 0 < 2 ^ i) by (apply Z.pow_pos_nonneg; lia).
  assert (H2 : 0 < 2 ^ (i + 11)) by (apply Z.pow_pos_nonneg; lia).
  rewrite Z.div_div, <- Z.pow_add_r by lia.
  replace (2 ^ (i + 64)) with (2 ^ 53 * 2 ^ (i + 11)) by (rewrite <- Z.pow_add_r by lia; f_equal; lia).
  rewrite Z.add_comm, Z.div_add_l by lia. lia.
Qed.

(** Shifting the top digit up drops its highest bit. *)
Lemma top_dropped g i w : 0 <= i <= w -> 0 <= g < 2 ^ i ->
  (2 ^ i + g) * 2 ^ (w - i) mod 2 ^ w = g * 2 ^ (w - i).
Proof.
  intros Hi Hg. assert (H1 : 0 < 2 ^ (w - i)) by (apply Z.pow_pos_nonneg; lia).
  assert (E : 2 ^ w = 2 ^ i * 2 ^ (w - i)) by (rewrite <- Z.pow_add_r by lia; f_equal; lia).
  symmetry. apply (Z.mod_unique _ _ 1); [left|rewrite E; lia]. rewrite E. split; [apply Z.mul_nonneg_nonneg; lia|].
  apply Z.mul_lt_mono_pos_r; lia.
Qed.

(** The next digit fills the bits below. *)
Lemma next_filled G s i w : 0 <= i <= w -> 0 <= s < 2 ^ w ->
  Z.lor (G * 2 ^ (w - i)) (s / 2 ^ i) = (G * 2 ^ w + s) / 2 ^ i.
Proof.
  intros Hi Hs. assert (H1 : 0 < 2 ^ i) by (apply Z.pow_pos_nonneg; lia).
  assert (E : 2 ^ w = 2 ^ (w - i) * 2 ^ i) by (rewrite <- Z.pow_add_r by lia; f_equal; lia).
  rewrite lor_disjoint_add; [|lia|].
  - rewrite E, Z.mul_assoc, Z.div_add_l by lia. done.
  - split; [apply Z.div_pos; lia|apply Z.div_lt_upper_bound; lia].
Qed.

(** The bits of a digit below [c], by a mask or by a shift. *)
Lemma low_mask d c : 0 <= c < DigitBits -> Z.land d (wrap (wrap (1 * 2 ^ c) - 1)) = d mod 2 ^ c.
Proof.
  intros Hc. rewrite Z.mul_1_l.
  assert (H1 : 0 < 2 ^ c) by (apply Z.pow_pos_nonneg; lia).
  assert (H2 : 2 ^ c < Base) by (apply Z.pow_lt_mono_r; lia).
  rewrite (wrap_small (2 ^ c)), wrap_small by (unfold digit_ok; lia). by rewrite land_low by lia.
Qed.

Lemma shifted_out_zero d c : 0 < c <= DigitBits -> wrap (d * 2 ^ (DigitBits - c)) = 0 <-> d mod 2 ^ c = 0.
Proof.
  intros Hc. assert (H1 : 0 < 2 ^ (DigitBits - c)) by (apply Z.pow_pos_nonneg; lia).
  assert (H2 : 0 < 2 ^ c) by (apply Z.pow_pos_nonneg; lia).
  assert (E : Base = 2 ^ c * 2 ^ (DigitBits - c)) by (unfold Base; rewrite <- Z.pow_add_r by lia; f_equal; lia).
  unfold wrap. rewrite E, Z.mul_mod_distr_r by lia. split; [intros H; apply Z.mul_eq_0 in H; lia|intros ->; lia].
Qed.

(** The quotient of the magnitude by a power of two, read off its top digits. *)
Lemma absval_div_bits x D c : 0 <= D -> 0 <= c -> absval x / 2 ^ (D * DigitBits + c) = high x D / 2 ^ c.
Proof.
  intros HD Hc. pose proof DigitBits_pos. assert (0 <= D * DigitBits) by (apply Z.mul_nonneg_nonneg; lia).
  unfold high, Base. rewrite <- Z.pow_mul_r by lia. rewrite Z.div_div, <- Z.pow_add_r by (lia || apply Z.pow_pos_nonneg; lia || apply Z.pow_nonzero; lia).
  f_equal. f_equal. lia.
Qed.

Lemma high_top x : digits_ok (digits x) -> 0 < digitLength x ->
  high x (digitLength x - 1) = zget (digits x) (digitLength x - 1).
Proof.
  intros Hx Hn. rewrite high_step by (done || lia). rewrite Z.sub_add, high_length by done. lia.
Qed.

(** The top bits of the magnitude, the place of the extra bit, and whether a
    bit of that digit below it is set. *)
Definition mantissa_post (x : bigint) (e : Z) (s : Z * Z * Z) : Prop :=
  let '(sm, D, beneath) := s in
  exists c, 0 <= c < DigitBits /\ 0 <= D < digitLength x /\ e - 53 = D * DigitBits + c /\
    0 <= sm < 2 ^ 64 /\ sm / 2 ^ 11 + 2 ^ 53 = absval x / 2 ^ (e - 53) /\
    (beneath = 0 <-> zget (digits x) D mod 2 ^ c = 0).

(** A post-condition from the bits read so far. *)
Lemma mantissa_post_intro x e sm D c beneath :
  0 <= c < DigitBits -> 0 <= D < digitLength x -> e - 53 = D * DigitBits + c ->
  sm / 2 ^ 11 + 2 ^ 53 = high x D / 2 ^ c -> 0 <= sm < 2 ^ 64 ->
  (beneath = 0 <-> zget (digits x) D mod 2 ^ c = 0) ->
  mantissa_post x e (sm, D, beneath).
Proof.
  intros Hc HD He Hsm Hb Hz. exists c. split_and!; try done; try lia; try apply Hz.
  by rewrite He, absval_div_bits by lia.
Qed.

(** A fraction of [w] bits moved up to 64. *)
Lemma moved_up_bound G w : 0 <= w <= 64 -> 0 <= G < 2 ^ w -> 0 <= G * 2 ^ (64 - w) < 2 ^ 64.
Proof.
  intros Hw HG. assert (H1 : 0 < 2 ^ (64 - w)) by (apply Z.pow_pos_nonneg; lia).
  split; [apply Z.mul_nonneg_nonneg; lia|].
  replace (2 ^ 64) with (2 ^ w * 2 ^ (64 - w)) by (rewrite <- Z.pow_add_r by lia; f_equal; lia).
  apply Z.mul_lt_mono_pos_r; lia.
Qed.

Lemma moved_down_bound G i : 0 <= i -> 0 <= G < 2 ^ (i + 64) -> 0 <= G / 2 ^ i < 2 ^ 64.
Proof.
  intros Hi HG. assert (H1 : 0 < 2 ^ i) by (apply Z.pow_pos_nonneg; lia).
  split; [apply Z.div_pos; lia|]. apply Z.div_lt_upper_bound; [lia|]. rewrite <- Z.pow_add_r by lia. lia.
Qed.

(** The top digits as a leading one and a fraction. *)
Lemma appended G s i w : 0 <= i -> 0 <= w -> 0 <= G < 2 ^ i -> 0 <= s < 2 ^ w ->
  0 <= G * 2 ^ w + s < 2 ^ (i + w) /\ (2 ^ i + G) * 2 ^ w + s = 2 ^ (i + w) + (G * 2 ^ w + s).
Proof.
  intros Hi Hw HG Hs. rewrite Z.pow_add_r by lia. assert (H1 : 0 < 2 ^ w) by (apply Z.pow_pos_nonneg; lia).
  assert (0 <= G * 2 ^ w) by (apply Z.mul_nonneg_nonneg; lia).
  assert ((G + 1) * 2 ^ w <= 2 ^ i * 2 ^ w) by (apply Z.mul_le_mono_nonneg_r; lia). lia.
Qed.

Lemma mantissa_bits_spec x i g : wf x -> 0 < digitLength x -> 0 <= i < DigitBits -> 0 <= g < 2 ^ i ->
  let msd := zget (digits x) (digitLength x - 1) in
  let e := (digitLength x - 1) * DigitBits + i in
  msd = 2 ^ i + g -> 53 <= e ->
  wp (mantissa_bits x msd (DigitBits - i) i) (mantissa_post x e) no_error.
Proof.
  intros Hx Hlen Hi Hg msd e Hmsd He. subst e. pose proof (wf_digits x Hx) as Hd.
  pose proof (high_top x Hd Hlen) as Htop. fold msd in Htop. rewrite Hmsd in Htop.
  set (n := digitLength x) in *. unfold mantissa_bits. change (kSignificandWidth + 1) with 53. fold n.
  assert (Hdb : DigitBits <= 64) by (destruct DigitBits_cases as [-> | ->]; lia).
  wp_step. eapply (wp_mono _ (fun sm => sm = g * 2 ^ (64 - i))); [| |done].
  { destruct (Z.eqb_spec i 0) as [->|].
    - wp_step. rewrite Z.pow_0_r in Hg. replace g with 0 by lia. done.
    - apply wp_shl_w; [lia|]. rewrite Hmsd. apply top_dropped; lia. }
  intros sm ->. wp_step; bsplit.
  { replace (DigitBits - 53 - (DigitBits - i)) with (i - 53) by lia.
    wp_step. apply wp_shl; [lia|]. wp_step. rewrite low_mask by lia.
    apply (mantissa_post_intro _ _ _ _ (i - 53)); [lia|lia|lia| |apply moved_up_bound; lia|done].
    fold n. rewrite Htop. apply aligned_left; lia. }
  assert (Hn2 : 2 <= n).
  { destruct (Z.eq_dec n 1) as [E|]; [|lia]. rewrite E in He. lia. }
  wp_step. wp_step; [lia|]. wp_step. apply wp_digit; [fold n; lia|].
  pose proof (high_step x (n - 2) Hd ltac:(fold n; lia)) as Hsec. replace (n - 2 + 1) with (n - 1) in Hsec by lia.
  pose proof (digits_ok_get (digits x) (n - 2) Hd) as Hs. set (s := zget (digits x) (n - 2)) in *.
  rewrite Htop in Hsec. unfold digit_ok in Hs.
  destruct DigitBits_cases as [E|E]; rewrite E in *; cbn [Z.eqb Pos.eqb]; unfold Base in Hs, Hsec; rewrite E in Hs, Hsec.
  - destruct (appended g s i 32) as [HG1 HW1]; [lia..|]. rewrite HW1 in Hsec.
    wp_step. apply wp_shl_w; [lia|]. cbv zeta.
    assert (Hsh : s * 2 ^ (32 - i) mod 2 ^ 64 = s * 2 ^ (32 - i)).
    { apply Z.mod_small. split; [apply Z.mul_nonneg_nonneg; [lia|apply Z.pow_nonneg; lia]|].
      apply Z.lt_le_trans with (2 ^ 32 * 2 ^ (32 - i)).
      - apply Z.mul_lt_mono_pos_r; [apply Z.pow_pos_nonneg|]; lia.
      - rewrite <- Z.pow_add_r by lia. apply Z.pow_le_mono_r; lia. }
    assert (Hlor : Z.lor (g * 2 ^ (64 - i)) (s * 2 ^ (32 - i)) = (g * 2 ^ 32 + s) * 2 ^ (64 - (i + 32))).
    { replace (64 - (i + 32)) with (32 - i) by lia.
      rewrite lor_disjoint_add; [|lia|].
      - replace (64 - i) with (32 + (32 - i)) by lia. rewrite Z.pow_add_r by lia. lia.
      - split; [apply Z.mul_nonneg_nonneg; [lia|apply Z.pow_nonneg; lia]|].
        replace (64 - i) with (32 + (32 - i)) by lia. rewrite Z.pow_add_r by lia.
        apply Z.mul_lt_mono_pos_r; [apply Z.pow_pos_nonneg|]; lia. }
    rewrite Hsh, Hlor. wp_step; bsplit.
    { wp_step. apply wp_shl; [lia|]. wp_step. rewrite low_mask by lia.
      apply (mantissa_post_intro _ _ _ _ (i + 32 - 53)); [lia|lia|lia| |apply moved_up_bound; lia|done].
      rewrite Hsec. apply aligned_left; lia. }
    assert (Hn3 : 3 <= n) by (destruct (Z.eq_dec n 2) as [En|]; [rewrite En in He; lia|lia]).
    wp_step. wp_step; [lia|]. wp_step. apply wp_digit; [fold n; lia|].
    pose proof (high_step x (n - 3) Hd ltac:(fold n; lia)) as Hthi. replace (n - 3 + 1) with (n - 2) in Hthi by lia.
    pose proof (digits_ok_get (digits x) (n - 3) Hd) as Ht. set (t := zget (digits x) (n - 3)) in *.
    rewrite Hsec in Hthi. unfold digit_ok in Ht. unfold Base in Ht, Hthi. rewrite E in Ht, Hthi.
    destruct (appended (g * 2 ^ 32 + s) t (i + 32) 32) as [HG2 HW2]; [lia..|]. rewrite HW2 in Hthi.
    replace (i + 32 + 32) with (i + 64) in * by lia.
    wp_step. apply wp_shr_w; [lia|]. wp_step. apply wp_shl; [lia|]. wp_step.
    replace (64 - (i + 32)) with (32 - i) by lia. rewrite (next_filled _ _ i 32) by lia.
    apply (mantissa_post_intro _ _ _ _ (i + 2 * 32 - 53)); [lia|lia|lia| |apply moved_down_bound; lia|].
    + rewrite Hthi. replace (i + 2 * 32 - 53) with (i + 11) by lia. apply aligned_right; lia.
    + rewrite <- E at 1. apply shifted_out_zero. lia.
  - destruct (appended g s i 64) as [HG1 HW1]; [lia..|]. rewrite HW1 in Hsec.
    wp_step. apply wp_shr; [lia|]. wp_step. apply wp_shl; [lia|]. wp_step.
    rewrite (next_filled _ _ i 64) by lia.
    apply (mantissa_post_intro _ _ _ _ (i + 64 - 53)); [lia|lia|lia| |apply moved_down_bound; lia|].
    + rewrite Hsec. replace (i + 64 - 53) with (i + 11) by lia. apply aligned_right; lia.
    + rewrite <- E at 1. apply shifted_out_zero. lia.
Qed.
End mantissa.

Section rounding.
Context {P : Platform}.

Lemma any_digit_below_spec x D : wf x -> 0 <= D <= digitLength x ->
  wp (any_digit_below x D) (fun b => b = negb (pv (digits x) D =? 0)) no_error.
Proof.
  intros Hx HD. unfold any_digit_below. pose proof (wf_digits x Hx) as Hd.
  eapply (wp_loop (fun i => 0 <= i <= D /\ forall j, i <= j < D -> zget (digits x) j = 0) (fun i => i)).
  { split; [lia|]. intros j Hj. lia. }
  { lia. }
  { intros; lia. }
  intros i (Hi & Hz). assert (Hpv : pv (digits x) D = pv (digits x) i) by (apply pv_stable; [lia|]; intros; apply Hz; lia).
  wp_step; bsplit.
  - wp_step. apply wp_digit; [lia|]. wp_step. destruct (Z.eqb_spec (zget (digits x) (i - 1)) 0) as [H0|H0]; cbn [negb].
    + split; [|lia]. split; [lia|]. intros j Hj. destruct (Z.eq_dec j (i - 1)) as [->|]; [done|]. apply Hz. lia.
    + assert (Base ^ (i - 1) <= pv (digits x) i).
      { replace i with (i - 1 + 1) at 2 by lia. apply pv_lower; [done|lia|done]. }
      pose proof (Base_pow_pos (i - 1) ltac:(lia)). symmetry. apply negb_true_iff, Z.eqb_neq. lia.
  - wp_step. assert (i = 0) as -> by lia. by rewrite Hpv, pv_0.
Qed.

(** The bits dropped by the mantissa: the rest of one digit and the digits
    below it. *)
Lemma dropped_zero x D c : wf x -> 0 <= D < digitLength x -> 0 <= c < DigitBits ->
  absval x mod 2 ^ (D * DigitBits + c) = 0 <->
  zget (digits x) D mod 2 ^ c = 0 /\ pv (digits x) D = 0.
Proof.
  intros Hx HD Hc. pose proof (wf_digits x Hx) as Hd. pose proof DigitBits_pos.
  assert (HDB : 0 <= D * DigitBits) by (apply Z.mul_nonneg_nonneg; lia).
  assert (EB : 2 ^ (D * DigitBits + c) = Base ^ D * 2 ^ c).
  { unfold Base. rewrite <- Z.pow_mul_r, <- Z.pow_add_r by lia. f_equal. lia. }
  rewrite EB. pose proof (Base_pow_pos D ltac:(lia)) as HB. pose proof (pv_bound (digits x) D Hd ltac:(lia)).
  destruct (Z.eq_dec c 0) as [->|Hc0].
  - rewrite Z.pow_0_r, Z.mul_1_r, Z.mod_1_r, absval_pv, pv_mod by (done || lia). tauto.
  - pose proof (absval_mod_bits x (D + 1) c Hd) as Hm. rewrite Z.add_simpl_r in Hm. rewrite Hm by lia.
    assert (H2 : 0 < 2 ^ c) by (apply Z.pow_pos_nonneg; lia).
    pose proof (Z.mod_pos_bound (zget (digits x) D) (2 ^ c) H2).
    assert (0 <= zget (digits x) D mod 2 ^ c * Base ^ D) by (apply Z.mul_nonneg_nonneg; lia).
    split; [intros E|intros [-> ->]; lia]. assert (zget (digits x) D mod 2 ^ c * Base ^ D = 0) as Hz by lia.
    apply Z.mul_eq_0 in Hz. lia.
Qed.

Lemma bit_test a k : 0 <= k -> negb (Z.land a (2 ^ k) =? 0) = Z.odd (a / 2 ^ k).
Proof.
  intros Hk. replace (2 ^ k) with (Z.shiftl (2 ^ 1 - 1) k) at 1 by (rewrite Z.shiftl_mul_pow2; lia).
  rewrite land_field by lia. assert (0 < 2 ^ k) by (apply Z.pow_pos_nonneg; lia).
  change (2 ^ 1) with 2. rewrite Zmod_odd. destruct (Z.odd (a / 2 ^ k)); [|done].
  destruct (Z.eqb_spec (1 * 2 ^ k) 0); [lia|done].
Qed.

(** The rounding decision of the reference, read on the mantissa [p] with the
    extra bit and on the bits [rem] below. *)
Lemma round_decision a k : 1 <= k -> 0 <= a ->
  let p := a / 2 ^ (k - 1) in
  let rem := a mod 2 ^ (k - 1) in
  (2 * (a mod 2 ^ k) >? 2 ^ k) || ((2 * (a mod 2 ^ k) =? 2 ^ k) && Z.odd (a / 2 ^ k)) =
  Z.odd p && (Z.odd (p / 2) || negb (rem =? 0)) /\ a / 2 ^ k = p / 2.
Proof.
  intros Hk Ha p rem. assert (E : 2 ^ k = 2 ^ (k - 1) * 2) by (rewrite Z.mul_comm, <- Z.pow_succ_r by lia; f_equal; lia).
  assert (H1 : 0 < 2 ^ (k - 1)) by (apply Z.pow_pos_nonneg; lia).
  assert (Eq : a / 2 ^ k = p / 2) by (unfold p; rewrite E, Z.div_div by lia; done).
  assert (Er : a mod 2 ^ k = rem + 2 ^ (k - 1) * (p mod 2)) by (rewrite E; apply Z.rem_mul_r; lia).
  rewrite Eq, Er. split; [|done]. pose proof (Z.mod_pos_bound a (2 ^ (k - 1)) H1) as Hr. fold rem in Hr.
  rewrite (Zmod_odd p). destruct (Z.odd p) eqn:Ho; cbn [andb].
  - destruct (Z.eqb_spec rem 0) as [E0|E0]; cbn [negb].
    + rewrite E0, orb_false_r. replace (2 * (0 + 2 ^ (k - 1) * 1) >? 2 ^ k) with false by lia.
      by replace (2 * (0 + 2 ^ (k - 1) * 1) =? 2 ^ k) with true by lia.
    + rewrite orb_true_r. by replace (2 * (rem + 2 ^ (k - 1) * 1) >? 2 ^ k) with true by lia.
  - replace (2 * (rem + 2 ^ (k - 1) * 0) >? 2 ^ k) with false by lia.
    by replace (2 * (rem + 2 ^ (k - 1) * 0) =? 2 ^ k) with false by lia.
Qed.

(** Adding the extra bit to the 64-bit mantissa rounds the 53-bit one. *)
Lemma rounded_mantissa sm p (up : bool) : 0 <= sm < 2 ^ 64 -> sm / 2 ^ 11 + 2 ^ 53 = p ->
  (up = true -> Z.odd p = true) ->
  let sm' := if up then uint64 (sm + 2 ^ 11) else sm in
  let q := p / 2 + Z.b2z up in
  (up && (sm' <? sm) = (q =? 2 ^ 53)) /\
  Z.shiftr sm' 12 = (if q =? 2 ^ 53 then 2 ^ 52 else q) - 2 ^ 52 /\ 2 ^ 52 <= q <= 2 ^ 53.
Proof.
  intros Hsm Hp Hup sm' q. rewrite Z.shiftr_div_pow2 by lia. subst sm' q.
  pose proof (Z.div_mod sm (2 ^ 11) ltac:(lia)) as Hdm. pose proof (Z.mod_pos_bound sm (2 ^ 11) ltac:(lia)) as Hl.
  set (low := sm mod 2 ^ 11) in *. set (h := sm / 2 ^ 11) in *.
  destruct up; cbn [andb Z.b2z].
  - specialize (Hup eq_refl). apply Z.odd_spec in Hup as [c Hc].
    assert (Hpc : p / 2 = c) by (symmetry; apply (Z.div_unique _ _ _ 1); lia). rewrite Hpc. unfold uint64.
    destruct (Z.eqb_spec (c + 1) (2 ^ 53)) as [E|E].
    + assert (Em : (sm + 2 ^ 11) mod 2 ^ 64 = low) by (symmetry; apply (Z.mod_unique _ _ 1); lia). rewrite Em.
      split; [lia|]. split; [|lia]. rewrite Z.div_small by lia. done.
    + rewrite (Z.mod_small (sm + 2 ^ 11)) by lia. split; [lia|]. split; [|lia].
      symmetry. apply (Z.div_unique _ _ _ low); lia.
  - assert (Ho : p / 2 = h / 2 + 2 ^ 52) by (symmetry; apply (Z.div_unique _ _ _ (h mod 2)); pose proof (Z.div_mod h 2); pose proof (Z.mod_pos_bound h 2); lia).
    assert (Hh : 0 <= h / 2 < 2 ^ 52) by (split; [apply Z.div_pos|apply Z.div_lt_upper_bound]; lia).
    rewrite Ho. destruct (Z.eqb_spec (h / 2 + 2 ^ 52 + 0) (2 ^ 53)); [lia|]. split; [lia|]. split; [|lia].
    change (2 ^ 12) with (2 ^ 11 * 2). rewrite <- Z.div_div by lia. fold h. lia.
Qed.

Lemma assemble_lor (s : bool) e f : 0 <= e < 2048 -> 0 <= f < 2 ^ 52 ->
  Z.lor (Z.lor (Z.shiftl (if s then 1 else 0) (kExponentWidth + kSignificandWidth)) (Z.shiftl e kExponentShift)) f
  = assemble s e f.
Proof.
  intros He Hf. change (kExponentWidth + kSignificandWidth) with 63. change kExponentShift with 52.
  rewrite !Z.shiftl_mul_pow2 by lia. rewrite (lor_disjoint_add _ (e * 2 ^ 52) 63) by lia.
  replace ((if s then 1 else 0) * 2 ^ 63 + e * 2 ^ 52) with (((if s then 1 else 0) * 2 ^ 11 + e) * 2 ^ 52) by lia.
  rewrite lor_disjoint_add by lia. unfold assemble. destruct s; lia.
Qed.

(** The result of rounding never depends on the sign but for its sign bit. *)
Lemma round_fields a : 0 <= a -> exists e f, 0 <= e < 2048 /\ 0 <= f < 2 ^ 52 /\
  forall s, round_to_double s a = assemble s e f.
Proof.
  intros Ha. unfold round_to_double. destruct (Z.eqb_spec a 0) as [->|Ha0]; [exists 0, 0; done|].
  pose proof (Z.log2_spec a ltac:(lia)) as Hlog. pose proof (Z.log2_nonneg a). set (e := Z.log2 a) in *.
  rewrite Z.pow_succ_r in Hlog by lia.
  destruct (Z.leb_spec e 52).
  - exists (e + 1023), (a * 2 ^ (52 - e) - 2 ^ 52). split; [lia|]. split; [|done].
    assert (H1 : 0 < 2 ^ (52 - e)) by (apply Z.pow_pos_nonneg; lia).
    replace (2 ^ 52) with (2 ^ e * 2 ^ (52 - e)) by (rewrite <- Z.pow_add_r by lia; f_equal; lia).
    assert (2 ^ e * 2 ^ (52 - e) <= a * 2 ^ (52 - e)) by (apply Z.mul_le_mono_nonneg_r; lia).
    assert (a * 2 ^ (52 - e) < 2 * 2 ^ e * 2 ^ (52 - e)) by (apply Z.mul_lt_mono_pos_r; lia). lia.
  - set (k := e - 52) in *. assert (Hk : 0 < 2 ^ k) by (apply Z.pow_pos_nonneg; lia).
    assert (Ek : 2 ^ e = 2 ^ 52 * 2 ^ k) by (rewrite <- Z.pow_add_r by lia; f_equal; lia).
    assert (Hq : 2 ^ 52 <= a / 2 ^ k < 2 ^ 53) by (split; [apply Z.div_le_lower_bound|apply Z.div_lt_upper_bound]; lia).
    cbv zeta. set (q := if _ || _ then a / 2 ^ k + 1 else a / 2 ^ k).
    assert (Hq' : 2 ^ 52 <= q <= 2 ^ 53) by (subst q; destruct (_ || _); lia).
    destruct (Z.eqb_spec q (2 ^ 53)).
    + destruct (Z.gtb_spec (e + 1) 1023); [exists 2047, 0; done|]. exists (e + 1 + 1023), 0. split; [lia|]. done.
    + destruct (Z.gtb_spec e 1023); [exists 2047, 0; done|]. exists (e + 1023), (q - 2 ^ 52). split; [lia|]. split; [lia|done].
Qed.

Lemma round_is_double s a : 0 <= a -> is_double (round_to_double s a).
Proof. intros Ha. destruct (round_fields a Ha) as (e & f & He & Hf & ->). by apply assemble_double. Qed.

Lemma round_neg a : 0 <= a -> double_neg (round_to_double false a) = round_to_double true a.
Proof.
  intros Ha. destruct (round_fields a Ha) as (e & f & He & Hf & Hr). rewrite !Hr. unfold double_neg, assemble.
  set (y := e * 2 ^ 52 + f). assert (Hy : 0 <= y < 2 ^ 63) by lia.
  change kSignBit with (2 ^ 63). rewrite <- Z.add_nocarry_lxor; [lia|].
  change (2 ^ 63) with (Z.shiftl (2 ^ 1 - 1) 63). rewrite land_field by lia. rewrite Z.div_small by lia. done.
Qed.

Lemma round_overflow s a : 2 ^ 1024 <= a -> round_to_double s a = assemble s 2047 0.
Proof.
  intros Ha. assert (Hp : 0 < 2 ^ 1024) by (apply Z.pow_pos_nonneg; lia).
  assert (He : 1024 <= Z.log2 a) by (apply Z.log2_le_pow2; lia).
  unfold round_to_double. replace (a =? 0) with false by lia. replace (Z.log2 a <=? 52) with false by lia.
  cbv zeta. set (q := if _ || _ then _ else _). by destruct (Z.eqb_spec q (2 ^ 53)); [replace (_ >? 1023) with true by lia|replace (_ >? 1023) with true by lia].
Qed.
End rounding.

Section number_value.
Context {P : Platform}.

(** The position of the leading one. *)
Lemma top_digit_bits x s : wf x -> 0 < digitLength x ->
  let msd := zget (digits x) (digitLength x - 1) in
  0 <= s < DigitBits -> Z.log2 msd = DigitBits - 1 - s ->
  Z.log2 (absval x) = digitLength x * DigitBits - s - 1 /\
  exists g, 0 <= g < 2 ^ (DigitBits - 1 - s) /\ msd = 2 ^ (DigitBits - 1 - s) + g.
Proof.
  intros Hx Hpos msd Hs Hlog. pose proof (bit_length x s Hx Hpos Hlog) as Hbl. split; [lia|].
  assert (Hm : 0 < msd).
  { assert (msd <> 0) by (apply Hx; lia). pose proof (digits_ok_get _ (digitLength x - 1) (wf_digits x Hx)) as Hok.
    fold msd in Hok. unfold digit_ok in Hok. lia. }
  pose proof (Z.log2_spec msd Hm) as [H1 H2]. rewrite Hlog in H1, H2. rewrite Z.pow_succ_r in H2 by lia.
  exists (msd - 2 ^ (DigitBits - 1 - s)). lia.
Qed.

Lemma infinity_fields (s : bool) : (if s then NegativeInfinity else PositiveInfinity) = assemble s 2047 0.
Proof. by destruct s. Qed.

Lemma round_up_spec x e sm D c beneath : wf x ->
  0 <= c < DigitBits -> 0 <= D < digitLength x -> e - 53 = D * DigitBits + c ->
  sm / 2 ^ 11 + 2 ^ 53 = absval x / 2 ^ (e - 53) ->
  (beneath = 0 <-> zget (digits x) D mod 2 ^ c = 0) ->
  let p := absval x / 2 ^ (e - 53) in
  wp (if negb (Z.land sm (2 ^ 11) =? 0) then
        if negb (Z.land sm (2 ^ 12) =? 0) then mret true
        else if negb (beneath =? 0) then mret true
        else any_digit_below x D
      else mret false)
    (fun b => b = Z.odd p && (Z.odd (p / 2) || negb (absval x mod 2 ^ (e - 53) =? 0))) no_error.
Proof.
  intros Hx Hc HD He Hsm Hb p. fold p in Hsm. rewrite !bit_test by lia.
  pose proof (dropped_zero x D c Hx HD Hc) as Hdrop. rewrite <- He in Hdrop.
  assert (E1 : Z.odd (sm / 2 ^ 11) = Z.odd p) by (rewrite <- Hsm, Z.odd_add; by destruct (Z.odd (sm / 2 ^ 11))).
  assert (E2 : p / 2 = sm / 2 ^ 12 + 2 ^ 52).
  { change (2 ^ 12) with (2 ^ 11 * 2). rewrite <- Z.div_div by lia. rewrite <- Hsm.
    change (2 ^ 53) with (2 ^ 52 * 2). by rewrite Z.div_add by lia. }
  assert (E3 : Z.odd (sm / 2 ^ 12) = Z.odd (p / 2)) by (rewrite E2, Z.odd_add; by destruct (Z.odd (sm / 2 ^ 12))).
  rewrite E1, E3. destruct (Z.odd p); cbn [andb]; [|by wp_step].
  destruct (Z.odd (p / 2)); cbn [orb]; [by wp_step|].
  destruct (Z.eqb_spec beneath 0) as [Hz|Hz]; cbn [negb].
  - eapply wp_weaken_ok; [apply any_digit_below_spec; [done|lia]|]. intros b ->. f_equal.
    apply Hb in Hz. apply eq_true_iff_eq. rewrite !Z.eqb_eq, Hdrop. tauto.
  - wp_step. symmetry. apply negb_true_iff, Z.eqb_neq. rewrite Hdrop, <- Hb. tauto.
Qed.

Lemma numberValue_spec x : wf x ->
  wp (numberValue x) (fun r => r = round_to_double (isNegative x) (absval x)) no_error.
Proof.
  intros Hx. unfold numberValue. wp_step.
  { wp_step. pose proof Hx as (_ & _ & Hs & _). unfold isZero in Hc. rewrite Hs, absval_zero_length by lia. done. }
  apply nonzero_length in Hc. pose proof (wf_absval_nonneg x Hx) as Ha.
  wp_step. wp_step; [lia|]. wp_step.
  change (Z.shiftl 1 (kSignificandWidth + 1)) with (2 ^ 53).
  eapply (wp_mono _ (fun r => match r with Some m => m = absval x | None => 2 ^ 53 < absval x end)); [| |done].
  { wp_step.
    - wp_step. wp_call uint64FromAbs_fits; [done|done|done|]. intros m ->. wp_step.
      destruct (Z.leb_spec (absval x) (2 ^ 53)); [done|lia].
    - wp_step. assert (~ absval x < 2 ^ 64) by (rewrite <- fits_iff by done; congruence). lia. }
  intros [m|] Hm.
  { subst m. wp_step. destruct (isNegative x); [by apply round_neg|done]. }
  cbv zeta. wp_step. apply wp_digit; [lia|]. wp_step.
  set (n := digitLength x) in *. set (msd := zget (digits x) (n - 1)).
  assert (Hmsd : msd <> 0) by (apply Hx; fold n; lia).
  apply wp_DigitLeadingZeroes; [by apply wf_digit|done|]. intros s Hs _ Hlog.
  destruct (top_digit_bits x s Hx Hc Hs Hlog) as [He (g & Hg & Hmg)]. fold n in He. fold msd in Hmg.
  assert (Hapos : 0 < absval x) by lia. pose proof (Z.log2_spec (absval x) Hapos) as Hl.
  assert (He53 : 53 <= Z.log2 (absval x)) by (apply Z.log2_le_pow2; lia).
  rewrite <- He. change kExponentBias with 1023. rewrite infinity_fields.
  destruct (Z.gtb_spec (Z.log2 (absval x)) 1023) as [Hbig|Hsmall].
  { wp_step. rewrite round_overflow; [done|]. apply Z.log2_le_pow2; lia. }
  wp_step. replace (DigitBits - (s + 1)) with (DigitBits - 1 - s) by lia.
  replace (s + 1) with (DigitBits - (DigitBits - 1 - s)) at 1 by lia.
  assert (Ee : Z.log2 (absval x) = (n - 1) * DigitBits + (DigitBits - 1 - s)) by lia.
  wp_call (mantissa_bits_spec x (DigitBits - 1 - s) g Hx Hc); [lia|done|exact Hmg|fold n; lia|].
  fold n. rewrite <- Ee. intros [[sm D] beneath] (c & Hcb & HD & Hpos & Hsm & Hp & Hbz).
  unfold rounded_number. change kExponentBias with 1023. rewrite infinity_fields.
  change (Z.shiftl 1 (64 - kSignificandWidth)) with (2 ^ 12). change (Z.shiftr (2 ^ 12) 1) with (2 ^ 11).
  change (64 - kSignificandWidth) with 12. wp_step.
  wp_call (round_up_spec x (Z.log2 (absval x)) sm D c beneath); [done..|]. cbv zeta. intros up Hup.
  assert (He52 : 1 <= Z.log2 (absval x) - 52) by lia.
  destruct (round_decision (absval x) (Z.log2 (absval x) - 52) He52 Ha) as [Hdec Hq].
  replace (Z.log2 (absval x) - 52 - 1) with (Z.log2 (absval x) - 53) in Hdec, Hq by lia.
  rewrite <- Hup in Hdec. set (p := absval x / 2 ^ (Z.log2 (absval x) - 53)) in *.
  destruct (rounded_mantissa sm p up Hsm Hp) as (Hov & Hsig & Hqb).
  { intros ->. destruct (Z.odd p); [done|discriminate]. }
  rewrite Hov, Hsig. unfold round_to_double. replace (absval x =? 0) with false by lia.
  replace (Z.log2 (absval x) <=? 52) with false by lia. cbv zeta. rewrite Hdec, Hq.
  replace (if up then p / 2 + 1 else p / 2) with (p / 2 + Z.b2z up) by (destruct up; cbn; lia).
  set (q := p / 2 + Z.b2z up) in *. set (e := if q =? 2 ^ 53 then Z.log2 (absval x) + 1 else Z.log2 (absval x)).
  destruct (Z.gtb_spec e 1023); wp_step; [done|].
  apply assemble_lor; [subst e; destruct (q =? 2 ^ 53); lia|]. destruct (Z.eqb_spec q (2 ^ 53)); lia.
Qed.
End number_value.

(** * Rounding to nearest *)

Section nearest.

(** The value of assembled fields in the normal range. *)
Lemma scaled_assemble e q : 0 <= e <= 1024 -> 2 ^ 52 <= q < 2 ^ 53 ->
  scaled_magnitude (assemble false (e + 1023) (q - 2 ^ 52)) * 2 ^ 52 = q * 2 ^ e * 2 ^ 1074.
Proof.
  intros He Hq. unfold scaled_magnitude.
  destruct (assemble_fields false (e + 1023) (q - 2 ^ 52)) as (_ & -> & ->); [lia..|].
  replace (e + 1023 =? 0) with false by lia. replace (e + 1023 - 1) with (e + 1022) by lia.
  replace (2 ^ 52 + (q - 2 ^ 52)) with q by lia. change 1074 with (1022 + 52).
  rewrite !Z.pow_add_r by lia. lia.
Qed.

(** The two neighbours of an integer of at least 53 bits, and the one that is
    chosen. *)
Lemma round_adjacent a : 53 <= Z.log2 a <= 1023 -> exists L up,
  0 <= L < 2 ^ 63 - 2 ^ 52 /\ round_to_double false a = L + Z.b2z up /\
  (let lo := scaled_magnitude L in let hi := scaled_magnitude (L + 1) in
   lo <= a * 2 ^ 1074 < hi /\
   (up = true -> hi - a * 2 ^ 1074 <= a * 2 ^ 1074 - lo) /\
   (up = false -> a * 2 ^ 1074 - lo <= hi - a * 2 ^ 1074) /\
   (hi - a * 2 ^ 1074 = a * 2 ^ 1074 - lo -> Z.even (L + Z.b2z up) = true)).
Proof.
  intros He. assert (Ha : 0 < a) by (destruct (Z_le_gt_dec a 0); [rewrite Z.log2_nonpos in He by lia; lia|lia]).
  pose proof (Z.log2_spec a Ha) as Hl. set (e := Z.log2 a) in *. rewrite Z.pow_succ_r in Hl by lia.
  set (k := e - 52). assert (Hk : 0 < 2 ^ k) by (apply Z.pow_pos_nonneg; lia).
  assert (Ek : 2 ^ e = 2 ^ 52 * 2 ^ k) by (rewrite <- Z.pow_add_r by lia; f_equal; lia).
  pose proof (Z.div_mod a (2 ^ k) ltac:(lia)) as Hdm. pose proof (Z.mod_pos_bound a (2 ^ k) Hk) as Hr.
  assert (Hq : 2 ^ 52 <= a / 2 ^ k < 2 ^ 53) by (split; [apply Z.div_le_lower_bound|apply Z.div_lt_upper_bound]; lia).
  set (q := a / 2 ^ k) in *. set (r := a mod 2 ^ k) in *.
  set (L := assemble false (e + 1023) (q - 2 ^ 52)).
  set (up := (2 * r >? 2 ^ k) || ((2 * r =? 2 ^ k) && Z.odd q)).
  assert (Hround : round_to_double false a = L + Z.b2z up).
  { unfold round_to_double. replace (a =? 0) with false by lia. fold e. replace (e <=? 52) with false by lia.
    cbv zeta. fold k. fold q r. fold up. unfold L, assemble. destruct up; cbn [Z.b2z].
    - destruct (Z.eqb_spec (q + 1) (2 ^ 53)); [destruct (Z.gtb_spec (e + 1) 1023)|destruct (Z.gtb_spec e 1023)]; lia.
    - destruct (Z.eqb_spec q (2 ^ 53)); [lia|]. destruct (Z.gtb_spec e 1023); lia. }
  assert (Hlo : scaled_magnitude L = q * 2 ^ k * 2 ^ 1074).
  { pose proof (scaled_assemble e q ltac:(lia) ltac:(lia)) as Hs. fold L in Hs. rewrite Ek in Hs.
    apply (Z.mul_cancel_r _ _ (2 ^ 52)); [lia|]. rewrite Hs. ring. }
  assert (Hhi : scaled_magnitude (L + 1) = (q + 1) * 2 ^ k * 2 ^ 1074).
  { destruct (Z.eq_dec (q + 1) (2 ^ 53)) as [E|E].
    - replace (L + 1) with (assemble false (e + 1 + 1023) (2 ^ 52 - 2 ^ 52)) by (unfold L, assemble; lia).
      pose proof (scaled_assemble (e + 1) (2 ^ 52) ltac:(lia) ltac:(lia)) as Hs.
      rewrite Z.pow_add_r, Ek in Hs by lia. apply (Z.mul_cancel_r _ _ (2 ^ 52)); [lia|]. rewrite Hs, E.
      change (2 ^ 53) with (2 ^ 52 * 2 ^ 1). ring.
    - replace (L + 1) with (assemble false (e + 1023) (q + 1 - 2 ^ 52)) by (unfold L, assemble; lia).
      pose proof (scaled_assemble e (q + 1) ltac:(lia) ltac:(lia)) as Hs. rewrite Ek in Hs.
      apply (Z.mul_cancel_r _ _ (2 ^ 52)); [lia|]. rewrite Hs. ring. }
  exists L, up. split; [unfold L, assemble; lia|]. split; [done|]. cbv zeta. rewrite Hlo, Hhi.
  assert (Hw : 0 < 2 ^ 1074) by (apply Z.pow_pos_nonneg; lia).
  assert (EA : a * 2 ^ 1074 - q * 2 ^ k * 2 ^ 1074 = r * 2 ^ 1074) by (rewrite Hdm at 1; ring).
  assert (EB : (q + 1) * 2 ^ k * 2 ^ 1074 - a * 2 ^ 1074 = (2 ^ k - r) * 2 ^ 1074) by (rewrite Hdm at 1; ring).
  clear Hround Hlo Hhi. revert Hw EA EB. generalize (2 ^ 1074). intros w Hw EA EB.
  assert (0 <= r * w) by (apply Z.mul_nonneg_nonneg; lia).
  assert (0 < (2 ^ k - r) * w) by (apply Z.mul_pos_pos; lia).
  split; [lia|]. rewrite EA, EB. split; [|split].
  - intros Hup. apply Z.mul_le_mono_nonneg_r; [lia|]. subst up. destruct (Z.gtb_spec (2 * r) (2 ^ k)); [lia|].
    destruct (Z.eqb_spec (2 * r) (2 ^ k)); [lia|discriminate].
  - intros Hup. apply Z.mul_le_mono_nonneg_r; [lia|]. subst up. destruct (Z.gtb_spec (2 * r) (2 ^ k)); [discriminate|lia].
  - intros Heq. apply Z.mul_cancel_r in Heq; [|lia]. subst up. replace (2 * r >? 2 ^ k) with false by lia.
    replace (2 * r =? 2 ^ k) with true by lia. cbn [orb andb]. unfold L, assemble.
    replace (0 + (e + 1023) * 2 ^ 52 + (q - 2 ^ 52) + Z.b2z (Z.odd q)) with (q + Z.b2z (Z.odd q) + 2 * ((e + 1022) * 2 ^ 51)) by lia.
    rewrite Z.even_add_mul_2. rewrite Z.even_add, <- Z.negb_odd. by destruct (Z.odd q).
Qed.

(** No double lies strictly between neighbours. *)
Lemma no_double_between L d : 0 <= L < 2 ^ 63 - 1 ->
  scaled_magnitude d <= scaled_magnitude L \/ scaled_magnitude (L + 1) <= scaled_magnitude d.
Proof.
  intros HL. pose proof (Z.mod_pos_bound d (2 ^ 63) ltac:(lia)).
  assert (Hmono : forall a b, a mod 2 ^ 63 <= b mod 2 ^ 63 -> scaled_magnitude a <= scaled_magnitude b).
  { intros a b Hab. destruct (Z.eq_dec (a mod 2 ^ 63) (b mod 2 ^ 63)) as [E|].
    - unfold scaled_magnitude. rewrite !fields63 in E. pose proof (fraction_bound a). pose proof (fraction_bound b).
      assert (biased_of a = biased_of b /\ fraction_of a = fraction_of b) as [-> ->] by lia. done.
    - apply Z.lt_le_incl, scaled_magnitude_mono. lia. }
  destruct (Z_le_gt_dec (d mod 2 ^ 63) L); [left|right]; apply Hmono; [rewrite (Z.mod_small L)|rewrite (Z.mod_small (L + 1))]; lia.
Qed.

(** An integer of at most 53 bits is represented exactly. *)
Lemma round_small a s : 0 <= a -> Z.log2 a <= 52 -> scaled_magnitude (round_to_double s a) = a * 2 ^ 1074.
Proof.
  intros Ha He. unfold round_to_double. destruct (Z.eqb_spec a 0) as [->|Ha0]; [by destruct s|].
  pose proof (Z.log2_spec a ltac:(lia)) as Hl. pose proof (Z.log2_nonneg a). set (e := Z.log2 a) in *.
  rewrite Z.pow_succ_r in Hl by lia. replace (e <=? 52) with true by lia.
  assert (H1 : 0 < 2 ^ (52 - e)) by (apply Z.pow_pos_nonneg; lia).
  assert (E52 : 2 ^ 52 = 2 ^ e * 2 ^ (52 - e)) by (rewrite <- Z.pow_add_r by lia; f_equal; lia).
  assert (Hq : 2 ^ 52 <= a * 2 ^ (52 - e) < 2 ^ 53).
  { change (2 ^ 53) with (2 * 2 ^ 52). rewrite E52.
    assert (2 ^ e * 2 ^ (52 - e) <= a * 2 ^ (52 - e)) by (apply Z.mul_le_mono_nonneg_r; lia).
    assert (a * 2 ^ (52 - e) < 2 * 2 ^ e * 2 ^ (52 - e)) by (apply Z.mul_lt_mono_pos_r; lia). lia. }
  unfold scaled_magnitude. destruct (assemble_fields s (e + 1023) (a * 2 ^ (52 - e) - 2 ^ 52)) as (_ & -> & ->); [lia..|].
  replace (e + 1023 =? 0) with false by lia. replace (2 ^ 52 + (a * 2 ^ (52 - e) - 2 ^ 52)) with (a * 2 ^ (52 - e)) by lia.
  rewrite <- Z.mul_assoc, <- Z.pow_add_r by lia. f_equal. f_equal. lia.
Qed.

Lemma scaled_sign s a b : 0 <= a -> round_to_double false a = b ->
  sign_of (round_to_double s a) = s /\ scaled_magnitude (round_to_double s a) = scaled_magnitude b.
Proof.
  intros Ha <-. destruct (round_fields a Ha) as (e & f & He & Hf & Hr). rewrite !Hr.
  destruct (assemble_fields s e f He Hf) as (Hs & Eb & Ef). destruct (assemble_fields false e f He Hf) as (_ & Eb' & Ef').
  split; [done|]. unfold scaled_magnitude. by rewrite Eb, Ef, Eb', Ef'.
Qed.

(** The conversion picks a nearest double, and an even one of two nearest. *)
Lemma round_nearest s a d : 0 <= a -> a < 2 ^ 1024 ->
  let A := signed s a * 2 ^ 1074 in
  let r := round_to_double s a in
  Z.abs (A - scaled r) <= Z.abs (A - scaled d) /\
  (Z.abs (A - scaled r) = Z.abs (A - scaled d) -> scaled r <> scaled d -> Z.even r = true).
Proof.
  intros Ha Hlt A r.
  assert (Hw : 0 < 2 ^ 1074) by (apply Z.pow_pos_nonneg; lia).
  assert (EA : A = signed s (a * 2 ^ 1074)) by (unfold A; destruct s; cbn [signed]; lia). rewrite EA. clear EA A.
  destruct (scaled_sign s a _ Ha eq_refl) as [Hsr Hmr]. fold r in Hsr, Hmr.
  unfold scaled at 1 3 5. rewrite Hsr, Hmr.
  destruct (Z_le_gt_dec (Z.log2 a) 52) as [He|He].
  { rewrite round_small by lia. destruct s; cbn [signed]; lia. }
  destruct (round_adjacent a) as (L & up & HL & Hr & Hlh & Hup & Hdn & Htie).
  { assert (0 < a) by (destruct (Z.eq_dec a 0) as [->|]; [cbn in He|]; lia). split; [lia|].
    assert (Z.log2 a < 1024) by (apply Z.log2_lt_pow2; lia). lia. }
  assert (Heven : Z.even r = Z.even (L + Z.b2z up)).
  { rewrite <- Hr. destruct (round_fields a Ha) as (e & f & _ & _ & Hf). unfold r. rewrite !Hf. unfold assemble.
    destruct s; [|done]. rewrite !Z.even_add. by destruct (Z.even (e * 2 ^ 52)), (Z.even f). }
  rewrite Hr, Heven. cbv zeta in *. pose proof (no_double_between L d ltac:(lia)) as Hbet.
  pose proof (scaled_magnitude_nonneg L). pose proof (scaled_magnitude_nonneg d).
  set (lo := scaled_magnitude L) in *. set (hi := scaled_magnitude (L + 1)) in *. set (B := a * 2 ^ 1074) in *.
  assert (Hmag : scaled_magnitude (L + Z.b2z up) = if up then hi else lo)
    by (destruct up; cbn [Z.b2z]; [done|by rewrite Z.add_0_r]).
  rewrite Hmag. unfold scaled. set (m := scaled_magnitude d) in *.
  destruct up; [specialize (Hup eq_refl)|specialize (Hdn eq_refl)]; destruct s, (sign_of d); cbn [signed] in *;
    (split; [lia|intros; apply Htie; lia]).
Qed.

(** An integral double converts back to itself. *)
Lemma round_exact s a d : 0 <= a -> IsFinite d = true -> scaled_magnitude d = a * 2 ^ 1074 ->
  scaled_magnitude (round_to_double s a) = scaled_magnitude d.
Proof.
  intros Ha Hf Hd. destruct (Z_le_gt_dec (Z.log2 a) 52) as [He|He]; [by rewrite round_small|].
  destruct (scaled_sign s a _ Ha eq_refl) as [_ ->].
  assert (Ha0 : 0 < a) by (destruct (Z.eq_dec a 0) as [->|]; [cbn in He|]; lia).
  assert (Hw : 0 < 2 ^ 1074) by (apply Z.pow_pos_nonneg; lia).
  destruct (round_adjacent a) as (L & up & HL & -> & Hlh & Hup & Hdn & _).
  { split; [lia|]. assert (Z.log2 a < 1024); [|lia]. apply Z.log2_lt_pow2; [done|].
    apply IsFinite_iff in Hf. apply (Z.mul_lt_mono_pos_r (2 ^ 1074)); [done|]. rewrite <- Hd, <- Z.pow_add_r by lia.
    destruct (Z.eq_dec (biased_of d) 0) as [E|E].
    - unfold scaled_magnitude. rewrite E. cbn [Z.eqb]. pose proof (fraction_bound d).
      apply Z.lt_le_trans with (2 ^ 52); [lia|]. apply Z.pow_le_mono_r; lia.
    - destruct (scaled_magnitude_bounds d E) as [_ Hup]. eapply Z.lt_le_trans; [exact Hup|].
      rewrite <- Z.pow_add_r by (pose proof (biased_bound d); lia). apply Z.pow_le_mono_r; lia. }
  cbv zeta in *. rewrite <- Hd in *. pose proof (no_double_between L d ltac:(lia)) as Hbet.
  destruct up; cbn [Z.b2z]; [specialize (Hup eq_refl)|rewrite Z.add_0_r]; lia.
Qed.
End nearest.

(** * Comparing with a double *)

Section comparison.
Context {P : Platform}.

(** [X] is the magnitude's top 64 bits (with zeros below if it is shorter),
    [rest] whether the bits below are nonzero. *)
Definition high64_post (x : bigint) (e : Z) (s : Z * Z * bool) : Prop :=
  let '(X, L, rest) := s in
  0 <= L <= digitLength x /\
  X * 2 ^ e <= absval x * 2 ^ 63 < (X + 1) * 2 ^ e /\
  (rest = false /\ pv (digits x) L = 0 <-> absval x * 2 ^ 63 = X * 2 ^ e).

(** A magnitude of [i + 1 + k] bits whose digits below [D] were not read. *)
Lemma high64_intro x X D c e (rest : bool) : wf x -> 0 <= D < digitLength x -> 0 <= c <= 63 ->
  e = D * DigitBits + 63 + c -> X = high x D / 2 ^ c ->
  (rest = false <-> high x D mod 2 ^ c = 0) -> high64_post x e (X, D, rest).
Proof.
  intros Hx HD Hc -> -> Hl. pose proof (wf_digits x Hx) as Hd.
  destruct (absval_split x D Hd) as [Ha _]; [lia|]. pose proof (pv_bound (digits x) D Hd ltac:(lia)) as Hpv.
  pose proof DigitBits_pos. assert (HDB : 0 <= D * DigitBits) by (apply Z.mul_nonneg_nonneg; lia).
  assert (EB : 2 ^ (D * DigitBits + 63 + c) = Base ^ D * 2 ^ 63 * 2 ^ c).
  { unfold Base. rewrite <- Z.pow_mul_r, <- !Z.pow_add_r by lia. f_equal. lia. }
  unfold high64_post. rewrite EB. set (h := high x D) in *. set (B := Base ^ D) in *. set (p := pv (digits x) D) in *.
  assert (H2 : 0 < 2 ^ c) by (apply Z.pow_pos_nonneg; lia).
  pose proof (Z.div_mod h (2 ^ c) ltac:(lia)) as Hdm. pose proof (Z.mod_pos_bound h (2 ^ c) H2) as Hm.
  set (q := h / 2 ^ c) in *. set (r := h mod 2 ^ c) in *.
  assert (E : absval x * 2 ^ 63 = q * (B * 2 ^ 63 * 2 ^ c) + (r * B + p) * 2 ^ 63) by (rewrite Ha, Hdm; ring).
  assert (0 <= r * B) by (apply Z.mul_nonneg_nonneg; lia).
  assert ((r + 1) * B <= 2 ^ c * B) by (apply Z.mul_le_mono_nonneg_r; lia).
  split; [lia|]. split.
  - rewrite E. split; [lia|]. rewrite Z.mul_add_distr_r. lia.
  - rewrite E, Hl. split; [intros [-> ->]; lia|]. intros Hz.
    assert (Hs : r * B = 0 /\ p = 0) by lia. destruct Hs as [Hs ->]. apply Z.mul_eq_0 in Hs. lia.
Qed.

Lemma high64_short x e : wf x -> 0 <= e <= 63 -> 0 < digitLength x ->
  high64_post x e (absval x * 2 ^ (63 - e), 0, false).
Proof.
  intros Hx He Hn. assert (H2 : 0 < 2 ^ e) by (apply Z.pow_pos_nonneg; lia).
  assert (E : 2 ^ 63 = 2 ^ (63 - e) * 2 ^ e) by (rewrite <- Z.pow_add_r by lia; f_equal; lia).
  split; [lia|]. rewrite E. split; [lia|]. rewrite pv_0. split; [lia|done].
Qed.

(** The bits of a digit below [c] inside the number it ends. *)
Lemma low_bits_of h d w c : 0 <= c <= w -> (h * 2 ^ w + d) mod 2 ^ c = d mod 2 ^ c.
Proof.
  intros Hc. replace (2 ^ w) with (2 ^ (w - c) * 2 ^ c) by (rewrite <- Z.pow_add_r by lia; f_equal; lia).
  rewrite Z.mul_assoc, Z.add_comm. apply Z.mod_add, Z.pow_nonzero; lia.
Qed.

Lemma negb_eqb0 z : negb (z =? 0) = false <-> z = 0.
Proof. by rewrite negb_false_iff, Z.eqb_eq. Qed.

Lemma high64_bits_spec x s : wf x -> 0 < digitLength x -> 0 <= s < DigitBits ->
  let msd := zget (digits x) (digitLength x - 1) in
  Z.log2 msd = DigitBits - 1 - s ->
  let e := digitLength x * DigitBits - s - 1 in
  wp (high64_bits x msd s (e + 1)) (high64_post x e) no_error.
Proof.
  intros Hx Hlen Hs msd Hlog e. pose proof (wf_digits x Hx) as Hd.
  destruct (top_digit_bits x s Hx Hlen Hs Hlog) as [_ (g & Hg & Hmg)]. fold msd in Hmg.
  pose proof (high_top x Hd Hlen) as Htop. fold msd in Htop. set (n := digitLength x) in *.
  assert (Hdb : DigitBits <= 64) by (destruct DigitBits_cases as [-> | ->]; lia).
  unfold high64_bits. fold n. set (f := DigitBits - s). assert (Hf : 1 <= f <= DigitBits) by lia.
  assert (Hmf : 0 <= msd < 2 ^ f).
  { replace f with (1 + (DigitBits - 1 - s)) by lia. rewrite Z.pow_add_r by lia. lia. }
  clear g Hg Hmg. wp_step. apply wp_shl_w; [lia|].
  rewrite (Z.mod_small (msd * _)).
  2:{ apply moved_up_bound; lia. }
  assert (He : e = (n - 1) * DigitBits + f - 1) by (subst e; lia). clearbody e. subst e.
  wp_step; bsplit.
  2:{ wp_step. assert (Hor : f = 64 \/ (n = 1 /\ f < 64)).
      { destruct (Z.eq_dec f 64); [by left|right]. split; [|lia].
        destruct (Z.eq_dec n 1); [done|]. exfalso. assert (DigitBits <= (n - 1) * DigitBits); [|lia].
        rewrite <- (Z.mul_1_l DigitBits) at 1. apply Z.mul_le_mono_nonneg_r; lia. }
      destruct Hor as [E|[E Hf64]].
      - assert (DigitBits = 64) as ED by lia. apply (high64_intro _ _ _ 0); [done|fold n; lia|lia|rewrite ED, E; lia| |].
        + rewrite Htop, E, Z.pow_0_r, Z.div_1_r. lia.
        + rewrite Z.pow_0_r, Z.mod_1_r. done.
      - rewrite E in *. replace (1 - 1) with 0 in * by lia.
        assert (Ha : msd = absval x) by (rewrite <- Htop; apply high_0). rewrite Ha.
        replace (64 - f) with (63 - (0 * DigitBits + f - 1)) by lia. apply high64_short; [done|lia|fold n; lia]. }
  assert (Hn2 : 2 <= n).
  { destruct (Z.eq_dec n 1) as [E|]; [|lia]. rewrite E in Hc. lia. }
  wp_step. wp_step; [lia|]. wp_step. replace (n - 1 - 1) with (n - 2) by lia. apply wp_digit; [fold n; lia|].
  pose proof (high_step x (n - 2) Hd ltac:(fold n; lia)) as Hsec. replace (n - 2 + 1) with (n - 1) in Hsec by lia.
  pose proof (digits_ok_get (digits x) (n - 2) Hd) as Hok. set (d2 := zget (digits x) (n - 2)) in *.
  rewrite Htop in Hsec. unfold digit_ok in Hok.
  destruct DigitBits_cases as [E|E]; rewrite E in *; cbn [Z.eqb Pos.eqb]; unfold Base in Hok, Hsec; rewrite E in Hok, Hsec.
  - wp_step. apply wp_shl_w; [lia|]. cbv zeta.
    assert (Hsh : d2 * 2 ^ (64 - (f + 32)) mod 2 ^ 64 = d2 * 2 ^ (32 - f)).
    { replace (64 - (f + 32)) with (32 - f) by lia. apply Z.mod_small.
      split; [apply Z.mul_nonneg_nonneg; [lia|apply Z.pow_nonneg; lia]|].
      apply Z.lt_le_trans with (2 ^ 32 * 2 ^ (32 - f)).
      - apply Z.mul_lt_mono_pos_r; [apply Z.pow_pos_nonneg|]; lia.
      - rewrite <- Z.pow_add_r by lia. apply Z.pow_le_mono_r; lia. }
    assert (Hlor : Z.lor (msd * 2 ^ (64 - f)) (d2 * 2 ^ (32 - f)) = (msd * 2 ^ 32 + d2) * 2 ^ (32 - f)).
    { rewrite lor_disjoint_add; [|lia|].
      - replace (64 - f) with (32 + (32 - f)) by lia. rewrite Z.pow_add_r by lia. lia.
      - split; [apply Z.mul_nonneg_nonneg; [lia|apply Z.pow_nonneg; lia]|].
        replace (64 - f) with (32 + (32 - f)) by lia. rewrite Z.pow_add_r by lia.
        apply Z.mul_lt_mono_pos_r; [apply Z.pow_pos_nonneg|]; lia. }
    rewrite Hsh, Hlor, <- Hsec. wp_step; bsplit.
    + wp_step. replace (n - 2 - 1) with (n - 3) by lia. apply wp_digit; [fold n; lia|].
      pose proof (high_step x (n - 3) Hd ltac:(fold n; lia)) as Hthi. replace (n - 3 + 1) with (n - 2) in Hthi by lia.
      pose proof (digits_ok_get (digits x) (n - 3) Hd) as Ht. set (d3 := zget (digits x) (n - 3)) in *.
      unfold digit_ok in Ht. unfold Base in Ht, Hthi. rewrite E in Ht, Hthi.
      replace (64 - (f + 32)) with (32 - f) by lia. replace (32 - (32 - f)) with f by lia.
      wp_step. apply wp_shr_w; [lia|]. wp_step. apply wp_shl; [lia|]. wp_step.
      rewrite (next_filled _ _ f 32), <- Hthi by lia.
      apply (high64_intro _ _ _ f); [done|fold n; lia|lia|rewrite E; lia|done|].
      rewrite Hthi, low_bits_of, negb_eqb0 by lia. rewrite <- E at 1. apply shifted_out_zero. lia.
    + wp_step. destruct (Z.eq_dec f 32) as [Ef|Ef].
      * rewrite Ef. apply (high64_intro _ _ _ 0); [done|fold n; lia|lia|rewrite E; lia| |].
        -- rewrite Z.sub_diag, Z.pow_0_r, Z.div_1_r. lia.
        -- rewrite Z.pow_0_r, Z.mod_1_r. done.
      * assert (En : n = 2) by (apply andb_false_iff in Hc0 as [Hc0|Hc0]; bsplit; lia).
        rewrite En in *. replace (2 - 2) with 0 in * by lia. rewrite high_0.
        replace (32 - f) with (63 - ((2 - 1) * 32 + f - 1)) by lia. apply high64_short; [done|lia|fold n; lia].
  - replace (64 - (64 - f)) with f by lia.
    wp_step. apply wp_shr_w; [lia|]. wp_step. apply wp_shl; [lia|]. wp_step.
    rewrite (next_filled _ _ f 64), <- Hsec by lia.
    apply (high64_intro _ _ _ f); [done|fold n; lia|lia|rewrite E; lia|done|].
    rewrite Hsec, low_bits_of, negb_eqb0 by lia. rewrite <- E at 1. apply shifted_out_zero. lia.
Qed.

(** A double of exponent [e], in terms of its 53-bit mantissa. *)
Lemma scaled_exponent y : 0 <= ExponentComponent y ->
  let M := 2 ^ 52 + fraction_of y in
  let e := ExponentComponent y in
  scaled_magnitude y = M * 2 ^ 11 * 2 ^ e * 2 ^ 1011 /\
  2 ^ e * 2 ^ 1074 <= scaled_magnitude y < 2 ^ (e + 1) * 2 ^ 1074.
Proof.
  intros He M e. subst e. rewrite ExponentComponent_eq in *. pose proof (fraction_bound y). unfold scaled_magnitude.
  replace (biased_of y =? 0) with false by lia. fold M.
  set (e := biased_of y - 1023) in *. replace (biased_of y - 1) with (11 + e + 1011) by lia.
  rewrite !Z.pow_add_r by lia. split; [lia|]. change 1074 with (52 + 11 + 1011). rewrite !(Z.pow_add_r 2) by lia.
  assert (H0 : 0 < 2 ^ e) by (apply Z.pow_pos_nonneg; lia). assert (H1 : 0 < 2 ^ 1011) by (apply Z.pow_pos_nonneg; lia).
  revert H1. generalize (2 ^ 1011). intros w H1. assert (0 < 2 ^ e * w) by (apply Z.mul_pos_pos; lia).
  assert (Hw : 0 < 2 ^ 11 * 2 ^ e * w) by lia.
  assert (2 ^ 52 * (2 ^ 11 * 2 ^ e * w) <= M * (2 ^ 11 * 2 ^ e * w)) by (apply Z.mul_le_mono_nonneg_r; lia).
  assert (M * (2 ^ 11 * 2 ^ e * w) < 2 ^ 53 * (2 ^ 11 * 2 ^ e * w)) by (apply Z.mul_lt_mono_pos_r; lia).
  split; lia.
Qed.

Lemma signed_sgn s d : Z.sgn (signed s d) = signed s (Z.sgn d).
Proof. destruct s; cbn [signed]; [apply Z.sgn_opp|done]. Qed.

(** The answer for operands of one sign. *)
Lemma same_sign_answer (s : bool) d : 
  (0 < d -> (if s then -1 else 1) = Z.sgn (signed s d)) /\
  (d < 0 -> (if s then 1 else -1) = Z.sgn (signed s d)) /\
  (d = 0 -> 0 = Z.sgn (signed s d)).
Proof. rewrite signed_sgn. destruct s; cbn [signed]; lia. Qed.

Lemma shl_mantissa f : 0 <= f < 2 ^ 52 ->
  Z.lor (Z.shiftl 1 kSignificandWidth) f * 2 ^ (64 - kSignificandWidth - 1) mod 2 ^ 64 = (2 ^ 52 + f) * 2 ^ 11.
Proof.
  intros Hf. rewrite Z.lor_comm, lor_implicit_bit by done. change (64 - kSignificandWidth - 1) with 11.
  apply Z.mod_small. lia.
Qed.

(** The comparison of magnitudes once the signs agree. *)
Lemma compare_magnitudes_spec x y (s : bool) : wf x -> 0 < digitLength x -> is_double y -> IsFinite y = true ->
  let A := absval x * 2 ^ 1074 - scaled_magnitude y in
  wp (let exponent := ExponentComponent y in
      if exponent <? 0 then mret (if s then -1 else 1)
      else
        let xLength := digitLength x in
        moz_assert (xLength >? 0);;
        xMSD ← digit x (xLength - 1);
        shift ← DigitLeadingZeroes xMSD;
        let xBitLength := xLength * DigitBits - shift in
        let yBitLength := exponent + 1 in
        if xBitLength <? yBitLength then mret (if s then 1 else -1)
        else if xBitLength >? yBitLength then mret (if s then -1 else 1)
        else
          let significandBits := Z.land y kSignificandBits in
          yHigh64Bits ← shl_w 64 (Z.lor (Z.shiftl 1 kSignificandWidth) significandBits) (64 - kSignificandWidth - 1);
          '(xHigh64Bits, xLength, xHasNonZeroLeftoverBits) ← high64_bits x xMSD shift xBitLength;
          if yHigh64Bits >? xHigh64Bits then mret (if s then 1 else -1)
          else if xHigh64Bits >? yHigh64Bits then mret (if s then -1 else 1)
          else if xHasNonZeroLeftoverBits : bool then mret (if s then -1 else 1)
          else
            more ← any_digit_below x xLength;
            if more : bool then mret (if s then -1 else 1) else mret 0)
    (fun c => c = Z.sgn (signed s A)) no_error.
Proof.
  intros Hx Hlen Hy Hf A. destruct (same_sign_answer s A) as (Hgt & Hlt & Heq).
  assert (Hw : 0 < 2 ^ 1074) by (apply Z.pow_pos_nonneg; lia).
  pose proof (wf_lower x Hx Hlen) as Hlow. pose proof (Base_pow_pos (digitLength x - 1) ltac:(lia)).
  assert (Ha : 0 < absval x) by lia. pose proof (Z.log2_spec (absval x) Ha) as Hl.
  cbv zeta. wp_step; bsplit.
  { wp_step. apply Hgt. assert (Hz : scaled_magnitude y / 2 ^ 1074 = 0) by (apply small_magnitude; rewrite ExponentComponent_eq in Hc; lia).
    assert (scaled_magnitude y < 2 ^ 1074) by (apply Z.div_small_iff in Hz; [pose proof (scaled_magnitude_nonneg y); lia|lia]).
    assert (1 * 2 ^ 1074 <= absval x * 2 ^ 1074) by (apply Z.mul_le_mono_nonneg_r; lia). lia. }
  destruct (scaled_exponent y Hc) as [Hm Hmb]. set (e := ExponentComponent y) in *. pose proof (fraction_bound y) as Hfr.
  wp_step. wp_step; [lia|]. wp_step. apply wp_digit; [lia|]. wp_step.
  assert (Hmsd : zget (digits x) (digitLength x - 1) <> 0) by (apply Hx; lia).
  apply wp_DigitLeadingZeroes; [by apply wf_digit|done|]. intros sh Hsh _ Hlog.
  destruct (top_digit_bits x sh Hx Hlen Hsh Hlog) as [He _].
  set (b := digitLength x * DigitBits - sh) in *.
  rewrite He in Hl. assert (Hb : 0 <= b - 1) by (rewrite <- He; apply Z.log2_nonneg).
  replace (Z.succ (b - 1)) with b in Hl by lia.
  wp_step; bsplit.
  { wp_step. apply Hlt. assert (2 ^ b <= 2 ^ e) by (apply Z.pow_le_mono_r; lia).
    assert (absval x * 2 ^ 1074 < 2 ^ b * 2 ^ 1074) by (apply Z.mul_lt_mono_pos_r; lia).
    assert (2 ^ b * 2 ^ 1074 <= 2 ^ e * 2 ^ 1074) by (apply Z.mul_le_mono_nonneg_r; lia). lia. }
  wp_step; bsplit.
  { wp_step. apply Hgt. assert (2 ^ (e + 1) <= 2 ^ (b - 1)) by (apply Z.pow_le_mono_r; lia).
    assert (2 ^ (e + 1) * 2 ^ 1074 <= absval x * 2 ^ 1074) by (apply Z.mul_le_mono_nonneg_r; lia). lia. }
  assert (Eb : b = e + 1) by lia. wp_step. apply wp_shl_w; [done|].
  rewrite land_significand, shl_mantissa by done. wp_step.
  pose proof (high64_bits_spec x sh Hx Hlen Hsh Hlog) as Hspec. cbv zeta in Hspec. fold b in Hspec.
  rewrite Eb, Z.add_simpl_r in Hspec. rewrite Eb. wp_call Hspec. clear Hspec.
  intros [[X L] rest] (HL & HX & Hz). set (Y := (2 ^ 52 + fraction_of y) * 2 ^ 11) in *.
  assert (EA : A = (absval x * 2 ^ 63 - Y * 2 ^ e) * 2 ^ 1011).
  { unfold A. rewrite Hm. change 1074 with (63 + 1011). rewrite Z.pow_add_r by lia. ring. }
  assert (H1011 : 0 < 2 ^ 1011) by (apply Z.pow_pos_nonneg; lia). assert (H2e : 0 < 2 ^ e) by (apply Z.pow_pos_nonneg; lia).
  clear Hm Hmb Hw. clearbody A. revert EA H1011. generalize (2 ^ 1011). intros w EA Hw0.
  assert (Hpos : Y * 2 ^ e < absval x * 2 ^ 63 -> 0 < A) by (intros; rewrite EA; apply Z.mul_pos_pos; lia).
  wp_step; bsplit.
  { wp_step. apply Hlt. rewrite EA. apply Z.mul_neg_pos; [|done].
    assert ((X + 1) * 2 ^ e <= Y * 2 ^ e) by (apply Z.mul_le_mono_nonneg_r; lia). lia. }
  wp_step; bsplit.
  { wp_step. apply Hgt, Hpos. assert ((Y + 1) * 2 ^ e <= X * 2 ^ e) by (apply Z.mul_le_mono_nonneg_r; lia). lia. }
  assert (EXY : X = Y) by lia. rewrite EXY in *.
  destruct rest.
  { wp_step. apply Hgt, Hpos. destruct (Z.eq_dec (absval x * 2 ^ 63) (Y * 2 ^ e)) as [E|]; [|lia].
    apply Hz in E as [E _]. done. }
  wp_step. wp_call any_digit_below_spec; [done|done|]. intros more ->.
  destruct (Z.eqb_spec (pv (digits x) L) 0) as [E|E]; cbn [negb]; wp_step.
  - apply Heq. rewrite EA. assert (absval x * 2 ^ 63 = Y * 2 ^ e) by (apply Hz; done). lia.
  - apply Hgt, Hpos. destruct (Z.eq_dec (absval x * 2 ^ 63) (Y * 2 ^ e)) as [E'|]; [|lia].
    apply Hz in E' as [_ E']. done.
Qed.

(** The three-way order of a BigInt and a double that is not NaN. *)
Definition compare_value (x y : Z) : Z :=
  if IsFinite y then Z.sgn (x * 2 ^ 1074 - scaled y) else if sign_of y then 1 else -1.

Lemma double_lt_zero_sign y : IsFinite y = true -> double_is_zero y = false -> double_lt_zero y = sign_of y.
Proof. intros Hf Hz. unfold double_lt_zero. by rewrite finite_not_nan, Hz. Qed.

Lemma infinite_nonzero y : IsNaN y = false -> IsFinite y = false -> double_gt_zero y = negb (sign_of y).
Proof.
  intros Hn Hf. unfold double_gt_zero. rewrite Hn. cbn [negb andb].
  destruct (double_is_zero y) eqn:Hz; [|done]. unfold double_is_zero in Hz. apply Z.eqb_eq, fields_zero in Hz.
  assert (IsFinite y = true) by (apply IsFinite_iff; lia). congruence.
Qed.

Lemma compare_double_spec x y : wf x -> is_double y -> IsNaN y = false ->
  wp (compare_double x y) (fun c => c = compare_value (value x) y) no_error.
Proof.
  intros Hx Hy Hn. unfold compare_double, compare_value. wp_step. wp_step; [by rewrite Hn|]. cbv zeta.
  destruct (IsFinite y) eqn:Hf; cbn [negb].
  2:{ wp_step. rewrite infinite_nonzero by done. by destruct (sign_of y). }
  pose proof (double_is_zero_iff y) as Hz. pose proof (double_gt_zero_iff y Hf) as Hg.
  pose proof (double_lt_zero_iff y Hf) as Hl.
  assert (Hw : 0 < 2 ^ 1074) by (apply Z.pow_pos_nonneg; lia).
  assert (Hmag : forall z, 0 < z -> 0 < z * 2 ^ 1074) by (intros; by apply Z.mul_pos_pos).
  wp_step.
  { rewrite zero_value, Z.mul_0_l, Z.sub_0_l, Z.sgn_opp by done.
    destruct (double_is_zero y) eqn:E; [wp_step; rewrite (proj1 Hz eq_refl); done|].
    destruct (double_gt_zero y) eqn:Eg; wp_step.
    - rewrite Z.sgn_pos by (by apply Hg). done.
    - assert (scaled y <> 0) by (rewrite <- Hz; congruence). assert (~ 0 < scaled y) by (rewrite <- Hg; congruence).
      rewrite Z.sgn_neg by lia. done. }
  apply nonzero_length in Hc. pose proof (wf_lower x Hx Hc). pose proof (Base_pow_pos (digitLength x - 1) ltac:(lia)).
  assert (Ha : 0 < absval x * 2 ^ 1074) by (apply Hmag; lia). rewrite value_signed.
  destruct (double_is_zero y) eqn:E.
  { wp_step. rewrite (proj1 Hz eq_refl), Z.sub_0_r. destruct (isNegative x); cbn [signed]; lia. }
  rewrite double_lt_zero_sign by done. pose proof (scaled_magnitude_nonneg y) as Hm. unfold scaled.
  destruct (Bool.eqb (isNegative x) (sign_of y)) eqn:Es; cbn [negb].
  - apply eqb_prop in Es. rewrite <- Es.
    eapply wp_weaken_ok; [by apply (compare_magnitudes_spec x y (isNegative x))|]. intros c ->.
    f_equal. destruct (isNegative x); cbn [signed]; lia.
  - wp_step. destruct (isNegative x), (sign_of y); cbn [signed] in *; try discriminate; lia.
Qed.

Lemma equal_double_spec x y : wf x -> is_double y ->
  wp (equal_double x y) (fun b => b = true <-> IsFinite y = true /\ value x * 2 ^ 1074 = scaled y) no_error.
Proof.
  intros Hx Hy. unfold equal_double. destruct (IsNaN y) eqn:Hn.
  { wp_step. split; [done|]. intros [Hf _]. rewrite finite_not_nan in Hn; done. }
  wp_step. wp_call compare_double_spec; [done..|]. intros c ->. wp_step. unfold compare_value.
  destruct (IsFinite y); [|destruct (sign_of y); cbn; split; [done|intros [? _]; done|done|intros [? _]; done]].
  rewrite Z.eqb_eq, Z.sgn_null_iff. split; [intros; split; [done|lia]|intros [_ ?]; lia].
Qed.

Lemma lessThan_double_spec x y : wf x -> is_double y ->
  wp (lessThan_double x y)
    (fun r => r = if IsNaN y then None else Some (compare_value (value x) y <? 0)) no_error /\
  wp (double_lessThan y x)
    (fun r => r = if IsNaN y then None else Some (0 <? compare_value (value x) y)) no_error.
Proof.
  intros Hx Hy. unfold lessThan_double, double_lessThan. destruct (IsNaN y) eqn:Hn.
  { split; by wp_step. }
  split; wp_step; (wp_call compare_double_spec; [done..|]); intros c ->; wp_step; f_equal; lia.
Qed.
End comparison.
