(* ===== verification/BigIntString.v ===== *)
(** Reading BigInts (vm/BigIntType.cpp: [calculateMaximumDigitsRequired],
    [parseLiteralDigits], [parseLiteral], [literalIsZero],
    [ParseStringBigIntLiteral]; util/Unicode.h: [IsSpace]).  A range of
    characters is the list of their codes. *)
From S2P Require Import Prelude Words CheckedArithmetic BigIntRep BigIntMul BigIntDiv BigIntConvert Numerals.

(** * Definitions *)

(** The logarithm of the radix, times 32 and rounded up. *)
Definition maxBitsPerCharTable : list Z :=
  [0;   0;   32;  51;  64;  75;  83;  90;  96;
   102; 107; 111; 115; 119; 122; 126; 128;
   131; 134; 136; 139; 141; 143; 145; 147;
   149; 151; 153; 154; 156; 158; 159; 160;
   162; 163; 165; 166].

Definition bitsPerCharTableShift : Z := 5.
Definition bitsPerCharTableMultiplier : Z := Z.shiftl 1 bitsPerCharTableShift.

Section parse.
Context {P : Platform} {K : DigitKernel}.

Definition calculateMaximumDigitsRequired (radix charcount : Z) : M Z :=
  moz_assert ((2 <=? radix) && (radix <=? 36));;
  let bitsPerChar := zget maxBitsPerCharTable radix in
  moz_assert (charcount >? 0);;
  moz_assert (charcount <=? (2 ^ 64 - 1) / bitsPerChar);;
  n ← CeilDiv (uint64 (charcount * bitsPerChar)) (DigitBits * bitsPerCharTableMultiplier);
  if n >? MaxDigitLength then throw LengthLimit else mret n.

Fixpoint skip_zeroes (start : list Z) : list Z :=
  match start with
  | c :: rest => if c =? 48 then skip_zeroes rest else start
  | [] => []
  end.

(** The value of a digit character, in either case; the limits are computed
    in 32-bit unsigned arithmetic. *)
Definition char_digit (radix c : Z) : option Z :=
  let limit0 := 48 + Z.min radix 10 in
  let limita := uint32 (97 + uint32 (radix - 10)) in
  let limitA := uint32 (65 + uint32 (radix - 10)) in
  if (c >=? 48) && (c <? limit0) then Some (c - 48)
  else if (c >=? 97) && (c <? limita) then Some (c - 97 + 10)
  else if (c >=? 65) && (c <? limitA) then Some (c - 65 + 10)
  else None.

(** The loop over the characters; [None] sets [haveParseError]. *)
Fixpoint parse_chars (radix : Z) (chars : list Z) (result : bigint) : M bigint :=
  match chars with
  | [] => mret result
  | c :: chars =>
      match char_digit radix c with
      | None => throw BigIntInvalidSyntax
      | Some digit =>
          result ← inplaceMultiplyAdd result radix digit;
          parse_chars radix chars result
      end
  end.

Definition parseLiteralDigits (chars : list Z) (radix : Z) (negative : bool) : M bigint :=
  moz_assert (negb (zlen chars =? 0));;
  match skip_zeroes chars with
  | [] => zero
  | start =>
      length ← calculateMaximumDigitsRequired radix (zlen start);
      result ← createUninitialized length negative;
      let result := initializeDigitsToZero result in
      result ← parse_chars radix start result;
      destructivelyTrimHighZeroDigits result
  end.

(** [start[1]] is one of the two letters. *)
Definition is_prefix (chars : list Z) (lower upper : Z) : bool :=
  match chars with
  | c0 :: c1 :: _ :: _ => (c0 =? 48) && ((c1 =? lower) || (c1 =? upper))
  | _ => false
  end.

Definition parseLiteral (chars : list Z) : M bigint :=
  moz_assert (negb (zlen chars =? 0));;
  if is_prefix chars 98 66 then parseLiteralDigits (drop 2 chars) 2 false
  else if is_prefix chars 120 88 then parseLiteralDigits (drop 2 chars) 16 false
  else if is_prefix chars 111 79 then parseLiteralDigits (drop 2 chars) 8 false
  else parseLiteralDigits chars 10 false.

Definition literalIsZeroNoRadix (chars : list Z) : M bool :=
  moz_assert (negb (zlen chars =? 0));;
  match skip_zeroes chars with
  | [] => mret true
  | _ => mret false
  end.

Definition literalIsZero (chars : list Z) : M bool :=
  moz_assert (negb (zlen chars =? 0));;
  if is_prefix chars 98 66 || is_prefix chars 120 88 || is_prefix chars 111 79
  then literalIsZeroNoRadix (drop 2 chars) else literalIsZeroNoRadix chars.

(** ** String to BigInt *)

(** [unicode::IsSpace(char16_t)]; the table of the characters above ASCII is
    generated from the Unicode database and is a parameter. *)
Section space.
Context (CharInfo_isSpace : Z -> bool).

Definition js_isspace (ch : Z) : bool := (9 <=? ch) && (ch <=? 13) || (ch =? 32).

Definition NO_BREAK_SPACE : Z := 160.

Definition IsSpace (ch : Z) : bool :=
  if ch <? 128 then js_isspace ch
  else if ch =? NO_BREAK_SPACE then true
  else CharInfo_isSpace ch.

Fixpoint skip_space (chars : list Z) : list Z :=
  match chars with
  | c :: rest => if IsSpace c then skip_space rest else chars
  | [] => []
  end.

(** Trimming at both ends. *)
Definition trim_space (chars : list Z) : list Z := rev (skip_space (rev (skip_space chars))).

Definition ParseStringBigIntLiteral (range : list Z) : M bigint :=
  match trim_space range with
  | [] => zero
  | (c :: rest) as chars =>
      if (zlen chars >? 1) && (c =? 43) then parseLiteralDigits rest 10 false
      else if (zlen chars >? 1) && (c =? 45) then parseLiteralDigits rest 10 true
      else parseLiteral chars
  end.
End space.
End parse.

(** * What a literal means *)

(** The value of a numeral after the prefix value [acc]; [None] when a
    character is not a digit of the radix. *)
Fixpoint literal_value (radix acc : Z) (chars : list Z) : option Z :=
  match chars with
  | [] => Some acc
  | c :: chars =>
      match char_digit radix c with
      | Some d => literal_value radix (acc * radix + d) chars
      | None => None
      end
  end.

Definition bits_per_char (radix : Z) : Z := zget maxBitsPerCharTable radix.

(** The numeral is refused before it is read: its length says it may need
    more digits than a BigInt has. *)
Definition literal_too_long (radix : Z) (chars : list Z) : Prop :=
  MaxBitLength * bitsPerCharTableMultiplier < zlen (skip_zeroes chars) * bits_per_char radix.

Definition MaxStringLength : Z := 2 ^ 30 - 2.

Section parsing.
Context {P : Platform} {K : DigitKernel}.

Lemma in_radix_range radix : 2 <= radix <= 36 -> radix ∈ seqZ 2 35.
Proof. intros H. apply elem_of_seqZ. lia. Qed.

Lemma bits_per_char_bounds radix : 2 <= radix <= 36 ->
  32 <= bits_per_char radix <= 166 /\ radix ^ 32 <= 2 ^ bits_per_char radix /\ 2 ^ (bits_per_char radix - 1) < radix ^ 32.
Proof.
  intros H. apply in_radix_range in H.
  assert (Hall : forallb (fun r => (32 <=? bits_per_char r) && (bits_per_char r <=? 166) &&
            (r ^ 32 <=? 2 ^ bits_per_char r) && (2 ^ (bits_per_char r - 1) <? r ^ 32)) (seqZ 2 35) = true) by (vm_compute; reflexivity).
  rewrite forallb_forall in Hall. apply list_elem_of_In in H. specialize (Hall radix H). bsplit. lia.
Qed.

Lemma char_digit_eq radix c : 2 <= radix <= 36 ->
  char_digit radix c =
    if (c >=? 48) && (c <? 48 + Z.min radix 10) then Some (c - 48)
    else if (c >=? 97) && (c <? 87 + radix) then Some (c - 97 + 10)
    else if (c >=? 65) && (c <? 55 + radix) then Some (c - 65 + 10)
    else None.
Proof.
  intros Hr. unfold char_digit, uint32. rewrite !Z.add_mod_idemp_r by lia.
  rewrite (Z.mod_small (97 + _)), (Z.mod_small (65 + _)) by lia.
  replace (97 + (radix - 10)) with (87 + radix) by lia. by replace (65 + (radix - 10)) with (55 + radix) by lia.
Qed.

Lemma char_digit_bound radix c d : 2 <= radix <= 36 -> char_digit radix c = Some d ->
  0 <= d < radix /\ (c <> 48 -> d <> 0).
Proof.
  intros Hr. rewrite char_digit_eq by done.
  destruct ((c >=? 48) && (c <? 48 + Z.min radix 10)) eqn:E1; [intros [= <-]; bsplit; lia|].
  destruct ((c >=? 97) && (c <? 87 + radix)) eqn:E2; [intros [= <-]; bsplit; lia|].
  destruct ((c >=? 65) && (c <? 55 + radix)) eqn:E3; [intros [= <-]; bsplit; lia|done].
Qed.

(** A digit prints as a character that reads back. *)
Lemma char_digit_radixDigit radix d : 2 <= radix <= 36 -> 0 <= d < radix -> char_digit radix (radixDigit d) = Some d.
Proof.
  intros Hr Hd. assert (H : d ∈ seqZ 0 36) by (apply elem_of_seqZ; lia).
  assert (Hall : forallb (fun d => radixDigit d =? (if d <? 10 then 48 + d else 87 + d)) (seqZ 0 36) = true) by (vm_compute; reflexivity).
  rewrite forallb_forall in Hall. apply list_elem_of_In in H. specialize (Hall d H). apply Z.eqb_eq in Hall.
  rewrite Hall, char_digit_eq by done. destruct (Z.ltb_spec d 10).
  - replace ((48 + d >=? 48) && (48 + d <? 48 + Z.min radix 10)) with true by lia. f_equal. lia.
  - replace ((87 + d >=? 48) && (87 + d <? 48 + Z.min radix 10)) with false by lia.
    replace ((87 + d >=? 97) && (87 + d <? 87 + radix)) with true by lia. f_equal. lia.
Qed.

(** A printed numeral reads back. *)
Lemma literal_value_digits radix ds acc : 2 <= radix <= 36 -> digits_in radix ds ->
  literal_value radix acc (radixDigit <$> ds) = Some (acc * radix ^ zlen ds + number_of radix ds).
Proof.
  intros Hr Hds. revert acc. induction Hds as [|d ds Hd _ IH]; intros acc; cbn [literal_value fmap list_fmap number_of].
  - change (zlen []) with 0. rewrite Z.pow_0_r. f_equal. lia.
  - rewrite char_digit_radixDigit, IH, zlen_cons, Z.pow_add_r by (done || pose proof (zlen_nonneg ds); lia).
    f_equal. ring.
Qed.

Lemma literal_value_skip radix chars : 2 <= radix <= 36 ->
  literal_value radix 0 (skip_zeroes chars) = literal_value radix 0 chars.
Proof.
  intros Hr. induction chars as [|c cs IH]; [done|]. cbn [skip_zeroes]. destruct (Z.eqb_spec c 48) as [->|]; [|done].
  rewrite IH. cbn [literal_value]. rewrite char_digit_eq by done.
  replace ((48 >=? 48) && (48 <? 48 + Z.min radix 10)) with true by lia. done.
Qed.

Lemma skip_zeroes_length chars : zlen (skip_zeroes chars) <= zlen chars.
Proof.
  induction chars as [|c cs IH]; [done|]. cbn [skip_zeroes]. destruct (c =? 48); [rewrite zlen_cons; lia|lia].
Qed.

(** The digits allocated hold every numeral of that length. *)
Lemma digits_required radix m n : 2 <= radix <= 36 -> 0 <= m -> 0 <= n ->
  m * bits_per_char radix <= n * (DigitBits * 32) -> radix ^ m <= Base ^ n.
Proof.
  intros Hr Hm Hn Hle. destruct (bits_per_char_bounds radix Hr) as (Hb & Hup & _). pose proof DigitBits_pos.
  destruct (Z_le_gt_dec (radix ^ m) (Base ^ n)) as [|Hgt]; [done|exfalso].
  pose proof (Base_pow_pos n Hn).
  assert (H32 : (Base ^ n) ^ 32 < (radix ^ m) ^ 32) by (apply Z.pow_lt_mono_l; lia).
  assert (HDB : 0 <= DigitBits * (n * 32)) by (apply Z.mul_nonneg_nonneg; lia).
  assert (EB : (Base ^ n) ^ 32 = 2 ^ (DigitBits * (n * 32))) by (unfold Base; rewrite <- !Z.pow_mul_r by lia; f_equal; lia).
  assert (ER : (radix ^ m) ^ 32 = (radix ^ 32) ^ m) by (rewrite <- !Z.pow_mul_r by lia; f_equal; lia).
  rewrite EB, ER in H32.
  assert (Hle32 : (radix ^ 32) ^ m <= (2 ^ bits_per_char radix) ^ m) by (apply Z.pow_le_mono_l; split; [apply Z.pow_nonneg|]; lia).
  rewrite <- (Z.pow_mul_r 2 (bits_per_char radix)) in Hle32 by lia.
  assert (2 ^ (bits_per_char radix * m) <= 2 ^ (DigitBits * (n * 32))) by (apply Z.pow_le_mono_r; lia). lia.
Qed.

Lemma calculateMaximumDigitsRequired_spec radix m : 2 <= radix <= 36 -> 0 < m <= MaxStringLength ->
  wp (calculateMaximumDigitsRequired radix m)
    (fun n => 0 < n <= MaxDigitLength /\ radix ^ m <= Base ^ n /\
       m * bits_per_char radix <= MaxBitLength * bitsPerCharTableMultiplier)
    (fun e => e = LengthLimit /\ MaxBitLength * bitsPerCharTableMultiplier < m * bits_per_char radix).
Proof.
  intros Hr Hm. unfold calculateMaximumDigitsRequired. fold (bits_per_char radix).
  destruct (bits_per_char_bounds radix Hr) as (Hb & _). unfold MaxStringLength in Hm.
  wp_step. wp_step; [lia|]. wp_step. wp_step; [lia|]. wp_step.
  assert (Hprod : 0 < m * bits_per_char radix <= (2 ^ 30 - 2) * 166) by (split; [apply Z.mul_pos_pos|apply Z.mul_le_mono_nonneg]; lia).
  wp_step.
  { apply Z.leb_le. apply Z.div_le_lower_bound; [lia|]. lia. }
  unfold uint64. rewrite Z.mod_small by lia. set (k := m * bits_per_char radix) in *.
  change bitsPerCharTableMultiplier with 32. pose proof DigitBits_pos.
  unfold CeilDiv. wp_step. wp_step. wp_step; [lia|]. wp_step.
  pose proof (Z.div_mod (k - 1) (DigitBits * 32)) as Hdm. pose proof (Z.mod_pos_bound (k - 1) (DigitBits * 32)) as Hmb.
  assert (0 <= (k - 1) / (DigitBits * 32)) by (apply Z.div_pos; lia).
  rewrite MaxBitLength_digits. wp_step; bsplit.
  - apply wp_throw; [split; [done|]|done]. set (q := (k - 1) / (DigitBits * 32)) in *.
    assert (MaxDigitLength * (DigitBits * 32) <= q * (DigitBits * 32)) by (apply Z.mul_le_mono_nonneg_r; lia). lia.
  - wp_step. split; [lia|]. split; [apply digits_required; [done|lia|lia|]; fold k; lia|].
    set (q := (k - 1) / (DigitBits * 32)) in *. assert (q * (DigitBits * 32) <= (MaxDigitLength - 1) * (DigitBits * 32)) by (apply Z.mul_le_mono_nonneg_r; lia).
    fold k. lia.
Qed.

Lemma radix_digit_ok radix d : 2 <= radix <= 36 -> 0 <= d <= radix -> digit_ok d.
Proof. intros. pose proof Base_big. unfold digit_ok. lia. Qed.

Lemma parse_chars_spec radix neg len chars : 2 <= radix <= 36 -> forall r v,
  shape neg len r -> absval r = v -> (v + 1) * radix ^ zlen chars <= Base ^ len ->
  wp (parse_chars radix chars r)
    (fun r' => exists v', literal_value radix v chars = Some v' /\ shape neg len r' /\ absval r' = v')
    (fun e => e = BigIntInvalidSyntax /\ literal_value radix v chars = None).
Proof.
  intros Hr. induction chars as [|c cs IH]; intros r v Hs Hv Hfit; cbn [parse_chars literal_value].
  { wp_step. by exists v. }
  destruct (char_digit radix c) as [d|] eqn:Hc; [|by apply wp_throw].
  destruct (char_digit_bound radix c d Hr Hc) as [Hd _]. pose proof Hs as (Hneg & Hlen & Hok).
  rewrite zlen_cons, Z.pow_add_r, Z.pow_1_r in Hfit by (pose proof (zlen_nonneg cs); lia).
  assert (Hp : 0 < radix ^ zlen cs) by (apply Z.pow_pos_nonneg; [lia|apply zlen_nonneg]).
  assert (Hv0 : 0 <= v) by (subst v; by apply absval_bound).
  assert (Hstep : (v * radix + d + 1) * radix ^ zlen cs <= Base ^ len).
  { apply Z.le_trans with ((v + 1) * radix * radix ^ zlen cs); [|lia]. apply Z.mul_le_mono_nonneg_r; lia. }
  assert (Hlt : v * radix + d < Base ^ len).
  { assert (0 <= v * radix) by (apply Z.mul_nonneg_nonneg; lia).
    assert ((v * radix + d + 1) * 1 <= (v * radix + d + 1) * radix ^ zlen cs) by (apply Z.mul_le_mono_nonneg_l; lia). lia. }
  wp_step. eapply wp_mono; [apply inplaceMultiplyAdd_spec; [done|by apply (radix_digit_ok radix); lia|by apply (radix_digit_ok radix); lia|]| |intros e []].
  { by rewrite Hv, Hlen. }
  intros r' [Hs' Ha']. rewrite Hneg, Hlen in Hs'. apply IH; [done|by rewrite Ha', Hv|done].
Qed.

Lemma skip_zeroes_head chars c cs : skip_zeroes chars = c :: cs -> c <> 48.
Proof.
  induction chars as [|c' cs' IH]; [done|]. cbn [skip_zeroes]. destruct (Z.eqb_spec c' 48); [done|]. intros [= -> ->]. done.
Qed.

(** The outcome of reading a numeral. *)
Definition literal_error (radix : Z) (chars : list Z) (e : error) : Prop :=
  e = BigIntInvalidSyntax /\ literal_value radix 0 chars = None \/
  e = LengthLimit /\ literal_too_long radix chars.

Lemma parseLiteralDigits_spec chars radix neg : 2 <= radix <= 36 -> chars <> [] -> zlen chars <= MaxStringLength ->
  wp (parseLiteralDigits chars radix neg)
    (fun r => exists v, literal_value radix 0 chars = Some v /\ ~ literal_too_long radix chars /\ denotes r (signed neg v))
    (literal_error radix chars).
Proof.
  intros Hr Hne Hlen. unfold parseLiteralDigits, literal_error, literal_too_long. wp_step.
  wp_step; [destruct chars; [done|rewrite zlen_cons; pose proof (zlen_nonneg chars); lia]|].
  rewrite <- (literal_value_skip radix chars) by done. pose proof (skip_zeroes_length chars) as Hsl.
  destruct (skip_zeroes chars) as [|c cs] eqn:Hsk.
  { eapply wp_mono; [apply zero_spec| |intros e []]. intros r Hz. exists 0. split; [done|]. split; [|by destruct neg].
    change (zlen []) with 0. change (MaxBitLength * bitsPerCharTableMultiplier) with (1048576 * 32). lia. }
  set (start := c :: cs) in *. assert (Hpos : 0 < zlen start) by (unfold start; rewrite zlen_cons; pose proof (zlen_nonneg cs); lia).
  wp_step. eapply wp_mono; [apply calculateMaximumDigitsRequired_spec; [done|lia]| |].
  2:{ intros e [-> Hbig]. by right. }
  intros len (Hl & Hfit & Hshort). wp_step. apply wp_create_ok; [lia|]. intros r0 Hr0. cbv zeta.
  destruct (zeroed _ _ _ Hr0) as [Hz Hz0]. wp_step.
  eapply wp_mono; [apply (parse_chars_spec radix neg len start Hr _ 0 Hz Hz0); lia| |].
  2:{ intros e [-> Hnone]. by left. }
  intros r (v & Hv & Hs & Ha). eapply wp_mono; [apply trim_spec; [exact Hs|lia|lia]| |intros e []].
  intros r' Hr'. exists v. split; [done|]. split; [lia|]. pose proof Hs as (_ & Hn & _). by rewrite <- Hn, <- absval_pv, Ha in Hr'.
Qed.

(** The radix a prefix selects and the numeral after it. *)
Definition literal_radix (chars : list Z) : Z :=
  if is_prefix chars 98 66 then 2 else if is_prefix chars 120 88 then 16
  else if is_prefix chars 111 79 then 8 else 10.
Definition literal_body (chars : list Z) : list Z := if literal_radix chars =? 10 then chars else drop 2 chars.

Lemma literal_body_ok chars : chars <> [] ->
  2 <= literal_radix chars <= 36 /\ literal_body chars <> [] /\ zlen (literal_body chars) <= zlen chars.
Proof.
  intros Hne. unfold literal_body, literal_radix.
  assert (Hd : forall l u, is_prefix chars l u = true -> drop 2 chars <> [] /\ zlen (drop 2 chars) <= zlen chars).
  { intros l u. destruct chars as [|c0 [|c1 [|c2 cs]]]; try done. intros _. split; [done|]. unfold zlen. cbn. lia. }
  destruct (is_prefix chars 98 66) eqn:E2; [by destruct (Hd _ _ E2)|].
  destruct (is_prefix chars 120 88) eqn:E16; [by destruct (Hd _ _ E16)|].
  destruct (is_prefix chars 111 79) eqn:E8; [by destruct (Hd _ _ E8)|]. cbn. split; [lia|]. done.
Qed.

Lemma parseLiteral_spec chars : chars <> [] -> zlen chars <= MaxStringLength ->
  wp (parseLiteral chars)
    (fun r => exists v, literal_value (literal_radix chars) 0 (literal_body chars) = Some v /\
       ~ literal_too_long (literal_radix chars) (literal_body chars) /\ denotes r v)
    (literal_error (literal_radix chars) (literal_body chars)).
Proof.
  intros Hne Hlen. destruct (literal_body_ok chars Hne) as (Hr & Hb & Hl). unfold parseLiteral. wp_step.
  wp_step; [destruct chars; [done|rewrite zlen_cons; pose proof (zlen_nonneg chars); lia]|].
  assert (Heq : (if is_prefix chars 98 66 then parseLiteralDigits (drop 2 chars) 2 false
     else if is_prefix chars 120 88 then parseLiteralDigits (drop 2 chars) 16 false
     else if is_prefix chars 111 79 then parseLiteralDigits (drop 2 chars) 8 false
     else parseLiteralDigits chars 10 false) = parseLiteralDigits (literal_body chars) (literal_radix chars) false).
  { unfold literal_body, literal_radix.
    destruct (is_prefix chars 98 66), (is_prefix chars 120 88), (is_prefix chars 111 79); done. }
  rewrite Heq. by apply (parseLiteralDigits_spec _ _ false Hr Hb); lia.
Qed.

(** The predicate the parser folds with agrees with the value. *)
Lemma skip_zeroes_nil radix chars v : 2 <= radix <= 36 -> literal_value radix 0 chars = Some v ->
  (skip_zeroes chars = [] <-> v = 0).
Proof.
  intros Hr. rewrite <- literal_value_skip by done. destruct (skip_zeroes chars) as [|c cs] eqn:E.
  { intros [= <-]. done. }
  apply skip_zeroes_head in E. cbn [literal_value]. destruct (char_digit radix c) as [d|] eqn:Ed; [|done].
  destruct (char_digit_bound radix c d Hr Ed) as [Hd Hnz]. specialize (Hnz E). intros Hv. split; [done|]. intros ->. exfalso.
  assert (Hmono : forall cs acc v, 0 <= acc -> literal_value radix acc cs = Some v -> acc <= v).
  { clear -Hr. induction cs as [|c cs IH]; intros acc v Ha; cbn [literal_value]; [intros [= <-]; lia|].
    destruct (char_digit radix c) as [d|] eqn:Ed; [|done]. destruct (char_digit_bound radix c d Hr Ed) as [Hd _].
    intros Hv. assert (acc * 1 <= acc * radix) by (apply Z.mul_le_mono_nonneg_l; lia). apply IH in Hv; lia. }
  apply Hmono in Hv; lia.
Qed.

Lemma literalIsZero_spec chars v : chars <> [] ->
  literal_value (literal_radix chars) 0 (literal_body chars) = Some v ->
  wp (literalIsZero chars) (fun b => b = (v =? 0)) no_error.
Proof.
  intros Hne Hv. destruct (literal_body_ok chars Hne) as (Hr & Hb & Hl). unfold literalIsZero. wp_step.
  wp_step; [destruct chars; [done|rewrite zlen_cons; pose proof (zlen_nonneg chars); lia]|].
  assert (Heq : (if is_prefix chars 98 66 || is_prefix chars 120 88 || is_prefix chars 111 79
      then literalIsZeroNoRadix (drop 2 chars) else literalIsZeroNoRadix chars) = literalIsZeroNoRadix (literal_body chars)).
  { unfold literal_body, literal_radix.
    destruct (is_prefix chars 98 66), (is_prefix chars 120 88), (is_prefix chars 111 79); done. }
  rewrite Heq. unfold literalIsZeroNoRadix. wp_step.
  wp_step; [destruct (literal_body chars) as [|? l]; [done|rewrite zlen_cons; pose proof (zlen_nonneg l); lia]|].
  pose proof (skip_zeroes_nil _ _ _ Hr Hv) as Hnil.
  destruct (skip_zeroes (literal_body chars)); wp_step; symmetry; [apply Z.eqb_eq; tauto|apply Z.eqb_neq].
  intros E. apply Hnil in E. done.
Qed.

(** ** Strings *)

Section strings.
Context (CharInfo_isSpace : Z -> bool).

(** The radix, the numeral and the sign of a trimmed string. *)
Definition string_literal (chars : list Z) : Z * list Z * bool :=
  match chars with
  | [] => (10, [], false)
  | c :: rest =>
      if (zlen chars >? 1) && (c =? 43) then (10, rest, false)
      else if (zlen chars >? 1) && (c =? 45) then (10, rest, true)
      else (literal_radix chars, literal_body chars, false)
  end.

(** What reading a trimmed string gives. *)
Definition string_value (chars : list Z) (v : Z) : Prop :=
  let '(radix, body, neg) := string_literal chars in
  exists n, literal_value radix 0 body = Some n /\ ~ literal_too_long radix body /\ v = signed neg n.

Definition string_error (chars : list Z) (e : error) : Prop :=
  let '(radix, body, _) := string_literal chars in literal_error radix body e.

(** White space and line terminators of the language: tabulators, line feed,
    form feed, carriage return, space and no-break space, and above ASCII what
    the generated table says. *)
Definition white_space (ch : Z) : Prop := ch ∈ [9; 10; 11; 12; 13; 32; 160] \/ 128 <= ch /\ CharInfo_isSpace ch = true.

(** [core] is [range] without the white space at both ends. *)
Definition trimmed (range core : list Z) : Prop :=
  (exists front back, range = front ++ core ++ back /\ Forall white_space front /\ Forall white_space back) /\
  (forall c l, core = c :: l \/ core = l ++ [c] -> ~ white_space c).

Lemma IsSpace_white ch : IsSpace CharInfo_isSpace ch = true <-> white_space ch.
Proof.
  unfold IsSpace, js_isspace, white_space, NO_BREAK_SPACE. rewrite !elem_of_cons, elem_of_nil. destruct (Z.ltb_spec ch 128); [rewrite orb_true_iff, andb_true_iff, !Z.leb_le, Z.eqb_eq|destruct (Z.eqb_spec ch 160)].
  - split; [intros; left|intros [|]]; lia.
  - intuition lia.
  - split; [by right|intros [|[_ ?]]; [lia|done]].
Qed.

Lemma IsSpace_not_white ch : IsSpace CharInfo_isSpace ch = false <-> ~ white_space ch.
Proof. rewrite <- IsSpace_white. by destruct (IsSpace _ ch). Qed.

Lemma skip_space_front front l : Forall white_space front -> skip_space CharInfo_isSpace (front ++ l) = skip_space CharInfo_isSpace l.
Proof. induction 1 as [|c front Hc _ IH]; [done|]. cbn [app skip_space]. by apply IsSpace_white in Hc as ->. Qed.

Lemma skip_space_stop l : (forall c k, l = c :: k -> ~ white_space c) -> skip_space CharInfo_isSpace l = l.
Proof. intros H. destruct l as [|c l]; [done|]. cbn [skip_space]. by rewrite (proj2 (IsSpace_not_white c) (H c l eq_refl)). Qed.

Lemma skip_space_split l : exists front, l = front ++ skip_space CharInfo_isSpace l /\ Forall white_space front /\
  forall c k, skip_space CharInfo_isSpace l = c :: k -> ~ white_space c.
Proof.
  induction l as [|c l (front & E & Hf & Hh)]; [by exists []|]. cbn [skip_space]. destruct (IsSpace _ c) eqn:Hc.
  - exists (c :: front). split; [by rewrite <- app_comm_cons, <- E|]. split; [|done]. constructor; [by apply IsSpace_white|done].
  - exists []. split; [done|]. split; [done|]. intros ? ? [= <- _]. by apply IsSpace_not_white.
Qed.

(** [trim_space] is the only way to trim. *)
Lemma trim_space_trimmed range : trimmed range (trim_space CharInfo_isSpace range).
Proof.
  unfold trim_space. destruct (skip_space_split range) as (front & E & Hf & Hh). set (l := skip_space _ range) in *.
  destruct (skip_space_split (rev l)) as (back & E' & Hb & Hl). set (m := skip_space _ (rev l)) in *.
  assert (El : l = rev m ++ rev back) by (rewrite <- rev_app_distr, <- E'; symmetry; apply rev_involutive).
  split; [exists front, (rev back); split; [by rewrite <- El|split; [done|by apply Forall_rev]]|].
  intros c k [Hc|Hc].
  - rewrite Hc in El. exact (Hh c (k ++ rev back) El).
  - apply (Hl c (rev k)). by rewrite <- (rev_involutive m), Hc, rev_app_distr.
Qed.

Lemma trimmed_unique range core : trimmed range core -> core = trim_space CharInfo_isSpace range.
Proof.
  intros [(front & back & -> & Hf & Hb) Hc]. unfold trim_space. rewrite skip_space_front by done. destruct core as [|c core].
  - rewrite app_nil_l, <- (app_nil_r back), skip_space_front by done. done.
  - rewrite (skip_space_stop ((c :: core) ++ back)) by (intros d k [= <- _]; apply (Hc c core); by left). rewrite rev_app_distr, skip_space_front by (by apply Forall_rev).
    rewrite skip_space_stop; [by rewrite rev_involutive|]. intros d k Hd. apply (Hc d (rev k)). right. by rewrite <- (rev_involutive (c :: core)), Hd.
Qed.

Lemma skip_space_length chars : zlen (skip_space CharInfo_isSpace chars) <= zlen chars.
Proof.
  induction chars as [|c cs IH]; [done|]. cbn [skip_space]. destruct (IsSpace _ c); [rewrite zlen_cons; lia|lia].
Qed.

Lemma trim_space_length chars : zlen (trim_space CharInfo_isSpace chars) <= zlen chars.
Proof.
  unfold trim_space. pose proof (skip_space_length chars). pose proof (skip_space_length (rev (skip_space CharInfo_isSpace chars))).
  unfold zlen in *. rewrite !length_rev in *. lia.
Qed.

Lemma ParseStringBigIntLiteral_spec range : zlen range <= MaxStringLength ->
  wp (ParseStringBigIntLiteral CharInfo_isSpace range)
    (fun r => exists v, string_value (trim_space CharInfo_isSpace range) v /\ denotes r v)
    (string_error (trim_space CharInfo_isSpace range)).
Proof.
  intros Hlen. unfold ParseStringBigIntLiteral. pose proof (trim_space_length range) as Ht.
  unfold string_value, string_error. destruct (trim_space CharInfo_isSpace range) as [|c rest] eqn:Etrim.
  { eapply wp_mono; [apply zero_spec| |intros e []]. intros r Hr. exists 0. split; [|done]. exists 0. split; [done|].
    split; [|done]. unfold literal_too_long. change (zlen (skip_zeroes [])) with 0.
    change (MaxBitLength * bitsPerCharTableMultiplier) with (1048576 * 32). lia. }
  cbn [string_literal]. rewrite zlen_cons in Ht. pose proof (zlen_nonneg rest).
  assert (Hsigned : forall neg, rest <> [] ->
    wp (parseLiteralDigits rest 10 neg)
      (fun r => exists v, (exists n, literal_value 10 0 rest = Some n /\ ~ literal_too_long 10 rest /\ v = signed neg n) /\ denotes r v)
      (literal_error 10 rest)).
  { intros neg Hne. eapply wp_mono; [apply (parseLiteralDigits_spec rest 10 neg); [lia|done|lia]| |done].
    intros r (v & Hv & Hl & Hr). exists (signed neg v). split; [by exists v|done]. }
  assert (Hplain : wp (parseLiteral (c :: rest))
      (fun r => exists v, (exists n, literal_value (literal_radix (c :: rest)) 0 (literal_body (c :: rest)) = Some n /\
         ~ literal_too_long (literal_radix (c :: rest)) (literal_body (c :: rest)) /\ v = signed false n) /\ denotes r v)
      (literal_error (literal_radix (c :: rest)) (literal_body (c :: rest)))).
  { eapply wp_mono; [apply parseLiteral_spec; [done|rewrite zlen_cons; lia]| |done].
    intros r (v & Hv & Hl & Hr). exists v. split; [by exists v|done]. }
  destruct (Z.gtb_spec (zlen (c :: rest)) 1) as [Hgt|]; cbn [andb]; [|exact Hplain].
  assert (Hne : rest <> []) by (intros ->; change (zlen [c]) with 1 in Hgt; lia).
  destruct (Z.eqb_spec c 43) as [_|]; [exact (Hsigned false Hne)|].
  destruct (Z.eqb_spec c 45) as [_|]; [exact (Hsigned true Hne)|exact Hplain].
Qed.
End strings.
End parsing.
