(* ===== verification/BigIntPrint.v ===== *)
(** Printing BigInts (vm/BigIntType.cpp:
    [calculateMaximumCharactersRequired], [toStringBasePowerOfTwo],
    [toStringSingleDigitBaseTen], [MaxPowerInDigit], [MaxExponentInDigit],
    [toStringGeneric], [toString]).  A string is the list of its character
    codes; it is filled from its end, in a buffer whose size was computed
    beforehand. *)
From S2P Require Import Prelude Words CheckedArithmetic BigIntRep BigIntMul BigIntDiv BigIntConvert Numerals BigIntString.

(** * Definitions *)

(** The string cell that receives the characters; of the string component
    only the failure to allocate is visible here. *)
Definition copy_to_string (chars : list Z) : M (list Z) := _ ← allocate; mret chars.

Definition CountTrailingZeroes32 (x : Z) : M Z :=
  moz_assert (negb (x =? 0));; mret (Z.log2 (Z.land x (- x))).

Definition push_char (s : backfill) (isNegative : bool) : M backfill :=
  if isNegative then push s 45 else mret s.

(** [while (writePos + 1 < size && resultString[writePos] == '0') writePos++;] *)
Fixpoint remove_leading_zeroes (pos : Z) (chars : list Z) : backfill :=
  match chars with
  | c :: ((_ :: _) as rest) => if c =? 48 then remove_leading_zeroes (pos + 1) rest else (pos, chars)
  | _ => (pos, chars)
  end.

Section print.
Context {P : Platform} {K : DigitKernel}.

Definition calculateMaximumCharactersRequired (x : bigint) (radix : Z) : M Z :=
  moz_assert (negb (isZero x));;
  moz_assert ((radix >=? 2) && (radix <=? 36));;
  let length := digitLength x in
  lastDigit ← digit x (length - 1);
  zeroes ← DigitLeadingZeroes lastDigit;
  let bitLength := length * DigitBits - zeroes in
  let maxBitsPerChar := zget maxBitsPerCharTable radix in
  n ← CeilDiv (uint64 (bitsPerCharTableMultiplier * bitLength)) (maxBitsPerChar - 1);
  mret (uint64 (n + Z.b2z (isNegative x))).

(** ** Powers of two *)

(** The unread bits of the current digit and how many they are. *)
Definition pow2_state : Type := backfill * Z * Z.

(** [while (availableBits >= bitsPerChar) ...] *)
Definition whole_chars (bitsPerChar charMask : Z) : pow2_state -> M pow2_state :=
  loop 65 (fun '(s, dig, availableBits) =>
    if availableBits >=? bitsPerChar then
      s ← push s (radixDigit (Z.land dig charMask));
      dig ← shr dig bitsPerChar;
      mret (inl (s, dig, availableBits - bitsPerChar))
    else mret (inr (s, dig, availableBits))).

(** [while (digit != 0) ...] *)
Definition last_chars (bitsPerChar charMask : Z) : backfill * Z -> M backfill :=
  loop 66 (fun '(s, dig) =>
    if negb (dig =? 0) then
      s ← push s (radixDigit (Z.land dig charMask));
      dig ← shr dig bitsPerChar;
      mret (inl (s, dig))
    else mret (inr s)).

(** The character that takes its low bits from [dig] and the others from
    the next digit. *)
Definition straddling_char (availableBits charMask dig newDigit : Z) (s : backfill) : M backfill :=
  high ← shl newDigit availableBits;
  push s (radixDigit (Z.land (Z.lor dig high) charMask)).

Definition toStringBasePowerOfTwo (x : bigint) (radix : Z) : M (list Z) :=
  moz_assert (IsPowerOfTwo radix);;
  moz_assert ((radix >=? 2) && (radix <=? 32));;
  moz_assert (negb (isZero x));;
  let length := digitLength x in
  let sign := isNegative x in
  bitsPerChar ← CountTrailingZeroes32 radix;
  let charMask := radix - 1 in
  msd ← digit x (length - 1);
  zeroes ← DigitLeadingZeroes msd;
  let bitLength := length * DigitBits - zeroes in
  n ← CeilDiv bitLength bitsPerChar;
  let charsRequired := n + Z.b2z sign in
  if charsRequired >? MaxStringLength then throw LengthLimit
  else
    _ ← allocate;
    '(s, dig, availableBits) ← for_ 0 (length - 1) (fun i '(s, dig, availableBits) =>
        newDigit ← digit x i;
        s ← straddling_char availableBits charMask dig newDigit s;
        let consumedBits := bitsPerChar - availableBits in
        dig ← shr newDigit consumedBits;
        whole_chars bitsPerChar charMask (s, dig, DigitBits - consumedBits)) ((charsRequired, []), 0, 0);
    s ← straddling_char availableBits charMask dig msd s;
    dig ← shr msd (bitsPerChar - availableBits);
    s ← last_chars bitsPerChar charMask (s, dig);
    '(pos, chars) ← push_char s sign;
    moz_assert (pos =? 0);;
    copy_to_string chars.

(** ** One digit in base ten *)

(** [std::numeric_limits<Digit>::digits10] *)
Definition digits10 : Z := if DigitBits =? 32 then 9 else 19.

Definition toStringSingleDigitBaseTen (d : Z) (isNegative : bool) : M (list Z) :=
  if d <=? 2 ^ 31 - 1 then Int32ToString (if isNegative then - d else d)
  else
    moz_assert (negb (d =? 0));;
    let maxLength := 1 + (digits10 + 1) in
    '(writePos, resultChars) ← emit_while 10 d (maxLength, []);
    moz_assert (writePos <? maxLength);;
    moz_assert (negb (zget resultChars 0 =? 48));;
    '(writePos, resultChars) ← push_char (writePos, resultChars) isNegative;
    moz_assert (writePos <? maxLength);;
    copy_to_string resultChars.

(** ** Any radix *)

(** [while (result < Digit(-1) / radix) { result *= radix; exp += 1; }] *)
Fixpoint max_power (fuel : nat) (radix result exp : Z) : Z * Z :=
  match fuel with
  | O => (result, exp)
  | S fuel => if result <? (Base - 1) / radix then max_power fuel radix (wrap (result * radix)) (exp + 1)
              else (result, exp)
  end.
Definition MaxPowerInDigit (radix : Z) : Z := (max_power 64 radix 1 0).1.
Definition MaxExponentInDigit (radix : Z) : Z := (max_power 64 radix 1 0).2.

(** The characters of a chunk: exactly [chunkChars] of them. *)
Definition emit_chunk (radix chunkChars : Z) (s : backfill * Z) : M (backfill * Z) :=
  for_ 0 chunkChars (fun _ '(s, chunk) =>
    s ← push s (radixDigit (chunk mod radix));
    mret (s, chunk / radix)) s.

(** One division by the largest power of the radix in a digit: the first
    round allocates [rest], the others divide it in place. *)
Definition chunk_round (radix chunkChars chunkDivisor : Z)
    (st : bigint * option bigint * backfill * Z) : M (bigint * option bigint * backfill * Z + bigint * backfill) :=
  let '(dividend, rest, s, nonZeroDigit) := st in
  '(q, chunk) ← absoluteDivWithDigitDivisor dividend chunkDivisor
      (match rest with None => NewQuotient | Some _ => InPlaceQuotient end) (isNegative dividend);
  rest ← from_handle q;
  let dividend := rest in
  '(s, chunk) ← emit_chunk radix chunkChars (s, chunk);
  moz_assert (chunk =? 0);;
  d ← digit rest nonZeroDigit;
  let nonZeroDigit := if d =? 0 then nonZeroDigit - 1 else nonZeroDigit in
  d ← digit rest nonZeroDigit;
  moz_assert (negb (d =? 0));;
  mret (if nonZeroDigit >? 0 then inl (dividend, Some rest, s, nonZeroDigit) else inr (rest, s)).

Definition toStringGeneric (x : bigint) (radix : Z) : M (list Z) :=
  moz_assert ((radix >=? 2) && (radix <=? 36));;
  moz_assert (negb (isZero x));;
  maximumCharactersRequired ← calculateMaximumCharactersRequired x radix;
  if maximumCharactersRequired >? MaxStringLength then throw LengthLimit
  else
    _ ← allocate;
    let s := (maximumCharactersRequired, []) in
    let length := digitLength x in
    '(lastDigit, s) ←
      (if length =? 1 then lastDigit ← digit x 0; mret (lastDigit, s)
       else
         let chunkChars := MaxExponentInDigit radix in
         let chunkDivisor := MaxPowerInDigit radix in
         let nonZeroDigit := length - 1 in
         d ← digit x nonZeroDigit;
         moz_assert (negb (d =? 0));;
         '(rest, s) ← loop (Z.to_nat (length * DigitBits)) (chunk_round radix chunkChars chunkDivisor)
                        (x, None, s, nonZeroDigit);
         lastDigit ← digit rest 0;
         mret (lastDigit, s));
    '(writePos, resultString) ← emit_do radixDigit radix lastDigit s;
    moz_assert (writePos <? maximumCharactersRequired);;
    moz_assert (maximumCharactersRequired - writePos <=? maximumCharactersRequired);;
    let '(writePos, resultString) := remove_leading_zeroes writePos resultString in
    '(writePos, resultString) ← push_char (writePos, resultString) (isNegative x);
    moz_assert (writePos <? maximumCharactersRequired);;
    copy_to_string resultString.

(** [None] is the null pointer without an exception that the caller of the
    [NoGC] variant is prepared for. *)
Definition toString (allowGC : bool) (x : bigint) (radix : Z) : M (option (list Z)) :=
  moz_assert ((2 <=? radix) && (radix <=? 36));;
  if isZero x then mret (Some [48])
  else if IsPowerOfTwo radix then chars ← toStringBasePowerOfTwo x radix; mret (Some chars)
  else if (radix =? 10) && (digitLength x =? 1) then
    d ← digit x 0;
    chars ← toStringSingleDigitBaseTen d (isNegative x); mret (Some chars)
  else if negb allowGC then mret None
  else chars ← toStringGeneric x radix; mret (Some chars).
End print.

(** * Arithmetic of digit groups *)

(** The bits of [n] from [lo] up to [hi]. *)
Definition slice (n lo hi : Z) : Z := (n mod 2 ^ hi) / 2 ^ lo.

Section slices.

Lemma testbit_slice n lo hi j : 0 <= lo -> 0 <= hi -> 0 <= j ->
  Z.testbit (slice n lo hi) j = (lo + j <? hi) && Z.testbit n (lo + j).
Proof.
  intros Hlo Hhi Hj. unfold slice. rewrite Z.div_pow2_bits by lia.
  destruct (Z.ltb_spec (lo + j) hi); cbn [andb].
  - rewrite Z.mod_pow2_bits_low by lia. f_equal. lia.
  - apply Z.mod_pow2_bits_high. lia.
Qed.

Lemma slice_bound n lo hi : 0 <= lo <= hi -> 0 <= slice n lo hi < 2 ^ (hi - lo).
Proof.
  intros H. unfold slice. pose proof (Z.mod_pos_bound n (2 ^ hi)). assert (0 < 2 ^ hi) by (apply Z.pow_pos_nonneg; lia).
  assert (0 < 2 ^ lo) by (apply Z.pow_pos_nonneg; lia). split; [apply Z.div_pos; lia|].
  apply Z.div_lt_upper_bound; [lia|]. rewrite <- Z.pow_add_r by lia. replace (lo + (hi - lo)) with hi by lia. lia.
Qed.

Lemma slice_shr n lo hi s : 0 <= lo -> 0 <= hi -> 0 <= s -> slice n lo hi / 2 ^ s = slice n (lo + s) hi.
Proof.
  intros Hlo Hhi Hs. unfold slice. assert (0 < 2 ^ lo) by (apply Z.pow_pos_nonneg; lia). assert (0 < 2 ^ s) by (apply Z.pow_pos_nonneg; lia).
  by rewrite Z.div_div, <- Z.pow_add_r by lia.
Qed.

Lemma slice_low n lo hi b : 0 <= lo -> 0 <= b -> lo + b <= hi ->
  Z.land (slice n lo hi) (2 ^ b - 1) = (n / 2 ^ lo) mod 2 ^ b.
Proof.
  intros Hlo Hb Hhi. apply Z.bits_inj'. intros j Hj. replace (2 ^ b - 1) with (Z.ones b) by (rewrite Z.ones_equiv; lia).
  rewrite Z.land_ones, !Z.testbit_mod_pow2 by lia. destruct (Z.ltb_spec j b); cbn [andb]; [|done].
  rewrite testbit_slice, Z.div_pow2_bits by lia. replace (lo + j <? hi) with true by lia. cbn [andb]. f_equal. lia.
Qed.

(** The lowest digits of two neighbouring slices, the upper one shifted in a
    word of [w] bits. *)
Lemma slice_straddle n lo mid hi b w : 0 <= lo <= mid -> 0 <= b <= w ->
  mid <= hi ->
  Z.land (Z.lor (slice n lo mid) ((slice n mid hi * 2 ^ (mid - lo)) mod 2 ^ w)) (2 ^ b - 1) = (n mod 2 ^ hi / 2 ^ lo) mod 2 ^ b.
Proof.
  intros Hlo Hb Hhi. apply Z.bits_inj'. intros j Hj. replace (2 ^ b - 1) with (Z.ones b) by (rewrite Z.ones_equiv; lia).
  rewrite Z.land_ones, !Z.testbit_mod_pow2 by lia. destruct (Z.ltb_spec j b); cbn [andb]; [|done].
  rewrite Z.lor_spec, testbit_slice, Z.testbit_mod_pow2 by lia. replace (j <? w) with true by lia. cbn [andb].
  rewrite Z.mul_pow2_bits by lia. change (n mod 2 ^ hi / 2 ^ lo) with (slice n lo hi). rewrite (testbit_slice n lo hi j) by lia.
  destruct (Z.ltb_spec (lo + j) mid); cbn [andb orb].
  - rewrite (Z.testbit_neg_r _ (j - (mid - lo))) by lia. replace (lo + j <? hi) with true by lia. by rewrite orb_false_r.
  - rewrite testbit_slice by lia. by replace (mid + (j - (mid - lo))) with (lo + j) by lia.
Qed.

Lemma slice_whole n lo hi : n mod 2 ^ hi = n -> slice n lo hi = n / 2 ^ lo.
Proof. unfold slice. by intros ->. Qed.
End slices.

(** * Powers of two *)

Section pow2.
Context {P : Platform}.
Context (n b : Z) (Hb : 1 <= b <= 5) (s0 : backfill) (p : Z) (Hp : 1 <= p <= s0.1) (Hfit : n < (2 ^ b) ^ p).

(** The [k] lowest characters are written. *)
Definition pow2_inv (k : Z) (s : backfill) : Prop :=
  0 <= k /\ emitted (2 ^ b) radixDigit n (n / 2 ^ (k * b)) s0 s /\ s.1 = s0.1 - k.

Lemma pow2_radix : 2 <= 2 ^ b.
Proof using Hb. clear -Hb. assert (2 ^ 1 <= 2 ^ b) by (apply Z.pow_le_mono_r; lia). lia. Qed.

Lemma pow2_room m k : 0 <= k -> k * b <= m -> 2 ^ m <= n -> 0 < n / 2 ^ (k * b).
Proof using Hb.
  clear -Hb. intros Hk Hm Hn. assert (0 <= k * b) by (apply Z.mul_nonneg_nonneg; lia).
  assert (2 ^ (k * b) <= 2 ^ m) by (apply Z.pow_le_mono_r; lia). apply Z.div_str_pos.
  split; [apply Z.pow_pos_nonneg|]; lia.
Qed.

Lemma push_group k s c E : pow2_inv k s -> 0 < n / 2 ^ (k * b) -> c = (n / 2 ^ (k * b)) mod 2 ^ b ->
  wp (push s (radixDigit c))
    (fun s' => pow2_inv (k + 1) s' /\ (n / 2 ^ ((k + 1) * b) = 0 -> all_emitted (2 ^ b) radixDigit n s0 s')) E.
Proof using Hb Hp Hfit.
  intros (Hk & He & Hpos) Hr ->. pose proof pow2_radix. assert (0 <= k * b) by (apply Z.mul_nonneg_nonneg; lia).
  pose proof (emitted_room (2 ^ b) pow2_radix _ _ _ _ _ p He Hr ltac:(lia) Hfit) as Hroom.
  destruct s as [pos cs]. cbn [fst snd] in *. unfold push. wp_step. wp_step; [lia|]. wp_step.
  assert (Hnext : n / 2 ^ ((k + 1) * b) = n / 2 ^ (k * b) / 2 ^ b).
  { rewrite Z.div_div, <- Z.pow_add_r by (try (assert (0 < 2 ^ (k * b)) by (apply Z.pow_pos_nonneg; lia)); lia). do 2 f_equal. lia. }
  split.
  - split; [lia|]. rewrite Hnext. split; [by apply emitted_step|cbn [fst]; lia].
  - rewrite Hnext. intros Hz. apply Z.div_small_iff in Hz; [|lia]. rewrite Z.mod_small by lia.
    apply (emitted_last (2 ^ b) pow2_radix _ _ _ s0 (pos, cs)); [done|]. left. lia.
Qed.

Lemma whole_chars_spec k s m : pow2_inv k s -> 0 <= m - k * b <= 64 -> 2 ^ m <= n -> 32 <= DigitBits ->
  wp (whole_chars b (2 ^ b - 1) (s, slice n (k * b) m, m - k * b))
    (fun '(s', dig, avail) => exists k', pow2_inv k' s' /\ dig = slice n (k' * b) m /\ avail = m - k' * b /\ 0 <= avail < b) no_error.
Proof using Hb Hp Hfit.
  intros Hs Hm Hn HDB. unfold whole_chars.
  eapply (wp_loop (fun '(s, dig, avail) => exists k, pow2_inv k s /\ dig = slice n (k * b) m /\ avail = m - k * b /\ 0 <= avail)
            (fun '(_, _, avail) => avail)).
  { exists k. split_and!; [done..|lia]. }
  { lia. }
  { intros [[s' dig] avail] (k' & _ & _ & _ & H). done. }
  clear k s Hs Hm. intros [[s dig] avail] (k & Hs & -> & -> & Hav). pose proof Hs as (Hk & _ & _).
  assert (0 <= k * b) by (apply Z.mul_nonneg_nonneg; lia). wp_step; bsplit; wp_step.
  - eapply wp_mono; [apply (push_group k); [done|apply (pow2_room m); lia|apply slice_low; lia]| |done].
    intros s' [Hs' _]. wp_step. apply wp_shr; [lia|]. wp_step. rewrite slice_shr by lia.
    split; [|lia]. exists (k + 1). replace ((k + 1) * b) with (k * b + b) by lia. split_and!; [done|done|lia|lia].
  - exists k. split_and!; [done..|lia|lia].
Qed.

Lemma straddling_spec k s m : pow2_inv k s -> 0 <= m - k * b < b -> 2 ^ m <= n ->
  wp (straddling_char (m - k * b) (2 ^ b - 1) (slice n (k * b) m) (slice n m (m + DigitBits)) s)
    (fun s' => pow2_inv (k + 1) s' /\ (n / 2 ^ ((k + 1) * b) = 0 -> all_emitted (2 ^ b) radixDigit n s0 s')) no_error.
Proof using Hb Hp Hfit.
  intros Hs Hm Hn. pose proof Hs as (Hk & _ & _). assert (0 <= k * b) by (apply Z.mul_nonneg_nonneg; lia).
  assert (HDB : 32 <= DigitBits) by (destruct DigitBits_cases as [-> | ->]; lia).
  unfold straddling_char. wp_step. apply wp_shl; [lia|]. apply push_group; [done|apply (pow2_room m); lia|].
  unfold wrap, Base. rewrite slice_straddle by lia. fold (slice n (k * b) (m + DigitBits)).
  rewrite <- Z.land_ones by lia. replace (Z.ones b) with (2 ^ b - 1) by (rewrite Z.ones_equiv; lia). apply slice_low; lia.
Qed.

Lemma last_chars_spec k s : pow2_inv k s -> (n / 2 ^ (k * b) = 0 -> all_emitted (2 ^ b) radixDigit n s0 s) ->
  0 <= n / 2 ^ (k * b) < 2 ^ 64 ->
  wp (last_chars b (2 ^ b - 1) (s, n / 2 ^ (k * b))) (all_emitted (2 ^ b) radixDigit n s0) no_error.
Proof using Hb Hp Hfit.
  intros Hs Hlast Hr. assert (HDB : 32 <= DigitBits) by (destruct DigitBits_cases as [-> | ->]; lia). unfold last_chars.
  eapply (wp_loop (fun '(s, dig) => exists k, pow2_inv k s /\ dig = n / 2 ^ (k * b) /\ 0 <= dig /\
                     (dig = 0 -> all_emitted (2 ^ b) radixDigit n s0 s))
            (fun '(_, dig) => if dig =? 0 then 0 else Z.log2 dig + 1)).
  { exists k. split_and!; [done..|lia|done]. }
  { destruct (Z.eqb_spec (n / 2 ^ (k * b)) 0); [lia|].
    assert (Z.log2 (n / 2 ^ (k * b)) < 64) by (apply Z.log2_lt_pow2; lia). lia. }
  { intros [s' dig] _. pose proof (Z.log2_nonneg dig). destruct (dig =? 0); lia. }
  clear k s Hs Hlast Hr. intros [s dig] (k & Hs & -> & H0 & Hlast). pose proof Hs as (Hk & _ & _).
  assert (0 <= k * b) by (apply Z.mul_nonneg_nonneg; lia).
  assert (0 < 2 ^ (k * b)) by (apply Z.pow_pos_nonneg; lia). pose proof pow2_radix.
  destruct (Z.eqb_spec (n / 2 ^ (k * b)) 0) as [E|Hne]; cbn [negb]; wp_step; [by apply Hlast|].
  eapply wp_mono; [apply (push_group k); [done|lia|]| |done].
  { replace (2 ^ b - 1) with (Z.ones b) by (rewrite Z.ones_equiv; lia). by rewrite Z.land_ones by lia. }
  intros s' [Hs' Hl']. wp_step. apply wp_shr; [lia|]. wp_step.
  assert (Hnext : n / 2 ^ ((k + 1) * b) = n / 2 ^ (k * b) / 2 ^ b).
  { rewrite Z.div_div, <- Z.pow_add_r by lia. do 2 f_equal. lia. }
  rewrite <- Hnext in *. assert (0 <= n / 2 ^ ((k + 1) * b)) by (rewrite Hnext; apply Z.div_pos; lia).
  split; [by exists (k + 1)|]. pose proof (Z.log2_nonneg (n / 2 ^ (k * b))).
  destruct (Z.eqb_spec (n / 2 ^ ((k + 1) * b)) 0) as [|Hn0]; [lia|].
  pose proof (log2_div_radix (2 ^ b) pow2_radix (n / 2 ^ (k * b))). rewrite <- Hnext in *. lia.
Qed.
End pow2.

Section pow2_string.
Context {P : Platform} {K : DigitKernel}.

Lemma Base_pow2 i : 0 <= i -> Base ^ i = 2 ^ (i * DigitBits).
Proof. intros Hi. unfold Base. pose proof DigitBits_pos. rewrite <- Z.pow_mul_r by lia. f_equal. lia. Qed.

Lemma digit_slice x i : digits_ok (digits x) -> 0 <= i < digitLength x ->
  zget (digits x) i = slice (absval x) (i * DigitBits) (i * DigitBits + DigitBits).
Proof.
  intros Hx Hi. unfold slice. replace (i * DigitBits + DigitBits) with ((i + 1) * DigitBits) by lia.
  rewrite <- !Base_pow2, absval_pv, pv_mod, pv_succ by (done || lia).
  pose proof (Base_pow_pos i ltac:(lia)). rewrite Z.div_add, Z.div_small by (try apply pv_bound; done || lia). done.
Qed.

(** The radixes that take this path. *)
Lemma pow2_radixes radix : 2 <= radix <= 36 -> IsPowerOfTwo radix = true ->
  exists b, 1 <= b <= 5 /\ radix = 2 ^ b /\ Z.log2 (Z.land radix (- radix)) = b.
Proof.
  intros H Hpow. apply in_radix_range in H.
  assert (Hall : forallb (fun r => implb (IsPowerOfTwo r) (existsb (fun b => (r =? 2 ^ b) && (Z.log2 (Z.land r (- r)) =? b)) (seqZ 1 5)))
            (seqZ 2 35) = true) by (vm_compute; reflexivity).
  rewrite forallb_forall in Hall. apply list_elem_of_In in H. specialize (Hall radix H). rewrite Hpow in Hall. cbn [implb] in Hall.
  apply existsb_exists in Hall as (b & Hin & Hb). apply list_elem_of_In, elem_of_seqZ in Hin. bsplit. exists b. split_and!; [lia|lia|done|done].
Qed.

(** The number of characters is the least that holds the magnitude. *)
Lemma CeilDiv_bits n b (Q : Z -> Prop) E : 0 < n -> 1 <= b ->
  (forall p, 1 <= p <= Z.log2 n + 1 -> n < (2 ^ b) ^ p -> (2 ^ b) ^ (p - 1) <= n -> Q p) ->
  wp (CeilDiv (Z.log2 n + 1) b) Q E.
Proof.
  intros Hn Hb HQ. pose proof (Z.log2_nonneg n). unfold CeilDiv. wp_step. wp_step; [lia|]. wp_step.
  replace (Z.log2 n + 1 - 1) with (Z.log2 n) by lia. set (q := Z.log2 n / b).
  assert (Hq : 0 <= q) by (apply Z.div_pos; lia).
  pose proof (Z.div_mod (Z.log2 n) b). pose proof (Z.mod_pos_bound (Z.log2 n) b). fold q in H0.
  assert (q <= b * q) by (assert (1 * q <= b * q) by (apply Z.mul_le_mono_nonneg_r; lia); lia).
  destruct (Z.log2_spec n Hn) as [Hlo Hhi]. apply HQ; [lia|..]; rewrite <- Z.pow_mul_r by lia.
  - apply Z.lt_le_trans with (2 ^ Z.succ (Z.log2 n)); [done|]. apply Z.pow_le_mono_r; lia.
  - apply Z.le_trans with (2 ^ Z.log2 n); [|done]. apply Z.pow_le_mono_r; lia.
Qed.

(** The sign and the exact length of what was written. *)
Lemma push_sign radix v pos s q : 2 <= radix -> all_emitted radix radixDigit (Z.abs v) (pos, []) s ->
  1 <= q -> Z.abs v < radix ^ q -> q + Z.b2z (v <? 0) <= pos ->
  wp (push_char s (v <? 0)) (fun s' => signed_numeral radix v s'.2 /\ s'.1 = pos - zlen s'.2 /\ 1 <= zlen s'.2 /\
      exists ds, zlen s'.2 = zlen ds + Z.b2z (v <? 0) /\ digits_in radix ds /\ number_of radix ds = Z.abs v /\ 1 <= zlen ds <= q) no_error.
Proof.
  intros Hr Ha Hq Hlt Hpos.
  destruct (all_emitted_numeral radix radixDigit (Z.abs v) pos s) as [Hn (ds & Hl & Hps & Hds & Hc & Hv)]; [done..|].
  pose proof (canonical_length radix Hr ds (Z.abs v) q Hds Hc Hv Hq Hlt). destruct s as [r cs]. cbn [fst snd] in *.
  unfold push_char. destruct (v <? 0) eqn:E; cbn [Z.b2z] in *.
  - unfold push. wp_step. wp_step; [lia|]. wp_step. cbn [fst snd]. rewrite zlen_cons.
    split; [exists cs; by rewrite E|]. split; [lia|]. split; [lia|]. exists ds. split_and!; [lia|done|done|lia|lia].
  - wp_step. cbn [fst snd]. split; [exists cs; by rewrite E|]. split; [lia|]. split; [lia|]. exists ds. split_and!; [lia|done|done|lia|lia].
Qed.

Lemma copy_to_string_spec chars : wp (copy_to_string chars) (fun r => r = chars) no_error.
Proof. unfold copy_to_string. wp_step. apply wp_allocate. intros _. by wp_step. Qed.

(** A nonzero BigInt read through its magnitude. *)
Lemma bit_facts x : wf x -> 0 < digitLength x ->
  0 < absval x /\ 2 ^ ((digitLength x - 1) * DigitBits) <= absval x < 2 ^ (digitLength x * DigitBits) /\
  Z.log2 (absval x) + 1 <= MaxBitLength.
Proof.
  intros Hx Hpos. pose proof (wf_lower x Hx Hpos) as Hl. pose proof (absval_bound x (wf_digits x Hx)) as Hu.
  pose proof (wf_length x Hx). pose proof DigitBits_pos.
  rewrite Base_pow2 in Hl, Hu by lia. assert (0 <= (digitLength x - 1) * DigitBits) by (apply Z.mul_nonneg_nonneg; lia).
  assert (0 < 2 ^ ((digitLength x - 1) * DigitBits)) by (apply Z.pow_pos_nonneg; lia).
  split; [lia|]. split; [lia|]. assert (Z.log2 (absval x) < digitLength x * DigitBits) by (apply Z.log2_lt_pow2; lia).
  rewrite MaxBitLength_digits. assert (digitLength x * DigitBits <= MaxDigitLength * DigitBits) by (apply Z.mul_le_mono_nonneg_r; lia). lia.
Qed.

Lemma wp_top_bits x (Q : Z -> Prop) E : wf x -> 0 < digitLength x ->
  (forall s, digitLength x * DigitBits - s = Z.log2 (absval x) + 1 -> Q s) ->
  wp (DigitLeadingZeroes (zget (digits x) (digitLength x - 1))) Q E.
Proof.
  intros Hx Hpos HQ. apply wp_DigitLeadingZeroes; [by apply wf_digit|apply Hx; lia|].
  intros s Hs _ Hlog. apply HQ. rewrite (bit_length x s Hx Hpos Hlog). lia.
Qed.

Lemma toStringBasePowerOfTwo_spec x radix : wf x -> 0 < digitLength x -> 2 <= radix <= 36 -> IsPowerOfTwo radix = true ->
  wp (toStringBasePowerOfTwo x radix) (signed_numeral radix (value x)) no_error.
Proof.
  intros Hx Hpos Hr Hpow. destruct (pow2_radixes radix Hr Hpow) as (b & Hb & -> & Hctz).
  destruct (bit_facts x Hx Hpos) as (Hn & [Hlo Hhi] & Hmax). set (n := absval x) in *. unfold MaxBitLength in Hmax.
  assert (HDB : 32 <= DigitBits <= 64) by (destruct DigitBits_cases as [-> | ->]; lia).
  assert (H32 : 2 ^ b <= 32) by (apply (Z.pow_le_mono_r 2 b 5); lia). unfold toStringBasePowerOfTwo.
  wp_step. wp_step; [done|]. wp_step. wp_step; [lia|]. wp_step. wp_step; [unfold isZero; lia|].
  cbv zeta. wp_step. unfold CountTrailingZeroes32. wp_step. wp_step; [lia|]. wp_step. rewrite Hctz.
  wp_step. apply wp_digit; [lia|]. wp_step. apply wp_top_bits; [done|done|]. intros z Hz. rewrite Hz. fold n. wp_step.
  apply CeilDiv_bits; [done|lia|]. intros p Hp Hup Hlow.
  rewrite (wf_value_neg x Hx). set (neg := value x <? 0). assert (Hsz : 0 <= Z.b2z neg <= 1) by (destruct neg; cbn; lia).
  wp_step; [unfold MaxStringLength in *; bsplit; lia|]. wp_step. apply wp_allocate. intros _. wp_step.
  set (s0 := (p + Z.b2z neg, [])). set (len := digitLength x) in *.
  assert (Hs0 : 1 <= p <= s0.1) by (cbn [fst s0]; lia).
  assert (Hmono : forall i, i <= len - 1 -> 2 ^ (i * DigitBits) <= n).
  { intros i Hi. apply Z.le_trans with (2 ^ ((len - 1) * DigitBits)); [|done].
    apply Z.pow_le_mono_r; [lia|]. apply Z.mul_le_mono_nonneg_r; lia. }
  eapply (wp_for (fun i '(s, dig, avail) => exists k, pow2_inv n b s0 k s /\ dig = slice n (k * b) (i * DigitBits) /\
             avail = i * DigitBits - k * b /\ 0 <= avail < b)).
  { lia. }
  { exists 0. unfold pow2_inv. rewrite !Z.mul_0_l, Z.pow_0_r, Z.div_1_r. split_and!; [lia|apply emitted_nil|cbn; lia| |lia..].
    unfold slice. by rewrite Z.pow_0_r, Z.mod_1_r. }
  { intros i [[s dig] avail] Hi (k & Hs & -> & -> & Hav). wp_step. apply wp_digit; [fold len; lia|].
    rewrite digit_slice by (try apply wf_digits; done || lia). fold n. wp_step.
    eapply wp_mono; [apply (straddling_spec n b Hb s0 p Hs0 Hup k); [done|lia|apply Hmono; lia]| |done].
    intros s' [Hs' _]. wp_step. apply wp_shr; [lia|]. pose proof Hs as (Hk & _ & _). assert (0 <= i * DigitBits) by (apply Z.mul_nonneg_nonneg; lia).
    rewrite slice_shr by lia.
    replace (i * DigitBits + (b - (i * DigitBits - k * b))) with ((k + 1) * b) by lia.
    replace (i * DigitBits + DigitBits) with ((i + 1) * DigitBits) by lia.
    replace (DigitBits - (b - (i * DigitBits - k * b))) with ((i + 1) * DigitBits - (k + 1) * b) by lia.
    apply (whole_chars_spec n b Hb s0 p Hs0 Hup); [done|lia|apply Hmono; lia|lia]. }
  intros [[s dig] avail] (k & Hs & -> & -> & Hav). wp_step. rewrite digit_slice by (try apply wf_digits; done || (fold len; lia)). fold n len.
  eapply wp_mono; [apply (straddling_spec n b Hb s0 p Hs0 Hup k); [done|lia|done]| |done].
  intros s' [Hs' Hl']. wp_step. apply wp_shr; [lia|]. pose proof Hs as (Hk & _ & _).
  assert (0 <= (len - 1) * DigitBits) by (apply Z.mul_nonneg_nonneg; lia). rewrite slice_shr by lia.
  replace ((len - 1) * DigitBits + (b - ((len - 1) * DigitBits - k * b))) with ((k + 1) * b) by lia.
  replace ((len - 1) * DigitBits + DigitBits) with (len * DigitBits) by lia.
  assert (0 <= k * b) by (apply Z.mul_nonneg_nonneg; lia).
  assert (Hkb : 0 <= (k + 1) * b <= len * DigitBits) by lia. pose proof (slice_bound n ((k + 1) * b) (len * DigitBits) Hkb) as Hsb.
  assert (2 ^ (len * DigitBits - (k + 1) * b) <= 2 ^ 64) by (apply Z.pow_le_mono_r; lia).
  rewrite slice_whole in * by (apply Z.mod_small; lia).
  wp_step. eapply wp_mono; [apply (last_chars_spec n b Hb s0 p Hs0 Hup (k + 1)); [done|done|lia]| |done].
  intros s'' Ha. wp_step. unfold neg, n in *. rewrite wf_abs_value in * by done.
  wp_call (push_sign (2 ^ b) (value x) (p + Z.b2z neg) s'' p); [by apply pow2_radix|done|lia|done|unfold neg; lia|].
  intros [pos chars] (Hnum & Hps & Hlen & ds & Hlds & Hds & Hnd & Hle). cbn [fst snd] in *. wp_step.
  assert (p <= zlen ds).
  { pose proof (number_of_bound (2 ^ b) (pow2_radix b Hb) ds Hds) as Hb2. rewrite Hnd in Hb2.
    assert (p - 1 < zlen ds); [|lia]. apply (Z.pow_lt_mono_r_iff (2 ^ b)); [pose proof (pow2_radix b Hb); lia|lia|lia]. }
  wp_step; [unfold neg in *; lia|]. eapply wp_mono; [apply copy_to_string_spec| |done]. by intros ? ->.
Qed.
End pow2_string.

(** * One digit in base ten *)

Section single_digit.
Context {P : Platform} {K : DigitKernel}.

Lemma canonical_head ds : canonical ds -> digits_in 10 ds -> ds <> [0] -> zget (radixDigit <$> ds) 0 <> 48.
Proof.
  intros [->|(d & ds' & -> & Hd)] Hds Hne; [done|]. inversion Hds; subst. cbn [fmap list_fmap]. rewrite zget_cons0.
  rewrite <- decimal_digit by lia. lia.
Qed.

Lemma toStringSingleDigitBaseTen_spec d neg : digit_ok d -> d <> 0 ->
  wp (toStringSingleDigitBaseTen d neg) (signed_numeral 10 (signed neg d)) no_error.
Proof.
  intros Hd Hnz. unfold digit_ok in Hd. unfold toStringSingleDigitBaseTen. wp_step; bsplit.
  { apply Int32ToString_spec. unfold is_int32. destruct neg; cbn [signed]; lia. }
  assert (Hp : d < 2 ^ 64 /\ d < 10 ^ (digits10 + 1) /\ 1 <= digits10 + 1).
  { unfold Base, digits10 in *. destruct DigitBits_cases as [E|E]; rewrite E in *; cbn [Z.eqb Pos.eqb].
    - change (9 + 1) with 10. lia.
    - change (19 + 1) with 20. lia. }
  wp_step. wp_step; [lia|]. cbv zeta. wp_step.
  eapply wp_mono; [apply (emit_while_spec 10 ltac:(lia) d _ (digits10 + 1)); cbn [fst]; lia| |done].
  intros [pos cs] Ha. destruct (all_emitted_numeral 10 radixDigit d _ _ ltac:(done) Ha) as [_ (ds & Hl & Hpos & Hds & Hcan & Hv)].
  cbn [fst snd] in *. destruct Hp as (_ & Hlt & Hge). pose proof (canonical_length 10 ltac:(lia) ds d _ Hds Hcan Hv Hge Hlt) as Hlen.
  wp_step. wp_step; [lia|]. wp_step. wp_step.
  { destruct Ha as (ds' & Hcs & _ & Hds' & Hcan' & Hv'). cbn [snd] in Hcs. rewrite app_nil_r in Hcs. rewrite Hcs.
    apply negb_true_iff, Z.eqb_neq, canonical_head; [done|done|]. intros ->. cbn in Hv'. lia. }
  wp_step. assert (Hneg : neg = (signed neg d <? 0)) by (destruct neg; cbn [signed]; lia). rewrite Hneg at 1.
  eapply wp_mono; [apply (push_sign 10 (signed neg d) (1 + (digits10 + 1)) (pos, cs) (digits10 + 1))| |done].
  { lia. }
  { replace (Z.abs (signed neg d)) with d by (destruct neg; cbn [signed]; lia). exact Ha. }
  { lia. }
  { destruct neg; cbn [signed]; lia. }
  { rewrite <- Hneg. destruct neg; cbn [Z.b2z]; lia. }
  intros [pos' cs'] (Hnum & Hps & Hl1 & _). cbn [fst snd] in *. wp_step. wp_step; [lia|].
  eapply wp_mono; [apply copy_to_string_spec| |done]. by intros ? ->.
Qed.
End single_digit.

(** * Any radix *)

Section generic.
Context {P : Platform} {K : DigitKernel}.

(** The constants of [toStringInfo]. *)
Lemma radix_info radix : 2 <= radix <= 36 ->
  MaxPowerInDigit radix = radix ^ MaxExponentInDigit radix /\ 1 <= MaxExponentInDigit radix <= 255 /\
  1 < MaxPowerInDigit radix < Base.
Proof.
  intros H. apply in_radix_range in H.
  assert (Hall : forallb (fun r => (MaxPowerInDigit r =? r ^ MaxExponentInDigit r) && (1 <=? MaxExponentInDigit r) &&
            (MaxExponentInDigit r <=? 255) && (1 <? MaxPowerInDigit r) && (MaxPowerInDigit r <? Base)) (seqZ 2 35) = true).
  { unfold MaxPowerInDigit, MaxExponentInDigit. unfold Base, wrap.
    assert (Hw : forall n r a b, max_power (P := P) n r a b =
      (fix mp (fuel : nat) (radix result exp : Z) : Z * Z :=
         match fuel with O => (result, exp) | S fuel =>
           if result <? (2 ^ DigitBits - 1) / radix then mp fuel radix ((result * radix) mod 2 ^ DigitBits) (exp + 1) else (result, exp) end) n r a b)
      by (induction n as [|n IH]; intros; cbn [max_power]; [done|]; rewrite IH; done).
    rewrite forallb_forall. intros r Hr. rewrite !Hw. rewrite list_elem_of_In in H. revert r Hr. rewrite <- forallb_forall.
    destruct DigitBits_cases as [-> | ->]; vm_compute; reflexivity. }
  rewrite forallb_forall in Hall. apply list_elem_of_In in H. specialize (Hall radix H). bsplit. split_and!; lia.
Qed.

(** The buffer is large enough. *)
Lemma calculateMaximumCharactersRequired_spec x radix : wf x -> 0 < digitLength x -> 2 <= radix <= 36 ->
  wp (calculateMaximumCharactersRequired x radix)
    (fun m => exists q, m = q + Z.b2z (value x <? 0) /\ 1 <= q <= 2 ^ 25 /\ absval x < radix ^ q) no_error.
Proof.
  intros Hx Hpos Hr. destruct (bit_facts x Hx Hpos) as (Hn & _ & Hmax). unfold calculateMaximumCharactersRequired.
  destruct (bits_per_char_bounds radix Hr) as (Hb & _ & Hlow). fold (bits_per_char radix). pose proof (Z.log2_nonneg (absval x)).
  wp_step. wp_step; [unfold isZero; lia|]. wp_step. wp_step; [lia|]. cbv zeta. wp_step. apply wp_digit; [lia|].
  wp_step. apply wp_top_bits; [done|done|]. intros z ->. set (l := Z.log2 (absval x)) in *. unfold MaxBitLength in Hmax.
  change bitsPerCharTableMultiplier with 32. unfold uint64. rewrite (Z.mod_small (32 * (l + 1))) by lia.
  wp_step. unfold CeilDiv. wp_step. wp_step; [lia|]. wp_step. wp_step. set (c := bits_per_char radix) in *.
  set (q := (32 * (l + 1) - 1) / (c - 1)). assert (0 <= q) by (apply Z.div_pos; lia).
  assert (q <= 32 * (l + 1) - 1) by (apply Z.div_le_upper_bound; [lia|]; assert (1 * (32 * (l + 1) - 1) <= (c - 1) * (32 * (l + 1) - 1)) by (apply Z.mul_le_mono_nonneg_r; lia); lia).
  exists (1 + q). rewrite (wf_value_neg x Hx). rewrite Z.mod_small by (destruct (value x <? 0); cbn [Z.b2z]; lia).
  split; [done|]. split; [lia|].
  assert (Hq : 32 * (l + 1) <= (c - 1) * (1 + q)).
  { pose proof (Z.div_mod (32 * (l + 1) - 1) (c - 1)). pose proof (Z.mod_pos_bound (32 * (l + 1) - 1) (c - 1)). fold q in H2. lia. }
  apply Z.lt_le_trans with (2 ^ (l + 1)); [unfold l; rewrite Z.add_1_r; by apply Z.log2_spec|].
  assert (Hpw : 0 < radix ^ (1 + q)) by (apply Z.pow_pos_nonneg; lia).
  destruct (Z_le_gt_dec (2 ^ (l + 1)) (radix ^ (1 + q))) as [|Hgt]; [done|exfalso].
  assert (H32 : (radix ^ (1 + q)) ^ 32 < (2 ^ (l + 1)) ^ 32) by (apply Z.pow_lt_mono_l; lia).
  rewrite <- !(Z.pow_mul_r radix), (Z.mul_comm (1 + q)), (Z.pow_mul_r radix), <- (Z.pow_mul_r 2) in H32 by lia.
  assert (Hl : (2 ^ (c - 1)) ^ (1 + q) <= (radix ^ 32) ^ (1 + q)) by (apply Z.pow_le_mono_l; split; [apply Z.pow_nonneg|]; lia).
  rewrite <- (Z.pow_mul_r 2) in Hl by lia.
  assert (2 ^ ((l + 1) * 32) <= 2 ^ ((c - 1) * (1 + q))) by (apply Z.pow_le_mono_r; lia). lia.
Qed.

(** ** Chunks *)

Lemma push_rest radix n rest s0 s p E : 2 <= radix -> emitted radix radixDigit n rest s0 s -> 0 < rest ->
  0 <= p <= s0.1 -> n < radix ^ p ->
  wp (push s (radixDigit (rest mod radix))) (emitted radix radixDigit n (rest / radix) s0) E.
Proof.
  intros Hr He Hrest Hp Hfit. pose proof (emitted_room radix Hr _ _ _ _ _ p He Hrest Hp Hfit) as Hroom.
  destruct s as [pos cs]. cbn [fst] in Hroom. unfold push. wp_step. wp_step; [lia|]. wp_step. by apply emitted_step.
Qed.

Lemma emit_chunk_spec radix n e R s0 s p : 2 <= radix -> 0 <= e -> 0 < R / radix ^ e ->
  emitted radix radixDigit n R s0 s -> 0 <= p <= s0.1 -> n < radix ^ p ->
  wp (emit_chunk radix e (s, R mod radix ^ e))
    (fun '(s', chunk) => emitted radix radixDigit n (R / radix ^ e) s0 s' /\ chunk = 0) no_error.
Proof.
  intros Hr He HR Hem Hp Hfit. unfold emit_chunk.
  eapply (wp_for (fun j '(s', chunk) => emitted radix radixDigit n (R / radix ^ j) s0 s' /\
            chunk = (R / radix ^ j) mod radix ^ (e - j))).
  { done. }
  { rewrite Z.pow_0_r, Z.div_1_r, Z.sub_0_r. done. }
  { intros j [s' chunk] Hj [Hs ->]. assert (Hpj : 0 < radix ^ j) by (apply Z.pow_pos_nonneg; lia).
    assert (Hpe : 0 < radix ^ e) by (apply Z.pow_pos_nonneg; lia).
    assert (Hm : 0 < radix ^ (e - (j + 1))) by (apply Z.pow_pos_nonneg; lia).
    assert (Hnext : R / radix ^ (j + 1) = R / radix ^ j / radix)
      by (rewrite Z.div_div, Z.pow_add_r, Z.pow_1_r by lia; done).
    assert (Hsplit : (R / radix ^ j) mod radix ^ (e - j) =
              (R / radix ^ j) mod radix + radix * ((R / radix ^ (j + 1)) mod radix ^ (e - (j + 1)))).
    { replace (e - j) with (1 + (e - (j + 1))) by lia. rewrite Z.pow_add_r, Z.pow_1_r, Z.rem_mul_r by lia. by rewrite Hnext. }
    pose proof (Z.mod_pos_bound (R / radix ^ j) radix ltac:(lia)) as Hmb.
    assert (Hpos : 0 < R / radix ^ j).
    { apply Z.div_str_pos. split; [lia|]. assert (radix ^ j <= radix ^ e) by (apply Z.pow_le_mono_r; lia).
      destruct (Z_lt_le_dec R (radix ^ e)) as [Hlt|]; [|lia].
      destruct (Z_lt_le_dec R 0); [pose proof (Z.div_lt_upper_bound R (radix ^ e) 0); lia|]. rewrite Z.div_small in HR; lia. }
    rewrite Hsplit, (Z.mul_comm radix), Z.mod_add, Z.mod_mod, Z.div_add, Z.div_small by lia. wp_step.
    eapply wp_mono; [apply (push_rest radix n _ s0 s' p); [done..]| |done]. intros s'' Hs''. wp_step. rewrite <- Hnext in Hs''.
    split; [done|lia]. }
  intros [s' chunk] [Hs ->]. split; [done|]. by rewrite Z.sub_diag, Z.pow_0_r, Z.mod_1_r.
Qed.

(** The digit that decides whether the number got shorter. *)
Lemma top_quotient r i : digits_ok (digits r) -> 0 <= i < digitLength r -> absval r < Base ^ (i + 1) ->
  zget (digits r) i = absval r / Base ^ i.
Proof.
  intros Hr Hi Hlt. pose proof (high_step r i Hr Hi) as H. unfold high in H at 2.
  rewrite (Z.div_small (absval r)) in H by (pose proof (absval_bound r Hr); lia). unfold high in H. lia.
Qed.

Definition chunk_inv (x : bigint) (n radix : Z) (s0 : backfill) (st : bigint * option bigint * backfill * Z) : Prop :=
  let '(dividend, rest, s, nz) := st in
  shape (isNegative x) (digitLength x) dividend /\ (rest = None -> dividend = x) /\ 1 <= nz < digitLength x /\
  Base ^ nz <= absval dividend < Base ^ (nz + 1) /\ emitted radix radixDigit n (absval dividend) s0 s.

Lemma chunk_round_spec x n radix s0 p st : wf x -> 2 <= radix <= 36 -> 0 <= p <= s0.1 -> n < radix ^ p ->
  chunk_inv x n radix s0 st ->
  wp (chunk_round radix (MaxExponentInDigit radix) (MaxPowerInDigit radix) st)
    (fun r => match r with
       | inl st' => chunk_inv x n radix s0 st' /\ Z.log2 (absval st'.1.1.1) < Z.log2 (absval st.1.1.1)
       | inr (rest, s) => 0 < digitLength rest /\ 0 < zget (digits rest) 0 < Base /\
           emitted radix radixDigit n (zget (digits rest) 0) s0 s
       end) no_error.
Proof.
  intros Hx Hr Hp Hfit. destruct st as [[[D rest] s] nz]. intros (HD & Hrest & Hnz & [Hlo Hhi] & He). cbn [fst].
  destruct (radix_info radix Hr) as (Hpow & Hexp & Hv1 & HvB). set (v := MaxPowerInDigit radix) in *. set (e := MaxExponentInDigit radix) in *.
  pose proof HD as (Hneg & Hlen & Hok). pose proof (Base_pow_pos (nz - 1) ltac:(lia)) as Hbp.
  assert (Hsucc : Base ^ nz = Base * Base ^ (nz - 1)) by (replace nz with (nz - 1 + 1) at 1 by lia; apply Base_pow_succ; lia).
  pose proof Base_big. assert (HDpos : 0 < absval D) by (pose proof (Base_pow_pos nz ltac:(lia)); lia).
  assert (Hq : Base ^ (nz - 1) <= absval D / v).
  { apply Z.div_le_lower_bound; [lia|]. assert (v * Base ^ (nz - 1) <= Base * Base ^ (nz - 1)) by (apply Z.mul_le_mono_nonneg_r; lia). lia. }
  assert (Hqle : absval D / v < Base ^ (nz + 1)) by (pose proof (Z.div_lt (absval D) v); lia).
  unfold chunk_round. wp_step.
  eapply (wp_mono _ (fun '(q, r) => exists q', q = Some q' /\ shape (isNegative x) (digitLength x) q' /\
       absval q' = absval D / v /\ r = absval D mod v)); [| |done].
  { destruct rest; rewrite <- Hneg, <- Hlen.
    - apply absoluteDivWithDigitDivisor_inplace; [done|lia|done|unfold digit_ok; lia|done].
    - apply absoluteDivWithDigitDivisor_new; [by rewrite Hrest|lia|done|unfold digit_ok; lia]. }
  intros [q r] (D' & -> & HD' & Hval & ->). cbn [from_handle]. wp_step. wp_step. cbv zeta. wp_step. rewrite Hpow.
  eapply wp_mono; [apply (emit_chunk_spec radix n e (absval D) s0 s p)| |done]; [lia|lia|rewrite <- Hpow; lia|done|done|done|].
  rewrite <- Hpow, <- Hval. intros [s' chunk] [Hs' ->]. wp_step. wp_step; [done|].
  pose proof HD' as (Hneg' & Hlen' & Hok'). rewrite <- Hval in Hq, Hqle.
  pose proof (top_quotient D' nz Hok' ltac:(lia) Hqle) as Htop.
  assert (Hlog : Z.log2 (absval D') < Z.log2 (absval D)) by (rewrite Hval in *; apply log2_div_radix; lia).
  wp_step. apply wp_digit; [lia|]. set (d := zget (digits D') nz) in *. set (nz' := if d =? 0 then nz - 1 else nz).
  assert (Hnz' : 0 <= nz' <= nz /\ Base ^ nz' <= absval D' < Base ^ (nz' + 1)).
  { unfold nz'. destruct (Z.eqb_spec d 0) as [Hd0|Hd0].
    - rewrite Hd0 in Htop. replace (nz - 1 + 1) with nz by lia. split; [lia|]. split; [done|].
      symmetry in Htop. apply Z.div_small_iff in Htop; lia.
    - split; [lia|]. split; [|done]. destruct (Z_lt_le_dec (absval D') (Base ^ nz)); [|done].
      rewrite Z.div_small in Htop; lia. }
  destruct Hnz' as [Hnr [Hlo' Hhi']]. wp_step. apply wp_digit; [lia|].
  pose proof (top_quotient D' nz' Hok' ltac:(lia) Hhi') as Htop'. pose proof (Base_pow_pos nz' ltac:(lia)).
  assert (0 < zget (digits D') nz') by (rewrite Htop'; apply Z.div_str_pos; lia).
  wp_step. wp_step; [lia|]. wp_step. destruct (Z.gtb_spec nz' 0) as [Hg|Hg].
  - split; [|exact Hlog]. unfold chunk_inv. split; [done|]. split; [done|]. split; [lia|]. split; [lia|done].
  - assert (E0 : nz' = 0) by lia. rewrite E0 in *. rewrite Z.pow_0_r, Z.div_1_r in Htop'. rewrite Z.pow_1_r in Hhi'.
    split; [lia|]. split; [lia|]. by rewrite Htop'.
Qed.

(** A canonical numeral is left alone. *)
Lemma remove_leading_zeroes_id pos ds : canonical ds -> digits_in 36 ds ->
  remove_leading_zeroes pos (radixDigit <$> ds) = (pos, radixDigit <$> ds).
Proof.
  intros [->|(d & ds' & -> & Hd)] Hds; [done|]. inversion Hds; subst. cbn [fmap list_fmap remove_leading_zeroes].
  assert (radixDigit d <> 48).
  { intros E. pose proof (char_digit_radixDigit 36 d ltac:(lia) ltac:(lia)) as Hc. rewrite E in Hc. vm_compute in Hc. congruence. }
  destruct ds' as [|d' ds'']; [done|]. cbn [fmap list_fmap]. by replace (radixDigit d =? 48) with false by lia.
Qed.

Lemma toStringGeneric_spec x radix : wf x -> 0 < digitLength x -> 2 <= radix <= 36 ->
  wp (toStringGeneric x radix) (signed_numeral radix (value x)) no_error.
Proof.
  intros Hx Hpos Hr. destruct (bit_facts x Hx Hpos) as (Hn & _ & Hmax). unfold toStringGeneric.
  wp_step. wp_step; [lia|]. wp_step. wp_step; [unfold isZero; lia|]. wp_step.
  wp_call calculateMaximumCharactersRequired_spec; [done..|]. intros m (p & Hm & Hp & Hfit).
  assert (Hsz : 0 <= Z.b2z (value x <? 0) <= 1) by (destruct (value x <? 0); cbn; lia).
  wp_step; [unfold MaxStringLength in *; bsplit; lia|]. wp_step. apply wp_allocate. intros _. cbv zeta.
  set (s0 := (m, [])). assert (Hs0 : 1 <= p <= s0.1) by (cbn [fst s0]; lia). wp_step. pose proof Base_big. pose proof (wf_lower x Hx Hpos) as Hlow.
  eapply (wp_mono _ (fun '(last, s) => 0 < last < Base /\ emitted radix radixDigit (absval x) last s0 s)); [| |done].
  { destruct (Z.eqb_spec (digitLength x) 1) as [E1|Hne].
    - wp_step. apply wp_digit; [lia|]. wp_step. rewrite one_digit by done.
      pose proof (absval_bound x (wf_digits x Hx)) as Hb. rewrite E1, Z.pow_1_r in Hb. split; [lia|apply emitted_nil].
    - wp_step. apply wp_digit; [lia|]. wp_step. wp_step; [apply negb_true_iff, Z.eqb_neq, Hx; lia|]. wp_step.
      assert (HDB : 0 < DigitBits) by apply DigitBits_pos.
      eapply (wp_loop (chunk_inv x (absval x) radix s0) (fun st => Z.log2 (absval st.1.1.1))).
      { unfold chunk_inv. split; [by apply shape_wf|]. split; [done|]. split; [lia|]. split; [|apply emitted_nil].
        split; [done|]. replace (digitLength x - 1 + 1) with (digitLength x) by lia. by apply absval_bound, wf_digits. }
      { cbn [fst]. assert (0 <= digitLength x * DigitBits) by (apply Z.mul_nonneg_nonneg; lia). rewrite Z2Nat.id by done.
        apply Z.log2_lt_pow2; [done|]. rewrite <- Base_pow2 by lia. by apply absval_bound, wf_digits. }
      { intros st _. apply Z.log2_nonneg. }
      intros st Hst. eapply wp_mono; [apply (chunk_round_spec x (absval x) radix s0 p); [done|done|lia|done|exact Hst]| |done].
      intros [st'|[rest s]]; [done|]. intros (Hl & Hd & He). wp_step. apply wp_digit; [lia|]. by wp_step. }
  intros [last s] [Hlast He]. wp_step.
  eapply wp_mono; [apply (emit_do_from radix ltac:(lia) radixDigit (absval x) last s0 s p); [|done|lia|done|done]| |done].
  { unfold Base in Hlast. destruct DigitBits_cases as [E|E]; rewrite E in Hlast; lia. }
  intros [pos cs] Ha. pose proof Ha as (ds & Hcs & Hpos' & Hds & Hcan & Hv). cbn [fst snd s0] in Hcs, Hpos'. rewrite app_nil_r in Hcs.
  pose proof (canonical_length radix ltac:(lia) ds _ p Hds Hcan Hv ltac:(lia) Hfit) as Hlen.
  wp_step. wp_step; [lia|]. wp_step. wp_step; [lia|].
  assert (H36 : digits_in 36 ds) by (apply Forall_impl with (2 := Hds); cbn; lia).
  rewrite Hcs, remove_leading_zeroes_id by done. rewrite <- Hcs.
  rewrite (wf_value_neg x Hx). wp_step. rewrite (wf_abs_value x Hx) in *.
  eapply wp_mono; [apply (push_sign radix (value x) m (pos, cs) p); [lia|exact Ha|lia|done|lia]| |done].
  intros [pos' cs'] (Hnum & Hps & Hl1 & _). cbn [fst snd] in *. wp_step. wp_step; [lia|].
  eapply wp_mono; [apply copy_to_string_spec| |done]. by intros ? ->.
Qed.
End generic.

(** * Every radix, and reading back *)

Section round_trip.
Context {P : Platform} {K : DigitKernel}.

(** The variant that must not collect garbage gives up on the generic path
    only. *)
Definition gives_up (allowGC : bool) (x : bigint) (radix : Z) : Prop :=
  allowGC = false /\ value x <> 0 /\ IsPowerOfTwo radix = false /\ ~ (radix = 10 /\ Z.abs (value x) < Base).

Lemma toString_spec allowGC x radix : wf x -> 2 <= radix <= 36 ->
  wp (toString allowGC x radix)
    (fun r => match r with
       | Some chars => signed_numeral radix (value x) chars /\ ~ gives_up allowGC x radix
       | None => gives_up allowGC x radix
       end) no_error.
Proof.
  intros Hx Hr. unfold toString, gives_up. wp_step. wp_step; [lia|]. rewrite <- (wf_abs_value x Hx).
  assert (Hz : value x = 0 <-> digitLength x = 0) by (rewrite <- wf_absval_zero, wf_abs_value by done; lia).
  pose proof (digitLength_nonneg x). wp_step; unfold isZero in *; bsplit.
  { wp_step. assert (Hv : value x = 0) by tauto. rewrite Hv. split; [|tauto]. exists [48]. split; [|done].
    exists [0]. split_and!; [done|constructor; [lia|constructor]|by left|done]. }
  assert (Hnz : value x <> 0) by tauto. assert (Hpos : 0 < digitLength x) by lia. wp_step; bsplit.
  { wp_step. eapply wp_mono; [by apply toStringBasePowerOfTwo_spec| |done]. intros chars Hch. wp_step.
    split; [done|]. intros (_ & _ & E & _). congruence. }
  assert (H1 : digitLength x = 1 <-> absval x < Base).
  { split; intros Hd; [pose proof (absval_bound x (wf_digits x Hx)) as Hb; rewrite Hd, Z.pow_1_r in Hb; lia|].
    destruct (Z_lt_le_dec 1 (digitLength x)); [|lia]. pose proof (wf_lower x Hx Hpos) as Hl. pose proof Base_pos.
    assert (Base ^ 1 <= Base ^ (digitLength x - 1)) by (apply Z.pow_le_mono_r; lia). lia. }
  wp_step; bsplit.
  { wp_step. apply wp_digit; [lia|]. rewrite one_digit by done. wp_step.
    pose proof (absval_bound x (wf_digits x Hx)) as Hb. destruct (bit_facts x Hx Hpos) as (Hn & _).
    assert (Hok : digit_ok (absval x)) by (split; [lia|tauto]). assert (Hn0 : absval x <> 0) by lia.
    pose proof (toStringSingleDigitBaseTen_spec (absval x) (isNegative x) Hok Hn0) as Hs. rewrite <- value_signed in Hs.
    eapply wp_mono; [exact Hs| |done]. intros chars Hch. wp_step. subst radix. split; [done|]. tauto. }
  assert (Hn10 : ~ (radix = 10 /\ absval x < Base)).
  { intros [-> Hlt]. apply H1 in Hlt. rewrite Hlt in *. done. }
  wp_step; bsplit; [by wp_step|]. wp_step. eapply wp_mono; [by apply toStringGeneric_spec| |done].
  intros chars Hch. wp_step. split; [done|]. intros [E _]. congruence.
Qed.

(** The parser on a printed numeral. *)
Lemma numeral_value radix n chars : 2 <= radix <= 36 -> numeral radix n chars ->
  literal_value radix 0 chars = Some n /\ chars <> [].
Proof.
  intros Hr (ds & -> & Hds & Hc & Hn). rewrite literal_value_digits by done. split; [f_equal; lia|].
  destruct Hc as [->|(d & ds' & -> & _)]; done.
Qed.

(** The length of the numeral of a number of at most [k] bits. *)
Lemma numeral_length radix n chars k : 2 <= radix <= 36 -> numeral radix n chars -> 0 <= k -> n < 2 ^ k ->
  1 <= zlen chars /\ (zlen chars - 1) * (bits_per_char radix - 1) <= 32 * k.
Proof.
  intros Hr (ds & -> & Hds & Hc & Hn) Hk Hlt. rewrite zlen_fmap. destruct (bits_per_char_bounds radix Hr) as (Hb & _ & Hlow).
  set (c := bits_per_char radix) in *. destruct Hc as [->|(d & ds' & -> & Hd)]; [change (zlen [0]) with 1; lia|].
  rewrite zlen_cons. pose proof (zlen_nonneg ds') as Hl. pose proof (number_of_lower radix ltac:(lia) d ds' Hds Hd) as Hge. rewrite Hn in Hge.
  split; [lia|]. replace (zlen ds' + 1 - 1) with (zlen ds') by lia. set (m := zlen ds') in *.
  destruct (Z_le_gt_dec (m * (c - 1)) (32 * k)) as [|Hgt]; [done|exfalso].
  assert (H1 : 2 ^ (32 * k) <= 2 ^ ((c - 1) * m)) by (apply Z.pow_le_mono_r; lia).
  assert (H2 : (2 ^ (c - 1)) ^ m <= (radix ^ 32) ^ m) by (apply Z.pow_le_mono_l; split; [apply Z.pow_nonneg|]; lia).
  rewrite <- (Z.pow_mul_r 2), <- (Z.pow_mul_r radix), (Z.mul_comm 32 m), (Z.pow_mul_r radix) in H2 by lia.
  assert (H3 : (radix ^ m) ^ 32 < (2 ^ k) ^ 32) by (apply Z.pow_lt_mono_l; [lia|split; [apply Z.pow_nonneg|]; lia]).
  rewrite <- (Z.pow_mul_r 2), (Z.mul_comm k) in H3 by lia. lia.
Qed.

Lemma numeral_not_too_long radix n chars k : 2 <= radix <= 36 -> numeral radix n chars -> 0 <= k <= 1000000 -> n < 2 ^ k ->
  ~ literal_too_long radix chars /\ zlen chars <= MaxStringLength.
Proof.
  intros Hr Hn Hk Hlt. destruct (numeral_length radix n chars k Hr Hn ltac:(lia) Hlt) as [Hl Hm].
  destruct (bits_per_char_bounds radix Hr) as (Hb & _ & _). set (c := bits_per_char radix) in *.
  assert (Hz : zlen (skip_zeroes chars) * c <= zlen chars * c) by (apply Z.mul_le_mono_nonneg_r; [lia|apply skip_zeroes_length]).
  assert (H31 : (zlen chars - 1) * 31 <= (zlen chars - 1) * (c - 1)) by (apply Z.mul_le_mono_nonneg_l; lia).
  unfold literal_too_long. fold c. change (MaxBitLength * bitsPerCharTableMultiplier) with (1048576 * 32).
  unfold MaxStringLength. split; lia.
Qed.

(** A numeral with its sign, as [BigInt(string)] reads it in base ten and
    [parseLiteralDigits] in any radix. *)
Definition read_signed (radix : Z) (chars : list Z) : M bigint :=
  match chars with
  | c :: rest => if c =? 45 then parseLiteralDigits rest radix true else parseLiteralDigits chars radix false
  | [] => throw BigIntInvalidSyntax
  end.

Lemma radixDigit_plain d : 0 <= d < 36 -> 48 <= radixDigit d <= 57 \/ 97 <= radixDigit d <= 122.
Proof.
  intros Hd. assert (H : d ∈ seqZ 0 36) by (apply elem_of_seqZ; lia).
  assert (Hall : forallb (fun d => (48 <=? radixDigit d) && (radixDigit d <=? 57) || (97 <=? radixDigit d) && (radixDigit d <=? 122)) (seqZ 0 36) = true)
    by (vm_compute; reflexivity).
  rewrite forallb_forall in Hall. apply list_elem_of_In in H. specialize (Hall d H). apply orb_true_iff in Hall as [Hb|Hb]; bsplit; lia.
Qed.

Lemma numeral_head radix n c cs : 2 <= radix <= 36 -> numeral radix n (c :: cs) -> 48 <= c <= 57 \/ 97 <= c <= 122.
Proof.
  intros Hr (ds & E & Hds & _). destruct ds as [|d ds]; [done|]. injection E as -> _. inversion Hds; subst.
  apply radixDigit_plain. lia.
Qed.

Lemma parse_numeral radix n chars neg k : 2 <= radix <= 36 -> numeral radix n chars -> 0 <= k <= 1000000 -> n < 2 ^ k ->
  wp (parseLiteralDigits chars radix neg) (fun r => denotes r (signed neg n)) no_error.
Proof.
  intros Hr Hn Hk Hlt. destruct (numeral_value radix n chars Hr Hn) as [Hv Hne].
  destruct (numeral_not_too_long radix n chars k Hr Hn Hk Hlt) as [Hs Hl].
  eapply wp_mono; [by apply parseLiteralDigits_spec| |].
  - intros r (v & Hv' & _ & Hd). rewrite Hv in Hv'. by injection Hv' as <-.
  - intros e [[_ Hnone]|[_ Hb]]; [congruence|contradiction].
Qed.

Lemma read_signed_spec radix v chars k : 2 <= radix <= 36 -> signed_numeral radix v chars -> 0 <= k <= 1000000 -> Z.abs v < 2 ^ k ->
  wp (read_signed radix chars) (fun r => denotes r v) no_error.
Proof.
  intros Hr (ds & Hn & Hch) Hk Hlt. destruct (numeral_value radix _ ds Hr Hn) as [_ Hne]. unfold read_signed.
  destruct (v <? 0) eqn:Hneg; rewrite Hch.
  - replace (45 =? 45) with true by done. eapply wp_mono; [by apply (parse_numeral radix (Z.abs v) ds true k)| |done].
    cbn [signed]. intros r. by replace (- Z.abs v) with v by lia.
  - destruct ds as [|c cs]; [done|]. pose proof (numeral_head radix _ c cs Hr Hn).
    replace (c =? 45) with false by lia. eapply wp_mono; [by apply (parse_numeral radix (Z.abs v) (c :: cs) false k)| |done].
    cbn [signed]. intros r. by replace (Z.abs v) with v by lia.
Qed.
(** ** Through a string of source text *)

Lemma trim_space_id isSpace chars : Forall (fun c => IsSpace isSpace c = false) chars -> trim_space isSpace chars = chars.
Proof.
  intros H. assert (Hs : forall l, Forall (fun c => IsSpace isSpace c = false) l -> skip_space isSpace l = l).
  { intros l Hl. destruct Hl as [|c l Hc _]; [done|]. cbn [skip_space]. by rewrite Hc. }
  unfold trim_space. rewrite (Hs chars H), Hs by (by apply Forall_rev). apply rev_involutive.
Qed.

Lemma decimal_chars isSpace n chars : numeral 10 n chars -> Forall (fun c => 48 <= c <= 57 /\ IsSpace isSpace c = false) chars.
Proof.
  intros (ds & -> & Hds & _). apply Forall_fmap. apply Forall_impl with (2 := Hds). intros d Hd. cbn.
  rewrite <- decimal_digit by lia. split; [lia|]. unfold IsSpace, js_isspace.
  replace (48 + d <? 128) with true by lia. lia.
Qed.

(** [BigInt(string)] on a printed decimal numeral. *)
Lemma parse_decimal isSpace v chars : signed_numeral 10 v chars ->
  ParseStringBigIntLiteral isSpace chars = read_signed 10 chars.
Proof.
  intros (ds & Hn & Hch). pose proof (decimal_chars isSpace _ _ Hn) as Hds. destruct (numeral_value 10 _ _ ltac:(lia) Hn) as [_ Hne].
  assert (Hsp : Forall (fun c => IsSpace isSpace c = false) ds) by (apply Forall_impl with (2 := Hds); intros c [_ H]; exact H).
  unfold ParseStringBigIntLiteral, read_signed. rewrite trim_space_id.
  2:{ rewrite Hch. destruct (v <? 0); [constructor; [done|exact Hsp]|exact Hsp]. }
  destruct (v <? 0); rewrite Hch.
  - replace (45 =? 43) with false by done. rewrite andb_false_r. replace (45 =? 45) with true by done. rewrite andb_true_r.
    replace (zlen (45 :: ds) >? 1) with true; [done|]. destruct ds as [|d ds']; [done|].
    rewrite !zlen_cons. pose proof (zlen_nonneg ds'). lia.
  - destruct ds as [|c cs]; [done|]. inversion Hds as [|? ? [Hc _] Hcs]; subst.
    replace (c =? 43) with false by lia. replace (c =? 45) with false by lia. rewrite !andb_false_r.
    unfold parseLiteral, parseLiteralDigits.
    assert (Hp : forall l u, 57 < l -> 57 < u -> is_prefix (c :: cs) l u = false).
    { intros l u Hl Hu. destruct cs as [|c1 [|c2 cs']]; [done|done|]. cbn [is_prefix]. inversion Hcs as [|? ? [Hc1 _] _]; subst.
      replace (c1 =? l) with false by lia. replace (c1 =? u) with false by lia. apply andb_false_r. }
    rewrite !Hp by lia. unfold moz_assert. destruct (negb (zlen (c :: cs) =? 0)) eqn:E; [done|].
    rewrite zlen_cons in E. pose proof (zlen_nonneg cs). bsplit. lia.
Qed.
(** ** Numerals the reader refuses *)

(** The largest magnitude. *)
Definition largest (neg : bool) : bigint := BigInt neg (replicate (Z.to_nat MaxDigitLength) (Base - 1)).

Lemma eval_largest n : eval (replicate n (Base - 1)) = Base ^ Z.of_nat n - 1.
Proof.
  induction n as [|n IH]; [done|]. cbn [replicate eval]. rewrite IH, Nat2Z.inj_succ, Z.pow_succ_r by lia. lia.
Qed.

Lemma largest_denotes neg : denotes (largest neg) (signed neg (Base ^ MaxDigitLength - 1)).
Proof.
  pose proof MaxDigitLength_big. pose proof Base_big. unfold largest. split.
  - unfold wf, digitLength. cbn [digits isNegative]. rewrite zlen_replicate, Z2Nat.id by lia. split_and!.
    + apply Forall_replicate. unfold digit_ok. lia.
    + lia.
    + lia.
    + intros _. unfold zget. destruct (Z.ltb_spec (MaxDigitLength - 1) 0); [lia|].
      rewrite nth_lookup, lookup_replicate_2 by lia. cbn. lia.
  - rewrite value_signed. cbn [isNegative]. unfold absval. cbn [digits]. by rewrite eval_largest, Z2Nat.id by lia.
Qed.

Lemma bits_per_char_strict radix : 2 <= radix <= 36 -> IsPowerOfTwo radix = false -> radix ^ 32 < 2 ^ bits_per_char radix.
Proof.
  intros H Hp. apply in_radix_range in H.
  assert (Hall : forallb (fun r => IsPowerOfTwo r || (r ^ 32 <? 2 ^ bits_per_char r)) (seqZ 2 35) = true) by (vm_compute; reflexivity).
  rewrite forallb_forall in Hall. apply list_elem_of_In in H. specialize (Hall radix H). cbv beta in Hall. rewrite Hp, orb_false_l in Hall. bsplit. lia.
Qed.

(** The estimate of the bits of an all-ones numeral exceeds their number. *)
Lemma estimate_exceeds radix ds n B : 2 <= radix <= 36 -> IsPowerOfTwo radix = false -> digits_in radix ds -> canonical ds ->
  number_of radix ds = n -> 1 <= B -> n = 2 ^ B - 1 ->
  B * 32 < zlen ds * bits_per_char radix /\ zlen ds <= B.
Proof.
  intros Hr Hpow Hds Hc Hn HB En. destruct (bits_per_char_bounds radix Hr) as (Hb & _).
  pose proof (bits_per_char_strict radix Hr Hpow) as Hup.
  assert (H2 : 2 ^ 1 <= 2 ^ B) by (apply Z.pow_le_mono_r; lia).
  assert (Hfit : n < radix ^ B).
  { assert (2 ^ B <= radix ^ B) by (apply Z.pow_le_mono_l; lia). lia. }
  pose proof (canonical_length radix ltac:(lia) ds n B Hds Hc Hn HB Hfit) as Hlen. split; [|lia].
  set (m := zlen ds) in *. set (c := bits_per_char radix) in *.
  pose proof (number_of_bound radix ltac:(lia) ds Hds) as Hbd. rewrite Hn in Hbd. fold m in Hbd.
  destruct (Z_lt_le_dec (B * 32) (m * c)) as [|Hge]; [done|exfalso].
  assert (H3 : 2 ^ (c * m) <= 2 ^ (B * 32)) by (apply Z.pow_le_mono_r; lia).
  assert (H4 : (radix ^ 32) ^ m < (2 ^ c) ^ m) by (apply Z.pow_lt_mono_l; [lia|split; [apply Z.pow_nonneg; lia|done]]).
  rewrite <- (Z.pow_mul_r 2), <- (Z.pow_mul_r radix), (Z.mul_comm 32 m), (Z.pow_mul_r radix) in H4 by lia.
  assert (H5 : (2 ^ B) ^ 32 <= (radix ^ m) ^ 32) by (apply Z.pow_le_mono_l; split; [apply Z.pow_nonneg|]; lia).
  rewrite <- (Z.pow_mul_r 2) in H5 by lia. lia.
Qed.

Lemma canonical_skip radix ds : 2 <= radix <= 36 -> digits_in radix ds -> canonical ds -> number_of radix ds <> 0 ->
  skip_zeroes (radixDigit <$> ds) = radixDigit <$> ds.
Proof.
  intros Hr Hds [->|(d & ds' & -> & Hd)] Hn; [by cbn in Hn|]. cbn [fmap list_fmap skip_zeroes]. inversion Hds; subst.
  assert (radixDigit d <> 48); [|by replace (radixDigit d =? 48) with false by lia].
  intros E. pose proof (char_digit_radixDigit 36 d ltac:(lia) ltac:(lia)) as Hcd. rewrite E in Hcd. vm_compute in Hcd. congruence.
Qed.

Lemma largest_bits : Base ^ MaxDigitLength = 2 ^ MaxBitLength.
Proof. pose proof MaxDigitLength_big. rewrite Base_pow2, (Z.mul_comm MaxDigitLength), <- MaxBitLength_digits by lia. reflexivity. Qed.

Lemma numeral_too_long radix n chars : 2 <= radix <= 36 -> IsPowerOfTwo radix = false -> numeral radix n chars ->
  n = Base ^ MaxDigitLength - 1 -> literal_too_long radix chars /\ zlen chars <= MaxBitLength.
Proof.
  assert (HB : 1 <= MaxBitLength) by done. intros Hr Hpow Hn En.
  assert (Hn0 : n <> 0).
  { pose proof Base_big. pose proof MaxDigitLength_big. assert (Base ^ 1 <= Base ^ MaxDigitLength) by (apply Z.pow_le_mono_r; lia). lia. }
  rewrite largest_bits in En. destruct Hn as (ds & -> & Hds & Hc & Hn).
  pose proof (estimate_exceeds radix ds n MaxBitLength Hr Hpow Hds Hc Hn HB En) as H.
  unfold literal_too_long. rewrite (canonical_skip radix), !zlen_fmap by (try rewrite Hn; assumption). exact H.
Qed.

Lemma read_signed_refuses radix v chars : 2 <= radix <= 36 -> IsPowerOfTwo radix = false -> signed_numeral radix v chars ->
  Z.abs v = Base ^ MaxDigitLength - 1 ->
  wp (read_signed radix chars) (fun _ => False) (fun e => e = LengthLimit).
Proof.
  intros Hr Hpow (ds & Hn & Hch) Hv. destruct (numeral_value radix _ ds Hr Hn) as [Hval Hne].
  destruct (numeral_too_long radix _ ds Hr Hpow Hn Hv) as [Hlong Hlen].
  assert (Hlen' : zlen ds <= MaxStringLength) by (unfold MaxStringLength, MaxBitLength in *; lia).
  assert (Hparse : forall neg, wp (parseLiteralDigits ds radix neg) (fun _ => False) (fun e => e = LengthLimit)).
  { intros neg. eapply wp_mono; [by apply parseLiteralDigits_spec|by intros r (n & _ & Hnl & _)|].
    intros e [[_ Hnone]|[-> _]]; [congruence|done]. }
  unfold read_signed. destruct (v <? 0) eqn:E; rewrite Hch; [apply Hparse|].
  destruct ds as [|c cs]; [done|]. pose proof (numeral_head radix _ c cs Hr Hn). replace (c =? 45) with false by lia. apply Hparse.
Qed.
End round_trip.
