(* ===== verification/BigIntTheorems.v ===== *)
(** The properties of the BigInt implementation, stated on the definitions of
    the component files and proved from their lemmas, each with the theorem's
    application to concrete values. *)
From S2P Require Import Prelude Words CheckedArithmetic BigIntRep BigIntAdd BigIntMul BigIntDiv BigIntShift BigIntBitwise BigIntConvert BigIntValue.

(** * Values for the applications *)

Section samples.
Definition sample_a : bigint := BigInt true [2 ^ 64 - 5; 3; 2 ^ 63 + 9].
Definition sample_b : bigint := BigInt false [17; 2 ^ 64 - 1].
Definition sample_c : bigint := BigInt false [70].

Lemma sample_a_wf : @wf platform64 sample_a.
Proof. apply wfb_wf. by vm_compute. Qed.
Lemma sample_b_wf : @wf platform64 sample_b.
Proof. apply wfb_wf. by vm_compute. Qed.
Lemma sample_c_wf : @wf platform64 sample_c.
Proof. apply wfb_wf. by vm_compute. Qed.
End samples.

#[local] Existing Instance platform64.
#[local] Existing Instance two_digit_kernel.
#[local] Existing Instance builtin_mul.

(** * The operators of the language *)

(** C1: every binary BigInt operator of the interpreter, run on canonical
    operands with any correct digit kernel and any allocator, outside the
    inputs that [reads_junk] describes, returns the canonical BigInt of the
    integer operation the language prescribes, or fails with the prescribed
    RangeError, at the implementation limit, or because an allocation was
    refused; no assertion fails, no digit is read out of range and no loop
    runs out of fuel.  The inputs left out are those of C19 and nothing else:
    a right shift (or a left shift by a negative count) of a negative value by
    a positive whole number of digits less than its length, which shifts a
    one bit out, where the most significant digit is all ones. *)
Theorem binary_operators_refine {P : Platform} {K : DigitKernel} {C : CheckedMul} op x y :
  wf x -> wf y -> reads_junk op x y = false ->
  wp (binary_value op (BigIntValue x) (BigIntValue y))
    (fun v => exists r, v = BigIntValue r /\ denotes r (binary_spec op (value x) (value y)))
    (operator_error op x y).
Proof.
  intros Hx Hy Hj. apply binary_value_wrap. eapply wp_weaken_ok; [by apply binary_op_spec|]. intros r Hr. by exists r.
Qed.

Lemma binary_operators_refine_witness :
  wp (binary_value OpMod (BigIntValue sample_a) (BigIntValue sample_b))
    (fun v => exists r, v = BigIntValue r /\ denotes r (Z.rem (value sample_a) (value sample_b)))
    (operator_error OpMod sample_a sample_b) /\
  run calm (binary_value OpRsh (BigIntValue sample_a) (BigIntValue sample_c)) =
    Ok (BigIntValue (BigInt true [2 ^ 58 * 9 + 1; 2 ^ 57])).
Proof.
  split; [apply (binary_operators_refine OpMod); [apply sample_a_wf|apply sample_b_wf|reflexivity]|by vm_compute].
Defined.

(** C2: the unary operators negation, increment, decrement and complement
    compute the integer operation; the only range failure is a magnitude of
    all ones that would have to grow by one. *)
Theorem unary_operators_refine {P : Platform} op x : wf x ->
  wp (unary_value op (BigIntValue x))
    (fun v => exists r, v = BigIntValue r /\ denotes r (unary_spec op (value x)))
    (fun e => e = BigIntTooLarge /\ absval x + 1 = Base ^ MaxDigitLength).
Proof. apply unary_value_spec. Qed.

Lemma unary_operators_refine_witness :
  wp (unary_value OpBitNot (BigIntValue sample_a))
    (fun v => exists r, v = BigIntValue r /\ denotes r (Z.lnot (value sample_a)))
    (fun e => e = BigIntTooLarge /\ absval sample_a + 1 = Base ^ MaxDigitLength) /\
  run calm (unary_value OpInc (BigIntValue sample_a)) = Ok (BigIntValue (BigInt true [2 ^ 64 - 6; 3; 2 ^ 63 + 9])).
Proof. split; [apply (unary_operators_refine OpBitNot), sample_a_wf|by vm_compute]. Defined.

(** An operator applied to a BigInt and a value of another type throws
    the TypeError and computes nothing. *)
Theorem mixed_operands_rejected {P : Platform} {K : DigitKernel} {C : CheckedMul} op lhs rhs al n :
  isBigInt lhs <> isBigInt rhs -> binary_value op lhs rhs al n = (Err BigIntToNumber, n).
Proof. intros H. by destruct lhs, rhs, op. Qed.

Lemma mixed_operands_rejected_witness :
  binary_value OpAdd OtherValue (BigIntValue sample_a) calm 0%nat = (Err BigIntToNumber, 0%nat).
Proof. apply (mixed_operands_rejected OpAdd). discriminate. Defined.

(** * Division *)

(** C4: Knuth's Algorithm D.  For a divisor of at least two digits not above
    the dividend, [absoluteDivWithBigIntDivisor] produces the canonical
    quotient and, unnormalised again, the remainder of the magnitudes; it
    fails only on a dividend of the maximal length. *)
Theorem long_division_correct {P : Platform} {K : DigitKernel} x y :
  wf x -> wf y -> 2 <= digitLength y -> absval y <= absval x ->
  wp (absoluteDivWithBigIntDivisor x y true true (isNegative x))
    (fun '(q, r) => exists q' r', q = Some q' /\ r = Some r' /\
       denotes q' (signed (isNegative x) (absval x / absval y)) /\
       absval r' = absval x mod absval y /\ absval r' < absval y)
    (dividend_too_large x).
Proof.
  intros Hx Hy Hn Hle. eapply wp_weaken_ok; [by apply absoluteDivWithBigIntDivisor_spec|].
  intros [q r] (_ & (q' & -> & Hq) & (r' & -> & _ & Hr)). exists q', r'. split_and!; try done; try apply Hq.
  rewrite Hr. apply Z.mod_pos_bound, absval_pos; [done|lia].
Qed.

Lemma long_division_correct_witness :
  wp (absoluteDivWithBigIntDivisor sample_a sample_b true true true)
    (fun '(q, r) => exists q' r', q = Some q' /\ r = Some r' /\
       denotes q' (- (absval sample_a / absval sample_b)) /\
       absval r' = absval sample_a mod absval sample_b /\ absval r' < absval sample_b)
    (dividend_too_large sample_a).
Proof. apply (long_division_correct sample_a sample_b); [apply sample_a_wf|apply sample_b_wf|by vm_compute|by vm_compute]. Defined.

(** A quotient and a remainder computed by [div] and [mod_] recompose the
    dividend, the remainder is smaller than the divisor and takes the sign of
    the dividend. *)
Theorem div_mod_recompose {P : Platform} {K : DigitKernel} x y al q r :
  wf x -> wf y -> run al (div x y) = Ok q -> run al (mod_ x y) = Ok r ->
  value x = value q * value y + value r /\ Z.abs (value r) < Z.abs (value y) /\ 0 <= value r * value x.
Proof.
  intros Hx Hy Hq Hr.
  assert (Hdiv : denotes q (Z.quot (value x) (value y)) /\ value y <> 0).
  { pose proof (div_spec x y Hx Hy al 0%nat) as H. unfold run in Hq. unfold outcome_ok in H. rewrite Hq in H. tauto. }
  assert (Hmod : denotes r (Z.rem (value x) (value y))).
  { pose proof (mod_spec x y Hx Hy al 0%nat) as H. unfold run in Hr. unfold outcome_ok in H. rewrite Hr in H. tauto. }
  destruct Hdiv as [[_ ->] Hnz]. destruct Hmod as [_ ->].
  pose proof (Z.quot_rem (value x) (value y) Hnz). pose proof (Z.rem_bound_abs (value x) (value y) Hnz).
  pose proof (Z.rem_sign_mul (value x) (value y) Hnz). lia.
Qed.

(** C6: a dividend of the maximal length, a divisor of two digits or more,
    and every allocation granted.  When the magnitude of the divisor is not
    above the dividend's, [div] reports [BigIntTooLarge] although the quotient
    fits: the normalised copy of the dividend needs a digit more than any
    BigInt may have.  When it is above, the quotient is 0 and [div] returns
    it. *)
Theorem div_of_longest_fails {P : Platform} {K : DigitKernel} x y al :
  wf x -> wf y -> digitLength x = MaxDigitLength -> 2 <= digitLength y -> ~ may_fail al ->
  (absval y <= absval x ->
     run al (div x y) = Err BigIntTooLarge /\ Z.abs (Z.quot (value x) (value y)) < Base ^ MaxDigitLength) /\
  (absval x < absval y -> exists r, run al (div x y) = Ok r /\ denotes r 0).
Proof.
  intros Hx Hy Hmax Hn Hal. pose proof (wp_run _ _ _ al (div_spec x y Hx Hy) Hal) as H.
  pose proof (absval_pos y Hy ltac:(lia)) as Hy0. pose proof (absval_bound x (wf_digits x Hx)) as [Hx0 Hxb].
  assert (Hnz : value y <> 0) by (rewrite value_signed; destruct (isNegative y); cbn; lia).
  assert (Hq : Z.abs (Z.quot (value x) (value y)) = absval x / absval y).
  { rewrite <- Z.quot_abs, <- !wf_abs_value by done. by apply Z.quot_div_nonneg. }
  split; intros Hle; destruct (run al (div x y)) as [r|e].
  - destruct H as (_ & _ & H). specialize (H (conj Hn Hle)). lia.
  - destruct H as [[_ H]|(_ & _ & -> & _)]; [done|]. split; [done|]. rewrite Hq, <- Hmax.
    apply Z.le_lt_trans with (absval x); [|done]. apply Z.div_le_upper_bound; [done|].
    replace (absval x) with (1 * absval x) at 1 by lia. apply Z.mul_le_mono_nonneg_r; lia.
  - destruct H as ([Hr Hv] & _). exists r. split; [done|]. split; [done|]. rewrite Hv. rewrite Z.div_small in Hq; lia.
  - destruct H as [[_ H]|(_ & [_ H] & _)]; [done|lia].
Qed.

Lemma div_of_longest_fails_witness :
  run calm (div (BigInt false (replicate (Z.to_nat MaxDigitLength) 1)) sample_b) = Err BigIntTooLarge.
Proof.
  assert (Hx : wf (BigInt false (replicate (Z.to_nat MaxDigitLength) 1))) by (apply wfb_wf; vm_compute; reflexivity).
  apply (div_of_longest_fails (BigInt false (replicate (Z.to_nat MaxDigitLength) 1)) sample_b calm);
    [exact Hx|apply sample_b_wf|vm_compute; reflexivity|vm_compute; discriminate|exact calm_never_fails|].
  apply Z.lt_le_incl, length_of_absval; [apply sample_b_wf|exact Hx|vm_compute; reflexivity].
Defined.

(** The estimate of a quotient digit taken from the leading digits is the
    digit itself or one more (Knuth, 4.3.1, Theorems A and B). *)
Theorem quotient_estimate_close {P : Platform} {K : DigitKernel} vd n u len neg j :
  digitLength vd = n -> digits_ok (digits vd) -> 2 <= n -> Base <= 2 * zget (digits vd) (n - 1) ->
  shape neg len u -> 0 <= j -> j + n < len -> pv (digits u) (j + n + 1) < absval vd * Base ^ (j + 1) ->
  wp (estimate_digit vd n (zget (digits vd) (n - 1)) u j)
    (fun qhat => digit_ok qhat /\
       let q := pv (digits u) (j + n + 1) / (absval vd * Base ^ j) in q <= qhat <= q + 1) no_error.
Proof.
  intros Hl Hd Hn Htop Hu Hj Hjn Hlt. eapply wp_weaken_ok; [by apply (estimate_spec vd n Hl Hd Hn Htop u len neg j)|].
  intros qhat [Hq [Hlo Hhi]]. split; [done|]. cbv zeta. pose proof (divisor_lower vd n Hl Hd Hn Htop) as [Hv _].
  pose proof (Base_pow_pos n ltac:(lia)). pose proof (Base_pow_pos j Hj) as HB.
  assert (Hv0 : 0 < absval vd * Base ^ j) by (apply Z.mul_pos_pos; lia).
  assert (pv (digits u) (j + n + 1) / (absval vd * Base ^ j) < qhat + 1) by (apply Z.div_lt_upper_bound; lia).
  assert (qhat - 1 <= pv (digits u) (j + n + 1) / (absval vd * Base ^ j)) by (apply Z.div_le_lower_bound; lia). lia.
Qed.

(** The division by a single digit may write its quotient over the
    dividend, as [toStringGeneric] has it do. *)
Theorem short_division_in_place {P : Platform} {K : DigitKernel} x v :
  digits_ok (digits x) -> 0 < digitLength x -> 1 < v < Base ->
  wp (absoluteDivWithDigitDivisor x v InPlaceQuotient (isNegative x))
    (fun '(q, r) => exists q', q = Some q' /\ shape (isNegative x) (digitLength x) q' /\
       absval x = absval q' * v + r /\ 0 <= r < v) no_error.
Proof.
  intros Hx Hpos Hv. eapply wp_weaken_ok.
  { apply absoluteDivWithDigitDivisor_inplace; [done|done|lia|unfold digit_ok; lia|done]. }
  intros [q r] (q' & -> & Hq & Hqv & ->). exists q'. split; [done|]. split; [done|]. rewrite Hqv.
  pose proof (Z.div_mod (absval x) v ltac:(lia)). pose proof (Z.mod_pos_bound (absval x) v ltac:(lia)). lia.
Qed.

Lemma short_division_in_place_witness :
  wp (absoluteDivWithDigitDivisor sample_b 10 InPlaceQuotient false)
    (fun '(q, r) => exists q', q = Some q' /\ shape false 2 q' /\ absval sample_b = absval q' * 10 + r /\ 0 <= r < 10) no_error /\
  run calm (absoluteDivWithDigitDivisor sample_b 10 InPlaceQuotient false) = Ok (Some (BigInt false [9223372036854775809; 1844674407370955161]), 7).
Proof.
  split; [|vm_compute; reflexivity].
  apply (short_division_in_place sample_b 10); [apply sample_b_wf|reflexivity|split; reflexivity].
Defined.

(** * Digit kernels *)

(** C9: the portable division of two digits by one (Hacker's Delight) and the
    [div] instruction give the same quotient and remainder, whatever the word
    size. *)
Theorem digit_division_kernels_agree {P : Platform} high low divisor al :
  digit_ok low -> 0 <= high < divisor -> digit_ok divisor -> ~ may_fail al ->
  run al (digitDiv_portable high low divisor) = run al (digitDiv_asm high low divisor) /\
  run al (digitDiv_portable high low divisor) = Ok ((high * Base + low) / divisor, (high * Base + low) mod divisor).
Proof.
  intros Hl Hh Hd Hal.
  pose proof (wp_run _ _ _ al (digitDiv_portable_ok high low divisor Hl Hh Hd) Hal) as H1.
  pose proof (wp_run _ _ _ al (digitDiv_asm_ok high low divisor Hl Hh Hd) Hal) as H2.
  destruct (run al (digitDiv_portable high low divisor)), (run al (digitDiv_asm high low divisor)); by subst.
Qed.

Lemma digit_division_kernels_agree_witness :
  run calm (@digitDiv_portable platform32 7 (2 ^ 32 - 3) 11) = run calm (@digitDiv_asm platform32 7 (2 ^ 32 - 3) 11) /\
  run calm (@digitDiv_portable platform32 7 (2 ^ 32 - 3) 11) = Ok ((7 * 2 ^ 32 + (2 ^ 32 - 3)) / 11, (7 * 2 ^ 32 + (2 ^ 32 - 3)) mod 11).
Proof.
  apply (@digit_division_kernels_agree platform32 7 (2 ^ 32 - 3) 11);
    [split; [discriminate|reflexivity]|split; [discriminate|reflexivity]|split; [discriminate|reflexivity]|exact calm_never_fails].
Defined.

(** The product of two digits from four half-digit products equals the
    one from a double-width multiplication. *)
Theorem digit_product_kernels_agree {P : Platform} a b :
  digit_ok a -> digit_ok b ->
  digitMul_portable a b = digitMul_twodigit a b /\
  let '(low, high) := digitMul_portable a b in high * Base + low = a * b /\ digit_ok low /\ digit_ok high.
Proof.
  intros Ha Hb. rewrite digitMul_portable_ok, digitMul_twodigit_ok by done. split; [done|].
  unfold digit_ok in *. pose proof Base_big. pose proof (Z.div_mod (a * b) Base ltac:(apply Base_nonzero)).
  pose proof (Z.mod_pos_bound (a * b) Base). assert (a * b <= (Base - 1) * (Base - 1)) by (apply Z.mul_le_mono_nonneg; lia).
  assert (0 <= a * b / Base) by (apply Z.div_pos; [apply Z.mul_nonneg_nonneg|]; lia).
  assert (a * b / Base < Base) by (apply Z.div_lt_upper_bound; lia). lia.
Qed.

(** C11: the overflow-checked operations of both builds.  The product of two
    unsigned 64-bit integers: the builtin gives the exact product when it is below 2^64 and reports the
    overflow otherwise; the portable variant (Hacker's Delight) does the same
    on positive operands (which is all that its interface [CheckedMul] asks
    for), and on a zero operand it fails the assertion of
    [CountLeadingZeroes64], which the builtin does not call.  The 32-bit sums, differences and products agree on all
    operands. *)
Theorem checked_arithmetic_agrees a b al :
  0 <= a < 2 ^ 64 -> 0 <= b < 2 ^ 64 ->
  run al (SafeMul_builtin a b) = Ok (if a * b <? 2 ^ 64 then Some (a * b) else None) /\
  run al (SafeMul_portable a b) =
    (if (a =? 0) || (b =? 0) then Err AssertionFailed else run al (SafeMul_builtin a b)) /\
  forall c d, SafeAdd_portable c d = SafeAdd_builtin c d /\ SafeSub_portable c d = SafeSub_builtin c d /\
              SafeMul32_portable c d = SafeMul32_builtin c d.
Proof.
  intros Ha Hb.
  assert (H2 : run al (SafeMul_builtin a b) = Ok (if a * b <? 2 ^ 64 then Some (a * b) else None)).
  { unfold SafeMul_builtin, run. destruct (Z.ltb_spec (a * b) (2 ^ 64)); [|done].
    change (Ok (Some (uint64 (a * b))) = Ok (Some (a * b))). do 2 f_equal. apply Z.mod_small. pose proof (Z.mul_nonneg_nonneg a b). lia. }
  split; [done|]. split; [|intros c d; by rewrite SafeAdd_equiv, SafeSub_equiv, SafeMul32_equiv].
  destruct ((a =? 0) || (b =? 0)) eqn:E; [by apply SafeMul_portable_zero|].
  assert (Ha0 : 0 < a < 2 ^ 64) by lia. assert (Hb0 : 0 < b < 2 ^ 64) by lia.
  pose proof (wp_run _ _ _ calm (SafeMul_portable_ok a b Ha0 Hb0) calm_never_fails) as H1.
  rewrite H2, SafeMul_portable_pure. destruct (run calm (SafeMul_portable a b)); by subst.
Qed.

Lemma checked_arithmetic_agrees_witness :
  run calm (SafeMul_portable (2 ^ 33) (2 ^ 31 - 1)) = Ok (Some (2 ^ 33 * (2 ^ 31 - 1))) /\
  run calm (SafeMul_portable 5 0) = Err AssertionFailed /\ run calm (SafeMul_builtin 5 0) = Ok (Some 0).
Proof.
  destruct (checked_arithmetic_agrees (2 ^ 33) (2 ^ 31 - 1) calm) as (H1 & H2 & _); [by split|by split|].
  destruct (checked_arithmetic_agrees 5 0 calm) as (H3 & H4 & _); [by split|by split|].
  split; [|by split]. cbn [Z.eqb orb] in H2. exact (eq_trans H2 H1).
Defined.

(** * Multiplication *)

(** One row of the schoolbook product: [multiplyAccumulate] adds a digit
    multiple of the multiplicand, shifted by whole digits, to the accumulator;
    its carry loop stops inside the accumulator. *)
Theorem multiply_accumulate_correct {P : Platform} {K : DigitKernel} y m acc idx neg len :
  digits_ok (digits y) -> digit_ok m -> shape neg len acc -> 0 <= idx -> digitLength y + idx < len ->
  absval acc + absval y * m * Base ^ idx < Base ^ len ->
  wp (multiplyAccumulate y m acc idx)
    (fun r => shape neg len r /\ absval r = absval acc + absval y * m * Base ^ idx) no_error.
Proof. apply multiplyAccumulate_spec. Qed.

Lemma multiply_accumulate_correct_witness :
  let acc := BigInt false [1; 2 ^ 64 - 1; 2 ^ 64 - 1; 0; 0] in
  wp (multiplyAccumulate sample_b 9 acc 1)
    (fun r => shape false 5 r /\ absval r = absval acc + absval sample_b * 9 * Base ^ 1) no_error.
Proof.
  intros acc. apply (multiply_accumulate_correct sample_b 9 acc 1 false 5);
    [apply sample_b_wf|split; [discriminate|reflexivity]| |discriminate|reflexivity|vm_compute; reflexivity].
  split; [reflexivity|split; [reflexivity|]]. repeat constructor; vm_compute; (discriminate || reflexivity).
Defined.

(** The in-place multiply-and-add of the literal parser reads each digit
    before it overwrites it. *)
Theorem inplace_multiply_add_correct {P : Platform} {K : DigitKernel} r factor summand :
  digits_ok (digits r) -> digit_ok factor -> digit_ok summand ->
  absval r * factor + summand < Base ^ digitLength r ->
  wp (inplaceMultiplyAdd r factor summand)
    (fun r' => shape (isNegative r) (digitLength r) r' /\ absval r' = absval r * factor + summand) no_error.
Proof. apply inplaceMultiplyAdd_spec. Qed.

Lemma inplace_multiply_add_correct_witness :
  let r := BigInt false [2 ^ 64 - 1; 5; 0] in
  wp (inplaceMultiplyAdd r 36 35)
    (fun r' => shape false 3 r' /\ absval r' = absval r * 36 + 35) no_error.
Proof.
  intros r. apply (inplace_multiply_add_correct r 36 35);
    [|split; [discriminate|reflexivity]|split; [discriminate|reflexivity]|vm_compute; reflexivity].
  repeat constructor; vm_compute; (discriminate || reflexivity).
Defined.

(** C14: exponentiation by squaring, with its 64-bit fast path, its
    power-of-two path and its early exits, computes the power; it fails only on
    a negative exponent or when the power needs [MaxDigitLength] digits or
    more. *)
Theorem pow_correct {P : Platform} {K : DigitKernel} {C : CheckedMul} x y :
  wf x -> wf y ->
  wp (pow x y) (fun r => denotes r (value x ^ value y))
    (fun e => (e = BigIntNegativeExponent /\ value y < 0) \/
              (e = BigIntTooLarge /\ Base ^ (MaxDigitLength - 1) <= Z.abs (value x) ^ value y)).
Proof.
  intros Hx Hy. eapply wp_mono; [by apply pow_spec|done|]. intros e [He|(_ & He & Hb)]; [by left|right].
  by rewrite Z.abs_pow in Hb.
Qed.

Lemma pow_correct_witness :
  wp (pow sample_a sample_c) (fun r => denotes r (value sample_a ^ value sample_c))
    (fun e => (e = BigIntNegativeExponent /\ value sample_c < 0) \/
              (e = BigIntTooLarge /\ Base ^ (MaxDigitLength - 1) <= Z.abs (value sample_a) ^ value sample_c)) /\
  run calm (pow (BigInt true [3]) (BigInt false [41])) = Ok (BigInt true [3 ^ 41 mod 2 ^ 64; 3 ^ 41 / 2 ^ 64]).
Proof. split; [apply pow_correct; [apply sample_a_wf|apply sample_c_wf]|vm_compute; reflexivity]. Defined.

(** * Representation and comparison *)

(** C15: the canonical representation is unique, and the comparisons agree with
    the order of the integers: [equal] decides equality of values, [compare]
    is three-valued, [lessThan] is the strict order. *)
Theorem comparisons_correct {P : Platform} same x y : wf x -> wf y -> (same = true -> x = y) ->
  (value x = value y <-> x = y) /\
  wp (equal same x y) (fun b => b = true <-> value x = value y) no_error /\
  wp (compare x y) (fun c => c = Z.sgn (value x - value y)) no_error /\
  wp (lessThan x y) (fun b => b = true <-> value x < value y) no_error.
Proof.
  intros Hx Hy Hs. split; [split; [by apply wf_value_inj|by intros ->]|]. split; [|split].
  - eapply wp_weaken_ok; [by apply equal_spec|]. intros b ->. lia.
  - by apply compare_spec.
  - eapply wp_weaken_ok; [by apply lessThan_spec|]. intros b ->. lia.
Qed.

Lemma comparisons_correct_witness :
  (value sample_a = value sample_b <-> sample_a = sample_b) /\
  wp (equal false sample_a sample_b) (fun b => b = true <-> value sample_a = value sample_b) no_error /\
  wp (compare sample_a sample_b) (fun c => c = Z.sgn (value sample_a - value sample_b)) no_error /\
  wp (lessThan sample_a sample_b) (fun b => b = true <-> value sample_a < value sample_b) no_error.
Proof. apply comparisons_correct; [apply sample_a_wf|apply sample_b_wf|discriminate]. Defined.

(** [destructivelyTrimHighZeroDigits] turns any digit vector into the
    canonical representation of its value. *)
Theorem trim_canonicalises {P : Platform} neg n r :
  shape neg n r -> n <= MaxDigitLength -> (n = 0 -> neg = false) ->
  wp (destructivelyTrimHighZeroDigits r) (fun r' => wf r' /\ value r' = value r) no_error.
Proof.
  intros Hr Hmax Hs. eapply wp_weaken_ok; [by apply trim_spec|]. intros r' [Hwf Hv]. split; [done|].
  rewrite Hv, value_signed. destruct Hr as (-> & <- & _). by rewrite absval_pv.
Qed.

Lemma trim_canonicalises_witness :
  wp (destructivelyTrimHighZeroDigits (BigInt true [7; 0; 5; 0; 0])) (fun r' => wf r' /\ value r' = value (BigInt true [7; 0; 5; 0; 0])) no_error /\
  run calm (destructivelyTrimHighZeroDigits (BigInt true [7; 0; 5; 0; 0])) = Ok (BigInt true [7; 0; 5]).
Proof.
  split; [|reflexivity]. apply (trim_canonicalises true 5); [|vm_compute; discriminate|discriminate].
  split; [reflexivity|split; [reflexivity|]]. repeat constructor; vm_compute; (discriminate || reflexivity).
Defined.

(** * Conversions to machine integers *)

(** C17: the conversions to 64-bit integers wrap modulo 2^64, [isInt64] accepts
    exactly the values an [int64_t] holds, and a value it accepts survives the
    round trip through [toInt64] and [createFromInt64]. *)
Theorem int64_conversions_correct {P : Platform} x : wf x ->
  wp (toUint64 x) (fun r => r = value x mod 2 ^ 64) no_error /\
  wp (toInt64 x) (fun r => r = wrap_signed 64 (value x)) no_error /\
  wp (isInt64 x) (fun r => r = if (- 2 ^ 63 <=? value x) && (value x <? 2 ^ 63) then Some (value x) else None) no_error /\
  (- 2 ^ 63 <= value x < 2 ^ 63 -> wp (v ← toInt64 x; createFromInt64 v) (fun r => r = x) no_error).
Proof.
  intros Hx. split; [by apply toUint64_spec|]. split; [by apply toInt64_spec|]. split; [by apply isInt64_spec|].
  intros Hr. wp_step. wp_call toInt64_spec; [done|]. intros v ->. rewrite wrap_signed_small by lia.
  eapply wp_weaken_ok; [by apply createFromInt64_spec|]. intros r [Hwf Hv]. by apply wf_value_inj.
Qed.

Lemma int64_conversions_correct_witness :
  let x := BigInt true [2 ^ 63] in
  wp (v ← toInt64 x; createFromInt64 v) (fun r => r = x) no_error /\
  run calm (toInt64 x) = Ok (- 2 ^ 63) /\ run calm (isInt64 x) = Ok (Some (- 2 ^ 63)).
Proof.
  intros x. split; [|split; vm_compute; reflexivity]. assert (Hx : wf x) by (apply wfb_wf; vm_compute; reflexivity).
  destruct (int64_conversions_correct x Hx) as (_ & _ & _ & H). apply H. split; [discriminate|reflexivity].
Defined.

(** C18: [BigInt.asUintN] reduces modulo 2^bits and [BigInt.asIntN] to the
    symmetric range around zero, for every 64-bit width, without computing
    2^bits; the only failure is the unsigned truncation of a negative value to
    more bits than a BigInt can have. *)
Theorem truncations_correct {P : Platform} x bits : wf x -> 0 <= bits < 2 ^ 64 ->
  wp (asUintN x bits) (fun r => denotes r (value x mod 2 ^ bits))
     (fun e => e = BigIntTooLarge /\ value x < 0 /\ MaxBitLength < bits) /\
  wp (asIntN x bits) (fun r => denotes r (if bits =? 0 then 0 else wrap_signed bits (value x))) no_error.
Proof. intros Hx Hb. split; [by apply asUintN_spec|by apply asIntN_spec]. Qed.

Lemma truncations_correct_witness :
  wp (asUintN sample_a 130) (fun r => denotes r (value sample_a mod 2 ^ 130))
     (fun e => e = BigIntTooLarge /\ value sample_a < 0 /\ MaxBitLength < 130) /\
  wp (asIntN sample_a 130) (fun r => denotes r (wrap_signed 130 (value sample_a))) no_error /\
  run calm (asUintN sample_a 65) = Ok (BigInt false [5]) /\
  run calm (asIntN sample_a 129) = Ok (BigInt false [5; 2 ^ 64 - 4]).
Proof.
  destruct (truncations_correct sample_a 130 sample_a_wf) as [H1 H2]; [split; [discriminate|reflexivity]|].
  split; [exact H1|]. split; [exact H2|]. split; vm_compute; reflexivity.
Defined.

(** * A defect of the rounding shift *)

(** C19: a negative [x] shifted right by [y] whole digits, fewer than it has,
    with a one bit shifted out and a most significant digit of all ones, which
    is what [rounding_reads_junk] says.  The result gets one more digit for
    the carry of the rounding, nothing writes that digit, and the increment
    reads it: on a heap whose buffers hold [j], any digit but the largest, the
    result is below the floor of the quotient by [j] at the place of the extra
    digit.  A
    left shift by a negative count does the same. *)
Theorem rounding_shift_reads_unwritten_digit {P : Platform} x y j :
  wf x -> wf y -> rounding_reads_junk x y = true -> 0 <= j < Base - 1 ->
  exists r, run (heap_of j) (if value y <? 0 then lsh x y else rsh x y) = Ok r /\
    denotes r (value x / 2 ^ Z.abs (value y) - j * Base ^ (digitLength x - Z.abs (value y) / DigitBits)).
Proof.
  intros Hx Hy Hjunk Hj. pose proof (wf_value_neg y Hy) as Hn.
  replace (if value y <? 0 then lsh x y else rsh x y) with (rshByAbsolute x y) by (unfold lsh, rsh; rewrite Hn; by destruct (value y <? 0)).
  pose proof (wpa_run _ _ _ _ (rshByAbsolute_junk x y j Hx Hy Hjunk Hj) (heap_never_fails j)) as H.
  destruct (run (heap_of j) (rshByAbsolute x y)) as [r|e]; [|done]. exists r. split; [done|]. by rewrite <- wf_abs_value.
Qed.

Lemma rounding_shift_reads_unwritten_digit_witness :
  let x := BigInt true [2 ^ 64 - 1; 2 ^ 64 - 1] in
  let y := BigInt false [64] in
  value x / 2 ^ 64 = - 2 ^ 64 /\
  (exists r, run (heap_of 5) (rsh x y) = Ok r /\ wf r /\ value r = - 6 * 2 ^ 64) /\
  run (heap_of 0) (rsh x y) = Ok (BigInt true [0; 1]) /\
  run (heap_of 5) (rsh x y) = Ok (BigInt true [0; 6]).
Proof.
  intros x y. split; [vm_compute; reflexivity|]. split; [|split; vm_compute; reflexivity].
  destruct (rounding_shift_reads_unwritten_digit x y 5) as (r & Hr & Hwf & Hv);
    [apply wfb_wf; vm_compute; reflexivity|apply wfb_wf; vm_compute; reflexivity|vm_compute; reflexivity|split; vm_compute; congruence|].
  exists r. split; [exact Hr|]. split; [exact Hwf|]. rewrite Hv. vm_compute. reflexivity.
Defined.
