(* ===== verification/DoubleTheorems.v ===== *)
(** The properties of the conversions between doubles, machine integers and
    BigInts. *)
From S2P Require Import Prelude Words CheckedArithmetic BigIntRep BigIntAdd BigIntTheorems FloatingPoint Conversions BigIntDouble.

#[local] Existing Instance platform64.

(** Bit patterns for the applications: 2^53 + 2 negated, 4294967301.75, 0.5. *)
Definition sample_d : Z := 2 ^ 63 + (53 + 1023) * 2 ^ 52 + 1.
Definition sample_e : Z := (32 + 1023) * 2 ^ 52 + 5 * 2 ^ 20 + 3 * 2 ^ 18.
Definition sample_h : Z := 1022 * 2 ^ 52.

Lemma sample_d_double : is_double sample_d.
Proof. split; [discriminate|reflexivity]. Qed.
Lemma sample_e_double : is_double sample_e.
Proof. split; [discriminate|reflexivity]. Qed.

(** C20: ToInt32, ToUint32 and their siblings of every width: for any bit
    pattern the shift-and-mask conversion returns the integer part of the
    number modulo 2^w (0 for NaN and infinities), in the unsigned or the
    signed range, and no shift is out of range. *)
Theorem to_integer_wraps w b : 0 < w <= 64 -> is_double b ->
  wp (ToUnsignedInteger w b) (fun r => r = to_integer_value b mod 2 ^ w) no_error /\
  wp (ToSignedInteger w b) (fun r => r = wrap_signed w (to_integer_value b)) no_error.
Proof. intros Hw Hb. split; [by apply ToUnsignedInteger_spec|by apply ToSignedInteger_spec]. Qed.

Lemma to_integer_wraps_witness :
  wp (ToUnsignedInteger 32 sample_e) (fun r => r = to_integer_value sample_e mod 2 ^ 32) no_error /\
  wp (ToSignedInteger 32 sample_d) (fun r => r = wrap_signed 32 (to_integer_value sample_d)) no_error /\
  run calm (ToUint32 sample_e) = Ok 5 /\ run calm (ToInt32 sample_d) = Ok (- 2).
Proof.
  split; [apply (to_integer_wraps 32 sample_e); [split; [reflexivity|discriminate]|exact sample_e_double]|].
  split; [apply (to_integer_wraps 32 sample_d); [split; [reflexivity|discriminate]|exact sample_d_double]|].
  split; vm_compute; reflexivity.
Defined.

(** C21: [NumberToBigInt] accepts exactly the finite doubles with an integral
    value, and the digits it lays out from the mantissa are the canonical
    BigInt of that value; any other double raises the RangeError. *)
Theorem number_to_bigint_correct {P : Platform} d : is_double d ->
  (IsInteger d = true <-> IsFinite d = true /\ scaled d = integer_part d * 2 ^ 1074) /\
  wp (NumberToBigInt d)
    (fun r => IsInteger d = true /\ denotes r (integer_part d))
    (fun e => e = NonIntegerNumberToBigInt /\ IsInteger d = false).
Proof. intros Hd. split; [by apply IsInteger_spec|by apply NumberToBigInt_spec]. Qed.

Lemma number_to_bigint_correct_witness :
  wp (NumberToBigInt sample_d)
    (fun r => IsInteger sample_d = true /\ denotes r (integer_part sample_d))
    (fun e => e = NonIntegerNumberToBigInt /\ IsInteger sample_d = false) /\
  run calm (NumberToBigInt sample_d) = Ok (BigInt true [2 ^ 53 + 2]) /\
  run calm (NumberToBigInt sample_h) = Err NonIntegerNumberToBigInt.
Proof.
  split; [exact (proj2 (number_to_bigint_correct sample_d sample_d_double))|]. split; vm_compute; reflexivity.
Defined.

(** C22: [numberValue] rounds to nearest, ties to even: no finite double is
    closer to the BigInt than the result, and of two equally near ones the
    result is the one with an even significand.  From 2^1024 up the result is
    an infinity. *)
Theorem number_value_rounds_to_nearest {P : Platform} x : wf x ->
  wp (numberValue x)
    (fun r => is_double r /\
       (absval x < 2 ^ 1024 -> forall d,
          Z.abs (value x * 2 ^ 1074 - scaled r) <= Z.abs (value x * 2 ^ 1074 - scaled d) /\
          (Z.abs (value x * 2 ^ 1074 - scaled r) = Z.abs (value x * 2 ^ 1074 - scaled d) ->
             scaled r <> scaled d -> Z.even r = true)) /\
       (2 ^ 1024 <= absval x -> r = if isNegative x then NegativeInfinity else PositiveInfinity))
    no_error.
Proof.
  intros Hx. eapply wp_weaken_ok; [by apply numberValue_spec|]. intros r ->. pose proof (wf_absval_nonneg x Hx) as Ha.
  split; [by apply round_is_double|]. split.
  - intros Hlt d. rewrite value_signed. by apply round_nearest.
  - intros Hbig. rewrite round_overflow by done. by rewrite infinity_fields.
Qed.

Lemma number_value_rounds_to_nearest_witness :
  let x := BigInt true [2 ^ 10 + 1; 1] in
  wp (numberValue x)
    (fun r => is_double r /\
       (absval x < 2 ^ 1024 -> forall d,
          Z.abs (value x * 2 ^ 1074 - scaled r) <= Z.abs (value x * 2 ^ 1074 - scaled d) /\
          (Z.abs (value x * 2 ^ 1074 - scaled r) = Z.abs (value x * 2 ^ 1074 - scaled d) ->
             scaled r <> scaled d -> Z.even r = true)) /\
       (2 ^ 1024 <= absval x -> r = if isNegative x then NegativeInfinity else PositiveInfinity))
    no_error /\
  run calm (numberValue x) = Ok (2 ^ 63 + (64 + 1023) * 2 ^ 52) /\
  run calm (numberValue (BigInt false [2 ^ 53 + 3])) = Ok ((53 + 1023) * 2 ^ 52 + 2).
Proof.
  intros x. split; [|split; vm_compute; reflexivity].
  apply (number_value_rounds_to_nearest x). apply wfb_wf. vm_compute. reflexivity.
Defined.

(** An integral double survives the round trip through BigInt. *)
Theorem double_bigint_roundtrip {P : Platform} d : is_double d -> IsInteger d = true ->
  wp (x ← NumberToBigInt d; numberValue x) (fun r => is_double r /\ scaled r = scaled d) no_error.
Proof.
  intros Hd Hi. wp_step. eapply wp_mono; [by apply NumberToBigInt_spec| |intros e [_ He]; congruence].
  intros x [_ [Hx Hv]]. eapply wp_weaken_ok; [by apply numberValue_spec|].
  intros r ->. pose proof (wf_absval_nonneg x Hx) as Ha. split; [by apply round_is_double|].
  apply IsInteger_spec in Hi as [Hf Hs]; [|done]. rewrite <- Hv, value_signed in Hs. unfold scaled in *.
  assert (Hm : scaled_magnitude d = absval x * 2 ^ 1074).
  { assert (Hw : 0 < 2 ^ 1074) by (apply Z.pow_pos_nonneg; lia). pose proof (scaled_magnitude_nonneg d).
    assert (0 <= absval x * 2 ^ 1074) by (apply Z.mul_nonneg_nonneg; lia).
    destruct (sign_of d), (isNegative x); cbn [signed] in Hs; lia. }
  rewrite (round_exact _ _ d Ha Hf Hm). destruct (scaled_sign (isNegative x) (absval x) _ Ha eq_refl) as [-> _].
  rewrite Hs, Hm. destruct (isNegative x); cbn [signed]; lia.
Qed.

(** C24: [compare], [equal] and [lessThan] of a BigInt with a double decide
    the order of the exact numbers, with no rounding of either: the answer is
    the sign of the difference for a finite double, and follows the sign of an
    infinity. *)
Theorem compare_with_double_exact {P : Platform} x y : wf x -> is_double y ->
  (IsNaN y = false -> wp (compare_double x y) (fun c => c = compare_value (value x) y) no_error) /\
  wp (equal_double x y) (fun b => b = true <-> IsFinite y = true /\ value x * 2 ^ 1074 = scaled y) no_error /\
  wp (lessThan_double x y)
    (fun r => r = if IsNaN y then None else Some (compare_value (value x) y <? 0)) no_error /\
  wp (double_lessThan y x)
    (fun r => r = if IsNaN y then None else Some (0 <? compare_value (value x) y)) no_error.
Proof.
  intros Hx Hy. split; [by apply compare_double_spec|]. split; [by apply equal_double_spec|].
  by apply lessThan_double_spec.
Qed.

Lemma compare_with_double_exact_witness :
  wp (compare_double sample_a sample_d) (fun c => c = compare_value (value sample_a) sample_d) no_error /\
  run calm (compare_double (BigInt true [2 ^ 53 + 3]) sample_d) = Ok (- 1) /\
  run calm (equal_double (BigInt true [2 ^ 53 + 2]) sample_d) = Ok true.
Proof.
  split; [|split; vm_compute; reflexivity].
  apply (proj1 (compare_with_double_exact sample_a sample_d sample_a_wf sample_d_double)). vm_compute. reflexivity.
Defined.

(** [JS::ToUint8(double)] is declared to return [int8_t], so that from
    128 up it returns a negative number where the unsigned residue is
    prescribed. *)
Theorem to_uint8_is_signed :
  let two_hundred := (7 + 1023) * 2 ^ 52 + 9 * 2 ^ 48 in
  to_integer_value two_hundred = 200 /\
  run calm (ToUnsignedInteger 8 two_hundred) = Ok 200 /\ run calm (ToUint8 two_hundred) = Ok (- 56).
Proof. cbv zeta. split; [|split]; vm_compute; reflexivity. Qed.
