(* ===== verification/StringTheorems.v ===== *)
(** The properties of the conversions between integers and strings: the
    int32 printers, the BigInt printers and the BigInt readers. *)
From Stdlib Require Import String.
From S2P Require Import Prelude Words CheckedArithmetic BigIntRep BigIntMul BigIntTheorems Numerals BigIntString BigIntPrint.

#[local] Open Scope Z_scope.
#[local] Existing Instance platform64.

(** The portable kernel, for the applications. *)
#[local] Existing Instance portable_kernel.

(** C26: the int32 printers: [Int32ToString] in base ten and
    [Int32ToCString] in every base from 2 to 36 write the minus sign and the
    canonical numeral of the magnitude, -2^31 included, and never run past the
    start of their 25 and 34 character buffers. *)
Theorem int32_printers_correct i base : is_int32 i = true -> 2 <= base <= 36 ->
  wp (Int32ToString i) (signed_numeral 10 i) no_error /\
  wp (Int32ToCString i base) (signed_numeral base i) no_error.
Proof. intros Hi Hb. split; [by apply Int32ToString_spec|by apply Int32ToCString_spec]. Qed.

Lemma int32_printers_correct_witness :
  wp (Int32ToCString (- 2 ^ 31) 2) (signed_numeral 2 (- 2 ^ 31)) no_error /\
  run calm (Int32ToString (- 2 ^ 31)) = Ok (codes "-2147483648") /\
  run calm (Int32ToCString (- 2 ^ 31) 2) = Ok (codes "-10000000000000000000000000000000").
Proof.
  split; [|split; vm_compute; reflexivity].
  apply (int32_printers_correct (- 2 ^ 31) 2); [vm_compute; reflexivity|split; discriminate].
Defined.

(** C27: [toString] in every radix: on each of its paths (zero, powers of
    two, one decimal digit, repeated division) the string is the minus sign
    and the canonical numeral of the magnitude.  The buffer sizes computed
    beforehand are enough, and exact for powers of two; the length limit is
    never hit; the variant that may not collect garbage gives up exactly on
    the repeated division. *)
Theorem to_string_correct {P : Platform} {K : DigitKernel} allowGC x radix : wf x -> 2 <= radix <= 36 ->
  wp (toString allowGC x radix)
    (fun r => match r with
       | Some chars => signed_numeral radix (value x) chars /\ ~ gives_up allowGC x radix
       | None => gives_up allowGC x radix
       end) no_error.
Proof. apply toString_spec. Qed.

Lemma to_string_correct_witness :
  wp (toString true sample_a 7)
    (fun r => match r with
       | Some chars => signed_numeral 7 (value sample_a) chars /\ ~ gives_up true sample_a 7
       | None => gives_up true sample_a 7
       end) no_error /\
  run calm (toString true sample_b 16) = Ok (Some (codes "ffffffffffffffff0000000000000011")) /\
  run calm (toString true sample_b 10) = Ok (Some (codes "340282366920938463444927863358058659857")) /\
  run calm (toString false sample_b 10) = Ok None.
Proof.
  split; [|split; [|split]; vm_compute; reflexivity].
  apply (to_string_correct true sample_a 7); [exact sample_a_wf|split; discriminate].
Defined.

(** C28: [parseLiteral] on a literal of at most the maximal string length:
    the prefix selects the radix; the result is the canonical BigInt of the
    numeral, a syntax error when a character is not a digit of the radix, and
    a refusal only when the estimate from the literal's length exceeds the
    largest BigInt.  The digits allocated from that estimate always hold the
    value. *)
Theorem parse_literal_correct {P : Platform} {K : DigitKernel} chars : chars <> [] -> zlen chars <= MaxStringLength ->
  wp (parseLiteral chars)
    (fun r => exists v, literal_value (literal_radix chars) 0 (literal_body chars) = Some v /\
       ~ literal_too_long (literal_radix chars) (literal_body chars) /\ denotes r v)
    (literal_error (literal_radix chars) (literal_body chars)).
Proof. apply parseLiteral_spec. Qed.

Lemma parse_literal_correct_witness :
  wp (parseLiteral (codes "0xFf000000000000000A"))
    (fun r => exists v, literal_value 16 0 (codes "Ff000000000000000A") = Some v /\
       ~ literal_too_long 16 (codes "Ff000000000000000A") /\ denotes r v)
    (literal_error 16 (codes "Ff000000000000000A")) /\
  run calm (parseLiteral (codes "0xFf000000000000000A")) = Ok (BigInt false [10; 255]) /\
  run calm (parseLiteral (codes "0b102")) = Err BigIntInvalidSyntax.
Proof.
  split; [|split; vm_compute; reflexivity].
  apply (parse_literal_correct (codes "0xFf000000000000000A")); [discriminate|vm_compute; discriminate].
Defined.

(** C29: [ParseStringBigIntLiteral], under [BigInt(string)].  Every string has
    exactly one [core] without white space at its ends: the string is white
    space, the core and white space, and the core neither begins nor ends with
    any.  White space is tabulators, line feed, form feed, carriage return,
    space, no-break space and, above ASCII, whatever the generated table says.
    A string of at most [MaxStringLength] characters is read as its core: empty
    is 0, a sign is accepted before a decimal numeral only and not alone,
    anything else is a literal with its prefix; the failures are a character
    that is not a digit and the refusal of a numeral whose length says that it
    may need too many digits, refused allocations apart. *)
Theorem string_to_bigint_correct {P : Platform} {K : DigitKernel} (CharInfo_isSpace : Z -> bool) range :
  zlen range <= MaxStringLength ->
  exists core, trimmed CharInfo_isSpace range core /\ (forall core', trimmed CharInfo_isSpace range core' -> core' = core) /\
    wp (ParseStringBigIntLiteral CharInfo_isSpace range)
      (fun r => exists v, string_value core v /\ denotes r v) (string_error core).
Proof.
  intros Hlen. exists (trim_space CharInfo_isSpace range). split; [apply trim_space_trimmed|].
  split; [apply trimmed_unique|by apply ParseStringBigIntLiteral_spec].
Qed.

Lemma string_to_bigint_correct_witness :
  wp (ParseStringBigIntLiteral (fun c => c =? 5760) (codes "  -42 "))
    (fun r => exists v, string_value (codes "-42") v /\ denotes r v) (string_error (codes "-42")) /\
  run calm (ParseStringBigIntLiteral (fun c => c =? 5760) (160 :: codes " -42" ++ [5760; 12])) = Ok (BigInt true [42]) /\
  run calm (ParseStringBigIntLiteral (fun c => c =? 5760) (codes "-0x10")) = Err BigIntInvalidSyntax /\
  run calm (ParseStringBigIntLiteral (fun c => c =? 5760) (codes "+")) = Err BigIntInvalidSyntax.
Proof.
  split; [|split; [|split]; vm_compute; reflexivity].
  destruct (string_to_bigint_correct (fun c => c =? 5760) (codes "  -42 ")) as (core & _ & Hu & Hwp); [vm_compute; discriminate|].
  assert (E : codes "-42" = core); [apply Hu|rewrite E; exact Hwp]. split.
  - exists (codes "  "), (codes " "). split; [reflexivity|]. split; repeat constructor; apply IsSpace_white; reflexivity.
  - intros c l H. apply IsSpace_not_white. destruct H as [H|H]; [injection H as <- _; reflexivity|].
    apply (f_equal (@rev Z)) in H. rewrite rev_app_distr in H. injection H as <- _. reflexivity.
Defined.

(** [literalIsZero], with which the parser folds conditions on BigInt
    literals, says whether the value of a valid literal is zero. *)
Theorem literal_is_zero_agrees chars v : chars <> [] ->
  literal_value (literal_radix chars) 0 (literal_body chars) = Some v ->
  wp (literalIsZero chars) (fun b => b = (v =? 0)) no_error.
Proof. apply literalIsZero_spec. Qed.

Lemma literal_is_zero_agrees_witness :
  wp (literalIsZero (codes "0o000")) (fun b => b = (0 =? 0)) no_error /\
  run calm (literalIsZero (codes "0b010")) = Ok false.
Proof. split; [apply (literal_is_zero_agrees (codes "0o000") 0); [discriminate|vm_compute; reflexivity]|vm_compute; reflexivity]. Defined.

(** A printed BigInt of up to a million bits reads back, in the radix it
    was printed in, as the same BigInt. *)
Theorem print_read_roundtrip {P : Platform} {K : DigitKernel} x radix k : wf x -> 2 <= radix <= 36 ->
  0 <= k <= 1000000 -> Z.abs (value x) < 2 ^ k ->
  wp (r ← toString true x radix;
      match r with Some chars => read_signed radix chars | None => throw AssertionFailed end)
    (fun y => y = x) no_error.
Proof.
  intros Hx Hr Hk Hlt. wp_step. wp_call toString_spec; [done|done|]. intros [chars|]; [|by intros [? _]].
  intros [Hch _]. wp_call (read_signed_spec radix (value x) chars k); [done..|]. intros y [Hy Hv]. by apply wf_value_inj.
Qed.

(** C32: [BigInt(String(x))] is [x] for every BigInt of up to a million
    bits: the string is not trimmed, is not taken for a literal with a prefix
    and its sign is recognised. *)
Theorem decimal_string_roundtrip {P : Platform} {K : DigitKernel} (CharInfo_isSpace : Z -> bool) x k : wf x ->
  0 <= k <= 1000000 -> Z.abs (value x) < 2 ^ k ->
  wp (r ← toString true x 10;
      match r with Some chars => ParseStringBigIntLiteral CharInfo_isSpace chars | None => throw AssertionFailed end)
    (fun y => y = x) no_error.
Proof.
  intros Hx Hk Hlt. wp_step. wp_call toString_spec; [done|done|]. intros [chars|]; [|by intros [? _]].
  intros [Hch _]. rewrite (parse_decimal _ (value x)) by done.
  wp_call (read_signed_spec 10 (value x) chars k); [done..|]. intros y [Hy Hv]. by apply wf_value_inj.
Qed.

Lemma decimal_string_roundtrip_witness :
  wp (r ← toString true sample_a 10;
      match r with Some chars => ParseStringBigIntLiteral (fun _ => false) chars | None => throw AssertionFailed end)
    (fun y => y = sample_a) no_error /\
  run calm (r ← toString true sample_a 10;
      match r with Some chars => ParseStringBigIntLiteral (fun _ => false) chars | None => throw AssertionFailed end) = Ok sample_a.
Proof.
  split; [|vm_compute; reflexivity].
  apply (decimal_string_roundtrip (fun _ => false) sample_a 192); [exact sample_a_wf|split; discriminate|vm_compute; reflexivity].
Defined.

(** C33: the bound of a million bits cannot go: the largest BigInt is printed, and its
    numeral is then refused in every radix that is not a power of two, since
    the size estimated from the numeral's length exceeds the limit. *)
Theorem largest_is_not_read_back {P : Platform} {K : DigitKernel} radix neg : 2 <= radix <= 36 -> IsPowerOfTwo radix = false ->
  wf (largest neg) /\
  wp (toString true (largest neg) radix) (fun r => r <> None) no_error /\
  wp (r ← toString true (largest neg) radix;
      match r with Some chars => read_signed radix chars | None => throw AssertionFailed end)
    (fun _ => False) (fun e => e = LengthLimit).
Proof.
  intros Hr Hpow. destruct (largest_denotes neg) as [Hwf Hv]. split; [done|]. split.
  - wp_call toString_spec; [done|done|]. intros [chars|]; [done|]. by intros [? _].
  - wp_step. wp_call toString_spec; [done|done|]. intros [chars|]; [|by intros [? _]].
    intros [Hch _]. apply (read_signed_refuses radix (value (largest neg))); [done|done|done|].
    rewrite Hv. pose proof (Base_pow_pos MaxDigitLength). pose proof MaxDigitLength_big. destruct neg; cbn [signed]; lia.
Qed.

Lemma largest_is_not_read_back_witness :
  wp (r ← toString true (largest true) 10;
      match r with Some chars => read_signed 10 chars | None => throw AssertionFailed end)
    (fun _ => False) (fun e => e = LengthLimit).
Proof. apply (largest_is_not_read_back 10 true); [split; discriminate|vm_compute; reflexivity]. Defined.
