(* ===== verification/OrderedHashTable.v ===== *)
(** Insertion-ordered hash tables (ds/OrderedHashTable.h:
    [detail::OrderedHashTable], its [Range]s, [OrderedHashMap] and
    [OrderedHashSet]; mfbt/HashFunctions.h: [ScrambleHashCode]), under the
    [Map] and [Set] of the language.  A [Data*] is the index of a cell of the
    data vector; ranges are the live iterators, in the order of the table's
    two lists, each under the name of its address. *)
From S2P Require Import Prelude CheckedArithmetic.

(** * The hash policy *)

(** [OrderedHashPolicy]; [hash] includes the table's scrambler. *)
Class HashPolicy (Key : Type) := {
  isEmpty : Key -> bool;
  emptyKey : Key;                    (* what makeEmpty stores *)
  hash : Key -> Z;
  match_ : Key -> Key -> bool;
  key_eqb : Key -> Key -> bool;      (* operator== *)
}.

(** What the header asks of a hash policy: effect-free (its members are
    functions) and consistent. *)
Class HashPolicyLaws {Key} (H : HashPolicy Key) : Prop := {
  match_refl k : isEmpty k = false -> match_ k k = true;
  match_sym k l : match_ k l = match_ l k;
  match_trans k l m : match_ k l = true -> match_ l m = true -> match_ k m = true;
  match_hash k l : match_ k l = true -> hash k = hash l;
  match_empty k l : match_ k l = true -> isEmpty k = isEmpty l;
  isEmpty_emptyKey : isEmpty emptyKey = true;
}.

(** [Ops]: the policy on the keys of elements. *)
Class Ops (Key T : Type) := {
  getKey : T -> Key;
  setKey : T -> Key -> T;
  makeEmpty : T -> T;
}.

Class OpsLaws {Key T} (H : HashPolicy Key) (O : Ops Key T) : Prop := {
  getKey_makeEmpty e : getKey (makeEmpty e) = emptyKey;
  getKey_setKey e k : getKey (setKey e k) = k;
}.

Definition kHashNumberBits : Z := 32.
Definition kGoldenRatioU32 : Z := 0x9E3779B9.
Definition ScrambleHashCode (h : Z) : Z := uint32 (h * kGoldenRatioU32).

(** * Definitions *)

Section table.
Context {Key T : Type} {HP : HashPolicy Key} {OP : Ops Key T}.

Record Data := MkData { element : T; chain : option nat }.

Record Range := MkRange { range_i : Z; range_count : Z }.

Record table := Table {
  hashTable : list (option nat);
  data : list Data;                     (* data[0:dataLength] *)
  dataCapacity : Z;
  liveCount : Z;
  hashShift : Z;
  ranges : list (nat * Range);
  nurseryRanges : list (nat * Range);
}.

Definition dataLength (t : table) : Z := zlen (data t).

Definition with_hash (t : table) (ht : list (option nat)) (d : list Data) : table :=
  Table ht d (dataCapacity t) (liveCount t) (hashShift t) (ranges t) (nurseryRanges t).
Definition with_live (t : table) (n : Z) : table :=
  Table (hashTable t) (data t) (dataCapacity t) n (hashShift t) (ranges t) (nurseryRanges t).
Definition with_ranges (t : table) (rs nrs : list (nat * Range)) : table :=
  Table (hashTable t) (data t) (dataCapacity t) (liveCount t) (hashShift t) rs nrs.

(** Cells of the two arrays, read through a pointer. *)
Definition read_bucket (ht : list (option nat)) (h : Z) : M (option nat) :=
  if h <? 0 then throw OutOfBounds
  else match ht !! Z.to_nat h with Some p => mret p | None => throw OutOfBounds end.
Definition read_data (d : list Data) (j : nat) : M Data :=
  match d !! j with Some e => mret e | None => throw OutOfBounds end.

Definition initialBucketsLog2 : Z := 1.
Definition initialBuckets : Z := Z.shiftl 1 initialBucketsLog2.

(** [uint32_t(buckets * fillFactor())]: 8.0/3.0 is just below 8/3, and for a
    power of two the truncated product is the quotient.  The conversion is
    undefined when the product does not fit. *)
Definition capacity_for (buckets : Z) : M Z :=
  let capacity := 8 * buckets / 3 in
  if capacity <? 2 ^ 32 then mret capacity else throw UndefinedBehavior.

(** [1 << n] of type [int]. *)
Definition int_shl1 (n : Z) : M Z :=
  if (0 <=? n) && (n <=? 30) then mret (Z.shiftl 1 n) else throw UndefinedBehavior.

Definition hashBuckets (t : table) : M Z := int_shl1 (kHashNumberBits - hashShift t).

Definition prepareHash (l : Key) : Z := ScrambleHashCode (hash l).

Definition empty_cell (d : Data) : bool := isEmpty (getKey (element d)).

(** Both lists are visited. *)
Definition forEachRange (f : Range -> Range) (t : table) : table :=
  with_ranges t ((fun '(id, r) => (id, f r)) <$> ranges t) ((fun '(id, r) => (id, f r)) <$> nurseryRanges t).

(** ** Ranges *)

(** [while (i < dataLength && isEmpty(data[i])) i++] *)
Fixpoint skip_empty (cells : list Data) (i : Z) : Z :=
  match cells with
  | d :: cells => if empty_cell d then skip_empty cells (i + 1) else i
  | [] => i
  end.
Definition seek (d : list Data) (r : Range) : Range :=
  MkRange (if range_i r <? zlen d then skip_empty (drop (Z.to_nat (range_i r)) d) (range_i r) else range_i r)
    (range_count r).

Definition onRemove (d : list Data) (j : Z) (r : Range) : Range :=
  let r := if j <? range_i r then MkRange (range_i r) (range_count r - 1) else r in
  if j =? range_i r then seek d r else r.
Definition onCompact (r : Range) : Range := MkRange (range_count r) (range_count r).
Definition onClear (r : Range) : Range := MkRange 0 0.

(** The constructor puts a new range at the front of a list. *)
Definition new_range (t : table) (id : nat) (inNursery : bool) : table :=
  let r := seek (data t) (MkRange 0 0) in
  if inNursery then with_ranges t (ranges t) ((id, r) :: nurseryRanges t)
  else with_ranges t ((id, r) :: ranges t) (nurseryRanges t).
Definition all (t : table) (id : nat) : table := new_range t id false.
Definition createRange (t : table) (id : nat) (inNursery : bool) : table := new_range t id inNursery.

(** The copy constructor, and the destructor. *)
Definition copyRange (t : table) (other : Range) (id : nat) : table :=
  with_ranges t ((id, other) :: ranges t) (nurseryRanges t).
Definition destroyRange (t : table) (id : nat) : table :=
  with_ranges t (filter (fun p => p.1 <> id) (ranges t)) (filter (fun p => p.1 <> id) (nurseryRanges t)).
Definition destroyNurseryRanges (t : table) : table := with_ranges t (ranges t) [].

Definition range_empty (t : table) (r : Range) : bool := range_i r >=? dataLength t.

Definition front (t : table) (r : Range) : M T :=
  moz_assert (negb (range_empty t r));;
  d ← read_data (data t) (Z.to_nat (range_i r));
  mret (element d).

Definition popFront (t : table) (r : Range) : M Range :=
  moz_assert (negb (range_empty t r));;
  d ← read_data (data t) (Z.to_nat (range_i r));
  moz_assert (negb (empty_cell d));;
  mret (seek (data t) (MkRange (range_i r + 1) (range_count r + 1))).

(** The range that lives at an address, and a write to it. *)
Definition find_range (t : table) (id : nat) : option Range :=
  match list_find (fun p : nat * Range => p.1 = id) (ranges t ++ nurseryRanges t) with
  | Some (_, (_, r)) => Some r
  | None => None
  end.
Definition set_range (t : table) (id : nat) (r : Range) : table :=
  with_ranges t ((fun p => if decide (p.1 = id) then (id, r) else p) <$> ranges t)
    ((fun p => if decide (p.1 = id) then (id, r) else p) <$> nurseryRanges t).

(** ** Lookup *)

Definition lookup_from (d : list Data) (l : Key) (p : option nat) : M (option nat) :=
  loop (S (length d)) (fun e : option nat =>
    match e with
    | None => mret (inr None)
    | Some j =>
        c ← read_data d j;
        mret (if match_ (getKey (element c)) l then inr (Some j) else inl (chain c))
    end) p.

Definition lookup (t : table) (l : Key) (h : Z) : M (option nat) :=
  p ← read_bucket (hashTable t) (Z.shiftr h (hashShift t));
  lookup_from (data t) l p.

Definition has (t : table) (l : Key) : M bool :=
  e ← lookup t l (prepareHash l);
  mret (match e with Some _ => true | None => false end).

Definition get (t : table) (l : Key) : M (option T) :=
  e ← lookup t l (prepareHash l);
  match e with
  | Some j => c ← read_data (data t) j; mret (Some (element c))
  | None => mret None
  end.

Definition count (t : table) : Z := liveCount t.

(** ** Allocation *)

(** [init] on a table whose lists of ranges are [rs] and [nrs]; [None] when
    it returns false, which leaves every member untouched. *)
Definition init (rs nrs : list (nat * Range)) : M (option table) :=
  let buckets := initialBuckets in
  ok ← try_allocate;
  if negb ok then mret None
  else
    capacity ← capacity_for buckets;
    ok ← try_allocate;
    if negb ok then mret None
    else
      let t := Table (replicate (Z.to_nat buckets) None) [] capacity 0 (kHashNumberBits - initialBucketsLog2) rs nrs in
      b ← hashBuckets t;
      moz_assert (b =? buckets);;
      mret (Some t).

(** ** Rehashing *)

(** Constructing the live elements in a new data vector, one after the
    other. *)
Fixpoint reinsert (shift : Z) (cells : list Data) (ht : list (option nat)) (d : list Data) : M (list (option nat) * list Data) :=
  match cells with
  | [] => mret (ht, d)
  | c :: cells =>
      if empty_cell c then reinsert shift cells ht d
      else
        let h := Z.shiftr (prepareHash (getKey (element c))) shift in
        head ← read_bucket ht h;
        reinsert shift cells (<[Z.to_nat h := Some (length d)]> ht) (d ++ [MkData (element c) head])
  end.

(** The same within one vector: [rp] reads and [wp] writes, [n] cells are
    left.  The element moved from is overwritten or destroyed later. *)
Fixpoint compact (shift : Z) (n : nat) (rp wp : nat) (ht : list (option nat)) (d : list Data)
    : M (list (option nat) * list Data * nat) :=
  match n with
  | O => mret (ht, d, wp)
  | S n =>
      c ← read_data d rp;
      if empty_cell c then compact shift n (S rp) wp ht d
      else
        let h := Z.shiftr (prepareHash (getKey (element c))) shift in
        head ← read_bucket ht h;
        w ← read_data d wp;
        let d := <[wp := MkData (if decide (rp = wp) then element w else element c) head]> d in
        compact shift n (S rp) (S wp) (<[Z.to_nat h := Some wp]> ht) d
  end.

Definition compacted (t : table) : table := forEachRange onCompact t.

Definition rehashInPlace (t : table) : M table :=
  buckets ← hashBuckets t;
  let ht := replicate (Z.to_nat buckets) None in
  '(ht, d, wp) ← compact (hashShift t) (length (data t)) 0 0 ht (data t);
  moz_assert (Z.of_nat wp =? liveCount t);;
  mret (compacted (with_hash t ht (take wp d))).

(** The flag is the result; a refused allocation leaves the table as it was.
    The destroyed vector is freed. *)
Definition rehash (t : table) (newHashShift : Z) : M (table * bool) :=
  if newHashShift =? hashShift t then t ← rehashInPlace t; mret (t, true)
  else
    let newHashBuckets := Z.shiftl 1 (kHashNumberBits - newHashShift) in
    ok ← try_allocate;
    if negb ok then mret (t, false)
    else
      newCapacity ← capacity_for newHashBuckets;
      ok ← try_allocate;
      if negb ok then mret (t, false)
      else
        '(ht, d) ← reinsert newHashShift (data t) (replicate (Z.to_nat newHashBuckets) None) [];
        moz_assert (zlen d =? liveCount t);;
        let t := Table ht d newCapacity (liveCount t) newHashShift (ranges t) (nurseryRanges t) in
        b ← hashBuckets t;
        moz_assert (b =? newHashBuckets);;
        mret (compacted t, true).

(** ** Updates *)

Definition put (t : table) (elem : T) : M (table * bool) :=
  let h := prepareHash (getKey elem) in
  e ← lookup t (getKey elem) h;
  match e with
  | Some j =>
      c ← read_data (data t) j;
      mret (with_hash t (hashTable t) (<[j := MkData elem (chain c)]> (data t)), true)
  | None =>
      '(t, ok) ← (if dataLength t =? dataCapacity t then
                    let newHashShift := if 4 * liveCount t >=? 3 * dataCapacity t
                                        then uint32 (hashShift t - 1) else hashShift t in
                    rehash t newHashShift
                  else mret (t, true));
      if negb ok then mret (t, false)
      else
        let h := Z.shiftr h (hashShift t) in
        head ← read_bucket (hashTable t) h;
        if dataLength t <? dataCapacity t then
          mret (with_hash (with_live t (liveCount t + 1))
                  (<[Z.to_nat h := Some (length (data t))]> (hashTable t))
                  (data t ++ [MkData elem head]), true)
        else throw OutOfBounds
  end.

(** The result and [*foundp]. *)
Definition remove (t : table) (l : Key) : M (table * bool * bool) :=
  e ← lookup t l (prepareHash l);
  match e with
  | None => mret (t, true, false)
  | Some j =>
      c ← read_data (data t) j;
      let t := with_hash (with_live t (liveCount t - 1)) (hashTable t)
                 (<[j := MkData (makeEmpty (element c)) (chain c)]> (data t)) in
      let t := forEachRange (onRemove (data t) (Z.of_nat j)) t in
      b ← hashBuckets t;
      if (b >? initialBuckets) && (4 * liveCount t <? dataLength t) then
        '(t, ok) ← rehash t (hashShift t + 1);
        mret (t, ok, true)
      else mret (t, true, true)
  end.

Definition clear (t : table) : M (table * bool) :=
  '(t, ok) ← (if negb (dataLength t =? 0) then
                _ ← hashBuckets t;
                fresh ← init (ranges t) (nurseryRanges t);
                match fresh with
                | None => mret (t, false)
                | Some t => mret (forEachRange onClear t, true)
                end
              else mret (t, true));
  if negb ok then mret (t, false)
  else
    moz_assert (dataLength t =? 0);;
    moz_assert (liveCount t =? 0);;
    mret (t, true).

(** ** Changing a key *)

(** The places a [Data**] points to: a bucket or the chain field of a
    cell. *)
Inductive link := Bucket (h : Z) | ChainOf (j : nat).

Definition load (ht : list (option nat)) (d : list Data) (ep : link) : M (option nat) :=
  match ep with
  | Bucket h => read_bucket ht h
  | ChainOf j => c ← read_data d j; mret (chain c)
  end.

Definition store (ht : list (option nat)) (d : list Data) (ep : link) (p : option nat) : list (option nat) * list Data :=
  match ep with
  | Bucket h => (<[Z.to_nat h := p]> ht, d)
  | ChainOf j => (ht, alter (fun c => MkData (element c) p) j d)
  end.

(** Follow the chain until the link that points to the entry. *)
Definition find_link (ht : list (option nat)) (d : list Data) (entry : nat) (ep : link) : M link :=
  loop (S (length d)) (fun ep =>
    p ← load ht d ep;
    if decide (p = Some entry) then mret (inr ep)
    else match p with
         | Some j => mret (inl (ChainOf j))
         | None => throw UndefinedBehavior     (* a null pointer is dereferenced *)
         end) ep.

(** Follow the chain while it points above the entry. *)
Definition find_position (ht : list (option nat)) (d : list Data) (entry : nat) (ep : link) : M link :=
  loop (S (length d)) (fun ep =>
    p ← load ht d ep;
    match p with
    | Some j => if decide (entry < j)%nat then mret (inl (ChainOf j)) else mret (inr ep)
    | None => mret (inr ep)
    end) ep.

(** Both functions that change a key move the cell like this. *)
Definition move_entry (t : table) (entry : nat) (oldHash newHash : Z) : M table :=
  ep ← find_link (hashTable t) (data t) entry (Bucket oldHash);
  c ← read_data (data t) entry;
  let '(ht, d) := store (hashTable t) (data t) ep (chain c) in
  ep ← find_position ht d entry (Bucket newHash);
  next ← load ht d ep;
  let '(ht, d) := store ht d (ChainOf entry) next in
  let '(ht, d) := store ht d ep (Some entry) in
  mret (with_hash t ht d).

Definition rekeyFront (t : table) (r : Range) (k : Key) : M table :=
  let entry := Z.to_nat (range_i r) in
  c ← read_data (data t) entry;
  let oldHash := Z.shiftr (prepareHash (getKey (element c))) (hashShift t) in
  let newHash := Z.shiftr (prepareHash k) (hashShift t) in
  let t := with_hash t (hashTable t) (<[entry := MkData (setKey (element c) k) (chain c)]> (data t)) in
  if negb (newHash =? oldHash) then move_entry t entry oldHash newHash else mret t.

Definition rekeyOneEntry (t : table) (current newKey : Key) (elem : T) : M table :=
  if key_eqb current newKey then mret t
  else
    e ← lookup t current (prepareHash current);
    match e with
    | None => mret t
    | Some entry =>
        let oldHash := Z.shiftr (prepareHash current) (hashShift t) in
        let newHash := Z.shiftr (prepareHash newKey) (hashShift t) in
        c ← read_data (data t) entry;
        let t := with_hash t (hashTable t) (<[entry := MkData elem (chain c)]> (data t)) in
        move_entry t entry oldHash newHash
    end.
End table.
Arguments Data : clear implicits.
Arguments table : clear implicits.

(** * Maps and sets *)

(** [OrderedHashMap::Entry] and [MapOps]; [value0] is [Value()]. *)
Record Entry (Key Value : Type) := MkEntry { key : Key; value : Value }.
Arguments MkEntry {Key Value} _ _.
Arguments key {Key Value} _.
Arguments value {Key Value} _.

Definition MapOps {Key Value} (HP : HashPolicy Key) (value0 : Value) : Ops Key (Entry Key Value) :=
  {| getKey e := key e;
     setKey e k := MkEntry k (value e);
     makeEmpty e := MkEntry emptyKey value0 |}.

Definition SetOps {Key} (HP : HashPolicy Key) : Ops Key Key :=
  {| getKey v := v;
     setKey e v := v;
     makeEmpty e := emptyKey |}.

Definition map_put {Key Value} {HP : HashPolicy Key} (value0 : Value) (t : table (Entry Key Value)) (k : Key) (v : Value)
    : M (table (Entry Key Value) * bool) :=
  put (OP := MapOps HP value0) t (MkEntry k v).

Definition map_rekeyOneEntry {Key Value} {HP : HashPolicy Key} (value0 : Value) (t : table (Entry Key Value)) (current newKey : Key)
    : M (table (Entry Key Value)) :=
  e ← get (OP := MapOps HP value0) t current;
  match e with
  | None => mret t
  | Some e => rekeyOneEntry (OP := MapOps HP value0) t current newKey (MkEntry newKey (value e))
  end.

Definition set_rekeyOneEntry {Key} {HP : HashPolicy Key} (t : table Key) (current newKey : Key) : M (table Key) :=
  rekeyOneEntry (OP := SetOps HP) t current newKey newKey.

#[global] Instance MapOps_laws {Key Value} (HP : HashPolicy Key) (value0 : Value) : OpsLaws HP (MapOps HP value0).
Proof. by constructor. Qed.
#[global] Instance SetOps_laws {Key} (HP : HashPolicy Key) : OpsLaws HP (SetOps HP).
Proof. by constructor. Qed.
