(* ===== verification/OrderedHashInv.v ===== *)
(** The invariant of the insertion-ordered hash tables and what their
    operations keep of it: hash chains, lookup, rehashing and ranges. *)
From S2P Require Import Prelude CheckedArithmetic OrderedHashTable.

(** * Live cells *)

Section live.
Context {Key T : Type} {HP : HashPolicy Key} {OP : Ops Key T} {HL : HashPolicyLaws HP} {OL : OpsLaws HP OP}.
Implicit Types (d : list (Data T)) (c : Data T).

Definition live d : list (Data T) := filter (fun c => empty_cell c = false) d.

(** The elements of the table in insertion order: what it stands for. *)
Definition contents d : list T := element <$> live d.

(** How many live cells stand before index [j]. *)
Definition rank d (j : nat) : nat := length (live (take j d)).

Lemma live_app d1 d2 : live (d1 ++ d2) = live d1 ++ live d2.
Proof. apply list.filter_app. Qed.

Lemma contents_app d1 d2 : contents (d1 ++ d2) = contents d1 ++ contents d2.
Proof. unfold contents. by rewrite live_app, fmap_app. Qed.

Lemma contents_live c : empty_cell c = false -> contents [c] = [element c].
Proof. intros Hc. unfold contents, live. by rewrite filter_cons_True. Qed.

Lemma contents_dead c : empty_cell c = true -> contents [c] = [].
Proof. intros Hc. unfold contents, live. rewrite filter_cons_False by congruence. done. Qed.

Lemma length_contents d : length (contents d) = length (live d).
Proof. apply length_fmap. Qed.

(** A vector around one of its cells. *)
Lemma split_at d j c : d !! j = Some c -> d = take j d ++ c :: drop (S j) d.
Proof. intros Hj. by rewrite take_drop_middle. Qed.

Lemma contents_split d j c : d !! j = Some c ->
  contents d = contents (take j d) ++ contents [c] ++ contents (drop (S j) d).
Proof. intros Hj. rewrite (split_at d j c Hj) at 1. rewrite contents_app. f_equal. exact (contents_app [c] _). Qed.

Lemma contents_insert d j c c' : d !! j = Some c ->
  contents (<[j := c']> d) = contents (take j d) ++ contents [c'] ++ contents (drop (S j) d).
Proof.
  intros Hj. assert (Hlt := lookup_lt_Some _ _ _ Hj). rewrite (contents_split (<[j := c']> d) j c') by (by apply list_lookup_insert_eq).
  rewrite take_insert_ge, drop_insert_lt by lia. done.
Qed.

Lemma rank_contents d j : rank d j = length (contents (take j d)).
Proof. unfold rank. by rewrite length_contents. Qed.

Lemma rank_S d j c : d !! j = Some c -> rank d (S j) = (rank d j + if empty_cell c then 0 else 1)%nat.
Proof.
  intros Hj. unfold rank. rewrite (take_S_r _ _ c Hj), live_app, length_app. f_equal. unfold live.
  destruct (empty_cell c) eqn:E; [rewrite filter_cons_False by congruence|rewrite filter_cons_True by done]; done.
Qed.

Lemma rank_mono d i j : (i <= j)%nat -> (rank d i <= rank d j)%nat.
Proof.
  intros Hij. unfold rank. replace (take i d) with (take i (take j d)) by (rewrite take_take; f_equal; lia).
  rewrite <- (take_drop i (take j d)) at 2. rewrite live_app, length_app. lia.
Qed.

Lemma rank_end d : rank d (length d) = length (contents d).
Proof. unfold rank. by rewrite take_ge, length_contents by lia. Qed.

Lemma contents_rank d j c : d !! j = Some c -> empty_cell c = false -> contents d !! rank d j = Some (element c).
Proof.
  intros Hj Hc. rewrite (contents_split d j c Hj), rank_contents, (contents_live c Hc).
  rewrite lookup_app_r by lia. by rewrite Nat.sub_diag.
Qed.

Lemma rank_insert d i j c c' : d !! j = Some c -> empty_cell c = empty_cell c' -> rank (<[j := c']> d) i = rank d i.
Proof.
  intros Hj He. unfold rank. destruct (decide (i <= j)%nat) as [Hij|Hij]; [by rewrite take_insert_ge|].
  rewrite take_insert_lt by lia. assert (Hj' : take i d !! j = Some c) by (rewrite lookup_take_lt by lia; done).
  rewrite <- !length_contents, (contents_insert (take i d) j c c'), (contents_split (take i d) j c) by done. rewrite !length_app. f_equal. f_equal.
  destruct (empty_cell c') eqn:E'; [rewrite !contents_dead by done|rewrite !contents_live by done]; done.
Qed.

(** Strictly fewer live cells before a live cell than after it. *)
Lemma rank_lt d i j c : d !! j = Some c -> empty_cell c = false -> (j < i)%nat -> (rank d j < rank d i)%nat.
Proof. intros Hj Hc Hlt. pose proof (rank_S d j c Hj) as HS. rewrite Hc in HS. pose proof (rank_mono d (S j) i). lia. Qed.

Lemma contents_Some d e : e ∈ contents d -> exists j c, d !! j = Some c /\ empty_cell c = false /\ element c = e.
Proof.
  unfold contents, live. intros H. apply list_elem_of_fmap in H as (c & -> & Hc). apply list_elem_of_filter in Hc as [Hc Hin].
  apply list_elem_of_lookup in Hin as [j Hj]. by exists j, c.
Qed.

Lemma rank_inv d p e : contents d !! p = Some e -> exists j c, d !! j = Some c /\ empty_cell c = false /\ element c = e /\ rank d j = p.
Proof.
  revert p. induction d as [|c d IH] using rev_ind; intros p; [done|]. rewrite contents_app.
  intros [Hp|[Hle Hp]]%lookup_app_Some.
  - destruct (IH p Hp) as (j & c' & Hj & Hc' & He & Hr). exists j, c'. pose proof (lookup_lt_Some _ _ _ Hj).
    split; [by rewrite lookup_app_l by lia|]. split_and!; [done..|]. rewrite <- Hr. unfold rank. by rewrite take_app_le by lia.
  - destruct (empty_cell c) eqn:Ec; [by rewrite contents_dead in Hp|]. rewrite contents_live in Hp by done.
    destruct (p - length (contents d))%nat as [|q] eqn:Eq; [|done]. injection Hp as <-. exists (length d), c.
    split; [by rewrite list_lookup_middle|]. split_and!; [done..|]. unfold rank. rewrite take_app_length, <- length_contents. lia.
Qed.
End live.

Lemma zlen_insert {A} (l : list A) i x : zlen (<[i := x]> l) = zlen l.
Proof. unfold zlen. by rewrite length_insert. Qed.

Lemma zlen_cons' {A} (x : A) l : zlen (x :: l) = zlen l + 1.
Proof. unfold zlen. cbn [length]. lia. Qed.

(** * Hash chains *)

Section chains.
Context {Key T : Type} {HP : HashPolicy Key} {OP : Ops Key T} {HL : HashPolicyLaws HP} {OL : OpsLaws HP OP}.
Implicit Types (d : list (Data T)) (c : Data T) (ht : list (option nat)).

(** The pointer [p] leads through exactly the cells [l]. *)
Fixpoint is_chain d (p : option nat) (l : list nat) : Prop :=
  match l with
  | [] => p = None
  | j :: l => p = Some j /\ exists c, d !! j = Some c /\ is_chain d (chain c) l
  end.

(** The cells of a bucket, the most recent first; [bk] gives the bucket a
    cell was entered in, which an emptied cell keeps. *)
Definition bucket_list (bk : nat -> Z) (n : nat) (b : Z) : list nat :=
  rev (filter (fun j => bk j = b) (seq 0 n)).

Definition chains_ok ht d (bk : nat -> Z) : Prop :=
  forall b, 0 <= b < zlen ht -> exists p, ht !! Z.to_nat b = Some p /\ is_chain d p (bucket_list bk (length d) b).

Definition bucket_of (shift : Z) (k : Key) : Z := Z.shiftr (prepareHash k) shift.

Definition hashed (shift : Z) d (bk : nat -> Z) : Prop :=
  forall j c, d !! j = Some c -> empty_cell c = false -> bk j = bucket_of shift (getKey (element c)).

Lemma is_chain_ext d d' p l :
  (forall j c, j ∈ l -> d !! j = Some c -> exists c', d' !! j = Some c' /\ chain c' = chain c) ->
  is_chain d p l -> is_chain d' p l.
Proof.
  revert p. induction l as [|j l IH]; intros p Hext; cbn [is_chain]; [done|]. intros (-> & c & Hj & Hl). split; [done|].
  destruct (Hext j c) as (c' & Hj' & Hc'); [by left|done|]. exists c'. split; [done|]. rewrite Hc'. apply IH; [|done].
  intros j' c'' Hin. apply Hext. by right.
Qed.

Lemma elem_of_bucket bk n b j : j ∈ bucket_list bk n b <-> (j < n)%nat /\ bk j = b.
Proof.
  unfold bucket_list. rewrite list_elem_of_In, <- in_rev, <- list_elem_of_In, list_elem_of_filter, elem_of_seq. split; [intros [? ?]|intros [? ?]]; (split; [done|lia]) || (split; [lia|done]).
Qed.

Lemma bucket_length bk n b : (length (bucket_list bk n b) <= n)%nat.
Proof. unfold bucket_list. rewrite length_rev. rewrite <- (length_seq n 0) at 2. apply length_filter. Qed.

Lemma bucket_ext bk bk' n b : (forall j, (j < n)%nat -> bk j = bk' j) -> bucket_list bk n b = bucket_list bk' n b.
Proof.
  intros Hext. unfold bucket_list. f_equal. assert (Hin : forall j, j ∈ seq 0 n -> (j < n)%nat) by (intros j; rewrite elem_of_seq; lia).
  revert Hin. induction (seq 0 n) as [|j l IH]; intros Hin; [done|]. rewrite !filter_cons, Hext by (apply Hin; by left).
  rewrite IH by (intros j' Hj'; apply Hin; by right). done.
Qed.

Lemma bucket_S bk n b : bucket_list bk (S n) b = if decide (bk n = b) then n :: bucket_list bk n b else bucket_list bk n b.
Proof.
  unfold bucket_list. rewrite seq_S, list.filter_app, rev_app_distr. cbn [plus]. rewrite filter_cons.
  destruct (decide (bk n = b)); done.
Qed.

(** A new cell at the head of its chain. *)
Lemma chains_push ht d bk c h : chains_ok ht d bk -> 0 <= h < zlen ht -> ht !! Z.to_nat h = Some (chain c) ->
  chains_ok (<[Z.to_nat h := Some (length d)]> ht) (d ++ [c]) (fun j => if decide (j = length d) then h else bk j).
Proof.
  intros Hok Hh Hc b Hb. unfold zlen in Hb. rewrite length_insert in Hb. fold (zlen ht) in Hb.
  rewrite length_app. cbn [length]. rewrite Nat.add_1_r, bucket_S. cbv beta. rewrite (decide_True (P := length d = length d)) by done.
  assert (Hbe : bucket_list (fun j => if decide (j = length d) then h else bk j) (length d) b = bucket_list bk (length d) b).
  { apply bucket_ext. intros j Hj. by rewrite decide_False by lia. }
  rewrite Hbe. destruct (Hok b Hb) as (p & Hp & Hl).
  assert (Hl' : is_chain (d ++ [c]) p (bucket_list bk (length d) b)).
  { eapply is_chain_ext; [|exact Hl]. intros j c' Hin Hj. exists c'. split; [|done]. apply lookup_app_l_Some, Hj. }
  destruct (decide (h = b)) as [->|Hne].
  - rewrite Hc in Hp. injection Hp as <-. exists (Some (length d)). unfold zlen in Hb. split; [apply list_lookup_insert_eq; lia|].
    cbn [is_chain]. split; [done|]. exists c. split; [by rewrite list_lookup_middle|done].
  - exists p. split; [|done]. by rewrite list_lookup_insert_ne by lia.
Qed.

Lemma chains_empty n bk : chains_ok (replicate n None) [] bk.
Proof.
  intros b Hb. exists None. unfold zlen in Hb. rewrite length_replicate in Hb. split; [|done].
  apply lookup_replicate_2. lia.
Qed.

(** Replacing a cell with the same chain field. *)
Lemma chains_update ht d bk j c c' : chains_ok ht d bk -> d !! j = Some c -> chain c' = chain c ->
  chains_ok ht (<[j := c']> d) bk.
Proof.
  intros Hok Hj Hc b Hb. destruct (Hok b Hb) as (p & Hp & Hl). exists p. split; [done|]. rewrite length_insert.
  eapply is_chain_ext; [|exact Hl]. intros j' c'' _ Hj'. destruct (decide (j' = j)) as [->|Hne].
  - exists c'. split; [apply list_lookup_insert_eq; by eapply lookup_lt_Some|congruence].
  - exists c''. by rewrite list_lookup_insert_ne.
Qed.

(** ** Walking a chain *)

Lemma wpa_read_bucket al ht h p (Q : option nat -> Prop) E : 0 <= h -> ht !! Z.to_nat h = Some p -> Q p -> wp_at al (read_bucket ht h) Q E.
Proof. intros Hh Hp HQ. unfold read_bucket. replace (h <? 0) with false by lia. rewrite Hp. by wp_step. Qed.

Lemma wpa_read_data al d j c (Q : Data T -> Prop) E : d !! j = Some c -> Q c -> wp_at al (read_data d j) Q E.
Proof. intros Hj HQ. unfold read_data. rewrite Hj. by wp_step. Qed.

Lemma read_data_eq d j c : d !! j = Some c -> read_data d j = mret c.
Proof. intros Hj. unfold read_data. by rewrite Hj. Qed.

(** The walk ends, and finds a matching cell of the chain if there is one. *)
Lemma lookup_walk al d k l : forall fuel p, is_chain d p l -> (length l < fuel)%nat ->
  wp_at al (loop fuel (fun e : option nat =>
      match e with
      | None => mret (inr None)
      | Some j => c ← read_data d j; mret (if match_ (getKey (element c)) k then inr (Some j) else inl (chain c))
      end) p)
    (fun r => match r with
       | Some j => j ∈ l /\ exists c, d !! j = Some c /\ match_ (getKey (element c)) k = true
       | None => forall j c, j ∈ l -> d !! j = Some c -> match_ (getKey (element c)) k = false
       end) no_error.
Proof.
  induction l as [|j l IH]; intros fuel p Hp Hf; destruct fuel as [|fuel]; try (cbn [length] in Hf; lia); cbn [loop is_chain] in *.
  - subst p. wp_step. wp_step. wp_step. intros j c Hj. by apply not_elem_of_nil in Hj.
  - destruct Hp as (-> & c & Hj & Hl). wp_step. wp_step. apply (wpa_read_data al d j c); [done|]. wp_step.
    destruct (match_ (getKey (element c)) k) eqn:Em.
    + wp_step. split; [by left|]. by exists c.
    + eapply wpa_mono; [apply (IH fuel (chain c)); [done|cbn [length] in Hf; lia]| |done].
      intros [j'|].
      * intros [Hin Hc]. split; [by right|done].
      * intros Hnone j' c' [->|Hin]%elem_of_cons Hj'; [congruence|by apply (Hnone j' c')].
Qed.

Lemma prepareHash_range k shift : 0 <= shift <= 32 -> 0 <= bucket_of shift k < 2 ^ (32 - shift).
Proof.
  intros Hs. unfold bucket_of, prepareHash, ScrambleHashCode, uint32. pose proof (Z.mod_pos_bound (hash k * kGoldenRatioU32) (2 ^ 32)) as Hm.
  rewrite Z.shiftr_div_pow2 by lia. assert (0 < 2 ^ shift) by (apply Z.pow_pos_nonneg; lia).
  split; [apply Z.div_pos; lia|]. apply Z.div_lt_upper_bound; [lia|]. rewrite <- Z.pow_add_r by lia.
  replace (shift + (32 - shift)) with 32 by lia. lia.
Qed.

Lemma match_bucket k l shift : match_ k l = true -> bucket_of shift k = bucket_of shift l.
Proof. intros Hm. unfold bucket_of, prepareHash. by rewrite (match_hash k l Hm). Qed.

(** The element that matches a key, if any. *)
Definition found d (k : Key) (r : option nat) : Prop :=
  match r with
  | Some j => exists c, d !! j = Some c /\ match_ (getKey (element c)) k = true
  | None => forall j c, d !! j = Some c -> match_ (getKey (element c)) k = false
  end.

Lemma lookup_chain al ht d bk shift k : chains_ok ht d bk -> hashed shift d bk -> 0 <= shift <= 32 ->
  zlen ht = 2 ^ (32 - shift) -> isEmpty k = false ->
  wp_at al (p ← read_bucket ht (bucket_of shift k); lookup_from d k p) (found d k) no_error.
Proof.
  intros Hok Hh Hs Hlen Hk. pose proof (prepareHash_range k shift Hs) as Hr. rewrite <- Hlen in Hr.
  destruct (Hok _ Hr) as (p & Hp & Hl). wp_step. apply (wpa_read_bucket al ht _ p); [lia|done|]. unfold lookup_from.
  eapply wpa_mono; [apply (lookup_walk al d k _ (S (length d)) p Hl)| |done].
  { pose proof (bucket_length bk (length d) (bucket_of shift k)). lia. }
  intros [j|]; cbn [found].
  - intros [_ Hc]. done.
  - intros Hnone j c Hj. destruct (match_ (getKey (element c)) k) eqn:Em; [|done]. exfalso.
    assert (He : empty_cell c = false) by (unfold empty_cell; by rewrite (match_empty _ _ Em)).
    rewrite (Hnone j c) in Em; [done| |done]. apply elem_of_bucket. split; [by eapply lookup_lt_Some|].
    rewrite (Hh j c Hj He). by apply match_bucket.
Qed.
End chains.

(** * Rehashing *)

Section rehashing.
Context {Key T : Type} {HP : HashPolicy Key} {OP : Ops Key T} {HL : HashPolicyLaws HP} {OL : OpsLaws HP OP}.
Implicit Types (d : list (Data T)) (c : Data T) (ht : list (option nat)).

Definition all_live d : Prop := Forall (fun c => empty_cell c = false) d.

Lemma all_live_contents d : all_live d -> contents d = element <$> d.
Proof.
  intros H. unfold contents, live. f_equal. induction H as [|c d Hc _ IH]; [done|]. rewrite filter_cons_True by done. by rewrite IH.
Qed.

Lemma all_live_rank d j : all_live d -> (j <= length d)%nat -> rank d j = j.
Proof.
  intros H Hj. rewrite rank_contents, all_live_contents by (by apply list.Forall_take). rewrite length_fmap, length_take. lia.
Qed.

Lemma reinsert_spec al shift cells : forall ht d bk, 0 <= shift <= 32 -> zlen ht = 2 ^ (32 - shift) ->
  chains_ok ht d bk -> hashed shift d bk -> all_live d ->
  wp_at al (reinsert shift cells ht d)
    (fun '(ht', d') => exists bk', zlen ht' = zlen ht /\ chains_ok ht' d' bk' /\ hashed shift d' bk' /\ all_live d' /\
       contents d' = contents d ++ contents cells) no_error.
Proof.
  induction cells as [|c cells IH]; intros ht d bk Hs Hlen Hok Hh Hd; cbn [reinsert].
  { wp_step. exists bk. split_and!; [done..|]. by rewrite app_nil_r. }
  replace (contents (c :: cells)) with (contents [c] ++ contents cells) by (symmetry; exact (contents_app [c] cells)).
  wp_step.
  { rewrite contents_dead by done. by apply (IH ht d bk). }
  pose proof (prepareHash_range (getKey (element c)) shift Hs) as Hr. fold (bucket_of shift (getKey (element c))). rewrite <- Hlen in Hr.
  set (h := bucket_of shift (getKey (element c))) in *. destruct (Hok h Hr) as (p & Hp & _).
  wp_step. apply (wpa_read_bucket al ht h p); [lia|done|].
  eapply wpa_mono; [apply (IH _ (d ++ [MkData (element c) p]) (fun j => if decide (j = length d) then h else bk j))| |done].
  - done.
  - by rewrite zlen_insert.
  - by apply chains_push.
  - intros j c' Hj He. apply lookup_app_Some in Hj as [Hj|[Hle Hj]].
    + rewrite decide_False by (apply lookup_lt_Some in Hj; lia). by apply Hh.
    + destruct (j - length d)%nat eqn:E; [|done]. injection Hj as <-. by rewrite decide_True by lia.
  - apply list.Forall_app. split; [done|]. by constructor.
  - intros [ht' d'] (bk' & H1 & H2 & H3 & H4 & H5). exists bk'. rewrite zlen_insert in H1. split_and!; [done..|].
    rewrite H5, contents_app, <- app_assoc. f_equal. f_equal. rewrite !contents_live by done. done.
Qed.

(** Compaction within the vector does what reinsertion into a new one
    does. *)
Lemma compact_reinsert {B} shift (k : list (option nat) -> list (Data T) -> nat -> M B) al : forall n rp wp ht d n0,
  (wp <= rp)%nat -> (rp + n = length d)%nat ->
  (('(ht, d, wp) ← compact shift n rp wp ht d; k ht (take wp d) wp) al n0) =
  (('(ht, d) ← reinsert shift (drop rp d) ht (take wp d); k ht d (length d)) al n0).
Proof.
  intros n. induction n as [|n IH]; intros rp wp ht d n0 Hle Hn.
  { rewrite drop_ge by lia. cbn [compact reinsert]. rewrite !bind_ret, length_take. by replace (wp `min` length d)%nat with wp by lia. }
  destruct (lookup_lt_is_Some_2 d rp) as [c Hc]; [lia|]. rewrite (drop_S _ c rp Hc). cbn [compact reinsert].
  rewrite (read_data_eq d rp c Hc), bind_ret.
  destruct (empty_cell c) eqn:Ec; [apply IH; lia|].
  set (h := Z.shiftr (prepareHash (getKey (element c))) shift). rewrite !bind_assoc. apply bind_cong. intros head n1 _.
  destruct (lookup_lt_is_Some_2 d wp) as [w Hw]; [lia|]. rewrite (read_data_eq d wp w Hw), bind_ret.
  assert (Hel : (if decide (rp = wp) then element w else element c) = element c).
  { destruct (decide (rp = wp)) as [->|]; [|done]. congruence. }
  rewrite Hel. pose proof (lookup_lt_Some _ _ _ Hw) as Hwl.
  rewrite (IH (S rp) (S wp)) by (rewrite ?length_insert; lia).
  rewrite drop_insert_lt by lia. rewrite (take_S_r _ wp (MkData (element c) head)) by (by apply list_lookup_insert_eq).
  rewrite take_insert_ge by lia. rewrite length_take. by replace (wp `min` length d)%nat with wp by lia.
Qed.
End rehashing.

(** * Moving a cell between chains *)

Section moving.
Context {Key T : Type} {HP : HashPolicy Key} {OP : Ops Key T} {HL : HashPolicyLaws HP} {OL : OpsLaws HP OP}.
Implicit Types (d : list (Data T)) (c : Data T) (ht : list (option nat)).

(** Each bucket leads through the list [f] gives. *)
Definition chains_are ht d (f : Z -> list nat) : Prop :=
  forall b, 0 <= b < zlen ht -> exists p, ht !! Z.to_nat b = Some p /\ is_chain d p (f b).

Definition points ht d (ep : link) (p : option nat) : Prop :=
  match ep with
  | Bucket h => 0 <= h /\ ht !! Z.to_nat h = Some p
  | ChainOf j => exists c, d !! j = Some c /\ chain c = p
  end.

(** The link that ends a walk through [hi]. *)
Definition link_after (ep : link) (hi : list nat) : link :=
  match list.last hi with Some j => ChainOf j | None => ep end.

Lemma wpa_load al ht d ep p (Q : option nat -> Prop) E : points ht d ep p -> Q p -> wp_at al (load ht d ep) Q E.
Proof.
  intros Hp HQ. destruct ep as [h|j]; cbn [load points] in *.
  - destruct Hp as [Hh Hp]. by apply (wpa_read_bucket al ht h p).
  - destruct Hp as (c & Hj & <-). wp_step. apply (wpa_read_data al d j c); [done|]. by wp_step.
Qed.

Lemma link_after_cons ep j hi : link_after (ChainOf j) hi = link_after ep (j :: hi).
Proof. unfold link_after. destruct hi as [|j' hi]; [done|]. rewrite last_cons_cons. by destruct (list.last (j' :: hi)) eqn:E; [|apply last_None in E]. Qed.

Lemma find_link_spec al ht d entry lo hi : forall fuel ep p, points ht d ep p -> is_chain d p (hi ++ entry :: lo) -> entry ∉ hi ->
  (length hi < fuel)%nat ->
  wp_at al (loop fuel (fun ep =>
    p ← load ht d ep;
    if decide (p = Some entry) then mret (inr ep)
    else match p with Some j => mret (inl (ChainOf j)) | None => throw UndefinedBehavior end) ep)
    (fun r => r = link_after ep hi) no_error.
Proof.
  induction hi as [|j hi IH]; intros fuel ep p Hp Hl Hnin Hf; (destruct fuel as [|fuel]; [cbn [length] in Hf; lia|]); cbn [loop app is_chain] in *;
    wp_step; wp_step; apply (wpa_load al ht d ep p); try done.
  - destruct Hl as (-> & _). rewrite decide_True by done. wp_step. by wp_step.
  - destruct Hl as (-> & c & Hj & Hl). apply not_elem_of_cons in Hnin as [Hne Hnin]. rewrite decide_False by congruence. wp_step.
    rewrite <- (link_after_cons ep j hi). apply (IH fuel (ChainOf j) (chain c)); [by exists c|done|done|cbn [length] in Hf; lia].
Qed.

Lemma find_position_spec al ht d entry lo hi : forall fuel ep p, points ht d ep p -> is_chain d p (hi ++ lo) ->
  Forall (fun j => entry < j)%nat hi -> Forall (fun j => j < entry)%nat lo -> (length hi < fuel)%nat ->
  wp_at al (loop fuel (fun ep =>
    p ← load ht d ep;
    match p with
    | Some j => if decide (entry < j)%nat then mret (inl (ChainOf j)) else mret (inr ep)
    | None => mret (inr ep)
    end) ep)
    (fun r => r = link_after ep hi /\ exists q, points ht d r q /\ is_chain d q lo) no_error.
Proof.
  induction hi as [|j hi IH]; intros fuel ep p Hp Hl Hhi Hlo Hf; (destruct fuel as [|fuel]; [cbn [length] in Hf; lia|]); cbn [loop app] in *;
    wp_step; wp_step; apply (wpa_load al ht d ep p); try done.
  - destruct lo as [|j lo]; cbn [is_chain] in Hl.
    + subst p. wp_step. wp_step. split; [done|]. by exists None.
    + pose proof Hl as (-> & _). inversion Hlo; subst. rewrite decide_False by lia. wp_step. wp_step. split; [done|]. by exists (Some j).
  - cbn [is_chain] in Hl. destruct Hl as (-> & c & Hj & Hl). inversion Hhi; subst. rewrite decide_True by done. wp_step.
    rewrite <- (link_after_cons ep j hi). apply (IH fuel (ChainOf j) (chain c)); [by exists c|done|done|done|cbn [length] in Hf; lia].
Qed.

(** Writing a chain field that no walk of [l] reads. *)
Lemma is_chain_alter d p l j q : j ∉ l -> is_chain d p l -> is_chain (alter (fun c => MkData (element c) q) j d) p l.
Proof.
  intros Hj. apply is_chain_ext. intros i c Hi Hc. exists c. split; [|done]. rewrite list_lookup_alter_ne; [done|]. by intros ->.
Qed.

(** Redirecting the end of a walk redirects the chain. *)
Lemma is_chain_redirect d p hi j l l' q : is_chain d p ((hi ++ [j]) ++ l) -> j ∉ hi -> j ∉ l' -> is_chain d q l' ->
  is_chain (alter (fun c => MkData (element c) q) j d) p ((hi ++ [j]) ++ l').
Proof.
  intros Hp Hj Hl' Hq. revert p Hp. induction hi as [|i hi IH]; intros p; cbn [app is_chain].
  - intros (-> & c & Hc & _). split; [done|]. exists (MkData (element c) q). split; [by rewrite list_lookup_alter_eq, Hc|].
    by apply is_chain_alter.
  - intros (-> & c & Hc & Hl). apply not_elem_of_cons in Hj as [Hne Hj]. split; [done|]. exists c.
    split; [by rewrite list_lookup_alter_ne by done|]. by apply IH.
Qed.

Lemma splice ht d f h hi l l' q : chains_are ht d f -> 0 <= h < zlen ht -> f h = hi ++ l -> is_chain d q l' ->
  (forall j b, j ∈ hi -> 0 <= b < zlen ht -> b <> h -> j ∉ f b) -> (forall j, j ∈ hi -> j ∉ l') -> NoDup hi ->
  let '(ht', d') := store ht d (link_after (Bucket h) hi) q in
  zlen ht' = zlen ht /\ element <$> d' = element <$> d /\ chains_are ht' d' (fun b => if decide (b = h) then hi ++ l' else f b).
Proof.
  intros Hch Hh Hf Hq Hdis Hl' Hnd. destruct (Hch h Hh) as (p & Hp & Hl). rewrite Hf in Hl. unfold link_after.
  destruct (list.last hi) as [j|] eqn:El; cbn [store].
  - apply last_Some in El as [hi' ->]. apply list.NoDup_app in Hnd as (_ & Hj & _). split; [done|]. split.
    { apply list_eq. intros i. rewrite !list_lookup_fmap. destruct (decide (i = j)) as [->|Hne]; [rewrite list_lookup_alter_eq; by destruct (d !! j)|by rewrite list_lookup_alter_ne]. }
    assert (Hin : j ∈ hi' ++ [j]) by (apply elem_of_app; right; by left).
    intros b Hb. destruct (decide (b = h)) as [->|Hne].
    + exists p. split; [done|]. apply (is_chain_redirect d p hi' j l); [done| |by apply Hl'|done].
      intros Hj'. apply (Hj j Hj'). by left.
    + destruct (Hch b Hb) as (pb & Hpb & Hlb). exists pb. split; [done|]. apply is_chain_alter; [by apply (Hdis j b)|done].
  - apply last_None in El as ->. split; [apply zlen_insert|]. split; [done|]. unfold zlen in *. intros b Hb. unfold zlen in Hb. rewrite length_insert in Hb.
    destruct (decide (b = h)) as [->|Hne].
    + exists q. split; [|done]. apply list_lookup_insert_eq. lia.
    + destruct (Hch b Hb) as (pb & Hpb & Hlb). exists pb. split; [by rewrite list_lookup_insert_ne by lia|done].
Qed.

(** The cells of a bucket above and below one of its indices. *)
Definition above (bk : nat -> Z) (n e : nat) (b : Z) : list nat := rev (filter (fun j => bk j = b) (seq (S e) (n - S e))).

Lemma bucket_split bk n e b : (e < n)%nat ->
  bucket_list bk n b = above bk n e b ++ (if decide (bk e = b) then [e] else []) ++ bucket_list bk e b.
Proof.
  intros He. unfold bucket_list, above. replace n with (e + S (n - S e))%nat at 1 by lia.
  rewrite seq_app, list.filter_app, rev_app_distr. cbn [plus seq]. rewrite filter_cons.
  destruct (decide (bk e = b)); cbn [rev]; rewrite <- ?app_assoc; done.
Qed.

Lemma elem_of_above bk n e b j : j ∈ above bk n e b <-> (e < j < n)%nat /\ bk j = b.
Proof.
  unfold above. rewrite list_elem_of_In, <- in_rev, <- list_elem_of_In, list_elem_of_filter, elem_of_seq.
  split; [intros [? ?]|intros [? ?]]; (split; [done|lia]) || (split; [lia|done]).
Qed.

Lemma above_nodup bk n e b : NoDup (above bk n e b).
Proof. unfold above. apply NoDup_ListNoDup, NoDup_rev, NoDup_ListNoDup, list.NoDup_filter, NoDup_seq. Qed.

Lemma above_length bk n e b : (length (above bk n e b) <= n)%nat.
Proof. unfold above. rewrite length_rev. etransitivity; [apply length_filter|]. rewrite length_seq. lia. Qed.

Definition rebucket (bk : nat -> Z) (e : nat) (h : Z) (j : nat) : Z := if decide (j = e) then h else bk j.

Lemma rebucket_above bk n e h b : above (rebucket bk e h) n e b = above bk n e b.
Proof.
  unfold above, rebucket. f_equal. assert (Hin : forall j, j ∈ seq (S e) (n - S e) -> (e < j)%nat) by (intros j; rewrite elem_of_seq; lia).
  revert Hin. induction (seq (S e) (n - S e)) as [|j l IH]; intros Hin; [done|]. rewrite !filter_cons.
  assert (e < j)%nat by (apply Hin; by left). rewrite (decide_False (P := j = e)) by lia.
  rewrite IH by (intros j' Hj'; apply Hin; by right). done.
Qed.

Lemma rebucket_below bk e h b : bucket_list (rebucket bk e h) e b = bucket_list bk e b.
Proof. apply bucket_ext. intros j Hj. unfold rebucket. by rewrite decide_False by lia. Qed.

(** The cell leaves its chain and enters the other one at its place. *)
Lemma move_entry_spec al t entry c bk oldHash newHash :
  chains_ok (hashTable t) (data t) bk -> data t !! entry = Some c -> bk entry = oldHash ->
  0 <= oldHash < zlen (hashTable t) -> 0 <= newHash < zlen (hashTable t) ->
  wp_at al (move_entry t entry oldHash newHash)
    (fun t' => exists ht d, t' = with_hash t ht d /\ zlen ht = zlen (hashTable t) /\ element <$> d = element <$> data t /\
       chains_ok ht d (rebucket bk entry newHash)) no_error.
Proof.
  intros Hch He Hbk Ho Hn. pose proof (lookup_lt_Some _ _ _ He) as Hlt. set (n := length (data t)) in *.
  set (ht := hashTable t) in *. set (d := data t) in *. unfold move_entry. fold ht d.
  set (hi := above bk n entry oldHash). set (lo := bucket_list bk entry oldHash).
  assert (Hold : bucket_list bk n oldHash = hi ++ entry :: lo) by (rewrite (bucket_split bk n entry) by done; by rewrite decide_True).
  destruct (Hch oldHash Ho) as (p & Hp & Hl). fold n in Hl. rewrite Hold in Hl.
  assert (Hnin : entry ∉ hi) by (unfold hi; rewrite elem_of_above; lia).
  wp_step. unfold find_link. eapply wpa_mono; [apply (find_link_spec al ht d entry lo hi _ (Bucket oldHash) p); try done| |done].
  { cbn. split; [lia|done]. }
  { pose proof (above_length bk n entry oldHash). fold hi in H. fold n. lia. }
  intros ep ->. wp_step. apply (wpa_read_data al d entry c); [done|].
  assert (Hlo : is_chain d (chain c) lo).
  { assert (Htail : forall hi p, is_chain d p (hi ++ entry :: lo) -> is_chain d (chain c) lo).
    { clear -He. induction hi as [|j hi IH]; intros p; cbn [app is_chain]; [|intros (_ & c' & _ & H); by apply (IH (chain c'))].
      intros (_ & c' & Hc' & H). assert (c' = c) by congruence. by subst. }
    by apply (Htail hi p). }
  pose proof (splice ht d (bucket_list bk n) oldHash hi (entry :: lo) lo (chain c) Hch Ho Hold Hlo) as Hs.
  destruct (store ht d (link_after (Bucket oldHash) hi) (chain c)) as [ht1 d1] eqn:Est. destruct Hs as (Hz1 & Hel1 & Hch1).
  { intros j b Hj Hb Hne Hjb. apply elem_of_above in Hj as [_ Hj]. apply elem_of_bucket in Hjb as [_ Hjb]. congruence. }
  { intros j Hj Hjl. apply elem_of_above in Hj as [Hj _]. apply elem_of_bucket in Hjl as [Hjl _]. lia. }
  { apply above_nodup. }
  (* the chains without the entry *)
  set (f1 := fun b => above bk n entry b ++ bucket_list bk entry b).
  assert (Hf1 : chains_are ht1 d1 f1).
  { intros b Hb. destruct (Hch1 b Hb) as (pb & Hpb & Hlb). exists pb. split; [done|]. unfold f1. destruct (decide (b = oldHash)) as [->|Hne]; [exact Hlb|].
    rewrite (bucket_split bk n entry) in Hlb by done. by rewrite decide_False in Hlb by congruence. }
  destruct (Hf1 newHash) as (p1 & Hp1 & Hl1); [lia|]. wp_step. unfold find_position.
  assert (Hlen1 : length d1 = n) by (rewrite <- (length_fmap element d1), Hel1, length_fmap; done).
  eapply wpa_mono; [apply (find_position_spec al ht1 d1 entry (bucket_list bk entry newHash) (above bk n entry newHash) _ (Bucket newHash) p1)| |done].
  { cbn. split; [lia|done]. }
  { exact Hl1. }
  { apply list.Forall_forall. intros j Hj. apply elem_of_above in Hj. lia. }
  { apply list.Forall_forall. intros j Hj. apply elem_of_bucket in Hj. lia. }
  { pose proof (above_length bk n entry newHash). lia. }
  intros ep [-> (q & Hq & Hlq)]. wp_step. apply (wpa_load al ht1 d1 _ q); [done|]. cbn [store].
  set (d2 := alter (fun c => MkData (element c) q) entry d1).
  assert (Hnf : forall b, entry ∉ f1 b).
  { intros b. unfold f1. rewrite elem_of_app, elem_of_above, elem_of_bucket. lia. }
  assert (Hf2 : chains_are ht1 d2 f1).
  { intros b Hb. destruct (Hf1 b Hb) as (pb & Hpb & Hlb). exists pb. split; [done|]. by apply is_chain_alter. }
  assert (He2 : is_chain d2 (Some entry) (entry :: bucket_list bk entry newHash)).
  { cbn [is_chain]. split; [done|]. destruct (lookup_lt_is_Some_2 d1 entry) as [c1 Hc1]; [lia|].
    exists (MkData (element c1) q). unfold d2. rewrite list_lookup_alter_eq, Hc1. split; [done|]. apply is_chain_alter; [|done].
    rewrite elem_of_bucket. lia. }
  pose proof (splice ht1 d2 f1 newHash (above bk n entry newHash) (bucket_list bk entry newHash) (entry :: bucket_list bk entry newHash) (Some entry) Hf2) as Hs.
  destruct (store ht1 d2 (link_after (Bucket newHash) (above bk n entry newHash)) (Some entry)) as [ht3 d3] eqn:Est3.
  destruct Hs as (Hz3 & Hel3 & Hch3); [lia|done|done|..].
  { intros j b Hj Hb Hne Hjb. apply elem_of_above in Hj as [Hr Hj]. unfold f1 in Hjb. rewrite elem_of_app, elem_of_above, elem_of_bucket in Hjb. lia. }
  { intros j Hj Hjl. apply elem_of_above in Hj as [Hj _]. apply elem_of_cons in Hjl as [->|Hjl]; [lia|]. apply elem_of_bucket in Hjl. lia. }
  { apply above_nodup. }
  wp_step. exists ht3, d3. split; [done|]. split; [lia|].
  assert (Hel2 : element <$> d2 = element <$> d1).
  { apply list_eq. intros i. unfold d2. rewrite !list_lookup_fmap. destruct (decide (i = entry)) as [->|Hne]; [rewrite list_lookup_alter_eq; by destruct (d1 !! entry)|by rewrite list_lookup_alter_ne]. }
  split; [congruence|]. assert (Hlen3 : length d3 = n) by (rewrite <- (length_fmap element d3), Hel3, Hel2, Hel1, length_fmap; done).
  intros b Hb. destruct (Hch3 b Hb) as (pb & Hpb & Hlb). exists pb. split; [done|]. rewrite Hlen3, (bucket_split _ n entry) by done.
  rewrite rebucket_above, rebucket_below. assert (Er : rebucket bk entry newHash entry = newHash) by (unfold rebucket; by rewrite decide_True). rewrite Er.
  destruct (decide (b = newHash)) as [->|Hne].
  - rewrite decide_True by done. exact Hlb.
  - rewrite decide_False by congruence. exact Hlb.
Qed.
End moving.
