(* ===== verification/OrderedHashOps.v ===== *)
(** The operations of the insertion-ordered hash tables keep the invariant
    and refine operations on an abstract state: the list of the elements in
    insertion order and, for each live range, the position of its front. *)
From S2P Require Import Prelude CheckedArithmetic OrderedHashTable OrderedHashInv.

Section specs.
Context {Key T : Type} {HP : HashPolicy Key} {OP : Ops Key T} {HL : HashPolicyLaws HP} {OL : OpsLaws HP OP}.
Implicit Types (d : list (Data T)) (c : Data T) (t : table T) (l : list T).

(** * The abstract state *)

Record astate := AState {
  items : list T;
  positions : list (nat * nat);
  nursery_positions : list (nat * nat);
}.

Definition position (p : nat * Range) : nat * nat := (p.1, Z.to_nat (range_count p.2)).

Definition abs t : astate :=
  AState (contents (data t)) (position <$> ranges t) (position <$> nurseryRanges t).

(** The first element that matches a key. *)
Definition a_find (k : Key) l : option (nat * T) := list_find (fun x => match_ (getKey x) k = true) l.

Definition a_put (e : T) l : list T :=
  match a_find (getKey e) l with Some (p, _) => <[p := e]> l | None => l ++ [e] end.

(** Positions behind a removed element move by one. *)
Definition shift_position (p : nat) (q : nat * nat) : nat * nat :=
  (q.1, if (p <? q.2)%nat then (q.2 - 1)%nat else q.2).

Definition a_remove (p : nat) (a : astate) : astate :=
  AState (delete p (items a)) (shift_position p <$> positions a) (shift_position p <$> nursery_positions a).

Definition a_clear (a : astate) : astate :=
  AState [] ((fun q => (q.1, O)) <$> positions a) ((fun q => (q.1, O)) <$> nursery_positions a).

Definition with_items (a : astate) l : astate := AState l (positions a) (nursery_positions a).

(** * The invariant *)

(** No two elements match. *)
Definition uniq l : Prop :=
  forall i j x y, l !! i = Some x -> l !! j = Some y -> match_ (getKey x) (getKey y) = true -> i = j.

(** The front of a range is a live cell or the end, and its count is the
    number of live cells to the left. *)
Definition range_ok d (r : Range) : Prop :=
  0 <= range_i r <= zlen d /\ range_count r = Z.of_nat (rank d (Z.to_nat (range_i r))) /\
  (forall c, d !! Z.to_nat (range_i r) = Some c -> empty_cell c = false).

Definition ranges_ok d (rs : list (nat * Range)) : Prop := Forall (fun p => range_ok d p.2) rs.

Record inv t : Prop := {
  inv_shift : 2 <= hashShift t <= 31;
  inv_buckets : zlen (hashTable t) = 2 ^ (32 - hashShift t);
  inv_capacity : dataCapacity t = 8 * 2 ^ (32 - hashShift t) / 3;
  inv_fits : dataLength t <= dataCapacity t;
  inv_live : liveCount t = Z.of_nat (length (contents (data t)));
  inv_chains : exists bk, chains_ok (hashTable t) (data t) bk /\ hashed (hashShift t) (data t) bk;
  inv_uniq : uniq (contents (data t));
  inv_ranges : ranges_ok (data t) (ranges t) /\ ranges_ok (data t) (nurseryRanges t);
}.

(** ** Lists *)

Lemma contents_insert_live d j c c' : d !! j = Some c -> empty_cell c = false -> empty_cell c' = false ->
  contents (<[j := c']> d) = <[rank d j := element c']> (contents d).
Proof.
  intros Hj Hc Hc'. rewrite (contents_insert d j c c' Hj), (contents_split d j c Hj), rank_contents, !contents_live by done.
  by rewrite insert_app_r_alt, Nat.sub_diag by lia.
Qed.

Lemma contents_insert_dead d j c c' : d !! j = Some c -> empty_cell c = false -> empty_cell c' = true ->
  contents (<[j := c']> d) = delete (rank d j) (contents d).
Proof.
  intros Hj Hc Hc'. rewrite (contents_insert d j c c' Hj), (contents_split d j c Hj), rank_contents, (contents_live c), (contents_dead c') by done.
  cbn [app]. by rewrite delete_middle.
Qed.

Lemma found_find d k r : isEmpty k = false -> uniq (contents d) -> found d k r ->
  match r with
  | Some j => exists c, d !! j = Some c /\ empty_cell c = false /\ match_ (getKey (element c)) k = true /\
                a_find k (contents d) = Some (rank d j, element c)
  | None => a_find k (contents d) = None
  end.
Proof.
  intros Hk Hu. destruct r as [j|]; cbn [found].
  - intros (c & Hj & Hm). exists c. assert (He : empty_cell c = false) by (unfold empty_cell; by rewrite (match_empty _ _ Hm)).
    split_and!; [done..|]. unfold a_find. apply list_find_Some. pose proof (contents_rank d j c Hj He) as Hr. split_and!; [done..|].
    intros q y Hq Hlt Hmy. assert (q = rank d j); [|lia]. apply (Hu q (rank d j) y (element c) Hq Hr).
    apply match_trans with k; [done|]. by rewrite match_sym.
  - intros Hnone. unfold a_find. apply list_find_None, list.Forall_forall. intros x Hx Hm.
    apply contents_Some in Hx as (j & c & Hj & _ & <-). by rewrite (Hnone j c Hj) in Hm.
Qed.

Lemma uniq_replace l p x e : uniq l -> l !! p = Some x -> match_ (getKey x) (getKey e) = true -> uniq (<[p := e]> l).
Proof.
  intros Hu Hp Hm i j y z Hi Hj Hyz. pose proof (lookup_lt_Some _ _ _ Hp) as Hlt.
  apply list_lookup_insert_Some in Hi, Hj.
  destruct Hi as [(<- & <- & _)|[Hne Hi]], Hj as [(Ej & Ez & _)|[Hne' Hj]]; [done|..].
  - apply (Hu p j x z Hp Hj). by apply match_trans with (getKey e).
  - subst j z. apply (Hu i p y x Hi Hp). apply match_trans with (getKey e); [done|]. by rewrite match_sym.
  - by apply (Hu i j y z).
Qed.

Lemma uniq_append l e : uniq l -> a_find (getKey e) l = None -> uniq (l ++ [e]).
Proof.
  intros Hu Hf i j y z Hi Hj Hyz. unfold a_find in Hf. apply list_find_None in Hf. rewrite list.Forall_forall in Hf.
  apply lookup_app_Some in Hi, Hj. destruct Hi as [Hi|[Hle Hi]], Hj as [Hj|[Hle' Hj]].
  - by apply (Hu i j y z).
  - apply list_lookup_singleton_Some in Hj as [_ <-]. exfalso. apply (Hf y); [by eapply list_elem_of_lookup_2|done].
  - apply list_lookup_singleton_Some in Hi as [_ <-]. exfalso. apply (Hf z); [by eapply list_elem_of_lookup_2|]. by rewrite match_sym.
  - apply list_lookup_singleton_Some in Hi as [? _], Hj as [? _]. lia.
Qed.

Lemma uniq_delete l p : uniq l -> uniq (delete p l).
Proof.
  intros Hu i j y z Hi Hj Hyz. rewrite list_lookup_delete in Hi, Hj.
  assert (E : (if decide (i < p)%nat then i else S i) = (if decide (j < p)%nat then j else S j)) by (repeat case_decide; eauto).
  repeat case_decide; lia.
Qed.

(** ** Ranges *)

Lemma skip_empty_spec d i : let i' := skip_empty d i in
  i <= i' <= i + zlen d /\
  (forall n c, d !! n = Some c -> Z.of_nat n < i' - i -> empty_cell c = true) /\
  (forall c, d !! Z.to_nat (i' - i) = Some c -> empty_cell c = false).
Proof.
  cbv zeta. revert i. induction d as [|c d IH]; intros i; cbn [skip_empty].
  { change (zlen []) with 0. split; [lia|]. split; [intros n c; by rewrite lookup_nil|intros c; by rewrite lookup_nil]. }
  rewrite zlen_cons'. pose proof (zlen_nonneg d). destruct (empty_cell c) eqn:Ec.
  - destruct (IH (i + 1)) as (H1 & H2 & H3). split; [lia|]. split.
    + intros [|n] c' Hn Hlt; [injection Hn as <-; done|]. apply (H2 n c'); [done|lia].
    + intros c' Hn. apply H3. replace (Z.to_nat (skip_empty d (i + 1) - i)) with (S (Z.to_nat (skip_empty d (i + 1) - (i + 1)))) in Hn by lia. done.
  - split; [lia|]. split; [intros n c' _ Hlt; lia|]. intros c' Hn. rewrite Z.sub_diag in Hn. by injection Hn as <-.
Qed.

Lemma rank_skip d i : forall n, (forall m c, (i <= m < i + n)%nat -> d !! m = Some c -> empty_cell c = true) ->
  (i + n <= length d)%nat -> rank d (i + n) = rank d i.
Proof.
  induction n as [|n IH]; intros Hall Hle; [by rewrite Nat.add_0_r|].
  destruct (lookup_lt_is_Some_2 d (i + n)) as [c Hc]; [lia|]. rewrite Nat.add_succ_r, (rank_S d (i + n) c Hc), (Hall (i + n)%nat c) by (done || lia).
  rewrite IH; [lia| |lia]. intros m c' Hm. apply Hall. lia.
Qed.

Lemma seek_ok d r : 0 <= range_i r <= zlen d -> range_count r = Z.of_nat (rank d (Z.to_nat (range_i r))) -> range_ok d (seek d r).
Proof.
  intros Hi Hc. unfold seek, range_ok. cbn [range_i range_count]. destruct (Z.ltb_spec (range_i r) (zlen d)) as [Hlt|Hge].
  2:{ split; [done|]. split; [done|]. intros c Hl. apply lookup_lt_Some in Hl. unfold zlen in *. lia. }
  destruct (skip_empty_spec (drop (Z.to_nat (range_i r)) d) (range_i r)) as (H1 & H2 & H3).
  set (i' := skip_empty _ _) in *. assert (Hlen : zlen (drop (Z.to_nat (range_i r)) d) = zlen d - range_i r) by (unfold zlen in *; rewrite length_drop; lia).
  rewrite Hlen in H1. split; [lia|]. split.
  - rewrite Hc. replace (Z.to_nat i') with (Z.to_nat (range_i r) + Z.to_nat (i' - range_i r))%nat by lia. f_equal. symmetry. apply rank_skip.
    + intros m c Hm Hl. apply (H2 (m - Z.to_nat (range_i r))%nat c); [|lia]. rewrite lookup_drop. by replace (_ + (m - _))%nat with m by lia.
    + unfold zlen in *. lia.
  - intros c Hl. apply H3. rewrite lookup_drop. by replace (_ + _)%nat with (Z.to_nat i') by lia.
Qed.

Lemma range_ok_update d j c c' r : d !! j = Some c -> empty_cell c = empty_cell c' -> range_ok d r -> range_ok (<[j := c']> d) r.
Proof.
  intros Hj He (Hi & Hc & Hl). split; [by rewrite zlen_insert|]. split; [by rewrite (rank_insert d _ j c c')|].
  intros c'' H''. apply list_lookup_insert_Some in H'' as [(E & <- & _)|[_ H'']]; [|by apply Hl].
  rewrite <- He. apply Hl. by rewrite <- E.
Qed.

Lemma range_ok_push d c r : empty_cell c = false -> range_ok d r -> range_ok (d ++ [c]) r.
Proof.
  intros He (Hi & Hc & Hl). unfold zlen in Hi. split; [unfold zlen; rewrite length_app; lia|]. split.
  - rewrite Hc. unfold rank. rewrite take_app_le by lia. done.
  - intros c' [H'|[_ H']]%lookup_app_Some; [by apply Hl|]. by apply list_lookup_singleton_Some in H' as [_ <-].
Qed.

(** The ranks after a cell is emptied. *)
Lemma rank_kill d i j c c' : d !! j = Some c -> empty_cell c = false -> empty_cell c' = true ->
  rank (<[j := c']> d) i = (rank d i - if (j <? i)%nat then 1 else 0)%nat.
Proof.
  intros Hj Hc Hc'. rewrite !rank_contents. destruct (Nat.ltb_spec j i) as [Hlt|Hge].
  - rewrite take_insert_lt by lia. assert (Hj' : take i d !! j = Some c) by (by rewrite lookup_take_lt).
    rewrite (contents_insert_dead (take i d) j c c') by done.
    rewrite length_delete; [done|]. apply lookup_lt_is_Some. rewrite <- rank_end.
    apply (rank_lt _ _ j c); [done|done|]. by eapply lookup_lt_Some.
  - rewrite take_insert_ge by lia. lia.
Qed.

Lemma range_ok_remove d j c c' r : d !! j = Some c -> empty_cell c = false -> empty_cell c' = true -> range_ok d r ->
  let r' := onRemove (<[j := c']> d) (Z.of_nat j) r in
  range_ok (<[j := c']> d) r' /\
  Z.to_nat (range_count r') = (if (rank d j <? Z.to_nat (range_count r))%nat then Z.to_nat (range_count r) - 1 else Z.to_nat (range_count r))%nat.
Proof.
  intros Hj Hc Hc' (Hi & Hct & Hl). cbv zeta. unfold onRemove. pose proof (rank_kill d (Z.to_nat (range_i r)) j c c' Hj Hc Hc') as Hk.
  pose proof (lookup_lt_Some _ _ _ Hj) as Hjl.
  destruct (Z.ltb_spec (Z.of_nat j) (range_i r)) as [Hlt|Hge].
  - cbn [range_i range_count]. replace (Z.of_nat j =? range_i r) with false by lia. cbn [range_i range_count].
    pose proof (rank_lt d (Z.to_nat (range_i r)) j c Hj Hc ltac:(lia)) as Hr.
    rewrite (proj2 (Nat.ltb_lt j (Z.to_nat (range_i r)))) in Hk by lia. unfold range_ok. cbn [range_i range_count]. rewrite zlen_insert. split.
    + split; [done|]. split; [lia|]. intros c'' H''. apply Hl. by rewrite list_lookup_insert_ne in H'' by lia.
    + rewrite (proj2 (Nat.ltb_lt _ _)) by lia. lia.
  - rewrite (proj2 (Nat.ltb_ge j (Z.to_nat (range_i r)))), Nat.sub_0_r in Hk by lia.
    pose proof (rank_mono d (Z.to_nat (range_i r)) j ltac:(lia)). rewrite (proj2 (Nat.ltb_ge _ _)) by lia.
    destruct (Z.eqb_spec (Z.of_nat j) (range_i r)) as [E|Hne].
    + split; [|done]. apply seek_ok; [by rewrite zlen_insert|by rewrite Hk].
    + split; [|done]. split; [by rewrite zlen_insert|]. split; [by rewrite Hk|].
      intros c'' H''. apply Hl. by rewrite list_lookup_insert_ne in H'' by lia.
Qed.

Lemma range_ok_compact d d' r : all_live d' -> contents d' = contents d -> range_ok d r -> range_ok d' (onCompact r).
Proof.
  intros Hd' Hco (Hi & Hc & _). assert (Hlen : length d' = length (contents d)) by (by rewrite <- Hco, all_live_contents, length_fmap by done).
  assert (Hle : (rank d (Z.to_nat (range_i r)) <= length d')%nat).
  { rewrite Hlen, <- rank_end. apply rank_mono. unfold zlen in Hi. lia. }
  unfold onCompact, range_ok. cbn [range_i range_count]. rewrite Hc, Nat2Z.id. split; [unfold zlen; lia|].
  split; [by rewrite (all_live_rank d') by done|]. intros c Hl. by apply (Forall_lookup_1 _ _ _ _ Hd' Hl).
Qed.

(** * Lookup *)

Lemma lookup_spec al t k : inv t -> isEmpty k = false ->
  wp_at al (lookup t k (prepareHash k)) (fun r => found (data t) k r) no_error.
Proof.
  intros Hi Hk. destruct (inv_chains t Hi) as (bk & Hch & Hh). pose proof (inv_shift t Hi).
  by apply (lookup_chain al (hashTable t) (data t) bk (hashShift t) k Hch Hh); [lia|apply Hi|].
Qed.

Lemma get_spec al t k : inv t -> isEmpty k = false ->
  wp_at al (get t k) (fun r => r = snd <$> a_find k (items (abs t))) no_error.
Proof.
  intros Hi Hk. unfold get. wp_step. eapply wpa_mono; [by apply lookup_spec| |done]. intros r Hf.
  pose proof (found_find _ _ _ Hk (inv_uniq t Hi) Hf) as H. cbn [items abs]. destruct r as [j|].
  - destruct H as (c & Hj & _ & _ & ->). wp_step. apply (wpa_read_data al _ j c); [done|]. by wp_step.
  - rewrite H. by wp_step.
Qed.

Lemma has_spec al t k : inv t -> isEmpty k = false ->
  wp_at al (has t k) (fun b => b = bool_decide (is_Some (a_find k (items (abs t))))) no_error.
Proof.
  intros Hi Hk. unfold has. wp_step. eapply wpa_mono; [by apply lookup_spec| |done]. intros r Hf.
  pose proof (found_find _ _ _ Hk (inv_uniq t Hi) Hf) as H. cbn [items abs]. destruct r as [j|]; wp_step.
  - destruct H as (c & _ & _ & _ & ->). symmetry. by apply bool_decide_eq_true.
  - rewrite H. symmetry. apply bool_decide_eq_false. by intros [? ?].
Qed.

(** * Rehashing *)

Lemma wpa_hashBuckets al t (Q : Z -> Prop) E : 2 <= hashShift t <= 31 -> Q (2 ^ (32 - hashShift t)) -> wp_at al (hashBuckets t) Q E.
Proof.
  intros Hs HQ. unfold hashBuckets, int_shl1, kHashNumberBits. replace ((0 <=? 32 - hashShift t) && (32 - hashShift t <=? 30)) with true by lia.
  rewrite Z.shiftl_1_l. by wp_step.
Qed.

Lemma wpa_capacity_for al b (Q : Z -> Prop) (E : error -> Prop) : (2 ^ 32 <= 8 * b / 3 -> E UndefinedBehavior) -> Q (8 * b / 3) -> wp_at al (capacity_for b) Q E.
Proof.
  intros HE HQ. unfold capacity_for. destruct (Z.ltb_spec (8 * b / 3) (2 ^ 32)); [by wp_step|]. apply wpa_throw; [by apply HE|done].
Qed.

(** What a rehash leaves: the same abstract state, without dead cells. *)
Definition rehashed t t' (shift : Z) : Prop :=
  inv t' /\ abs t' = abs t /\ hashShift t' = shift /\ liveCount t' = liveCount t /\ dataLength t' = liveCount t.

Lemma abs_compacted t ht d cap shift : contents d = contents (data t) ->
  abs (compacted (Table ht d cap (liveCount t) shift (ranges t) (nurseryRanges t))) = abs t.
Proof.
  intros Hc. unfold abs, compacted, forEachRange, with_ranges. cbn [data ranges nurseryRanges]. rewrite Hc. f_equal;
    rewrite <- list_fmap_compose; apply list_fmap_ext; by intros i [id r] _.
Qed.

Lemma compacted_inv t ht d shift bk : inv t -> 2 <= shift <= 31 -> zlen ht = 2 ^ (32 - shift) -> chains_ok ht d bk -> hashed shift d bk ->
  all_live d -> contents d = contents (data t) -> liveCount t <= 8 * 2 ^ (32 - shift) / 3 ->
  rehashed t (compacted (Table ht d (8 * 2 ^ (32 - shift) / 3) (liveCount t) shift (ranges t) (nurseryRanges t))) shift.
Proof.
  intros Hi Hs Hb Hch Hh Hl Hc Hfit. assert (Hlen : zlen d = liveCount t).
  { rewrite (inv_live t Hi), <- Hc, (all_live_contents d Hl), length_fmap. done. }
  assert (Hro : forall rs, ranges_ok (data t) rs -> ranges_ok d ((fun '(id, r) => (id, onCompact r)) <$> rs)).
  { intros rs Hrs. apply Forall_fmap. apply list.Forall_impl with (1 := Hrs). intros [id r] Hr. cbn. by apply (range_ok_compact (data t)). }
  unfold rehashed. split_and!; [|by apply abs_compacted|done|done|done].
  constructor; unfold compacted, forEachRange, with_ranges, dataLength; cbn [hashShift hashTable dataCapacity data liveCount ranges nurseryRanges]; try done.
  - lia.
  - rewrite Hc. apply Hi.
  - by exists bk.
  - rewrite Hc. apply Hi.
  - split; apply Hro, Hi.
Qed.

Lemma rehash_spec al t newShift : inv t -> 1 <= newShift <= 31 -> liveCount t <= 8 * 2 ^ (32 - newShift) / 3 ->
  wp_at al (rehash t newShift)
    (fun '(t', ok) => if ok : bool then rehashed t t' newShift /\ dataCapacity t' = 8 * 2 ^ (32 - newShift) / 3
                      else may_fail al /\ t' = t)
    (fun e => e = UndefinedBehavior /\ newShift = 1).
Proof.
  intros Hi Hs Hfit. pose proof (inv_shift t Hi) as Hsh. unfold rehash. destruct (Z.eqb_spec newShift (hashShift t)) as [->|Hne].
  - wp_step. unfold rehashInPlace. wp_step. apply wpa_hashBuckets; [done|]. cbv zeta.
    set (b := 2 ^ (32 - hashShift t)) in *. eapply wpa_ext.
    { intros n. symmetry. apply (compact_reinsert (hashShift t) (fun ht d wp => moz_assert (Z.of_nat wp =? liveCount t);; mret (compacted (with_hash t ht d)))); lia. }
    rewrite drop_0, take_0. wp_step. assert (Hb : 0 <= b) by (apply Z.pow_nonneg; lia).
    eapply wpa_mono; [apply (reinsert_spec al (hashShift t) (data t) _ [] (fun _ => 0)); [lia| |apply chains_empty|done|constructor]| |done].
    { unfold zlen. rewrite length_replicate. lia. }
    intros [ht d] (bk & H1 & H2 & H3 & H4 & H5'). assert (H5 : contents d = contents (data t)) by exact H5'. wp_step. wp_step.
    { rewrite (inv_live t Hi), <- H5, (all_live_contents d H4), length_fmap. lia. }
    wp_step. wp_step. unfold with_hash. pose proof (inv_capacity t Hi) as Hcap. fold b in Hcap. rewrite Hcap. split; [|done].
    apply (compacted_inv t ht d (hashShift t) bk); try done. rewrite H1. unfold zlen. rewrite length_replicate. lia.
  - unfold kHashNumberBits. rewrite Z.shiftl_1_l. set (b := 2 ^ (32 - newShift)) in *. assert (Hb : 0 <= b) by (apply Z.pow_nonneg; lia).
    cbv zeta. wp_step. apply wpa_try_allocate; cbn [negb]; [|intros Hf; by wp_step].
    wp_step. apply wpa_capacity_for.
    { intros Hbig. split; [done|]. destruct (Z.eq_dec newShift 1); [done|exfalso].
      assert (b <= 2 ^ 30) by (apply Z.pow_le_mono_r; lia). assert (8 * b / 3 <= 8 * 2 ^ 30 / 3) by (apply Z.div_le_mono; lia).
      change (8 * 2 ^ 30 / 3) with 2863311530 in *. lia. }
    wp_step. apply wpa_try_allocate; cbn [negb]; [|intros Hf; by wp_step].
    wp_step. eapply wpa_mono; [apply (reinsert_spec al newShift (data t) _ [] (fun _ => 0)); [lia| |apply chains_empty|done|constructor]| |done].
    { unfold zlen. rewrite length_replicate. lia. }
    intros [ht d] (bk & H1 & H2 & H3 & H4 & H5'). assert (H5 : contents d = contents (data t)) by exact H5'. wp_step. wp_step.
    { rewrite (inv_live t Hi), <- H5, (all_live_contents d H4), length_fmap. unfold zlen. lia. }
    wp_step. destruct (Z.eq_dec newShift 1) as [E1|Hn1].
    { unfold hashBuckets, int_shl1, kHashNumberBits. cbn [hashShift]. rewrite E1. cbn. by apply wpa_throw. }
    apply wpa_hashBuckets; [cbn; lia|]. cbn [hashShift]. fold b. wp_step. wp_step; [lia|]. wp_step. split; [|done].
    apply (compacted_inv t ht d newShift bk); try done; [lia|]. rewrite H1. unfold zlen. rewrite length_replicate. lia.
Qed.

(** * Updates *)

Lemma cells_unchanged d d' : element <$> d' = element <$> d -> contents d' = contents d /\ (forall j, rank d' j = rank d j) /\ zlen d' = zlen d.
Proof.
  intros He. assert (Hl : length d' = length d) by (by rewrite <- (length_fmap element d'), He, length_fmap).
  assert (Hc : forall k k' : list (Data T), element <$> k' = element <$> k -> contents k' = contents k).
  { intros k k'. revert k. induction k' as [|c' k' IH]; intros [|c k] E; try done. injection E as E1 E2.
    change (contents (c' :: k')) with (contents ([c'] ++ k')). change (contents (c :: k)) with (contents ([c] ++ k)).
    rewrite !contents_app, (IH k E2). f_equal. unfold contents, live. rewrite !filter_cons. unfold empty_cell. rewrite E1. case_decide; cbn; [by rewrite E1|done]. }
  split; [by apply Hc|]. split; [|unfold zlen; lia]. intros j. rewrite !rank_contents. f_equal. apply Hc. by rewrite !fmap_take, He.
Qed.

(** Overwriting a live cell by a live one with the same chain. *)
Lemma overwrite_inv t j c e ht d bk : inv t -> data t !! j = Some c -> empty_cell c = false -> isEmpty (getKey e) = false ->
  element <$> d = <[j := e]> (element <$> data t) -> zlen ht = zlen (hashTable t) ->
  chains_ok ht d bk -> hashed (hashShift t) d bk -> uniq (<[rank (data t) j := e]> (contents (data t))) ->
  inv (with_hash t ht d) /\ abs (with_hash t ht d) = with_items (abs t) (<[rank (data t) j := e]> (items (abs t))).
Proof.
  intros Hi Hj Hc He Hd Hht Hch Hh Hu. set (d0 := <[j := MkData e None]> (data t)).
  assert (Hd0 : element <$> d = element <$> d0) by (unfold d0; by rewrite Hd, list_fmap_insert).
  destruct (cells_unchanged d0 d Hd0) as (Hco & Hrk & Hz). assert (Hco0 : contents d0 = <[rank (data t) j := e]> (contents (data t))).
  { by apply (contents_insert_live (data t) j c (MkData e None)). }
  assert (Hro : forall rs, ranges_ok (data t) rs -> ranges_ok d rs).
  { intros rs Hrs. apply list.Forall_impl with (1 := Hrs). intros [id r] Hr. cbn in *.
    pose proof (range_ok_update (data t) j c (MkData e None) r Hj) as Hr0. destruct Hr0 as (H1 & H2 & H3); [by rewrite Hc|done|].
    fold d0 in H1, H2, H3. split; [by rewrite Hz|]. split; [by rewrite Hrk|]. intros c' Hc'.
    assert (Hel : (element <$> d0) !! Z.to_nat (range_i r) = Some (element c')) by (rewrite <- Hd0, list_lookup_fmap, Hc'; done).
    rewrite list_lookup_fmap in Hel. destruct (d0 !! Z.to_nat (range_i r)) as [c0|] eqn:E0; [|done]. injection Hel as Hel.
    specialize (H3 c0 eq_refl). unfold empty_cell in *. by rewrite <- Hel. }
  split.
  - destruct Hi. constructor; unfold with_hash, dataLength in *; cbn [hashShift hashTable dataCapacity data liveCount ranges nurseryRanges] in *; try done.
    + by rewrite Hht.
    + rewrite Hz. unfold d0. by rewrite zlen_insert.
    + rewrite Hco, Hco0, length_insert. done.
    + by exists bk.
    + by rewrite Hco, Hco0.
    + destruct inv_ranges0. split; by apply Hro.
  - unfold abs, with_items, with_hash. cbn [items positions nursery_positions data ranges nurseryRanges]. by rewrite Hco, Hco0.
Qed.

Lemma hashed_insert shift d bk j c c' : hashed shift d bk -> d !! j = Some c ->
  (empty_cell c' = false -> bk j = bucket_of shift (getKey (element c'))) -> hashed shift (<[j := c']> d) bk.
Proof.
  intros Hh Hj Hc' i ci Hi He. apply list_lookup_insert_Some in Hi as [(<- & <- & _)|[_ Hi]]; [by apply Hc'|by apply Hh].
Qed.

(** Appending a new element to a table with room. *)
Lemma append_inv t e p bk : inv t -> isEmpty (getKey e) = false -> a_find (getKey e) (contents (data t)) = None ->
  dataLength t < dataCapacity t -> chains_ok (hashTable t) (data t) bk -> hashed (hashShift t) (data t) bk ->
  let h := bucket_of (hashShift t) (getKey e) in
  hashTable t !! Z.to_nat h = Some p ->
  let t' := with_hash (with_live t (liveCount t + 1)) (<[Z.to_nat h := Some (length (data t))]> (hashTable t)) (data t ++ [MkData e p]) in
  inv t' /\ abs t' = with_items (abs t) (items (abs t) ++ [e]).
Proof.
  intros Hi He Hf Hroom Hch Hh. cbv zeta. set (h := bucket_of (hashShift t) (getKey e)). intros Hp. set (c := MkData e p).
  assert (Hc : empty_cell c = false) by done.
  assert (Hco : contents (data t ++ [c]) = contents (data t) ++ [e]) by (by rewrite contents_app, (contents_live c)).
  pose proof (inv_shift t Hi) as Hs. pose proof (prepareHash_range (getKey e) (hashShift t) ltac:(lia)) as Hr. fold h in Hr.
  rewrite <- (inv_buckets t Hi) in Hr.
  assert (Hro : forall rs, ranges_ok (data t) rs -> ranges_ok (data t ++ [c]) rs).
  { intros rs Hrs. apply list.Forall_impl with (1 := Hrs). intros [id r] Hr'. by apply range_ok_push. }
  split.
  - destruct Hi. constructor; unfold with_hash, with_live, dataLength in *; cbn [hashShift hashTable dataCapacity data liveCount ranges nurseryRanges] in *; try done.
    + by rewrite zlen_insert.
    + unfold zlen in *. rewrite length_app. cbn [length]. lia.
    + rewrite Hco, length_app. cbn [length]. lia.
    + exists (fun j => if decide (j = length (data t)) then h else bk j). split; [by apply chains_push|].
      intros j c' Hj He'. apply lookup_app_Some in Hj as [Hj|[Hle Hj]].
      * rewrite decide_False by (apply lookup_lt_Some in Hj; lia). by apply Hh.
      * apply list_lookup_singleton_Some in Hj as [Hj <-]. by rewrite decide_True by lia.
    + rewrite Hco. by apply uniq_append.
    + destruct inv_ranges0. split; by apply Hro.
  - unfold abs, with_items, with_hash, with_live. cbn [items positions nursery_positions data ranges nurseryRanges]. by rewrite Hco.
Qed.

Lemma put_spec al t e : inv t -> isEmpty (getKey e) = false ->
  wp_at al (put t e)
    (fun '(t', ok) => inv t' /\ if ok : bool then abs t' = with_items (abs t) (a_put e (items (abs t))) else may_fail al /\ t' = t)
    (fun err => err = UndefinedBehavior /\ 2 ^ 31 <= liveCount t).
Proof.
  intros Hi He. pose proof (inv_shift t Hi) as Hs. unfold put. cbv zeta. wp_step.
  eapply wpa_mono; [by apply lookup_spec| |done]. intros r Hf. pose proof (found_find _ _ _ He (inv_uniq t Hi) Hf) as H.
  cbn [items abs]. unfold a_put. destruct r as [j|].
  - destruct H as (c & Hj & Hc & Hm & ->). wp_step. apply (wpa_read_data al _ j c); [done|]. wp_step.
    destruct (inv_chains t Hi) as (bk & Hch & Hh).
    apply (overwrite_inv t j c e (hashTable t) _ bk Hi Hj Hc He); [by rewrite list_fmap_insert|done|by apply (chains_update _ _ _ _ c)|..].
    + apply (hashed_insert _ _ _ _ c); [done|done|]. intros _. cbn [element]. rewrite (Hh j c Hj Hc). by apply match_bucket.
    + apply (uniq_replace _ _ (element c)); [apply Hi|by apply contents_rank|done].
  - rewrite H. wp_step.
    eapply (wpa_mono al _ (fun '(t', ok) => if ok : bool then inv t' /\ abs t' = abs t /\ dataLength t' < dataCapacity t' else may_fail al /\ t' = t)); [| |intros err Herr; exact Herr].
    { set (b := 2 ^ (32 - hashShift t)). assert (Hb : 2 <= b) by (change 2 with (2 ^ 1) at 1; apply Z.pow_le_mono_r; lia).
      pose proof (inv_capacity t Hi) as Hcap. fold b in Hcap. pose proof (inv_fits t Hi) as Hfit.
      assert (Hlive : liveCount t <= dataLength t).
      { rewrite (inv_live t Hi), <- rank_end. unfold dataLength, zlen. apply inj_le. unfold rank. rewrite take_ge by lia. apply length_filter. }
      wp_step; bsplit; [|wp_step; split_and!; [done|done|lia]]. cbv zeta.
      destruct (4 * liveCount t >=? 3 * dataCapacity t) eqn:Egrow; bsplit.
      - unfold uint32. rewrite Z.mod_small by lia.
        assert (Hb2 : 2 ^ (32 - (hashShift t - 1)) = 2 * b) by (unfold b; rewrite <- Z.pow_succ_r by lia; f_equal; lia).
        eapply wpa_mono; [apply (rehash_spec al t (hashShift t - 1)); [done|lia|rewrite Hb2; Z.div_mod_to_equations; lia]| |].
        + intros [t' [|]]; [|done]. intros [(Hi' & Ha & _ & _ & Hlen) Hcap']. split_and!; [done|done|]. rewrite Hlen, Hcap', Hb2.
          Z.div_mod_to_equations. lia.
        + intros err [-> E1]. split; [done|]. assert (Hs2 : hashShift t = 2) by lia. unfold b in Hcap. rewrite Hs2 in Hcap.
          change (8 * 2 ^ (32 - 2) / 3) with 2863311530 in Hcap. lia.
      - eapply wpa_mono; [apply (rehash_spec al t (hashShift t)); [done|lia|fold b; lia]| |].
        + intros [t' [|]]; [|done]. intros [(Hi' & Ha & _ & _ & Hlen) Hcap']. split_and!; [done|done|]. fold b in Hcap'. rewrite Hlen, Hcap'. Z.div_mod_to_equations. lia.
        + intros err [-> E1]. lia. }
    intros [t' [|]]; cbn [negb].
    + intros (Hi' & Ha & Hroom). destruct (inv_chains t' Hi') as (bk & Hch & Hh). pose proof (inv_shift t' Hi') as Hs'.
      pose proof (prepareHash_range (getKey e) (hashShift t') ltac:(lia)) as Hr. rewrite <- (inv_buckets t' Hi') in Hr.
      destruct (Hch _ Hr) as (p & Hp & _). cbv zeta. wp_step. fold (bucket_of (hashShift t') (getKey e)).
      apply (wpa_read_bucket al _ _ p); [lia|done|]. replace (dataLength t' <? dataCapacity t') with true by lia. wp_step.
      assert (Hf' : a_find (getKey e) (contents (data t')) = None).
      { change (contents (data t')) with (items (abs t')). by rewrite Ha. }
      destruct (append_inv t' e p bk Hi' He Hf' Hroom Hch Hh Hp) as [H1 H2]. split; [exact H1|]. rewrite H2, Ha. done.
    + intros [Hfail ->]. wp_step. done.
Qed.

(** ** Removing *)

(** Emptying a live cell and telling the ranges. *)
Lemma empty_inv t j c c' : inv t -> data t !! j = Some c -> empty_cell c = false -> empty_cell c' = true -> chain c' = chain c ->
  let t1 := with_hash (with_live t (liveCount t - 1)) (hashTable t) (<[j := c']> (data t)) in
  let t2 := forEachRange (onRemove (data t1) (Z.of_nat j)) t1 in
  inv t2 /\ abs t2 = a_remove (rank (data t) j) (abs t).
Proof.
  intros Hi Hj Hc Hc' Hch. cbv zeta. set (d' := <[j := c']> (data t)).
  assert (Hco : contents d' = delete (rank (data t) j) (contents (data t))) by (by apply (contents_insert_dead _ _ c)).
  pose proof (contents_rank _ _ _ Hj Hc) as Hrk. pose proof (lookup_lt_Some _ _ _ Hrk) as Hlt.
  assert (Hro : forall rs, ranges_ok (data t) rs -> ranges_ok d' ((fun '(id, r) => (id, onRemove d' (Z.of_nat j) r)) <$> rs)).
  { intros rs Hrs. apply Forall_fmap. apply list.Forall_impl with (1 := Hrs). intros [id r] Hr. cbn.
    by apply (range_ok_remove (data t) j c c'). }
  assert (Hpos : forall rs, ranges_ok (data t) rs ->
    position <$> ((fun '(id, r) => (id, onRemove d' (Z.of_nat j) r)) <$> rs) = shift_position (rank (data t) j) <$> (position <$> rs)).
  { intros rs Hrs. rewrite <- !list_fmap_compose. apply list_fmap_ext. intros i [id r] Hr. unfold compose, position, shift_position. cbn [fst snd].
    f_equal. apply (range_ok_remove (data t) j c c'); [done..|]. by apply (Forall_lookup_1 _ _ _ _ Hrs Hr). }
  destruct Hi. split.
  - constructor; unfold forEachRange, with_ranges, with_hash, with_live, dataLength in *; cbn [hashShift hashTable dataCapacity data liveCount ranges nurseryRanges] in *; try done.
    + fold d'. unfold d'. by rewrite zlen_insert.
    + fold d'. rewrite Hco, length_delete by done. lia.
    + destruct inv_chains0 as (bk & Hch0 & Hh). exists bk. split; [by apply (chains_update _ _ _ _ c)|].
      apply (hashed_insert _ _ _ _ c); [done|done|congruence].
    + fold d'. rewrite Hco. by apply uniq_delete.
    + destruct inv_ranges0. split; by apply Hro.
  - unfold abs, a_remove, forEachRange, with_ranges, with_hash, with_live. cbn [items positions nursery_positions data ranges nurseryRanges].
    fold d'. destruct inv_ranges0. by rewrite Hco, !Hpos.
Qed.

Lemma remove_spec al t k : inv t -> isEmpty k = false ->
  wp_at al (remove t k)
    (fun '(t', ok, foundp) => inv t' /\ (ok = false -> may_fail al) /\
       match a_find k (items (abs t)) with
       | Some (p, _) => foundp = true /\ abs t' = a_remove p (abs t)
       | None => foundp = false /\ ok = true /\ t' = t
       end) no_error.
Proof.
  intros Hi Hk. unfold remove. wp_step. eapply wpa_mono; [by apply lookup_spec| |done]. intros r Hf.
  pose proof (found_find _ _ _ Hk (inv_uniq t Hi) Hf) as H. cbn [items abs]. destruct r as [j|].
  2:{ rewrite H. wp_step. done. }
  destruct H as (c & Hj & Hc & _ & ->). wp_step. apply (wpa_read_data al _ j c); [done|]. cbv zeta.
  assert (Hdead : empty_cell (MkData (makeEmpty (element c)) (chain c)) = true).
  { unfold empty_cell. cbn [element]. rewrite getKey_makeEmpty. apply isEmpty_emptyKey. }
  destruct (empty_inv t j c (MkData (makeEmpty (element c)) (chain c)) Hi Hj Hc Hdead eq_refl) as [Hi' Ha].
  set (t2 := forEachRange _ _) in *. pose proof (inv_shift t2 Hi') as Hs. wp_step. apply wpa_hashBuckets; [done|].
  change initialBuckets with 2. set (b := 2 ^ (32 - hashShift t2)) in *. wp_step; bsplit; [|by wp_step].
  assert (Hs30 : hashShift t2 <> 31) by (intros E; unfold b in *; rewrite E in *; lia).
  assert (Hb : b = 2 * 2 ^ (32 - (hashShift t2 + 1))) by (unfold b; rewrite <- Z.pow_succ_r by lia; f_equal; lia).
  pose proof (inv_fits t2 Hi') as Hfit. pose proof (inv_capacity t2 Hi') as Hcap. fold b in Hcap. rewrite Hb in Hcap.
  wp_step. eapply wpa_mono; [apply (rehash_spec al t2 (hashShift t2 + 1)); [done|lia|Z.div_mod_to_equations; lia]| |].
  - intros [t' [|]] H1; wp_step.
    + destruct H1 as [(Hi'' & Ha'' & _) _]. split; [done|]. split; [done|]. split; [done|]. congruence.
    + destruct H1 as [Hfail ->]. done.
  - intros err [_ E]. lia.
Qed.

(** ** Initialising and clearing *)

Lemma inv_fresh rs nrs : ranges_ok (@nil (Data T)) rs -> ranges_ok (@nil (Data T)) nrs ->
  inv (Table (replicate 2 None) [] 5 0 31 rs nrs).
Proof.
  intros H1 H2. constructor; cbn [hashShift hashTable dataCapacity data liveCount ranges nurseryRanges]; try done.
  exists (fun _ => 0). split; [apply chains_empty|done].
Qed.

Lemma init_spec al rs nrs :
  wp_at al (@init T rs nrs)
    (fun r => match r with Some t => t = Table (replicate 2 None) [] 5 0 31 rs nrs | None => may_fail al end) no_error.
Proof.
  unfold init. cbv zeta. change initialBuckets with 2. wp_step. apply wpa_try_allocate; cbn [negb]; [|intros Hf; by wp_step].
  wp_step. apply wpa_capacity_for; [by vm_compute|]. change (8 * 2 / 3) with 5.
  wp_step. apply wpa_try_allocate; cbn [negb]; [|intros Hf; by wp_step].
  wp_step. apply wpa_hashBuckets; [done|]. wp_step. wp_step; [done|]. by wp_step.
Qed.

Lemma clear_spec al t : inv t ->
  wp_at al (clear t)
    (fun '(t', ok) => inv t' /\ if ok : bool then abs t' = a_clear (abs t) else may_fail al /\ t' = t) no_error.
Proof.
  intros Hi. unfold clear. wp_step.
  eapply (wpa_mono al _ (fun '(t', ok) => inv t' /\ if ok : bool then abs t' = a_clear (abs t) /\ dataLength t' = 0 /\ liveCount t' = 0 else may_fail al /\ t' = t)); [| |done].
  { wp_step; bsplit.
    - wp_step. apply wpa_hashBuckets; [apply Hi|]. wp_step. eapply wpa_mono; [apply init_spec| |done].
      intros [t0|]; [intros ->|intros Hf; by wp_step]. wp_step.
      assert (Hro : forall rs : list (nat * Range), ranges_ok (@nil (Data T)) ((fun '(id, r) => (id, onClear r)) <$> rs)).
      { intros rs. apply Forall_fmap, list.Forall_true. intros [id r]. done. }
      split; [apply inv_fresh; apply Hro|]. split; [|done]. unfold abs, a_clear, forEachRange, with_ranges. cbn [items positions nursery_positions data ranges nurseryRanges].
      f_equal; rewrite <- !list_fmap_compose; apply list_fmap_ext; by intros i [id r] _.
    - wp_step. split; [done|]. unfold dataLength in *. assert (Hd : data t = []) by (destruct (data t); [done|]; rewrite zlen_cons' in *; pose proof (zlen_nonneg l); lia).
      assert (Hpos : forall rs, ranges_ok (data t) rs -> position <$> rs = (fun q : nat * nat => (q.1, O)) <$> (position <$> rs)).
      { intros rs Hrs. rewrite <- !list_fmap_compose. apply list_fmap_ext. intros i [id r] Hr. unfold compose, position. cbn [fst snd]. f_equal.
        apply (Forall_lookup_1 _ _ _ _ Hrs) in Hr as (_ & Hct & _). cbn [snd] in Hct. rewrite Hct, Nat2Z.id, Hd. unfold rank. by rewrite take_nil. }
      split; [|split; [by rewrite Hd|rewrite (inv_live t Hi), Hd; done]]. destruct (inv_ranges t Hi) as [H1 H2].
      unfold abs, a_clear. cbn [items positions nursery_positions]. rewrite <- !Hpos by done. by rewrite Hd. }
  intros [t' [|]]; cbn [negb].
  - intros (Hi' & Ha & Hd & Hl). wp_step. wp_step; [lia|]. wp_step. wp_step; [lia|]. by wp_step.
  - intros (Hi' & Hf & ->). by wp_step.
Qed.
End specs.
