(* ===== verification/OrderedHashRanges.v ===== *)
(** The ranges of the insertion-ordered hash tables, and the two functions
    that change a key, against the abstract state; then a single operation
    and a whole history of them. *)
From S2P Require Import Prelude CheckedArithmetic OrderedHashTable OrderedHashInv OrderedHashOps.

Section ranges.
Context {Key T : Type} {HP : HashPolicy Key} {OP : Ops Key T} {HL : HashPolicyLaws HP} {OL : OpsLaws HP OP}.
Implicit Types (d : list (Data T)) (c : Data T) (t : table T) (l : list T) (a : astate (T := T)).

(** * Ranges by name *)

Definition with_positions a (ps ns : list (nat * nat)) : astate := AState (items a) ps ns.

Definition a_range a (id : nat) : option nat :=
  match list_find (fun q : nat * nat => q.1 = id) (positions a ++ nursery_positions a) with
  | Some (_, (_, p)) => Some p
  | None => None
  end.

Definition set_position (id p : nat) (q : nat * nat) : nat * nat := if decide (q.1 = id) then (id, p) else q.

Definition a_set a (id p : nat) : astate :=
  with_positions a (set_position id p <$> positions a) (set_position id p <$> nursery_positions a).

Definition a_add a (id p : nat) (inNursery : bool) : astate :=
  if inNursery then with_positions a (positions a) ((id, p) :: nursery_positions a)
  else with_positions a ((id, p) :: positions a) (nursery_positions a).

Definition a_destroy a (id : nat) : astate :=
  with_positions a (filter (fun q => q.1 <> id) (positions a)) (filter (fun q => q.1 <> id) (nursery_positions a)).

Lemma find_range_spec t id : inv t ->
  match find_range t id with
  | Some r => range_ok (data t) r /\ a_range (abs t) id = Some (Z.to_nat (range_count r))
  | None => a_range (abs t) id = None
  end.
Proof.
  intros Hi. destruct (inv_ranges t Hi) as [H1 H2]. unfold find_range, a_range. cbn [positions nursery_positions abs].
  rewrite <- fmap_app, list_find_fmap. unfold compose. cbn [fst position].
  destruct (list_find _ (ranges t ++ nurseryRanges t)) as [[i [id' r]]|] eqn:E; [|done].
  apply list_find_Some in E as (E & _ & _). split; [|done].
  assert (Hall : ranges_ok (data t) (ranges t ++ nurseryRanges t)) by (by apply list.Forall_app).
  by apply (Forall_lookup_1 _ _ _ _ Hall E).
Qed.

(** Replacing the ranges keeps the invariant when they are in order. *)
Lemma with_ranges_inv t rs nrs : inv t -> ranges_ok (data t) rs -> ranges_ok (data t) nrs ->
  inv (with_ranges t rs nrs) /\ abs (with_ranges t rs nrs) = with_positions (abs t) (position <$> rs) (position <$> nrs).
Proof. intros Hi H1 H2. split; [|done]. destruct Hi. by constructor. Qed.

Lemma createRange_spec t id b : inv t -> inv (createRange t id b) /\ abs (createRange t id b) = a_add (abs t) id 0 b.
Proof.
  intros Hi. destruct (inv_ranges t Hi) as [H1 H2]. assert (Hr : range_ok (data t) (seek (data t) (MkRange 0 0))).
  { pose proof (zlen_nonneg (data t)). apply seek_ok; [cbn; lia|done]. }
  unfold createRange, new_range. destruct b; apply with_ranges_inv; try done; by apply Forall_cons.
Qed.

Lemma copyRange_spec t r id : inv t -> range_ok (data t) r ->
  inv (copyRange t r id) /\ abs (copyRange t r id) = a_add (abs t) id (Z.to_nat (range_count r)) false.
Proof. intros Hi Hr. destruct (inv_ranges t Hi) as [H1 H2]. apply with_ranges_inv; [done| |done]. by apply Forall_cons. Qed.

Lemma filter_positions id (rs : list (nat * Range)) :
  position <$> filter (fun p => p.1 <> id) rs = filter (fun q => q.1 <> id) (position <$> rs).
Proof.
  induction rs as [|[id' r] rs IH]; [done|]. rewrite filter_cons. cbn [fmap list_fmap]. rewrite filter_cons. cbn [fst position].
  case_decide; cbn [fmap list_fmap]; by rewrite <- IH.
Qed.

Lemma destroyRange_spec t id : inv t -> inv (destroyRange t id) /\ abs (destroyRange t id) = a_destroy (abs t) id.
Proof.
  intros Hi. destruct (inv_ranges t Hi) as [H1 H2]. unfold a_destroy. cbn [positions nursery_positions abs].
  assert (Hro : forall rs, ranges_ok (data t) rs -> ranges_ok (data t) (filter (fun p => p.1 <> id) rs)).
  { intros rs Hrs. apply list.Forall_forall. intros p [_ Hp]%list_elem_of_filter. by apply (proj1 (list.Forall_forall _ _) Hrs). }
  rewrite <- !filter_positions. apply with_ranges_inv; [done|by apply Hro..].
Qed.

Lemma set_range_spec t id r : inv t -> range_ok (data t) r ->
  inv (set_range t id r) /\ abs (set_range t id r) = a_set (abs t) id (Z.to_nat (range_count r)).
Proof.
  intros Hi Hr. destruct (inv_ranges t Hi) as [H1 H2].
  assert (Hro : forall rs, ranges_ok (data t) rs -> ranges_ok (data t) ((fun p => if decide (p.1 = id) then (id, r) else p) <$> rs)).
  { intros rs Hrs. apply Forall_fmap. apply list.Forall_impl with (1 := Hrs). intros [id' r'] Hr'. cbn. by case_decide. }
  assert (Hpos : forall rs : list (nat * Range), position <$> ((fun p => if decide (p.1 = id) then (id, r) else p) <$> rs)
                           = set_position id (Z.to_nat (range_count r)) <$> (position <$> rs)).
  { intros rs. rewrite <- !list_fmap_compose. apply list_fmap_ext. intros i [id' r'] _. unfold compose, set_position. cbn.
    by case_decide. }
  unfold a_set. cbn [positions nursery_positions abs]. rewrite <- !Hpos. apply with_ranges_inv; [done|by apply Hro..].
Qed.

(** * The front of a range *)

(** A range that is not empty stands on the element at its position. *)
Lemma range_front t r : inv t -> range_ok (data t) r ->
  if range_empty t r then (length (items (abs t)) <= Z.to_nat (range_count r))%nat
  else exists c, data t !! Z.to_nat (range_i r) = Some c /\ empty_cell c = false /\
         rank (data t) (Z.to_nat (range_i r)) = Z.to_nat (range_count r) /\ items (abs t) !! Z.to_nat (range_count r) = Some (element c).
Proof.
  intros Hi (Hr & Hc & Hl). unfold range_empty, dataLength. cbn [items abs]. destruct (range_i r >=? zlen (data t)) eqn:E.
  - rewrite Hc, Nat2Z.id, <- rank_end. replace (Z.to_nat (range_i r)) with (length (data t)) by (unfold zlen in *; lia). done.
  - destruct (lookup_lt_is_Some_2 (data t) (Z.to_nat (range_i r))) as [c Hcell]; [unfold zlen in *; lia|].
    exists c. rewrite Hc, Nat2Z.id. split_and!; [done|by apply Hl|done|]. apply contents_rank; [done|by apply Hl].
Qed.

Lemma range_empty_spec t r : inv t -> range_ok (data t) r ->
  range_empty t r = (length (items (abs t)) <=? Z.to_nat (range_count r))%nat.
Proof.
  intros Hi Hr. pose proof (range_front t r Hi Hr) as H. destruct (range_empty t r); symmetry.
  - by apply Nat.leb_le.
  - destruct H as (c & _ & _ & _ & H). apply Nat.leb_gt. by eapply lookup_lt_Some.
Qed.

Lemma front_spec al t r x : inv t -> range_ok (data t) r -> items (abs t) !! Z.to_nat (range_count r) = Some x ->
  wp_at al (front t r) (fun y => y = x) no_error.
Proof.
  intros Hi Hr Hx. pose proof (range_front t r Hi Hr) as H. pose proof (lookup_lt_Some _ _ _ Hx). unfold front. wp_step.
  destruct (range_empty t r); [lia|]. destruct H as (c & Hc & _ & _ & Hy). wp_step; [done|].
  wp_step. apply (wpa_read_data al _ _ c); [done|]. wp_step. congruence.
Qed.

Lemma popFront_spec al t r : inv t -> range_ok (data t) r -> (Z.to_nat (range_count r) < length (items (abs t)))%nat ->
  wp_at al (popFront t r) (fun r' => range_ok (data t) r' /\ Z.to_nat (range_count r') = S (Z.to_nat (range_count r))) no_error.
Proof.
  intros Hi Hr Hlt. pose proof (range_front t r Hi Hr) as H. unfold popFront. wp_step. destruct (range_empty t r); [lia|].
  destruct H as (c & Hc & He & Hk & _), Hr as (Hr & Hct & _). wp_step; [done|]. wp_step. apply (wpa_read_data al _ _ c); [done|].
  wp_step. wp_step; [by rewrite He|]. wp_step. pose proof (lookup_lt_Some _ _ _ Hc). split; [|cbn; lia].
  apply seek_ok; cbn [range_i range_count]; [unfold zlen in *; lia|].
  replace (Z.to_nat (range_i r + 1)) with (S (Z.to_nat (range_i r))) by lia. rewrite (rank_S _ _ c Hc), He. lia.
Qed.

(** * Changing a key *)

(** The cell of a live element gets a new element, and moves to its bucket. *)
Lemma rekey_spec al t j c e : inv t -> data t !! j = Some c -> empty_cell c = false -> isEmpty (getKey e) = false ->
  uniq (<[rank (data t) j := e]> (items (abs t))) ->
  wp_at al (move_entry (with_hash t (hashTable t) (<[j := MkData e (chain c)]> (data t))) j
              (bucket_of (hashShift t) (getKey (element c))) (bucket_of (hashShift t) (getKey e)))
    (fun t' => inv t' /\ abs t' = with_items (abs t) (<[rank (data t) j := e]> (items (abs t)))) no_error.
Proof.
  intros Hi Hj Hc He Hu. destruct (inv_chains t Hi) as (bk & Hch & Hh). pose proof (inv_shift t Hi) as Hs.
  set (d := <[j := MkData e (chain c)]> (data t)). assert (Hd : d !! j = Some (MkData e (chain c))).
  { apply list_lookup_insert_eq. by eapply lookup_lt_Some. }
  eapply wpa_mono; [apply (move_entry_spec al _ j (MkData e (chain c)) bk)| |done]; cbn [with_hash hashTable data].
  - by apply (chains_update _ _ _ _ c).
  - done.
  - by apply Hh.
  - rewrite (inv_buckets t Hi). apply prepareHash_range. lia.
  - rewrite (inv_buckets t Hi). apply prepareHash_range. lia.
  - intros t' (ht & d' & -> & Hz & Hel & Hch'). unfold d in Hel. rewrite list_fmap_insert in Hel. cbn [element] in Hel.
    apply (overwrite_inv t j c e ht d' _ Hi Hj Hc He Hel Hz Hch'); [|exact Hu].
    assert (Hel' : forall i c', d' !! i = Some c' -> exists c0, d !! i = Some c0 /\ element c0 = element c').
    { intros i c' Hi'. assert (E : (element <$> d) !! i = Some (element c')) by (unfold d; rewrite list_fmap_insert; cbn [element]; by rewrite <- Hel, list_lookup_fmap, Hi').
      apply list_lookup_fmap_Some in E as (c0 & E & H0). by exists c0. }
    intros i c' Hic He'. destruct (Hel' i c' Hic) as (c0 & H0 & E0). unfold rebucket. destruct (decide (i = j)) as [->|Hne].
    + assert (c0 = MkData e (chain c)) as -> by congruence. cbn in E0. by rewrite <- E0.
    + unfold d in H0. rewrite list_lookup_insert_ne in H0 by done. rewrite <- E0. apply Hh; [done|]. unfold empty_cell in *. by rewrite E0.
Qed.

Lemma rekeyFront_spec al t r k x : inv t -> range_ok (data t) r -> isEmpty k = false ->
  let p := Z.to_nat (range_count r) in
  items (abs t) !! p = Some x -> uniq (<[p := setKey x k]> (items (abs t))) ->
  wp_at al (rekeyFront t r k) (fun t' => inv t' /\ abs t' = with_items (abs t) (<[p := setKey x k]> (items (abs t)))) no_error.
Proof.
  intros Hi Hr Hk p Hx Hu. pose proof (range_front t r Hi Hr) as H. pose proof (lookup_lt_Some _ _ _ Hx) as Hlt.
  destruct (range_empty t r); [unfold p in *; lia|]. destruct H as (c & Hc & He & Hrk & Hy). fold p in Hrk, Hy.
  assert (element c = x) as E by congruence. unfold rekeyFront. cbv zeta. wp_step. apply (wpa_read_data al _ _ c); [done|].
  set (j := Z.to_nat (range_i r)) in *. rewrite E. rewrite <- Hrk in Hu |- *. wp_step; bsplit.
  - assert (Hg : isEmpty (getKey (setKey x k)) = false) by (by rewrite getKey_setKey).
    pose proof (rekey_spec al t j c (setKey x k) Hi Hc He Hg Hu) as H. by rewrite getKey_setKey, E in H.
  - wp_step. destruct (inv_chains t Hi) as (bk & Hch & Hh).
    apply (overwrite_inv t j c (setKey x k) (hashTable t) _ bk Hi Hc He); [by rewrite getKey_setKey|by rewrite list_fmap_insert|done|by apply (chains_update _ _ _ _ c)| |done].
    apply (hashed_insert _ _ _ _ c); [done|done|]. intros _. cbn [element]. rewrite getKey_setKey, (Hh j c Hc He), E. unfold bucket_of. lia.
Qed.

(** What a change of one key does to the elements. *)
Definition a_rekey (current newKey : Key) (e : T) l : list T :=
  if key_eqb current newKey then l
  else match a_find current l with Some (p, _) => <[p := e]> l | None => l end.

Lemma rekeyOneEntry_spec al t current e : inv t -> isEmpty current = false -> isEmpty (getKey e) = false ->
  uniq (a_rekey current (getKey e) e (items (abs t))) ->
  wp_at al (rekeyOneEntry t current (getKey e) e)
    (fun t' => inv t' /\ abs t' = with_items (abs t) (a_rekey current (getKey e) e (items (abs t)))) no_error.
Proof.
  intros Hi Hc He Hu. unfold rekeyOneEntry. cbv zeta. assert (Hid : with_items (abs t) (items (abs t)) = abs t) by done.
  unfold a_rekey in *. wp_step; rewrite Hc0 in *; [wp_step; by rewrite Hid|]. wp_step.
  eapply wpa_mono; [by apply lookup_spec| |done]. intros r Hf.
  pose proof (found_find _ _ _ Hc (inv_uniq t Hi) Hf) as H. cbn [items abs] in *. destruct r as [j|].
  2:{ rewrite H. wp_step. done. }
  destruct H as (c & Hj & Hl & Hm & H). rewrite H in *. wp_step. apply (wpa_read_data al _ j c); [done|].
  pose proof (rekey_spec al t j c e Hi Hj Hl He Hu) as Hr. by rewrite (match_bucket _ _ _ Hm) in Hr.
Qed.
End ranges.
