(* ===== verification/OrderedHashRequests.v ===== *)
(** The requests for memory that the operations of the table make, and that the
    flag they return says whether one of them was refused. *)
From S2P Require Import Prelude OrderedHashTable.

(** * Requests

    The specifications of the library say when a request may have been
    refused; here a computation is given the interval of the requests it
    makes. *)

(** One of the requests from [n] up to [n'] is refused. *)
Definition refused (al : allocator) (n n' : nat) : bool := existsb (alloc_fails al) (seq n (n' - n)).

(** [m], started at any request, returns a value related to whether one of the
    requests it makes is refused. *)
Definition requests {A} (al : allocator) (m : M A) (Q : A -> bool -> Prop) : Prop :=
  forall n, match m al n with
            | (Ok a, n') => (n <= n')%nat /\ Q a (refused al n n')
            | (Err _, _) => True
            end.

(** It makes none. *)
Definition quiet {A} (al : allocator) (m : M A) : Prop := requests al m (fun _ b => b = false).

(** The flag is set unless a request is refused. *)
Definition reports {A} (al : allocator) (m : M A) (ok : A -> bool) : Prop :=
  forall n a n', m al n = (Ok a, n') -> ok a = false <-> exists i, (n <= i < n')%nat /\ alloc_fails al i = true.

Section rules.
Context {A B : Type} (al : allocator).

Lemma refused_none n : refused al n n = false.
Proof. unfold refused. by rewrite Nat.sub_diag. Qed.

Lemma refused_split n n' n'' : (n <= n' <= n'')%nat -> refused al n n'' = refused al n n' || refused al n' n''.
Proof.
  intros H. unfold refused. rewrite <- existsb_app. replace (n'' - n)%nat with ((n' - n) + (n'' - n'))%nat by lia.
  rewrite seq_app. by replace (n + (n' - n))%nat with n' by lia.
Qed.

Lemma requests_ret (a : A) Q : Q a false -> requests al (mret a) Q.
Proof. intros H n. split; [done|]. by rewrite refused_none. Qed.

Lemma requests_throw e (Q : A -> bool -> Prop) : requests al (throw e) Q.
Proof. intros n. done. Qed.

Lemma requests_mono (m : M A) (Q Q' : A -> bool -> Prop) : requests al m Q -> (forall a b, Q a b -> Q' a b) -> requests al m Q'.
Proof. intros H HQ n. specialize (H n). destruct (m al n) as [[a|e] n']; [|done]. split; [apply H|apply HQ, H]. Qed.

Lemma requests_bind (m : M A) (k : A -> M B) Q :
  requests al m (fun a b => requests al (k a) (fun r b' => Q r (b || b'))) -> requests al (m ≫= k) Q.
Proof.
  intros H n. specialize (H n). unfold mbind, M_bind. destruct (m al n) as [[a|e] n']; [|done]. destruct H as [Hn H].
  specialize (H n'). destruct (k a al n') as [[r|e] n'']; [|done]. destruct H as [Hn' H]. split; [lia|]. by rewrite (refused_split n n' n'') by lia.
Qed.

Lemma requests_quiet (m : M A) (k : A -> M B) Q : quiet al m -> (forall a, requests al (k a) Q) -> requests al (m ≫= k) Q.
Proof. intros Hm Hk. apply requests_bind. eapply requests_mono; [exact Hm|]. intros a b ->. apply Hk. Qed.

Lemma requests_reports (m : M A) ok : requests al m (fun a b => ok a = negb b) -> reports al m ok.
Proof.
  intros H n a n' E. specialize (H n). rewrite E in H. destruct H as [Hn ->]. rewrite negb_false_iff. unfold refused. rewrite existsb_exists.
  split; intros (i & Hi & Hf); exists i; (split; [|done]); apply in_seq in Hi || apply in_seq; lia.
Qed.
End rules.

Lemma requests_try al (Q : bool -> bool -> Prop) : (forall b, Q (negb b) b) -> requests al try_allocate Q.
Proof.
  intros H n. unfold try_allocate. split; [lia|]. unfold refused. replace (S n - n)%nat with 1%nat by lia. cbn [seq existsb]. rewrite orb_false_r. apply H.
Qed.

Lemma quiet_assert al b : quiet al (moz_assert b).
Proof. destruct b; [by apply requests_ret|apply requests_throw]. Qed.

Lemma quiet_loop {S R} al fuel (body : S -> M (S + R)) s : (forall s, quiet al (body s)) -> quiet al (loop fuel body s).
Proof.
  intros Hb. revert s. induction fuel as [|fuel IH]; intros s; [apply requests_throw|]. cbn [loop]. apply requests_quiet; [apply Hb|].
  intros [s'|r]; [apply IH|by apply requests_ret].
Qed.

Create HintDb quiet.
#[export] Hint Resolve quiet_assert : quiet.

(** Steps through a computation up to its requests. *)
Ltac quiet_step :=
  match goal with
  | |- quiet _ _ => solve [auto with quiet] || unfold quiet
  | |- requests _ (mret _) _ => apply requests_ret
  | |- requests _ (throw _) _ => apply requests_throw
  | |- requests _ (_ ≫= _) _ => apply requests_quiet; [solve [auto with quiet]|intros ?]
  | |- requests _ (if ?c then _ else _) _ => destruct c
  | |- requests _ (match ?c with _ => _ end) _ => destruct c
  end.

Section table.
Context {Key T : Type} {HP : HashPolicy Key} {OP : Ops Key T} (al : allocator).
Implicit Types (t : table T) (d : list (Data T)).

Lemma quiet_read_bucket ht h : quiet al (read_bucket ht h).
Proof. unfold read_bucket. by repeat quiet_step. Qed.
Lemma quiet_read_data d j : quiet al (read_data d j).
Proof. unfold read_data. by repeat quiet_step. Qed.
Lemma quiet_capacity_for b : quiet al (capacity_for b).
Proof. unfold capacity_for. cbv zeta. by repeat quiet_step. Qed.
Lemma quiet_hashBuckets t : quiet al (hashBuckets t).
Proof. unfold hashBuckets, int_shl1. by repeat quiet_step. Qed.
#[local] Hint Resolve quiet_read_bucket quiet_read_data quiet_capacity_for quiet_hashBuckets : quiet.

Lemma quiet_lookup t l h : quiet al (lookup t l h).
Proof.
  unfold lookup, lookup_from. quiet_step. quiet_step. apply quiet_loop. intros [j|]; by repeat quiet_step.
Qed.

Lemma quiet_reinsert shift cells ht d : quiet al (reinsert shift cells ht d).
Proof. revert ht d. induction cells as [|c cells IH]; intros ht d; cbn [reinsert]; cbv zeta; repeat quiet_step; done || apply IH. Qed.

Lemma quiet_compact shift n rp wp ht d : quiet al (compact shift n rp wp ht d).
Proof. revert rp wp ht d. induction n as [|n IH]; intros rp wp ht d; cbn [compact]; cbv zeta; repeat quiet_step; done || apply IH. Qed.
#[local] Hint Resolve quiet_lookup quiet_reinsert quiet_compact : quiet.

Lemma quiet_rehashInPlace t : quiet al (rehashInPlace t).
Proof. unfold rehashInPlace. cbv zeta. by repeat quiet_step. Qed.
#[local] Hint Resolve quiet_rehashInPlace : quiet.

Lemma requests_rehash t s : requests al (rehash t s) (fun r b => r.2 = negb b).
Proof.
  unfold rehash. cbv zeta. quiet_step; [by repeat quiet_step|]. apply requests_bind, requests_try. intros [|]; cbn [negb]; [by quiet_step|].
  quiet_step. apply requests_bind, requests_try. intros [|]; cbn [negb]; by repeat quiet_step.
Qed.

Lemma requests_init rs nrs : requests al (@init T rs nrs) (fun r b => bool_decide (is_Some r) = negb b).
Proof.
  unfold init. cbv zeta. apply requests_bind, requests_try. intros [|]; cbn [negb]; [by quiet_step|].
  quiet_step. apply requests_bind, requests_try. intros [|]; cbn [negb]; by repeat quiet_step.
Qed.

(** ** The operations *)

Lemma put_reports t e : reports al (put t e) snd.
Proof.
  apply requests_reports. unfold put. cbv zeta. quiet_step. quiet_step; [by repeat quiet_step|].
  apply requests_bind. apply (requests_mono al _ (fun r b => r.2 = negb b)); [quiet_step; [apply requests_rehash|by quiet_step]|].
  intros [t' ok] b E. cbn [snd] in E. subst ok. destruct b; cbn [negb]; by repeat quiet_step.
Qed.

Lemma remove_reports t k : reports al (remove t k) (fun r => r.1.2).
Proof.
  apply requests_reports. unfold remove. cbv zeta. quiet_step. quiet_step; [|by quiet_step]. do 3 quiet_step; [|by quiet_step].
  apply requests_bind. eapply requests_mono; [apply requests_rehash|]. intros [t' ok] b E. cbn [snd] in E. subst ok. quiet_step. cbn. by rewrite orb_false_r.
Qed.

Lemma clear_reports t : reports al (clear t) snd.
Proof.
  apply requests_reports. unfold clear. apply requests_bind. apply (requests_mono al _ (fun r b => r.2 = negb b)).
  - quiet_step; [|by quiet_step]. quiet_step. apply requests_bind. eapply requests_mono; [apply requests_init|].
    intros [t'|] b E; cbn in E; by destruct b; repeat quiet_step.
  - intros [t' ok] b E. cbn [snd] in E. subst ok. destruct b; cbn [negb]; by repeat quiet_step.
Qed.
End table.
