(* ===== verification/OrderedHashTheorems.v ===== *)
(** Theorems on the insertion-ordered hash tables: any history of operations
    is the one of an ordered list of elements, refused allocations change
    nothing that counts, and an iteration that removes elements ends after
    visiting each survivor once, in order. *)
From S2P Require Import Prelude CheckedArithmetic OrderedHashTable OrderedHashInv OrderedHashOps OrderedHashRanges OrderedHashRequests.

(** * Histories *)

Section history.
Context {Key T : Type} {HP : HashPolicy Key} {OP : Ops Key T}.
Implicit Types (t : table T) (l : list T) (a : astate (T := T)).

Inductive op :=
  | Put (e : T) | Remove (k : Key) | Clear
  | Has (k : Key) | Get (k : Key) | Count
  | CreateRange (id : nat) (inNursery : bool) | CopyRange (id other : nat)
  | DestroyRange (id : nat) | DestroyNurseryRanges
  | Empty (id : nat) | Front (id : nat) | PopFront (id : nat)
  | RekeyFront (id : nat) (k : Key) | RekeyOneEntry (current : Key) (e : T).

Inductive answer :=
  | Done | Flag (b : bool) | Removed (ok foundp : bool)
  | Found (o : option T) | Number (n : Z).

(** A range used through its address. *)
Definition on_range {A} t (id : nat) (f : Range -> M A) : M A :=
  match find_range t id with Some r => f r | None => throw OutOfBounds end.

Definition run_op t (o : op) : M (table T * answer) :=
  match o with
  | Put e => '(t, ok) ← put t e; mret (t, Flag ok)
  | Remove k => '(t, ok, foundp) ← remove t k; mret (t, Removed ok foundp)
  | Clear => '(t, ok) ← clear t; mret (t, Flag ok)
  | Has k => b ← has t k; mret (t, Flag b)
  | Get k => e ← get t k; mret (t, Found e)
  | Count => mret (t, Number (count t))
  | CreateRange id inNursery => mret (createRange t id inNursery, Done)
  | CopyRange id other => on_range t other (fun r => mret (copyRange t r id, Done))
  | DestroyRange id => mret (destroyRange t id, Done)
  | DestroyNurseryRanges => mret (destroyNurseryRanges t, Done)
  | Empty id => on_range t id (fun r => mret (t, Flag (range_empty t r)))
  | Front id => on_range t id (fun r => e ← front t r; mret (t, Found (Some e)))
  | PopFront id => on_range t id (fun r => r ← popFront t r; mret (set_range t id r, Done))
  | RekeyFront id k => on_range t id (fun r => t ← rekeyFront t r k; mret (t, Done))
  | RekeyOneEntry current e => t ← rekeyOneEntry t current (getKey e) e; mret (t, Done)
  end.

Fixpoint run_ops t (ops : list op) : M (table T * list answer) :=
  match ops with
  | [] => mret (t, [])
  | o :: ops =>
      '(t, x) ← run_op t o;
      '(t, xs) ← run_ops t ops;
      mret (t, x :: xs)
  end.

(** The specification: an ordered list, and positions in it. *)
Definition a_step a (o : op) : astate * answer :=
  match o with
  | Put e => (with_items a (a_put e (items a)), Flag true)
  | Remove k => match a_find k (items a) with
                | Some (p, _) => (a_remove p a, Removed true true)
                | None => (a, Removed true false)
                end
  | Clear => (a_clear a, Flag true)
  | Has k => (a, Flag (bool_decide (is_Some (a_find k (items a)))))
  | Get k => (a, Found (snd <$> a_find k (items a)))
  | Count => (a, Number (Z.of_nat (length (items a))))
  | CreateRange id inNursery => (a_add a id 0 inNursery, Done)
  | CopyRange id other => match a_range a other with
                          | Some p => (a_add a id p false, Done)
                          | None => (a, Done)
                          end
  | DestroyRange id => (a_destroy a id, Done)
  | DestroyNurseryRanges => (with_positions a (positions a) [], Done)
  | Empty id => (a, Flag (match a_range a id with Some p => length (items a) <=? p | None => true end)%nat)
  | Front id => (a, Found (p ← a_range a id; items a !! p))
  | PopFront id => (match a_range a id with Some p => a_set a id (S p) | None => a end, Done)
  | RekeyFront id k => (match a_range a id with
                        | Some p => with_items a (alter (fun x => setKey x k) p (items a))
                        | None => a
                        end, Done)
  | RekeyOneEntry current e => (with_items a (a_rekey current (getKey e) e (items a)), Done)
  end.

Fixpoint a_steps a (ops : list op) : astate * list answer :=
  match ops with
  | [] => (a, [])
  | o :: ops =>
      let '(a, x) := a_step a o in
      let '(a, xs) := a_steps a ops in
      (a, x :: xs)
  end.

(** What the callers owe: keys that are not the empty key, ranges that live,
    a front to look at, no two elements with the same key; and fewer than
    2^31 elements before one is added. *)
Definition op_ok a (o : op) : Prop :=
  match o with
  | Put e => isEmpty (getKey e) = false /\ Z.of_nat (length (items a)) < 2 ^ 31
  | Remove k | Has k | Get k => isEmpty k = false
  | Clear | Count | CreateRange _ _ | DestroyRange _ | DestroyNurseryRanges => True
  | CopyRange _ id | Empty id => is_Some (a_range a id)
  | Front id | PopFront id => exists p, a_range a id = Some p /\ (p < length (items a))%nat
  | RekeyFront id k =>
      isEmpty k = false /\ exists p, a_range a id = Some p /\ (p < length (items a))%nat /\ uniq (alter (fun x => setKey x k) p (items a))
  | RekeyOneEntry current e =>
      isEmpty current = false /\ isEmpty (getKey e) = false /\ uniq (a_rekey current (getKey e) e (items a))
  end.

Fixpoint ops_ok a (ops : list op) : Prop :=
  match ops with
  | [] => True
  | o :: ops => op_ok a o /\ ops_ok (a_step a o).1 ops
  end.

(** What an operation may leave when a request for memory is refused. *)
Definition refused a (o : op) a' (x : answer) : Prop :=
  match o with
  | Put _ | Clear => x = Flag false /\ a' = a
  | Remove k => x = Removed false true /\ a' = (a_step a o).1
  | _ => False
  end.

(** From a table just made. *)
Definition history (ops : list op) : M (table T * list answer) :=
  fresh ← init [] [];
  match fresh with
  | Some t => run_ops t ops
  | None => throw OutOfMemory
  end.

(** * Steps *)

Context {HL : HashPolicyLaws HP} {OL : OpsLaws HP OP}.

Lemma on_range_spec {A} al t id (f : Range -> M A) p (Q : A -> Prop) E : inv t -> a_range (abs t) id = Some p ->
  (forall r, range_ok (data t) r -> Z.to_nat (range_count r) = p -> wp_at al (f r) Q E) -> wp_at al (on_range t id f) Q E.
Proof.
  intros Hi Hp Hf. pose proof (find_range_spec t id Hi) as H. unfold on_range.
  destruct (find_range t id) as [r|]; [|congruence]. destruct H as [Hr H]. apply Hf; [done|congruence].
Qed.

Lemma alter_lookup_insert (f : T -> T) p l x : l !! p = Some x -> alter f p l = <[p := f x]> l.
Proof.
  intros Hp. apply list_eq. intros i. destruct (decide (i = p)) as [->|Hne].
  - rewrite list_lookup_alter_eq, list_lookup_insert_eq by (by eapply lookup_lt_Some). by rewrite Hp.
  - by rewrite list_lookup_alter_ne, list_lookup_insert_ne.
Qed.

Lemma live_length t : inv t -> liveCount t = Z.of_nat (length (items (abs t))).
Proof. intros Hi. apply Hi. Qed.

Lemma run_op_spec al t o : inv t -> op_ok (abs t) o ->
  wp_at al (run_op t o)
    (fun '(t', x) => inv t' /\ ((abs t', x) = a_step (abs t) o \/ (may_fail al /\ refused (abs t) o (abs t') x))) no_error.
Proof.
  intros Hi Hok. destruct o as [e|k| |k|k| |id b|id other|id| |id|id|id|id k|current e]; cbn [op_ok run_op] in *.
  - destruct Hok as [He Hlt]. wp_step. eapply wpa_mono; [by apply put_spec| |].
    + intros [t' [|]]; intros [Hi' H]; wp_step; (split; [done|]); [left; by rewrite H|right]. destruct H as [Hf ->]. done.
    + intros err [_ H]. rewrite (live_length t Hi) in H. lia.
  - wp_step. eapply wpa_mono; [by apply remove_spec| |done]. intros [[t' ok] foundp] (Hi' & Hf & H). wp_step. split; [done|].
    unfold refused, a_step. destruct (a_find k (items (abs t))) as [[p x]|].
    + destruct H as [-> Ha]. destruct ok; [left; by rewrite Ha|right; auto].
    + destruct H as (-> & -> & ->). by left.
  - wp_step. eapply wpa_mono; [by apply clear_spec| |done]. intros [t' [|]]; intros [Hi' H]; wp_step; (split; [done|]); [left; by rewrite H|right].
    destruct H as [Hf ->]. done.
  - wp_step. eapply wpa_mono; [by apply has_spec| |done]. intros b ->. wp_step. auto.
  - wp_step. eapply wpa_mono; [by apply get_spec| |done]. intros b ->. wp_step. auto.
  - wp_step. split; [done|left]. unfold count. by rewrite (live_length t Hi).
  - wp_step. destruct (createRange_spec t id b Hi) as [H1 H2]. split; [done|left]. by rewrite H2.
  - destruct Hok as [p Hp]. apply (on_range_spec al t other _ p); [done..|]. intros r Hr Hc. wp_step.
    destruct (copyRange_spec t r id Hi Hr) as [H1 H2]. split; [done|left]. cbn [a_step]. by rewrite H2, Hc, Hp.
  - wp_step. destruct (destroyRange_spec t id Hi) as [H1 H2]. split; [done|left]. by rewrite H2.
  - wp_step. destruct (inv_ranges t Hi) as [H1 H2]. split; [|by left]. apply with_ranges_inv; [done|done|constructor].
  - destruct Hok as [p Hp]. apply (on_range_spec al t id _ p); [done..|]. intros r Hr Hc. wp_step.
    split; [done|left]. cbn [a_step]. by rewrite (range_empty_spec t r Hi Hr), Hp, Hc.
  - destruct Hok as (p & Hp & Hlt). apply (on_range_spec al t id _ p); [done..|]. intros r Hr Hc. wp_step.
    destruct (lookup_lt_is_Some_2 _ _ Hlt) as [x Hx].
    eapply wpa_mono; [apply (front_spec al t r x Hi Hr); by rewrite Hc| |done]. intros y ->. wp_step. split; [done|left].
    unfold a_step. rewrite Hp. cbn [mbind option_bind]. by rewrite Hx.
  - destruct Hok as (p & Hp & Hlt). apply (on_range_spec al t id _ p); [done..|]. intros r Hr Hc. wp_step.
    eapply wpa_mono; [apply (popFront_spec al t r Hi Hr); by rewrite Hc| |done]. intros r' [Hr' Hc']. wp_step.
    destruct (set_range_spec t id r' Hi Hr') as [H1 H2]. split; [done|left]. cbn [a_step]. by rewrite H2, Hc', Hc, Hp.
  - destruct Hok as (Hk & p & Hp & Hlt & Hu). apply (on_range_spec al t id _ p); [done..|]. intros r Hr Hc. wp_step.
    destruct (lookup_lt_is_Some_2 _ _ Hlt) as [x Hx]. rewrite (alter_lookup_insert _ _ _ x Hx) in Hu.
    eapply wpa_mono; [apply (rekeyFront_spec al t r k x Hi Hr Hk); by rewrite Hc| |done]. intros t' [Hi' Ha]. wp_step. split; [done|left].
    unfold a_step. rewrite Ha, Hc, Hp. by rewrite (alter_lookup_insert _ _ _ x Hx).
  - destruct Hok as (Hc & He & Hu). wp_step. eapply wpa_mono; [by apply rekeyOneEntry_spec| |done]. intros t' [Hi' Ha]. wp_step.
    split; [done|left]. by rewrite Ha.
Qed.

Lemma run_ops_spec al ops : forall t, ~ may_fail al -> inv t -> ops_ok (abs t) ops ->
  wp_at al (run_ops t ops) (fun '(t', xs) => inv t' /\ (abs t', xs) = a_steps (abs t) ops) no_error.
Proof.
  induction ops as [|o ops IH]; intros t Hal Hi Hok; cbn [run_ops a_steps]; [by wp_step|]. destruct Hok as [Ho Hok].
  wp_step. eapply wpa_mono; [by apply run_op_spec| |done]. intros [t1 x] [Hi1 [H|[? _]]]; [|done]. rewrite <- H in *. cbn [fst] in *.
  wp_step. eapply wpa_mono; [by apply IH| |done]. intros [t2 xs] [Hi2 H2]. wp_step. rewrite <- H2. done.
Qed.

Lemma history_spec al ops : ~ may_fail al -> ops_ok (AState [] [] []) ops ->
  wp_at al (history ops) (fun '(t, xs) => inv t /\ (abs t, xs) = a_steps (AState [] [] []) ops) no_error.
Proof.
  intros Hal Hok. unfold history. wp_step. eapply wpa_mono; [apply init_spec| |done]. intros [t|]; [intros ->|done].
  apply (run_ops_spec al ops); [done| |done]. by apply inv_fresh; constructor.
Qed.

(** * Iterating while removing *)

Fixpoint remove_all t (ks : list Key) : M (table T) :=
  match ks with
  | [] => mret t
  | k :: ks =>
      '(t, ok, foundp) ← remove t k;
      remove_all t ks
  end.

(** The loop the header recommends: the front is read and popped before
    the table is changed. *)
Definition iterate (body : T -> list Key) (fuel : nat) t (id : nat) : M (table T * list T) :=
  loop fuel (fun '(t, seen) =>
    on_range t id (fun r =>
      if range_empty t r then mret (inr (t, seen))
      else
        x ← front t r;
        r ← popFront t r;
        t ← remove_all (set_range t id r) (body x);
        mret (inl (t, seen ++ [x])))) (t, []).

(** The element has none of the keys. *)
Definition spared (ks : list Key) (x : T) : bool := forallb (fun k => negb (match_ (getKey x) k)) ks.

(** The elements visited: whatever an earlier visit did not remove. *)
Fixpoint visits (body : T -> list Key) (n : nat) l : list T :=
  match n, l with
  | S n, x :: l => x :: visits body n (filter (fun y => spared (body x) y = true) l)
  | _, _ => []
  end.

Lemma filter_all {A} (f : A -> bool) (l : list A) : (forall x, x ∈ l -> f x = true) -> filter (fun x => f x = true) l = l.
Proof.
  induction l as [|x l IH]; intros Hall; [done|]. rewrite filter_cons, decide_True by (apply Hall; by left).
  f_equal. apply IH. intros y Hy. apply Hall. by right.
Qed.

Lemma uniq_drop p l : uniq l -> uniq (drop p l).
Proof. intros Hu i j x y Hi Hj Hm. rewrite lookup_drop in Hi, Hj. pose proof (Hu _ _ _ _ Hi Hj Hm). lia. Qed.

Lemma spared1 k (x : T) : spared [k] x = negb (match_ (getKey x) k).
Proof. cbn. apply andb_true_r. Qed.

(** Deleting the first match leaves what does not match. *)
Lemma delete_match k q x l : uniq l -> a_find k l = Some (q, x) -> delete q l = filter (fun y => spared [k] y = true) l.
Proof.
  intros Hu Hf. apply list_find_Some in Hf as (Hq & Hm & Hbefore). rewrite delete_take_drop.
  rewrite <- (take_drop_middle l q x Hq) at 3. rewrite list.filter_app, filter_cons, decide_False by (by rewrite spared1, Hm).
  f_equal; symmetry; apply filter_all; intros y Hy; rewrite spared1, negb_true_iff; apply not_true_iff_false; intros Hmy.
  - apply list_elem_of_lookup in Hy as [i Hi]. pose proof (lookup_lt_Some _ _ _ Hi) as Hlt. rewrite length_take in Hlt.
    rewrite lookup_take_lt in Hi by lia. by apply (Hbefore i y Hi); [lia|].
  - apply list_elem_of_lookup in Hy as [i Hi]. rewrite lookup_drop in Hi.
    assert (q = S q + i)%nat; [|lia]. apply (Hu _ _ x y Hq Hi). apply match_trans with k; [done|]. by rewrite match_sym.
Qed.

Lemma no_match k l : a_find k l = None -> filter (fun y => spared [k] y = true) l = l.
Proof.
  intros Hf. apply filter_all. intros y Hy. unfold a_find in Hf. apply list_find_None in Hf. rewrite list.Forall_forall in Hf.
  rewrite spared1, negb_true_iff. apply not_true_iff_false. by apply Hf.
Qed.

(** The elements from a position on, after a removal. *)
Lemma delete_behind k q x p l : uniq l -> a_find k l = Some (q, x) ->
  drop (if (q <? p)%nat then p - 1 else p)%nat (delete q l) = filter (fun y => spared [k] y = true) (drop p l).
Proof.
  intros Hu Hf. pose proof Hf as Hf'. apply list_find_Some in Hf' as (Hq & Hm & Hbefore). pose proof (lookup_lt_Some _ _ _ Hq) as Hlt.
  destruct (Nat.ltb_spec q p) as [Hqp|Hqp].
  - rewrite delete_take_drop, drop_app_ge by (rewrite length_take; lia). rewrite length_take, drop_drop, filter_all.
    + f_equal. lia.
    + intros y Hy. rewrite spared1, negb_true_iff. apply not_true_iff_false. intros Hmy.
      apply list_elem_of_lookup in Hy as [i Hi]. rewrite lookup_drop in Hi. assert (q = p + i)%nat; [|lia].
      apply (Hu _ _ x y Hq Hi). apply match_trans with k; [done|]. by rewrite match_sym.
  - rewrite <- (delete_match k (q - p) x); [|by apply uniq_drop|].
    + rewrite !delete_take_drop, drop_app_le by (rewrite length_take; lia). rewrite drop_drop, skipn_firstn_comm.
      f_equal. f_equal. lia.
    + apply list_find_Some. rewrite lookup_drop. replace (p + (q - p))%nat with q by lia. split_and!; [done|done|].
      intros j y Hj Hjq. rewrite lookup_drop in Hj. apply (Hbefore _ _ Hj). lia.
Qed.

Lemma a_range_fmap a a' id (g : nat * nat -> nat) : positions a' = (fun q => (q.1, g q)) <$> positions a ->
  nursery_positions a' = (fun q => (q.1, g q)) <$> nursery_positions a ->
  a_range a' id = (fun p => g (id, p)) <$> a_range a id.
Proof.
  intros H1 H2. unfold a_range. rewrite H1, H2, <- fmap_app, list_find_fmap. unfold compose. cbn [fst].
  destruct (list_find _ _) as [[i [id' p]]|] eqn:E; [|done]. apply list_find_Some in E as (_ & E & _). cbn in E |- *. by subst id'.
Qed.

Lemma a_range_remove a q id : a_range (a_remove q a) id = (fun p => if (q <? p)%nat then p - 1 else p)%nat <$> a_range a id.
Proof. by apply (a_range_fmap a _ id (fun r => if (q <? r.2)%nat then r.2 - 1 else r.2)%nat). Qed.

Lemma a_range_set a id p p' : a_range a id = Some p -> a_range (a_set a id p') id = Some p'.
Proof.
  intros Hp. rewrite (a_range_fmap a _ id (fun r => if decide (r.1 = id) then p' else r.2)), Hp.
  - cbn. by rewrite decide_True.
  - apply list_fmap_ext. intros i [id' r] _. unfold set_position. cbn. by case_decide; subst.
  - apply list_fmap_ext. intros i [id' r] _. unfold set_position. cbn. by case_decide; subst.
Qed.

Lemma spared_cons k ks : forall l, filter (fun y => spared ks y = true) (filter (fun y => spared [k] y = true) l) = filter (fun y => spared (k :: ks) y = true) l.
Proof.
  intros l. rewrite list_filter_filter. apply list_filter_iff. intros y. unfold spared. cbn [forallb].
  rewrite andb_true_r, andb_true_iff. tauto.
Qed.

Lemma remove_all_spec al id ks : forall t p, inv t -> Forall (fun k => isEmpty k = false) ks -> a_range (abs t) id = Some p ->
  wp_at al (remove_all t ks)
    (fun t' => inv t' /\ items (abs t') = filter (fun y => spared ks y = true) (items (abs t)) /\
       exists p', a_range (abs t') id = Some p' /\ drop p' (items (abs t')) = filter (fun y => spared ks y = true) (drop p (items (abs t)))) no_error.
Proof.
  induction ks as [|k ks IH]; intros t p Hi Hks Hp; cbn [remove_all].
  { wp_step. split; [done|]. rewrite !filter_all by done. eauto. }
  apply Forall_cons_1 in Hks as [Hk Hks]. wp_step. eapply wpa_mono; [by apply remove_spec| |done].
  intros [[t1 ok] foundp] (Hi1 & _ & H1).
  assert (Hstep : items (abs t1) = filter (fun y => spared [k] y = true) (items (abs t)) /\
    exists p1, a_range (abs t1) id = Some p1 /\ drop p1 (items (abs t1)) = filter (fun y => spared [k] y = true) (drop p (items (abs t)))).
  { destruct (a_find k (items (abs t))) as [[q x]|] eqn:Hf.
    - destruct H1 as [_ H1]. rewrite H1, a_range_remove, Hp. cbn [fmap option_fmap option_map a_remove items].
      split; [by apply (delete_match k q x); [apply Hi|]|]. eexists. split; [done|]. by apply (delete_behind k q x); [apply Hi|].
    - destruct H1 as (_ & _ & ->). split; [by rewrite no_match|]. exists p. split; [done|]. rewrite filter_all; [done|].
      intros y Hy. rewrite <- (no_match k _ Hf) in Hy. apply (subseteq_drop p) in Hy. by apply list_elem_of_filter in Hy as [Hy _]. }
  destruct Hstep as (Hit & p1 & Hp1 & Hd1). eapply wpa_mono; [by apply (IH t1 p1)| |done].
  intros t' (Hi' & Hit' & p' & Hp' & Hd'). split; [done|]. rewrite Hit in Hit'. rewrite Hd1 in Hd'. rewrite spared_cons in Hit', Hd'. eauto.
Qed.

Lemma visits_enough body n m l : (length l <= n)%nat -> (length l <= m)%nat -> visits body n l = visits body m l.
Proof.
  revert m l. induction n as [|n IH]; intros [|m] [|x l] Hn Hm; try done; cbn [length] in *; try lia. cbn [visits]. f_equal.
  pose proof (length_filter (fun y => spared (body x) y = true) l). apply IH; lia.
Qed.

Lemma spared_app ks ks' (x : T) : spared (ks ++ ks') x = spared ks x && spared ks' x.
Proof. apply forallb_app. Qed.

Definition ahead t (id : nat) : list T := drop (default O (a_range (abs t) id)) (items (abs t)).

(** One turn of the loop. *)
Lemma visit_spec {B} al id (body : T -> list Key) t x (f : T -> table T -> B) (Q : B -> Prop) r :
  inv t -> Forall (fun k => isEmpty k = false) (body x) -> range_ok (data t) r -> a_range (abs t) id = Some (Z.to_nat (range_count r)) ->
  ahead t id !! 0%nat = Some x ->
  (forall t', inv t' -> is_Some (a_range (abs t') id) ->
     items (abs t') = filter (fun y => spared (body x) y = true) (items (abs t)) ->
     ahead t' id = filter (fun y => spared (body x) y = true) (drop 1 (ahead t id)) -> Q (f x t')) ->
  wp_at al (y ← front t r; r' ← popFront t r; t' ← remove_all (set_range t id r') (body y); mret (f y t')) Q no_error.
Proof.
  intros Hi Hks Hr Hp Hx HQ. unfold ahead in *. rewrite Hp in *. cbn [from_option Datatypes.id] in *. rewrite lookup_drop, Nat.add_0_r in Hx.
  pose proof (lookup_lt_Some _ _ _ Hx) as Hlt. wp_step. eapply wpa_mono; [by apply (front_spec al t r x)| |done]. intros y ->.
  wp_step. eapply wpa_mono; [by apply popFront_spec| |done]. intros r' [Hr' Hc'].
  destruct (set_range_spec t id r' Hi Hr') as [H1 H2]. wp_step.
  assert (Hp1 : a_range (abs (set_range t id r')) id = Some (S (Z.to_nat (range_count r)))).
  { rewrite H2, <- Hc'. by apply (a_range_set _ _ _ _ Hp). }
  eapply wpa_mono; [by apply (remove_all_spec al id (body x) _ _ H1 Hks Hp1)| |done]. intros t' (Hi' & Hit & p' & Hp' & Hd). wp_step.
  rewrite H2 in Hit, Hd. cbn [items a_set with_positions] in Hit, Hd. apply HQ; [done|by eexists|done|].
  rewrite Hp', drop_drop. cbn [from_option Datatypes.id]. rewrite Hd. do 2 f_equal. lia.
Qed.

Lemma iterate_spec al body t id : inv t -> is_Some (a_range (abs t) id) -> (forall x, Forall (fun k => isEmpty k = false) (body x)) ->
  forall fuel, (length (ahead t id) < fuel)%nat ->
  wp_at al (iterate body fuel t id)
    (fun '(t', seen) => inv t' /\ seen = visits body (length (ahead t id)) (ahead t id) /\ ahead t' id = [] /\
       items (abs t') = filter (fun y => spared (seen ≫= body) y = true) (items (abs t))) no_error.
Proof.
  intros Hi Hp Hks fuel Hfuel. unfold iterate.
  apply (wpa_loop al (fun '(t', seen) => inv t' /\ is_Some (a_range (abs t') id) /\
      seen ++ visits body (length (ahead t' id)) (ahead t' id) = visits body (length (ahead t id)) (ahead t id) /\
      items (abs t') = filter (fun y => spared (seen ≫= body) y = true) (items (abs t)))
    (fun '(t', _) => Z.of_nat (length (ahead t' id)))).
  - split_and!; [done|done|done|]. by rewrite filter_all.
  - lia.
  - intros [t' seen] _. lia.
  - intros [t' seen] (Hi' & [p' Hp'] & Hv & Hit). apply (on_range_spec al t' id _ p'); [done..|]. intros r Hr Hc.
    assert (Hpr : a_range (abs t') id = Some (Z.to_nat (range_count r))) by (by rewrite Hc).
    assert (Hah : ahead t' id = drop (Z.to_nat (range_count r)) (items (abs t'))) by (unfold ahead; by rewrite Hpr).
    pose proof (range_empty_spec t' r Hi' Hr) as He. wp_step; rewrite He in *.
    + apply Nat.leb_le in Hc0. wp_step. rewrite drop_ge in Hah by lia. rewrite Hah in Hv. cbn [visits length] in Hv. rewrite app_nil_r in Hv. done.
    + apply Nat.leb_gt in Hc0. destruct (ahead t' id) as [|x l] eqn:Hl.
      { exfalso. apply (f_equal length) in Hah. rewrite length_drop in Hah. cbn [length] in Hah. lia. }
      apply (visit_spec al id body t' x (fun y t2 => inl (t2, seen ++ [y])) _ r Hi' (Hks x) Hr Hpr); [by rewrite Hl|].
      intros t2 Hi2 Hp2 Hit2 Hah2. rewrite Hl in Hah2. cbn [drop] in Hah2. rewrite Hah2.
      pose proof (length_filter (fun y => spared (body x) y = true) l) as Hlen. split; [|cbn [length]; apply inj_lt; by apply Nat.lt_succ_r].
      split_and!; [done|done| |].
      * rewrite <- app_assoc. cbn [app]. cbn [length visits] in Hv. rewrite <- Hv. do 2 f_equal. apply visits_enough; [done|].
        apply length_filter.
      * rewrite Hit2, Hit, list_filter_filter, bind_app. cbn [mbind list_bind]. rewrite app_nil_r. apply list_filter_iff. intros y.
        rewrite spared_app, andb_true_iff. tauto.
Qed.
End history.

(** * Integer keys, for the applications *)

(** The empty key is -1, and the hash code is the low 32 bits. *)
#[local] Instance int_keys : HashPolicy Z := {|
  isEmpty k := k =? -1;
  emptyKey := -1;
  hash k := uint32 k;
  match_ k l := k =? l;
  key_eqb k l := k =? l;
|}.

#[local] Instance int_keys_laws : HashPolicyLaws int_keys.
Proof.
  constructor; cbn; try done.
  - intros k _. apply Z.eqb_refl.
  - intros k l. apply Z.eqb_sym.
  - intros k l m. rewrite !Z.eqb_eq. congruence.
  - intros k l. rewrite Z.eqb_eq. congruence.
  - intros k l. rewrite Z.eqb_eq. congruence.
Qed.

#[local] Instance int_map : Ops Z (Entry Z Z) := MapOps int_keys 0.

Lemma int_uniq (l : list (Entry Z Z)) : NoDup (key <$> l) -> uniq l.
Proof.
  intros Hn i j x y Hi Hj Hm. apply Z.eqb_eq in Hm. apply (NoDup_lookup (key <$> l) i j (key x)); [done|..]; rewrite list_lookup_fmap.
  - by rewrite Hi.
  - rewrite Hj. cbn in *. by rewrite Hm.
Qed.

Definition empty_state : astate (T := Entry Z Z) := AState [] [] [].

(** Seven keys that share a bucket, in a table that starts with two: it
    grows, the range that is halfway through survives removals, compaction
    and a change of its key, and the table shrinks again. *)
Definition sample_ops : list (op (Key := Z) (T := Entry Z Z)) :=
  [CreateRange 1 false; Put (MkEntry 10 100); Put (MkEntry 20 200); Put (MkEntry 30 300); Put (MkEntry 40 400);
   PopFront 1; PopFront 1; CreateRange 2 true; CopyRange 3 1; Remove 10; Put (MkEntry 50 500); Put (MkEntry 60 600);
   Put (MkEntry 70 700); Put (MkEntry 30 301); Front 1; Get 30; Has 10; Count; PopFront 1; Remove 40; Front 1;
   Remove 50; Remove 60; Remove 20; Remove 71; Front 1; Front 3; DestroyRange 3; DestroyNurseryRanges;
   RekeyFront 1 71; Get 71; Has 70; RekeyOneEntry 30 (MkEntry 31 301); Get 31; Clear; Empty 1; Count; Put (MkEntry 5 50); Front 1].

(** The duties of the callers, on concrete operations. *)
Ltac check_ops :=
  repeat (split; [cbn [op_ok];
    repeat match goal with
    | |- True => exact I
    | |- _ /\ _ => split
    | |- exists p, _ => eexists
    | |- is_Some _ => eexists
    | |- uniq _ => apply int_uniq; apply (bool_decide_unpack _); vm_compute; exact I
    | |- _ => vm_compute; reflexivity
    | |- (_ < _)%nat => apply (bool_decide_unpack _); vm_compute; exact I
    end|]); exact I.

(** * Theorems *)

(** C34: any history of operations on a new table in which the callers keep
    their obligations ([op_ok]: no empty keys, live ranges, a front where one
    is asked for, no key changed into another's, fewer than 2^31 elements
    before a [put]) and no request for memory is refused (C35 treats that)
    gives the answers of an ordered list of elements with positions in it:
    [put] overwrites in place or appends, [remove] deletes and moves the positions behind, ranges
    survive growth, shrinking, compaction and clearing, a changed key keeps
    its place.  The chains, the live count, the ranges and the capacity stay
    as the invariant says, and no cell outside the arrays is touched. *)
Theorem history_correct {Key T} {HP : HashPolicy Key} {OP : Ops Key T} {HL : HashPolicyLaws HP} {OL : OpsLaws HP OP}
    (ops : list (op (Key := Key) (T := T))) al :
  ~ may_fail al -> ops_ok (AState [] [] []) ops ->
  wp_at al (history ops) (fun '(t, xs) => inv t /\ (abs t, xs) = a_steps (AState [] [] []) ops) no_error.
Proof. apply history_spec. Qed.

Lemma history_correct_witness :
  wp_at calm (history sample_ops) (fun '(t, xs) => inv t /\ (abs t, xs) = a_steps empty_state sample_ops) no_error /\
  match run calm (history sample_ops) with
  | Ok (t, xs) => (hashShift t, dataLength t, nth 24 xs Done, nth 25 xs Done, list.last xs) =
      (31, 1, Removed true false, Found (Some (MkEntry 70 700)), Some (Found (Some (MkEntry 5 50))))
  | Err _ => False
  end.
Proof.
  split; [|vm_compute; reflexivity]. apply (history_correct sample_ops calm); [exact calm_never_fails|].
  unfold sample_ops. check_ops.
Defined.

(** C35: a refused request for memory.  [put], [clear] and [remove] report it:
    each returns false exactly when one of the requests it made was refused.
    [put] and [clear] then leave the table as it was, cell by cell and range by
    range, and otherwise have their effect on the contents and the ranges.
    [remove] has its effect in any case, the flag false meaning that an element
    was found and removed and only the shrinking given up.  In every case the
    table works on: its invariant holds.  The keys passed in are not the empty
    key, as the callers owe.  The only failure is the undefined conversion of
    the capacity in a [put] when 2^31 elements are live. *)
Theorem refused_allocation_harmless {Key T} {HP : HashPolicy Key} {OP : Ops Key T} {HL : HashPolicyLaws HP} {OL : OpsLaws HP OP}
    al (t : table T) e k : inv t -> isEmpty (getKey e) = false -> isEmpty k = false ->
  reports al (put t e) snd /\ reports al (clear t) snd /\ reports al (remove t k) (fun '(_, ok, _) => ok) /\
  wp_at al (put t e) (fun '(t', ok) => inv t' /\ if ok : bool then abs t' = (a_step (abs t) (Put e)).1 else t' = t)
    (fun err => err = UndefinedBehavior /\ 2 ^ 31 <= count t) /\
  wp_at al (clear t) (fun '(t', ok) => inv t' /\ if ok : bool then abs t' = (a_step (abs t) Clear).1 else t' = t) no_error /\
  wp_at al (remove t k)
    (fun '(t', ok, foundp) => inv t' /\ a_step (abs t) (Remove k) = (abs t', Removed true foundp) /\
       (ok = false -> foundp = true)) no_error.
Proof.
  intros Hi He Hk. split_and!.
  - apply put_reports.
  - apply clear_reports.
  - intros n [[t' ok] foundp] n' E. exact (remove_reports al t k n _ n' E).
  - eapply wpa_mono; [by apply put_spec| |done]. intros [t' [|]] [Hi' H]; [done|]. by destruct H.
  - eapply wpa_mono; [by apply clear_spec| |done]. intros [t' [|]] [Hi' H]; [done|]. by destruct H.
  - eapply wpa_mono; [by apply remove_spec| |done]. intros [[t' ok] foundp] (Hi' & Hf & H). split; [done|]. cbn [a_step].
    destruct (a_find k (items (abs t))) as [[p x]|]; [by destruct H as [-> ->]|]. by destruct H as (-> & -> & ->).
Qed.

(** The table of five elements that fills its first data vector. *)
Definition full_table : table (Entry Z Z) :=
  match run calm (history (OP := int_map) [CreateRange 1 false; Put (MkEntry 10 100); Put (MkEntry 20 200); Put (MkEntry 30 300); PopFront 1;
                           Put (MkEntry 40 400); Put (MkEntry 50 500)]) with
  | Ok (t, _) => t
  | Err _ => Table [] [] 0 0 0 [] []
  end.

Lemma full_table_inv : inv full_table.
Proof.
  unfold full_table. match goal with |- context [history ?ops] => pose proof (history_spec calm ops calm_never_fails) as H end.
  apply wpa_run in H; [|check_ops|exact calm_never_fails]. destruct (run calm _) as [[t xs]|err]; [apply H|done].
Qed.

(** No request is granted. *)
Definition poor : allocator := Allocator (fun _ => true) (fun _ _ => 0).

Lemma refused_allocation_harmless_witness :
  (reports poor (put full_table (MkEntry 60 600)) snd /\ reports poor (clear full_table) snd /\
   reports poor (remove full_table 20) (fun '(_, ok, _) => ok) /\
   wp_at poor (put full_table (MkEntry 60 600))
     (fun '(t', ok) => inv t' /\ if ok : bool then abs t' = (a_step (abs full_table) (Put (MkEntry 60 600))).1 else t' = full_table)
     (fun err => err = UndefinedBehavior /\ 2 ^ 31 <= count full_table) /\
   wp_at poor (clear full_table)
     (fun '(t', ok) => inv t' /\ if ok : bool then abs t' = (a_step (abs full_table) Clear).1 else t' = full_table) no_error /\
   wp_at poor (remove full_table 20)
     (fun '(t', ok, foundp) => inv t' /\ a_step (abs full_table) (Remove 20) = (abs t', Removed true foundp) /\
        (ok = false -> foundp = true)) no_error) /\
  run poor (put full_table (MkEntry 60 600)) = Ok (full_table, false).
Proof.
  split; [|vm_compute; reflexivity].
  apply (refused_allocation_harmless poor full_table (MkEntry 60 600) 20); [exact full_table_inv|reflexivity|reflexivity].
Defined.

(** C36: a loop that pops the front of a range, looks at it and removes
    elements of its choice, itself included, ends: it visits in insertion
    order, each once, the elements ahead of the range that no earlier visit
    removed, and leaves the range empty and in the table what nobody removed;
    shrinking and compaction on the way, and refused requests for memory,
    make no difference. *)
Theorem iteration_visits_survivors {Key T} {HP : HashPolicy Key} {OP : Ops Key T} {HL : HashPolicyLaws HP} {OL : OpsLaws HP OP}
    al (t : table T) (id p : nat) (body : T -> list Key) : inv t -> a_range (abs t) id = Some p ->
  (forall x, Forall (fun k => isEmpty k = false) (body x)) ->
  let l := drop p (items (abs t)) in
  wp_at al (iterate body (S (length l)) t id)
    (fun '(t', seen) => inv t' /\ seen = visits body (length l) l /\ ahead t' id = [] /\
       items (abs t') = filter (fun y => spared (seen ≫= body) y = true) (items (abs t))) no_error.
Proof.
  intros Hi Hp Hks l. assert (El : ahead t id = l) by (unfold ahead; by rewrite Hp).
  rewrite <- El. apply iterate_spec; [done|by eexists|done|lia].
Qed.

(** Each visit removes the successor of the element and itself. *)
Definition remove_next (e : Entry Z Z) : list Z := [Z.abs (key e) + 10; Z.abs (key e)].

Lemma iteration_visits_survivors_witness :
  (let l := drop 1 (items (abs full_table)) in
   wp_at poor (iterate remove_next (S (length l)) full_table 1)
     (fun '(t', seen) => inv t' /\ seen = visits remove_next (length l) l /\ ahead t' 1 = [] /\
        items (abs t') = filter (fun y => spared (seen ≫= remove_next) y = true) (items (abs full_table))) no_error) /\
  match run poor (iterate remove_next 5 full_table 1) with
  | Ok (t', seen) => (key <$> seen, key <$> items (abs t')) = ([20; 40], [10])
  | Err _ => False
  end.
Proof.
  split; [|vm_compute; reflexivity].
  apply (iteration_visits_survivors poor full_table 1 1 remove_next); [exact full_table_inv|vm_compute; reflexivity|].
  intros e. repeat constructor; apply Z.eqb_neq; lia.
Defined.
