(* ===== verification/MoveResolver.v ===== *)
(** The parallel move resolver of the JIT (jit/MoveResolver.h and .cpp), as
    it is compiled for x86 and x64: no register pairs, and float registers of
    every type share their encoding (jit/x86-shared/Architecture-x86-shared.h).
    An intrusive list is a list, front first; a node is named by its
    position. *)
From S2P Require Import Prelude.

(** * Operands *)

Inductive Kind := REG | FLOAT_REG | MEMORY | EFFECTIVE_ADDRESS.

#[global] Instance Kind_eq_dec : EqDecision Kind.
Proof. solve_decision. Defined.

Record MoveOperand := MkOperand { kind_ : Kind; code_ : Z; disp_ : Z }.

#[global] Instance MoveOperand_eq_dec : EqDecision MoveOperand.
Proof. solve_decision. Defined.

(** The constructors. *)
Definition reg_operand (reg : Z) : MoveOperand := MkOperand REG reg 0.
Definition float_operand (reg : Z) : MoveOperand := MkOperand FLOAT_REG reg 0.
Definition address_operand (reg disp : Z) (kind : Kind) : M MoveOperand :=
  moz_assert (bool_decide (kind = MEMORY) || bool_decide (kind = EFFECTIVE_ADDRESS));;
  mret (MkOperand (if (disp =? 0) && bool_decide (kind = EFFECTIVE_ADDRESS) then REG else kind) reg disp).

Definition isFloatReg (o : MoveOperand) : bool := bool_decide (kind_ o = FLOAT_REG).
Definition isGeneralReg (o : MoveOperand) : bool := bool_decide (kind_ o = REG).
Definition isMemory (o : MoveOperand) : bool := bool_decide (kind_ o = MEMORY).
Definition isEffectiveAddress (o : MoveOperand) : bool := bool_decide (kind_ o = EFFECTIVE_ADDRESS).
Definition isMemoryOrEffectiveAddress (o : MoveOperand) : bool := isMemory o || isEffectiveAddress o.

(** [FloatRegister::FromCode] keeps the type in the bits above [RegSize]. *)
Class MoveArch := { RegSize : Z }.
Definition arch_x86 : MoveArch := {| RegSize := 3 |}.
Definition arch_x64 : MoveArch := {| RegSize := 4 |}.

Section resolver.
Context {MA : MoveArch}.

Definition RegMask : Z := Z.shiftl 1 RegSize - 1.
Definition float_encoding (code : Z) : Z := Z.land code RegMask.
Definition float_aliases (a b : Z) : bool := float_encoding b =? float_encoding a.

(** The two assertions at the start of [aliases]: an address is not based on
    the other operand. *)
Definition aliases_asserted (o other : MoveOperand) : bool :=
  (negb (isMemoryOrEffectiveAddress o && isGeneralReg other) || negb (code_ o =? code_ other)) &&
  (negb (isMemoryOrEffectiveAddress other && isGeneralReg o) || negb (code_ other =? code_ o)).

Definition aliases (o other : MoveOperand) : bool :=
  if negb (bool_decide (kind_ o = kind_ other)) then false
  else if isFloatReg o then float_aliases (code_ o) (code_ other)
  else if negb (code_ o =? code_ other) then false
  else if isMemoryOrEffectiveAddress o then disp_ o =? disp_ other
  else true.

(** [operator==] *)
Definition operand_eqb (o other : MoveOperand) : bool :=
  if negb (bool_decide (kind_ o = kind_ other)) then false
  else if negb (code_ o =? code_ other) then false
  else if isMemoryOrEffectiveAddress o then disp_ o =? disp_ other
  else true.

(** * Moves *)

Inductive MoveType := GENERAL | INT32 | FLOAT32 | DOUBLE | SIMD128.

#[global] Instance MoveType_eq_dec : EqDecision MoveType.
Proof. solve_decision. Defined.

(** [PendingMove] adds only the list node. *)
Record MoveOp := MkMoveOp {
  from : MoveOperand;
  to : MoveOperand;
  isCycleBegin : bool;
  isCycleEnd : bool;
  cycleBeginSlot : Z;
  cycleEndSlot : Z;
  type : MoveType;
  endCycleType : MoveType;
}.

Definition new_move (from to : MoveOperand) (type : MoveType) : MoveOp :=
  MkMoveOp from to false false (-1) (-1) type GENERAL.

Definition move_aliases_operand (m : MoveOp) (o : MoveOperand) : bool := aliases (from m) o || aliases (to m) o.
Definition move_aliases (m other : MoveOp) : bool := move_aliases_operand m (from other) || move_aliases_operand m (to other).

Definition setCycleBegin (m : MoveOp) (endCycleType : MoveType) (cycleSlot : Z) : M MoveOp :=
  moz_assert (negb (isCycleBegin m));;
  mret (MkMoveOp (from m) (to m) true (isCycleEnd m) cycleSlot (cycleEndSlot m) (type m) endCycleType).

Definition setCycleEnd (m : MoveOp) (cycleSlot : Z) : M MoveOp :=
  moz_assert (negb (isCycleEnd m));;
  mret (MkMoveOp (from m) (to m) (isCycleBegin m) true (cycleBeginSlot m) cycleSlot (type m) (endCycleType m)).

(** * The resolver *)

Record MoveResolver := MkResolver {
  orderedMoves_ : list MoveOp;
  numCycles_ : Z;
  curCycles_ : Z;
  pending_ : list MoveOp;
}.

Definition new_resolver : MoveResolver := MkResolver [] 0 0 [].
Definition resetState (r : MoveResolver) : MoveResolver := MkResolver (orderedMoves_ r) 0 0 (pending_ r).

(** [InlineList::popBack] *)
Definition popBack {A} (l : list A) : option (list A * A) :=
  match list.last l with
  | Some x => Some (take (length l - 1) l, x)
  | None => None
  end.

(** [Vector::operator[]] *)
Definition move_at (l : list MoveOp) (i : nat) : M MoveOp :=
  match l !! i with Some m => mret m | None => throw OutOfBounds end.

(** [Vector::insert] before position [i]; [append] is at the end. *)
Definition insert_move (i : nat) (m : MoveOp) (l : list MoveOp) : M (list MoveOp * bool) :=
  ok ← try_allocate;
  mret (if ok : bool then (take i l ++ m :: drop i l, true) else (l, false)).
Definition append_move (m : MoveOp) (l : list MoveOp) : M (list MoveOp * bool) :=
  ok ← try_allocate;
  mret (if ok : bool then (l ++ [m], true) else (l, false)).

Definition addMove (r : MoveResolver) (from to : MoveOperand) (type : MoveType) : M (MoveResolver * bool) :=
  moz_assert (negb (operand_eqb from to));;
  ok ← try_allocate;
  mret (if ok : bool
        then (MkResolver (orderedMoves_ r) (numCycles_ r) (curCycles_ r) (pending_ r ++ [new_move from to type]), true)
        else (r, false)).

(** The first pending move that reads what [last] writes. *)
Definition findBlockingMove (pending : list MoveOp) (last : MoveOp) : option (nat * MoveOp) :=
  list_find (fun other => aliases (from other) (to last) = true) pending.

(** The same on the stack, from [iter] on; also where to go on. *)
Definition findCycledMove (stack : list MoveOp) (iter : nat) (last : MoveOp) : option nat * nat :=
  match list_find (fun other => aliases (from other) (to last) = true) (drop iter stack) with
  | Some (k, _) => (Some (iter + k)%nat, S (iter + k))
  | None => (None, length stack)
  end.

(** The [do] loop over all the moves that [blocking] closes a cycle with. *)
Definition markCycles (stack : list MoveOp) (blocking : MoveOp) (cur : Z) (cycled iter : nat) : M (list MoveOp) :=
  loop (S (length stack)) (fun '(stack, cycled, iter) =>
    m ← move_at stack cycled;
    m ← setCycleEnd m cur;
    let stack := <[cycled := m]> stack in
    match findCycledMove stack iter blocking with
    | (Some cycled, iter) => mret (inl (stack, cycled, iter))
    | (None, _) => mret (inr stack)
    end) (stack, cycled, iter).

Definition isReg (o : MoveOperand) : bool := isGeneralReg o || isFloatReg o.

(** The search for an earlier move with the same source, from position
    [n - 1] down; [None] when [move] is to be appended. *)
Fixpoint findMerge (ordered : list MoveOp) (move : MoveOp) (n : nat) : option (list MoveOp * nat * MoveOp) :=
  match n with
  | O => None
  | S i =>
      match ordered !! i with
      | None => None
      | Some existing =>
          let next := if move_aliases existing move then None else findMerge ordered move i in
          if operand_eqb (from existing) (from move) && negb (aliases (to existing) (to move)) &&
             bool_decide (type existing = type move) && negb (isCycleBegin existing) && negb (isCycleEnd existing)
          then
            if isReg (to existing) then Some (ordered, S i, new_move (to existing) (to move) (type move))
            else if isReg (to move) then Some (<[i := move]> ordered, S i, new_move (to move) (to existing) (type move))
            else next
          else next
      end
  end.

Definition addOrderedMove (ordered : list MoveOp) (move : MoveOp) : M (list MoveOp * bool) :=
  moz_assert (negb (aliases (from move) (to move)));;
  if negb (isMemory (from move)) || isCycleBegin move || isCycleEnd move then append_move move ordered
  else
    match findMerge ordered move (length ordered) with
    | Some (ordered, after, nmove) => insert_move after nmove ordered
    | None => append_move move ordered
    end.

(** One turn of the inner loop; [pm] is the move the search started from.
    The flag of the result is false when memory ran out. *)
Definition searchStep (pm : MoveOp) (r : MoveResolver) (stack : list MoveOp)
    : M (MoveResolver * list MoveOp + MoveResolver * bool) :=
  match popBack stack with
  | None => mret (inr (r, true))
  | Some (rest, top) =>
      match findBlockingMove (pending_ r) top with
      | Some (k, blocking) =>
          let pending := delete k (pending_ r) in
          match findCycledMove stack 0 blocking with
          | (Some cycled, iter) =>
              stack ← markCycles stack blocking (curCycles_ r) cycled iter;
              blocking ← setCycleBegin blocking (type pm) (curCycles_ r);
              mret (inl (MkResolver (orderedMoves_ r) (numCycles_ r) (curCycles_ r + 1) pending, stack ++ [blocking]))
          | (None, _) =>
              mret (inl (MkResolver (orderedMoves_ r) (numCycles_ r) (curCycles_ r) pending, stack ++ [blocking]))
          end
      | None =>
          '(ordered, ok) ← addOrderedMove (orderedMoves_ r) top;
          let r := MkResolver ordered (numCycles_ r) (curCycles_ r) (pending_ r) in
          mret (if ok : bool then inl (r, rest) else inr (r, false))
      end
  end.

(** The inner loop: every turn moves a node from the pending list to the
    stack or from the stack to the ordered moves. *)
Definition search (pm : MoveOp) (r : MoveResolver) : M (MoveResolver * bool) :=
  loop (2 * length (pending_ r) + 3) (fun '(r, stack) => searchStep pm r stack) (r, [pm]).

(** The outer loop; the pending list is cleared on every way out. *)
Definition resolve (r : MoveResolver) : M (MoveResolver * bool) :=
  let r := resetState r in
  let r := MkResolver [] (numCycles_ r) (curCycles_ r) (pending_ r) in
  '(r, ok) ← loop (S (length (pending_ r))) (fun r =>
    match popBack (pending_ r) with
    | None => mret (inr (r, true))
    | Some (pending, pm) =>
        '(r, ok) ← search pm (MkResolver (orderedMoves_ r) (numCycles_ r) (curCycles_ r) pending);
        if negb ok then mret (inr (r, false))
        else
          let num := if numCycles_ r <? curCycles_ r then curCycles_ r else numCycles_ r in
          mret (inl (MkResolver (orderedMoves_ r) num 0 (pending_ r)))
    end) r;
  mret (MkResolver (orderedMoves_ r) (numCycles_ r) (curCycles_ r) [], ok).

(** * Reordering *)

(** [for (i = from; i < to; i++) l[i] = l[i + 1]], [n] turns left. *)
Fixpoint shiftDown (n i : nat) (l : list MoveOp) : M (list MoveOp) :=
  match n with
  | O => mret l
  | S n => m ← move_at l (S i); shiftDown n (S i) (<[i := m]> l)
  end.
(** [for (i = from; i > to; i--) l[i] = l[i - 1]] *)
Fixpoint shiftUp (n i : nat) (l : list MoveOp) : M (list MoveOp) :=
  match n with
  | O => mret l
  | S n => m ← move_at l (i - 1); shiftUp n (i - 1) (<[i := m]> l)
  end.

Definition reorderMove (from to : nat) (l : list MoveOp) : M (list MoveOp) :=
  moz_assert (negb (from =? to)%nat);;
  op ← move_at l from;
  l ← (if (from <? to)%nat then shiftDown (to - from) from l else shiftUp (from - to) from l);
  mret (<[to := op]> l).

Definition blocksReorder (other base : MoveOp) : bool := move_aliases other base || isCycleBegin other || isCycleEnd other.

(** The position of an earlier move that clobbers a register, from [n - 1]
    down. *)
Fixpoint findEarlier (l : list MoveOp) (base : MoveOp) (n : nat) : option nat :=
  match n with
  | O => None
  | S j =>
      match l !! j with
      | None => None
      | Some previous =>
          if blocksReorder previous base then None
          else if isGeneralReg (to previous) then Some j
          else findEarlier l base j
      end
  end.

(** The same for a later move, among the moves [ms] from position [j] on,
    when a register is used on the way. *)
Fixpoint findLater (ms : list MoveOp) (base : MoveOp) (j : nat) (skippedRegisterUse : bool) : option nat :=
  match ms with
  | [] => None
  | later :: ms =>
      if blocksReorder later base then None
      else if isGeneralReg (to later) then if skippedRegisterUse then Some j else None
      else findLater ms base (S j) (skippedRegisterUse || isGeneralReg (from later))
  end.

Definition sortable (base : MoveOp) : bool :=
  isMemory (from base) && isMemory (to base) && (bool_decide (type base = GENERAL) || bool_decide (type base = INT32)).

(** One turn at position [i]; a move shifted to the back makes the loop look
    at the position again. *)
Definition sortStep (l : list MoveOp) (i : nat) : M (nat * list MoveOp) :=
  base ← move_at l i;
  if negb (sortable base) then mret (S i, l)
  else
    match findEarlier l base i with
    | Some j => l ← reorderMove i j l; mret (S i, l)
    | None =>
        match findLater (drop (S i) l) base (S i) false with
        | Some j => l ← reorderMove i j l; mret (i, l)
        | None => mret (S i, l)
        end
    end.

(** The loop of [sortMemoryToMemoryMoves], its condition tested at most [tests]
    times. *)
Definition sortLoop (tests : nat) (l : list MoveOp) : M (list MoveOp) :=
  loop tests (fun '(i, l) =>
    if (i <? length l)%nat then '(i, l) ← sortStep l i; mret (inl (i, l))
    else mret (inr l)) (O, l).

Definition sortMemoryToMemoryMoves (l : list MoveOp) : M (list MoveOp) :=
  sortLoop (S (length l + length l * length l)) l.

(** * A move group *)

(** [CodeGenerator::visitMoveGroup], up to the emission: the operands and
    types of the moves of a group, and whether they are sorted (on x86, when
    the group has no scratch register).  The result is what the emitter gets;
    [None] when the assembler is out of memory. *)
Fixpoint addMoves (r : MoveResolver) (moves : list (MoveOperand * MoveOperand * MoveType)) : M (MoveResolver * bool) :=
  match moves with
  | [] => mret (r, true)
  | (from, to, type) :: moves =>
      '(r, ok) ← addMove r from to type;
      '(r, oks) ← addMoves r moves;
      mret (r, ok && oks)
  end.

Definition visitMoveGroup (sorted : bool) (r : MoveResolver) (moves : list (MoveOperand * MoveOperand * MoveType))
    : M (option (MoveResolver)) :=
  if (length moves =? 0)%nat then mret (Some (MkResolver [] (numCycles_ r) (curCycles_ r) (pending_ r)))
  else
    '(r, added) ← addMoves r moves;
    '(r, ok) ← resolve r;
    if negb (added && ok) then mret None
    else if sorted then
      l ← sortMemoryToMemoryMoves (orderedMoves_ r);
      mret (Some (MkResolver l (numCycles_ r) (curCycles_ r) (pending_ r)))
    else mret (Some r).
End resolver.
