(* ===== verification/MoveExec.v ===== *)
(** What a list of ordered moves does when it is executed the way the move
    emitters execute it (jit/arm64/MoveEmitter-arm64.cpp: [emitMove],
    [breakCycle], [completeCycle]): the begin of a cycle saves its
    destination in a stack slot, the end of a cycle reads the slot. *)
From S2P Require Import Prelude MoveResolver.

(** * Values *)

(** What a location holds, and what a move of each type copies: [store]
    overwrites the part that the type covers, [conv] is that part. *)
Class Values := {
  val : Type;
  lea : val -> Z -> val;
  conv : MoveType -> val -> val;
  store : MoveType -> val -> val -> val;
}.

Class ValuesLaws (VS : Values) : Prop := {
  conv_store ty old v : conv ty (store ty old v) = conv ty v;
  store_conv ty old v : store ty old (conv ty v) = store ty old v;
}.

(** * Locations *)

Section locations.
Context {MA : MoveArch}.

(** [aliases] is equality of locations. *)
Definition loc (o : MoveOperand) : Kind * Z * Z :=
  (kind_ o, if isFloatReg o then float_encoding (code_ o) else code_ o, if isMemoryOrEffectiveAddress o then disp_ o else 0).

Lemma aliases_loc o x : aliases o x = bool_decide (loc o = loc x).
Proof.
  unfold aliases, float_aliases, loc, isFloatReg, isMemoryOrEffectiveAddress, isMemory, isEffectiveAddress.
  destruct (decide (kind_ o = kind_ x)) as [E|E].
  2:{ rewrite bool_decide_eq_false_2 by done. symmetry. apply bool_decide_eq_false. congruence. }
  rewrite bool_decide_eq_true_2, <- E by done. cbn [negb]. apply eq_true_iff_eq. rewrite bool_decide_eq_true.
  destruct (kind_ o); cbn; repeat case_match; bsplit; split; intros; simplify_eq; try done; try lia; rewrite ?Z.eqb_eq in *; congruence.
Qed.

Lemma aliases_true o x : aliases o x = true <-> loc o = loc x.
Proof. rewrite aliases_loc. apply bool_decide_eq_true. Qed.
Lemma aliases_false o x : aliases o x = false <-> loc o <> loc x.
Proof. rewrite aliases_loc. apply bool_decide_eq_false. Qed.

Lemma operand_eqb_memory o x : isMemory o = true -> operand_eqb o x = true -> o = x.
Proof.
  unfold operand_eqb, isMemoryOrEffectiveAddress, isMemory. intros Hm%bool_decide_eq_true. destruct o, x. cbn in *. subst.
  repeat case_match; intros; bsplit; try done. apply bool_decide_eq_true in H. f_equal; [done|lia..].
Qed.

Definition is_ea (o : MoveOperand) : bool := isEffectiveAddress o.

End locations.

Section exec.
Context {MA : MoveArch} {VS : Values}.

(** * Execution *)

Record machine := Machine { cells : Kind * Z * Z -> val; slots : Z -> val }.

Definition read (s : machine) (o : MoveOperand) : val :=
  if is_ea o then lea (cells s (REG, code_ o, 0)) (disp_ o) else cells s (loc o).

Definition write (s : machine) (o : MoveOperand) (v : val) : machine :=
  Machine (fun x => if decide (x = loc o) then v else cells s x) (slots s).

Definition copy (s : machine) (ty : MoveType) (o : MoveOperand) (v : val) : machine := write s o (store ty (read s o) v).

Definition exec1 (s : machine) (m : MoveOp) : machine :=
  if isCycleBegin m then
    let s' := Machine (cells s) (fun k => if decide (k = cycleBeginSlot m) then store (endCycleType m) (slots s k) (read s (to m)) else slots s k) in
    copy s' (type m) (to m) (read s' (from m))
  else if isCycleEnd m then copy s (type m) (to m) (slots s (cycleEndSlot m))
  else copy s (type m) (to m) (read s (from m)).

Definition exec (s : machine) (l : list MoveOp) : machine := fold_left exec1 l s.

(** States that hold the same. *)
#[export] Instance machine_equiv : Equiv machine := fun s s' => (forall x, cells s x = cells s' x) /\ (forall k, slots s k = slots s' k).

#[export] Instance machine_equivalence : Equivalence (≡@{machine}).
Proof.
  split.
  - by intros s.
  - intros s s' [H1 H2]. split; intros; by symmetry.
  - intros s1 s2 s3 [H1 H2] [H3 H4]. split; intros i; [by rewrite H1, H3|by rewrite H2, H4].
Qed.

#[export] Instance read_proper : Proper ((≡) ==> (=) ==> (=)) read.
Proof. intros s s' [H _] o _ <-. unfold read. by rewrite !H. Qed.

(** What a move writes. *)
Definition value (s : machine) (m : MoveOp) : val :=
  if isCycleEnd m && negb (isCycleBegin m) then slots s (cycleEndSlot m) else read s (from m).

Lemma exec1_cells s m x : is_ea (to m) = false ->
  cells (exec1 s m) x = if decide (x = loc (to m)) then store (type m) (read s (to m)) (value s m) else cells s x.
Proof. intros He. unfold exec1, value, copy, write, read. rewrite He. by destruct (isCycleBegin m), (isCycleEnd m). Qed.

Lemma exec1_slots s m k :
  slots (exec1 s m) k = if isCycleBegin m && bool_decide (k = cycleBeginSlot m) then store (endCycleType m) (slots s k) (read s (to m)) else slots s k.
Proof.
  unfold exec1, copy, write. destruct (isCycleBegin m), (isCycleEnd m); cbn [slots andb]; try done;
    destruct (decide (k = cycleBeginSlot m)) as [E|E]; [by rewrite bool_decide_eq_true_2|by rewrite bool_decide_eq_false_2|
    by rewrite bool_decide_eq_true_2|by rewrite bool_decide_eq_false_2].
Qed.

#[export] Instance exec1_proper : Proper ((≡) ==> (=) ==> (≡)) exec1.
Proof.
  intros s s' Hs m _ <-. pose proof Hs as [H1 H2]. unfold exec1, copy, write.
  destruct (isCycleBegin m), (isCycleEnd m); split; intros x; cbn [cells slots]; rewrite ?H1, ?H2, ?Hs; try done;
    unfold read; cbn [cells]; by rewrite ?H1.
Qed.

#[export] Instance exec_proper : Proper ((≡) ==> (=) ==> (≡)) exec.
Proof.
  intros s s' Hs l _ <-. revert s s' Hs. induction l as [|m l IH]; intros s s' Hs; [done|]. apply IH. by rewrite Hs.
Qed.

Lemma exec_app s l l' : exec s (l ++ l') = exec (exec s l) l'.
Proof. apply fold_left_app. Qed.

(** * Groups *)

(** The operands of a group of moves: no address is based on a register of
    the group. *)
Context (G : MoveOperand -> Prop) (HG : forall o x, G o -> G x -> aliases_asserted o x = true).

Record op_in (m : MoveOp) : Prop := {
  in_from : G (from m);
  in_to : G (to m);
  in_dest : is_ea (to m) = false;
  in_move : loc (from m) <> loc (to m);
}.

Definition flagged (m : MoveOp) : bool := isCycleBegin m || isCycleEnd m.

Lemma read_frame s m x : op_in m -> G x -> loc (to m) <> loc x -> read (exec1 s m) x = read s x.
Proof.
  intros Hm Hx Hne. unfold read. rewrite !exec1_cells by apply Hm. destruct (is_ea x) eqn:Ex; [|by rewrite decide_False by congruence].
  rewrite decide_False; [done|]. intros E. pose proof (HG x (to m) Hx (in_to m Hm)) as Ha. unfold aliases_asserted in Ha.
  unfold loc in E. injection E as Ek Ec _. unfold isGeneralReg, isMemoryOrEffectiveAddress in *. unfold isFloatReg in Ec.
  rewrite <- Ek in Ha, Ec. unfold is_ea in Ex. rewrite Ex, orb_true_r in Ha. rewrite bool_decide_eq_false_2 in Ec by done.
  rewrite bool_decide_eq_true_2 in Ha by done. cbn [andb negb orb] in Ha. bsplit. lia.
Qed.

Lemma read_write s m x : op_in m -> loc (to m) = loc x -> read (exec1 s m) x = store (type m) (read s (to m)) (value s m).
Proof.
  intros Hm E. assert (He : is_ea x = false).
  { pose proof (in_dest m Hm) as He. unfold is_ea, isEffectiveAddress in *. unfold loc in E. injection E as <- _ _. done. }
  unfold read at 1. rewrite He, exec1_cells by apply Hm. by rewrite decide_True.
Qed.

Lemma read_alias s o x : is_ea o = false -> loc o = loc x -> read s o = read s x.
Proof.
  intros Ho E. assert (He : is_ea x = false) by (unfold is_ea, isEffectiveAddress in *; unfold loc in E; injection E as <- _ _; done).
  unfold read. by rewrite Ho, He, E.
Qed.

Lemma value_frame s a b : op_in a -> op_in b -> loc (to a) <> loc (from b) -> isCycleBegin a = false -> value (exec1 s a) b = value s b.
Proof.
  intros Ha Hb Hne Hf. unfold value. case_match; [|apply read_frame; [done|apply Hb|done]]. by rewrite exec1_slots, Hf.
Qed.

Lemma move_aliases_false a b : move_aliases a b = false ->
  loc (from a) <> loc (from b) /\ loc (from a) <> loc (to b) /\ loc (to a) <> loc (from b) /\ loc (to a) <> loc (to b).
Proof. unfold move_aliases, move_aliases_operand. rewrite !orb_false_iff, !aliases_false. tauto. Qed.

(** Moves that share no location commute. *)
Lemma exec1_commute s a b : op_in a -> op_in b -> move_aliases a b = false -> flagged a = false ->
  exec1 (exec1 s a) b ≡ exec1 (exec1 s b) a.
Proof.
  intros Ha Hb (H1 & H2 & H3 & H4)%move_aliases_false Hf. unfold flagged in Hf. apply orb_false_iff in Hf as [Hf Hf0].
  assert (Hva : value (exec1 s b) a = value s a).
  { unfold value. rewrite Hf0. cbn [andb]. apply read_frame; [done|apply Ha|congruence]. }
  split; intros x.
  - rewrite !exec1_cells by (apply Ha || apply Hb). rewrite Hva, (value_frame s a b) by done.
    rewrite (read_frame s a (to b)), (read_frame s b (to a)) by (apply Ha || apply Hb || congruence).
    repeat case_decide; congruence.
  - rewrite !exec1_slots. rewrite Hf. cbn [andb]. by rewrite (read_frame s a (to b)) by (apply Ha || apply Hb || congruence).
Qed.

Lemma exec_commute s m l : op_in m -> flagged m = false -> Forall op_in l -> Forall (fun a => move_aliases a m = false) l ->
  exec (exec1 s m) l ≡ exec1 (exec s l) m.
Proof.
  intros Hm Hf Hl. revert s. induction Hl as [|a l Ha Hl IH]; intros s Hal; [done|]. apply Forall_cons_1 in Hal as [Ham Hal].
  change (exec (exec1 (exec1 s m) a) l ≡ exec1 (exec (exec1 s a) l) m). rewrite <- IH by done.
  apply exec_proper; [|done]. apply exec1_commute; [done..| |done].
  apply move_aliases_false in Ham. unfold move_aliases, move_aliases_operand. rewrite !orb_false_iff, !aliases_false. intuition congruence.
Qed.
End exec.
