(* ===== verification/MoveOrder.v ===== *)
(** The two optimisations of the move resolver, [addOrderedMove] and
    [sortMemoryToMemoryMoves], do not change what the moves do. *)
From S2P Require Import Prelude MoveResolver MoveExec.

Section order.
Context {MA : MoveArch} {VS : Values} {VL : ValuesLaws VS}.
Context (G : MoveOperand -> Prop) (HG : forall o x, G o -> G x -> aliases_asserted o x = true).
Implicit Types (s : machine) (m e : MoveOp) (l : list MoveOp).

(** * Merging moves with the same source *)

Definition unrelated m e : Prop := move_aliases e m = false.

(** What two lists that may replace each other have in common. *)
Record same_moves (l l' : list MoveOp) : Prop := {
  same_in : Forall (op_in G) l';
  same_exec : forall s, exec s l' ≡ exec s l;
  same_flags : filter (fun m => flagged m = true) l' = filter (fun m => flagged m = true) l;
  same_writes : (fun m => (to m, type m)) <$> l' ≡ₚ (fun m => (to m, type m)) <$> l;
}.

Lemma findMerge_spec ordered m : forall n ordered' after nmove, (n <= length ordered)%nat ->
  findMerge ordered m n = Some (ordered', after, nmove) -> Forall (unrelated m) (drop n ordered) ->
  exists i e, ordered !! i = Some e /\ operand_eqb (from e) (from m) = true /\ loc (to e) <> loc (to m) /\
    type e = type m /\ flagged e = false /\ Forall (unrelated m) (drop (S i) ordered) /\ after = S i /\
    ((ordered' = ordered /\ nmove = new_move (to e) (to m) (type m)) \/
     (ordered' = <[i := m]> ordered /\ nmove = new_move (to m) (to e) (type m))).
Proof.
  induction n as [|i IH]; intros ordered' after nmove Hle; cbn [findMerge]; [done|].
  destruct (lookup_lt_is_Some_2 ordered i) as [e He]; [lia|]. rewrite He. cbv zeta. intros Hf Hrest.
  assert (Hnext : (if move_aliases e m then None else findMerge ordered m i) = Some (ordered', after, nmove) ->
    findMerge ordered m i = Some (ordered', after, nmove) /\ Forall (unrelated m) (drop i ordered)).
  { destruct (move_aliases e m) eqn:Ea; [done|]. intros Hn. split; [done|]. rewrite (drop_S _ e) by done. by constructor. }
  destruct (_ && negb (isCycleEnd e)) eqn:Hc; [|by apply Hnext in Hf as [H1 H2]; apply (IH _ _ _ ltac:(lia) H1 H2)].
  destruct (isReg (to e)); [|destruct (isReg (to m)); [|by apply Hnext in Hf as [H1 H2]; apply (IH _ _ _ ltac:(lia) H1 H2)]];
    injection Hf as <- <- <-; exists i, e; rewrite !andb_true_iff, !negb_true_iff, aliases_false, bool_decide_eq_true in Hc;
    destruct Hc as ((((H1 & H2) & H3) & H4) & H5); unfold flagged; rewrite H4, H5; auto 10.
Qed.

(** Two copies of one value, or a copy and a copy of the copy. *)
Lemma copy_of_copy s m e : op_in G e -> op_in G m -> from e = from m -> loc (to e) <> loc (to m) -> type e = type m ->
  flagged e = false -> flagged m = false -> exec1 (exec1 s e) (new_move (to e) (to m) (type m)) ≡ exec1 (exec1 s e) m.
Proof.
  intros He Hm Ef Hne Ety [Hb He']%orb_false_iff [Hb' Hm']%orb_false_iff.
  assert (Hv : value (exec1 s e) (new_move (to e) (to m) (type m)) = store (type m) (read s (to e)) (read s (from m))).
  { unfold value. cbn [new_move isCycleEnd andb from]. rewrite (read_write G s e (to e)) by done. unfold value. rewrite He'. cbn [andb].
    by rewrite Ety, Ef. }
  assert (Hv' : value (exec1 s e) m = read s (from m)).
  { unfold value. rewrite Hm'. cbn [andb]. apply (read_frame G HG); [done|apply Hm|]. rewrite <- Ef. intros E. by apply (in_move G e He). }
  split; intros x.
  - rewrite (exec1_cells _ (new_move _ _ _)), (exec1_cells _ m) by apply Hm. rewrite Hv, Hv'. cbn [new_move to type]. case_decide; [|done].
    rewrite <- (store_conv _ _ (store _ _ _)), conv_store. apply store_conv.
  - rewrite (exec1_slots _ (new_move _ _ _)), (exec1_slots _ m), Hb'. done.
Qed.

Lemma exec_middle s l1 l2 l2' l3 : (forall s, exec s l2 ≡ exec s l2') -> exec s (l1 ++ l2 ++ l3) ≡ exec s (l1 ++ l2' ++ l3).
Proof. intros H. rewrite !exec_app. apply exec_proper; [|done]. apply H. Qed.

Lemma exec_to_end s m l : op_in G m -> flagged m = false -> Forall (op_in G) l -> Forall (unrelated m) l ->
  exec s (m :: l) ≡ exec s (l ++ [m]).
Proof. intros Hm Hf Hl Hu. rewrite exec_app. by apply (exec_commute G HG). Qed.

Lemma merge_same ordered m i e first nmove : Forall (op_in G) ordered -> op_in G m -> flagged m = false -> isMemory (from m) = true ->
  ordered !! i = Some e -> operand_eqb (from e) (from m) = true -> loc (to e) <> loc (to m) -> type e = type m -> flagged e = false ->
  Forall (unrelated m) (drop (S i) ordered) ->
  (first = e /\ nmove = new_move (to e) (to m) (type m) \/ first = m /\ nmove = new_move (to m) (to e) (type m)) ->
  same_moves (ordered ++ [m]) (take i ordered ++ [first; nmove] ++ drop (S i) ordered).
Proof.
  intros Hin Hm Hf Hmem Hi Heq Hne Ety Hfe Hu Hcase. pose proof (Forall_lookup_1 _ _ _ _ Hin Hi) as He.
  assert (Ef : from e = from m).
  { symmetry. apply operand_eqb_memory; [done|]. unfold operand_eqb, isMemoryOrEffectiveAddress, isMemory, isEffectiveAddress in *.
    destruct (decide (kind_ (from e) = kind_ (from m))) as [E|E]; [|by rewrite bool_decide_eq_false_2 in Heq].
    rewrite <- E in *. rewrite bool_decide_eq_true_2 in * by done. cbn [negb] in *. rewrite Z.eqb_sym. destruct (code_ _ =? code_ _); [|done].
    cbn [negb] in *. rewrite Hmem in *. cbn [orb] in *. by rewrite Z.eqb_sym. }
  assert (Hnew : op_in G nmove /\ flagged nmove = false).
  { destruct Hcase as [[_ ->]|[_ ->]]; (split; [|done]); constructor; cbn [new_move from to]; try apply He; try apply Hm; congruence. }
  assert (Hfirst : op_in G first /\ flagged first = false) by (destruct Hcase as [[-> _]|[-> _]]; done).
  assert (Hpair : forall s, exec s [first; nmove] ≡ exec s [e; m]).
  { intros s. destruct Hcase as [[-> ->]|[-> ->]]; [by apply copy_of_copy|].
    change (exec1 (exec1 s m) (new_move (to m) (to e) (type m)) ≡ exec1 (exec1 s e) m). rewrite <- Ety, copy_of_copy by congruence.
    split; intros x.
    - rewrite !exec1_cells by (apply He || apply Hm).
      assert (Hve : value (exec1 s m) e = value s e).
      { apply (value_frame G HG); [done|done| |by apply orb_false_iff in Hf as [? _]]. rewrite Ef. intros E. by apply (in_move G m Hm). }
      assert (Hvm : value (exec1 s e) m = value s m).
      { apply (value_frame G HG); [done|done| |by apply orb_false_iff in Hfe as [? _]]. rewrite <- Ef. intros E. by apply (in_move G e He). }
      rewrite Hve, Hvm, (read_frame G HG s m (to e)), (read_frame G HG s e (to m)) by (apply He || apply Hm || congruence).
      repeat case_decide; congruence.
    - apply orb_false_iff in Hf as [Hb _], Hfe as [Hb' _]. by rewrite !exec1_slots, Hb, Hb'. }
  pose proof (take_drop_middle ordered i e Hi) as Esplit. set (pre := take i ordered) in *. set (rest := drop (S i) ordered) in *.
  rewrite <- Esplit in Hin |- *. apply list.Forall_app in Hin as [Hpre Hin]. apply Forall_cons_1 in Hin as [_ Hrest].
  constructor.
  - apply list.Forall_app. split; [done|]. repeat constructor; by try apply Hfirst; try apply Hnew.
  - intros s. rewrite <- app_assoc. cbn [app]. change (pre ++ first :: nmove :: rest) with (pre ++ [first; nmove] ++ rest).
    rewrite (exec_middle s pre _ _ rest Hpair). change (pre ++ e :: rest ++ [m]) with (pre ++ [e] ++ (rest ++ [m])).
    change (pre ++ [e; m] ++ rest) with (pre ++ [e] ++ (m :: rest)). rewrite !(app_assoc pre), !(exec_app _ (pre ++ [e])).
    by apply exec_to_end.
  - rewrite !list.filter_app, !filter_cons, (decide_False (P := flagged nmove = true)), (decide_False (P := flagged first = true)),
      (decide_False (P := flagged e = true)), (decide_False (P := flagged m = true)) by (rewrite ?Hfe, ?Hf, ?(proj2 Hnew), ?(proj2 Hfirst); done).
    by rewrite app_nil_r.
  - rewrite !fmap_app. cbn [fmap list_fmap app]. rewrite <- app_assoc. apply Permutation_app_head. cbn [app].
    rewrite (Permutation_app_comm (fmap _ rest) [(to m, type m)]).
    destruct Hcase as [[-> ->]|[-> ->]]; cbn [new_move to type app]; [done|]. rewrite Ety. apply Permutation_swap.
Qed.

Lemma addOrderedMove_spec al ordered m : Forall (op_in G) ordered -> op_in G m ->
  wp_at al (addOrderedMove ordered m)
    (fun '(ordered', ok) => if ok : bool then same_moves (ordered ++ [m]) ordered' else may_fail al) no_error.
Proof.
  intros Hin Hm. unfold addOrderedMove. wp_step. wp_step; [by rewrite (proj2 (aliases_false _ _) (in_move G m Hm))|].
  assert (Happ : wp_at al (append_move m ordered)
    (fun '(ordered', ok) => if ok : bool then same_moves (ordered ++ [m]) ordered' else may_fail al) no_error).
  { unfold append_move. wp_step. apply wpa_try_allocate; [|intros Hfail; by wp_step]. wp_step.
    constructor; [|done..]. apply list.Forall_app. split; [done|by apply Forall_singleton]. }
  wp_step; [done|]. rewrite !orb_false_iff, negb_false_iff in Hc. destruct Hc as [[Hmem Hb] He].
  destruct (findMerge ordered m (length ordered)) as [[[ordered' after] nmove]|] eqn:Hf; [|done].
  apply findMerge_spec in Hf as (i & e & Hi & H1 & H2 & H3 & H4 & H5 & -> & Hcase); [|lia|by rewrite drop_all].
  unfold insert_move. wp_step. apply wpa_try_allocate; [|intros Hfail; by wp_step]. wp_step.
  assert (Hfl : flagged m = false) by (unfold flagged; by rewrite Hb, He).
  pose proof (lookup_lt_Some _ _ _ Hi) as Hlt. destruct Hcase as [[-> ->]|[-> ->]].
  - rewrite (take_S_r _ _ e Hi), <- app_assoc. apply (merge_same ordered m i e e); auto.
  - rewrite (take_S_r _ _ m), take_insert_ge, drop_insert_lt, <- app_assoc by (lia || by apply list_lookup_insert_eq).
    apply (merge_same ordered m i e m); auto.
Qed.

(** * Moving one move *)

Lemma move_at_eq l i m : l !! i = Some m -> move_at l i = mret m.
Proof. unfold move_at. by intros ->. Qed.

Lemma lookup_here {A} (a c : list A) x i : i = length a -> (a ++ x :: c) !! i = Some x.
Proof. intros ->. by rewrite lookup_app_r, Nat.sub_diag by lia. Qed.

Lemma insert_here {A} (a c : list A) x y i : i = length a -> <[i := y]> (a ++ x :: c) = a ++ y :: c.
Proof. intros ->. by rewrite insert_app_r_alt, Nat.sub_diag by lia. Qed.

Lemma shiftDown_spec b : forall a x c i, i = length a -> exists z, shiftDown (length b) i (a ++ x :: b ++ c) = mret (a ++ b ++ z :: c).
Proof.
  induction b as [|y b IH]; intros a x c i ->; cbn [shiftDown length app]; [by exists x|].
  rewrite (move_at_eq _ _ y); [|rewrite lookup_app_r by lia; by replace (S (length a) - length a)%nat with 1%nat by lia].
  rewrite bind_ret, insert_here by done. destruct (IH (a ++ [y]) y c (S (length a))) as [z Hz].
  { rewrite length_app. cbn. lia. }
  exists z. rewrite <- !app_assoc in Hz. exact Hz.
Qed.

Lemma shiftUp_spec b : forall a x c i, i = (length a + length b)%nat ->
  exists z, shiftUp (length b) i (a ++ b ++ x :: c) = mret (a ++ z :: b ++ c).
Proof.
  induction b as [|y b IH] using rev_ind; intros a x c i ->; cbn [app]; [by exists x|].
  assert (El : length (b ++ [y]) = S (length b)) by (rewrite length_app; cbn; lia). rewrite El. cbn [shiftUp].
  replace (a ++ (b ++ [y]) ++ x :: c) with ((a ++ b) ++ y :: x :: c) by (by rewrite <- !app_assoc).
  rewrite (move_at_eq _ _ y) by (apply lookup_here; rewrite length_app; lia). rewrite bind_ret.
  replace ((a ++ b) ++ y :: x :: c) with ((a ++ b ++ [y]) ++ x :: c) by (by rewrite <- !app_assoc).
  rewrite insert_here by (rewrite length_app; lia).
  destruct (IH a y (y :: c) (length a + S (length b) - 1)%nat) as [z Hz]; [lia|].
  exists z. rewrite <- !app_assoc in *. exact Hz.
Qed.

Lemma reorder_forward a x b c i j : b <> [] -> i = length a -> j = (length a + length b)%nat ->
  reorderMove i j (a ++ x :: b ++ c) = mret (a ++ b ++ x :: c).
Proof.
  intros Hb -> ->. assert (0 < length b)%nat by (destruct b; [done|cbn; lia]). unfold reorderMove.
  rewrite (proj2 (Nat.eqb_neq _ _)), (proj2 (Nat.ltb_lt _ _)) by lia. cbn [negb moz_assert]. rewrite bind_ret.
  rewrite (move_at_eq _ _ x), bind_ret by (by apply lookup_here). rewrite Nat.add_comm, Nat.add_sub.
  destruct (shiftDown_spec b a x c (length a) eq_refl) as [z ->]. rewrite bind_ret, app_assoc, insert_here by (rewrite length_app; lia).
  by rewrite <- app_assoc.
Qed.

Lemma reorder_back a x b c i j : b <> [] -> i = (length a + length b)%nat -> j = length a ->
  reorderMove i j (a ++ b ++ x :: c) = mret (a ++ x :: b ++ c).
Proof.
  intros Hb -> ->. assert (0 < length b)%nat by (destruct b; [done|cbn; lia]). unfold reorderMove.
  rewrite (proj2 (Nat.eqb_neq _ _)), (proj2 (Nat.ltb_ge _ _)) by lia. cbn [negb moz_assert]. rewrite bind_ret.
  rewrite (move_at_eq _ _ x), bind_ret by (rewrite app_assoc; apply lookup_here; rewrite length_app; lia).
  replace (length a + length b - length a)%nat with (length b) by lia.
  destruct (shiftUp_spec b a x c _ eq_refl) as [z ->]. by rewrite bind_ret, insert_here.
Qed.

(** * The searches *)

Definition free base m : Prop := blocksReorder m base = false.

Lemma findEarlier_spec l base : forall n j, (n <= length l)%nat -> findEarlier l base n = Some j ->
  exists a b c, l = a ++ b ++ c /\ length a = j /\ (length a + length b)%nat = n /\ b <> [] /\ Forall (free base) b.
Proof.
  induction n as [|n IH]; intros j Hn; cbn [findEarlier]; [done|]. destruct (lookup_lt_is_Some_2 l n) as [m Hm]; [lia|]. rewrite Hm.
  destruct (blocksReorder m base) eqn:Hb; [done|]. pose proof (take_drop_middle l n m Hm) as E. destruct (isGeneralReg (to m)).
  - intros [= <-]. exists (take n l), [m], (drop (S n) l). rewrite length_take. cbn. split_and!; [done|lia|lia|done|]. by repeat constructor.
  - intros H. apply IH in H as (a & b & c & -> & Ha & Hlen & Hb' & Hf); [|lia].
    rewrite app_assoc, lookup_app_r in Hm by (rewrite length_app; lia). rewrite length_app in Hm.
    replace (n - _)%nat with O in Hm by lia. destruct c as [|m' c]; [done|]. injection Hm as ->.
    exists a, (b ++ [m]), c. rewrite length_app, <- app_assoc. cbn. split_and!; [done|done|lia|by destruct b|].
    apply list.Forall_app. split; [done|by repeat constructor].
Qed.

Definition uses_register m : Prop := isGeneralReg (from m) = true.

Lemma findLater_spec base ms : forall j sk k, findLater ms base j sk = Some k ->
  exists b c, ms = b ++ c /\ S k = (j + length b)%nat /\ b <> [] /\ Forall (free base) b /\ (sk = false -> Exists uses_register b).
Proof.
  induction ms as [|m ms IH]; intros j sk k; cbn [findLater]; [done|]. destruct (blocksReorder m base) eqn:Hb; [done|].
  destruct (isGeneralReg (to m)).
  - destruct sk; [|done]. intros [= ->]. exists [m], ms. cbn. split_and!; [done|lia|done|by repeat constructor|done].
  - intros H. apply IH in H as (b & c & -> & Hk & Hb' & Hf & Hu). exists (m :: b), c. cbn. split_and!; [done|lia|done|by constructor|].
    intros ->. cbn in Hu. destruct (isGeneralReg (from m)) eqn:Hg; [by left|right; auto].
Qed.

(** * Sorting *)

Lemma exec_across s m b : op_in G m -> Forall (op_in G) b -> Forall (free m) b -> exec s (b ++ [m]) ≡ exec s (m :: b).
Proof.
  intros Hm Hb. revert s. induction Hb as [|e b He Hb IH]; intros s Hf; [done|]. apply Forall_cons_1 in Hf as [Hfe Hf].
  unfold free, blocksReorder in Hfe. apply orb_false_iff in Hfe as [[Hal Hb1]%orb_false_iff Hb2].
  change (exec (exec1 s e) (b ++ [m]) ≡ exec (exec1 (exec1 s m) e) b). rewrite IH by done.
  change (exec (exec1 (exec1 s e) m) b ≡ exec (exec1 (exec1 s m) e) b). apply exec_proper; [|done].
  apply (exec1_commute G HG); [done|done|done|]. unfold flagged. by rewrite Hb1, Hb2.
Qed.

Lemma free_flags m b : Forall (free m) b -> filter (fun e => flagged e = true) b = [].
Proof.
  induction 1 as [|e b He Hb IH]; [done|]. rewrite filter_cons, decide_False, IH; [done|].
  unfold free, blocksReorder in He. apply orb_false_iff in He as [[_ H1]%orb_false_iff H2]. unfold flagged. by rewrite H1, H2.
Qed.

Lemma same_moves_refl l : Forall (op_in G) l -> same_moves l l.
Proof. by constructor. Qed.

Lemma same_moves_trans l1 l2 l3 : same_moves l1 l2 -> same_moves l2 l3 -> same_moves l1 l3.
Proof.
  intros [H1 H2 H3 H4] [H5 H6 H7 H8]. constructor; [done| |by rewrite H7|by rewrite H8].
  intros s. by rewrite H6.
Qed.

(** A move put at the other end of moves it is free of. *)
Lemma across_same a b m c : Forall (op_in G) (a ++ m :: b ++ c) -> Forall (free m) b ->
  same_moves (a ++ m :: b ++ c) (a ++ b ++ m :: c) /\ same_moves (a ++ b ++ m :: c) (a ++ m :: b ++ c).
Proof.
  intros Hin Hf. pose proof Hin as Hin'. apply list.Forall_app in Hin' as [Ha Hin']. apply Forall_cons_1 in Hin' as [Hm Hin'].
  apply list.Forall_app in Hin' as [Hb Hc].
  assert (Hin2 : Forall (op_in G) (a ++ b ++ m :: c)) by (rewrite !list.Forall_app, list.Forall_cons; done).
  assert (Hx : forall s, exec s (a ++ b ++ m :: c) ≡ exec s (a ++ m :: b ++ c)).
  { intros s. change (b ++ m :: c) with (b ++ [m] ++ c). change (m :: b ++ c) with ((m :: b) ++ c). rewrite (app_assoc b).
    apply exec_middle. intros s'. by apply exec_across. }
  assert (Hfl : filter (fun e => flagged e = true) (a ++ b ++ m :: c) = filter (fun e => flagged e = true) (a ++ m :: b ++ c)).
  { change (b ++ m :: c) with (b ++ [m] ++ c). change (m :: b ++ c) with ([m] ++ b ++ c). by rewrite !list.filter_app, (free_flags m b Hf). }
  assert (Hp : a ++ b ++ m :: c ≡ₚ a ++ m :: b ++ c) by (apply Permutation_app_head; symmetry; apply Permutation_middle).
  split; constructor; try done; (intros s; by rewrite Hx) || by rewrite Hp.
Qed.

(** The register uses behind each move that may be sorted. *)
Definition uses l : nat := length (filter uses_register l).
Fixpoint inversions l : nat :=
  match l with
  | [] => O
  | m :: l => (if sortable m then uses l else O) + inversions l
  end.

Lemma uses_app l l' : uses (l ++ l') = (uses l + uses l')%nat.
Proof. unfold uses. by rewrite list.filter_app, length_app. Qed.

Lemma sortable_uses m : sortable m = true -> uses [m] = O.
Proof.
  unfold sortable, uses, isMemory. rewrite !andb_true_iff, !bool_decide_eq_true. intros [[H _] _]. rewrite filter_cons, decide_False; [done|].
  unfold uses_register, isGeneralReg. rewrite H. done.
Qed.

Lemma inversions_middle b m c : sortable m = true -> inversions (b ++ m :: c) = (inversions (b ++ c) + uses c)%nat.
Proof.
  intros Hm. induction b as [|e b IH]; cbn [app inversions]; [rewrite Hm; lia|]. rewrite IH.
  change (m :: c) with ([m] ++ c). rewrite !uses_app, (sortable_uses m Hm). destruct (sortable e); lia.
Qed.

Lemma inversions_bound l : (inversions l <= length l * length l)%nat.
Proof.
  induction l as [|m l IH]; cbn [inversions length]; [lia|]. assert (uses l <= length l)%nat by apply length_filter.
  destruct (sortable m); lia.
Qed.

Lemma inversions_drop i l : (inversions (drop (S i) l) <= inversions (drop i l))%nat.
Proof.
  destruct (decide (i < length l)%nat) as [Hlt|Hge]; [|by rewrite !drop_ge by lia].
  destruct (lookup_lt_is_Some_2 l i Hlt) as [m Hm]. rewrite (drop_S _ m i) by done. cbn [inversions]. lia.
Qed.

Definition remaining (p : nat * list MoveOp) : Z := Z.of_nat (length p.2 - p.1) + Z.of_nat (inversions (drop p.1 p.2)).

Lemma sortStep_spec al l i : Forall (op_in G) l -> (i < length l)%nat ->
  wp_at al (sortStep l i) (fun p => same_moves l p.2 /\ p.2 ≡ₚ l /\ remaining p < remaining (i, l)) no_error.
Proof.
  intros Hin Hi. destruct (lookup_lt_is_Some_2 l i Hi) as [base Hb]. unfold sortStep. rewrite (move_at_eq _ _ _ Hb), bind_ret.
  assert (Hnext : forall l', same_moves l l' -> l' ≡ₚ l -> drop (S i) l' = drop (S i) l -> remaining (S i, l') < remaining (i, l)).
  { intros l' _ Hp Hd. unfold remaining. cbn [fst snd]. rewrite Hd, (Permutation_length Hp). pose proof (inversions_drop i l). lia. }
  wp_step; bsplit; [wp_step; split_and!; [by apply same_moves_refl|done|by apply Hnext; [apply same_moves_refl| |]]|].
  destruct (findEarlier l base i) as [j|] eqn:Hf.
  - apply findEarlier_spec in Hf as (a & b & c & -> & Ha & Hab & Hne & Hfree); [|lia].
    rewrite app_assoc, lookup_app_r in Hb by (rewrite length_app; lia). rewrite length_app in Hb.
    replace (i - _)%nat with O in Hb by lia. destruct c as [|m c]; [done|]. injection Hb as ->.
    rewrite (reorder_back a base b c) by done. wp_step. wp_step.
    assert (Hp : a ++ b ++ base :: c ≡ₚ a ++ base :: b ++ c) by (apply Permutation_app_head; symmetry; apply Permutation_middle).
    assert (Hs : same_moves (a ++ b ++ base :: c) (a ++ base :: b ++ c)) by (apply across_same; [by rewrite <- Hp|done]).
    wp_step. split_and!; [done|by rewrite Hp|]. apply Hnext; [done|by rewrite Hp|].
    rewrite (app_assoc a b), !(app_comm_cons _ _ base), (app_assoc a), !drop_app_ge by (rewrite !length_app; cbn; lia).
    replace (S i - length (a ++ base :: b))%nat with O by (rewrite length_app; cbn; lia).
    replace (S i - length (a ++ b))%nat with 1%nat by (rewrite length_app; lia). done.
  - destruct (findLater (drop (S i) l) base (S i) false) as [j|] eqn:Hl; [|wp_step; split_and!; [by apply same_moves_refl|done|by apply Hnext; [apply same_moves_refl| |]]].
    apply findLater_spec in Hl as (b & c & Hd & Hj & Hne & Hfree & Hu). specialize (Hu eq_refl).
    pose proof (take_drop_middle l i base Hb) as E. rewrite Hd in E. assert (Hlen : length (take i l) = i) by (rewrite length_take; lia).
    set (a := take i l) in *. clearbody a. subst l. rewrite (reorder_forward a base b c) by (done || lia). wp_step. wp_step.
    destruct (across_same a b base c Hin Hfree) as [Hs _].
    assert (Hp : a ++ b ++ base :: c ≡ₚ a ++ base :: b ++ c) by (apply Permutation_app_head; symmetry; apply Permutation_middle).
    wp_step. split_and!; [done|done|]. unfold remaining. cbn [fst snd]. rewrite (Permutation_length Hp), <- Hlen, !drop_app_length.
    cbn [inversions]. assert (Hsort : sortable base = true) by done. rewrite Hsort, inversions_middle, uses_app by done.
    assert (0 < uses b)%nat; [|lia]. unfold uses. apply list.Exists_exists in Hu as (u & Hu & Hreg).
    destruct (filter uses_register b) as [|x l'] eqn:Ef; [|cbn; lia]. exfalso.
    assert (Hin' : u ∈ filter uses_register b) by (by apply list_elem_of_filter; split). rewrite Ef in Hin'. by apply elem_of_nil in Hin'.
Qed.

Lemma sortLoop_spec al tests l : Forall (op_in G) l -> (length l + inversions l < tests)%nat ->
  wp_at al (sortLoop tests l) (fun l' => same_moves l l' /\ l' ≡ₚ l) no_error.
Proof.
  intros Hin Htests. unfold sortLoop.
  apply (wpa_loop al (fun p => same_moves l p.2 /\ p.2 ≡ₚ l) remaining).
  - split; [by apply same_moves_refl|done].
  - unfold remaining. cbn [fst snd]. rewrite drop_0. lia.
  - intros p _. unfold remaining. lia.
  - intros [i l'] [Hs Hp]. cbn [fst snd] in *. wp_step; bsplit.
    + wp_step. eapply wpa_mono; [apply (sortStep_spec al l' i); [apply Hs|]| |done]; [by apply Nat.ltb_lt|].
      intros [i2 l2] (Hs2 & Hp2 & Hlt). wp_step. split; [|done]. cbn [snd] in *. split; [by apply (same_moves_trans l l')|by rewrite Hp2].
    + by wp_step.
Qed.

Lemma sort_spec al l : Forall (op_in G) l -> wp_at al (sortMemoryToMemoryMoves l) (fun l' => same_moves l l' /\ l' ≡ₚ l) no_error.
Proof. intros Hin. apply sortLoop_spec; [done|]. pose proof (inversions_bound l). lia. Qed.
End order.
