(* ===== verification/MoveResolve.v ===== *)
(** [resolve] orders a group of parallel moves: after each turn of the
    depth-first search the moves that are done have written the values of
    the start, and no other move waits for what they overwrote. *)
From S2P Require Import Prelude MoveResolver MoveExec MoveOrder.

Section resolve.
Context {MA : MoveArch} {VS : Values} {VL : ValuesLaws VS}.
Context (G : MoveOperand -> Prop) (HG : forall o x, G o -> G x -> aliases_asserted o x = true).
Implicit Types (s : machine) (m d x : MoveOp) (l D stack pending : list MoveOp).

Definition dest m : Kind * Z * Z := loc (to m).
Definition src m : Kind * Z * Z := loc (from m).

(** What does not change when a move takes part in a cycle. *)
Definition core m : MoveOperand * MoveOperand * MoveType := (from m, to m, type m).

Lemma core_eq m x : core m = core x -> from m = from x /\ to m = to x /\ type m = type x.
Proof. unfold core. intros E. by injection E as -> -> ->. Qed.

(** * Cycles *)

(** The begin and the end of a cycle belong together. *)
Record cycle_pair (b e : MoveOp) : Prop := {
  pair_begin : isCycleBegin b = true /\ isCycleEnd b = false;
  pair_end : isCycleEnd e = true /\ isCycleBegin e = false;
  pair_slot : cycleBeginSlot b = 0 /\ cycleEndSlot e = 0;
  pair_type : endCycleType b = type e;
  pair_location : dest b = src e;
}.

(** Cycles one after the other. *)
Inductive paired : list MoveOp -> Prop :=
  | paired_nil : paired []
  | paired_cons b e l : cycle_pair b e -> paired l -> paired (b :: e :: l).

Lemma paired_snoc l b e : paired l -> cycle_pair b e -> paired (l ++ [b; e]).
Proof. intros Hl Hbe. induction Hl; cbn [app]; apply paired_cons; try done. constructor. Qed.

Definition cycle_moves l : list MoveOp := filter (fun m => flagged m = true) l.

Lemma cycle_moves_snoc D m : cycle_moves (D ++ [m]) = if flagged m then cycle_moves D ++ [m] else cycle_moves D.
Proof.
  unfold cycle_moves. rewrite list.filter_app, filter_cons. destruct (flagged m); [by rewrite decide_True|].
  rewrite decide_False by done. by rewrite app_nil_r.
Qed.

(** * The state of the resolver *)

Section from_state.
Context (s0 : machine).

(** The moves [D] have been executed in parallel. *)
Record partial D s : Prop := {
  partial_done d : d ∈ D -> read s (to d) = store (type d) (read s0 (to d)) (read s0 (from d));
  partial_rest o : G o \/ is_ea o = false -> (forall d, d ∈ D -> dest d <> loc o) -> read s o = read s0 o;
}.

(** The moves done [D], as they were ordered [l], and the moves left. *)
Record progress (A l D rest : list MoveOp) : Prop := {
  pr_moves : core <$> (D ++ rest) ≡ₚ core <$> A;
  pr_in : Forall (op_in G) (D ++ rest);
  pr_dest : NoDup (dest <$> (D ++ rest));
  pr_same : same_moves G D l;
  pr_state : partial D (exec s0 D);
}.

Lemma dest_core l : dest <$> l = (fun k : MoveOperand * MoveOperand * MoveType => loc k.1.2) <$> (core <$> l).
Proof. by rewrite <- list_fmap_compose. Qed.

Lemma progress_rest A l D rest rest' : progress A l D rest -> core <$> rest' ≡ₚ core <$> rest -> progress A l D rest'.
Proof.
  intros [H1 H2 H3 H4 H5] Hp. constructor; [|apply list.Forall_app in H2 as [H2 H2']; apply list.Forall_app; split; [done|]| |done|done].
  - rewrite <- H1, !fmap_app. by rewrite Hp.
  - apply list.Forall_forall. intros x Hx. assert (Hc : core x ∈ core <$> rest) by (rewrite <- Hp; by apply list_elem_of_fmap_2).
    apply list_elem_of_fmap in Hc as (y & Hxy & Hy). rewrite list.Forall_forall in H2'. specialize (H2' y Hy).
    apply core_eq in Hxy as (E1 & E2 & E3). constructor; rewrite ?E1, ?E2; apply H2'.
  - rewrite dest_core, fmap_app in H3 |- *. by rewrite Hp.
Qed.

Lemma progress_disjoint A l D rest d x : progress A l D rest -> d ∈ D -> x ∈ rest -> dest d <> dest x.
Proof.
  intros [_ _ H3 _ _] Hd Hx E. rewrite fmap_app in H3. apply list.NoDup_app in H3 as (_ & H3 & _).
  apply (H3 (dest d)); [by apply list_elem_of_fmap_2|]. rewrite E. by apply list_elem_of_fmap_2.
Qed.

Lemma progress_op A l D rest x : progress A l D rest -> x ∈ D ++ rest -> op_in G x.
Proof. intros [_ H2 _ _ _] Hx. by apply (proj1 (list.Forall_forall _ _) H2). Qed.

(** The next move of the order, when it reads what it read at the start. *)
Lemma partial_step A l D rest m : progress A l D rest -> m ∈ rest ->
  conv (type m) (value (exec s0 D) m) = conv (type m) (read s0 (from m)) -> partial (D ++ [m]) (exec s0 (D ++ [m])).
Proof.
  intros Hp Hm Hv. pose proof (progress_op _ _ _ _ m Hp ltac:(apply elem_of_app; by right)) as Hop.
  rewrite exec_app. change (exec (exec s0 D) [m]) with (exec1 (exec s0 D) m). pose proof (pr_state _ _ _ _ Hp) as [Hd Hr]. constructor.
  - intros d [Hin| ->%list_elem_of_singleton]%elem_of_app.
    + pose proof (progress_disjoint _ _ _ _ _ _ Hp Hin Hm) as Hne. rewrite <- (Hd d Hin). apply (read_frame G HG); [done| |unfold dest in *; congruence].
      apply (progress_op _ _ _ _ d Hp). apply elem_of_app. by left.
    + rewrite (read_write G _ m (to m)) by done. rewrite <- store_conv, Hv, store_conv. f_equal. apply Hr; [right; apply Hop|].
      intros d Hin. by apply (progress_disjoint _ _ _ _ _ _ Hp Hin Hm).
  - intros o Ho Hno. rewrite <- (Hr o Ho) by (intros d Hin; apply Hno; apply elem_of_app; by left).
    assert (Hne : dest m <> loc o) by (apply Hno, elem_of_app; right; by apply list_elem_of_singleton).
    destruct Ho as [Ho|Ho]; [by apply (read_frame G HG)|]. unfold read. rewrite Ho, exec1_cells by apply Hop. by rewrite decide_False by (unfold dest in *; congruence).
Qed.

(** * The search *)

(** [pm] is the move the search started from, at the bottom of the
    stack. *)
Record searching (A : list MoveOp) (pm : MoveOp) l D stack pending (cur : Z) : Prop := {
  se_progress : progress A l D (stack ++ pending);
  se_pending : Forall (fun m => flagged m = false) pending;
  se_blocked d p : d ∈ D -> p ∈ pending -> src p <> dest d;
  se_chain i x y : stack !! i = Some x -> stack !! S i = Some y -> src y = dest x;
  se_root x : stack !! 0%nat = Some x -> core x = core pm /\ isCycleBegin x = false /\
    cur = (if isCycleEnd x then 1 else 0) /\ (isCycleEnd x = true -> cycleEndSlot x = 0) /\
    (isCycleEnd x = true <-> exists b, b ∈ D ++ stack /\ dest b = src x);
  se_inner i x : stack !! S i = Some x -> isCycleEnd x = false /\ (isCycleBegin x = true <-> dest x = src pm) /\
    (isCycleBegin x = true -> cycleBeginSlot x = 0 /\ endCycleType x = type pm);
  se_read i x d : stack !! i = Some x -> d ∈ D -> src x = dest d ->
    i = O /\ conv (type x) (slots (exec s0 D) 0) = conv (type x) (read s0 (from x));
  se_cycles :
    (paired (cycle_moves D) /\ (stack <> [] -> forall b, b ∈ D -> dest b <> src pm)) \/
    (exists F b, stack <> [] /\ b ∈ D /\ cycle_moves D = F ++ [b] /\ paired F /\ isCycleBegin b = true /\ isCycleEnd b = false /\
       cycleBeginSlot b = 0 /\ endCycleType b = type pm /\ dest b = src pm);
}.

Section steps.
Context (A : list MoveOp) (pm : MoveOp).

Lemma elem_D D stack pending x : x ∈ D -> x ∈ D ++ stack ++ pending.
Proof. rewrite !elem_of_app. tauto. Qed.

(** Two moves of the stack and the pending list write different places. *)
Lemma stack_pending_disjoint l D stack pending cur x y : searching A pm l D stack pending cur ->
  x ∈ stack -> y ∈ pending -> dest x <> dest y.
Proof.
  intros [Hp _ _ _ _ _ _ _] Hx Hy E. pose proof (pr_dest _ _ _ _ Hp) as H. rewrite !fmap_app in H.
  apply list.NoDup_app in H as (_ & _ & H). apply list.NoDup_app in H as (_ & H & _).
  apply (H (dest x)); [by apply list_elem_of_fmap_2|]. rewrite E. by apply list_elem_of_fmap_2.
Qed.

Lemma stack_disjoint l D stack pending cur i j x y : searching A pm l D stack pending cur ->
  stack !! i = Some x -> stack !! j = Some y -> dest x = dest y -> i = j.
Proof.
  intros [Hp _ _ _ _ _ _ _] Hx Hy E. pose proof (pr_dest _ _ _ _ Hp) as H. rewrite !fmap_app in H.
  apply list.NoDup_app in H as (_ & _ & H). apply list.NoDup_app in H as (H & _ & _).
  apply (NoDup_lookup _ _ _ (dest x) H); rewrite list_lookup_fmap; [by rewrite Hx|rewrite Hy; cbn; by rewrite E].
Qed.

(** Only the bottom of the stack can read what a pending move writes. *)
Lemma cycle_at_bottom l D stack pending cur i x b : searching A pm l D stack pending cur ->
  b ∈ pending -> stack !! i = Some x -> src x = dest b -> i = O.
Proof.
  intros Hs Hb Hi E. destruct i as [|i]; [done|]. exfalso.
  destruct (lookup_lt_is_Some_2 stack i) as [y Hy]; [apply lookup_lt_Some in Hi; lia|].
  pose proof (se_chain _ _ _ _ _ _ _ Hs i y x Hy Hi) as E'.
  apply (stack_pending_disjoint _ _ _ _ _ y b Hs); [by eapply list_elem_of_lookup_2|done|congruence].
Qed.

(** Or what a move above it writes. *)
Lemma cycle_on_stack l D stack pending cur i j x y : searching A pm l D stack pending cur ->
  stack !! i = Some x -> stack !! j = Some y -> (i <= j)%nat -> src x = dest y -> i = O.
Proof.
  intros Hs Hi Hj Hle E. destruct i as [|i]; [done|]. exfalso.
  destruct (lookup_lt_is_Some_2 stack i) as [z Hz]; [apply lookup_lt_Some in Hi; lia|].
  pose proof (se_chain _ _ _ _ _ _ _ Hs i z x Hz Hi) as E'.
  pose proof (stack_disjoint _ _ _ _ _ i j z y Hs Hz Hj ltac:(congruence)). lia.
Qed.

(** The blocking move closes a cycle with the bottom of the stack or with
    nothing. *)
Lemma findCycledMove_spec l D stack pending cur b root : searching A pm l D stack pending cur -> b ∈ pending ->
  stack !! 0%nat = Some root ->
  findCycledMove stack 0 b = (if bool_decide (src root = dest b) then (Some O, 1%nat) else (None, length stack)) /\
  forall stack', drop 1 stack' = drop 1 stack -> length stack' = length stack -> findCycledMove stack' 1 b = (None, length stack).
Proof.
  intros Hs Hb Hr. assert (Hrest : forall k x, drop 1 stack !! k = Some x -> aliases (from x) (to b) = true -> False).
  { intros k x Hk Ha%aliases_true. rewrite lookup_drop in Hk. by pose proof (cycle_at_bottom _ _ _ _ _ _ x b Hs Hb Hk Ha). }
  assert (Hnone : list_find (fun other => aliases (from other) (to b) = true) (drop 1 stack) = None).
  { apply list_find_None, list.Forall_forall. intros x Hx Ha. apply list_elem_of_lookup in Hx as [k Hk]. by apply (Hrest k x). }
  split.
  - destruct stack as [|r stack]; [done|]. injection Hr as ->. unfold findCycledMove. cbn [drop list_find] in *.
    destruct (decide (aliases (from root) (to b) = true)) as [Ha|Ha]; pose proof Ha as Ha'; rewrite aliases_true in Ha'.
    + by rewrite bool_decide_eq_true_2.
    + rewrite bool_decide_eq_false_2 by done. rewrite drop_0 in Hnone. by rewrite Hnone.
  - intros stack' Hd Hl. unfold findCycledMove. by rewrite Hd, Hnone, Hl.
Qed.

(** ** A move put on the stack *)

Lemma core_lookup stack stack' i x : core <$> stack' = core <$> stack -> stack' !! i = Some x ->
  exists y, stack !! i = Some y /\ core x = core y.
Proof.
  intros E Hi. assert (H : (core <$> stack) !! i = Some (core x)) by (by rewrite <- E, list_lookup_fmap, Hi).
  apply list_lookup_fmap_Some in H as (y & Hy & H). eauto.
Qed.

Lemma core_src x y : core x = core y -> src x = src y /\ dest x = dest y.
Proof. intros (E1 & E2 & _)%core_eq. unfold src, dest. by rewrite E1, E2. Qed.

(** All but the flags. *)
Lemma push_gen l D stack stack' pending cur cur' k b b' top : searching A pm l D stack pending cur ->
  pending !! k = Some b -> src b = dest top -> list.last stack = Some top ->
  core <$> stack' = core <$> stack -> core b' = core b ->
  (forall x, stack' !! 0%nat = Some x -> isCycleBegin x = false /\ cur' = (if isCycleEnd x then 1 else 0) /\
     (isCycleEnd x = true -> cycleEndSlot x = 0) /\ (isCycleEnd x = true <-> (exists d, d ∈ D ++ stack /\ dest d = src pm) \/ dest b = src pm)) ->
  (forall i x, (stack' ++ [b']) !! S i = Some x -> isCycleEnd x = false /\ (isCycleBegin x = true <-> dest x = src pm) /\
    (isCycleBegin x = true -> cycleBeginSlot x = 0 /\ endCycleType x = type pm)) ->
  searching A pm l D (stack' ++ [b']) (delete k pending) cur'.
Proof.
  intros Hs Hk Hsrc Htop Hst Hb Hroot Hinner. pose proof Hs as [Hp Hpend Hblk Hch Hrt Hin Hrd Hcy].
  pose proof (delete_Permutation _ _ _ Hk) as Hperm. set (left := delete k pending) in *. clearbody left. apply core_src in Hb as Hb'. destruct Hb' as [Hbs Hbd].
  assert (Hlen : length stack' = length stack) by (by rewrite <- (length_fmap core stack'), Hst, length_fmap).
  assert (Hne : exists r, stack !! 0%nat = Some r) by (destruct stack; [done|eauto]). destruct Hne as [r Hr].
  assert (Hne' : stack <> []) by (by intros ->).
  assert (Hb0 : b ∈ pending) by (by eapply list_elem_of_lookup_2).
  constructor.
  - apply (progress_rest A l D _ _ Hp). rewrite !fmap_app, Hst, (fmap_Permutation core _ _ Hperm). cbn [fmap list_fmap]. by rewrite Hb, <- app_assoc.
  - apply list.Forall_forall. intros x Hx. apply (proj1 (list.Forall_forall _ _) Hpend). rewrite Hperm. by right.
  - intros d p Hd Hpe. apply Hblk; [done|]. rewrite Hperm. by right.
  - intros i x y Hx Hy. apply lookup_app_Some in Hy as [Hy|[Hle Hy]].
    + rewrite lookup_app_l in Hx by (apply lookup_lt_Some in Hy; lia).
      destruct (core_lookup _ _ _ _ Hst Hx) as (x0 & Hx0 & [_ Ex]%core_src), (core_lookup _ _ _ _ Hst Hy) as (y0 & Hy0 & [Ey _]%core_src).
      rewrite Ex, Ey. by apply (Hch i).
    + apply list_lookup_singleton_Some in Hy as [Hi <-]. rewrite lookup_app_l in Hx by lia.
      destruct (core_lookup _ _ _ _ Hst Hx) as (x0 & Hx0 & [_ Ex]%core_src). rewrite Ex, Hbs, Hsrc. f_equal.
      rewrite last_lookup in Htop. replace (pred (length stack)) with i in Htop by lia. congruence.
  - intros x Hx. rewrite lookup_app_l in Hx by (apply lookup_lt_Some in Hr; lia).
    destruct (Hroot x Hx) as (H1 & H2 & H3 & H4). destruct (core_lookup _ _ _ _ Hst Hx) as (x0 & Hx0 & Ex).
    destruct (Hrt x0 Hx0) as (Ecore & _). split_and!; [congruence|done|done|done|]. rewrite H4.
    assert (Esrc : src x = src pm) by (apply core_src; congruence). rewrite Esrc. split.
    + intros [(d & [Hd|Hd]%elem_of_app & E)|E].
      * exists d. split; [apply elem_of_app; by left|done].
      * apply list_elem_of_lookup in Hd as [i Hd]. destruct (core_lookup stack' stack i d) as (d' & Hd' & Ed); [done|done|].
        exists d'. split; [rewrite !elem_of_app; right; left; by eapply list_elem_of_lookup_2|]. apply core_src in Ed as [_ Ed]. congruence.
      * exists b'. split; [rewrite !elem_of_app; right; right; by apply list_elem_of_singleton|congruence].
    + intros (d & Hd & E). rewrite !elem_of_app in Hd. destruct Hd as [Hd|[Hd|Hd]].
      * left. exists d. rewrite elem_of_app. auto.
      * apply list_elem_of_lookup in Hd as [i Hd]. destruct (core_lookup _ _ _ _ Hst Hd) as (d' & Hd' & [_ Ed]%core_src).
        left. exists d'. rewrite elem_of_app. split; [right; by eapply list_elem_of_lookup_2|congruence].
      * apply list_elem_of_singleton in Hd as ->. right. congruence.
  - exact Hinner.
  - intros i x d Hx Hd E. apply lookup_app_Some in Hx as [Hx|[Hle Hx]].
    + destruct (core_lookup _ _ _ _ Hst Hx) as (x0 & Hx0 & Ex). pose proof Ex as (Ef & _ & Et)%core_eq. rewrite Ef, Et.
      apply (Hrd i x0 d Hx0 Hd). apply core_src in Ex as [Ex _]. congruence.
    + apply list_lookup_singleton_Some in Hx as [Hi <-]. exfalso. apply (Hblk d b Hd Hb0). congruence.
  - destruct Hcy as [[H1 H2]|(F & c & _ & H)]; [left|right].
    + split; [done|]. intros _. by apply H2.
    + exists F, c. split; [by destruct stack'|exact H].
Qed.

Lemma root_facts l D stack pending cur root : searching A pm l D stack pending cur -> stack !! 0%nat = Some root ->
  core root = core pm /\ src root = src pm /\ type root = type pm /\ isCycleBegin root = false /\
  cur = (if isCycleEnd root then 1 else 0) /\ (isCycleEnd root = true -> cycleEndSlot root = 0) /\
  (isCycleEnd root = true <-> exists d, d ∈ D ++ stack /\ dest d = src pm).
Proof.
  intros Hs Hr. destruct (se_root _ _ _ _ _ _ _ Hs root Hr) as (Ec & H1 & H2 & H3 & H4). pose proof Ec as (_ & _ & Et)%core_eq.
  pose proof (core_src _ _ Ec) as [Es _]. rewrite Es in H4. done.
Qed.

Lemma push_plain l D stack pending cur k b top root : searching A pm l D stack pending cur ->
  pending !! k = Some b -> src b = dest top -> list.last stack = Some top -> stack !! 0%nat = Some root -> src root <> dest b ->
  searching A pm l D (stack ++ [b]) (delete k pending) cur.
Proof.
  intros Hs Hk Hsrc Htop Hr Hne. destruct (root_facts _ _ _ _ _ _ Hs Hr) as (_ & Es & _ & H1 & H2 & H3 & H4).
  apply (push_gen l D stack stack pending cur cur k b b top Hs Hk Hsrc Htop eq_refl eq_refl).
  - intros x Hx. assert (x = root) as -> by congruence. split_and!; [done..|]. rewrite H4. split; [auto|]. intros [H|H]; [done|congruence].
  - intros i x Hx. apply lookup_app_Some in Hx as [Hx|[_ Hx]]; [by apply (se_inner _ _ _ _ _ _ _ Hs i)|].
    apply list_lookup_singleton_Some in Hx as [_ <-]. pose proof (Forall_lookup_1 _ _ _ _ (se_pending _ _ _ _ _ _ _ Hs) Hk) as Hf.
    apply orb_false_iff in Hf as [Hf1 Hf2]. rewrite Hf1. split_and!; [done| |done]. split; [done|congruence].
Qed.

(** The flags of a new cycle. *)
Definition marked_end (m : MoveOp) (slot : Z) : MoveOp :=
  MkMoveOp (from m) (to m) (isCycleBegin m) true (cycleBeginSlot m) slot (type m) (endCycleType m).
Definition marked_begin (m : MoveOp) (ty : MoveType) (slot : Z) : MoveOp :=
  MkMoveOp (from m) (to m) true (isCycleEnd m) slot (cycleEndSlot m) (type m) ty.

Lemma push_cycle l D stack pending cur k b top root : searching A pm l D stack pending cur ->
  pending !! k = Some b -> src b = dest top -> list.last stack = Some top -> stack !! 0%nat = Some root -> src root = dest b ->
  isCycleEnd root = false /\ cur = 0 /\
  searching A pm l D (<[0%nat := marked_end root cur]> stack ++ [marked_begin b (type pm) cur]) (delete k pending) (cur + 1).
Proof.
  intros Hs Hk Hsrc Htop Hr He. destruct (root_facts _ _ _ _ _ _ Hs Hr) as (Ecore & Es & Et & H1 & H2 & H3 & H4).
  assert (Hb : b ∈ pending) by (by eapply list_elem_of_lookup_2).
  assert (Hend : isCycleEnd root = false).
  { apply not_true_iff_false. rewrite H4. intros (d & [Hd|Hd]%elem_of_app & E).
    - apply (progress_disjoint _ _ _ _ _ b (se_progress _ _ _ _ _ _ _ Hs) Hd); [apply elem_of_app; by right|congruence].
    - apply (stack_pending_disjoint _ _ _ _ _ d b Hs Hd Hb). congruence. }
  rewrite Hend in H2. subst cur. split; [done|]. split; [done|].
  apply (push_gen l D stack _ pending 0 1 k b (marked_begin b (type pm) 0) top Hs Hk Hsrc Htop); [|done| |].
  - rewrite list_fmap_insert. apply list_insert_id. by rewrite list_lookup_fmap, Hr.
  - intros x Hx. rewrite list_lookup_insert_eq in Hx by (by eapply lookup_lt_Some). injection Hx as <-. cbn.
    split_and!; [done..|]. split; [right; congruence|done].
  - intros i x Hx. apply lookup_app_Some in Hx as [Hx|[_ Hx]].
    + rewrite list_lookup_insert_ne in Hx by done. by apply (se_inner _ _ _ _ _ _ _ Hs i).
    + apply list_lookup_singleton_Some in Hx as [_ <-]. cbn. pose proof (Forall_lookup_1 _ _ _ _ (se_pending _ _ _ _ _ _ _ Hs) Hk) as Hf.
      apply orb_false_iff in Hf as [Hf1 Hf2]. split; [done|]. split; [|done]. split; [|done]. intros _. unfold dest, src in *. cbn. congruence.
Qed.

Lemma markCycles_spec l D stack pending cur b root : searching A pm l D stack pending cur -> b ∈ pending -> stack !! 0%nat = Some root ->
  isCycleEnd root = false -> markCycles stack b cur 0 1 = mret (<[0%nat := marked_end root cur]> stack).
Proof.
  intros Hs Hb Hr He. unfold markCycles. cbn [loop]. unfold move_at. rewrite Hr, !bind_ret. unfold setCycleEnd. rewrite He. cbn [negb moz_assert].
  rewrite !bind_ret. destruct (findCycledMove_spec _ _ _ _ _ b root Hs Hb Hr) as [_ Hn].
  rewrite (Hn (<[0%nat := marked_end root cur]> stack)); [done| |by rewrite length_insert]. by destruct stack.
Qed.

(** ** A move that is done *)

Lemma same_moves_snoc D l l' m : same_moves G D l -> op_in G m -> same_moves G (l ++ [m]) l' -> same_moves G (D ++ [m]) l'.
Proof.
  intros [H1 H2 H3 H4] Hm H. apply (same_moves_trans G) with (l ++ [m]); [|done]. constructor.
  - apply list.Forall_app. split; [done|by apply Forall_singleton].
  - intros s. rewrite !exec_app. apply exec_proper; [|done]. apply H2.
  - by rewrite !list.filter_app, H3.
  - by rewrite !fmap_app, H4.
Qed.

(** What the last move of the stack reads is still there, or in the slot. *)
Lemma top_value l D rest pending cur m : searching A pm l D (rest ++ [m]) pending cur ->
  conv (type m) (value (exec s0 D) m) = conv (type m) (read s0 (from m)).
Proof.
  intros Hs. assert (Hi : (rest ++ [m]) !! length rest = Some m) by (by apply lookup_here).
  assert (Hop : op_in G m) by (apply (progress_op _ _ _ _ _ (se_progress _ _ _ _ _ _ _ Hs)); rewrite !elem_of_app, list_elem_of_singleton; auto).
  destruct (isCycleEnd m) eqn:He.
  - destruct rest as [|r rest].
    2:{ cbn [length] in Hi. destruct (se_inner _ _ _ _ _ _ _ Hs _ _ Hi) as [H _]. congruence. }
    destruct (root_facts _ _ _ _ _ _ Hs Hi) as (_ & Es & _ & Hb & _ & Hsl & (d & Hd & Ed)%proj1); [done|].
    cbn [app] in Hd. apply elem_of_app in Hd as [Hd| ->%list_elem_of_singleton]; [|exfalso; apply (in_move G m Hop); unfold src, dest in *; congruence].
    unfold value. rewrite He, Hb, Hsl by done. cbn [andb negb]. apply (se_read _ _ _ _ _ _ _ Hs 0%nat m d Hi Hd). congruence.
  - unfold value. rewrite He. cbn [andb]. f_equal. apply (partial_rest _ _ (pr_state _ _ _ _ (se_progress _ _ _ _ _ _ _ Hs))); [left; apply Hop|].
    intros d Hd E. destruct (se_read _ _ _ _ _ _ _ Hs (length rest) m d Hi Hd) as [H0 _]; [by unfold src|].
    rewrite H0 in Hi. destruct (root_facts _ _ _ _ _ _ Hs Hi) as (_ & Es & _ & _ & _ & _ & H). rewrite He in H.
    assert (false = true); [|done]. apply H. exists d. split; [apply elem_of_app; by left|]. unfold src in *. congruence.
Qed.

(** What a move below reads from the slot once the top has overwritten its
    source. *)
Lemma slot_after l D rest pending cur m i x d : searching A pm l D (rest ++ [m]) pending cur -> rest !! i = Some x ->
  d ∈ D ++ [m] -> src x = dest d ->
  i = O /\ conv (type x) (slots (exec s0 (D ++ [m])) 0) = conv (type x) (read s0 (from x)).
Proof.
  intros Hs Hx Hd E. pose proof (lookup_lt_Some _ _ _ Hx) as Hlt.
  assert (Hi : (rest ++ [m]) !! length rest = Some m) by (by apply lookup_here).
  assert (Hx' : (rest ++ [m]) !! i = Some x) by (by rewrite lookup_app_l).
  pose proof (se_progress _ _ _ _ _ _ _ Hs) as Hp.
  assert (Hm : m ∈ (rest ++ [m]) ++ pending) by (rewrite !elem_of_app, list_elem_of_singleton; auto).
  assert (Hop : op_in G m) by (apply (progress_op _ _ _ _ _ Hp); apply elem_of_app; by right).
  destruct (length rest) as [|j] eqn:Hj; [lia|]. destruct (se_inner _ _ _ _ _ _ _ Hs j m Hi) as (_ & Hbeg & Hslot).
  rewrite exec_app. change (exec (exec s0 D) [m]) with (exec1 (exec s0 D) m). rewrite exec1_slots.
  apply elem_of_app in Hd as [Hd| ->%list_elem_of_singleton].
  - destruct (se_read _ _ _ _ _ _ _ Hs i x d Hx' Hd E) as [-> Hv]. split; [done|].
    destruct (isCycleBegin m) eqn:Eb; [exfalso|done]. destruct (root_facts _ _ _ _ _ _ Hs Hx') as (_ & Es & _).
    apply (progress_disjoint _ _ _ _ d m Hp Hd Hm). rewrite (proj1 Hbeg eq_refl). congruence.
  - pose proof (cycle_on_stack _ _ _ _ _ i (S j) x m Hs Hx' Hi ltac:(lia) E) as ->. split; [done|].
    destruct (root_facts _ _ _ _ _ _ Hs Hx') as (_ & Es & Et & _).
    assert (Eb : isCycleBegin m = true) by (apply Hbeg; congruence). destruct (Hslot Eb) as [Hs0 Hty].
    rewrite Eb, Hs0, Hty, <- Et, bool_decide_eq_true_2 by done. cbn [andb]. rewrite conv_store. f_equal.
    assert (Hread : read (exec s0 D) (to m) = read s0 (to m)).
    { apply (partial_rest _ _ (pr_state _ _ _ _ Hp)); [right; apply Hop|]. intros d Hd. by apply (progress_disjoint _ _ _ _ d m Hp Hd Hm). }
    rewrite Hread. apply read_alias; [apply Hop|]. unfold src, dest in E. by symmetry.
Qed.

(** The cycles ordered so far. *)
Lemma cycles_after l D rest pending cur m : searching A pm l D (rest ++ [m]) pending cur ->
  (paired (cycle_moves (D ++ [m])) /\ (rest <> [] -> forall b, b ∈ D ++ [m] -> dest b <> src pm)) \/
  (exists F b, rest <> [] /\ b ∈ D ++ [m] /\ cycle_moves (D ++ [m]) = F ++ [b] /\ paired F /\ isCycleBegin b = true /\ isCycleEnd b = false /\
     cycleBeginSlot b = 0 /\ endCycleType b = type pm /\ dest b = src pm).
Proof.
  intros Hs. assert (Hi : (rest ++ [m]) !! length rest = Some m) by (by apply lookup_here). rewrite cycle_moves_snoc.
  pose proof (se_progress _ _ _ _ _ _ _ Hs) as Hp.
  assert (Hm : m ∈ (rest ++ [m]) ++ pending) by (rewrite !elem_of_app, list_elem_of_singleton; auto).
  assert (Hop : op_in G m) by (apply (progress_op _ _ _ _ _ Hp); apply elem_of_app; by right).
  assert (Hmem : m ∈ D ++ [m]) by (apply elem_of_app; right; by apply list_elem_of_singleton).
  pose proof (se_cycles _ _ _ _ _ _ _ Hs) as Hcy. destruct rest as [|r rest].
  - destruct (root_facts _ _ _ _ _ _ Hs Hi) as (_ & Es & Et & Hb & _ & Hsl & Hend). left. split; [|done]. unfold flagged. rewrite Hb. cbn [orb].
    destruct (isCycleEnd m) eqn:He.
    + destruct (proj1 Hend eq_refl) as (d & [Hd| ->%list_elem_of_singleton]%elem_of_app & Ed);
        [|exfalso; apply (in_move G m Hop); unfold src, dest in *; congruence].
      destruct Hcy as [[_ H]|(F & b & _ & Hb' & -> & HF & H1 & H2 & H3 & H4 & H5)]; [exfalso; by apply (H ltac:(done) d)|].
      rewrite <- app_assoc. apply paired_snoc; [done|]. constructor; [done|done|by rewrite H3, Hsl|congruence|congruence].
    + destruct Hcy as [[H _]|(F & b & _ & Hb' & _ & _ & _ & _ & _ & _ & H5)]; [done|].
      assert (false = true); [|done]. apply Hend. exists b. split; [apply elem_of_app; by left|done].
  - cbn [length] in Hi. destruct (se_inner _ _ _ _ _ _ _ Hs _ _ Hi) as (He & Hbeg & Hslot). unfold flagged. rewrite He, orb_false_r.
    destruct (isCycleBegin m) eqn:Eb.
    + right. destruct (Hslot eq_refl) as [H1 H2]. pose proof (proj1 Hbeg eq_refl) as H3. exists (cycle_moves D), m. split_and!; try done.
      destruct Hcy as [[H _]|(F & b & _ & Hb' & _ & _ & _ & _ & _ & _ & H5)]; [done|]. exfalso.
      apply (progress_disjoint _ _ _ _ b m Hp Hb' Hm). congruence.
    + destruct Hcy as [[H H']|(F & b & _ & Hb' & H)].
      * left. split; [done|]. intros _ b [Hb| ->%list_elem_of_singleton]%elem_of_app; [by apply H'|]. intros E. apply Hbeg in E. done.
      * right. exists F, b. split; [done|]. split; [apply elem_of_app; by left|exact H].
Qed.

Lemma pop_step l l' D rest pending cur m : searching A pm l D (rest ++ [m]) pending cur ->
  (forall p, p ∈ pending -> src p <> dest m) -> same_moves G (l ++ [m]) l' -> searching A pm l' (D ++ [m]) rest pending cur.
Proof.
  intros Hs Hblk Hl'. pose proof Hs as [Hp Hpend Hb Hch Hrt Hin Hrd _].
  assert (Hm : m ∈ (rest ++ [m]) ++ pending) by (rewrite !elem_of_app, list_elem_of_singleton; auto).
  assert (Hop : op_in G m) by (apply (progress_op _ _ _ _ _ Hp); apply elem_of_app; by right).
  assert (Hpre : forall i x, rest !! i = Some x -> (rest ++ [m]) !! i = Some x) by (intros i x Hx; rewrite lookup_app_l; [done|by eapply lookup_lt_Some]).
  assert (Hperm : (D ++ [m]) ++ rest ++ pending ≡ₚ D ++ (rest ++ [m]) ++ pending).
  { rewrite <- !app_assoc. apply Permutation_app_head. rewrite (app_assoc rest [m]), (Permutation_app_comm rest [m]). by rewrite <- app_assoc. }
  constructor.
  - destruct Hp as [H1 H2 H3 H4 H5] eqn:Ep. constructor; [by rewrite Hperm|by rewrite Hperm|by rewrite Hperm|by apply same_moves_snoc with l|].
    apply (partial_step _ _ _ _ m Hp Hm). by apply (top_value _ _ _ _ _ _ Hs).
  - done.
  - intros d p [Hd| ->%list_elem_of_singleton]%elem_of_app Hpe; [by apply Hb|by apply Hblk].
  - intros i x y Hx Hy. apply (Hch i); by apply Hpre.
  - intros x Hx. destruct (Hrt x (Hpre _ _ Hx)) as (H1 & H2 & H3 & H4 & H5). split_and!; [done..|]. rewrite H5.
    split; intros (b & Hb' & E); exists b; (split; [|done]); revert Hb'; rewrite !elem_of_app; tauto.
  - intros i x Hx. apply (Hin i). by apply Hpre.
  - intros i x d Hx Hd E. by apply (slot_after _ _ _ _ _ _ i x d Hs).
  - by apply (cycles_after _ _ _ _ _ _ Hs).
Qed.

Lemma popBack_Some {B} (l l' : list B) (y : B) : popBack l = Some (l', y) -> l = l' ++ [y].
Proof.
  unfold popBack. destruct (list.last l) as [z|] eqn:E; [|done]. intros [= <- <-]. apply last_Some in E as [l2 ->].
  rewrite length_app. cbn. by rewrite Nat.add_sub, take_app_length.
Qed.

Lemma popBack_None {B} (l : list B) : popBack l = None -> l = [].
Proof. unfold popBack. destruct (list.last l) eqn:E; [done|]. by apply last_None in E. Qed.

(** Between two searches. *)
Record between l D pending : Prop := {
  bt_progress : progress A l D pending;
  bt_pending : Forall (fun m => flagged m = false) pending;
  bt_blocked d p : d ∈ D -> p ∈ pending -> src p <> dest d;
  bt_cycles : paired (cycle_moves D);
}.

Definition search_state (n : Z) (p : nat) (st : MoveResolver * list MoveOp) : Prop :=
  exists D, searching A pm (orderedMoves_ st.1) D st.2 (pending_ st.1) (curCycles_ st.1) /\
    numCycles_ st.1 = n /\ 0 <= curCycles_ st.1 <= 1 /\ (length (pending_ st.1) <= p)%nat.

Definition search_size (st : MoveResolver * list MoveOp) : Z := 2 * Z.of_nat (length (pending_ st.1)) + Z.of_nat (length st.2).

Definition searched (n : Z) (p : nat) (al : allocator) (res : MoveResolver * bool) : Prop :=
  if res.2 then exists D, between (orderedMoves_ res.1) D (pending_ res.1) /\ numCycles_ res.1 = n /\
                  0 <= curCycles_ res.1 <= 1 /\ (length (pending_ res.1) <= p)%nat
  else may_fail al.

Lemma searchStep_spec al n p r stack : search_state n p (r, stack) ->
  wp_at al (searchStep pm r stack)
    (fun res => match res with
       | inl st => search_state n p st /\ search_size st < search_size (r, stack)
       | inr res => searched n p al res
       end) no_error.
Proof.
  intros (D & Hs & Hn & Hcur & Hlen). cbn [fst snd] in *. unfold searchStep. destruct (popBack stack) as [[rest top]|] eqn:Hpop.
  2:{ apply popBack_None in Hpop as ->. wp_step. exists D. destruct Hs as [H1 H2 H3 _ _ _ _ H4]. split; [|done].
      constructor; [done|done|done|]. destruct H4 as [[H4 _]|(F & b & H4 & _)]; [done|by contradict H4]. }
  apply popBack_Some in Hpop as ->. unfold findBlockingMove. destruct (list_find _ (pending_ r)) as [[k b]|] eqn:Hf.
  - apply list_find_Some in Hf as (Hk & Ha%aliases_true & _). assert (Hb : b ∈ pending_ r) by (by eapply list_elem_of_lookup_2).
    assert (Htop : list.last (rest ++ [top]) = Some top) by apply last_snoc.
    assert (Hroot : exists root, (rest ++ [top]) !! 0%nat = Some root) by (destruct rest; cbn; eauto). destruct Hroot as [root Hr].
    destruct (findCycledMove_spec _ _ _ _ _ b root Hs Hb Hr) as [Hfc _]. rewrite Hfc.
    assert (Hsz : forall r' stack', pending_ r' = delete k (pending_ r) -> length stack' = S (length (rest ++ [top])) ->
              search_size (r', stack') < search_size (r, rest ++ [top]) /\ (length (pending_ r') <= p)%nat).
    { intros r' stack' Hp' Hst'. unfold search_size. cbn [fst snd]. rewrite Hp', Hst', length_delete by done.
      apply lookup_lt_Some in Hk. lia. }
    case_bool_decide as Hcl.
    + destruct (push_cycle _ _ _ _ _ _ _ _ _ Hs Hk Ha Htop Hr Hcl) as (Hend & Hcur0 & Hs').
      cbv zeta. rewrite (markCycles_spec _ _ _ _ _ _ _ Hs Hb Hr Hend), bind_ret. unfold setCycleBegin.
      pose proof (Forall_lookup_1 _ _ _ _ (se_pending _ _ _ _ _ _ _ Hs) Hk) as Hfl. apply orb_false_iff in Hfl as [Hfl _].
      rewrite Hfl. cbn [negb moz_assert]. rewrite !bind_ret. wp_step. split; [|apply Hsz; [done|]]; [|rewrite length_app, length_insert; cbn; lia].
      exists D. cbn [fst snd orderedMoves_ pending_ curCycles_ numCycles_]. split_and!; [exact Hs'|done|lia|lia|].
      apply (Hsz (MkResolver [] 0 0 (delete k (pending_ r))) (top :: rest ++ [top])); done.
    + cbv zeta. wp_step. split; [|apply Hsz; [done|]]; [|rewrite (length_app (rest ++ [top])); cbn; lia].
      exists D. cbn [fst snd orderedMoves_ pending_ curCycles_ numCycles_]. split_and!; [by apply (push_plain _ _ _ _ _ _ _ top root)|done|lia|lia|].
      apply (Hsz (MkResolver [] 0 0 (delete k (pending_ r))) (top :: rest ++ [top])); done.
  - apply list_find_None in Hf. rewrite list.Forall_forall in Hf. pose proof (se_progress _ _ _ _ _ _ _ Hs) as Hp.
    assert (Hop : op_in G top) by (apply (progress_op _ _ _ _ _ Hp); rewrite !elem_of_app, list_elem_of_singleton; auto).
    wp_step. eapply wpa_mono; [apply (addOrderedMove_spec G HG al (orderedMoves_ r) top); [apply (pr_same _ _ _ _ Hp)|done]| |done].
    intros [l' [|]] Hl'; wp_step; [|exact Hl']. split.
    + exists (D ++ [top]). cbn [fst snd orderedMoves_ pending_ curCycles_ numCycles_]. split; [|done].
      apply (pop_step _ _ _ _ _ _ _ Hs); [|done]. intros q Hq E. by apply (Hf q Hq), aliases_true.
    + unfold search_size. cbn [fst snd pending_]. rewrite length_app. cbn. lia.
Qed.

Lemma search_spec al n r D pending : between (orderedMoves_ r) D (pending ++ [pm]) -> pending_ r = pending -> curCycles_ r = 0 -> numCycles_ r = n ->
  wp_at al (search pm r) (searched n (length pending) al) no_error.
Proof.
  intros Hb Hp Hcur Hn. unfold search. apply (wpa_loop al (search_state n (length pending)) search_size).
  - exists D. cbn [fst snd]. rewrite Hp, Hcur. split; [|done]. destruct Hb as [H1 H2 H3 H4].
    assert (Hop : op_in G pm) by (apply (progress_op _ _ _ _ _ H1); rewrite !elem_of_app, list_elem_of_singleton; auto).
    apply list.Forall_app in H2 as [H2 H2']. apply Forall_cons_1 in H2' as [Hf _]. apply orb_false_iff in Hf as [Hf1 Hf2].
    assert (Hnone : ~ exists b, b ∈ D ++ [pm] /\ dest b = src pm).
    { intros (b & [Hb| ->%list_elem_of_singleton]%elem_of_app & E); [|apply (in_move G pm Hop); unfold src, dest in *; congruence].
      apply (H3 b pm Hb); [apply elem_of_app; right; by apply list_elem_of_singleton|done]. }
    constructor.
    + apply (progress_rest _ _ _ _ _ H1). apply fmap_Permutation, Permutation_app_comm.
    + done.
    + intros d q Hd Hq. apply H3; [done|apply elem_of_app; by left].
    + intros [|i] x y _ Hy; done.
    + intros x [= <-]. rewrite Hf1, Hf2. split_and!; done.
    + intros i x Hx. done.
    + intros [|i] x d Hx Hd E; [|done]. injection Hx as <-. exfalso. apply Hnone. exists d. split; [apply elem_of_app; by left|done].
    + left. split; [done|]. intros _ b Hb E. apply Hnone. exists b. split; [apply elem_of_app; by left|done].
  - unfold search_size. cbn [fst snd length]. lia.
  - intros st _. unfold search_size. lia.
  - intros [r' stack'] Hst. by apply searchStep_spec.
Qed.
End steps.

(** * The group *)

Lemma resolve_spec al r : Forall (op_in G) (pending_ r) -> Forall (fun m => flagged m = false) (pending_ r) -> NoDup (dest <$> pending_ r) ->
  wp_at al (resolve r)
    (fun '(r', ok) => pending_ r' = [] /\
       if ok : bool then exists D, between (pending_ r) (orderedMoves_ r') D [] /\ 0 <= numCycles_ r' <= 1 else may_fail al) no_error.
Proof.
  intros Hin Hf Hnd. set (A := pending_ r). unfold resolve. cbv zeta. wp_step. cbn [resetState numCycles_ curCycles_ pending_].
  eapply (wpa_mono al _ (fun '(r', ok) => if ok : bool then exists D, between A (orderedMoves_ r') D [] /\ 0 <= numCycles_ r' <= 1 else may_fail al)); [| |done].
  2:{ intros [r' ok] H. wp_step. done. }
  apply (wpa_loop al (fun r' => (exists D, between A (orderedMoves_ r') D (pending_ r')) /\ curCycles_ r' = 0 /\ 0 <= numCycles_ r' <= 1)
    (fun r' => Z.of_nat (length (pending_ r')))).
  - cbn. split; [|done]. exists []. constructor; [|done|by intros d p ?%elem_of_nil|constructor].
    constructor; [done|done|done|by constructor|]. constructor; [by intros d ?%elem_of_nil|done].
  - cbn [pending_]. fold A. lia.
  - lia.
  - intros r' ((D & Hb) & Hcur & Hnum). destruct (popBack (pending_ r')) as [[pending pm]|] eqn:Hpop.
    + apply popBack_Some in Hpop. rewrite Hpop in Hb. wp_step. eapply wpa_mono; [by apply (search_spec A pm al (numCycles_ r') _ D pending)| |done].
      intros [r2 ok] H. unfold searched in H. cbn [fst snd] in H. destruct ok; cbn [negb]; wp_step; [|done].
      destruct H as (D2 & Hb2 & Hn2 & Hc2 & Hlen). cbn [orderedMoves_ pending_ curCycles_ numCycles_]. split.
      * split; [by exists D2|]. split; [done|]. destruct (numCycles_ r2 <? curCycles_ r2); lia.
      * rewrite Hpop, length_app. cbn. lia.
    + apply popBack_None in Hpop. rewrite Hpop in Hb. wp_step. by exists D.
Qed.
End from_state.
End resolve.
