(* ===== verification/MoveTheorems.v ===== *)
(** The properties of the parallel move resolver. *)
From S2P Require Import Prelude MoveResolver MoveExec MoveOrder MoveResolve.

(** * Groups of parallel moves *)

Section groups.
Context {MA : MoveArch}.
Implicit Types (moves : list (MoveOperand * MoveOperand * MoveType)).

Definition sources moves : list MoveOperand := (fun k => k.1.1) <$> moves.
Definition destinations moves : list MoveOperand := (fun k => k.1.2) <$> moves.

(** What the register allocator provides: no move to an address or to its
    own source, one move to each location, and no address based on a register
    of the group. *)
Record parallel_group moves : Prop := {
  group_dest : Forall (fun k => is_ea k.1.2 = false /\ loc k.1.1 <> loc k.1.2) moves;
  group_once : NoDup (loc <$> destinations moves);
  group_bases : let os := sources moves ++ destinations moves in
    Forall (fun o => Forall (fun x => aliases_asserted o x = true) os) os;
}.

(** The destinations hold the values the sources had at the start; nothing
    else has changed. *)
Record moved {VS : Values} moves (s0 s : machine) : Prop := {
  moved_to k : k ∈ moves -> read s k.1.2 = store k.2 (read s0 k.1.2) (read s0 k.1.1);
  moved_rest o : is_ea o = false -> loc o ∉ (loc <$> destinations moves) -> read s o = read s0 o;
}.

(** Cycles one after the other, and one slot. *)
Definition cycles_in_order l : Prop := paired (cycle_moves l).

(** Values of 128 bits, of which a move of each type copies the low part. *)
Definition width (ty : MoveType) : Z :=
  match ty with GENERAL | DOUBLE => 64 | INT32 | FLOAT32 => 32 | SIMD128 => 128 end.

#[export] Instance values128 : Values := {|
  val := Z;
  lea v d := (v + d) mod 2 ^ 64;
  conv ty v := v mod 2 ^ width ty;
  store ty old v := old / 2 ^ width ty * 2 ^ width ty + v mod 2 ^ width ty;
|}.

#[export] Instance values128_laws : ValuesLaws values128.
Proof.
  assert (Hw : forall ty, 0 < 2 ^ width ty) by (by intros []).
  split; intros ty old v; cbn; specialize (Hw ty).
  - rewrite Z.add_comm, Z.mod_add by lia. apply Z.mod_mod. lia.
  - by rewrite Z.mod_mod by lia.
Qed.

(** * Adding the moves *)

Definition pending_moves moves : list MoveOp := (fun k => new_move k.1.1 k.1.2 k.2) <$> moves.

Lemma addMoves_spec al moves : forall r, Forall (fun k => loc k.1.1 <> loc k.1.2) moves ->
  wp_at al (addMoves r moves)
    (fun '(r', ok) => if ok : bool then pending_ r' = pending_ r ++ pending_moves moves
                      else may_fail al /\ exists moves', sublist moves' moves /\ pending_ r' = pending_ r ++ pending_moves moves') no_error.
Proof.
  induction moves as [|[[from to] ty] moves IH]; intros r Hl; cbn [addMoves]; [wp_step; by rewrite app_nil_r|].
  apply Forall_cons_1 in Hl as [Hne Hl]. cbn [fst snd] in Hne. wp_step. unfold addMove. wp_step. wp_step.
  { rewrite negb_true_iff. apply not_true_iff_false. intros E. apply Hne. revert E. unfold operand_eqb, loc, isFloatReg, isMemoryOrEffectiveAddress, isMemory, isEffectiveAddress.
    destruct (decide (kind_ from = kind_ to)) as [E|E]; [|by rewrite bool_decide_eq_false_2]. rewrite bool_decide_eq_true_2, <- E by done. cbn [negb].
    destruct (code_ from =? code_ to) eqn:Ec; [|done]. apply Z.eqb_eq in Ec. cbn [negb]. rewrite Ec. destruct (_ || _); [|done]. by intros ->%Z.eqb_eq. }
  wp_step. apply wpa_try_allocate.
  - wp_step. wp_step. eapply wpa_mono; [by apply IH| |done]. intros [r' [|]] H; wp_step; cbn [andb pending_] in *.
    + by rewrite H, <- app_assoc.
    + destruct H as (Hf & moves' & Hsub & ->). split; [done|]. exists ((from, to, ty) :: moves'). split; [by constructor|]. by rewrite <- app_assoc.
  - intros Hf. wp_step. wp_step. eapply wpa_mono; [by apply IH| |done]. intros [r' ok] H. wp_step. cbn [andb]. split; [done|]. destruct ok.
    + exists moves. split; [by constructor|done].
    + destruct H as (_ & moves' & Hsub & ->). exists moves'. split; [by constructor|done].
Qed.

(** * The group *)

Section group.
Context {VS : Values} {VL : ValuesLaws VS} (moves : list (MoveOperand * MoveOperand * MoveType)) (Hgroup : parallel_group moves).

Definition of_group (o : MoveOperand) : Prop := o ∈ sources moves ++ destinations moves.

Lemma sublist_group moves' : sublist moves' moves ->
  Forall (op_in of_group) (pending_moves moves') /\ Forall (fun m => flagged m = false) (pending_moves moves') /\
  NoDup (dest <$> pending_moves moves').
Proof.
  intros Hsub. destruct Hgroup as [Hd Ho _]. split; [|split].
  - apply Forall_fmap, list.Forall_forall. intros k Hk. assert (Hk' : k ∈ moves) by (by apply (sublist_subseteq _ _ Hsub)).
    rewrite list.Forall_forall in Hd. destruct (Hd k Hk') as [H1 H2]. unfold of_group, sources, destinations.
    constructor; cbn [new_move from to]; [apply elem_of_app; left|apply elem_of_app; right|done|done];
      [by apply (list_elem_of_fmap_2 (fun k => k.1.1))|by apply (list_elem_of_fmap_2 (fun k => k.1.2))].
  - by apply Forall_fmap, list.Forall_true.
  - apply (sublist_NoDup _ (loc <$> destinations moves)); [done|]. unfold pending_moves, destinations. rewrite <- !list_fmap_compose.
    by apply fmap_sublist.
Qed.

(** When all the moves are done, the group has moved. *)
Lemma moved_all s0 D l : between of_group s0 (pending_moves moves) l D [] -> moved moves s0 (exec s0 l).
Proof.
  intros [Hp _ _ _]. destruct Hp as [H1 _ _ H4 [H5 H6]]. rewrite app_nil_r in H1.
  assert (Hr : forall o, read (exec s0 l) o = read (exec s0 D) o) by (intros o; by rewrite (same_exec _ _ _ H4)).
  constructor.
  - intros k Hk. rewrite Hr. assert (Hc : core (new_move k.1.1 k.1.2 k.2) ∈ core <$> D).
    { rewrite H1. apply list_elem_of_fmap_2. by apply (list_elem_of_fmap_2 (fun k => new_move k.1.1 k.1.2 k.2)). }
    apply list_elem_of_fmap in Hc as (d & (E1 & E2 & E3)%core_eq & Hd). cbn [new_move from to type] in E1, E2, E3. rewrite E1, E2, E3. by apply H5.
  - intros o Ho Hno. rewrite Hr. apply H6; [by right|]. intros d Hd E. apply Hno. rewrite <- E.
    assert (Hc : core d ∈ core <$> pending_moves moves) by (rewrite <- H1; by apply list_elem_of_fmap_2).
    apply list_elem_of_fmap in Hc as (x & (_ & E2 & _)%core_eq & Hx). apply list_elem_of_fmap in Hx as (k & -> & Hk).
    unfold dest. rewrite E2. apply list_elem_of_fmap_2. by apply (list_elem_of_fmap_2 (fun k => k.1.2)).
Qed.

Lemma between_writes s0 D l : between of_group s0 (pending_moves moves) l D [] ->
  (fun m => (to m, type m)) <$> l ≡ₚ (fun k => (k.1.2, k.2)) <$> moves.
Proof.
  intros [[H1 _ _ [_ _ _ H4] _] _ _ _]. rewrite H4. rewrite app_nil_r in H1. apply (fmap_Permutation (fun k => (k.1.2, k.2))) in H1.
  unfold pending_moves in H1. rewrite <- !list_fmap_compose in H1. exact H1.
Qed.

Lemma visit_group_spec s0 al sorted r : pending_ r = [] ->
  wp_at al (visitMoveGroup sorted r moves)
    (fun res => match res with
       | Some r' => pending_ r' = [] /\ Forall (op_in of_group) (orderedMoves_ r') /\ moved moves s0 (exec s0 (orderedMoves_ r')) /\
           cycles_in_order (orderedMoves_ r') /\ (fun m => (to m, type m)) <$> orderedMoves_ r' ≡ₚ (fun k => (k.1.2, k.2)) <$> moves
       | None => may_fail al
       end) no_error.
Proof.
  intros Hr. assert (HG : forall o x, of_group o -> of_group x -> aliases_asserted o x = true).
  { intros o x Ho Hx. pose proof (group_bases _ Hgroup) as H. cbv zeta in H. rewrite list.Forall_forall in H.
    specialize (H o Ho). rewrite list.Forall_forall in H. by apply H. }
  unfold visitMoveGroup. wp_step.
  { apply Nat.eqb_eq in Hc. destruct moves; [|done]. wp_step. cbn [pending_ orderedMoves_]. split; [done|]. split; [done|].
    split; [|split; [constructor|done]]. constructor; [by intros k ?%elem_of_nil|done]. }
  wp_step. eapply wpa_mono; [apply addMoves_spec; apply list.Forall_impl with (1 := group_dest _ Hgroup); by intros k [_ H]| |done].
  intros [r1 added] Hadd.
  assert (Hsub : exists moves', sublist moves' moves /\ pending_ r1 = pending_moves moves' /\ (added = true -> moves' = moves) /\ (added = false -> may_fail al)).
  { rewrite Hr in Hadd. destruct added; [by exists moves|]. destruct Hadd as (Hf & moves' & H1 & H2). by exists moves'. }
  destruct Hsub as (moves' & Hsub & Hpend & Hall & Hfail). destruct (sublist_group moves' Hsub) as (H1 & H2 & H3).
  wp_step. eapply wpa_mono; [apply (resolve_spec of_group HG s0 al r1); by rewrite Hpend| |done].
  intros [r2 ok] [Hp2 H]. destruct ok; [|rewrite andb_false_r; cbn [negb]; by wp_step].
  destruct added; cbn [andb negb]; [|wp_step; by apply Hfail]. specialize (Hall eq_refl). subst moves'. rewrite Hpend in H.
  destruct H as (D & Hb & Hnum). pose proof (pr_same _ _ _ _ _ _ (bt_progress _ _ _ _ _ _ Hb)) as Hsame.
  assert (Hcyc : cycle_moves (orderedMoves_ r2) = cycle_moves D) by apply (same_flags _ _ _ Hsame).
  destruct sorted; cbv iota.
  - wp_step. eapply wpa_mono; [apply (sort_spec of_group HG al (orderedMoves_ r2)); apply Hsame| |done].
    intros l [Hs Hp]. wp_step. cbn [pending_ orderedMoves_]. split; [done|]. split; [apply Hs|]. split; [|split].
    + pose proof (moved_all _ _ _ Hb) as [Hm1 Hm2]. assert (Hr' : forall o, read (exec s0 l) o = read (exec s0 (orderedMoves_ r2)) o).
      { intros o. by rewrite (same_exec _ _ _ Hs). }
      constructor; intros; rewrite Hr'; auto.
    + unfold cycles_in_order. replace (cycle_moves l) with (cycle_moves D); [apply Hb|]. rewrite <- Hcyc. symmetry. apply (same_flags _ _ _ Hs).
    + rewrite (same_writes _ _ _ Hs). by apply (between_writes _ _ _ Hb).
  - wp_step. split; [done|]. split; [apply Hsame|]. split; [by apply (moved_all _ _ _ Hb)|]. split; [|by apply (between_writes _ _ _ Hb)].
    unfold cycles_in_order. rewrite Hcyc. apply Hb.
Qed.
End group.
End groups.

(** * Theorems *)

(** C37: the moves that [visitMoveGroup] hands to the emitter, executed one
    after the other with the slot of the cycles, do what the group asks for
    at once: every destination holds what its source held at the start, and
    no other location has changed.  This holds with and without the sorting,
    for groups with any number of cycles and of moves from one source; the
    only failure is a refused allocation, and the pending list is empty
    again. *)
Theorem move_group_is_parallel {MA : MoveArch} {VS : Values} {VL : ValuesLaws VS} sorted r moves s0 :
  pending_ r = [] -> parallel_group moves ->
  forall al, wp_at al (visitMoveGroup sorted r moves)
    (fun res => match res with
       | Some r' => pending_ r' = [] /\ moved moves s0 (exec s0 (orderedMoves_ r'))
       | None => may_fail al
       end) no_error.
Proof.
  intros Hr Hg al. eapply wpa_mono; [by apply (visit_group_spec moves Hg s0 al sorted r)| |done].
  intros [r'|]; [|done]. by intros (H1 & _ & H2 & _).
Qed.

(** The operands of an x64 group: registers 0 to 7, float registers by type,
    stack slots based on register 4. *)
#[local] Existing Instance arch_x64.
Definition stack_slot (d : Z) : MoveOperand := MkOperand MEMORY 4 d.

(** A cycle of three registers, one of two stack slots with different types,
    two loads from one slot, an address, and float registers. *)
Definition sample_group : list (MoveOperand * MoveOperand * MoveType) :=
  [(reg_operand 0, reg_operand 1, GENERAL); (stack_slot 8, stack_slot 16, INT32); (reg_operand 1, reg_operand 2, INT32);
   (stack_slot 24, stack_slot 32, GENERAL); (stack_slot 24, reg_operand 3, GENERAL); (reg_operand 2, reg_operand 0, GENERAL);
   (stack_slot 16, stack_slot 8, GENERAL); (reg_operand 2, stack_slot 40, GENERAL); (MkOperand EFFECTIVE_ADDRESS 4 48, reg_operand 6, GENERAL);
   (float_operand 17, float_operand 18, DOUBLE); (float_operand 18, stack_slot 56, DOUBLE)].

Lemma sample_parallel : parallel_group sample_group.
Proof. constructor; cbv zeta; apply (bool_decide_unpack _); vm_compute; exact I. Qed.

(** A start state in which all locations differ. *)
Definition sample_machine : @machine values128 :=
  @Machine values128 (fun '(k, c, d) => match k with REG => 100 | FLOAT_REG => 200 | MEMORY => 300 | EFFECTIVE_ADDRESS => 400 end + c + 1000 * d) (fun _ => 0).

Definition summary (m : MoveOp) : MoveOperand * MoveOperand * bool * bool := (from m, to m, isCycleBegin m, isCycleEnd m).

Lemma move_group_is_parallel_witness :
  wp_at calm (visitMoveGroup true new_resolver sample_group)
    (fun res => match res with
       | Some r' => pending_ r' = [] /\ moved sample_group sample_machine (exec sample_machine (orderedMoves_ r'))
       | None => may_fail calm
       end) no_error /\
  match run calm (visitMoveGroup true new_resolver (take 2 sample_group ++ [(stack_slot 16, stack_slot 8, GENERAL)])) with
  | Ok (Some r') => summary <$> orderedMoves_ r' =
      [(stack_slot 8, stack_slot 16, true, false); (stack_slot 16, stack_slot 8, false, true); (reg_operand 0, reg_operand 1, false, false)]
  | _ => False
  end.
Proof.
  split; [|vm_compute; reflexivity]. apply (move_group_is_parallel true new_resolver sample_group sample_machine); [reflexivity|exact sample_parallel].
Defined.

(** C38: [sortMemoryToMemoryMoves] ends although it looks at a position again
    whenever it has shifted a move away to the back: it takes at most one turn
    for each move and one for each pair of a move it may sort and a move from a
    register behind it ([inversions] counts these pairs), so that its condition
    is tested at most once more than that, and this is what [tests] allows.
    The loop permutes the moves, keeps the begins and ends of cycles in order,
    never leaves the list, and the moves still do the same.  The moves are as
    the resolver leaves them ([op_in]): no operand is an address based on a
    register that is another operand, no destination is an effective address
    and no move goes from a location to itself. *)
Theorem sorting_ends {MA : MoveArch} {VS : Values} {VL : ValuesLaws VS} (G : MoveOperand -> Prop) l :
  (forall o x, G o -> G x -> aliases_asserted o x = true) -> Forall (op_in G) l ->
  let sorted l' := l' ≡ₚ l /\ cycle_moves l' = cycle_moves l /\ forall s, exec s l' ≡ exec s l in
  forall al, (forall tests, (length l + inversions l < tests)%nat -> wp_at al (sortLoop tests l) sorted no_error) /\
    wp_at al (sortMemoryToMemoryMoves l) sorted no_error.
Proof.
  intros HG Hl sorted al. assert (Hs : forall l', same_moves G l l' /\ l' ≡ₚ l -> sorted l').
  { intros l' [Hs Hp]. split; [done|]. split; [apply (same_flags _ _ _ Hs)|apply (same_exec _ _ _ Hs)]. }
  split; [intros tests Ht|]; (eapply wpa_mono; [|exact Hs|done]); [by apply sortLoop_spec|by apply sort_spec].
Qed.

(** Two moves between stack slots, a register use and a register that is
    overwritten. *)
Definition sample_list : list MoveOp :=
  [new_move (stack_slot 8) (stack_slot 16) GENERAL; new_move (stack_slot 24) (stack_slot 32) INT32;
   new_move (reg_operand 1) (stack_slot 40) GENERAL; new_move (reg_operand 2) (reg_operand 3) GENERAL].

Lemma sorting_ends_witness :
  wp_at calm (sortLoop 9 sample_list)
    (fun l' => l' ≡ₚ sample_list /\ cycle_moves l' = cycle_moves sample_list /\ forall s : @machine values128, exec s l' ≡ exec s sample_list) no_error /\
  match run calm (sortLoop 9 sample_list) with
  | Ok l => to <$> l = [stack_slot 40; stack_slot 32; stack_slot 16; reg_operand 3]
  | Err _ => False
  end.
Proof.
  split; [|vm_compute; reflexivity].
  refine (proj1 (sorting_ends (VS := values128) (fun o => o ∈ (from <$> sample_list) ++ (to <$> sample_list)) sample_list _ _ calm) 9%nat _).
  - intros o x Ho Hx. revert x Hx. apply list.Forall_forall. revert o Ho. apply list.Forall_forall. apply (bool_decide_unpack _). vm_compute. exact I.
  - repeat constructor; cbn; try (apply (bool_decide_unpack _); vm_compute; exact I); done.
  - vm_compute. lia.
Defined.

(** C39: what [visitMoveGroup] hands to the emitter is well formed: each
    destination of the group is written once, with the type of its move, and
    never as an address; no move reads what it writes; and the cycles follow
    one another without nesting, each a begin and then its end: both use the
    same slot, the end reads what the begin overwrites, and the begin saves
    it with the type of the end. *)
Theorem ordered_moves_well_typed {MA : MoveArch} sorted r moves : pending_ r = [] -> parallel_group moves ->
  forall al, wp_at al (visitMoveGroup sorted r moves)
    (fun res => match res with
       | Some r' => (fun m => (to m, type m)) <$> orderedMoves_ r' ≡ₚ (fun k => (k.1.2, k.2)) <$> moves /\
           Forall (fun m => is_ea (to m) = false /\ loc (from m) <> loc (to m)) (orderedMoves_ r') /\
           cycles_in_order (orderedMoves_ r')
       | None => may_fail al
       end) no_error.
Proof.
  intros Hr Hg al. eapply wpa_mono; [by apply (visit_group_spec (VS := values128) moves Hg sample_machine al sorted r)| |done].
  intros [r'|]; [|done]. intros (_ & H1 & _ & H2 & H3). split_and!; [done| |done].
  apply list.Forall_impl with (1 := H1). intros m [_ _ H4 H5]. done.
Qed.

Lemma ordered_moves_well_typed_witness :
  wp_at calm (visitMoveGroup false new_resolver sample_group)
    (fun res => match res with
       | Some r' => (fun m => (to m, type m)) <$> orderedMoves_ r' ≡ₚ (fun k => (k.1.2, k.2)) <$> sample_group /\
           Forall (fun m => is_ea (to m) = false /\ loc (from m) <> loc (to m)) (orderedMoves_ r') /\
           cycles_in_order (orderedMoves_ r')
       | None => may_fail calm
       end) no_error /\
  match run calm (visitMoveGroup false new_resolver sample_group) with
  | Ok (Some r') => (fun m => (type m, isCycleBegin m, endCycleType m)) <$> cycle_moves (orderedMoves_ r') =
      [(INT32, true, GENERAL); (GENERAL, false, GENERAL); (INT32, true, GENERAL); (GENERAL, false, GENERAL)]
  | _ => False
  end.
Proof.
  split; [|vm_compute; reflexivity]. apply (ordered_moves_well_typed false new_resolver sample_group); [reflexivity|exact sample_parallel].
Defined.
