(* ===== verification/DoubleArith.v ===== *)
(** IEEE-754 arithmetic on doubles as the C++ operators and the C library
    define it: each operation is the exact one, rounded once to the nearest
    double with ties to even.  A double is its bit pattern; 2^1074 times a
    finite double is an integer.  The payload of a NaN result is not
    specified; the model has one. *)
From S2P Require Import Prelude Words CheckedArithmetic FloatingPoint BigIntRep BigIntMul BigIntDiv Conversions BigIntDouble.

(** * Definitions *)

(** [p / q] rounded to an integer. *)
Definition rne (p q : Z) : Z :=
  let k := p / q in
  let r := p mod q in
  if (2 * r >? q) || ((2 * r =? q) && Z.odd k) then k + 1 else k.

(** The double nearest to [p / q] units of 2^-1074: the fraction gets 53 bits,
    or fewer below the normal range; a carry moves to the next exponent. *)
Definition round_ratio (s : bool) (p q : Z) : Z :=
  let e := Z.max 0 (Z.log2 (p / q) - 52) in
  assemble s 0 (Z.min (e * 2 ^ 52 + rne p (q * 2 ^ e)) (2047 * 2 ^ 52)).

Definition GenericNaN : Z := 0x7FF8000000000000.
Definition signed_zero (s : bool) : Z := if s then kSignBit else 0.
Definition signed_infinity (s : bool) : Z := if s then NegativeInfinity else PositiveInfinity.

(** A nonzero multiple of 2^-1074. *)
Definition round_scaled (k : Z) : Z := round_ratio (k <? 0) (Z.abs k) 1.

Definition double_add (a b : Z) : Z :=
  if IsNaN a || IsNaN b then GenericNaN
  else if IsInfinite a then if IsInfinite b && negb (Bool.eqb (sign_of a) (sign_of b)) then GenericNaN else a
  else if IsInfinite b then b
  else
    let k := scaled a + scaled b in
    if k =? 0 then signed_zero (sign_of a && sign_of b) else round_scaled k.

Definition double_sub (a b : Z) : Z := if IsNaN b then GenericNaN else double_add a (double_neg b).

Definition double_mul (a b : Z) : Z :=
  let s := xorb (sign_of a) (sign_of b) in
  if IsNaN a || IsNaN b then GenericNaN
  else if IsInfinite a || IsInfinite b then
    if double_is_zero a || double_is_zero b then GenericNaN else signed_infinity s
  else round_ratio s (scaled_magnitude a * scaled_magnitude b) (2 ^ 1074).

Definition double_div (a b : Z) : Z :=
  let s := xorb (sign_of a) (sign_of b) in
  if IsNaN a || IsNaN b then GenericNaN
  else if IsInfinite a then if IsInfinite b then GenericNaN else signed_infinity s
  else if IsInfinite b then signed_zero s
  else if double_is_zero b then if double_is_zero a then GenericNaN else signed_infinity s
  else round_ratio s (scaled_magnitude a * 2 ^ 1074) (scaled_magnitude b).

Definition double_floor (a : Z) : Z :=
  if IsNaN a then GenericNaN
  else if IsInfinite a || double_is_zero a then a
  else
    let f := scaled a / 2 ^ 1074 in
    if f =? 0 then 0 else round_scaled (f * 2 ^ 1074).

Definition double_fmod (a b : Z) : Z :=
  if IsNaN a || IsNaN b || IsInfinite a || double_is_zero b then GenericNaN
  else if IsInfinite b then a
  else
    let r := Z.rem (scaled a) (scaled b) in
    if r =? 0 then signed_zero (sign_of a) else round_scaled r.

Definition double_lt (a b : Z) : bool := negb (IsNaN a) && negb (IsNaN b) && (scaled a <? scaled b).
Definition double_le (a b : Z) : bool := negb (IsNaN a) && negb (IsNaN b) && (scaled a <=? scaled b).

(** [double(n)] *)
Definition dbl (n : Z) : Z := round_to_double (n <? 0) (Z.abs n).

(** [int(d)] *)
Definition double_to_int (d : Z) : M Z :=
  if IsFinite d && (- 2 ^ 31 <=? integer_part d) && (integer_part d <? 2 ^ 31) then mret (integer_part d)
  else throw UndefinedBehavior.

(** * Rounding *)

Lemma rne_exact k q : 0 < q -> rne (k * q) q = k.
Proof.
  intros Hq. unfold rne. rewrite Z.div_mul, Z.mod_mul by lia.
  replace (2 * 0 >? q) with false by lia. by replace (2 * 0 =? q) with false by lia.
Qed.

Lemma rne_bounds p q : 0 < q -> - q <= 2 * (p - q * rne p q) <= q.
Proof.
  intros Hq. unfold rne. pose proof (Z.div_mod p q ltac:(lia)) as Hd. pose proof (Z.mod_pos_bound p q Hq) as Hr.
  set (k := p / q) in *. set (r := p mod q) in *. assert (E : p - q * (k + 1) = r - q) by lia.
  destruct (_ || _) eqn:Hc; [rewrite E|lia]. apply orb_true_iff in Hc as [Hc|Hc]; [lia|]. apply andb_true_iff in Hc as [Hc _]. lia.
Qed.

(** Common factors do not matter. *)
Lemma rne_cancel p q u : 0 < q -> 0 < u -> rne (p * u) (q * u) = rne p q.
Proof.
  intros Hq Hu. unfold rne. rewrite Z.div_mul_cancel_r, Zmult_mod_distr_r by lia.
  replace (2 * (p mod q * u) >? q * u) with (2 * (p mod q) >? q).
  - replace (2 * (p mod q * u) =? q * u) with (2 * (p mod q) =? q); [done|].
    apply eq_true_iff_eq. rewrite !Z.eqb_eq, Z.mul_assoc, Z.mul_cancel_r by lia. done.
  - apply eq_true_iff_eq. rewrite !Z.gtb_lt, Z.mul_assoc, <- Z.mul_lt_mono_pos_r by lia. done.
Qed.

Lemma round_ratio_integer s a q : 0 <= a < 2 ^ 53 -> 0 < q -> round_ratio s (a * 2 ^ 1074 * q) q = round_to_double s a.
Proof.
  intros Ha Hq. unfold round_ratio. rewrite Z.div_mul by lia. destruct (Z.eq_dec a 0) as [->|Ha0].
  { rewrite !Z.mul_0_l. change (Z.max 0 (Z.log2 0 - 52)) with 0. pose proof (rne_exact 0 (q * 2 ^ 0) ltac:(lia)) as E. rewrite Z.mul_0_l in E. by rewrite E. }
  rewrite Z.log2_mul_pow2 by lia. unfold round_to_double. replace (a =? 0) with false by lia.
  pose proof (Z.log2_nonneg a) as Hl0. assert (Hl : Z.log2 a <= 52) by (assert (Z.log2 a < 53) by (apply Z.log2_lt_pow2; lia); lia).
  pose proof (Z.log2_spec a ltac:(lia)) as Hs. set (l := Z.log2 a) in *. replace (l <=? 52) with true by lia.
  replace (Z.max 0 (1074 + l - 52)) with (l + 1022) by lia.
  replace (a * 2 ^ 1074 * q) with (a * 2 ^ (52 - l) * (q * 2 ^ (l + 1022))).
  2:{ replace (2 ^ 1074) with (2 ^ (52 - l) * 2 ^ (l + 1022)); [ring|]. rewrite <- Z.pow_add_r by lia. f_equal. lia. }
  rewrite rne_exact by (apply Z.mul_pos_pos; [done|apply Z.pow_pos_nonneg; lia]).
  assert (Hb : a * 2 ^ (52 - l) < 2 ^ 53).
  { replace (2 ^ 53) with (2 ^ Z.succ l * 2 ^ (52 - l)) by (rewrite <- Z.pow_add_r by lia; f_equal; lia).
    apply Z.mul_lt_mono_pos_r; [apply Z.pow_pos_nonneg; lia|lia]. }
  rewrite Z.min_l by lia. unfold assemble. lia.
Qed.

(** ** Integral doubles *)

Lemma unit_pos : 0 < 2 ^ 1074.
Proof. by apply Z.pow_pos_nonneg. Qed.

Lemma unit_zero n : n * 2 ^ 1074 = 0 <-> n = 0.
Proof. pose proof unit_pos. rewrite Z.mul_eq_0. split; [|auto]. intros [?|?]; [done|lia]. Qed.

Definition small (n : Z) : Prop := Z.abs n < 2 ^ 53.

Lemma dbl_fields n : small n -> sign_of (dbl n) = (n <? 0) /\ scaled_magnitude (dbl n) = Z.abs n * 2 ^ 1074 /\ is_double (dbl n) /\ IsFinite (dbl n) = true.
Proof.
  intros Hn. unfold small in Hn. assert (Hlog : Z.log2 (Z.abs n) <= 52).
  { destruct (Z.eq_dec n 0) as [->|]; [done|]. assert (Z.log2 (Z.abs n) < 53) by (apply Z.log2_lt_pow2; lia). lia. }
  destruct (scaled_sign (n <? 0) (Z.abs n) _ ltac:(lia) eq_refl) as [H1 H2]. unfold dbl. split; [done|]. split; [|split].
  - rewrite H2. apply round_small; lia.
  - by apply round_is_double, Z.abs_nonneg.
  - apply IsFinite_iff. unfold round_to_double. destruct (Z.eqb_spec (Z.abs n) 0); [by destruct (n <? 0)|].
    pose proof (Z.log2_nonneg (Z.abs n)). pose proof (Z.log2_spec (Z.abs n) ltac:(lia)) as Hs. set (l := Z.log2 (Z.abs n)) in *.
    replace (l <=? 52) with true by lia.
    assert (H1' : 2 ^ 52 <= Z.abs n * 2 ^ (52 - l) < 2 ^ 53).
    { replace (2 ^ 53) with (2 ^ Z.succ l * 2 ^ (52 - l)) by (rewrite <- Z.pow_add_r by lia; f_equal; lia).
      replace (2 ^ 52) with (2 ^ l * 2 ^ (52 - l)) by (rewrite <- Z.pow_add_r by lia; f_equal; lia).
      assert (0 < 2 ^ (52 - l)) by (apply Z.pow_pos_nonneg; lia). split; [apply Z.mul_le_mono_nonneg_r|apply Z.mul_lt_mono_pos_r]; lia. }
    destruct (assemble_fields (n <? 0) (l + 1023) (Z.abs n * 2 ^ (52 - l) - 2 ^ 52)) as (_ & -> & _); lia.
Qed.

Lemma dbl_not_nan n : small n -> IsNaN (dbl n) = false.
Proof. intros Hn. apply finite_not_nan. by apply dbl_fields. Qed.

Lemma dbl_not_infinite n : small n -> IsInfinite (dbl n) = false.
Proof.
  intros Hn. destruct (dbl_fields n Hn) as (_ & _ & _ & Hf). unfold IsFinite in Hf. unfold IsInfinite.
  rewrite negb_true_iff in Hf. apply Z.eqb_neq in Hf. apply Z.eqb_neq. intros E. apply Hf.
  change kExponentBits with (Z.land (uint64 (Z.lnot kSignBit)) kExponentBits) at 1. by rewrite Z.land_assoc, E, Z.land_diag.
Qed.

Lemma dbl_scaled n : small n -> scaled (dbl n) = n * 2 ^ 1074.
Proof.
  intros Hn. destruct (dbl_fields n Hn) as (Hs & Hm & _). unfold scaled. rewrite Hs, Hm.
  generalize (2 ^ 1074). intros u. destruct (Z.ltb_spec n 0); cbn [signed]; lia.
Qed.

Lemma dbl_zero n : small n -> double_is_zero (dbl n) = (n =? 0).
Proof.
  intros Hn. apply eq_true_iff_eq. rewrite double_is_zero_iff, dbl_scaled, Z.eqb_eq by done.
  apply unit_zero.
Qed.

Lemma round_scaled_dbl n : small n -> round_scaled (n * 2 ^ 1074) = dbl n.
Proof.
  intros Hn. unfold round_scaled, dbl. assert (Hu : 0 < 2 ^ 1074) by (apply Z.pow_pos_nonneg; lia).
  rewrite <- (round_ratio_integer (n <? 0) (Z.abs n) 1) by (unfold small in Hn; lia). rewrite Z.mul_1_r, Z.abs_mul, (Z.abs_eq (2 ^ 1074)) by lia.
  f_equal. apply eq_true_iff_eq. rewrite !Z.ltb_lt. generalize dependent (2 ^ 1074). intros u Hu. split; intros; [|lia].
  destruct (Z.lt_ge_cases n 0); [done|]. assert (0 <= n * u) by (apply Z.mul_nonneg_nonneg; lia). lia.
Qed.

(** * Arithmetic on integral doubles *)

Lemma double_add_dbl a b : small a -> small b -> small (a + b) -> double_add (dbl a) (dbl b) = dbl (a + b).
Proof.
  intros Ha Hb Hab. unfold double_add. rewrite !dbl_not_nan, !dbl_not_infinite, !dbl_scaled by done. cbn [orb].
  rewrite <- Z.mul_add_distr_r. destruct (Z.eqb_spec ((a + b) * 2 ^ 1074) 0) as [E|E]; [|by apply round_scaled_dbl].
  pose proof (proj1 (unit_zero _) E) as Hz. rewrite Hz.
  destruct (dbl_fields a Ha) as [-> _], (dbl_fields b Hb) as [-> _]. by replace ((a <? 0) && (b <? 0)) with false by lia.
Qed.

Lemma dbl_neg n : small n -> n <> 0 -> double_neg (dbl n) = dbl (- n).
Proof.
  intros Hn H0. unfold dbl. rewrite Z.abs_opp. destruct (Z.ltb_spec n 0).
  - replace (- n <? 0) with false by lia. rewrite <- (round_neg (Z.abs n)) by lia. unfold double_neg. rewrite Z.lxor_assoc, Z.lxor_nilpotent. apply Z.lxor_0_r.
  - replace (- n <? 0) with true by lia. apply round_neg. lia.
Qed.

Lemma double_sub_dbl a b : small a -> small b -> small (a - b) -> double_sub (dbl a) (dbl b) = dbl (a - b).
Proof.
  intros Ha Hb Hab. unfold double_sub. rewrite dbl_not_nan by done. destruct (Z.eq_dec b 0) as [->|Hb0].
  - rewrite Z.sub_0_r. change (double_neg (dbl 0)) with kSignBit. unfold double_add. rewrite dbl_not_nan, dbl_not_infinite by done.
    change (IsNaN kSignBit) with false. change (IsInfinite kSignBit) with false. cbn [orb]. rewrite dbl_scaled by done.
    change (scaled kSignBit) with 0. rewrite Z.add_0_r. destruct (Z.eqb_spec (a * 2 ^ 1074) 0) as [E|E]; [|by apply round_scaled_dbl].
    apply unit_zero in E as ->. done.
  - rewrite dbl_neg, double_add_dbl by (done || unfold small in *; lia). f_equal.
Qed.

Lemma double_mul_comm a b : double_mul a b = double_mul b a.
Proof.
  unfold double_mul. by rewrite xorb_comm, (orb_comm (IsNaN a)), (orb_comm (IsInfinite a)), (orb_comm (double_is_zero a)), (Z.mul_comm (scaled_magnitude a)).
Qed.

Lemma double_mul_dbl a b : small a -> small b -> 0 < b -> small (a * b) -> double_mul (dbl a) (dbl b) = dbl (a * b).
Proof.
  intros Ha Hb Hpos Hab. unfold double_mul. rewrite !dbl_not_nan, !dbl_not_infinite by done. cbn [orb].
  destruct (dbl_fields a Ha) as (-> & -> & _), (dbl_fields b Hb) as (-> & -> & _). replace (b <? 0) with false by lia. rewrite xorb_false_r.
  replace (Z.abs a * 2 ^ 1074 * (Z.abs b * 2 ^ 1074)) with (Z.abs (a * b) * 2 ^ 1074 * 2 ^ 1074) by (rewrite Z.abs_mul; ring).
  rewrite round_ratio_integer by (apply unit_pos || unfold small in Hab; lia). unfold dbl. f_equal. apply eq_true_iff_eq. rewrite !Z.ltb_lt. nia.
Qed.

(** The remainder of the C library takes the sign of the dividend; so does a
    zero. *)
Lemma double_fmod_dbl a b : small a -> small b -> 0 < b ->
  double_fmod (dbl a) (dbl b) = if Z.rem a b =? 0 then signed_zero (a <? 0) else dbl (Z.rem a b).
Proof.
  intros Ha Hb Hpos. unfold double_fmod. rewrite !dbl_not_nan, !dbl_not_infinite, dbl_zero, !dbl_scaled by done. replace (b =? 0) with false by lia. cbn [orb].
  destruct (dbl_fields a Ha) as (-> & _). pose proof unit_pos as Hu. rewrite Z.mul_rem_distr_r by lia.
  assert (Hr : small (Z.rem a b)).
  { unfold small in *. assert (Z.abs (Z.rem a b) < Z.abs b) by (apply Z.rem_bound_abs; lia). lia. }
  replace (Z.rem a b * 2 ^ 1074 =? 0) with (Z.rem a b =? 0); [case_match; [done|by apply round_scaled_dbl]|].
  apply eq_true_iff_eq. rewrite !Z.eqb_eq. symmetry. apply unit_zero.
Qed.

Lemma double_lt_dbl a b : small a -> small b -> double_lt (dbl a) (dbl b) = (a <? b).
Proof.
  intros Ha Hb. unfold double_lt. rewrite !dbl_not_nan, !dbl_scaled by done. cbn [negb andb]. pose proof unit_pos.
  apply eq_true_iff_eq. rewrite !Z.ltb_lt. symmetry. by apply Z.mul_lt_mono_pos_r.
Qed.

Lemma double_le_dbl a b : small a -> small b -> double_le (dbl a) (dbl b) = (a <=? b).
Proof.
  intros Ha Hb. unfold double_le. rewrite !dbl_not_nan, !dbl_scaled by done. cbn [negb andb]. pose proof unit_pos.
  apply eq_true_iff_eq. rewrite !Z.leb_le. symmetry. by apply Z.mul_le_mono_pos_r.
Qed.

Lemma double_eq_dbl a b : small a -> small b -> double_eq (dbl a) (dbl b) = (a =? b).
Proof.
  intros Ha Hb. destruct (dbl_fields a Ha) as (_ & _ & Da & Fa), (dbl_fields b Hb) as (_ & _ & Db & Fb).
  apply eq_true_iff_eq. rewrite double_eq_iff, !dbl_scaled, Z.eqb_eq by done. apply Z.mul_cancel_r. pose proof unit_pos. lia.
Qed.

Lemma double_to_int_dbl n : - 2 ^ 31 <= n < 2 ^ 31 -> double_to_int (dbl n) = mret n.
Proof.
  intros Hn. assert (Hs : small n) by (unfold small; lia). unfold double_to_int. destruct (dbl_fields n Hs) as (_ & _ & _ & ->).
  assert (E : integer_part (dbl n) = n). { unfold integer_part. rewrite dbl_scaled by done. apply Z.quot_mul. pose proof unit_pos. lia. }
  rewrite E. cbn [andb]. by replace ((- 2 ^ 31 <=? n) && (n <? 2 ^ 31)) with true by lia.
Qed.

Lemma scaled_inj a b : is_double a -> is_double b -> IsFinite a = true -> IsFinite b = true -> scaled a = scaled b -> scaled a <> 0 -> a = b.
Proof.
  intros Ha Hb Fa Fb E Hne. assert (Heq : double_eq a b = true) by (by apply double_eq_iff). unfold double_eq in Heq.
  apply andb_true_iff in Heq as [_ Heq]. apply orb_true_iff in Heq as [Heq|Heq]; [lia|]. apply andb_true_iff in Heq as [Hz _].
  by apply double_is_zero_iff in Hz.
Qed.

Lemma ToInteger_dbl n : small n -> ToInteger (dbl n) = dbl n.
Proof.
  intros Hn. destruct (Z.eq_dec n 0) as [->|H0]; [done|]. destruct (dbl_fields n Hn) as (_ & _ & Hd & Hf).
  destruct (ToInteger_ok _ Hd Hf) as (Ht & Hft & Hs). pose proof unit_pos as Hu.
  assert (E : scaled (ToInteger (dbl n)) = n * 2 ^ 1074).
  { rewrite Hs. unfold integer_part. rewrite dbl_scaled, Z.quot_mul by (done || lia). done. }
  apply scaled_inj; [done..| |]; rewrite E; [by rewrite dbl_scaled|]. by rewrite unit_zero.
Qed.

(** * The floor of a quotient *)

(** The fields of a rounded quotient of at least 53 bits. *)
Lemma scaled_fields s e k : 0 <= e <= 2044 -> 2 ^ 52 <= k <= 2 ^ 53 ->
  let d := assemble s 0 (e * 2 ^ 52 + k) in
  sign_of d = s /\ scaled_magnitude d = k * 2 ^ e /\ IsFinite d = true.
Proof.
  intros He Hk d. destruct (Z.eq_dec k (2 ^ 53)) as [->|Hne].
  - assert (Ed : d = assemble s (e + 2) 0) by (unfold d, assemble; lia). destruct (assemble_fields s (e + 2) 0) as (H1 & H2 & H3); [lia..|].
    rewrite Ed. split; [done|]. split; [|apply IsFinite_iff; lia]. unfold scaled_magnitude. rewrite H2, H3. replace (e + 2 =? 0) with false by lia.
    rewrite Z.add_0_r. replace (e + 2 - 1) with (Z.succ e) by lia. rewrite Z.pow_succ_r by lia. change (2 ^ 53) with (2 ^ 52 * 2). ring.
  - assert (Ed : d = assemble s (e + 1) (k - 2 ^ 52)) by (unfold d, assemble; lia).
    destruct (assemble_fields s (e + 1) (k - 2 ^ 52)) as (H1 & H2 & H3); [lia..|].
    rewrite Ed. split; [done|]. split; [|apply IsFinite_iff; lia]. unfold scaled_magnitude. rewrite H2, H3. replace (e + 1 =? 0) with false by lia.
    replace (e + 1 - 1) with e by lia. ring.
Qed.

(** A quotient that is not an integer keeps its distance from the integers
    when it is rounded to 53 bits. *)
Lemma rne_floor n b j : 0 < n < 2 ^ 53 -> 0 < b -> 0 <= j -> 2 ^ 52 * b <= n * 2 ^ j ->
  let k := rne (n * 2 ^ j) b in
  k / 2 ^ j = n / b /\ (n mod b <> 0 -> k mod 2 ^ j <> 0) /\ (n mod b = 0 -> k = n / b * 2 ^ j).
Proof.
  intros Hn Hb Hj Hle k. assert (Hj0 : 0 < 2 ^ j) by (apply Z.pow_pos_nonneg; lia). pose proof (rne_bounds (n * 2 ^ j) b Hb) as Hk. fold k in Hk.
  pose proof (Z.div_mod n b ltac:(lia)) as Hd. pose proof (Z.mod_pos_bound n b Hb) as Hr. set (m := n / b) in *. set (r := n mod b) in *.
  assert (Hb2 : b < 2 * 2 ^ j) by (apply (Z.mul_lt_mono_pos_l (2 ^ 52)); [lia|]; apply Z.le_lt_trans with (n * 2 ^ j); [done|];
    replace (2 ^ 52 * (2 * 2 ^ j)) with (2 ^ 53 * 2 ^ j) by (change (2 ^ 53) with (2 ^ 52 * 2); ring); apply Z.mul_lt_mono_pos_r; lia).
  assert (Hexact : r = 0 -> k = m * 2 ^ j).
  { intros E. unfold k. rewrite Hd, E, Z.add_0_r. replace (b * m * 2 ^ j) with (m * 2 ^ j * b) by ring. by apply rne_exact. }
  assert (Hin : r <> 0 -> m * 2 ^ j < k < m * 2 ^ j + 2 ^ j).
  { intros E. assert (Ek : n * 2 ^ j - b * k = b * (m * 2 ^ j - k) + r * 2 ^ j) by (rewrite Hd at 1; ring). rewrite Ek in Hk.
    assert (2 ^ j <= r * 2 ^ j) by nia. assert (r * 2 ^ j <= (b - 1) * 2 ^ j) by nia.
    split; [apply Z.lt_nge; intros Hc; assert (b * 0 <= b * (m * 2 ^ j - k)) by (apply Z.mul_le_mono_nonneg_l; lia); lia|].
    apply Z.lt_nge. intros Hc. assert (b * (m * 2 ^ j - k) <= b * (- 2 ^ j)) by (apply Z.mul_le_mono_nonneg_l; lia).
    rewrite Z.mul_sub_distr_r in *. lia. }
  clearbody k. destruct (Z.eq_dec r 0) as [E|E].
  - rewrite (Hexact E) in *. rewrite Z.div_mul by lia. split; [done|]. split; [done|]. done.
  - specialize (Hin E). split; [|split; [|done]].
    + symmetry. apply (Z.div_unique k (2 ^ j) m (k - m * 2 ^ j)); lia.
    + intros _ Hm. apply Z.div_exact in Hm; [|lia]. assert (Hdv : k / 2 ^ j = m) by (symmetry; apply (Z.div_unique k (2 ^ j) m (k - m * 2 ^ j)); lia).
      rewrite Hdv in Hm. lia.
Qed.

Lemma quotient_range n b : 0 < n < 2 ^ 53 -> 0 < b < 2 ^ 53 -> 2 ^ 1021 <= n * 2 ^ 1074 / b < 2 ^ 1127.
Proof.
  intros Hn Hb. pose proof unit_pos as Hu. split.
  - apply Z.div_le_lower_bound; [lia|]. assert (H : 0 <= 2 ^ 1021) by (by apply Z.pow_nonneg).
    replace (2 ^ 1074) with (2 ^ 53 * 2 ^ 1021) in * by (by rewrite <- Z.pow_add_r).
    generalize dependent (2 ^ 1021). intros v _ Hv. rewrite Z.mul_assoc. apply Z.mul_le_mono_nonneg_r; lia.
  - apply Z.div_lt_upper_bound; [lia|]. replace (2 ^ 1127) with (2 ^ 53 * 2 ^ 1074) by (by rewrite <- Z.pow_add_r).
    generalize dependent (2 ^ 1074). intros u Hu. rewrite Z.mul_assoc. apply Z.mul_lt_mono_pos_r; lia.
Qed.

(** The quotient of two integers, as a double. *)
Lemma double_div_fields a b : small a -> a <> 0 -> small b -> 0 < b -> exists e j k,
  0 <= e /\ 0 <= j /\ e + j = 1074 /\ k = rne (Z.abs a * 2 ^ j) b /\ 2 ^ 52 * b <= Z.abs a * 2 ^ j /\ 0 < k /\
  sign_of (double_div (dbl a) (dbl b)) = (a <? 0) /\ scaled_magnitude (double_div (dbl a) (dbl b)) = k * 2 ^ e /\
  IsFinite (double_div (dbl a) (dbl b)) = true.
Proof.
  intros Ha Ha0 Hb Hpos. unfold double_div. rewrite !dbl_not_nan, !dbl_not_infinite, dbl_zero by done. replace (b =? 0) with false by lia. cbn [orb].
  destruct (dbl_fields a Ha) as (-> & -> & _), (dbl_fields b Hb) as (-> & -> & _). replace (b <? 0) with false by lia. rewrite xorb_false_r.
  unfold small in Ha, Hb. rewrite (Z.abs_eq b) in * by lia. set (n := Z.abs a) in *. assert (Hn : 0 < n < 2 ^ 53) by lia. clearbody n. clear Ha Ha0.
  unfold round_ratio. pose proof unit_pos as Hu. rewrite Z.div_mul_cancel_r by lia. set (q := n * 2 ^ 1074 / b).
  assert (Hq : 2 ^ 1021 <= q < 2 ^ 1127) by (by apply quotient_range; [|lia]).
  assert (Hq0 : 0 < q) by (apply Z.lt_le_trans with (2 ^ 1021); [by apply Z.pow_pos_nonneg|lia]).
  assert (Hl1 : 1021 <= Z.log2 q) by (apply Z.log2_le_pow2; [done|apply Hq]).
  assert (Hl2 : Z.log2 q < 1127) by (apply Z.log2_lt_pow2; [done|apply Hq]).
  pose proof (Z.log2_spec q Hq0) as Hl. set (l := Z.log2 q) in *. set (e := l - 52). set (j := 1074 - e).
  assert (Ee : Z.max 0 e = e) by (unfold e; lia). rewrite Ee.
  assert (Eu : 2 ^ 1074 = 2 ^ j * 2 ^ e) by (rewrite <- Z.pow_add_r by (unfold j, e; lia); f_equal; unfold j; lia).
  assert (He : 0 < 2 ^ e) by (apply Z.pow_pos_nonneg; unfold e; lia).
  assert (Ek : rne (n * 2 ^ 1074 * 2 ^ 1074) (b * 2 ^ 1074 * 2 ^ e) = rne (n * 2 ^ j) b).
  { replace (b * 2 ^ 1074 * 2 ^ e) with (b * 2 ^ e * 2 ^ 1074) by ring. rewrite rne_cancel by (try done; by apply Z.mul_pos_pos).
    rewrite Eu, Z.mul_assoc. by apply rne_cancel. }
  rewrite Ek. assert (Hrange : 2 ^ 52 * b <= n * 2 ^ j < 2 ^ 53 * b).
  { assert (H1 : q * b <= n * 2 ^ 1074) by (rewrite Z.mul_comm; apply Z.mul_div_le; lia).
    assert (H2 : n * 2 ^ 1074 < Z.succ q * b) by (rewrite (Z.mul_comm (Z.succ q)); by apply Z.mul_succ_div_gt).
    replace (2 ^ l) with (2 ^ 52 * 2 ^ e) in Hl by (rewrite <- Z.pow_add_r by (unfold e; lia); f_equal; unfold e; lia).
    replace (2 ^ Z.succ l) with (2 ^ 53 * 2 ^ e) in Hl by (rewrite <- Z.pow_add_r by (unfold e; lia); f_equal; unfold e; lia).
    rewrite Eu in H1, H2. clear -Hl H1 H2 He Hpos. set (u := 2 ^ e) in *. set (v := 2 ^ j) in *. split.
    - apply (Z.mul_le_mono_pos_r _ _ u); [done|]. assert (2 ^ 52 * u * b <= q * b) by (apply Z.mul_le_mono_nonneg_r; lia). lia.
    - apply (Z.mul_lt_mono_pos_r u); [done|]. assert (Z.succ q * b <= 2 ^ 53 * u * b) by (apply Z.mul_le_mono_nonneg_r; lia). lia. }
  pose proof (rne_bounds (n * 2 ^ j) b Hpos) as Hk. set (k := rne (n * 2 ^ j) b) in *.
  assert (Hkb : 2 ^ 52 <= k <= 2 ^ 53).
  { clear -Hrange Hk Hpos. split; apply Z.le_ngt; intros Hc.
    - assert (b * k <= b * (2 ^ 52 - 1)) by (apply Z.mul_le_mono_nonneg_l; lia). lia.
    - assert (b * (2 ^ 53 + 1) <= b * k) by (apply Z.mul_le_mono_nonneg_l; lia). lia. }
  rewrite Z.min_l by (unfold e; lia). destruct (scaled_fields (a <? 0) e k) as (H1 & H2 & H3); [unfold e; lia|done|].
  exists e, j, k. unfold e, j. split_and!; try done; try lia. unfold j in Hrange. lia.
Qed.

Lemma double_div_zero b : small b -> 0 < b -> double_div (dbl 0) (dbl b) = dbl 0.
Proof.
  intros Hb Hpos. unfold double_div.
  rewrite !dbl_not_nan, !dbl_not_infinite, dbl_zero by done. replace (b =? 0) with false by lia. cbn [orb].
  destruct (dbl_fields b Hb) as (-> & -> & _). change (scaled_magnitude (dbl 0)) with 0. change (sign_of (dbl 0)) with false.
  replace (b <? 0) with false by lia. cbn [xorb].
  pose proof (round_ratio_integer false 0 (Z.abs b * 2 ^ 1074)) as H. rewrite !Z.mul_0_l in H. rewrite Z.mul_0_l. apply H; [done|].
  apply Z.mul_pos_pos; [lia|apply unit_pos].
Qed.

Lemma floor_div a b : small a -> small b -> 0 < b -> double_floor (double_div (dbl a) (dbl b)) = dbl (a / b).
Proof.
  intros Ha Hb Hpos. destruct (Z.eq_dec a 0) as [->|Ha0].
  { rewrite double_div_zero, Z.div_0_l by (done || lia). done. }
  destruct (double_div_fields a b Ha Ha0 Hb Hpos) as (e & j & k & He & Hj & Hej & Hk & Hle & Hk0 & Hs & Hm & Hf).
  set (d := double_div (dbl a) (dbl b)) in *. unfold double_floor. rewrite finite_not_nan by done.
  assert (Hinf : IsInfinite d = false).
  { unfold IsFinite in Hf. unfold IsInfinite. rewrite negb_true_iff in Hf. apply Z.eqb_neq in Hf. apply Z.eqb_neq. intros E. apply Hf.
    change kExponentBits with (Z.land (uint64 (Z.lnot kSignBit)) kExponentBits) at 1. by rewrite Z.land_assoc, E, Z.land_diag. }
  assert (Hmag : 0 < k * 2 ^ e) by (apply Z.mul_pos_pos; [done|apply Z.pow_pos_nonneg; lia]).
  assert (Hz : double_is_zero d = false).
  { apply not_true_iff_false. rewrite double_is_zero_iff. unfold scaled. rewrite Hm. destruct (sign_of d); cbn [signed]; lia. }
  rewrite Hinf, Hz. cbn [orb].
  assert (Hfloor : scaled d / 2 ^ 1074 = a / b).
  { unfold scaled. rewrite Hs, Hm. assert (Hu : 2 ^ 1074 = 2 ^ j * 2 ^ e) by (rewrite <- Z.pow_add_r by lia; f_equal; lia). rewrite Hu.
    assert (Hn : 0 < Z.abs a < 2 ^ 53) by (unfold small in Ha; lia).
    destruct (rne_floor (Z.abs a) b j Hn Hpos Hj Hle) as (H1 & H2 & H3). rewrite <- Hk in H1, H2, H3.
    assert (0 < 2 ^ e) by (apply Z.pow_pos_nonneg; lia). assert (0 < 2 ^ j) by (apply Z.pow_pos_nonneg; lia).
    destruct (Z.ltb_spec a 0); cbn [signed].
    - rewrite <- Z.mul_opp_l, Z.div_mul_cancel_r by lia. replace a with (- Z.abs a) by lia. destruct (Z.eq_dec (Z.abs a mod b) 0) as [E|E].
      + rewrite (Z.div_opp_l_z (Z.abs a)), (H3 E), <- Z.mul_opp_l, Z.div_mul by lia. done.
      + rewrite !Z.div_opp_l_nz by (lia || auto). lia.
    - rewrite Z.div_mul_cancel_r by lia. by rewrite Z.abs_eq in * by lia. }
  rewrite Hfloor. destruct (Z.eqb_spec (a / b) 0) as [->|_]; [done|]. apply round_scaled_dbl. unfold small in *.
  Z.div_mod_to_equations. nia.
Qed.

(** A cast to an integer type truncates the quotient. *)
Lemma quot_div a b : small a -> small b -> 0 < b ->
  IsFinite (double_div (dbl a) (dbl b)) = true /\ integer_part (double_div (dbl a) (dbl b)) = Z.quot a b.
Proof.
  intros Ha Hb Hpos. destruct (Z.eq_dec a 0) as [->|Ha0].
  { rewrite double_div_zero, Z.quot_0_l by (done || lia). by destruct (dbl_fields 0) as (_ & _ & _ & ->). }
  destruct (double_div_fields a b Ha Ha0 Hb Hpos) as (e & j & k & He & Hj & Hej & Hk & Hle & Hk0 & Hs & Hm & Hf). split; [done|].
  unfold integer_part, scaled. rewrite Hs, Hm. assert (Hu : 2 ^ 1074 = 2 ^ j * 2 ^ e) by (rewrite <- Z.pow_add_r by lia; f_equal; lia). rewrite Hu.
  assert (Hn : 0 < Z.abs a < 2 ^ 53) by (unfold small in Ha; lia). destruct (rne_floor (Z.abs a) b j Hn Hpos Hj Hle) as (H1 & _ & _). rewrite <- Hk in H1.
  assert (0 < 2 ^ e) by (apply Z.pow_pos_nonneg; lia). assert (0 < 2 ^ j) by (apply Z.pow_pos_nonneg; lia).
  assert (Hq : Z.quot (k * 2 ^ e) (2 ^ j * 2 ^ e) = Z.abs a / b) by (rewrite Z.quot_div_nonneg, Z.div_mul_cancel_r by lia; done).
  destruct (Z.ltb_spec a 0); cbn [signed].
  - rewrite Z.quot_opp_l, Hq by lia. rewrite Z.abs_neq, <- (Z.quot_div_nonneg (- a)), Z.quot_opp_l by lia. lia.
  - rewrite Hq, Z.abs_eq, Z.quot_div_nonneg by lia. done.
Qed.
