(* ===== verification/DoubleWhole.v ===== *)
(** The operations of DoubleArith.v on any double: they return doubles, and the
    ones that round integers return integral doubles or infinities. *)
From S2P Require Import Prelude Words CheckedArithmetic FloatingPoint BigIntRep Conversions BigIntDouble DoubleArith.

(** * The results are doubles *)

Lemma rne_nonneg p q : 0 <= p -> 0 < q -> 0 <= rne p q.
Proof. intros Hp Hq. unfold rne. pose proof (Z.div_pos p q Hp Hq). destruct (_ || _); lia. Qed.

Lemma round_ratio_double s p q : 0 <= p -> 0 < q -> is_double (round_ratio s p q).
Proof.
  intros Hp Hq. unfold round_ratio, is_double, assemble. set (e := Z.max 0 _).
  assert (0 <= rne p (q * 2 ^ e)) by (apply rne_nonneg; [done|apply Z.mul_pos_pos; [done|apply Z.pow_pos_nonneg; lia]]).
  assert (0 <= e) by lia. clearbody e. destruct s; lia.
Qed.

Lemma round_scaled_double k : is_double (round_scaled k).
Proof. apply round_ratio_double; lia. Qed.

Lemma special_doubles s : is_double GenericNaN /\ is_double (signed_zero s) /\ is_double (signed_infinity s).
Proof. split_and!; [split; [discriminate|reflexivity]|..]; destruct s; (split; [discriminate|reflexivity]). Qed.

Lemma double_neg_double d : is_double d -> is_double (double_neg d).
Proof.
  unfold is_double, double_neg. intros Hd. assert (H0 : 0 <= Z.lxor d kSignBit) by (apply Z.lxor_nonneg; split; [discriminate|lia]). split; [done|].
  destruct (Z.eq_dec (Z.lxor d kSignBit) 0) as [->|]; [done|]. apply Z.log2_lt_pow2; [lia|].
  pose proof (Z.log2_lxor d kSignBit ltac:(lia) ltac:(discriminate)) as Hl. change (Z.log2 kSignBit) with 63 in Hl.
  assert (Z.log2 d < 64) by (destruct (Z.eq_dec d 0) as [->|]; [done|apply Z.log2_lt_pow2; lia]). lia.
Qed.

Create HintDb doubles discriminated.
#[export] Hint Constants Opaque : doubles.
#[export] Hint Resolve round_ratio_double round_scaled_double double_neg_double : doubles.
Lemma GenericNaN_double : is_double GenericNaN.
Proof. apply (special_doubles true). Qed.
Lemma signed_zero_double s : is_double (signed_zero s).
Proof. apply special_doubles. Qed.
Lemma signed_infinity_double s : is_double (signed_infinity s).
Proof. apply special_doubles. Qed.
#[export] Hint Resolve GenericNaN_double signed_zero_double signed_infinity_double : doubles.

Lemma double_add_double a b : is_double a -> is_double b -> is_double (double_add a b).
Proof. intros Ha Hb. unfold double_add. repeat case_match; auto with doubles nocore. Qed.

Lemma double_sub_double a b : is_double a -> is_double b -> is_double (double_sub a b).
Proof. intros Ha Hb. unfold double_sub. case_match; auto using double_add_double with doubles nocore. Qed.

Lemma double_mul_double a b : is_double (double_mul a b).
Proof.
  unfold double_mul. repeat case_match; auto with doubles nocore.
  apply round_ratio_double; [|apply unit_pos]. apply Z.mul_nonneg_nonneg; apply scaled_magnitude_nonneg.
Qed.

Lemma zero_magnitude d : double_is_zero d = false -> 0 < scaled_magnitude d.
Proof.
  intros H. pose proof (scaled_magnitude_nonneg d). apply not_true_iff_false in H. rewrite double_is_zero_iff in H. unfold scaled in H.
  destruct (sign_of d); cbn [signed] in H; lia.
Qed.

Lemma double_div_double a b : is_double (double_div a b).
Proof.
  unfold double_div. repeat case_match; auto with doubles nocore. apply round_ratio_double; [|by apply zero_magnitude].
  pose proof unit_pos. apply Z.mul_nonneg_nonneg; [apply scaled_magnitude_nonneg|lia].
Qed.

Lemma double_floor_double a : is_double a -> is_double (double_floor a).
Proof. intros Ha. unfold double_floor. repeat case_match; auto with doubles nocore. by split. Qed.

Lemma double_fmod_double a b : is_double a -> is_double (double_fmod a b).
Proof. intros Ha. unfold double_fmod. repeat case_match; auto with doubles nocore. Qed.

Lemma dbl_double n : is_double (dbl n).
Proof. apply round_is_double, Z.abs_nonneg. Qed.

Lemma ToInteger_double d : is_double d -> is_double (ToInteger d).
Proof.
  intros Hd. destruct (IsFinite d) eqn:Hf; [by apply ToInteger_ok|]. unfold ToInteger. rewrite Hf. cbn [negb].
  repeat case_match; [by split|by split|done].
Qed.

#[export] Hint Resolve double_add_double double_sub_double double_mul_double double_div_double double_floor_double double_fmod_double
  dbl_double ToInteger_double : doubles.

(** * Integral doubles and infinities *)

Lemma IsInfinite_fields b : IsInfinite b = true <-> biased_of b = 2047 /\ fraction_of b = 0.
Proof.
  unfold IsInfinite. change (uint64 (Z.lnot kSignBit)) with (2 ^ 63 - 1). rewrite (land_low b 63), Z.eqb_eq, fields63 by lia.
  change kExponentBits with (2047 * 2 ^ 52). pose proof (biased_bound b). pose proof (fraction_bound b). lia.
Qed.

(** The three classes of doubles. *)
Lemma classify d : IsFinite d = true \/ IsInfinite d = true \/ IsNaN d = true.
Proof.
  rewrite IsFinite_iff, IsInfinite_fields, IsNaN_iff. pose proof (biased_bound d). pose proof (fraction_bound d). lia.
Qed.

Lemma infinite_not_nan d : IsInfinite d = true -> IsNaN d = false /\ IsFinite d = false.
Proof.
  rewrite IsInfinite_fields. intros [H1 H2]. split; apply not_true_iff_false; [rewrite IsNaN_iff|rewrite IsFinite_iff]; lia.
Qed.

Lemma finite_not_infinite d : IsFinite d = true -> IsInfinite d = false.
Proof. rewrite IsFinite_iff. intros H. apply not_true_iff_false. rewrite IsInfinite_fields. lia. Qed.

(** An integer, of any size. *)
Definition whole (d : Z) : Prop := IsFinite d = true /\ exists n, scaled d = n * 2 ^ 1074.
Definition whole_or_infinite (d : Z) : Prop := is_double d /\ (IsInfinite d = true \/ whole d).

Lemma dbl_whole n : small n -> whole (dbl n).
Proof. intros Hn. split; [by apply dbl_fields|]. exists n. by apply dbl_scaled. Qed.

Lemma ToInteger_whole d : is_double d -> IsFinite d = true -> whole (ToInteger d).
Proof. intros Hd Hf. destruct (ToInteger_ok d Hd Hf) as (_ & Hft & Hs). split; [done|]. by exists (integer_part d). Qed.

(** A rounded integer is an integer: from 2^53 up the result keeps fewer bits
    than the integer has. *)
Lemma scaled_fields_lt s e k : 0 <= e <= 2045 -> 2 ^ 52 <= k < 2 ^ 53 ->
  let d := assemble s 0 (e * 2 ^ 52 + k) in sign_of d = s /\ scaled_magnitude d = k * 2 ^ e /\ IsFinite d = true.
Proof.
  intros He Hk d. assert (Ed : d = assemble s (e + 1) (k - 2 ^ 52)) by (unfold d, assemble; lia).
  destruct (assemble_fields s (e + 1) (k - 2 ^ 52)) as (H1 & H2 & H3); [lia..|].
  rewrite Ed. split; [done|]. split; [|apply IsFinite_iff; lia]. unfold scaled_magnitude. rewrite H2, H3. replace (e + 1 =? 0) with false by lia.
  replace (e + 1 - 1) with e by lia. ring.
Qed.

Lemma signed_infinity_fields s : IsInfinite (signed_infinity s) = true.
Proof. by destruct s. Qed.

Lemma rne_log k e : 0 < k -> e = Z.log2 k - 52 -> 0 <= e -> 2 ^ 52 <= rne k (2 ^ e) <= 2 ^ 53.
Proof.
  intros Hk He He0. pose proof (Z.log2_spec k Hk) as Hl. assert (Hp : 0 < 2 ^ e) by (apply Z.pow_pos_nonneg; lia).
  replace (Z.succ (Z.log2 k)) with (53 + e) in Hl by lia. replace (Z.log2 k) with (52 + e) in Hl by lia. rewrite !Z.pow_add_r in Hl by lia.
  pose proof (rne_bounds k (2 ^ e) Hp) as Hb. set (r := rne k (2 ^ e)) in *. set (u := 2 ^ e) in *. clearbody r u. clear He He0 e.
  split; apply Z.le_ngt; intros Hc.
  - assert (u * r <= u * (2 ^ 52 - 1)) by (apply Z.mul_le_mono_nonneg_l; lia). lia.
  - assert (u * (2 ^ 53 + 1) <= u * r) by (apply Z.mul_le_mono_nonneg_l; lia). lia.
Qed.

Lemma round_ratio_large s k e : 0 < k -> e = Z.log2 k - 52 -> 1074 <= e ->
  let d := assemble s 0 (Z.min (e * 2 ^ 52 + rne k (2 ^ e)) (2047 * 2 ^ 52)) in IsInfinite d = true \/ whole d.
Proof.
  intros Hk He Hge d. pose proof (rne_log k e Hk He ltac:(lia)) as Hr. set (r := rne k (2 ^ e)) in *. clearbody r. clear He.
  assert (Hinf : 2047 * 2 ^ 52 <= e * 2 ^ 52 + r -> IsInfinite d = true).
  { intros Hc. unfold d. rewrite Z.min_r by done. change (assemble s 0 (2047 * 2 ^ 52)) with (assemble s 0 (2047 * 2 ^ 52 + 0)).
    replace (assemble s 0 (2047 * 2 ^ 52 + 0)) with (signed_infinity s) by (by destruct s). apply signed_infinity_fields. }
  destruct (Z.le_gt_cases (2047 * 2 ^ 52) (e * 2 ^ 52 + r)) as [Hc|Hc]; [by left; apply Hinf|right].
  unfold d. rewrite Z.min_l by lia. assert (Hlt : e <= 2044 \/ (e = 2045 /\ r < 2 ^ 53)) by lia.
  assert (Hf : let d' := assemble s 0 (e * 2 ^ 52 + r) in sign_of d' = s /\ scaled_magnitude d' = r * 2 ^ e /\ IsFinite d' = true).
  { destruct Hlt as [Hlt|[-> Hlt]]; [apply scaled_fields|apply scaled_fields_lt]; lia. }
  destruct Hf as (Hs & Hm & Hf). split; [done|]. unfold scaled. rewrite Hs, Hm. exists (signed s (r * 2 ^ (e - 1074))).
  replace (2 ^ e) with (2 ^ (e - 1074) * 2 ^ 1074) by (rewrite <- Z.pow_add_r by lia; f_equal; lia). destruct s; cbn [signed]; ring.
Qed.

Lemma round_scaled_whole n : IsInfinite (round_scaled (n * 2 ^ 1074)) = true \/ whole (round_scaled (n * 2 ^ 1074)).
Proof.
  destruct (Z.lt_ge_cases (Z.abs n) (2 ^ 53)) as [Hs|Hl].
  { right. rewrite round_scaled_dbl by done. by apply dbl_whole. }
  unfold round_scaled, round_ratio. rewrite Z.div_1_r, Z.mul_1_l, Z.abs_mul, (Z.abs_eq (2 ^ 1074)) by (pose proof unit_pos; lia).
  assert (Hlog : Z.log2 (Z.abs n * 2 ^ 1074) = Z.log2 (Z.abs n) + 1074) by (rewrite Z.log2_mul_pow2 by lia; lia).
  assert (53 <= Z.log2 (Z.abs n)) by (apply Z.log2_le_pow2; lia). rewrite Z.max_r by lia.
  apply round_ratio_large; [|done|lia]. pose proof unit_pos. apply Z.mul_pos_pos; lia.
Qed.

(** A finite integer plus an integer or an infinity. *)
Lemma double_add_whole a b : is_double a -> whole a -> whole_or_infinite b -> whole_or_infinite (double_add a b).
Proof.
  intros Hda [Hfa [n Hn]] [Hdb Hb]. split; [auto with doubles nocore|]. unfold double_add. rewrite (finite_not_nan a), (finite_not_infinite a) by done.
  destruct Hb as [Hb|[Hfb [m Hm]]]; [destruct (infinite_not_nan b Hb) as [-> _]; rewrite Hb; by left|].
  rewrite (finite_not_nan b), (finite_not_infinite b), Hn, Hm, <- Z.mul_add_distr_r by done. cbn [orb].
  case_match; [right; split; [by destruct (sign_of a && sign_of b)|exists 0; by destruct (sign_of a && sign_of b)]|apply round_scaled_whole].
Qed.

Lemma double_floor_whole a : is_double a -> IsNaN a = false -> whole_or_infinite (double_floor a).
Proof.
  intros Hd Hn. split; [auto with doubles nocore|]. unfold double_floor. rewrite Hn. destruct (classify a) as [Hf|[Hi|?]]; [|rewrite Hi; by left|congruence].
  rewrite (finite_not_infinite a) by done. cbn [orb]. destruct (double_is_zero a) eqn:Hz.
  { right. split; [done|]. exists 0. by apply double_is_zero_iff. }
  case_match; [right; apply (dbl_whole 0); done|apply round_scaled_whole].
Qed.

Lemma round_ratio_not_nan s p q : 0 <= p -> 0 < q -> IsNaN (round_ratio s p q) = false.
Proof.
  intros Hp Hq. unfold round_ratio. set (e := Z.max 0 _). assert (Hr : 0 <= rne p (q * 2 ^ e)) by (apply rne_nonneg; [done|apply Z.mul_pos_pos; [done|apply Z.pow_pos_nonneg; lia]]).
  assert (He : 0 <= e) by lia. clearbody e. set (m := Z.min _ _). assert (Hm : 0 <= m <= 2047 * 2 ^ 52) by lia. clearbody m.
  apply not_true_iff_false. rewrite IsNaN_iff. assert (E : assemble s 0 m = assemble s (m / 2 ^ 52) (m mod 2 ^ 52)).
  { unfold assemble. pose proof (Z.div_mod m (2 ^ 52) ltac:(lia)). lia. }
  assert (Hd : 0 <= m / 2 ^ 52 < 2048) by (split; [apply Z.div_pos; lia|apply Z.div_lt_upper_bound; lia]). pose proof (Z.mod_pos_bound m (2 ^ 52) ltac:(lia)) as Hmod.
  rewrite E. destruct (assemble_fields s (m / 2 ^ 52) (m mod 2 ^ 52) Hd Hmod) as (_ & -> & ->). pose proof (Z.div_mod m (2 ^ 52) ltac:(lia)). lia.
Qed.

Lemma double_div_not_nan a b : IsFinite a = true -> IsFinite b = true -> double_is_zero b = false -> IsNaN (double_div a b) = false.
Proof.
  intros Ha Hb Hz. unfold double_div. rewrite (finite_not_nan a), (finite_not_nan b), (finite_not_infinite a), (finite_not_infinite b), Hz by done. cbn [orb].
  apply round_ratio_not_nan; [|by apply zero_magnitude]. pose proof unit_pos. apply Z.mul_nonneg_nonneg; [apply scaled_magnitude_nonneg|lia].
Qed.

(** An assertion of the code. *)
Lemma integral_whole d : whole_or_infinite d -> double_eq (ToInteger d) d = true.
Proof.
  intros [Hd [Hi|[Hf [n Hn]]]].
  - destruct (infinite_not_nan d Hi) as [Hnan Hf]. unfold ToInteger. rewrite Hf, Hnan. cbn [negb].
    destruct (double_is_zero d) eqn:Hz.
    + exfalso. apply IsInfinite_fields in Hi as [H1 H2]. apply double_is_zero_iff in Hz. unfold scaled, scaled_magnitude in Hz. rewrite H1, H2 in Hz.
      change (2047 =? 0) with false in Hz. cbn iota in Hz. assert (0 < (2 ^ 52 + 0) * 2 ^ (2047 - 1)) by (apply Z.mul_pos_pos; [done|by apply Z.pow_pos_nonneg]). destruct (sign_of d); cbn [signed] in Hz; lia.
    + unfold double_eq. by rewrite Hnan, Z.eqb_refl.
  - destruct (ToInteger_ok d Hd Hf) as (Ht & Hft & Hs). apply double_eq_iff; [done..|]. rewrite Hs. unfold integer_part. rewrite Hn, Z.quot_mul; [done|]. pose proof unit_pos. lia.
Qed.

(** The remainder of any integer by a small one. *)
Lemma double_fmod_whole a n b : IsFinite a = true -> scaled a = n * 2 ^ 1074 -> small b -> 0 < b ->
  double_fmod a (dbl b) = if Z.rem n b =? 0 then signed_zero (sign_of a) else dbl (Z.rem n b).
Proof.
  intros Hf Hn Hb Hpos. unfold double_fmod. rewrite (finite_not_nan a), (finite_not_infinite a), dbl_not_nan, dbl_not_infinite, dbl_zero, Hn, dbl_scaled by done.
  replace (b =? 0) with false by lia. cbn [orb]. pose proof unit_pos as Hu. rewrite Z.mul_rem_distr_r by lia.
  assert (Hr : small (Z.rem n b)).
  { unfold small in *. assert (Z.abs (Z.rem n b) < Z.abs b) by (apply Z.rem_bound_abs; lia). lia. }
  replace (Z.rem n b * 2 ^ 1074 =? 0) with (Z.rem n b =? 0); [case_match; [done|by apply round_scaled_dbl]|].
  apply eq_true_iff_eq. rewrite !Z.eqb_eq. symmetry. apply unit_zero.
Qed.

(** An integral double in the range of the safe integers is one of them; a
    zero may be negative. *)
Lemma whole_small d n : is_double d -> IsFinite d = true -> scaled d = n * 2 ^ 1074 -> small n -> n <> 0 -> d = dbl n.
Proof.
  intros Hd Hf Hn Hs H0. destruct (dbl_fields n Hs) as (_ & _ & Hd' & Hf'). apply scaled_inj; try done; rewrite Hn; [by rewrite dbl_scaled|]. by rewrite unit_zero.
Qed.

Lemma ToInteger_small d : is_double d -> IsFinite d = true -> small (integer_part d) -> ToInteger d = dbl (integer_part d).
Proof.
  intros Hd Hf Hs. destruct (ToInteger_ok d Hd Hf) as (Ht & Hft & Hst). destruct (Z.eq_dec (integer_part d) 0) as [E|E]; [|by apply whole_small].
  rewrite E in *. change (dbl 0) with 0. clear Hs E. assert (Hz : double_is_zero (ToInteger d) = true) by (by apply double_is_zero_iff).
  assert (Hnz : ToInteger d <> kSignBit).
  { unfold ToInteger. rewrite Hf. cbn [negb]. destruct (double_is_zero d); [discriminate|]. destruct (Z.eqb_spec (trunc d) kSignBit); [discriminate|done]. }
  unfold double_is_zero in Hz. apply Z.eqb_eq in Hz. change kSignBit with (2 ^ 63) in Hnz. pose proof (sign_mod63 _ Ht) as Hm. rewrite Hz in Hm.
  destruct (sign_of (ToInteger d)); lia.
Qed.

(** Comparisons with a safe integer. *)
Lemma double_lt_small_l n d : small n -> IsNaN d = false -> double_lt (dbl n) d = (n * 2 ^ 1074 <? scaled d).
Proof. intros Hn Hd. unfold double_lt. by rewrite dbl_not_nan, Hd, dbl_scaled by done. Qed.

Lemma double_lt_small_r n d : small n -> IsNaN d = false -> double_lt d (dbl n) = (scaled d <? n * 2 ^ 1074).
Proof. intros Hn Hd. unfold double_lt. by rewrite dbl_not_nan, Hd, dbl_scaled by done. Qed.

Lemma double_le_scaled a b : double_le a b = true -> scaled a <= scaled b.
Proof. unfold double_le. intros H. bsplit. lia. Qed.

(** Truncation is monotone. *)
Lemma integer_part_bounds d lo hi : lo <= 0 <= hi -> lo * 2 ^ 1074 <= scaled d <= hi * 2 ^ 1074 -> lo <= integer_part d <= hi.
Proof.
  intros H0 H. pose proof unit_pos as Hu. unfold integer_part. pose proof (Z.quot_rem (scaled d) (2 ^ 1074) ltac:(lia)) as Hq.
  pose proof (Z.rem_bound_abs (scaled d) (2 ^ 1074) ltac:(lia)) as Hr. pose proof (Z.rem_sign_mul (scaled d) (2 ^ 1074) ltac:(lia)) as Hs.
  set (q := Z.quot _ _) in *. set (r := Z.rem _ _) in *. set (x := scaled d) in *. clearbody q r x. rewrite (Z.abs_eq (2 ^ 1074)) in Hr by lia.
  generalize dependent (2 ^ 1074). intros u Hx Hu Hq Hr. split; apply Z.le_ngt; intros Hc.
  - assert (u * q <= u * (lo - 1)) by (apply Z.mul_le_mono_nonneg_l; lia). destruct (Z.le_gt_cases x 0); [|lia]. lia.
  - assert (u * (hi + 1) <= u * q) by (apply Z.mul_le_mono_nonneg_l; lia). lia.
Qed.

(** [fabs] *)
Lemma scaled_mod63 d : is_double d -> scaled (d mod 2 ^ 63) = Z.abs (scaled d) /\ IsNaN (d mod 2 ^ 63) = IsNaN d.
Proof.
  intros Hd. assert (E : d mod 2 ^ 63 = assemble false (biased_of d) (fraction_of d)).
  { pose proof (sign_mod63 d Hd) as H1. rewrite (double_split d Hd) in H1 at 1. unfold assemble in *. lia. }
  destruct (assemble_fields false (biased_of d) (fraction_of d)) as (H1 & H2 & H3); [pose proof (biased_bound d); lia|apply fraction_bound|].
  rewrite E. split.
  - unfold scaled, scaled_magnitude. rewrite H1, H2, H3. cbn [signed]. fold (scaled_magnitude d). pose proof (scaled_magnitude_nonneg d). destruct (sign_of d); cbn [signed]; lia.
  - apply eq_true_iff_eq. by rewrite !IsNaN_iff, H2, H3.
Qed.

Lemma dbl_0 : dbl 0 = 0.
Proof. reflexivity. Qed.

(** * Quotients *)

(** An exact quotient is exact. *)
Lemma div_exact a b : small a -> small b -> 0 < b -> a mod b = 0 -> double_div (dbl a) (dbl b) = dbl (a / b).
Proof.
  intros Ha Hb Hpos Hm. destruct (Z.eq_dec a 0) as [->|Ha0]; [rewrite double_div_zero, Z.div_0_l by (done || lia); done|].
  apply Z.div_exact in Hm; [|lia]. set (q := a / b) in *. clearbody q. assert (Hq0 : q <> 0) by (intros ->; lia).
  assert (Hqa : Z.abs a = b * Z.abs q) by (rewrite Hm, Z.abs_mul, (Z.abs_eq b) by lia; done).
  destruct (double_div_fields a b Ha Ha0 Hb Hpos) as (e & j & k & He & Hj & Hej & Hk & Hle & Hk0 & Hs & Hmag & Hf).
  apply whole_small; [apply double_div_double|done| |unfold small in *; nia|done].
  unfold scaled. rewrite Hs, Hmag, Hk, Hqa. replace (b * Z.abs q * 2 ^ j) with (Z.abs q * 2 ^ j * b) by ring. rewrite rne_exact by done.
  replace (2 ^ 1074) with (2 ^ j * 2 ^ e) by (rewrite <- Z.pow_add_r by lia; f_equal; lia). rewrite !Z.mul_assoc.
  destruct (Z.ltb_spec a 0); cbn [signed].
  - rewrite (Z.abs_neq q) by nia. ring.
  - rewrite (Z.abs_eq q) by nia. done.
Qed.

(** Any other is no integer. *)
Lemma div_inexact a b : small a -> small b -> 0 < b -> a mod b <> 0 -> IsFinite (double_div (dbl a) (dbl b)) = true /\ forall n, scaled (double_div (dbl a) (dbl b)) <> n * 2 ^ 1074.
Proof.
  intros Ha Hb Hpos Hm. assert (Ha0 : a <> 0) by (intros ->; by rewrite Z.mod_0_l in Hm by lia).
  destruct (double_div_fields a b Ha Ha0 Hb Hpos) as (e & j & k & He & Hj & Hej & Hk & Hle & Hk0 & Hs & Hmag & Hf). split; [done|].
  intros n. unfold scaled. rewrite Hs, Hmag. replace (2 ^ 1074) with (2 ^ j * 2 ^ e) by (rewrite <- Z.pow_add_r by lia; f_equal; lia).
  destruct (rne_floor (Z.abs a) b j) as (_ & H2 & _); [unfold small in Ha; lia|done..|]. rewrite <- Hk in H2.
  assert (Hna : Z.abs a mod b <> 0).
  { intros E. apply Hm. apply Z.mod_divide in E; [|lia]. apply Z.mod_divide; [lia|]. by apply Z.divide_abs_r. }
  specialize (H2 Hna). assert (Hp : 0 < 2 ^ e) by (apply Z.pow_pos_nonneg; lia). assert (Hp2 : 0 < 2 ^ j) by (apply Z.pow_pos_nonneg; lia). intros E. apply H2.
  rewrite Z.mul_assoc in E. destruct (a <? 0); cbn [signed] in E.
  - rewrite <- Z.mul_opp_l in E. apply Z.mul_cancel_r in E; [|lia]. replace k with (- n * 2 ^ j) by lia. apply Z.mod_mul. lia.
  - apply Z.mul_cancel_r in E; [|lia]. subst k. rewrite E. apply Z.mod_mul. lia.
Qed.
