(* ===== verification/DoubleFixed.v ===== *)
(** Nonnegative doubles as fixed-point numbers: the multiples of 2^-62 below
    2^38, whose sums and small multiples are integer operations followed by
    one rounding to 53 bits. *)
From S2P Require Import Prelude Words CheckedArithmetic FloatingPoint BigIntRep Conversions BigIntDouble DoubleArith DoubleWhole.

(** Rounding to 53 bits. *)
Definition r53 (v : Z) : Z :=
  if v <? 2 ^ 53 then v else let e := Z.log2 v - 52 in rne v (2 ^ e) * 2 ^ e.

(** The nonnegative double [v / 2^62]. *)
Definition fixed (d v : Z) : Prop :=
  is_double d /\ IsFinite d = true /\ sign_of d = false /\ scaled_magnitude d = v * 2 ^ 1012.

Lemma fixed_unit_pos : 0 < 2 ^ 1012.
Proof. by apply Z.pow_pos_nonneg. Qed.

Lemma fixed_small s v q : 0 < v < 2 ^ 53 -> 0 < q ->
  let d := round_ratio s (v * 2 ^ 1012 * q) q in sign_of d = s /\ scaled_magnitude d = v * 2 ^ 1012 /\ IsFinite d = true.
Proof.
  intros Hv Hq. cbv zeta. assert (Hl0 := Z.log2_nonneg v). assert (Hl : Z.log2 v < 53) by (apply Z.log2_lt_pow2; lia).
  pose proof (Z.log2_spec v ltac:(lia)) as Hs. unfold round_ratio. rewrite Z.div_mul, Z.log2_mul_pow2 by lia. set (l := Z.log2 v) in *.
  replace (Z.max 0 (1012 + l - 52)) with (l + 960) by lia.
  assert (E : v * 2 ^ 1012 * q = v * 2 ^ (52 - l) * (q * 2 ^ (l + 960))).
  { replace (2 ^ 1012) with (2 ^ (52 - l) * 2 ^ (l + 960)); [ring|]. rewrite <- Z.pow_add_r by lia. f_equal. lia. }
  rewrite E, rne_exact by (apply Z.mul_pos_pos; [done|apply Z.pow_pos_nonneg; lia]).
  assert (Hb : 2 ^ 52 <= v * 2 ^ (52 - l) < 2 ^ 53).
  { replace (2 ^ 53) with (2 ^ Z.succ l * 2 ^ (52 - l)) by (rewrite <- Z.pow_add_r by lia; f_equal; lia).
    replace (2 ^ 52) with (2 ^ l * 2 ^ (52 - l)) by (rewrite <- Z.pow_add_r by lia; f_equal; lia).
    assert (0 < 2 ^ (52 - l)) by (apply Z.pow_pos_nonneg; lia). split; [apply Z.mul_le_mono_nonneg_r|apply Z.mul_lt_mono_pos_r]; lia. }
  rewrite Z.min_l by lia. destruct (scaled_fields s (l + 960) (v * 2 ^ (52 - l))) as (H1 & H2 & H3); [lia..|].
  split; [done|]. split; [|done]. rewrite H2, <- Z.mul_assoc, <- Z.pow_add_r by lia. do 2 f_equal. lia.
Qed.

Lemma fixed_large s v q : 2 ^ 53 <= v < 2 ^ 100 -> 0 < q ->
  let d := round_ratio s (v * 2 ^ 1012 * q) q in sign_of d = s /\ scaled_magnitude d = r53 v * 2 ^ 1012 /\ IsFinite d = true.
Proof.
  intros Hv Hq. cbv zeta. assert (Hl0 : 53 <= Z.log2 v) by (apply Z.log2_le_pow2; lia). assert (Hl : Z.log2 v < 100) by (apply Z.log2_lt_pow2; lia).
  unfold round_ratio. rewrite Z.div_mul, Z.log2_mul_pow2 by lia. unfold r53. replace (v <? 2 ^ 53) with false by lia. set (l := Z.log2 v) in *.
  replace (Z.max 0 (1012 + l - 52)) with (l - 52 + 1012) by lia.
  assert (E : rne (v * 2 ^ 1012 * q) (q * 2 ^ (l - 52 + 1012)) = rne v (2 ^ (l - 52))).
  { rewrite Z.pow_add_r by lia. pose proof fixed_unit_pos. rewrite <- (rne_cancel v (2 ^ (l - 52)) (q * 2 ^ 1012)).
    - f_equal; ring.
    - apply Z.pow_pos_nonneg; lia.
    - by apply Z.mul_pos_pos. }
  rewrite E. pose proof (rne_log v (l - 52) ltac:(lia) eq_refl ltac:(lia)) as Hr. rewrite Z.min_l by lia.
  destruct (scaled_fields s (l - 52 + 1012) (rne v (2 ^ (l - 52)))) as (H1 & H2 & H3); [lia..|].
  split; [done|]. split; [|done]. rewrite H2, Z.pow_add_r by lia. ring.
Qed.

Lemma fixed_zero : fixed 0 0.
Proof. unfold fixed. split; [apply (dbl_double 0)|]. split_and!; reflexivity. Qed.

Lemma round_fixed v q : 0 <= v < 2 ^ 100 -> 0 < q -> fixed (round_ratio false (v * 2 ^ 1012 * q) q) (r53 v).
Proof.
  intros Hv Hq. pose proof fixed_unit_pos as Hu. destruct (Z.eq_dec v 0) as [->|H0].
  - pose proof (round_ratio_integer false 0 q ltac:(lia) Hq) as E. change (0 * 2 ^ 1074 * q) with 0 in E. change (0 * 2 ^ 1012 * q) with 0. rewrite E. exact fixed_zero.
  - split; [apply round_ratio_double; [|done]; apply Z.mul_nonneg_nonneg; [apply Z.mul_nonneg_nonneg|]; lia|].
    destruct (Z.lt_ge_cases v (2 ^ 53)) as [Hs|Hl].
    + destruct (fixed_small false v q ltac:(lia) Hq) as (H1 & H2 & H3). unfold r53. by replace (v <? 2 ^ 53) with true by lia.
    + destruct (fixed_large false v q ltac:(lia) Hq) as (H1 & H2 & H3). done.
Qed.

Lemma fixed_scaled d v : fixed d v -> scaled d = v * 2 ^ 1012.
Proof. intros (_ & _ & Hs & Hm). unfold scaled. by rewrite Hs, Hm. Qed.

Lemma fixed_mul d v n : fixed d v -> 0 <= n < 2 ^ 53 -> 0 <= v -> n * v < 2 ^ 100 -> fixed (double_mul (dbl n) d) (r53 (n * v)).
Proof.
  intros Hd Hn Hv Hb. destruct Hd as (Hdd & Hf & Hs & Hm). assert (Hsm : small n) by (unfold small; lia). destruct (dbl_fields n Hsm) as (Hns & Hnm & _ & Hnf).
  unfold double_mul. rewrite (finite_not_nan d), (finite_not_infinite d), (dbl_not_nan n), (dbl_not_infinite n), Hs, Hm, Hns, Hnm by done.
  replace (n <? 0) with false by lia. rewrite Z.abs_eq by lia. cbn [orb xorb].
  replace (n * 2 ^ 1074 * (v * 2 ^ 1012)) with (n * v * 2 ^ 1012 * 2 ^ 1074) by ring. apply round_fixed; [split; [apply Z.mul_nonneg_nonneg; lia|done]|apply unit_pos].
Qed.

Lemma fixed_add a b v w : fixed a v -> fixed b w -> 0 <= v -> 0 <= w -> v + w < 2 ^ 100 -> fixed (double_add a b) (r53 (v + w)).
Proof.
  intros Ha Hb Hv Hw Hsum. pose proof (fixed_scaled a v Ha) as Sa. pose proof (fixed_scaled b w Hb) as Sb.
  destruct Ha as (Hda & Hfa & Hsa & Hma), Hb as (Hdb & Hfb & Hsb & Hmb). unfold double_add.
  rewrite (finite_not_nan a), (finite_not_nan b), (finite_not_infinite a), (finite_not_infinite b), Sa, Sb, Hsa, Hsb by done. cbn [orb andb].
  rewrite <- Z.mul_add_distr_r. pose proof fixed_unit_pos as Hu. destruct (Z.eqb_spec ((v + w) * 2 ^ 1012) 0) as [E|E].
  - apply Z.mul_eq_0 in E as [E|E]; [|lia]. rewrite E. exact fixed_zero.
  - unfold round_scaled. assert (0 <= (v + w) * 2 ^ 1012) by (apply Z.mul_nonneg_nonneg; lia). rewrite Z.abs_eq by done.
    replace ((v + w) * 2 ^ 1012 <? 0) with false by lia. rewrite <- (Z.mul_1_r ((v + w) * 2 ^ 1012)). apply round_fixed; lia.
Qed.

(** The truncation of such a double. *)
Lemma fixed_ToInteger d v : fixed d v -> 0 <= v < 2 ^ 100 -> ToInteger d = dbl (v / 2 ^ 62).
Proof.
  intros Hd Hv. pose proof (fixed_scaled d v Hd) as Hs. destruct Hd as (Hdd & Hf & _). assert (E : integer_part d = v / 2 ^ 62).
  { unfold integer_part. rewrite Hs. replace (2 ^ 1074) with (2 ^ 62 * 2 ^ 1012) by (rewrite <- Z.pow_add_r by lia; done).
    pose proof fixed_unit_pos. rewrite Z.quot_mul_cancel_r by lia. apply Z.quot_div_nonneg; lia. }
  rewrite <- E. apply ToInteger_small; [done..|]. rewrite E. unfold small. pose proof (Z.div_pos v (2 ^ 62) ltac:(lia) ltac:(lia)).
  assert (v / 2 ^ 62 < 2 ^ 38) by (apply Z.div_lt_upper_bound; lia). lia.
Qed.

Lemma r53_bounds v : 0 <= v -> 0 <= r53 v <= 2 * v.
Proof.
  intros Hv. unfold r53. destruct (Z.ltb_spec v (2 ^ 53)); [lia|]. assert (Hl : 53 <= Z.log2 v) by (apply Z.log2_le_pow2; lia).
  set (e := Z.log2 v - 52). assert (Hp : 0 < 2 ^ e) by (apply Z.pow_pos_nonneg; lia). pose proof (rne_bounds v (2 ^ e) Hp) as Hb.
  assert (He : 2 ^ e <= v). { transitivity (2 ^ Z.log2 v); [apply Z.pow_le_mono_r; lia|by apply Z.log2_spec; lia]. }
  pose proof (rne_nonneg v (2 ^ e) Hv Hp) as Hr. rewrite (Z.mul_comm (rne v (2 ^ e))). split; [apply Z.mul_nonneg_nonneg; lia|lia].
Qed.

(** * Tenths *)

(** The double nearest to 0.1 and its powers, in 2^-62. *)
Definition tenth : Z := 461168601842738816.
Definition hundredth : Z := 46116860184273888.
Definition thousandth : Z := 4611686018427389.

Lemma tenths_eq : let t := double_div (dbl 1) (dbl 10) in
  t = 4591870180066957722 /\ double_mul t t = 4576918229304087676 /\ double_mul (double_mul t t) t = 4562254508917369341.
Proof.
  assert (E1 : double_div (dbl 1) (dbl 10) = 4591870180066957722) by (vm_compute; reflexivity).
  assert (E2 : double_mul 4591870180066957722 4591870180066957722 = 4576918229304087676) by (vm_compute; reflexivity).
  assert (E3 : double_mul 4576918229304087676 4591870180066957722 = 4562254508917369341) by (vm_compute; reflexivity).
  intros t. unfold t. clear t. rewrite E1. clear E1. split; [reflexivity|]. split; [exact E2|].
  exact (eq_trans (f_equal (fun x => double_mul x 4591870180066957722) E2) E3).
Qed.

Definition literal (d v : Z) : bool :=
  (0 <=? d) && (d <? 2 ^ 64) && IsFinite d && negb (sign_of d) && (scaled_magnitude d =? v * 2 ^ 1012).

Lemma literal_fixed d v : literal d v = true -> fixed d v.
Proof. unfold literal. intros H. bsplit. unfold fixed, is_double. repeat split; (done || lia). Qed.

Lemma tenths_fixed : let t := double_div (dbl 1) (dbl 10) in
  fixed t tenth /\ fixed (double_mul t t) hundredth /\ fixed (double_mul (double_mul t t) t) thousandth.
Proof.
  intros t. destruct tenths_eq as (E1 & E2 & E3). fold t in E1, E2, E3. clearbody t. split_and!.
  - rewrite E1. by apply literal_fixed.
  - apply (eq_ind_r (fun d => fixed d hundredth)) with (2 := E2). by apply literal_fixed.
  - apply (eq_ind_r (fun d => fixed d thousandth)) with (2 := E3). by apply literal_fixed.
Qed.

Lemma digit_multiple a t : 0 <= a < 10 -> 0 < t < 2 ^ 60 -> 0 <= a * t < 2 ^ 64.
Proof. intros Ha Ht. split; [apply Z.mul_nonneg_nonneg; lia|]. apply Z.le_lt_trans with (9 * t); [apply Z.mul_le_mono_nonneg_r; lia|lia]. Qed.

(** The sum of the digits of a three-digit decimal fraction, a thousand times
    larger, never falls below the number of thousandths. *)
Definition fraction1 (a : Z) : Z := r53 (0 + r53 (a * tenth)).
Definition fraction2 (s b : Z) : Z := r53 (s + r53 (b * hundredth)).
Definition fraction3 (s c : Z) : Z := r53 (s + r53 (c * thousandth)).

Definition ten : list Z := [0; 1; 2; 3; 4; 5; 6; 7; 8; 9].

Lemma fractions_exact :
  forallb (fun a => let s := fraction1 a in forallb (fun b => let s := fraction2 s b in
    forallb (fun c => r53 (1000 * fraction3 s c) / 2 ^ 62 =? 100 * a + 10 * b + c) ten) ten) ten = true.
Proof. vm_compute. reflexivity. Qed.

Lemma in_ten d : 0 <= d < 10 -> In d ten.
Proof. intros H. assert (d = 0 \/ d = 1 \/ d = 2 \/ d = 3 \/ d = 4 \/ d = 5 \/ d = 6 \/ d = 7 \/ d = 8 \/ d = 9) as Hd by lia. unfold ten. cbn [In]. lia. Qed.

Lemma fraction_exact a b c : 0 <= a < 10 -> 0 <= b < 10 -> 0 <= c < 10 ->
  r53 (1000 * fraction3 (fraction2 (fraction1 a) b) c) / 2 ^ 62 = 100 * a + 10 * b + c.
Proof.
  intros Ha Hb Hc. pose proof fractions_exact as H. rewrite forallb_forall in H. specialize (H a (in_ten a Ha)). cbv zeta in H.
  rewrite forallb_forall in H. specialize (H b (in_ten b Hb)). rewrite forallb_forall in H. specialize (H c (in_ten c Hc)). by apply Z.eqb_eq.
Qed.

(** The loop of the parser on three digits. *)
Lemma fraction_fixed a b c : 0 <= a < 10 -> 0 <= b < 10 -> 0 <= c < 10 ->
  let t := double_div (dbl 1) (dbl 10) in
  let d := double_add (double_add (double_add (dbl 0) (double_mul (dbl a) t)) (double_mul (dbl b) (double_mul t t)))
             (double_mul (dbl c) (double_mul (double_mul t t) t)) in
  IsFinite (double_mul d (dbl 1000)) = true /\ ToInteger (double_mul d (dbl 1000)) = dbl (100 * a + 10 * b + c).
Proof.
  intros Ha Hb Hc t d. destruct tenths_fixed as (T1 & T2 & T3). fold t in T1, T2, T3.
  pose proof (digit_multiple a tenth Ha ltac:(done)). pose proof (digit_multiple b hundredth Hb ltac:(done)). pose proof (digit_multiple c thousandth Hc ltac:(done)).
  pose proof (fixed_mul t tenth a T1 ltac:(lia) ltac:(done) ltac:(lia)) as M1.
  pose proof (fixed_mul (double_mul t t) hundredth b T2 ltac:(lia) ltac:(done) ltac:(lia)) as M2.
  pose proof (fixed_mul (double_mul (double_mul t t) t) thousandth c T3 ltac:(lia) ltac:(done) ltac:(lia)) as M3.
  pose proof (r53_bounds (a * tenth) ltac:(lia)) as B1. pose proof (r53_bounds (b * hundredth) ltac:(lia)) as B2. pose proof (r53_bounds (c * thousandth) ltac:(lia)) as B3.
  assert (S1 : fixed (double_add (dbl 0) (double_mul (dbl a) t)) (fraction1 a)) by (apply fixed_add; [exact fixed_zero|done|lia..]).
  pose proof (r53_bounds (0 + r53 (a * tenth)) ltac:(lia)) as C1. fold (fraction1 a) in C1.
  pose proof (fixed_add _ _ _ _ S1 M2 ltac:(lia) ltac:(lia) ltac:(lia)) as S2. fold (fraction2 (fraction1 a) b) in S2.
  pose proof (r53_bounds (fraction1 a + r53 (b * hundredth)) ltac:(lia)) as C2. fold (fraction2 (fraction1 a) b) in C2.
  pose proof (fixed_add _ _ _ _ S2 M3 ltac:(lia) ltac:(lia) ltac:(lia)) as S3. fold (fraction3 (fraction2 (fraction1 a) b) c) in S3. fold d in S3.
  pose proof (r53_bounds (fraction2 (fraction1 a) b + r53 (c * thousandth)) ltac:(lia)) as C3. fold (fraction3 (fraction2 (fraction1 a) b) c) in C3.
  pose proof (fixed_mul d _ 1000 S3 ltac:(lia) ltac:(lia) ltac:(lia)) as S4. rewrite double_mul_comm in S4. split; [apply S4|].
  pose proof (r53_bounds (1000 * fraction3 (fraction2 (fraction1 a) b) c) ltac:(lia)).
  rewrite (fixed_ToInteger _ _ S4) by lia. f_equal. by apply fraction_exact.
Qed.
