(* ===== verification/DoubleOrder.v ===== *)
(** Rounding keeps order: a correctly rounded quotient stays on its side of
    every number that a double represents.  An infinity counts as 2^1024. *)
From S2P Require Import Prelude Words CheckedArithmetic FloatingPoint BigIntRep Conversions BigIntDouble DoubleArith DoubleWhole.

#[local] Abbreviation U := (2 ^ 1074).
#[local] Abbreviation top := (2 ^ 2098).

(** The magnitudes that doubles have, in units of 2^-1074. *)
Definition representable (v : Z) : Prop := exists m f, v = m * 2 ^ f /\ 0 <= m < 2 ^ 53 /\ 0 <= f /\ v <= top.

Lemma top_split : top = 2 ^ 53 * 2 ^ 2045.
Proof. rewrite <- Z.pow_add_r by lia. reflexivity. Qed.

Lemma pow_pos e : 0 <= e -> 0 < 2 ^ e.
Proof. intros. apply Z.pow_pos_nonneg; lia. Qed.

(** What [assemble] makes of a rounded magnitude. *)
Lemma assemble_rounded s e k : 0 <= e -> 0 <= k <= 2 ^ 53 -> (0 < e -> 2 ^ 52 <= k) ->
  let d := assemble s 0 (Z.min (e * 2 ^ 52 + k) (2047 * 2 ^ 52)) in
  sign_of d = s /\ scaled_magnitude d = Z.min (k * 2 ^ e) top /\ IsNaN d = false /\ is_double d.
Proof.
  intros He Hk Hke d. pose proof top_split as Htop. assert (Hinf : 2047 * 2 ^ 52 <= e * 2 ^ 52 + k -> sign_of d = s /\ scaled_magnitude d = top /\ IsNaN d = false /\ is_double d).
  { intros Hc. unfold d. rewrite Z.min_r by done. replace (assemble s 0 (2047 * 2 ^ 52)) with (signed_infinity s) by (by destruct s).
    assert (Hb : 2047 * 2 ^ 52 + 0 = 2047 * 2 ^ 52) by lia. split_and!; [by destruct s| |by destruct s|apply signed_infinity_double].
    replace (scaled_magnitude (signed_infinity s)) with (2 ^ 52 * 2 ^ 2046) by (by destruct s). rewrite <- Z.pow_add_r by lia. reflexivity. }
  destruct (Z.le_gt_cases (2047 * 2 ^ 52) (e * 2 ^ 52 + k)) as [Hc|Hc].
  - destruct (Hinf Hc) as (H1 & H2 & H3 & H4). split; [done|]. split; [|done]. rewrite H2. symmetry. apply Z.min_r. rewrite Htop.
    assert (He2 : 2045 <= e) by lia. destruct (Z.eq_dec e 2045) as [->|]; [assert (k = 2 ^ 53) as -> by lia; done|].
    assert (Hm : 2 ^ 2046 <= 2 ^ e) by (apply Z.pow_le_mono_r; lia). replace (2 ^ 53 * 2 ^ 2045) with (2 ^ 52 * 2 ^ 2046) by (rewrite <- !Z.pow_add_r by lia; reflexivity).
    pose proof (pow_pos 2046 ltac:(lia)). apply Z.mul_le_mono_nonneg; lia.
  - assert (Hd : d = assemble s 0 (e * 2 ^ 52 + k)) by (unfold d; by rewrite Z.min_l by lia). clear Hinf. rewrite Hd. clear Hd d.
    assert (Hmin : k * 2 ^ e <= top).
    { rewrite Htop. destruct (Z.le_gt_cases e 2045) as [Hle|Hgt]; [|lia]. assert (2 ^ e <= 2 ^ 2045) by (apply Z.pow_le_mono_r; lia). pose proof (pow_pos e He). apply Z.mul_le_mono_nonneg; lia. }
    rewrite Z.min_l by done. destruct (Z.le_gt_cases (2 ^ 52) k) as [H52|H52].
    + assert (Hf : let d := assemble s 0 (e * 2 ^ 52 + k) in sign_of d = s /\ scaled_magnitude d = k * 2 ^ e /\ IsFinite d = true).
      { destruct (Z.le_gt_cases e 2044) as [Hle|Hgt]; [apply scaled_fields; lia|apply scaled_fields_lt; lia]. }
      destruct Hf as (H1 & H2 & H3). split_and!; [done..|by apply finite_not_nan|]. unfold assemble, is_double. destruct s; lia.
    + assert (e = 0) as -> by lia. change (0 * 2 ^ 52) with 0. rewrite Z.add_0_l, Z.pow_0_r, Z.mul_1_r.
      destruct (assemble_fields s 0 k) as (H1 & H2 & H3); [lia..|]. split; [done|]. split; [|split; [|apply assemble_double; lia]].
      * unfold scaled_magnitude. by rewrite H2, H3.
      * apply finite_not_nan, IsFinite_iff. lia.
Qed.

Lemma rne_range p q : 0 <= p -> 0 < q -> let e := Z.max 0 (Z.log2 (p / q) - 52) in
  0 <= rne p (q * 2 ^ e) <= 2 ^ 53 /\ (0 < e -> 2 ^ 52 <= rne p (q * 2 ^ e)).
Proof.
  intros Hp Hq e. assert (He0 : 0 <= e) by lia. pose proof (pow_pos e He0) as Hpe. assert (Hqe : 0 < q * 2 ^ e) by (by apply Z.mul_pos_pos).
  pose proof (Z.div_pos p q Hp Hq) as Hd0. assert (Hhi : p / q < 2 ^ 53 * 2 ^ e).
  { destruct (Z.eq_dec (p / q) 0) as [->|Hnz]; [apply Z.mul_pos_pos; lia|]. rewrite <- Z.pow_add_r by lia. apply Z.log2_lt_pow2; lia. }
  pose proof (Z.div_mod p q ltac:(lia)) as Hdm. pose proof (Z.mod_pos_bound p q Hq) as Hr. pose proof (rne_bounds p (q * 2 ^ e) Hqe) as Hb.
  pose proof (rne_nonneg p (q * 2 ^ e) Hp Hqe) as Hn. set (k := rne p (q * 2 ^ e)) in *. clearbody k. set (w := p / q) in *.
  assert (Hplt : p < q * (2 ^ 53 * 2 ^ e)). { assert (q * (w + 1) <= q * (2 ^ 53 * 2 ^ e)) by (apply Z.mul_le_mono_nonneg_l; lia). lia. }
  split; [split; [done|]|].
  - apply Z.le_ngt. intros Hc. assert (q * 2 ^ e * (2 ^ 53 + 1) <= q * 2 ^ e * k) by (apply Z.mul_le_mono_nonneg_l; lia). lia.
  - intros Hpos. assert (Hlo : 2 ^ 52 * 2 ^ e <= w). { rewrite <- Z.pow_add_r by lia. replace (52 + e) with (Z.log2 w) by lia. apply Z.log2_spec. destruct (Z.eq_dec w 0) as [E|E]; [|lia]. exfalso. revert Hpos. unfold e. rewrite E. cbn. lia. }
    assert (q * (2 ^ 52 * 2 ^ e) <= q * w) by (apply Z.mul_le_mono_nonneg_l; lia). apply Z.le_ngt. intros Hc.
    assert (q * 2 ^ e * k <= q * 2 ^ e * (2 ^ 52 - 1)) by (apply Z.mul_le_mono_nonneg_l; lia). lia.
Qed.

Lemma round_ratio_fields s p q : 0 <= p -> 0 < q -> let d := round_ratio s p q in
  let e := Z.max 0 (Z.log2 (p / q) - 52) in
  sign_of d = s /\ scaled_magnitude d = Z.min (rne p (q * 2 ^ e) * 2 ^ e) top /\ IsNaN d = false /\ is_double d.
Proof. intros Hp Hq d e. destruct (rne_range p q Hp Hq) as [H1 H2]. fold e in H1, H2. unfold d, round_ratio. fold e. apply assemble_rounded; [lia|done|done]. Qed.

(** A multiple of the last bit of the result, or a number below it. *)
Lemma representable_cases v p q : representable v -> 0 <= p -> 0 < q -> let e := Z.max 0 (Z.log2 (p / q) - 52) in
  (exists n, v = n * 2 ^ e) \/ (v < 2 ^ 52 * 2 ^ e /\ v * q < p /\ 0 < e).
Proof.
  intros (m & f & -> & Hm & Hf & _) Hp Hq e. destruct (Z.le_gt_cases e f) as [Hle|Hgt].
  { left. exists (m * 2 ^ (f - e)). rewrite <- Z.mul_assoc, <- Z.pow_add_r by lia. do 2 f_equal. lia. }
  right. assert (Hlo : 2 ^ 52 * 2 ^ e <= p / q).
  { rewrite <- Z.pow_add_r by lia. replace (52 + e) with (Z.log2 (p / q)) by lia. apply Z.log2_spec. assert (p / q <> 0) by (intros E; unfold e in *; rewrite E in *; cbn in *; lia). pose proof (Z.div_pos p q Hp Hq). lia. }
  assert (Hv : m * 2 ^ f < 2 ^ 52 * 2 ^ e).
  { apply Z.lt_le_trans with (2 ^ 53 * 2 ^ f); [apply Z.mul_lt_mono_pos_r; [by apply pow_pos|lia]|]. replace (2 ^ 52 * 2 ^ e) with (2 ^ 53 * 2 ^ (e - 1)) by (rewrite <- !Z.pow_add_r by lia; f_equal; lia).
    apply Z.mul_le_mono_nonneg_l; [lia|]. apply Z.pow_le_mono_r; lia. }
  split; [done|]. split; [|lia]. pose proof (Z.div_mod p q ltac:(lia)). pose proof (Z.mod_pos_bound p q Hq). rewrite (Z.mul_comm _ q).
  assert (q * (m * 2 ^ f) < q * (p / q)) by (apply Z.mul_lt_mono_pos_l; lia). lia.
Qed.

Lemma round_ratio_le s p q v : 0 <= p -> 0 < q -> representable v -> p <= v * q -> scaled_magnitude (round_ratio s p q) <= v.
Proof.
  intros Hp Hq Hv Hle. destruct (round_ratio_fields s p q Hp Hq) as (_ & -> & _). destruct (representable_cases v p q Hv Hp Hq) as [[n ->]|(_ & H & _)]; [|lia].
  set (e := Z.max 0 _) in *. assert (He : 0 <= e) by lia. clearbody e. pose proof (pow_pos e He). apply Z.le_trans with (1 := Z.le_min_l _ _). apply Z.mul_le_mono_nonneg_r; [lia|].
  assert (Hqe : 0 < q * 2 ^ e) by (by apply Z.mul_pos_pos). pose proof (rne_bounds p (q * 2 ^ e) Hqe) as Hb. apply Z.le_ngt. intros Hc.
  assert (q * 2 ^ e * (n + 1) <= q * 2 ^ e * rne p (q * 2 ^ e)) by (apply Z.mul_le_mono_nonneg_l; lia). lia.
Qed.

Lemma round_ratio_ge s p q v : 0 <= p -> 0 < q -> representable v -> v * q <= p -> v <= scaled_magnitude (round_ratio s p q).
Proof.
  intros Hp Hq Hv Hle. destruct (round_ratio_fields s p q Hp Hq) as (_ & -> & _). assert (Htop : v <= top) by (by destruct Hv as (? & ? & ? & ? & ? & ?)).
  apply Z.min_glb; [|done]. destruct (representable_cases v p q Hv Hp Hq) as [[n ->]|(H & _ & He0)].
  - set (e := Z.max 0 _) in *. assert (He : 0 <= e) by lia. clearbody e. pose proof (pow_pos e He). apply Z.mul_le_mono_nonneg_r; [lia|].
    assert (Hqe : 0 < q * 2 ^ e) by (by apply Z.mul_pos_pos). pose proof (rne_bounds p (q * 2 ^ e) Hqe) as Hb. apply Z.le_ngt. intros Hc.
    assert (q * 2 ^ e * rne p (q * 2 ^ e) <= q * 2 ^ e * (n - 1)) by (apply Z.mul_le_mono_nonneg_l; lia). lia.
  - destruct (rne_range p q Hp Hq) as [_ Hk]. specialize (Hk He0). set (e := Z.max 0 _) in *. assert (He : 0 <= e) by lia. clearbody e. pose proof (pow_pos e He).
    apply Z.lt_le_incl, Z.lt_le_trans with (1 := H). apply Z.mul_le_mono_nonneg_r; lia.
Qed.

(** Common factors. *)
Lemma round_ratio_cancel s p q c : 0 < q -> 0 < c -> round_ratio s (p * c) (q * c) = round_ratio s p q.
Proof.
  intros Hq Hc. unfold round_ratio. rewrite Z.div_mul_cancel_r by lia. set (e := Z.max 0 _). assert (0 <= e) by lia. pose proof (pow_pos e ltac:(lia)).
  replace (q * c * 2 ^ e) with (q * 2 ^ e * c) by ring. rewrite rne_cancel; [done|by apply Z.mul_pos_pos|done].
Qed.

(** ** Signed numbers *)

Lemma representable_integer n : 0 <= n < 2 ^ 53 -> representable (n * U).
Proof.
  intros Hn. exists n, 1074. split_and!; [done|lia|lia|lia|]. rewrite top_split. assert (2 ^ 1074 <= 2 ^ 2045) by (apply Z.pow_le_mono_r; lia). pose proof unit_pos. apply Z.mul_le_mono_nonneg; lia.
Qed.

Lemma representable_below j : 0 <= j <= 2045 -> representable ((2 ^ 53 - 1) * 2 ^ j).
Proof.
  intros Hj. exists (2 ^ 53 - 1), j. split_and!; [done|lia|lia|lia|]. rewrite top_split. assert (2 ^ j <= 2 ^ 2045) by (apply Z.pow_le_mono_r; lia). pose proof (pow_pos j ltac:(lia)). apply Z.mul_le_mono_nonneg; lia.
Qed.

(** [d] is [P / q] units, rounded. *)
Record rounded (P q d : Z) : Prop := {
  rounded_double : is_double d;
  rounded_number : IsNaN d = false;
  rounded_le : forall n, small n -> P <= n * U * q -> scaled d <= n * U;
  rounded_ge : forall n, small n -> n * U * q <= P -> n * U <= scaled d;
  rounded_below : forall j, 0 <= j <= 2045 -> Z.abs P <= (2 ^ 53 - 1) * 2 ^ j * q -> Z.abs (scaled d) <= (2 ^ 53 - 1) * 2 ^ j;
  rounded_integral : forall n, P = n * U * q -> exists m, scaled d = m * U;
}.

Lemma round_ratio_integral s n q : 0 <= n -> 0 < q -> exists m, scaled_magnitude (round_ratio s (n * U * q) q) = m * U.
Proof.
  intros Hn Hq. replace (round_ratio s (n * U * q) q) with (round_ratio s (n * U) 1).
  2:{ rewrite <- (round_ratio_cancel s (n * U) 1 q) by lia. f_equal; ring. }
  destruct (round_ratio_fields s (n * U) 1) as (_ & -> & _); [pose proof unit_pos; apply Z.mul_nonneg_nonneg; lia|lia|]. rewrite Z.div_1_r, Z.mul_1_l.
  assert (Htop : top = 2 ^ 1024 * U) by (rewrite <- Z.pow_add_r by lia; reflexivity).
  destruct (Z.min_dec (rne (n * U) (2 ^ Z.max 0 (Z.log2 (n * U) - 52)) * 2 ^ Z.max 0 (Z.log2 (n * U) - 52)) top) as [-> | ->]; [|by exists (2 ^ 1024)].
  destruct (Z.eq_dec n 0) as [->|Hn0]; [exists 0; reflexivity|]. rewrite Z.log2_mul_pow2 by lia. pose proof (Z.log2_nonneg n).
  destruct (Z.le_gt_cases (Z.log2 n) 52) as [Hs|Hl].
  - replace (Z.max 0 _) with (1022 + Z.log2 n) by lia. set (l := Z.log2 n) in *.
    assert (E : n * U = n * 2 ^ (52 - l) * 2 ^ (1022 + l)) by (rewrite <- Z.mul_assoc, <- Z.pow_add_r by lia; do 2 f_equal; lia).
    exists n. assert (Hr : rne (n * U) (2 ^ (1022 + l)) = n * 2 ^ (52 - l)) by (rewrite E; apply rne_exact, pow_pos; lia). by rewrite Hr.
  - replace (Z.max 0 _) with (Z.log2 n - 52 + 1074) by lia. rewrite Z.pow_add_r by lia. eexists. by rewrite Z.mul_assoc.
Qed.

Lemma round_ratio_rounded s p q P : 0 <= p -> 0 < q -> P = signed s p -> rounded P q (round_ratio s p q).
Proof.
  intros Hp Hq HP. destruct (round_ratio_fields s p q Hp Hq) as (Hs & _ & Hnan & Hd). pose proof (scaled_magnitude_nonneg (round_ratio s p q)) as Hm. pose proof unit_pos as Hu.
  assert (Habs : Z.abs P = p) by (subst P; destruct s; cbn [signed]; lia).
  split; [done|done|..]; unfold scaled; rewrite Hs.
  - intros n Hn H. unfold small in Hn. destruct s; cbn [signed] in *; subst P.
    + destruct (Z.le_gt_cases 0 n); [assert (0 <= n * U) by (apply Z.mul_nonneg_nonneg; lia); lia|].
      assert (- n * U <= scaled_magnitude (round_ratio true p q)); [|lia]. apply round_ratio_ge; [done..|apply representable_integer; lia|lia].
    + destruct (Z.le_gt_cases 0 n); [apply round_ratio_le; [done..|apply representable_integer; lia|lia]|].
      assert (0 < - n * U * q) by (repeat apply Z.mul_pos_pos; lia). lia.
  - intros n Hn H. unfold small in Hn. destruct s; cbn [signed] in *; subst P.
    + destruct (Z.le_gt_cases n 0); [|assert (0 < n * U * q) by (repeat apply Z.mul_pos_pos; lia); lia].
      assert (scaled_magnitude (round_ratio true p q) <= - n * U); [|lia]. apply round_ratio_le; [done..|apply representable_integer; lia|lia].
    + destruct (Z.le_gt_cases n 0); [assert (n * U <= 0) by (apply Z.mul_nonpos_nonneg; lia); lia|]. apply round_ratio_ge; [done..|apply representable_integer; lia|lia].
  - intros j Hj H. rewrite Habs in H. assert (E : Z.abs (signed s (scaled_magnitude (round_ratio s p q))) = scaled_magnitude (round_ratio s p q)) by (destruct s; cbn [signed]; lia).
    rewrite E. apply round_ratio_le; [done..|by apply representable_below|done].
  - intros n H. assert (Hpn : p = Z.abs n * U * q). { rewrite <- Habs, H, !Z.abs_mul, (Z.abs_eq q), (Z.abs_eq U) by lia. done. }
    rewrite Hpn. destruct (round_ratio_integral s (Z.abs n) q ltac:(lia) Hq) as [m ->]. exists (signed s m). destruct s; cbn [signed]; ring.
Qed.

(** * The sign bit *)

Lemma double_neg_eq d : is_double d -> double_neg d = (if sign_of d then 0 else 2 ^ 63) + d mod 2 ^ 63.
Proof.
  intros Hd. pose proof (sign_mod63 d Hd) as E. pose proof (Z.mod_pos_bound d (2 ^ 63) ltac:(lia)) as Hm. rewrite E at 1. unfold double_neg. change kSignBit with (2 ^ 63).
  set (m := d mod 2 ^ 63) in *. clearbody m. assert (Hx : Z.lxor m (2 ^ 63) = 2 ^ 63 + m).
  { rewrite Z.add_comm. symmetry. apply Z.add_nocarry_lxor. change (2 ^ 63) with (Z.shiftl (2 ^ 1 - 1) 63). rewrite land_field by lia. rewrite Z.div_small by lia. done. }
  destruct (sign_of d).
  - rewrite <- Hx, Z.lxor_assoc, Z.lxor_nilpotent, Z.lxor_0_r. lia.
  - rewrite Z.add_0_l. done.
Qed.

Lemma double_neg_mod63 d : is_double d -> double_neg d mod 2 ^ 63 = d mod 2 ^ 63.
Proof.
  intros Hd. rewrite (double_neg_eq d Hd). pose proof (Z.mod_pos_bound d (2 ^ 63) ltac:(lia)). destruct (sign_of d); [by rewrite Z.add_0_l, Z.mod_mod by lia|].
  rewrite <- Zplus_mod_idemp_l, Z.mod_same, Z.add_0_l by lia. by rewrite Z.mod_mod by lia.
Qed.

Lemma double_neg_parts d : is_double d -> biased_of (double_neg d) = biased_of d /\ fraction_of (double_neg d) = fraction_of d.
Proof. intros Hd. pose proof (double_neg_mod63 d Hd) as E. rewrite !fields63 in E. pose proof (fraction_bound d). pose proof (fraction_bound (double_neg d)). lia. Qed.

Lemma double_neg_finite d : is_double d -> IsFinite (double_neg d) = IsFinite d.
Proof. intros Hd. destruct (double_neg_parts d Hd) as [E _]. apply eq_true_iff_eq. by rewrite !IsFinite_iff, E. Qed.

Lemma double_neg_fields d : is_double d -> scaled (double_neg d) = - scaled d /\ IsNaN (double_neg d) = IsNaN d /\ (double_neg d = kSignBit -> d = 0).
Proof.
  intros Hd. pose proof (double_neg_mod63 d Hd) as E63.
  assert (Hs : sign_of (double_neg d) = negb (sign_of d)).
  { rewrite (double_neg_eq d Hd). pose proof (Z.mod_pos_bound d (2 ^ 63) ltac:(lia)). unfold sign_of at 1. destruct (sign_of d); cbn [negb]; lia. }
  pose proof (double_neg_double d Hd) as Hdn. split_and!.
  - unfold scaled. rewrite Hs. replace (scaled_magnitude (double_neg d)) with (scaled_magnitude d); [destruct (sign_of d); cbn [signed negb]; lia|].
    destruct (double_neg_parts d Hd) as [E1 E2]. unfold scaled_magnitude. by rewrite E1, E2.
  - destruct (scaled_mod63 d Hd) as [_ <-]. destruct (scaled_mod63 (double_neg d) Hdn) as [_ <-]. by rewrite E63.
  - intros E. rewrite E in *. rewrite (sign_mod63 d Hd), <- E63. assert (Hsd : sign_of d = false) by (destruct (sign_of d); done). rewrite Hsd. reflexivity.
Qed.
