(* ===== verification/Dates.v ===== *)
(** The calendar arithmetic of Date (js/src/jsdate.cpp, js/public/Date.h): time
    values, years, months and days as doubles.  An [int] is a [Z]: the ones
    that are computed stay within a few hundred, but for the casts and sums
    where the width is written out. *)
From S2P Require Import Prelude Words CheckedArithmetic FloatingPoint BigIntRep Conversions BigIntDouble DoubleArith.

(** * The model *)

Definition HoursPerDay : Z := dbl 24.
Definition MinutesPerHour : Z := dbl 60.
Definition SecondsPerMinute : Z := dbl 60.
Definition msPerSecond : Z := dbl 1000.
Definition msPerMinute : Z := double_mul msPerSecond SecondsPerMinute.
Definition msPerHour : Z := double_mul msPerMinute MinutesPerHour.
Definition msPerDay : Z := double_mul msPerHour HoursPerDay.
Definition StartOfTime : Z := dbl (- 8640000000000000).
Definition EndOfTime : Z := dbl 8640000000000000.

(** The literal [365.2425]. *)
Definition MeanDaysPerYear : Z := double_div (dbl 3652425) (dbl 10000).

Definition PositiveModulo (dividend divisor : Z) : M Z :=
  moz_assert (double_lt (dbl 0) divisor);;
  moz_assert (IsFinite divisor);;
  let result := double_fmod dividend divisor in
  let result := if double_lt result (dbl 0) then double_add result divisor else result in
  mret (double_add result (dbl 0)).

Definition Day (t : Z) : Z := double_floor (double_div t msPerDay).

Definition TimeWithinDay (t : Z) : M Z := PositiveModulo t msPerDay.

Definition IsLeapYear (year : Z) : M bool :=
  moz_assert (double_eq (ToInteger year) year);;
  mret (double_eq (double_fmod year (dbl 4)) (dbl 0) &&
        (negb (double_eq (double_fmod year (dbl 100)) (dbl 0)) || double_eq (double_fmod year (dbl 400)) (dbl 0))).

Definition DaysInYear (year : Z) : M Z :=
  if negb (IsFinite year) then mret GenericNaN
  else leap ← IsLeapYear year; mret (if leap : bool then dbl 366 else dbl 365).

Definition DayFromYear (y : Z) : Z :=
  double_add
    (double_sub
       (double_add (double_mul (dbl 365) (double_sub y (dbl 1970)))
                   (double_floor (double_div (double_sub y (dbl 1969)) (dbl 4))))
       (double_floor (double_div (double_sub y (dbl 1901)) (dbl 100))))
    (double_floor (double_div (double_sub y (dbl 1601)) (dbl 400))).

Definition TimeFromYear (y : Z) : Z := double_mul (DayFromYear y) msPerDay.

Definition YearFromTime (t : Z) : M Z :=
  if negb (IsFinite t) then mret GenericNaN
  else
    moz_assert (double_eq (ToInteger t) t);;
    let y := double_add (double_floor (double_div t (double_mul msPerDay MeanDaysPerYear))) (dbl 1970) in
    let t2 := TimeFromYear y in
    if double_lt t t2 then mret (double_sub y (dbl 1))
    else
      days ← DaysInYear y;
      if double_le (double_add t2 (double_mul msPerDay days)) t then mret (double_add y (dbl 1)) else mret y.

Definition DaysInFebruary (year : Z) : M Z :=
  leap ← IsLeapYear year; mret (if leap : bool then 29 else 28).

Definition DayWithinYear (t year : Z) : M Z :=
  (if IsFinite t then y ← YearFromTime t; moz_assert (double_eq y year) else mret tt);;
  mret (double_sub (Day t) (DayFromYear year)).

(** [step += DaysInFebruary(year)] is evaluated in the second test only. *)
Definition MonthFromTime (t : Z) : M Z :=
  if negb (IsFinite t) then mret GenericNaN
  else
    year ← YearFromTime t;
    d ← DayWithinYear t year;
    let step := 31 in
    if double_lt d (dbl step) then mret (dbl 0) else
    feb ← DaysInFebruary year;
    let step := step + feb in
    if double_lt d (dbl step) then mret (dbl 1) else
    let step := step + 31 in
    if double_lt d (dbl step) then mret (dbl 2) else
    let step := step + 30 in
    if double_lt d (dbl step) then mret (dbl 3) else
    let step := step + 31 in
    if double_lt d (dbl step) then mret (dbl 4) else
    let step := step + 30 in
    if double_lt d (dbl step) then mret (dbl 5) else
    let step := step + 31 in
    if double_lt d (dbl step) then mret (dbl 6) else
    let step := step + 31 in
    if double_lt d (dbl step) then mret (dbl 7) else
    let step := step + 30 in
    if double_lt d (dbl step) then mret (dbl 8) else
    let step := step + 31 in
    if double_lt d (dbl step) then mret (dbl 9) else
    let step := step + 30 in
    if double_lt d (dbl step) then mret (dbl 10) else
    mret (dbl 11).

Definition DateFromTime (t : Z) : M Z :=
  if negb (IsFinite t) then mret GenericNaN
  else
    year ← YearFromTime t;
    d ← DayWithinYear t year;
    let next := 30 in
    if double_le d (dbl next) then mret (double_add d (dbl 1)) else
    let step := next in
    feb ← DaysInFebruary year;
    let next := next + feb in
    if double_le d (dbl next) then mret (double_sub d (dbl step)) else
    let step := next in let next := next + 31 in
    if double_le d (dbl next) then mret (double_sub d (dbl step)) else
    let step := next in let next := next + 30 in
    if double_le d (dbl next) then mret (double_sub d (dbl step)) else
    let step := next in let next := next + 31 in
    if double_le d (dbl next) then mret (double_sub d (dbl step)) else
    let step := next in let next := next + 30 in
    if double_le d (dbl next) then mret (double_sub d (dbl step)) else
    let step := next in let next := next + 31 in
    if double_le d (dbl next) then mret (double_sub d (dbl step)) else
    let step := next in let next := next + 31 in
    if double_le d (dbl next) then mret (double_sub d (dbl step)) else
    let step := next in let next := next + 30 in
    if double_le d (dbl next) then mret (double_sub d (dbl step)) else
    let step := next in let next := next + 31 in
    if double_le d (dbl next) then mret (double_sub d (dbl step)) else
    let step := next in let next := next + 30 in
    if double_le d (dbl next) then mret (double_sub d (dbl step)) else
    let step := next in
    mret (double_sub d (dbl step)).

(** The sum in [int(Day(t)) + 4] may leave the type. *)
Definition int_add (a b : Z) : M Z :=
  if (- 2 ^ 31 <=? a + b) && (a + b <? 2 ^ 31) then mret (a + b) else throw UndefinedBehavior.

Definition WeekDay (t : Z) : M Z :=
  moz_assert (double_eq (ToInteger t) t);;
  d ← double_to_int (Day t);
  s ← int_add d 4;
  let result := Z.rem s 7 in
  mret (if result <? 0 then result + 7 else result).

Definition firstDayOfMonth (isLeapYear : bool) : list Z :=
  if isLeapYear then [0; 31; 60; 91; 121; 152; 182; 213; 244; 274; 305; 335; 366]
  else [0; 31; 59; 90; 120; 151; 181; 212; 243; 273; 304; 334; 365].

Definition DayFromMonth (month : Z) (isLeapYear : bool) : M Z :=
  moz_assert ((0 <=? month) && (month <=? 12));;
  mret (zget (firstDayOfMonth isLeapYear) month).

Definition MakeDay (year month date : Z) : M Z :=
  if negb (IsFinite year) || negb (IsFinite month) || negb (IsFinite date) then mret GenericNaN
  else
    let y := ToInteger year in
    let m := ToInteger month in
    let dt := ToInteger date in
    let ym := double_add y (double_floor (double_div m (dbl 12))) in
    r ← PositiveModulo m (dbl 12);
    mn ← double_to_int r;
    leap ← IsLeapYear ym;
    let yearday := double_floor (double_div (TimeFromYear ym) msPerDay) in
    md ← DayFromMonth mn leap;
    let monthday := dbl md in
    mret (double_sub (double_add (double_add yearday monthday) dt) (dbl 1)).

Definition MakeDate (day time : Z) : Z :=
  if negb (IsFinite day) || negb (IsFinite time) then GenericNaN
  else double_add (double_mul day msPerDay) time.

(** [JS::MakeDate] *)
Definition JS_MakeDate (year month day time : Z) : M Z :=
  moz_assert (month <=? 11);;
  moz_assert ((1 <=? day) && (day <=? 31));;
  d ← MakeDay year (dbl month) (dbl day);
  mret (MakeDate d time).

Definition HourFromTime (t : Z) : M Z := PositiveModulo (double_floor (double_div t msPerHour)) HoursPerDay.
Definition MinFromTime (t : Z) : M Z := PositiveModulo (double_floor (double_div t msPerMinute)) MinutesPerHour.
Definition SecFromTime (t : Z) : M Z := PositiveModulo (double_floor (double_div t msPerSecond)) SecondsPerMinute.
Definition msFromTime (t : Z) : M Z := PositiveModulo t msPerSecond.

Definition MakeTime (hour min sec ms : Z) : Z :=
  if negb (IsFinite hour) || negb (IsFinite min) || negb (IsFinite sec) || negb (IsFinite ms) then GenericNaN
  else
    let h := ToInteger hour in
    let m := ToInteger min in
    let s := ToInteger sec in
    let milli := ToInteger ms in
    double_add (double_add (double_add (double_mul h msPerHour) (double_mul m msPerMinute)) (double_mul s msPerSecond)) milli.

Definition DaysInMonth (year month : Z) : M Z :=
  leap ← IsLeapYear (dbl year);
  a ← DayFromMonth month leap;
  b ← DayFromMonth (month - 1) leap;
  mret (a - b).

(** [mozilla::Abs] and [JS::TimeClip]; the result is the wrapped double. *)
Definition double_abs (d : Z) : Z := d mod 2 ^ 63.
Definition MaxTimeMagnitude : Z := dbl 8640000000000000.
Definition TimeClip (time : Z) : M Z :=
  if negb (IsFinite time) || double_lt MaxTimeMagnitude (double_abs time) then UnspecifiedNaN
  else mret (ToInteger time).

Definition pastYearStartingWith (leap : bool) : list Z :=
  if leap then [1984; 1996; 1980; 1992; 1976; 1988; 1972] else [1978; 1973; 1974; 1975; 1981; 1971; 1977].
Definition futureYearStartingWith (leap : bool) : list Z :=
  if leap then [2012; 2024; 2036; 2020; 2032; 2016; 2028] else [2034; 2035; 2030; 2031; 2037; 2027; 2033].

Definition equivalentYearForDST (year : Z) : M Z :=
  i ← double_to_int (double_add (DayFromYear (dbl year)) (dbl 4));
  let day := Z.rem i 7 in
  let day := if day <? 0 then day + 7 else day in
  leap ← IsLeapYear (dbl year);
  mret (zget ((if year <? 1970 then pastYearStartingWith else futureYearStartingWith) leap) day).
