(* ===== verification/DateCalendar.v ===== *)
(** The calendar as integers, and the functions of Dates.v on integral
    doubles: each returns, without a failed assertion or a cast out of range,
    the double of its integer counterpart. *)
From S2P Require Import Prelude Words CheckedArithmetic FloatingPoint BigIntRep Conversions BigIntDouble DoubleArith DoubleWhole Dates.

(** * The proleptic Gregorian calendar *)

Definition is_leap (y : Z) : bool := (y mod 4 =? 0) && (negb (y mod 100 =? 0) || (y mod 400 =? 0)).
Definition year_length (y : Z) : Z := if is_leap y then 366 else 365.

(** Days from 1970-01-01 to January 1 of year [y]. *)
Definition days_before (y : Z) : Z := 365 * (y - 1970) + (y - 1969) / 4 - (y - 1901) / 100 + (y - 1601) / 400.

Definition day_ms : Z := 86400000.

(** The 1-based lengths of the months, and the days before each. *)
Definition month_length (leap : bool) (m : Z) : Z :=
  if m =? 1 then if leap then 29 else 28 else if (m =? 3) || (m =? 5) || (m =? 8) || (m =? 10) then 30 else 31.
Definition month_start (leap : bool) (m : Z) : Z := zget (firstDayOfMonth leap) m.

Definition year_of (t : Z) : Z :=
  let y := t / 31556952000 + 1970 in
  if t <? days_before y * day_ms then y - 1
  else if (days_before y + year_length y) * day_ms <=? t then y + 1 else y.

Lemma div_step x k : 0 < k -> (x + 1) / k = x / k + (if (x + 1) mod k =? 0 then 1 else 0).
Proof.
  intros Hk. pose proof (Z.div_mod x k ltac:(lia)) as Hd. pose proof (Z.mod_pos_bound x k Hk) as Hr.
  destruct (Z.eq_dec (x mod k) (k - 1)) as [E|E].
  - assert (Hq : x + 1 = (x / k + 1) * k) by lia. rewrite Hq at 2. rewrite Z.mod_mul by lia.
    rewrite Hq, Z.div_mul by lia. done.
  - assert (Hm : (x + 1) mod k = x mod k + 1) by (symmetry; apply (Z.mod_unique _ _ (x / k)); lia).
    rewrite Hm. replace (x mod k + 1 =? 0) with false by lia. symmetry. apply (Z.div_unique _ _ _ (x mod k + 1)); lia.
Qed.

Lemma mod_shift y k c : 0 < k -> c mod k = 0 -> (y - c) mod k = y mod k.
Proof. intros Hk Hc. apply Z.div_exact in Hc; [|lia]. rewrite Hc. replace (y - k * (c / k)) with (y + - (c / k) * k) by ring. apply Z.mod_add. lia. Qed.

Lemma days_before_succ y : days_before (y + 1) = days_before y + year_length y.
Proof.
  unfold days_before, year_length, is_leap. replace (y + 1 - 1969) with (y - 1969 + 1) by lia. replace (y + 1 - 1901) with (y - 1901 + 1) by lia.
  replace (y + 1 - 1601) with (y - 1601 + 1) by lia. rewrite !div_step by lia. replace (y - 1969 + 1) with (y - 1968) by lia.
  replace (y - 1901 + 1) with (y - 1900) by lia. replace (y - 1601 + 1) with (y - 1600) by lia. rewrite !mod_shift by done.
  assert (H1 : y mod 100 = 0 -> y mod 4 = 0).
  { intros H. apply Z.mod_divide in H as [q ->]; [|lia]. replace (q * 100) with (q * 25 * 4) by ring. by apply Z.mod_mul. }
  assert (H4 : y mod 400 = 0 -> y mod 100 = 0).
  { intros H. apply Z.mod_divide in H as [q ->]; [|lia]. replace (q * 400) with (q * 4 * 100) by ring. by apply Z.mod_mul. }
  destruct (Z.eqb_spec (y mod 4) 0), (Z.eqb_spec (y mod 100) 0), (Z.eqb_spec (y mod 400) 0); cbn [andb orb negb]; try lia; exfalso; auto.
Qed.

(** The mean length of the year keeps the calendar within two days. *)
Lemma days_before_mean y : 3652425 * (y - 1970) - 20000 <= 10000 * days_before y <= 3652425 * (y - 1970) + 15000.
Proof.
  unfold days_before. pose proof (Z.div_mod (y - 1969) 4 ltac:(lia)). pose proof (Z.mod_pos_bound (y - 1969) 4 ltac:(lia)).
  pose proof (Z.div_mod (y - 1901) 100 ltac:(lia)). pose proof (Z.mod_pos_bound (y - 1901) 100 ltac:(lia)).
  pose proof (Z.div_mod (y - 1601) 400 ltac:(lia)). pose proof (Z.mod_pos_bound (y - 1601) 400 ltac:(lia)). lia.
Qed.

Lemma year_length_bounds y : 365 <= year_length y <= 366.
Proof. unfold year_length. destruct (is_leap y); lia. Qed.

Lemma year_of_spec t : days_before (year_of t) * day_ms <= t < days_before (year_of t + 1) * day_ms.
Proof.
  unfold year_of, day_ms. pose proof (Z.div_mod t 31556952000 ltac:(lia)) as Hd. pose proof (Z.mod_pos_bound t 31556952000 ltac:(lia)) as Hr.
  set (q := t / 31556952000) in *. set (y := q + 1970). pose proof (days_before_mean (y - 1)) as Hp. pose proof (days_before_mean y) as H0.
  pose proof (days_before_mean (y + 1)) as H1. pose proof (days_before_mean (y + 1 + 1)) as H2. rewrite <- days_before_succ.
  replace (y - 1 + 1) with y by lia. destruct (Z.ltb_spec t (days_before y * 86400000)); replace (y - 1 + 1) with y by lia; [lia|].
  destruct (Z.leb_spec (days_before (y + 1) * 86400000) t); [lia|]. lia.
Qed.

(** The years do not overlap. *)
Lemma days_before_mono y z : y <= z -> days_before y <= days_before z.
Proof.
  intros H. assert (E : z = y + Z.of_nat (Z.to_nat (z - y))) by lia. rewrite E. generalize (Z.to_nat (z - y)). clear. intros n.
  induction n as [|n IH]; [by rewrite Z.add_0_r|]. rewrite Nat2Z.inj_succ, Z.add_succ_r, <- Z.add_1_r, days_before_succ.
  pose proof (year_length_bounds (y + Z.of_nat n)). lia.
Qed.

Lemma year_of_unique t y : days_before y * day_ms <= t < days_before (y + 1) * day_ms -> y = year_of t.
Proof.
  intros H. pose proof (year_of_spec t) as Ht. unfold day_ms in *. destruct (Z.lt_total y (year_of t)) as [Hlt|[?|Hlt]]; [|done|].
  - pose proof (days_before_mono (y + 1) (year_of t) ltac:(lia)). lia.
  - pose proof (days_before_mono (year_of t + 1) y ltac:(lia)). lia.
Qed.

(** * The arithmetic of the engine on integral doubles *)

Lemma assert_true {A} (b : bool) (k : M A) : b = true -> (moz_assert b;; k) = k.
Proof. by intros ->. Qed.

Lemma msPerSecond_eq : msPerSecond = dbl 1000.
Proof. reflexivity. Qed.
Lemma msPerMinute_eq : msPerMinute = dbl 60000.
Proof. by apply (double_mul_dbl 1000 60). Qed.
Lemma msPerHour_eq : msPerHour = dbl 3600000.
Proof. unfold msPerHour. rewrite msPerMinute_eq. by apply (double_mul_dbl 60000 60). Qed.
Lemma msPerDay_eq : msPerDay = dbl day_ms.
Proof. unfold msPerDay. rewrite msPerHour_eq. by apply (double_mul_dbl 3600000 24). Qed.
Lemma msPerYear_eq : double_mul msPerDay MeanDaysPerYear = dbl 31556952000.
Proof. rewrite msPerDay_eq. vm_compute. reflexivity. Qed.
#[global] Opaque dbl double_add double_sub double_mul double_div double_floor double_fmod double_lt double_le double_eq ToInteger
  msPerMinute msPerHour msPerDay MeanDaysPerYear.

Lemma small_abs n : Z.abs n < 2 ^ 53 -> small n.
Proof. done. Qed.

(** The bounds of the intermediate values. *)
Ltac small := first [done | lia | apply small_abs; lia].

Lemma finite_dbl n : small n -> IsFinite (dbl n) = true.
Proof. intros Hn. by apply dbl_fields. Qed.

Lemma integral_dbl n : small n -> double_eq (ToInteger (dbl n)) (dbl n) = true.
Proof. intros Hn. rewrite ToInteger_dbl, double_eq_dbl by done. apply Z.eqb_refl. Qed.

Lemma small_quotient a b : small a -> 0 < b -> small (a / b).
Proof.
  intros Ha Hb. unfold small in *. pose proof (Z.div_mod a b ltac:(lia)). pose proof (Z.mod_pos_bound a b Hb).
  destruct (Z.lt_ge_cases a 0).
  - assert (a / b < 0) by (apply Z.div_lt_upper_bound; lia). assert (a <= a / b); [|lia]. apply Z.div_le_lower_bound; [lia|]. nia.
  - assert (0 <= a / b) by (apply Z.div_pos; lia). assert (a / b <= a) by (apply Z.div_le_upper_bound; [lia|]; nia). lia.
Qed.

Lemma small_mod a b : small b -> 0 < b -> small (a mod b).
Proof. intros Hb Hp. pose proof (Z.mod_pos_bound a b Hp). unfold small in *. lia. Qed.

Lemma rem_zero a b : 0 < b -> (Z.rem a b =? 0) = (a mod b =? 0).
Proof. intros Hb. apply eq_true_iff_eq. rewrite !Z.eqb_eq, Z.rem_divide, Z.mod_divide by lia. done. Qed.

Lemma minus_zero : double_eq (signed_zero true) (dbl 0) = true /\ double_lt (signed_zero true) (dbl 0) = false /\
  double_add (signed_zero true) (dbl 0) = dbl 0 /\ signed_zero false = dbl 0.
Proof. vm_compute. done. Qed.

Lemma fmod_is_zero a b : small a -> small b -> 0 < b -> double_eq (double_fmod (dbl a) (dbl b)) (dbl 0) = (a mod b =? 0).
Proof.
  intros Ha Hb Hp. rewrite double_fmod_dbl, <- rem_zero by done. destruct (Z.eqb_spec (Z.rem a b) 0) as [E|E].
  - destruct (a <? 0); [apply minus_zero|]. rewrite (proj2 (proj2 (proj2 minus_zero))). by apply double_eq_dbl.
  - assert (Z.abs (Z.rem a b) < Z.abs b) by (apply Z.rem_bound_abs; lia).
    rewrite double_eq_dbl by (done || unfold small in *; lia). by apply Z.eqb_neq.
Qed.

(** The modulus of any integer, of the sign of the divisor. *)
Lemma PositiveModulo_whole d a b : IsFinite d = true -> scaled d = a * 2 ^ 1074 -> small b -> 0 < b -> PositiveModulo d (dbl b) = mret (dbl (a mod b)).
Proof.
  intros Hf Ha Hb Hp. unfold PositiveModulo. rewrite double_lt_dbl, finite_dbl by done. rewrite (proj2 (Z.ltb_lt 0 b) Hp), !assert_true by done. f_equal.
  rewrite (double_fmod_whole d a b) by done. pose proof (small_mod a b Hb Hp) as Hm. destruct (Z.eqb_spec (Z.rem a b) 0) as [E|E].
  - assert (Em : a mod b = 0) by (apply Z.rem_divide in E; [by apply Z.mod_divide; [lia|]|lia]). rewrite Em.
    destruct (sign_of d); [by rewrite (proj1 (proj2 minus_zero)); apply minus_zero|]. rewrite (proj2 (proj2 (proj2 minus_zero))).
    rewrite double_lt_dbl by done. by apply double_add_dbl.
  - assert (Hr : Z.abs (Z.rem a b) < Z.abs b) by (apply Z.rem_bound_abs; lia). assert (Hs : small (Z.rem a b)) by (unfold small in *; lia).
    pose proof (Z.mod_pos_bound a b Hp). assert (Em : a mod b = if Z.rem a b <? 0 then Z.rem a b + b else Z.rem a b).
    { pose proof (Z.quot_rem a b ltac:(lia)) as Hq. symmetry. destruct (Z.ltb_spec (Z.rem a b) 0).
      - apply (Z.mod_unique _ _ (Z.quot a b - 1)); lia.
      - apply (Z.mod_unique _ _ (Z.quot a b)); lia. }
    rewrite double_lt_dbl by done. destruct (Z.rem a b <? 0) eqn:Hneg; rewrite <- ?double_add_dbl in Em by (unfold small in *; lia || done).
    + rewrite double_add_dbl by (done || unfold small in *; lia). rewrite <- Em. rewrite double_add_dbl, Z.add_0_r by (done || by rewrite Z.add_0_r). done.
    + rewrite <- Em. rewrite double_add_dbl, Z.add_0_r by (done || by rewrite Z.add_0_r). done.
Qed.

Lemma PositiveModulo_dbl a b : small a -> small b -> 0 < b -> PositiveModulo (dbl a) (dbl b) = mret (dbl (a mod b)).
Proof. intros Ha Hb Hp. apply PositiveModulo_whole; [by apply finite_dbl|by apply dbl_scaled|done|done]. Qed.

Lemma IsLeapYear_dbl y : small y -> IsLeapYear (dbl y) = mret (is_leap y).
Proof.
  intros Hy. unfold IsLeapYear. rewrite integral_dbl, assert_true by done. by rewrite !fmod_is_zero by (done || small).
Qed.

Lemma DaysInYear_dbl y : small y -> DaysInYear (dbl y) = mret (dbl (year_length y)).
Proof. intros Hy. unfold DaysInYear. rewrite finite_dbl, IsLeapYear_dbl, bind_ret by done. cbn [negb]. unfold year_length. by destruct (is_leap y). Qed.

Lemma DaysInFebruary_dbl y : small y -> DaysInFebruary (dbl y) = mret (month_length (is_leap y) 1).
Proof. intros Hy. unfold DaysInFebruary. by rewrite IsLeapYear_dbl, bind_ret by done. Qed.

(** The years whose first instant is a safe integer, with some room. *)
Definition year_bound (y : Z) : Prop := Z.abs y <= 280000.

Lemma days_small y : year_bound y -> Z.abs (days_before y * day_ms) < 2 ^ 53.
Proof. intros Hy. unfold year_bound, day_ms in *. pose proof (days_before_mean y). lia. Qed.

Lemma DayFromYear_dbl y : Z.abs y <= 2 ^ 40 -> DayFromYear (dbl y) = dbl (days_before y).
Proof.
  intros Hy. unfold DayFromYear, days_before. pose proof (Z.div_mod (y - 1969) 4 ltac:(lia)). pose proof (Z.mod_pos_bound (y - 1969) 4 ltac:(lia)).
  pose proof (Z.div_mod (y - 1901) 100 ltac:(lia)). pose proof (Z.mod_pos_bound (y - 1901) 100 ltac:(lia)).
  pose proof (Z.div_mod (y - 1601) 400 ltac:(lia)). pose proof (Z.mod_pos_bound (y - 1601) 400 ltac:(lia)).
  rewrite !double_sub_dbl, !floor_div by small. rewrite double_mul_comm, double_mul_dbl by small.
  rewrite double_add_dbl, double_sub_dbl, double_add_dbl by small. f_equal. lia.
Qed.

Lemma TimeFromYear_dbl y : year_bound y -> TimeFromYear (dbl y) = dbl (days_before y * day_ms).
Proof.
  intros Hy. pose proof (days_small y Hy) as Hs. unfold TimeFromYear, year_bound in *. rewrite DayFromYear_dbl, msPerDay_eq by lia.
  pose proof (days_before_mean y). unfold day_ms in *. by rewrite double_mul_dbl by small.
Qed.

Lemma Day_dbl t : small t -> Day (dbl t) = dbl (t / day_ms).
Proof. intros Ht. unfold Day. rewrite msPerDay_eq. apply floor_div; [done|by apply small_abs|done]. Qed.

(** ** Years *)

(** The time values, with a day on each side for local time. *)
Definition time_bound (t : Z) : Prop := Z.abs t <= 8640000000000000 + day_ms.

Lemma time_small t : time_bound t -> small t.
Proof. unfold time_bound, small, day_ms. lia. Qed.

Lemma year_of_bound t : time_bound t -> Z.abs (year_of t) <= 275800.
Proof.
  intros Ht. pose proof (year_of_spec t) as [H1 H2]. pose proof (days_before_mean (year_of t)). pose proof (days_before_mean (year_of t + 1)).
  unfold time_bound, day_ms in *. lia.
Qed.

Lemma YearFromTime_dbl t : time_bound t -> YearFromTime (dbl t) = mret (dbl (year_of t)).
Proof.
  intros Ht. pose proof (time_small t Ht) as Hs. unfold YearFromTime. rewrite finite_dbl, integral_dbl, assert_true, msPerYear_eq by done. cbn [negb].
  rewrite floor_div by small. unfold year_of. set (q := t / 31556952000). assert (Hq : -273792 <= q <= 273792).
  { unfold time_bound, day_ms in Ht. unfold q. split; [apply Z.div_le_lower_bound|apply Z.lt_succ_r, Z.div_lt_upper_bound]; lia. }
  clearbody q. rewrite double_add_dbl by small. set (y := q + 1970). assert (Hyb : Z.abs y <= 276000) by lia. assert (Hy : year_bound y) by (unfold year_bound; lia). clearbody y. pose proof (days_small y Hy) as Hd.
  rewrite TimeFromYear_dbl, double_lt_dbl by done. destruct (Z.ltb_spec t (days_before y * day_ms)).
  - by rewrite double_sub_dbl by small.
  - rewrite DaysInYear_dbl, bind_ret by small. pose proof (year_length_bounds y) as Hl. pose proof (days_before_mean (y + 1)) as Hm.
    rewrite days_before_succ in Hm. unfold day_ms in *. rewrite msPerDay_eq. unfold day_ms. rewrite double_mul_comm, double_mul_dbl, double_add_dbl, double_le_dbl by small.
    rewrite <- Z.mul_add_distr_r. destruct (_ <=? _); [|done]. by rewrite double_add_dbl by small.
Qed.

(** ** Months and days *)

Definition day_in_year (t : Z) : Z := t / day_ms - days_before (year_of t).

Fixpoint month_from (leap : bool) (d : Z) (n : nat) (m : Z) : Z :=
  match n with
  | O => m
  | S n => if d <? month_start leap (m + 1) then m else month_from leap d n (m + 1)
  end.

(** The month of the [d]-th day of the year, counted from 0. *)
Definition month_of (leap : bool) (d : Z) : Z := month_from leap d 11 0.

Lemma day_in_year_bounds t : 0 <= day_in_year t < year_length (year_of t).
Proof.
  unfold day_in_year. pose proof (year_of_spec t) as [H1 H2]. rewrite days_before_succ in H2. unfold day_ms in *.
  assert (days_before (year_of t) <= t / 86400000) by (apply Z.div_le_lower_bound; lia).
  assert (t / 86400000 < days_before (year_of t) + year_length (year_of t)) by (apply Z.div_lt_upper_bound; lia). lia.
Qed.

Lemma DayWithinYear_dbl t : time_bound t -> DayWithinYear (dbl t) (dbl (year_of t)) = mret (dbl (day_in_year t)).
Proof.
  intros Ht. pose proof (time_small t Ht) as Hs. pose proof (year_of_bound t Ht) as Hy. unfold DayWithinYear.
  rewrite finite_dbl, YearFromTime_dbl, bind_ret, double_eq_dbl, Z.eqb_refl by (done || small). change (moz_assert true) with (mret tt : M unit). rewrite bind_ret.
  rewrite Day_dbl, DayFromYear_dbl by (done || lia). unfold day_in_year. pose proof (day_in_year_bounds t) as Hd. pose proof (year_length_bounds (year_of t)).
  unfold day_in_year in Hd. pose proof (days_before_mean (year_of t)). by rewrite double_sub_dbl by (small || (apply small_quotient; [done|reflexivity])).
Qed.

(** The limits in the tests, as numerals. *)
Ltac evaluate k := let v := eval vm_compute in k in progress change k with v.
Ltac evaluate_tests :=
  repeat match goal with
  | |- context [_ <? ?k] => evaluate k
  | |- context [_ <=? ?k] => evaluate k
  end.

Lemma MonthFromTime_dbl t : time_bound t -> MonthFromTime (dbl t) = mret (dbl (month_of (is_leap (year_of t)) (day_in_year t))).
Proof.
  intros Ht. pose proof (time_small t Ht) as Hs. pose proof (year_of_bound t Ht) as Hy. unfold MonthFromTime. rewrite finite_dbl by done. cbn [negb].
  rewrite YearFromTime_dbl, bind_ret, DayWithinYear_dbl, bind_ret, DaysInFebruary_dbl, bind_ret by (done || small).
  pose proof (day_in_year_bounds t) as Hd. pose proof (year_length_bounds (year_of t)). generalize dependent (day_in_year t). intros d Hd.
  destruct (is_leap (year_of t)); cbv zeta; rewrite !double_lt_dbl by (cbn; small);
    unfold month_of; cbn [month_from]; evaluate_tests; repeat (case_match; [done|]); done.
Qed.

Lemma DateFromTime_dbl t : time_bound t ->
  DateFromTime (dbl t) = mret (dbl (day_in_year t - month_start (is_leap (year_of t)) (month_of (is_leap (year_of t)) (day_in_year t)) + 1)).
Proof.
  intros Ht. pose proof (time_small t Ht) as Hs. pose proof (year_of_bound t Ht) as Hy. unfold DateFromTime. rewrite finite_dbl by done. cbn [negb].
  rewrite YearFromTime_dbl, bind_ret, DayWithinYear_dbl, bind_ret, DaysInFebruary_dbl, bind_ret by (done || small).
  pose proof (day_in_year_bounds t) as Hd. pose proof (year_length_bounds (year_of t)). generalize dependent (day_in_year t). intros d Hd.
  destruct (is_leap (year_of t)); cbv zeta; rewrite !double_le_dbl, double_add_dbl, !double_sub_dbl by (cbn; small);
    unfold month_of; cbn [month_from]; evaluate_tests; repeat (case_match; bsplit; try (exfalso; lia));
    match goal with |- context [month_start ?l ?k] => evaluate (month_start l k) end; do 2 f_equal; cbn; lia.
Qed.

(** Each month starts where the one before it ends. *)
Lemma month_start_succ leap m : 0 <= m < 12 -> month_start leap (m + 1) = month_start leap m + month_length leap m.
Proof.
  intros Hm. assert (In m [0; 1; 2; 3; 4; 5; 6; 7; 8; 9; 10; 11]) as Hin by (cbn; lia).
  cbn [In] in Hin. destruct leap; intuition subst; done.
Qed.

Lemma month_start_0 leap : month_start leap 0 = 0.
Proof. by destruct leap. Qed.

Lemma month_start_12 leap : month_start leap 12 = if leap then 366 else 365.
Proof. by destruct leap. Qed.

Lemma month_length_bounds leap m : 28 <= month_length leap m <= 31.
Proof. unfold month_length. repeat case_match; lia. Qed.

Lemma month_start_mono leap m n : 0 <= m -> m <= n <= 12 -> month_start leap m <= month_start leap n.
Proof.
  intros Hm Hn. assert (E : n = m + Z.of_nat (Z.to_nat (n - m))) by lia. rewrite E in *. revert Hn. generalize (Z.to_nat (n - m)). clear E. intros k.
  induction k as [|k IH]; intros Hk; [rewrite Z.add_0_r; lia|]. rewrite Nat2Z.inj_succ, Z.add_succ_r, <- Z.add_1_r, month_start_succ by lia.
  pose proof (month_length_bounds leap (m + Z.of_nat k)). specialize (IH ltac:(lia)). lia.
Qed.

Lemma month_from_spec leap d n m : 0 <= m -> m + Z.of_nat n = 11 -> month_start leap m <= d < month_start leap 12 ->
  0 <= month_from leap d n m <= 11 /\ month_start leap (month_from leap d n m) <= d < month_start leap (month_from leap d n m + 1).
Proof.
  revert m. induction n as [|n IH]; intros m Hm Hn Hd; cbn [month_from].
  - replace m with 11 in * by lia. done.
  - destruct (Z.ltb_spec d (month_start leap (m + 1))); [lia|]. apply IH; lia.
Qed.

Lemma month_of_spec (leap : bool) d : 0 <= d < (if leap then 366 else 365) ->
  0 <= month_of leap d <= 11 /\ month_start leap (month_of leap d) <= d < month_start leap (month_of leap d + 1).
Proof. intros Hd. apply month_from_spec; [done|done|]. by destruct leap. Qed.

Lemma month_of_unique leap d m : 0 <= m <= 11 -> month_start leap m <= d < month_start leap (m + 1) -> m = month_of leap d.
Proof.
  intros Hm Hd. assert (Hr : 0 <= d < (if leap then 366 else 365)).
  { pose proof (month_start_mono leap 0 m ltac:(lia) ltac:(lia)). pose proof (month_start_mono leap (m + 1) 12 ltac:(lia) ltac:(lia)).
    rewrite month_start_0, month_start_12 in *. lia. }
  destruct (month_of_spec leap d Hr) as [Hb Ho]. set (m' := month_of leap d) in *. destruct (Z.lt_total m m') as [Hlt|[?|Hlt]]; [|done|].
  - pose proof (month_start_mono leap (m + 1) m' ltac:(lia) ltac:(lia)). lia.
  - pose proof (month_start_mono leap (m' + 1) m ltac:(lia) ltac:(lia)). lia.
Qed.

Lemma DayFromMonth_eq leap m : 0 <= m <= 12 -> DayFromMonth m leap = mret (month_start leap m).
Proof. intros Hm. unfold DayFromMonth. rewrite assert_true; [done|]. apply andb_true_iff. lia. Qed.

Lemma DaysInMonth_eq y m : small y -> 1 <= m <= 12 -> DaysInMonth y m = mret (month_length (is_leap y) (m - 1)).
Proof.
  intros Hy Hm. unfold DaysInMonth. rewrite IsLeapYear_dbl, bind_ret, !DayFromMonth_eq, !bind_ret by (done || lia). f_equal.
  pose proof (month_start_succ (is_leap y) (m - 1) ltac:(lia)) as E. replace (m - 1 + 1) with m in E by lia. lia.
Qed.

Lemma month_start_bounds leap m : 0 <= m <= 12 -> 0 <= month_start leap m <= 366.
Proof.
  intros Hm. pose proof (month_start_mono leap 0 m ltac:(lia) ltac:(lia)). pose proof (month_start_mono leap m 12 ltac:(lia) ltac:(lia)).
  rewrite month_start_0, month_start_12 in *. destruct leap; lia.
Qed.

(** The day number of a year, a month, possibly outside the year, and a date,
    possibly outside the month. *)
Definition day_number (y m d : Z) : Z := days_before (y + m / 12) + month_start (is_leap (y + m / 12)) (m mod 12) + d - 1.

Lemma MakeDay_dbl y m d : Z.abs y <= 2 ^ 40 -> Z.abs m <= 2 ^ 40 -> Z.abs d <= 2 ^ 40 -> year_bound (y + m / 12) ->
  MakeDay (dbl y) (dbl m) (dbl d) = mret (dbl (day_number y m d)).
Proof.
  intros Hy Hm Hd Hb. pose proof (days_small _ Hb) as Hs. unfold year_bound in Hb. unfold MakeDay. rewrite !finite_dbl by small. cbn [negb orb].
  pose proof (Z.mod_pos_bound m 12 ltac:(lia)). assert (Hq : small (m / 12)) by (apply small_quotient; small).
  rewrite !ToInteger_dbl, floor_div, PositiveModulo_dbl, bind_ret, double_to_int_dbl, bind_ret, double_add_dbl, IsLeapYear_dbl, bind_ret by (done || small).
  rewrite TimeFromYear_dbl, msPerDay_eq, floor_div, Z.div_mul by (done || small). rewrite DayFromMonth_eq, bind_ret by lia. cbv zeta. unfold day_number.
  pose proof (month_start_bounds (is_leap (y + m / 12)) (m mod 12) ltac:(lia)). unfold day_ms in Hs.
  by rewrite !double_add_dbl, double_sub_dbl by small.
Qed.

Lemma MakeDate_dbl d t : small (d * day_ms) -> small t -> small (d * day_ms + t) -> MakeDate (dbl d) (dbl t) = dbl (d * day_ms + t).
Proof.
  intros Hd Ht Hs. assert (small d) by (unfold small, day_ms in *; lia). unfold MakeDate. rewrite !finite_dbl, msPerDay_eq by done. cbn [negb orb].
  by rewrite double_mul_dbl, double_add_dbl by (done || small).
Qed.

Definition time_ms (h mi s ms : Z) : Z := h * 3600000 + mi * 60000 + s * 1000 + ms.

Lemma MakeTime_dbl h mi s ms : Z.abs h <= 2 ^ 30 -> Z.abs mi <= 2 ^ 30 -> Z.abs s <= 2 ^ 30 -> Z.abs ms <= 2 ^ 52 ->
  MakeTime (dbl h) (dbl mi) (dbl s) (dbl ms) = dbl (time_ms h mi s ms).
Proof.
  intros Hh Hmi Hs Hms. unfold MakeTime. rewrite !finite_dbl by small. cbn [negb orb]. rewrite !ToInteger_dbl by small.
  rewrite msPerHour_eq, msPerMinute_eq, msPerSecond_eq, !double_mul_dbl, !double_add_dbl by small. done.
Qed.

(** [MakeTime] truncates the milliseconds. *)
Lemma MakeTime_truncates h mi s d ms : IsFinite d = true -> small ms -> ToInteger d = dbl ms -> MakeTime h mi s d = MakeTime h mi s (dbl ms).
Proof. intros Hd Hs E. unfold MakeTime. by rewrite Hd, finite_dbl, E, ToInteger_dbl by done. Qed.

Lemma HourFromTime_dbl t : small t -> HourFromTime (dbl t) = mret (dbl (t / 3600000 mod 24)).
Proof. intros Ht. unfold HourFromTime. rewrite msPerHour_eq, floor_div by small. apply PositiveModulo_dbl; [by apply small_quotient|small..]. Qed.

Lemma MinFromTime_dbl t : small t -> MinFromTime (dbl t) = mret (dbl (t / 60000 mod 60)).
Proof. intros Ht. unfold MinFromTime. rewrite msPerMinute_eq, floor_div by small. apply PositiveModulo_dbl; [by apply small_quotient|small..]. Qed.

Lemma SecFromTime_dbl t : small t -> SecFromTime (dbl t) = mret (dbl (t / 1000 mod 60)).
Proof. intros Ht. unfold SecFromTime. rewrite msPerSecond_eq, floor_div by small. apply PositiveModulo_dbl; [by apply small_quotient|small..]. Qed.

Lemma msFromTime_dbl t : small t -> msFromTime (dbl t) = mret (dbl (t mod 1000)).
Proof. intros Ht. unfold msFromTime. rewrite msPerSecond_eq. by apply PositiveModulo_dbl; small. Qed.

Lemma TimeWithinDay_dbl t : small t -> TimeWithinDay (dbl t) = mret (dbl (t mod day_ms)).
Proof. intros Ht. unfold TimeWithinDay. rewrite msPerDay_eq. by apply PositiveModulo_dbl; small. Qed.

(** 1970-01-01 was a Thursday. *)
Lemma WeekDay_dbl t : time_bound t -> WeekDay (dbl t) = mret ((t / day_ms + 4) mod 7).
Proof.
  intros Ht. pose proof (time_small t Ht) as Hs. unfold WeekDay. rewrite integral_dbl, assert_true, Day_dbl by done.
  assert (Hd : -100000001 <= t / day_ms <= 100000001).
  { unfold time_bound, day_ms in *. split; [apply Z.div_le_lower_bound|apply Z.lt_succ_r, Z.div_lt_upper_bound]; lia. }
  rewrite double_to_int_dbl, bind_ret by lia. unfold int_add. replace ((- 2 ^ 31 <=? t / day_ms + 4) && (t / day_ms + 4 <? 2 ^ 31)) with true by lia.
  rewrite bind_ret. f_equal. set (s := t / day_ms + 4) in *. pose proof (Z.quot_rem s 7 ltac:(lia)). pose proof (Z.rem_bound_abs s 7 ltac:(lia)).
  destruct (Z.ltb_spec (Z.rem s 7) 0); [apply (Z.mod_unique _ _ (Z.quot s 7 - 1))|apply (Z.mod_unique _ _ (Z.quot s 7))]; lia.
Qed.
