(* ===== verification/TimeZone.v ===== *)
(** The local time zone (js/src/vm/DateTime.h, js/src/vm/DateTime.cpp), as
    built with the in-tree ICU: the request to reset the zone, its deferred
    update, and the offset caches, each of two ranges of seconds on which the
    offset is known.  ICU and the C library are arguments. *)
From S2P Require Import Prelude Words CheckedArithmetic FloatingPoint BigIntRep Conversions BigIntDouble DoubleArith Dates.

(** * The outside: ICU's zones and the C library *)

(** [TimeZone::getOffset] and [BasicTimeZone::getOffsetFromLocal] with the
    former offset at skipped and repeated times: the raw and the DST offset of
    a date in milliseconds, or a failure code. *)
Record Zone := MkZone {
  getOffset : Z -> option (Z * Z);
  getOffsetFromLocal : Z -> option (Z * Z);
}.

(** The fields of [struct tm] the code reads. *)
Record tm := Tm { tm_min : Z; tm_hour : Z; tm_mday : Z; tm_isdst : Z }.

Record Host := MkHost {
  time : option Z;
  ComputeLocalTime : Z -> option tm;
  ComputeUTCTime : Z -> option tm;
  mktime : tm -> option Z;
  createDefault : Zone;
}.

(** * The model *)

Definition SecondsPerHour : Z := 60 * 60.
Definition SecondsPerDay : Z := SecondsPerHour * 24.

(** [SecondsPerMinute] is a double and [SecondsPerHour] is unsigned. *)
Definition seconds_of_day (t : tm) : M Z :=
  double_to_int (double_add (dbl (uint32 (tm_hour t * SecondsPerHour))) (double_mul (dbl (tm_min t)) SecondsPerMinute)).

Definition UTCToLocalStandardOffsetSeconds (h : Host) : M Z :=
  match time h with
  | None => mret 0
  | Some currentMaybeWithDST =>
      match ComputeLocalTime h currentMaybeWithDST with
      | None => mret 0
      | Some local =>
          match (if tm_isdst local =? 0 then Some currentMaybeWithDST
                 else mktime h (Tm (tm_min local) (tm_hour local) (tm_mday local) 0)) with
          | None => mret 0
          | Some currentNoDST =>
              match ComputeUTCTime h currentNoDST with
              | None => mret 0
              | Some utc =>
                  utc_secs ← seconds_of_day utc;
                  local_secs ← seconds_of_day local;
                  if tm_mday utc =? tm_mday local then mret (local_secs - utc_secs)
                  else if utc_secs >? local_secs then mret (wrap_signed 32 (SecondsPerDay + local_secs - utc_secs))
                  else mret (wrap_signed 32 (local_secs - (utc_secs + SecondsPerDay)))
              end
          end
      end
  end.

Definition INT64_MIN : Z := - 2 ^ 63.
Definition MinTimeT : Z := -8640000000000.
Definition MaxTimeT : Z := 8640000000000.
Definition RangeExpansionAmount : Z := 30 * SecondsPerDay.

Record RangeCache := MkRangeCache {
  startSeconds : Z; endSeconds : Z;
  oldStartSeconds : Z; oldEndSeconds : Z;
  offsetMilliseconds : Z; oldOffsetMilliseconds : Z;
}.

(** The lambda of [sanityCheck]. *)
Definition assertRange (start end_ : Z) : M unit :=
  moz_assert (start <=? end_);;
  moz_assert (negb (start =? INT64_MIN) || (end_ =? INT64_MIN));;
  moz_assert (negb (end_ =? INT64_MIN) || (start =? INT64_MIN));;
  moz_assert ((start =? INT64_MIN) || ((start >=? MinTimeT) && (end_ >=? MinTimeT)));;
  moz_assert ((start =? INT64_MIN) || ((start <=? MaxTimeT) && (end_ <=? MaxTimeT))).

Definition sanityCheck (r : RangeCache) : M unit :=
  assertRange (startSeconds r) (endSeconds r);;
  assertRange (oldStartSeconds r) (oldEndSeconds r).

Definition initial_range : RangeCache := MkRangeCache INT64_MIN INT64_MIN INT64_MIN INT64_MIN 0 0.
Definition RangeCache_reset (r : RangeCache) : M RangeCache := sanityCheck initial_range;; mret initial_range.

(** [int64_t] sums and differences. *)
Definition int64_checked (n : Z) : M Z :=
  if (- 2 ^ 63 <=? n) && (n <? 2 ^ 63) then mret n else throw UndefinedBehavior.

(** A [ComputeFn] reads the object through [timeZone()], which creates the
    zone on its first use. *)
Definition timeZone (h : Host) (tz : option Zone) : Zone := default (createDefault h) tz.

(** The body of [getOrComputeValue], between the two sanity checks: the value,
    the range and the zone. *)
Definition getOrComputeValue_body (range : RangeCache) (tz : option Zone) (seconds : Z)
    (compute : option Zone -> Z -> M (Z * option Zone)) : M (Z * RangeCache * option Zone) :=
  moz_assert (negb (seconds =? INT64_MIN));;
  if (startSeconds range <=? seconds) && (seconds <=? endSeconds range) then mret (offsetMilliseconds range, range, tz) else
  if (oldStartSeconds range <=? seconds) && (seconds <=? oldEndSeconds range) then mret (oldOffsetMilliseconds range, range, tz) else
  let '(MkRangeCache start end_ _ _ offset _) := range in
  let with_old s e o := MkRangeCache s e start end_ o offset in
  if start <=? seconds then
    e ← int64_checked (end_ + RangeExpansionAmount);
    let newEndSeconds := Z.min e MaxTimeT in
    if newEndSeconds >=? seconds then
      '(endOffset, tz) ← compute tz newEndSeconds;
      if endOffset =? offset then mret (offset, with_old start newEndSeconds offset, tz)
      else
        '(o, tz) ← compute tz seconds;
        if o =? endOffset then mret (o, with_old seconds newEndSeconds o, tz)
        else mret (o, with_old start seconds o, tz)
    else
      '(o, tz) ← compute tz seconds;
      mret (o, with_old seconds seconds o, tz)
  else
    s ← int64_checked (start - RangeExpansionAmount);
    let newStartSeconds := Z.max s MinTimeT in
    if newStartSeconds <=? seconds then
      '(startOffset, tz) ← compute tz newStartSeconds;
      if startOffset =? offset then mret (offset, with_old newStartSeconds end_ offset, tz)
      else
        '(o, tz) ← compute tz seconds;
        if o =? startOffset then mret (o, with_old newStartSeconds seconds o, tz)
        else mret (o, with_old seconds end_ o, tz)
    else
      '(o, tz) ← compute tz seconds;
      mret (o, with_old seconds seconds o, tz).

Definition getOrComputeValue (range : RangeCache) (tz : option Zone) (seconds : Z)
    (compute : option Zone -> Z -> M (Z * option Zone)) : M (Z * RangeCache * option Zone) :=
  sanityCheck range;;
  '(v, range, tz) ← getOrComputeValue_body range tz seconds compute;
  sanityCheck range;;
  mret (v, range, tz).

Inductive TimeZoneStatus := Valid | NeedsUpdate | UpdateIfChanged.
Inductive ResetTimeZoneMode := DontResetIfOffsetUnchanged | ResetEvenIfOffsetUnchanged.
Inductive TimeZoneOffset := UTCOffset | LocalOffset.

Record DateTimeInfo := MkDateTimeInfo {
  timeZoneStatus_ : TimeZoneStatus;
  utcToLocalStandardOffsetSeconds_ : Z;
  dstRange_ : RangeCache;
  utcRange_ : RangeCache;
  localRange_ : RangeCache;
  timeZone_ : option Zone;
}.

(** The constructor sets the status only; the other members are written by the
    update that it asks for, before they are read. *)
Definition new_DateTimeInfo (junk : DateTimeInfo) : DateTimeInfo :=
  let '(MkDateTimeInfo _ o d u l z) := junk in MkDateTimeInfo NeedsUpdate o d u l z.

Definition internalResetTimeZone (d : DateTimeInfo) (mode : ResetTimeZoneMode) : DateTimeInfo :=
  let '(MkDateTimeInfo status o dst utc local z) := d in
  match status with
  | NeedsUpdate => d
  | _ => MkDateTimeInfo (match mode with ResetEvenIfOffsetUnchanged => NeedsUpdate | DontResetIfOffsetUnchanged => UpdateIfChanged end) o dst utc local z
  end.

Definition updateTimeZone (h : Host) (d : DateTimeInfo) : M DateTimeInfo :=
  let '(MkDateTimeInfo status o dst utc local z) := d in
  moz_assert (match status with Valid => false | _ => true end);;
  let updateIfChanged := match status with UpdateIfChanged => true | _ => false end in
  newOffset ← UTCToLocalStandardOffsetSeconds h;
  if updateIfChanged && (newOffset =? o) then mret (MkDateTimeInfo Valid o dst utc local z)
  else
    dst ← RangeCache_reset dst;
    utc ← RangeCache_reset utc;
    local ← RangeCache_reset local;
    mret (MkDateTimeInfo Valid newOffset dst utc local None).

Definition acquireLockWithValidTimeZone (h : Host) (d : DateTimeInfo) : M DateTimeInfo :=
  match timeZoneStatus_ d with Valid => mret d | _ => updateTimeZone h d end.

(** [static_cast<int64_t>] of a double. *)
Definition double_to_int64 (d : Z) : M Z :=
  if IsFinite d then int64_checked (integer_part d) else throw UndefinedBehavior.

Definition toClampedSeconds (milliseconds : Z) : M Z :=
  seconds ← double_to_int64 (double_div (dbl milliseconds) msPerSecond);
  if seconds >? MaxTimeT then mret MaxTimeT
  else if seconds <? MinTimeT then mret SecondsPerDay
  else mret seconds.

(** The three [ComputeFn]s. *)
Definition assert_time (seconds : Z) : M unit := moz_assert (seconds >=? MinTimeT);; moz_assert (seconds <=? MaxTimeT).

Definition computeDSTOffsetMilliseconds (h : Host) (tz : option Zone) (utcSeconds : Z) : M (Z * option Zone) :=
  assert_time utcSeconds;;
  let z := timeZone h tz in
  match getOffset z (double_mul (dbl utcSeconds) msPerSecond) with
  | None => mret (0, Some z)
  | Some (rawOffset, dstOffset) => mret (dstOffset, Some z)
  end.

Definition computeUTCOffsetMilliseconds (h : Host) (tz : option Zone) (localSeconds : Z) : M (Z * option Zone) :=
  assert_time localSeconds;;
  let z := timeZone h tz in
  match getOffsetFromLocal z (double_mul (dbl localSeconds) msPerSecond) with
  | None => mret (0, Some z)
  | Some (rawOffset, dstOffset) => o ← int_add rawOffset dstOffset; mret (o, Some z)
  end.

Definition computeLocalOffsetMilliseconds (h : Host) (tz : option Zone) (utcSeconds : Z) : M (Z * option Zone) :=
  assert_time utcSeconds;;
  let z := timeZone h tz in
  match getOffset z (double_mul (dbl utcSeconds) msPerSecond) with
  | None => mret (0, Some z)
  | Some (rawOffset, dstOffset) => o ← int_add rawOffset dstOffset; mret (o, Some z)
  end.

Definition internalGetDSTOffsetMilliseconds (h : Host) (d : DateTimeInfo) (utcMilliseconds : Z) : M (Z * DateTimeInfo) :=
  utcSeconds ← toClampedSeconds utcMilliseconds;
  let '(MkDateTimeInfo status o dst utc local z) := d in
  '(v, dst, z) ← getOrComputeValue dst z utcSeconds (computeDSTOffsetMilliseconds h);
  mret (v, MkDateTimeInfo status o dst utc local z).

Definition internalGetOffsetMilliseconds (h : Host) (d : DateTimeInfo) (milliseconds : Z) (offset : TimeZoneOffset) : M (Z * DateTimeInfo) :=
  seconds ← toClampedSeconds milliseconds;
  let '(MkDateTimeInfo status o dst utc local z) := d in
  match offset with
  | UTCOffset =>
      '(v, local, z) ← getOrComputeValue local z seconds (computeLocalOffsetMilliseconds h);
      mret (v, MkDateTimeInfo status o dst utc local z)
  | LocalOffset =>
      '(v, utc, z) ← getOrComputeValue utc z seconds (computeUTCOffsetMilliseconds h);
      mret (v, MkDateTimeInfo status o dst utc local z)
  end.

(** The public functions of the class, which take the lock. *)
Definition getDSTOffsetMilliseconds (h : Host) (d : DateTimeInfo) (utcMilliseconds : Z) : M (Z * DateTimeInfo) :=
  d ← acquireLockWithValidTimeZone h d; internalGetDSTOffsetMilliseconds h d utcMilliseconds.

Definition getOffsetMilliseconds (h : Host) (d : DateTimeInfo) (milliseconds : Z) (offset : TimeZoneOffset) : M (Z * DateTimeInfo) :=
  d ← acquireLockWithValidTimeZone h d; internalGetOffsetMilliseconds h d milliseconds offset.

Definition utcToLocalStandardOffsetSeconds (h : Host) (d : DateTimeInfo) : M (Z * DateTimeInfo) :=
  d ← acquireLockWithValidTimeZone h d; mret (utcToLocalStandardOffsetSeconds_ d, d).

Definition resetTimeZone (d : DateTimeInfo) (mode : ResetTimeZoneMode) : DateTimeInfo := internalResetTimeZone d mode.
Definition resyncICUDefaultTimeZone (h : Host) (d : DateTimeInfo) : M DateTimeInfo := acquireLockWithValidTimeZone h d.
