(* ===== verification/TimeZoneCache.v ===== *)
(** The offset caches of TimeZone.v are transparent: under the premise that
    their documentation states, that an offset changes at most once in thirty
    days, each answer is the offset itself. *)
From S2P Require Import Prelude Words CheckedArithmetic FloatingPoint BigIntRep Conversions BigIntDouble DoubleArith Dates DateCalendar TimeZone.

Definition in_time_range (s : Z) : Prop := MinTimeT <= s <= MaxTimeT.

(** "DST changes never occur more than once in any thirty-day period." *)
Definition changes_rarely (f : Z -> Z) : Prop := forall a b, in_time_range a -> in_time_range b -> a <= b <= a + RangeExpansionAmount ->
  exists c, (forall s, a <= s < c -> f s = f a) /\ (forall s, c <= s <= b -> f s = f b).

(** A range is empty, or its seconds have its offset. *)
Definition known (f : Z -> Z) (start end_ offset : Z) : Prop :=
  (start = INT64_MIN /\ end_ = INT64_MIN) \/ (in_time_range start /\ in_time_range end_ /\ start <= end_ /\ forall s, start <= s <= end_ -> f s = offset).

Definition range_ok (f : Z -> Z) (r : RangeCache) : Prop :=
  known f (startSeconds r) (endSeconds r) (offsetMilliseconds r) /\ known f (oldStartSeconds r) (oldEndSeconds r) (oldOffsetMilliseconds r).

Lemma initial_range_ok f : range_ok f initial_range.
Proof. split; by left. Qed.

Ltac assert_tests := rewrite assert_true; [|repeat (rewrite ?orb_true_iff, ?andb_true_iff, ?negb_true_iff, ?Z.eqb_eq, ?Z.eqb_neq, ?Z.leb_le, ?Z.geb_le); lia].

Lemma assertRange_ok f s e o : known f s e o -> assertRange s e = mret tt.
Proof.
  unfold known, in_time_range, assertRange, MinTimeT, MaxTimeT, INT64_MIN. intros [[-> ->]|(Hs & He & Hse & _)]; [done|].
  do 4 assert_tests. unfold moz_assert. by replace (_ || _) with true by lia.
Qed.

Lemma sanityCheck_ok f r : range_ok f r -> sanityCheck r = mret tt.
Proof. intros [H1 H2]. unfold sanityCheck. by rewrite (assertRange_ok _ _ _ _ H1), (assertRange_ok _ _ _ _ H2). Qed.

Section cache.
Context (h : Host) (z : Zone) (f : Z -> Z) (compute : option Zone -> Z -> M (Z * option Zone)).
Hypothesis Hf : changes_rarely f.
Hypothesis Hcompute : forall tz s, timeZone h tz = z -> in_time_range s -> compute tz s = mret (f s, Some z).

(** Where both ends of a short interval agree, so does all between. *)
Lemma constant_between a b s : in_time_range a -> in_time_range b -> b <= a + RangeExpansionAmount -> f a = f b -> a <= s <= b -> f s = f a.
Proof.
  intros Ha Hb Hab E Hs. destruct (Hf a b) as (c & H1 & H2); [done..|lia|]. destruct (Z.lt_ge_cases s c); [apply H1; lia|]. rewrite E. apply H2. lia.
Qed.

(** Where they differ, each side of [s] takes after one of them. *)
Lemma one_change a b s : in_time_range a -> in_time_range b -> b <= a + RangeExpansionAmount -> a <= s <= b ->
  (forall u, a <= u <= s -> f u = f a) \/ (forall u, s <= u <= b -> f u = f b).
Proof.
  intros Ha Hb Hab Hs. destruct (Hf a b) as (c & H1 & H2); [done..|lia|]. destruct (Z.lt_ge_cases s c); [left|right]; intros u Hu; [apply H1|apply H2]; lia.
Qed.

Lemma compute_zone s : in_time_range s -> compute (Some z) s = mret (f s, Some z).
Proof. intros Hs. by apply Hcompute. Qed.

(** The extensions of a range, to the right and to the left. *)
Lemma known_right start end_ offset e s : known f start end_ offset -> start <> INT64_MIN -> in_time_range e -> end_ <= s <= e -> e <= end_ + RangeExpansionAmount ->
  (f e = offset -> known f start e offset /\ f s = offset) /\
  (f e <> offset -> f s = f e -> known f s e (f s)) /\ (f e <> offset -> f s <> f e -> known f start s (f s)).
Proof.
  unfold known. intros [[? _]|(Hs & He & Hse & Hk)] Hne Hie Hr Hexp; [done|]. assert (Hend : f end_ = offset) by (apply Hk; lia). split_and!.
  - intros E. assert (Hc : forall u, end_ <= u <= e -> f u = offset) by (intros u Hu; rewrite <- Hend; apply (constant_between end_ e); done || congruence).
    split; [right; split_and!; [done|done|lia|]|apply Hc; lia]. intros u Hu. destruct (Z.le_gt_cases u end_); [apply Hk|apply Hc]; lia.
  - intros Hneq E. right. unfold in_time_range in *. split_and!; try lia. intros u Hu.
    destruct (one_change end_ e s) as [H1|H1]; [done..| |]; [rewrite (H1 s) in E by lia; congruence|]. rewrite (H1 u), (H1 s) by lia. done.
  - intros Hneq E. right. unfold in_time_range in *. split_and!; try lia. intros u Hu.
    destruct (one_change end_ e s) as [H1|H1]; [done..| |]; [|by rewrite (H1 s) in E by lia].
    rewrite (H1 s), Hend by lia. destruct (Z.le_gt_cases u end_); [apply Hk; lia|]. rewrite H1 by lia. done.
Qed.

Lemma known_left start end_ offset b s : known f start end_ offset -> start <> INT64_MIN -> in_time_range b -> b <= s <= start -> start <= b + RangeExpansionAmount ->
  (f b = offset -> known f b end_ offset /\ f s = offset) /\
  (f b <> offset -> f s = f b -> known f b s (f s)) /\ (f b <> offset -> f s <> f b -> known f s end_ (f s)).
Proof.
  unfold known. intros [[? _]|(Hs & He & Hse & Hk)] Hne Hib Hr Hexp; [done|]. assert (Hst : f start = offset) by (apply Hk; lia). split_and!.
  - intros E. assert (Hc : forall u, b <= u <= start -> f u = offset) by (intros u Hu; rewrite <- E; apply (constant_between b start); done || congruence).
    split; [right; split_and!; [done|done|lia|]|apply Hc; lia]. intros u Hu. destruct (Z.le_gt_cases start u); [apply Hk|apply Hc]; lia.
  - intros Hneq E. right. unfold in_time_range in *. split_and!; try lia. intros u Hu.
    destruct (one_change b start s) as [H1|H1]; [done..| |]; [|rewrite (H1 s) in E by lia; congruence]. rewrite (H1 u), (H1 s) by lia. done.
  - intros Hneq E. right. unfold in_time_range in *. split_and!; try lia. intros u Hu.
    destruct (one_change b start s) as [H1|H1]; [done..| |]; [by rewrite (H1 s) in E by lia|].
    rewrite (H1 s), Hst by lia. destruct (Z.le_gt_cases start u); [apply Hk; lia|]. rewrite H1 by lia. done.
Qed.

Lemma known_point s : in_time_range s -> known f s s (f s).
Proof. intros Hs. right. split_and!; [done..|]. intros u Hu. by replace u with s by lia. Qed.

Lemma int64_checked_ok n : - 2 ^ 63 <= n < 2 ^ 63 -> int64_checked n = mret n.
Proof. intros Hn. unfold int64_checked. by replace (_ && _) with true by lia. Qed.

Lemma known_bounds start end_ offset : known f start end_ offset -> start = INT64_MIN /\ end_ = INT64_MIN \/ in_time_range start /\ in_time_range end_ /\ start <= end_.
Proof. unfold known. intros [?|(? & ? & ? & _)]; auto. Qed.

Lemma getOrComputeValue_body_spec r tz seconds : range_ok f r -> timeZone h tz = z -> (tz = None -> r = initial_range) -> in_time_range seconds ->
  exists r', getOrComputeValue_body r tz seconds compute = mret (f seconds, r', Some z) /\ range_ok f r'.
Proof.
  intros [Hr Ho] Htz Hnone Hs. destruct r as [start end_ ostart oend offset ooffset]. unfold range_ok in *. cbn in *.
  assert (Hz : start <> INT64_MIN \/ ostart <> INT64_MIN -> tz = Some z).
  { intros Hne. destruct tz as [z'|]; [by cbn in Htz; subst|]. specialize (Hnone eq_refl). injection Hnone as -> -> -> -> -> ->. by destruct Hne. }
  pose proof (known_bounds _ _ _ Hr) as Hb. unfold getOrComputeValue_body, in_time_range, MinTimeT, MaxTimeT, RangeExpansionAmount, SecondsPerDay, SecondsPerHour, INT64_MIN in *.
  rewrite assert_true by lia. cbn [startSeconds endSeconds oldStartSeconds oldEndSeconds offsetMilliseconds oldOffsetMilliseconds].
  destruct ((start <=? seconds) && (seconds <=? end_)) eqn:H1.
  { apply andb_true_iff in H1 as [H1 H2]. destruct Hr as [[-> ->]|(Hin & ? & ? & Hk)]; [unfold INT64_MIN in *; lia|]. unfold in_time_range, MinTimeT in Hin. rewrite Hz, (Hk seconds) by lia.
    eexists. split; [done|]. cbn. split; [by right|done]. }
  destruct ((ostart <=? seconds) && (seconds <=? oend)) eqn:H2.
  { apply andb_true_iff in H2 as [H2 H3]. destruct Ho as [[-> ->]|(Hin & ? & ? & Hk)]; [unfold INT64_MIN in *; lia|]. unfold in_time_range, MinTimeT in Hin. rewrite Hz, (Hk seconds) by lia.
    eexists. split; [done|]. cbn. split; [done|by right]. }
  assert (Hlow : seconds < start -> start <> - 2 ^ 63) by lia. cbv zeta. destruct (Z.leb_spec start seconds) as [Hst|Hst].
  - rewrite int64_checked_ok, bind_ret by lia. set (e := Z.min (end_ + 30 * (60 * 60 * 24)) 8640000000000). destruct (e >=? seconds) eqn:He; bsplit.
    + assert (Hne : start <> - 2 ^ 63) by lia. rewrite Hcompute, bind_ret by (done || lia). 
      destruct (known_right start end_ offset e seconds) as (K1 & K2 & K3); [done|done|unfold in_time_range, MinTimeT, MaxTimeT; lia|lia|unfold RangeExpansionAmount, SecondsPerDay, SecondsPerHour; lia|].
      destruct (Z.eqb_spec (f e) offset) as [E|E].
      { destruct (K1 E) as [Hk ->]. eexists. split; [done|]. done. }
      rewrite compute_zone, bind_ret by (unfold in_time_range, MinTimeT, MaxTimeT; lia). destruct (Z.eqb_spec (f seconds) (f e)); eexists; (split; [done|]); cbn; auto.
    + rewrite Hcompute, bind_ret by (done || lia). eexists. split; [done|]. cbn. split; [|done]. by apply known_point.
  - rewrite int64_checked_ok, bind_ret by lia. set (b := Z.max (start - 30 * (60 * 60 * 24)) (-8640000000000)). destruct (Z.leb_spec b seconds) as [He|He].
    + rewrite Hcompute, bind_ret by (done || lia).
      destruct (known_left start end_ offset b seconds) as (K1 & K2 & K3); [done|unfold INT64_MIN; lia|unfold in_time_range, MinTimeT, MaxTimeT; lia|lia|unfold RangeExpansionAmount, SecondsPerDay, SecondsPerHour; lia|].
      destruct (Z.eqb_spec (f b) offset) as [E|E].
      { destruct (K1 E) as [Hk ->]. eexists. split; [done|]. done. }
      rewrite compute_zone, bind_ret by (unfold in_time_range, MinTimeT, MaxTimeT; lia). destruct (Z.eqb_spec (f seconds) (f b)); eexists; (split; [done|]); cbn; auto.
    + rewrite Hcompute, bind_ret by (done || lia). eexists. split; [done|]. cbn. split; [|done]. by apply known_point.
Qed.

Lemma getOrComputeValue_spec r tz seconds : range_ok f r -> timeZone h tz = z -> (tz = None -> r = initial_range) -> in_time_range seconds ->
  exists r', getOrComputeValue r tz seconds compute = mret (f seconds, r', Some z) /\ range_ok f r'.
Proof.
  intros Hr Htz Hn Hs. destruct (getOrComputeValue_body_spec r tz seconds Hr Htz Hn Hs) as (r' & E & Hr'). exists r'. split; [|done].
  unfold getOrComputeValue. rewrite (sanityCheck_ok _ _ Hr), bind_ret, E, bind_ret. cbv beta iota. by rewrite (sanityCheck_ok _ _ Hr'), bind_ret.
Qed.
End cache.

(** * The zone without its caches *)

(** Bounds that hold for any host: the C library breaks times down into hours
    and minutes, and ICU's offsets stay within two days. *)
Definition tm_ok (t : tm) : Prop := 0 <= tm_hour t < 24 /\ 0 <= tm_min t < 60.

Definition sum_offset (o : option (Z * Z)) : Z := match o with Some (r, d) => r + d | None => 0 end.
Definition dst_of (o : option (Z * Z)) : Z := match o with Some (_, d) => d | None => 0 end.
Definition offset_in_range (o : option (Z * Z)) : Prop := - 2 ^ 31 <= sum_offset o < 2 ^ 31.

(** The offset of the zone at a time in seconds. *)
Definition local_offset (z : Zone) (s : Z) : Z := sum_offset (getOffset z (dbl (s * 1000))).
Definition utc_offset (z : Zone) (s : Z) : Z := sum_offset (getOffsetFromLocal z (dbl (s * 1000))).
Definition dst_offset (z : Zone) (s : Z) : Z := dst_of (getOffset z (dbl (s * 1000))).

Record zone_ok (z : Zone) : Prop := {
  zone_local : forall d, offset_in_range (getOffset z d);
  zone_utc : forall d, offset_in_range (getOffsetFromLocal z d);
  zone_local_rarely : changes_rarely (local_offset z);
  zone_utc_rarely : changes_rarely (utc_offset z);
  zone_dst_rarely : changes_rarely (dst_offset z);
}.

Record host_ok (h : Host) : Prop := {
  host_local_tm : forall t l, ComputeLocalTime h t = Some l -> tm_ok l;
  host_utc_tm : forall t u, ComputeUTCTime h t = Some u -> tm_ok u;
  host_zone : zone_ok (createDefault h);
}.

Definition day_seconds (t : tm) : Z := tm_hour t * 3600 + tm_min t * 60.

Definition standard_offset (h : Host) : Z :=
  match time h with
  | None => 0
  | Some now =>
      match ComputeLocalTime h now with
      | None => 0
      | Some l =>
          match (if tm_isdst l =? 0 then Some now else mktime h (Tm (tm_min l) (tm_hour l) (tm_mday l) 0)) with
          | None => 0
          | Some no_dst =>
              match ComputeUTCTime h no_dst with
              | None => 0
              | Some u =>
                  let d := day_seconds l - day_seconds u in
                  if tm_mday u =? tm_mday l then d else if d <? 0 then d + 86400 else d - 86400
              end
          end
      end
  end.

Definition clamp (ms : Z) : Z :=
  let s := Z.quot ms 1000 in
  if s >? MaxTimeT then MaxTimeT else if s <? MinTimeT then SecondsPerDay else s.

Lemma seconds_of_day_eq t : tm_ok t -> seconds_of_day t = mret (day_seconds t).
Proof.
  intros [Hh Hm]. unfold seconds_of_day, SecondsPerHour, uint32, SecondsPerMinute. rewrite (Z.mod_small (tm_hour t * (60 * 60))) by lia.
  rewrite double_mul_dbl, double_add_dbl, double_to_int_dbl by small. done.
Qed.

Lemma standard_offset_eq h : host_ok h -> UTCToLocalStandardOffsetSeconds h = mret (standard_offset h).
Proof.
  intros [Hl Hu _]. unfold UTCToLocalStandardOffsetSeconds, standard_offset. destruct (time h) as [now|]; [|done].
  destruct (ComputeLocalTime h now) as [l|] eqn:El; [|done]. destruct (if tm_isdst l =? 0 then _ else _) as [no_dst|]; [|done].
  destruct (ComputeUTCTime h no_dst) as [u|] eqn:Eu; [|done].
  rewrite !seconds_of_day_eq, !bind_ret by eauto. destruct (Hl _ _ El) as [??], (Hu _ _ Eu) as [??].
  cbv zeta. destruct (tm_mday u =? tm_mday l); [done|]. unfold day_seconds, SecondsPerDay, SecondsPerHour in *. rewrite Z.gtb_ltb.
  destruct (Z.ltb_spec (tm_hour l * 3600 + tm_min l * 60) (tm_hour u * 3600 + tm_min u * 60)).
  - replace (_ <? 0) with true by lia. rewrite wrap_signed_small by lia. f_equal. lia.
  - replace (_ <? 0) with false by lia. rewrite wrap_signed_small by lia. f_equal. lia.
Qed.

Lemma toClampedSeconds_eq ms : small ms -> toClampedSeconds ms = mret (clamp ms).
Proof.
  intros Hms. unfold toClampedSeconds, double_to_int64. rewrite msPerSecond_eq. destruct (quot_div ms 1000) as [-> ->]; [done|small..|].
  assert (- 2 ^ 53 < Z.quot ms 1000 < 2 ^ 53) by (unfold small in Hms; pose proof (Z.quot_rem ms 1000 ltac:(lia)); pose proof (Z.rem_bound_abs ms 1000 ltac:(lia)); lia).
  rewrite int64_checked_ok, bind_ret by lia. unfold clamp. by repeat case_match.
Qed.

Lemma clamp_range ms : in_time_range (clamp ms).
Proof. unfold clamp, in_time_range, MinTimeT, MaxTimeT, SecondsPerDay, SecondsPerHour. repeat case_match; bsplit; lia. Qed.

Lemma assert_time_eq s : in_time_range s -> assert_time s = mret tt.
Proof. intros [H1 H2]. unfold assert_time. rewrite assert_true by lia. unfold moz_assert. by replace (s <=? MaxTimeT) with true by lia. Qed.

Lemma date_of_seconds s : in_time_range s -> double_mul (dbl s) msPerSecond = dbl (s * 1000).
Proof. unfold in_time_range, MinTimeT, MaxTimeT. intros Hs. rewrite msPerSecond_eq. apply double_mul_dbl; small. Qed.

Lemma int_add_eq a b : - 2 ^ 31 <= a + b < 2 ^ 31 -> int_add a b = mret (a + b).
Proof. intros H. unfold int_add. by replace (_ && _) with true by lia. Qed.

Section zone.
Context (h : Host) (tz : option Zone) (z : Zone) (s : Z).
Hypotheses (Hz : timeZone h tz = z) (Hok : zone_ok z) (Hs : in_time_range s).

Lemma computeLocal_eq : computeLocalOffsetMilliseconds h tz s = mret (local_offset z s, Some z).
Proof.
  unfold computeLocalOffsetMilliseconds, local_offset. rewrite assert_time_eq, bind_ret, Hz, date_of_seconds by done.
  pose proof (zone_local z Hok (dbl (s * 1000))) as Hr. unfold offset_in_range in Hr. destruct (getOffset z _) as [[r d]|]; cbn [sum_offset] in *; [|done].
  by rewrite int_add_eq.
Qed.

Lemma computeUTC_eq : computeUTCOffsetMilliseconds h tz s = mret (utc_offset z s, Some z).
Proof.
  unfold computeUTCOffsetMilliseconds, utc_offset. rewrite assert_time_eq, bind_ret, Hz, date_of_seconds by done.
  pose proof (zone_utc z Hok (dbl (s * 1000))) as Hr. unfold offset_in_range in Hr. destruct (getOffsetFromLocal z _) as [[r d]|]; cbn [sum_offset] in *; [|done].
  by rewrite int_add_eq.
Qed.

Lemma computeDST_eq : computeDSTOffsetMilliseconds h tz s = mret (dst_offset z s, Some z).
Proof.
  unfold computeDSTOffsetMilliseconds, dst_offset. rewrite assert_time_eq, bind_ret, Hz, date_of_seconds by done.
  by destruct (getOffset z _) as [[r d]|].
Qed.
End zone.

(** ** The specification *)

Record ZoneState := MkZoneState { zs_status : TimeZoneStatus; zs_offset : Z; zs_zone : option Zone }.

Inductive request :=
  | Reset (mode : ResetTimeZoneMode)
  | Resync
  | StandardOffset
  | Offset (ms : Z) (which : TimeZoneOffset)
  | DSTOffset (ms : Z).

Definition spec_acquire (h : Host) (st : ZoneState) : ZoneState :=
  let new := standard_offset h in
  match zs_status st with
  | Valid => st
  | UpdateIfChanged => if new =? zs_offset st then MkZoneState Valid (zs_offset st) (zs_zone st) else MkZoneState Valid new None
  | NeedsUpdate => MkZoneState Valid new None
  end.

(** A query fixes the zone of the host as the zone in force, unless there is
    one already. *)
Definition spec_query (h : Host) (st : ZoneState) (f : Zone -> Z) : Z * ZoneState :=
  let st := spec_acquire h st in
  let z := timeZone h (zs_zone st) in
  (f z, MkZoneState (zs_status st) (zs_offset st) (Some z)).

Definition spec_step (h : Host) (st : ZoneState) (r : request) : option Z * ZoneState :=
  match r with
  | Reset mode =>
      (None, match zs_status st, mode with
             | NeedsUpdate, _ => st
             | _, ResetEvenIfOffsetUnchanged => MkZoneState NeedsUpdate (zs_offset st) (zs_zone st)
             | _, DontResetIfOffsetUnchanged => MkZoneState UpdateIfChanged (zs_offset st) (zs_zone st)
             end)
  | Resync => (None, spec_acquire h st)
  | StandardOffset => let st := spec_acquire h st in (Some (zs_offset st), st)
  | Offset ms UTCOffset => let '(v, st) := spec_query h st (fun z => local_offset z (clamp ms)) in (Some v, st)
  | Offset ms LocalOffset => let '(v, st) := spec_query h st (fun z => utc_offset z (clamp ms)) in (Some v, st)
  | DSTOffset ms => let '(v, st) := spec_query h st (fun z => dst_offset z (clamp ms)) in (Some v, st)
  end.

Definition step (h : Host) (d : DateTimeInfo) (r : request) : M (option Z * DateTimeInfo) :=
  match r with
  | Reset mode => mret (None, resetTimeZone d mode)
  | Resync => d ← resyncICUDefaultTimeZone h d; mret (None, d)
  | StandardOffset => '(v, d) ← utcToLocalStandardOffsetSeconds h d; mret (Some v, d)
  | Offset ms which => '(v, d) ← getOffsetMilliseconds h d ms which; mret (Some v, d)
  | DSTOffset ms => '(v, d) ← getDSTOffsetMilliseconds h d ms; mret (Some v, d)
  end.

Fixpoint answers (d : DateTimeInfo) (history : list (Host * request)) : M (list (option Z)) :=
  match history with
  | [] => mret []
  | (h, r) :: history => '(v, d) ← step h d r; vs ← answers d history; mret (v :: vs)
  end.

Fixpoint spec_answers (st : ZoneState) (history : list (Host * request)) : list (option Z) :=
  match history with
  | [] => []
  | (h, r) :: history => let '(v, st) := spec_step h st r in v :: spec_answers st history
  end.

(** ** The refinement *)

Definition caches_ok (d : DateTimeInfo) : Prop :=
  match timeZone_ d with
  | None => dstRange_ d = initial_range /\ utcRange_ d = initial_range /\ localRange_ d = initial_range
  | Some z => zone_ok z /\ range_ok (dst_offset z) (dstRange_ d) /\ range_ok (utc_offset z) (utcRange_ d) /\ range_ok (local_offset z) (localRange_ d)
  end.

Definition refines (d : DateTimeInfo) (st : ZoneState) : Prop :=
  st = MkZoneState (timeZoneStatus_ d) (utcToLocalStandardOffsetSeconds_ d) (timeZone_ d) /\ (timeZoneStatus_ d = NeedsUpdate \/ caches_ok d).

Definition valid_request (r : request) : Prop :=
  match r with Offset ms _ | DSTOffset ms => small ms | _ => True end.

Lemma acquire_refines h d st : host_ok h -> refines d st ->
  exists d', acquireLockWithValidTimeZone h d = mret d' /\ refines d' (spec_acquire h st) /\ timeZoneStatus_ d' = Valid.
Proof.
  intros Hh [-> Hc]. destruct d as [status o dst utc local z]. unfold acquireLockWithValidTimeZone, updateTimeZone, spec_acquire.
  cbn [timeZoneStatus_ utcToLocalStandardOffsetSeconds_ timeZone_ zs_status zs_offset zs_zone] in *.
  assert (Hfresh : refines (MkDateTimeInfo Valid (standard_offset h) initial_range initial_range initial_range None) (MkZoneState Valid (standard_offset h) None))
    by (split; [done|by right]).
  assert (Hreset : forall r, RangeCache_reset r = mret initial_range) by done.
  destruct status; [eexists; split_and!; [done|split; [done|exact Hc]|done]|..]; rewrite assert_true, standard_offset_eq, bind_ret by done; cbn [andb].
  - rewrite !Hreset, !bind_ret. eauto.
  - destruct (standard_offset h =? o); [|rewrite !Hreset, !bind_ret; eauto]. eexists. split_and!; [done| |done]. split; [done|].
    right. destruct Hc as [?|Hc]; [done|exact Hc].
Qed.

Lemma refines_zone h d st : host_ok h -> refines d st -> timeZoneStatus_ d = Valid ->
  let z := timeZone h (timeZone_ d) in
  zone_ok z /\ range_ok (dst_offset z) (dstRange_ d) /\ range_ok (utc_offset z) (utcRange_ d) /\ range_ok (local_offset z) (localRange_ d) /\
  (timeZone_ d = None -> dstRange_ d = initial_range /\ utcRange_ d = initial_range /\ localRange_ d = initial_range).
Proof.
  intros Hh [-> [Hv|Hc]] Hs z; [congruence|]. unfold caches_ok, z in *. destruct (timeZone_ d) as [z'|].
  - destruct Hc as (? & ? & ? & ?). split_and!; done.
  - destruct Hc as (-> & -> & ->). cbn. split; [apply host_zone; done|]. split_and!; auto using initial_range_ok.
Qed.

Lemma step_refines h d st r : host_ok h -> valid_request r -> refines d st ->
  exists d', step h d r = mret ((spec_step h st r).1, d') /\ refines d' (spec_step h st r).2.
Proof.
  intros Hh Hr Href. destruct r as [mode| | |ms which|ms]; cbn [step spec_step fst snd].
  { destruct Href as [-> Hc]. destruct d as [status o dst utc local z]. eexists. split; [done|].
    cbn in *. destruct status, mode; (split; [done|]); cbn; intuition congruence. }
  all: destruct (acquire_refines h d st Hh Href) as (d' & E & Hd' & Hv).
  - exists d'. unfold resyncICUDefaultTimeZone. by rewrite E, bind_ret.
  - exists d'. unfold utcToLocalStandardOffsetSeconds. rewrite E, !bind_ret. split; [|done]. destruct Hd' as [-> _]. done.
  - destruct (refines_zone h d' _ Hh Hd' Hv) as (Hz & Hdst & Hutc & Hlocal & Hnone). destruct Hd' as [Est _].
    unfold getOffsetMilliseconds, internalGetOffsetMilliseconds, spec_query. rewrite E, Est, bind_ret, toClampedSeconds_eq, bind_ret by done.
    pose proof (clamp_range ms) as Hcl. destruct d' as [status o dst utc local tz]. cbn in *. subst status. set (z := timeZone h tz) in *. destruct which.
    + destruct (getOrComputeValue_spec h z (local_offset z) (computeLocalOffsetMilliseconds h) (zone_local_rarely z Hz)
        (fun tz' s Et Hs => computeLocal_eq h tz' z s Et Hz Hs) local tz (clamp ms) Hlocal eq_refl (fun En => proj2 (proj2 (Hnone En))) Hcl) as (r' & Eg & Hr').
      rewrite Eg. eexists. split; [done|]. split; [done|]. right. cbn. done.
    + destruct (getOrComputeValue_spec h z (utc_offset z) (computeUTCOffsetMilliseconds h) (zone_utc_rarely z Hz)
        (fun tz' s Et Hs => computeUTC_eq h tz' z s Et Hz Hs) utc tz (clamp ms) Hutc eq_refl (fun En => proj1 (proj2 (Hnone En))) Hcl) as (r' & Eg & Hr').
      rewrite Eg. eexists. split; [done|]. split; [done|]. right. cbn. done.
  - destruct (refines_zone h d' _ Hh Hd' Hv) as (Hz & Hdst & Hutc & Hlocal & Hnone). destruct Hd' as [Est _].
    unfold getDSTOffsetMilliseconds, internalGetDSTOffsetMilliseconds, spec_query. rewrite E, Est, bind_ret, toClampedSeconds_eq, bind_ret by done.
    pose proof (clamp_range ms) as Hcl. destruct d' as [status o dst utc local tz]. cbn in *. subst status. set (z := timeZone h tz) in *.
    destruct (getOrComputeValue_spec h z (dst_offset z) (computeDSTOffsetMilliseconds h) (zone_dst_rarely z Hz)
      (fun tz' s Et Hs => computeDST_eq h tz' z s Et Hs) dst tz (clamp ms) Hdst eq_refl (fun En => proj1 (Hnone En)) Hcl) as (r' & Eg & Hr').
    rewrite Eg. eexists. split; [done|]. split; [done|]. right. cbn. done.
Qed.

Lemma answers_refine history : Forall (fun '(h, r) => host_ok h /\ valid_request r) history -> forall d st, refines d st ->
  answers d history = mret (spec_answers st history).
Proof.
  induction 1 as [|[h r] history [Hh Hr] _ IH]; intros d st Hd; [done|]. cbn [answers spec_answers].
  destruct (step_refines h d st r Hh Hr Hd) as (d' & E & Hd'). rewrite E, bind_ret. destruct (spec_step h st r) as [v st']. cbn in *.
  by rewrite (IH d' st' Hd'), bind_ret.
Qed.

Lemma new_refines junk : refines (new_DateTimeInfo junk) (MkZoneState NeedsUpdate (utcToLocalStandardOffsetSeconds_ junk) (timeZone_ junk)).
Proof. destruct junk. split; [done|by left]. Qed.
