(* ===== verification/DateObject.v ===== *)
(** Date objects (js/src/vm/DateObject.h, js/src/jsdate.cpp): the time value in
    a slot, the cache of the local fields in the others, the getters and the
    setters.  The time zone is an argument, given through the interface that
    TimeZone.v implements. *)
From S2P Require Import Prelude Words CheckedArithmetic FloatingPoint BigIntRep Conversions BigIntDouble DoubleArith Dates TimeZone.

(** * The interface to the time zone *)

(** [DateTimeInfo::getOffsetMilliseconds] and
    [DateTimeInfo::utcToLocalStandardOffsetSeconds], during one operation. *)
Class LocalZone := {
  zone_offset : Z -> TimeZoneOffset -> Z;
  zone_standard : Z;
}.

(** * Values in slots *)

Inductive SlotValue := UndefinedValue | Int32Value (n : Z) | DoubleValue (d : Z).

#[global] Instance slot_eq_dec : EqDecision SlotValue.
Proof. solve_decision. Defined.

(** [NumberEqualsInt32] and [NumberIsInt32]. *)
Definition NumberEqualsInt32 (aValue : Z) : M (option Z) :=
  if negb (IsFinite aValue) then mret None
  else if double_le (dbl (- 2 ^ 31)) aValue && double_le aValue (dbl (2 ^ 31 - 1)) then
    possible ← double_to_int aValue;
    if double_eq (dbl possible) aValue then mret (Some possible) else mret None
  else mret None.

Definition NumberIsInt32 (aValue : Z) : M (option Z) :=
  if IsNegativeZero aValue then mret None else NumberEqualsInt32 aValue.

Definition setNumber (d : Z) : M SlotValue :=
  i ← NumberIsInt32 d;
  mret (match i with Some i => Int32Value i | None => DoubleValue d end).

Definition toInt32 (v : SlotValue) : M Z := match v with Int32Value n => mret n | _ => throw AssertionFailed end.
Definition toDouble (v : SlotValue) : M Z := match v with DoubleValue d => mret d | _ => throw AssertionFailed end.

(** [JS::TimeValue]: the NaN is made canonical. *)
Definition TimeValue (t : Z) : Z := if IsNaN t then GenericNaN else t.

(** * The object *)

Record DateObject := MkDateObject {
  UTC_TIME : Z;
  UTC_TIME_ZONE_OFFSET : SlotValue;
  LOCAL_TIME : SlotValue;
  LOCAL_YEAR : SlotValue;
  LOCAL_MONTH : SlotValue;
  LOCAL_DATE : SlotValue;
  LOCAL_DAY : SlotValue;
  LOCAL_SECONDS_INTO_YEAR : SlotValue;
}.

Definition setUTCTime (obj : DateObject) (t : Z) : DateObject :=
  MkDateObject (TimeValue t) (UTC_TIME_ZONE_OFFSET obj)
    UndefinedValue UndefinedValue UndefinedValue UndefinedValue UndefinedValue UndefinedValue.

(** [NewDateObjectMsec] *)
Definition new_DateObject (t : Z) : DateObject :=
  setUTCTime (MkDateObject GenericNaN UndefinedValue UndefinedValue UndefinedValue UndefinedValue UndefinedValue UndefinedValue UndefinedValue) t.

(** [uint64_t(d)] *)
Definition double_to_uint64 (d : Z) : M Z :=
  if IsFinite d && (0 <=? integer_part d) && (integer_part d <? 2 ^ 64) then mret (integer_part d) else throw UndefinedBehavior.

Section zone.
Context `{LocalZone}.

(** ** Local time *)

Definition localTZA (t : Z) (offset : TimeZoneOffset) : M Z :=
  moz_assert (IsFinite t);;
  milliseconds ← double_to_int64 t;
  mret (dbl (zone_offset milliseconds offset)).

Definition LocalTime (t : Z) : M Z :=
  if negb (IsFinite t) then mret GenericNaN
  else
    moz_assert (double_le StartOfTime t && double_le t EndOfTime);;
    o ← localTZA t UTCOffset;
    mret (double_add t o).

Definition UTC (t : Z) : M Z :=
  if negb (IsFinite t) then mret GenericNaN
  else if double_lt t (double_sub StartOfTime msPerDay) || double_lt (double_add EndOfTime msPerDay) t then mret GenericNaN
  else
    o ← localTZA t LocalOffset;
    mret (double_sub t o).

(** ** The cache of the local fields *)

(** The search for the month: its number and the day before its first. *)
Definition fill_month (day yearDays : Z) : Z * Z :=
  let step := -1 in let next := 30 in
  if day <=? next then (0, step) else
  let step := next in let next := next + (if yearDays =? 366 then 29 else 28) in
  if day <=? next then (1, step) else
  let step := next in let next := next + 31 in
  if day <=? next then (2, step) else
  let step := next in let next := next + 30 in
  if day <=? next then (3, step) else
  let step := next in let next := next + 31 in
  if day <=? next then (4, step) else
  let step := next in let next := next + 30 in
  if day <=? next then (5, step) else
  let step := next in let next := next + 31 in
  if day <=? next then (6, step) else
  let step := next in let next := next + 31 in
  if day <=? next then (7, step) else
  let step := next in let next := next + 30 in
  if day <=? next then (8, step) else
  let step := next in let next := next + 31 in
  if day <=? next then (9, step) else
  let step := next in let next := next + 30 in
  if day <=? next then (10, step) else
  let step := next in
  (11, step).

(** The year of a local time, its start and its length. *)
Definition fill_year (localTime : Z) : M (Z * Z * Z) :=
  y ← double_to_int (double_floor (double_div localTime (double_mul msPerDay MeanDaysPerYear)));
  year ← int_add y 1970;
  let yearStartTime := TimeFromYear (dbl year) in
  if double_lt localTime yearStartTime then
    year ← int_add year (-1);
    d ← DaysInYear (dbl year);
    let yearStartTime := double_sub yearStartTime (double_mul msPerDay d) in
    yearDays ← double_to_int d;
    mret (year, yearStartTime, yearDays)
  else
    d ← DaysInYear (dbl year);
    yearDays ← double_to_int d;
    let nextStart := double_add yearStartTime (double_mul msPerDay (dbl yearDays)) in
    if double_le nextStart localTime then
      year ← int_add year 1;
      d ← DaysInYear (dbl year);
      yearDays ← double_to_int d;
      mret (year, nextStart, yearDays)
    else mret (year, yearStartTime, yearDays).

Definition fillLocalTimeSlots (obj : DateObject) : M DateObject :=
  let utcTZOffset := zone_standard in
  cached ← (if decide (LOCAL_TIME obj = UndefinedValue) then mret false
            else o ← toInt32 (UTC_TIME_ZONE_OFFSET obj); mret (o =? utcTZOffset));
  if cached : bool then mret obj
  else
    let utcTime := UTC_TIME obj in
    if negb (IsFinite utcTime) then
      let v := DoubleValue utcTime in
      mret (MkDateObject utcTime (Int32Value utcTZOffset) v v v v v v)
    else
      localTime ← LocalTime utcTime;
      '(year, yearStartTime, yearDays) ← fill_year localTime;
      yearTime ← double_to_uint64 (double_sub localTime yearStartTime);
      let yearSeconds := wrap_signed 32 (uint32 (yearTime / 1000)) in
      let day := Z.quot yearSeconds SecondsPerDay in
      let '(month, step) := fill_month day yearDays in
      weekday ← WeekDay localTime;
      mret (MkDateObject utcTime (Int32Value utcTZOffset) (DoubleValue localTime) (Int32Value year) (Int32Value month)
              (Int32Value (day - step)) (Int32Value weekday) (Int32Value yearSeconds)).

Definition cachedLocalTime (obj : DateObject) : M (Z * DateObject) :=
  obj ← fillLocalTimeSlots obj; t ← toDouble (LOCAL_TIME obj); mret (t, obj).

(** ** Getters: the value and the object *)

Definition getTime_impl (obj : DateObject) : M (SlotValue * DateObject) := mret (DoubleValue (UTC_TIME obj), obj).

Definition getYear_impl (obj : DateObject) : M (SlotValue * DateObject) :=
  obj ← fillLocalTimeSlots obj;
  match LOCAL_YEAR obj with
  | Int32Value year => y ← int_add year (-1900); mret (Int32Value y, obj)
  | v => mret (v, obj)
  end.

Definition getFullYear_impl (obj : DateObject) : M (SlotValue * DateObject) :=
  obj ← fillLocalTimeSlots obj; mret (LOCAL_YEAR obj, obj).
Definition getMonth_impl (obj : DateObject) : M (SlotValue * DateObject) :=
  obj ← fillLocalTimeSlots obj; mret (LOCAL_MONTH obj, obj).
Definition getDate_impl (obj : DateObject) : M (SlotValue * DateObject) :=
  obj ← fillLocalTimeSlots obj; mret (LOCAL_DATE obj, obj).
Definition getDay_impl (obj : DateObject) : M (SlotValue * DateObject) :=
  obj ← fillLocalTimeSlots obj; mret (LOCAL_DAY obj, obj).

Definition getHours_impl (obj : DateObject) : M (SlotValue * DateObject) :=
  obj ← fillLocalTimeSlots obj;
  match LOCAL_SECONDS_INTO_YEAR obj with
  | DoubleValue d => moz_assert (IsNaN d);; mret (DoubleValue d, obj)
  | v => s ← toInt32 v; mret (Int32Value (Z.rem (Z.quot s SecondsPerHour) 24), obj)
  end.
Definition getMinutes_impl (obj : DateObject) : M (SlotValue * DateObject) :=
  obj ← fillLocalTimeSlots obj;
  match LOCAL_SECONDS_INTO_YEAR obj with
  | DoubleValue d => moz_assert (IsNaN d);; mret (DoubleValue d, obj)
  | v => s ← toInt32 v; mret (Int32Value (Z.rem (Z.quot s 60) 60), obj)
  end.
Definition getSeconds_impl (obj : DateObject) : M (SlotValue * DateObject) :=
  obj ← fillLocalTimeSlots obj;
  match LOCAL_SECONDS_INTO_YEAR obj with
  | DoubleValue d => moz_assert (IsNaN d);; mret (DoubleValue d, obj)
  | v => s ← toInt32 v; mret (Int32Value (Z.rem s 60), obj)
  end.

Definition getTimezoneOffset_impl (obj : DateObject) : M (SlotValue * DateObject) :=
  let utctime := UTC_TIME obj in
  '(localtime, obj) ← cachedLocalTime obj;
  v ← setNumber (double_div (double_sub utctime localtime) msPerMinute); mret (v, obj).
End zone.

(** The getters of UTC fields leave the object alone. *)
Definition if_finite (f : Z -> M Z) (t : Z) : M SlotValue :=
  result ← (if IsFinite t then f t else mret t); setNumber result.

Definition getUTCFullYear_impl (obj : DateObject) : M SlotValue := if_finite YearFromTime (UTC_TIME obj).
Definition getUTCMonth_impl (obj : DateObject) : M SlotValue := m ← MonthFromTime (UTC_TIME obj); setNumber m.
Definition getUTCDate_impl (obj : DateObject) : M SlotValue := if_finite DateFromTime (UTC_TIME obj).
Definition getUTCDay_impl (obj : DateObject) : M SlotValue := if_finite (fun t => d ← WeekDay t; mret (dbl d)) (UTC_TIME obj).
Definition getUTCHours_impl (obj : DateObject) : M SlotValue := if_finite HourFromTime (UTC_TIME obj).
Definition getUTCMinutes_impl (obj : DateObject) : M SlotValue := if_finite MinFromTime (UTC_TIME obj).
Definition getUTCSeconds_impl (obj : DateObject) : M SlotValue := if_finite SecFromTime (UTC_TIME obj).
Definition getUTCMilliseconds_impl (obj : DateObject) : M SlotValue := if_finite msFromTime (UTC_TIME obj).

(** * Setters *)

Section setters.
(** The arguments are values of the language; converting one to a number may
    run code that changes this very object. *)
Context `{LocalZone} {Value : Type} (undefined : Value) (ToNumber : Value -> DateObject -> M (Z * DateObject)).

(** [args.get(i)] *)
Definition args_get (args : list Value) (i : nat) : Value := default undefined (args !! i).

Definition TimeOf (obj : DateObject) (t : Z) : M (SlotValue * DateObject) :=
  let obj := setUTCTime obj t in mret (DoubleValue (UTC_TIME obj), obj).

Definition date_setTime_impl (obj : DateObject) (args : list Value) : M (SlotValue * DateObject) :=
  match args with
  | [] => t ← UnspecifiedNaN; TimeOf obj t
  | a :: _ => '(result, obj) ← ToNumber a obj; t ← TimeClip result; TimeOf obj t
  end.

Definition OrDefault (FromTime : Z -> M Z) (args : list Value) (i : nat) (t : Z) (obj : DateObject) : M (Z * DateObject) :=
  match args !! i with
  | None => x ← FromTime t; mret (x, obj)
  | Some a => ToNumber a obj
  end.
Definition GetMsecsOrDefault := OrDefault msFromTime.
Definition GetSecsOrDefault := OrDefault SecFromTime.
Definition GetMinsOrDefault := OrDefault MinFromTime.
Definition GetDateOrDefault := OrDefault DateFromTime.
Definition GetMonthOrDefault := OrDefault MonthFromTime.

Definition date_setMilliseconds_impl (obj : DateObject) (args : list Value) : M (SlotValue * DateObject) :=
  t ← LocalTime (UTC_TIME obj);
  '(ms, obj) ← ToNumber (args_get args 0) obj;
  h ← HourFromTime t; m ← MinFromTime t; s ← SecFromTime t;
  let time := MakeTime h m s ms in
  u ← UTC (MakeDate (Day t) time);
  u ← TimeClip u;
  TimeOf obj u.

Definition date_setUTCMilliseconds_impl (obj : DateObject) (args : list Value) : M (SlotValue * DateObject) :=
  let t := UTC_TIME obj in
  '(milli, obj) ← ToNumber (args_get args 0) obj;
  h ← HourFromTime t; m ← MinFromTime t; s ← SecFromTime t;
  let time := MakeTime h m s milli in
  v ← TimeClip (MakeDate (Day t) time);
  TimeOf obj v.

Definition date_setSeconds_impl (obj : DateObject) (args : list Value) : M (SlotValue * DateObject) :=
  t ← LocalTime (UTC_TIME obj);
  '(s, obj) ← ToNumber (args_get args 0) obj;
  '(milli, obj) ← GetMsecsOrDefault args 1 t obj;
  h ← HourFromTime t; m ← MinFromTime t;
  let date := MakeDate (Day t) (MakeTime h m s milli) in
  u ← UTC date;
  u ← TimeClip u;
  TimeOf obj u.

Definition date_setUTCSeconds_impl (obj : DateObject) (args : list Value) : M (SlotValue * DateObject) :=
  let t := UTC_TIME obj in
  '(s, obj) ← ToNumber (args_get args 0) obj;
  '(milli, obj) ← GetMsecsOrDefault args 1 t obj;
  h ← HourFromTime t; m ← MinFromTime t;
  let date := MakeDate (Day t) (MakeTime h m s milli) in
  v ← TimeClip date;
  TimeOf obj v.

Definition date_setMinutes_impl (obj : DateObject) (args : list Value) : M (SlotValue * DateObject) :=
  t ← LocalTime (UTC_TIME obj);
  '(m, obj) ← ToNumber (args_get args 0) obj;
  '(s, obj) ← GetSecsOrDefault args 1 t obj;
  '(milli, obj) ← GetMsecsOrDefault args 2 t obj;
  h ← HourFromTime t;
  let date := MakeDate (Day t) (MakeTime h m s milli) in
  u ← UTC date;
  u ← TimeClip u;
  TimeOf obj u.

Definition date_setUTCMinutes_impl (obj : DateObject) (args : list Value) : M (SlotValue * DateObject) :=
  let t := UTC_TIME obj in
  '(m, obj) ← ToNumber (args_get args 0) obj;
  '(s, obj) ← GetSecsOrDefault args 1 t obj;
  '(milli, obj) ← GetMsecsOrDefault args 2 t obj;
  h ← HourFromTime t;
  let date := MakeDate (Day t) (MakeTime h m s milli) in
  v ← TimeClip date;
  TimeOf obj v.

Definition date_setHours_impl (obj : DateObject) (args : list Value) : M (SlotValue * DateObject) :=
  t ← LocalTime (UTC_TIME obj);
  '(h, obj) ← ToNumber (args_get args 0) obj;
  '(m, obj) ← GetMinsOrDefault args 1 t obj;
  '(s, obj) ← GetSecsOrDefault args 2 t obj;
  '(milli, obj) ← GetMsecsOrDefault args 3 t obj;
  let date := MakeDate (Day t) (MakeTime h m s milli) in
  u ← UTC date;
  u ← TimeClip u;
  TimeOf obj u.

Definition date_setUTCHours_impl (obj : DateObject) (args : list Value) : M (SlotValue * DateObject) :=
  let t := UTC_TIME obj in
  '(h, obj) ← ToNumber (args_get args 0) obj;
  '(m, obj) ← GetMinsOrDefault args 1 t obj;
  '(s, obj) ← GetSecsOrDefault args 2 t obj;
  '(milli, obj) ← GetMsecsOrDefault args 3 t obj;
  let newDate := MakeDate (Day t) (MakeTime h m s milli) in
  v ← TimeClip newDate;
  TimeOf obj v.

Definition date_setDate_impl (obj : DateObject) (args : list Value) : M (SlotValue * DateObject) :=
  t ← LocalTime (UTC_TIME obj);
  '(date, obj) ← ToNumber (args_get args 0) obj;
  y ← YearFromTime t; m ← MonthFromTime t; day ← MakeDay y m date; tod ← TimeWithinDay t;
  let newDate := MakeDate day tod in
  u ← UTC newDate;
  u ← TimeClip u;
  TimeOf obj u.

Definition date_setUTCDate_impl (obj : DateObject) (args : list Value) : M (SlotValue * DateObject) :=
  let t := UTC_TIME obj in
  '(date, obj) ← ToNumber (args_get args 0) obj;
  y ← YearFromTime t; m ← MonthFromTime t; day ← MakeDay y m date; tod ← TimeWithinDay t;
  let newDate := MakeDate day tod in
  v ← TimeClip newDate;
  TimeOf obj v.

Definition date_setMonth_impl (obj : DateObject) (args : list Value) : M (SlotValue * DateObject) :=
  t ← LocalTime (UTC_TIME obj);
  '(m, obj) ← ToNumber (args_get args 0) obj;
  '(date, obj) ← GetDateOrDefault args 1 t obj;
  y ← YearFromTime t; day ← MakeDay y m date; tod ← TimeWithinDay t;
  let newDate := MakeDate day tod in
  u ← UTC newDate;
  u ← TimeClip u;
  TimeOf obj u.

Definition date_setUTCMonth_impl (obj : DateObject) (args : list Value) : M (SlotValue * DateObject) :=
  let t := UTC_TIME obj in
  '(m, obj) ← ToNumber (args_get args 0) obj;
  '(date, obj) ← GetDateOrDefault args 1 t obj;
  y ← YearFromTime t; day ← MakeDay y m date; tod ← TimeWithinDay t;
  let newDate := MakeDate day tod in
  v ← TimeClip newDate;
  TimeOf obj v.

Definition ThisLocalTimeOrZero (obj : DateObject) : M Z :=
  let t := UTC_TIME obj in if IsNaN t then mret (dbl 0) else LocalTime t.

Definition ThisUTCTimeOrZero (obj : DateObject) : Z :=
  let t := UTC_TIME obj in if IsNaN t then dbl 0 else t.

Definition date_setFullYear_impl (obj : DateObject) (args : list Value) : M (SlotValue * DateObject) :=
  t ← ThisLocalTimeOrZero obj;
  '(y, obj) ← ToNumber (args_get args 0) obj;
  '(m, obj) ← GetMonthOrDefault args 1 t obj;
  '(date, obj) ← GetDateOrDefault args 2 t obj;
  day ← MakeDay y m date; tod ← TimeWithinDay t;
  let newDate := MakeDate day tod in
  u ← UTC newDate;
  u ← TimeClip u;
  TimeOf obj u.

Definition date_setUTCFullYear_impl (obj : DateObject) (args : list Value) : M (SlotValue * DateObject) :=
  let t := ThisUTCTimeOrZero obj in
  '(y, obj) ← ToNumber (args_get args 0) obj;
  '(m, obj) ← GetMonthOrDefault args 1 t obj;
  '(date, obj) ← GetDateOrDefault args 2 t obj;
  day ← MakeDay y m date; tod ← TimeWithinDay t;
  let newDate := MakeDate day tod in
  v ← TimeClip newDate;
  TimeOf obj v.

(** Years 0 to 99 are of the twentieth century. *)
Definition date_setYear_impl (obj : DateObject) (args : list Value) : M (SlotValue * DateObject) :=
  t ← ThisLocalTimeOrZero obj;
  '(y, obj) ← ToNumber (args_get args 0) obj;
  if IsNaN y then t ← UnspecifiedNaN; TimeOf obj t
  else
    let yint := ToInteger y in
    let yint := if double_le (dbl 0) yint && double_le yint (dbl 99) then double_add yint (dbl 1900) else yint in
    m ← MonthFromTime t; d ← DateFromTime t;
    day ← MakeDay yint m d; tod ← TimeWithinDay t;
    u ← UTC (MakeDate day tod);
    u ← TimeClip u;
    TimeOf obj u.

(** [Date.UTC]: there is no date object; [ToNumber] runs on the state of any. *)
Definition NumberOr (args : list Value) (i : nat) (d : Z) (obj : DateObject) : M (Z * DateObject) :=
  match args !! i with Some a => ToNumber a obj | None => mret (d, obj) end.

Definition date_UTC (args : list Value) (obj : DateObject) : M (Z * DateObject) :=
  '(y, obj) ← ToNumber (args_get args 0) obj;
  '(m, obj) ← NumberOr args 1 (dbl 0) obj;
  '(dt, obj) ← NumberOr args 2 (dbl 1) obj;
  '(h, obj) ← NumberOr args 3 (dbl 0) obj;
  '(min, obj) ← NumberOr args 4 (dbl 0) obj;
  '(s, obj) ← NumberOr args 5 (dbl 0) obj;
  '(milli, obj) ← NumberOr args 6 (dbl 0) obj;
  let yr :=
    if negb (IsNaN y) then
      let yint := ToInteger y in
      if double_le (dbl 0) yint && double_le yint (dbl 99) then double_add (dbl 1900) yint else y
    else y in
  day ← MakeDay yr m dt;
  t ← TimeClip (MakeDate day (MakeTime h min s milli));
  mret (TimeValue t, obj).
End setters.

(** * The methods by name *)

Inductive setter :=
  | setTime | setMilliseconds | setUTCMilliseconds | setSeconds | setUTCSeconds | setMinutes | setUTCMinutes | setHours | setUTCHours
  | setDate | setUTCDate | setMonth | setUTCMonth | setFullYear | setUTCFullYear | setYear.

Definition date_set {z : LocalZone} {Value} (undefined : Value) (ToNumber : Value -> DateObject -> M (Z * DateObject)) (s : setter) :
    DateObject -> list Value -> M (SlotValue * DateObject) :=
  match s with
  | setTime => date_setTime_impl ToNumber
  | setMilliseconds => date_setMilliseconds_impl undefined ToNumber
  | setUTCMilliseconds => date_setUTCMilliseconds_impl undefined ToNumber
  | setSeconds => date_setSeconds_impl undefined ToNumber
  | setUTCSeconds => date_setUTCSeconds_impl undefined ToNumber
  | setMinutes => date_setMinutes_impl undefined ToNumber
  | setUTCMinutes => date_setUTCMinutes_impl undefined ToNumber
  | setHours => date_setHours_impl undefined ToNumber
  | setUTCHours => date_setUTCHours_impl undefined ToNumber
  | setDate => date_setDate_impl undefined ToNumber
  | setUTCDate => date_setUTCDate_impl undefined ToNumber
  | setMonth => date_setMonth_impl undefined ToNumber
  | setUTCMonth => date_setUTCMonth_impl undefined ToNumber
  | setFullYear => date_setFullYear_impl undefined ToNumber
  | setUTCFullYear => date_setUTCFullYear_impl undefined ToNumber
  | setYear => date_setYear_impl undefined ToNumber
  end.

(** The getters that read the local time. *)
Inductive getter := getTime | getYear | getFullYear | getMonth | getDate | getDay | getHours | getMinutes | getSeconds | getTimezoneOffset.

Definition date_get {z : LocalZone} (g : getter) : DateObject -> M (SlotValue * DateObject) :=
  match g with
  | getTime => getTime_impl
  | getYear => getYear_impl
  | getFullYear => getFullYear_impl
  | getMonth => getMonth_impl
  | getDate => getDate_impl
  | getDay => getDay_impl
  | getHours => getHours_impl
  | getMinutes => getMinutes_impl
  | getSeconds => getSeconds_impl
  | getTimezoneOffset => getTimezoneOffset_impl
  end.
