(* ===== verification/DateObjectInv.v ===== *)
(** The functions of Date on any double, and the cache of the local fields of a
    Date object: what fills it, and that every operation keeps it coherent. *)
From S2P Require Import Prelude Words CheckedArithmetic FloatingPoint BigIntRep Conversions BigIntDouble DoubleArith DoubleWhole Dates DateCalendar TimeZone TimeZoneCache DateObject.

(** * Totality *)

Lemma wp_eq {A} (m : M A) a (Q : A -> Prop) E : m = mret a -> Q a -> wp m Q E.
Proof. intros ->. apply wp_ret. Qed.

Lemma ret_eq {A} (a b : A) : a = b -> (mret a : M A) = mret b.
Proof. by intros ->. Qed.

(** The time values the functions are applied to: NaN, or an integral time. *)
Definition date_time (t : Z) : Prop := t = GenericNaN \/ exists n, t = dbl n /\ time_bound n.

(** The time values of objects. *)
Definition valid_time (t : Z) : Prop := t = GenericNaN \/ exists n, t = dbl n /\ Z.abs n <= 8640000000000000.

Lemma valid_date_time t : valid_time t -> date_time t.
Proof. intros [->|(n & -> & Hn)]; [by left|]. right. exists n. unfold time_bound, day_ms. split; [done|lia]. Qed.

Lemma IsLeapYear_total y : whole_or_infinite y -> exists b, IsLeapYear y = mret b.
Proof. intros Hy. unfold IsLeapYear. rewrite assert_true by (by apply integral_whole). eauto. Qed.

Lemma MakeDay_total y m d : is_double y -> is_double m -> is_double d -> wp (MakeDay y m d) is_double no_error.
Proof.
  intros Hy Hm Hd. unfold MakeDay. destruct (IsFinite y) eqn:Fy; [|apply wp_ret; auto with doubles nocore].
  destruct (IsFinite m) eqn:Fm; [|apply wp_ret; auto with doubles nocore]. destruct (IsFinite d) eqn:Fd; [|apply wp_ret; auto with doubles nocore]. cbn [negb orb].
  pose proof (ToInteger_whole y Hy Fy) as Wy. destruct (ToInteger_whole m Hm Fm) as [Fi [n Hn]]. pose proof (Z.mod_pos_bound n 12 ltac:(lia)).
  rewrite (PositiveModulo_whole _ n), bind_ret, double_to_int_dbl, bind_ret by small.
  destruct (IsLeapYear_total (double_add (ToInteger y) (double_floor (double_div (ToInteger m) (dbl 12))))) as [leap ->].
  { apply double_add_whole; [auto with doubles nocore|done|]. apply double_floor_whole; [auto with doubles nocore|]. by apply double_div_not_nan. }
  rewrite bind_ret, DayFromMonth_eq, bind_ret by lia. apply wp_ret. cbv zeta. unfold TimeFromYear. auto 10 with doubles nocore.
Qed.

Section at_time.
Context (t : Z) (Ht : date_time t).

Ltac at_nan f := destruct Ht as [->|(n & -> & Hn)]; [apply (wp_eq _ GenericNaN); [vm_compute; reflexivity|auto with doubles nocore]|
  pose proof (time_small n Hn); rewrite f by done; apply wp_ret; auto with doubles nocore].

Lemma HourFromTime_total : wp (HourFromTime t) is_double no_error.
Proof. at_nan HourFromTime_dbl. Qed.
Lemma MinFromTime_total : wp (MinFromTime t) is_double no_error.
Proof. at_nan MinFromTime_dbl. Qed.
Lemma SecFromTime_total : wp (SecFromTime t) is_double no_error.
Proof. at_nan SecFromTime_dbl. Qed.
Lemma msFromTime_total : wp (msFromTime t) is_double no_error.
Proof. at_nan msFromTime_dbl. Qed.
Lemma TimeWithinDay_total : wp (TimeWithinDay t) is_double no_error.
Proof. at_nan TimeWithinDay_dbl. Qed.
Lemma YearFromTime_total : wp (YearFromTime t) is_double no_error.
Proof. at_nan YearFromTime_dbl. Qed.
Lemma MonthFromTime_total : wp (MonthFromTime t) is_double no_error.
Proof. at_nan MonthFromTime_dbl. Qed.
Lemma DateFromTime_total : wp (DateFromTime t) is_double no_error.
Proof. at_nan DateFromTime_dbl. Qed.

Lemma date_time_double : is_double t.
Proof. destruct Ht as [->|(n & -> & _)]; auto with doubles nocore. Qed.
End at_time.

Lemma Day_double t : is_double (Day t).
Proof. unfold Day. auto with doubles nocore. Qed.
Lemma MakeTime_double h m s ms : is_double h -> is_double m -> is_double s -> is_double ms -> is_double (MakeTime h m s ms).
Proof. intros. unfold MakeTime. case_match; auto with doubles nocore. Qed.
Lemma MakeDate_double d t : is_double t -> is_double (MakeDate d t).
Proof. intros. unfold MakeDate. case_match; auto with doubles nocore. Qed.
#[global] Opaque Day MakeTime MakeDate MakeDay.
#[export] Hint Resolve Day_double MakeTime_double MakeDate_double date_time_double : doubles.

Lemma UnspecifiedNaN_eq : UnspecifiedNaN = mret (kSignBit + kExponentBits + kSignificandBits).
Proof. vm_compute. reflexivity. Qed.

(** [TimeClip] of any double. *)
Definition clip (n : Z) : Z := if Z.abs n <=? 8640000000000000 then dbl n else GenericNaN.

Lemma clip_valid n : valid_time (clip n).
Proof. unfold clip. destruct (Z.leb_spec (Z.abs n) 8640000000000000); [right; eauto|by left]. Qed.

Lemma time_value_dbl n : small n -> TimeValue (dbl n) = dbl n.
Proof. intros Hn. unfold TimeValue. by rewrite dbl_not_nan. Qed.

Lemma TimeClip_total d : is_double d -> wp (TimeClip d) (fun c => valid_time (TimeValue c)) no_error.
Proof.
  intros Hd. unfold TimeClip. destruct (IsFinite d) eqn:Hf; cbn [negb orb]; [|rewrite UnspecifiedNaN_eq; apply wp_ret; by left].
  destruct (scaled_mod63 d Hd) as [Hs Hn]. pose proof (finite_not_nan d Hf) as Hnan. unfold MaxTimeMagnitude, double_abs.
  rewrite double_lt_small_l by (congruence || small). rewrite Hs. destruct (Z.ltb_spec (8640000000000000 * 2 ^ 1074) (Z.abs (scaled d))) as [Hlt|Hge].
  { rewrite UnspecifiedNaN_eq. apply wp_ret. by left. }
  assert (Hb : -8640000000000000 <= integer_part d <= 8640000000000000) by (apply integer_part_bounds; lia).
  rewrite ToInteger_small by small. apply wp_ret. rewrite time_value_dbl by small. right. eexists. split; [done|lia].
Qed.

Lemma TimeClip_dbl n : small n -> exists c, TimeClip (dbl n) = mret c /\ TimeValue c = clip n.
Proof.
  intros Hn. unfold TimeClip, clip, MaxTimeMagnitude, double_abs. rewrite finite_dbl by done. cbn [negb orb].
  destruct (scaled_mod63 (dbl n)) as [Hs Hnan]; [auto with doubles nocore|]. rewrite double_lt_small_l by (rewrite ?Hnan, ?dbl_not_nan by done; small).
  rewrite Hs, dbl_scaled, Z.abs_mul, (Z.abs_eq (2 ^ 1074)) by (done || (pose proof unit_pos; lia)). pose proof unit_pos.
  replace (8640000000000000 * 2 ^ 1074 <? Z.abs n * 2 ^ 1074) with (8640000000000000 <? Z.abs n)
    by (apply eq_true_iff_eq; rewrite !Z.ltb_lt; by apply Z.mul_lt_mono_pos_r).
  rewrite Z.leb_antisym. destruct (8640000000000000 <? Z.abs n); cbn [negb].
  - rewrite UnspecifiedNaN_eq. eauto.
  - rewrite ToInteger_dbl by done. eexists. split; [done|]. by apply time_value_dbl.
Qed.

(** * Local time *)

(** Offsets are below a day. *)
Definition zone_bounded (z : LocalZone) : Prop := forall ms w, Z.abs (zone_offset ms w) < day_ms.

Section local.
Context {z : LocalZone}.

Lemma localTZA_eq d w : IsFinite d = true -> - 2 ^ 63 <= integer_part d < 2 ^ 63 -> localTZA d w = mret (dbl (zone_offset (integer_part d) w)).
Proof. intros Hf Hi. unfold localTZA, double_to_int64. by rewrite assert_true, Hf, int64_checked_ok, bind_ret by done. Qed.

Lemma integer_part_dbl n : small n -> integer_part (dbl n) = n.
Proof. intros Hn. unfold integer_part. rewrite dbl_scaled by done. apply Z.quot_mul. pose proof unit_pos. lia. Qed.

Lemma LocalTime_dbl n : zone_bounded z -> Z.abs n <= 8640000000000000 ->
  LocalTime (dbl n) = mret (dbl (n + zone_offset n UTCOffset)) /\ time_bound (n + zone_offset n UTCOffset).
Proof.
  intros Hz Hn. pose proof (Hz n UTCOffset) as Ho. unfold day_ms in Ho. split; [|unfold time_bound, day_ms; lia].
  unfold LocalTime, StartOfTime, EndOfTime. rewrite finite_dbl, !double_le_dbl by small. cbn [negb].
  rewrite assert_true by lia. rewrite localTZA_eq, bind_ret by (rewrite ?integer_part_dbl by small; apply finite_dbl || lia; small).
  rewrite integer_part_dbl, double_add_dbl by small. done.
Qed.

Lemma LocalTime_total t : zone_bounded z -> valid_time t -> wp (LocalTime t) date_time no_error.
Proof.
  intros Hz [->|(n & -> & Hn)]; [apply wp_ret; by left|]. destruct (LocalTime_dbl n Hz Hn) as [-> Hb]. apply wp_ret. right. eauto.
Qed.

Lemma UTC_limits : double_sub StartOfTime msPerDay = dbl (-8640000086400000) /\ double_add EndOfTime msPerDay = dbl 8640000086400000.
Proof. rewrite msPerDay_eq. unfold StartOfTime, EndOfTime. by rewrite double_sub_dbl, double_add_dbl by small. Qed.

Lemma UTC_total d : is_double d -> wp (UTC d) is_double no_error.
Proof.
  intros Hd. unfold UTC. destruct UTC_limits as [-> ->]. destruct (IsFinite d) eqn:Hf; cbn [negb]; [|apply wp_ret; auto with doubles nocore].
  pose proof (finite_not_nan d Hf) as Hn. rewrite double_lt_small_l, double_lt_small_r by small.
  destruct (Z.ltb_spec (scaled d) (-8640000086400000 * 2 ^ 1074)) as [?|H1]; [apply wp_ret; auto with doubles nocore|].
  destruct (Z.ltb_spec (8640000086400000 * 2 ^ 1074) (scaled d)) as [?|H2]; [apply wp_ret; auto with doubles nocore|]. cbn [orb].
  assert (Hb : -8640000086400000 <= integer_part d <= 8640000086400000) by (apply integer_part_bounds; lia).
  rewrite localTZA_eq, bind_ret by (done || lia). apply wp_ret. auto with doubles nocore.
Qed.

Lemma UTC_dbl n : small n -> UTC (dbl n) = mret (if Z.abs n <=? 8640000000000000 + day_ms then double_sub (dbl n) (dbl (zone_offset n LocalOffset)) else GenericNaN).
Proof.
  intros Hn. unfold UTC. destruct UTC_limits as [-> ->]. rewrite finite_dbl, !double_lt_dbl by small. cbn [negb]. unfold day_ms.
  destruct (Z.leb_spec (Z.abs n) (8640000000000000 + 86400000)).
  - replace (_ || _) with false by lia. rewrite localTZA_eq, bind_ret by (rewrite ?integer_part_dbl by done; apply finite_dbl || (unfold small in Hn; lia); done).
    by rewrite integer_part_dbl.
  - by replace (_ || _) with true by lia.
Qed.
End local.

(** * The cache *)

Definition year_start (n : Z) : Z := days_before (year_of n) * day_ms.

(** The slots for the time value [u] in a zone. *)
Definition filled (z : LocalZone) (u : Z) : DateObject :=
  let offset := Int32Value zone_standard in
  if IsNaN u then let v := DoubleValue u in MkDateObject u offset v v v v v v
  else
    let n := integer_part u + zone_offset (integer_part u) UTCOffset in
    let leap := is_leap (year_of n) in
    let m := month_of leap (day_in_year n) in
    MkDateObject u offset (DoubleValue (dbl n)) (Int32Value (year_of n)) (Int32Value m)
      (Int32Value (day_in_year n - month_start leap m + 1)) (Int32Value ((n / day_ms + 4) mod 7)) (Int32Value ((n - year_start n) / 1000)).

Lemma fill_month_eq d leap : 0 <= d < (if leap : bool then 366 else 365) ->
  fill_month d (if leap then 366 else 365) = (month_of leap d, month_start leap (month_of leap d) - 1).
Proof.
  intros Hd. unfold fill_month. cbv zeta. destruct leap; unfold month_of; cbn [month_from Z.eqb Pos.eqb]; evaluate_tests;
    repeat (case_match; bsplit; try (exfalso; lia));
    match goal with |- context [month_start ?l ?k] => evaluate (month_start l k) end; f_equal.
Qed.

Lemma fill_year_eq n : time_bound n -> fill_year (dbl n) = mret (year_of n, dbl (year_start n), year_length (year_of n)).
Proof.
  intros Ht. pose proof (time_small n Ht) as Hs. unfold fill_year, year_start. rewrite msPerYear_eq, floor_div by small.
  unfold year_of. set (q := n / 31556952000). assert (Hq : -273792 <= q <= 273792).
  { unfold time_bound, day_ms in Ht. unfold q. split; [apply Z.div_le_lower_bound|apply Z.lt_succ_r, Z.div_lt_upper_bound]; lia. }
  clearbody q. rewrite double_to_int_dbl, bind_ret, int_add_eq, bind_ret by lia. set (y := q + 1970). assert (Hyb : Z.abs y <= 276000) by lia. clearbody y.
  assert (Hy : forall k, -1 <= k <= 1 -> year_bound (y + k)) by (unfold year_bound; lia).
  pose proof (days_small (y + 0) (Hy 0 ltac:(lia))) as Hd. pose proof (days_small (y + -1) (Hy (-1) ltac:(lia))) as Hd1. pose proof (days_small (y + 1) (Hy 1 ltac:(lia))) as Hd2.
  rewrite Z.add_0_r in Hd. pose proof (year_length_bounds y). pose proof (year_length_bounds (y + -1)). pose proof (year_length_bounds (y + 1)).
  rewrite TimeFromYear_dbl, double_lt_dbl by (done || unfold year_bound; lia). destruct (n <? days_before y * day_ms).
  - rewrite int_add_eq, bind_ret, DaysInYear_dbl, bind_ret, double_to_int_dbl, bind_ret by (lia || small). apply ret_eq.
    pose proof (days_before_succ (y + -1)) as E. replace (y + -1 + 1) with y in E by lia. rewrite E in Hd |- *. unfold day_ms in *.
    rewrite msPerDay_eq. unfold day_ms. rewrite double_mul_comm, double_mul_dbl, double_sub_dbl by small. replace (y - 1) with (y + -1) by lia. replace (year_length (y + -1) * 86400000) with (86400000 * year_length (y + -1)) by ring. do 2 f_equal. f_equal. lia.
  - rewrite DaysInYear_dbl, bind_ret, double_to_int_dbl, bind_ret by (lia || small).
    pose proof (days_before_succ y) as E. rewrite E in Hd2. unfold day_ms in *.
    rewrite msPerDay_eq. unfold day_ms. rewrite double_mul_comm, double_mul_dbl, double_add_dbl, double_le_dbl by small.
    rewrite <- Z.mul_add_distr_r. destruct (_ <=? n); [|done].
    rewrite int_add_eq, bind_ret, DaysInYear_dbl, bind_ret, double_to_int_dbl, bind_ret by (lia || small). by rewrite E.
Qed.

(** Seconds into the year, and back. *)
Lemma year_seconds n : 0 <= n - year_start n < 366 * day_ms /\ (n - year_start n) / 1000 / 86400 = day_in_year n.
Proof.
  unfold year_start, day_in_year. pose proof (year_of_spec n) as [H1 H2]. rewrite days_before_succ in H2. pose proof (year_length_bounds (year_of n)).
  split; [unfold day_ms in *; lia|]. rewrite Z.div_div by lia. change (1000 * 86400) with day_ms.
  replace (n - days_before (year_of n) * day_ms) with (n + - days_before (year_of n) * day_ms) by ring. rewrite Z.div_add by done. lia.
Qed.

Lemma fill_eq {z : LocalZone} obj : zone_bounded z -> valid_time (UTC_TIME obj) ->
  LOCAL_TIME obj = UndefinedValue \/ (exists o, UTC_TIME_ZONE_OFFSET obj = Int32Value o /\ o <> zone_standard) ->
  fillLocalTimeSlots obj = mret (filled z (UTC_TIME obj)).
Proof.
  intros Hz Hu Hstale. unfold fillLocalTimeSlots.
  assert (Hmiss : (if decide (LOCAL_TIME obj = UndefinedValue) then mret false
     else o ← toInt32 (UTC_TIME_ZONE_OFFSET obj); mret (o =? zone_standard) : M bool) = mret false).
  { destruct (decide _) as [?|Hne]; [done|]. destruct Hstale as [?|(o & -> & Ho)]; [done|]. cbn [toInt32]. rewrite bind_ret. by replace (o =? zone_standard) with false by lia. }
  rewrite Hmiss, bind_ret. clear Hmiss Hstale. unfold filled. destruct Hu as [->|(n & -> & Hn)]; [done|].
  rewrite finite_dbl, dbl_not_nan, integer_part_dbl by small. cbn [negb]. destruct (LocalTime_dbl n Hz Hn) as [-> Hb]. rewrite bind_ret.
  set (l := n + zone_offset n UTCOffset) in *. clearbody l. rewrite fill_year_eq, bind_ret by done. cbv beta iota.
  destruct (year_seconds l) as [Hys Hday]. pose proof (time_small l Hb) as Hs. pose proof (year_of_bound l Hb) as Hyl. pose proof (days_small (year_of l)) as Hdl.
  unfold year_bound in Hdl. specialize (Hdl ltac:(lia)). unfold day_ms in Hys.
  rewrite double_sub_dbl by (try done; unfold small, year_start in *; lia).
  unfold double_to_uint64. rewrite finite_dbl, integer_part_dbl by (unfold small; lia).
  replace (_ && _ && _) with true by lia. rewrite bind_ret. set (w := l - year_start l) in *.
  assert (Hw : 0 <= w / 1000 < 2 ^ 31) by (split; [apply Z.div_pos; lia|apply Z.div_lt_upper_bound; lia]).
  unfold uint32. rewrite Z.mod_small, wrap_signed_small by lia. rewrite Z.quot_div_nonneg by (unfold SecondsPerDay, SecondsPerHour; lia).
  change SecondsPerDay with 86400. rewrite Hday. pose proof (day_in_year_bounds l) as Hd. unfold year_length in Hd |- *.
  rewrite fill_month_eq by done. rewrite WeekDay_dbl, bind_ret by done. do 3 f_equal. lia.
Qed.

(** ** Coherence *)

(** The zones an object meets: a change of zone shows in the standard offset. *)
Definition compatible (Zs : LocalZone -> Prop) : Prop :=
  (forall z, Zs z -> zone_bounded z) /\
  forall z1 z2, Zs z1 -> Zs z2 -> zone_standard (LocalZone := z1) = zone_standard (LocalZone := z2) ->
    forall ms w, zone_offset (LocalZone := z1) ms w = zone_offset (LocalZone := z2) ms w.

Definition coherent (Zs : LocalZone -> Prop) (obj : DateObject) : Prop :=
  valid_time (UTC_TIME obj) /\ (LOCAL_TIME obj = UndefinedValue \/ exists z, Zs z /\ obj = filled z (UTC_TIME obj)).

Lemma filled_slots z u : UTC_TIME (filled z u) = u /\ LOCAL_TIME (filled z u) <> UndefinedValue /\ UTC_TIME_ZONE_OFFSET (filled z u) = Int32Value zone_standard.
Proof. unfold filled. by case_match. Qed.

Lemma filled_ext z1 z2 u : zone_standard (LocalZone := z1) = zone_standard (LocalZone := z2) ->
  (forall ms w, zone_offset (LocalZone := z1) ms w = zone_offset (LocalZone := z2) ms w) -> filled z1 u = filled z2 u.
Proof. intros Hs Ho. unfold filled. by rewrite Hs, !Ho. Qed.

Section objects.
Context (Zs : LocalZone -> Prop) (HZs : compatible Zs).

Lemma fill_coherent z obj : Zs z -> coherent Zs obj -> fillLocalTimeSlots (H := z) obj = mret (filled z (UTC_TIME obj)).
Proof.
  intros Hz [Hu Hc]. destruct HZs as [Hb Hcomp]. destruct Hc as [Hc|(z' & Hz' & E)]; [apply fill_eq; auto|].
  destruct (filled_slots z' (UTC_TIME obj)) as (_ & Hl & Ho). rewrite <- E in Hl, Ho.
  destruct (Z.eq_dec (zone_standard (LocalZone := z')) (zone_standard (LocalZone := z))) as [Es|Es].
  - unfold fillLocalTimeSlots. destruct (decide _) as [?|_]; [done|]. rewrite Ho. cbn [toInt32]. rewrite Es, bind_ret, Z.eqb_refl, bind_ret.
    rewrite E at 1. by rewrite (filled_ext z' z) by auto.
  - apply fill_eq; [auto|done|]. right. eauto.
Qed.

Lemma filled_coherent z u : Zs z -> valid_time u -> coherent Zs (filled z u).
Proof. intros Hz Hu. destruct (filled_slots z u) as (E & _ & _). unfold coherent. rewrite E. eauto. Qed.

Lemma setUTCTime_coherent obj t : valid_time (TimeValue t) -> coherent Zs (setUTCTime obj t).
Proof. intros Ht. split; [done|by left]. Qed.

Lemma new_coherent t : valid_time (TimeValue t) -> coherent Zs (new_DateObject t).
Proof. apply setUTCTime_coherent. Qed.

(** ** Setters *)

Context {Value : Type} (undefined : Value) (ToNumber : Value -> DateObject -> M (Z * DateObject)) (E : error -> Prop).
Hypothesis HToNumber : forall a obj, coherent Zs obj -> wp (ToNumber a obj) (fun '(d, obj) => is_double d /\ coherent Zs obj) E.

Definition keeps (m : M (SlotValue * DateObject)) : Prop := wp m (fun '(_, obj) => coherent Zs obj) E.

Lemma TimeOf_keeps obj d : is_double d -> keeps (t ← TimeClip d; TimeOf obj t).
Proof.
  intros Hd. apply wp_bind. eapply wp_mono; [by apply TimeClip_total| |done]. intros t Ht. apply wp_ret. by apply setUTCTime_coherent.
Qed.

Lemma OrDefault_total f args i t obj : wp (f t) is_double no_error -> coherent Zs obj ->
  wp (OrDefault ToNumber f args i t obj) (fun '(d, obj) => is_double d /\ coherent Zs obj) E.
Proof.
  intros Hf Ho. unfold OrDefault. destruct (args !! i); [by apply HToNumber|]. apply wp_bind. eapply wp_mono; [exact Hf| |done]. intros d Hd. by apply wp_ret.
Qed.

Lemma valid_zero : date_time (dbl 0).
Proof. right. exists 0. done. Qed.

Lemma UTC_then_TimeOf z obj d : is_double d -> keeps (u ← UTC (H := z) d; u ← TimeClip u; TimeOf obj u).
Proof. intros Hd. apply wp_bind. eapply wp_mono; [by apply UTC_total| |done]. intros u Hu. by apply TimeOf_keeps. Qed.

Lemma ThisLocalTimeOrZero_total z obj : Zs z -> valid_time (UTC_TIME obj) -> wp (ThisLocalTimeOrZero (H := z) obj) date_time no_error.
Proof.
  intros Hz Hu. unfold ThisLocalTimeOrZero. case_match; [apply wp_ret, valid_zero|]. apply LocalTime_total; [by apply HZs|done].
Qed.

Lemma ThisUTCTimeOrZero_total obj : valid_time (UTC_TIME obj) -> date_time (ThisUTCTimeOrZero obj).
Proof. intros Hu. unfold ThisUTCTimeOrZero. case_match; [apply valid_zero|by apply valid_date_time]. Qed.

(** A step of a setter: a call whose result is a double, or a double and the
    object. *)
Ltac field_total :=
  lazymatch goal with
  | |- wp (HourFromTime _) _ _ => apply HourFromTime_total
  | |- wp (MinFromTime _) _ _ => apply MinFromTime_total
  | |- wp (SecFromTime _) _ _ => apply SecFromTime_total
  | |- wp (msFromTime _) _ _ => apply msFromTime_total
  | |- wp (TimeWithinDay _) _ _ => apply TimeWithinDay_total
  | |- wp (YearFromTime _) _ _ => apply YearFromTime_total
  | |- wp (MonthFromTime _) _ _ => apply MonthFromTime_total
  | |- wp (DateFromTime _) _ _ => apply DateFromTime_total
  end;
  match goal with
  | Ht : date_time ?t |- date_time ?t => exact Ht
  | Ht : valid_time ?t |- date_time ?t => exact (valid_date_time t Ht)
  | |- date_time (ThisUTCTimeOrZero _) => apply ThisUTCTimeOrZero_total; assumption
  end.

Ltac result_double :=
  lazymatch goal with
  | Hd : is_double ?d |- is_double ?d => exact Hd
  | |- is_double (MakeDate _ _) => apply MakeDate_double; result_double
  | |- is_double (MakeTime _ _ _ _) => apply MakeTime_double; result_double
  | |- is_double (ToInteger _) => apply ToInteger_double; result_double
  | |- is_double (double_add _ _) => apply double_add_double; result_double
  | |- is_double (dbl _) => apply dbl_double
  | |- is_double (if _ then _ else _) => case_match; result_double
  end.

Ltac call_total :=
  lazymatch goal with
  | |- wp (ToNumber _ _) _ _ => apply HToNumber; assumption
  | |- wp (OrDefault _ _ _ _ _ _) _ _ => apply OrDefault_total; [field_total|assumption]
  | |- wp (LocalTime _) _ _ => apply LocalTime_total; [apply HZs|]; assumption
  | |- wp (ThisLocalTimeOrZero _) _ _ => apply ThisLocalTimeOrZero_total; assumption
  | |- wp (MakeDay _ _ _) _ _ => apply MakeDay_total; result_double
  | _ => field_total
  end.

Ltac total_step :=
  apply wp_bind; eapply wp_mono;
  [ call_total | cbv beta; first [intros [? ?] [? ?] | intros ? ?]; cbv beta iota zeta | try contradiction; trivial ].

Ltac setter_total :=
  repeat lazymatch goal with
  | |- wp (mbind _ (UTC _)) _ _ => apply UTC_then_TimeOf; result_double
  | |- wp (mbind _ (TimeClip _)) _ _ => apply TimeOf_keeps; result_double
  | _ => total_step
  end.

Lemma set_keeps z s obj args : Zs z -> coherent Zs obj -> keeps (date_set (z := z) undefined ToNumber s obj args).
Proof.
  intros Hz Hco. pose proof Hco as [Hu Hc]. unfold keeps. destruct s; cbn [date_set].
  { unfold date_setTime_impl. destruct args as [|a args].
    - rewrite UnspecifiedNaN_eq, bind_ret. apply wp_ret, setUTCTime_coherent. by left.
    - total_step. by apply TimeOf_keeps. }
  15: { unfold date_setYear_impl. total_step. total_step. case_match.
    - rewrite UnspecifiedNaN_eq, bind_ret. apply wp_ret, setUTCTime_coherent. by left.
    - cbv zeta. setter_total. }
  all: unfold date_setMilliseconds_impl, date_setUTCMilliseconds_impl, date_setSeconds_impl, date_setUTCSeconds_impl, date_setMinutes_impl, date_setUTCMinutes_impl,
    date_setHours_impl, date_setUTCHours_impl, date_setDate_impl, date_setUTCDate_impl, date_setMonth_impl, date_setUTCMonth_impl, date_setFullYear_impl, date_setUTCFullYear_impl,
    GetMsecsOrDefault, GetSecsOrDefault, GetMinsOrDefault, GetDateOrDefault, GetMonthOrDefault; cbv zeta; setter_total.
Qed.
End objects.

(** * Getters *)

Lemma setNumber_dbl n : - 2 ^ 31 <= n < 2 ^ 31 -> setNumber (dbl n) = mret (Int32Value n).
Proof.
  intros Hn. assert (Hs : small n) by small. unfold setNumber, NumberIsInt32, NumberEqualsInt32, IsNegativeZero.
  assert (Hz : (dbl n =? kSignBit) = false).
  { apply Z.eqb_neq. intros E. assert (H0 : n * 2 ^ 1074 = 0) by (rewrite <- dbl_scaled, E by done; done). apply (proj1 (unit_zero n)) in H0. rewrite H0, dbl_0 in E. discriminate. }
  rewrite Hz, finite_dbl, !double_le_dbl by small. cbn [negb]. replace ((- 2 ^ 31 <=? n) && (n <=? 2 ^ 31 - 1)) with true by lia.
  by rewrite double_to_int_dbl, bind_ret, double_eq_dbl, Z.eqb_refl by done.
Qed.

Lemma setNumber_inexact d : is_double d -> IsFinite d = true -> (forall n, scaled d <> n * 2 ^ 1074) -> setNumber d = mret (DoubleValue d).
Proof.
  intros Hd Hf Hn. unfold setNumber, NumberIsInt32, NumberEqualsInt32. destruct (IsNegativeZero d); [done|]. rewrite Hf. cbn [negb].
  destruct (double_le (dbl (- 2 ^ 31)) d && double_le d (dbl (2 ^ 31 - 1))) eqn:Hr; [|done]. apply andb_true_iff in Hr as [H1 H2].
  apply double_le_scaled in H1, H2. rewrite dbl_scaled in H1, H2 by small.
  pose proof (integer_part_bounds d (- 2 ^ 31) (2 ^ 31 - 1) ltac:(lia) ltac:(lia)) as Hi.
  unfold double_to_int. rewrite Hf. replace (_ && _ && _) with true by lia. rewrite bind_ret.
  assert (E : double_eq (dbl (integer_part d)) d = false); [|by rewrite E].
  apply not_true_iff_false. rewrite double_eq_iff by (done || apply dbl_double || (apply finite_dbl; small)). rewrite dbl_scaled by small.
  intros E. by apply (Hn (integer_part d)).
Qed.

(** What a getter returns, as a function of the zone and the time value. *)
Definition local_field (z : LocalZone) (g : getter) (u : Z) : SlotValue :=
  if IsNaN u then DoubleValue u
  else
    let t := integer_part u in
    let o := zone_offset t UTCOffset in
    let n := t + o in
    let leap := is_leap (year_of n) in
    let m := month_of leap (day_in_year n) in
    match g with
    | getTime => DoubleValue u
    | getYear => Int32Value (year_of n - 1900)
    | getFullYear => Int32Value (year_of n)
    | getMonth => Int32Value m
    | getDate => Int32Value (day_in_year n - month_start leap m + 1)
    | getDay => Int32Value ((n / day_ms + 4) mod 7)
    | getHours => Int32Value (n / 3600000 mod 24)
    | getMinutes => Int32Value (n / 60000 mod 60)
    | getSeconds => Int32Value (n / 1000 mod 60)
    | getTimezoneOffset => if (- o) mod 60000 =? 0 then Int32Value (- o / 60000) else DoubleValue (double_div (dbl (- o)) (dbl 60000))
    end.

(** The time of day from the seconds into the year. *)
Lemma seconds_fields n : let s := (n - year_start n) / 1000 in
  Z.rem (Z.quot s SecondsPerHour) 24 = n / 3600000 mod 24 /\ Z.rem (Z.quot s 60) 60 = n / 60000 mod 60 /\ Z.rem s 60 = n / 1000 mod 60.
Proof.
  intros s. destruct (year_seconds n) as [Hb _]. assert (Hs : 0 <= s) by (apply Z.div_pos; lia). change SecondsPerHour with 3600.
  rewrite !Z.quot_div_nonneg, !Z.rem_mod_nonneg by (try apply Z.div_pos; lia). unfold s, year_start in *. clear s Hs.
  set (d := days_before (year_of n)) in *. clearbody d. unfold day_ms in *. rewrite !Z.div_div by lia.
  replace (n - d * 86400000) with (n + - d * 24 * 3600000) by ring. rewrite Z.div_add by lia.
  replace (n + - d * 24 * 3600000) with (n + - d * 24 * 60 * 60000) by ring. rewrite Z.div_add by lia.
  replace (n + - d * 24 * 60 * 60000) with (n + - d * 24 * 60 * 60 * 1000) by ring. rewrite Z.div_add by lia.
  rewrite !Z.mod_add by lia. done.
Qed.

Lemma get_correct Zs z g obj : compatible Zs -> Zs z -> coherent Zs obj ->
  exists obj', date_get (z := z) g obj = mret (local_field z g (UTC_TIME obj), obj') /\ coherent Zs obj' /\ UTC_TIME obj' = UTC_TIME obj.
Proof.
  intros HZs Hz Hco. pose proof Hco as [Hu _]. pose proof (fill_coherent Zs HZs z obj Hz Hco) as Hfill.
  pose proof (filled_coherent Zs z (UTC_TIME obj) Hz Hu) as Hf. destruct (filled_slots z (UTC_TIME obj)) as (Eu & _ & _).
  destruct g; cbn [date_get]; unfold getTime_impl, getYear_impl, getFullYear_impl, getMonth_impl, getDate_impl, getDay_impl, getHours_impl, getMinutes_impl,
    getSeconds_impl, getTimezoneOffset_impl, cachedLocalTime; rewrite ?Hfill, ?bind_ret;
    [exists obj; split; [|done]|exists (filled z (UTC_TIME obj)); split; [|done]..].
  { unfold local_field. by case_match. }
  all: unfold filled, local_field in *; destruct Hu as [E|(n & E & Hn)]; rewrite E in *; [vm_compute; reflexivity|].
  all: rewrite dbl_not_nan, integer_part_dbl by small; cbn [LOCAL_YEAR LOCAL_MONTH LOCAL_DATE LOCAL_DAY LOCAL_SECONDS_INTO_YEAR LOCAL_TIME toInt32 toDouble].
  all: destruct (LocalTime_dbl (z := z) n (proj1 HZs z Hz) Hn) as [_ Hb]; set (l := n + zone_offset n UTCOffset) in *.
  all: try done.
  2,3,4: destruct (seconds_fields l) as (E1 & E2 & E3); cbv zeta in E1, E2, E3; by rewrite bind_ret, ?E1, ?E2, ?E3.
  - pose proof (year_of_bound l Hb). by rewrite int_add_eq, bind_ret by lia.
  - rewrite !bind_ret, msPerMinute_eq. pose proof (proj1 HZs z Hz n UTCOffset) as Ho. unfold time_bound, day_ms in *. set (o := zone_offset n UTCOffset) in *.
    rewrite double_sub_dbl by small. replace (n - l) with (- o) by lia. destruct (Z.eqb_spec (- o mod 60000) 0) as [E0|E0].
    + rewrite div_exact by (done || small). assert (-1441 <= - o / 60000 <= 1441) by (split; [apply Z.div_le_lower_bound|apply Z.lt_succ_r, Z.div_lt_upper_bound]; lia).
      by rewrite setNumber_dbl, bind_ret by lia.
    + destruct (div_inexact (- o) 60000) as [Hff Hni]; [small..|done|]. by rewrite setNumber_inexact, bind_ret by (done || apply double_div_double).
Qed.
