(* ===== verification/DateTheorems.v ===== *)
(** The properties of the calendar arithmetic of Date. *)
From S2P Require Import Prelude Words CheckedArithmetic FloatingPoint BigIntRep Conversions BigIntDouble DoubleArith DoubleWhole Dates DateCalendar TimeZone TimeZoneCache DateObject DateObjectInv.

(** * Time values and their components *)

(** The components of a time value, as [date_toISOString_impl] converts them. *)
Record fields := Fields { f_year : Z; f_month : Z; f_date : Z; f_hour : Z; f_min : Z; f_sec : Z; f_ms : Z }.

Definition fields_of (t : Z) : M fields :=
  y ← YearFromTime t; y ← double_to_int y;
  m ← MonthFromTime t; m ← double_to_int m;
  d ← DateFromTime t; d ← double_to_int d;
  h ← HourFromTime t; h ← double_to_int h;
  mi ← MinFromTime t; mi ← double_to_int mi;
  s ← SecFromTime t; s ← double_to_int s;
  ms ← msFromTime t; ms ← double_to_int ms;
  mret (Fields y m d h mi s ms).

Definition time_of (f : fields) : M Z :=
  d ← MakeDay (dbl (f_year f)) (dbl (f_month f)) (dbl (f_date f));
  mret (MakeDate d (MakeTime (dbl (f_hour f)) (dbl (f_min f)) (dbl (f_sec f)) (dbl (f_ms f)))).

(** A date of the calendar and a time of day; the years are those the parser
    of date strings lets through. *)
Definition valid (f : fields) : Prop :=
  Z.abs (f_year f) <= 275943 /\ 0 <= f_month f <= 11 /\
  1 <= f_date f <= month_length (is_leap (f_year f)) (f_month f) /\
  0 <= f_hour f < 24 /\ 0 <= f_min f < 60 /\ 0 <= f_sec f < 60 /\ 0 <= f_ms f < 1000.

#[global] Instance fields_eq_dec : EqDecision fields.
Proof. solve_decision. Defined.

Definition fields_at (t : Z) : fields :=
  let leap := is_leap (year_of t) in
  let m := month_of leap (day_in_year t) in
  Fields (year_of t) m (day_in_year t - month_start leap m + 1) (t / 3600000 mod 24) (t / 60000 mod 60) (t / 1000 mod 60) (t mod 1000).

Definition instant (f : fields) : Z :=
  day_number (f_year f) (f_month f) (f_date f) * day_ms + time_ms (f_hour f) (f_min f) (f_sec f) (f_ms f).

Lemma fields_at_valid t : time_bound t -> valid (fields_at t).
Proof.
  intros Ht. pose proof (year_of_bound t Ht) as Hy. pose proof (day_in_year_bounds t) as Hd. unfold year_length in Hd.
  destruct (month_of_spec (is_leap (year_of t)) (day_in_year t) Hd) as [Hm Hs]. rewrite month_start_succ in Hs by lia.
  unfold valid, fields_at. cbn [f_year f_month f_date f_hour f_min f_sec f_ms].
  pose proof (Z.mod_pos_bound (t / 3600000) 24 ltac:(lia)). pose proof (Z.mod_pos_bound (t / 60000) 60 ltac:(lia)).
  pose proof (Z.mod_pos_bound (t / 1000) 60 ltac:(lia)). pose proof (Z.mod_pos_bound t 1000 ltac:(lia)). lia.
Qed.

Lemma day_number_month y m d : 0 <= m <= 11 -> day_number y m d = days_before y + month_start (is_leap y) m + d - 1.
Proof. intros Hm. unfold day_number. by rewrite Z.div_small, Z.mod_small, Z.add_0_r by lia. Qed.

Lemma instant_fields_at t : instant (fields_at t) = t.
Proof.
  pose proof (day_in_year_bounds t) as Hd. unfold year_length in Hd. destruct (month_of_spec (is_leap (year_of t)) (day_in_year t) Hd) as [Hm _].
  unfold instant, fields_at. cbn [f_year f_month f_date f_hour f_min f_sec f_ms]. rewrite day_number_month by done. unfold day_in_year, time_ms, day_ms.
  Z.div_mod_to_equations. lia.
Qed.

(** The quotients and remainders of a recomposed time. *)
Lemma time_of_day n h mi s ms t : 0 <= h < 24 -> 0 <= mi < 60 -> 0 <= s < 60 -> 0 <= ms < 1000 -> t = n * day_ms + time_ms h mi s ms ->
  t / day_ms = n /\ t / 3600000 mod 24 = h /\ t / 60000 mod 60 = mi /\ t / 1000 mod 60 = s /\ t mod 1000 = ms.
Proof. intros Hh Hmi Hs Hms E. unfold day_ms, time_ms in *. Z.div_mod_to_equations. lia. Qed.

Lemma valid_instant_unique f : valid f -> fields_at (instant f) = f.
Proof.
  destruct f as [y m d h mi s ms]. intros (Hy & Hm & Hd & Hh & Hmi & Hs & Hms). cbn [f_year f_month f_date f_hour f_min f_sec f_ms] in *.
  set (t := instant _). destruct (time_of_day (day_number y m d) h mi s ms t Hh Hmi Hs Hms eq_refl) as (Ed & Eh & Emi & Es & Ems).
  rewrite day_number_month in Ed by done. pose proof (month_start_bounds (is_leap y) m ltac:(lia)).
  pose proof (month_start_succ (is_leap y) m ltac:(lia)) as Hsucc. pose proof (month_start_mono (is_leap y) (m + 1) 12 ltac:(lia) ltac:(lia)) as Hend.
  rewrite month_start_12 in Hend. pose proof (Z.div_mod t day_ms ltac:(done)) as Hdm. pose proof (Z.mod_pos_bound t day_ms ltac:(done)) as Hr.
  assert (Ey : y = year_of t).
  { apply year_of_unique. rewrite days_before_succ. unfold year_length, day_ms in *. lia. }
  assert (Ediy : day_in_year t = month_start (is_leap y) m + d - 1) by (unfold day_in_year; rewrite <- Ey; lia).
  assert (Em : m = month_of (is_leap y) (day_in_year t)) by (apply month_of_unique; lia).
  unfold fields_at. rewrite <- Ey, <- Em, Ediy, Eh, Emi, Es, Ems. f_equal. lia.
Qed.

Lemma fields_of_dbl t : time_bound t -> fields_of (dbl t) = mret (fields_at t).
Proof.
  intros Ht. pose proof (time_small t Ht) as Hs. destruct (fields_at_valid t Ht) as (Hy & Hm & Hd & Hh & Hmi & Hsec & Hms). unfold fields_of.
  unfold fields_at in *. cbn [f_year f_month f_date f_hour f_min f_sec f_ms] in *. pose proof (month_length_bounds (is_leap (year_of t)) (month_of (is_leap (year_of t)) (day_in_year t))).
  rewrite (YearFromTime_dbl t Ht), bind_ret, double_to_int_dbl, bind_ret, (MonthFromTime_dbl t Ht), bind_ret, double_to_int_dbl, bind_ret by (lia || assumption).
  rewrite (DateFromTime_dbl t Ht), bind_ret, double_to_int_dbl, bind_ret, (HourFromTime_dbl t Hs), bind_ret, double_to_int_dbl, bind_ret by (lia || assumption).
  rewrite (MinFromTime_dbl t Hs), bind_ret, double_to_int_dbl, bind_ret, (SecFromTime_dbl t Hs), bind_ret, double_to_int_dbl, bind_ret by (lia || assumption).
  by rewrite (msFromTime_dbl t Hs), bind_ret, double_to_int_dbl, bind_ret by (lia || assumption).
Qed.

Lemma instant_small f : valid f -> small (day_number (f_year f) (f_month f) (f_date f) * day_ms) /\ small (instant f).
Proof.
  intros (Hy & Hm & Hd & Hh & Hmi & Hs & Hms). unfold instant. rewrite !day_number_month by done. unfold small, day_ms, time_ms.
  pose proof (days_before_mean (f_year f)). pose proof (month_start_bounds (is_leap (f_year f)) (f_month f) ltac:(lia)).
  pose proof (month_length_bounds (is_leap (f_year f)) (f_month f)). lia.
Qed.

Lemma time_of_valid f : valid f -> time_of f = mret (dbl (instant f)).
Proof.
  intros Hv. destruct (instant_small f Hv) as [H1 H2]. destruct Hv as (Hy & Hm & Hd & Hh & Hmi & Hs & Hms). unfold time_of.
  pose proof (month_length_bounds (is_leap (f_year f)) (f_month f)).
  rewrite MakeDay_dbl, bind_ret, MakeTime_dbl by (lia || (rewrite Z.div_small by lia; unfold year_bound; lia)).
  rewrite MakeDate_dbl; [done..| |done]. unfold small, time_ms. lia.
Qed.

Lemma dbl_inj a b : small a -> small b -> dbl a = dbl b -> a = b.
Proof.
  intros Ha Hb E. assert (Hs : scaled (dbl a) = scaled (dbl b)) by (by rewrite E). rewrite !dbl_scaled in Hs by done.
  pose proof unit_pos. apply Z.mul_cancel_r in Hs; [done|lia].
Qed.

(** C40: the calendar functions invert each other on the whole range of time
    values. Every integral time value of a [Date], and of local time a day
    beyond, has components, computed in double arithmetic without a failed
    assertion: they form a date of the proleptic Gregorian calendar and a time
    of day; and of all such dates it is the only one that [MakeDay],
    [MakeTime] and [MakeDate] turn into that time value. *)
Theorem date_components_invert t : Z.abs t <= 8640000000000000 + day_ms -> exists f,
  fields_of (dbl t) = mret f /\ valid f /\ forall g, valid g -> (time_of g = mret (dbl t) <-> g = f).
Proof.
  intros Ht. exists (fields_at t). split; [by apply fields_of_dbl|]. split; [by apply fields_at_valid|]. intros g Hg. rewrite time_of_valid by done. split.
  - intros E. apply ret_inj, dbl_inj in E; [|by apply instant_small|by apply time_small]. by rewrite <- E, valid_instant_unique.
  - intros ->. by rewrite instant_fields_at.
Qed.

Lemma date_components_invert_witness : exists f,
  fields_of (dbl 1709164799999) = mret f /\ valid f /\ forall g, valid g -> (time_of g = mret (dbl 1709164799999) <-> g = f).
Proof. apply (date_components_invert 1709164799999). vm_compute. discriminate. Defined.

(** * The time zone *)

(** C3: the offset caches of [DateTimeInfo] are transparent. Whatever the two
    ranges of each cache hold, however the zone of the host changes and
    whenever it is reset, every answer is the one of the specification, which
    has no cache: the offset that the zone in force gives for the clamped
    second. The zone in force changes only as the deferred update allows. The
    premise on the zones is the one the class documents: an offset changes at
    most once in thirty days. *)
Theorem zone_cache_transparent junk history : Forall (fun '(h, r) => host_ok h /\ valid_request r) history ->
  answers (new_DateTimeInfo junk) history =
  mret (spec_answers (MkZoneState NeedsUpdate (utcToLocalStandardOffsetSeconds_ junk) (timeZone_ junk)) history).
Proof. intros Hh. apply (answers_refine history Hh), new_refines. Qed.

(** A zone with summer time from the second 1711846800 on. *)
Definition summer_zone : Zone :=
  let at_ d := Some (3600000, if double_lt d (dbl 1711846800000) then 0 else 3600000) in MkZone at_ at_.

Definition paris : Host :=
  MkHost (Some 1700000000) (fun _ => Some (Tm 13 23 14 0)) (fun _ => Some (Tm 13 22 14 0)) (fun _ => None) summer_zone.

Lemma step_changes_rarely f c a b : (forall s, in_time_range s -> f s = if s <? c then a else b) -> changes_rarely f.
Proof.
  intros Hf lo hi Hlo Hhi Hb. exists (Z.max lo (Z.min c (hi + 1))).
  split; intros s Hs; rewrite !Hf by (unfold in_time_range in *; lia).
  - destruct (Z.ltb_spec s c), (Z.ltb_spec lo c); done || lia.
  - destruct (Z.ltb_spec s c), (Z.ltb_spec hi c); done || lia.
Qed.

Lemma summer_test s : in_time_range s -> double_lt (dbl (s * 1000)) (dbl 1711846800000) = (s <? 1711846800).
Proof. unfold in_time_range, MinTimeT, MaxTimeT. intros Hs. rewrite double_lt_dbl by small. apply eq_true_iff_eq. rewrite !Z.ltb_lt. lia. Qed.

Lemma paris_ok : host_ok paris.
Proof.
  assert (Hsum : forall d, offset_in_range (getOffset summer_zone d)) by (intros d; unfold offset_in_range; cbn; case_match; lia).
  split; [intros t l E; injection E as <-; split; cbn; lia|intros t u E; injection E as <-; split; cbn; lia|]. split; [done|done|..].
  - apply (step_changes_rarely _ 1711846800 3600000 7200000). intros s Hs. unfold local_offset. cbn. rewrite summer_test by done. by case_match.
  - apply (step_changes_rarely _ 1711846800 3600000 7200000). intros s Hs. unfold utc_offset. cbn. rewrite summer_test by done. by case_match.
  - apply (step_changes_rarely _ 1711846800 0 3600000). intros s Hs. unfold dst_offset. cbn. rewrite summer_test by done. by case_match.
Qed.

Definition paris_day : list (Host * request) :=
  [(paris, Offset 1711846799000 UTCOffset); (paris, Offset 1711846800000 UTCOffset); (paris, Offset 1711846700000 UTCOffset); (paris, StandardOffset)].

Lemma zone_cache_transparent_witness : exists junk,
  answers (new_DateTimeInfo junk) paris_day = mret (spec_answers (MkZoneState NeedsUpdate (utcToLocalStandardOffsetSeconds_ junk) (timeZone_ junk)) paris_day) /\
  spec_answers (MkZoneState NeedsUpdate (utcToLocalStandardOffsetSeconds_ junk) (timeZone_ junk)) paris_day = [Some 3600000; Some 7200000; Some 3600000; Some 3600].
Proof.
  exists (MkDateTimeInfo Valid 0 initial_range initial_range initial_range None). split; [|vm_compute; reflexivity].
  apply zone_cache_transparent. unfold paris_day.
  repeat (apply Forall_cons; [split; [exact paris_ok|first [exact I|vm_compute; reflexivity]]|]). apply Forall_nil.
Defined.

(** * Date objects *)

Section history.
Context {Value : Type} (undefined : Value) (ToNumber : Value -> DateObject -> M (Z * DateObject)).

Inductive operation := Get (g : getter) | Set_ (s : setter) (args : list Value).

(** A history of method calls on one object, each in the zone of its moment.
    The log has, for each getter, the time value it was called at and what it
    returned. *)
Fixpoint perform (obj : DateObject) (history : list (LocalZone * operation)) : M (list (LocalZone * getter * Z * SlotValue)) :=
  match history with
  | [] => mret []
  | (z, Get g) :: history =>
      '(v, obj') ← date_get (z := z) g obj;
      log ← perform obj' history;
      mret ((z, g, UTC_TIME obj, v) :: log)
  | (z, Set_ s args) :: history =>
      '(_, obj) ← date_set (z := z) undefined ToNumber s obj args;
      perform obj history
  end.

Lemma perform_correct Zs (E : error -> Prop) history obj : compatible Zs ->
  (forall a obj, coherent Zs obj -> wp (ToNumber a obj) (fun '(d, obj) => is_double d /\ coherent Zs obj) E) ->
  Forall (fun '(z, _) => Zs z) history -> coherent Zs obj ->
  wp (perform obj history) (Forall (fun '(z, g, u, v) => v = local_field z g u)) E.
Proof.
  intros HZs HT Hh. revert obj. induction Hh as [|[z [g|s args]] history Hz _ IH]; intros obj Hobj; cbn [perform].
  - by apply wp_ret.
  - destruct (get_correct Zs z g obj HZs Hz Hobj) as (obj' & -> & Hobj' & _). rewrite bind_ret. apply wp_bind.
    eapply wp_mono; [by apply IH| |done]. intros log Hlog. apply wp_ret. by apply Forall_cons.
  - apply wp_bind. eapply wp_mono; [by apply (set_keeps Zs HZs undefined ToNumber E HT)| |done]. intros [v obj'] Hobj'. by apply IH.
Qed.
End history.

Arguments Get {Value} g.
Arguments Set_ {Value} s args.

(** C8: the cache of the local fields is never stale. Along any history of
    method calls on a new [Date], in zones whose offsets stay below a day and
    of which two with one standard offset are one zone, with arguments whose
    conversion to a number may throw and may change this very object: no
    assertion fails, no cast is out of range, the only errors are those the
    conversions throw; and each local getter returns the field of the calendar
    at the local time of the object's time value, or NaN. *)
Theorem local_fields_correct {Value} (undefined : Value) ToNumber Zs (E : error -> Prop) t history : compatible Zs ->
  (forall a obj, coherent Zs obj -> wp (ToNumber a obj) (fun '(d, obj) => is_double d /\ coherent Zs obj) E) ->
  Forall (fun '(z, _) => Zs z) history -> valid_time (TimeValue t) ->
  wp (perform undefined ToNumber (new_DateObject t) history) (Forall (fun '(z, g, u, v) => v = local_field z g u)) E.
Proof. intros HZs HT Hh Ht. apply (perform_correct undefined ToNumber Zs E history _ HZs HT Hh). by apply new_coherent. Qed.

(** Two zones, three hours and one hour east; a conversion that resets the
    object to the epoch before it returns its number. *)
Definition east (h : Z) : LocalZone := {| zone_offset _ _ := h * 3600000; zone_standard := h * 3600 |}.
Definition two_zones (z : LocalZone) : Prop := z = east 3 \/ z = east 1.
Definition resetting (a : Z) (obj : DateObject) : M (Z * DateObject) := mret (dbl a, setUTCTime obj (dbl 0)).

Lemma two_zones_compatible : compatible two_zones.
Proof.
  split; [by intros z [-> | ->]|]. by intros z1 z2 [-> | ->] [-> | ->].
Qed.

Lemma local_fields_correct_witness :
  let history := [(east 3, Get getHours); (east 1, Get getHours); (east 1, Set_ setUTCHours [23]); (east 1, Get getDate)] in
  wp (perform 0 resetting (new_DateObject (dbl 1709164799999)) history) (Forall (fun '(z, g, u, v) => v = local_field z g u)) no_error.
Proof.
  apply (local_fields_correct 0 resetting two_zones no_error).
  - exact two_zones_compatible.
  - intros a obj Hobj. apply wp_ret. split; [apply dbl_double|]. apply setUTCTime_coherent. right. exists 0. split; [vm_compute; reflexivity|done].
  - repeat (apply Forall_cons; [first [by left|by right]|]). apply Forall_nil.
  - right. exists 1709164799999. split; [vm_compute; reflexivity|done].
Defined.

(** ** A cache that is stale *)

Lemma fill_cached z1 z2 u : zone_standard (LocalZone := z1) = zone_standard (LocalZone := z2) ->
  fillLocalTimeSlots (H := z2) (filled z1 u) = mret (filled z1 u).
Proof.
  intros Es. destruct (filled_slots z1 u) as (_ & Hl & Ho). unfold fillLocalTimeSlots. destruct (decide _) as [?|_]; [done|].
  rewrite Ho. cbn [toInt32]. by rewrite Es, bind_ret, Z.eqb_refl, bind_ret.
Qed.

(** Berlin in summer, and Lagos: one standard offset. *)
Definition berlin : LocalZone := {| zone_offset _ _ := 7200000; zone_standard := 3600 |}.
Definition lagos : LocalZone := {| zone_offset _ _ := 3600000; zone_standard := 3600 |}.

Lemma hours_cached z1 z2 n : Z.abs n <= 8640000000000000 -> zone_standard (LocalZone := z1) = zone_standard (LocalZone := z2) ->
  getHours_impl (H := z2) (filled z1 (dbl n)) = mret (local_field z1 getHours (dbl n), filled z1 (dbl n)).
Proof.
  intros Hn Es. unfold getHours_impl. rewrite fill_cached, bind_ret by done. unfold filled, local_field.
  rewrite dbl_not_nan, integer_part_dbl by small. cbn [LOCAL_SECONDS_INTO_YEAR toInt32]. rewrite bind_ret.
  destruct (seconds_fields (n + zone_offset (LocalZone := z1) n UTCOffset)) as (E & _). cbv zeta in E. by rewrite E.
Qed.

(** C13: the cache is refreshed only when the standard offset of the zone
    changes. When the user moves from Berlin in summer to Lagos, which has the
    same one, an object that was asked before keeps answering with the hour of
    Berlin, whatever its time value, even after the engine was told to reset
    the zone. *)
Theorem local_fields_can_be_stale {Value} (undefined : Value) ToNumber n : Z.abs n <= 8640000000000000 ->
  let u := dbl n in
  perform undefined ToNumber (new_DateObject u) [(berlin, Get getHours); (lagos, Get getHours)] =
    mret [(berlin, getHours, u, local_field berlin getHours u); (lagos, getHours, u, local_field berlin getHours u)] /\
  local_field berlin getHours u <> local_field lagos getHours u.
Proof.
  intros Hn u. assert (Hs : small n) by small. assert (Et : TimeValue u = u) by (by apply time_value_dbl).
  assert (Hv : valid_time u) by (right; eauto). split.
  - cbn [perform date_get]. assert (Hfill : fillLocalTimeSlots (H := berlin) (new_DateObject u) = mret (filled berlin u)).
    { rewrite fill_eq; [|by intros ms w|by cbn; rewrite Et|by left]. cbn [UTC_TIME new_DateObject setUTCTime]. by rewrite Et. }
    assert (Eh : getHours_impl (H := berlin) (new_DateObject u) = getHours_impl (H := berlin) (filled berlin u))
      by (unfold getHours_impl; by rewrite Hfill, fill_cached).
    rewrite Eh. unfold u in *. rewrite !hours_cached, !bind_ret by done. cbv beta iota. rewrite hours_cached, !bind_ret by done.
    destruct (filled_slots berlin (dbl n)) as (-> & _). cbn [UTC_TIME new_DateObject setUTCTime]. by rewrite Et.
  - unfold local_field, u. rewrite dbl_not_nan, integer_part_dbl by done. cbn [zone_offset berlin lagos]. intros E. injection E as E.
    replace (n + 7200000) with (n + 3600000 + 1 * 3600000) in E by lia. rewrite Z.div_add in E by lia. set (q := (n + 3600000) / 3600000) in *.
    pose proof (Z.div_mod q 24 ltac:(lia)). pose proof (Z.div_mod (q + 1) 24 ltac:(lia)). lia.
Qed.

Lemma local_fields_can_be_stale_witness :
  let u := dbl 1720000000000 in
  perform 0 resetting (new_DateObject u) [(berlin, Get getHours); (lagos, Get getHours)] =
    mret [(berlin, getHours, u, local_field berlin getHours u); (lagos, getHours, u, local_field berlin getHours u)] /\
  local_field berlin getHours u <> local_field lagos getHours u.
Proof. apply (local_fields_can_be_stale 0 resetting 1720000000000). vm_compute. discriminate. Defined.
