(* ===== verification/DateStrings.v ===== *)
(** Dates and strings (js/src/jsdate.cpp): toISOString, toUTCString, the two
    parsers and Date.parse.  A position in the string that is read is the list
    of the characters from there on, so [index < length] says that the list
    is not empty; a string has fewer than 2^30 characters, and no index or
    count of characters overflows. *)
From Stdlib Require Import String.
From S2P Require Import Prelude Words CheckedArithmetic FloatingPoint BigIntRep Conversions BigIntDouble Numerals BigIntPrint DoubleArith Dates TimeZone DateObject.

#[local] Open Scope list_scope.
#[local] Open Scope Z_scope.

(** * Printing *)

(** [snprintf]: the conversion [%.Nd], or [%+.Nd], of an [int]. *)
Fixpoint width (fuel : nat) (v : Z) : nat :=
  match fuel with
  | O => O
  | S fuel => if v =? 0 then O else S (width fuel (v / 10))
  end.
Fixpoint decimal (n : nat) (v : Z) : list Z :=
  match n with
  | O => []
  | S n => decimal n (v / 10) ++ [48 + v mod 10]
  end.
Definition format_int (plus : bool) (precision : nat) (v : Z) : list Z :=
  (if v <? 0 then [45] else if plus then [43] else []) ++ decimal (Nat.max precision (width 10 (Z.abs v))) (Z.abs v).

(** [SprintfLiteral] into an array of [size] characters. *)
Definition SprintfLiteral (size : nat) (chars : list Z) : list Z := take (size - 1) chars.

(** [int(f(utctime))] *)
Definition int_of (f : Z -> M Z) (t : Z) : M Z := d ← f t; double_to_int d.

Definition date_toISOString_impl (obj : DateObject) : M (list Z) :=
  let utctime := UTC_TIME obj in
  if negb (IsFinite utctime) then throw InvalidDate
  else
    year ← int_of YearFromTime utctime;
    let plus := (year <? 0) || (year >? 9999) in
    y ← int_of YearFromTime utctime;
    m ← int_of MonthFromTime utctime; m ← int_add m 1;
    d ← int_of DateFromTime utctime;
    h ← int_of HourFromTime utctime;
    mi ← int_of MinFromTime utctime;
    s ← int_of SecFromTime utctime;
    ms ← int_of msFromTime utctime;
    let buf := SprintfLiteral 100
      ((if plus then format_int true 6 y else format_int false 4 y) ++ codes "-"%string ++
       format_int false 2 m ++ codes "-"%string ++ format_int false 2 d ++ codes "T"%string ++
       format_int false 2 h ++ codes ":"%string ++ format_int false 2 mi ++ codes ":"%string ++
       format_int false 2 s ++ codes "."%string ++ format_int false 3 ms ++ codes "Z"%string) in
    copy_to_string buf.

Definition days : list (list Z) := codes <$> ["Sun"; "Mon"; "Tue"; "Wed"; "Thu"; "Fri"; "Sat"]%string.
Definition months : list (list Z) :=
  codes <$> ["Jan"; "Feb"; "Mar"; "Apr"; "May"; "Jun"; "Jul"; "Aug"; "Sep"; "Oct"; "Nov"; "Dec"]%string.

(** An element of one of these arrays. *)
Definition name_at (names : list (list Z)) (i : Z) : M (list Z) :=
  if 0 <=? i then match names !! Z.to_nat i with Some name => mret name | None => throw UndefinedBehavior end
  else throw UndefinedBehavior.

Definition date_toGMTString_impl (obj : DateObject) : M (list Z) :=
  let utctime := UTC_TIME obj in
  if negb (IsFinite utctime) then mret (codes "Invalid Date"%string)
  else
    w ← WeekDay utctime; day ← name_at days w;
    d ← int_of DateFromTime utctime;
    m ← int_of MonthFromTime utctime; month ← name_at months m;
    y ← int_of YearFromTime utctime;
    h ← int_of HourFromTime utctime;
    mi ← int_of MinFromTime utctime;
    s ← int_of SecFromTime utctime;
    let buf := SprintfLiteral 100
      (day ++ codes ", "%string ++ format_int false 2 d ++ codes " "%string ++ month ++ codes " "%string ++ format_int false 4 y ++ codes " "%string ++
       format_int false 2 h ++ codes ":"%string ++ format_int false 2 mi ++ codes ":"%string ++ format_int false 2 s ++ codes " GMT"%string) in
    copy_to_string buf.

(** * The format of the standard *)

Definition IsAsciiDigit (c : Z) : bool := (48 <=? c) && (c <=? 57).
Definition IsAsciiLowercaseAlpha (c : Z) : bool := (97 <=? c) && (c <=? 122).
Definition IsAsciiUppercaseAlpha (c : Z) : bool := (65 <=? c) && (c <=? 90).
Definition IsAsciiAlpha (c : Z) : bool := IsAsciiLowercaseAlpha c || IsAsciiUppercaseAlpha c.

(** The loop of [ParseDigits]: at most [limit] characters, into a [size_t]. *)
Fixpoint digits_loop (limit : nat) (result : Z) (s : list Z) : Z * list Z :=
  match limit, s with
  | S limit, c :: s' =>
      if IsAsciiDigit c then digits_loop limit (uint64 (uint64 (result * 10) + (c - 48))) s' else (result, s)
  | _, _ => (result, s)
  end.

(** Whether digits were read, their value, and the position after them. *)
Definition ParseDigits (limit : nat) (s : list Z) : bool * Z * list Z :=
  let '(result, s') := digits_loop limit 0 s in (negb (zlen s' =? zlen s), result, s').

(** The literal [0.1]. *)
Definition one_tenth : Z := double_div (dbl 1) (dbl 10).

Fixpoint fractional_loop (factor result : Z) (s : list Z) : Z * list Z :=
  match s with
  | c :: s' =>
      if IsAsciiDigit c then
        fractional_loop (double_mul factor one_tenth) (double_add result (double_mul (dbl (c - 48)) factor)) s'
      else (result, s)
  | [] => (result, s)
  end.
Definition ParseFractional (s : list Z) : bool * Z * list Z :=
  let '(result, s') := fractional_loop one_tenth (dbl 0) s in (negb (zlen s' =? zlen s), result, s').

Definition ParseDigitsN (n : nat) (s : list Z) : bool * Z * list Z :=
  let '(ok, result, s') := ParseDigits n s in
  if ok : bool then (zlen s - zlen s' =? Z.of_nat n, result, s') else (false, result, s).

Definition ParseDigitsNOrLess (n : nat) (s : list Z) : bool * Z * list Z :=
  let '(ok, result, s') := ParseDigits n s in
  if ok : bool then ((zlen s - zlen s' >? 0) && (zlen s - zlen s' <=? Z.of_nat n), result, s') else (false, result, s).

Definition PEEK (ch : Z) (s : list Z) : bool := match s with c :: _ => c =? ch | [] => false end.

(** The result of a parser: [None] is failure. *)
Definition parsed : Type := M (option Z).

Definition NEED (ch : Z) (s : list Z) (k : list Z -> parsed) : parsed :=
  if PEEK ch s then k (tail s) else mret None.

Definition NEED_NDIGITS (n : nat) (s : list Z) (k : Z -> list Z -> parsed) : parsed :=
  let '(ok, field, s) := ParseDigitsN n s in
  if ok : bool then k field s else mret None.

Definition NEED_NDIGITS_OR_LESS (n : nat) (isStrict isPermissive : bool) (s : list Z)
    (k : Z -> bool -> list Z -> parsed) : parsed :=
  let '(ok, field, s') := ParseDigitsNOrLess n s in
  if negb ok then mret None
  else if zlen s - zlen s' <? Z.of_nat n then
    if isStrict then mret None else k field true s'
  else k field isPermissive s'.

Section zone.
Context `{LocalZone}.

(** From the label [done] on. *)
Definition iso_done (dateMul year month day hour min sec frac : Z) (isLocalTime : bool) (tzMul tzHour tzMin : Z) (s : list Z) : parsed :=
  invalid ←
    (if (year >? 275943) || ((month =? 0) || (month >? 12)) then mret true
     else if day =? 0 then mret true
     else
       days ← DaysInMonth year month;
       mret ((day >? days) || (hour >? 24) ||
             ((hour =? 24) && ((min >? 0) || (sec >? 0) || double_lt (dbl 0) frac)) ||
             (min >? 59) || (sec >? 59) || (tzHour >? 23) || (tzMin >? 59)));
  if invalid : bool then mret None
  else if negb (zlen s =? 0) then mret None
  else
    let month := month - 1 in
    d ← MakeDay (double_mul (dbl dateMul) (dbl year)) (dbl month) (dbl day);
    let msec := MakeDate d (MakeTime (dbl hour) (dbl min) (dbl sec) (double_mul frac (dbl 1000))) in
    msec ← (if isLocalTime then UTC msec
            else mret (double_sub msec (double_mul (dbl tzMul) (double_add (double_mul (dbl tzHour) msPerHour) (double_mul (dbl tzMin) msPerMinute)))));
    result ← TimeClip msec;
    mret (if NumbersAreIdentical msec result then Some result else None).

(** The designator of the time zone. *)
Definition iso_zone (dateMul year month day hour min sec frac : Z) (s : list Z) : parsed :=
  let done := iso_done dateMul year month day hour min sec frac in
  if PEEK 90 s then done false 1 0 0 (tail s)
  else if PEEK 43 s || PEEK 45 s then
    let tzMul := if PEEK 45 s then -1 else 1 in
    NEED_NDIGITS 2 (tail s) (fun tzHour s =>
    let s := if PEEK 58 s then tail s else s in
    NEED_NDIGITS 2 s (fun tzMin s =>
    done false tzMul tzHour tzMin s))
  else done true 1 0 0 s.

(** The time of day. *)
Definition iso_clock (dateMul year month day : Z) (isStrict isPermissive : bool) (s : list Z) : parsed :=
  NEED_NDIGITS_OR_LESS 2 isStrict isPermissive s (fun hour isPermissive s =>
  NEED 58 s (fun s =>
  NEED_NDIGITS_OR_LESS 2 isStrict isPermissive s (fun min isPermissive s =>
  if PEEK 58 s then
    NEED_NDIGITS_OR_LESS 2 isStrict isPermissive (tail s) (fun sec isPermissive s =>
    if PEEK 46 s then
      let '(ok, frac, s) := ParseFractional (tail s) in
      if ok : bool then iso_zone dateMul year month day hour min sec frac s else mret None
    else iso_zone dateMul year month day hour min sec (dbl 0) s)
  else iso_zone dateMul year month day hour min 0 (dbl 0) s))).

(** From the label [done_date] on. *)
Definition iso_time (dateMul year month day : Z) (isPermissive : bool) (s : list Z) : parsed :=
  if PEEK 84 s then
    if isPermissive then mret None else iso_clock dateMul year month day true isPermissive (tail s)
  else if PEEK 32 s then iso_clock dateMul year month day false isPermissive (tail s)
  else iso_done dateMul year month day 0 0 0 (dbl 0) false 1 0 0 s.

(** After the year; its length decides nothing any more. *)
Definition iso_date (dateMul year : Z) (s : list Z) : parsed :=
  if negb (PEEK 45 s) then iso_time dateMul year 1 1 false s else
  NEED_NDIGITS_OR_LESS 2 false false (tail s) (fun month isPermissive s =>
  if negb (PEEK 45 s) then iso_time dateMul year month 1 isPermissive s else
  NEED_NDIGITS_OR_LESS 2 false isPermissive (tail s) (fun day isPermissive s =>
  iso_time dateMul year month day isPermissive s)).

Definition ParseISOStyleDate (s : list Z) : parsed :=
  if PEEK 43 s || PEEK 45 s then
    let dateMul := if PEEK 45 s then -1 else 1 in
    NEED_NDIGITS 6 (tail s) (iso_date dateMul)
  else NEED_NDIGITS 4 s (iso_date 1).

(** * The other formats *)

(** The sums and products of [int]s may overflow. *)
Definition int_mul (a b : Z) : M Z :=
  if (- 2 ^ 31 <=? a * b) && (a * b <? 2 ^ 31) then mret (a * b) else throw UndefinedBehavior.

(** The local variables of [ParseDate]; -1 marks a field not seen yet. *)
Record legacy := Legacy {
  l_year : Z; l_mon : Z; l_mday : Z; l_hour : Z; l_min : Z; l_sec : Z; l_tzOffset : Z;
  l_prevc : Z;
  l_seenPlusMinus : bool; l_seenMonthName : bool; l_seenFullYear : bool; l_negativeYear : bool;
}.

Definition legacy_start : legacy := Legacy (-1) (-1) (-1) (-1) (-1) (-1) (-1) 0 false false false false.

Definition set_year (st : legacy) (v : Z) (full negative : bool) : legacy :=
  Legacy v (l_mon st) (l_mday st) (l_hour st) (l_min st) (l_sec st) (l_tzOffset st) (l_prevc st)
    (l_seenPlusMinus st) (l_seenMonthName st) full negative.
Definition set_mon (st : legacy) (v : Z) : legacy :=
  Legacy (l_year st) v (l_mday st) (l_hour st) (l_min st) (l_sec st) (l_tzOffset st) (l_prevc st)
    (l_seenPlusMinus st) (l_seenMonthName st) (l_seenFullYear st) (l_negativeYear st).
Definition set_mday (st : legacy) (v : Z) : legacy :=
  Legacy (l_year st) (l_mon st) v (l_hour st) (l_min st) (l_sec st) (l_tzOffset st) (l_prevc st)
    (l_seenPlusMinus st) (l_seenMonthName st) (l_seenFullYear st) (l_negativeYear st).
Definition set_hour (st : legacy) (v : Z) : legacy :=
  Legacy (l_year st) (l_mon st) (l_mday st) v (l_min st) (l_sec st) (l_tzOffset st) (l_prevc st)
    (l_seenPlusMinus st) (l_seenMonthName st) (l_seenFullYear st) (l_negativeYear st).
Definition set_min (st : legacy) (v : Z) : legacy :=
  Legacy (l_year st) (l_mon st) (l_mday st) (l_hour st) v (l_sec st) (l_tzOffset st) (l_prevc st)
    (l_seenPlusMinus st) (l_seenMonthName st) (l_seenFullYear st) (l_negativeYear st).
Definition set_sec (st : legacy) (v : Z) : legacy :=
  Legacy (l_year st) (l_mon st) (l_mday st) (l_hour st) (l_min st) v (l_tzOffset st) (l_prevc st)
    (l_seenPlusMinus st) (l_seenMonthName st) (l_seenFullYear st) (l_negativeYear st).
Definition set_tzOffset (st : legacy) (v : Z) (seenPlusMinus : bool) : legacy :=
  Legacy (l_year st) (l_mon st) (l_mday st) (l_hour st) (l_min st) (l_sec st) v (l_prevc st)
    seenPlusMinus (l_seenMonthName st) (l_seenFullYear st) (l_negativeYear st).
Definition set_prevc (st : legacy) (v : Z) : legacy :=
  Legacy (l_year st) (l_mon st) (l_mday st) (l_hour st) (l_min st) (l_sec st) (l_tzOffset st) v
    (l_seenPlusMinus st) (l_seenMonthName st) (l_seenFullYear st) (l_negativeYear st).
Definition set_monthName (st : legacy) (year mon mday : Z) : legacy :=
  Legacy year mon mday (l_hour st) (l_min st) (l_sec st) (l_tzOffset st) (l_prevc st)
    (l_seenPlusMinus st) true (l_seenFullYear st) (l_negativeYear st).

(** The text after an opening parenthesis, up to the matching one. *)
Fixpoint skip_comment (depth : Z) (s : list Z) : list Z :=
  match s with
  | [] => []
  | c :: s =>
      if c =? 40 then skip_comment (depth + 1) s
      else if c =? 41 then if depth - 1 <=? 0 then s else skip_comment (depth - 1) s
      else skip_comment depth s
  end.

(** The rest of a number field, in a [uint32_t]; [c] is the last character
    looked at. *)
Fixpoint number_loop (u c : Z) (s : list Z) : Z * Z * list Z :=
  match s with
  | [] => (u, c, s)
  | c' :: s' =>
      if negb (IsAsciiDigit c') then (u, c', s)
      else number_loop (uint32 (uint32 (u * 10) + (c' - 48))) c' s'
  end.

(** What a number field of [partLength] digits means where it stands. *)
Definition number_field (st : legacy) (n c partLength : Z) (s : list Z) : M (option legacy) :=
  let more := negb (zlen s =? 0) in
  let prevc := l_prevc st in
  if (prevc =? 45) && (negb (l_tzOffset st =? 0) || l_seenPlusMinus st) && (partLength >=? 4) && (l_year st <? 0) then
    mret (Some (set_year st n true true))
  else if (prevc =? 43) || (prevc =? 45) then
    n ← (if n <? 24 then int_mul n 60
         else h ← int_mul (Z.quot n 100) 60; int_add (Z.rem n 100) h);
    n ← (if prevc =? 43 then int_mul n (-1) else mret n);
    if negb (l_tzOffset st =? 0) && negb (l_tzOffset st =? -1) then mret None
    else mret (Some (set_tzOffset st n true))
  else if (prevc =? 47) && (l_mon st >=? 0) && (l_mday st >=? 0) && (l_year st <? 0) then
    if (c <=? 32) || (c =? 44) || (c =? 47) || negb more then
      mret (Some (set_year st n (l_seenFullYear st) (l_negativeYear st)))
    else mret None
  else if c =? 58 then
    if l_hour st <? 0 then mret (Some (set_hour st n))
    else if l_min st <? 0 then mret (Some (set_min st n))
    else mret None
  else if c =? 47 then
    if l_mon st <? 0 then mret (Some (set_mon st n))
    else if l_mday st <? 0 then mret (Some (set_mday st n))
    else mret None
  else if more && negb (c =? 44) && (c >? 32) && negb (c =? 45) && negb (c =? 40) then mret None
  else if l_seenPlusMinus st && (n <? 60) then
    tzOffset ← (if l_tzOffset st <? 0 then int_add (l_tzOffset st) (- n) else int_add (l_tzOffset st) n);
    mret (Some (set_tzOffset st tzOffset (l_seenPlusMinus st)))
  else if (l_hour st >=? 0) && (l_min st <? 0) then mret (Some (set_min st n))
  else if (prevc =? 58) && (l_min st >=? 0) && (l_sec st <? 0) then mret (Some (set_sec st n))
  else if l_mon st <? 0 then mret (Some (set_mon st n))
  else if (l_mon st >=? 0) && (l_mday st <? 0) then mret (Some (set_mday st n))
  else if (l_mon st >=? 0) && (l_mday st >=? 0) && (l_year st <? 0) then
    mret (Some (set_year st n (partLength >=? 4) (l_negativeYear st)))
  else mret None.

(** ** Words *)

Definition keywords : list (list Z * Z) :=
  prod_map codes id <$>
  [("am", -1); ("pm", -2);
   ("monday", 0); ("tuesday", 0); ("wednesday", 0); ("thursday", 0); ("friday", 0); ("saturday", 0); ("sunday", 0);
   ("january", 1); ("february", 2); ("march", 3); ("april", 4); ("may", 5); ("june", 6); ("july", 7); ("august", 8);
   ("september", 9); ("october", 10); ("november", 11); ("december", 12);
   ("gmt", 10000 + 0); ("ut", 10000 + 0); ("utc", 10000 + 0); ("est", 10000 + 5 * 60); ("edt", 10000 + 4 * 60);
   ("cst", 10000 + 6 * 60); ("cdt", 10000 + 5 * 60); ("mst", 10000 + 7 * 60); ("mdt", 10000 + 6 * 60);
   ("pst", 10000 + 8 * 60); ("pdt", 10000 + 7 * 60)]%string.

Definition MinKeywordLength (keywords : list (list Z * Z)) : Z :=
  foldl (fun min keyword => Z.min min (zlen (keyword.1))) (2 ^ 64 - 1) keywords.

(** [unicode::ToLowerCase(Latin1Char)], from its table. *)
Definition ToLowerCase (ch : Z) : Z :=
  if IsAsciiUppercaseAlpha ch || ((192 <=? ch) && (ch <=? 222) && negb (ch =? 215)) then ch + 32 else ch.

Fixpoint letters (s : list Z) : list Z * list Z :=
  match s with
  | [] => ([], s)
  | c :: s' => if negb (IsAsciiAlpha c) then ([], s) else let '(word, s) := letters s' in (c :: word, s)
  end.

Fixpoint IsPrefixOfKeyword (word keyword : list Z) : M bool :=
  match word, keyword with
  | [], _ => mret true
  | _ :: _, [] => mret false
  | c :: word, k :: keyword =>
      moz_assert (IsAsciiAlpha c);;
      moz_assert (IsAsciiLowercaseAlpha k);;
      if negb (ToLowerCase (c mod 2 ^ 8) =? k) then mret false else IsPrefixOfKeyword word keyword
  end.

(** The action of the last keyword that the word begins. *)
Fixpoint find_keyword (word : list Z) (keywords : list (list Z * Z)) : M (option Z) :=
  match keywords with
  | [] => mret None
  | (chars, action) :: keywords =>
      found ← IsPrefixOfKeyword word chars;
      if found : bool then mret (Some action) else find_keyword word keywords
  end.

Definition word_action (st : legacy) (action : Z) : M (option legacy) :=
  if action =? 0 then mret (Some st)
  else if action <? 0 then
    moz_assert ((action =? -1) || (action =? -2));;
    if (l_hour st >? 12) || (l_hour st <? 0) then mret None
    else if (action =? -1) && (l_hour st =? 12) then mret (Some (set_hour st 0))
    else if (action =? -2) && negb (l_hour st =? 12) then hour ← int_add (l_hour st) 12; mret (Some (set_hour st hour))
    else mret (Some st)
  else if action <=? 12 then
    if l_seenMonthName st then mret None
    else if l_mon st <? 0 then mret (Some (set_monthName st (l_year st) action (l_mday st)))
    else if l_mday st <? 0 then mret (Some (set_monthName st (l_year st) action (l_mon st)))
    else if l_year st <? 0 then mret (Some (set_monthName st (l_mon st) action (l_mday st)))
    else mret None
  else
    moz_assert (action >=? 10000);;
    mret (Some (set_tzOffset st (action - 10000) (l_seenPlusMinus st))).

(** ** The loop over the characters *)

Definition word_field (st : legacy) (word : list Z) : M (option legacy) :=
  if zlen word <? MinKeywordLength keywords then mret None
  else
    action ← find_keyword word (reverse keywords);
    match action with Some action => word_action st action | None => mret None end.

(** A field was read: [prevc = 0; continue], or the parse failed. *)
Definition next_field (r : option legacy) (s : list Z) : legacy * list Z + option legacy :=
  match r with Some st => inl (set_prevc st 0, s) | None => inr None end.

Definition legacy_step (position : legacy * list Z) : M (legacy * list Z + option legacy) :=
  let '(st, s) := position in
  match s with
  | [] => mret (inr (Some st))
  | c :: s' =>
      if (c <=? 32) || (c =? 44) then mret (inl (st, s'))
      else if (c =? 47) || (c =? 58) || (c =? 43) then mret (inl (set_prevc st c, s'))
      else if c =? 45 then
        mret (inl (match s' with d :: _ => if IsAsciiDigit d then set_prevc st c else st | [] => st end, s'))
      else if c =? 40 then mret (inl (st, skip_comment 1 s'))
      else if IsAsciiDigit c then
        let '(u, c, rest) := number_loop (uint32 (c - 48)) c s' in
        let partLength := zlen s - zlen rest in
        let n := wrap_signed 32 u in
        r ← number_field st n c partLength rest;
        mret (next_field r rest)
      else if IsAsciiAlpha c then
        let '(word, rest) := letters s in
        r ← word_field st word;
        mret (next_field r rest)
      else mret (inr None)
  end.

(** ** The date *)

(** Which number is the year, the month and the day. *)
Definition legacy_order (st : legacy) : option (Z * Z * Z) :=
  let '(year, mon, mday) := (l_year st, l_mon st, l_mday st) in
  if l_seenMonthName st then
    if (mday >=? 100) && (mon >=? 100) then None
    else
      let '(year, mday) :=
        if (year >? 0) && ((mday =? 0) || (mday >? year)) && negb (l_seenFullYear st) then (mday, year) else (year, mday) in
      if (mday <=? 0) || (mday >? 31) then None else Some (year, mon, mday)
  else if (0 <? mon) && (mon <=? 12) && (0 <? mday) && (mday <=? 31) then Some (year, mon, mday)
  else if (mon >? 31) && (mday <=? 12) && (year <=? 31) && negb (l_seenFullYear st) then Some (mon, mday, year)
  else None.

Definition legacy_finish (st : legacy) : parsed :=
  if (l_year st <? 0) || (l_mon st <? 0) || (l_mday st <? 0) then mret None
  else
    match legacy_order st with
    | None => mret None
    | Some (year, mon, mday) =>
        year ← (if negb (l_seenFullYear st) then
                  if year <? 50 then int_add year 2000
                  else if (year >=? 50) && (year <? 100) then int_add year 1900
                  else mret year
                else mret year);
        year ← (if l_negativeYear st then int_mul year (-1) else mret year);
        mon ← int_add mon (-1);
        let sec := if l_sec st <? 0 then 0 else l_sec st in
        let min := if l_min st <? 0 then 0 else l_min st in
        let hour := if l_hour st <? 0 then 0 else l_hour st in
        d ← MakeDay (dbl year) (dbl mon) (dbl mday);
        let msec := MakeDate d (MakeTime (dbl hour) (dbl min) (dbl sec) (dbl 0)) in
        msec ← (if l_tzOffset st =? -1 then UTC msec else mret (double_add msec (double_mul (dbl (l_tzOffset st)) msPerMinute)));
        result ← TimeClip msec;
        mret (Some result)
    end.

Definition ParseDate (s : list Z) : parsed :=
  iso ← ParseISOStyleDate s;
  match iso with
  | Some result => mret (Some result)
  | None =>
      if zlen s =? 0 then mret None
      else
        st ← loop (S (length s)) legacy_step (legacy_start, s);
        match st with None => mret None | Some st => legacy_finish st end
  end.

(** [Date.parse]: ToString of the argument may run any code. *)
Definition date_parse {Value} (ToString : Value -> M (list Z)) (args : list Value) : M Z :=
  match args with
  | [] => mret GenericNaN
  | arg :: _ =>
      s ← ToString arg;
      r ← ParseDate s;
      mret (match r with None => GenericNaN | Some result => TimeValue result end)
  end.
End zone.
