(* ===== verification/DateDigits.v ===== *)
(** The fields of date strings: fixed-width decimal numbers as they are
    printed and read, and the decimal fraction of a second, whose
    floating-point value is exact to the millisecond. *)
From S2P Require Import Prelude Words CheckedArithmetic FloatingPoint BigIntRep Conversions BigIntDouble Numerals DoubleArith DoubleWhole DoubleFixed Dates DateCalendar DateObject DateObjectInv DateTheorems DateStrings.

#[local] Open Scope Z_scope.

(** * Decimal fields *)

Lemma decimal_length n v : length (decimal n v) = n.
Proof. revert v. induction n as [|n IH]; intros v; [done|]. cbn [decimal]. rewrite length_app, IH. cbn. lia. Qed.

Lemma decimal_digits n v : Forall (fun c => IsAsciiDigit c = true) (decimal n v).
Proof.
  revert v. induction n as [|n IH]; intros v; [constructor|]. cbn [decimal]. apply list.Forall_app. split; [done|]. constructor; [|constructor].
  unfold IsAsciiDigit. pose proof (Z.mod_pos_bound v 10 ltac:(lia)). lia.
Qed.

(** The width of a printed number is that of its digits. *)
Lemma width_bound fuel n v : 0 <= v < 10 ^ Z.of_nat n -> (width fuel v <= n)%nat.
Proof.
  revert n v. induction fuel as [|fuel IH]; intros n v Hv; cbn [width]; [lia|]. destruct (Z.eqb_spec v 0); [lia|].
  destruct n as [|n]; [cbn in Hv; lia|]. apply le_n_S, IH. rewrite Nat2Z.inj_succ, Z.pow_succ_r in Hv by lia.
  split; [apply Z.div_pos; lia|apply Z.div_lt_upper_bound; lia].
Qed.

Lemma width_ge fuel n v : (n < fuel)%nat -> 10 ^ Z.of_nat n <= v -> (n < width fuel v)%nat.
Proof.
  revert n v. induction fuel as [|fuel IH]; intros n v Hf Hv; [lia|]. cbn [width]. assert (0 < 10 ^ Z.of_nat n) by (apply Z.pow_pos_nonneg; lia).
  destruct (Z.eqb_spec v 0); [lia|]. destruct n as [|n]; [lia|]. apply ->Nat.succ_lt_mono. apply IH; [lia|].
  rewrite Nat2Z.inj_succ, Z.pow_succ_r in Hv by lia. apply Z.div_le_lower_bound; lia.
Qed.

Lemma format_fixed n v : 0 <= v < 10 ^ Z.of_nat n -> format_int false n v = decimal n v.
Proof.
  intros Hv. unfold format_int. replace (v <? 0) with false by lia. rewrite Z.abs_eq by lia. rewrite Nat.max_l; [done|]. by apply width_bound.
Qed.

(** ** Reading them *)

Lemma digit_read v : IsAsciiDigit (48 + v mod 10) = true /\ 48 + v mod 10 - 48 = v mod 10.
Proof. unfold IsAsciiDigit. pose proof (Z.mod_pos_bound v 10 ltac:(lia)). lia. Qed.

Lemma decimal_shift acc v n : 0 <= v -> (acc * 10 ^ Z.of_nat n + v / 10 mod 10 ^ Z.of_nat n) * 10 + v mod 10 = acc * 10 ^ Z.of_nat (S n) + v mod 10 ^ Z.of_nat (S n).
Proof.
  intros Hv. rewrite Nat2Z.inj_succ, Z.pow_succ_r by lia. rewrite (Z.rem_mul_r v 10) by (lia || (apply Z.pow_pos_nonneg; lia)). lia.
Qed.

Lemma digits_loop_decimal n m acc v rest : 0 <= v -> 0 <= acc -> (acc + 1) * 10 ^ Z.of_nat n <= 2 ^ 64 ->
  digits_loop (n + m) acc (decimal n v ++ rest) = digits_loop m (acc * 10 ^ Z.of_nat n + v mod 10 ^ Z.of_nat n) rest.
Proof.
  revert m acc v rest. induction n as [|n IH]; intros m acc v rest Hv Hacc Hb.
  { cbn [decimal app plus Z.of_nat]. rewrite Z.pow_0_r, Z.mod_1_r in *. f_equal. lia. }
  cbn [decimal]. rewrite <- app_assoc. replace (S n + m)%nat with (n + S m)%nat by lia. rewrite <- decimal_shift by done.
  assert (Hp : 0 < 10 ^ Z.of_nat n) by (apply Z.pow_pos_nonneg; lia). rewrite Nat2Z.inj_succ, Z.pow_succ_r in Hb by lia.
  pose proof (Z.mod_pos_bound (v / 10) (10 ^ Z.of_nat n) Hp) as Hm. pose proof (Z.mod_pos_bound v 10 ltac:(lia)).
  rewrite IH by (lia || (apply Z.div_pos; lia)). set (a := acc * 10 ^ Z.of_nat n + v / 10 mod 10 ^ Z.of_nat n) in *.
  assert (Ha : 0 <= a /\ a * 10 + 10 <= 2 ^ 64) by lia. clearbody a. cbn [app digits_loop]. destruct (digit_read v) as [-> ->].
  f_equal. unfold uint64. rewrite (Z.mod_small (a * 10)) by lia. apply Z.mod_small. lia.
Qed.

Lemma zlen_decimal n v rest : zlen (decimal n v ++ rest) = Z.of_nat n + zlen rest.
Proof. unfold zlen. rewrite length_app, decimal_length. lia. Qed.

Lemma ParseDigits_decimal n v rest : (0 < n <= 18)%nat -> 0 <= v < 10 ^ Z.of_nat n -> ParseDigits n (decimal n v ++ rest) = (true, v, rest).
Proof.
  intros Hn Hv. unfold ParseDigits. rewrite <- (Nat.add_0_r n) at 1. rewrite digits_loop_decimal; [|lia|lia|].
  - cbn [digits_loop]. rewrite Z.mod_small, Z.mul_0_l by done. replace (match rest with | [] => (0 + v, rest) | _ :: _ => (0 + v, rest) end) with (v, rest) by (by destruct rest).
    rewrite zlen_decimal. by replace (zlen rest =? Z.of_nat n + zlen rest) with false by lia.
  - rewrite Z.mul_1_l. transitivity (10 ^ 18); [apply Z.pow_le_mono_r; lia|done].
Qed.

Lemma NEED_NDIGITS_decimal n v rest k : (0 < n <= 18)%nat -> 0 <= v < 10 ^ Z.of_nat n -> NEED_NDIGITS n (decimal n v ++ rest) k = k v rest.
Proof.
  intros Hn Hv. unfold NEED_NDIGITS, ParseDigitsN. rewrite ParseDigits_decimal, zlen_decimal by done.
  by replace (Z.of_nat n + zlen rest - zlen rest =? Z.of_nat n) with true by lia.
Qed.

Lemma NEED_NDIGITS_OR_LESS_decimal n strict permissive v rest k : (0 < n <= 18)%nat -> 0 <= v < 10 ^ Z.of_nat n ->
  NEED_NDIGITS_OR_LESS n strict permissive (decimal n v ++ rest) k = k v permissive rest.
Proof.
  intros Hn Hv. unfold NEED_NDIGITS_OR_LESS, ParseDigitsNOrLess. rewrite ParseDigits_decimal, zlen_decimal by done.
  replace (Z.of_nat n + zlen rest - zlen rest >? 0) with true by lia. replace (Z.of_nat n + zlen rest - zlen rest <=? Z.of_nat n) with true by lia.
  by replace (Z.of_nat n + zlen rest - zlen rest <? Z.of_nat n) with false by lia.
Qed.

(** ** The fraction of a second *)

Lemma fractional_loop_digit v factor result s :
  fractional_loop factor result ((48 + v mod 10) :: s) =
  fractional_loop (double_mul factor one_tenth) (double_add result (double_mul (dbl (v mod 10)) factor)) s.
Proof. cbn [fractional_loop]. by destruct (digit_read v) as [-> ->]. Qed.

Lemma ParseFractional_decimal ms c rest : 0 <= ms < 1000 -> IsAsciiDigit c = false -> exists frac,
  ParseFractional (decimal 3 ms ++ c :: rest) = (true, frac, c :: rest) /\
  IsFinite (double_mul frac (dbl 1000)) = true /\ ToInteger (double_mul frac (dbl 1000)) = dbl ms.
Proof.
  intros Hms Hc. assert (Hb : forall v, 0 <= v mod 10 < 10) by (intros v; apply Z.mod_pos_bound; lia).
  destruct (fraction_fixed (ms / 10 / 10 mod 10) (ms / 10 mod 10) (ms mod 10) (Hb _) (Hb _) (Hb _)) as [Hf Hi].
  replace (100 * (ms / 10 / 10 mod 10) + 10 * (ms / 10 mod 10) + ms mod 10) with ms in Hi by (Z.div_mod_to_equations; lia).
  eexists. split; [|split; [exact Hf|exact Hi]]. unfold ParseFractional. cbn [decimal app]. rewrite !fractional_loop_digit. cbn [fractional_loop]. rewrite Hc.
  replace (zlen (c :: rest) =? _) with false; [reflexivity|]. symmetry. apply Z.eqb_neq. unfold zlen. cbn [length]. lia.
Qed.

(** * Dates *)

Lemma is_leap_opp y : is_leap (- y) = is_leap y.
Proof.
  assert (E : forall k, 0 < k -> (- y mod k =? 0) = (y mod k =? 0)).
  { intros k Hk. apply eq_true_iff_eq. rewrite !Z.eqb_eq, !Z.mod_divide by lia. apply Z.divide_opp_r. }
  unfold is_leap. by rewrite !E by lia.
Qed.

Lemma is_leap_abs y : is_leap (Z.abs y) = is_leap y.
Proof. destruct (Z.abs_spec y) as [[_ ->]|[_ ->]]; [done|apply is_leap_opp]. Qed.

(** The sign of a year is multiplied in. *)
Lemma signed_year y : Z.abs y < 2 ^ 53 -> y <> 0 -> double_mul (dbl (Z.sgn y)) (dbl (Z.abs y)) = dbl y.
Proof. intros Hy H0. rewrite double_mul_dbl by (unfold small; lia). f_equal. lia. Qed.

(** A time value is its own clip. *)
Lemma TimeClip_valid n : Z.abs n <= 8640000000000000 -> TimeClip (dbl n) = mret (dbl n).
Proof.
  intros Hn. destruct (TimeClip_dbl n) as (c & Hc & E); [small|]. rewrite Hc. apply ret_eq. unfold clip in E. replace (Z.abs n <=? 8640000000000000) with true in E by lia.
  unfold TimeValue in E. destruct (IsNaN c); [|done]. assert (Hnan : IsNaN (dbl n) = false) by (apply dbl_not_nan; small). rewrite <- E in Hnan. discriminate.
Qed.

Lemma identical_refl d : NumbersAreIdentical d d = true.
Proof. unfold NumbersAreIdentical. destruct (IsNaN d); [done|apply Z.eqb_refl]. Qed.
