(* ===== verification/DateLegacy.v ===== *)
(** One step of the permissive date parser on each kind of field. *)
From Stdlib Require Import String.
From S2P Require Import Prelude Words CheckedArithmetic FloatingPoint BigIntRep Conversions BigIntDouble Numerals DoubleArith Dates TimeZone DateObject DateStrings DateDigits.

#[local] Open Scope list_scope.
#[local] Open Scope Z_scope.

(** * Numbers *)

Lemma number_loop_decimal n acc c v d rest : 0 <= v -> 0 <= acc -> (acc + 1) * 10 ^ Z.of_nat n <= 2 ^ 32 -> IsAsciiDigit d = false -> (0 < n)%nat ->
  number_loop acc c (decimal n v ++ d :: rest) = (acc * 10 ^ Z.of_nat n + v mod 10 ^ Z.of_nat n, d, d :: rest).
Proof.
  intros Hv Hacc Hb Hd _. enough (H : forall m acc c v s r, 0 <= v -> 0 <= acc -> (acc + 1) * 10 ^ Z.of_nat m <= 2 ^ 32 ->
    (forall c', number_loop (acc * 10 ^ Z.of_nat m + v mod 10 ^ Z.of_nat m) c' s = r) -> number_loop acc c (decimal m v ++ s) = r).
  { apply H; [done..|]. intros c'. cbn [number_loop]. by rewrite Hd. }
  clear. intros m. induction m as [|m IH]; intros acc c v s r Hv Hacc Hb Hr.
  { cbn [decimal app]. rewrite <- (Hr c). f_equal. cbn [Z.of_nat]. rewrite Z.pow_0_r, Z.mod_1_r. lia. }
  cbn [decimal]. rewrite <- app_assoc. assert (Hp : 0 < 10 ^ Z.of_nat m) by (apply Z.pow_pos_nonneg; lia).
  assert (Hb' : (acc * 10 + 10) * 10 ^ Z.of_nat m <= 2 ^ 32) by (rewrite Nat2Z.inj_succ, Z.pow_succ_r in Hb by lia; lia).
  pose proof (Z.mod_pos_bound (v / 10) (10 ^ Z.of_nat m) Hp) as Hm. pose proof (Z.mod_pos_bound v 10 ltac:(lia)).
  apply IH; [apply Z.div_pos; lia|lia|lia|]. intros c'. rewrite <- decimal_shift in Hr by done.
  set (a := acc * 10 ^ Z.of_nat m + v / 10 mod 10 ^ Z.of_nat m) in *. assert (Ha : 0 <= a /\ a * 10 + 10 <= 2 ^ 32) by lia. clearbody a.
  cbn [app number_loop]. destruct (digit_read v) as [-> ->]. cbn [negb].
  replace (uint32 (uint32 (a * 10) + v mod 10)) with (a * 10 + v mod 10); [apply Hr|].
  unfold uint32. rewrite (Z.mod_small (a * 10)) by lia. symmetry. apply Z.mod_small. lia.
Qed.

(** A number of up to nine digits, followed by something else. *)
Lemma legacy_number st n v d rest : (0 < n <= 9)%nat -> 0 <= v < 10 ^ Z.of_nat n -> IsAsciiDigit d = false ->
  legacy_step (st, decimal n v ++ d :: rest) = (r ← number_field st v d (Z.of_nat n) (d :: rest); mret (next_field r (d :: rest))).
Proof.
  intros Hn Hv Hd. assert (Hp : 10 ^ Z.of_nat n <= 10 ^ 9) by (apply Z.pow_le_mono_r; lia).
  pose proof (number_loop_decimal n 0 0 v d rest ltac:(lia) ltac:(lia) ltac:(lia) Hd ltac:(lia)) as Hloop. rewrite Z.mul_0_l, Z.mod_small in Hloop by done.
  pose proof (zlen_decimal n v (d :: rest)) as Hlen. pose proof (decimal_digits n v) as Hdig. pose proof (decimal_length n v) as Hl.
  destruct (decimal n v) as [|c ds]; [cbn in Hl; lia|]. apply list.Forall_cons in Hdig as [Hc _]. cbn [app] in *. cbn [number_loop] in Hloop. rewrite Hc in Hloop. cbn [negb] in Hloop.
  unfold legacy_step. rewrite Hc. unfold IsAsciiDigit in Hc. bsplit.
  replace ((c <=? 32) || (c =? 44)) with false by lia. replace ((c =? 47) || (c =? 58) || (c =? 43)) with false by lia.
  replace (c =? 45) with false by lia. replace (c =? 40) with false by lia. change (uint32 (0 * 10)) with 0 in Hloop. rewrite Z.add_0_l in Hloop. rewrite Hloop, Hlen.
  replace (wrap_signed 32 (0 + v)) with v; [|rewrite Z.add_0_l; unfold wrap_signed; rewrite Z.mod_small by lia; by case_match; lia].
  by replace (Z.of_nat n + zlen (d :: rest) - zlen (d :: rest)) with (Z.of_nat n) by lia.
Qed.

(** * Words *)

Definition ends_word (rest : list Z) : Prop := match rest with c :: _ => IsAsciiAlpha c = false | [] => True end.

Lemma letters_word word rest : Forall (fun c => IsAsciiAlpha c = true) word -> ends_word rest -> letters (word ++ rest) = (word, rest).
Proof.
  intros Hw Hr. induction Hw as [|c word Hc _ IH]; cbn [app letters].
  - destruct rest as [|c rest]; [done|]. cbn [letters]. cbn in Hr. by rewrite Hr.
  - by rewrite Hc, IH.
Qed.

Lemma legacy_word st c word rest action : Forall (fun c => IsAsciiAlpha c = true) (c :: word) -> ends_word rest -> word <> [] ->
  find_keyword (c :: word) (reverse keywords) = mret (Some action) ->
  legacy_step (st, (c :: word) ++ rest) = (r ← word_action st action; mret (next_field r rest)).
Proof.
  intros Hw Hr Hne Hf. pose proof (letters_word (c :: word) rest Hw Hr) as Hl. pose proof Hw as Hc. apply list.Forall_cons in Hc as [Hc _].
  cbn [app] in *. unfold legacy_step. rewrite Hc, Hl. unfold IsAsciiAlpha, IsAsciiLowercaseAlpha, IsAsciiUppercaseAlpha in Hc.
  assert (Hc' : 65 <= c <= 90 \/ 97 <= c <= 122) by lia. replace ((c <=? 32) || (c =? 44)) with false by lia. replace ((c =? 47) || (c =? 58) || (c =? 43)) with false by lia.
  replace (c =? 45) with false by lia. replace (c =? 40) with false by lia. unfold IsAsciiDigit. replace ((48 <=? c) && (c <=? 57)) with false by lia.
  unfold word_field. change (MinKeywordLength keywords) with 2. replace (zlen (c :: word) <? 2) with false by (destruct word; [done|symmetry; apply Z.ltb_ge; unfold zlen; cbn [length]; lia]).
  by rewrite Hf.
Qed.

(** * The loop *)

Lemma loop_step {S R} n body (s s' : S) : body s = mret (inl s') -> loop (R := R) (Datatypes.S n) body s = loop n body s'.
Proof. intros E. cbn [loop]. by rewrite E. Qed.

Lemma legacy_ignored st c rest : c <= 32 \/ c = 44 -> legacy_step (st, c :: rest) = mret (inl (st, rest)).
Proof. intros Hc. unfold legacy_step. by replace ((c <=? 32) || (c =? 44)) with true by lia. Qed.

Lemma legacy_delimiter st c rest : c = 47 \/ c = 58 \/ c = 43 -> legacy_step (st, c :: rest) = mret (inl (set_prevc st c, rest)).
Proof. by intros [-> | [-> | ->]]. Qed.

(** A dash before a number. *)
Lemma legacy_dash st n v rest : (0 < n)%nat -> legacy_step (st, 45 :: decimal n v ++ rest) = mret (inl (set_prevc st 45, decimal n v ++ rest)).
Proof.
  intros Hn. pose proof (decimal_digits n v) as Hd. pose proof (decimal_length n v) as Hl. destruct (decimal n v) as [|c ds]; [cbn in Hl; lia|].
  apply list.Forall_cons in Hd as [Hc _]. cbn [app legacy_step]. by rewrite Hc.
Qed.

(** * The string of toUTCString *)

Definition name (names : list (list Z)) (i : Z) : list Z := nth (Z.to_nat i) names [].

(** A word of three letters that names a day or a month. *)
Definition word_ok (word : list Z) (action : Z) : Prop :=
  Forall (fun c => IsAsciiAlpha c = true) word /\ length word = 3%nat /\ find_keyword word (reverse keywords) = mret (Some action).

Lemma word_ok_intro word action : forallb IsAsciiAlpha word = true -> length word = 3%nat -> find_keyword word (reverse keywords) = mret (Some action) -> word_ok word action.
Proof. intros Ha Hl Hf. split; [|done]. apply Forall_forall. rewrite forallb_forall in Ha. intros x Hx. by apply Ha. Qed.

Lemma days_ok w : 0 <= w < 7 -> name_at days w = mret (name days w) /\ word_ok (name days w) 0.
Proof.
  intros Hw. assert (w = 0 \/ w = 1 \/ w = 2 \/ w = 3 \/ w = 4 \/ w = 5 \/ w = 6) as H by lia.
  repeat (destruct H as [-> |H]); try subst w; (split; [vm_compute; reflexivity|apply word_ok_intro; vm_compute; reflexivity]).
Qed.

Lemma months_ok m : 0 <= m <= 11 -> name_at months m = mret (name months m) /\ word_ok (name months m) (m + 1).
Proof.
  intros Hm. assert (m = 0 \/ m = 1 \/ m = 2 \/ m = 3 \/ m = 4 \/ m = 5 \/ m = 6 \/ m = 7 \/ m = 8 \/ m = 9 \/ m = 10 \/ m = 11) as H by lia.
  repeat (destruct H as [-> |H]); try subst m; (split; [vm_compute; reflexivity|apply word_ok_intro; vm_compute; reflexivity]).
Qed.

Lemma gmt_ok : word_ok [71; 77; 84] 10000.
Proof. apply word_ok_intro; vm_compute; reflexivity. Qed.

Lemma legacy_named st word rest action : word_ok word action -> ends_word rest ->
  legacy_step (st, word ++ rest) = (r ← word_action st action; mret (next_field r rest)).
Proof.
  intros (Ha & Hl & Hf) Hr. destruct word as [|c word]; [done|]. apply legacy_word; [done..| |done]. intros ->. discriminate.
Qed.

(** The width of a year: at least four digits. *)
Lemma width_enough fuel v : 0 <= v < 10 ^ Z.of_nat fuel -> v < 10 ^ Z.of_nat (width fuel v).
Proof.
  revert v. induction fuel as [|fuel IH]; intros v Hv; cbn [width]; [apply Hv|]. destruct (Z.eqb_spec v 0) as [->|H0]; [done|].
  rewrite Nat2Z.inj_succ, Z.pow_succ_r in * by lia. assert (H : v / 10 < 10 ^ Z.of_nat (width fuel (v / 10))).
  { apply IH. split; [apply Z.div_pos; lia|apply Z.div_lt_upper_bound; lia]. }
  pose proof (Z.div_mod v 10 ltac:(lia)). pose proof (Z.mod_pos_bound v 10 ltac:(lia)). lia.
Qed.

Definition year_width (y : Z) : nat := Nat.max 4 (width 10 (Z.abs y)).

Lemma year_width_ok y : Z.abs y <= 275943 -> (4 <= year_width y <= 6)%nat /\ Z.abs y < 10 ^ Z.of_nat (year_width y).
Proof.
  intros Hy. assert (H1 : (width 10 (Z.abs y) <= 6)%nat) by (apply width_bound; change (10 ^ Z.of_nat 6) with 1000000; lia).
  assert (H2 : Z.abs y < 10 ^ Z.of_nat (width 10 (Z.abs y))) by (apply width_enough; change (10 ^ Z.of_nat 10) with 10000000000; lia).
  unfold year_width. split; [lia|]. apply Z.lt_le_trans with (1 := H2). apply Z.pow_le_mono_r; lia.
Qed.

(** The date and the time of day, as printed. *)
Definition utc_date (w m d y : Z) : list Z :=
  name days w ++ [44; 32] ++ decimal 2 d ++ [32] ++ name months m ++ [32] ++ (if y <? 0 then [45] else []) ++ decimal (year_width y) (Z.abs y).
Definition utc_time (h mi s : Z) : list Z :=
  [32] ++ decimal 2 h ++ [58] ++ decimal 2 mi ++ [58] ++ decimal 2 s ++ [32] ++ [71; 77; 84].

(** Evaluates [number_field] where it stands. *)
Ltac known b := first [replace b with true by lia | replace b with false by lia].
Ltac evaluate_field :=
  unfold number_field;
  cbn [l_year l_mon l_mday l_hour l_min l_sec l_tzOffset l_prevc l_seenPlusMinus l_seenMonthName l_seenFullYear l_negativeYear
       set_year set_mon set_mday set_hour set_min set_sec set_tzOffset set_prevc set_monthName];
  let more := fresh "more" in
  set (more := negb (zlen _ =? 0)); clearbody more;
  repeat match goal with
  | |- context [?a >=? ?b] => known (a >=? b)
  | |- context [?a <? ?b] => known (a <? b)
  end; destruct more; reflexivity.

(** The steps in the loop. *)
Section steps.
Context {k : nat} (st : legacy).

Lemma loop_field st' n v d rest : (0 < n <= 9)%nat -> 0 <= v < 10 ^ Z.of_nat n -> IsAsciiDigit d = false ->
  number_field st v d (Z.of_nat n) (d :: rest) = mret (Some st') ->
  loop (S k) legacy_step (st, decimal n v ++ d :: rest) = loop k legacy_step (set_prevc st' 0, d :: rest).
Proof. intros Hn Hv Hd E. apply loop_step. by rewrite legacy_number, E. Qed.

Lemma loop_named st' word rest action : word_ok word action -> ends_word rest -> word_action st action = mret (Some st') ->
  loop (S k) legacy_step (st, word ++ rest) = loop k legacy_step (set_prevc st' 0, rest).
Proof. intros Hw Hr E. apply loop_step. by rewrite (legacy_named _ _ _ action), E. Qed.

Lemma loop_ignored c rest : c <= 32 \/ c = 44 -> loop (S k) legacy_step (st, c :: rest) = loop k legacy_step (st, rest).
Proof. intros Hc. by apply loop_step, legacy_ignored. Qed.

Lemma loop_delimiter c rest : c = 47 \/ c = 58 \/ c = 43 -> loop (S k) legacy_step (st, c :: rest) = loop k legacy_step (set_prevc st c, rest).
Proof. intros Hc. by apply loop_step, legacy_delimiter. Qed.

Lemma loop_dash n v rest : (0 < n)%nat ->
  loop (S k) legacy_step (st, 45 :: decimal n v ++ rest) = loop k legacy_step (set_prevc st 45, decimal n v ++ rest).
Proof. intros Hn. by apply loop_step, legacy_dash. Qed.
End steps.

Definition after_date (m d y : Z) : legacy := Legacy (Z.abs y) (m + 1) d (-1) (-1) (-1) (-1) 0 false true true (y <? 0).

Lemma loop_year n m d y rest : 0 <= m <= 11 -> 1 <= d <= 31 -> Z.abs y <= 275943 ->
  let st := Legacy (-1) (m + 1) d (-1) (-1) (-1) (-1) 0 false true false false in
  exists j, (j <= 1)%nat /\
  loop (2 + n) legacy_step (st, (if y <? 0 then [45] else []) ++ decimal (year_width y) (Z.abs y) ++ 32 :: rest) =
  loop (n + j) legacy_step (after_date m d y, 32 :: rest).
Proof.
  intros Hm Hd Hy st. destruct (year_width_ok y Hy) as [Hk Hyk]. unfold after_date. destruct (Z.ltb_spec y 0); cbn [app plus].
  - exists 0%nat. split; [lia|]. rewrite loop_dash by lia. rewrite Nat.add_0_r.
    apply (loop_field _ (Legacy (Z.abs y) (m + 1) d (-1) (-1) (-1) (-1) 45 false true true true)); [lia..|done|].
    assert (Hl : (Z.of_nat (year_width y) >=? 4) = true) by lia. unfold st. set (l := Z.of_nat _) in *. clearbody l. unfold number_field. cbn [l_prevc l_tzOffset l_seenPlusMinus l_year set_prevc]. by rewrite Hl.
  - exists 1%nat. split; [lia|]. rewrite Nat.add_1_r.
    apply (loop_field _ (Legacy (Z.abs y) (m + 1) d (-1) (-1) (-1) (-1) 0 false true true false)); [lia..|done|].
    unfold st. set (l := Z.of_nat _) in *. assert (Hl : (l >=? 4) = true) by lia. clearbody l. evaluate_field.
Qed.

Lemma loop_date n w m d y rest : 0 <= w < 7 -> 0 <= m <= 11 -> 1 <= d <= 31 -> Z.abs y <= 275943 -> exists j, (j <= 1)%nat /\
  loop (9 + n) legacy_step (legacy_start, utc_date w m d y ++ 32 :: rest) = loop (n + j) legacy_step (after_date m d y, 32 :: rest).
Proof.
  intros Hw Hm Hd Hy. destruct (days_ok w Hw) as [_ Hdw], (months_ok m Hm) as [_ Hmw].
  destruct (loop_year n m d y rest Hm Hd Hy) as (j & Hj & E). exists j. split; [done|]. rewrite <- E. unfold utc_date. rewrite <- !app_assoc. cbn [plus].
  rewrite (loop_named _ legacy_start _ _ 0) by done. cbn [app]. rewrite !loop_ignored by lia.
  rewrite (loop_field _ (set_mon legacy_start d)); [|lia|cbn [Z.of_nat]; lia|done|evaluate_field]. rewrite loop_ignored by lia.
  rewrite (loop_named _ (Legacy (-1) (m + 1) d (-1) (-1) (-1) (-1) 0 false true false false) _ _ (m + 1)); [by rewrite loop_ignored by lia|done|done|].
  unfold word_action. known (m + 1 =? 0). known (m + 1 <? 0). known (m + 1 <=? 12). cbn [l_seenMonthName set_prevc set_mon legacy_start l_mon l_mday]. known (d <? 0). reflexivity.
Qed.

Lemma loop_time n m d y h mi s : 0 <= m <= 11 -> 1 <= d <= 31 -> 0 <= h < 24 -> 0 <= mi < 60 -> 0 <= s < 60 ->
  loop (9 + n) legacy_step (after_date m d y, utc_time h mi s) = mret (Some (Legacy (Z.abs y) (m + 1) d h mi s 0 0 false true true (y <? 0))).
Proof.
  intros Hm Hd Hh Hmi Hs. unfold utc_time, after_date. cbn [plus]. cbn [app]. assert (Hyy := Z.abs_nonneg y). set (Y := Z.abs y) in *. clearbody Y.
  rewrite loop_ignored by lia.
  rewrite (loop_field _ (Legacy Y (m + 1) d h (-1) (-1) (-1) 0 false true true (y <? 0))); [|lia|cbn [Z.of_nat]; lia|done|evaluate_field].
  rewrite loop_delimiter by lia.
  rewrite (loop_field _ (Legacy Y (m + 1) d h mi (-1) (-1) 58 false true true (y <? 0))); [|lia|cbn [Z.of_nat]; lia|done|evaluate_field].
  rewrite loop_delimiter by lia.
  rewrite (loop_field _ (Legacy Y (m + 1) d h mi s (-1) 58 false true true (y <? 0))); [|lia|cbn [Z.of_nat]; lia|done|evaluate_field].
  rewrite loop_ignored by lia.
  change [71; 77; 84] with ([71; 77; 84] ++ [] : list Z).
  by rewrite (loop_named _ (Legacy Y (m + 1) d h mi s 0 0 false true true (y <? 0)) _ _ 10000 gmt_ok).
Qed.
