(* ===== verification/DateParse.v ===== *)
(** The date parsers on any string: which errors they can meet, and that they
    end. *)
From Stdlib Require Import String.
From S2P Require Import Prelude Words CheckedArithmetic FloatingPoint BigIntRep Conversions BigIntDouble Numerals DoubleArith DoubleWhole Dates DateCalendar TimeZone DateObject DateObjectInv DateStrings DateDigits DateLegacy.

#[local] Open Scope list_scope.
#[local] Open Scope Z_scope.

(** * The format of the standard *)

Definition parsed_time (r : option Z) : Prop := match r with Some d => valid_time (TimeValue d) | None => True end.

Section iso.
Context {z : LocalZone}.

Lemma digits_loop_nonneg limit result s : 0 <= result -> 0 <= (digits_loop limit result s).1.
Proof.
  revert result s. induction limit as [|limit IH]; intros result [|c s] Hr; cbn [digits_loop fst]; try done. destruct (IsAsciiDigit c); [|done].
  apply IH. apply Z.mod_pos_bound. done.
Qed.

Lemma NEED_NDIGITS_total n s (k : Z -> list Z -> parsed) : (forall v s, 0 <= v -> wp (k v s) parsed_time no_error) ->
  wp (NEED_NDIGITS n s k) parsed_time no_error.
Proof.
  intros Hk. unfold NEED_NDIGITS, ParseDigitsN, ParseDigits. pose proof (digits_loop_nonneg n 0 s ltac:(lia)) as H. destruct (digits_loop n 0 s) as [v s'].
  destruct (negb _); cbn iota beta; [|by apply wp_ret]. wp_step; [by apply Hk|by apply wp_ret].
Qed.

Lemma NEED_NDIGITS_OR_LESS_total n strict permissive s (k : Z -> bool -> list Z -> parsed) :
  (forall v p s, 0 <= v -> wp (k v p s) parsed_time no_error) -> wp (NEED_NDIGITS_OR_LESS n strict permissive s k) parsed_time no_error.
Proof.
  intros Hk. unfold NEED_NDIGITS_OR_LESS, ParseDigitsNOrLess, ParseDigits. pose proof (digits_loop_nonneg n 0 s ltac:(lia)) as H.
  destruct (digits_loop n 0 s) as [v s']. destruct (negb (zlen s' =? zlen s)); cbn iota beta; [|by apply wp_ret].
  wp_step; [by apply wp_ret|]. wp_step; [|by apply Hk]. wp_step; [by apply wp_ret|by apply Hk].
Qed.

Lemma msec_parsed msec (test : Z -> bool) : is_double msec ->
  wp (result ← TimeClip msec; mret (if test result then Some result else None)) parsed_time no_error.
Proof. intros Hd. wp_step. wp_call TimeClip_total; [done|]. intros c Hc. apply wp_ret. by destruct (test c). Qed.

Lemma iso_done_total dateMul year month day hour min sec frac isLocalTime tzMul tzHour tzMin s : 0 <= year -> 0 <= month ->
  wp (iso_done dateMul year month day hour min sec frac isLocalTime tzMul tzHour tzMin s) parsed_time no_error.
Proof.
  intros Hy Hm. unfold iso_done. wp_step.
  assert (Hinv : wp (if (year >? 275943) || ((month =? 0) || (month >? 12)) then mret true
     else if day =? 0 then mret true
     else
       days ← DaysInMonth year month;
       mret ((day >? days) || (hour >? 24) || ((hour =? 24) && ((min >? 0) || (sec >? 0) || double_lt (dbl 0) frac)) ||
             (min >? 59) || (sec >? 59) || (tzHour >? 23) || (tzMin >? 59))) (fun _ => True) no_error).
  { wp_step; [by apply wp_ret|]. wp_step; [by apply wp_ret|]. bsplit. rewrite DaysInMonth_eq, bind_ret by (lia || small). by apply wp_ret. }
  wp_call Hinv. intros invalid _. wp_step; [by apply wp_ret|]. wp_step; [by apply wp_ret|]. wp_step.
  eapply wp_mono; [apply MakeDay_total; auto with doubles nocore| |done]. intros d Hd. cbv zeta.
  set (msec := MakeDate _ _). assert (Hms : is_double msec) by (apply MakeDate_double, MakeTime_double; auto with doubles nocore). clearbody msec. wp_step.
  destruct isLocalTime.
  - eapply wp_mono; [by apply UTC_total| |done]. intros u Hu. by apply (msec_parsed u).
  - apply wp_ret. set (u := double_sub _ _). assert (Hu : is_double u) by (apply double_sub_double; [done|apply double_mul_double]). clearbody u. by apply (msec_parsed u).
Qed.

Lemma iso_zone_total dateMul year month day hour min sec frac s : 0 <= year -> 0 <= month ->
  wp (iso_zone dateMul year month day hour min sec frac s) parsed_time no_error.
Proof.
  intros Hy Hm. unfold iso_zone. wp_step; [by apply iso_done_total|]. wp_step; [|by apply iso_done_total].
  apply NEED_NDIGITS_total. intros tzHour s1 _. apply NEED_NDIGITS_total. intros tzMin s2 _. by apply iso_done_total.
Qed.

Lemma iso_clock_total dateMul year month day strict permissive s : 0 <= year -> 0 <= month ->
  wp (iso_clock dateMul year month day strict permissive s) parsed_time no_error.
Proof.
  intros Hy Hm. unfold iso_clock. apply NEED_NDIGITS_OR_LESS_total. intros hour p1 s2 _. unfold NEED. wp_step; [|by apply wp_ret].
  apply NEED_NDIGITS_OR_LESS_total. intros min p2 s3 _. wp_step; [|by apply iso_zone_total].
  apply NEED_NDIGITS_OR_LESS_total. intros sec p3 s4 _. wp_step; [|by apply iso_zone_total].
  destruct (ParseFractional (tail s4)) as [[ok frac] s5]. wp_step; [by apply iso_zone_total|by apply wp_ret].
Qed.

Lemma iso_time_total dateMul year month day permissive s : 0 <= year -> 0 <= month -> wp (iso_time dateMul year month day permissive s) parsed_time no_error.
Proof.
  intros Hy Hm. unfold iso_time. wp_step; [wp_step; [by apply wp_ret|by apply iso_clock_total]|]. wp_step; [by apply iso_clock_total|by apply iso_done_total].
Qed.

Lemma ParseISOStyleDate_total s : wp (ParseISOStyleDate s) parsed_time no_error.
Proof.
  assert (Hd : forall dateMul year s, 0 <= year -> wp (iso_date dateMul year s) parsed_time no_error).
  { intros dateMul year s1 Hy. unfold iso_date. wp_step; [by apply iso_time_total|]. apply NEED_NDIGITS_OR_LESS_total. intros month p1 s2 Hm.
    wp_step; [by apply iso_time_total|]. apply NEED_NDIGITS_OR_LESS_total. intros day p2 s3 _. by apply iso_time_total. }
  unfold ParseISOStyleDate. wp_step; apply NEED_NDIGITS_total; intros year s1 Hy; by apply Hd.
Qed.
End iso.

(** * The other formats *)

(** No run of more than nine digits, and no more characters than keep the sum
    of all small numbers within an [int]. *)
Definition tame (s : list Z) : Prop :=
  zlen s < 2 ^ 24 /\ forall a ds b, s = a ++ ds ++ b -> Forall (fun c => IsAsciiDigit c = true) ds -> zlen ds <= 9.

Section legacy.
Context (s0 : list Z).

(** The only error: the overflow of an [int], and not on a tame string. *)
Definition overflow (e : error) : Prop := e = UndefinedBehavior /\ ~ tame s0.

Lemma int_add_total a b Q : (tame s0 -> - 2 ^ 31 <= a + b < 2 ^ 31) -> Q (a + b) -> wp (int_add a b) Q overflow.
Proof.
  intros Ht HQ. unfold int_add. destruct (_ && _) eqn:Hr; [by apply wp_ret|]. apply wp_throw; [|done]. split; [done|]. intros H. specialize (Ht H). lia.
Qed.

Lemma int_mul_total a b Q : (tame s0 -> - 2 ^ 31 <= a * b < 2 ^ 31) -> Q (a * b) -> wp (int_mul a b) Q overflow.
Proof.
  intros Ht HQ. unfold int_mul. destruct (_ && _) eqn:Hr; [by apply wp_ret|]. apply wp_throw; [|done]. split; [done|]. intros H. specialize (Ht H). lia.
Qed.

(** The fields after [k] characters of a tame string. *)
Definition small_field (v : Z) : Prop := -1 <= v < 10 ^ 9.

Definition legacy_ok (k : Z) (st : legacy) : Prop :=
  small_field (l_year st) /\ small_field (l_mon st) /\ small_field (l_mday st) /\ Z.abs (l_tzOffset st) <= 610000000 + 60 * k.

Definition field_ok (k : Z) (r : option legacy) : Prop := match r with Some st => tame s0 -> legacy_ok k st | None => True end.

Lemma legacy_ok_mono k k' st : legacy_ok k st -> k <= k' -> legacy_ok k' st.
Proof. unfold legacy_ok. intros (H1 & H2 & H3 & H4) Hk. split_and!; [done..|lia]. Qed.

Ltac settle := intros Htame; repeat match goal with H : tame s0 -> _ |- _ => specialize (H Htame) end;
  unfold legacy_ok, small_field in *;
  cbn [l_year l_mon l_mday l_tzOffset set_year set_mon set_mday set_hour set_min set_sec set_tzOffset set_monthName set_prevc] in *; lia.

Lemma number_field_total k st n c partLength s : 0 <= k < 2 ^ 24 -> 0 < partLength -> (tame s0 -> legacy_ok k st) -> (tame s0 -> 0 <= n < 10 ^ 9) ->
  wp (number_field st n c partLength s) (field_ok (k + partLength)) overflow.
Proof.
  intros Hk Hp Hst Hn. unfold number_field. cbv zeta. wp_step; [apply wp_ret; settle|]. wp_step.
  { wp_step. apply (wp_mono _ (fun n => tame s0 -> Z.abs n <= 610000000) _ overflow); [|intros n1 Hn1|done].
    - wp_step; [apply int_mul_total; settle|]. wp_step. assert (Hq : tame s0 -> 0 <= Z.quot n 100 * 100 <= n).
      { intros Ht. specialize (Hn Ht). pose proof (Z.quot_rem n 100 ltac:(lia)). pose proof (Z.rem_bound_pos n 100 ltac:(lia) ltac:(lia)). lia. }
      assert (Hr : tame s0 -> 0 <= Z.rem n 100 < 100) by (intros Ht; specialize (Hn Ht); apply Z.rem_bound_pos; lia).
      apply int_mul_total; [settle|]. apply int_add_total; settle.
    - wp_step. apply (wp_mono _ (fun n => tame s0 -> Z.abs n <= 610000000) _ overflow); [|intros n2 Hn2|done].
      + wp_step; [apply int_mul_total; settle|by apply wp_ret].
      + wp_step; apply wp_ret; [done|settle]. }
  wp_step; [wp_step; apply wp_ret; [settle|done]|].
  wp_step; [wp_step; [apply wp_ret; settle|wp_step; apply wp_ret; [settle|done]]|].
  wp_step; [wp_step; [apply wp_ret; settle|wp_step; apply wp_ret; [settle|done]]|].
  wp_step; [by apply wp_ret|]. wp_step.
  { bsplit. wp_step. apply (wp_mono _ (fun v => tame s0 -> Z.abs v <= 610000000 + 60 * (k + 1)) _ overflow); [|intros v Hv; apply wp_ret; settle|done].
    wp_step; apply int_add_total; settle. }
  repeat (wp_step; [apply wp_ret; settle|]). by apply wp_ret.
Qed.

(** ** Words *)

Lemma IsPrefixOfKeyword_total word keyword : Forall (fun c => IsAsciiAlpha c = true) word -> Forall (fun c => IsAsciiLowercaseAlpha c = true) keyword ->
  exists b, IsPrefixOfKeyword word keyword = mret b.
Proof.
  intros Hw. revert keyword. induction Hw as [|c word Hc _ IH]; intros [|x keyword] Hk; cbn [IsPrefixOfKeyword]; try by eexists.
  apply list.Forall_cons in Hk as [Hx Hk]. rewrite !assert_true by done. destruct (negb _); [by eexists|by apply IH].
Qed.

Definition keyword_ok (keyword : list Z * Z) : Prop :=
  Forall (fun c => IsAsciiLowercaseAlpha c = true) keyword.1 /\ (-2 <= keyword.2 <= 12 \/ 10000 <= keyword.2 <= 10480).

Lemma keywords_ok : Forall keyword_ok (reverse keywords).
Proof.
  assert (E : forallb (fun keyword => forallb IsAsciiLowercaseAlpha keyword.1 && (((-2 <=? keyword.2) && (keyword.2 <=? 12)) || ((10000 <=? keyword.2) && (keyword.2 <=? 10480)))) (reverse keywords) = true) by (vm_compute; reflexivity).
  rewrite forallb_forall in E. apply Forall_forall. intros x Hx. specialize (E x Hx). apply andb_true_iff in E as [E1 E2]. split; [|lia].
  apply Forall_forall. intros c Hc. rewrite forallb_forall in E1. by apply E1.
Qed.

Lemma find_keyword_total word ks : Forall (fun c => IsAsciiAlpha c = true) word -> Forall keyword_ok ks ->
  exists r, find_keyword word ks = mret r /\ match r with Some a => -2 <= a <= 12 \/ 10000 <= a <= 10480 | None => True end.
Proof.
  intros Hw Hk. induction Hk as [|[chars action] ks [Hc Ha] _ IH]; cbn [find_keyword]; [by exists None|].
  destruct (IsPrefixOfKeyword_total word chars Hw Hc) as [b ->]. rewrite bind_ret. destruct b; [by exists (Some action)|done].
Qed.

Lemma word_action_total k st action : (tame s0 -> legacy_ok k st) -> 0 <= k -> -2 <= action <= 12 \/ 10000 <= action <= 10480 ->
  wp (word_action st action) (field_ok k) overflow.
Proof.
  intros Hst Hk Ha. unfold word_action. wp_step; [by apply wp_ret|]. bsplit. wp_step.
  { wp_step. wp_step; [lia|]. wp_step; [by apply wp_ret|]. bsplit. wp_step; [apply wp_ret; settle|]. wp_step; [|by apply wp_ret].
    bsplit. wp_step. apply int_add_total; [lia|]. apply wp_ret. settle. }
  wp_step.
  { wp_step; [by apply wp_ret|]. repeat (wp_step; [apply wp_ret; settle|]). by apply wp_ret. }
  wp_step. wp_step; [lia|]. apply wp_ret. settle.
Qed.

Lemma letters_total s : let '(word, rest) := letters s in s = word ++ rest /\ Forall (fun c => IsAsciiAlpha c = true) word.
Proof.
  induction s as [|c s IH]; cbn [letters]; [done|]. destruct (IsAsciiAlpha c) eqn:Hc; cbn [negb]; [|by split].
  destruct (letters s) as [word rest]. destruct IH as [-> Hw]. split; [done|]. by constructor.
Qed.

(** ** The loop over the characters *)

Lemma number_loop_total u c s : 0 <= u -> let '(u', _, rest) := number_loop u c s in
  exists ds, s = ds ++ rest /\ Forall (fun c => IsAsciiDigit c = true) ds /\ 0 <= u' /\ ((u + 1) * 10 ^ zlen ds <= 2 ^ 32 -> u' + 1 <= (u + 1) * 10 ^ zlen ds).
Proof.
  revert u c. induction s as [|c' s IH]; intros u c Hu; cbn [number_loop]; [exists []; split_and!; try done; change (zlen (@nil Z)) with 0; rewrite Z.pow_0_r; lia|].
  destruct (IsAsciiDigit c') eqn:Hc; cbn [negb]; [|exists []; split_and!; try done; change (zlen (@nil Z)) with 0; rewrite Z.pow_0_r; lia].
  assert (Hu' : 0 <= uint32 (uint32 (u * 10) + (c' - 48))) by (apply Z.mod_pos_bound; done).
  specialize (IH (uint32 (uint32 (u * 10) + (c' - 48))) c' Hu'). destruct (number_loop _ _ s) as [[u' ?] rest].
  destruct IH as (ds & -> & Hds & H1 & H2). exists (c' :: ds). split; [done|]. split; [by constructor|]. split; [done|]. intros Hb.
  assert (Hl : zlen (c' :: ds) = Z.succ (zlen ds)) by (unfold zlen; cbn [length]; lia). rewrite Hl in *. assert (H0 : 0 <= zlen ds) by (unfold zlen; lia).
  rewrite Z.pow_succ_r in * by done. assert (Hp : 0 < 10 ^ zlen ds) by (apply Z.pow_pos_nonneg; lia). set (p := 10 ^ zlen ds) in *. clearbody p.
  assert (Hd : 0 <= c' - 48 <= 9) by (unfold IsAsciiDigit in Hc; lia). assert (H10 : (u + 1) * 10 <= 2 ^ 32) by (assert ((u + 1) * 10 * 1 <= (u + 1) * 10 * p) by (apply Z.mul_le_mono_nonneg_l; lia); lia).
  unfold uint32 in *. rewrite (Z.mod_small (u * 10)) in * by lia. rewrite (Z.mod_small (u * 10 + _)) in * by lia.
  assert ((u * 10 + (c' - 48) + 1) * p <= (u + 1) * 10 * p) by (apply Z.mul_le_mono_nonneg_r; lia). lia.
Qed.

Lemma skip_comment_suffix depth s : exists a, s = a ++ skip_comment depth s /\ True.
Proof.
  revert depth. induction s as [|c s IH]; intros depth; cbn [skip_comment]; [by exists []|].
  destruct (c =? 40); [|destruct (c =? 41); [destruct (depth - 1 <=? 0); [by exists [c]|]|]].
  1: destruct (IH (depth + 1)) as (a & E & _). 2: destruct (IH (depth - 1)) as (a & E & _). 3: destruct (IH depth) as (a & E & _).
  all: exists (c :: a); split; [cbn [app]; by f_equal|done].
Qed.

(** The position is in the string, and the fields fit what was read. *)
Definition position_ok (p : legacy * list Z) : Prop :=
  (exists a, s0 = a ++ p.2) /\ (tame s0 -> legacy_ok (zlen s0 - zlen p.2) p.1).

Definition step_ok (n : Z) (r : legacy * list Z + option legacy) : Prop :=
  match r with
  | inl p => position_ok p /\ zlen p.2 < n
  | inr st => field_ok (zlen s0) st
  end.

(** Reading on, with the fields that go with the characters read. *)
Lemma advance a s' st st' : a <> [] -> position_ok (st, a ++ s') -> (tame s0 -> legacy_ok (zlen s0 - zlen (a ++ s')) st -> legacy_ok (zlen s0 - zlen s') st') ->
  step_ok (zlen (a ++ s')) (inl (st', s')).
Proof.
  intros Ha [[b Hb] Hst] H. split; [split|]; cbn [fst snd] in *.
  - exists (b ++ a). by rewrite <- app_assoc.
  - intros Ht. by apply H, Hst.
  - destruct a as [|c a]; [done|]. rewrite zlen_app. unfold zlen. cbn [length]. lia.
Qed.

Lemma same_fields (a s' : list Z) st st' : legacy_ok (zlen s0 - zlen (a ++ s')) st ->
  l_year st' = l_year st -> l_mon st' = l_mon st -> l_mday st' = l_mday st -> l_tzOffset st' = l_tzOffset st -> legacy_ok (zlen s0 - zlen s') st'.
Proof.
  unfold legacy_ok. intros H -> -> -> ->. apply (legacy_ok_mono (zlen s0 - zlen (a ++ s')) _ st); [done|]. rewrite zlen_app. pose proof (zlen_nonneg a). lia.
Qed.

Lemma field_advance a s' st r : a <> [] -> position_ok (st, a ++ s') -> field_ok (zlen s0 - zlen s') r -> step_ok (zlen (a ++ s')) (next_field r s').
Proof. intros Ha Hp Hr. destruct r as [st'|]; [|done]. apply (advance a s' st); [done..|]. intros Ht _. by apply Hr. Qed.

Lemma number_step st c s : position_ok (st, c :: s) -> IsAsciiDigit c = true ->
  wp (let '(u, c', rest) := number_loop (uint32 (c - 48)) c s in
      r ← number_field st (wrap_signed 32 u) c' (zlen (c :: s) - zlen rest) rest; mret (next_field r rest)) (step_ok (zlen (c :: s))) overflow.
Proof.
  intros Hp Hc. assert (Hd : 0 <= c - 48 <= 9) by (unfold IsAsciiDigit in Hc; lia). assert (Eu : uint32 (c - 48) = c - 48) by (apply Z.mod_small; lia).
  rewrite Eu. pose proof (number_loop_total (c - 48) c s ltac:(lia)) as Hl. destruct (number_loop (c - 48) c s) as [[u c'] rest].
  destruct Hl as (ds & -> & Hds & Hu0 & Hu). assert (Hlen : zlen (c :: ds) = zlen ds + 1) by (unfold zlen; cbn [length]; lia). pose proof (zlen_nonneg ds) as Hds0.
  change (c :: ds ++ rest) with ((c :: ds) ++ rest) in *. replace (zlen ((c :: ds) ++ rest) - zlen rest) with (zlen (c :: ds)) by (rewrite zlen_app; lia).
  pose proof Hp as [[a Ha] Hst]. cbn [fst snd] in *. assert (Hk : 0 <= zlen s0 - zlen ((c :: ds) ++ rest)) by (rewrite Ha, zlen_app; pose proof (zlen_nonneg a); lia).
  assert (Hn : tame s0 -> 0 <= wrap_signed 32 u < 10 ^ 9).
  { intros [_ Ht]. specialize (Ht a (c :: ds) rest Ha ltac:(by constructor)). assert (Hpow : 10 ^ zlen ds <= 10 ^ 8) by (apply Z.pow_le_mono_r; lia).
    assert (Hpos : 0 < 10 ^ zlen ds) by (apply Z.pow_pos_nonneg; lia). assert (Hb : (c - 48 + 1) * 10 ^ zlen ds <= 10 * 10 ^ 8) by (apply Z.mul_le_mono_nonneg; lia).
    specialize (Hu ltac:(lia)). unfold wrap_signed. rewrite Z.mod_small by lia. case_match; lia. }
  wp_step. destruct (Z.lt_ge_cases (zlen s0 - zlen ((c :: ds) ++ rest)) (2 ^ 24)) as [Hs|Hs].
  - eapply wp_mono; [apply (number_field_total (zlen s0 - zlen ((c :: ds) ++ rest))); [lia|lia|done|done]| |done]. intros r Hr. apply wp_ret.
    apply (field_advance (c :: ds) rest st); [done..|]. rewrite zlen_app in Hr. by replace (zlen s0 - zlen rest) with (zlen s0 - (zlen (c :: ds) + zlen rest) + zlen (c :: ds)) by lia.
  - assert (Hnt : ~ tame s0) by (intros [H _]; pose proof (zlen_nonneg ((c :: ds) ++ rest)); lia).
    eapply wp_mono; [apply (number_field_total 0); [lia|lia|done|done]| |done]. intros r Hr. apply wp_ret.
    apply (field_advance (c :: ds) rest st); [done..|]. by destruct r.
Qed.

Lemma word_step st c s : position_ok (st, c :: s) -> IsAsciiAlpha c = true ->
  wp (let '(word, rest) := letters (c :: s) in r ← word_field st word; mret (next_field r rest)) (step_ok (zlen (c :: s))) overflow.
Proof.
  intros Hp Hc. pose proof (letters_total (c :: s)) as Hl. destruct (letters (c :: s)) as [word rest] eqn:E. destruct Hl as [El Hw].
  assert (Hne : word <> []) by (intros ->; cbn [letters] in E; rewrite Hc in E; cbn [negb] in E; destruct (letters s); discriminate).
  clear E. rewrite El in *.
  pose proof Hp as [[a Ha] Hst]. cbn [fst snd] in *. assert (Hk : 0 <= zlen s0 - zlen (word ++ rest)) by (rewrite Ha, zlen_app; pose proof (zlen_nonneg a); lia).
  wp_step. unfold word_field. wp_step; [apply wp_ret, wp_ret; done|]. destruct (find_keyword_total word (reverse keywords) Hw keywords_ok) as (r & -> & Hr). rewrite bind_ret.
  destruct r as [action|]; [|by apply wp_ret, wp_ret]. eapply wp_mono; [by apply (word_action_total (zlen s0 - zlen (word ++ rest)))| |done]. intros r' Hr'. apply wp_ret.
  apply (field_advance word rest st); [done..|]. destruct r' as [st'|]; [|done]. intros Ht. apply (same_fields word rest st'); by auto.
Qed.

Lemma legacy_step_total st s : position_ok (st, s) -> wp (legacy_step (st, s)) (step_ok (zlen s)) overflow.
Proof.
  intros Hp. destruct s as [|c s]; cbn [legacy_step].
  { apply wp_ret. destruct Hp as [_ H]. cbn [fst snd] in H. change (zlen (@nil Z)) with 0 in H. by rewrite Z.sub_0_r in H. }
  assert (Hone : forall st', l_year st' = l_year st -> l_mon st' = l_mon st -> l_mday st' = l_mday st -> l_tzOffset st' = l_tzOffset st -> step_ok (zlen (c :: s)) (inl (st', s))).
  { intros st' E1 E2 E3 E4. apply (advance [c] s st); [done|exact Hp|]. intros _ H. by apply (same_fields [c] s st). }
  wp_step; [apply wp_ret; by apply Hone|]. wp_step; [apply wp_ret; by apply Hone|].
  wp_step; [apply wp_ret; destruct s as [|d s]; [by apply Hone|]; destruct (IsAsciiDigit d); by apply Hone|]. wp_step.
  { apply wp_ret. destruct (skip_comment_suffix 1 s) as (a & E & _). change (c :: s) with ([c] ++ s) in *. rewrite E at 1.
    change ([c] ++ a ++ ?r) with ((c :: a) ++ r). assert (Hp' : position_ok (st, (c :: a) ++ skip_comment 1 s)) by (cbn [app] in *; by rewrite <- E).
    apply (advance (c :: a) _ st); [done|done|]. intros _ H. by apply (same_fields (c :: a) _ st). }
  wp_step; [by apply number_step|]. wp_step; [by apply word_step|]. by apply wp_ret.
Qed.

(** ** The date *)

Lemma legacy_order_small st : 0 <= l_year st < 10 ^ 9 -> 0 <= l_mon st < 10 ^ 9 -> 0 <= l_mday st < 10 ^ 9 ->
  match legacy_order st with Some (year, mon, mday) => 0 <= year < 10 ^ 9 /\ 0 <= mon < 10 ^ 9 | None => True end.
Proof. intros Hy Hm Hd. unfold legacy_order. repeat case_match; simplify_eq; done || lia. Qed.

Lemma legacy_order_nonneg st : 0 <= l_year st -> 0 <= l_mon st -> 0 <= l_mday st ->
  match legacy_order st with Some (year, mon, mday) => 0 <= year /\ 0 <= mon | None => True end.
Proof. intros Hy Hm Hd. unfold legacy_order. repeat case_match; simplify_eq; done || lia. Qed.

Context {z : LocalZone}.

Lemma legacy_finish_total st : field_ok (zlen s0) (Some st) -> wp (legacy_finish st) parsed_time overflow.
Proof.
  intros Hst. unfold legacy_finish. wp_step; [by apply wp_ret|]. bsplit.
  pose proof (legacy_order_nonneg st ltac:(lia) ltac:(lia) ltac:(lia)) as Hpos.
  assert (Hsmall : tame s0 -> match legacy_order st with Some (year, mon, mday) => 0 <= year < 10 ^ 9 /\ 0 <= mon < 10 ^ 9 | None => True end).
  { intros Ht. destruct (Hst Ht) as (B1 & B2 & B3 & _). unfold small_field in *. apply legacy_order_small; lia. }
  destruct (legacy_order st) as [[[year mon] mday]|]; [|by apply wp_ret]. wp_step.
  apply (wp_mono _ (fun y => 0 <= y /\ (tame s0 -> y < 2 * 10 ^ 9)) _ overflow); [|intros y Hy|done].
  { wp_step; [wp_step; [apply int_add_total; lia|wp_step; [apply int_add_total; lia|]]|]; apply wp_ret; split; try lia; intros Ht; specialize (Hsmall Ht); lia. }
  wp_step. apply (wp_mono _ (fun _ => True) _ overflow); [|intros y' _|done].
  { wp_step; [apply int_mul_total; [intros Ht; destruct Hy as [? Hy]; specialize (Hy Ht); lia|done]|by apply wp_ret]. }
  wp_step. apply int_add_total; [intros Ht; specialize (Hsmall Ht); lia|]. wp_step.
  eapply wp_mono; [apply MakeDay_total; auto with doubles nocore| |done]. intros d Hd. cbv zeta.
  set (msec := MakeDate _ _). assert (Hms : is_double msec) by (apply MakeDate_double, MakeTime_double; auto with doubles nocore). clearbody msec. wp_step.
  assert (Hclip : forall u, is_double u -> wp (result ← TimeClip u; mret (Some result)) parsed_time overflow).
  { intros u Hu. wp_step. eapply wp_mono; [by apply TimeClip_total| |done]. intros c Hc. by apply wp_ret. }
  wp_step; [eapply wp_mono; [by apply UTC_total|exact Hclip|done]|]. apply wp_ret, Hclip. apply double_add_double; [done|apply double_mul_double].
Qed.

Lemma ParseDate_total : wp (ParseDate s0) parsed_time overflow.
Proof.
  unfold ParseDate. wp_step. eapply wp_mono; [apply ParseISOStyleDate_total| |done]. intros [r|] Hr; [by apply wp_ret|]. wp_step; [by apply wp_ret|]. wp_step.
  apply (wp_loop position_ok (fun p => zlen p.2)).
  - split; [by exists []|]. intros _. cbn [fst snd]. rewrite Z.sub_diag. unfold legacy_ok, small_field. cbn. lia.
  - cbn [snd]. unfold zlen. lia.
  - intros p _. apply zlen_nonneg.
  - intros [st s] Hp. eapply wp_mono; [by apply legacy_step_total| |done]. intros [p|[st'|]] H; [done| |by apply wp_ret]. by apply legacy_finish_total.
Qed.
End legacy.
