(* ===== verification/DateStringTheorems.v ===== *)
(** The properties of the date strings: what toISOString and toUTCString
    print is read back by the parsers. *)
From Stdlib Require Import String.
From S2P Require Import Prelude Words CheckedArithmetic FloatingPoint BigIntRep Conversions BigIntDouble Numerals BigIntPrint DoubleArith DoubleWhole DoubleFixed Dates DateCalendar TimeZone DateObject DateObjectInv DateTheorems DateStrings DateDigits DateLegacy DateParse.

#[local] Open Scope list_scope.
#[local] Open Scope Z_scope.

(** * The format of the standard *)

(** ECMA-262, "Date Time String Format": four digits for the years 0 to 9999,
    a sign and six digits for the others. *)
Definition year_text (y : Z) : list Z :=
  if (0 <=? y) && (y <=? 9999) then decimal 4 y else (if y <? 0 then [45] else [43]) ++ decimal 6 (Z.abs y).

Definition date_text (f : fields) : list Z :=
  [45] ++ decimal 2 (f_month f + 1) ++ [45] ++ decimal 2 (f_date f) ++ [84] ++ decimal 2 (f_hour f) ++ [58] ++ decimal 2 (f_min f) ++ [58] ++
  decimal 2 (f_sec f) ++ [46] ++ decimal 3 (f_ms f) ++ [90].

Definition iso_text (f : fields) : list Z := year_text (f_year f) ++ date_text f.

(** ** Printing *)

Lemma int_of_dbl f t v : f (dbl t) = mret (dbl v) -> - 2 ^ 31 <= v < 2 ^ 31 -> int_of f (dbl t) = mret v.
Proof. intros E Hv. unfold int_of. by rewrite E, bind_ret, double_to_int_dbl. Qed.

Lemma int_add_ok a b : - 2 ^ 31 <= a + b < 2 ^ 31 -> int_add a b = mret (a + b).
Proof. intros H. unfold int_add. by replace ((- 2 ^ 31 <=? a + b) && (a + b <? 2 ^ 31)) with true by lia. Qed.

(** The fields of a time value, as the printers obtain them. *)
Lemma fields_int t : Z.abs t <= 8640000000000000 -> let f := fields_at t in
  int_of YearFromTime (dbl t) = mret (f_year f) /\ int_of MonthFromTime (dbl t) = mret (f_month f) /\ int_of DateFromTime (dbl t) = mret (f_date f) /\
  int_of HourFromTime (dbl t) = mret (f_hour f) /\ int_of MinFromTime (dbl t) = mret (f_min f) /\ int_of SecFromTime (dbl t) = mret (f_sec f) /\
  int_of msFromTime (dbl t) = mret (f_ms f) /\ valid f.
Proof.
  intros Ht f. assert (Hb : time_bound t) by (unfold time_bound, day_ms; lia). pose proof (time_small t Hb) as Hs. pose proof (fields_at_valid t Hb) as Hv.
  fold f in Hv. pose proof Hv as (Hy & Hm & Hd & Hh & Hmi & Hsec & Hms). pose proof (month_length_bounds (is_leap (f_year f)) (f_month f)).
  split_and!; [..|done]; apply int_of_dbl; try lia; unfold f, fields_at; cbn [f_year f_month f_date f_hour f_min f_sec f_ms].
  - by apply YearFromTime_dbl.
  - by apply MonthFromTime_dbl.
  - by apply DateFromTime_dbl.
  - by apply HourFromTime_dbl.
  - by apply MinFromTime_dbl.
  - by apply SecFromTime_dbl.
  - by apply msFromTime_dbl.
Qed.

Lemma format_year y : Z.abs y <= 275943 ->
  (if (y <? 0) || (y >? 9999) then format_int true 6 y else format_int false 4 y) = year_text y.
Proof.
  intros Hy. unfold year_text. destruct (Z.ltb_spec y 0).
  - replace ((0 <=? y) && (y <=? 9999)) with false by lia. cbn [orb]. unfold format_int. replace (y <? 0) with true by lia.
    rewrite Nat.max_l; [done|]. apply width_bound. change (10 ^ Z.of_nat 6) with 1000000. lia.
  - replace (0 <=? y) with true by lia. cbn [orb andb]. rewrite Z.gtb_ltb, Z.leb_antisym. destruct (Z.ltb_spec 9999 y); cbn [negb].
    + unfold format_int. replace (y <? 0) with false by lia. rewrite Nat.max_l; [done|]. apply width_bound. change (10 ^ Z.of_nat 6) with 1000000. lia.
    + apply format_fixed. change (10 ^ Z.of_nat 4) with 10000. lia.
Qed.

Lemma iso_text_length f : (length (iso_text f) <= 99)%nat.
Proof.
  unfold iso_text, date_text, year_text. destruct (_ && _); [|destruct (f_year f <? 0)]; rewrite !length_app, !decimal_length; cbn [length]; lia.
Qed.

Lemma toISOString_text obj t : Z.abs t <= 8640000000000000 -> UTC_TIME obj = dbl t ->
  date_toISOString_impl obj = copy_to_string (iso_text (fields_at t)).
Proof.
  intros Ht Hu. destruct (fields_int t Ht) as (Ey & Em & Ed & Eh & Emi & Es & Ems & Hv). destruct Hv as (Hy & Hm & Hd & Hh & Hmi & Hs & Hms).
  pose proof (month_length_bounds (is_leap (f_year (fields_at t))) (f_month (fields_at t))). set (f := fields_at t) in *.
  unfold date_toISOString_impl. rewrite Hu, finite_dbl by small. cbn [negb]. rewrite Ey, bind_ret, Em, !bind_ret, int_add_ok, bind_ret, Ed, bind_ret by lia.
  rewrite Eh, bind_ret, Emi, bind_ret, Es, bind_ret, Ems, bind_ret, format_year by done. rewrite !format_fixed by (cbn [Z.of_nat]; lia).
  f_equal. unfold SprintfLiteral. apply take_ge. apply (iso_text_length f).
Qed.

(** ** Reading *)

Section iso.
Context {z : LocalZone}.

Lemma no_offset : double_mul (dbl 1) (double_add (double_mul (dbl 0) msPerHour) (double_mul (dbl 0) msPerMinute)) = dbl 0.
Proof.
  rewrite msPerHour_eq, msPerMinute_eq, (double_mul_dbl 0 3600000), (double_mul_dbl 0 60000), (double_add_dbl _ _), double_mul_comm by done.
  by apply (double_mul_dbl 0 1).
Qed.

(** The clip of the time value of a date, in the zone of the designator [Z]. *)
Lemma iso_done_valid dateMul f frac : valid f -> dateMul = (if f_year f <? 0 then -1 else 1) ->
  IsFinite (double_mul frac (dbl 1000)) = true -> ToInteger (double_mul frac (dbl 1000)) = dbl (f_ms f) -> Z.abs (instant f) <= 8640000000000000 ->
  iso_done dateMul (Z.abs (f_year f)) (f_month f + 1) (f_date f) (f_hour f) (f_min f) (f_sec f) frac false 1 0 0 [] = mret (Some (dbl (instant f))).
Proof.
  intros Hv Hmul Hfin Hint Hclip. destruct (instant_small f Hv) as [Hs1 Hs2]. pose proof Hv as (Hy & Hm & Hd & Hh & Hmi & Hs & Hms).
  pose proof (month_length_bounds (is_leap (f_year f)) (f_month f)) as Hml. unfold iso_done.
  replace ((Z.abs (f_year f) >? 275943) || _) with false by lia. replace (f_date f =? 0) with false by lia.
  rewrite DaysInMonth_eq, bind_ret by (lia || small). rewrite is_leap_abs. replace (f_month f + 1 - 1) with (f_month f) by lia.
  replace (_ || (0 >? 59)) with false by lia. rewrite bind_ret. change (zlen (@nil Z)) with 0. cbn [negb Z.eqb].
  rewrite (MakeTime_truncates _ _ _ _ (f_ms f)) by (done || small).
  assert (Ey : double_mul (dbl dateMul) (dbl (Z.abs (f_year f))) = dbl (f_year f)).
  { destruct (Z.eq_dec (f_year f) 0) as [E|H0]; [rewrite Hmul, E; change (Z.abs 0) with 0; by rewrite double_mul_comm, double_mul_dbl by done|].
    assert (Esgn : dateMul = Z.sgn (f_year f)) by (rewrite Hmul; destruct (Z.ltb_spec (f_year f) 0); lia). rewrite Esgn. by apply signed_year; [lia|]. }
  rewrite Ey. pose proof (time_of_valid f Hv) as Ht. unfold time_of in Ht. rewrite MakeDay_dbl, bind_ret in * by (lia || (rewrite Z.div_small by lia; unfold year_bound; lia)).
  apply ret_inj in Ht. rewrite Ht, no_offset, bind_ret.
  rewrite double_sub_dbl, Z.sub_0_r, TimeClip_valid, bind_ret by (done || small). by rewrite identical_refl.
Qed.

Lemma iso_date_valid dateMul f : valid f -> dateMul = (if f_year f <? 0 then -1 else 1) -> Z.abs (instant f) <= 8640000000000000 ->
  iso_date dateMul (Z.abs (f_year f)) (date_text f) = mret (Some (dbl (instant f))).
Proof.
  intros Hv Hmul Hclip. pose proof Hv as (Hy & Hm & Hd & Hh & Hmi & Hs & Hms). pose proof (month_length_bounds (is_leap (f_year f)) (f_month f)).
  destruct (ParseFractional_decimal (f_ms f) 90 [] Hms eq_refl) as (frac & Hfrac & Hfin & Hint). unfold iso_date, date_text.
  cbn [app PEEK tail negb Z.eqb Pos.eqb]. rewrite NEED_NDIGITS_OR_LESS_decimal by (cbn [Z.of_nat]; lia).
  cbn [app PEEK tail negb Z.eqb Pos.eqb]. rewrite NEED_NDIGITS_OR_LESS_decimal by (cbn [Z.of_nat]; lia).
  unfold iso_time, iso_clock. cbn [app PEEK tail negb Z.eqb Pos.eqb]. rewrite NEED_NDIGITS_OR_LESS_decimal by (cbn [Z.of_nat]; lia).
  unfold NEED. cbn [app PEEK tail negb Z.eqb Pos.eqb]. rewrite NEED_NDIGITS_OR_LESS_decimal by (cbn [Z.of_nat]; lia).
  cbn [app PEEK tail negb Z.eqb Pos.eqb]. rewrite NEED_NDIGITS_OR_LESS_decimal by (cbn [Z.of_nat]; lia).
  cbn [app PEEK tail negb Z.eqb Pos.eqb]. rewrite Hfrac. unfold iso_zone. cbn [app PEEK tail negb Z.eqb Pos.eqb]. by apply iso_done_valid.
Qed.

(** A digit is not a sign. *)
Lemma PEEK_decimal ch n v rest : IsAsciiDigit ch = false -> (0 < n)%nat -> PEEK ch (decimal n v ++ rest) = false.
Proof.
  intros Hch Hn. pose proof (decimal_digits n v) as Hd. pose proof (decimal_length n v) as Hl. destruct (decimal n v) as [|c ds]; [cbn in Hl; lia|].
  inversion Hd as [|? ? Hc _]; subst. cbn [app PEEK]. apply Z.eqb_neq. intros ->. congruence.
Qed.

Lemma ParseISOStyleDate_valid f : valid f -> Z.abs (instant f) <= 8640000000000000 -> ParseISOStyleDate (iso_text f) = mret (Some (dbl (instant f))).
Proof.
  intros Hv Hclip. pose proof Hv as (Hy & _). unfold ParseISOStyleDate, iso_text, year_text. destruct ((0 <=? f_year f) && (f_year f <=? 9999)) eqn:H4.
  - rewrite !PEEK_decimal by (done || lia). cbn [orb]. rewrite NEED_NDIGITS_decimal by (cbn [Z.of_nat]; lia).
    rewrite <- (Z.abs_eq (f_year f)) at 1 by lia. apply iso_date_valid; [done| |done]. by replace (f_year f <? 0) with false by lia.
  - destruct (f_year f <? 0) eqn:Hneg; cbn [app PEEK tail Z.eqb Pos.eqb orb]; rewrite NEED_NDIGITS_decimal by (cbn [Z.of_nat]; lia);
      (apply iso_date_valid; [done|by rewrite Hneg|done]).
Qed.

Lemma ParseDate_iso s r : ParseISOStyleDate s = mret (Some r) -> ParseDate s = mret (Some r).
Proof. intros E. unfold ParseDate. by rewrite E. Qed.

Lemma date_parse_eq s n : ParseDate s = mret (Some (dbl n)) -> Z.abs n <= 8640000000000000 -> date_parse mret [s] = mret (dbl n).
Proof. intros E Hn. unfold date_parse. rewrite bind_ret, E, bind_ret. apply ret_eq, time_value_dbl. small. Qed.
End iso.

(** C12: what toISOString prints, Date.parse reads back. For every [Date]
    whose time value is a number the string is the format of the standard for
    the fields of the calendar, and [Date.parse] of it, in any zone, is that
    time value to the millisecond, although the parser sums the digits of the
    fraction in binary floating point. For an invalid date toISOString throws
    a RangeError. No assertion fails. *)
Theorem iso_string_roundtrip {z : LocalZone} obj : valid_time (UTC_TIME obj) ->
  wp (date_toISOString_impl obj)
    (fun s => exists t, UTC_TIME obj = dbl t /\ s = iso_text (fields_at t) /\ date_parse mret [s] = mret (UTC_TIME obj))
    (fun e => e = InvalidDate /\ UTC_TIME obj = GenericNaN).
Proof.
  intros [Hu|(t & Hu & Ht)].
  - unfold date_toISOString_impl. rewrite Hu. change (negb (IsFinite GenericNaN)) with true. by apply wp_throw.
  - rewrite (toISOString_text obj t Ht Hu). assert (Hb : time_bound t) by (unfold time_bound, day_ms; lia).
    eapply wp_mono; [apply copy_to_string_spec| |done]. intros s ->. exists t. split; [done|]. split; [done|].
    rewrite Hu. apply (date_parse_eq _ t); [|exact Ht]. apply ParseDate_iso. pose proof (ParseISOStyleDate_valid _ (fields_at_valid t Hb)) as E.
    rewrite instant_fields_at in E. exact (E Ht).
Qed.

(** * The format of toUTCString *)

Definition gmt_text (t : Z) : list Z :=
  let f := fields_at t in
  utc_date ((t / day_ms + 4) mod 7) (f_month f) (f_date f) (f_year f) ++ utc_time (f_hour f) (f_min f) (f_sec f).

Lemma format_int_year y : Z.abs y <= 275943 -> format_int false 4 y = (if y <? 0 then [45] else []) ++ decimal (year_width y) (Z.abs y).
Proof. intros Hy. unfold format_int, year_width. destruct (y <? 0); done. Qed.

Lemma gmt_text_length t : Z.abs t <= 8640000000000000 -> (29 <= length (gmt_text t) <= 32)%nat.
Proof.
  intros Ht. destruct (fields_int t Ht) as (_ & _ & _ & _ & _ & _ & _ & Hy & Hm & _). unfold gmt_text, utc_date, utc_time. set (f := fields_at t) in *.
  destruct (days_ok ((t / day_ms + 4) mod 7) (Z.mod_pos_bound _ 7 eq_refl)) as (_ & _ & Ew & _), (months_ok (f_month f) Hm) as (_ & _ & Em & _), (year_width_ok (f_year f) Hy) as [Hk _].
  rewrite !length_app, !decimal_length, Ew, Em. destruct (f_year f <? 0); cbn [length]; lia.
Qed.

Lemma toGMTString_text obj t : Z.abs t <= 8640000000000000 -> UTC_TIME obj = dbl t -> date_toGMTString_impl obj = copy_to_string (gmt_text t).
Proof.
  intros Ht Hu. destruct (fields_int t Ht) as (Ey & Em & Ed & Eh & Emi & Es & Ems & Hv). destruct Hv as (Hy & Hm & Hd & Hh & Hmi & Hs & Hms).
  pose proof (month_length_bounds (is_leap (f_year (fields_at t))) (f_month (fields_at t))). pose proof (gmt_text_length t Ht) as Hlen. unfold gmt_text in *. set (f := fields_at t) in *.
  assert (Hb : time_bound t) by (unfold time_bound, day_ms; lia). destruct (days_ok ((t / day_ms + 4) mod 7) (Z.mod_pos_bound _ 7 eq_refl)) as [Ew _].
  destruct (months_ok (f_month f) Hm) as [En _]. unfold date_toGMTString_impl. rewrite Hu, finite_dbl by small. cbn [negb].
  rewrite (WeekDay_dbl t Hb), bind_ret, Ew, bind_ret, Ed, bind_ret, Em, bind_ret, En, bind_ret, Ey, bind_ret, Eh, bind_ret, Emi, bind_ret, Es, bind_ret.
  rewrite format_int_year by done. rewrite !format_fixed by (cbn [Z.of_nat]; lia). f_equal. unfold SprintfLiteral. unfold utc_date, utc_time in *.
  rewrite <- !app_assoc in *. cbn [app] in *. apply take_ge. lia.
Qed.

Section gmt.
Context {z : LocalZone}.

Lemma legacy_finish_utc y m d h mi s : let f := Fields y m d h mi s 0 in valid f -> Z.abs (instant f) <= 8640000000000000 ->
  legacy_finish (Legacy (Z.abs y) (m + 1) d h mi s 0 0 false true true (y <? 0)) = mret (Some (dbl (instant f))).
Proof.
  intros f Hv Hclip. destruct (instant_small f Hv) as [Hs1 Hs2]. pose proof Hv as (Hy & Hm & Hd & Hh & Hmi & Hs & Hms). cbn in Hy, Hm, Hd, Hh, Hmi, Hs.
  pose proof (month_length_bounds (is_leap y) m) as Hml. unfold legacy_finish.
  cbn [l_year l_mon l_mday l_hour l_min l_sec l_tzOffset l_seenFullYear l_negativeYear].
  replace ((Z.abs y <? 0) || (m + 1 <? 0) || (d <? 0)) with false by lia. unfold legacy_order. cbn [l_year l_mon l_mday l_seenMonthName l_seenFullYear].
  replace ((d >=? 100) && (m + 1 >=? 100)) with false by lia. rewrite andb_false_r. replace ((d <=? 0) || (d >? 31)) with false by lia. cbn [negb].
  rewrite bind_ret. assert (Ey : (if y <? 0 then int_mul (Z.abs y) (-1) else mret (Z.abs y)) = mret y).
  { destruct (Z.ltb_spec y 0); [|apply ret_eq; lia]. unfold int_mul. replace ((- 2 ^ 31 <=? Z.abs y * -1) && (Z.abs y * -1 <? 2 ^ 31)) with true by lia. apply ret_eq. lia. }
  rewrite Ey, bind_ret, int_add_ok, bind_ret by lia. replace (m + 1 + -1) with m by lia. known (s <? 0). known (mi <? 0). known (h <? 0). cbn [Z.eqb].
  pose proof (time_of_valid f Hv) as Ht. unfold time_of in Ht. cbn [f_year f_month f_date f_hour f_min f_sec f_ms f] in Ht.
  rewrite MakeDay_dbl, bind_ret in * by (lia || (rewrite Z.div_small by lia; unfold year_bound; lia)). apply ret_inj in Ht. rewrite Ht, bind_ret.
  rewrite msPerMinute_eq, (double_mul_dbl 0 60000), double_add_dbl, Z.add_0_r, TimeClip_valid, bind_ret by (done || small). reflexivity.
Qed.

(** The first character is no digit and no sign. *)
Lemma iso_rejects c s : IsAsciiAlpha c = true -> ParseISOStyleDate (c :: s) = mret None.
Proof.
  intros Hc. unfold IsAsciiAlpha, IsAsciiLowercaseAlpha, IsAsciiUppercaseAlpha in Hc. assert (Hc' : 65 <= c) by lia. unfold ParseISOStyleDate, PEEK.
  known (c =? 43). known (c =? 45). cbn [orb]. unfold NEED_NDIGITS, ParseDigitsN, ParseDigits. cbn [digits_loop]. unfold IsAsciiDigit.
  replace ((48 <=? c) && (c <=? 57)) with false by lia. by rewrite Z.eqb_refl.
Qed.

Lemma ParseDate_gmt t : Z.abs t <= 8640000000000000 -> ParseDate (gmt_text t) = mret (Some (dbl (t - t mod 1000))).
Proof.
  intros Ht. destruct (fields_int t Ht) as (_ & _ & _ & _ & _ & _ & _ & Hv). pose proof (gmt_text_length t Ht) as Hlen. pose proof Hv as (Hy & Hm & Hd & Hh & Hmi & Hs & _).
  pose proof (instant_fields_at t) as Hi. assert (Ems : f_ms (fields_at t) = t mod 1000) by done. unfold gmt_text in *. set (f := fields_at t) in *. clearbody f.
  set (w := (t / day_ms + 4) mod 7) in *. assert (Hw : 0 <= w < 7) by (apply Z.mod_pos_bound; lia). clearbody w.
  pose proof (month_length_bounds (is_leap (f_year f)) (f_month f)). destruct (days_ok w Hw) as (_ & Ha & Hl & _).
  set (f' := Fields (f_year f) (f_month f) (f_date f) (f_hour f) (f_min f) (f_sec f) 0).
  assert (Hi' : instant f' = t - t mod 1000) by (unfold f', instant, time_ms in *; cbn [f_year f_month f_date f_hour f_min f_sec f_ms]; lia).
  assert (Hv' : valid f') by (unfold valid, f' in *; cbn [f_year f_month f_date f_hour f_min f_sec f_ms]; lia).
  assert (Hc' : Z.abs (t - t mod 1000) <= 8640000000000000) by (Z.div_mod_to_equations; lia).
  unfold ParseDate. assert (E : ParseISOStyleDate (utc_date w (f_month f) (f_date f) (f_year f) ++ utc_time (f_hour f) (f_min f) (f_sec f)) = mret None).
  { unfold utc_date. rewrite <- app_assoc. destruct (name days w) as [|c word]; [done|]. apply iso_rejects. by apply list.Forall_cons in Ha as [Ha _]. }
  rewrite E, bind_ret. replace (zlen _ =? 0) with false by (symmetry; apply Z.eqb_neq; unfold zlen; lia).
  set (s := utc_date _ _ _ _ ++ _) in *. replace (S (length s)) with (9 + (9 + (length s - 17)))%nat by lia. unfold s at 2. unfold utc_time at 1. cbn [app].
  edestruct (loop_date (9 + (length s - 17)) w (f_month f) (f_date f) (f_year f)) as (j & Hj & E2); [done|done|lia|done|].
  rewrite E2. rewrite <- Nat.add_assoc. pose proof (loop_time (length s - 17 + j) (f_month f) (f_date f) (f_year f) (f_hour f) (f_min f) (f_sec f) Hm ltac:(lia) Hh Hmi Hs) as E3.
  unfold utc_time in E3. cbn [app] in E3. rewrite E3, bind_ret. rewrite <- Hi' in *.
  exact (legacy_finish_utc _ _ _ _ _ _ Hv' Hc').
Qed.
End gmt.

(** C16: what toUTCString prints, Date.parse reads back. The string has the
    day of the week, the date, with a dash before a negative year, and the time
    of day; the parser of the standard format rejects it and the permissive one
    reads it, in any zone, as the time value without its milliseconds. The text
    of an invalid date is read as NaN. *)
Theorem utc_string_roundtrip {z : LocalZone} obj : valid_time (UTC_TIME obj) ->
  wp (date_toGMTString_impl obj)
    (fun s => if UTC_TIME obj =? GenericNaN then s = codes "Invalid Date"%string /\ date_parse mret [s] = mret GenericNaN
              else exists t, UTC_TIME obj = dbl t /\ s = gmt_text t /\ date_parse mret [s] = mret (dbl (t - t mod 1000))) no_error.
Proof.
  intros [Hu|(t & Hu & Ht)].
  - unfold date_toGMTString_impl. rewrite Hu. change (negb (IsFinite GenericNaN)) with true. apply wp_ret. rewrite Z.eqb_refl. split; [done|]. vm_compute. reflexivity.
  - rewrite (toGMTString_text obj t Ht Hu), Hu. eapply wp_mono; [apply copy_to_string_spec| |done]. intros s ->.
    assert (Hne : dbl t <> GenericNaN). { intros E. assert (Hn : IsNaN (dbl t) = false) by (apply dbl_not_nan; small). rewrite E in Hn. discriminate. }
    rewrite (proj2 (Z.eqb_neq _ _) Hne). exists t. split; [done|]. split; [done|]. apply date_parse_eq; [by apply ParseDate_gmt|]. Z.div_mod_to_equations. lia.
Qed.

(** A date whose year has a sign, and one before 1970. *)
Lemma iso_string_roundtrip_witness (z := {| zone_offset _ _ := 3600000; zone_standard := 3600 |} : LocalZone) :
  let obj := new_DateObject (dbl (-62198755199123)) in
  wp (date_toISOString_impl obj)
    (fun s => exists t, UTC_TIME obj = dbl t /\ s = iso_text (fields_at t) /\ date_parse mret [s] = mret (UTC_TIME obj))
    (fun e => e = InvalidDate /\ UTC_TIME obj = GenericNaN).
Proof. apply iso_string_roundtrip. right. exists (-62198755199123). split; [vm_compute; reflexivity|done]. Defined.

Lemma utc_string_roundtrip_witness (z := {| zone_offset _ _ := 3600000; zone_standard := 3600 |} : LocalZone) :
  let obj := new_DateObject (dbl (-62198755199123)) in
  wp (date_toGMTString_impl obj)
    (fun s => if UTC_TIME obj =? GenericNaN then s = codes "Invalid Date"%string /\ date_parse mret [s] = mret GenericNaN
              else exists t, UTC_TIME obj = dbl t /\ s = gmt_text t /\ date_parse mret [s] = mret (dbl (t - t mod 1000))) no_error.
Proof. apply utc_string_roundtrip. right. exists (-62198755199123). split; [vm_compute; reflexivity|done]. Defined.

(** * Any string *)

(** An offset of ten digits. *)
Definition long_offset : list Z := codes "1 Jan 2000 GMT+4000000000"%string.

Lemma long_offset_not_tame : ~ tame long_offset.
Proof.
  intros [_ H]. specialize (H (codes "1 Jan 2000 GMT+"%string) (codes "4000000000"%string) [] eq_refl).
  assert (Hd : Forall (fun c => IsAsciiDigit c = true) (codes "4000000000"%string)) by (repeat constructor). specialize (H Hd). vm_compute in H. by apply H.
Qed.

(** C30: [Date.parse] on any string, in any zone. It ends, no assertion fails,
    no cast is out of range, and the result is NaN or a time value; the one
    error is the overflow of an [int], and it cannot happen on a string of
    less than 2^24 characters without a run of ten digits. It does happen on
    others: the hours of an offset of ten digits are multiplied by 60. *)
Theorem date_parse_total :
  (forall (z : LocalZone) s, wp (date_parse mret [s]) valid_time (fun e => e = UndefinedBehavior /\ ~ tame s)) /\
  (forall (z : LocalZone), date_parse mret [long_offset] = throw UndefinedBehavior) /\ ~ tame long_offset.
Proof.
  split; [|split; [|exact long_offset_not_tame]].
  - intros z s. unfold date_parse. rewrite bind_ret. wp_step. eapply wp_mono; [apply ParseDate_total| |done].
    intros r Hr. apply wp_ret. destruct r as [c|]; [exact Hr|by left].
  - intros z. vm_compute. reflexivity.
Qed.
