(* ===== verification/RangeAnalysis.v ===== *)
(** The ranges of the optimising JIT (js/src/jit/RangeAnalysis.h and .cpp):
    what the compiler knows about the double a computation yields, and the
    operations on ranges that follow the operations on doubles.  The symbolic
    bounds of loop analysis are not part of it; an [int32_t] or [int64_t] is a
    [Z], with its width written out where a value could leave it. *)
From S2P Require Import Prelude Words CheckedArithmetic FloatingPoint BigIntRep BigIntMul Conversions BigIntDouble DoubleArith Dates.

(** * Ranges *)

Definition JSVAL_INT_MIN : Z := - 2 ^ 31.
Definition JSVAL_INT_MAX : Z := 2 ^ 31 - 1.
Definition UINT32_MAX : Z := 2 ^ 32 - 1.

Definition MaxInt32Exponent : Z := 31.
Definition MaxTruncatableExponent : Z := kExponentShift.
Definition MaxFiniteExponent : Z := kExponentBias.
Definition IncludesInfinity : Z := MaxFiniteExponent + 1.
Definition IncludesInfinityAndNaN : Z := 2 ^ 16 - 1.
Definition NoInt32UpperBound : Z := JSVAL_INT_MAX + 1.
Definition NoInt32LowerBound : Z := JSVAL_INT_MIN - 1.

Record NumberRange := MkNumberRange {
  lower_ : Z;
  upper_ : Z;
  hasInt32LowerBound_ : bool;
  hasInt32UpperBound_ : bool;
  canHaveFractionalPart_ : bool;
  canBeNegativeZero_ : bool;
  max_exponent_ : Z;
}.

#[global] Instance number_range_eq_dec : EqDecision NumberRange.
Proof. solve_decision. Defined.

Definition with_bounds (r : NumberRange) (l : Z) (lb : bool) (h : Z) (hb : bool) : NumberRange :=
  MkNumberRange l h lb hb (canHaveFractionalPart_ r) (canBeNegativeZero_ r) (max_exponent_ r).
Definition with_fraction (r : NumberRange) (b : bool) : NumberRange :=
  MkNumberRange (lower_ r) (upper_ r) (hasInt32LowerBound_ r) (hasInt32UpperBound_ r) b (canBeNegativeZero_ r) (max_exponent_ r).
Definition with_negative_zero (r : NumberRange) (b : bool) : NumberRange :=
  MkNumberRange (lower_ r) (upper_ r) (hasInt32LowerBound_ r) (hasInt32UpperBound_ r) (canHaveFractionalPart_ r) b (max_exponent_ r).
Definition with_exponent (r : NumberRange) (e : Z) : NumberRange :=
  MkNumberRange (lower_ r) (upper_ r) (hasInt32LowerBound_ r) (hasInt32UpperBound_ r) (canHaveFractionalPart_ r) (canBeNegativeZero_ r) e.

(** ** Queries *)

Definition hasInt32Bounds (r : NumberRange) : bool := hasInt32LowerBound_ r && hasInt32UpperBound_ r.
Definition isInt32 (r : NumberRange) : bool := hasInt32Bounds r && negb (canHaveFractionalPart_ r) && negb (canBeNegativeZero_ r).
Definition lower (r : NumberRange) : M Z := moz_assert (hasInt32LowerBound_ r);; mret (lower_ r).
Definition upper (r : NumberRange) : M Z := moz_assert (hasInt32UpperBound_ r);; mret (upper_ r).
Definition range_contains (r : NumberRange) (x : Z) : bool := (x >=? lower_ r) && (x <=? upper_ r).
Definition canBeZero (r : NumberRange) : bool := range_contains r 0.
Definition canBeNaN (r : NumberRange) : bool := max_exponent_ r =? IncludesInfinityAndNaN.
Definition canBeInfiniteOrNaN (r : NumberRange) : bool := max_exponent_ r >=? IncludesInfinity.
Definition exponent (r : NumberRange) : M Z := moz_assert (negb (canBeInfiniteOrNaN r));; mret (max_exponent_ r).
Definition numBits (r : NumberRange) : M Z := e ← exponent r; mret (e + 1).
Definition isFiniteNegative (r : NumberRange) : bool := (upper_ r <? 0) && negb (canBeInfiniteOrNaN r).
Definition isFiniteNonNegative (r : NumberRange) : bool := (lower_ r >=? 0) && negb (canBeInfiniteOrNaN r).
Definition canBeFiniteNegative (r : NumberRange) : bool := lower_ r <? 0.
Definition canBeFiniteNonNegative (r : NumberRange) : bool := upper_ r >=? 0.
Definition canHaveSignBitSet (r : NumberRange) : bool :=
  negb (hasInt32LowerBound_ r) || canBeFiniteNegative r || canBeNegativeZero_ r.
Definition isBoolean (r : NumberRange) : M bool :=
  l ← lower r;
  if negb (l >=? 0) then mret false
  else u ← upper r; mret ((u <=? 1) && negb (canHaveFractionalPart_ r) && negb (canBeNegativeZero_ r)).

(** ** The representation *)

(** [MOZ_ASSERT_IF] *)
Definition moz_assert_if (c b : bool) : M unit := if c then moz_assert b else mret tt.

Definition assertInvariants (r : NumberRange) : M unit :=
  moz_assert (lower_ r <=? upper_ r);;
  moz_assert_if (negb (hasInt32LowerBound_ r)) (lower_ r =? JSVAL_INT_MIN);;
  moz_assert_if (negb (hasInt32UpperBound_ r)) (upper_ r =? JSVAL_INT_MAX);;
  moz_assert ((max_exponent_ r <=? MaxFiniteExponent) || (max_exponent_ r =? IncludesInfinity) || (max_exponent_ r =? IncludesInfinityAndNaN));;
  let adjustedExponent := max_exponent_ r + (if canHaveFractionalPart_ r then 1 else 0) in
  moz_assert_if (negb (hasInt32LowerBound_ r) || negb (hasInt32UpperBound_ r)) (adjustedExponent >=? MaxInt32Exponent);;
  moz_assert (adjustedExponent >=? FloorLog2 (Z.abs (upper_ r)));;
  moz_assert (adjustedExponent >=? FloorLog2 (Z.abs (lower_ r))).

(** [setLowerInit], [setUpperInit] *)
Definition setLowerInit (x : Z) : Z * bool :=
  if x >? JSVAL_INT_MAX then (JSVAL_INT_MAX, true)
  else if x <? JSVAL_INT_MIN then (JSVAL_INT_MIN, false)
  else (x, true).
Definition setUpperInit (x : Z) : Z * bool :=
  if x >? JSVAL_INT_MAX then (JSVAL_INT_MAX, false)
  else if x <? JSVAL_INT_MIN then (JSVAL_INT_MIN, true)
  else (x, true).

Definition exponentImpliedByInt32Bounds (r : NumberRange) : M Z :=
  l ← lower r;
  u ← upper r;
  let max := Z.max (Z.abs l) (Z.abs u) in
  let result := FloorLog2 max in
  moz_assert (result =? (if max =? 0 then 0 else ExponentComponent (dbl max)));;
  mret result.

Definition refineInt32BoundsByExponent (e l : Z) (lb : bool) (h : Z) (hb : bool) : Z * bool * Z * bool :=
  if e <? MaxInt32Exponent then
    let limit := int32 (uint32 (uint32 (Z.shiftl 1 (e + 1)) - 1)) in
    (Z.max l (- limit), true, Z.min h limit, true)
  else (l, lb, h, hb).

Definition optimize (r : NumberRange) : M NumberRange :=
  assertInvariants r;;
  r ← (if hasInt32Bounds r then
         newExponent ← exponentImpliedByInt32Bounds r;
         r ← (if newExponent <? max_exponent_ r then
                let r := with_exponent r newExponent in assertInvariants r;; mret r
              else mret r);
         if canHaveFractionalPart_ r && (lower_ r =? upper_ r) then
           let r := with_fraction r false in assertInvariants r;; mret r
         else mret r
       else mret r);
  if canBeNegativeZero_ r && negb (canBeZero r) then
    let r := with_negative_zero r false in assertInvariants r;; mret r
  else mret r.

Definition rawInitialize (l : Z) (lb : bool) (h : Z) (hb fractional negativeZero : bool) (e : Z) : M NumberRange :=
  optimize (MkNumberRange l h lb hb fractional negativeZero e).

(** [set], and the constructor that calls it. *)
Definition new_Range (l h : Z) (fractional negativeZero : bool) (e : Z) : M NumberRange :=
  let '(lo, lb) := setLowerInit l in
  let '(hi, hb) := setUpperInit h in
  optimize (MkNumberRange lo hi lb hb fractional negativeZero e).

Definition copy_Range (r : NumberRange) : M NumberRange := assertInvariants r;; mret r.

Definition setInt32 (l h : Z) : M NumberRange :=
  let r := MkNumberRange l h true true false false 0 in
  e ← exponentImpliedByInt32Bounds r;
  let r := with_exponent r e in
  assertInvariants r;; mret r.

Definition setUnknown : M NumberRange := new_Range NoInt32LowerBound NoInt32UpperBound true true IncludesInfinityAndNaN.

Definition NewInt32Range (l h : Z) : M NumberRange := new_Range l h false false MaxInt32Exponent.
Definition NewUInt32Range (l h : Z) : M NumberRange := new_Range l h false false 31.

Definition refineToExcludeNegativeZero (r : NumberRange) : M NumberRange :=
  assertInvariants r;; optimize (with_negative_zero r false).

(** ** Intervals of doubles *)

Definition double_ceil (d : Z) : Z := if IsNaN d then d else double_neg (double_floor (double_neg d)).

Definition ExponentImpliedByDouble (d : Z) : Z :=
  if IsNaN d then IncludesInfinityAndNaN
  else if IsInfinite d then IncludesInfinity
  else Z.max 0 (ExponentComponent d).

Definition setDouble (l h : Z) : M NumberRange :=
  moz_assert (negb (double_lt h l));;
  '(lo, lb) ← (if double_le (dbl JSVAL_INT_MIN) l && double_le l (dbl JSVAL_INT_MAX) then i ← double_to_int (double_floor l); mret (i, true)
               else mret (if double_le (dbl JSVAL_INT_MAX) l then (JSVAL_INT_MAX, true) else (JSVAL_INT_MIN, false)));
  '(hi, hb) ← (if double_le (dbl JSVAL_INT_MIN) h && double_le h (dbl JSVAL_INT_MAX) then i ← double_to_int (double_ceil h); mret (i, true)
               else mret (if double_le h (dbl JSVAL_INT_MIN) then (JSVAL_INT_MIN, true) else (JSVAL_INT_MAX, false)));
  let lExp := ExponentImpliedByDouble l in
  let hExp := ExponentImpliedByDouble h in
  let minExp := Z.min lExp hExp in
  let includesNegative := IsNaN l || double_lt l (dbl 0) in
  let includesPositive := IsNaN h || double_lt (dbl 0) h in
  let crossesZero := includesNegative && includesPositive in
  let fractional := crossesZero || (minExp <? MaxTruncatableExponent) in
  let negativeZero := negb (double_lt (dbl 0) l) && negb (double_lt h (dbl 0)) in
  optimize (MkNumberRange lo hi lb hb fractional negativeZero (Z.max lExp hExp)).

Definition setDoubleSingleton (d : Z) : M NumberRange :=
  r ← setDouble d d;
  let r := if negb (IsNegativeZero d) then with_negative_zero r false else r in
  assertInvariants r;; mret r.

(** ** Conversions *)

Definition clampToInt32 (r : NumberRange) : M NumberRange :=
  if isInt32 r then mret r
  else
    let l := if hasInt32LowerBound_ r then lower_ r else JSVAL_INT_MIN in
    let h := if hasInt32UpperBound_ r then upper_ r else JSVAL_INT_MAX in
    setInt32 l h.

Definition wrapAroundToInt32 (r : NumberRange) : M NumberRange :=
  r ← (if negb (hasInt32Bounds r) then setInt32 JSVAL_INT_MIN JSVAL_INT_MAX
       else if canHaveFractionalPart_ r then
         let '(l, lb, h, hb) := refineInt32BoundsByExponent (max_exponent_ r) (lower_ r) (hasInt32LowerBound_ r) (upper_ r) (hasInt32UpperBound_ r) in
         let r := MkNumberRange l h lb hb false false (max_exponent_ r) in
         assertInvariants r;; mret r
       else mret (with_negative_zero r false));
  moz_assert (isInt32 r);; mret r.

Definition wrapAroundToShiftCount (r : NumberRange) : M NumberRange :=
  r ← wrapAroundToInt32 r;
  l ← lower r;
  out ← (if l <? 0 then mret true else u ← upper r; mret (u >=? 32));
  if out : bool then setInt32 0 31 else mret r.

Definition wrapAroundToBoolean (r : NumberRange) : M NumberRange :=
  r ← wrapAroundToInt32 r;
  b ← isBoolean r;
  r ← (if negb b then setInt32 0 1 else mret r);
  b ← isBoolean r;
  moz_assert b;; mret r.

(** * Operations *)

(** The result of [intersect]: the range, or null, and [emptyRange]. *)
Definition intersect (lhs rhs : option NumberRange) : M (option NumberRange * bool) :=
  match lhs, rhs with
  | None, None => mret (None, false)
  | None, Some rhs => r ← copy_Range rhs; mret (Some r, false)
  | Some lhs, None => r ← copy_Range lhs; mret (Some r, false)
  | Some lhs, Some rhs =>
      let newLower := Z.max (lower_ lhs) (lower_ rhs) in
      let newUpper := Z.min (upper_ lhs) (upper_ rhs) in
      if newUpper <? newLower then mret (None, negb (canBeNaN lhs) || negb (canBeNaN rhs))
      else
        let newHasInt32LowerBound := hasInt32LowerBound_ lhs || hasInt32LowerBound_ rhs in
        let newHasInt32UpperBound := hasInt32UpperBound_ lhs || hasInt32UpperBound_ rhs in
        let newCanHaveFractionalPart := canHaveFractionalPart_ lhs && canHaveFractionalPart_ rhs in
        let newMayIncludeNegativeZero := canBeNegativeZero_ lhs && canBeNegativeZero_ rhs in
        let newExponent := Z.min (max_exponent_ lhs) (max_exponent_ rhs) in
        if newHasInt32LowerBound && newHasInt32UpperBound && (newExponent =? IncludesInfinityAndNaN) then mret (None, false)
        else
          let refine := negb (Bool.eqb (canHaveFractionalPart_ lhs) (canHaveFractionalPart_ rhs)) ||
            (canHaveFractionalPart_ lhs && newHasInt32LowerBound && newHasInt32UpperBound && (newLower =? newUpper)) in
          let '(newLower, newHasInt32LowerBound, newUpper, newHasInt32UpperBound) :=
            if refine then refineInt32BoundsByExponent newExponent newLower newHasInt32LowerBound newUpper newHasInt32UpperBound
            else (newLower, newHasInt32LowerBound, newUpper, newHasInt32UpperBound) in
          if refine && (newLower >? newUpper) then mret (None, true)
          else
            r ← rawInitialize newLower newHasInt32LowerBound newUpper newHasInt32UpperBound
                  newCanHaveFractionalPart newMayIncludeNegativeZero newExponent;
            mret (Some r, false)
  end.

Definition unionWith (r other : NumberRange) : M NumberRange :=
  rawInitialize (Z.min (lower_ r) (lower_ other)) (hasInt32LowerBound_ r && hasInt32LowerBound_ other)
    (Z.max (upper_ r) (upper_ other)) (hasInt32UpperBound_ r && hasInt32UpperBound_ other)
    (canHaveFractionalPart_ r || canHaveFractionalPart_ other)
    (canBeNegativeZero_ r || canBeNegativeZero_ other)
    (Z.max (max_exponent_ r) (max_exponent_ other)).

(** The exponent of a sum or a difference. *)
Definition add_exponent (lhs rhs : NumberRange) : Z :=
  let e := Z.max (max_exponent_ lhs) (max_exponent_ rhs) in
  let e := if e <=? MaxFiniteExponent then e + 1 else e in
  if canBeInfiniteOrNaN lhs && canBeInfiniteOrNaN rhs then IncludesInfinityAndNaN else e.

Definition range_add (lhs rhs : NumberRange) : M NumberRange :=
  let l := if negb (hasInt32LowerBound_ lhs) || negb (hasInt32LowerBound_ rhs) then NoInt32LowerBound else lower_ lhs + lower_ rhs in
  let h := if negb (hasInt32UpperBound_ lhs) || negb (hasInt32UpperBound_ rhs) then NoInt32UpperBound else upper_ lhs + upper_ rhs in
  new_Range l h (canHaveFractionalPart_ lhs || canHaveFractionalPart_ rhs)
    (canBeNegativeZero_ lhs && canBeNegativeZero_ rhs) (add_exponent lhs rhs).

Definition range_sub (lhs rhs : NumberRange) : M NumberRange :=
  let l := if negb (hasInt32LowerBound_ lhs) || negb (hasInt32UpperBound_ rhs) then NoInt32LowerBound else lower_ lhs - upper_ rhs in
  let h := if negb (hasInt32UpperBound_ lhs) || negb (hasInt32LowerBound_ rhs) then NoInt32UpperBound else upper_ lhs - lower_ rhs in
  new_Range l h (canHaveFractionalPart_ lhs || canHaveFractionalPart_ rhs)
    (canBeNegativeZero_ lhs && canBeZero rhs) (add_exponent lhs rhs).

Definition negativeZeroMul (lhs rhs : NumberRange) : bool :=
  (canHaveSignBitSet lhs && canBeFiniteNonNegative rhs) || (canHaveSignBitSet rhs && canBeFiniteNonNegative lhs).

Definition MissingAnyInt32Bounds (lhs rhs : NumberRange) : bool := negb (hasInt32Bounds lhs) || negb (hasInt32Bounds rhs).

Definition mul_exponent (lhs rhs : NumberRange) : M Z :=
  if negb (canBeInfiniteOrNaN lhs) && negb (canBeInfiniteOrNaN rhs) then
    a ← numBits lhs;
    b ← numBits rhs;
    let exponent := a + b - 1 in
    mret (if exponent >? MaxFiniteExponent then IncludesInfinity else exponent)
  else
    mret (if negb (canBeNaN lhs) && negb (canBeNaN rhs) && negb (canBeZero lhs && canBeInfiniteOrNaN rhs) &&
             negb (canBeZero rhs && canBeInfiniteOrNaN lhs)
          then IncludesInfinity else IncludesInfinityAndNaN).

Definition range_mul (lhs rhs : NumberRange) : M NumberRange :=
  let fractional := canHaveFractionalPart_ lhs || canHaveFractionalPart_ rhs in
  let negativeZero := (canHaveSignBitSet lhs && canBeFiniteNonNegative rhs) || (canHaveSignBitSet rhs && canBeFiniteNonNegative lhs) in
  exponent ← mul_exponent lhs rhs;
  if MissingAnyInt32Bounds lhs rhs then new_Range NoInt32LowerBound NoInt32UpperBound fractional negativeZero exponent
  else
    ll ← lower lhs; lu ← upper lhs; rl ← lower rhs; ru ← upper rhs;
    let a := ll * rl in let b := ll * ru in let c := lu * rl in let d := lu * ru in
    new_Range (Z.min (Z.min a b) (Z.min c d)) (Z.max (Z.max a b) (Z.max c d)) fractional negativeZero exponent.

(** ** Bits *)

Definition CountLeadingZeroes32 (x : Z) : M Z := moz_assert (negb (x =? 0));; mret (31 - Z.log2 x).

Definition range_and (lhs rhs : NumberRange) : M NumberRange :=
  moz_assert (isInt32 lhs);;
  moz_assert (isInt32 rhs);;
  ll ← lower lhs; lu ← upper lhs; rl ← lower rhs; ru ← upper rhs;
  if (ll <? 0) && (rl <? 0) then NewInt32Range JSVAL_INT_MIN (Z.max lu ru)
  else
    let upper := Z.min lu ru in
    let upper := if ll <? 0 then ru else upper in
    let upper := if rl <? 0 then lu else upper in
    NewInt32Range 0 upper.

(** [int32_t(UINT32_MAX >> n)] *)
Definition ones_below (n : Z) : Z := int32 (Z.shiftr UINT32_MAX n).

Definition range_or (lhs rhs : NumberRange) : M NumberRange :=
  moz_assert (isInt32 lhs);;
  moz_assert (isInt32 rhs);;
  ll ← lower lhs; lu ← upper lhs; rl ← lower rhs; ru ← upper rhs;
  if (ll =? lu) && (ll =? 0) then copy_Range rhs
  else if (ll =? lu) && (ll =? -1) then copy_Range lhs
  else if (rl =? ru) && (rl =? 0) then copy_Range lhs
  else if (rl =? ru) && (rl =? -1) then copy_Range rhs
  else
    moz_assert_if (ll >=? 0) (negb (lu =? 0));;
    moz_assert_if (rl >=? 0) (negb (ru =? 0));;
    moz_assert_if (lu <? 0) (negb (ll =? -1));;
    moz_assert_if (ru <? 0) (negb (rl =? -1));;
    if (ll >=? 0) && (rl >=? 0) then
      a ← CountLeadingZeroes32 (uint32 lu);
      b ← CountLeadingZeroes32 (uint32 ru);
      NewInt32Range (Z.max ll rl) (ones_below (Z.min a b))
    else
      '(lower, upper) ← (if lu <? 0 then
                           leadingOnes ← CountLeadingZeroes32 (uint32 (Z.lnot ll));
                           mret (Z.max JSVAL_INT_MIN (Z.lnot (ones_below leadingOnes)), -1)
                         else mret (JSVAL_INT_MIN, JSVAL_INT_MAX));
      '(lower, upper) ← (if ru <? 0 then
                           leadingOnes ← CountLeadingZeroes32 (uint32 (Z.lnot rl));
                           mret (Z.max lower (Z.lnot (ones_below leadingOnes)), -1)
                         else mret (lower, upper));
      NewInt32Range lower upper.

Definition range_xor (lhs rhs : NumberRange) : M NumberRange :=
  moz_assert (isInt32 lhs);;
  moz_assert (isInt32 rhs);;
  lhsLower ← lower lhs; lhsUpper ← upper lhs; rhsLower ← lower rhs; rhsUpper ← upper rhs;
  let '(lhsLower, lhsUpper, invertAfter) :=
    if lhsUpper <? 0 then (Z.lnot lhsUpper, Z.lnot lhsLower, true) else (lhsLower, lhsUpper, false) in
  let '(rhsLower, rhsUpper, invertAfter) :=
    if rhsUpper <? 0 then (Z.lnot rhsUpper, Z.lnot rhsLower, negb invertAfter) else (rhsLower, rhsUpper, invertAfter) in
  '(lower, upper) ←
    (if (lhsLower =? 0) && (lhsUpper =? 0) then mret (rhsLower, rhsUpper)
     else if (rhsLower =? 0) && (rhsUpper =? 0) then mret (lhsLower, lhsUpper)
     else if (lhsLower >=? 0) && (rhsLower >=? 0) then
       lhsLeadingZeros ← CountLeadingZeroes32 (uint32 lhsUpper);
       rhsLeadingZeros ← CountLeadingZeroes32 (uint32 rhsUpper);
       mret (0, Z.min (Z.lor rhsUpper (ones_below lhsLeadingZeros)) (Z.lor lhsUpper (ones_below rhsLeadingZeros)))
     else mret (JSVAL_INT_MIN, JSVAL_INT_MAX));
  let '(lower, upper) := if invertAfter : bool then (Z.lnot upper, Z.lnot lower) else (lower, upper) in
  NewInt32Range lower upper.

Definition range_not (op : NumberRange) : M NumberRange :=
  moz_assert (isInt32 op);;
  u ← upper op; l ← lower op;
  NewInt32Range (Z.lnot u) (Z.lnot l).

(** ** Shifts *)

(** [(int32_t)((uint32_t)x << shift << 1 >> shift >> 1)] *)
Definition shift_there_and_back (x shift : Z) : Z :=
  int32 (Z.shiftr (Z.shiftr (uint32 (Z.shiftl (uint32 (Z.shiftl (uint32 x) shift)) 1)) shift) 1).

Definition range_lsh_constant (lhs : NumberRange) (c : Z) : M NumberRange :=
  moz_assert (isInt32 lhs);;
  let shift := Z.land c 0x1f in
  l ← lower lhs; u ← upper lhs;
  if (shift_there_and_back l shift =? l) && (shift_there_and_back u shift =? u) then
    NewInt32Range (int32 (uint32 (Z.shiftl (uint32 l) shift))) (int32 (uint32 (Z.shiftl (uint32 u) shift)))
  else NewInt32Range JSVAL_INT_MIN JSVAL_INT_MAX.

Definition range_rsh_constant (lhs : NumberRange) (c : Z) : M NumberRange :=
  moz_assert (isInt32 lhs);;
  let shift := Z.land c 0x1f in
  l ← lower lhs; u ← upper lhs;
  NewInt32Range (Z.shiftr l shift) (Z.shiftr u shift).

Definition range_ursh_constant (lhs : NumberRange) (c : Z) : M NumberRange :=
  moz_assert (isInt32 lhs);;
  let shift := Z.land c 0x1f in
  if isFiniteNonNegative lhs || isFiniteNegative lhs then
    l ← lower lhs; u ← upper lhs;
    NewUInt32Range (Z.shiftr (uint32 l) shift) (Z.shiftr (uint32 u) shift)
  else NewUInt32Range 0 (Z.shiftr UINT32_MAX shift).

Definition range_lsh (lhs rhs : NumberRange) : M NumberRange :=
  moz_assert (isInt32 lhs);;
  moz_assert (isInt32 rhs);;
  NewInt32Range JSVAL_INT_MIN JSVAL_INT_MAX.

Definition range_rsh (lhs rhs : NumberRange) : M NumberRange :=
  moz_assert (isInt32 lhs);;
  moz_assert (isInt32 rhs);;
  shiftLower ← lower rhs; shiftUpper ← upper rhs;
  let '(shiftLower, shiftUpper) :=
    if shiftUpper - shiftLower >=? 31 then (0, 31)
    else
      let shiftLower := Z.land shiftLower 0x1f in
      let shiftUpper := Z.land shiftUpper 0x1f in
      if shiftLower >? shiftUpper then (0, 31) else (shiftLower, shiftUpper) in
  moz_assert ((shiftLower >=? 0) && (shiftUpper <=? 31));;
  lhsLower ← lower lhs;
  let min := if lhsLower <? 0 then Z.shiftr lhsLower shiftLower else Z.shiftr lhsLower shiftUpper in
  lhsUpper ← upper lhs;
  let max := if lhsUpper >=? 0 then Z.shiftr lhsUpper shiftLower else Z.shiftr lhsUpper shiftUpper in
  NewInt32Range min max.

Definition range_ursh (lhs rhs : NumberRange) : M NumberRange :=
  moz_assert (isInt32 lhs);;
  moz_assert (isInt32 rhs);;
  h ← (if isFiniteNonNegative lhs then upper lhs else mret UINT32_MAX);
  NewUInt32Range 0 h.

(** ** Functions of Math *)

Definition range_abs (op : NumberRange) : M NumberRange :=
  let l := lower_ op in
  let u := upper_ op in
  rawInitialize
    (Z.max (Z.max 0 l) (if u =? JSVAL_INT_MIN then JSVAL_INT_MAX else - u)) true
    (Z.max (Z.max 0 u) (if l =? JSVAL_INT_MIN then JSVAL_INT_MAX else - l)) (hasInt32Bounds op && negb (l =? JSVAL_INT_MIN))
    (canHaveFractionalPart_ op) false (max_exponent_ op).

Definition range_min (lhs rhs : NumberRange) : M (option NumberRange) :=
  if canBeNaN lhs || canBeNaN rhs then mret None
  else
    r ← rawInitialize (Z.min (lower_ lhs) (lower_ rhs)) (hasInt32LowerBound_ lhs && hasInt32LowerBound_ rhs)
          (Z.min (upper_ lhs) (upper_ rhs)) (hasInt32UpperBound_ lhs || hasInt32UpperBound_ rhs)
          (canHaveFractionalPart_ lhs || canHaveFractionalPart_ rhs) (canBeNegativeZero_ lhs || canBeNegativeZero_ rhs)
          (Z.max (max_exponent_ lhs) (max_exponent_ rhs));
    mret (Some r).

Definition range_max (lhs rhs : NumberRange) : M (option NumberRange) :=
  if canBeNaN lhs || canBeNaN rhs then mret None
  else
    r ← rawInitialize (Z.max (lower_ lhs) (lower_ rhs)) (hasInt32LowerBound_ lhs || hasInt32LowerBound_ rhs)
          (Z.max (upper_ lhs) (upper_ rhs)) (hasInt32UpperBound_ lhs && hasInt32UpperBound_ rhs)
          (canHaveFractionalPart_ lhs || canHaveFractionalPart_ rhs) (canBeNegativeZero_ lhs || canBeNegativeZero_ rhs)
          (Z.max (max_exponent_ lhs) (max_exponent_ rhs));
    mret (Some r).

(** The end of [floor] and [ceil]. *)
Definition round_exponent (copy : NumberRange) : M NumberRange :=
  if hasInt32Bounds copy then e ← exponentImpliedByInt32Bounds copy; mret (with_exponent copy e)
  else if max_exponent_ copy <? MaxFiniteExponent then mret (with_exponent copy (max_exponent_ copy + 1))
  else mret copy.

Definition range_floor (op : NumberRange) : M NumberRange :=
  copy ← copy_Range op;
  let copy := if canHaveFractionalPart_ op && hasInt32LowerBound_ op then
                let '(l, lb) := setLowerInit (lower_ copy - 1) in with_bounds copy l lb (upper_ copy) (hasInt32UpperBound_ copy)
              else copy in
  copy ← round_exponent copy;
  let copy := with_fraction copy false in
  assertInvariants copy;; mret copy.

Definition range_ceil (op : NumberRange) : M NumberRange :=
  copy ← copy_Range op;
  copy ← round_exponent copy;
  let copy := with_negative_zero copy (if (lower_ copy >? 0) || (upper_ copy <=? -1) then canBeNegativeZero_ copy else true) in
  let copy := with_fraction copy false in
  assertInvariants copy;; mret copy.

Definition range_sign (op : NumberRange) : M (option NumberRange) :=
  if canBeNaN op then mret None
  else
    r ← new_Range (Z.max (Z.min (lower_ op) 1) (-1)) (Z.max (Z.min (upper_ op) 1) (-1)) false (canBeNegativeZero_ op) 0;
    mret (Some r).

Definition NaNToZero (op : NumberRange) : M NumberRange :=
  copy ← copy_Range op;
  copy ← (if canBeNaN copy then
            let copy := with_exponent copy IncludesInfinity in
            if negb (canBeZero copy) then zero ← setDoubleSingleton (dbl 0); unionWith copy zero
            else mret copy
          else mret copy);
  refineToExcludeNegativeZero copy.

Definition toIntegerInt32 (op : NumberRange) : M NumberRange := r ← range_ceil op; NaNToZero r.
