(* ===== verification/RangeInv.v ===== *)
(** What a range promises: the doubles it contains, the invariant of its
    fields, and that normalising a range keeps exactly its doubles. *)
From S2P Require Import Prelude Words CheckedArithmetic FloatingPoint BigIntRep BigIntMul Conversions BigIntDouble DoubleArith DoubleWhole RangeAnalysis.

(** * The doubles of a range *)

(** A number that is [x / u]; an infinity is 2^1024 in magnitude. *)
Record fits (u : Z) (r : NumberRange) (x : Z) : Prop := {
  fits_lower : hasInt32LowerBound_ r = true -> lower_ r * u <= x;
  fits_upper : hasInt32UpperBound_ r = true -> x <= upper_ r * u;
  fits_exponent : max_exponent_ r <= MaxFiniteExponent -> Z.abs x < 2 ^ (max_exponent_ r + 1) * u;
  fits_whole : canHaveFractionalPart_ r = false -> exists n, x = n * u;
}.

Definition contains (r : NumberRange) (d : Z) : Prop :=
  is_double d /\
  if IsNaN d then canBeNaN r = true /\ hasInt32Bounds r = false
  else fits (2 ^ 1074) r (scaled d) /\ (canBeNegativeZero_ r = false -> d <> kSignBit).

(** * The invariant *)

(** A bound does not lie outside the exponent; a fraction may come near the
    next power of two. *)
Definition bound_ok (r : NumberRange) (v : Z) : Prop :=
  31 <= max_exponent_ r \/ Z.abs v < 2 ^ (max_exponent_ r + 1) \/
  canHaveFractionalPart_ r = true /\ Z.abs v <= 2 ^ (max_exponent_ r + 1).

Definition valid_exponent (e : Z) : Prop := 0 <= e <= 1024 \/ e = IncludesInfinityAndNaN.

Record consistent (r : NumberRange) : Prop := {
  wf_order : lower_ r <= upper_ r;
  wf_lower_range : - 2 ^ 31 <= lower_ r <= 2 ^ 31 - 1;
  wf_upper_range : - 2 ^ 31 <= upper_ r <= 2 ^ 31 - 1;
  wf_no_lower : hasInt32LowerBound_ r = false -> lower_ r = - 2 ^ 31;
  wf_no_upper : hasInt32UpperBound_ r = false -> upper_ r = 2 ^ 31 - 1;
  wf_exponent : valid_exponent (max_exponent_ r);
  wf_lower_bound : bound_ok r (lower_ r);
  wf_upper_bound : bound_ok r (upper_ r);
  wf_unbounded : hasInt32Bounds r = false -> 31 <= max_exponent_ r + Z.b2z (canHaveFractionalPart_ r);
}.

Definition well_formed (r : NumberRange) : Prop :=
  consistent r /\
  (canHaveFractionalPart_ r = true -> hasInt32Bounds r = true -> lower_ r < upper_ r) /\
  (hasInt32Bounds r = true -> max_exponent_ r <= 31).

(** What [optimize] asks of a range that is a single point. *)
Definition point_ok (r : NumberRange) : Prop :=
  canHaveFractionalPart_ r = true -> hasInt32Bounds r = true -> lower_ r = upper_ r ->
  31 <= max_exponent_ r \/ Z.abs (lower_ r) < 2 ^ (max_exponent_ r + 1).

Lemma exponent_nonneg e : valid_exponent e -> 0 <= e.
Proof. unfold valid_exponent. change IncludesInfinityAndNaN with 65535. lia. Qed.

Lemma FloorLog2_abs v : FloorLog2 (Z.abs v) = if v =? 0 then 0 else Z.log2 (Z.abs v).
Proof. destruct (Z.eqb_spec v 0) as [->|]; [done|apply FloorLog2_spec; lia]. Qed.

Lemma FloorLog2_le v k : 0 <= k -> Z.abs v < 2 ^ (k + 1) -> FloorLog2 (Z.abs v) <= k.
Proof.
  intros Hk Hv. rewrite FloorLog2_abs. destruct (Z.eqb_spec v 0); [done|]. enough (Z.log2 (Z.abs v) < k + 1) by lia. apply Z.log2_lt_pow2; lia.
Qed.

Lemma pow_le a b : 0 <= a <= b -> 2 ^ a <= 2 ^ b.
Proof. intros. apply Z.pow_le_mono_r; lia. Qed.

Lemma pow_succ a : 0 <= a -> 2 ^ (a + 1) = 2 * 2 ^ a.
Proof. intros. rewrite Z.pow_add_r by lia. change (2 ^ 1) with 2. lia. Qed.

Lemma bound_log r v : valid_exponent (max_exponent_ r) -> Z.abs v <= 2 ^ 31 -> bound_ok r v ->
  FloorLog2 (Z.abs v) <= max_exponent_ r + Z.b2z (canHaveFractionalPart_ r).
Proof.
  intros He%exponent_nonneg Hv Hb. assert (Hf : 0 <= Z.b2z (canHaveFractionalPart_ r)) by (destruct (canHaveFractionalPart_ r); cbn; lia).
  apply FloorLog2_le; [lia|]. destruct Hb as [H|[H|[-> H]]].
  - pose proof (pow_le 32 (max_exponent_ r + Z.b2z (canHaveFractionalPart_ r) + 1)). lia.
  - pose proof (pow_le (max_exponent_ r + 1) (max_exponent_ r + Z.b2z (canHaveFractionalPart_ r) + 1)). lia.
  - cbn [Z.b2z]. rewrite (pow_succ (max_exponent_ r + 1)) by lia. assert (0 < 2 ^ (max_exponent_ r + 1)) by (apply Z.pow_pos_nonneg; lia). lia.
Qed.

Lemma consistent_asserts r : consistent r -> assertInvariants r = mret tt.
Proof.
  intros []. pose proof (bound_log r (lower_ r) ltac:(done) ltac:(lia) ltac:(done)) as Hl. pose proof (bound_log r (upper_ r) ltac:(done) ltac:(lia) ltac:(done)) as Hu.
  unfold assertInvariants. replace (if canHaveFractionalPart_ r then 1 else 0) with (Z.b2z (canHaveFractionalPart_ r)) by (by destruct (canHaveFractionalPart_ r)).
  assert (E1 : (lower_ r <=? upper_ r) = true) by lia.
  assert (E2 : moz_assert_if (negb (hasInt32LowerBound_ r)) (lower_ r =? JSVAL_INT_MIN) = mret tt).
  { destruct (hasInt32LowerBound_ r); [done|]. rewrite (wf_no_lower0 eq_refl). done. }
  assert (E3 : moz_assert_if (negb (hasInt32UpperBound_ r)) (upper_ r =? JSVAL_INT_MAX) = mret tt).
  { destruct (hasInt32UpperBound_ r); [done|]. rewrite (wf_no_upper0 eq_refl). done. }
  assert (E4 : ((max_exponent_ r <=? MaxFiniteExponent) || (max_exponent_ r =? IncludesInfinity) || (max_exponent_ r =? IncludesInfinityAndNaN)) = true).
  { unfold valid_exponent in wf_exponent0. change MaxFiniteExponent with 1023. change IncludesInfinity with 1024. change IncludesInfinityAndNaN with 65535 in *. lia. }
  assert (E5 : moz_assert_if (negb (hasInt32LowerBound_ r) || negb (hasInt32UpperBound_ r)) (max_exponent_ r + Z.b2z (canHaveFractionalPart_ r) >=? MaxInt32Exponent) = mret tt).
  { unfold hasInt32Bounds in *. change MaxInt32Exponent with 31. destruct (hasInt32LowerBound_ r); cbn in *; [destruct (hasInt32UpperBound_ r); [done|]|]; cbn; (replace (_ >=? 31) with true by (symmetry; apply Z.geb_le; auto)); done. }
  assert (E6 : forall v, FloorLog2 (Z.abs v) <= max_exponent_ r + Z.b2z (canHaveFractionalPart_ r) -> (max_exponent_ r + Z.b2z (canHaveFractionalPart_ r) >=? FloorLog2 (Z.abs v)) = true) by (intros; lia).
  cbv zeta. by rewrite E1, E2, E3, E4, E5, (E6 _ Hl), (E6 _ Hu).
Qed.

(** * Normalisation *)

Definition bounds_log (r : NumberRange) : Z := FloorLog2 (Z.max (Z.abs (lower_ r)) (Z.abs (upper_ r))).

Lemma dbl_exponent m : 0 < m < 2 ^ 53 -> ExponentComponent (dbl m) = Z.log2 m.
Proof.
  intros Hm. assert (Hs : small m) by (unfold small; lia). destruct (dbl_fields m Hs) as (_ & Hmag & _ & Hf). apply IsFinite_iff in Hf. rewrite Z.abs_eq in Hmag by lia.
  rewrite ExponentComponent_eq. pose proof (biased_bound (dbl m)) as Hb. pose proof (Z.log2_nonneg m) as Hl. assert (Hlog : Z.log2 (scaled_magnitude (dbl m)) = Z.log2 m + 1074) by (rewrite Hmag, Z.log2_mul_pow2 by lia; lia).
  destruct (Z.eq_dec (biased_of (dbl m)) 0) as [E|E].
  - exfalso. unfold scaled_magnitude in *. rewrite E in *. cbn [Z.eqb] in *. pose proof (fraction_bound (dbl m)) as Hfb.
    destruct (Z.eq_dec (fraction_of (dbl m)) 0) as [E0|E0]; [rewrite E0 in Hlog; cbn in Hlog; lia|].
    assert (Z.log2 (fraction_of (dbl m)) < 52) by (apply Z.log2_lt_pow2; lia). lia.
  - pose proof (scaled_magnitude_bounds (dbl m) E) as Hsb. set (b := biased_of (dbl m)) in *.
    rewrite <- !Z.pow_add_r in Hsb by lia. enough (Z.log2 (scaled_magnitude (dbl m)) = 52 + (b - 1)) by lia. apply Z.log2_unique; [lia|]. replace (Z.succ (52 + (b - 1))) with (52 + b) by lia. lia.
Qed.

Definition int32_bounds (r : NumberRange) : Prop := - 2 ^ 31 <= lower_ r <= 2 ^ 31 - 1 /\ - 2 ^ 31 <= upper_ r <= 2 ^ 31 - 1.

Lemma consistent_int32 r : consistent r -> int32_bounds r.
Proof. by intros []. Qed.

Lemma exponent_implied r : int32_bounds r -> hasInt32Bounds r = true -> exponentImpliedByInt32Bounds r = mret (bounds_log r).
Proof.
  intros [] Hb. unfold hasInt32Bounds in Hb. apply andb_true_iff in Hb as [Hl Hu]. unfold exponentImpliedByInt32Bounds, lower, upper. rewrite Hl, Hu. cbv zeta.
  change ((moz_assert (bounds_log r =? (if Z.max (Z.abs (lower_ r)) (Z.abs (upper_ r)) =? 0 then 0 else ExponentComponent (dbl (Z.max (Z.abs (lower_ r)) (Z.abs (upper_ r))))));; mret (bounds_log r)) = mret (bounds_log r)).
  unfold bounds_log. set (m := Z.max _ _). assert (Hm : 0 <= m <= 2 ^ 31) by lia. clearbody m. destruct (Z.eqb_spec m 0) as [->|Hm0]; [done|].
  rewrite dbl_exponent, FloorLog2_spec, Z.eqb_refl by lia. done.
Qed.

Lemma bounds_log_spec r v : Z.abs v <= Z.max (Z.abs (lower_ r)) (Z.abs (upper_ r)) -> Z.abs v < 2 ^ (bounds_log r + 1).
Proof.
  unfold bounds_log. set (m := Z.max _ _). intros Hv. destruct (Z.eq_dec m 0) as [E|E].
  { rewrite E in *. change (2 ^ (FloorLog2 0 + 1)) with 2. lia. }
  rewrite FloorLog2_spec by lia. pose proof (Z.log2_spec m ltac:(lia)). replace (Z.log2 m + 1) with (Z.succ (Z.log2 m)) by lia. lia.
Qed.

Lemma bounds_log_range r : int32_bounds r -> 0 <= bounds_log r <= 31.
Proof.
  intros []. unfold bounds_log. set (m := Z.max _ _). assert (Hm : 0 <= m <= 2 ^ 31) by lia. clearbody m. destruct (Z.eq_dec m 0) as [->|E]; [done|].
  rewrite FloorLog2_spec by lia. split; [apply Z.log2_nonneg|]. enough (Z.log2 m < 32) by lia. apply Z.log2_lt_pow2; lia.
Qed.

Definition opt_exponent (r : NumberRange) : NumberRange :=
  if hasInt32Bounds r && (bounds_log r <? max_exponent_ r) then with_exponent r (bounds_log r) else r.
Definition opt_fraction (r : NumberRange) : NumberRange :=
  if hasInt32Bounds r && canHaveFractionalPart_ r && (lower_ r =? upper_ r) then with_fraction r false else r.
Definition opt_zero (r : NumberRange) : NumberRange :=
  if canBeNegativeZero_ r && negb (canBeZero r) then with_negative_zero r false else r.

Lemma opt_exponent_consistent r : consistent r -> consistent (opt_exponent r).
Proof.
  intros Hr. pose proof (bounds_log_range r (consistent_int32 r Hr)) as Hg. unfold opt_exponent. destruct (hasInt32Bounds r) eqn:Hb; [|done]. destruct (Z.ltb_spec (bounds_log r) (max_exponent_ r)); [|done].
  cbn [andb]. destruct Hr. assert (Hbo : forall v, Z.abs v <= Z.max (Z.abs (lower_ r)) (Z.abs (upper_ r)) -> bound_ok (with_exponent r (bounds_log r)) v).
  { intros v Hv. right. left. by apply bounds_log_spec. }
  split; try done; [left; cbn; lia|apply Hbo; cbn; lia|apply Hbo; cbn; lia|]. change (hasInt32Bounds (with_exponent r (bounds_log r))) with (hasInt32Bounds r). congruence.
Qed.

Lemma opt_exponent_point r : consistent r -> point_ok r -> point_ok (opt_exponent r).
Proof.
  intros Hr Hp. unfold opt_exponent. destruct (hasInt32Bounds r) eqn:Hb; [|done]. destruct (Z.ltb_spec (bounds_log r) (max_exponent_ r)); [|done].
  intros Hf _ E. right. apply bounds_log_spec. cbn in *. lia.
Qed.

Lemma opt_fraction_consistent r : consistent r -> point_ok r -> consistent (opt_fraction r).
Proof.
  intros Hr Hp. unfold opt_fraction. destruct (hasInt32Bounds r) eqn:Hb; [|done]. destruct (canHaveFractionalPart_ r) eqn:Hf; [|done]. destruct (Z.eqb_spec (lower_ r) (upper_ r)) as [E|]; [|done].
  cbn [andb]. destruct Hr. assert (Hbo : forall v, Z.abs v = Z.abs (lower_ r) -> bound_ok (with_fraction r false) v).
  { intros v Hv. unfold bound_ok. cbn. rewrite Hv. destruct (Hp Hf Hb E); auto. }
  split; try done; [by apply Hbo|apply Hbo; cbn; congruence|]. change (hasInt32Bounds (with_fraction r false)) with (hasInt32Bounds r). congruence.
Qed.

Lemma opt_zero_consistent r : consistent r -> consistent (opt_zero r).
Proof. intros Hr. unfold opt_zero. destruct (_ && _); [|done]. by destruct Hr. Qed.

Lemma optimize_eq r : consistent r -> point_ok r -> optimize r = mret (opt_zero (opt_fraction (opt_exponent r))).
Proof.
  intros Hr Hp. pose proof (opt_exponent_consistent r Hr) as Hr1. pose proof (opt_exponent_point r Hr Hp) as Hp1.
  pose proof (opt_fraction_consistent _ Hr1 Hp1) as Hr2. pose proof (opt_zero_consistent _ Hr2) as Hr3.
  unfold optimize. rewrite (consistent_asserts r Hr), bind_ret.
  set (step := if hasInt32Bounds r then _ else _). assert (E : step = mret (opt_fraction (opt_exponent r))).
  { unfold step. clear step Hr3. unfold opt_exponent, opt_fraction in *. destruct (hasInt32Bounds r) eqn:Hb; [|cbn [andb]; by rewrite Hb].
    rewrite (exponent_implied r (consistent_int32 r Hr) Hb), bind_ret. destruct (Z.ltb_spec (bounds_log r) (max_exponent_ r)); cbn [andb] in *.
    - cbv zeta. rewrite (consistent_asserts _ Hr1), bind_ret, bind_ret. change (hasInt32Bounds (with_exponent r (bounds_log r))) with (hasInt32Bounds r) in *. rewrite Hb in *.
      destruct (canHaveFractionalPart_ (with_exponent r (bounds_log r)) && _) eqn:Hc; cbn [andb] in *; rewrite Hc in *; [|done]. by rewrite (consistent_asserts _ Hr2).
    - rewrite bind_ret, Hb in *. cbn [andb] in *. destruct (canHaveFractionalPart_ r && _); [|done]. cbv zeta. by rewrite (consistent_asserts _ Hr2). }
  rewrite E, bind_ret. set (r2 := opt_fraction _) in *. clearbody r2. clear E step Hr1 Hp1 Hr Hp. unfold opt_zero in *. destruct (_ && _); [|done]. cbv zeta. by rewrite (consistent_asserts _ Hr3).
Qed.

(** A single point that the exponent does not reach, admitted only because a
    fraction may lie before it, fails the assertions once the fraction is
    dropped. *)
Lemma assertInvariants_exponent r : canHaveFractionalPart_ r = false -> max_exponent_ r < FloorLog2 (Z.abs (upper_ r)) -> assertInvariants r = throw AssertionFailed.
Proof.
  intros Hf Hlt. unfold assertInvariants, moz_assert_if. rewrite Hf, Z.add_0_r. replace (max_exponent_ r >=? FloorLog2 (Z.abs (upper_ r))) with false by lia. unfold moz_assert.
  by repeat case_match.
Qed.

Lemma optimize_rejects r : consistent r -> ~ point_ok r -> optimize r = throw AssertionFailed.
Proof.
  intros Hr Hp. unfold point_ok in Hp. destruct (canHaveFractionalPart_ r) eqn:Hf; [|by destruct Hp]. destruct (hasInt32Bounds r) eqn:Hb; [|by destruct Hp].
  destruct (Z.eqb_spec (lower_ r) (upper_ r)) as [El|]; [|by destruct Hp].
  assert (He : max_exponent_ r < 31 /\ 2 ^ (max_exponent_ r + 1) <= Z.abs (upper_ r)) by (rewrite <- El; destruct (Z_lt_le_dec (max_exponent_ r) 31), (Z_lt_le_dec (Z.abs (lower_ r)) (2 ^ (max_exponent_ r + 1))); try lia; by destruct Hp; auto).
  pose proof (exponent_nonneg _ (wf_exponent r Hr)) as H0. pose proof (wf_upper_range r Hr). pose proof (bounds_log_spec r (upper_ r) ltac:(lia)) as Hlog. pose proof (bounds_log_range r (consistent_int32 r Hr)).
  assert (Hge : max_exponent_ r <= bounds_log r) by (destruct (Z_lt_le_dec (bounds_log r) (max_exponent_ r)); [|done]; pose proof (pow_le (bounds_log r + 1) (max_exponent_ r + 1)); lia).
  assert (HF : max_exponent_ r < FloorLog2 (Z.abs (upper_ r))).
  { pose proof (pow_le 1 (max_exponent_ r + 1)). rewrite FloorLog2_abs. replace (upper_ r =? 0) with false by lia. enough (max_exponent_ r + 1 <= Z.log2 (Z.abs (upper_ r))) by lia. apply Z.log2_le_pow2; lia. }
  unfold optimize. rewrite (consistent_asserts r Hr), bind_ret, Hb, (exponent_implied r (consistent_int32 r Hr) Hb), bind_ret. replace (bounds_log r <? max_exponent_ r) with false by lia.
  rewrite bind_ret, Hf, El, Z.eqb_refl. cbn [andb]. cbv zeta. by rewrite (assertInvariants_exponent (with_fraction r false)).
Qed.

(** The doubles stay the same. *)
Lemma opt_exponent_contains r d : consistent r -> contains (opt_exponent r) d <-> contains r d.
Proof.
  intros Hr. unfold opt_exponent. destruct (hasInt32Bounds r) eqn:Hb; [|done]. destruct (Z.ltb_spec (bounds_log r) (max_exponent_ r)) as [Hlt|]; [|done]. cbn [andb].
  unfold contains. change (hasInt32Bounds (with_exponent r (bounds_log r))) with (hasInt32Bounds r). rewrite Hb. destruct (IsNaN d); [by split; intros (? & ? & ?)|].
  cbn [with_exponent canBeNegativeZero_]. pose proof unit_pos as Hu. pose proof (bounds_log_range r (consistent_int32 r Hr)) as Hg. set (u := 2 ^ 1074) in *. clearbody u. unfold hasInt32Bounds in Hb. apply andb_true_iff in Hb as [Hbl Hbu].
  assert (Hfits : fits u (with_exponent r (bounds_log r)) (scaled d) <-> fits u r (scaled d)); [|by rewrite Hfits].
  split; intros [Hfl Hfu Hfe Hfw]; (split; [done|done| |done]); cbn in *; intros He.
  - assert (Hm : bounds_log r <= MaxFiniteExponent) by (change MaxFiniteExponent with 1023; lia). specialize (Hfe Hm). apply Z.lt_le_trans with (1 := Hfe).
    apply Z.mul_le_mono_nonneg_r; [lia|]. apply pow_le. lia.
  - specialize (Hfl Hbl). specialize (Hfu Hbu). pose proof (bounds_log_spec r (lower_ r) ltac:(lia)) as H1. pose proof (bounds_log_spec r (upper_ r) ltac:(lia)) as H2. clear Hfe. set (p := 2 ^ (bounds_log r + 1)) in *. clearbody p.
    assert (- p * u < lower_ r * u) by (apply Z.mul_lt_mono_pos_r; lia). assert (upper_ r * u < p * u) by (apply Z.mul_lt_mono_pos_r; lia). lia.
Qed.

Lemma opt_fraction_contains r d : contains (opt_fraction r) d <-> contains r d.
Proof.
  unfold opt_fraction. destruct (hasInt32Bounds r) eqn:Hb; [|done]. destruct (canHaveFractionalPart_ r) eqn:Hf; [|done]. destruct (Z.eqb_spec (lower_ r) (upper_ r)) as [E|]; [|done]. cbn [andb].
  unfold contains. change (hasInt32Bounds (with_fraction r false)) with (hasInt32Bounds r). change (canBeNaN (with_fraction r false)) with (canBeNaN r). destruct (IsNaN d); [done|].
  cbn [with_fraction canBeNegativeZero_]. set (u := 2 ^ 1074). clearbody u. apply andb_true_iff in Hb as [Hbl Hbu].
  assert (Hfits : fits u (with_fraction r false) (scaled d) <-> fits u r (scaled d)); [|by rewrite Hfits].
  split; intros []; split; try done; cbn in *; [congruence|]. intros _. exists (lower_ r). specialize (fits_lower0 Hbl). specialize (fits_upper0 Hbu). rewrite <- E in fits_upper0. lia.
Qed.

Lemma opt_zero_contains r d : consistent r -> contains (opt_zero r) d <-> contains r d.
Proof.
  intros Hr. unfold opt_zero. destruct (canBeNegativeZero_ r) eqn:Hz; [|done]. destruct (canBeZero r) eqn:Hc; [done|]. cbn [andb negb].
  unfold contains. change (hasInt32Bounds (with_negative_zero r false)) with (hasInt32Bounds r). change (canBeNaN (with_negative_zero r false)) with (canBeNaN r). destruct (IsNaN d); [done|].
  cbn [with_negative_zero canBeNegativeZero_]. rewrite Hz. pose proof unit_pos as Hu. assert (Hk : scaled kSignBit = 0) by (vm_compute; done). set (u := 2 ^ 1074) in *. clearbody u.
  split; intros (Hd & [Hl Hh He Hw] & H); (split; [done|split; [by split|]]); [congruence|]. intros _ ->. rewrite Hk in *. destruct Hr.
  unfold canBeZero, range_contains in Hc. destruct (hasInt32LowerBound_ r); [|rewrite wf_no_lower0 in * by done]; (destruct (hasInt32UpperBound_ r); [|rewrite wf_no_upper0 in * by done]).
  - specialize (Hl eq_refl). specialize (Hh eq_refl). assert (0 < lower_ r \/ upper_ r < 0) as [H1|H1] by lia; [assert (0 < lower_ r * u) by (by apply Z.mul_pos_pos)|assert (upper_ r * u < 0) by (by apply Z.mul_neg_pos)]; lia.
  - specialize (Hl eq_refl). assert (0 < lower_ r) by lia. assert (0 < lower_ r * u) by (by apply Z.mul_pos_pos). lia.
  - specialize (Hh eq_refl). assert (upper_ r < 0) by lia. assert (upper_ r * u < 0) by (by apply Z.mul_neg_pos). lia.
  - lia.
Qed.

Lemma optimize_ok r : consistent r -> point_ok r -> exists r', optimize r = mret r' /\ well_formed r' /\ forall d, contains r' d <-> contains r d.
Proof.
  intros Hr Hp. exists (opt_zero (opt_fraction (opt_exponent r))). split; [by apply optimize_eq|].
  pose proof (opt_exponent_consistent r Hr) as Hr1. pose proof (opt_exponent_point r Hr Hp) as Hp1. pose proof (opt_fraction_consistent _ Hr1 Hp1) as Hr2.
  split; [split; [by apply opt_zero_consistent|split]|].
  - unfold opt_zero, opt_fraction. intros Hf Hb. assert (Hbb : hasInt32Bounds (opt_exponent r) = true) by (revert Hb; repeat case_match; done).
    set (q := opt_exponent r) in *. rewrite Hbb in *. destruct (canHaveFractionalPart_ q && (lower_ q =? upper_ q)) eqn:Hc; cbn [andb] in *; rewrite Hc in *; [revert Hf; case_match; done|].
    assert (Hff : canHaveFractionalPart_ q = true) by (revert Hf; case_match; done). rewrite Hff in Hc. cbn [andb] in Hc. destruct Hr1. case_match; cbn; lia.
  - intros Hb. assert (E : max_exponent_ (opt_zero (opt_fraction (opt_exponent r))) = max_exponent_ (opt_exponent r)) by (unfold opt_zero, opt_fraction; repeat case_match; done).
    assert (Hbb : hasInt32Bounds r = true) by (revert Hb; unfold opt_zero, opt_fraction, opt_exponent; repeat case_match; done). rewrite E. unfold opt_exponent. rewrite Hbb. pose proof (bounds_log_range r (consistent_int32 r Hr)).
    destruct (Z.ltb_spec (bounds_log r) (max_exponent_ r)); cbn [andb with_exponent max_exponent_]; lia.
  - intros d. rewrite opt_zero_contains, opt_fraction_contains by done. by apply opt_exponent_contains.
Qed.
