(* ===== verification/RangeArith.v ===== *)
(** The arithmetic of ranges follows the arithmetic of doubles: every double
    that an operation can give lies in the range computed for it. *)
From S2P Require Import Prelude Words CheckedArithmetic FloatingPoint BigIntRep BigIntMul Conversions BigIntDouble DoubleArith DoubleWhole DoubleOrder RangeAnalysis RangeInv.

#[local] Abbreviation U := (2 ^ 1074).

(** * Building a range from 64-bit bounds *)

Definition raw_bound (e : Z) (f : bool) (v : Z) : Prop :=
  31 <= e \/ Z.abs v < 2 ^ (e + 1) \/ f = true /\ Z.abs v <= 2 ^ (e + 1).

(** What makes [d] a double of the range that [new_Range l h f nz e] builds. *)
Definition raw_contains (l h : Z) (f nz : bool) (e d : Z) : Prop :=
  is_double d /\
  if IsNaN d then e = IncludesInfinityAndNaN /\ (l < - 2 ^ 31 \/ 2 ^ 31 <= h)
  else (- 2 ^ 31 <= l -> Z.min l (2 ^ 31 - 1) * U <= scaled d) /\ (h <= 2 ^ 31 - 1 -> scaled d <= Z.max h (- 2 ^ 31) * U) /\
       (e <= MaxFiniteExponent -> Z.abs (scaled d) < 2 ^ (e + 1) * U) /\ (f = false -> exists n, scaled d = n * U) /\
       (nz = false -> d <> kSignBit).

Lemma pow_exponent a b : 0 <= b -> 2 ^ a < 2 ^ b -> a < b.
Proof. intros Hb H. apply Z.lt_nge. intros Hc. pose proof (pow_le b a ltac:(lia)). lia. Qed.

Lemma outside_exponent e f l h : valid_exponent e -> raw_bound e f l -> raw_bound e f h -> l < - 2 ^ 31 \/ 2 ^ 31 <= h -> 31 <= e + Z.b2z f.
Proof.
  intros He%exponent_nonneg Hl Hh Ho. assert (Hf : 0 <= Z.b2z f <= 1) by (destruct f; cbn; lia). apply Z.le_ngt. intros Hc.
  pose proof (pow_le (e + 1) 31 ltac:(lia)) as Hp. destruct Ho as [Ho|Ho]; [destruct Hl as [?|[?|[-> ?]]]|destruct Hh as [?|[?|[-> ?]]]]; [lia..| |lia|lia|]; cbn [Z.b2z] in Hc; pose proof (pow_le (e + 1) 30 ltac:(lia)); lia.
Qed.

Lemma setLowerInit_eq l : setLowerInit l = (Z.max (- 2 ^ 31) (Z.min l (2 ^ 31 - 1)), - 2 ^ 31 <=? l).
Proof.
  unfold setLowerInit. change JSVAL_INT_MAX with (2 ^ 31 - 1). change JSVAL_INT_MIN with (- 2 ^ 31). rewrite Z.gtb_ltb.
  destruct (Z.ltb_spec (2 ^ 31 - 1) l); [f_equal; lia|]. destruct (Z.ltb_spec l (- 2 ^ 31)); f_equal; lia.
Qed.

Lemma setUpperInit_eq h : setUpperInit h = (Z.max (- 2 ^ 31) (Z.min h (2 ^ 31 - 1)), h <=? 2 ^ 31 - 1).
Proof.
  unfold setUpperInit. change JSVAL_INT_MAX with (2 ^ 31 - 1). change JSVAL_INT_MIN with (- 2 ^ 31). rewrite Z.gtb_ltb.
  destruct (Z.ltb_spec (2 ^ 31 - 1) h); [f_equal; lia|]. destruct (Z.ltb_spec h (- 2 ^ 31)); f_equal; lia.
Qed.

Definition raw_range (l h : Z) (f nz : bool) (e : Z) : NumberRange :=
  MkNumberRange (Z.max (- 2 ^ 31) (Z.min l (2 ^ 31 - 1))) (Z.max (- 2 ^ 31) (Z.min h (2 ^ 31 - 1))) (- 2 ^ 31 <=? l) (h <=? 2 ^ 31 - 1) f nz e.

Lemma new_Range_eq l h f nz e : new_Range l h f nz e = optimize (raw_range l h f nz e).
Proof. unfold new_Range. by rewrite setLowerInit_eq, setUpperInit_eq. Qed.

(** What the callers of [new_Range] have to see to. *)
Record raw_ok (l h : Z) (f : bool) (e : Z) : Prop := {
  raw_exponent : valid_exponent e;
  raw_order : l <= h \/ l < - 2 ^ 31 \/ 2 ^ 31 <= h;
  raw_lower_low : l < 2 ^ 31 \/ 2 ^ 31 <= h;
  raw_upper_high : - 2 ^ 31 <= h \/ l < - 2 ^ 31;
  raw_lower_bound : raw_bound e f l;
  raw_upper_bound : raw_bound e f h;
  raw_point : f = true -> l = h -> 31 <= e \/ Z.abs l < 2 ^ (e + 1);
}.

Lemma raw_range_ok l h f nz e : raw_ok l h f e -> consistent (raw_range l h f nz e) /\ point_ok (raw_range l h f nz e).
Proof.
  intros [He Hlh Hl2 Hh2 Hl Hh Hp]. set (r0 := raw_range l h f nz e). pose proof (outside_exponent e f l h He Hl Hh) as Hout.
  assert (Hb0 : hasInt32Bounds r0 = false -> l < - 2 ^ 31 \/ 2 ^ 31 <= h) by (unfold r0, hasInt32Bounds; cbn; lia).
  assert (Hbo : forall v w, raw_bound e f v -> Z.abs w <= Z.abs v -> bound_ok r0 w) by (intros v w [?|[?|[? ?]]] ?; [by left|right; left; unfold r0, raw_range; cbn [max_exponent_]; lia|right; right; unfold r0, raw_range; cbn [max_exponent_ canHaveFractionalPart_]; split; [done|lia]]).
  split.
  - split; try (cbn; lia); [done|apply (Hbo l); [done|cbn; lia]|apply (Hbo h); [done|cbn; lia]|]. intros Hb. cbn. auto.
  - intros Hf Hb E. unfold r0, hasInt32Bounds in Hf, Hb, E |- *. cbn in Hf, Hb, E |- *. destruct (Hp Hf ltac:(lia)); [by left|right; lia].
Qed.

Lemma new_Range_ok l h f nz e :
  valid_exponent e -> l <= h \/ l < - 2 ^ 31 \/ 2 ^ 31 <= h -> l < 2 ^ 31 \/ 2 ^ 31 <= h -> - 2 ^ 31 <= h \/ l < - 2 ^ 31 -> raw_bound e f l -> raw_bound e f h ->
  (f = true -> l = h -> 31 <= e \/ Z.abs l < 2 ^ (e + 1)) ->
  exists r, new_Range l h f nz e = mret r /\ well_formed r /\ forall d, raw_contains l h f nz e d -> contains r d.
Proof.
  intros He Hlh Hl2 Hh2 Hl Hh Hp. rewrite new_Range_eq. destruct (raw_range_ok l h f nz e ltac:(by split)) as [H1 H2]. destruct (optimize_ok _ H1 H2) as (r & Hr & Hw & Hc).
  exists r. split; [done|]. split; [done|]. intros d [Hd Hx]. apply Hc. split; [done|]. destruct (IsNaN d).
  - destruct Hx as [-> Ho]. split; [done|]. unfold raw_range, hasInt32Bounds. cbn. lia.
  - destruct Hx as (X1 & X2 & X3 & X4 & X5). split; [|done]. pose proof unit_pos. split; cbn [raw_range lower_ upper_ hasInt32LowerBound_ hasInt32UpperBound_ max_exponent_ canHaveFractionalPart_]; [|..|done|done].
    + intros Hb. rewrite Z.max_r by lia. apply X1. lia.
    + intros Hb. rewrite Z.min_l, Z.max_comm by lia. apply X2. lia.
Qed.

(** Normalising keeps the bounds. *)
Lemma new_Range_bounds l h f nz e r : raw_ok l h f e -> new_Range l h f nz e = mret r ->
  lower_ r = Z.max (- 2 ^ 31) (Z.min l (2 ^ 31 - 1)) /\ hasInt32LowerBound_ r = (- 2 ^ 31 <=? l).
Proof.
  intros H. rewrite new_Range_eq. destruct (raw_range_ok l h f nz e H) as [H1 H2]. rewrite (optimize_eq _ H1 H2). intros <-%ret_inj. unfold opt_zero, opt_fraction, opt_exponent. by repeat case_match.
Qed.

(** * Numbers and what is known of them *)

(** The bounds of a range on the numbers of it, whatever their width. *)
Record within (u : Z) (l h : option Z) (f : bool) (e x : Z) : Prop := {
  within_lower : forall v, l = Some v -> v * u <= x;
  within_upper : forall v, h = Some v -> x <= v * u;
  within_exponent : e <= MaxFiniteExponent -> Z.abs x < 2 ^ (e + 1) * u;
  within_whole : f = false -> exists n, x = n * u;
}.

Definition lower_of (r : NumberRange) : option Z := if hasInt32LowerBound_ r then Some (lower_ r) else None.
Definition upper_of (r : NumberRange) : option Z := if hasInt32UpperBound_ r then Some (upper_ r) else None.

Lemma fits_within u r x : fits u r x -> within u (lower_of r) (upper_of r) (canHaveFractionalPart_ r) (max_exponent_ r) x.
Proof. unfold lower_of, upper_of. intros [Hl Hh He Hw]. split; [intros v Hv|intros v Hv|done|done]; case_match; simplify_eq; auto. Qed.

Lemma within_neg u l h f e x : within u l h f e x -> within u (Z.opp <$> h) (Z.opp <$> l) f e (- x).
Proof.
  intros [Hl Hh He Hw]. split.
  - intros v Hv. destruct h as [w|]; cbn in Hv; simplify_eq. specialize (Hh w eq_refl). lia.
  - intros v Hv. destruct l as [w|]; cbn in Hv; simplify_eq. specialize (Hl w eq_refl). lia.
  - intros H. rewrite Z.abs_opp. auto.
  - intros H. destruct (Hw H) as [n ->]. exists (- n). ring.
Qed.

Definition opt_add (a b : option Z) : option Z := match a, b with Some a, Some b => Some (a + b) | _, _ => None end.
Definition opt_int32 (a : option Z) : Prop := forall v, a = Some v -> - 2 ^ 31 <= v <= 2 ^ 31.

(** An infinity in a range. *)
Lemma infinite_scaled d : IsInfinite d = true -> scaled d = (if sign_of d then - 2 ^ 1024 else 2 ^ 1024) * U.
Proof.
  intros H. apply IsInfinite_fields in H as [Hb Hf]. unfold scaled, scaled_magnitude. rewrite Hb, Hf.
  change (2047 =? 0) with false. change (2047 - 1) with 2046. rewrite Z.add_0_r, <- Z.pow_add_r by lia. destruct (sign_of d); cbn [signed]; [rewrite Z.mul_opp_l, <- Z.pow_add_r by lia|rewrite <- Z.pow_add_r by lia]; reflexivity.
Qed.

Lemma finite_magnitude d : is_double d -> IsFinite d = true -> exists m f, Z.abs (scaled d) = m * 2 ^ f /\ 0 <= m < 2 ^ 53 /\ 0 <= f.
Proof.
  intros Hd Hf. assert (E : Z.abs (scaled d) = scaled_magnitude d) by (unfold scaled; pose proof (scaled_magnitude_nonneg d); destruct (sign_of d); cbn [signed]; lia).
  rewrite E. unfold scaled_magnitude. pose proof (fraction_bound d). pose proof (biased_bound d). destruct (Z.eqb_spec (biased_of d) 0).
  - exists (fraction_of d), 0. split; [rewrite Z.pow_0_r; lia|]. lia.
  - exists (2 ^ 52 + fraction_of d), (biased_of d - 1). split; [done|]. lia.
Qed.

(** The largest double below a power of two. *)
Lemma below_power d k : is_double d -> IsFinite d = true -> 0 <= k -> Z.abs (scaled d) < 2 ^ k * U -> Z.abs (scaled d) <= (2 ^ 53 - 1) * 2 ^ (k + 1021).
Proof.
  intros Hd Hf Hk H. destruct (finite_magnitude d Hd Hf) as (m & f & E & Hm & Hf0). rewrite E in *.
  rewrite <- Z.pow_add_r in H by lia. replace (k + 1074) with (53 + (k + 1021)) in H by lia. rewrite Z.pow_add_r in H by lia. set (j := k + 1021) in *.
  assert (Hj : 0 <= j) by lia. clearbody j. pose proof (pow_pos j Hj). destruct (Z.le_gt_cases j f) as [Hle|Hgt].
  - replace f with ((f - j) + j) in * by lia. rewrite Z.pow_add_r, Z.mul_assoc in * by lia. apply Z.mul_lt_mono_pos_r in H; [|done]. apply Z.mul_le_mono_nonneg_r; lia.
  - pose proof (pow_le f j ltac:(lia)). pose proof (pow_pos f Hf0). apply Z.mul_le_mono_nonneg; lia.
Qed.

Lemma above_power k j : 0 <= j -> k <= (2 ^ 53 - 1) * 2 ^ j -> k < 2 ^ 53 * 2 ^ j.
Proof. intros Hj%pow_pos H. rewrite Z.mul_sub_distr_r in H. lia. Qed.

Lemma within_finite d l h f e : is_double d -> IsNaN d = false -> within U l h f e (scaled d) -> e <= MaxFiniteExponent -> IsFinite d = true.
Proof.
  intros Hd Hn Hw He. destruct (classify d) as [?|[Hi|?]]; [done| |congruence]. exfalso. pose proof (within_exponent _ _ _ _ _ _ Hw He) as H.
  rewrite (infinite_scaled d Hi), Z.abs_mul, (Z.abs_eq U) in H by (pose proof unit_pos; lia). change MaxFiniteExponent with 1023 in He.
  assert (E : Z.abs (if sign_of d then - 2 ^ 1024 else 2 ^ 1024) = 2 ^ 1024) by (destruct (sign_of d); reflexivity). rewrite E in H.
  apply Z.mul_lt_mono_pos_r in H; [|exact unit_pos]. apply pow_exponent in H; [lia|]. apply Z.nlt_ge. intros Hc. rewrite (Z.pow_neg_r 2 (e + 1)) in H by done. revert H. apply Z.nlt_ge. apply Z.pow_nonneg. lia.
Qed.

(** No finite bound holds an infinity back. *)
Lemma infinite_bound d v : IsInfinite d = true -> Z.abs v < 2 ^ 1024 -> if sign_of d then scaled d < v * U else v * U < scaled d.
Proof. intros Hi Hv. rewrite (infinite_scaled d Hi). pose proof unit_pos. destruct (sign_of d); apply Z.mul_lt_mono_pos_r; lia. Qed.

Lemma int32_below v : - 2 ^ 33 <= v <= 2 ^ 33 -> Z.abs v < 2 ^ 1024.
Proof. intros Hv. pose proof (pow_le 34 1024 ltac:(lia)). lia. Qed.

Lemma infinite_within d l h f e l' h' f' e' : IsInfinite d = true -> within U l h f e (scaled d) -> opt_int32 l -> opt_int32 h ->
  (forall v, l' = Some v -> l <> None /\ - 2 ^ 33 <= v <= 2 ^ 33) -> (forall v, h' = Some v -> h <> None /\ - 2 ^ 33 <= v <= 2 ^ 33) -> MaxFiniteExponent < e' -> within U l' h' f' e' (scaled d).
Proof.
  intros Hi [Hl Hh _ _] Ol Oh Hl' Hh' He. split; [| |intros; lia|].
  - intros v Hv. destruct (Hl' v Hv) as [Hne Hb]. destruct l as [w|]; [|done]. specialize (Hl w eq_refl). specialize (Ol w eq_refl).
    pose proof (infinite_bound d v Hi (int32_below v Hb)). pose proof (infinite_bound d w Hi (int32_below w ltac:(lia))). destruct (sign_of d); lia.
  - intros v Hv. destruct (Hh' v Hv) as [Hne Hb]. destruct h as [w|]; [|done]. specialize (Hh w eq_refl). specialize (Oh w eq_refl).
    pose proof (infinite_bound d v Hi (int32_below v Hb)). pose proof (infinite_bound d w Hi (int32_below w ltac:(lia))). destruct (sign_of d); lia.
  - intros _. rewrite (infinite_scaled d Hi). by eexists.
Qed.

Lemma opt_add_some a b v : opt_int32 a -> opt_int32 b -> opt_add a b = Some v -> a <> None /\ b <> None /\ - 2 ^ 33 <= v <= 2 ^ 33.
Proof. destruct a as [x|], b as [y|]; cbn [opt_add]; try done. intros Ha Hb E. injection E as <-. specialize (Ha x eq_refl). specialize (Hb y eq_refl). split_and!; [done|done|lia..]. Qed.

(** Rounding to within bounds. *)
Lemma rounded_within l h f e P q d : rounded P q d -> 0 <= e ->
  (forall v, l = Some v -> small v /\ v * U * q <= P) -> (forall v, h = Some v -> small v /\ P <= v * U * q) ->
  (e <= MaxFiniteExponent -> Z.abs P <= (2 ^ 53 - 1) * 2 ^ (e + 1022) * q) -> (f = false -> exists n, P = n * U * q) -> within U l h f e (scaled d).
Proof.
  intros [] He Hl Hh Hx Hw. split.
  - intros v Hv. destruct (Hl v Hv). auto.
  - intros v Hv. destruct (Hh v Hv). auto.
  - intros H. specialize (Hx H). change MaxFiniteExponent with 1023 in H. specialize (rounded_below (e + 1022) ltac:(lia) Hx).
    apply above_power in rounded_below; [|lia]. rewrite <- Z.pow_add_r in * by lia. by replace (e + 1 + 1074) with (53 + (e + 1022)) by lia.
  - intros H. destruct (Hw H) as [n Hn]. by apply (rounded_integral n).
Qed.

Lemma round_scaled_rounded k : rounded k 1 (round_scaled k).
Proof. unfold round_scaled. apply round_ratio_rounded; [lia|lia|]. destruct (Z.ltb_spec k 0); cbn [signed]; lia. Qed.

Lemma round_scaled_not_zero k : k <> 0 -> scaled (round_scaled k) <> 0.
Proof.
  intros Hk. assert (H : 1 <= scaled_magnitude (round_scaled k)).
  { apply round_ratio_ge; [lia..| |lia]. exists 1, 0. split_and!; [done|lia..|]. change 1 with (2 ^ 0) at 1. apply pow_le. lia. }
  unfold scaled. destruct (sign_of _); cbn [signed]; lia.
Qed.

Lemma negative_zero_bits d : scaled d = 0 -> is_double d -> sign_of d = true -> d = kSignBit.
Proof. intros H%double_is_zero_iff Hd Hs. rewrite (sign_mod63 d Hd), Hs. apply Z.eqb_eq in H. rewrite H. reflexivity. Qed.

Lemma sign_nonpos d : sign_of d = true -> scaled d <= 0.
Proof. unfold scaled. intros ->. cbn [signed]. pose proof (scaled_magnitude_nonneg d). lia. Qed.

Lemma sign_nonneg d : sign_of d = false -> 0 <= scaled d.
Proof. unfold scaled. intros ->. cbn [signed]. apply scaled_magnitude_nonneg. Qed.

Lemma signed_zero_scaled s : scaled (signed_zero s) = 0 /\ IsNaN (signed_zero s) = false /\ (signed_zero s = kSignBit -> s = true).
Proof. destruct s; (split; [reflexivity|split; [reflexivity|done]]). Qed.

Section Sum.
Context (a b : Z) (la ha lb hb : option Z) (fa fb : bool) (ea eb : Z).
Context (Da : is_double a) (Db : is_double b) (Na : IsNaN a = false) (Nb : IsNaN b = false).
Context (Wa : within U la ha fa ea (scaled a)) (Wb : within U lb hb fb eb (scaled b)).
Context (Ola : opt_int32 la) (Oha : opt_int32 ha) (Olb : opt_int32 lb) (Ohb : opt_int32 hb) (Ea : 0 <= ea) (Eb : 0 <= eb).

#[local] Abbreviation within_sum := (within U (opt_add la lb) (opt_add ha hb) (fa || fb) (Z.max ea eb + 1)).

Lemma finite_sum_within k : k = scaled a + scaled b -> forall d, rounded k 1 d -> within_sum (scaled d).
Proof.
  intros Hk d Hd. apply (rounded_within _ _ _ _ k 1); [done|lia|..].
  - intros v Hv. destruct (opt_add_some la lb v Ola Olb Hv) as (_ & _ & Hr). split; [unfold small; lia|]. destruct la as [x|], lb as [y|]; cbn in Hv; try done. injection Hv as <-.
    pose proof (within_lower _ _ _ _ _ _ Wa x eq_refl). pose proof (within_lower _ _ _ _ _ _ Wb y eq_refl). rewrite Z.mul_1_r, Z.mul_add_distr_r. lia.
  - intros v Hv. destruct (opt_add_some ha hb v Oha Ohb Hv) as (_ & _ & Hr). split; [unfold small; lia|]. destruct ha as [x|], hb as [y|]; cbn in Hv; try done. injection Hv as <-.
    pose proof (within_upper _ _ _ _ _ _ Wa x eq_refl). pose proof (within_upper _ _ _ _ _ _ Wb y eq_refl). rewrite Z.mul_1_r, Z.mul_add_distr_r. lia.
  - intros He. rewrite Z.mul_1_r. assert (Hea : ea <= MaxFiniteExponent) by lia. assert (Heb : eb <= MaxFiniteExponent) by lia.
    pose proof (below_power a (ea + 1) Da (within_finite _ _ _ _ _ Da Na Wa Hea) ltac:(lia) (within_exponent _ _ _ _ _ _ Wa Hea)) as Ha.
    pose proof (below_power b (eb + 1) Db (within_finite _ _ _ _ _ Db Nb Wb Heb) ltac:(lia) (within_exponent _ _ _ _ _ _ Wb Heb)) as Hb.
    replace (Z.max ea eb + 1 + 1022) with (Z.max ea eb + 1022 + 1) by lia. rewrite pow_succ by lia. pose proof (pow_le (ea + 1 + 1021) (Z.max ea eb + 1022) ltac:(lia)). pose proof (pow_le (eb + 1 + 1021) (Z.max ea eb + 1022) ltac:(lia)).
    set (p := 2 ^ (Z.max ea eb + 1022)) in *. set (pa := 2 ^ (ea + 1 + 1021)) in *. set (pb := 2 ^ (eb + 1 + 1021)) in *. clearbody p pa pb. lia.
  - intros [Hfa Hfb]%orb_false_iff. destruct (within_whole _ _ _ _ _ _ Wa Hfa) as [n Hn]. destruct (within_whole _ _ _ _ _ _ Wb Hfb) as [m Hm]. exists (n + m). rewrite Hk, Hn, Hm. ring.
Qed.

Lemma double_add_within : let d := double_add a b in
  (IsNaN d = true -> 1024 <= ea /\ 1024 <= eb /\ (opt_add la lb = None \/ opt_add ha hb = None)) /\
  (IsNaN d = false -> within_sum (scaled d)).
Proof.
  intros d. unfold d, double_add. rewrite Na, Nb. cbn [orb]. destruct (IsInfinite a) eqn:Ia; [|destruct (IsInfinite b) eqn:Ib].
  - assert (Hea : 1024 <= ea). { apply Z.le_ngt. intros Hc. pose proof (within_finite _ _ _ _ _ Da Na Wa ltac:(change MaxFiniteExponent with 1023; lia)) as Hf. apply finite_not_infinite in Hf. congruence. }
    destruct (IsInfinite b && _) eqn:Hc.
    + apply andb_true_iff in Hc as [Ib Hs]. split; [|done]. intros _. split; [done|]. split.
      { apply Z.le_ngt. intros Hc. pose proof (within_finite _ _ _ _ _ Db Nb Wb ltac:(change MaxFiniteExponent with 1023; lia)) as Hf. apply finite_not_infinite in Hf. congruence. }
      assert (Hl : sign_of a = true \/ sign_of b = true) by (destruct (sign_of a), (sign_of b); auto; done).
      destruct la as [x|]; [|by left]. destruct lb as [y|]; [|by left]. exfalso.
      pose proof (within_lower _ _ _ _ _ _ Wa x eq_refl). pose proof (within_lower _ _ _ _ _ _ Wb y eq_refl). specialize (Ola x eq_refl). specialize (Olb y eq_refl).
      pose proof (infinite_bound a x Ia (int32_below x ltac:(lia))). pose proof (infinite_bound b y Ib (int32_below y ltac:(lia))). destruct Hl as [E|E]; rewrite E in *; lia.
    + split; [congruence|]. intros _. apply (infinite_within a la ha fa ea); [done..| | |change MaxFiniteExponent with 1023; lia].
      * intros v Hv. by destruct (opt_add_some _ _ _ Ola Olb Hv) as (? & _ & ?).
      * intros v Hv. by destruct (opt_add_some _ _ _ Oha Ohb Hv) as (? & _ & ?).
  - assert (Heb : 1024 <= eb). { apply Z.le_ngt. intros Hc. pose proof (within_finite _ _ _ _ _ Db Nb Wb ltac:(change MaxFiniteExponent with 1023; lia)) as Hf. apply finite_not_infinite in Hf. congruence. }
    split; [congruence|]. intros _. apply (infinite_within b lb hb fb eb); [done..| | |change MaxFiniteExponent with 1023; lia].
    + intros v Hv. by destruct (opt_add_some _ _ _ Ola Olb Hv) as (_ & ? & ?).
    + intros v Hv. by destruct (opt_add_some _ _ _ Oha Ohb Hv) as (_ & ? & ?).
  - cbv zeta. destruct (Z.eqb_spec (scaled a + scaled b) 0) as [E|E].
    + destruct (signed_zero_scaled (sign_of a && sign_of b)) as (H1 & H2 & _). split; [congruence|].
      intros _. rewrite H1. assert (R : rounded 0 1 0) by exact (round_scaled_rounded 0). exact (finite_sum_within 0 (eq_sym E) 0 R).
    + pose proof (round_scaled_rounded (scaled a + scaled b)) as R. split; [rewrite (rounded_number _ _ _ R); done|]. intros _. by apply (finite_sum_within _ eq_refl).
Qed.
End Sum.

(** * Operands *)

Record operand (l h : option Z) (f : bool) (e : Z) : Prop := {
  operand_lower : opt_int32 l;
  operand_upper : opt_int32 h;
  operand_exponent : valid_exponent e;
  operand_lower_bound : forall v, l = Some v -> raw_bound e f v;
  operand_upper_bound : forall v, h = Some v -> raw_bound e f v;
  operand_missing : l = None \/ h = None -> 31 <= e + Z.b2z f;
  operand_order : forall v w, l = Some v -> h = Some w -> v <= w /\ (f = true -> v < w);
}.

Lemma operand_range r : well_formed r -> operand (lower_of r) (upper_of r) (canHaveFractionalPart_ r) (max_exponent_ r).
Proof.
  intros [[W1 W2 W3 W4 W5 W6 W7 W8 W9] [Hf _]]. unfold lower_of, upper_of, opt_int32, hasInt32Bounds in *. split; try done; try (intros v Hv; case_match; simplify_eq; (done || lia)).
  - intros H. apply W9. by destruct (hasInt32LowerBound_ r), (hasInt32UpperBound_ r), H.
  - intros v w Hv Hw. repeat case_match; simplify_eq. split; [done|]. auto.
Qed.

Lemma raw_bound_opp e f v : raw_bound e f v -> raw_bound e f (- v).
Proof. unfold raw_bound. by rewrite Z.abs_opp. Qed.

Lemma operand_neg l h f e : operand l h f e -> operand (Z.opp <$> h) (Z.opp <$> l) f e.
Proof.
  intros [Ol Oh Oe Bl Bh Om Oo]. split; [| |done|..].
  - intros v Hv. destruct h as [w|]; cbn in Hv; simplify_eq. specialize (Oh w eq_refl). lia.
  - intros v Hv. destruct l as [w|]; cbn in Hv; simplify_eq. specialize (Ol w eq_refl). lia.
  - intros v Hv. destruct h as [w|]; cbn in Hv; simplify_eq. by apply raw_bound_opp, Bh.
  - intros v Hv. destruct l as [w|]; cbn in Hv; simplify_eq. by apply raw_bound_opp, Bl.
  - intros H. apply Om. destruct l, h, H; cbn in *; auto; done.
  - intros v w Hv Hw. destruct h as [x|], l as [y|]; cbn in *; simplify_eq. destruct (Oo y x eq_refl eq_refl). split; [lia|]. intros Hf. specialize (H0 Hf). lia.
Qed.

Definition raw_lower (o : option Z) : Z := default NoInt32LowerBound o.
Definition raw_upper (o : option Z) : Z := default NoInt32UpperBound o.

Definition sum_exponent (ea eb : Z) : Z :=
  let e := Z.max ea eb in
  let e := if e <=? MaxFiniteExponent then e + 1 else e in
  if (ea >=? IncludesInfinity) && (eb >=? IncludesInfinity) then IncludesInfinityAndNaN else e.

Lemma sum_exponent_cases ea eb : valid_exponent ea -> valid_exponent eb ->
  valid_exponent (sum_exponent ea eb) /\ (sum_exponent ea eb <= 1023 -> sum_exponent ea eb = Z.max ea eb + 1) /\
  (ea = 65535 \/ eb = 65535 \/ 1024 <= ea /\ 1024 <= eb -> sum_exponent ea eb = 65535) /\ (Z.max ea eb + 1 <= sum_exponent ea eb \/ 31 <= sum_exponent ea eb).
Proof.
  unfold valid_exponent, sum_exponent. change IncludesInfinityAndNaN with 65535. change IncludesInfinity with 1024. change MaxFiniteExponent with 1023.
  intros Ha Hb. cbv zeta. destruct (Z.leb_spec (Z.max ea eb) 1023); destruct ((ea >=? 1024) && (eb >=? 1024)) eqn:Hc; lia.
Qed.

Lemma raw_bound_add ea fa v eb fb w e : 0 <= ea -> 0 <= eb -> Z.max ea eb + 1 <= e \/ 31 <= e -> raw_bound ea fa v -> raw_bound eb fb w -> raw_bound e (fa || fb) (v + w).
Proof.
  intros Ea Eb He Hv Hw. destruct (Z.le_gt_cases 31 e) as [|Hs]; [by left|right]. assert (Hm : Z.max ea eb + 1 <= e) by lia. clear He.
  pose proof (pow_succ e ltac:(lia)) as Hp. pose proof (pow_le (ea + 1) e ltac:(lia)). pose proof (pow_le (eb + 1) e ltac:(lia)). rewrite Hp. destruct Hv as [?|[?|[-> ?]]], Hw as [?|[?|[-> ?]]]; try lia; (left; lia) || (right; rewrite ?orb_true_r; cbn [orb]; split; [done|lia]).
Qed.

Lemma missing_exponent l h f e : operand l h f e -> l = None \/ h = None -> 30 <= e.
Proof. intros [] H. specialize (operand_missing0 H). destruct f; cbn [Z.b2z] in *; lia. Qed.

Lemma opt_add_none a b : opt_add a b = None -> a = None \/ b = None.
Proof. destruct a, b; cbn; auto; done. Qed.

Section SumRange.
Context (la ha lb hb : option Z) (fa fb nz : bool) (ea eb : Z) (A : operand la ha fa ea) (B : operand lb hb fb eb).
#[local] Abbreviation se := (sum_exponent ea eb).

Lemma sum_missing : opt_add la lb = None \/ opt_add ha hb = None -> 31 <= se.
Proof.
  intros H. assert (Hm : (la = None \/ ha = None) \/ (lb = None \/ hb = None)) by (destruct H as [H|H]; apply opt_add_none in H; tauto).
  destruct (sum_exponent_cases ea eb (operand_exponent _ _ _ _ A) (operand_exponent _ _ _ _ B)) as (_ & _ & _ & [Hs|Hs]); [|done].
  destruct Hm as [Hm|Hm]; [pose proof (missing_exponent _ _ _ _ A Hm)|pose proof (missing_exponent _ _ _ _ B Hm)]; lia.
Qed.

Lemma sum_bounds : raw_bound se (fa || fb) (raw_lower (opt_add la lb)) /\ raw_bound se (fa || fb) (raw_upper (opt_add ha hb)).
Proof.
  destruct (sum_exponent_cases ea eb (operand_exponent _ _ _ _ A) (operand_exponent _ _ _ _ B)) as (_ & _ & _ & Hs).
  pose proof (exponent_nonneg ea (operand_exponent _ _ _ _ A)). pose proof (exponent_nonneg eb (operand_exponent _ _ _ _ B)). pose proof sum_missing as Hmiss. split.
  - destruct (opt_add la lb) as [v|] eqn:E; [|left; auto]. destruct la as [x|], lb as [y|]; try done. injection E as <-. apply (raw_bound_add ea fa x eb fb y); [done..|by apply (operand_lower_bound _ _ _ _ A)|by apply (operand_lower_bound _ _ _ _ B)].
  - destruct (opt_add ha hb) as [v|] eqn:E; [|left; auto]. destruct ha as [x|], hb as [y|]; try done. injection E as <-. apply (raw_bound_add ea fa x eb fb y); [done..|by apply (operand_upper_bound _ _ _ _ A)|by apply (operand_upper_bound _ _ _ _ B)].
Qed.

Lemma sum_order x y : opt_add la lb = Some x -> opt_add ha hb = Some y -> x <= y /\ (fa || fb = true -> x < y).
Proof.
  intros Hx Hy. destruct la as [p|], lb as [q|], ha as [s|], hb as [t|]; try done. injection Hx as <-. injection Hy as <-.
  destruct (operand_order _ _ _ _ A p s eq_refl eq_refl) as [H1 H2]. destruct (operand_order _ _ _ _ B q t eq_refl eq_refl) as [H3 H4].
  split; [lia|]. intros [Hf|Hf]%orb_true_iff; [specialize (H2 Hf)|specialize (H4 Hf)]; lia.
Qed.

Lemma sum_range_ok : exists r, new_Range (raw_lower (opt_add la lb)) (raw_upper (opt_add ha hb)) (fa || fb) nz se = mret r /\ well_formed r /\
  forall d, is_double d -> (nz = false -> d <> kSignBit) ->
    (if IsNaN d then se = 65535 /\ (opt_add la lb = None \/ opt_add ha hb = None) else within U (opt_add la lb) (opt_add ha hb) (fa || fb) (Z.max ea eb + 1) (scaled d)) -> contains r d.
Proof.
  pose proof sum_bounds as [Bl Bh]. pose proof sum_order as Ho. pose proof sum_missing as Hm. destruct (sum_exponent_cases ea eb (operand_exponent _ _ _ _ A) (operand_exponent _ _ _ _ B)) as (Hv & Hfin & _ & _).
  unfold raw_lower, raw_upper in *. change NoInt32LowerBound with (- 2 ^ 31 - 1) in *. change NoInt32UpperBound with (2 ^ 31) in *.
  set (l := opt_add la lb) in *. set (h := opt_add ha hb) in *. clearbody l h. destruct (new_Range_ok (default (- 2 ^ 31 - 1) l) (default (2 ^ 31) h) (fa || fb) nz se) as (r & Hr & Hw & Hc); [done|..|done|done| |].
  - destruct l as [x|], h as [y|]; cbn [default from_option id]; [left; by apply Ho|lia..].
  - destruct l as [x|], h as [y|]; cbn [default from_option id]; [destruct (Ho x y eq_refl eq_refl); lia|lia..].
  - destruct l as [x|], h as [y|]; cbn [default from_option id]; [destruct (Ho x y eq_refl eq_refl); lia|lia..].
  - intros Hf E. destruct l as [x|], h as [y|]; cbn [default from_option id] in *; [destruct (Ho x y eq_refl eq_refl) as [_ H]; specialize (H Hf); lia|left; apply Hm; auto..].
  - exists r. split; [done|]. split; [done|]. intros d Hd Hz Hx. apply Hc. split; [done|]. destruct (IsNaN d).
    + destruct Hx as [-> Hx]. split; [done|]. destruct Hx as [-> | ->]; cbn [default from_option id]; lia.
    + destruct Hx as [Wl Wh We Ww]. pose proof unit_pos as Hu. split_and!; [| | |done|done].
      * intros Hl. destruct l as [x|]; cbn [default from_option id] in *; [|lia]. specialize (Wl x eq_refl). apply Z.le_trans with (2 := Wl). apply Z.mul_le_mono_nonneg_r; lia.
      * intros Hh. destruct h as [y|]; cbn [default from_option id] in *; [|lia]. specialize (Wh y eq_refl). apply Z.le_trans with (1 := Wh). apply Z.mul_le_mono_nonneg_r; lia.
      * intros He. specialize (Hfin He). rewrite Hfin in He |- *. by apply We.
Qed.
End SumRange.

(** * Sums and differences *)

(** A range operation follows an operation on doubles: no assertion fails, and
    the range made has every double that the operation can give. *)
Definition sound2 (range_op : NumberRange -> NumberRange -> M NumberRange) (op : Z -> Z -> Z) : Prop :=
  forall lhs rhs, well_formed lhs -> well_formed rhs ->
  exists r, range_op lhs rhs = mret r /\ well_formed r /\ forall a b, contains lhs a -> contains rhs b -> contains r (op a b).

Definition sound1 (range_op : NumberRange -> M NumberRange) (op : Z -> Z) : Prop :=
  forall rg, well_formed rg -> exists r, range_op rg = mret r /\ well_formed r /\ forall a, contains rg a -> contains r (op a).

Lemma contains_double r d : contains r d -> is_double d.
Proof. by intros [? _]. Qed.

Lemma contains_nan r d : contains r d -> IsNaN d = true -> max_exponent_ r = 65535 /\ (lower_of r = None \/ upper_of r = None).
Proof.
  intros [_ H] Hn. rewrite Hn in H. destruct H as [H1%Z.eqb_eq H2]. split; [done|]. unfold hasInt32Bounds in H2. unfold lower_of, upper_of.
  destruct (hasInt32LowerBound_ r), (hasInt32UpperBound_ r); auto; done.
Qed.

Lemma contains_number r d : contains r d -> IsNaN d = false ->
  within U (lower_of r) (upper_of r) (canHaveFractionalPart_ r) (max_exponent_ r) (scaled d) /\ (canBeNegativeZero_ r = false -> d <> kSignBit).
Proof. intros [_ H] Hn. rewrite Hn in H. destruct H as [H1 H2]. split; [by apply fits_within|done]. Qed.

Lemma opt_add_none_l a b : a = None -> opt_add a b = None.
Proof. by intros ->. Qed.
Lemma opt_add_none_r a b : b = None -> opt_add a b = None.
Proof. intros ->. by destruct a. Qed.

Lemma range_add_eq lhs rhs : range_add lhs rhs =
  new_Range (raw_lower (opt_add (lower_of lhs) (lower_of rhs))) (raw_upper (opt_add (upper_of lhs) (upper_of rhs)))
    (canHaveFractionalPart_ lhs || canHaveFractionalPart_ rhs) (canBeNegativeZero_ lhs && canBeNegativeZero_ rhs) (sum_exponent (max_exponent_ lhs) (max_exponent_ rhs)).
Proof.
  unfold range_add, add_exponent, sum_exponent, canBeInfiniteOrNaN, lower_of, upper_of.
  by destruct (hasInt32LowerBound_ lhs), (hasInt32LowerBound_ rhs), (hasInt32UpperBound_ lhs), (hasInt32UpperBound_ rhs).
Qed.

Lemma range_sub_eq lhs rhs : range_sub lhs rhs =
  new_Range (raw_lower (opt_add (lower_of lhs) (Z.opp <$> upper_of rhs))) (raw_upper (opt_add (upper_of lhs) (Z.opp <$> lower_of rhs)))
    (canHaveFractionalPart_ lhs || canHaveFractionalPart_ rhs) (canBeNegativeZero_ lhs && canBeZero rhs) (sum_exponent (max_exponent_ lhs) (max_exponent_ rhs)).
Proof.
  unfold range_sub, add_exponent, sum_exponent, canBeInfiniteOrNaN, lower_of, upper_of.
  by destruct (hasInt32LowerBound_ lhs), (hasInt32LowerBound_ rhs), (hasInt32UpperBound_ lhs), (hasInt32UpperBound_ rhs).
Qed.

(** A NaN operand. *)
Lemma sum_of_nan la ha lb hb fa fb ea eb : operand la ha fa ea -> operand lb hb fb eb ->
  (ea = 65535 /\ (la = None \/ ha = None)) \/ (eb = 65535 /\ (lb = None \/ hb = None)) ->
  sum_exponent ea eb = 65535 /\ (opt_add la lb = None \/ opt_add ha hb = None).
Proof.
  intros A B H. destruct (sum_exponent_cases ea eb (operand_exponent _ _ _ _ A) (operand_exponent _ _ _ _ B)) as (_ & _ & Hs & _).
  destruct H as [[He [H|H]]|[He [H|H]]]; (split; [apply Hs; lia|]); [left|right|left|right]; auto using opt_add_none_l, opt_add_none_r.
Qed.

Lemma double_add_nan a b : IsNaN a = true \/ IsNaN b = true -> double_add a b = GenericNaN.
Proof. unfold double_add. intros [-> | ->]; by rewrite ?orb_true_r. Qed.

(** Adding numbers of two operands. *)
Lemma sum_sound la ha lb hb fa fb ea eb a b : operand la ha fa ea -> operand lb hb fb eb ->
  is_double a -> is_double b -> IsNaN a = false -> IsNaN b = false -> within U la ha fa ea (scaled a) -> within U lb hb fb eb (scaled b) ->
  let d := double_add a b in
  if IsNaN d then sum_exponent ea eb = 65535 /\ (opt_add la lb = None \/ opt_add ha hb = None)
  else within U (opt_add la lb) (opt_add ha hb) (fa || fb) (Z.max ea eb + 1) (scaled d).
Proof.
  intros A B Da Db Na Nb Wa Wb d. destruct (double_add_within a b la ha lb hb fa fb ea eb Da Db Na Nb Wa Wb (operand_lower _ _ _ _ A) (operand_upper _ _ _ _ A) (operand_lower _ _ _ _ B) (operand_upper _ _ _ _ B)
    (exponent_nonneg _ (operand_exponent _ _ _ _ A)) (exponent_nonneg _ (operand_exponent _ _ _ _ B))) as (H1 & H2). fold d in H1, H2.
  destruct (IsNaN d); [|auto]. destruct (H1 eq_refl) as (Ha & Hb & Hn). split; [|done].
  apply (sum_exponent_cases ea eb (operand_exponent _ _ _ _ A) (operand_exponent _ _ _ _ B)). auto.
Qed.

Lemma double_add_negative_zero a b : is_double a -> is_double b -> double_add a b = kSignBit -> a = kSignBit /\ b = kSignBit.
Proof.
  intros Da Db. unfold double_add. destruct (IsNaN a) eqn:Na; [done|]. destruct (IsNaN b) eqn:Nb; [done|]. cbn [orb].
  destruct (IsInfinite a) eqn:Ia; [destruct (_ && _); [done|intros ->; done]|]. destruct (IsInfinite b) eqn:Ib; [intros ->; done|]. cbv zeta.
  destruct (Z.eqb_spec (scaled a + scaled b) 0) as [E|E].
  - intros Hz. destruct (signed_zero_scaled (sign_of a && sign_of b)) as (_ & _ & H3). specialize (H3 Hz). apply andb_true_iff in H3 as [Sa Sb].
    pose proof (sign_nonpos a Sa). pose proof (sign_nonpos b Sb). split; apply negative_zero_bits; (done || lia).
  - intros Hz. pose proof (round_scaled_not_zero _ E) as Hnz. rewrite Hz in Hnz. exfalso. by apply Hnz.
Qed.

Lemma range_add_sound : sound2 range_add double_add.
Proof.
  intros lhs rhs Hl Hr. rewrite range_add_eq. pose proof (operand_range lhs Hl) as A. pose proof (operand_range rhs Hr) as B.
  destruct (sum_range_ok _ _ _ _ _ _ (canBeNegativeZero_ lhs && canBeNegativeZero_ rhs) _ _ A B) as (r & E & Hw & Hc). exists r. split; [done|]. split; [done|].
  intros a b Ha Hb. apply Hc; [apply double_add_double; by eapply contains_double|..].
  - intros Hz E0. apply double_add_negative_zero in E0 as [-> ->]; [|by eapply contains_double..]. destruct (contains_number _ _ Ha eq_refl) as [_ H1]. destruct (contains_number _ _ Hb eq_refl) as [_ H2].
    apply andb_false_iff in Hz as [Hz|Hz]; [by apply H1|by apply H2].
  - destruct (IsNaN a) eqn:Na; [|destruct (IsNaN b) eqn:Nb].
    + rewrite double_add_nan by auto. apply (sum_of_nan _ _ _ _ _ _ _ _ A B). left. by eapply contains_nan.
    + rewrite double_add_nan by auto. apply (sum_of_nan _ _ _ _ _ _ _ _ A B). right. by eapply contains_nan.
    + apply (sum_sound _ _ _ _ _ _ _ _ a b A B); [by eapply contains_double..|done|done|by apply contains_number|by apply contains_number].
Qed.

Lemma range_sub_sound : sound2 range_sub double_sub.
Proof.
  intros lhs rhs Hl Hr. rewrite range_sub_eq. pose proof (operand_range lhs Hl) as A. pose proof (operand_neg _ _ _ _ (operand_range rhs Hr)) as B.
  destruct (sum_range_ok _ _ _ _ _ _ (canBeNegativeZero_ lhs && canBeZero rhs) _ _ A B) as (r & E & Hw & Hc). exists r. split; [done|]. split; [done|].
  intros a b Ha Hb. pose proof (contains_double _ _ Ha) as Da. pose proof (contains_double _ _ Hb) as Db. destruct (double_neg_fields b Db) as (Hs & Hn & Hz). apply Hc; [by apply double_sub_double|..]; unfold double_sub.
  - intros Hnz. destruct (IsNaN b) eqn:Nb; [done|]. intros E0. apply double_add_negative_zero in E0 as [-> E0]; [|done|by apply double_neg_double]. apply Hz in E0 as ->.
    destruct (contains_number _ _ Ha eq_refl) as [_ H1]. apply andb_false_iff in Hnz as [Hnz|Hnz]; [by apply H1|].
    destruct (contains_number _ _ Hb eq_refl) as [[Wl Wh _ _] _]. change (scaled 0) with 0 in *. apply not_true_iff_false in Hnz. apply Hnz. destruct Hr as [[] _].
    unfold canBeZero, range_contains, lower_of, upper_of in *. pose proof unit_pos. apply andb_true_iff. split.
    + apply Z.geb_le, Z.le_ngt. intros Hc0. destruct (hasInt32LowerBound_ rhs); [|lia]. specialize (Wl _ eq_refl). assert (0 < lower_ rhs * U) by (by apply Z.mul_pos_pos). lia.
    + apply Z.leb_le, Z.le_ngt. intros Hc0. destruct (hasInt32UpperBound_ rhs); [|lia]. specialize (Wh _ eq_refl). assert (upper_ rhs * U < 0) by (by apply Z.mul_neg_pos). lia.
  - destruct (IsNaN b) eqn:Nb; [|destruct (IsNaN a) eqn:Na].
    + apply (sum_of_nan _ _ _ _ _ _ _ _ A B). right. destruct (contains_nan _ _ Hb Nb) as [He Ho]. split; [done|]. destruct Ho as [-> | ->]; cbn; auto.
    + rewrite double_add_nan by auto. apply (sum_of_nan _ _ _ _ _ _ _ _ A B). left. by eapply contains_nan.
    + apply (sum_sound _ _ _ _ _ _ _ _ a (double_neg b) A B); [done|by apply double_neg_double|done|congruence|by apply contains_number|]. rewrite Hs. by apply within_neg, contains_number.
Qed.
