(* ===== verification/RangeProduct.v ===== *)
(** The product of ranges follows the product of doubles. *)
From S2P Require Import Prelude Words CheckedArithmetic FloatingPoint BigIntRep BigIntMul Conversions BigIntDouble DoubleArith DoubleWhole DoubleOrder RangeAnalysis RangeInv RangeArith.

#[local] Abbreviation U := (2 ^ 1074).

(** * Products of intervals *)

Lemma corner_upper x y l h l' h' m : l <= x <= h -> l' <= y <= h' -> l * l' <= m -> l * h' <= m -> h * l' <= m -> h * h' <= m -> x * y <= m.
Proof.
  intros Hx Hy H1 H2 H3 H4. assert (Hc : forall z, z * l' <= m -> z * h' <= m -> z * y <= m).
  { intros z Ha Hb. destruct (Z.le_gt_cases 0 z).
    - apply Z.le_trans with (2 := Hb). apply Z.mul_le_mono_nonneg_l; lia.
    - apply Z.le_trans with (2 := Ha). apply Z.mul_le_mono_nonpos_l; lia. }
  destruct (Z.le_gt_cases 0 y).
  - apply Z.le_trans with (h * y); [apply Z.mul_le_mono_nonneg_r; lia|auto].
  - apply Z.le_trans with (l * y); [apply Z.mul_le_mono_nonpos_r; lia|auto].
Qed.

Lemma corner_lower x y l h l' h' m : l <= x <= h -> l' <= y <= h' -> m <= l * l' -> m <= l * h' -> m <= h * l' -> m <= h * h' -> m <= x * y.
Proof.
  intros Hx Hy H1 H2 H3 H4. enough (- x * y <= - m) by lia. apply (corner_upper (- x) y (- h) (- l) l' h'); lia.
Qed.

(** In units of [u]. *)
Lemma corner_scaled u x y l h l' h' m M : 0 < u -> l * u <= x <= h * u -> l' * u <= y <= h' * u ->
  m <= l * l' <= M -> m <= l * h' <= M -> m <= h * l' <= M -> m <= h * h' <= M -> m * u * u <= x * y <= M * u * u.
Proof.
  intros Hu Hx Hy H1 H2 H3 H4. assert (Hm : forall a b, a <= b -> a * u * u <= b * u * u) by (intros; rewrite <- !Z.mul_assoc; apply Z.mul_le_mono_nonneg_r; [apply Z.mul_nonneg_nonneg|]; lia).
  assert (Hc : forall a b, a * u * (b * u) = a * b * u * u) by (intros; ring).
  split; [apply (corner_lower x y (l * u) (h * u) (l' * u) (h' * u))|apply (corner_upper x y (l * u) (h * u) (l' * u) (h' * u))]; rewrite ?Hc; auto; apply Hm; lia.
Qed.

(** * Exponents *)

Definition product_exponent (lhs rhs : NumberRange) : Z :=
  if negb (canBeInfiniteOrNaN lhs) && negb (canBeInfiniteOrNaN rhs) then
    let exponent := max_exponent_ lhs + 1 + (max_exponent_ rhs + 1) - 1 in
    if exponent >? MaxFiniteExponent then IncludesInfinity else exponent
  else if negb (canBeNaN lhs) && negb (canBeNaN rhs) && negb (canBeZero lhs && canBeInfiniteOrNaN rhs) && negb (canBeZero rhs && canBeInfiniteOrNaN lhs)
  then IncludesInfinity else IncludesInfinityAndNaN.

Lemma mul_exponent_eq lhs rhs : mul_exponent lhs rhs = mret (product_exponent lhs rhs).
Proof. unfold mul_exponent, product_exponent, numBits, exponent. destruct (canBeInfiniteOrNaN lhs), (canBeInfiniteOrNaN rhs); reflexivity. Qed.

Lemma product_exponent_cases lhs rhs : well_formed lhs -> well_formed rhs -> let e := product_exponent lhs rhs in
  valid_exponent e /\ (e <= 1023 -> max_exponent_ lhs <= 1023 /\ max_exponent_ rhs <= 1023 /\ e = max_exponent_ lhs + max_exponent_ rhs + 1) /\
  (max_exponent_ lhs + max_exponent_ rhs + 1 <= e \/ 31 <= e) /\
  (max_exponent_ lhs = 65535 \/ max_exponent_ rhs = 65535 \/ canBeZero lhs = true /\ 1024 <= max_exponent_ rhs \/ canBeZero rhs = true /\ 1024 <= max_exponent_ lhs -> e = 65535).
Proof.
  intros [[] _] [[] _] e. unfold e, product_exponent, canBeInfiniteOrNaN, canBeNaN, valid_exponent in *. change IncludesInfinity with 1024 in *. change IncludesInfinityAndNaN with 65535 in *. change MaxFiniteExponent with 1023.
  destruct (Z.geb_spec (max_exponent_ lhs) 1024), (Z.geb_spec (max_exponent_ rhs) 1024); cbn [negb andb].
  all: try (rewrite Z.gtb_ltb; destruct (Z.ltb_spec 1023 (max_exponent_ lhs + 1 + (max_exponent_ rhs + 1) - 1)); lia).
  all: destruct (Z.eqb_spec (max_exponent_ lhs) 65535), (Z.eqb_spec (max_exponent_ rhs) 65535), (canBeZero lhs), (canBeZero rhs); cbn [negb andb orb]; (split; [lia|split; [lia|split; [lia|intros [?|[?|[[? ?]|[? ?]]]]; (done || lia)]]]).
Qed.

Lemma raw_bound_mul ea fa v eb fb w e : 0 <= ea -> 0 <= eb -> ea + eb + 1 <= e \/ 31 <= e -> raw_bound ea fa v -> raw_bound eb fb w ->
  Z.abs v <= 2 ^ 31 -> Z.abs w <= 2 ^ 31 -> raw_bound e (fa || fb) (v * w).
Proof.
  intros Ea Eb He Hv Hw Av Aw. destruct (Z.le_gt_cases 31 e) as [|Hs]; [by left|right]. assert (Hm : ea + eb + 1 <= e) by lia. clear He.
  assert (Hp : 2 ^ (ea + 1) * 2 ^ (eb + 1) <= 2 ^ (e + 1)) by (rewrite <- Z.pow_add_r by lia; apply pow_le; lia).
  pose proof (pow_pos (ea + 1) ltac:(lia)) as Pa. pose proof (pow_pos (eb + 1) ltac:(lia)) as Pb. unfold raw_bound in Hv, Hw. rewrite Z.abs_mul. set (pa := 2 ^ (ea + 1)) in *. set (pb := 2 ^ (eb + 1)) in *. clearbody pa pb.
  assert (Ha : Z.abs v <= pa /\ (fa = false -> Z.abs v < pa)) by (destruct Hv as [?|[?|[-> ?]]]; [lia|split; [lia|done]|split; done]).
  assert (Hb : Z.abs w <= pb /\ (fb = false -> Z.abs w < pb)) by (destruct Hw as [?|[?|[-> ?]]]; [lia|split; [lia|done]|split; done]).
  destruct Ha as [Ha Ha'], Hb as [Hb Hb']. assert (Hle : Z.abs v * Z.abs w <= pa * pb) by (apply Z.mul_le_mono_nonneg; lia).
  destruct fa, fb; cbn [orb]; [right; split; [done|lia]..|left]. specialize (Ha' eq_refl). apply Z.lt_le_trans with (2 := Hp). apply Z.le_lt_trans with (Z.abs v * pb); [apply Z.mul_le_mono_nonneg_l; lia|by apply Z.mul_lt_mono_pos_r].
Qed.

(** * Products *)

Definition product_fraction (lhs rhs : NumberRange) : bool := canHaveFractionalPart_ lhs || canHaveFractionalPart_ rhs.

Definition product_lower (lhs rhs : NumberRange) : Z :=
  Z.min (Z.min (lower_ lhs * lower_ rhs) (lower_ lhs * upper_ rhs)) (Z.min (upper_ lhs * lower_ rhs) (upper_ lhs * upper_ rhs)).
Definition product_upper (lhs rhs : NumberRange) : Z :=
  Z.max (Z.max (lower_ lhs * lower_ rhs) (lower_ lhs * upper_ rhs)) (Z.max (upper_ lhs * lower_ rhs) (upper_ lhs * upper_ rhs)).

Lemma range_mul_eq lhs rhs : range_mul lhs rhs =
  new_Range (if MissingAnyInt32Bounds lhs rhs then NoInt32LowerBound else product_lower lhs rhs) (if MissingAnyInt32Bounds lhs rhs then NoInt32UpperBound else product_upper lhs rhs)
    (product_fraction lhs rhs) (negativeZeroMul lhs rhs) (product_exponent lhs rhs).
Proof.
  unfold range_mul. cbv zeta. rewrite mul_exponent_eq, bind_ret. destruct (MissingAnyInt32Bounds lhs rhs) eqn:E; [done|].
  unfold MissingAnyInt32Bounds, hasInt32Bounds in E. unfold lower, upper. by destruct (hasInt32LowerBound_ lhs), (hasInt32UpperBound_ lhs), (hasInt32LowerBound_ rhs), (hasInt32UpperBound_ rhs).
Qed.

(** What a range says of one of its numbers. *)
Lemma infinite_not_zero d : IsInfinite d = true -> double_is_zero d = false.
Proof.
  intros H. apply not_true_iff_false. rewrite double_is_zero_iff, (infinite_scaled d H), unit_zero. by destruct (sign_of d).
Qed.

Section Member.
Context (r : NumberRange) (a : Z) (Hr : well_formed r) (Ha : contains r a) (Na : IsNaN a = false).

Lemma member_zero : scaled a = 0 -> canBeZero r = true.
Proof.
  intros H0. destruct (contains_number _ _ Ha Na) as [[Wl Wh _ _] _]. rewrite H0 in *. destruct Hr as [[] _]. unfold canBeZero, range_contains, lower_of, upper_of in *. pose proof unit_pos. apply andb_true_iff. split.
  - apply Z.geb_le, Z.le_ngt. intros Hc0. destruct (hasInt32LowerBound_ r); [|lia]. specialize (Wl _ eq_refl). assert (0 < lower_ r * U) by (by apply Z.mul_pos_pos). lia.
  - apply Z.leb_le, Z.le_ngt. intros Hc0. destruct (hasInt32UpperBound_ r); [|lia]. specialize (Wh _ eq_refl). assert (upper_ r * U < 0) by (by apply Z.mul_neg_pos). lia.
Qed.

Lemma member_negative : sign_of a = true -> canHaveSignBitSet r = true.
Proof.
  intros Hs. destruct (contains_number _ _ Ha Na) as [[Wl _ _ _] Hz]. unfold canHaveSignBitSet, canBeFiniteNegative, lower_of in *. destruct (hasInt32LowerBound_ r); [|done]. cbn [negb orb].
  destruct (canBeNegativeZero_ r); [apply orb_true_r|]. rewrite orb_false_r. specialize (Wl _ eq_refl). pose proof (sign_nonpos a Hs) as Hn. destruct (Z.eq_dec (scaled a) 0) as [E|E].
  - exfalso. apply Hz; [done|]. apply negative_zero_bits; [done|by eapply contains_double|done].
  - apply Z.ltb_lt, Z.nle_gt. intros Hc. pose proof unit_pos. assert (0 <= lower_ r * U) by (apply Z.mul_nonneg_nonneg; lia). lia.
Qed.

Lemma member_nonnegative : 0 <= scaled a -> canBeFiniteNonNegative r = true.
Proof.
  intros Hn. destruct (contains_number _ _ Ha Na) as [[_ Wh _ _] _]. destruct Hr as [[] _]. unfold canBeFiniteNonNegative, upper_of in *. apply Z.geb_le, Z.le_ngt. intros Hc.
  destruct (hasInt32UpperBound_ r); [|lia]. specialize (Wh _ eq_refl). pose proof unit_pos. assert (upper_ r * U < 0) by (by apply Z.mul_neg_pos). lia.
Qed.

Lemma member_infinite : IsInfinite a = true -> 1024 <= max_exponent_ r /\ hasInt32Bounds r = false.
Proof.
  intros Hi. destruct (contains_number _ _ Ha Na) as [W _]. pose proof (contains_double _ _ Ha) as Hd. split.
  - apply Z.le_ngt. intros Hc. pose proof (within_finite _ _ _ _ _ Hd Na W ltac:(change MaxFiniteExponent with 1023; lia)) as Hf. apply finite_not_infinite in Hf. congruence.
  - destruct W as [Wl Wh _ _]. destruct Hr as [[] _]. unfold hasInt32Bounds, lower_of, upper_of in *. destruct (hasInt32LowerBound_ r), (hasInt32UpperBound_ r); try done. exfalso.
    specialize (Wl _ eq_refl). specialize (Wh _ eq_refl). pose proof (infinite_bound a (lower_ r) Hi (int32_below (lower_ r) ltac:(lia))). pose proof (infinite_bound a (upper_ r) Hi (int32_below (upper_ r) ltac:(lia))). destruct (sign_of a); lia.
Qed.

Lemma member_bounds : hasInt32Bounds r = true -> lower_ r * U <= scaled a <= upper_ r * U.
Proof.
  intros [H1 H2]%andb_true_iff. destruct (contains_number _ _ Ha Na) as [[Wl Wh _ _] _]. unfold lower_of, upper_of in *. rewrite H1, H2 in *. split; auto.
Qed.

Lemma member_below : max_exponent_ r <= 1023 -> Z.abs (scaled a) <= (2 ^ 53 - 1) * 2 ^ (max_exponent_ r + 1022).
Proof.
  intros He. destruct (contains_number _ _ Ha Na) as [W _]. pose proof (contains_double _ _ Ha) as Hd. assert (He' : max_exponent_ r <= MaxFiniteExponent) by (change MaxFiniteExponent with 1023; lia).
  destruct Hr as [[] _]. replace (max_exponent_ r + 1022) with (max_exponent_ r + 1 + 1021) by lia.
  apply below_power; [done|by eapply within_finite| |by eapply within_exponent]. apply exponent_nonneg in wf_exponent. lia.
Qed.
End Member.

Lemma raw_special l h f nz e s : 1024 <= e -> l < - 2 ^ 31 -> 2 ^ 31 <= h -> raw_contains l h f nz e (signed_infinity s) /\ (e = 65535 -> raw_contains l h f nz e GenericNaN).
Proof.
  intros He Hl Hh. split.
  - split; [apply signed_infinity_double|]. replace (IsNaN (signed_infinity s)) with false by (by destruct s). split_and!; try lia; [change MaxFiniteExponent with 1023; lia| |by destruct s].
    intros _. rewrite (infinite_scaled _ (signed_infinity_fields s)). by eexists.
  - intros ->. split; [apply GenericNaN_double|]. change (IsNaN GenericNaN) with true. cbn [IncludesInfinityAndNaN]. split; [done|lia].
Qed.

Section Product.
Context (lhs rhs : NumberRange) (Hl : well_formed lhs) (Hr : well_formed rhs).
#[local] Abbreviation e := (product_exponent lhs rhs).
#[local] Abbreviation f := (product_fraction lhs rhs).
#[local] Abbreviation missing := (MissingAnyInt32Bounds lhs rhs).
#[local] Abbreviation l := (if missing then NoInt32LowerBound else product_lower lhs rhs).
#[local] Abbreviation h := (if missing then NoInt32UpperBound else product_upper lhs rhs).

Lemma unbounded_exponent r : well_formed r -> hasInt32Bounds r = false -> 30 <= max_exponent_ r.
Proof. intros [[] _] H. specialize (wf_unbounded H). destruct (canHaveFractionalPart_ r); cbn [Z.b2z] in *; lia. Qed.

Lemma product_missing : missing = true -> 31 <= e.
Proof.
  intros H. destruct (product_exponent_cases lhs rhs Hl Hr) as (_ & _ & Hlow & _). pose proof (exponent_nonneg _ (wf_exponent _ (proj1 Hl))). pose proof (exponent_nonneg _ (wf_exponent _ (proj1 Hr))).
  apply orb_true_iff in H as [H|H]; apply negb_true_iff in H; [pose proof (unbounded_exponent lhs Hl H)|pose proof (unbounded_exponent rhs Hr H)]; lia.
Qed.

Lemma product_corner v w : v = lower_ lhs \/ v = upper_ lhs -> w = lower_ rhs \/ w = upper_ rhs -> raw_bound e f (v * w).
Proof.
  intros Hv Hw. destruct (product_exponent_cases lhs rhs Hl Hr) as (_ & _ & Hlow & _). pose proof (exponent_nonneg _ (wf_exponent _ (proj1 Hl))). pose proof (exponent_nonneg _ (wf_exponent _ (proj1 Hr))).
  destruct Hl as [[_ ? ? _ _ _ ? ? _] _], Hr as [[_ ? ? _ _ _ ? ? _] _].
  apply (raw_bound_mul (max_exponent_ lhs) (canHaveFractionalPart_ lhs) v (max_exponent_ rhs) (canHaveFractionalPart_ rhs) w); [done|done|done|by destruct Hv as [-> | ->]|by destruct Hw as [-> | ->]|lia|lia].
Qed.

Lemma product_raw_bounds : raw_bound e f l /\ raw_bound e f h.
Proof.
  pose proof product_missing as Hm. destruct missing; [split; left; auto|]. unfold product_lower, product_upper. split.
  - repeat (match goal with |- context [Z.min ?x ?y] => destruct (Z.min_dec x y) as [-> | ->] end); apply product_corner; auto.
  - repeat (match goal with |- context [Z.max ?x ?y] => destruct (Z.max_dec x y) as [-> | ->] end); apply product_corner; auto.
Qed.

(** Both bounds equal, and a fraction: a factor is zero. *)
Lemma product_point : missing = false -> f = true -> product_lower lhs rhs = product_upper lhs rhs -> product_lower lhs rhs = 0.
Proof.
  intros Hm Hf E. apply orb_false_iff in Hm as [H1%negb_false_iff H2%negb_false_iff]. destruct Hl as [[] [Fl _]], Hr as [[] [Fr _]]. unfold product_lower, product_upper in *.
  assert (E1 : lower_ lhs * lower_ rhs = lower_ lhs * upper_ rhs) by lia. assert (E2 : lower_ lhs * lower_ rhs = upper_ lhs * lower_ rhs) by lia.
  assert (E3 : lower_ lhs * lower_ rhs = 0); [|lia]. apply orb_true_iff in Hf as [Hf|Hf].
  - specialize (Fl Hf H1). assert (E4 : (upper_ lhs - lower_ lhs) * lower_ rhs = 0) by lia. apply Z.mul_eq_0 in E4 as [?|E4]; [lia|rewrite E4; lia].
  - specialize (Fr Hf H2). assert (E4 : lower_ lhs * (upper_ rhs - lower_ rhs) = 0) by lia. apply Z.mul_eq_0 in E4 as [E4|?]; [rewrite E4; lia|lia].
Qed.

Lemma product_range_ok nz : exists r, new_Range l h f nz e = mret r /\ well_formed r /\ forall d, raw_contains l h f nz e d -> contains r d.
Proof.
  destruct (product_exponent_cases lhs rhs Hl Hr) as (He & _). destruct product_raw_bounds as [Bl Bh]. assert (Hlh : l <= h). { destruct missing; [done|]. unfold product_lower, product_upper. lia. }
  apply new_Range_ok; [done|by left|lia|lia|done|done|]. intros Hf E. pose proof product_missing as Hm. pose proof product_point as Hp. destruct missing; [left; auto|]. right. rewrite (Hp eq_refl Hf E).
  apply exponent_nonneg in He. cbn [Z.abs]. apply pow_pos. lia.
Qed.

Section Members.
Context (a b : Z) (Ha : contains lhs a) (Hb : contains rhs b).
#[local] Abbreviation nz := (negativeZeroMul lhs rhs).

Lemma product_special : IsNaN a = true \/ IsNaN b = true \/ IsInfinite a = true \/ IsInfinite b = true -> 1024 <= e /\ missing = true.
Proof.
  intros H. destruct (product_exponent_cases lhs rhs Hl Hr) as (_ & Hfin & _). assert (Hx : (1024 <= max_exponent_ lhs /\ hasInt32Bounds lhs = false) \/ (1024 <= max_exponent_ rhs /\ hasInt32Bounds rhs = false)).
  { destruct (IsNaN a) eqn:Na; [left|destruct (IsNaN b) eqn:Nb; [right|]].
    - destruct Ha as [_ Hx]. rewrite Na in Hx. destruct Hx as [Hx%Z.eqb_eq ?]. change IncludesInfinityAndNaN with 65535 in Hx. split; [lia|done].
    - destruct Hb as [_ Hx]. rewrite Nb in Hx. destruct Hx as [Hx%Z.eqb_eq ?]. change IncludesInfinityAndNaN with 65535 in Hx. split; [lia|done].
    - destruct H as [?|[?|[Hi|Hi]]]; [done|done|left; by apply (member_infinite lhs a)|right; by apply (member_infinite rhs b)]. }
  unfold MissingAnyInt32Bounds. destruct Hx as [[? ->]|[? ->]]; (split; [lia|]); [done|apply orb_true_r].
Qed.

Lemma product_magnitude : IsFinite a = true -> IsFinite b = true -> e <= MaxFiniteExponent -> Z.abs (scaled a * scaled b) <= (2 ^ 53 - 1) * 2 ^ (e + 1022) * U.
Proof.
  intros Fa Fb He. destruct (product_exponent_cases lhs rhs Hl Hr) as (_ & Hfin & _). destruct (Hfin He) as (E1 & E2 & E3). rewrite E3.
  pose proof (member_below lhs a Hl Ha (finite_not_nan a Fa) E1) as H1. pose proof (member_below rhs b Hr Hb (finite_not_nan b Fb) E2) as H2.
  pose proof (exponent_nonneg _ (wf_exponent _ (proj1 Hl))). pose proof (exponent_nonneg _ (wf_exponent _ (proj1 Hr))). set (x := max_exponent_ lhs) in *. set (y := max_exponent_ rhs) in *. clearbody x y.
  rewrite Z.abs_mul. apply Z.le_trans with ((2 ^ 53 - 1) * 2 ^ (x + 1022) * ((2 ^ 53 - 1) * 2 ^ (y + 1022))); [apply Z.mul_le_mono_nonneg; lia|].
  replace (x + y + 1 + 1022) with (x + 1022 + (y + 1)) by lia. rewrite (Z.pow_add_r 2 (x + 1022) (y + 1)) by lia. rewrite <- !Z.mul_assoc, <- (Z.pow_add_r 2 (y + 1)) by lia.
  replace (y + 1 + 1074) with (53 + (y + 1022)) by lia. rewrite (Z.pow_add_r 2 53) by lia. apply Z.mul_le_mono_nonneg_l; [lia|]. apply Z.mul_le_mono_nonneg_l; [apply Z.pow_nonneg; lia|]. apply Z.mul_le_mono_nonneg_r; [apply Z.pow_nonneg; lia|lia].
Qed.

Lemma product_whole : IsNaN a = false -> IsNaN b = false -> f = false -> exists n, scaled a * scaled b = n * U * U.
Proof.
  intros Na Nb [H1 H2]%orb_false_iff. destruct (contains_number _ _ Ha Na) as [[_ _ _ Wa] _]. destruct (contains_number _ _ Hb Nb) as [[_ _ _ Wb] _].
  destruct (Wa H1) as [n ->], (Wb H2) as [m ->]. exists (n * m). ring.
Qed.

Lemma finite_product : IsFinite a = true -> IsFinite b = true -> raw_contains l h f nz e (double_mul a b).
Proof.
  intros Fa Fb. pose proof (finite_not_nan a Fa) as Na. pose proof (finite_not_nan b Fb) as Nb. unfold double_mul. rewrite Na, Nb, (finite_not_infinite a), (finite_not_infinite b) by done. cbn [orb].
  set (s := xorb (sign_of a) (sign_of b)). pose proof (scaled_magnitude_nonneg a) as Ma. pose proof (scaled_magnitude_nonneg b) as Mb. pose proof unit_pos as Hu.
  assert (Hp : 0 <= scaled_magnitude a * scaled_magnitude b) by (by apply Z.mul_nonneg_nonneg). destruct (round_ratio_fields s _ U Hp Hu) as (Hs & _).
  assert (R : rounded (scaled a * scaled b) U (round_ratio s (scaled_magnitude a * scaled_magnitude b) U)).
  { apply round_ratio_rounded; [done|done|]. unfold scaled, s. destruct (sign_of a), (sign_of b); cbn [signed xorb]; ring. }
  set (d := round_ratio s _ U) in *. clearbody d. destruct (product_exponent_cases lhs rhs Hl Hr) as (He & Hfin & _).
  assert (Hb4 : missing = false -> product_lower lhs rhs * U * U <= scaled a * scaled b <= product_upper lhs rhs * U * U).
  { intros [H1%negb_false_iff H2%negb_false_iff]%orb_false_iff. unfold product_lower, product_upper. apply (corner_scaled U _ _ (lower_ lhs) (upper_ lhs) (lower_ rhs) (upper_ rhs)); [done|by apply member_bounds|by apply member_bounds|lia..]. }
  assert (Hscale : forall v w, v <= w -> v * U * U <= w * U * U) by (intros; rewrite <- !Z.mul_assoc; apply Z.mul_le_mono_nonneg_r; [apply Z.mul_nonneg_nonneg|]; lia).
  assert (W : within U None None f e (scaled d)).
  { apply (rounded_within _ _ _ _ _ _ _ R); [by apply exponent_nonneg|done|done|by apply product_magnitude|by apply product_whole]. }
  split; [exact (rounded_double _ _ _ R)|]. rewrite (rounded_number _ _ _ R). split_and!; [| |apply W|apply W|].
  - intros Hlo. destruct missing; [done|]. destruct (Hb4 eq_refl) as [H1 _]. apply (rounded_ge _ _ _ R); [unfold small; lia|]. apply Z.le_trans with (2 := H1). apply Hscale. lia.
  - intros Hhi. destruct missing; [done|]. destruct (Hb4 eq_refl) as [_ H1]. apply (rounded_le _ _ _ R); [unfold small; lia|]. apply Z.le_trans with (1 := H1). apply Hscale. lia.
  - intros Hz ->. change (sign_of kSignBit) with true in Hs. unfold s in Hs. revert Hz. unfold nz. apply eq_true_false_abs. unfold negativeZeroMul. apply orb_true_iff.
    destruct (sign_of a) eqn:Sa, (sign_of b) eqn:Sb; try done; [left|right]; apply andb_true_iff; (split; [by eapply member_negative|]); [apply (member_nonnegative rhs b)|apply (member_nonnegative lhs a)]; auto using sign_nonneg.
Qed.

Lemma product_contains : raw_contains l h f nz e (double_mul a b).
Proof.
  destruct (IsFinite a && IsFinite b) eqn:Hf; [apply andb_true_iff in Hf as [? ?]; by apply finite_product|].
  assert (Hx : IsNaN a = true \/ IsNaN b = true \/ IsInfinite a = true \/ IsInfinite b = true) by (destruct (classify a) as [?|[?|?]], (classify b) as [?|[?|?]]; auto; exfalso; by rewrite H, H0 in Hf).
  destruct (product_special Hx) as [He Hm]. rewrite Hm. destruct (product_exponent_cases lhs rhs Hl Hr) as (_ & _ & _ & Hnan). unfold double_mul.
  destruct (raw_special NoInt32LowerBound NoInt32UpperBound f nz e (xorb (sign_of a) (sign_of b)) He ltac:(done) ltac:(done)) as [Hinf HN].
  destruct (IsNaN a) eqn:Na; [|destruct (IsNaN b) eqn:Nb]; cbn [orb].
  - apply HN, Hnan. left. by apply (contains_nan lhs a).
  - apply HN, Hnan. right. left. by apply (contains_nan rhs b).
  - assert (Hi : IsInfinite a || IsInfinite b = true) by (destruct Hx as [?|[?|[-> | ->]]]; [done|done|done|apply orb_true_r]). rewrite Hi.
    destruct (double_is_zero a || double_is_zero b) eqn:Hz; [|done]. apply HN, Hnan. right. right. apply orb_true_iff in Hi, Hz.
    destruct Hz as [Hz|Hz]; pose proof (proj1 (double_is_zero_iff _) Hz) as Hz0; [left|right].
    + destruct Hi as [Hi|Hi]; [rewrite (infinite_not_zero a Hi) in Hz; done|]. split; [by apply (member_zero lhs a)|by apply (member_infinite rhs b)].
    + destruct Hi as [Hi|Hi]; [|rewrite (infinite_not_zero b Hi) in Hz; done]. split; [by apply (member_zero rhs b)|by apply (member_infinite lhs a)].
Qed.
End Members.
End Product.

Lemma range_mul_sound : sound2 range_mul double_mul.
Proof.
  intros lhs rhs Hl Hr. rewrite range_mul_eq. destruct (product_range_ok lhs rhs Hl Hr (negativeZeroMul lhs rhs)) as (r & E & Hw & Hc).
  exists r. split; [done|]. split; [done|]. intros a b Ha Hb. by apply Hc, product_contains.
Qed.
