(* ===== verification/RangeLattice.v ===== *)
(** Joins and meets of ranges, and the functions of Math that choose between
    or fold numbers. *)
From S2P Require Import Prelude Words CheckedArithmetic FloatingPoint BigIntRep BigIntMul Conversions BigIntDouble DoubleArith DoubleWhole DoubleOrder RangeAnalysis RangeInv RangeArith RangeProduct.

#[local] Abbreviation U := (2 ^ 1074).

(** * Tools *)

(** A bound stays good in a wider range. *)
Lemma bound_ok_mono r r' v w : bound_ok r v -> 0 <= max_exponent_ r -> max_exponent_ r <= max_exponent_ r' -> (canHaveFractionalPart_ r = true -> canHaveFractionalPart_ r' = true) ->
  Z.abs w <= Z.abs v -> bound_ok r' w.
Proof.
  intros H H0 He Hf Hw. unfold bound_ok in *. pose proof (pow_le (max_exponent_ r + 1) (max_exponent_ r' + 1) ltac:(lia)).
  destruct H as [?|[?|[? ?]]]; [left; lia|right; left; lia|right; right; split; [auto|lia]].
Qed.

(** A sharper form of [contains]. *)
Lemma contains_intro r d : is_double d -> IsNaN d = false -> fits U r (scaled d) -> (canBeNegativeZero_ r = false -> d <> kSignBit) -> contains r d.
Proof. intros. split; [done|]. by rewrite H0. Qed.

Lemma contains_elim r d : contains r d -> IsNaN d = false -> fits U r (scaled d) /\ (canBeNegativeZero_ r = false -> d <> kSignBit).
Proof. intros [_ H] Hn. by rewrite Hn in H. Qed.

Lemma contains_intro_nan r d : is_double d -> IsNaN d = true -> max_exponent_ r = IncludesInfinityAndNaN -> hasInt32Bounds r = false -> contains r d.
Proof. intros. split; [done|]. rewrite H0. split; [by apply Z.eqb_eq|done]. Qed.

Lemma contains_elim_nan r d : contains r d -> IsNaN d = true -> max_exponent_ r = IncludesInfinityAndNaN /\ hasInt32Bounds r = false.
Proof. intros [_ H] Hn. rewrite Hn in H. destruct H as [?%Z.eqb_eq ?]. done. Qed.

(** [a] is in every range that allows whatever [r] allows. *)
Lemma contains_mono r r' d : contains r d ->
  (hasInt32LowerBound_ r' = true -> hasInt32LowerBound_ r = true /\ lower_ r' <= lower_ r) ->
  (hasInt32UpperBound_ r' = true -> hasInt32UpperBound_ r = true /\ upper_ r <= upper_ r') ->
  (canHaveFractionalPart_ r' = false -> canHaveFractionalPart_ r = false) -> (canBeNegativeZero_ r' = false -> canBeNegativeZero_ r = false) ->
  0 <= max_exponent_ r -> max_exponent_ r <= max_exponent_ r' -> max_exponent_ r' <= IncludesInfinityAndNaN -> contains r' d.
Proof.
  intros Hd Hl Hu Hf Hz H0 He Hm. pose proof (contains_double _ _ Hd) as Dd. destruct (IsNaN d) eqn:Hn.
  - destruct (contains_elim_nan _ _ Hd Hn) as [E Hb]. apply contains_intro_nan; [done|done|lia|]. apply not_true_iff_false. intros [H1 H2]%andb_true_iff.
    destruct (Hl H1) as [H3 _], (Hu H2) as [H4 _]. unfold hasInt32Bounds in Hb. by rewrite H3, H4 in Hb.
  - destruct (contains_elim _ _ Hd Hn) as [[Fl Fu Fe Fw] Hnz]. pose proof unit_pos. apply contains_intro; [done|done| |auto]. split.
    + intros H1. destruct (Hl H1) as [H2 H3]. specialize (Fl H2). apply Z.le_trans with (2 := Fl). apply Z.mul_le_mono_nonneg_r; lia.
    + intros H1. destruct (Hu H1) as [H2 H3]. specialize (Fu H2). apply Z.le_trans with (1 := Fu). apply Z.mul_le_mono_nonneg_r; lia.
    + intros H1. specialize (Fe ltac:(lia)). apply Z.lt_le_trans with (1 := Fe). apply Z.mul_le_mono_nonneg_r; [lia|]. apply pow_le. lia.
    + auto.
Qed.

Lemma valid_exponent_max a b : valid_exponent a -> valid_exponent b -> valid_exponent (Z.max a b).
Proof. unfold valid_exponent. change IncludesInfinityAndNaN with 65535. lia. Qed.

Lemma valid_exponent_min a b : valid_exponent a -> valid_exponent b -> valid_exponent (Z.min a b).
Proof. unfold valid_exponent. change IncludesInfinityAndNaN with 65535. lia. Qed.

Lemma valid_exponent_le a : valid_exponent a -> a <= IncludesInfinityAndNaN.
Proof. unfold valid_exponent. change IncludesInfinityAndNaN with 65535. lia. Qed.

(** The widest range over two. *)
Record joins (a b r : NumberRange) : Prop := {
  joins_fraction : canHaveFractionalPart_ r = canHaveFractionalPart_ a || canHaveFractionalPart_ b;
  joins_exponent : max_exponent_ r = Z.max (max_exponent_ a) (max_exponent_ b);
}.

Lemma joins_bound a b r v w : consistent a -> consistent b -> joins a b r ->
  (v = lower_ a \/ v = upper_ a \/ v = lower_ b \/ v = upper_ b) -> Z.abs w <= Z.abs v -> bound_ok r w.
Proof.
  intros [] [] [Jf Je] Hv Hw. destruct Hv as [-> | [-> | [-> | ->]]]; [apply (bound_ok_mono a r (lower_ a))|apply (bound_ok_mono a r (upper_ a))|apply (bound_ok_mono b r (lower_ b))|apply (bound_ok_mono b r (upper_ b))];
    rewrite ?Jf, ?Je; try done; try (by apply exponent_nonneg); try lia; intros ->; by rewrite ?orb_true_r.
Qed.

Lemma joins_unbounded a b r : consistent a -> consistent b -> joins a b r -> hasInt32Bounds a = false \/ hasInt32Bounds b = false -> 31 <= max_exponent_ r + Z.b2z (canHaveFractionalPart_ r).
Proof.
  intros [] [] [-> ->] [H|H]; [specialize (wf_unbounded H)|specialize (wf_unbounded0 H)]; destruct (canHaveFractionalPart_ a), (canHaveFractionalPart_ b); cbn [Z.b2z orb] in *; lia.
Qed.

(** * Joins *)

Section Union.
Context (r other : NumberRange) (Hr : well_formed r) (Ho : well_formed other).

Definition union_range : NumberRange :=
  MkNumberRange (Z.min (lower_ r) (lower_ other)) (Z.max (upper_ r) (upper_ other)) (hasInt32LowerBound_ r && hasInt32LowerBound_ other) (hasInt32UpperBound_ r && hasInt32UpperBound_ other)
    (canHaveFractionalPart_ r || canHaveFractionalPart_ other) (canBeNegativeZero_ r || canBeNegativeZero_ other) (Z.max (max_exponent_ r) (max_exponent_ other)).

Lemma union_consistent : consistent union_range.
Proof.
  destruct Hr as [Cr _], Ho as [Co _]. assert (J : joins r other union_range) by (split; done). pose proof (joins_bound r other union_range) as Jb. pose proof (joins_unbounded r other union_range Cr Co J) as Ju.
  split; cbn [union_range lower_ upper_ hasInt32LowerBound_ hasInt32UpperBound_].
  - destruct Cr, Co. lia.
  - destruct Cr, Co. lia.
  - destruct Cr, Co. lia.
  - destruct Cr, Co. intros [H|H]%andb_false_iff; [rewrite wf_no_lower by done|rewrite wf_no_lower0 by done]; lia.
  - destruct Cr, Co. intros [H|H]%andb_false_iff; [rewrite wf_no_upper by done|rewrite wf_no_upper0 by done]; lia.
  - destruct Cr, Co. by apply valid_exponent_max.
  - destruct (Z.min_dec (lower_ r) (lower_ other)) as [-> | ->]; [apply (Jb (lower_ r))|apply (Jb (lower_ other))]; auto; done.
  - destruct (Z.max_dec (upper_ r) (upper_ other)) as [-> | ->]; [apply (Jb (upper_ r))|apply (Jb (upper_ other))]; auto; done.
  - intros H. apply Ju. unfold hasInt32Bounds in *. cbn in H. by destruct (hasInt32LowerBound_ r), (hasInt32UpperBound_ r), (hasInt32LowerBound_ other), (hasInt32UpperBound_ other); auto.
Qed.

Lemma union_point : point_ok union_range.
Proof.
  intros Hf Hb E. exfalso. unfold hasInt32Bounds in Hb. cbn in *. apply andb_true_iff in Hb as [[H1 H2]%andb_true_iff [H3 H4]%andb_true_iff].
  destruct Hr as [[] [Fr _]], Ho as [[] [Fo _]]. unfold hasInt32Bounds in *. rewrite H1, H2, H3, H4 in *. apply orb_true_iff in Hf as [Hf|Hf]; [specialize (Fr Hf eq_refl)|specialize (Fo Hf eq_refl)]; lia.
Qed.

Lemma unionWith_ok : exists q, unionWith r other = mret q /\ well_formed q /\ forall d, contains r d \/ contains other d -> contains q d.
Proof.
  destruct (optimize_ok _ union_consistent union_point) as (q & Hq & Hw & Hc). exists q. split; [exact Hq|]. split; [done|]. intros d Hd. apply Hc. destruct Hr as [[] _], Ho as [[] _]. destruct Hd as [Hd|Hd].
  - apply (contains_mono r); [done|..]; cbn [union_range lower_ upper_ hasInt32LowerBound_ hasInt32UpperBound_ canHaveFractionalPart_ canBeNegativeZero_ max_exponent_]; intros; bsplit; try (by split; [done|lia]); try done; try (by apply exponent_nonneg); [lia|by apply valid_exponent_le, valid_exponent_max].
  - apply (contains_mono other); [done|..]; cbn [union_range lower_ upper_ hasInt32LowerBound_ hasInt32UpperBound_ canHaveFractionalPart_ canBeNegativeZero_ max_exponent_]; intros; bsplit; try (by split; [done|lia]); try done; try (by apply exponent_nonneg); [lia|by apply valid_exponent_le, valid_exponent_max].
Qed.
End Union.

(** * Meets *)

Lemma limit_eq e : 0 <= e < 31 -> int32 (uint32 (uint32 (Z.shiftl 1 (e + 1)) - 1)) = 2 ^ (e + 1) - 1.
Proof.
  intros He. rewrite Z.shiftl_1_l. pose proof (pow_le (e + 1) 31 ltac:(lia)) as H1. pose proof (pow_pos (e + 1) ltac:(lia)) as H2. set (p := 2 ^ (e + 1)) in *. clearbody p.
  assert (E : uint32 (uint32 p - 1) = p - 1) by (unfold uint32; rewrite (Z.mod_small p), Z.mod_small by lia; done).
  rewrite E. apply int32_id. unfold is_int32. lia.
Qed.

Definition meet_exponent (lhs rhs : NumberRange) : Z := Z.min (max_exponent_ lhs) (max_exponent_ rhs).
Definition meet_fraction (lhs rhs : NumberRange) : bool := canHaveFractionalPart_ lhs && canHaveFractionalPart_ rhs.
Definition meet_zero (lhs rhs : NumberRange) : bool := canBeNegativeZero_ lhs && canBeNegativeZero_ rhs.
Definition meet_lower (lhs rhs : NumberRange) : Z := Z.max (lower_ lhs) (lower_ rhs).
Definition meet_upper (lhs rhs : NumberRange) : Z := Z.min (upper_ lhs) (upper_ rhs).
Definition meet_has_lower (lhs rhs : NumberRange) : bool := hasInt32LowerBound_ lhs || hasInt32LowerBound_ rhs.
Definition meet_has_upper (lhs rhs : NumberRange) : bool := hasInt32UpperBound_ lhs || hasInt32UpperBound_ rhs.
Definition meet_refine (lhs rhs : NumberRange) : bool :=
  negb (Bool.eqb (canHaveFractionalPart_ lhs) (canHaveFractionalPart_ rhs)) ||
  (canHaveFractionalPart_ lhs && meet_has_lower lhs rhs && meet_has_upper lhs rhs && (meet_lower lhs rhs =? meet_upper lhs rhs)).
Definition meet_limit (lhs rhs : NumberRange) : Z := 2 ^ (meet_exponent lhs rhs + 1) - 1.

Definition meet_range (lhs rhs : NumberRange) : NumberRange :=
  if meet_refine lhs rhs && (meet_exponent lhs rhs <? 31) then
    MkNumberRange (Z.max (meet_lower lhs rhs) (- meet_limit lhs rhs)) (Z.min (meet_upper lhs rhs) (meet_limit lhs rhs)) true true (meet_fraction lhs rhs) (meet_zero lhs rhs) (meet_exponent lhs rhs)
  else MkNumberRange (meet_lower lhs rhs) (meet_upper lhs rhs) (meet_has_lower lhs rhs) (meet_has_upper lhs rhs) (meet_fraction lhs rhs) (meet_zero lhs rhs) (meet_exponent lhs rhs).

Section Meet.
Context (lhs rhs : NumberRange) (Hl : well_formed lhs) (Hr : well_formed rhs).
#[local] Abbreviation me := (meet_exponent lhs rhs).
#[local] Abbreviation mf := (meet_fraction lhs rhs).
#[local] Abbreviation mz := (meet_zero lhs rhs).
#[local] Abbreviation ml := (meet_lower lhs rhs).
#[local] Abbreviation mh := (meet_upper lhs rhs).
#[local] Abbreviation mlb := (meet_has_lower lhs rhs).
#[local] Abbreviation mhb := (meet_has_upper lhs rhs).
#[local] Abbreviation refine := (meet_refine lhs rhs).
#[local] Abbreviation limit := (meet_limit lhs rhs).

Lemma me_nonneg : 0 <= me.
Proof. unfold meet_exponent. destruct Hl as [[] _], Hr as [[] _]. apply exponent_nonneg in wf_exponent, wf_exponent0. lia. Qed.

(** A number of both ranges. *)
Record common (u x : Z) : Prop := {
  common_lower : mlb = true -> ml * u <= x;
  common_upper : mhb = true -> x <= mh * u;
  common_exponent : me <= MaxFiniteExponent -> Z.abs x < 2 ^ (me + 1) * u;
  common_whole : mf = false -> exists n, x = n * u;
}.

Lemma fits_common u x : 0 < u -> fits u lhs x -> fits u rhs x -> common u x.
Proof.
  intros Hu [L1 U1 E1 W1] [L2 U2 E2 W2]. destruct Hl as [C1 _], Hr as [C2 _]. split.
  - unfold meet_has_lower, meet_lower. intros H. destruct (hasInt32LowerBound_ lhs) eqn:B1, (hasInt32LowerBound_ rhs) eqn:B2; try done.
    + destruct (Z.max_dec (lower_ lhs) (lower_ rhs)) as [-> | ->]; auto.
    + rewrite Z.max_l; [auto|]. rewrite (wf_no_lower _ C2 B2). destruct C1. lia.
    + rewrite Z.max_r; [auto|]. rewrite (wf_no_lower _ C1 B1). destruct C2. lia.
  - unfold meet_has_upper, meet_upper. intros H. destruct (hasInt32UpperBound_ lhs) eqn:B1, (hasInt32UpperBound_ rhs) eqn:B2; try done.
    + destruct (Z.min_dec (upper_ lhs) (upper_ rhs)) as [-> | ->]; auto.
    + rewrite Z.min_l; [auto|]. rewrite (wf_no_upper _ C2 B2). destruct C1. lia.
    + rewrite Z.min_r; [auto|]. rewrite (wf_no_upper _ C1 B1). destruct C2. lia.
  - unfold meet_exponent. intros H. destruct (Z.min_dec (max_exponent_ lhs) (max_exponent_ rhs)) as [E|E]; rewrite E in *; auto.
  - unfold meet_fraction. intros [H|H]%andb_false_iff; auto.
Qed.

(** Refining is for numbers without a fraction. *)
Lemma refine_whole u x : 0 < u -> common u x -> refine = true -> exists n, x = n * u.
Proof.
  intros Hu [L H E W] [Hc|Hc]%orb_true_iff.
  - apply W. unfold meet_fraction. destruct (canHaveFractionalPart_ lhs), (canHaveFractionalPart_ rhs); done.
  - bsplit. exists ml. specialize (L ltac:(done)). specialize (H ltac:(done)). assert (Heq : ml = mh) by lia. rewrite <- Heq in H. lia.
Qed.

Lemma common_fits u x : 0 < u -> common u x -> fits u (meet_range lhs rhs) x.
Proof.
  intros Hu Hc. unfold meet_range. destruct (refine && (me <? 31)) eqn:Hre; [|by destruct Hc].
  apply andb_true_iff in Hre as [Href Hlt%Z.ltb_lt]. pose proof (refine_whole u x Hu Hc Href) as [n Hn]. destruct Hc as [L H E W]. pose proof me_nonneg.
  pose proof (E ltac:(change MaxFiniteExponent with 1023; lia)) as E'. rewrite Hn, Z.abs_mul, (Z.abs_eq u) in E' by lia. apply Z.mul_lt_mono_pos_r in E'; [|done].
  assert (Hlow : ml * u <= x). { destruct mlb eqn:B; [auto|]. rewrite Hn. apply Z.mul_le_mono_nonneg_r; [lia|]. pose proof (pow_le (me + 1) 31 ltac:(lia)).
    unfold meet_has_lower, meet_lower in *. apply orb_false_iff in B as [B1 B2]. rewrite (wf_no_lower _ (proj1 Hl) B1), (wf_no_lower _ (proj1 Hr) B2). lia. }
  assert (Hhigh : x <= mh * u). { destruct mhb eqn:B; [auto|]. rewrite Hn. apply Z.mul_le_mono_nonneg_r; [lia|]. pose proof (pow_le (me + 1) 31 ltac:(lia)).
    unfold meet_has_upper, meet_upper in *. apply orb_false_iff in B as [B1 B2]. rewrite (wf_no_upper _ (proj1 Hl) B1), (wf_no_upper _ (proj1 Hr) B2). lia. }
  rewrite Hn in Hlow, Hhigh. apply Z.mul_le_mono_pos_r in Hlow, Hhigh; [|done..]. unfold meet_limit. split; cbn [lower_ upper_ max_exponent_ canHaveFractionalPart_]; [intros _|intros _|done|done]; rewrite Hn; apply Z.mul_le_mono_nonneg_r; lia.
Qed.

(** The rules for a refined meet and for a plain one. *)
Lemma meet_range_refined : refine = true -> me < 31 -> ml <= mh -> Z.max ml (- limit) <= Z.min mh limit -> consistent (meet_range lhs rhs) /\ point_ok (meet_range lhs rhs).
Proof.
  intros Href He Hlh Hne. unfold meet_range. rewrite Href. replace (me <? 31) with true by lia. cbn [andb]. pose proof me_nonneg as H0. pose proof (pow_le (me + 1) 31 ltac:(lia)) as Hp. pose proof (pow_pos (me + 1) ltac:(lia)).
  assert (Hv : valid_exponent me) by (destruct Hl as [[] _], Hr as [[] _]; by apply valid_exponent_min). unfold meet_limit in *. set (p := 2 ^ (me + 1)) in *.
  split; [split|]; unfold bound_ok, point_ok, hasInt32Bounds; cbn [lower_ upper_ hasInt32LowerBound_ hasInt32UpperBound_ canHaveFractionalPart_ max_exponent_]; fold p; clearbody p; (done || lia).
Qed.

Lemma raw_bound_iff e f v : e < 31 -> raw_bound e f v <-> Z.abs v <= 2 ^ (e + 1) /\ (f = false -> Z.abs v < 2 ^ (e + 1)).
Proof.
  intros He. unfold raw_bound. set (p := 2 ^ (e + 1)). clearbody p. split.
  - intros [?|[?|[-> ?]]]; [lia|split; [lia|done]|split; [done|done]].
  - intros [H1 H2]. destruct f; [right; right; done|right; left; auto].
Qed.

Lemma raw_bound_between e f l h v : raw_bound e f l -> raw_bound e f h -> l <= v <= h -> raw_bound e f v.
Proof.
  intros Hbl Hbh Hv. destruct (Z.le_gt_cases 31 e) as [|Hs]; [by left|]. rewrite raw_bound_iff in * by done. set (p := 2 ^ (e + 1)) in *. clearbody p.
  destruct Hbl as [A1 A2], Hbh as [B1 B2]. split; [lia|]. intros Hf. specialize (A2 Hf). specialize (B2 Hf). lia.
Qed.

Lemma meet_bound v : refine = false -> ml <= mh -> v = ml \/ v = mh -> raw_bound me mf v.
Proof.
  intros Href Hlh Hv. apply orb_false_iff in Href as [Hf%negb_false_iff%eqb_prop _]. destruct Hl as [[_ _ _ _ _ _ L7 L8 _] _], Hr as [[_ _ _ _ _ _ R7 R8 _] _].
  unfold meet_fraction, meet_exponent, meet_lower, meet_upper in *. rewrite Hf, andb_diag. destruct (Z.min_dec (max_exponent_ lhs) (max_exponent_ rhs)) as [-> | ->].
  - rewrite <- Hf. apply (raw_bound_between _ _ _ _ v L7 L8). lia.
  - apply (raw_bound_between _ _ _ _ v R7 R8). lia.
Qed.

Lemma meet_range_plain : refine = false \/ 31 <= me -> ml <= mh -> consistent (meet_range lhs rhs) /\ point_ok (meet_range lhs rhs).
Proof.
  intros Hre Hlh. unfold meet_range. replace (refine && (me <? 31)) with false by (destruct Hre as [-> | ?]; [done|replace (me <? 31) with false by lia; by rewrite andb_false_r]).
  assert (Hb : forall v, v = ml \/ v = mh -> raw_bound me mf v) by (intros v Hv; destruct Hre as [Href|?]; [by apply meet_bound|by left]).
  split; [split|]; unfold point_ok, bound_ok; cbn [lower_ upper_ hasInt32LowerBound_ hasInt32UpperBound_ canHaveFractionalPart_ max_exponent_].
  - done.
  - unfold meet_lower. destruct Hl as [[] _], Hr as [[] _]. lia.
  - unfold meet_upper. destruct Hl as [[] _], Hr as [[] _]. lia.
  - unfold meet_has_lower, meet_lower. intros [H1 H2]%orb_false_iff. by rewrite (wf_no_lower _ (proj1 Hl) H1), (wf_no_lower _ (proj1 Hr) H2).
  - unfold meet_has_upper, meet_upper. intros [H1 H2]%orb_false_iff. by rewrite (wf_no_upper _ (proj1 Hl) H1), (wf_no_upper _ (proj1 Hr) H2).
  - destruct Hl as [[] _], Hr as [[] _]; by apply valid_exponent_min.
  - by apply Hb; left.
  - by apply Hb; right.
  - unfold hasInt32Bounds. cbn. intros H. destruct Hre as [Href|?]; [|destruct mf; cbn [Z.b2z]; lia]. apply orb_false_iff in Href as [Hf%negb_false_iff%eqb_prop _].
    assert (Hm : hasInt32Bounds lhs = false /\ hasInt32Bounds rhs = false). { unfold meet_has_lower, meet_has_upper, hasInt32Bounds in *. destruct (hasInt32LowerBound_ lhs), (hasInt32UpperBound_ lhs), (hasInt32LowerBound_ rhs), (hasInt32UpperBound_ rhs); done. }
    destruct Hm as [H1 H2]. pose proof (wf_unbounded _ (proj1 Hl) H1). pose proof (wf_unbounded _ (proj1 Hr) H2). unfold meet_exponent, meet_fraction. rewrite Hf in *. rewrite andb_diag. lia.
  - intros Hf Hbo E. destruct Hre as [Href|?]; [|by left]. exfalso. apply orb_false_iff in Href as [_ Href]. unfold hasInt32Bounds in Hbo. cbn in Hbo. apply andb_true_iff in Hbo as [B1 B2]. unfold meet_fraction in Hf. apply andb_true_iff in Hf as [Hf _].
    rewrite Hf, B1, B2, E, Z.eqb_refl in Href. done.
Qed.

(** Numbers of both ranges. *)
Lemma common_number d : contains lhs d -> contains rhs d -> IsNaN d = false -> common U (scaled d).
Proof. intros Ha Hb Hn. apply fits_common; [exact unit_pos|by apply contains_elim|by apply contains_elim]. Qed.

Lemma meet_empty : mh < ml -> negb (canBeNaN lhs) || negb (canBeNaN rhs) = true -> forall d, contains lhs d -> contains rhs d -> False.
Proof.
  intros Hlt Hnan d Ha Hb. destruct (IsNaN d) eqn:Hn.
  - destruct (contains_elim_nan _ _ Ha Hn) as [E1%Z.eqb_eq _], (contains_elim_nan _ _ Hb Hn) as [E2%Z.eqb_eq _]. unfold canBeNaN in Hnan. by rewrite E1, E2 in Hnan.
  - destruct (common_number d Ha Hb Hn) as [L H _ _]. pose proof unit_pos. assert (B : mlb = true /\ mhb = true).
    { unfold meet_has_lower, meet_has_upper, meet_lower, meet_upper in *. destruct Hl as [C1 _], Hr as [C2 _]. split; apply not_false_iff_true; intros [B1 B2]%orb_false_iff.
      - rewrite (wf_no_lower _ C1 B1), (wf_no_lower _ C2 B2) in Hlt. destruct C1, C2. lia.
      - rewrite (wf_no_upper _ C1 B1), (wf_no_upper _ C2 B2) in Hlt. destruct C1, C2. lia. }
    destruct B as [B1 B2]. specialize (L B1). specialize (H B2). assert (mh * U < ml * U) by (by apply Z.mul_lt_mono_pos_r). lia.
Qed.

Lemma refined_empty : refine = true -> me < 31 -> Z.min mh limit < Z.max ml (- limit) -> forall d, contains lhs d -> contains rhs d -> False.
Proof.
  intros Href Hlt Hne d Ha Hb. destruct (IsNaN d) eqn:Hn.
  - destruct (contains_elim_nan _ _ Ha Hn) as [E1 _], (contains_elim_nan _ _ Hb Hn) as [E2 _]. unfold meet_exponent in Hlt. rewrite E1, E2 in Hlt. change IncludesInfinityAndNaN with 65535 in Hlt. lia.
  - pose proof (common_fits _ _ unit_pos (common_number d Ha Hb Hn)) as Hf. unfold meet_range in Hf. rewrite Href in Hf. replace (me <? 31) with true in Hf by lia. destruct Hf as [L H _ _]. cbn in L, H.
    specialize (L eq_refl). specialize (H eq_refl). pose proof unit_pos. set (a := Z.min mh limit) in *. set (b := Z.max ml (- limit)) in *. clearbody a b. assert (a * U < b * U) by (by apply Z.mul_lt_mono_pos_r). lia.
Qed.

Lemma meet_contains d : mlb && mhb && (me =? IncludesInfinityAndNaN) = false -> contains lhs d -> contains rhs d -> contains (meet_range lhs rhs) d.
Proof.
  intros Hnb Ha Hb. pose proof (contains_double _ _ Ha) as Dd. destruct (IsNaN d) eqn:Hn.
  - destruct (contains_elim_nan _ _ Ha Hn) as [E1 B1], (contains_elim_nan _ _ Hb Hn) as [E2 B2]. assert (Em : me = IncludesInfinityAndNaN) by (unfold meet_exponent; by rewrite E1, E2, Z.min_id).
    unfold meet_range. rewrite Em in *. rewrite andb_false_r. rewrite andb_true_r in Hnb. by apply contains_intro_nan.
  - destruct (contains_elim _ _ Ha Hn) as [_ Z1], (contains_elim _ _ Hb Hn) as [_ Z2]. apply contains_intro; [done|done|apply common_fits; [exact unit_pos|by apply common_number]|].
    intros Hz. assert (Hmz : mz = false) by (revert Hz; unfold meet_range; destruct (refine && (me <? 31)); exact (fun H => H)). apply andb_false_iff in Hmz as [?|?]; auto.
Qed.

Lemma refine_bounds_eq e l lb h hb : 0 <= e -> refineInt32BoundsByExponent e l lb h hb = if e <? 31 then (Z.max l (- (2 ^ (e + 1) - 1)), true, Z.min h (2 ^ (e + 1) - 1), true) else (l, lb, h, hb).
Proof. intros He. unfold refineInt32BoundsByExponent. change MaxInt32Exponent with 31. destruct (Z.ltb_spec e 31); [|done]. cbv zeta. by rewrite limit_eq. Qed.

Lemma intersect_eq : intersect (Some lhs) (Some rhs) =
  if mh <? ml then mret (None, negb (canBeNaN lhs) || negb (canBeNaN rhs))
  else if mlb && mhb && (me =? IncludesInfinityAndNaN) then mret (None, false)
  else if refine && (me <? 31) && (Z.max ml (- limit) >? Z.min mh limit) then mret (None, true)
  else r ← optimize (meet_range lhs rhs); mret (Some r, false).
Proof.
  unfold intersect. cbv zeta. fold (meet_lower lhs rhs) (meet_upper lhs rhs). destruct (Z.ltb_spec mh ml) as [|Hle]; [done|]. fold (meet_has_lower lhs rhs) (meet_has_upper lhs rhs) (meet_exponent lhs rhs). destruct (_ && (me =? _)); [done|].
  fold (meet_refine lhs rhs) (meet_fraction lhs rhs) (meet_zero lhs rhs). rewrite (refine_bounds_eq me ml mlb mh mhb me_nonneg). fold (meet_limit lhs rhs). unfold meet_range, rawInitialize. destruct refine; cbn [andb]; [|done].
  destruct (me <? 31); cbn [andb]; [done|]. by replace (ml >? mh) with false by lia.
Qed.

Lemma intersect_ok : exists o emptyRange, intersect (Some lhs) (Some rhs) = mret (o, emptyRange) /\
  (forall q, o = Some q -> well_formed q /\ forall d, contains lhs d -> contains rhs d -> contains q d) /\
  (emptyRange = true -> forall d, contains lhs d -> contains rhs d -> False).
Proof.
  rewrite intersect_eq. destruct (Z.ltb_spec mh ml) as [|Hle]; [eexists _, _; split; [done|]; split; [done|by apply meet_empty]|].
  destruct (mlb && mhb && (me =? IncludesInfinityAndNaN)) eqn:Hnan; [by eexists _, _|].
  destruct (refine && (me <? 31) && (Z.max ml (- limit) >? Z.min mh limit)) eqn:Hre.
  { apply andb_true_iff in Hre as [[H1 H2%Z.ltb_lt]%andb_true_iff H3]. eexists _, _; split; [done|]; split; [done|]. intros _. apply refined_empty; [done|done|lia]. }
  assert (Hok : consistent (meet_range lhs rhs) /\ point_ok (meet_range lhs rhs)).
  { destruct refine eqn:Href; [|apply meet_range_plain; auto]. destruct (Z.ltb_spec me 31); [|apply meet_range_plain; auto]. cbn [andb] in Hre. apply meet_range_refined; [done|done|done|lia]. }
  destruct (optimize_ok _ (proj1 Hok) (proj2 Hok)) as (q & Hq & Hw & Hc). rewrite Hq, bind_ret. eexists _, _. split; [done|]. split; [|done].
  intros q' E. simplify_eq. split; [done|]. intros d Ha Hb. apply Hc. by apply meet_contains.
Qed.
End Meet.
