(* ===== verification/RangeMath.v ===== *)
(** The functions of Math on ranges follow the functions on doubles
    (js/src/jsmath.cpp). *)
From S2P Require Import Prelude Words CheckedArithmetic FloatingPoint BigIntRep BigIntMul Conversions BigIntDouble DoubleArith DoubleWhole DoubleOrder Dates RangeAnalysis RangeInv RangeArith RangeProduct RangeLattice.

#[local] Abbreviation U := (2 ^ 1074).

(** * The functions *)

Definition math_max_impl (x y : Z) : M Z :=
  if double_lt y x || IsNaN x then mret x
  else if double_eq x y then b ← IsNegative y; mret (if b : bool then x else y)
  else mret y.

Definition math_min_impl (x y : Z) : Z :=
  if double_lt x y || IsNaN x || (double_eq x y && IsNegativeZero x) then x else y.

Definition math_sign_impl (x : Z) : Z :=
  if IsNaN x then GenericNaN else if double_is_zero x then x else if double_lt_zero x then dbl (- 1) else dbl 1.

Definition math_floor_impl (x : Z) : Z := double_floor x.
Definition math_ceil_impl (x : Z) : Z := double_ceil x.

(** * Minimum and maximum *)

Lemma double_eq_scaled a b : double_eq a b = true -> scaled a = scaled b.
Proof.
  unfold double_eq. intros H. bsplit. apply orb_true_iff in H0 as [->%Z.eqb_eq|[Hz1%double_is_zero_iff Hz2%double_is_zero_iff]%andb_true_iff]; [done|congruence].
Qed.

Lemma double_lt_scaled a b : IsNaN a = false -> IsNaN b = false -> double_lt a b = (scaled a <? scaled b).
Proof. intros Ha Hb. unfold double_lt. by rewrite Ha, Hb. Qed.

Lemma math_min_spec a b : IsNaN a = false -> IsNaN b = false -> (math_min_impl a b = a \/ math_min_impl a b = b) /\ scaled (math_min_impl a b) = Z.min (scaled a) (scaled b).
Proof.
  intros Na Nb. unfold math_min_impl. rewrite double_lt_scaled, Na, orb_false_r by done. destruct (Z.ltb_spec (scaled a) (scaled b)); cbn [orb]; [split; [auto|lia]|].
  destruct (double_eq a b) eqn:E; cbn [andb]; [apply double_eq_scaled in E; destruct (IsNegativeZero a); split; (auto || lia)|split; [auto|lia]].
Qed.

Lemma math_max_spec a b : IsNaN a = false -> IsNaN b = false -> exists c, math_max_impl a b = mret c /\ (c = a \/ c = b) /\ scaled c = Z.max (scaled a) (scaled b).
Proof.
  intros Na Nb. unfold math_max_impl. rewrite double_lt_scaled, Na, orb_false_r by done. destruct (Z.ltb_spec (scaled b) (scaled a)); [exists a; split; [done|split; [auto|lia]]|].
  destruct (double_eq a b) eqn:E; [apply double_eq_scaled in E|exists b; split; [done|split; [auto|lia]]].
  unfold IsNegative. rewrite Nb. cbn [negb]. change (moz_assert true) with (mret tt : M unit). rewrite !bind_ret. destruct (_ =? _); cbn [negb]; [exists b|exists a]; (split; [done|split; [auto|lia]]).
Qed.

Section MinMax.
Context (lhs rhs : NumberRange) (Hl : well_formed lhs) (Hr : well_formed rhs).

Definition extremum_range (l h : Z) (lb hb : bool) (lhs rhs : NumberRange) : NumberRange :=
  MkNumberRange l h lb hb (canHaveFractionalPart_ lhs || canHaveFractionalPart_ rhs) (canBeNegativeZero_ lhs || canBeNegativeZero_ rhs) (Z.max (max_exponent_ lhs) (max_exponent_ rhs)).

#[local] Abbreviation min_range := (extremum_range (Z.min (lower_ lhs) (lower_ rhs)) (Z.min (upper_ lhs) (upper_ rhs)) (hasInt32LowerBound_ lhs && hasInt32LowerBound_ rhs) (hasInt32UpperBound_ lhs || hasInt32UpperBound_ rhs) lhs rhs).
#[local] Abbreviation max_range := (extremum_range (Z.max (lower_ lhs) (lower_ rhs)) (Z.max (upper_ lhs) (upper_ rhs)) (hasInt32LowerBound_ lhs || hasInt32LowerBound_ rhs) (hasInt32UpperBound_ lhs && hasInt32UpperBound_ rhs) lhs rhs).

Lemma extremum_consistent l h lb hb : (l = Z.min (lower_ lhs) (lower_ rhs) /\ h = Z.min (upper_ lhs) (upper_ rhs)) \/ (l = Z.max (lower_ lhs) (lower_ rhs) /\ h = Z.max (upper_ lhs) (upper_ rhs)) ->
  (lb = false -> l = - 2 ^ 31) -> (hb = false -> h = 2 ^ 31 - 1) -> (lb && hb = false -> hasInt32Bounds lhs = false \/ hasInt32Bounds rhs = false) -> consistent (extremum_range l h lb hb lhs rhs).
Proof.
  intros Hlh Hlb Hhb Hbb. destruct Hl as [Cl _], Hr as [Cr _]. assert (J : joins lhs rhs (extremum_range l h lb hb lhs rhs)) by (split; done).
  assert (Hbl : l = lower_ lhs \/ l = lower_ rhs) by (destruct Hlh as [[-> _]|[-> _]]; lia). assert (Hbh : h = upper_ lhs \/ h = upper_ rhs) by (destruct Hlh as [[_ ->]|[_ ->]]; lia).
  split; cbn [extremum_range lower_ upper_ hasInt32LowerBound_ hasInt32UpperBound_]; [destruct Cl, Cr; lia|destruct Cl, Cr; lia|destruct Cl, Cr; lia|done|done| | | |].
  - destruct Cl, Cr. by apply valid_exponent_max.
  - apply (joins_bound lhs rhs _ l); [done|done|done| |done]. tauto.
  - apply (joins_bound lhs rhs _ h); [done|done|done| |done]. tauto.
  - intros H. apply (joins_unbounded lhs rhs); [done|done|done|]. auto.
Qed.

Lemma min_consistent : consistent min_range.
Proof.
  apply extremum_consistent; [auto|..].
  - destruct Hl as [[] _], Hr as [[] _]. intros [H|H]%andb_false_iff; [rewrite wf_no_lower by done|rewrite wf_no_lower0 by done]; lia.
  - destruct Hl as [[] _], Hr as [[] _]. intros [H1 H2]%orb_false_iff. rewrite wf_no_upper, wf_no_upper0 by done. lia.
  - unfold hasInt32Bounds. destruct (hasInt32LowerBound_ lhs), (hasInt32UpperBound_ lhs), (hasInt32LowerBound_ rhs), (hasInt32UpperBound_ rhs); auto.
Qed.

Lemma max_consistent : consistent max_range.
Proof.
  apply extremum_consistent; [auto|..].
  - destruct Hl as [[] _], Hr as [[] _]. intros [H1 H2]%orb_false_iff. rewrite wf_no_lower, wf_no_lower0 by done. lia.
  - destruct Hl as [[] _], Hr as [[] _]. intros [H|H]%andb_false_iff; [rewrite wf_no_upper by done|rewrite wf_no_upper0 by done]; lia.
  - unfold hasInt32Bounds. destruct (hasInt32LowerBound_ lhs), (hasInt32UpperBound_ lhs), (hasInt32LowerBound_ rhs), (hasInt32UpperBound_ rhs); auto.
Qed.
End MinMax.

(** An operand that ends at the point where both meet. *)
Lemma upper_point r v : well_formed r -> hasInt32LowerBound_ r = true -> v = upper_ r -> v <= lower_ r -> 31 <= max_exponent_ r \/ Z.abs v < 2 ^ (max_exponent_ r + 1).
Proof.
  intros [[] [Fr _]] Hb -> Hle. destruct (canHaveFractionalPart_ r) eqn:Hf; [|destruct wf_upper_bound as [?|[?|[? ?]]]; [auto|auto|congruence]].
  destruct (hasInt32UpperBound_ r) eqn:Hu; unfold hasInt32Bounds in *; rewrite Hb, Hu in *; [specialize (Fr eq_refl eq_refl); lia|].
  specialize (wf_unbounded eq_refl). cbn [Z.b2z] in *. right. rewrite wf_no_upper by done. pose proof (pow_le 31 (max_exponent_ r + 1) ltac:(lia)). lia.
Qed.

Lemma lower_point r v : well_formed r -> hasInt32Bounds r = true -> v = lower_ r -> upper_ r <= v -> 31 <= max_exponent_ r \/ Z.abs v < 2 ^ (max_exponent_ r + 1).
Proof.
  intros [[] [Fr _]] Hb -> Hle. destruct (canHaveFractionalPart_ r) eqn:Hf; [specialize (Fr eq_refl Hb); lia|]. destruct wf_lower_bound as [?|[?|[? ?]]]; [auto|auto|congruence].
Qed.

Lemma point_mono a b v e e' : e = max_exponent_ a \/ e = max_exponent_ b -> 0 <= e -> e' = Z.max (max_exponent_ a) (max_exponent_ b) -> 31 <= e \/ Z.abs v < 2 ^ (e + 1) -> 31 <= e' \/ Z.abs v < 2 ^ (e' + 1).
Proof. intros He H0 -> [H|H]; [left; lia|]. right. pose proof (pow_le (e + 1) (Z.max (max_exponent_ a) (max_exponent_ b) + 1) ltac:(lia)). lia. Qed.

Section MinMax.
Context (lhs rhs : NumberRange) (Hl : well_formed lhs) (Hr : well_formed rhs).

#[local] Abbreviation min_range := (extremum_range (Z.min (lower_ lhs) (lower_ rhs)) (Z.min (upper_ lhs) (upper_ rhs)) (hasInt32LowerBound_ lhs && hasInt32LowerBound_ rhs) (hasInt32UpperBound_ lhs || hasInt32UpperBound_ rhs) lhs rhs).
#[local] Abbreviation max_range := (extremum_range (Z.max (lower_ lhs) (lower_ rhs)) (Z.max (upper_ lhs) (upper_ rhs)) (hasInt32LowerBound_ lhs || hasInt32LowerBound_ rhs) (hasInt32UpperBound_ lhs && hasInt32UpperBound_ rhs) lhs rhs).

Lemma min_point : point_ok min_range.
Proof.
  intros _ [[H1 H2]%andb_true_iff _]%andb_true_iff E. cbn [extremum_range lower_ upper_ max_exponent_] in *.
  pose proof (exponent_nonneg _ (wf_exponent _ (proj1 Hl))). pose proof (exponent_nonneg _ (wf_exponent _ (proj1 Hr))). set (v := Z.min (lower_ lhs) (lower_ rhs)) in *. destruct (Z.min_dec (upper_ lhs) (upper_ rhs)) as [E1|E1].
  - apply (point_mono lhs rhs v (max_exponent_ lhs)); [auto|done|done|]. apply (upper_point lhs v Hl H1); lia.
  - apply (point_mono lhs rhs v (max_exponent_ rhs)); [auto|done|done|]. apply (upper_point rhs v Hr H2); lia.
Qed.

Lemma max_point : point_ok max_range.
Proof.
  intros _ [H0 [H1 H2]%andb_true_iff]%andb_true_iff E. cbn [extremum_range lower_ upper_ max_exponent_ hasInt32LowerBound_] in *.
  pose proof (exponent_nonneg _ (wf_exponent _ (proj1 Hl))). pose proof (exponent_nonneg _ (wf_exponent _ (proj1 Hr))). set (v := Z.max (lower_ lhs) (lower_ rhs)) in *.
  assert (Hx : (hasInt32LowerBound_ lhs = true /\ v = lower_ lhs) \/ (hasInt32LowerBound_ rhs = true /\ v = lower_ rhs)).
  { destruct (hasInt32LowerBound_ lhs) eqn:B1, (hasInt32LowerBound_ rhs) eqn:B2; try done.
    - destruct (Z.max_dec (lower_ lhs) (lower_ rhs)) as [E1|E1]; auto.
    - left. pose proof (wf_no_lower _ (proj1 Hr) B2). destruct Hl as [[] _]. split; [done|lia].
    - right. pose proof (wf_no_lower _ (proj1 Hl) B1). destruct Hr as [[] _]. split; [done|lia]. }
  destruct Hx as [[B Ev]|[B Ev]].
  - apply (point_mono lhs rhs v (max_exponent_ lhs)); [auto|done|done|]. apply (lower_point lhs v Hl); [unfold hasInt32Bounds; by rewrite B, H1|done|lia].
  - apply (point_mono lhs rhs v (max_exponent_ rhs)); [auto|done|done|]. apply (lower_point rhs v Hr); [unfold hasInt32Bounds; by rewrite B, H2|done|lia].
Qed.

(** The result is one of the two numbers, within the bounds of both. *)
Lemma extremum_contains l h lb hb a b c : contains lhs a -> contains rhs b -> IsNaN a = false -> IsNaN b = false -> c = a \/ c = b ->
  (lb = true -> l * U <= scaled c) -> (hb = true -> scaled c <= h * U) -> contains (extremum_range l h lb hb lhs rhs) c.
Proof.
  intros Ha Hb Na Nb Hc Hlo Hhi. pose proof unit_pos. pose proof (exponent_nonneg _ (wf_exponent _ (proj1 Hl))). pose proof (exponent_nonneg _ (wf_exponent _ (proj1 Hr))).
  assert (Hx : exists r, (r = lhs \/ r = rhs) /\ contains r c /\ IsNaN c = false) by (destruct Hc as [-> | ->]; [exists lhs|exists rhs]; auto). destruct Hx as (r & Hr' & Hcr & Nc).
  destruct (contains_elim r c Hcr Nc) as [[_ _ Fe Fw] Hz]. apply contains_intro; [by eapply contains_double|done|split|]; cbn [extremum_range lower_ upper_ hasInt32LowerBound_ hasInt32UpperBound_ canHaveFractionalPart_ canBeNegativeZero_ max_exponent_].
  - done.
  - done.
  - intros He. specialize (Fe ltac:(destruct Hr' as [-> | ->]; lia)). apply Z.lt_le_trans with (1 := Fe). apply Z.mul_le_mono_nonneg_r; [lia|]. apply pow_le. destruct Hr' as [-> | ->]; lia.
  - intros [? ?]%orb_false_iff. apply Fw. by destruct Hr' as [-> | ->].
  - intros [? ?]%orb_false_iff. apply Hz. by destruct Hr' as [-> | ->].
Qed.

Lemma not_nan r d : contains r d -> canBeNaN r = false -> IsNaN d = false.
Proof. intros Hd Hn. apply not_true_iff_false. intros E. destruct (contains_elim_nan _ _ Hd E) as [H%Z.eqb_eq _]. unfold canBeNaN in Hn. congruence. Qed.

Lemma lower_holds r d : contains r d -> IsNaN d = false -> hasInt32LowerBound_ r = true -> lower_ r * U <= scaled d.
Proof. intros Hd Hn. by apply contains_elim. Qed.
Lemma upper_holds r d : contains r d -> IsNaN d = false -> hasInt32UpperBound_ r = true -> scaled d <= upper_ r * U.
Proof. intros Hd Hn. by apply contains_elim. Qed.

Lemma range_min_ok : exists o, range_min lhs rhs = mret o /\ (forall q, o = Some q -> well_formed q /\ forall a b, contains lhs a -> contains rhs b -> contains q (math_min_impl a b)).
Proof.
  unfold range_min. destruct (canBeNaN lhs) eqn:N1; [by exists None|]. destruct (canBeNaN rhs) eqn:N2; [by exists None|]. cbn [orb].
  destruct (optimize_ok _ (min_consistent lhs rhs Hl Hr) min_point) as (q & Hq & Hw & Hc). exists (Some q). split; [change ((r ← optimize min_range; mret (Some r)) = mret (Some q)); by rewrite Hq|]. intros q' E. simplify_eq. split; [done|].
  intros a b Ha Hb. pose proof (not_nan _ _ Ha N1) as Na. pose proof (not_nan _ _ Hb N2) as Nb. destruct (math_min_spec a b Na Nb) as [Hx Hs]. apply Hc. pose proof unit_pos.
  apply (extremum_contains _ _ _ _ a b); [done..| |]; rewrite Hs.
  - intros [B1 B2]%andb_true_iff. pose proof (lower_holds _ _ Ha Na B1). pose proof (lower_holds _ _ Hb Nb B2). rewrite <- Z.mul_min_distr_nonneg_r by lia. lia.
  - intros B. rewrite <- Z.mul_min_distr_nonneg_r by lia. destruct Hl as [[] _], Hr as [[] _]. destruct (hasInt32UpperBound_ lhs) eqn:B1, (hasInt32UpperBound_ rhs) eqn:B2; try done.
    + pose proof (upper_holds _ _ Ha Na B1). pose proof (upper_holds _ _ Hb Nb B2). lia.
    + pose proof (upper_holds _ _ Ha Na B1). rewrite (wf_no_upper0 eq_refl). assert (upper_ lhs * U <= (2 ^ 31 - 1) * U) by (apply Z.mul_le_mono_nonneg_r; lia). lia.
    + pose proof (upper_holds _ _ Hb Nb B2). rewrite (wf_no_upper eq_refl). assert (upper_ rhs * U <= (2 ^ 31 - 1) * U) by (apply Z.mul_le_mono_nonneg_r; lia). lia.
Qed.

Lemma range_max_ok : exists o, range_max lhs rhs = mret o /\ (forall q, o = Some q -> well_formed q /\ forall a b, contains lhs a -> contains rhs b -> exists c, math_max_impl a b = mret c /\ contains q c).
Proof.
  unfold range_max. destruct (canBeNaN lhs) eqn:N1; [by exists None|]. destruct (canBeNaN rhs) eqn:N2; [by exists None|]. cbn [orb].
  destruct (optimize_ok _ (max_consistent lhs rhs Hl Hr) max_point) as (q & Hq & Hw & Hc). exists (Some q). split; [change ((r ← optimize max_range; mret (Some r)) = mret (Some q)); by rewrite Hq|]. intros q' E. simplify_eq. split; [done|].
  intros a b Ha Hb. pose proof (not_nan _ _ Ha N1) as Na. pose proof (not_nan _ _ Hb N2) as Nb. destruct (math_max_spec a b Na Nb) as (c & Ec & Hx & Hs). exists c. split; [done|]. apply Hc. pose proof unit_pos.
  apply (extremum_contains _ _ _ _ a b); [done..| |]; rewrite Hs.
  - intros B. rewrite <- Z.mul_max_distr_nonneg_r by lia. destruct Hl as [[] _], Hr as [[] _]. destruct (hasInt32LowerBound_ lhs) eqn:B1, (hasInt32LowerBound_ rhs) eqn:B2; try done.
    + pose proof (lower_holds _ _ Ha Na B1). pose proof (lower_holds _ _ Hb Nb B2). lia.
    + pose proof (lower_holds _ _ Ha Na B1). rewrite (wf_no_lower0 eq_refl). assert (- 2 ^ 31 * U <= lower_ lhs * U) by (apply Z.mul_le_mono_nonneg_r; lia). lia.
    + pose proof (lower_holds _ _ Hb Nb B2). rewrite (wf_no_lower eq_refl). assert (- 2 ^ 31 * U <= lower_ rhs * U) by (apply Z.mul_le_mono_nonneg_r; lia). lia.
  - intros [B1 B2]%andb_true_iff. pose proof (upper_holds _ _ Ha Na B1). pose proof (upper_holds _ _ Hb Nb B2). rewrite <- Z.mul_max_distr_nonneg_r by lia. lia.
Qed.
End MinMax.
