(* ===== verification/RangeRound.v ===== *)
(** Rounding, absolute value and sign on ranges. *)
From S2P Require Import Prelude Words CheckedArithmetic FloatingPoint BigIntRep BigIntMul Conversions BigIntDouble DoubleArith DoubleWhole DoubleOrder Dates RangeAnalysis RangeInv RangeArith RangeProduct RangeLattice RangeMath.

#[local] Abbreviation U := (2 ^ 1074).

(** * Rounding a double to an integer *)

Lemma round_scaled_exact d : is_double d -> IsFinite d = true -> scaled (round_scaled (scaled d)) = scaled d.
Proof.
  intros Hd Hf. pose proof (round_scaled_rounded (scaled d)) as R. unfold round_scaled in *. set (s := scaled d <? 0) in *. destruct (finite_magnitude d Hd Hf) as (m & f & E & Hm & Hf0).
  assert (Hrep : representable (Z.abs (scaled d))).
  { exists m, f. split_and!; [done|lia|lia|lia|]. assert (Hlt : Z.abs (scaled d) <= scaled_magnitude d) by (unfold scaled; pose proof (scaled_magnitude_nonneg d); destruct (sign_of d); cbn [signed]; lia).
    apply Z.le_trans with (1 := Hlt). apply IsFinite_iff in Hf. unfold scaled_magnitude. pose proof (fraction_bound d). pose proof (biased_bound d). destruct (Z.eqb_spec (biased_of d) 0).
    - pose proof (pow_le 52 2098 ltac:(lia)). lia.
    - pose proof (pow_le (biased_of d - 1) 2045 ltac:(lia)). apply Z.le_trans with (2 ^ 53 * 2 ^ 2045); [apply Z.mul_le_mono_nonneg; [lia|lia|apply Z.pow_nonneg; lia|done]|]. rewrite <- Z.pow_add_r by lia. reflexivity. }
  assert (Hle : scaled_magnitude (round_ratio s (Z.abs (scaled d)) 1) <= Z.abs (scaled d)) by (apply round_ratio_le; [lia|lia|done|lia]).
  assert (Hge : Z.abs (scaled d) <= scaled_magnitude (round_ratio s (Z.abs (scaled d)) 1)) by (apply round_ratio_ge; [lia|lia|done|lia]).
  destruct (round_ratio_fields s (Z.abs (scaled d)) 1 ltac:(lia) ltac:(lia)) as (Hs & _). unfold scaled at 1. rewrite Hs. unfold s in *. destruct (Z.ltb_spec (scaled d) 0); cbn [signed]; lia.
Qed.

(** A double of 2^53 or more in magnitude is whole. *)
Lemma large_whole d : is_double d -> IsFinite d = true -> 2 ^ 53 * U <= Z.abs (scaled d) -> exists n, scaled d = n * U.
Proof.
  intros Hd Hf Hge. destruct (finite_magnitude d Hd Hf) as (m & f & E & Hm & Hf0). assert (Hf1 : 1074 <= f).
  { apply Z.le_ngt. intros Hc. rewrite E in Hge. pose proof (pow_le f 1074 ltac:(lia)). assert (m * 2 ^ f < 2 ^ 53 * U); [|lia]. apply Z.le_lt_trans with (m * U); [apply Z.mul_le_mono_nonneg_l; lia|]. apply Z.mul_lt_mono_pos_r; [exact unit_pos|lia]. }
  replace f with (f - 1074 + 1074) in E by lia. rewrite Z.pow_add_r, Z.mul_assoc in E by lia. set (n := m * 2 ^ (f - 1074)) in *. clearbody n.
  destruct (Z.le_gt_cases 0 (scaled d)); [exists n|exists (- n)]; lia.
Qed.

Lemma double_floor_scaled d : is_double d -> IsFinite d = true -> scaled (double_floor d) = scaled d / U * U /\ IsNaN (double_floor d) = false /\ (double_floor d = kSignBit -> d = kSignBit).
Proof.
  intros Hd Hf. unfold double_floor. rewrite (finite_not_nan d), (finite_not_infinite d) by done. cbn [orb]. destruct (double_is_zero d) eqn:Hz.
  { apply double_is_zero_iff in Hz. split; [rewrite Hz; reflexivity|]. split; [by apply finite_not_nan|done]. }
  cbv zeta. destruct (Z.eqb_spec (scaled d / U) 0) as [->|Hq]; [done|]. pose proof unit_pos as Hu. split; [|split; [apply (round_scaled_rounded (scaled d / U * U))|]].
  - destruct (Z.lt_ge_cases (Z.abs (scaled d / U)) (2 ^ 53)) as [Hs|Hl].
    + rewrite round_scaled_dbl by done. by apply dbl_scaled.
    + assert (Hbig : 2 ^ 53 * U <= Z.abs (scaled d) \/ scaled d / U = - 2 ^ 53).
      { pose proof (Z.div_mod (scaled d) U ltac:(lia)). pose proof (Z.mod_pos_bound (scaled d) U Hu). set (q := scaled d / U) in *. set (m := scaled d mod U) in *. clearbody q m. set (u := U) in *. clearbody u.
        destruct (Z.le_gt_cases 0 q); [left; assert (2 ^ 53 * u <= q * u) by (apply Z.mul_le_mono_nonneg_r; lia); lia|]. destruct (Z.eq_dec q (- 2 ^ 53)); [by right|]. left.
        assert (q * u <= (- 2 ^ 53 - 1) * u) by (apply Z.mul_le_mono_nonneg_r; lia). lia. }
      destruct Hbig as [Hbig| ->]; [|vm_compute; reflexivity]. destruct (large_whole d Hd Hf Hbig) as [n Hn]. rewrite Hn, Z.div_mul, <- Hn by lia. by apply round_scaled_exact.
  - intros E. exfalso. assert (Hnz : scaled d / U * U <> 0) by (rewrite unit_zero; done). apply (round_scaled_not_zero _ Hnz). rewrite E. reflexivity.
Qed.

Lemma double_ceil_scaled d : is_double d -> IsFinite d = true -> scaled (double_ceil d) = - (- scaled d / U * U) /\ IsNaN (double_ceil d) = false.
Proof.
  intros Hd Hf. unfold double_ceil. rewrite (finite_not_nan d) by done. destruct (double_neg_fields d Hd) as (Hs & Hn & _). pose proof (double_neg_double d Hd) as Dn.
  assert (Hfn : IsFinite (double_neg d) = true) by (by rewrite double_neg_finite).
  destruct (double_floor_scaled _ Dn Hfn) as (H1 & H2 & _). pose proof (double_floor_double _ Dn) as Df. destruct (double_neg_fields _ Df) as (H3 & H4 & _). rewrite H3, H1, Hs, H4. done.
Qed.

(** The integer below a number between two integers. *)
Lemma floor_between u x l h : 0 < u -> l * u <= x <= h * u -> l * u <= x / u * u <= h * u.
Proof.
  intros Hu Hx. split; apply Z.mul_le_mono_nonneg_r; try lia; [apply Z.div_le_lower_bound; lia|]. apply Z.div_le_upper_bound; lia.
Qed.

Lemma floor_lower u x l : 0 < u -> l * u <= x -> l * u <= x / u * u.
Proof. intros Hu Hx. apply Z.mul_le_mono_nonneg_r; [lia|]. apply Z.div_le_lower_bound; lia. Qed.

Lemma floor_upper u x h : 0 < u -> x <= h * u -> x / u * u <= h * u.
Proof. intros Hu Hx. apply Z.le_trans with (2 := Hx). rewrite Z.mul_comm. by apply Z.mul_div_le. Qed.

(** Its magnitude: the numbers of a range without bounds. *)
Lemma floor_magnitude x k : 0 <= k -> Z.abs x < 2 ^ k * U -> Z.abs (x / U * U) <= 2 ^ k * U.
Proof.
  intros Hk Hx. pose proof unit_pos as Hu. pose proof (floor_between U x (- 2 ^ k) (2 ^ k) Hu ltac:(lia)). lia.
Qed.

Lemma floor_magnitude_max d : is_double d -> IsFinite d = true -> Z.abs (scaled d) < 2 ^ 1024 * U -> Z.abs (scaled d / U * U) < 2 ^ 1024 * U.
Proof.
  intros Hd Hf Hx. pose proof unit_pos as Hu. destruct (Z.le_gt_cases (2 ^ 53 * U) (Z.abs (scaled d))) as [Hbig|Hs].
  - destruct (large_whole d Hd Hf Hbig) as [n Hn]. by rewrite Hn, Z.div_mul, <- Hn by lia.
  - pose proof (floor_magnitude (scaled d) 53 ltac:(lia) Hs) as Hm. apply Z.le_lt_trans with (1 := Hm). apply Z.mul_lt_mono_pos_r; [done|]. apply Z.pow_lt_mono_r; lia.
Qed.

(** * The exponent after rounding *)

Lemma round_exponent_eq r : int32_bounds r -> round_exponent r = mret (with_exponent r (if hasInt32Bounds r then bounds_log r else if max_exponent_ r <? MaxFiniteExponent then max_exponent_ r + 1 else max_exponent_ r)).
Proof.
  intros Hb. unfold round_exponent. destruct (hasInt32Bounds r) eqn:E; [by rewrite (exponent_implied r Hb E)|]. destruct (max_exponent_ r <? MaxFiniteExponent); [done|]. by destruct r.
Qed.

(** The range of integers that [floor] and [ceil] build. *)
Definition rounded_range (l h : Z) (lb hb nz : bool) (e : Z) : NumberRange :=
  let r := MkNumberRange l h lb hb false nz e in
  with_exponent r (if lb && hb then bounds_log r else if e <? MaxFiniteExponent then e + 1 else e).

Lemma rounded_range_ok l h lb hb nz e : l <= h -> - 2 ^ 31 <= l <= 2 ^ 31 - 1 -> - 2 ^ 31 <= h <= 2 ^ 31 - 1 -> (lb = false -> l = - 2 ^ 31) -> (hb = false -> h = 2 ^ 31 - 1) ->
  valid_exponent e -> (lb && hb = false -> 30 <= e) -> well_formed (rounded_range l h lb hb nz e).
Proof.
  intros Hlh Hl Hh Hlb Hhb He Hun. pose proof (exponent_nonneg e He) as He0. set (r := MkNumberRange l h lb hb false nz e).
  pose proof (bounds_log_range r ltac:(done)) as Hlog. pose proof (bounds_log_spec r) as Hspec. unfold rounded_range. fold r. destruct (lb && hb) eqn:Hb.
  - assert (Hbo : forall v, Z.abs v <= Z.max (Z.abs l) (Z.abs h) -> bound_ok (with_exponent r (bounds_log r)) v) by (intros v Hv; right; left; by apply Hspec).
    split; [|split; [done|intros _; cbn [with_exponent max_exponent_]; lia]]. split; try done; [left; cbn [with_exponent max_exponent_]; lia|apply Hbo; cbn; lia|apply Hbo; cbn; lia|]. unfold hasInt32Bounds. cbn. congruence.
  - specialize (Hun eq_refl). change MaxFiniteExponent with 1023. assert (Hx : 31 <= (if e <? 1023 then e + 1 else e)) by (destruct (Z.ltb_spec e 1023); lia).
    split; [|split; [done|unfold hasInt32Bounds; cbn; congruence]]. split; try done; [|left; exact Hx|left; exact Hx|intros _; cbn [with_exponent max_exponent_ r canHaveFractionalPart_ Z.b2z]; lia].
    unfold valid_exponent in *. change IncludesInfinityAndNaN with 65535 in *. cbn [with_exponent max_exponent_]. destruct (Z.ltb_spec e 1023); lia.
Qed.

(** An integer [y] near a number of the exponent [e] is in it. *)
Lemma rounded_range_contains l h lb hb nz e d n : is_double d -> IsNaN d = false -> 0 <= e -> scaled d = n * U -> (lb = true -> l <= n) -> (hb = true -> n <= h) -> (lb && hb = false -> 30 <= e) ->
  (lb && hb = false -> e < MaxFiniteExponent -> Z.abs n <= 2 ^ (e + 1)) -> (lb && hb = false -> e = MaxFiniteExponent -> Z.abs n < 2 ^ 1024) -> (nz = false -> d <> kSignBit) ->
  contains (rounded_range l h lb hb nz e) d.
Proof.
  intros Hd Hn He Hs Hl Hh Hun Hm Hm' Hz. pose proof unit_pos as Hu. set (r := MkNumberRange l h lb hb false nz e). pose proof (bounds_log_spec r n) as Hspec.
  apply contains_intro; [done|done| |done]. unfold rounded_range. fold r. rewrite Hs. split; cbn [with_exponent r lower_ upper_ hasInt32LowerBound_ hasInt32UpperBound_ canHaveFractionalPart_ max_exponent_].
  - intros Hb. apply Z.mul_le_mono_nonneg_r; [lia|auto].
  - intros Hb. apply Z.mul_le_mono_nonneg_r; [lia|auto].
  - rewrite Z.abs_mul, (Z.abs_eq U) by lia. intros Hx. apply Z.mul_lt_mono_pos_r; [done|]. destruct (lb && hb) eqn:Hb.
    + apply andb_true_iff in Hb as [-> ->]. specialize (Hl eq_refl). specialize (Hh eq_refl). apply Hspec. cbn. lia.
    + change MaxFiniteExponent with 1023 in *. destruct (Z.ltb_spec e 1023).
      * specialize (Hm eq_refl ltac:(lia)). rewrite pow_succ by lia. pose proof (pow_pos (e + 1) ltac:(lia)). lia.
      * assert (e = 1023) as -> by lia. by apply Hm'.
  - by exists n.
Qed.

(** * Floor *)

Lemma floor_number a : is_double a -> IsNaN a = false -> scaled (double_floor a) = scaled a / U * U /\ IsNaN (double_floor a) = false /\ (double_floor a = kSignBit -> a = kSignBit).
Proof.
  intros Hd Hn. destruct (classify a) as [Hf|[Hi|?]]; [by apply double_floor_scaled| |congruence]. unfold double_floor. rewrite Hn, Hi. cbn [orb]. split; [|done].
  rewrite (infinite_scaled a Hi), Z.div_mul by (pose proof unit_pos; lia). done.
Qed.

Lemma ceil_number a : is_double a -> IsNaN a = false -> scaled (double_ceil a) = - (- scaled a / U) * U /\ IsNaN (double_ceil a) = false.
Proof.
  intros Hd Hn. unfold double_ceil. rewrite Hn. destruct (double_neg_fields a Hd) as (Hs & Hnn & _). pose proof (double_neg_double a Hd) as Dn.
  destruct (floor_number _ Dn ltac:(congruence)) as (H1 & H2 & _). destruct (double_neg_fields _ (double_floor_double _ Dn)) as (H3 & H4 & _). rewrite H3, H1, Hs, H4. split; [ring|done].
Qed.

(** What both share: the bounds are those of the operand, a lower one may move. *)
Section Round.
Context (op : NumberRange) (Ho : well_formed op).

Definition floor_lower_init : Z * bool :=
  if canHaveFractionalPart_ op && hasInt32LowerBound_ op then setLowerInit (lower_ op - 1) else (lower_ op, hasInt32LowerBound_ op).

Lemma floor_lower_init_spec : let '(l, lb) := floor_lower_init in
  - 2 ^ 31 <= l <= lower_ op /\ (lb = false -> l = - 2 ^ 31) /\ (lb = true -> hasInt32LowerBound_ op = true) /\ (lb && hasInt32UpperBound_ op = false -> 30 <= max_exponent_ op).
Proof.
  unfold floor_lower_init. pose proof (unbounded_exponent op Ho) as Hun. destruct Ho as [[_ W2 _ W4 _ W6 W7 _ _] _]. unfold hasInt32Bounds in Hun. destruct (hasInt32LowerBound_ op) eqn:Hb; rewrite ?andb_true_r, ?andb_false_r.
  2:{ split; [lia|]. split; [auto|]. split; [done|]. auto. }
  destruct (canHaveFractionalPart_ op) eqn:Hf; [|split; [lia|]; auto]. rewrite setLowerInit_eq. split; [lia|]. split; [intros; lia|]. split; [done|]. intros Hx. destruct (Z.leb_spec (- 2 ^ 31) (lower_ op - 1)); [auto|].
  assert (E : lower_ op = - 2 ^ 31) by lia. apply exponent_nonneg in W6. destruct W7 as [?|W7]; [lia|]. apply Z.le_ngt. intros Hc. pose proof (pow_le (max_exponent_ op + 1) 30 ltac:(lia)). rewrite E in W7. lia.
Qed.

Definition floor_range : NumberRange :=
  rounded_range floor_lower_init.1 (upper_ op) floor_lower_init.2 (hasInt32UpperBound_ op) (canBeNegativeZero_ op) (max_exponent_ op).

Lemma floor_range_ok : well_formed floor_range.
Proof.
  unfold floor_range. pose proof floor_lower_init_spec as H. destruct floor_lower_init as [l lb]. destruct H as (H1 & H2 & H3 & H4). cbn [fst snd]. destruct Ho as [[] _]. apply rounded_range_ok; (done || lia).
Qed.

Lemma range_floor_eq : range_floor op = mret floor_range.
Proof.
  unfold range_floor, copy_Range. rewrite (consistent_asserts op (proj1 Ho)), !bind_ret. cbv zeta. pose proof floor_lower_init_spec as Hs. pose proof (consistent_asserts _ (proj1 floor_range_ok)) as Ha. unfold floor_range in *.
  set (copy := if canHaveFractionalPart_ op && hasInt32LowerBound_ op then _ else op).
  assert (E : copy = with_bounds op floor_lower_init.1 floor_lower_init.2 (upper_ op) (hasInt32UpperBound_ op)).
  { unfold copy, floor_lower_init. destruct (_ && _); [by destruct (setLowerInit _)|by destruct op]. }
  clearbody copy. subst copy. destruct floor_lower_init as [l lb]. cbn [fst snd] in *. rewrite round_exponent_eq, bind_ret; [|destruct Ho as [[] _]; split; cbn; lia].
  match goal with |- (assertInvariants ?r;; _) = mret ?q => replace r with q by (unfold rounded_range, hasInt32Bounds, bounds_log; by destruct op) end. by rewrite Ha.
Qed.

Lemma floor_range_contains a : contains op a -> contains floor_range (double_floor a).
Proof.
  intros Ha. pose proof (contains_double _ _ Ha) as Da. unfold floor_range. pose proof floor_lower_init_spec as H. destruct floor_lower_init as [l lb]. destruct H as (H1 & H2 & H3 & H4). cbn [fst snd]. pose proof unit_pos as Hu.
  pose proof (exponent_nonneg _ (wf_exponent _ (proj1 Ho))) as He. destruct (IsNaN a) eqn:Hn.
  - destruct (contains_elim_nan _ _ Ha Hn) as [E Hb]. assert (Hbb : lb && hasInt32UpperBound_ op = false). { unfold hasInt32Bounds in Hb. destruct lb; [|done]. by rewrite (H3 eq_refl) in Hb. }
    apply contains_intro_nan; [by apply double_floor_double|unfold double_floor; by rewrite Hn| |unfold rounded_range, hasInt32Bounds; cbn; done]. unfold rounded_range. rewrite Hbb, E. reflexivity.
  - destruct (floor_number a Da Hn) as (Hs & Hn' & Hz). destruct (contains_elim _ _ Ha Hn) as [[Fl Fu Fe Fw] Fz].
    apply (rounded_range_contains _ _ _ _ _ _ _ (scaled a / U)); [by apply double_floor_double|done|done|done|..|done| | |].
    + intros Hb. apply Z.div_le_lower_bound; [done|]. specialize (Fl (H3 Hb)). assert (l * U <= lower_ op * U) by (apply Z.mul_le_mono_nonneg_r; lia). lia.
    + intros Hb. specialize (Fu Hb). apply Z.div_le_upper_bound; [done|lia].
    + intros _ Hlt. pose proof (floor_magnitude (scaled a) (max_exponent_ op + 1) ltac:(lia) (Fe ltac:(lia))) as Hm. rewrite Z.abs_mul, (Z.abs_eq U) in Hm by lia. by apply Z.mul_le_mono_pos_r in Hm.
    + intros _ E. assert (Hf : IsFinite a = true). { apply (within_finite a (lower_of op) (upper_of op) (canHaveFractionalPart_ op) (max_exponent_ op)); [done|done|by apply contains_number|lia]. }
      specialize (Fe ltac:(lia)). rewrite E in Fe. pose proof (floor_magnitude_max a Da Hf Fe) as Hm. rewrite Z.abs_mul, (Z.abs_eq U) in Hm by lia. by apply Z.mul_lt_mono_pos_r in Hm.
    + intros Hnz E. by apply (Fz Hnz), Hz.
Qed.
End Round.

Lemma range_floor_sound : sound1 range_floor math_floor_impl.
Proof. intros op Ho. exists (floor_range op). split; [by apply range_floor_eq|]. split; [by apply floor_range_ok|]. intros a. by apply floor_range_contains. Qed.

(** * Ceiling *)

Section Ceil.
Context (op : NumberRange) (Ho : well_formed op).

Definition ceil_zero : bool := if (lower_ op >? 0) || (upper_ op <=? -1) then canBeNegativeZero_ op else true.
Definition ceil_range : NumberRange :=
  rounded_range (lower_ op) (upper_ op) (hasInt32LowerBound_ op) (hasInt32UpperBound_ op) ceil_zero (max_exponent_ op).

Lemma ceil_range_ok : well_formed ceil_range.
Proof. pose proof (unbounded_exponent op Ho) as Hun. destruct Ho as [[] _]. apply rounded_range_ok; done. Qed.

Lemma range_ceil_eq : range_ceil op = mret ceil_range.
Proof.
  unfold range_ceil, copy_Range. pose proof (consistent_asserts _ (proj1 ceil_range_ok)) as Ha. rewrite (consistent_asserts op (proj1 Ho)), !bind_ret, round_exponent_eq, bind_ret by (by apply consistent_int32, Ho). cbv zeta.
  match goal with |- (assertInvariants ?r;; _) = mret ?q => replace r with q by (unfold ceil_range, rounded_range, ceil_zero, hasInt32Bounds, bounds_log; by destruct op) end. by rewrite Ha.
Qed.

Lemma ceil_zero_spec a : contains op a -> IsNaN a = false -> ceil_zero = false -> - (- scaled a / U) <> 0.
Proof.
  intros Ha Hn. destruct (contains_elim _ _ Ha Hn) as [[Fl Fu _ _] _]. pose proof unit_pos as Hu. unfold ceil_zero. destruct (_ || _) eqn:Hc; [intros _|done]. destruct Ho as [[_ _ _ W4 W5 _ _ _ _] _].
  pose proof (Z.div_mod (- scaled a) U ltac:(lia)) as Hd. pose proof (Z.mod_pos_bound (- scaled a) U Hu) as Hm. intros Hz. assert (E : - scaled a / U = 0) by lia. rewrite E in Hd. clear Hz E. apply orb_true_iff in Hc as [Hc|Hc].
  - destruct (hasInt32LowerBound_ op); [|rewrite W4 in Hc by done; done]. specialize (Fl eq_refl). assert (1 * U <= lower_ op * U) by (apply Z.mul_le_mono_nonneg_r; lia). lia.
  - destruct (hasInt32UpperBound_ op); [|rewrite W5 in Hc by done; done]. specialize (Fu eq_refl). assert (upper_ op * U <= -1 * U) by (apply Z.mul_le_mono_nonneg_r; lia). lia.
Qed.

Lemma ceil_range_contains a : contains op a -> contains ceil_range (double_ceil a).
Proof.
  intros Ha. pose proof (contains_double _ _ Ha) as Da. unfold ceil_range. pose proof unit_pos as Hu. pose proof (exponent_nonneg _ (wf_exponent _ (proj1 Ho))) as He. destruct (double_neg_fields a Da) as (Hsn & _ & _).
  destruct (IsNaN a) eqn:Hn.
  - destruct (contains_elim_nan _ _ Ha Hn) as [E Hb]. unfold double_ceil. rewrite Hn. apply contains_intro_nan; [done|done| |done]. unfold rounded_range. unfold hasInt32Bounds in Hb. rewrite Hb, E. reflexivity.
  - destruct (ceil_number a Da Hn) as (Hs & Hn'). destruct (contains_elim _ _ Ha Hn) as [[Fl Fu Fe Fw] Fz].
    assert (Dc : is_double (double_ceil a)) by (unfold double_ceil; rewrite Hn; auto using double_neg_double, double_floor_double).
    apply (rounded_range_contains _ _ _ _ _ _ _ (- (- scaled a / U))); [done|done|done|done|..|by apply unbounded_exponent| | |].
    + intros Hb. specialize (Fl Hb). assert (- scaled a / U <= - lower_ op) by (apply Z.div_le_upper_bound; [done|lia]). lia.
    + intros Hb. specialize (Fu Hb). assert (- upper_ op <= - scaled a / U) by (apply Z.div_le_lower_bound; [done|lia]). lia.
    + intros _ Hlt. rewrite <- (Z.abs_opp (scaled a)) in Fe. pose proof (floor_magnitude (- scaled a) (max_exponent_ op + 1) ltac:(lia) (Fe ltac:(lia))) as Hm. rewrite Z.abs_mul, (Z.abs_eq U) in Hm by lia. rewrite Z.abs_opp. by apply Z.mul_le_mono_pos_r in Hm.
    + intros _ E. assert (Hf : IsFinite a = true). { apply (within_finite a (lower_of op) (upper_of op) (canHaveFractionalPart_ op) (max_exponent_ op)); [done|done|by apply contains_number|lia]. }
      specialize (Fe ltac:(lia)). rewrite E, <- Z.abs_opp, <- Hsn in Fe. pose proof (floor_magnitude_max (double_neg a) (double_neg_double a Da) ltac:(by rewrite double_neg_finite) Fe) as Hm. rewrite Hsn, Z.abs_mul, (Z.abs_eq U) in Hm by lia. rewrite Z.abs_opp. by apply Z.mul_lt_mono_pos_r in Hm.
    + intros Hnz E. apply (ceil_zero_spec a Ha Hn Hnz). rewrite E in Hs. change (scaled kSignBit) with 0 in Hs. symmetry in Hs. exact (proj1 (unit_zero _) Hs).
Qed.
End Ceil.

Lemma range_ceil_sound : sound1 range_ceil math_ceil_impl.
Proof. intros op Ho. exists (ceil_range op). split; [by apply range_ceil_eq|]. split; [by apply ceil_range_ok|]. intros a. by apply ceil_range_contains. Qed.

(** * Absolute value *)

Section Abs.
Context (op : NumberRange) (Ho : well_formed op).

Definition negated (v : Z) : Z := if v =? JSVAL_INT_MIN then JSVAL_INT_MAX else - v.
Definition abs_range : NumberRange :=
  MkNumberRange (Z.max (Z.max 0 (lower_ op)) (negated (upper_ op))) (Z.max (Z.max 0 (upper_ op)) (negated (lower_ op))) true (hasInt32Bounds op && negb (lower_ op =? JSVAL_INT_MIN))
    (canHaveFractionalPart_ op) false (max_exponent_ op).

Lemma negated_spec v : - 2 ^ 31 <= v <= 2 ^ 31 - 1 -> negated v = Z.min (- v) (2 ^ 31 - 1).
Proof. intros Hv. unfold negated. change JSVAL_INT_MIN with (- 2 ^ 31). change JSVAL_INT_MAX with (2 ^ 31 - 1). destruct (Z.eqb_spec v (- 2 ^ 31)); lia. Qed.

Lemma abs_consistent : consistent abs_range /\ point_ok abs_range.
Proof.
  destruct Ho as [Co [Fo _]]. pose proof Co as [W1 W2 W3 W4 W5 W6 W7 W8 W9]. pose proof (exponent_nonneg _ W6) as He.
  assert (Hbo : forall v, Z.abs v <= Z.max (Z.abs (lower_ op)) (Z.abs (upper_ op)) -> bound_ok abs_range v).
  { intros v Hv. destruct (Z.max_dec (Z.abs (lower_ op)) (Z.abs (upper_ op))) as [E|E]; rewrite E in Hv; [apply (bound_ok_mono op _ (lower_ op))|apply (bound_ok_mono op _ (upper_ op))]; done. }
  assert (Hun : hasInt32Bounds abs_range = false -> 31 <= max_exponent_ op + Z.b2z (canHaveFractionalPart_ op)).
  { unfold hasInt32Bounds at 1. cbn [abs_range hasInt32LowerBound_ hasInt32UpperBound_ andb]. intros [H|H%negb_false_iff%Z.eqb_eq]%andb_false_iff; [auto|]. change JSVAL_INT_MIN with (- 2 ^ 31) in H.
    destruct W7 as [?|W7]; [destruct (canHaveFractionalPart_ op); cbn [Z.b2z]; lia|]. apply Z.le_ngt. intros Hc. destruct W7 as [?|[Hf ?]]; [pose proof (pow_le (max_exponent_ op + 1) 31 ltac:(destruct (canHaveFractionalPart_ op); cbn [Z.b2z] in *; lia)); lia|].
    rewrite Hf in Hc. cbn [Z.b2z] in Hc. pose proof (pow_le (max_exponent_ op + 1) 30 ltac:(lia)). lia. }
  split; [split|]; cbn [abs_range lower_ upper_ hasInt32LowerBound_ hasInt32UpperBound_ canHaveFractionalPart_ max_exponent_]; rewrite ?negated_spec by done.
  - lia.
  - lia.
  - lia.
  - done.
  - intros [H|H%negb_false_iff%Z.eqb_eq]%andb_false_iff; [|change JSVAL_INT_MIN with (- 2 ^ 31) in H; lia]. unfold hasInt32Bounds in H. apply andb_false_iff in H as [H|H]; [rewrite W4 by done|rewrite W5 by done]; lia.
  - done.
  - apply Hbo. lia.
  - apply Hbo. lia.
  - exact Hun.
  - intros Hf Hb E. exfalso. unfold hasInt32Bounds at 1 in Hb. cbn [abs_range lower_ upper_ hasInt32LowerBound_ hasInt32UpperBound_ canHaveFractionalPart_ andb] in *. apply andb_true_iff in Hb as [Hb Hne%negb_true_iff%Z.eqb_neq]. change JSVAL_INT_MIN with (- 2 ^ 31) in Hne.
    specialize (Fo Hf Hb). rewrite !negated_spec in E by done. lia.
Qed.

Lemma abs_contains a : contains op a -> contains abs_range (double_abs a).
Proof.
  intros Ha. pose proof (contains_double _ _ Ha) as Da. destruct (scaled_mod63 a Da) as [Hs Hn]. pose proof unit_pos as Hu. unfold double_abs. pose proof (Z.mod_pos_bound a (2 ^ 63) ltac:(lia)) as Hm.
  assert (Dm : is_double (a mod 2 ^ 63)) by (unfold is_double; lia). destruct Ho as [[W1 W2 W3 W4 W5 W6 W7 W8 W9] _]. destruct (IsNaN a) eqn:Na.
  - destruct (contains_elim_nan _ _ Ha Na) as [E Hb]. apply contains_intro_nan; [done|done|done|]. unfold hasInt32Bounds at 1. cbn. by rewrite Hb.
  - destruct (contains_elim _ _ Ha Na) as [[Fl Fu Fe Fw] Fz]. apply contains_intro; [done|done| |]; cbn [abs_range canBeNegativeZero_].
    2:{ intros _. change kSignBit with (2 ^ 63). lia. }
    rewrite Hs. split; cbn [abs_range lower_ upper_ hasInt32LowerBound_ hasInt32UpperBound_ canHaveFractionalPart_ max_exponent_]; rewrite ?negated_spec by done.
    + intros _. assert (H1 : Z.max 0 (lower_ op) * U <= Z.abs (scaled a)).
      { destruct (Z.max_dec 0 (lower_ op)) as [-> | E]; [lia|]. destruct (hasInt32LowerBound_ op) eqn:B; [specialize (Fl eq_refl); rewrite E; lia|]. rewrite W4 in E by done. lia. }
      assert (H2 : Z.min (- upper_ op) (2 ^ 31 - 1) * U <= Z.abs (scaled a)).
      { destruct (hasInt32UpperBound_ op) eqn:B; [specialize (Fu eq_refl)|rewrite W5 by done; assert (- (2 ^ 31 - 1) * U <= 0) by (apply Z.mul_nonpos_nonneg; lia); lia].
        apply Z.le_trans with (- upper_ op * U); [apply Z.mul_le_mono_nonneg_r; lia|lia]. }
      destruct (Z.max_dec (Z.max 0 (lower_ op)) (Z.min (- upper_ op) (2 ^ 31 - 1))) as [-> | ->]; done.
    + intros [[B1 B2]%andb_true_iff Hne%negb_true_iff%Z.eqb_neq]%andb_true_iff. change JSVAL_INT_MIN with (- 2 ^ 31) in Hne. specialize (Fl B1). specialize (Fu B2). rewrite Z.min_l by lia.
      assert (upper_ op * U <= Z.max (Z.max 0 (upper_ op)) (- lower_ op) * U) by (apply Z.mul_le_mono_nonneg_r; lia). assert (- lower_ op * U <= Z.max (Z.max 0 (upper_ op)) (- lower_ op) * U) by (apply Z.mul_le_mono_nonneg_r; lia). lia.
    + intros He. rewrite Z.abs_idemp. auto.
    + intros Hf. destruct (Fw Hf) as [n ->]. exists (Z.abs n). rewrite Z.abs_mul, (Z.abs_eq U) by lia. done.
Qed.
End Abs.

Lemma range_abs_sound : sound1 range_abs double_abs.
Proof.
  intros op Ho. destruct (abs_consistent op Ho) as [H1 H2]. destruct (optimize_ok _ H1 H2) as (q & Hq & Hw & Hc). exists q. split; [exact Hq|]. split; [done|]. intros a Ha. apply Hc. by apply abs_contains.
Qed.

(** * Sign *)

Lemma math_sign_spec a : IsNaN a = false -> scaled (math_sign_impl a) = Z.sgn (scaled a) * U /\ IsNaN (math_sign_impl a) = false /\ (math_sign_impl a = kSignBit -> a = kSignBit).
Proof.
  intros Hn. unfold math_sign_impl. rewrite Hn. destruct (double_is_zero a) eqn:Hz; [apply double_is_zero_iff in Hz; by rewrite Hz|].
  assert (Hnz : scaled a <> 0) by (intros E; apply double_is_zero_iff in E; congruence). unfold double_lt_zero. rewrite Hn, Hz. cbn [negb andb].
  assert (Hsm : small (-1) /\ small 1) by done. destruct (sign_of a) eqn:Hs.
  - pose proof (sign_nonpos a Hs). rewrite dbl_scaled, dbl_not_nan, Z.sgn_neg by (done || lia). split_and!; [done|done|]. intros E. by vm_compute in E.
  - pose proof (sign_nonneg a Hs). rewrite dbl_scaled, dbl_not_nan, Z.sgn_pos by (done || lia). split_and!; [done|done|]. intros E. by vm_compute in E.
Qed.

Lemma math_sign_double a : is_double a -> is_double (math_sign_impl a).
Proof. intros Hd. unfold math_sign_impl. repeat case_match; [apply GenericNaN_double|done|apply dbl_double|apply dbl_double]. Qed.

Lemma range_sign_ok op : well_formed op -> exists o, range_sign op = mret o /\ (forall q, o = Some q -> well_formed q /\ forall a, contains op a -> contains q (math_sign_impl a)).
Proof.
  intros Ho. unfold range_sign. destruct (canBeNaN op) eqn:N; [by exists None|]. pose proof Ho as [[W1 W2 W3 W4 W5 _ _ _ _] _].
  destruct (new_Range_ok (Z.max (Z.min (lower_ op) 1) (-1)) (Z.max (Z.min (upper_ op) 1) (-1)) false (canBeNegativeZero_ op) 0) as (q & Hq & Hw & Hc); [left; lia|lia..|right; left; change (2 ^ (0 + 1)) with 2; lia|right; left; change (2 ^ (0 + 1)) with 2; lia|done|].
  exists (Some q). rewrite Hq, bind_ret. split; [done|]. intros q' E. simplify_eq. split; [done|]. intros a Ha. pose proof (not_nan _ _ Ha N) as Na. destruct (math_sign_spec a Na) as (Hs & Hn & Hz).
  destruct (contains_elim _ _ Ha Na) as [[Fl Fu _ _] Fz]. pose proof unit_pos as Hu. apply Hc. split; [apply math_sign_double; by eapply contains_double|]. rewrite Hn, Hs. split_and!.
  - intros _. apply Z.mul_le_mono_nonneg_r; [lia|]. destruct (hasInt32LowerBound_ op); [specialize (Fl eq_refl)|rewrite W4 by done; lia].
    destruct (Z.le_gt_cases 1 (lower_ op)); [assert (1 * U <= lower_ op * U) by (apply Z.mul_le_mono_nonneg_r; lia); lia|]. destruct (Z.eq_dec (lower_ op) 0) as [E|]; [rewrite E in *; lia|lia].
  - intros _. apply Z.mul_le_mono_nonneg_r; [lia|]. destruct (hasInt32UpperBound_ op); [specialize (Fu eq_refl)|rewrite W5 by done; lia].
    destruct (Z.le_gt_cases (upper_ op) (-1)); [assert (upper_ op * U <= -1 * U) by (apply Z.mul_le_mono_nonneg_r; lia); lia|]. destruct (Z.eq_dec (upper_ op) 0) as [E|]; [rewrite E in *; lia|lia].
  - intros _. rewrite Z.abs_mul, (Z.abs_eq U) by lia. apply Z.mul_lt_mono_pos_r; [done|]. change (2 ^ (0 + 1)) with 2. lia.
  - intros _. by eexists.
  - intros Hnz E. by apply (Fz Hnz), Hz.
Qed.

(** * NaN and -0 replaced by 0 *)

Definition nan_to_zero (d : Z) : Z := if IsNaN d || double_is_zero d then 0 else d.

Definition zero_range : NumberRange := MkNumberRange 0 0 true true false false 0.

Lemma set_zero : setDoubleSingleton (dbl 0) = mret zero_range.
Proof. reflexivity. Qed.

Lemma zero_range_ok : well_formed zero_range /\ contains zero_range 0.
Proof.
  assert (Hb : bound_ok zero_range 0) by (right; left; done). split; [split; [split; try done; left; done|done]|].
  apply contains_intro; [done|done| |done]. change (scaled 0) with 0. split; cbn; try done. intros _. by exists 0.
Qed.

Definition without_nan (op : NumberRange) : M NumberRange :=
  if canBeNaN op then
    let copy := with_exponent op IncludesInfinity in
    if negb (canBeZero copy) then zero ← setDoubleSingleton (dbl 0); unionWith copy zero else mret copy
  else mret op.

Lemma infinity_exponent op : well_formed op -> canBeNaN op = true -> well_formed (with_exponent op IncludesInfinity) /\
  forall a, contains op a -> IsNaN a = false -> contains (with_exponent op IncludesInfinity) a.
Proof.
  intros [[] [Fo So]] N. split.
  - assert (Hnb : hasInt32Bounds op = false). { apply not_true_iff_false. intros Hb. specialize (So Hb). unfold canBeNaN in N. apply Z.eqb_eq in N. rewrite N in So. by vm_compute in So. }
    split; [|split; [done|change (hasInt32Bounds (with_exponent op IncludesInfinity)) with (hasInt32Bounds op); congruence]]. split; try done; [left; done|by left|by left|intros H; cbn; destruct (canHaveFractionalPart_ op); done].
  - intros a Ha Hn. destruct (contains_elim _ _ Ha Hn) as [[Fl Fu _ Fw] Fz]. apply contains_intro; [by eapply contains_double|done|by split|done].
Qed.

Lemma without_nan_ok op : well_formed op -> exists q, without_nan op = mret q /\ well_formed q /\ forall a, contains op a -> contains q (if IsNaN a then 0 else a).
Proof.
  intros Ho. unfold without_nan. destruct (canBeNaN op) eqn:N.
  2:{ exists op. split; [done|]. split; [done|]. intros a Ha. by rewrite (not_nan _ _ Ha N). }
  destruct (infinity_exponent op Ho N) as [Hw Hc]. cbv zeta. set (copy := with_exponent op IncludesInfinity) in *. destruct (canBeZero copy) eqn:Z0; cbn [negb].
  - exists copy. split; [done|]. split; [done|]. intros a Ha. destruct (IsNaN a) eqn:Na; [|auto]. unfold canBeZero, range_contains in Z0. bsplit. pose proof unit_pos.
    apply contains_intro; [done|done| |done]. change (scaled 0) with 0. split; [intros _; apply Z.mul_nonpos_nonneg; lia|intros _; apply Z.mul_nonneg_nonneg; lia| |intros _; by exists 0]. cbn. intros Hx. by vm_compute in Hx.
  - rewrite set_zero, bind_ret. destruct zero_range_ok as [Zw Zc]. destruct (unionWith_ok copy zero_range Hw Zw) as (q & Hq & Hqw & Hqc). exists q. split; [done|]. split; [done|].
    intros a Ha. apply Hqc. destruct (IsNaN a) eqn:Na; auto.
Qed.

Lemma NaNToZero_eq op : well_formed op -> NaNToZero op = (copy ← without_nan op; refineToExcludeNegativeZero copy).
Proof. intros Ho. unfold NaNToZero, copy_Range. by rewrite (consistent_asserts op (proj1 Ho)), !bind_ret. Qed.

Lemma NaNToZero_sound : sound1 NaNToZero nan_to_zero.
Proof.
  intros op Ho. rewrite NaNToZero_eq by done. destruct (without_nan_ok op Ho) as (q & -> & Hw & Hc). rewrite bind_ret. unfold refineToExcludeNegativeZero. rewrite (consistent_asserts q (proj1 Hw)), bind_ret.
  assert (Hn : consistent (with_negative_zero q false) /\ point_ok (with_negative_zero q false)).
  { destruct Hw as [C [F _]]. split; [by destruct C|]. intros Hf Hb E. specialize (F Hf Hb). cbn in E. lia. }
  destruct (optimize_ok _ (proj1 Hn) (proj2 Hn)) as (q' & Hq & Hqw & Hqc). exists q'. split; [done|]. split; [done|]. intros a Ha. apply Hqc. specialize (Hc a Ha). unfold nan_to_zero.
  assert (Hx : exists d, contains q d /\ IsNaN d = false /\ scaled d = scaled (if IsNaN a || double_is_zero a then 0 else a)).
  { destruct (IsNaN a) eqn:Na; [by exists 0|]. exists a. split; [done|]. split; [done|]. cbn [orb]. destruct (double_is_zero a) eqn:Hz; [|done]. apply double_is_zero_iff in Hz. by rewrite Hz. }
  destruct Hx as (d & Hd & Nd & Hs). destruct (contains_elim _ _ Hd Nd) as [F _]. rewrite Hs in F. apply contains_intro.
  - destruct (IsNaN a || double_is_zero a); [done|by eapply contains_double].
  - destruct (IsNaN a) eqn:Na; [done|]. cbn [orb]. by destruct (double_is_zero a).
  - by destruct F.
  - intros _. destruct (IsNaN a || double_is_zero a) eqn:Hz; [done|]. apply orb_false_iff in Hz as [_ Hz]. intros ->. by vm_compute in Hz.
Qed.
