(* ===== verification/RangeBits.v ===== *)
(** The bit operations and shifts on ranges of 32-bit integers. *)
From S2P Require Import Prelude Words CheckedArithmetic FloatingPoint BigIntRep BigIntMul Conversions BigIntDouble DoubleArith DoubleWhole DoubleOrder RangeAnalysis RangeInv RangeArith RangeProduct RangeLattice.

#[local] Abbreviation U := (2 ^ 1074).

(** * Integers in ranges *)

Definition in_int32 (n : Z) : Prop := - 2 ^ 31 <= n <= 2 ^ 31 - 1.

Lemma in_int32_small n : in_int32 n -> small n.
Proof. unfold in_int32, small. lia. Qed.

Lemma int32_member r n : well_formed r -> isInt32 r = true -> small n -> contains r (dbl n) -> lower_ r <= n <= upper_ r.
Proof.
  intros _ Hi Hn Hc. unfold isInt32, hasInt32Bounds in Hi. bsplit. destruct (contains_elim _ _ Hc (dbl_not_nan n Hn)) as [[Fl Fu _ _] _]. rewrite dbl_scaled in Fl, Fu by done. pose proof unit_pos.
  split; [apply (Z.mul_le_mono_pos_r _ _ U); auto|apply (Z.mul_le_mono_pos_r _ _ U); auto].
Qed.

Lemma int32_range_bounds r : well_formed r -> isInt32 r = true -> lower r = mret (lower_ r) /\ upper r = mret (upper_ r) /\ lower_ r <= upper_ r /\ in_int32 (lower_ r) /\ in_int32 (upper_ r).
Proof.
  intros [[] _] Hi. unfold isInt32, hasInt32Bounds in Hi. apply andb_true_iff in Hi as [[[B1 B2]%andb_true_iff _]%andb_true_iff _]. unfold lower, upper. by rewrite B1, B2.
Qed.

Lemma new_int_range l h : - 2 ^ 31 <= l -> l <= h -> h <= 2 ^ 32 - 1 ->
  exists r, new_Range l h false false 31 = mret r /\ well_formed r /\ forall n, l <= n <= h -> contains r (dbl n).
Proof.
  intros Hl Hlh Hh. destruct (new_Range_ok l h false false 31) as (r & Hr & Hw & Hc); [left; lia|by left|lia|lia|by left|by left|done|]. exists r. split; [done|]. split; [done|].
  intros n Hn. apply Hc. assert (Hs : small n) by (unfold small; lia). pose proof unit_pos. split; [apply dbl_double|]. rewrite dbl_not_nan, dbl_scaled by done. split_and!.
  - intros _. apply Z.mul_le_mono_nonneg_r; lia.
  - intros _. apply Z.mul_le_mono_nonneg_r; lia.
  - intros _. rewrite Z.abs_mul, (Z.abs_eq U) by lia. apply Z.mul_lt_mono_pos_r; [done|]. change (2 ^ (31 + 1)) with 4294967296. lia.
  - intros _. by eexists.
  - intros _ E. assert (Hz : scaled (dbl n) = 0) by (by rewrite E). rewrite dbl_scaled, unit_zero in Hz by done. subst n. by vm_compute in E.
Qed.

(** A range operation on integers follows an operation on integers. *)
Definition int_sound2 (range_op : NumberRange -> NumberRange -> M NumberRange) (op : Z -> Z -> Z) : Prop :=
  forall lhs rhs, well_formed lhs -> well_formed rhs -> isInt32 lhs = true -> isInt32 rhs = true ->
  exists r, range_op lhs rhs = mret r /\ well_formed r /\
    forall x y, in_int32 x -> in_int32 y -> contains lhs (dbl x) -> contains rhs (dbl y) -> contains r (dbl (op x y)).

Definition int_sound1 (range_op : NumberRange -> M NumberRange) (op : Z -> Z) : Prop :=
  forall rg, well_formed rg -> isInt32 rg = true ->
  exists r, range_op rg = mret r /\ well_formed r /\ forall x, in_int32 x -> contains rg (dbl x) -> contains r (dbl (op x)).

(** * Bits of integers *)

Lemma in_int32_shift n : in_int32 n <-> Z.shiftr n 31 = 0 \/ Z.shiftr n 31 = -1.
Proof.
  rewrite Z.shiftr_div_pow2 by lia. unfold in_int32. pose proof (Z.div_mod n (2 ^ 31) ltac:(lia)). pose proof (Z.mod_pos_bound n (2 ^ 31) ltac:(lia)). lia.
Qed.

Lemma in_int32_land x y : in_int32 x -> in_int32 y -> in_int32 (Z.land x y).
Proof. rewrite !in_int32_shift, Z.shiftr_land. by intros [-> | ->] [-> | ->]; auto. Qed.
Lemma in_int32_lor x y : in_int32 x -> in_int32 y -> in_int32 (Z.lor x y).
Proof. rewrite !in_int32_shift, Z.shiftr_lor. by intros [-> | ->] [-> | ->]; auto. Qed.
Lemma in_int32_lxor x y : in_int32 x -> in_int32 y -> in_int32 (Z.lxor x y).
Proof. rewrite !in_int32_shift, Z.shiftr_lxor. by intros [-> | ->] [-> | ->]; auto. Qed.

Lemma lnot_eq x : Z.lnot x = - x - 1.
Proof. unfold Z.lnot. lia. Qed.

Lemma land_le_right x y : 0 <= y \/ x < 0 -> Z.land x y <= y.
Proof.
  intros H. enough (0 <= y - Z.land x y) by lia. rewrite Z.sub_nocarry_ldiff.
  - apply Z.ldiff_nonneg. destruct (Z.lt_ge_cases y 0); [right; apply Z.land_neg; lia|by left].
  - apply Z.bits_inj'. intros i Hi. rewrite Z.ldiff_spec, Z.land_spec, Z.bits_0. by destruct (Z.testbit x i), (Z.testbit y i).
Qed.

Lemma lor_lnot x y : Z.lor x y = Z.lnot (Z.land (Z.lnot x) (Z.lnot y)).
Proof. by rewrite <- Z.lnot_lor, Z.lnot_involutive. Qed.

Lemma lor_ge x y : x < 0 \/ 0 <= y -> x <= Z.lor x y.
Proof. intros H. rewrite lor_lnot, Z.land_comm, lnot_eq. pose proof (land_le_right (Z.lnot y) (Z.lnot x)) as Hl. rewrite !lnot_eq in *. lia. Qed.

(** [UINT32_MAX >> clz(x)]: all ones below the highest bit of [x]. *)
Definition mask_of (x : Z) : Z := 2 ^ (Z.log2 x + 1) - 1.

Lemma log2_int32 x : 0 < x <= 2 ^ 31 - 1 -> 0 <= Z.log2 x <= 30.
Proof. intros Hx. split; [apply Z.log2_nonneg|]. enough (Z.log2 x < 31) by lia. apply Z.log2_lt_pow2; lia. Qed.

Lemma leading_zeroes x : 0 < x <= 2 ^ 31 - 1 -> CountLeadingZeroes32 (uint32 x) = mret (31 - Z.log2 x).
Proof. intros Hx. unfold CountLeadingZeroes32, uint32. rewrite Z.mod_small by lia. by replace (x =? 0) with false by lia. Qed.

Lemma ones_below_eq k : 1 <= k <= 31 -> ones_below k = 2 ^ (32 - k) - 1.
Proof.
  intros Hk. unfold ones_below. change UINT32_MAX with (Z.ones 32). rewrite Z.shiftr_div_pow2, Z.ones_div_pow2, Z.ones_equiv by lia. pose proof (pow_le (32 - k) 31 ltac:(lia)). pose proof (pow_pos (32 - k) ltac:(lia)).
  apply int32_id. unfold is_int32. lia.
Qed.

Lemma mask_below x : 0 < x <= 2 ^ 31 - 1 -> ones_below (31 - Z.log2 x) = mask_of x.
Proof. intros Hx. pose proof (log2_int32 x Hx). rewrite ones_below_eq by lia. unfold mask_of. do 2 f_equal. lia. Qed.

Lemma mask_max x y : 0 < x <= 2 ^ 31 - 1 -> 0 < y <= 2 ^ 31 - 1 -> ones_below (Z.min (31 - Z.log2 x) (31 - Z.log2 y)) = Z.max (mask_of x) (mask_of y).
Proof.
  intros Hx Hy. pose proof (log2_int32 x Hx). pose proof (log2_int32 y Hy). unfold mask_of. destruct (Z.le_gt_cases (Z.log2 x) (Z.log2 y)).
  - pose proof (pow_le (Z.log2 x + 1) (Z.log2 y + 1) ltac:(lia)). rewrite Z.min_r, ones_below_eq, Z.max_r by lia. do 2 f_equal. lia.
  - pose proof (pow_le (Z.log2 y + 1) (Z.log2 x + 1) ltac:(lia)). rewrite Z.min_l, ones_below_eq, Z.max_l by lia. do 2 f_equal. lia.
Qed.

Lemma mask_ge x : 0 <= x -> x <= mask_of x.
Proof. intros Hx. unfold mask_of. destruct (Z.eq_dec x 0) as [->|]; [done|]. pose proof (Z.log2_spec x ltac:(lia)). replace (Z.log2 x + 1) with (Z.succ (Z.log2 x)) by lia. lia. Qed.

(** Numbers below a mask stay below it. *)
Lemma below_mask x m k : 0 <= k -> m = 2 ^ k - 1 -> (0 <= x <= m <-> Z.shiftr x k = 0).
Proof.
  intros Hk ->. rewrite Z.shiftr_div_pow2 by done. pose proof (pow_pos k Hk) as Hp. pose proof (Z.div_mod x (2 ^ k) ltac:(lia)). pose proof (Z.mod_pos_bound x (2 ^ k) Hp). split; [intros; apply Z.div_small; lia|intros E; rewrite E in *; lia].
Qed.

Lemma lor_below x y m k : 0 <= k -> m = 2 ^ k - 1 -> 0 <= x <= m -> 0 <= y <= m -> 0 <= Z.lor x y <= m.
Proof. intros Hk Hm. rewrite !(below_mask _ m k Hk Hm), Z.shiftr_lor. intros -> ->. done. Qed.

Lemma land_below x y m k : 0 <= k -> m = 2 ^ k - 1 -> 0 <= x <= m -> 0 <= y <= m -> 0 <= Z.land x y <= m.
Proof. intros Hk Hm. rewrite !(below_mask _ m k Hk Hm), Z.shiftr_land. intros -> ->. done. Qed.

(** The high bits of one number, all ones below. *)
Lemma lor_mask r k : 0 <= k -> Z.lor r (2 ^ k - 1) = Z.shiftr r k * 2 ^ k + (2 ^ k - 1).
Proof.
  intros Hk. pose proof (pow_pos k Hk) as Hp. replace (2 ^ k - 1) with (Z.ones k) by (rewrite Z.ones_equiv; lia). set (v := Z.lor r (Z.ones k)).
  assert (Hd : v / 2 ^ k = Z.shiftr r k).
  { rewrite <- Z.shiftr_div_pow2 by done. unfold v. rewrite Z.shiftr_lor. replace (Z.shiftr (Z.ones k) k) with 0; [apply Z.lor_0_r|]. rewrite Z.shiftr_div_pow2, Z.div_small by (rewrite ?Z.ones_equiv; lia). done. }
  assert (Hm : v mod 2 ^ k = Z.ones k).
  { rewrite <- Z.land_ones by done. unfold v. apply Z.bits_inj'. intros i Hi. rewrite Z.land_spec, Z.lor_spec. by destruct (Z.testbit r i), (Z.testbit (Z.ones k) i). }
  pose proof (Z.div_mod v (2 ^ k) ltac:(lia)) as E. rewrite Hd, Hm in E. lia.
Qed.

Lemma lxor_mask x y r k : 0 <= k -> 0 <= x <= 2 ^ k - 1 -> 0 <= y <= r -> Z.lxor x y <= Z.lor r (2 ^ k - 1).
Proof.
  intros Hk Hx Hy. rewrite lor_mask by done. pose proof (pow_pos k Hk) as Hp. pose proof (Z.div_mod (Z.lxor x y) (2 ^ k) ltac:(lia)) as E. pose proof (Z.mod_pos_bound (Z.lxor x y) (2 ^ k) Hp).
  rewrite <- Z.shiftr_div_pow2, Z.shiftr_lxor in E by done. rewrite (proj1 (below_mask x _ k Hk eq_refl) Hx), Z.lxor_0_l in E. rewrite !Z.shiftr_div_pow2 in * by done.
  assert (y / 2 ^ k <= r / 2 ^ k) by (apply Z.div_le_mono; lia). assert (2 ^ k * (y / 2 ^ k) <= 2 ^ k * (r / 2 ^ k)) by (apply Z.mul_le_mono_nonneg_l; lia). lia.
Qed.

Lemma lor_mask_ge r k : 0 <= k -> 0 <= r -> 2 ^ k - 1 <= Z.lor r (2 ^ k - 1) /\ r <= Z.lor r (2 ^ k - 1).
Proof. intros Hk Hr. pose proof (pow_pos k Hk). split; [rewrite Z.lor_comm|]; apply lor_ge; lia. Qed.

(** * Building integer ranges *)

Section Build.
Context (lhs rhs : NumberRange) (Hl : well_formed lhs) (Hr : well_formed rhs) (Il : isInt32 lhs = true) (Ir : isInt32 rhs = true).

Lemma int_build l h (op : Z -> Z -> Z) : - 2 ^ 31 <= l -> l <= h -> h <= 2 ^ 32 - 1 ->
  (forall x y, in_int32 x -> in_int32 y -> lower_ lhs <= x <= upper_ lhs -> lower_ rhs <= y <= upper_ rhs -> l <= op x y <= h) ->
  exists r, new_Range l h false false 31 = mret r /\ well_formed r /\
    forall x y, in_int32 x -> in_int32 y -> contains lhs (dbl x) -> contains rhs (dbl y) -> contains r (dbl (op x y)).
Proof.
  intros H1 H2 H3 Hop. destruct (new_int_range l h H1 H2 H3) as (r & Hq & Hw & Hc). exists r. split; [done|]. split; [done|]. intros x y Hx Hy Cx Cy.
  apply Hc, Hop; [done|done|apply int32_member; auto using in_int32_small|apply int32_member; auto using in_int32_small].
Qed.

End Build.

Lemma range_and_sound : int_sound2 range_and Z.land.
Proof.
  intros lhs rhs Hl Hr Il Ir. unfold range_and. rewrite Il, Ir. change (moz_assert true) with (mret tt : M unit).
  destruct (int32_range_bounds _ Hl Il) as (E1 & E2 & O1 & L1 & U1), (int32_range_bounds _ Hr Ir) as (E3 & E4 & O2 & L2 & U2). rewrite E1, E2, E3, E4, !bind_ret. clear E1 E2 E3 E4. unfold in_int32 in L1, U1, L2, U2.
  assert (Hlow : forall x y, in_int32 x -> in_int32 y -> - 2 ^ 31 <= Z.land x y) by (intros x y Hx Hy; apply (in_int32_land x y Hx Hy)). unfold NewInt32Range. cbv zeta. change MaxInt32Exponent with 31. change JSVAL_INT_MIN with (- 2 ^ 31).
  destruct (Z.ltb_spec (lower_ lhs) 0), (Z.ltb_spec (lower_ rhs) 0); cbn [andb]; apply (int_build lhs rhs Hl Hr Il Ir); try lia; intros x y Hx Hy Bx By; specialize (Hlow x y Hx Hy); unfold in_int32 in *.
  - split; [done|]. destruct (Z.lt_ge_cases y 0); [destruct (Z.lt_ge_cases x 0)|].
    + pose proof (land_le_right x y ltac:(lia)). lia.
    + pose proof (land_le_right y x ltac:(lia)) as H'. rewrite Z.land_comm in H'. lia.
    + pose proof (land_le_right x y ltac:(lia)). lia.
  - split; [apply Z.land_nonneg; lia|]. pose proof (land_le_right x y ltac:(lia)). lia.
  - split; [apply Z.land_nonneg; lia|]. pose proof (land_le_right y x ltac:(lia)) as H'. rewrite Z.land_comm in H'. lia.
  - split; [apply Z.land_nonneg; lia|]. pose proof (land_le_right x y ltac:(lia)). pose proof (land_le_right y x ltac:(lia)) as H'. rewrite Z.land_comm in H'. lia.
Qed.

(** * Disjunction *)

(** A negative operand keeps the ones above the highest zero of its lower
    bound. *)
Lemma lor_negative x y l : l <= x < 0 -> l < -1 -> Z.lnot (mask_of (Z.lnot l)) <= Z.lor x y < 0.
Proof.
  intros Hx Hl. pose proof (lor_ge x y ltac:(lia)). pose proof (mask_ge (Z.lnot l) ltac:(rewrite lnot_eq; lia)). rewrite !lnot_eq in *. split; [lia|]. apply Z.lor_neg. lia.
Qed.

Lemma lor_nonnegative x y u v : 0 <= x <= u -> 0 <= y <= v -> 0 < u -> 0 < v -> Z.max x y <= Z.lor x y <= Z.max (mask_of u) (mask_of v).
Proof.
  intros Hx Hy Hu Hv. split; [pose proof (lor_ge x y ltac:(lia)); pose proof (lor_ge y x ltac:(lia)) as H'; rewrite Z.lor_comm in H'; lia|].
  pose proof (mask_ge u ltac:(lia)). pose proof (mask_ge v ltac:(lia)). pose proof (Z.log2_nonneg u). pose proof (Z.log2_nonneg v). destruct (Z.max_dec (mask_of u) (mask_of v)) as [E|E]; rewrite E.
  - apply (lor_below x y (mask_of u) (Z.log2 u + 1)); [lia|done|lia|lia].
  - apply (lor_below x y (mask_of v) (Z.log2 v + 1)); [lia|done|lia|lia].
Qed.

Lemma mask_int32 x : 0 < x <= 2 ^ 31 - 1 -> 0 < mask_of x <= 2 ^ 31 - 1.
Proof. intros Hx. pose proof (log2_int32 x Hx). unfold mask_of. pose proof (pow_le (Z.log2 x + 1) 31 ltac:(lia)). pose proof (pow_le 1 (Z.log2 x + 1) ltac:(lia)). lia. Qed.

(** The bounds that [or_] finds when an operand can be negative. *)
Definition or_lower (l ll lu : Z) : Z := if lu <? 0 then Z.max l (Z.lnot (mask_of (Z.lnot ll))) else l.
Definition or_upper (u lu : Z) : Z := if lu <? 0 then -1 else u.

Lemma leading_ones ll : - 2 ^ 31 <= ll -> ll < -1 -> CountLeadingZeroes32 (uint32 (Z.lnot ll)) = mret (31 - Z.log2 (Z.lnot ll)) /\ ones_below (31 - Z.log2 (Z.lnot ll)) = mask_of (Z.lnot ll).
Proof. intros H1 H2. assert (H : 0 < Z.lnot ll <= 2 ^ 31 - 1) by (rewrite lnot_eq; lia). split; [by apply leading_zeroes|by apply mask_below]. Qed.

Section Disjunction.
Context (lhs rhs : NumberRange) (Hl : well_formed lhs) (Hr : well_formed rhs) (Il : isInt32 lhs = true) (Ir : isInt32 rhs = true).
#[local] Abbreviation ll := (lower_ lhs).
#[local] Abbreviation lu := (upper_ lhs).
#[local] Abbreviation rl := (lower_ rhs).
#[local] Abbreviation ru := (upper_ rhs).

Lemma or_bounds x y : ~ (ll = -1 /\ lu = -1) -> ~ (rl = -1 /\ ru = -1) -> in_int32 x -> in_int32 y -> ll <= x <= lu -> rl <= y <= ru ->
  or_lower (or_lower (- 2 ^ 31) ll lu) rl ru <= Z.lor x y <= or_upper (or_upper (2 ^ 31 - 1) lu) ru.
Proof.
  intros N1 N2 Hx Hy Bx By. pose proof (in_int32_lor x y Hx Hy) as Ho. unfold in_int32 in Ho, Hx, Hy. unfold or_lower, or_upper. destruct (Z.ltb_spec lu 0), (Z.ltb_spec ru 0).
  - pose proof (lor_negative x y ll ltac:(lia) ltac:(lia)). pose proof (lor_negative y x rl ltac:(lia) ltac:(lia)) as H'. rewrite Z.lor_comm in H'. lia.
  - pose proof (lor_negative x y ll ltac:(lia) ltac:(lia)). lia.
  - pose proof (lor_negative y x rl ltac:(lia) ltac:(lia)) as H'. rewrite Z.lor_comm in H'. lia.
  - lia.
Qed.
End Disjunction.

Lemma or_lower_range l ll lu : - 2 ^ 31 <= l <= -1 -> - 2 ^ 31 <= ll -> ll <= lu -> ~ (ll = -1 /\ lu = -1) -> - 2 ^ 31 <= or_lower l ll lu <= -1.
Proof.
  intros Hl H1 H2 H3. unfold or_lower. destruct (Z.ltb_spec lu 0); [|done]. pose proof (mask_int32 (Z.lnot ll) ltac:(rewrite lnot_eq; lia)). rewrite lnot_eq. lia.
Qed.

(** A step of [or_]: the bounds after one operand. *)
Lemma or_step l u ll lu : - 2 ^ 31 <= ll -> ll <= lu -> ~ (ll = -1 /\ lu = -1) ->
  (if lu <? 0 then leadingOnes ← CountLeadingZeroes32 (uint32 (Z.lnot ll)); mret (Z.max l (Z.lnot (ones_below leadingOnes)), -1) else mret (l, u)) = mret (or_lower l ll lu, or_upper u lu).
Proof.
  intros H1 H2 H3. unfold or_lower, or_upper. destruct (Z.ltb_spec lu 0); [|done]. destruct (leading_ones ll) as [E1 E2]; [lia|lia|]. by rewrite E1, bind_ret, E2.
Qed.

Lemma range_or_sound : int_sound2 range_or Z.lor.
Proof.
  intros lhs rhs Hl Hr Il Ir. unfold range_or. rewrite Il, Ir. change (moz_assert true) with (mret tt : M unit).
  destruct (int32_range_bounds _ Hl Il) as (E1 & E2 & O1 & L1 & U1), (int32_range_bounds _ Hr Ir) as (E3 & E4 & O2 & L2 & U2). rewrite E1, E2, E3, E4, !bind_ret. clear E1 E2 E3 E4. unfold in_int32 in L1, U1, L2, U2.
  assert (Hcopy : forall r, well_formed r -> copy_Range r = mret r) by (intros r Hw; unfold copy_Range; by rewrite (consistent_asserts r (proj1 Hw))).
  assert (Hpoint : forall r v x, well_formed r -> isInt32 r = true -> in_int32 x -> contains r (dbl x) -> (lower_ r =? upper_ r) && (lower_ r =? v) = true -> x = v).
  { intros r v x Hw Hi Hx Hc Hv. bsplit. pose proof (int32_member r x Hw Hi (in_int32_small x Hx) Hc). lia. }
  destruct ((lower_ lhs =? upper_ lhs) && (lower_ lhs =? 0)) eqn:C1.
  { exists rhs. split; [by apply Hcopy|]. split; [done|]. intros x y Hx Hy Cx Cy. by rewrite (Hpoint lhs 0 x Hl Il Hx Cx C1). }
  destruct ((lower_ lhs =? upper_ lhs) && (lower_ lhs =? -1)) eqn:C2.
  { exists lhs. split; [by apply Hcopy|]. split; [done|]. intros x y Hx Hy Cx Cy. pose proof (Hpoint lhs (-1) x Hl Il Hx Cx C2) as ->. by rewrite Z.lor_m1_l. }
  destruct ((lower_ rhs =? upper_ rhs) && (lower_ rhs =? 0)) eqn:C3.
  { exists lhs. split; [by apply Hcopy|]. split; [done|]. intros x y Hx Hy Cx Cy. by rewrite (Hpoint rhs 0 y Hr Ir Hy Cy C3), Z.lor_0_r. }
  destruct ((lower_ rhs =? upper_ rhs) && (lower_ rhs =? -1)) eqn:C4.
  { exists rhs. split; [by apply Hcopy|]. split; [done|]. intros x y Hx Hy Cx Cy. pose proof (Hpoint rhs (-1) y Hr Ir Hy Cy C4) as ->. by rewrite Z.lor_m1_r. }
  assert (A1 : moz_assert_if (lower_ lhs >=? 0) (negb (upper_ lhs =? 0)) = mret tt). { destruct (Z.geb_spec (lower_ lhs) 0); [|done]. by replace (upper_ lhs =? 0) with false by lia. }
  assert (A2 : moz_assert_if (lower_ rhs >=? 0) (negb (upper_ rhs =? 0)) = mret tt). { destruct (Z.geb_spec (lower_ rhs) 0); [|done]. by replace (upper_ rhs =? 0) with false by lia. }
  assert (A3 : moz_assert_if (upper_ lhs <? 0) (negb (lower_ lhs =? -1)) = mret tt). { destruct (Z.ltb_spec (upper_ lhs) 0); [|done]. by replace (lower_ lhs =? -1) with false by lia. }
  assert (A4 : moz_assert_if (upper_ rhs <? 0) (negb (lower_ rhs =? -1)) = mret tt). { destruct (Z.ltb_spec (upper_ rhs) 0); [|done]. by replace (lower_ rhs =? -1) with false by lia. }
  rewrite A1, A2, A3, A4, !bind_ret. clear A1 A2 A3 A4. unfold NewInt32Range. change MaxInt32Exponent with 31. change JSVAL_INT_MIN with (- 2 ^ 31). change JSVAL_INT_MAX with (2 ^ 31 - 1).
  destruct ((lower_ lhs >=? 0) && (lower_ rhs >=? 0)) eqn:Hpos.
  - assert (P1 : 0 < upper_ lhs <= 2 ^ 31 - 1) by lia. assert (P2 : 0 < upper_ rhs <= 2 ^ 31 - 1) by lia. rewrite (leading_zeroes _ P1), (leading_zeroes _ P2), !bind_ret, mask_max by done.
    pose proof (mask_int32 _ P1). pose proof (mask_int32 _ P2). pose proof (mask_ge (upper_ lhs) ltac:(lia)). pose proof (mask_ge (upper_ rhs) ltac:(lia)). apply (int_build lhs rhs Hl Hr Il Ir); [lia|lia|lia|].
    intros x y Hx Hy Bx By. pose proof (lor_nonnegative x y (upper_ lhs) (upper_ rhs) ltac:(lia) ltac:(lia) ltac:(lia) ltac:(lia)). lia.
  - assert (N1 : ~ (lower_ lhs = -1 /\ upper_ lhs = -1)) by lia. assert (N2 : ~ (lower_ rhs = -1 /\ upper_ rhs = -1)) by lia.
    rewrite or_step, bind_ret by lia. rewrite or_step, bind_ret by lia. pose proof (or_lower_range (- 2 ^ 31) (lower_ lhs) (upper_ lhs) ltac:(lia) ltac:(lia) O1 N1) as R1.
    pose proof (or_lower_range _ (lower_ rhs) (upper_ rhs) R1 ltac:(lia) O2 N2) as R2. assert (R3 : -1 <= or_upper (or_upper (2 ^ 31 - 1) (upper_ lhs)) (upper_ rhs) <= 2 ^ 31 - 1) by (unfold or_upper; repeat case_match; lia).
    apply (int_build lhs rhs Hl Hr Il Ir); [lia|lia|lia|]. intros x y Hx Hy Bx By. by apply or_bounds.
Qed.

(** * Exclusive disjunction *)

(** The part of [xor_] between the inversions. *)
Definition xor_core (lhsLower lhsUpper rhsLower rhsUpper : Z) : M (Z * Z) :=
  if (lhsLower =? 0) && (lhsUpper =? 0) then mret (rhsLower, rhsUpper)
  else if (rhsLower =? 0) && (rhsUpper =? 0) then mret (lhsLower, lhsUpper)
  else if (lhsLower >=? 0) && (rhsLower >=? 0) then
    lhsLeadingZeros ← CountLeadingZeroes32 (uint32 lhsUpper);
    rhsLeadingZeros ← CountLeadingZeroes32 (uint32 rhsUpper);
    mret (0, Z.min (Z.lor rhsUpper (ones_below lhsLeadingZeros)) (Z.lor lhsUpper (ones_below rhsLeadingZeros)))
  else mret (JSVAL_INT_MIN, JSVAL_INT_MAX).

Lemma xor_core_ok l1 u1 l2 u2 : - 2 ^ 31 <= l1 <= u1 -> 0 <= u1 <= 2 ^ 31 - 1 -> - 2 ^ 31 <= l2 <= u2 -> 0 <= u2 <= 2 ^ 31 - 1 ->
  exists lo hi, xor_core l1 u1 l2 u2 = mret (lo, hi) /\ - 2 ^ 31 <= lo <= hi /\ hi <= 2 ^ 31 - 1 /\
    forall x y, l1 <= x <= u1 -> l2 <= y <= u2 -> lo <= Z.lxor x y <= hi.
Proof.
  intros B1 P1 B2 P2. unfold xor_core. destruct ((l1 =? 0) && (u1 =? 0)) eqn:C1.
  { bsplit. exists l2, u2. split; [done|]. split; [lia|]. split; [lia|]. intros x y Hx Hy. assert (x = 0) as -> by lia. by rewrite Z.lxor_0_l. }
  destruct ((l2 =? 0) && (u2 =? 0)) eqn:C2.
  { bsplit. exists l1, u1. split; [done|]. split; [lia|]. split; [lia|]. intros x y Hx Hy. assert (y = 0) as -> by lia. by rewrite Z.lxor_0_r. }
  destruct ((l1 >=? 0) && (l2 >=? 0)) eqn:C3.
  2:{ exists (- 2 ^ 31), (2 ^ 31 - 1). split; [done|]. split; [lia|]. split; [lia|]. intros x y Hx Hy. apply in_int32_lxor; unfold in_int32; lia. }
  assert (Q1 : 0 < u1 <= 2 ^ 31 - 1) by lia. assert (Q2 : 0 < u2 <= 2 ^ 31 - 1) by lia. rewrite (leading_zeroes _ Q1), (leading_zeroes _ Q2), !bind_ret, !mask_below by done.
  pose proof (mask_int32 _ Q1) as M1. pose proof (mask_int32 _ Q2) as M2. assert (Hb : forall u v, 0 < u <= 2 ^ 31 - 1 -> 0 < v <= 2 ^ 31 - 1 -> 0 <= Z.lor v (mask_of u) <= 2 ^ 31 - 1).
  { intros u v Hu Hv. pose proof (mask_int32 u Hu). apply (lor_below v (mask_of u) (2 ^ 31 - 1) 31); lia. }
  pose proof (Hb u1 u2 Q1 Q2). pose proof (Hb u2 u1 Q2 Q1). eexists _, _. split; [done|]. split; [lia|]. split; [lia|]. intros x y Hx Hy. pose proof (Z.log2_nonneg u1). pose proof (Z.log2_nonneg u2). pose proof (mask_ge u1 ltac:(lia)). pose proof (mask_ge u2 ltac:(lia)).
  split; [apply Z.lxor_nonneg; lia|]. apply Z.min_glb.
  - apply (lxor_mask x y u2 (Z.log2 u1 + 1)); fold (mask_of u1); lia.
  - rewrite Z.lxor_comm. apply (lxor_mask y x u1 (Z.log2 u2 + 1)); fold (mask_of u2); lia.
Qed.

Lemma range_xor_eq lhs rhs : well_formed lhs -> well_formed rhs -> isInt32 lhs = true -> isInt32 rhs = true -> range_xor lhs rhs =
  let '(l1, u1, i1) := if upper_ lhs <? 0 then (Z.lnot (upper_ lhs), Z.lnot (lower_ lhs), true) else (lower_ lhs, upper_ lhs, false) in
  let '(l2, u2, i2) := if upper_ rhs <? 0 then (Z.lnot (upper_ rhs), Z.lnot (lower_ rhs), negb i1) else (lower_ rhs, upper_ rhs, i1) in
  '(lo, hi) ← xor_core l1 u1 l2 u2;
  let '(lo, hi) := if i2 : bool then (Z.lnot hi, Z.lnot lo) else (lo, hi) in NewInt32Range lo hi.
Proof.
  intros Hl Hr Il Ir. unfold range_xor. rewrite Il, Ir. change (moz_assert true) with (mret tt : M unit).
  destruct (int32_range_bounds _ Hl Il) as (E1 & E2 & _), (int32_range_bounds _ Hr Ir) as (E3 & E4 & _). by rewrite E1, E2, E3, E4, !bind_ret.
Qed.

Lemma lxor_lnot_l x y : Z.lxor (Z.lnot x) y = Z.lnot (Z.lxor x y).
Proof. symmetry. apply Z.lnot_lxor_l. Qed.
Lemma lxor_lnot_r x y : Z.lxor x (Z.lnot y) = Z.lnot (Z.lxor x y).
Proof. symmetry. apply Z.lnot_lxor_r. Qed.

Lemma range_xor_sound : int_sound2 range_xor Z.lxor.
Proof.
  intros lhs rhs Hl Hr Il Ir. rewrite range_xor_eq by done. destruct (int32_range_bounds _ Hl Il) as (_ & _ & O1 & L1 & U1), (int32_range_bounds _ Hr Ir) as (_ & _ & O2 & L2 & U2). unfold in_int32 in L1, U1, L2, U2.
  unfold NewInt32Range. change MaxInt32Exponent with 31. destruct (Z.ltb_spec (upper_ lhs) 0) as [S1|S1], (Z.ltb_spec (upper_ rhs) 0) as [S2|S2]; cbn [negb].
  - destruct (xor_core_ok (Z.lnot (upper_ lhs)) (Z.lnot (lower_ lhs)) (Z.lnot (upper_ rhs)) (Z.lnot (lower_ rhs))) as (lo & hi & -> & H1 & H2 & Hc); [rewrite !lnot_eq; lia..|]. rewrite bind_ret. apply (int_build lhs rhs Hl Hr Il Ir); [lia..|].
    intros x y _ _ Bx By. specialize (Hc (Z.lnot x) (Z.lnot y) ltac:(rewrite !lnot_eq; lia) ltac:(rewrite !lnot_eq; lia)). rewrite lxor_lnot_l, lxor_lnot_r, Z.lnot_involutive in Hc. done.
  - destruct (xor_core_ok (Z.lnot (upper_ lhs)) (Z.lnot (lower_ lhs)) (lower_ rhs) (upper_ rhs)) as (lo & hi & -> & H1 & H2 & Hc); [rewrite ?lnot_eq; lia..|]. rewrite bind_ret. apply (int_build lhs rhs Hl Hr Il Ir); [rewrite ?lnot_eq; lia..|].
    intros x y _ _ Bx By. specialize (Hc (Z.lnot x) y ltac:(rewrite !lnot_eq; lia) By). rewrite lxor_lnot_l in Hc. rewrite !lnot_eq in *. lia.
  - destruct (xor_core_ok (lower_ lhs) (upper_ lhs) (Z.lnot (upper_ rhs)) (Z.lnot (lower_ rhs))) as (lo & hi & -> & H1 & H2 & Hc); [rewrite ?lnot_eq; lia..|]. rewrite bind_ret. apply (int_build lhs rhs Hl Hr Il Ir); [rewrite ?lnot_eq; lia..|].
    intros x y _ _ Bx By. specialize (Hc x (Z.lnot y) Bx ltac:(rewrite !lnot_eq; lia)). rewrite lxor_lnot_r in Hc. rewrite !lnot_eq in *. lia.
  - destruct (xor_core_ok (lower_ lhs) (upper_ lhs) (lower_ rhs) (upper_ rhs)) as (lo & hi & -> & H1 & H2 & Hc); [lia..|]. rewrite bind_ret. apply (int_build lhs rhs Hl Hr Il Ir); [lia..|]. auto.
Qed.

(** * Complement *)

Lemma int_build1 rg l h (op : Z -> Z) : well_formed rg -> isInt32 rg = true -> - 2 ^ 31 <= l -> l <= h -> h <= 2 ^ 32 - 1 -> (forall x, in_int32 x -> lower_ rg <= x <= upper_ rg -> l <= op x <= h) ->
  exists r, new_Range l h false false 31 = mret r /\ well_formed r /\ forall x, in_int32 x -> contains rg (dbl x) -> contains r (dbl (op x)).
Proof.
  intros Hw Hi H1 H2 H3 Hop. destruct (new_int_range l h H1 H2 H3) as (r & Hq & Hrw & Hc). exists r. split; [done|]. split; [done|]. intros x Hx Cx. apply Hc, Hop; [done|]. apply int32_member; auto using in_int32_small.
Qed.

Lemma range_not_sound : int_sound1 range_not Z.lnot.
Proof.
  intros rg Hw Hi. unfold range_not. rewrite Hi. change (moz_assert true) with (mret tt : M unit). destruct (int32_range_bounds _ Hw Hi) as (E1 & E2 & O & L & Up). rewrite E1, E2, !bind_ret. unfold in_int32 in *.
  apply int_build1; rewrite ?lnot_eq; try done; try lia. intros x _ Bx. rewrite !lnot_eq. lia.
Qed.
