(* ===== verification/RangeShifts.v ===== *)
(** The shifts on ranges of 32-bit integers. *)
From S2P Require Import Prelude Words CheckedArithmetic FloatingPoint BigIntRep BigIntMul Conversions BigIntDouble DoubleArith DoubleWhole DoubleOrder RangeAnalysis RangeInv RangeArith RangeProduct RangeLattice RangeBits.

(** * The operators *)

Definition shift_left (x y : Z) : Z := int32 (Z.shiftl x (Z.land y 0x1f)).
Definition shift_right (x y : Z) : Z := Z.shiftr x (Z.land y 0x1f).
Definition shift_right_unsigned (x y : Z) : Z := Z.shiftr (uint32 x) (Z.land y 0x1f).

Lemma shift_count c : 0 <= Z.land c 0x1f <= 31 /\ Z.land c 0x1f = c mod 32.
Proof. assert (E : Z.land c 0x1f = c mod 32) by exact (Z.land_ones c 5 ltac:(lia)). rewrite E. pose proof (Z.mod_pos_bound c 32 ltac:(lia)). split; [lia|done]. Qed.

Lemma shiftr_mono x y s : 0 <= s -> x <= y -> Z.shiftr x s <= Z.shiftr y s.
Proof. intros Hs H. rewrite !Z.shiftr_div_pow2 by done. apply Z.div_le_mono; [|done]. by apply pow_pos. Qed.

(** Shifting further brings a number closer to zero, or to -1. *)
Lemma shiftr_further x s t : 0 <= s <= t -> (0 <= x -> 0 <= Z.shiftr x t <= Z.shiftr x s) /\ (x < 0 -> Z.shiftr x s <= Z.shiftr x t < 0).
Proof.
  intros Hst. replace t with (s + (t - s)) by lia. rewrite <- Z.shiftr_shiftr by lia. assert (Hp : 0 < 2 ^ (t - s)) by (apply pow_pos; lia). set (y := Z.shiftr x s). rewrite (Z.shiftr_div_pow2 y) by lia. split; intros Hx.
  - assert (0 <= y) by (apply Z.shiftr_nonneg; done). split; [apply Z.div_pos; lia|]. apply Z.div_le_upper_bound; [done|]. set (p := 2 ^ (t - s)) in *. clearbody p. assert (1 * y <= p * y) by (apply Z.mul_le_mono_nonneg_r; lia). lia.
  - assert (y < 0) by (apply Z.shiftr_neg; done). split; [apply Z.div_le_lower_bound; [done|]|apply Z.div_lt_upper_bound; [done|lia]].
    set (p := 2 ^ (t - s)) in *. clearbody p. assert (p * y <= 1 * y) by (apply Z.mul_le_mono_nonpos_r; lia). lia.
Qed.

Lemma shiftr_bounds x s : 0 <= s -> (0 <= x -> 0 <= Z.shiftr x s <= x) /\ (x < 0 -> x <= Z.shiftr x s < 0).
Proof. intros Hs. destruct (shiftr_further x 0 s ltac:(lia)) as [H1 H2]. by rewrite Z.shiftr_0_r in *. Qed.

Lemma in_int32_shiftr x s : 0 <= s -> in_int32 x -> in_int32 (Z.shiftr x s).
Proof. intros Hs Hx. unfold in_int32 in *. destruct (shiftr_bounds x s Hs). lia. Qed.

(** * Constant shifts *)

Lemma there_and_back x s : 0 <= s <= 31 -> shift_there_and_back x s = x mod 2 ^ (31 - s).
Proof.
  intros Hs. unfold shift_there_and_back, uint32. pose proof (pow_pos (31 - s) ltac:(lia)) as Hp. pose proof (pow_le (31 - s) 31 ltac:(lia)) as Hp'. assert (E : Z.shiftl (Z.shiftl (x mod 2 ^ 32) s mod 2 ^ 32) 1 mod 2 ^ 32 = x mod 2 ^ (31 - s) * 2 ^ (s + 1)).
  { rewrite !Z.shiftl_mul_pow2, Z.mul_mod_idemp_l by lia. rewrite <- Z.mul_assoc, <- Z.pow_add_r, Z.mul_mod_idemp_l by lia. replace (2 ^ 32) with (2 ^ (31 - s) * 2 ^ (s + 1)) by (rewrite <- Z.pow_add_r by lia; f_equal; lia). rewrite Z.mul_mod_distr_r; [done|lia|pose proof (pow_pos (s + 1) ltac:(lia)); lia]. }
  rewrite E, Z.shiftr_shiftr, Z.shiftr_div_pow2, Z.div_mul by (try lia; pose proof (pow_pos (s + 1) ltac:(lia)); lia). pose proof (Z.mod_pos_bound x (2 ^ (31 - s)) Hp). apply int32_id. unfold is_int32. lia.
Qed.

Lemma range_lsh_constant_sound c : int_sound1 (fun lhs => range_lsh_constant lhs c) (fun x => shift_left x c).
Proof.
  intros rg Hw Hi. unfold range_lsh_constant. rewrite Hi. change (moz_assert true) with (mret tt : M unit). destruct (int32_range_bounds _ Hw Hi) as (E1 & E2 & O & L & Up). rewrite bind_ret, E1, E2. cbv zeta. rewrite !bind_ret. clear E1 E2.
  destruct (shift_count c) as [Hs _]. unfold shift_left. set (s := Z.land c 0x1f) in *. clearbody s. unfold NewInt32Range. change MaxInt32Exponent with 31. rewrite !there_and_back by done. unfold in_int32 in *. destruct (_ && _) eqn:Hc.
  - bsplit. pose proof (pow_pos (31 - s) ltac:(lia)) as Hp. pose proof (Z.mod_pos_bound (lower_ rg) (2 ^ (31 - s)) Hp). pose proof (Z.mod_pos_bound (upper_ rg) (2 ^ (31 - s)) Hp).
    assert (Hin : forall x, lower_ rg <= x <= upper_ rg -> 0 <= Z.shiftl x s <= 2 ^ 31 - 1).
    { intros x Hx. rewrite Z.shiftl_mul_pow2 by lia. assert (E : 2 ^ 31 = 2 ^ (31 - s) * 2 ^ s) by (rewrite <- Z.pow_add_r by lia; f_equal; lia). pose proof (pow_pos s ltac:(lia)). assert (x * 2 ^ s < 2 ^ (31 - s) * 2 ^ s) by (apply Z.mul_lt_mono_pos_r; lia). assert (0 <= x * 2 ^ s) by (apply Z.mul_nonneg_nonneg; lia). lia. }
    assert (Hid : forall x, lower_ rg <= x <= upper_ rg -> int32 (uint32 (Z.shiftl (uint32 x) s)) = Z.shiftl x s /\ int32 (Z.shiftl x s) = Z.shiftl x s).
    { intros x Hx. pose proof (Hin x Hx). assert (Hu : uint32 x = x) by (apply Z.mod_small; pose proof (pow_le (31 - s) 31 ltac:(lia)); lia). rewrite Hu, int32_uint32. split; apply int32_id; unfold is_int32; lia. }
    destruct (Hid (lower_ rg) ltac:(lia)) as [-> _], (Hid (upper_ rg) ltac:(lia)) as [-> _]. pose proof (Hin (lower_ rg) ltac:(lia)). pose proof (Hin (upper_ rg) ltac:(lia)).
    assert (Hmono : forall x y, x <= y -> Z.shiftl x s <= Z.shiftl y s) by (intros; rewrite !Z.shiftl_mul_pow2 by lia; apply Z.mul_le_mono_nonneg_r; [apply Z.pow_nonneg; lia|done]).
    apply int_build1; [done|done|lia|by apply Hmono|lia|]. intros x _ Hx. destruct (Hid x Hx) as [_ ->]. split; apply Hmono; lia.
  - apply int_build1; [done|done|done|done|done|]. intros x _ _. pose proof (int32_range (Z.shiftl x s)) as Hr. unfold is_int32 in Hr. change JSVAL_INT_MIN with (- 2 ^ 31). change JSVAL_INT_MAX with (2 ^ 31 - 1). lia.
Qed.

Lemma range_rsh_constant_sound c : int_sound1 (fun lhs => range_rsh_constant lhs c) (fun x => shift_right x c).
Proof.
  intros rg Hw Hi. unfold range_rsh_constant. rewrite Hi. change (moz_assert true) with (mret tt : M unit). destruct (int32_range_bounds _ Hw Hi) as (E1 & E2 & O & L & Up). rewrite bind_ret, E1, E2. cbv zeta. rewrite !bind_ret. clear E1 E2.
  destruct (shift_count c) as [Hs _]. unfold shift_right. set (s := Z.land c 0x1f) in *. clearbody s. pose proof (in_int32_shiftr _ s ltac:(lia) L). pose proof (in_int32_shiftr _ s ltac:(lia) Up). unfold in_int32 in *.
  apply int_build1; [done|done|lia|apply shiftr_mono; lia|lia|]. intros x _ Hx. split; apply shiftr_mono; lia.
Qed.

Lemma uint32_sign x : in_int32 x -> uint32 x = if x <? 0 then x + 2 ^ 32 else x.
Proof.
  unfold in_int32, uint32. intros Hx. destruct (Z.ltb_spec x 0); [|apply Z.mod_small; lia]. symmetry. apply (Z.mod_unique_pos _ _ (-1)); lia.
Qed.

Lemma unsigned_shift_bounds x s : 0 <= s -> 0 <= Z.shiftr (uint32 x) s <= Z.shiftr UINT32_MAX s.
Proof.
  intros Hs. assert (Hu : 0 <= uint32 x < 2 ^ 32) by (apply Z.mod_pos_bound; lia). split; [apply Z.shiftr_nonneg; lia|]. apply shiftr_mono; [done|]. change UINT32_MAX with (2 ^ 32 - 1). lia.
Qed.

(** The range of an unsigned shift is built from bounds that are not negative. *)
Definition unsigned_result (m : M NumberRange) (P : Z -> Z -> Prop) : Prop :=
  exists l h, 0 <= l /\ l <= h /\ h <= 2 ^ 32 - 1 /\ m = new_Range l h false false 31 /\ P l h.

Lemma ursh_constant_result rg c : well_formed rg -> isInt32 rg = true ->
  unsigned_result (range_ursh_constant rg c) (fun l h => forall x, in_int32 x -> lower_ rg <= x <= upper_ rg -> l <= shift_right_unsigned x c <= h).
Proof.
  intros Hw Hi. unfold range_ursh_constant. rewrite Hi. change (moz_assert true) with (mret tt : M unit). destruct (int32_range_bounds _ Hw Hi) as (E1 & E2 & O & L & Up). rewrite bind_ret, E1, E2. cbv zeta. rewrite !bind_ret. clear E1 E2.
  destruct (shift_count c) as [Hs _]. unfold shift_right_unsigned. set (s := Z.land c 0x1f) in *. clearbody s. assert (Hmax : forall y, Z.shiftr (uint32 y) s <= 2 ^ 32 - 1).
  { intros y. assert (Hu : 0 <= uint32 y < 2 ^ 32) by (apply Z.mod_pos_bound; lia). destruct (shiftr_bounds (uint32 y) s ltac:(lia)). lia. }
  assert (Hmin : forall y, 0 <= Z.shiftr (uint32 y) s) by (intros y; apply Z.shiftr_nonneg, Z.mod_pos_bound; lia).
  unfold NewUInt32Range. destruct (isFiniteNonNegative rg || isFiniteNegative rg) eqn:Hc.
  - assert (Hm : forall x y, lower_ rg <= x -> x <= y -> y <= upper_ rg -> Z.shiftr (uint32 x) s <= Z.shiftr (uint32 y) s).
    { intros x y Hx Hxy Hy. apply shiftr_mono; [lia|]. unfold in_int32 in *. rewrite !uint32_sign by (unfold in_int32; lia). unfold isFiniteNonNegative, isFiniteNegative in Hc.
      assert (Hsg : 0 <= lower_ rg \/ upper_ rg < 0) by (apply orb_true_iff in Hc as [Hc|Hc]; bsplit; lia). destruct (Z.ltb_spec x 0), (Z.ltb_spec y 0); lia. }
    do 2 eexists. split; [apply (Hmin (lower_ rg))|]. split; [apply (Hm (lower_ rg) (upper_ rg)); lia|]. split; [apply Hmax|]. split; [done|]. intros x _ Hx. split; apply Hm; lia.
  - exists 0, (Z.shiftr UINT32_MAX s). split; [done|]. split; [apply Z.shiftr_nonneg; done|]. split; [|split; [done|intros x _ _; apply unsigned_shift_bounds; lia]].
    destruct (shiftr_bounds UINT32_MAX s ltac:(lia)) as [H _]. specialize (H ltac:(done)). change UINT32_MAX with (2 ^ 32 - 1) in *. lia.
Qed.

Lemma range_ursh_constant_sound c : int_sound1 (fun lhs => range_ursh_constant lhs c) (fun x => shift_right_unsigned x c).
Proof.
  intros rg Hw Hi. destruct (ursh_constant_result rg c Hw Hi) as (l & h & Hl & Hlh & Hh & -> & Hx). apply int_build1; [done|done|lia|done|done|]. intros x Hin Hb. by apply Hx.
Qed.

(** * Shifts by a range *)

Lemma range_lsh_sound : int_sound2 range_lsh shift_left.
Proof.
  intros lhs rhs Hl Hr Il Ir. unfold range_lsh. rewrite Il, Ir. change (moz_assert true) with (mret tt : M unit). rewrite !bind_ret. apply (int_build lhs rhs Hl Hr Il Ir); [done..|].
  intros x y _ _ _ _. unfold shift_left. pose proof (int32_range (Z.shiftl x (Z.land y 31))) as H. unfold is_int32 in H. change JSVAL_INT_MIN with (- 2 ^ 31). change JSVAL_INT_MAX with (2 ^ 31 - 1). lia.
Qed.

(** The counts that a range of the right operand allows. *)
Definition shift_counts (rl ru : Z) : Z * Z :=
  if ru - rl >=? 31 then (0, 31)
  else if Z.land rl 0x1f >? Z.land ru 0x1f then (0, 31) else (Z.land rl 0x1f, Z.land ru 0x1f).

Lemma shift_counts_ok rl ru y : rl <= y <= ru -> let '(s, t) := shift_counts rl ru in 0 <= s <= Z.land y 0x1f /\ Z.land y 0x1f <= t <= 31.
Proof.
  intros Hy. unfold shift_counts. destruct (shift_count y) as [H0 E0], (shift_count rl) as [H1 E1], (shift_count ru) as [H2 E2]. rewrite Z.geb_leb, Z.gtb_ltb. destruct (Z.leb_spec 31 (ru - rl)); [lia|].
  destruct (Z.ltb_spec (Z.land ru 31) (Z.land rl 31)); [lia|]. rewrite E0, E1, E2 in *. clear E0 E1 E2. pose proof (Z.div_mod y 32 ltac:(lia)). pose proof (Z.div_mod rl 32 ltac:(lia)). pose proof (Z.div_mod ru 32 ltac:(lia)). lia.
Qed.

Lemma range_rsh_sound : int_sound2 range_rsh shift_right.
Proof.
  intros lhs rhs Hl Hr Il Ir. unfold range_rsh. rewrite Il, Ir. change (moz_assert true) with (mret tt : M unit). destruct (int32_range_bounds _ Hl Il) as (E1 & E2 & O1 & L1 & U1), (int32_range_bounds _ Hr Ir) as (E3 & E4 & O2 & L2 & U2). rewrite E1, E2, E3, E4, !bind_ret. cbv zeta.
  set (counts := if upper_ rhs - lower_ rhs >=? 31 then _ else _). assert (E : counts = shift_counts (lower_ rhs) (upper_ rhs)) by done. clearbody counts. subst counts. pose proof (shift_counts_ok (lower_ rhs) (upper_ rhs)) as Hc. destruct (shift_counts _ _) as [s t].
  assert (Hst : 0 <= s <= t /\ t <= 31) by (specialize (Hc (lower_ rhs) ltac:(lia)); cbn in Hc; lia). replace ((s >=? 0) && (t <=? 31)) with true by lia. change (moz_assert true) with (mret tt : M unit). rewrite !bind_ret. unfold NewInt32Range. change MaxInt32Exponent with 31. unfold in_int32 in *.
  set (lo := if lower_ lhs <? 0 then _ else _). set (hi := if upper_ lhs >=? 0 then _ else _).
  assert (Hlo : forall x k, lower_ lhs <= x -> s <= k <= t -> lo <= Z.shiftr x k).
  { intros x k Hx Hk. apply Z.le_trans with (Z.shiftr (lower_ lhs) k); [|apply shiftr_mono; lia]. unfold lo. destruct (Z.ltb_spec (lower_ lhs) 0); [destruct (shiftr_further (lower_ lhs) s k ltac:(lia)); lia|destruct (shiftr_further (lower_ lhs) k t ltac:(lia)); lia]. }
  assert (Hhi : forall x k, x <= upper_ lhs -> s <= k <= t -> Z.shiftr x k <= hi).
  { intros x k Hx Hk. apply Z.le_trans with (Z.shiftr (upper_ lhs) k); [apply shiftr_mono; lia|]. unfold hi. destruct (Z.geb_spec (upper_ lhs) 0); [destruct (shiftr_further (upper_ lhs) s k ltac:(lia)); lia|destruct (shiftr_further (upper_ lhs) k t ltac:(lia)); lia]. }
  assert (Hb : - 2 ^ 31 <= lo /\ hi <= 2 ^ 31 - 1).
  { unfold lo, hi. destruct (in_int32_shiftr (lower_ lhs) s ltac:(lia) L1), (in_int32_shiftr (lower_ lhs) t ltac:(lia) L1), (in_int32_shiftr (upper_ lhs) s ltac:(lia) U1), (in_int32_shiftr (upper_ lhs) t ltac:(lia) U1). destruct (_ <? _), (_ >=? _); lia. }
  apply (int_build lhs rhs Hl Hr Il Ir); [lia| |lia|].
  - specialize (Hlo (lower_ lhs) s ltac:(lia) ltac:(lia)). specialize (Hhi (lower_ lhs) s ltac:(lia) ltac:(lia)). lia.
  - intros x y _ _ Bx By. specialize (Hc y By). cbn in Hc. unfold shift_right. split; [apply Hlo; lia|apply Hhi; lia].
Qed.

Lemma ursh_result lhs rhs : well_formed lhs -> well_formed rhs -> isInt32 lhs = true -> isInt32 rhs = true ->
  unsigned_result (range_ursh lhs rhs) (fun l h => forall x y, in_int32 x -> lower_ lhs <= x <= upper_ lhs -> l <= shift_right_unsigned x y <= h).
Proof.
  intros Hl Hr Il Ir. unfold range_ursh. rewrite Il, Ir. change (moz_assert true) with (mret tt : M unit). rewrite !bind_ret. destruct (int32_range_bounds _ Hl Il) as (_ & E2 & O1 & L1 & U1). unfold in_int32 in *. unfold NewUInt32Range.
  destruct (isFiniteNonNegative lhs) eqn:Hn.
  - rewrite E2, bind_ret. unfold isFiniteNonNegative in Hn. bsplit. exists 0, (upper_ lhs). split; [done|]. split; [lia|]. split; [lia|]. split; [done|]. intros x y _ Bx. unfold shift_right_unsigned. rewrite uint32_sign by (unfold in_int32; lia).
    replace (x <? 0) with false by lia. destruct (shift_count y) as [Hs _]. destruct (shiftr_bounds x (Z.land y 31) ltac:(lia)). lia.
  - rewrite bind_ret. exists 0, UINT32_MAX. split; [done|]. split; [done|]. split; [done|]. split; [done|]. intros x y _ _. unfold shift_right_unsigned. destruct (shift_count y) as [Hs _]. pose proof (unsigned_shift_bounds x (Z.land y 31) ltac:(lia)).
    destruct (shiftr_bounds UINT32_MAX (Z.land y 31) ltac:(lia)) as [H' _]. specialize (H' ltac:(done)). lia.
Qed.

Lemma range_ursh_sound : int_sound2 range_ursh shift_right_unsigned.
Proof.
  intros lhs rhs Hl Hr Il Ir. destruct (ursh_result lhs rhs Hl Hr Il Ir) as (l & h & H0 & Hlh & Hh & -> & Hx). apply (int_build lhs rhs Hl Hr Il Ir); [lia|done|done|]. intros x y Hin _ Bx _. by apply Hx.
Qed.

Lemma unsigned_lower m P r : unsigned_result m P -> m = mret r -> exists v, lower r = mret v /\ 0 <= v.
Proof.
  intros (l & h & Hl & Hlh & Hh & -> & _) Hr. destruct (new_Range_bounds l h false false 31 r) as [E1 E2]; [|done|].
  - split; [left; lia|by left|lia|lia|by left|by left|done].
  - unfold lower. rewrite E2. replace (- 2 ^ 31 <=? l) with true by lia. exists (lower_ r). split; [done|lia].
Qed.

(** A shift count is its low five bits. *)
Lemma shift_mask x c : shift_left x (Z.land c 0x1f) = shift_left x c /\ shift_right x (Z.land c 0x1f) = shift_right x c /\ shift_right_unsigned x (Z.land c 0x1f) = shift_right_unsigned x c.
Proof. unfold shift_left, shift_right, shift_right_unsigned. by rewrite <- Z.land_assoc. Qed.
