(* ===== verification/RangeWrap.v ===== *)
(** The conversions of a range to the integers of a type. *)
From S2P Require Import Prelude Words CheckedArithmetic FloatingPoint BigIntRep BigIntMul Conversions BigIntDouble DoubleArith DoubleWhole DoubleOrder RangeAnalysis RangeInv RangeArith RangeProduct RangeLattice RangeBits.

#[local] Abbreviation U := (2 ^ 1074).

(** ECMAScript's ToInt32 on a double; [ToSignedInteger 32] computes it. *)
Definition to_int32 (d : Z) : Z := wrap_signed 32 (to_integer_value d).

Lemma to_int32_spec d : is_double d -> wp (ToSignedInteger 32 d) (fun v => v = to_int32 d) no_error.
Proof. intros Hd. by apply (ToSignedInteger_spec 32 d). Qed.

Lemma to_int32_range d : in_int32 (to_int32 d).
Proof.
  unfold to_int32, wrap_signed, in_int32. set (v := to_integer_value d). pose proof (Z.mod_pos_bound v (2 ^ 32) ltac:(lia)). cbv zeta. change (2 ^ (32 - 1)) with (2 ^ 31). destruct (Z.leb_spec (2 ^ 31) (v mod 2 ^ 32)); lia.
Qed.

(** A number between 32-bit bounds is truncated. *)
Lemma to_int32_between d l h : is_double d -> IsNaN d = false -> in_int32 l -> in_int32 h -> l * U <= scaled d <= h * U -> to_int32 d = Z.quot (scaled d) U /\ l <= to_int32 d <= h.
Proof.
  intros Hd Hn Hl Hh Hb. unfold in_int32 in *. pose proof unit_pos as Hu. assert (Hf : IsFinite d = true).
  { destruct (classify d) as [?|[Hi|?]]; [done| |congruence]. exfalso. pose proof (infinite_bound d l Hi (int32_below l ltac:(lia))). pose proof (infinite_bound d h Hi (int32_below h ltac:(lia))). destruct (sign_of d); lia. }
  assert (Hq : l <= Z.quot (scaled d) U <= h). { split; [rewrite <- (Z.quot_mul l U) by lia|rewrite <- (Z.quot_mul h U) by lia]; apply Z.quot_le_mono; lia. }
  assert (E : to_int32 d = Z.quot (scaled d) U); [|by rewrite E]. unfold to_int32, to_integer_value. rewrite Hf. unfold integer_part. apply wrap_signed_small; [lia|]. change (2 ^ (32 - 1)) with (2 ^ 31). lia.
Qed.

Lemma quot_below x p : 0 <= p -> Z.abs x < p * U -> Z.abs (Z.quot x U) < p.
Proof.
  intros Hp Hx. pose proof unit_pos as Hu. rewrite <- (Z.quot_abs x U), (Z.abs_eq U) by lia. rewrite Z.quot_div_nonneg by lia. apply Z.div_lt_upper_bound; lia.
Qed.

(** * To 32-bit integers *)

(** An integer of an integer range. *)
Lemma int32_contains r n : well_formed r -> isInt32 r = true -> lower_ r <= n <= upper_ r -> contains r (dbl n).
Proof.
  intros [[W1 W2 W3 W4 W5 W6 W7 W8 W9] _] Hi Hn. unfold isInt32, hasInt32Bounds in Hi. apply andb_true_iff in Hi as [[[B1 B2]%andb_true_iff Hf%negb_true_iff]%andb_true_iff Hz%negb_true_iff].
  assert (Hs : small n) by (unfold small; lia). pose proof unit_pos as Hu. apply contains_intro; [apply dbl_double|by apply dbl_not_nan| |].
  - rewrite dbl_scaled by done. split; [intros _; apply Z.mul_le_mono_nonneg_r; lia|intros _; apply Z.mul_le_mono_nonneg_r; lia| |intros _; by eexists].
    intros _. rewrite Z.abs_mul, (Z.abs_eq U) by lia. apply Z.mul_lt_mono_pos_r; [done|]. apply exponent_nonneg in W6. pose proof (pow_le 32 (max_exponent_ r + 1)). unfold bound_ok in *. rewrite Hf in *.
    destruct W7 as [?|[?|[? _]]]; [lia| |done]. destruct W8 as [?|[?|[? _]]]; [lia|lia|done].
  - intros _ E. assert (Hz0 : scaled (dbl n) = 0) by (by rewrite E). rewrite dbl_scaled, unit_zero in Hz0 by done. subst n. by vm_compute in E.
Qed.

Definition int32_range_of (l h : Z) : NumberRange :=
  let r := MkNumberRange l h true true false false 0 in with_exponent r (bounds_log r).

Lemma setInt32_ok l h : in_int32 l -> in_int32 h -> l <= h -> setInt32 l h = mret (int32_range_of l h) /\ well_formed (int32_range_of l h) /\ isInt32 (int32_range_of l h) = true.
Proof.
  intros Hl Hh Hlh. set (r := MkNumberRange l h true true false false 0). pose proof (bounds_log_range r ltac:(done)) as Hg. pose proof (bounds_log_spec r) as Hs.
  assert (Hbo : forall v, Z.abs v <= Z.max (Z.abs l) (Z.abs h) -> bound_ok (int32_range_of l h) v) by (intros v Hv; right; left; by apply Hs).
  assert (Hw : well_formed (int32_range_of l h)).
  { split; [|split; [done|intros _; cbn [int32_range_of with_exponent max_exponent_]; fold r; lia]]. split; try done; [left; cbn [int32_range_of with_exponent max_exponent_]; fold r; lia|apply Hbo; cbn; lia|apply Hbo; cbn; lia]. }
  split; [|done]. unfold setInt32. cbv zeta. fold r. rewrite (exponent_implied r ltac:(done) eq_refl), bind_ret. change (with_exponent r (bounds_log r)) with (int32_range_of l h). by rewrite (consistent_asserts _ (proj1 Hw)).
Qed.

Section Wrap.
Context (op : NumberRange) (Ho : well_formed op).

Definition wrapped : NumberRange :=
  if negb (hasInt32Bounds op) then int32_range_of JSVAL_INT_MIN JSVAL_INT_MAX
  else if canHaveFractionalPart_ op then
    let limit := 2 ^ (max_exponent_ op + 1) - 1 in
    if max_exponent_ op <? 31 then MkNumberRange (Z.max (lower_ op) (- limit)) (Z.min (upper_ op) limit) true true false false (max_exponent_ op)
    else MkNumberRange (lower_ op) (upper_ op) true true false false (max_exponent_ op)
  else with_negative_zero op false.

Lemma wrapped_ok : well_formed wrapped /\ isInt32 wrapped = true.
Proof.
  unfold wrapped. destruct (hasInt32Bounds op) eqn:Hb; cbn [negb]; [|by apply setInt32_ok]. destruct Ho as [[W1 W2 W3 W4 W5 W6 W7 W8 W9] [F S]]. pose proof (exponent_nonneg _ W6) as He. specialize (S Hb).
  destruct (canHaveFractionalPart_ op) eqn:Hf; [specialize (F eq_refl Hb)|].
  - cbv zeta. destruct (Z.ltb_spec (max_exponent_ op) 31); (split; [|done]); (split; [|split; [done|intros _; done]]).
    + unfold bound_ok in W7, W8. assert (A1 : Z.abs (lower_ op) <= 2 ^ (max_exponent_ op + 1)) by (destruct W7 as [?|[?|[_ ?]]]; lia). assert (A2 : Z.abs (upper_ op) <= 2 ^ (max_exponent_ op + 1)) by (destruct W8 as [?|[?|[_ ?]]]; lia).
      pose proof (pow_pos (max_exponent_ op + 1) ltac:(lia)). split; try done; unfold bound_ok; cbn [lower_ upper_ hasInt32LowerBound_ hasInt32UpperBound_ max_exponent_ canHaveFractionalPart_]; set (p := 2 ^ (max_exponent_ op + 1)) in *; clearbody p; lia.
    + split; try done; left; done.
  - split; [|unfold isInt32, hasInt32Bounds in *; cbn [with_negative_zero hasInt32LowerBound_ hasInt32UpperBound_ canHaveFractionalPart_ canBeNegativeZero_]; by rewrite Hb, Hf].
    split; [split; try done; cbn [with_negative_zero canHaveFractionalPart_]; by rewrite ?Hf|]. split; [cbn [with_negative_zero canHaveFractionalPart_]; congruence|done].
Qed.

Lemma wrapAroundToInt32_eq : wrapAroundToInt32 op = mret wrapped.
Proof.
  pose proof wrapped_ok as [Hw Hi]. unfold wrapAroundToInt32, wrapped in *. destruct (hasInt32Bounds op) eqn:Hb; cbn [negb] in *.
  2:{ destruct (setInt32_ok JSVAL_INT_MIN JSVAL_INT_MAX) as (-> & _); [done..|]. by rewrite bind_ret, Hi. }
  destruct (canHaveFractionalPart_ op) eqn:Hf; [|by rewrite bind_ret, Hi]. rewrite refine_bounds_eq by (apply exponent_nonneg; by destruct Ho as [[] _]). unfold hasInt32Bounds in Hb. apply andb_true_iff in Hb as [B1 B2]. rewrite B1, B2. cbv zeta in *.
  destruct (max_exponent_ op <? 31); by rewrite (consistent_asserts _ (proj1 Hw)), !bind_ret, Hi.
Qed.

Lemma wrapped_value d : contains op d -> lower_ wrapped <= to_int32 d <= upper_ wrapped.
Proof.
  intros Hd. unfold wrapped. pose proof (to_int32_range d) as Hr. destruct (hasInt32Bounds op) eqn:Hb; cbn [negb]; [|unfold in_int32 in Hr; change (- 2 ^ 31 <= to_int32 d <= 2 ^ 31 - 1); lia].
  destruct (IsNaN d) eqn:Hn; [destruct (contains_elim_nan _ _ Hd Hn); congruence|]. destruct (contains_elim _ _ Hd Hn) as [[Fl Fu Fe Fw] _]. pose proof Hb as Hb'. unfold hasInt32Bounds in Hb'. apply andb_true_iff in Hb' as [B1 B2].
  destruct Ho as [[W1 W2 W3 W4 W5 W6 W7 W8 W9] _]. destruct (to_int32_between d (lower_ op) (upper_ op)) as [E Hx]; [by eapply contains_double|done|done|done|split; auto|].
  destruct (canHaveFractionalPart_ op); [|done]. cbv zeta. destruct (Z.ltb_spec (max_exponent_ op) 31); [|done]. apply exponent_nonneg in W6. specialize (Fe ltac:(change MaxFiniteExponent with 1023; lia)).
  apply quot_below in Fe; [|apply Z.pow_nonneg; lia]. rewrite <- E in Fe. cbn [lower_ upper_]. lia.
Qed.

Lemma wrapAroundToInt32_ok : exists r, wrapAroundToInt32 op = mret r /\ well_formed r /\ isInt32 r = true /\ forall d, contains op d -> contains r (dbl (to_int32 d)).
Proof.
  destruct wrapped_ok as [Hw Hi]. exists wrapped. split; [apply wrapAroundToInt32_eq|]. split; [done|]. split; [done|]. intros d Hd. apply int32_contains; [done|done|]. by apply wrapped_value.
Qed.

Lemma wrapAroundToShiftCount_ok : exists r, wrapAroundToShiftCount op = mret r /\ well_formed r /\ isInt32 r = true /\ forall d, contains op d -> contains r (dbl (Z.land (to_int32 d) 0x1f)).
Proof.
  destruct wrapped_ok as [Hw Hi]. unfold wrapAroundToShiftCount. rewrite wrapAroundToInt32_eq, bind_ret. destruct (int32_range_bounds _ Hw Hi) as (E1 & E2 & O & L & Up). rewrite E1, bind_ret.
  assert (Hc : forall c, 0 <= Z.land c 31 <= 31) by (intros c; assert (E : Z.land c 31 = c mod 32) by exact (Z.land_ones c 5 ltac:(lia)); rewrite E; pose proof (Z.mod_pos_bound c 32 ltac:(lia)); lia).
  destruct (setInt32_ok 0 31) as (E3 & Hw' & Hi'); [done..|].
  destruct (Z.ltb_spec (lower_ wrapped) 0); [|rewrite E2, !bind_ret; destruct (Z.geb_spec (upper_ wrapped) 32)].
  - rewrite bind_ret. exists (int32_range_of 0 31). split; [done|]. split; [done|]. split; [done|]. intros d _. apply int32_contains; [done|done|apply Hc].
  - exists (int32_range_of 0 31). split; [done|]. split; [done|]. split; [done|]. intros d _. apply int32_contains; [done|done|apply Hc].
  - exists wrapped. split; [done|]. split; [done|]. split; [done|]. intros d Hd. pose proof (wrapped_value d Hd). apply int32_contains; [done|done|].
    assert (E : Z.land (to_int32 d) 31 = to_int32 d mod 32) by exact (Z.land_ones (to_int32 d) 5 ltac:(lia)). rewrite E, Z.mod_small by lia. done.
Qed.

Lemma wrapAroundToBoolean_ok : exists r, wrapAroundToBoolean op = mret r /\ well_formed r /\ isInt32 r = true /\
  forall d, contains op d -> 0 <= to_int32 d <= 1 -> contains r (dbl (to_int32 d)).
Proof.
  destruct wrapped_ok as [Hw Hi]. unfold wrapAroundToBoolean. rewrite wrapAroundToInt32_eq, bind_ret. destruct (int32_range_bounds _ Hw Hi) as (E1 & E2 & O & L & Up). pose proof (setInt32_ok 0 1 ltac:(done) ltac:(done) ltac:(done)) as (E3 & Hw' & Hi').
  assert (Hbool : forall r, well_formed r -> isInt32 r = true -> isBoolean r = mret ((lower_ r >=? 0) && (upper_ r <=? 1))).
  { intros r Wr Ir. unfold isBoolean. destruct (int32_range_bounds _ Wr Ir) as (-> & -> & _). rewrite bind_ret. unfold isInt32 in Ir. bsplit. destruct (lower_ r >=? 0); cbn [negb andb]; [|done]. rewrite bind_ret. rewrite H0, H1. cbn [negb]. by rewrite !andb_true_r. }
  rewrite (Hbool wrapped Hw Hi), bind_ret. destruct ((lower_ wrapped >=? 0) && (upper_ wrapped <=? 1)) eqn:Hc; cbn [negb].
  - rewrite bind_ret, (Hbool wrapped Hw Hi), bind_ret, Hc. exists wrapped. split; [done|]. split; [done|]. split; [done|]. intros d Hd _. apply int32_contains; [done|done|]. by apply wrapped_value.
  - rewrite E3, bind_ret, (Hbool _ Hw' Hi'), bind_ret. exists (int32_range_of 0 1). split; [done|]. split; [done|]. split; [done|]. intros d _ Hb. by apply int32_contains.
Qed.

(** A value known to be a 32-bit integer. *)
Lemma clampToInt32_ok : exists r, clampToInt32 op = mret r /\ well_formed r /\ isInt32 r = true /\ forall n, in_int32 n -> contains op (dbl n) -> contains r (dbl n).
Proof.
  unfold clampToInt32. destruct (isInt32 op) eqn:Hi; [exists op; split; [done|]; split; [done|]; split; [done|]; auto|]. cbv zeta. destruct Ho as [[W1 W2 W3 W4 W5 W6 W7 W8 W9] _].
  change JSVAL_INT_MIN with (- 2 ^ 31). change JSVAL_INT_MAX with (2 ^ 31 - 1). replace (if hasInt32LowerBound_ op then lower_ op else - 2 ^ 31) with (lower_ op) by (destruct (hasInt32LowerBound_ op); auto).
  replace (if hasInt32UpperBound_ op then upper_ op else 2 ^ 31 - 1) with (upper_ op) by (destruct (hasInt32UpperBound_ op); auto). destruct (setInt32_ok (lower_ op) (upper_ op)) as (E & Hw & Hir); [done..|].
  exists (int32_range_of (lower_ op) (upper_ op)). split; [done|]. split; [done|]. split; [done|]. intros n Hn Hc. apply int32_contains; [done|done|]. cbn [int32_range_of with_exponent lower_ upper_].
  pose proof (in_int32_small n Hn) as Hs. destruct (contains_elim _ _ Hc (dbl_not_nan n Hs)) as [[Fl Fu _ _] _]. rewrite dbl_scaled in Fl, Fu by done. pose proof unit_pos as Hu. unfold in_int32 in Hn. split.
  - destruct (hasInt32LowerBound_ op); [apply (Z.mul_le_mono_pos_r _ _ U); auto|rewrite W4 by done; lia].
  - destruct (hasInt32UpperBound_ op); [apply (Z.mul_le_mono_pos_r _ _ U); auto|rewrite W5 by done; lia].
Qed.
End Wrap.
