(* ===== verification/RangeDouble.v ===== *)
(** The range of an interval of doubles. *)
From S2P Require Import Prelude Words CheckedArithmetic FloatingPoint BigIntRep BigIntMul Conversions BigIntDouble DoubleArith DoubleWhole DoubleOrder RangeAnalysis RangeInv RangeArith RangeProduct RangeLattice RangeMath RangeRound.

#[local] Abbreviation U := (2 ^ 1074).

(** * The exponent of a double *)

Lemma implied_exponent d : is_double d -> IsNaN d = false -> let e := ExponentImpliedByDouble d in
  0 <= e <= 1024 /\ (e <= 1023 -> Z.abs (scaled d) < 2 ^ (e + 1) * U) /\ (0 < e -> 2 ^ e * U <= Z.abs (scaled d)).
Proof.
  intros Hd Hn e. unfold e, ExponentImpliedByDouble. rewrite Hn. pose proof unit_pos as Hu. destruct (IsInfinite d) eqn:Hi.
  { change IncludesInfinity with 1024. split; [lia|]. split; [lia|]. intros _. rewrite (infinite_scaled d Hi), Z.abs_mul, (Z.abs_eq U) by lia. destruct (sign_of d); apply Z.mul_le_mono_nonneg_r; done || lia. }
  assert (Hf : IsFinite d = true) by (destruct (classify d) as [?|[?|?]]; [done|congruence|congruence]). apply IsFinite_iff in Hf. rewrite ExponentComponent_eq. pose proof (biased_bound d) as Hb.
  assert (E : Z.abs (scaled d) = scaled_magnitude d) by (unfold scaled; pose proof (scaled_magnitude_nonneg d); destruct (sign_of d); cbn [signed]; lia). rewrite E. split; [lia|].
  destruct (Z.eq_dec (biased_of d) 0) as [E0|E0].
  - unfold scaled_magnitude. rewrite E0. change (0 =? 0) with true. cbv iota. pose proof (fraction_bound d). split; [intros _|lia]. change (Z.max 0 (0 - 1023) + 1) with 1. rewrite <- Z.pow_add_r by lia. pose proof (pow_le 52 (1 + 1074) ltac:(lia)). lia.
  - pose proof (scaled_magnitude_bounds d E0) as Hs. rewrite <- !Z.pow_add_r in * by lia. split; intros He.
    + pose proof (pow_le (52 + biased_of d) (Z.max 0 (biased_of d - 1023) + 1 + 1074) ltac:(lia)). lia.
    + replace (Z.max 0 (biased_of d - 1023) + 1074) with (52 + (biased_of d - 1)) by lia. lia.
Qed.

(** Doubles of 2^52 or more are whole. *)
Lemma large_whole52 d : is_double d -> IsNaN d = false -> 2 ^ 52 * U <= Z.abs (scaled d) -> exists n, scaled d = n * U.
Proof.
  intros Hd Hn Hge. destruct (classify d) as [Hf|[Hi|?]]; [|rewrite (infinite_scaled d Hi); by eexists|congruence].
  destruct (finite_magnitude d Hd Hf) as (m & f & E & Hm & Hf0). assert (Hf1 : 1074 <= f).
  { apply Z.le_ngt. intros Hc. rewrite E in Hge. pose proof (pow_le f 1073 ltac:(lia)). assert (m * 2 ^ f < 2 ^ 52 * U); [|lia]. replace (2 ^ 52 * U) with (2 ^ 53 * 2 ^ 1073) by (rewrite <- !Z.pow_add_r by lia; reflexivity).
    apply Z.le_lt_trans with (m * 2 ^ 1073); [apply Z.mul_le_mono_nonneg_l; lia|]. apply Z.mul_lt_mono_pos_r; [by apply pow_pos|lia]. }
  replace f with (f - 1074 + 1074) in E by lia. rewrite Z.pow_add_r, Z.mul_assoc in E by lia. set (n := m * 2 ^ (f - 1074)) in *. clearbody n.
  destruct (Z.le_gt_cases 0 (scaled d)); [exists n|exists (- n)]; lia.
Qed.

Lemma double_to_int_exact d n : is_double d -> IsNaN d = false -> scaled d = n * U -> - 2 ^ 31 <= n <= 2 ^ 31 - 1 -> double_to_int d = mret n.
Proof.
  intros Hd Hn Hs Hr. pose proof unit_pos as Hu. assert (Hf : IsFinite d = true).
  { destruct (classify d) as [?|[Hi|?]]; [done| |congruence]. exfalso. pose proof (infinite_bound d n Hi (int32_below n ltac:(lia))). destruct (sign_of d); lia. }
  assert (E : integer_part d = n) by (unfold integer_part; rewrite Hs; apply Z.quot_mul; lia). unfold double_to_int. rewrite Hf, E. replace (- 2 ^ 31 <=? n) with true by lia. by replace (n <? 2 ^ 31) with true by lia.
Qed.

(** * The bounds *)

Definition set_lower (x : Z) : Z * bool :=
  if (- 2 ^ 31 * U <=? x) && (x <=? (2 ^ 31 - 1) * U) then (x / U, true) else if (2 ^ 31 - 1) * U <=? x then (2 ^ 31 - 1, true) else (- 2 ^ 31, false).
Definition set_upper (x : Z) : Z * bool :=
  if (- 2 ^ 31 * U <=? x) && (x <=? (2 ^ 31 - 1) * U) then (- (- x / U), true) else if x <=? - 2 ^ 31 * U then (- 2 ^ 31, true) else (2 ^ 31 - 1, false).

Lemma double_le_scaled_eq a b : IsNaN a = false -> IsNaN b = false -> double_le a b = (scaled a <=? scaled b).
Proof. intros Ha Hb. unfold double_le. by rewrite Ha, Hb. Qed.

Lemma int_min_double : IsNaN (dbl JSVAL_INT_MIN) = false /\ scaled (dbl JSVAL_INT_MIN) = - 2 ^ 31 * U.
Proof. split; [by apply dbl_not_nan|by apply dbl_scaled]. Qed.
Lemma int_max_double : IsNaN (dbl JSVAL_INT_MAX) = false /\ scaled (dbl JSVAL_INT_MAX) = (2 ^ 31 - 1) * U.
Proof. split; [by apply dbl_not_nan|by apply dbl_scaled]. Qed.

(** What the two bounds are, by the place of the double. *)
Lemma set_lower_spec x : exists l lb, set_lower x = (l, lb) /\ - 2 ^ 31 <= l <= 2 ^ 31 - 1 /\
  ((lb = true /\ l * U <= x < (l + 1) * U) \/ (lb = true /\ l = 2 ^ 31 - 1 /\ (2 ^ 31 - 1) * U <= x) \/ (lb = false /\ l = - 2 ^ 31 /\ x < - 2 ^ 31 * U)).
Proof.
  pose proof unit_pos as Hu. unfold set_lower. set (u := U) in *. clearbody u. destruct (Z.leb_spec (- 2 ^ 31 * u) x), (Z.leb_spec x ((2 ^ 31 - 1) * u)); cbn [andb].
  - exists (x / u), true. split; [done|]. pose proof (Z.div_mod x u ltac:(lia)). pose proof (Z.mod_pos_bound x u Hu). split; [|left; split; [done|lia]]. split; [apply Z.div_le_lower_bound; lia|apply Z.div_le_upper_bound; lia].
  - replace ((2 ^ 31 - 1) * u <=? x) with true by lia. exists (2 ^ 31 - 1), true. split; [done|]. split; [lia|]. right. left. split; [done|]. split; [done|lia].
  - replace ((2 ^ 31 - 1) * u <=? x) with false by lia. exists (- 2 ^ 31), false. split; [done|]. split; [lia|]. right. right. done.
  - lia.
Qed.

Lemma set_upper_spec x : exists h hb, set_upper x = (h, hb) /\ - 2 ^ 31 <= h <= 2 ^ 31 - 1 /\
  ((hb = true /\ (h - 1) * U < x <= h * U) \/ (hb = true /\ h = - 2 ^ 31 /\ x <= - 2 ^ 31 * U) \/ (hb = false /\ h = 2 ^ 31 - 1 /\ (2 ^ 31 - 1) * U < x)).
Proof.
  pose proof unit_pos as Hu. unfold set_upper. set (u := U) in *. clearbody u. destruct (Z.leb_spec (- 2 ^ 31 * u) x), (Z.leb_spec x ((2 ^ 31 - 1) * u)); cbn [andb].
  - exists (- (- x / u)), true. split; [done|]. pose proof (Z.div_mod (- x) u ltac:(lia)). pose proof (Z.mod_pos_bound (- x) u Hu). assert (- (2 ^ 31 - 1) <= - x / u <= 2 ^ 31) by (split; [apply Z.div_le_lower_bound; lia|apply Z.div_le_upper_bound; lia]). split; [lia|]. left. split; [done|]. lia.
  - replace (x <=? - 2 ^ 31 * u) with false by lia. exists (2 ^ 31 - 1), false. split; [done|]. split; [lia|]. right. right. done.
  - replace (x <=? - 2 ^ 31 * u) with true by lia. exists (- 2 ^ 31), true. split; [done|]. split; [lia|]. right. left. split; [done|]. split; [done|lia].
  - lia.
Qed.

(** What [setDouble] makes of its bounds. *)
Definition double_lower (l : Z) : M (Z * bool) :=
  if double_le (dbl JSVAL_INT_MIN) l && double_le l (dbl JSVAL_INT_MAX) then i ← double_to_int (double_floor l); mret (i, true)
  else mret (if double_le (dbl JSVAL_INT_MAX) l then (JSVAL_INT_MAX, true) else (JSVAL_INT_MIN, false)).
Definition double_upper (h : Z) : M (Z * bool) :=
  if double_le (dbl JSVAL_INT_MIN) h && double_le h (dbl JSVAL_INT_MAX) then i ← double_to_int (double_ceil h); mret (i, true)
  else mret (if double_le h (dbl JSVAL_INT_MIN) then (JSVAL_INT_MIN, true) else (JSVAL_INT_MAX, false)).

Lemma lower_part l : is_double l -> IsNaN l = false -> double_lower l = mret (set_lower (scaled l)).
Proof.
  intros Dl Nl. unfold double_lower. destruct int_min_double as [N1 S1], int_max_double as [N2 S2]. rewrite (double_le_scaled_eq _ l), (double_le_scaled_eq l), (double_le_scaled_eq _ l), S1, S2 by done.
  destruct (set_lower_spec (scaled l)) as (v & b & E & Hv & _). unfold set_lower in *. destruct (_ && _); [|done]. injection E as E _. destruct (floor_number l Dl Nl) as (Hs & Hn & _).
  rewrite (double_to_int_exact _ (scaled l / U)); [done|by apply double_floor_double|done|done|lia].
Qed.

Lemma upper_part h : is_double h -> IsNaN h = false -> double_upper h = mret (set_upper (scaled h)).
Proof.
  intros Dh Nh. unfold double_upper. destruct int_min_double as [N1 S1], int_max_double as [N2 S2]. rewrite (double_le_scaled_eq _ h), (double_le_scaled_eq h), (double_le_scaled_eq h), S1, S2 by done.
  destruct (set_upper_spec (scaled h)) as (v & b & E & Hv & _). unfold set_upper in *. destruct ((- 2 ^ 31 * U <=? scaled h) && (scaled h <=? (2 ^ 31 - 1) * U)); [|reflexivity]. injection E as E _. destruct (ceil_number h Dh Nh) as (Hs & Hn).
  rewrite (double_to_int_exact _ (- (- scaled h / U))); [done|unfold double_ceil; rewrite Nh; auto using double_neg_double, double_floor_double|done|exact Hs|lia].
Qed.

Lemma nan_parts d : IsNaN d = true -> double_lower d = mret (- 2 ^ 31, false) /\ double_upper d = mret (2 ^ 31 - 1, false).
Proof. intros Hn. unfold double_lower, double_upper, double_le. rewrite Hn. cbn [negb andb]. by rewrite !andb_false_r. Qed.

Lemma setDouble_parts l h : setDouble l h =
  (moz_assert (negb (double_lt h l));;
   '(lo, lb) ← double_lower l;
   '(hi, hb) ← double_upper h;
   optimize (MkNumberRange lo hi lb hb ((IsNaN l || double_lt l (dbl 0)) && (IsNaN h || double_lt (dbl 0) h) || (Z.min (ExponentImpliedByDouble l) (ExponentImpliedByDouble h) <? 52))
     (negb (double_lt (dbl 0) l) && negb (double_lt h (dbl 0))) (Z.max (ExponentImpliedByDouble l) (ExponentImpliedByDouble h)))).
Proof. reflexivity. Qed.

(** * The range of an interval *)

Section Interval.
Context (l h : Z) (Dl : is_double l) (Dh : is_double h) (Nl : IsNaN l = false) (Nh : IsNaN h = false) (Hlh : scaled l <= scaled h).

#[local] Abbreviation le := (ExponentImpliedByDouble l).
#[local] Abbreviation he := (ExponentImpliedByDouble h).

Definition interval_range : NumberRange :=
  let crossesZero := (scaled l <? 0) && (0 <? scaled h) in
  MkNumberRange (set_lower (scaled l)).1 (set_upper (scaled h)).1 (set_lower (scaled l)).2 (set_upper (scaled h)).2
    (crossesZero || (Z.min le he <? 52)) (negb (0 <? scaled l) && negb (scaled h <? 0)) (Z.max le he).

Lemma setDouble_eq : setDouble l h = optimize interval_range.
Proof.
  rewrite setDouble_parts, (double_lt_scaled h l) by done. replace (scaled h <? scaled l) with false by lia. cbn [negb].
  change (moz_assert true) with (mret tt : M unit). rewrite bind_ret.
  rewrite (lower_part l), bind_ret by done. unfold interval_range. destruct (set_lower (scaled l)) as [vl bl]. rewrite (upper_part h), bind_ret by done. destruct (set_upper (scaled h)) as [vh bh]. cbv zeta.
  assert (Z0 : IsNaN (dbl 0) = false /\ scaled (dbl 0) = 0) by (split; reflexivity). destruct Z0 as [Z1 Z2]. rewrite (double_lt_scaled l (dbl 0)), (double_lt_scaled (dbl 0) h), (double_lt_scaled (dbl 0) l), (double_lt_scaled h (dbl 0)), Nl, Nh, Z2 by done. done.
Qed.

Lemma interval_magnitude v : Z.abs v * U < Z.max (Z.abs (scaled l)) (Z.abs (scaled h)) + U -> Z.max le he <= 1023 -> Z.abs v <= 2 ^ (Z.max le he + 1).
Proof.
  intros Hv He. destruct (implied_exponent l Dl Nl) as (A1 & A2 & _), (implied_exponent h Dh Nh) as (B1 & B2 & _). specialize (A2 ltac:(lia)). specialize (B2 ltac:(lia)). pose proof unit_pos as Hu.
  assert (C1 : 2 ^ (le + 1) * U <= 2 ^ (Z.max le he + 1) * U) by (apply Z.mul_le_mono_nonneg_r; [lia|apply pow_le; lia]). assert (C2 : 2 ^ (he + 1) * U <= 2 ^ (Z.max le he + 1) * U) by (apply Z.mul_le_mono_nonneg_r; [lia|apply pow_le; lia]).
  set (p := 2 ^ (Z.max le he + 1)) in *. clearbody p. set (u := U) in *. clearbody u. assert (Hlt : Z.abs v * u < (p + 1) * u) by lia. apply Z.mul_lt_mono_pos_r in Hlt; lia.
Qed.

(** An exponent large enough for a double beyond 32 bits. *)
Lemma implied_exponent_ge d k : is_double d -> IsNaN d = false -> 0 <= k <= 1023 -> 2 ^ k * U <= Z.abs (scaled d) -> k <= ExponentImpliedByDouble d.
Proof.
  intros Hd Hn Hk H. destruct (implied_exponent d Hd Hn) as (A1 & A2 & _). apply Z.le_ngt. intros Hc. specialize (A2 ltac:(lia)). pose proof unit_pos as Hu.
  assert (2 ^ (ExponentImpliedByDouble d + 1) * U <= 2 ^ k * U) by (apply Z.mul_le_mono_nonneg_r; [lia|apply pow_le; lia]). lia.
Qed.

Lemma interval_consistent : consistent interval_range /\ point_ok interval_range.
Proof.
  destruct (implied_exponent l Dl Nl) as (A1 & _), (implied_exponent h Dh Nh) as (B1 & _). pose proof unit_pos as Hu. pose proof interval_magnitude as Hmag.
  pose proof (implied_exponent_ge l 31 Dl Nl ltac:(lia)) as L31. pose proof (implied_exponent_ge h 31 Dh Nh ltac:(lia)) as H31. pose proof (implied_exponent_ge l 30 Dl Nl ltac:(lia)) as L30. pose proof (implied_exponent_ge h 30 Dh Nh ltac:(lia)) as H30.
  unfold interval_range. destruct (set_lower_spec (scaled l)) as (vl & bl & -> & Rl & Cl), (set_upper_spec (scaled h)) as (vh & bh & -> & Rh & Ch). cbn [fst snd]. cbv zeta.
  set (e := Z.max le he) in *. set (frac := _ || _). assert (He : 0 <= e <= 1024) by lia. assert (Hfrac : Z.min le he < 52 -> frac = true) by (intros H; unfold frac; replace (Z.min le he <? 52) with true by lia; apply orb_true_r). clearbody frac.
  assert (Hvl : vl <= vh). { assert (vl < vh + 1); [|lia]. destruct Cl as [[_ Cl]|[[_ [-> Cl]]|[_ [-> Cl]]]], Ch as [[_ Ch]|[[_ [-> Ch]]|[_ [-> Ch]]]]; try lia; apply (Z.mul_lt_mono_pos_r U); lia. }
  assert (Hun : bl && bh = false -> 31 <= e + Z.b2z frac).
  { intros [->| ->]%andb_false_iff.
    - destruct Cl as [[? _]|[[? _]|[_ [_ Cl]]]]; [done|done|]. specialize (L31 ltac:(lia)). destruct frac; cbn [Z.b2z]; lia.
    - destruct Ch as [[? _]|[[? _]|[_ [_ Ch]]]]; [done|done|]. specialize (H30 ltac:(lia)). destruct (Z.lt_ge_cases e 31); [rewrite Hfrac by lia; cbn [Z.b2z]; lia|destruct frac; cbn [Z.b2z]; lia]. }
  assert (Hbl : e < 31 -> Z.abs vl <= 2 ^ (e + 1)).
  { intros Hs. apply Hmag; [|lia]. destruct Cl as [[_ Cl]|[[_ [-> Cl]]|[_ [-> Cl]]]]; lia. }
  assert (Hbh : e < 31 -> Z.abs vh <= 2 ^ (e + 1)).
  { intros Hs. apply Hmag; [|lia]. destruct Ch as [[_ Ch]|[[_ [-> Ch]]|[_ [-> Ch]]]]; lia. }
  split; [split|]; cbn [lower_ upper_ hasInt32LowerBound_ hasInt32UpperBound_ max_exponent_ canHaveFractionalPart_]; [done|done|done|..].
  - intros ->. destruct Cl as [[? _]|[[? _]|[_ [? _]]]]; done.
  - intros ->. destruct Ch as [[? _]|[[? _]|[_ [? _]]]]; done.
  - by left.
  - unfold bound_ok. cbn [max_exponent_ canHaveFractionalPart_]. destruct (Z.lt_ge_cases e 31); [right; right; split; [apply Hfrac; lia|auto]|by left].
  - unfold bound_ok. cbn [max_exponent_ canHaveFractionalPart_]. destruct (Z.lt_ge_cases e 31); [right; right; split; [apply Hfrac; lia|auto]|by left].
  - exact Hun.
  - intros _ _ E. cbn [lower_ upper_ max_exponent_] in *. destruct (Z.lt_ge_cases e 31) as [Hs|]; [right|by left].
    assert (Hmax : vl = 2 ^ 31 - 1 -> 30 <= e -> Z.abs vl < 2 ^ (e + 1)) by (intros -> H; pose proof (pow_le 31 (e + 1) ltac:(lia)); lia).
    destruct Cl as [[_ Cl]|[[_ [Ev Cl]]|[_ [Ev Cl]]]]; [|apply Hmax; [done|rewrite Ev in *; lia]|lia]. destruct Ch as [[_ Ch]|[[_ [Ev Ch]]|[_ [Ev Ch]]]]; [|lia|apply Hmax; [lia|lia]].
    destruct (implied_exponent l Dl Nl) as (_ & A2 & _). specialize (A2 ltac:(lia)). assert (El : scaled l = vl * U) by (rewrite E in *; lia). rewrite El, Z.abs_mul, (Z.abs_eq U) in A2 by lia. apply Z.mul_lt_mono_pos_r in A2; [|done].
    pose proof (pow_le (le + 1) (e + 1) ltac:(lia)). lia.
Qed.

Lemma interval_contains d : is_double d -> IsNaN d = false -> scaled l <= scaled d <= scaled h -> contains interval_range d.
Proof.
  intros Hd Hn Hb. pose proof unit_pos as Hu. destruct (implied_exponent l Dl Nl) as (A1 & A2 & A3), (implied_exponent h Dh Nh) as (B1 & B2 & B3). apply contains_intro; [done|done|split|]; unfold interval_range; cbv zeta;
    cbn [lower_ upper_ hasInt32LowerBound_ hasInt32UpperBound_ max_exponent_ canHaveFractionalPart_ canBeNegativeZero_].
  - destruct (set_lower_spec (scaled l)) as (vl & bl & -> & Rl & [[-> Cl]|[[-> [-> Cl]]|[-> [-> Cl]]]]); cbn [fst snd]; [lia|lia|done].
  - destruct (set_upper_spec (scaled h)) as (vh & bh & -> & Rh & [[-> Ch]|[[-> [-> Ch]]|[-> [-> Ch]]]]); cbn [fst snd]; [lia|lia|done].
  - change MaxFiniteExponent with 1023. intros He. specialize (A2 ltac:(lia)). specialize (B2 ltac:(lia)).
    assert (C1 : 2 ^ (le + 1) * U <= 2 ^ (Z.max le he + 1) * U) by (apply Z.mul_le_mono_nonneg_r; [lia|apply pow_le; lia]). assert (C2 : 2 ^ (he + 1) * U <= 2 ^ (Z.max le he + 1) * U) by (apply Z.mul_le_mono_nonneg_r; [lia|apply pow_le; lia]). lia.
  - intros [Hc He%Z.ltb_ge]%orb_false_iff. apply large_whole52; [done|done|]. specialize (A3 ltac:(lia)). specialize (B3 ltac:(lia)).
    assert (C1 : 2 ^ 52 * U <= 2 ^ le * U) by (apply Z.mul_le_mono_nonneg_r; [lia|apply pow_le; lia]). assert (C2 : 2 ^ 52 * U <= 2 ^ he * U) by (apply Z.mul_le_mono_nonneg_r; [lia|apply pow_le; lia]).
    apply andb_false_iff in Hc as [Hc%Z.ltb_ge|Hc%Z.ltb_ge]; lia.
  - intros Hz ->. change (scaled kSignBit) with 0 in Hb. lia.
Qed.
End Interval.

Lemma setDouble_ok l h : is_double l -> is_double h -> IsNaN l = false -> IsNaN h = false -> scaled l <= scaled h ->
  exists r, setDouble l h = mret r /\ well_formed r /\ forall d, is_double d -> IsNaN d = false -> scaled l <= scaled d <= scaled h -> contains r d.
Proof.
  intros Dl Dh Nl Nh Hlh. rewrite setDouble_eq by done. destruct (interval_consistent l h Dl Dh Nl Nh Hlh) as [H1 H2]. destruct (optimize_ok _ H1 H2) as (r & Hr & Hw & Hc). exists r. split; [done|]. split; [done|]. intros d Hd Hn Hb. apply Hc. by apply interval_contains.
Qed.

(** A NaN tells nothing: every double is in its range. *)
Definition nan_range : NumberRange := MkNumberRange (- 2 ^ 31) (2 ^ 31 - 1) false false true true IncludesInfinityAndNaN.

Lemma nan_range_ok : well_formed nan_range /\ forall d, is_double d -> contains nan_range d.
Proof.
  split; [split; [split; try done; [by right|by left|by left]|done]|]. intros d Hd. destruct (IsNaN d) eqn:Hn; [by apply contains_intro_nan|]. apply contains_intro; [done|done|by split|done].
Qed.

Lemma setDouble_nan d : IsNaN d = true -> setDouble d d = mret nan_range.
Proof.
  intros Hn. unfold setDouble, double_lt, double_le, ExponentImpliedByDouble. rewrite Hn. cbn [negb andb orb]. change (moz_assert true) with (mret tt : M unit). rewrite !andb_false_r, !bind_ret. reflexivity.
Qed.

Lemma setUnknown_eq : setUnknown = mret nan_range.
Proof. reflexivity. Qed.

(** A single double. *)
Lemma setDoubleSingleton_ok d : is_double d -> exists r, setDoubleSingleton d = mret r /\ well_formed r /\ contains r d.
Proof.
  intros Hd. assert (Hx : exists r, setDouble d d = mret r /\ well_formed r /\ contains r d).
  { destruct (IsNaN d) eqn:Hn; [rewrite setDouble_nan by done; exists nan_range; destruct nan_range_ok; auto|]. destruct (setDouble_ok d d Hd Hd Hn Hn ltac:(done)) as (r & Hr & Hw & Hc). exists r. split; [done|]. split; [done|]. by apply Hc. }
  destruct Hx as (r & Hr & Hw & Hc). unfold setDoubleSingleton. rewrite Hr, bind_ret. cbv zeta. unfold IsNegativeZero. destruct (Z.eqb_spec d kSignBit) as [->|Hne]; cbn [negb].
  - exists r. rewrite (consistent_asserts r (proj1 Hw)). done.
  - exists (with_negative_zero r false). assert (Hw' : well_formed (with_negative_zero r false)) by (destruct Hw as [[] [F S]]; split; [split|split]; done). rewrite (consistent_asserts _ (proj1 Hw')). split; [done|]. split; [done|].
    destruct Hc as [_ Hc]. split; [done|]. destruct (IsNaN d); [done|]. destruct Hc as [Hf _]. split; [by destruct Hf|done].
Qed.
