(* ===== verification/RangeNodes.v ===== *)
(** The ranges of the nodes of the optimising JIT's graph (the [computeRange]
    methods of js/src/jit/RangeAnalysis.cpp): the range of an operand, and for
    each kind of node the range of its result. *)
From S2P Require Import Prelude Words CheckedArithmetic FloatingPoint BigIntRep BigIntMul Conversions BigIntDouble DoubleArith DoubleWhole DoubleOrder Dates RangeAnalysis RangeInv RangeArith RangeProduct RangeLattice RangeMath RangeRound RangeBits RangeShifts RangeWrap RangeDouble.

#[local] Abbreviation U := (2 ^ 1074).

(** * Operands *)

Inductive MIRType :=
  | MIRType_Undefined | MIRType_Null | MIRType_Boolean | MIRType_Int32 | MIRType_Int64 | MIRType_Double | MIRType_Float32
  | MIRType_String | MIRType_Symbol | MIRType_BigInt | MIRType_Simd128 | MIRType_Object
  | MIRType_MagicOptimizedArguments | MIRType_MagicOptimizedOut | MIRType_MagicHole | MIRType_MagicIsConstructing | MIRType_MagicUninitializedLexical
  | MIRType_Value | MIRType_ObjectOrNull | MIRType_None | MIRType_Slots | MIRType_Elements | MIRType_Pointer | MIRType_RefOrNull | MIRType_StackResults
  | MIRType_Shape | MIRType_ObjectGroup.

#[global] Instance mir_type_eq_dec : EqDecision MIRType.
Proof. solve_decision. Defined.

(** What the analysis asks a definition of the graph. *)
Record MDefinition := MkMDefinition {
  def_type : MIRType;
  def_range : option NumberRange;
  def_isToNumberInt32 : bool;
  def_isUrsh : bool;
  def_bailoutsDisabled : bool;
  def_int32Constant : option Z;   (* [maybeConstantValue()], when it is an Int32 *)
}.

(** The constructor of [Range] from an [MDefinition]; [MOZ_CRASH] counts as an
    assertion. *)
Definition Range_of (def : MDefinition) : M NumberRange :=
  r ← match def_range def with
      | Some other =>
          match def_type def with
          | MIRType_Int32 => if def_isToNumberInt32 def then clampToInt32 other else wrapAroundToInt32 other
          | MIRType_Boolean => wrapAroundToBoolean other
          | MIRType_None => throw AssertionFailed
          | _ => mret other
          end
      | None =>
          match def_type def with
          | MIRType_Int32 => setInt32 JSVAL_INT_MIN JSVAL_INT_MAX
          | MIRType_Boolean => setInt32 0 1
          | MIRType_None => throw AssertionFailed
          | _ => setUnknown
          end
      end;
  let r := if negb (hasInt32UpperBound_ r) && def_isUrsh def && def_bailoutsDisabled def && negb (bool_decide (def_type def = MIRType_Int64))
           then MkNumberRange JSVAL_INT_MIN (upper_ r) (hasInt32LowerBound_ r) (hasInt32UpperBound_ r) (canHaveFractionalPart_ r) (canBeNegativeZero_ r) (max_exponent_ r)
           else r in
  assertInvariants r;; mret r.

(** The doubles that an operand stands for: what its node computed, brought to
    its type; a node without a range can have any value of its type. *)
Definition converted (def : MDefinition) (p d : Z) : Prop :=
  match def_type def with
  | MIRType_Int32 => if def_isToNumberInt32 def then d = p /\ exists n, in_int32 n /\ p = dbl n else d = dbl (to_int32 p)
  | MIRType_Boolean => 0 <= to_int32 p <= 1 /\ d = dbl (to_int32 p)
  | _ => d = p
  end.

Definition typed (def : MDefinition) (d : Z) : Prop :=
  match def_type def with
  | MIRType_Int32 => exists n, in_int32 n /\ d = dbl n
  | MIRType_Boolean => exists n, 0 <= n <= 1 /\ d = dbl n
  | _ => is_double d
  end.

Definition value_of (def : MDefinition) (d : Z) : Prop :=
  match def_range def with Some r => exists p, contains r p /\ converted def p d | None => typed def d end /\
  (forall c, def_int32Constant def = Some c -> d = dbl c).

Record definition_ok (def : MDefinition) : Prop := {
  definition_range : forall r, def_range def = Some r -> well_formed r;
  definition_typed : def_type def <> MIRType_None;
  definition_constant : forall c, def_int32Constant def = Some c -> in_int32 c;
}.

(** The range before the case of [MUrsh]. *)
Definition base_range (def : MDefinition) : M NumberRange :=
  match def_range def with
  | Some other =>
      match def_type def with
      | MIRType_Int32 => if def_isToNumberInt32 def then clampToInt32 other else wrapAroundToInt32 other
      | MIRType_Boolean => wrapAroundToBoolean other
      | MIRType_None => throw AssertionFailed
      | _ => mret other
      end
  | None =>
      match def_type def with
      | MIRType_Int32 => setInt32 JSVAL_INT_MIN JSVAL_INT_MAX
      | MIRType_Boolean => setInt32 0 1
      | MIRType_None => throw AssertionFailed
      | _ => setUnknown
      end
  end.

Lemma base_range_ok def : definition_ok def -> exists r, base_range def = mret r /\ well_formed r /\ forall d, value_of def d -> contains r d.
Proof.
  intros [Hr Ht _]. unfold base_range, value_of, converted, typed. destruct (def_range def) as [r|] eqn:Er.
  - specialize (Hr r eq_refl). assert (Hsame : exists q, mret r = mret (M := M) q /\ well_formed q /\ forall d, (exists p, contains r p /\ d = p) /\ (forall c, def_int32Constant def = Some c -> d = dbl c) -> contains q d).
    { exists r. split; [done|]. split; [done|]. by intros d [(p & Hp & ->) _]. }
    destruct (def_type def); try exact Hsame; [| |done].
    + destruct (wrapAroundToBoolean_ok r Hr) as (q & Hq & Hw & _ & Hc). exists q. split; [done|]. split; [done|]. intros d [(p & Hp & Hb & ->) _]. by apply Hc.
    + destruct (def_isToNumberInt32 def).
      * destruct (clampToInt32_ok r Hr) as (q & Hq & Hw & _ & Hc). exists q. split; [done|]. split; [done|]. intros d [(p & Hp & -> & n & Hn & ->) _]. by apply Hc.
      * destruct (wrapAroundToInt32_ok r Hr) as (q & Hq & Hw & _ & Hc). exists q. split; [done|]. split; [done|]. intros d [(p & Hp & ->) _]. by apply Hc.
  - assert (Hunknown : exists q, setUnknown = mret q /\ well_formed q /\ forall d, is_double d /\ (forall c, def_int32Constant def = Some c -> d = dbl c) -> contains q d).
    { destruct nan_range_ok as [Hw Hc]. exists nan_range. split; [exact setUnknown_eq|]. split; [done|]. intros d [Hd _]. by apply Hc. }
    destruct (def_type def); try exact Hunknown; [| |done].
    + destruct (setInt32_ok 0 1) as (E & Hw & Hi); [done..|]. eexists. split; [exact E|]. split; [done|]. intros d [(n & Hn & ->) _]. by apply int32_contains.
    + destruct (setInt32_ok JSVAL_INT_MIN JSVAL_INT_MAX) as (E & Hw & Hi); [done..|]. eexists. split; [exact E|]. split; [done|]. intros d [(n & Hn & ->) _]. by apply int32_contains.
Qed.

Lemma Range_of_ok def : definition_ok def -> exists r, Range_of def = mret r /\ well_formed r /\ forall d, value_of def d -> contains r d.
Proof.
  intros Hd. destruct (base_range_ok def Hd) as (r & Hr & Hw & Hc). unfold Range_of. fold (base_range def). rewrite Hr, bind_ret. cbv zeta. set (r' := if negb _ && _ && _ && _ then _ else r).
  assert (Hx : well_formed r' /\ forall d, contains r d -> contains r' d).
  { unfold r'. clear r'. destruct (negb (hasInt32UpperBound_ r)) eqn:Hu; [|done]. apply negb_true_iff in Hu. destruct (_ && _); [|done]. assert (Hnb : hasInt32Bounds r = false) by (unfold hasInt32Bounds; rewrite Hu; by rewrite andb_false_r).
    pose proof (unbounded_exponent r Hw Hnb) as He. destruct Hw as [[W1 W2 W3 W4 W5 W6 W7 W8 W9] _]. specialize (W9 Hnb). change JSVAL_INT_MIN with (- 2 ^ 31). split.
    - split; [split; try done; cbn [lower_ upper_]; try lia|split; unfold hasInt32Bounds in *; cbn; congruence]. unfold bound_ok. cbn [max_exponent_ canHaveFractionalPart_].
      destruct (Z.le_gt_cases 31 (max_exponent_ r)); [by left|]. right. right. destruct (canHaveFractionalPart_ r); cbn [Z.b2z] in *; [|lia]. split; [done|]. pose proof (pow_le 31 (max_exponent_ r + 1) ltac:(lia)). lia.
    - intros d Hd'. apply (contains_mono r); [done|..]; cbn [lower_ upper_ hasInt32LowerBound_ hasInt32UpperBound_ canHaveFractionalPart_ canBeNegativeZero_ max_exponent_]; [intros; split; [done|lia]|done|done|done|lia|done|by apply valid_exponent_le]. }
  destruct Hx as [Hw' Hc']. exists r'. rewrite (consistent_asserts _ (proj1 Hw')). split; [done|]. split; [done|]. auto.
Qed.

(** * The nodes *)

(** A [computeRange] that returns without [setRange] gives [None]. *)
Definition is_Int32 (t : MIRType) : bool := bool_decide (t = MIRType_Int32).
Definition is_Int32_or_Double (t : MIRType) : bool := bool_decide (t = MIRType_Int32) || bool_decide (t = MIRType_Double).
Definition some_range (m : M NumberRange) : M (option NumberRange) := r ← m; mret (Some r).

Definition NewDoubleSingletonRange (d : Z) : M (option NumberRange) := if IsNaN d then mret None else some_range (setDoubleSingleton d).

(** The number of the constant, when its type has one, and its boolean. *)
Definition MConstant_computeRange (number : option Z) (boolean : option bool) : M (option NumberRange) :=
  match number, boolean with
  | Some d, _ => NewDoubleSingletonRange d
  | None, Some b => some_range (NewInt32Range (Z.b2z b) (Z.b2z b))
  | None, None => mret None
  end.

Definition MPhi_step (range : option NumberRange) (op : MDefinition) : M (option NumberRange) :=
  input ← Range_of op;
  match range with
  | Some range => some_range (unionWith range input)
  | None => mret (Some input)
  end.

(** The operands, and whether their block is unreachable. *)
Fixpoint MPhi_loop (operands : list (bool * MDefinition)) (range : option NumberRange) : M (option NumberRange) :=
  match operands with
  | [] => mret range
  | (unreachable, op) :: operands =>
      if unreachable : bool then MPhi_loop operands range
      else match def_range op with
           | None => mret None
           | Some _ => range ← MPhi_step range op; MPhi_loop operands range
           end
  end.

Definition MPhi_computeRange (type : MIRType) (operands : list (bool * MDefinition)) : M (option NumberRange) :=
  if negb (is_Int32_or_Double type) then mret None else MPhi_loop operands None.

Definition bit_computeRange (op : NumberRange -> NumberRange -> M NumberRange) (type : MIRType) (a b : MDefinition) : M (option NumberRange) :=
  if negb (is_Int32 type) then mret None
  else
    left ← Range_of a;
    right ← Range_of b;
    left ← wrapAroundToInt32 left;
    right ← wrapAroundToInt32 right;
    some_range (op left right).

Definition MBitAnd_computeRange := bit_computeRange range_and.
Definition MBitOr_computeRange := bit_computeRange range_or.
Definition MBitXor_computeRange := bit_computeRange range_xor.

Definition MBitNot_computeRange (type : MIRType) (a : MDefinition) : M (option NumberRange) :=
  moz_assert (is_Int32 type);;
  op ← Range_of a;
  op ← wrapAroundToInt32 op;
  some_range (range_not op).

Definition shift_computeRange (const_op : NumberRange -> Z -> M NumberRange) (op : NumberRange -> NumberRange -> M NumberRange) (type : MIRType) (a b : MDefinition) : M (option NumberRange) :=
  if negb (is_Int32 type) then mret None
  else
    left ← Range_of a;
    right ← Range_of b;
    left ← wrapAroundToInt32 left;
    match def_int32Constant b with
    | Some c => some_range (const_op left c)
    | None => right ← wrapAroundToShiftCount right; some_range (op left right)
    end.

Definition MLsh_computeRange := shift_computeRange range_lsh_constant range_lsh.
Definition MRsh_computeRange := shift_computeRange range_rsh_constant range_rsh.

Definition MUrsh_computeRange (type : MIRType) (a b : MDefinition) : M (option NumberRange) :=
  if negb (is_Int32 type) then mret None
  else
    left ← Range_of a;
    right ← Range_of b;
    left ← wrapAroundToInt32 left;
    right ← wrapAroundToShiftCount right;
    range ← match def_int32Constant b with Some c => range_ursh_constant left c | None => range_ursh left right end;
    l ← lower range;
    moz_assert (l >=? 0);;
    mret (Some range).

Definition MAbs_computeRange (type : MIRType) (implicitTruncate : bool) (a : MDefinition) : M (option NumberRange) :=
  if negb (is_Int32_or_Double type) then mret None
  else
    other ← Range_of a;
    next ← range_abs other;
    some_range (if implicitTruncate then wrapAroundToInt32 next else mret next).

Definition MFloor_computeRange (a : MDefinition) : M (option NumberRange) := other ← Range_of a; some_range (range_floor other).
Definition MCeil_computeRange (a : MDefinition) : M (option NumberRange) := other ← Range_of a; some_range (range_ceil other).
Definition MSign_computeRange (a : MDefinition) : M (option NumberRange) := opRange ← Range_of a; range_sign opRange.

Definition MMinMax_computeRange (type : MIRType) (isMax : bool) (a b : MDefinition) : M (option NumberRange) :=
  if negb (is_Int32_or_Double type) then mret None
  else
    left ← Range_of a;
    right ← Range_of b;
    if isMax then range_max left right else range_min left right.

Definition arith_computeRange (op : NumberRange -> NumberRange -> M NumberRange) (type : MIRType) (isTruncated : bool) (a b : MDefinition) : M (option NumberRange) :=
  if negb (is_Int32_or_Double type) then mret None
  else
    left ← Range_of a;
    right ← Range_of b;
    next ← op left right;
    some_range (if isTruncated then wrapAroundToInt32 next else mret next).

Definition MAdd_computeRange := arith_computeRange range_add.
Definition MSub_computeRange := arith_computeRange range_sub.

(** The new range, and [canBeNegativeZero_]. *)
Definition MMul_computeRange (type : MIRType) (isTruncated canBeNegativeZero : bool) (a b : MDefinition) : M (option NumberRange * bool) :=
  if negb (is_Int32_or_Double type) then mret (None, canBeNegativeZero)
  else
    left ← Range_of a;
    right ← Range_of b;
    let canBeNegativeZero := if canBeNegativeZero then negativeZeroMul left right else canBeNegativeZero in
    next ← range_mul left right;
    let canBeNegativeZero := if negb (canBeNegativeZero_ next) then false else canBeNegativeZero in
    next ← (if isTruncated then wrapAroundToInt32 next else mret next);
    mret (Some next, canBeNegativeZero).

(** [setRange(new Range(...))] of an operand: MToDouble, MToNumberInt32,
    MLimitedTruncate, MFilterTypeSet, MBoundsCheck, MSpectreMaskIndex. *)
Definition copy_computeRange (a : MDefinition) : M (option NumberRange) := some_range (Range_of a).

Definition MTruncateToInt32_computeRange (a : MDefinition) : M (option NumberRange) :=
  output ← Range_of a; some_range (wrapAroundToInt32 output).

(** * Soundness of the nodes *)

Definition node_sound1 (node : M (option NumberRange)) (a : MDefinition) (op : Z -> Z) : Prop :=
  exists o, node = mret o /\ forall q, o = Some q -> well_formed q /\ forall x, value_of a x -> contains q (op x).

Definition node_sound2 (node : M (option NumberRange)) (a b : MDefinition) (op : Z -> Z -> Z) : Prop :=
  exists o, node = mret o /\ forall q, o = Some q -> well_formed q /\ forall x y, value_of a x -> value_of b y -> contains q (op x y).

Lemma node_none1 a op : node_sound1 (mret None) a op.
Proof. by exists None. Qed.
Lemma node_none2 a b op : node_sound2 (mret None) a b op.
Proof. by exists None. Qed.

Lemma node_some1 m q a op : m = mret q -> well_formed q -> (forall x, value_of a x -> contains q (op x)) -> node_sound1 (some_range m) a op.
Proof. intros -> Hw Hc. exists (Some q). split; [done|]. intros q' E. by simplify_eq. Qed.
Lemma node_some2 m q a b op : m = mret q -> well_formed q -> (forall x y, value_of a x -> value_of b y -> contains q (op x y)) -> node_sound2 (some_range m) a b op.
Proof. intros -> Hw Hc. exists (Some q). split; [done|]. intros q' E. by simplify_eq. Qed.

Lemma to_int32_dbl n : in_int32 n -> to_int32 (dbl n) = n.
Proof.
  intros Hn. pose proof (in_int32_small n Hn) as Hs. destruct (to_int32_between (dbl n) n n (dbl_double n) (dbl_not_nan n Hs) Hn Hn) as [_ H]; [rewrite dbl_scaled by done; done|lia].
Qed.

Section Nodes.
Context (a b : MDefinition) (Ha : definition_ok a) (Hb : definition_ok b).

Lemma bit_node_sound range_op op type : int_sound2 range_op op -> node_sound2 (bit_computeRange range_op type a b) a b (fun x y => dbl (op (to_int32 x) (to_int32 y))).
Proof.
  intros Hop. unfold bit_computeRange. destruct (is_Int32 type); cbn [negb]; [|apply node_none2]. destruct (Range_of_ok a Ha) as (l & -> & Wl & Cl), (Range_of_ok b Hb) as (r & -> & Wr & Cr). rewrite !bind_ret.
  destruct (wrapAroundToInt32_ok l Wl) as (l' & -> & Wl' & Il & Cl'), (wrapAroundToInt32_ok r Wr) as (r' & -> & Wr' & Ir & Cr'). rewrite !bind_ret.
  destruct (Hop l' r' Wl' Wr' Il Ir) as (q & Hq & Hw & Hc). apply (node_some2 _ q); [done|done|]. intros x y Hx Hy. apply Hc; auto using to_int32_range.
Qed.

Lemma not_node_sound : node_sound1 (MBitNot_computeRange MIRType_Int32 a) a (fun x => dbl (Z.lnot (to_int32 x))).
Proof.
  unfold MBitNot_computeRange. change (moz_assert (is_Int32 MIRType_Int32)) with (mret tt : M unit). destruct (Range_of_ok a Ha) as (l & -> & Wl & Cl). rewrite !bind_ret. destruct (wrapAroundToInt32_ok l Wl) as (l' & -> & Wl' & Il & Cl'). rewrite !bind_ret.
  destruct (range_not_sound l' Wl' Il) as (q & Hq & Hw & Hc). apply (node_some1 _ q); [done|done|]. intros x Hx. apply Hc; auto using to_int32_range.
Qed.

Lemma shift_node_sound const_op range_op (op : Z -> Z -> Z) type : (forall c, int_sound1 (fun r => const_op r c) (fun x => op x c)) -> int_sound2 range_op op -> (forall x c, op x (Z.land c 0x1f) = op x c) ->
  node_sound2 (shift_computeRange const_op range_op type a b) a b (fun x y => dbl (op (to_int32 x) (to_int32 y))).
Proof.
  intros Hcop Hop Hmask. unfold shift_computeRange. destruct (is_Int32 type); cbn [negb]; [|apply node_none2]. destruct (Range_of_ok a Ha) as (l & -> & Wl & Cl), (Range_of_ok b Hb) as (r & -> & Wr & Cr). rewrite !bind_ret.
  destruct (wrapAroundToInt32_ok l Wl) as (l' & -> & Wl' & Il & Cl'). rewrite !bind_ret. destruct (def_int32Constant b) as [c|] eqn:Ec.
  - destruct (Hcop c l' Wl' Il) as (q & Hq & Hw & Hc). apply (node_some2 _ q); [done|done|]. intros x y Hx [_ Hy]. rewrite (Hy c Ec), to_int32_dbl by (by apply (definition_constant b Hb)). apply Hc; auto using to_int32_range.
  - destruct (wrapAroundToShiftCount_ok r Wr) as (r' & -> & Wr' & Ir & Cr'). rewrite !bind_ret. destruct (Hop l' r' Wl' Wr' Il Ir) as (q & Hq & Hw & Hc). apply (node_some2 _ q); [done|done|]. intros x y Hx Hy. rewrite <- Hmask.
    apply Hc; [apply to_int32_range| |auto|auto]. destruct (shift_count (to_int32 y)) as [H _]. unfold in_int32. lia.
Qed.

Lemma lsh_node_sound type : node_sound2 (MLsh_computeRange type a b) a b (fun x y => dbl (shift_left (to_int32 x) (to_int32 y))).
Proof. apply shift_node_sound; [apply range_lsh_constant_sound|apply range_lsh_sound|apply shift_mask]. Qed.

Lemma rsh_node_sound type : node_sound2 (MRsh_computeRange type a b) a b (fun x y => dbl (shift_right (to_int32 x) (to_int32 y))).
Proof. apply shift_node_sound; [apply range_rsh_constant_sound|apply range_rsh_sound|intros; apply shift_mask]. Qed.

Lemma ursh_node_sound type : node_sound2 (MUrsh_computeRange type a b) a b (fun x y => dbl (shift_right_unsigned (to_int32 x) (to_int32 y))).
Proof.
  unfold MUrsh_computeRange. destruct (is_Int32 type); cbn [negb]; [|apply node_none2]. destruct (Range_of_ok a Ha) as (l & -> & Wl & Cl), (Range_of_ok b Hb) as (r & -> & Wr & Cr). rewrite !bind_ret.
  destruct (wrapAroundToInt32_ok l Wl) as (l' & -> & Wl' & Il & Cl'), (wrapAroundToShiftCount_ok r Wr) as (r' & -> & Wr' & Ir & Cr'). rewrite !bind_ret.
  assert (Hm : exists m P q, match def_int32Constant b with Some c => range_ursh_constant l' c | None => range_ursh l' r' end = m /\ unsigned_result m P /\ m = mret q /\ well_formed q /\
    forall x y, value_of a x -> value_of b y -> contains q (dbl (shift_right_unsigned (to_int32 x) (to_int32 y)))).
  { destruct (def_int32Constant b) as [c|] eqn:Ec.
    - destruct (range_ursh_constant_sound c l' Wl' Il) as (q & Hq & Hw & Hc). exists (range_ursh_constant l' c). eexists. exists q. split; [reflexivity|]. split; [by apply ursh_constant_result|]. split; [done|]. split; [done|].
      intros x y Hx [_ Hy]. rewrite (Hy c Ec), to_int32_dbl by (by apply (definition_constant b Hb)). apply Hc; auto using to_int32_range.
    - destruct (range_ursh_sound l' r' Wl' Wr' Il Ir) as (q & Hq & Hw & Hc). exists (range_ursh l' r'). eexists. exists q. split; [reflexivity|]. split; [by apply ursh_result|]. split; [done|]. split; [done|].
      intros x y Hx Hy. destruct (shift_mask (to_int32 x) (to_int32 y)) as (_ & _ & <-). destruct (shift_count (to_int32 y)) as [H _]. apply Hc; [apply to_int32_range|unfold in_int32; lia|auto|auto]. }
  destruct Hm as (m & P & q & -> & Hu & Hq & Hw & Hc). destruct (unsigned_lower m P q Hu Hq) as (v & Hv & H0). rewrite Hq, bind_ret, Hv, bind_ret. replace (v >=? 0) with true by lia.
  change (moz_assert true) with (mret tt : M unit). rewrite bind_ret. exists (Some q). split; [done|]. intros q' E. by simplify_eq.
Qed.

Lemma plain_node_sound range_op op : sound1 range_op op -> node_sound1 (other ← Range_of a; some_range (range_op other)) a op.
Proof.
  intros Hop. destruct (Range_of_ok a Ha) as (l & -> & Wl & Cl). rewrite bind_ret. destruct (Hop l Wl) as (q & Hq & Hw & Hc). apply (node_some1 _ q); auto.
Qed.

(** A range brought to 32 bits, when the node is truncated. *)
Definition truncated (t : bool) (d : Z) : Z := if t then dbl (to_int32 d) else d.

Lemma truncate_ok (t : bool) next : well_formed next -> exists q, (if t then wrapAroundToInt32 next else mret next) = mret q /\ well_formed q /\ forall d, contains next d -> contains q (truncated t d).
Proof.
  intros Hw. destruct t; [|by exists next]. destruct (wrapAroundToInt32_ok next Hw) as (q & Hq & Wq & _ & Hc). by exists q.
Qed.

Lemma abs_node_sound type t : node_sound1 (MAbs_computeRange type t a) a (fun x => truncated t (double_abs x)).
Proof.
  unfold MAbs_computeRange. destruct (is_Int32_or_Double type); cbn [negb]; [|apply node_none1]. destruct (Range_of_ok a Ha) as (l & -> & Wl & Cl). rewrite bind_ret. destruct (range_abs_sound l Wl) as (n & -> & Wn & Cn). rewrite bind_ret.
  destruct (truncate_ok t n Wn) as (q & Hq & Hw & Hc). apply (node_some1 _ q); auto.
Qed.

Lemma arith_node_sound range_op op type t : sound2 range_op op -> node_sound2 (arith_computeRange range_op type t a b) a b (fun x y => truncated t (op x y)).
Proof.
  intros Hop. unfold arith_computeRange. destruct (is_Int32_or_Double type); cbn [negb]; [|apply node_none2]. destruct (Range_of_ok a Ha) as (l & -> & Wl & Cl), (Range_of_ok b Hb) as (r & -> & Wr & Cr). rewrite !bind_ret.
  destruct (Hop l r Wl Wr) as (n & -> & Wn & Cn). rewrite bind_ret. destruct (truncate_ok t n Wn) as (q & Hq & Hw & Hc). apply (node_some2 _ q); auto.
Qed.

Lemma sign_node_sound : node_sound1 (MSign_computeRange a) a math_sign_impl.
Proof.
  unfold MSign_computeRange. destruct (Range_of_ok a Ha) as (l & -> & Wl & Cl). rewrite bind_ret. destruct (range_sign_ok l Wl) as (o & Ho & Hc). exists o. split; [done|]. intros q E. destruct (Hc q E) as [Hw Hc']. auto.
Qed.

Lemma min_max_node_sound type (isMax : bool) : exists o, MMinMax_computeRange type isMax a b = mret o /\
  forall q, o = Some q -> well_formed q /\ forall x y, value_of a x -> value_of b y -> exists d, (if isMax then math_max_impl x y else mret (math_min_impl x y)) = mret d /\ contains q d.
Proof.
  unfold MMinMax_computeRange. destruct (is_Int32_or_Double type); cbn [negb]; [|by exists None]. destruct (Range_of_ok a Ha) as (l & -> & Wl & Cl), (Range_of_ok b Hb) as (r & -> & Wr & Cr). rewrite !bind_ret. destruct isMax.
  - destruct (range_max_ok l r Wl Wr) as (o & Ho & Hc). exists o. split; [done|]. intros q E. destruct (Hc q E) as [Hw Hc']. auto.
  - destruct (range_min_ok l r Wl Wr) as (o & Ho & Hc). exists o. split; [done|]. intros q E. destruct (Hc q E) as [Hw Hc']. split; [done|]. intros x y Hx Hy. eexists. auto.
Qed.

(** What multiplication learns of negative zero is true of every product. *)
Lemma mul_node_sound type t z : exists o z', MMul_computeRange type t z a b = mret (o, z') /\
  (forall q, o = Some q -> well_formed q /\ forall x y, value_of a x -> value_of b y -> contains q (truncated t (double_mul x y))) /\
  (z = true -> z' = false -> forall x y, value_of a x -> value_of b y -> double_mul x y <> kSignBit).
Proof.
  unfold MMul_computeRange. destruct (is_Int32_or_Double type); cbn [negb]; [|exists None, z; split; [done|]; split; [done|congruence]].
  destruct (Range_of_ok a Ha) as (l & -> & Wl & Cl), (Range_of_ok b Hb) as (r & -> & Wr & Cr). rewrite !bind_ret. cbv zeta. destruct (range_mul_sound l r Wl Wr) as (n & Hn & Wn & Cn). rewrite Hn, bind_ret.
  destruct (truncate_ok t n Wn) as (q & Hq & Hw & Hc). rewrite Hq, bind_ret. do 2 eexists. split; [done|]. split; [intros q' E; simplify_eq; auto|].
  intros -> Hz x y Hx Hy. specialize (Cl x Hx). specialize (Cr y Hy). destruct (canBeNegativeZero_ n) eqn:En; cbn [negb] in Hz.
  - destruct (product_contains l r Wl Wr x y Cl Cr) as [_ Hp]. destruct (IsNaN (double_mul x y)) eqn:Enan; [intros E; by rewrite E in Enan|]. by apply Hp.
  - specialize (Cn x y Cl Cr). destruct (IsNaN (double_mul x y)) eqn:Enan; [intros E; by rewrite E in Enan|]. by apply (contains_elim n).
Qed.

Lemma copy_node_sound : node_sound1 (copy_computeRange a) a (fun x => x).
Proof. destruct (Range_of_ok a Ha) as (q & Hq & Hw & Hc). by apply (node_some1 _ q). Qed.

Lemma truncate_node_sound : node_sound1 (MTruncateToInt32_computeRange a) a (fun x => dbl (to_int32 x)).
Proof.
  apply (plain_node_sound wrapAroundToInt32 (fun x => dbl (to_int32 x))). intros r Wr. destruct (wrapAroundToInt32_ok r Wr) as (q & Hq & Wq & _ & Hc). by exists q.
Qed.
End Nodes.

Lemma constant_node_sound number boolean : (forall d, number = Some d -> is_double d) -> exists o, MConstant_computeRange number boolean = mret o /\
  forall q, o = Some q -> well_formed q /\ forall d, (number = Some d \/ number = None /\ exists v : bool, boolean = Some v /\ d = dbl (Z.b2z v)) -> contains q d.
Proof.
  intros Hd. unfold MConstant_computeRange. destruct number as [d|].
  - unfold NewDoubleSingletonRange. destruct (IsNaN d); [by exists None|]. destruct (setDoubleSingleton_ok d (Hd d eq_refl)) as (r & Hr & Hw & Hc). exists (Some r). unfold some_range. rewrite Hr. split; [done|]. intros q E. simplify_eq. split; [done|]. intros d' [E|[E _]]; by simplify_eq.
  - destruct boolean as [v|]; [|by exists None]. destruct (new_int_range (Z.b2z v) (Z.b2z v)) as (r & Hr & Hw & Hc); [by destruct v|lia|by destruct v|]. exists (Some r). unfold some_range, NewInt32Range, MaxInt32Exponent. rewrite Hr.
    split; [done|]. intros q E. simplify_eq. split; [done|]. intros d' [E|(_ & v' & E & ->)]; simplify_eq. apply Hc. lia.
Qed.

(** ** Phi *)

(** The values that reach a phi by the operands whose block is reachable. *)
Definition phi_value (operands : list (bool * MDefinition)) (d : Z) : Prop := exists op, (false, op) ∈ operands /\ value_of op d.

Lemma phi_loop_sound operands : (forall u op, (u, op) ∈ operands -> definition_ok op) -> forall range, (forall r, range = Some r -> well_formed r) ->
  exists o, MPhi_loop operands range = mret o /\ forall q, o = Some q -> well_formed q /\ forall d, (exists r, range = Some r /\ contains r d) \/ phi_value operands d -> contains q d.
Proof.
  induction operands as [|[u op] operands IH]; intros Hok range Hr; cbn [MPhi_loop].
  - exists range. split; [done|]. intros q E. split; [auto|]. intros d [(r & Er & Hd)|(op & Hin & _)]; [by simplify_eq|by apply elem_of_nil in Hin].
  - assert (Hok' : forall u op, (u, op) ∈ operands -> definition_ok op) by (intros u' op' H; apply (Hok u'); by right). destruct u.
    + destruct (IH Hok' range Hr) as (o & Ho & Hq). exists o. split; [done|]. intros q E. destruct (Hq q E) as [Hw Hc]. split; [done|]. intros d [H|(op' & [H|H]%elem_of_cons & Hv)]; [auto|done|]. apply Hc. right. by exists op'.
    + destruct (def_range op) eqn:Eop; [|by exists None]. unfold MPhi_step. assert (Hop : definition_ok op) by (apply (Hok false); by left). destruct (Range_of_ok op Hop) as (input & -> & Wi & Ci). rewrite bind_ret.
      assert (Hs : exists q, match range with Some range => some_range (unionWith range input) | None => mret (Some input) end = mret (Some q) /\ well_formed q /\ forall d, (exists r, range = Some r /\ contains r d) \/ value_of op d -> contains q d).
      { destruct range as [r|]; [|exists input; split; [done|]; split; [done|]; intros d [(? & ? & _)|?]; [done|auto]]. destruct (unionWith_ok r input (Hr r eq_refl) Wi) as (q & Hq & Hw & Hc). exists q. unfold some_range. rewrite Hq. split; [done|]. split; [done|].
        intros d [(r' & E & ?)|?]; [simplify_eq|]; auto. }
      destruct Hs as (q & -> & Wq & Cq). rewrite bind_ret. destruct (IH Hok' (Some q)) as (o & Ho & Hqo); [intros r Er; by simplify_eq|]. exists o. split; [done|]. intros q' E. destruct (Hqo q' E) as [Hw Hc]. split; [done|].
      intros d [H|(op' & [E'|Hin]%elem_of_cons & Hv)]; apply Hc; [left; exists q; auto|left; exists q; simplify_eq; auto|right; by exists op'].
Qed.

Lemma phi_node_sound type operands : (forall u op, (u, op) ∈ operands -> definition_ok op) ->
  exists o, MPhi_computeRange type operands = mret o /\ forall q, o = Some q -> well_formed q /\ forall d, phi_value operands d -> contains q d.
Proof.
  intros Hok. unfold MPhi_computeRange. destruct (is_Int32_or_Double type); cbn [negb]; [|by exists None]. destruct (phi_loop_sound operands Hok None) as (o & Ho & Hq); [done|]. exists o. split; [done|]. intros q E. destruct (Hq q E) as [Hw Hc]. auto.
Qed.
