(* ===== verification/RangeBranches.v ===== *)
(** What a branch tells the range analysis (RangeAnalysis::addBetaNodes and
    MBeta in js/src/jit/RangeAnalysis.cpp): after a comparison with a constant,
    or of two integers, the operands are in a narrower range. *)
From S2P Require Import Prelude Words CheckedArithmetic FloatingPoint BigIntRep BigIntMul Conversions BigIntDouble DoubleArith DoubleWhole DoubleOrder Dates RangeAnalysis RangeInv RangeArith RangeProduct RangeLattice RangeMath RangeRound RangeBits RangeShifts RangeWrap RangeDouble RangeNodes.
From S2P Require DateObject.

#[local] Abbreviation U := (2 ^ 1074).

(** * Comparisons *)

(** The comparisons among the operations of the bytecode. *)
Inductive JSOp := JSOp_Eq | JSOp_Ne | JSOp_StrictEq | JSOp_StrictNe | JSOp_Lt | JSOp_Gt | JSOp_Le | JSOp_Ge.

#[global] Instance jsop_eq_dec : EqDecision JSOp.
Proof. solve_decision. Defined.

Definition ReverseCompareOp (op : JSOp) : JSOp :=
  match op with JSOp_Gt => JSOp_Lt | JSOp_Ge => JSOp_Le | JSOp_Lt => JSOp_Gt | JSOp_Le => JSOp_Ge | _ => op end.

Definition NegateCompareOp (op : JSOp) : JSOp :=
  match op with
  | JSOp_Gt => JSOp_Le | JSOp_Ge => JSOp_Lt | JSOp_Lt => JSOp_Ge | JSOp_Le => JSOp_Gt
  | JSOp_Eq => JSOp_Ne | JSOp_Ne => JSOp_Eq | JSOp_StrictNe => JSOp_StrictEq | JSOp_StrictEq => JSOp_StrictNe
  end.

(** [FoldComparison] of doubles. *)
Definition FoldComparison (op : JSOp) (left right : Z) : bool :=
  match op with
  | JSOp_Lt => double_lt left right
  | JSOp_Le => double_le left right
  | JSOp_Gt => double_lt right left
  | JSOp_Ge => double_le right left
  | JSOp_StrictEq | JSOp_Eq => double_eq left right
  | JSOp_StrictNe | JSOp_Ne => negb (double_eq left right)
  end.

(** * The range of a branch *)

(** For an integer, a strict bound moves by one, unless that overflows. *)
Definition strict_bound (safe : Z -> Z -> bool * Z) (val_int32 : bool) (bound : Z) : M Z :=
  if val_int32 then
    i ← DateObject.NumberEqualsInt32 bound;
    mret (match i with Some i => let '(ok, res) := safe i 1 in if ok then dbl res else bound | None => bound end)
  else mret bound.

Definition exclude_zero (bound : Z) (comp : NumberRange) : M NumberRange :=
  if double_eq bound (dbl 0) then refineToExcludeNegativeZero comp else mret comp.

(** The switch: the range of a value that passes the comparison, with the
    bounds to use where the constant is none. *)
Definition comp_range (jsop : JSOp) (conservativeLower conservativeUpper bound : Z) (val_int32 : bool) : M (option NumberRange) :=
  match jsop with
  | JSOp_Le => some_range (setDouble conservativeLower bound)
  | JSOp_Lt =>
      bound ← strict_bound SafeSub_portable val_int32 bound;
      comp ← setDouble conservativeLower bound;
      some_range (exclude_zero bound comp)
  | JSOp_Ge => some_range (setDouble bound conservativeUpper)
  | JSOp_Gt =>
      bound ← strict_bound SafeAdd_portable val_int32 bound;
      comp ← setDouble bound conservativeUpper;
      some_range (exclude_zero bound comp)
  | JSOp_StrictEq | JSOp_Eq => some_range (setDouble bound bound)
  | JSOp_StrictNe | JSOp_Ne =>
      comp ← setUnknown;
      if double_eq bound (dbl 0) then some_range (refineToExcludeNegativeZero comp) else mret None
  end.

(** The beta nodes of a block: none, one for the left or the right operand, or
    one for each. *)
Inductive BetaNodes :=
  | NoBeta
  | BetaLeft (comp : NumberRange)
  | BetaRight (comp : NumberRange)
  | BetaBoth (left right : NumberRange).

Definition one_beta (node : NumberRange -> BetaNodes) (m : M (option NumberRange)) : M BetaNodes :=
  comp ← m; mret (match comp with Some comp => node comp | None => NoBeta end).

(** The body of the loop of [addBetaNodes], for a block that is reached by one
    branch of a numeric comparison: [leftConst] and [rightConst] are the
    constants that are representable as doubles. *)
Definition addBetaNodes_block (jsop : JSOp) (true_branch : bool) (leftConst rightConst : option Z) (left_int32 right_int32 : bool) : M BetaNodes :=
  let '(jsop, conservativeLower, conservativeUpper) :=
    if true_branch then (jsop, NegativeInfinity, PositiveInfinity) else (NegateCompareOp jsop, GenericNaN, GenericNaN) in
  match leftConst, rightConst with
  | Some bound, _ => one_beta BetaRight (comp_range (ReverseCompareOp jsop) conservativeLower conservativeUpper bound right_int32)
  | None, Some bound => one_beta BetaLeft (comp_range jsop conservativeLower conservativeUpper bound left_int32)
  | None, None =>
      if left_int32 && right_int32 then
        match jsop with
        | JSOp_Lt =>
            smaller ← NewInt32Range JSVAL_INT_MIN (JSVAL_INT_MAX - 1);
            greater ← NewInt32Range (JSVAL_INT_MIN + 1) JSVAL_INT_MAX;
            mret (BetaBoth smaller greater)
        | JSOp_Gt =>
            smaller ← NewInt32Range JSVAL_INT_MIN (JSVAL_INT_MAX - 1);
            greater ← NewInt32Range (JSVAL_INT_MIN + 1) JSVAL_INT_MAX;
            mret (BetaBoth greater smaller)
        | _ => mret NoBeta
        end
      else mret NoBeta
  end.

(** [MBeta]: its range, and whether its block is unreachable. *)
Definition MBeta_computeRange (op : MDefinition) (comparison : NumberRange) : M (option NumberRange * bool) :=
  opRange ← Range_of op;
  '(range, emptyRange) ← intersect (Some opRange) (Some comparison);
  mret (if emptyRange : bool then (None, true) else (range, false)).

(** * Intervals whose bounds may be NaN *)

Lemma infinity_bounds d : is_double d -> IsNaN d = false -> scaled NegativeInfinity <= scaled d <= scaled PositiveInfinity.
Proof.
  intros Hd Hn. change NegativeInfinity with (signed_infinity true). change PositiveInfinity with (signed_infinity false).
  rewrite !(infinite_scaled (signed_infinity _)) by reflexivity. change (sign_of (signed_infinity true)) with true. change (sign_of (signed_infinity false)) with false. pose proof unit_pos as Hu.
  destruct (IsInfinite d) eqn:Hni; [rewrite (infinite_scaled d Hni); destruct (sign_of d); set (u := U) in *; clearbody u; lia|]. destruct (classify d) as [Hf|[Hi|?]]; [|congruence|congruence].
  assert (H : Z.abs (scaled d) < 2 ^ 1024 * U); [|set (u := U) in *; clearbody u; lia]. destruct (implied_exponent d Hd Hn) as (A1 & A2 & _).
  assert (He : ExponentImpliedByDouble d <= 1023).
  { unfold ExponentImpliedByDouble. rewrite Hn, Hni. apply IsFinite_iff in Hf as Hb. rewrite ExponentComponent_eq. change kExponentBias with 1023. lia. }
  specialize (A2 He). pose proof (pow_le (ExponentImpliedByDouble d + 1) 1024 ltac:(lia)). apply Z.lt_le_trans with (1 := A2). apply Z.mul_le_mono_nonneg_r; lia.
Qed.

Section Bounds.
Context (l h : Z) (Dl : is_double l) (Dh : is_double h) (Hlh : IsNaN l = false -> IsNaN h = false -> scaled l <= scaled h).

(** The doubles that an interval with a NaN, or without, admits. *)
Definition between (d : Z) : Prop :=
  is_double d /\ if IsNaN d then IsNaN l || IsNaN h = true else (IsNaN l = false -> scaled l <= scaled d) /\ (IsNaN h = false -> scaled d <= scaled h).

(** With one NaN. *)
Definition half_range : NumberRange :=
  let lo := if IsNaN l then (- 2 ^ 31, false) else set_lower (scaled l) in
  let hi := if IsNaN h then (2 ^ 31 - 1, false) else set_upper (scaled h) in
  let crossesZero := (IsNaN l || (scaled l <? 0)) && (IsNaN h || (0 <? scaled h)) in
  MkNumberRange lo.1 hi.1 lo.2 hi.2 (crossesZero || (Z.min (ExponentImpliedByDouble l) (ExponentImpliedByDouble h) <? 52))
    ((IsNaN l || negb (0 <? scaled l)) && (IsNaN h || negb (scaled h <? 0))) IncludesInfinityAndNaN.

Lemma setDouble_half : IsNaN l || IsNaN h = true -> setDouble l h = optimize half_range.
Proof.
  intros Hx. rewrite setDouble_parts. assert (Hlt : double_lt h l = false) by (unfold double_lt; destruct (IsNaN l), (IsNaN h); done). rewrite Hlt. cbn [negb]. change (moz_assert true) with (mret tt : M unit). rewrite bind_ret.
  assert (E1 : double_lower l = mret (if IsNaN l then (- 2 ^ 31, false) else set_lower (scaled l))) by (destruct (IsNaN l) eqn:Nl; [by apply nan_parts|by apply lower_part]).
  assert (E2 : double_upper h = mret (if IsNaN h then (2 ^ 31 - 1, false) else set_upper (scaled h))) by (destruct (IsNaN h) eqn:Nh; [by apply nan_parts|by apply upper_part]).
  rewrite E1, bind_ret. unfold half_range. destruct (if IsNaN l then _ else _) as [vl bl]. rewrite E2, bind_ret. destruct (if IsNaN h then _ else _) as [vh bh]. cbv zeta. cbn [fst snd]. do 2 f_equal.
  - unfold double_lt. change (IsNaN (dbl 0)) with false. change (scaled (dbl 0)) with 0. by destruct (IsNaN l), (IsNaN h).
  - unfold double_lt. change (IsNaN (dbl 0)) with false. change (scaled (dbl 0)) with 0. by destruct (IsNaN l), (IsNaN h).
  - unfold ExponentImpliedByDouble. change IncludesInfinityAndNaN with 65535. change IncludesInfinity with 1024.
    pose proof (implied_exponent l Dl) as Al. pose proof (implied_exponent h Dh) as Ah. unfold ExponentImpliedByDouble in Al, Ah. change IncludesInfinity with 1024 in Al, Ah.
    destruct (IsNaN l), (IsNaN h); [done| | |done]; [destruct (Ah eq_refl) as [? _]|destruct (Al eq_refl) as [? _]]; lia.
Qed.

Lemma half_ok : IsNaN l || IsNaN h = true -> consistent half_range /\ point_ok half_range /\ forall d, between d -> contains half_range d.
Proof.
  intros Hx. destruct (set_lower_spec (scaled l)) as (vl & bl & El & Rl & Cl), (set_upper_spec (scaled h)) as (vh & bh & Eh & Rh & Ch). pose proof unit_pos as Hu.
  assert (Hb : hasInt32Bounds half_range = false) by (unfold half_range, hasInt32Bounds; cbv zeta; cbn; destruct (IsNaN l), (IsNaN h); cbn; rewrite ?andb_false_r; done).
  split_and!.
  - split; try (left; done); try (by right); unfold half_range; cbv zeta; cbn [lower_ upper_ hasInt32LowerBound_ hasInt32UpperBound_ max_exponent_ canHaveFractionalPart_].
    + destruct (IsNaN l), (IsNaN h); cbn [fst snd]; rewrite ?El, ?Eh; cbn [fst snd]; [done|lia|lia|done].
    + destruct (IsNaN l); rewrite ?El; cbn [fst snd]; done.
    + destruct (IsNaN h); rewrite ?Eh; cbn [fst snd]; done.
    + destruct (IsNaN l); rewrite ?El; cbn [fst snd]; [done|]. intros ->. by destruct Cl as [[? _]|[[? _]|[_ [? _]]]].
    + destruct (IsNaN h); rewrite ?Eh; cbn [fst snd]; [done|]. intros ->. by destruct Ch as [[? _]|[[? _]|[_ [? _]]]].
    + intros _. change IncludesInfinityAndNaN with 65535. match goal with |- context [Z.b2z ?b] => destruct b end; cbn [Z.b2z]; lia.
  - intros _ H. congruence.
  - intros d [Hd Hbt]. destruct (IsNaN d) eqn:Nd; [apply contains_intro_nan; done|]. destruct Hbt as [Bl Bh]. apply contains_intro; [done|done|split|]; unfold half_range; cbv zeta; cbn [lower_ upper_ hasInt32LowerBound_ hasInt32UpperBound_ max_exponent_ canHaveFractionalPart_ canBeNegativeZero_].
    + destruct (IsNaN l); [done|]. specialize (Bl eq_refl). rewrite El. cbn [fst snd]. destruct Cl as [[-> Cl]|[[-> [-> Cl]]|[-> [-> Cl]]]]; [lia|lia|done].
    + destruct (IsNaN h); [done|]. specialize (Bh eq_refl). rewrite Eh. cbn [fst snd]. destruct Ch as [[-> Ch]|[[-> [-> Ch]]|[-> [-> Ch]]]]; [lia|lia|done].
    + done.
    + intros [Hc He%Z.ltb_ge]%orb_false_iff. apply large_whole52; [done|done|]. destruct (IsNaN l) eqn:Nl, (IsNaN h) eqn:Nh; [done| | |done]; cbn [orb andb] in *.
      * apply Z.ltb_ge in Hc. specialize (Bh eq_refl). destruct (implied_exponent h Dh Nh) as (B1 & B2 & B3). specialize (B3 ltac:(lia)).
        assert (C2 : 2 ^ 52 * U <= 2 ^ ExponentImpliedByDouble h * U) by (apply Z.mul_le_mono_nonneg_r; [lia|apply pow_le; lia]). lia.
      * rewrite andb_true_r in Hc. apply Z.ltb_ge in Hc. specialize (Bl eq_refl). destruct (implied_exponent l Dl Nl) as (B1 & B2 & B3). specialize (B3 ltac:(lia)).
        assert (C2 : 2 ^ 52 * U <= 2 ^ ExponentImpliedByDouble l * U) by (apply Z.mul_le_mono_nonneg_r; [lia|apply pow_le; lia]). lia.
    + intros Hz ->. change (scaled kSignBit) with 0 in *. destruct (IsNaN l), (IsNaN h); cbn [orb andb] in Hz; [done| | |done].
      * specialize (Bh eq_refl). lia.
      * specialize (Bl eq_refl). lia.
Qed.

(** [setDouble] of any two doubles that are not out of order. *)
Lemma setDouble_between : exists r, setDouble l h = mret r /\ well_formed r /\ forall d, between d -> contains r d.
Proof.
  destruct (IsNaN l || IsNaN h) eqn:Hx.
  - rewrite (setDouble_half Hx). destruct (half_ok Hx) as (H1 & H2 & H3). destruct (optimize_ok _ H1 H2) as (r & Hr & Hw & Hc). exists r. split; [done|]. split; [done|]. intros d Hd. by apply Hc, H3.
  - apply orb_false_iff in Hx as [Nl Nh]. destruct (setDouble_ok l h Dl Dh Nl Nh (Hlh Nl Nh)) as (r & Hr & Hw & Hc). exists r. split; [done|]. split; [done|]. intros d [Hd Hb]. rewrite Nl, Nh in Hb. destruct (IsNaN d) eqn:Nd; [done|]. destruct Hb. apply Hc; auto.
Qed.
End Bounds.

(** * Strict bounds *)

Lemma NumberEqualsInt32_ok b : is_double b -> exists o, DateObject.NumberEqualsInt32 b = mret o /\ forall i, o = Some i -> in_int32 i /\ IsNaN b = false /\ scaled b = i * U.
Proof.
  intros Hd. unfold DateObject.NumberEqualsInt32. destruct (IsFinite b) eqn:Hf; cbn [negb]; [|by exists None].
  destruct (double_le (dbl (- 2 ^ 31)) b && double_le b (dbl (2 ^ 31 - 1))) eqn:Hr; [|by exists None]. apply andb_true_iff in Hr as [H1 H2].
  assert (Hn : IsNaN b = false) by (unfold double_le in H1; by destruct (IsNaN b), (IsNaN (dbl (- 2 ^ 31)))). apply double_le_scaled in H1, H2. rewrite dbl_scaled in H1, H2 by (unfold small; lia).
  pose proof (integer_part_bounds b (- 2 ^ 31) (2 ^ 31 - 1) ltac:(lia) ltac:(exact (conj H1 H2))) as Hi. unfold double_to_int. rewrite Hf. replace (_ && _ && _) with true by lia. rewrite bind_ret.
  destruct (double_eq (dbl (integer_part b)) b) eqn:E; [|by exists None]. exists (Some (integer_part b)). split; [done|]. intros i [= <-]. split; [exact Hi|]. split; [done|].
  apply double_eq_scaled in E. rewrite <- E, dbl_scaled; [done|apply in_int32_small; exact Hi].
Qed.

Lemma strict_bound_ok safe delta vi b : (forall n, in_int32 n -> let '(ok, res) := safe n 1 in ok = true -> res = n + delta /\ in_int32 res) -> is_double b ->
  exists b', strict_bound safe vi b = mret b' /\ is_double b' /\
    (b' = b \/ vi = true /\ exists n, in_int32 n /\ in_int32 (n + delta) /\ IsNaN b = false /\ scaled b = n * U /\ b' = dbl (n + delta)).
Proof.
  intros Hs Hd. unfold strict_bound. destruct vi; [|exists b; auto]. destruct (NumberEqualsInt32_ok b Hd) as (o & -> & Ho). rewrite bind_ret. destruct o as [n|]; [|exists b; auto].
  destruct (Ho n eq_refl) as (Hn & Hb & Hx). specialize (Hs n Hn). destruct (safe n 1) as [[] res]; [|exists b; auto]. destruct (Hs eq_refl) as [-> Hr]. eexists. split; [done|]. split; [apply dbl_double|]. right. split; [done|]. by exists n.
Qed.

Lemma SafeSub_one n : in_int32 n -> let '(ok, res) := SafeSub_portable n 1 in ok = true -> res = n + (- 1) /\ in_int32 res.
Proof.
  intros Hn. rewrite SafeSub_equiv. unfold SafeSub_builtin. intros H. rewrite int32_id by done. split; [lia|]. unfold in_int32. unfold is_int32 in H. lia.
Qed.

Lemma SafeAdd_one n : in_int32 n -> let '(ok, res) := SafeAdd_portable n 1 in ok = true -> res = n + 1 /\ in_int32 res.
Proof.
  intros Hn. rewrite SafeAdd_equiv. unfold SafeAdd_builtin. intros H. rewrite int32_id by done. split; [lia|]. unfold in_int32. unfold is_int32 in H. lia.
Qed.

(** * Values that pass *)

(** The bounds that stand for no bound. *)
Definition conservative (true_branch : bool) : Z * Z := if true_branch then (NegativeInfinity, PositiveInfinity) else (GenericNaN, GenericNaN).

(** [d] goes the way of the branch, where [op] is already negated if the
    comparison has to be false. *)
Definition passes (true_branch : bool) (op : JSOp) (d bound : Z) : Prop :=
  if true_branch then FoldComparison op d bound = true else FoldComparison (NegateCompareOp op) d bound = false.

Definition unordered (true_branch : bool) (d b : Z) : Prop := true_branch = false /\ IsNaN d || IsNaN b = true.
Definition ordered (R : Z -> Z -> Prop) (d b : Z) : Prop := IsNaN d = false /\ IsNaN b = false /\ R (scaled d) (scaled b).

Lemma lt_cases a b : double_lt a b = true <-> ordered Z.lt a b.
Proof. unfold double_lt, ordered. destruct (IsNaN a), (IsNaN b); cbn; split; try (by intros; destruct_and?); [intros ?; split_and!; done || lia|intros (_ & _ & ?); lia]. Qed.
Lemma le_cases a b : double_le a b = true <-> ordered Z.le a b.
Proof. unfold double_le, ordered. destruct (IsNaN a), (IsNaN b); cbn; split; try (by intros; destruct_and?); [intros ?; split_and!; done || lia|intros (_ & _ & ?); lia]. Qed.
Lemma not_lt_cases a b : double_lt a b = false -> IsNaN a || IsNaN b = true \/ ordered Z.ge a b.
Proof. unfold double_lt, ordered. destruct (IsNaN a), (IsNaN b); cbn; auto. intros ?. right. split_and!; done || lia. Qed.
Lemma not_le_cases a b : double_le a b = false -> IsNaN a || IsNaN b = true \/ ordered Z.gt a b.
Proof. unfold double_le, ordered. destruct (IsNaN a), (IsNaN b); cbn; auto. intros ?. right. split_and!; done || lia. Qed.
Lemma eq_cases a b : double_eq a b = true -> ordered eq a b.
Proof. intros H. pose proof (double_eq_scaled a b H). unfold double_eq in H. unfold ordered. by destruct (IsNaN a), (IsNaN b). Qed.

Lemma passes_cases t op d b : passes t op d b ->
  match op with
  | JSOp_Lt => unordered t d b \/ ordered Z.lt d b
  | JSOp_Le => unordered t d b \/ ordered Z.le d b
  | JSOp_Gt => unordered t d b \/ ordered Z.gt d b
  | JSOp_Ge => unordered t d b \/ ordered Z.ge d b
  | JSOp_Eq | JSOp_StrictEq => ordered eq d b
  | JSOp_Ne | JSOp_StrictNe => double_eq d b = false
  end.
Proof.
  assert (Hsym : forall R S : Z -> Z -> Prop, (forall x y, R x y -> S y x) -> ordered R b d -> ordered S d b) by (intros R S H (? & ? & ?); split_and!; auto).
  assert (Hun : IsNaN b || IsNaN d = true -> unordered false d b) by (intros H; split; [done|]; by rewrite orb_comm).
  unfold passes. destruct t, op; cbn [FoldComparison NegateCompareOp].
  all: try by intros ?%eq_cases.
  all: try (by intros ?%negb_true_iff).
  all: try (by intros ?%negb_false_iff%eq_cases).
  all: try done.
  all: try (intros ?%lt_cases; right; first [done|apply (Hsym Z.lt); [lia|done]]).
  all: try (intros ?%le_cases; right; first [done|apply (Hsym Z.le); [lia|done]]).
  all: try (intros [?|?]%not_lt_cases; [left; first [by apply Hun|done]|right; first [done|apply (Hsym Z.ge); [lia|done]]]).
  all: try (intros [?|?]%not_le_cases; [left; first [by apply Hun|done]|right; first [done|apply (Hsym Z.gt); [lia|done]]]).
Qed.

(** * The range of a branch contains what takes it *)

Lemma exclude_ok b comp : well_formed comp -> exists r, exclude_zero b comp = mret r /\ well_formed r /\ forall d, contains comp d -> (double_eq b (dbl 0) = true -> d <> kSignBit) -> contains r d.
Proof.
  intros Hw. unfold exclude_zero. destruct (double_eq b (dbl 0)); [|exists comp; auto]. unfold refineToExcludeNegativeZero. rewrite (consistent_asserts comp (proj1 Hw)), bind_ret.
  assert (Hn : consistent (with_negative_zero comp false) /\ point_ok (with_negative_zero comp false)).
  { destruct Hw as [C [F _]]. split; [by destruct C|]. intros Hf Hb E. specialize (F Hf Hb). cbn in E. lia. }
  destruct (optimize_ok _ (proj1 Hn) (proj2 Hn)) as (q & Hq & Hqw & Hqc). exists q. split; [done|]. split; [done|]. intros d [Hd Hc] Hz. apply Hqc. split; [done|]. destruct (IsNaN d); [done|]. destruct Hc as [F _]. split; [by destruct F|]. intros _. by apply Hz.
Qed.

Lemma upper_ok t b : is_double b -> exists r, setDouble (conservative t).1 b = mret r /\ well_formed r /\ forall d, is_double d -> unordered t d b \/ ordered Z.le d b -> contains r d.
Proof.
  intros Hb. assert (Hc : is_double (conservative t).1) by (by destruct t). destruct (setDouble_between (conservative t).1 b Hc Hb) as (r & Hr & Hw & Hx).
  { intros Hn Nb. destruct t; [by apply infinity_bounds|done]. }
  exists r. split; [done|]. split; [done|]. intros d Hd H. apply Hx. split; [done|]. destruct H as [[-> Hn]|(Nd & Nb & Hle)].
  - destruct (IsNaN d); [done|]. cbn [orb] in Hn. by rewrite Hn.
  - rewrite Nd. split; [|done]. intros Hn. destruct t; [by apply infinity_bounds|done].
Qed.

Lemma lower_ok t b : is_double b -> exists r, setDouble b (conservative t).2 = mret r /\ well_formed r /\ forall d, is_double d -> unordered t d b \/ ordered Z.ge d b -> contains r d.
Proof.
  intros Hb. assert (Hc : is_double (conservative t).2) by (by destruct t). destruct (setDouble_between b (conservative t).2 Hb Hc) as (r & Hr & Hw & Hx).
  { intros Nb Hn. destruct t; [by apply infinity_bounds|done]. }
  exists r. split; [done|]. split; [done|]. intros d Hd H. apply Hx. split; [done|]. destruct H as [[-> Hn]|(Nd & Nb & Hle)].
  - destruct (IsNaN d); [by rewrite orb_true_r|]. cbn [orb] in Hn. by rewrite Hn.
  - rewrite Nd. split; [lia|]. intros Hn. destruct t; [by apply infinity_bounds|done].
Qed.

Lemma dbl_not_negative_zero n : in_int32 n -> dbl n <> kSignBit.
Proof.
  intros Hn E. assert (H0 : n * U = 0) by (rewrite <- dbl_scaled, E by (by apply in_int32_small); done). pose proof unit_pos. apply Z.mul_eq_0 in H0 as [->|?]; [by vm_compute in E|lia].
Qed.

Definition int_typed (vi : bool) (d : Z) : Prop := vi = true -> exists n, in_int32 n /\ d = dbl n.

(** A strict comparison, with the bound that the code takes for it. *)
Lemma strict_cases safe (delta : Z) (R : Z -> Z -> Prop) vi b t : (delta = -1 /\ R = Z.lt) \/ (delta = 1 /\ R = Z.gt) ->
  (forall n, in_int32 n -> let '(ok, res) := safe n 1 in ok = true -> res = n + delta /\ in_int32 res) -> is_double b ->
  exists b', strict_bound safe vi b = mret b' /\ is_double b' /\ forall d, is_double d -> int_typed vi d -> unordered t d b \/ ordered R d b ->
    (unordered t d b' \/ ordered (if delta <? 0 then Z.le else Z.ge) d b') /\ (double_eq b' (dbl 0) = true -> d <> kSignBit).
Proof.
  intros HR Hs Hd. destruct (strict_bound_ok safe delta vi b Hs Hd) as (b' & E & Hb' & H). exists b'. split; [done|]. split; [done|]. intros d Dd Hi Ho. destruct H as [->|(-> & n & Hn & Hn' & Nb & Sb & ->)].
  - split.
    + destruct Ho as [?|(? & ? & ?)]; [auto|]. right. split_and!; [done|done|]. destruct HR as [[-> ->]|[-> ->]]; cbn; lia.
    + intros E0 ->. pose proof (eq_cases _ _ E0) as (Nb & _ & Sb). change (scaled (dbl 0)) with 0 in Sb. destruct Ho as [[_ Hn]|(_ & _ & Hc)]; [rewrite Nb in Hn; by vm_compute in Hn|]. rewrite Sb in Hc. change (scaled kSignBit) with 0 in Hc. destruct HR as [[-> ->]|[-> ->]]; lia.
  - destruct (Hi eq_refl) as (m & Hm & ->). split; [|intros _; by apply dbl_not_negative_zero]. right. assert (Nm : IsNaN (dbl m) = false) by (apply dbl_not_nan; by apply in_int32_small).
    destruct Ho as [[_ Hu]|(_ & _ & Hc)]; [by rewrite Nm, Nb in Hu|]. split; [done|]. split; [apply dbl_not_nan; by apply in_int32_small|]. rewrite Sb in Hc. rewrite !dbl_scaled in * by (by apply in_int32_small).
    pose proof unit_pos as Hu. set (u := U) in *. clearbody u. destruct HR as [[-> ->]|[-> ->]]; cbn [Z.ltb Z.compare]; [assert (m < n) by (by apply (Z.mul_lt_mono_pos_r u))|assert (n < m) by (apply (Z.mul_lt_mono_pos_r u); lia)]; [apply Z.mul_le_mono_nonneg_r; lia|apply Z.le_ge, Z.mul_le_mono_nonneg_r; lia].
Qed.

Lemma ne_ok t op b vi : is_double b -> match op with JSOp_Ne | JSOp_StrictNe => True | _ => False end ->
  exists o, (comp ← setUnknown; if double_eq b (dbl 0) then some_range (refineToExcludeNegativeZero comp) else mret None) = mret o /\
  forall r, o = Some r -> well_formed r /\ forall d, is_double d -> int_typed vi d -> passes t op d b -> contains r d.
Proof.
  intros Hb Hop. rewrite setUnknown_eq, bind_ret. destruct (double_eq b (dbl 0)) eqn:E0; [|by exists None]. destruct nan_range_ok as [Wn Cn]. destruct (exclude_ok b nan_range Wn) as (r & Hr & Hw & Hc). unfold exclude_zero in Hr. rewrite E0 in Hr.
  exists (Some r). unfold some_range. rewrite Hr. split; [done|]. intros r' E. simplify_eq. split; [done|]. intros d Hd _ Hp. apply Hc; [by apply Cn|]. intros _ ->.
  apply passes_cases in Hp. assert (Hx : double_eq kSignBit b = false) by (by destruct op). unfold double_eq in *. destruct (IsNaN b); [done|]. cbn [negb andb] in *.
  apply orb_true_iff in E0 as [->%Z.eqb_eq|[Hz _]%andb_true_iff]; [by vm_compute in Hx|]. rewrite Hz in Hx. change (double_is_zero kSignBit) with true in Hx. cbn [andb] in Hx. rewrite orb_true_r in Hx. by vm_compute in Hx.
Qed.

Lemma comp_range_ok t op b vi : is_double b -> exists o, comp_range op (conservative t).1 (conservative t).2 b vi = mret o /\
  forall r, o = Some r -> well_formed r /\ forall d, is_double d -> int_typed vi d -> passes t op d b -> contains r d.
Proof.
  intros Hb. assert (Hsome : forall m (P : Z -> Prop), (exists r, m = mret r /\ well_formed r /\ forall d, is_double d -> P d -> contains r d) -> (forall d, is_double d -> int_typed vi d -> passes t op d b -> P d) ->
    exists o, some_range m = mret o /\ forall r, o = Some r -> well_formed r /\ forall d, is_double d -> int_typed vi d -> passes t op d b -> contains r d).
  { intros m P (r & -> & Hw & Hc) HP. exists (Some r). split; [done|]. intros r' E. simplify_eq. auto. }
  assert (Hstrict : forall m (P : Z -> Prop) b', is_double b' -> (exists r, m = mret r /\ well_formed r /\ forall d, is_double d -> P d -> contains r d) ->
    (forall d, is_double d -> int_typed vi d -> passes t op d b -> P d /\ (double_eq b' (dbl 0) = true -> d <> kSignBit)) ->
    exists o, (comp ← m; some_range (exclude_zero b' comp)) = mret o /\ forall r, o = Some r -> well_formed r /\ forall d, is_double d -> int_typed vi d -> passes t op d b -> contains r d).
  { intros m P b' Hb' (r & -> & Hw & Hc) HP. rewrite bind_ret. destruct (exclude_ok b' r Hw) as (r' & Hr' & Hw' & Hc'). apply (Hsome _ (fun d => int_typed vi d /\ passes t op d b)); [|auto]. exists r'. split; [done|]. split; [done|]. intros d Hd [Hi Hp]. destruct (HP d Hd Hi Hp). auto. }
  pose proof (setDouble_between b b Hb Hb ltac:(done)) as Heq. destruct op; cbn [comp_range].
  - destruct Heq as (r & Hr & Hw & Hc). apply (Hsome _ (fun d => ordered eq d b)); [|by intros d _ _ ?%passes_cases]. exists r. split; [done|]. split; [done|]. intros d Hd (Nd & Nb & E). apply Hc. split; [done|]. rewrite Nd, E. done.
  - exact (ne_ok t JSOp_Ne b vi Hb I).
  - destruct Heq as (r & Hr & Hw & Hc). apply (Hsome _ (fun d => ordered eq d b)); [|by intros d _ _ ?%passes_cases]. exists r. split; [done|]. split; [done|]. intros d Hd (Nd & Nb & E). apply Hc. split; [done|]. rewrite Nd, E. done.
  - exact (ne_ok t JSOp_StrictNe b vi Hb I).
  - destruct (strict_cases SafeSub_portable (-1) Z.lt vi b t ltac:(by left) SafeSub_one Hb) as (b' & -> & Hb' & Hc). rewrite bind_ret. apply (Hstrict _ (fun d => unordered t d b' \/ ordered Z.le d b')); [done|by apply upper_ok|].
    intros d Hd Hi Hp. by apply (Hc d Hd Hi), (passes_cases t JSOp_Lt).
  - destruct (strict_cases SafeAdd_portable 1 Z.gt vi b t ltac:(by right) SafeAdd_one Hb) as (b' & -> & Hb' & Hc). rewrite bind_ret. apply (Hstrict _ (fun d => unordered t d b' \/ ordered Z.ge d b')); [done|by apply lower_ok|].
    intros d Hd Hi Hp. by apply (Hc d Hd Hi), (passes_cases t JSOp_Gt).
  - apply (Hsome _ (fun d => unordered t d b \/ ordered Z.le d b)); [by apply upper_ok|]. intros d _ _ Hp. by apply (passes_cases t JSOp_Le).
  - apply (Hsome _ (fun d => unordered t d b \/ ordered Z.ge d b)); [by apply lower_ok|]. intros d _ _ Hp. by apply (passes_cases t JSOp_Ge).
Qed.

(** * A block *)

Lemma reverse_compare op a b : FoldComparison (ReverseCompareOp op) b a = FoldComparison op a b.
Proof. assert (E : double_eq b a = double_eq a b) by (unfold double_eq; rewrite (Z.eqb_sym b a), (andb_comm (double_is_zero b)), (andb_comm (negb (IsNaN b))); done). destruct op; cbn; rewrite ?E; done. Qed.

Lemma reverse_negate op : NegateCompareOp (ReverseCompareOp op) = ReverseCompareOp (NegateCompareOp op) /\ NegateCompareOp (NegateCompareOp op) = op.
Proof. by destruct op. Qed.

(** The ranges of the beta nodes, for the left and the right operand. *)
Definition beta_left (n : BetaNodes) : option NumberRange := match n with BetaLeft r | BetaBoth r _ => Some r | _ => None end.
Definition beta_right (n : BetaNodes) : option NumberRange := match n with BetaRight r | BetaBoth _ r => Some r | _ => None end.
Definition range_admits (o : option NumberRange) (d : Z) : Prop := forall r, o = Some r -> well_formed r /\ contains r d.

Section Block.
Context (x y : Z) (Dx : is_double x) (Dy : is_double y) (leftConst rightConst : option Z) (left_int32 right_int32 : bool).
Context (Hlc : forall c, leftConst = Some c -> x = c) (Hrc : forall c, rightConst = Some c -> y = c) (Ix : int_typed left_int32 x) (Iy : int_typed right_int32 y).

Lemma one_beta_ok node m : (exists o, m = mret o /\ forall r, o = Some r -> range_admits (beta_left (node r)) x /\ range_admits (beta_right (node r)) y) ->
  exists n, one_beta node m = mret n /\ range_admits (beta_left n) x /\ range_admits (beta_right n) y.
Proof. intros (o & -> & Ho). unfold one_beta. rewrite bind_ret. destruct o as [r|]; [exists (node r); destruct (Ho r eq_refl); auto|by exists NoBeta]. Qed.

Lemma int_pair : left_int32 = true -> right_int32 = true -> exists smaller greater,
  NewInt32Range JSVAL_INT_MIN (JSVAL_INT_MAX - 1) = mret smaller /\ NewInt32Range (JSVAL_INT_MIN + 1) JSVAL_INT_MAX = mret greater /\ well_formed smaller /\ well_formed greater /\
  (double_lt x y = true -> contains smaller x /\ contains greater y) /\ (double_lt y x = true -> contains smaller y /\ contains greater x).
Proof.
  intros -> ->. destruct (Ix eq_refl) as (m & Hm & Em), (Iy eq_refl) as (n & Hn & En). unfold NewInt32Range, MaxInt32Exponent, JSVAL_INT_MIN, JSVAL_INT_MAX.
  destruct (new_int_range (- 2 ^ 31) (2 ^ 31 - 1 - 1)) as (s & Hs & Ws & Cs); [done..|]. destruct (new_int_range (- 2 ^ 31 + 1) (2 ^ 31 - 1)) as (g & Hg & Wg & Cg); [done..|]. exists s, g. split_and!; try done.
  - intros (_ & _ & H)%lt_cases. rewrite Em, En, !dbl_scaled in H by (by apply in_int32_small). pose proof unit_pos. apply Z.mul_lt_mono_pos_r in H; [|done]. rewrite Em, En. unfold in_int32 in *. split; [apply Cs|apply Cg]; lia.
  - intros (_ & _ & H)%lt_cases. rewrite Em, En, !dbl_scaled in H by (by apply in_int32_small). pose proof unit_pos. apply Z.mul_lt_mono_pos_r in H; [|done]. rewrite Em, En. unfold in_int32 in *. split; [apply Cs|apply Cg]; lia.
Qed.

Lemma block_ok jsop t : FoldComparison jsop x y = t ->
  exists n, addBetaNodes_block jsop t leftConst rightConst left_int32 right_int32 = mret n /\ range_admits (beta_left n) x /\ range_admits (beta_right n) y.
Proof.
  intros Ht. unfold addBetaNodes_block. set (op := if t then jsop else NegateCompareOp jsop).
  assert (Hp : passes t op x y) by (unfold op, passes; destruct t; [done|]; by rewrite (proj2 (reverse_negate jsop))).
  assert (Hpr : passes t (ReverseCompareOp op) y x) by (unfold passes in *; rewrite (proj1 (reverse_negate op)), !reverse_compare; done).
  replace (if t then (jsop, NegativeInfinity, PositiveInfinity) else (NegateCompareOp jsop, GenericNaN, GenericNaN)) with (op, (conservative t).1, (conservative t).2) by (unfold op; by destruct t). cbv beta iota.
  destruct leftConst as [c|]; [|destruct rightConst as [c|]].
  - apply one_beta_ok. destruct (comp_range_ok t (ReverseCompareOp op) c right_int32) as (o & Ho & Hc); [by rewrite <- (Hlc c eq_refl)|]. exists o. split; [done|]. intros r E. destruct (Hc r E) as [Hw Hx]. split; [done|]. intros r' [= <-]. split; [done|]. apply Hx; [done|done|]. by rewrite <- (Hlc c eq_refl).
  - apply one_beta_ok. destruct (comp_range_ok t op c left_int32) as (o & Ho & Hc); [by rewrite <- (Hrc c eq_refl)|]. exists o. split; [done|]. intros r E. destruct (Hc r E) as [Hw Hx]. split; [|done]. intros r' [= <-]. split; [done|]. apply Hx; [done|done|]. by rewrite <- (Hrc c eq_refl).
  - destruct (left_int32 && right_int32) eqn:Hi; [|by exists NoBeta]. apply andb_true_iff in Hi as [Hi1 Hi2]. destruct (int_pair Hi1 Hi2) as (s & g & -> & -> & Ws & Wg & Hlt & Hgt).
    assert (Nx : IsNaN x || IsNaN y = false). { destruct (Ix Hi1) as (m & Hm & ->), (Iy Hi2) as (n & Hn & ->). by rewrite !dbl_not_nan by (by apply in_int32_small). }
    apply passes_cases in Hp. destruct op; try (exists NoBeta; done).
    + rewrite !bind_ret. exists (BetaBoth s g). split; [done|]. destruct Hp as [[_ ?]|Hp%lt_cases]; [congruence|]. destruct (Hlt Hp). split; intros r [= <-]; done.
    + rewrite !bind_ret. exists (BetaBoth g s). split; [done|]. destruct Hp as [[_ ?]|(? & ? & Hp)]; [congruence|]. assert (Hp' : double_lt y x = true) by (apply lt_cases; split_and!; [done|done|lia]). destruct (Hgt Hp'). split; intros r [= <-]; done.
Qed.
End Block.

Lemma beta_node_ok op comparison : definition_ok op -> well_formed comparison -> exists o unreachable, MBeta_computeRange op comparison = mret (o, unreachable) /\
  forall d, value_of op d -> contains comparison d -> unreachable = false /\ forall q, o = Some q -> well_formed q /\ contains q d.
Proof.
  intros Hop Hc. unfold MBeta_computeRange. destruct (Range_of_ok op Hop) as (r & -> & Wr & Cr). rewrite bind_ret. destruct (intersect_ok r comparison Wr Hc) as (o & e & -> & Ho & He). rewrite bind_ret. destruct e; do 2 eexists; (split; [done|]); intros d Hd Hd'.
  - destruct (He eq_refl d); auto.
  - split; [done|]. intros q E. destruct (Ho q E). auto.
Qed.
