(* ===== verification/RangeDivision.v ===== *)
(** The ranges of remainders and quotients (MMod and MDiv in
    js/src/jit/RangeAnalysis.cpp). *)
From S2P Require Import Prelude Words CheckedArithmetic FloatingPoint BigIntRep BigIntMul Conversions BigIntDouble DoubleArith DoubleWhole DoubleOrder Dates RangeAnalysis RangeInv RangeArith RangeProduct RangeLattice RangeMath RangeRound RangeBits RangeShifts RangeWrap RangeDouble RangeNodes.

#[local] Abbreviation U := (2 ^ 1074).

(** * Remainders *)

(** The part of [MMod::computeRange] for unsigned operands. *)
Definition unsigned_mod_range (lhs rhs : NumberRange) : M NumberRange :=
  ll ← lower lhs; lu ← upper lhs; rl ← lower rhs; ru ← upper rhs;
  let lhsBound := Z.max (uint32 ll) (uint32 lu) in
  let rhsBound := Z.max (uint32 rl) (uint32 ru) in
  let lhsBound := if (ll <=? -1) && (lu >=? -1) then UINT32_MAX else lhsBound in
  let rhsBound := if (rl <=? -1) && (ru >=? -1) then UINT32_MAX else rhsBound in
  moz_assert (negb (canHaveFractionalPart_ lhs) && negb (canHaveFractionalPart_ rhs));;
  let rhsBound := uint32 (rhsBound - 1) in
  NewUInt32Range 0 (Z.min lhsBound rhsBound).

(** The part for doubles. *)
Definition double_mod_range (lhs rhs : NumberRange) : M (option NumberRange) :=
  rl ← lower rhs; ru ← upper rhs;
  let a := Z.abs rl in
  let b := Z.abs ru in
  if (a =? 0) && (b =? 0) then mret None
  else
    let rhsAbsBound := Z.max a b in
    let rhsAbsBound := if negb (canHaveFractionalPart_ lhs) && negb (canHaveFractionalPart_ rhs) then rhsAbsBound - 1 else rhsAbsBound in
    ll ← lower lhs; lu ← upper lhs;
    let lhsAbsBound := Z.max (Z.abs ll) (Z.abs lu) in
    let absBound := Z.min lhsAbsBound rhsAbsBound in
    let lower := if ll >=? 0 then 0 else - absBound in
    let upper := if lu <=? 0 then 0 else absBound in
    le ← exponent lhs; re ← exponent rhs;
    some_range (new_Range lower upper (canHaveFractionalPart_ lhs || canHaveFractionalPart_ rhs) (canHaveSignBitSet lhs) (Z.min le re)).

(** The new range and [unsigned_]; [lhs_uint32] and [rhs_uint32] are
    [IsUint32Type] of the operands. *)
Definition MMod_computeRange (type : MIRType) (unsigned_ lhs_uint32 rhs_uint32 rhs_constant : bool) (a b : MDefinition) : M (option NumberRange * bool) :=
  if negb (is_Int32_or_Double type) then mret (None, unsigned_)
  else
    lhs ← Range_of a;
    rhs ← Range_of b;
    if negb (hasInt32Bounds lhs) || negb (hasInt32Bounds rhs) then mret (None, unsigned_)
    else
      ll ← lower lhs; rl ← lower rhs; ru ← upper rhs;
      if (rl <=? 0) && (ru >=? 0) then mret (None, unsigned_)
      else
        let hasDoubles := (ll <? 0) || canHaveFractionalPart_ lhs || canHaveFractionalPart_ rhs in
        let hasUint32s := lhs_uint32 && is_Int32 (def_type b) && (rhs_uint32 || rhs_constant) in
        let unsigned_ := if is_Int32 type && (rl >? 0) then if negb hasDoubles || hasUint32s then true else unsigned_ else unsigned_ in
        range ← (if unsigned_ : bool then some_range (unsigned_mod_range lhs rhs) else double_mod_range lhs rhs);
        mret (range, unsigned_).

(** * Quotients *)

Definition MDiv_computeRange (type : MIRType) (unsigned_ : bool) (a b : MDefinition) : M (option NumberRange) :=
  if negb (is_Int32_or_Double type) then mret None
  else
    lhs ← Range_of a;
    rhs ← Range_of b;
    if negb (hasInt32Bounds lhs) || negb (hasInt32Bounds rhs) then mret None
    else
      ll ← lower lhs; rl ← lower rhs;
      if (ll >=? 0) && (rl >=? 1) then
        lu ← upper lhs; le ← exponent lhs;
        some_range (new_Range 0 lu true true le)
      else if unsigned_ && (rl >=? 1) then
        moz_assert (negb (canHaveFractionalPart_ lhs) && negb (canHaveFractionalPart_ rhs));;
        moz_assert (negb (canBeNegativeZero_ lhs) && negb (canBeNegativeZero_ rhs));;
        some_range (NewUInt32Range 0 UINT32_MAX)
      else mret None.

(** * Bounded ranges *)

Section Pair.
Context (lhs rhs : NumberRange) (Hl : well_formed lhs) (Hr : well_formed rhs) (Bl : hasInt32Bounds lhs = true) (Br : hasInt32Bounds rhs = true).

Lemma bounded_facts r : well_formed r -> hasInt32Bounds r = true ->
  lower r = mret (lower_ r) /\ upper r = mret (upper_ r) /\ exponent r = mret (max_exponent_ r) /\ 0 <= max_exponent_ r <= 31 /\ - 2 ^ 31 <= lower_ r /\ lower_ r <= upper_ r /\ upper_ r <= 2 ^ 31 - 1 /\
  raw_bound (max_exponent_ r) (canHaveFractionalPart_ r) (lower_ r) /\ raw_bound (max_exponent_ r) (canHaveFractionalPart_ r) (upper_ r).
Proof.
  intros [[] [_ He]] Hb. specialize (He Hb). apply exponent_nonneg in wf_exponent. assert (Hb' := Hb). unfold hasInt32Bounds in Hb'. apply andb_true_iff in Hb' as [H1 H2]. unfold lower, upper, exponent, canBeInfiniteOrNaN. rewrite H1, H2.
  change IncludesInfinity with 1024. replace (max_exponent_ r >=? 1024) with false by lia. split_and!; try done; lia.
Qed.

Lemma bounded_member r a : well_formed r -> hasInt32Bounds r = true -> contains r a ->
  IsNaN a = false /\ IsFinite a = true /\ lower_ r * U <= scaled a <= upper_ r * U /\ Z.abs (scaled a) <= (2 ^ 53 - 1) * 2 ^ (max_exponent_ r + 1022).
Proof.
  intros Hw Hb Ha. destruct (bounded_facts r Hw Hb) as (_ & _ & _ & He & _). assert (Na : IsNaN a = false).
  { destruct (IsNaN a) eqn:Na; [|done]. destruct (contains_elim_nan r a Ha Na). congruence. }
  split; [done|]. split.
  - destruct (classify a) as [?|[Hi|?]]; [done| |congruence]. destruct (member_infinite r a Hw Ha Na Hi). congruence.
  - split; [by eapply member_bounds|]. eapply member_below; [done..|lia].
Qed.

#[local] Abbreviation ll := (lower_ lhs).
#[local] Abbreviation lu := (upper_ lhs).
#[local] Abbreviation rl := (lower_ rhs).
#[local] Abbreviation ru := (upper_ rhs).
#[local] Abbreviation mf := (canHaveFractionalPart_ lhs || canHaveFractionalPart_ rhs).
#[local] Abbreviation me := (Z.min (max_exponent_ lhs) (max_exponent_ rhs)).

Definition mod_bound : Z := Z.min (Z.max (Z.abs ll) (Z.abs lu)) (if mf then Z.max (Z.abs rl) (Z.abs ru) else Z.max (Z.abs rl) (Z.abs ru) - 1).
Definition mod_lower : Z := if ll >=? 0 then 0 else - mod_bound.
Definition mod_upper : Z := if lu <=? 0 then 0 else mod_bound.

Context (Hnz : (rl <=? 0) && (ru >=? 0) = false).

Lemma double_mod_range_eq : double_mod_range lhs rhs = some_range (new_Range mod_lower mod_upper mf (canHaveSignBitSet lhs) me).
Proof.
  destruct (bounded_facts lhs Hl Bl) as (E1 & E2 & E3 & _), (bounded_facts rhs Hr Br) as (F1 & F2 & F3 & _). unfold double_mod_range. rewrite F1, F2, !bind_ret. cbv zeta.
  assert (Hz : (Z.abs rl =? 0) && (Z.abs ru =? 0) = false) by (apply andb_false_iff in Hnz as [?|?]; apply andb_false_iff; [left|right]; lia). rewrite Hz, E1, E2, E3, F3, !bind_ret.
  unfold mod_lower, mod_upper, mod_bound. by destruct (canHaveFractionalPart_ lhs), (canHaveFractionalPart_ rhs).
Qed.

Lemma raw_bound_max e f v w : raw_bound e f v -> raw_bound e f w -> raw_bound e f (Z.max (Z.abs v) (Z.abs w)).
Proof. unfold raw_bound. intros [?|[?|[-> ?]]] [?|[?|[? ?]]]; auto; try (right; left; lia); right; right; split; done || lia. Qed.

Lemma raw_bound_le e f v w : raw_bound e f w -> Z.abs v <= Z.abs w -> raw_bound e f v.
Proof. unfold raw_bound. intros [?|[?|[-> ?]]] Hvw; auto; [right; left; lia|]. right; right. split; [done|lia]. Qed.

Lemma raw_bound_weak e f v : raw_bound e f v -> raw_bound e true v.
Proof. unfold raw_bound. intros [?|[?|[? ?]]]; auto. Qed.

Lemma mod_bound_ok : 0 <= mod_bound <= 2 ^ 31 /\ raw_bound me mf mod_bound.
Proof.
  destruct (bounded_facts lhs Hl Bl) as (_ & _ & _ & He & L1 & L2 & L3 & B1 & B2), (bounded_facts rhs Hr Br) as (_ & _ & _ & Ge & R1 & R2 & R3 & C1 & C2).
  assert (Hn0 : 1 <= Z.max (Z.abs rl) (Z.abs ru)) by (apply andb_false_iff in Hnz as [?|?]; lia).
  unfold mod_bound. set (x := Z.max (Z.abs ll) (Z.abs lu)). set (y := Z.max (Z.abs rl) (Z.abs ru)) in *. assert (Hx : 0 <= x <= 2 ^ 31) by lia. assert (Hy : y <= 2 ^ 31) by lia.
  assert (Bx : raw_bound (max_exponent_ lhs) (canHaveFractionalPart_ lhs) x) by (by apply raw_bound_max). assert (By : raw_bound (max_exponent_ rhs) (canHaveFractionalPart_ rhs) y) by (by apply raw_bound_max). clearbody x y.
  split; [destruct mf; lia|]. destruct (Z.min_spec (max_exponent_ lhs) (max_exponent_ rhs)) as [[Hlt ->]|[Hge ->]].
  - apply (raw_bound_le _ _ _ x); [|destruct mf; lia]. destruct (canHaveFractionalPart_ lhs); [done|]. cbn [orb]. by destruct (canHaveFractionalPart_ rhs); [apply raw_bound_weak in Bx|].
  - apply (raw_bound_le _ _ _ y); [|destruct mf; lia]. destruct (canHaveFractionalPart_ rhs); [by rewrite orb_true_r|]. rewrite orb_false_r. by destruct (canHaveFractionalPart_ lhs); [apply raw_bound_weak in By|].
Qed.

Lemma mod_range_ok nz : exists q, new_Range mod_lower mod_upper mf nz me = mret q /\ well_formed q /\ forall d, raw_contains mod_lower mod_upper mf nz me d -> contains q d.
Proof.
  destruct (bounded_facts lhs Hl Bl) as (_ & _ & _ & He & L1 & L2 & L3 & _), (bounded_facts rhs Hr Br) as (_ & _ & _ & Ge & _). destruct mod_bound_ok as [H0 Hb]. pose proof (pow_pos (me + 1) ltac:(lia)) as Hp.
  assert (B0 : raw_bound me mf 0) by (right; left; lia). assert (B1 : raw_bound me mf (- mod_bound)) by (by apply raw_bound_opp).
  assert (Hm : ll < 0 -> 0 < lu -> mod_bound = 0 -> mod_lower = 0) by (unfold mod_lower; intros; destruct (ll >=? 0); lia).
  apply new_Range_ok; unfold mod_lower, mod_upper in *.
  - left. lia.
  - destruct (Z.geb_spec ll 0), (Z.leb_spec lu 0); left; lia.
  - destruct (ll >=? 0); left; lia.
  - destruct (lu <=? 0); left; lia.
  - by destruct (ll >=? 0).
  - by destruct (lu <=? 0).
  - intros _ E. right. assert (H : (if ll >=? 0 then 0 else - mod_bound) = 0) by (destruct (Z.geb_spec ll 0), (Z.leb_spec lu 0); lia). by rewrite H.
Qed.

Lemma rem_bounds x y : y <> 0 -> Z.abs (Z.rem x y) <= Z.abs x /\ Z.abs (Z.rem x y) < Z.abs y /\ (0 <= x -> 0 <= Z.rem x y) /\ (x <= 0 -> Z.rem x y <= 0).
Proof.
  intros Hy. pose proof (Z.rem_bound_abs x y Hy). split; [|split; [done|]].
  - rewrite <- Z.rem_abs by done. apply Z.rem_le; lia.
  - split; [by apply Z.rem_nonneg|by apply Z.rem_nonpos].
Qed.

Lemma mod_contains x y : contains lhs x -> contains rhs y -> raw_contains mod_lower mod_upper mf (canHaveSignBitSet lhs) me (double_fmod x y).
Proof.
  intros Hx Hy. destruct (bounded_member lhs x Hl Bl Hx) as (Nx & Fx & Bx & Mx), (bounded_member rhs y Hr Br Hy) as (Ny & Fy & By & My). destruct (bounded_facts lhs Hl Bl) as (_ & _ & _ & He & L1 & L2 & L3 & _), (bounded_facts rhs Hr Br) as (_ & _ & _ & Ge & R1 & R2 & R3 & _).
  pose proof unit_pos as Hu. assert (Hy0 : scaled y <> 0). { intros E. rewrite E in By. apply andb_false_iff in Hnz as [H%Z.leb_gt|H]; [|rewrite Z.geb_leb in H; apply Z.leb_gt in H]; assert (0 < rl * U \/ ru * U < 0) by (first [left; apply Z.mul_pos_pos; lia|right; apply Z.mul_neg_pos; lia]); lia. }
  assert (Zy : double_is_zero y = false) by (apply not_true_iff_false; by intros ?%double_is_zero_iff).
  unfold double_fmod. rewrite Nx, Ny, (finite_not_infinite x Fx), (finite_not_infinite y Fy), Zy. cbn [orb]. cbv zeta. set (r := Z.rem (scaled x) (scaled y)). destruct (rem_bounds (scaled x) (scaled y) Hy0) as (Ra & Rb & Rp & Rn). fold r in Ra, Rb, Rp, Rn.
  destruct mod_bound_ok as [Hm0 _].
  assert (Hwhole : mf = false -> exists n, r = n * U).
  { intros [Ha Hb]%orb_false_iff. destruct (contains_elim lhs x Hx Nx) as [[_ _ _ Wx] _], (contains_elim rhs y Hy Ny) as [[_ _ _ Wy] _]. destruct (Wx Ha) as [n En], (Wy Hb) as [m Em]. exists (Z.rem n m). unfold r. rewrite En, Em, Z.mul_rem_distr_r; [done| |lia]. intros ->. apply Hy0. by rewrite Em. }
  assert (Hr1 : Z.abs r <= mod_bound * U).
  { unfold mod_bound. rewrite <- Z.mul_min_distr_nonneg_r by lia. apply Z.min_glb.
    - apply Z.le_trans with (1 := Ra). rewrite <- Z.mul_max_distr_nonneg_r by lia. set (u := U) in *. clearbody u. lia.
    - assert (Hy1 : Z.abs (scaled y) <= Z.max (Z.abs rl) (Z.abs ru) * U) by (rewrite <- Z.mul_max_distr_nonneg_r by lia; set (u := U) in *; clearbody u; lia). destruct mf; [lia|]. destruct (Hwhole eq_refl) as [n En].
      assert (Hlt : Z.abs n * U < Z.max (Z.abs rl) (Z.abs ru) * U) by (rewrite En, Z.abs_mul, (Z.abs_eq U) in Rb by lia; lia). apply Z.mul_lt_mono_pos_r in Hlt; [|done]. rewrite En, Z.abs_mul, (Z.abs_eq U) by lia. apply Z.mul_le_mono_nonneg_r; lia. }
  assert (Hlow : mod_lower * U <= r). { unfold mod_lower. destruct (Z.geb_spec ll 0); [rewrite Z.mul_0_l; apply Rp; assert (0 <= ll * U) by (apply Z.mul_nonneg_nonneg; lia); lia|rewrite Z.mul_opp_l; lia]. }
  assert (Hupp : r <= mod_upper * U). { unfold mod_upper. destruct (Z.leb_spec lu 0); [rewrite Z.mul_0_l; apply Rn; assert (lu * U <= 0) by (apply Z.mul_nonpos_nonneg; lia); lia|lia]. }
  assert (Bm : - 2 ^ 31 <= mod_lower <= 0 /\ 0 <= mod_upper <= 2 ^ 31) by (unfold mod_lower, mod_upper; destruct (ll >=? 0), (lu <=? 0); lia).
  destruct (Z.eqb_spec r 0) as [E0|Hr0].
  - destruct (signed_zero_scaled (sign_of x)) as (S0 & N0 & Hz). split; [by destruct (sign_of x)|]. rewrite N0, S0. split_and!.
    + intros _. assert (Z.min mod_lower (2 ^ 31 - 1) * U <= 0) by (apply Z.mul_nonpos_nonneg; lia). lia.
    + intros _. apply Z.mul_nonneg_nonneg; lia.
    + intros _. apply Z.mul_pos_pos; [apply pow_pos; lia|done].
    + intros _. by exists 0.
    + intros Hs E. specialize (Hz E). enough (canHaveSignBitSet lhs = true) by congruence. by eapply member_negative.
  - pose proof (round_scaled_rounded r) as R. set (d := round_scaled r) in *.
    assert (W : within U (Some mod_lower) (Some mod_upper) mf me (scaled d)).
    { apply (rounded_within _ _ _ _ _ _ _ R); [lia| | | |].
      - intros v [= <-]. unfold small. rewrite Z.mul_1_r. split; [lia|done].
      - intros v [= <-]. unfold small. rewrite Z.mul_1_r. split; [lia|done].
      - intros _. rewrite Z.mul_1_r. destruct (Z.min_spec (max_exponent_ lhs) (max_exponent_ rhs)) as [[_ ->]|[_ ->]]; lia.
      - intros Hf. destruct (Hwhole Hf) as [n En]. exists n. lia. }
    destruct W as [W1 W2 W3 W4]. split; [exact (rounded_double _ _ _ R)|]. rewrite (rounded_number _ _ _ R). split_and!; [| |done|done|].
    + intros _. rewrite Z.min_l by lia. by apply W1.
    + intros H. rewrite Z.max_l by lia. by apply W2.
    + intros _ E. apply (round_scaled_not_zero r Hr0). fold d. rewrite E. done.
Qed.

Lemma double_mod_ok : exists q, double_mod_range lhs rhs = mret (Some q) /\ well_formed q /\ forall x y, contains lhs x -> contains rhs y -> contains q (double_fmod x y).
Proof.
  rewrite double_mod_range_eq. destruct (mod_range_ok (canHaveSignBitSet lhs)) as (q & Hq & Hw & Hc). exists q. unfold some_range. rewrite Hq. split; [done|]. split; [done|]. intros x y Hx Hy. by apply Hc, mod_contains.
Qed.
End Pair.

(** * Unsigned operands *)

Definition unsigned_bound (l u : Z) : Z := if (l <=? -1) && (u >=? -1) then UINT32_MAX else Z.max (uint32 l) (uint32 u).

Lemma unsigned_bound_ok l u n : in_int32 l -> in_int32 u -> l <= n <= u -> 0 <= uint32 n <= unsigned_bound l u /\ unsigned_bound l u <= 2 ^ 32 - 1 /\ (n <> 0 -> 1 <= uint32 n).
Proof.
  intros Hl Hu Hn. unfold in_int32 in *. unfold unsigned_bound. change UINT32_MAX with (2 ^ 32 - 1). rewrite !uint32_sign by (unfold in_int32; lia).
  destruct (Z.leb_spec l (-1)), (Z.geb_spec u (-1)), (Z.ltb_spec n 0), (Z.ltb_spec l 0), (Z.ltb_spec u 0); cbn [andb]; lia.
Qed.

Lemma bounded_int r x : well_formed r -> hasInt32Bounds r = true -> contains r x -> in_int32 (lower_ r) /\ in_int32 (upper_ r) /\ lower_ r <= to_int32 x <= upper_ r.
Proof.
  intros Hw Hb Hx. destruct (bounded_member r x Hw Hb Hx) as (Nx & _ & Bx & _), (bounded_facts r Hw Hb) as (_ & _ & _ & _ & L1 & L2 & L3 & _). assert (Il : in_int32 (lower_ r)) by (unfold in_int32; lia). assert (Iu : in_int32 (upper_ r)) by (unfold in_int32; lia).
  split; [done|]. split; [done|]. by apply to_int32_between; [by eapply contains_double|..].
Qed.

Section Unsigned.
Context (lhs rhs : NumberRange) (Hl : well_formed lhs) (Hr : well_formed rhs) (Bl : hasInt32Bounds lhs = true) (Br : hasInt32Bounds rhs = true).

Lemma unsigned_mod_ok : (lower_ rhs <=? 0) && (upper_ rhs >=? 0) = false -> canHaveFractionalPart_ lhs = false -> canHaveFractionalPart_ rhs = false ->
  exists q, unsigned_mod_range lhs rhs = mret q /\ well_formed q /\
  forall x y, contains lhs x -> contains rhs y -> contains q (dbl (uint32 (to_int32 x) mod uint32 (to_int32 y))).
Proof.
  intros Hnz Fl Fr. destruct (bounded_facts lhs Hl Bl) as (E1 & E2 & _ & _ & L1 & L2 & L3 & _), (bounded_facts rhs Hr Br) as (F1 & F2 & _ & _ & R1 & R2 & R3 & _).
  unfold unsigned_mod_range. rewrite E1, E2, F1, F2, !bind_ret. cbv zeta. fold (unsigned_bound (lower_ lhs) (upper_ lhs)). fold (unsigned_bound (lower_ rhs) (upper_ rhs)). rewrite Fl, Fr. cbn [negb andb]. change (moz_assert true) with (mret tt : M unit). rewrite bind_ret.
  assert (Hnz' : upper_ rhs <> 0 /\ lower_ rhs <> 0) by (apply andb_false_iff in Hnz as [?|?]; lia).
  destruct (unsigned_bound_ok (lower_ lhs) (upper_ lhs) (upper_ lhs)) as (A1 & A2 & _); [unfold in_int32; lia..|]. destruct (unsigned_bound_ok (lower_ rhs) (upper_ rhs) (upper_ rhs)) as (B1 & B2 & B3); [unfold in_int32; lia..|]. specialize (B3 (proj1 Hnz')).
  set (lb := unsigned_bound (lower_ lhs) (upper_ lhs)) in *. set (rb := unsigned_bound (lower_ rhs) (upper_ rhs)) in *.
  assert (Er : uint32 (rb - 1) = rb - 1) by (unfold uint32; apply Z.mod_small; lia). rewrite Er.
  destruct (new_int_range 0 (Z.min lb (rb - 1))) as (q & Hq & Hw & Hc); [lia..|]. exists q. split; [done|]. split; [done|]. intros x y Hx Hy.
  destruct (bounded_int lhs x Hl Bl Hx) as (I1 & I2 & Ix), (bounded_int rhs y Hr Br Hy) as (J1 & J2 & Iy). apply Hc.
  destruct (unsigned_bound_ok _ _ _ I1 I2 Ix) as (X1 & _), (unsigned_bound_ok _ _ _ J1 J2 Iy) as (Y1 & _ & Y2). fold lb in X1. fold rb in Y1. specialize (Y2 ltac:(apply andb_false_iff in Hnz as [?|?]; lia)).
  pose proof (Z.mod_pos_bound (uint32 (to_int32 x)) (uint32 (to_int32 y)) ltac:(lia)). pose proof (Z.mod_le (uint32 (to_int32 x)) (uint32 (to_int32 y)) ltac:(lia) ltac:(lia)). lia.
Qed.
End Unsigned.

(** An operand of type Int32 has a range of integers. *)
Lemma base_range_int32 def r : definition_ok def -> def_type def = MIRType_Int32 -> base_range def = mret r -> isInt32 r = true.
Proof.
  intros [Hr _ _] Ht. unfold base_range. rewrite Ht. destruct (def_range def) as [q|]; [specialize (Hr q eq_refl)|].
  - destruct (def_isToNumberInt32 def).
    + destruct (clampToInt32_ok q Hr) as (q' & -> & _ & Hi & _). by intros <-%ret_inj.
    + destruct (wrapAroundToInt32_ok q Hr) as (q' & -> & _ & Hi & _). by intros <-%ret_inj.
  - destruct (setInt32_ok JSVAL_INT_MIN JSVAL_INT_MAX) as (-> & _ & Hi); [done..|]. by intros <-%ret_inj.
Qed.

Lemma Range_of_int32 def r : definition_ok def -> def_type def = MIRType_Int32 -> Range_of def = mret r -> isInt32 r = true.
Proof.
  intros Hd Ht. destruct (base_range_ok def Hd) as (b & Hb & Wb & _). pose proof (base_range_int32 def b Hd Ht Hb) as Hi. unfold Range_of. fold (base_range def). rewrite Hb, bind_ret. cbv zeta.
  assert (Hu : hasInt32UpperBound_ b = true) by (unfold isInt32, hasInt32Bounds in Hi; bsplit; done). rewrite Hu. cbn [negb andb]. rewrite (consistent_asserts b (proj1 Wb)), bind_ret. by intros <-%ret_inj.
Qed.

(** * Quotients of numbers that are not negative *)

Section Quotient.
Context (lhs rhs : NumberRange) (Hl : well_formed lhs) (Hr : well_formed rhs) (Bl : hasInt32Bounds lhs = true) (Br : hasInt32Bounds rhs = true) (H0 : 0 <= lower_ lhs) (H1 : 1 <= lower_ rhs).

Lemma quotient_range_ok : exists q, new_Range 0 (upper_ lhs) true true (max_exponent_ lhs) = mret q /\ well_formed q /\ forall d, raw_contains 0 (upper_ lhs) true true (max_exponent_ lhs) d -> contains q d.
Proof using Hl Bl H0.
  destruct (bounded_facts lhs Hl Bl) as (_ & _ & _ & He & L1 & L2 & L3 & B1 & B2). pose proof (pow_pos (max_exponent_ lhs + 1) ltac:(lia)) as Hp.
  apply new_Range_ok; [left; lia|left; lia|left; lia|left; lia|right; left; exact Hp|by eapply raw_bound_weak|intros _ _; right; exact Hp].
Qed.

Lemma double_quotient x y : contains lhs x -> contains rhs y -> raw_contains 0 (upper_ lhs) true true (max_exponent_ lhs) (double_div x y).
Proof.
  intros Hx Hy. destruct (bounded_member lhs x Hl Bl Hx) as (Nx & Fx & Bx & Mx), (bounded_member rhs y Hr Br Hy) as (Ny & Fy & By & My). destruct (bounded_facts lhs Hl Bl) as (_ & _ & _ & He & L1 & L2 & L3 & _).
  pose proof unit_pos as Hu. assert (Hy1 : U <= scaled y) by (apply Z.le_trans with (2 := proj1 By); rewrite <- (Z.mul_1_l U) at 1; apply Z.mul_le_mono_nonneg_r; lia).
  assert (Hx0 : 0 <= scaled x) by (apply Z.le_trans with (2 := proj1 Bx); apply Z.mul_nonneg_nonneg; lia).
  assert (Zy : double_is_zero y = false) by (apply not_true_iff_false; intros H%double_is_zero_iff; lia).
  unfold double_div. rewrite Nx, Ny, (finite_not_infinite x Fx), (finite_not_infinite y Fy), Zy. cbn [orb]. cbv zeta.
  assert (Sy : sign_of y = false) by (destruct (sign_of y) eqn:E; [apply sign_nonpos in E; lia|done]). assert (Ey : scaled_magnitude y = scaled y) by (unfold scaled; by rewrite Sy). rewrite Sy, xorb_false_r, Ey.
  pose proof (scaled_magnitude_nonneg x) as Mx0. assert (R : rounded (scaled x * U) (scaled y) (round_ratio (sign_of x) (scaled_magnitude x * U) (scaled y))).
  { apply round_ratio_rounded; [apply Z.mul_nonneg_nonneg; lia|lia|]. unfold scaled. destruct (sign_of x); cbn [signed]; ring. }
  set (d := round_ratio _ _ _) in *. clearbody d. assert (Hxy : scaled x * U <= scaled x * scaled y) by (apply Z.mul_le_mono_nonneg_l; lia).
  assert (W : within U (Some 0) (Some (upper_ lhs)) true (max_exponent_ lhs) (scaled d)).
  { apply (rounded_within _ _ _ _ _ _ _ R); [lia| | | |done].
    - intros v [= <-]. split; [by unfold small|]. rewrite !Z.mul_0_l. apply Z.mul_nonneg_nonneg; lia.
    - intros v [= <-]. split; [unfold small; lia|]. apply Z.le_trans with (1 := Hxy). apply Z.mul_le_mono_nonneg_r; lia.
    - intros _. rewrite Z.abs_eq in Mx by done. rewrite Z.abs_eq by (apply Z.mul_nonneg_nonneg; lia). apply Z.le_trans with (1 := Hxy). apply Z.mul_le_mono_nonneg_r; [lia|done]. }
  destruct W as [W1 W2 W3 W4]. split; [exact (rounded_double _ _ _ R)|]. rewrite (rounded_number _ _ _ R). split_and!; [| |done|done|done].
  - intros _. by apply W1.
  - intros _. rewrite Z.max_l by lia. by apply W2.
Qed.

Lemma unsigned_quotient x y : contains lhs x -> contains rhs y -> canHaveFractionalPart_ lhs = false ->
  raw_contains 0 (upper_ lhs) true true (max_exponent_ lhs) (dbl (uint32 (to_int32 x) / uint32 (to_int32 y))).
Proof.
  intros Hx Hy Hf. destruct (bounded_int lhs x Hl Bl Hx) as (I1 & I2 & Ix), (bounded_int rhs y Hr Br Hy) as (J1 & J2 & Iy). destruct (bounded_facts lhs Hl Bl) as (_ & _ & _ & He & L1 & L2 & L3 & _ & B2).
  rewrite !uint32_sign by apply to_int32_range. replace (to_int32 x <? 0) with false by lia. replace (to_int32 y <? 0) with false by lia. set (n := to_int32 x) in *. set (m := to_int32 y) in *. clearbody n m. unfold in_int32 in *.
  assert (Hq : 0 <= n / m <= n) by (split; [apply Z.div_pos; lia|apply Z.div_le_upper_bound; [lia|nia]]). set (v := n / m) in *. clearbody v. assert (Hs : small v) by (unfold small; lia). pose proof unit_pos as Hu.
  split; [apply dbl_double|]. rewrite dbl_not_nan, dbl_scaled by done. split_and!; [| | | |done].
  - intros _. apply Z.mul_nonneg_nonneg; lia.
  - intros _. apply Z.mul_le_mono_nonneg_r; lia.
  - intros _. rewrite Z.abs_mul, (Z.abs_eq U) by lia. apply Z.mul_lt_mono_pos_r; [done|]. unfold raw_bound in B2. rewrite Hf in B2. destruct B2 as [B2|[B2|[? _]]]; [|lia|done]. pose proof (pow_le 32 (max_exponent_ lhs + 1) ltac:(lia)). lia.
  - done.
Qed.
End Quotient.

(** * The nodes *)

Section Nodes.
Context (a b : MDefinition) (Ha : definition_ok a) (Hb : definition_ok b).

Definition unsigned_ok (u : bool) : Prop := u = true -> def_type a = MIRType_Int32 /\ def_type b = MIRType_Int32.

(** What a remainder node computes, [u] being its flag before the analysis.  A
    node that is unsigned already reads its operands as unsigned numbers.  So
    does one of type [Int32] whose left operand is [x >>> 0] ([lhs_uint32]) and
    whose right operand is another or a constant, for a positive divisor.
    Otherwise it is JavaScript's remainder; a node of type [Int32] has no
    negative zero. *)
Definition unsigned_operands (type : MIRType) (lhs_uint32 rhs_uint32 rhs_constant : bool) : bool :=
  is_Int32 type && lhs_uint32 && is_Int32 (def_type b) && (rhs_uint32 || rhs_constant).
Definition unsigned_rem (x y : Z) : Z := dbl (uint32 (to_int32 x) mod uint32 (to_int32 y)).
Definition typed_zero (type : MIRType) (d : Z) : Z := if is_Int32 type && (d =? kSignBit) then 0 else d.
Definition remainder (type : MIRType) (u lhs_uint32 rhs_uint32 rhs_constant : bool) (x y : Z) : Z :=
  if u || unsigned_operands type lhs_uint32 rhs_uint32 rhs_constant && (0 <? scaled y) then unsigned_rem x y else typed_zero type (double_fmod x y).

Lemma contains_typed_zero q type d : contains q d -> contains q (typed_zero type d).
Proof.
  intros H. unfold typed_zero. destruct (is_Int32 type && (d =? kSignBit)) eqn:E; [|done]. apply andb_true_iff in E as [_ ->%Z.eqb_eq].
  split; [done|]. destruct H as [_ H]. change (IsNaN kSignBit) with false in H. change (IsNaN 0) with false. cbn iota in H |- *. change (scaled kSignBit) with (scaled 0) in H. split; [apply H|done].
Qed.

(** On integers that are not negative both remainders are the same number. *)
Lemma remainders_agree l r x y : well_formed l -> well_formed r -> hasInt32Bounds l = true -> hasInt32Bounds r = true ->
  0 <= lower_ l -> 0 < lower_ r -> canHaveFractionalPart_ l = false -> canHaveFractionalPart_ r = false -> contains l x -> contains r y ->
  typed_zero MIRType_Int32 (double_fmod x y) = unsigned_rem x y.
Proof.
  intros Wl Wr Bl Br L0 R0 Fl Fr Hx Hy. destruct (bounded_member l x Wl Bl Hx) as (Nx & Fx & _ & _), (bounded_member r y Wr Br Hy) as (Ny & Fy & _ & _). destruct (bounded_int l x Wl Bl Hx) as (I1 & I2 & Ix), (bounded_int r y Wr Br Hy) as (J1 & J2 & Iy).
  assert (Hwhole : forall q d, well_formed q -> hasInt32Bounds q = true -> canHaveFractionalPart_ q = false -> contains q d -> scaled d = to_int32 d * U).
  { intros q d Wq Bq Fq Hd. destruct (bounded_member q d Wq Bq Hd) as (Nd & _ & Bd & _), (bounded_facts q Wq Bq) as (_ & _ & _ & _ & L1 & L2 & L3 & _). destruct (contains_elim q d Hd Nd) as [[_ _ _ Wd] _]. destruct (Wd Fq) as [n En].
    destruct (to_int32_between d (lower_ q) (upper_ q)) as [E _]; [by eapply contains_double|done|unfold in_int32; lia|unfold in_int32; lia|done|]. rewrite E, En, Z.quot_mul; [done|]. pose proof unit_pos. lia. }
  pose proof (Hwhole l x Wl Bl Fl Hx) as Ex. pose proof (Hwhole r y Wr Br Fr Hy) as Ey. set (n := to_int32 x) in *. set (m := to_int32 y) in *. unfold in_int32 in *. pose proof unit_pos as Hu.
  unfold unsigned_rem. fold n m. rewrite !uint32_sign by apply to_int32_range. replace (n <? 0) with false by lia. replace (m <? 0) with false by lia.
  assert (Hm : small m) by (unfold small; lia). assert (Ym : y = dbl m) by (apply whole_small; [by eapply contains_double|done|done|done|lia]).
  rewrite Ym, (double_fmod_whole x n m Fx Ex Hm) by lia. rewrite Z.rem_mod_nonneg by lia. pose proof (Z.mod_pos_bound n m ltac:(lia)) as Hbm. unfold typed_zero. change (is_Int32 MIRType_Int32) with true. cbn [andb].
  destruct (Z.eqb_spec (n mod m) 0) as [->|E0]; [by destruct (sign_of x)|]. destruct (Z.eqb_spec (dbl (n mod m)) kSignBit) as [E|]; [|done].
  exfalso. apply (f_equal scaled) in E. rewrite dbl_scaled in E by (unfold small; lia). change (scaled kSignBit) with 0 in E. apply Z.mul_eq_0 in E. lia.
Qed.

(** The range holds the remainder, and the flag that the node keeps asks for an
    unsigned remainder only where that is the node's. *)
Lemma mod_node_sound type u lhs_uint32 rhs_uint32 rhs_constant : unsigned_ok u -> (lhs_uint32 = true -> def_type a = MIRType_Int32) ->
  exists o u', MMod_computeRange type u lhs_uint32 rhs_uint32 rhs_constant a b = mret (o, u') /\
  (forall q, o = Some q -> well_formed q /\ forall x y, value_of a x -> value_of b y -> contains q (remainder type u lhs_uint32 rhs_uint32 rhs_constant x y)) /\
  (u' = true -> forall x y, value_of a x -> value_of b y -> remainder type u lhs_uint32 rhs_uint32 rhs_constant x y = unsigned_rem x y).
Proof.
  intros Hu Hl. assert (Hnone : exists o u', mret (None : option NumberRange, u) = (mret (o, u') : M _) /\
    (forall q, o = Some q -> well_formed q /\ forall x y, value_of a x -> value_of b y -> contains q (remainder type u lhs_uint32 rhs_uint32 rhs_constant x y)) /\
    (u' = true -> forall x y, value_of a x -> value_of b y -> remainder type u lhs_uint32 rhs_uint32 rhs_constant x y = unsigned_rem x y)).
  { exists None, u. split; [done|]. split; [done|]. intros ->. by unfold remainder. }
  unfold MMod_computeRange. destruct (is_Int32_or_Double type); cbn [negb]; [|done]. destruct (Range_of_ok a Ha) as (l & El & Wl & Cl), (Range_of_ok b Hb) as (r & Er & Wr & Cr). rewrite El, Er, !bind_ret.
  destruct (hasInt32Bounds l) eqn:Bl; cbn [negb orb]; [|done]. destruct (hasInt32Bounds r) eqn:Br; cbn [negb]; [|done].
  destruct (bounded_facts l Wl Bl) as (-> & _), (bounded_facts r Wr Br) as (-> & -> & _). rewrite !bind_ret. destruct ((lower_ r <=? 0) && (upper_ r >=? 0)) eqn:Hnz; [done|]. cbv zeta. clear Hnone.
  set (u' := if is_Int32 type && (lower_ r >? 0) then _ else u).
  assert (Hpos : forall y, value_of b y -> (0 <? scaled y) = (lower_ r >? 0)).
  { intros y Hy. destruct (bounded_member r y Wr Br (Cr y Hy)) as (_ & _ & By & _). pose proof unit_pos as Hup. set (v := U) in *. clearbody v. destruct (Z.gtb_spec (lower_ r) 0).
    - assert (0 < lower_ r * v) by (by apply Z.mul_pos_pos). lia.
    - assert (upper_ r * v < 0) by (apply Z.mul_neg_pos; [apply andb_false_iff in Hnz as [?|?]; lia|done]). lia. }
  assert (Hint : def_type a = MIRType_Int32 -> def_type b = MIRType_Int32 -> canHaveFractionalPart_ l = false /\ canHaveFractionalPart_ r = false).
  { intros Ta Tb. pose proof (Range_of_int32 a l Ha Ta El) as I1. pose proof (Range_of_int32 b r Hb Tb Er) as I2. unfold isInt32 in I1, I2. bsplit. by destruct (canHaveFractionalPart_ l), (canHaveFractionalPart_ r). }
  assert (Hcase : u' = (u || unsigned_operands type lhs_uint32 rhs_uint32 rhs_constant && (lower_ r >? 0)) \/
    u' = true /\ u || unsigned_operands type lhs_uint32 rhs_uint32 rhs_constant && (lower_ r >? 0) = false /\ is_Int32 type = true /\ 0 < lower_ r /\ 0 <= lower_ l /\ canHaveFractionalPart_ l = false /\ canHaveFractionalPart_ r = false).
  { unfold u', unsigned_operands. destruct (is_Int32 type); cbn [andb]; [|left; by rewrite orb_false_r]. destruct (Z.gtb_spec (lower_ r) 0); [|left; by rewrite andb_false_r, orb_false_r]. rewrite andb_true_r.
    destruct (lhs_uint32 && is_Int32 (def_type b) && (rhs_uint32 || rhs_constant)) eqn:Eun; [left; by rewrite !orb_true_r|]. rewrite !orb_false_r.
    destruct (negb ((lower_ l <? 0) || canHaveFractionalPart_ l || canHaveFractionalPart_ r)) eqn:Edb; [|by left]. destruct u; [by left|right]. apply negb_true_iff, orb_false_iff in Edb as [[? ?]%orb_false_iff ?]. split_and!; done || lia. }
  assert (Hflag : u' = true -> forall x y, value_of a x -> value_of b y -> remainder type u lhs_uint32 rhs_uint32 rhs_constant x y = unsigned_rem x y).
  { intros Eu x y Hx Hy. unfold remainder. rewrite (Hpos y Hy). destruct Hcase as [E|(_ & -> & Ht & R0 & L0 & Fl & Fr)]; [by rewrite <- E, Eu|]. unfold is_Int32 in Ht. apply bool_decide_eq_true in Ht. rewrite Ht. apply (remainders_agree l r); auto. }
  assert (Hfrac : u' = true -> canHaveFractionalPart_ l = false /\ canHaveFractionalPart_ r = false).
  { destruct Hcase as [E|(_ & _ & _ & _ & _ & Fl & Fr)]; [|by intros _]. intros Eu. rewrite Eu in E. symmetry in E. apply orb_true_iff in E as [E|E]; [by destruct (Hu E); apply Hint|]. unfold unsigned_operands in E. bsplit. apply Hint; [by apply Hl|]. match goal with H : is_Int32 (def_type b) = true |- _ => by apply bool_decide_eq_true in H end. }
  assert (Hcode : u' = false -> u || unsigned_operands type lhs_uint32 rhs_uint32 rhs_constant && (lower_ r >? 0) = false) by (intros Eu; destruct Hcase as [E|[E _]]; congruence).
  clearbody u'. destruct u'.
  - destruct (Hfrac eq_refl) as [Fl Fr]. destruct (unsigned_mod_ok l r Wl Wr Bl Br Hnz Fl Fr) as (q & Hq & Hw & Hc). do 2 eexists. unfold some_range. rewrite Hq, !bind_ret. split; [done|]. split; [|done].
    intros q' E. simplify_eq. split; [done|]. intros x y Hx Hy. rewrite Hflag by done. by apply Hc; auto.
  - destruct (double_mod_ok l r Wl Wr Bl Br Hnz) as (q & Hq & Hw & Hc). do 2 eexists. rewrite Hq, bind_ret. split; [done|]. split; [|done]. intros q' E. simplify_eq. split; [done|]. intros x y Hx Hy. unfold remainder. rewrite (Hpos y Hy), (Hcode eq_refl). apply contains_typed_zero. auto.
Qed.

(** What a division node computes. *)
Definition quotient (u : bool) (x y : Z) : Z := if u then dbl (uint32 (to_int32 x) / uint32 (to_int32 y)) else double_div x y.

Lemma div_node_sound type u : unsigned_ok u ->
  node_sound2 (MDiv_computeRange type u a b) a b (quotient u).
Proof.
  intros Hu. unfold MDiv_computeRange. destruct (is_Int32_or_Double type); cbn [negb]; [|apply node_none2]. destruct (Range_of_ok a Ha) as (l & El & Wl & Cl), (Range_of_ok b Hb) as (r & Er & Wr & Cr). rewrite El, Er, !bind_ret.
  destruct (hasInt32Bounds l) eqn:Bl; cbn [negb orb]; [|apply node_none2]. destruct (hasInt32Bounds r) eqn:Br; cbn [negb]; [|apply node_none2].
  destruct (bounded_facts l Wl Bl) as (-> & -> & -> & _), (bounded_facts r Wr Br) as (-> & _). rewrite !bind_ret. destruct ((lower_ l >=? 0) && (lower_ r >=? 1)) eqn:Hp.
  - apply andb_true_iff in Hp as [H0%Z.geb_le H1%Z.geb_le]. destruct (quotient_range_ok l Wl Bl ltac:(lia)) as (q & Hq & Hw & Hc). apply (node_some2 _ q); [done|done|]. intros x y Hx Hy. apply Hc. unfold quotient. destruct u.
    + apply (unsigned_quotient l r); [done|done|done|done|lia|lia|auto|auto|]. destruct (Hu eq_refl) as [Ta Tb]. pose proof (Range_of_int32 a l Ha Ta El) as I1. unfold isInt32 in I1. bsplit. by destruct (canHaveFractionalPart_ l).
    + apply (double_quotient l r); auto; lia.
  - destruct (u && (lower_ r >=? 1)) eqn:Hu1; [|apply node_none2]. apply andb_true_iff in Hu1 as [-> H1%Z.geb_le]. destruct (Hu eq_refl) as [Ta Tb].
    pose proof (Range_of_int32 a l Ha Ta El) as I1. pose proof (Range_of_int32 b r Hb Tb Er) as I2. unfold isInt32 in I1, I2. apply andb_true_iff in I1 as [[_ F1]%andb_true_iff Z1], I2 as [[_ F2]%andb_true_iff Z2]. rewrite F1, F2, Z1, Z2. cbn [andb].
    change (moz_assert true) with (mret tt : M unit). rewrite !bind_ret. destruct (new_int_range 0 (2 ^ 32 - 1)) as (q & Hq & Hw & Hc); [done..|]. apply (node_some2 _ q); [exact Hq|done|]. intros x y Hx Hy. apply Hc.
    destruct (bounded_int r y Wr Br (Cr y Hy)) as (J1 & J2 & Iy). rewrite (uint32_sign (to_int32 y)) by apply to_int32_range. replace (to_int32 y <? 0) with false by lia.
    assert (Hx32 : 0 <= uint32 (to_int32 x) < 2 ^ 32) by (apply Z.mod_pos_bound; done). split; [apply Z.div_pos; lia|]. pose proof (Z.div_le_upper_bound (uint32 (to_int32 x)) (to_int32 y) (uint32 (to_int32 x)) ltac:(lia) ltac:(nia)). lia.
Qed.
End Nodes.
