(* ===== verification/RangeSources.v ===== *)
(** The nodes whose range does not come from arithmetic: conversions to an
    integer, loads from typed arrays, lengths and the like
    (js/src/jit/RangeAnalysis.cpp). *)
From S2P Require Import Prelude Words CheckedArithmetic FloatingPoint BigIntRep BigIntMul Conversions BigIntDouble DoubleArith DoubleWhole DoubleOrder Dates RangeAnalysis RangeInv RangeArith RangeProduct RangeLattice RangeMath RangeRound RangeBits RangeShifts RangeWrap RangeDouble RangeNodes RangeBranches.

#[local] Abbreviation U := (2 ^ 1074).

(** * Conversions *)

Definition MToIntegerInt32_computeRange (a : MDefinition) : M (option NumberRange) := other ← Range_of a; some_range (toIntegerInt32 other).
Definition MNaNToZero_computeRange (a : MDefinition) : M (option NumberRange) := other ← Range_of a; some_range (NaNToZero other).

(** * Typed arrays *)

Inductive Scalar_Type := Scalar_Int8 | Scalar_Uint8 | Scalar_Int16 | Scalar_Uint16 | Scalar_Int32 | Scalar_Uint32 | Scalar_Float32 | Scalar_Float64
  | Scalar_Uint8Clamped | Scalar_BigInt64 | Scalar_BigUint64 | Scalar_Int64 | Scalar_Simd128.

Definition GetArrayBufferViewRange (type : Scalar_Type) : M (option NumberRange) :=
  match type with
  | Scalar_Uint8Clamped | Scalar_Uint8 => some_range (NewUInt32Range 0 (2 ^ 8 - 1))
  | Scalar_Uint16 => some_range (NewUInt32Range 0 (2 ^ 16 - 1))
  | Scalar_Uint32 => some_range (NewUInt32Range 0 UINT32_MAX)
  | Scalar_Int8 => some_range (NewInt32Range (- 2 ^ 7) (2 ^ 7 - 1))
  | Scalar_Int16 => some_range (NewInt32Range (- 2 ^ 15) (2 ^ 15 - 1))
  | Scalar_Int32 => some_range (NewInt32Range JSVAL_INT_MIN JSVAL_INT_MAX)
  | _ => mret None
  end.

(** The integers that an element of an integer type can be. *)
Definition scalar_element (type : Scalar_Type) (n : Z) : Prop :=
  match type with
  | Scalar_Uint8Clamped | Scalar_Uint8 => 0 <= n < 2 ^ 8
  | Scalar_Uint16 => 0 <= n < 2 ^ 16
  | Scalar_Uint32 => 0 <= n < 2 ^ 32
  | Scalar_Int8 => - 2 ^ 7 <= n < 2 ^ 7
  | Scalar_Int16 => - 2 ^ 15 <= n < 2 ^ 15
  | Scalar_Int32 => in_int32 n
  | _ => False
  end.

(** * Doubles of the library *)

Definition NewDoubleRange (l h : Z) : M (option NumberRange) := if IsNaN l && IsNaN h then mret None else some_range (setDouble l h).

(** [MRandom]; the range is not null. *)
Definition MRandom_computeRange : M (option NumberRange) :=
  r ← NewDoubleRange (dbl 0) (dbl 1);
  match r with Some r => some_range (refineToExcludeNegativeZero r) | None => throw AssertionFailed end.

(** [MMathFunction] for the sine and the cosine; other functions have no range. *)
Definition MMathFunction_computeRange (sin_or_cos : bool) (a : MDefinition) : M (option NumberRange) :=
  opRange ← Range_of a;
  if sin_or_cos : bool then if negb (canBeInfiniteOrNaN opRange) then NewDoubleRange (dbl (-1)) (dbl 1) else mret None else mret None.

(** * Soundness *)

Lemma ceil_range_truncated op a : well_formed op -> contains op a -> IsNaN a = false -> in_int32 (Z.quot (scaled a) U) -> contains (ceil_range op) (dbl (Z.quot (scaled a) U)).
Proof.
  intros Ho Ha Na Hi. destruct (contains_elim _ _ Ha Na) as [[Fl Fu Fe _] _]. pose proof unit_pos as Hu. set (n := Z.quot (scaled a) U) in *. assert (Hn : Z.abs n * U <= Z.abs (scaled a)).
  { unfold n. rewrite <- Z.quot_abs, (Z.abs_eq U) by lia. rewrite Z.mul_comm. apply Z.mul_quot_le; lia. }
  assert (Hle : forall k, 0 < 2 ^ k -> Z.abs (scaled a) < 2 ^ k * U -> Z.abs n < 2 ^ k) by (intros k _ Hk; apply (Z.mul_lt_mono_pos_r U); lia).
  pose proof (exponent_nonneg _ (wf_exponent _ (proj1 Ho))) as He. unfold ceil_range. apply (rounded_range_contains _ _ _ _ _ _ _ n).
  - apply dbl_double.
  - apply dbl_not_nan. by apply in_int32_small.
  - done.
  - apply dbl_scaled. by apply in_int32_small.
  - intros Hb. specialize (Fl Hb). unfold n. rewrite <- (Z.quot_mul (lower_ op) U) by lia. by apply Z.quot_le_mono.
  - intros Hb. specialize (Fu Hb). unfold n. rewrite <- (Z.quot_mul (upper_ op) U) by lia. by apply Z.quot_le_mono.
  - by apply unbounded_exponent.
  - intros _ Hlt. specialize (Fe ltac:(lia)). apply Z.lt_le_incl, Hle; [apply pow_pos; lia|done].
  - intros _ E. change MaxFiniteExponent with 1023 in *. unfold in_int32 in Hi. pose proof (pow_le 31 1024 ltac:(lia)). lia.
  - intros _. by apply dbl_not_negative_zero.
Qed.

(** [Range::toIntegerInt32] is the range of ECMAScript's integer conversion,
    when that is 32 bits: it truncates, and makes 0 of NaN. *)
Lemma toIntegerInt32_ok op : well_formed op -> exists r, toIntegerInt32 op = mret r /\ well_formed r /\
  forall a, contains op a -> if IsNaN a then contains r (dbl 0) else in_int32 (Z.quot (scaled a) U) -> contains r (dbl (Z.quot (scaled a) U)).
Proof.
  intros Ho. unfold toIntegerInt32. rewrite range_ceil_eq, bind_ret by done. destruct (NaNToZero_sound (ceil_range op) (ceil_range_ok op Ho)) as (r & Hr & Hw & Hc). exists r. split; [done|]. split; [done|]. intros a Ha. destruct (IsNaN a) eqn:Na.
  - pose proof (Hc _ (ceil_range_contains op Ho a Ha)) as H. unfold double_ceil, nan_to_zero in H. rewrite Na, Na in H. exact H.
  - intros Hi. pose proof (Hc _ (ceil_range_truncated op a Ho Ha Na Hi)) as H. unfold nan_to_zero in H. rewrite dbl_not_nan in H by (by apply in_int32_small). cbn [orb] in H.
    destruct (double_is_zero (dbl (Z.quot (scaled a) U))) eqn:Hz; [|done]. apply double_is_zero_iff in Hz. rewrite dbl_scaled in Hz by (by apply in_int32_small). pose proof unit_pos. apply Z.mul_eq_0 in Hz as [->|?]; [done|lia].
Qed.

Lemma array_element_ok type : exists o, GetArrayBufferViewRange type = mret o /\ forall q, o = Some q -> well_formed q /\ forall n, scalar_element type n -> contains q (dbl n).
Proof.
  assert (H : forall l h, - 2 ^ 31 <= l -> l <= h -> h <= 2 ^ 32 - 1 -> exists o, some_range (new_Range l h false false 31) = mret o /\ forall q, o = Some q -> well_formed q /\ forall n, l <= n <= h -> contains q (dbl n)).
  { intros l h H1 H2 H3. destruct (new_int_range l h H1 H2 H3) as (r & -> & Hw & Hc). exists (Some r). split; [done|]. intros q E. by simplify_eq. }
  unfold GetArrayBufferViewRange, NewUInt32Range, NewInt32Range, MaxInt32Exponent. destruct type; cbn [scalar_element]; try (by exists None).
  all: match goal with |- exists o, some_range (new_Range ?l ?h _ _ _) = _ /\ _ => destruct (H l h) as (o & Ho & Hq); [done..|]; exists o; split; [exact Ho|]; intros q E; destruct (Hq q E) as [Hw Hc]; split; [exact Hw|]; intros n Hn; apply Hc end.
  all: change UINT32_MAX with (2 ^ 32 - 1); change JSVAL_INT_MIN with (- 2 ^ 31); change JSVAL_INT_MAX with (2 ^ 31 - 1); unfold in_int32 in *; lia.
Qed.

Lemma double_interval l h : IsNaN (dbl l) = false -> IsNaN (dbl h) = false -> scaled (dbl l) = l * U -> scaled (dbl h) = h * U -> l <= h ->
  exists r, NewDoubleRange (dbl l) (dbl h) = mret (Some r) /\ well_formed r /\ forall d, is_double d -> IsNaN d = false -> l * U <= scaled d <= h * U -> contains r d.
Proof.
  intros Nl Nh Sl Sh Hlh. unfold NewDoubleRange. rewrite Nl, Nh. cbn [andb]. pose proof unit_pos as Hu. destruct (setDouble_ok (dbl l) (dbl h)) as (r & Hr & Hw & Hc); [apply dbl_double|apply dbl_double|done|done| |].
  - rewrite Sl, Sh. apply Z.mul_le_mono_nonneg_r; lia.
  - exists r. unfold some_range. rewrite Hr. split; [done|]. split; [done|]. intros d Hd Hn Hb. apply Hc; [done|done|]. by rewrite Sl, Sh.
Qed.

Lemma random_ok : exists r, MRandom_computeRange = mret (Some r) /\ well_formed r /\ forall d, is_double d -> IsNaN d = false -> 0 <= scaled d <= U -> d <> kSignBit -> contains r d.
Proof.
  unfold MRandom_computeRange. destruct (double_interval 0 1) as (r & -> & Hw & Hc); [done..|]. rewrite bind_ret. destruct (exclude_ok (dbl 0) r Hw) as (q & Hq & Wq & Cq). change (exclude_zero (dbl 0) r) with (refineToExcludeNegativeZero r) in Hq.
  exists q. unfold some_range. rewrite Hq. split; [done|]. split; [done|]. intros d Hd Hn Hb Hz. apply Cq; [|done]. apply Hc; [done|done|]. by rewrite Z.mul_1_l.
Qed.
