(* ===== verification/RangeTheorems.v ===== *)
(** The theorems on the range analysis of the optimising JIT: whatever doubles
    the operands of a node are, the result of the operation is in the range
    that the node computes, and no assertion of the analysis fails. *)
From S2P Require Import Prelude Words CheckedArithmetic FloatingPoint BigIntRep BigIntMul Conversions BigIntDouble DoubleArith DoubleWhole DoubleOrder Dates RangeAnalysis RangeInv RangeArith RangeProduct RangeLattice RangeMath RangeRound RangeBits RangeShifts RangeWrap RangeDouble RangeNodes RangeBranches RangeDivision RangeSources.

#[local] Abbreviation U := (2 ^ 1074).

(** * Arithmetic *)

(** C5: the ranges of arithmetic are sound. For any two operands, the range
    computed for their sum, difference, product, quotient or remainder, for a
    minimum or maximum, an absolute value, a floor, a ceiling or a sign,
    contains the correctly rounded result of the operation on every two values
    that the operands can have, infinities, NaN and negative zero included, and
    brought to 32 bits where the node is truncated; a multiplication whose flag
    says so never gives negative zero.  A remainder is JavaScript's, or that of
    the operands read as unsigned where the node was unsigned before the
    analysis or its operands are of the form [x >>> 0]; the flag that the
    analysis leaves on the node is set only where the unsigned remainder is the
    node's result.  Assumed, as the graph gives it: the ranges set on the
    operands are well formed and their constants int32s ([definition_ok]); when
    a division or remainder is marked unsigned before the analysis, both
    operands are of type Int32 ([unsigned_ok]), and a left operand [x >>> 0] of
    a remainder is of type Int32. *)
Theorem arithmetic_nodes_sound a b type t z u lhs_uint32 rhs_uint32 rhs_constant :
  definition_ok a -> definition_ok b -> unsigned_ok a b u -> (lhs_uint32 = true -> def_type a = MIRType_Int32) ->
  node_sound2 (MAdd_computeRange type t a b) a b (fun x y => truncated t (double_add x y)) /\
  node_sound2 (MSub_computeRange type t a b) a b (fun x y => truncated t (double_sub x y)) /\
  (exists o z', MMul_computeRange type t z a b = mret (o, z') /\
     (forall q, o = Some q -> well_formed q /\ forall x y, value_of a x -> value_of b y -> contains q (truncated t (double_mul x y))) /\
     (z = true -> z' = false -> forall x y, value_of a x -> value_of b y -> double_mul x y <> kSignBit)) /\
  node_sound2 (MDiv_computeRange type u a b) a b (quotient u) /\
  (exists o u', MMod_computeRange type u lhs_uint32 rhs_uint32 rhs_constant a b = mret (o, u') /\
     (forall q, o = Some q -> well_formed q /\ forall x y, value_of a x -> value_of b y -> contains q (remainder b type u lhs_uint32 rhs_uint32 rhs_constant x y)) /\
     (u' = true -> forall x y, value_of a x -> value_of b y -> remainder b type u lhs_uint32 rhs_uint32 rhs_constant x y = unsigned_rem x y)) /\
  (forall isMax : bool, exists o, MMinMax_computeRange type isMax a b = mret o /\
     forall q, o = Some q -> well_formed q /\ forall x y, value_of a x -> value_of b y ->
       exists d, (if isMax then math_max_impl x y else mret (math_min_impl x y)) = mret d /\ contains q d) /\
  node_sound1 (MAbs_computeRange type t a) a (fun x => truncated t (double_abs x)) /\
  node_sound1 (MFloor_computeRange a) a math_floor_impl /\ node_sound1 (MCeil_computeRange a) a math_ceil_impl /\
  node_sound1 (MSign_computeRange a) a math_sign_impl.
Proof.
  intros Ha Hb Hu Hlu. split_and!.
  - apply arith_node_sound; [done|done|apply range_add_sound].
  - apply arith_node_sound; [done|done|apply range_sub_sound].
  - by apply mul_node_sound.
  - by apply div_node_sound.
  - by apply mod_node_sound.
  - intros isMax. by apply min_max_node_sound.
  - by apply abs_node_sound.
  - apply plain_node_sound; [done|apply range_floor_sound].
  - apply plain_node_sound; [done|apply range_ceil_sound].
  - by apply sign_node_sound.
Qed.

(** A sample: an operand whose range is computed, and one that can be any
    double. *)
Definition sample_range : NumberRange := MkNumberRange (-3) 5 true true true true 2.
Definition sample_int : MDefinition := MkMDefinition MIRType_Int32 None false false false None.
Definition sample_double : MDefinition := MkMDefinition MIRType_Double (Some sample_range) false false false None.

Lemma sample_int_ok : definition_ok sample_int.
Proof. by split. Qed.

Lemma sample_range_ok : well_formed sample_range.
Proof.
  split; [split|split; [done|done]]; try done; [left; done| |]; right; left; done.
Qed.

Lemma sample_double_ok : definition_ok sample_double.
Proof. split; [|done|done]. intros r [= <-]. apply sample_range_ok. Qed.

Lemma arithmetic_nodes_sound_witness :
  node_sound2 (MAdd_computeRange MIRType_Double false sample_double sample_double) sample_double sample_double (fun x y => truncated false (double_add x y)) /\
  MAdd_computeRange MIRType_Double false sample_double sample_double = mret (Some (MkNumberRange (-6) 10 true true true true 3)).
Proof.
  split; [|reflexivity]. apply (arithmetic_nodes_sound sample_double sample_double MIRType_Double false true false false false false); [apply sample_double_ok|apply sample_double_ok|discriminate|discriminate].
Defined.

(** * Sets of doubles *)

(** C10: union, intersection and normalisation of ranges.  The fields of a
    range are [consistent] when the bounds are int32s in order, a missing bound
    is the extreme int32, the exponent is one the analysis uses and reaches the
    bounds, a bound that a fraction only comes near included, and what a
    missing bound leaves open.  [optimize] on a
    consistent range only sharpens the description: the result is well formed
    and stands for the same doubles.  The one exception is a range with the
    fractional flag whose two bounds are a single integer that the exponent
    does not reach ([point_ok] fails): there [optimize] drops the flag and its
    own assertion fails.  On well-formed ranges [unionWith] contains what is in
    either range.  [intersect] contains what is in both, and when it reports
    that nothing is, nothing is. *)
Theorem range_sets_sound lhs rhs :
  well_formed lhs -> well_formed rhs ->
  (forall r, consistent r -> point_ok r -> exists r', optimize r = mret r' /\ well_formed r' /\ forall d, contains r' d <-> contains r d) /\
  (forall r, consistent r -> ~ point_ok r -> optimize r = throw AssertionFailed) /\
  (exists q, unionWith lhs rhs = mret q /\ well_formed q /\ forall d, contains lhs d \/ contains rhs d -> contains q d) /\
  (exists o emptyRange, intersect (Some lhs) (Some rhs) = mret (o, emptyRange) /\
     (forall q, o = Some q -> well_formed q /\ forall d, contains lhs d -> contains rhs d -> contains q d) /\
     (emptyRange = true -> forall d, contains lhs d -> contains rhs d -> False)).
Proof.
  intros Hl Hr. split_and!.
  - exact optimize_ok.
  - exact optimize_rejects.
  - by apply unionWith_ok.
  - by apply intersect_ok.
Qed.

Lemma range_sets_sound_witness :
  (exists q, unionWith sample_range nan_range = mret q /\ well_formed q /\ forall d, contains sample_range d \/ contains nan_range d -> contains q d) /\
  unionWith sample_range (MkNumberRange 7 7 true true false false 2) = mret (MkNumberRange (-3) 7 true true true true 2) /\
  (let point := MkNumberRange 3 3 true true true false 0 in assertInvariants point = mret tt /\ optimize point = throw AssertionFailed).
Proof.
  split; [|split; [reflexivity|split; reflexivity]]. apply (range_sets_sound sample_range nan_range); [apply sample_range_ok|apply nan_range_ok].
Defined.

(** * Integers *)

(** C23: the ranges of integer operations are sound. The bitwise operations and
    the shifts bring their operands to 32 bits as ECMAScript does, and the range
    of the result contains the integer they yield, for a constant shift count
    and a varying one, and unsigned where the right shift is; truncation to 32
    bits, conversion to an integer, and the elements of a typed array are in
    their ranges as well. *)
Theorem integer_nodes_sound a b type :
  definition_ok a -> definition_ok b ->
  node_sound2 (MBitAnd_computeRange type a b) a b (fun x y => dbl (Z.land (to_int32 x) (to_int32 y))) /\
  node_sound2 (MBitOr_computeRange type a b) a b (fun x y => dbl (Z.lor (to_int32 x) (to_int32 y))) /\
  node_sound2 (MBitXor_computeRange type a b) a b (fun x y => dbl (Z.lxor (to_int32 x) (to_int32 y))) /\
  node_sound1 (MBitNot_computeRange MIRType_Int32 a) a (fun x => dbl (Z.lnot (to_int32 x))) /\
  node_sound2 (MLsh_computeRange type a b) a b (fun x y => dbl (shift_left (to_int32 x) (to_int32 y))) /\
  node_sound2 (MRsh_computeRange type a b) a b (fun x y => dbl (shift_right (to_int32 x) (to_int32 y))) /\
  node_sound2 (MUrsh_computeRange type a b) a b (fun x y => dbl (shift_right_unsigned (to_int32 x) (to_int32 y))) /\
  node_sound1 (MTruncateToInt32_computeRange a) a (fun x => dbl (to_int32 x)) /\
  (exists o, MToIntegerInt32_computeRange a = mret o /\ forall q, o = Some q -> well_formed q /\
     forall x, value_of a x -> if IsNaN x then contains q (dbl 0) else in_int32 (Z.quot (scaled x) U) -> contains q (dbl (Z.quot (scaled x) U))) /\
  (forall scalar, exists o, GetArrayBufferViewRange scalar = mret o /\ forall q, o = Some q -> well_formed q /\ forall n, scalar_element scalar n -> contains q (dbl n)).
Proof.
  intros Ha Hb. split_and!.
  - apply bit_node_sound; [done|done|apply range_and_sound].
  - apply bit_node_sound; [done|done|apply range_or_sound].
  - apply bit_node_sound; [done|done|apply range_xor_sound].
  - by apply not_node_sound.
  - by apply lsh_node_sound.
  - by apply rsh_node_sound.
  - by apply ursh_node_sound.
  - by apply truncate_node_sound.
  - destruct (Range_of_ok a Ha) as (r & Hr & Wr & Cr). destruct (toIntegerInt32_ok r Wr) as (q & Hq & Wq & Cq). exists (Some q). unfold MToIntegerInt32_computeRange, some_range. rewrite Hr, bind_ret, Hq, bind_ret. split; [done|].
    intros q' E. simplify_eq. split; [done|]. intros x Hx. by apply Cq, Cr.
  - apply array_element_ok.
Qed.

Lemma integer_nodes_sound_witness :
  node_sound2 (MUrsh_computeRange MIRType_Int32 sample_int sample_double) sample_int sample_double (fun x y => dbl (shift_right_unsigned (to_int32 x) (to_int32 y))) /\
  MBitAnd_computeRange MIRType_Int32 sample_int sample_double = mret (Some (MkNumberRange (- 2 ^ 31) (2 ^ 31 - 1) true true false false 31)).
Proof.
  split; [|reflexivity]. apply (integer_nodes_sound sample_int sample_double MIRType_Int32); [apply sample_int_ok|apply sample_double_ok].
Defined.

(** * Control flow *)

(** C31: control flow. Where a block is reached by one outcome of a numeric
    comparison, the ranges that [addBetaNodes] gives to the operands contain
    their values, for every comparison, either branch, constants on either side,
    NaN and negative zero; the beta node of an operand, which intersects that
    range with the one of the operand, does not mark the block unreachable and
    keeps the value; and a phi contains the values of the operands whose blocks
    are reachable. *)
Theorem control_flow_sound jsop (branch : bool) x y leftConst rightConst left_int32 right_int32 :
  is_double x -> is_double y -> (forall c, leftConst = Some c -> x = c) -> (forall c, rightConst = Some c -> y = c) ->
  int_typed left_int32 x -> int_typed right_int32 y -> FoldComparison jsop x y = branch ->
  (exists n, addBetaNodes_block jsop branch leftConst rightConst left_int32 right_int32 = mret n /\ range_admits (beta_left n) x /\ range_admits (beta_right n) y /\
     forall op comparison d, definition_ok op -> value_of op d -> beta_left n = Some comparison /\ d = x \/ beta_right n = Some comparison /\ d = y ->
       exists o, MBeta_computeRange op comparison = mret (o, false) /\ range_admits o d) /\
  (forall type operands, (forall u op, (u, op) ∈ operands -> definition_ok op) ->
     exists o, MPhi_computeRange type operands = mret o /\ forall q, o = Some q -> well_formed q /\ forall d, phi_value operands d -> contains q d).
Proof.
  intros Dx Dy Hlc Hrc Ix Iy Ht. split; [|by apply phi_node_sound].
  destruct (block_ok x y Dx Dy leftConst rightConst left_int32 right_int32 Hlc Hrc Ix Iy jsop branch Ht) as (n & Hn & Hl & Hr). exists n. split; [done|]. split; [done|]. split; [done|].
  intros op comparison d Hop Hd Hc. assert (Hx : well_formed comparison /\ contains comparison d) by (destruct Hc as [[Hc ->]|[Hc ->]]; auto).
  destruct (beta_node_ok op comparison Hop (proj1 Hx)) as (o & e & Ho & Hb). destruct (Hb d Hd (proj2 Hx)) as [-> Hq]. by exists o.
Qed.

(** [x < 10] holds for the integer 3: the beta node says at most 9. *)
Lemma control_flow_sound_witness :
  (exists n, addBetaNodes_block JSOp_Lt true None (Some (dbl 10)) true true = mret n /\ range_admits (beta_left n) (dbl 3) /\ range_admits (beta_right n) (dbl 10) /\
     forall op comparison d, definition_ok op -> value_of op d -> beta_left n = Some comparison /\ d = dbl 3 \/ beta_right n = Some comparison /\ d = dbl 10 ->
       exists o, MBeta_computeRange op comparison = mret (o, false) /\ range_admits o d) /\
  addBetaNodes_block JSOp_Lt true None (Some (dbl 10)) true true = mret (BetaLeft (MkNumberRange (- 2 ^ 31) 9 false true true true 1024)).
Proof.
  split; [|vm_compute; reflexivity]. apply (control_flow_sound JSOp_Lt true (dbl 3) (dbl 10) None (Some (dbl 10)) true true).
  - apply dbl_double.
  - apply dbl_double.
  - discriminate.
  - intros c [= <-]. reflexivity.
  - intros _. exists 3. split; [unfold in_int32; lia|reflexivity].
  - intros _. exists 10. split; [unfold in_int32; lia|reflexivity].
  - reflexivity.
Defined.
