(* ===== verification/JitCode.v ===== *)
(** The machine code of the 32-bit integer instructions that the JIT emits for
    divisions (js/src/jit/x86-shared), as the names of the macro assembler, and
    what the instructions do.  A register holds an unsigned 32-bit [Z]; flags
    that an instruction leaves undefined are [None], and a jump on them is an
    outcome of its own, as is the fault of a division instruction. *)
From S2P Require Import Prelude Words CheckedArithmetic.

(** * Instructions *)

(** A register is its code in the encoding of the processor. *)
Definition eax : Z := 0.
Definition edx : Z := 2.

Inductive Condition := Zero | NonZero | Equal | NotEqual | Signed | Overflow | NoOverflow | LessThan | GreaterThanOrEqual.

Inductive Trap := IntegerDivideByZero | IntegerOverflow.

(** The labels of one node, those of out-of-line code included. *)
Inductive label := l_ok | l_nonZero | l_negative | l_done | l_notPowerOfTwo | l_notOverflow | l_rejoin | l_entry | l_overflow_entry | l_overflow_rejoin | l_overflow_done | l_nonzero.

#[global] Instance label_eq_dec : EqDecision label.
Proof. solve_decision. Defined.

(** An operation with a source has it first, like the macro assembler. *)
Inductive instr :=
  | I_mov_i (imm dst : Z) | I_mov (src dst : Z)
  | I_xor (src dst : Z) | I_and_i (imm dst : Z) | I_and (src dst : Z)
  | I_add (src dst : Z) | I_sub_i (imm dst : Z) | I_sub (src dst : Z) | I_neg (dst : Z)
  | I_shr (imm dst : Z) | I_sar (imm dst : Z)
  | I_imul_i (imm src dst : Z) | I_mull (r : Z) | I_imull (r : Z)
  | I_cdq | I_idiv (r : Z) | I_div (r : Z)
  | I_test (lhs rhs : Z) | I_test_i (lhs imm : Z) | I_cmp (lhs rhs : Z) | I_cmp_i (lhs imm : Z)
  | I_j (c : Condition) (l : label) | I_jmp (l : label) | I_bind (l : label)
  | I_bailout (c : option Condition) | I_trap (t : Trap)
  | I_end.

(** * Execution *)

Record flags := MkFlags { fl_zero : bool; fl_sign : bool; fl_overflow : bool }.

Record state := MkState { regs : Z -> Z; status : option flags }.

Definition get (st : state) (r : Z) : Z := regs st r.
Definition put (st : state) (r v : Z) (f : option flags) : state := MkState (fun r' => if r' =? r then v else regs st r') f.
Definition set_flags (st : state) (f : option flags) : state := MkState (regs st) f.

Definition result_flags (v : Z) (o : bool) : option flags := Some (MkFlags (v =? 0) (int32 v <? 0) o).

(** Sum and difference, with the overflow of the signed operation. *)
Definition add_result (a b : Z) : Z := uint32 (a + b).
Definition sub_result (a b : Z) : Z := uint32 (a - b).
Definition add_flags (a b : Z) : option flags := result_flags (add_result a b) (negb (is_int32 (int32 a + int32 b))).
Definition sub_flags (a b : Z) : option flags := result_flags (sub_result a b) (negb (is_int32 (int32 a - int32 b))).

Definition holds (c : Condition) (f : flags) : bool :=
  match c with
  | Zero | Equal => fl_zero f
  | NonZero | NotEqual => negb (fl_zero f)
  | Signed => fl_sign f
  | Overflow => fl_overflow f
  | NoOverflow => negb (fl_overflow f)
  | LessThan => xorb (fl_sign f) (fl_overflow f)
  | GreaterThanOrEqual => negb (xorb (fl_sign f) (fl_overflow f))
  end.

Inductive outcome :=
  | Finished (st : state)
  | BailedOut
  | Trapped (t : Trap)
  | Fault
  | UndefinedFlags
  | NoSuchLabel
  | OutOfSteps.

Definition code := list instr.

(** The code behind a label. *)
Fixpoint after (l : label) (c : code) : option code :=
  match c with
  | [] => None
  | I_bind l' :: c => if decide (l = l') then Some c else after l c
  | _ :: c => after l c
  end.

(** The double register [edx:eax], signed. *)
Definition dividend (st : state) : Z := int32 (get st edx) * 2 ^ 32 + get st eax.
Definition unsigned_dividend (st : state) : Z := get st edx * 2 ^ 32 + get st eax.

(** An instruction that falls through. *)
Definition execute (i : instr) (st : state) : option state :=
  let product p := put (put st eax (uint32 p) None) edx (uint32 (Z.shiftr p 32)) None in
  match i with
  | I_mov_i imm dst => Some (put st dst (uint32 imm) (status st))
  | I_mov src dst => Some (put st dst (get st src) (status st))
  | I_xor src dst => let v := Z.lxor (get st dst) (get st src) in Some (put st dst v (result_flags v false))
  | I_and_i imm dst => let v := Z.land (get st dst) (uint32 imm) in Some (put st dst v (result_flags v false))
  | I_and src dst => let v := Z.land (get st dst) (get st src) in Some (put st dst v (result_flags v false))
  | I_add src dst => Some (put st dst (add_result (get st dst) (get st src)) (add_flags (get st dst) (get st src)))
  | I_sub_i imm dst => Some (put st dst (sub_result (get st dst) (uint32 imm)) (sub_flags (get st dst) (uint32 imm)))
  | I_sub src dst => Some (put st dst (sub_result (get st dst) (get st src)) (sub_flags (get st dst) (get st src)))
  | I_neg dst => Some (put st dst (sub_result 0 (get st dst)) (sub_flags 0 (get st dst)))
  | I_shr imm dst => Some (put st dst (Z.shiftr (get st dst) imm) None)
  | I_sar imm dst => Some (put st dst (uint32 (Z.shiftr (int32 (get st dst)) imm)) None)
  | I_imul_i imm src dst => Some (put st dst (uint32 (get st src * imm)) None)
  | I_mull r => Some (product (get st eax * get st r))
  | I_imull r => Some (product (int32 (get st eax) * int32 (get st r)))
  | I_cdq => Some (put st edx (if int32 (get st eax) <? 0 then 2 ^ 32 - 1 else 0) (status st))
  | I_idiv r =>
      let d := int32 (get st r) in
      if negb (d =? 0) && is_int32 (Z.quot (dividend st) d)
      then Some (put (put st eax (uint32 (Z.quot (dividend st) d)) None) edx (uint32 (Z.rem (dividend st) d)) None) else None
  | I_div r =>
      let d := get st r in
      if negb (d =? 0) && (unsigned_dividend st / d <? 2 ^ 32)
      then Some (put (put st eax (unsigned_dividend st / d) None) edx (unsigned_dividend st mod d) None) else None
  | I_test lhs rhs => Some (set_flags st (result_flags (Z.land (get st lhs) (get st rhs)) false))
  | I_test_i lhs imm => Some (set_flags st (result_flags (Z.land (get st lhs) (uint32 imm)) false))
  | I_cmp lhs rhs => Some (set_flags st (sub_flags (get st lhs) (get st rhs)))
  | I_cmp_i lhs imm => Some (set_flags st (sub_flags (get st lhs) (uint32 imm)))
  | _ => Some st
  end.

(** The rest [c] of the code [whole], in [fuel] steps. *)
Fixpoint exec (fuel : nat) (whole c : code) (st : state) : outcome :=
  match fuel with
  | O => OutOfSteps
  | S fuel =>
      let goto l := match after l whole with Some c => exec fuel whole c st | None => NoSuchLabel end in
      match c with
      | [] | I_end :: _ => Finished st
      | I_bind _ :: c => exec fuel whole c st
      | I_jmp l :: _ => goto l
      | I_j cond l :: c => match status st with Some f => if holds cond f then goto l else exec fuel whole c st | None => UndefinedFlags end
      | I_bailout None :: _ => BailedOut
      | I_bailout (Some cond) :: c => match status st with Some f => if holds cond f then BailedOut else exec fuel whole c st | None => UndefinedFlags end
      | I_trap t :: _ => Trapped t
      | i :: c => match execute i st with Some st => exec fuel whole c st | None => Fault end
      end
  end.

(** The code of a node, its out-of-line code last; at most sixty steps. *)
Definition assemble_code (main ool : code) : code := main ++ I_end :: ool.
Definition run_code (c : code) (st : state) : outcome := exec 60 c c st.
