(* ===== verification/JitDivision.v ===== *)
(** The code of integer divisions and remainders on x86 and x64: the constants
    of the division by multiplication (js/src/jit/shared/CodeGenerator-shared.cpp),
    the code of each LIR instruction (x86-shared/CodeGenerator-x86-shared.cpp)
    and the choice between them (x86-shared/Lowering-x86-shared.cpp). *)
From S2P Require Import Prelude Words CheckedArithmetic BigIntRep BigIntMul JitCode.

(** * Magic constants *)

Definition UINT64_MAX : Z := 2 ^ 64 - 1.

(** [UINT64_MAX >> (64 - p)] *)
Definition ones_of (p : Z) : M Z := shr_w 64 UINT64_MAX (64 - p).

(** The body of the loop on [p]. *)
Definition power_step (d maxLog p : Z) : M (Z + Z) :=
  limit ← shl_w 64 1 (p - maxLog);
  ones ← ones_of p;
  mret (if uint64 (uint64 (limit + ones mod d) + 1) <? d then inl (p + 1) else inr p).

Record ReciprocalMulConstants := MkReciprocal { multiplier : Z; shiftAmount : Z }.

Definition computeDivisionConstants (d maxLog : Z) : M ReciprocalMulConstants :=
  moz_assert ((maxLog >=? 2) && (maxLog <=? 32));;
  moz_assert ((d <? Z.shiftl 1 maxLog) && negb (Z.land d (uint32 (d - 1)) =? 0));;
  p ← loop 34 (power_step d maxLog) 32;
  ones ← ones_of p;
  mret (MkReciprocal (ones / d + 1) (p - 32)).

(** * Nodes *)

(** What the code generator asks of an [MDiv] or an [MMod]. *)
Record MDivMod := MkDivMod {
  isDiv : bool;
  isUnsigned : bool;
  isTruncated : bool;
  isTruncatedIndirectly : bool;
  trapOnError : bool;
  mir_canBeNegativeZero : bool;
  mir_canBeNegativeOverflow : bool;
  mir_canBeDivideByZero : bool;
  mir_canBeNegativeDividend : bool;
  mir_canBePowerOfTwoDivisor : bool;
}.

Definition canBeNegativeDividend (mir : MDivMod) : M bool := moz_assert (negb (isUnsigned mir));; mret (mir_canBeNegativeDividend mir).
Definition canTruncateOverflow (mir : MDivMod) : bool := isTruncated mir || isTruncatedIndirectly mir.

Definition canTruncateNegativeZero (mir : MDivMod) : bool := isTruncated mir || isTruncatedIndirectly mir.

Definition fallible (mir : MDivMod) : bool :=
  if isDiv mir then negb (isTruncated mir)
  else negb (isTruncated mir) && (isUnsigned mir || mir_canBeDivideByZero mir || mir_canBeNegativeDividend mir).

(** * The macro assembler *)

(** A snapshot is there when lowering has assigned one. *)
Definition bailout (mir : MDivMod) : M code := moz_assert (fallible mir);; mret [I_bailout None].
Definition bailoutIf (cond : Condition) (mir : MDivMod) : M code := moz_assert (fallible mir);; mret [I_bailout (Some cond)].

Definition shrl (imm dst : Z) : M code := moz_assert (imm <? 32);; mret [I_shr imm dst].
Definition sarl (imm dst : Z) : M code := moz_assert (imm <? 32);; mret [I_sar imm dst].
Definition mov_zero (dst : Z) : code := [I_xor dst dst].
Definition branchTest32 (cond : Condition) (lhs rhs : Z) (l : label) : code := [I_test lhs rhs; I_j cond l].

Definition when (b : bool) (c : M code) : M code := if b then c else mret [].
Definition code_app (a b : M code) : M code := a ← a; b ← b; mret (a ++ b).
#[local] Infix "+++" := code_app (at level 60, right associativity).
#[local] Coercion plain (c : code) : M code := mret c.

(** * Constant divisors *)

Definition visitUDivOrModConstant (mir : MDivMod) (lhs output d : Z) : M code :=
  moz_assert ((output =? eax) || (output =? edx));;
  moz_assert (negb (lhs =? eax) && negb (lhs =? edx));;
  let isDiv := output =? edx in
  if d =? 0 then
    if isTruncated mir then
      if trapOnError mir then mret [I_trap IntegerDivideByZero] else mret [I_xor output output]
    else bailout mir
  else
    moz_assert (negb (Z.land d (uint32 (d - 1)) =? 0));;
    rmc ← computeDivisionConstants d 32;
    plain [I_mov_i (multiplier rmc) eax; I_mull lhs] +++
    (if multiplier rmc >? 2 ^ 32 - 1 then
       moz_assert (shiftAmount rmc >? 0);;
       moz_assert (multiplier rmc <? 2 ^ 33);;
       plain [I_mov lhs eax; I_sub edx eax] +++ shrl 1 eax +++ plain [I_add eax edx] +++ shrl (shiftAmount rmc - 1) edx
     else shrl (shiftAmount rmc) edx) +++
    (if negb isDiv then
       plain [I_imul_i d edx edx; I_mov lhs eax; I_sub edx eax] +++ when (negb (isTruncated mir)) (bailoutIf Signed mir)
     else when (negb (isTruncated mir)) (plain [I_imul_i d edx eax; I_cmp lhs eax] +++ bailoutIf NotEqual mir)).

Definition visitDivOrModConstantI (mir : MDivMod) (lhs output d : Z) : M code :=
  moz_assert ((output =? eax) || (output =? edx));;
  moz_assert (negb (lhs =? eax) && negb (lhs =? edx));;
  let isDiv := output =? edx in
  moz_assert (negb (Z.land (Z.abs d) (uint32 (Z.abs d - 1)) =? 0));;
  rmc ← computeDivisionConstants (Z.abs d) 31;
  plain [I_mov_i (multiplier rmc) eax; I_imull lhs] +++
  when (multiplier rmc >? 2 ^ 31 - 1) (moz_assert (multiplier rmc <? 2 ^ 32);; mret [I_add lhs edx]) +++
  sarl (shiftAmount rmc) edx +++
  (negative ← canBeNegativeDividend mir; when negative (plain [I_mov lhs eax] +++ sarl 31 eax +++ plain [I_sub eax edx])) +++
  when (d <? 0) (mret [I_neg edx]) +++
  when (negb isDiv) (mret [I_imul_i (- d) edx eax; I_add lhs eax]) +++
  when (negb (isTruncated mir))
    (if isDiv then
       plain [I_imul_i d edx eax; I_cmp lhs eax] +++ bailoutIf NotEqual mir +++
       when (d <? 0) (plain [I_test lhs lhs] +++ bailoutIf Zero mir)
     else
       negative ← canBeNegativeDividend mir;
       when negative (plain [I_cmp_i lhs 0; I_j GreaterThanOrEqual l_done; I_test eax eax] +++ bailoutIf Zero mir +++ plain [I_bind l_done])).

(** ** Powers of two *)

(** The output is [lhs]; [numeratorCopy] is the second operand. *)
Definition visitDivPowTwoI (mir : MDivMod) (lhs numeratorCopy shift : Z) (negativeDivisor : bool) : M code :=
  when (negb (isTruncated mir) && negativeDivisor) (plain [I_test lhs lhs] +++ bailoutIf Zero mir) +++
  (if negb (shift =? 0) then
     when (negb (isTruncated mir))
       ((mask ← shr_w 32 (2 ^ 32 - 1) (32 - shift); mret [I_test_i lhs mask]) +++ bailoutIf NonZero mir) +++
     (if isUnsigned mir then shrl shift lhs
      else
        (negative ← canBeNegativeDividend mir;
         when (negative && isTruncated mir)
           (moz_assert (negb (numeratorCopy =? lhs));;
            when (shift >? 1) (sarl 31 lhs) +++ shrl (32 - shift) lhs +++ plain [I_add numeratorCopy lhs])) +++
        sarl shift lhs +++
        when negativeDivisor (mret [I_neg lhs]))
   else if negativeDivisor then
     plain [I_neg lhs] +++
     (if negb (isTruncated mir) then bailoutIf Overflow mir
      else when (trapOnError mir) (mret [I_j NoOverflow l_ok; I_trap IntegerOverflow; I_bind l_ok]))
   else when (isUnsigned mir && negb (isTruncated mir)) (plain [I_test lhs lhs] +++ bailoutIf Signed mir)).

(** [Imm32((uint32_t(1) << shift) - 1)] *)
Definition low_mask (shift : Z) : M Z := one ← shl_w 32 1 shift; mret (uint32 (one - 1)).

Definition visitModPowTwoI (mir : MDivMod) (lhs shift : Z) : M code :=
  negative ← (if negb (isUnsigned mir) then canBeNegativeDividend mir else mret false);
  mask ← low_mask shift;
  when negative (mret (branchTest32 Signed lhs lhs l_negative)) +++
  plain [I_and_i mask lhs] +++
  when negative
    (plain [I_jmp l_done; I_bind l_negative; I_neg lhs; I_and_i mask lhs; I_neg lhs] +++
     when (negb (isTruncated mir)) (bailoutIf Zero mir) +++ plain [I_bind l_done]).

(** * Divisors in a register

    [idiv] and [div] take their operands from [edx:eax]; the quotient is in
    [eax], the remainder in [edx]. *)

Definition not_same (a b : Z) : bool := negb (a =? b).

(** [visitReturnZero], with the label of its entry. *)
Definition return_zero (output : Z) : code := [I_bind l_entry] ++ mov_zero output ++ [I_jmp l_rejoin].

Definition trap_unless_nonzero : code := [I_j NonZero l_nonZero; I_trap IntegerDivideByZero; I_bind l_nonZero].

Definition visitUDivOrMod (mir : MDivMod) (lhs rhs output : Z) : M code :=
  moz_assert (if not_same lhs rhs then not_same rhs eax else true);;
  moz_assert (not_same rhs edx);;
  let returns_zero := mir_canBeDivideByZero mir && isTruncated mir && negb (trapOnError mir) in
  main ←
    when (not_same lhs eax) (mret [I_mov lhs eax]) +++
    when (mir_canBeDivideByZero mir)
      (plain [I_test rhs rhs] +++
       (if isTruncated mir then
          if trapOnError mir then mret trap_unless_nonzero else mret [I_j Zero l_entry]
        else bailoutIf Zero mir)) +++
    plain (mov_zero edx) +++ plain [I_div rhs] +++
    when (isDiv mir && negb (isTruncated mir)) (plain [I_test edx edx] +++ bailoutIf NonZero mir) +++
    when (negb (isTruncated mir)) (plain [I_test output output] +++ bailoutIf Signed mir) +++
    when returns_zero (mret [I_bind l_rejoin]);
  mret (assemble_code main (if returns_zero then return_zero output else [])).

Definition visitDivI (mir : MDivMod) (lhs rhs : Z) : M code :=
  moz_assert (if not_same lhs rhs then not_same rhs eax else true);;
  moz_assert (not_same rhs edx);;
  let returns_zero := mir_canBeDivideByZero mir && negb (trapOnError mir) && isTruncated mir in
  main ←
    when (not_same lhs eax) (mret [I_mov lhs eax]) +++
    when (mir_canBeDivideByZero mir)
      (plain [I_test rhs rhs] +++
       (if trapOnError mir then mret trap_unless_nonzero
        else if isTruncated mir then mret [I_j Zero l_entry]
        else moz_assert (fallible mir);; bailoutIf Zero mir)) +++
    when (mir_canBeNegativeOverflow mir)
      (plain [I_cmp_i lhs (- 2 ^ 31); I_j NotEqual l_notOverflow; I_cmp_i rhs (-1)] +++
       (if trapOnError mir then mret [I_j NotEqual l_notOverflow; I_trap IntegerOverflow]
        else if canTruncateOverflow mir then mret [I_j Equal l_done]
        else moz_assert (fallible mir);; bailoutIf Equal mir) +++
       plain [I_bind l_notOverflow]) +++
    when (negb (canTruncateNegativeZero mir) && mir_canBeNegativeZero mir)
      (plain [I_test lhs lhs; I_j NonZero l_nonzero; I_cmp_i rhs 0] +++ bailoutIf LessThan mir +++ plain [I_bind l_nonzero]) +++
    when (not_same lhs eax) (mret [I_mov lhs eax]) +++
    plain [I_cdq; I_idiv rhs] +++
    when (negb (isTruncated mir)) (plain [I_test edx edx] +++ bailoutIf NonZero mir) +++
    plain [I_bind l_done] +++
    when returns_zero (mret [I_bind l_rejoin]);
  mret (assemble_code main (if returns_zero then return_zero eax else [])).

Definition visitModOverflowCheck (mir : MDivMod) (rhs : Z) : M code :=
  plain [I_bind l_overflow_entry; I_cmp_i rhs (-1)] +++
  (if isTruncated mir then mret ([I_j NotEqual l_overflow_rejoin] ++ mov_zero edx ++ [I_jmp l_overflow_done])
   else bailoutIf Equal mir +++ plain [I_jmp l_overflow_rejoin]).

Definition visitModI (mir : MDivMod) (lhs rhs : Z) : M code :=
  moz_assert (if not_same lhs rhs then not_same rhs eax else true);;
  moz_assert (not_same rhs edx);;
  let returns_zero := mir_canBeDivideByZero mir && isTruncated mir && negb (trapOnError mir) in
  negative ← canBeNegativeDividend mir;
  main ←
    when (not_same lhs eax) (mret [I_mov lhs eax]) +++
    when (mir_canBeDivideByZero mir)
      (plain [I_test rhs rhs] +++
       (if isTruncated mir then if trapOnError mir then mret trap_unless_nonzero else mret [I_j Zero l_entry]
        else bailoutIf Zero mir)) +++
    when negative (mret (branchTest32 Signed lhs lhs l_negative)) +++
    when (mir_canBePowerOfTwoDivisor mir)
      (mret ([I_mov rhs edx; I_sub_i 1 edx] ++ branchTest32 NonZero edx rhs l_notPowerOfTwo ++ [I_and lhs edx; I_jmp l_done; I_bind l_notPowerOfTwo])) +++
    plain (mov_zero edx) +++ plain [I_idiv rhs] +++
    when negative
      (plain [I_jmp l_done; I_bind l_negative; I_cmp_i lhs (- 2 ^ 31); I_j Equal l_overflow_entry; I_bind l_overflow_rejoin; I_cdq; I_idiv rhs] +++
       when (negb (isTruncated mir)) (plain [I_test edx edx] +++ bailoutIf Zero mir)) +++
    plain [I_bind l_done] +++
    when negative (mret [I_bind l_overflow_done]) +++
    when returns_zero (mret [I_bind l_rejoin]);
  overflow ← when negative (visitModOverflowCheck mir rhs);
  mret (assemble_code main (overflow ++ (if returns_zero then return_zero edx else []))).

(** * Lowering *)

Inductive LIR :=
  | LDivPowTwoI (copied : bool) (shift : Z) (negativeDivisor : bool)
  | LModPowTwoI (shift : Z)
  | LDivOrModConstantI (denominator : Z)
  | LUDivOrModConstant (denominator : Z)
  | LDivI | LModI | LUDivOrMod.

(** The operand is the constant on the right, if it is one. *)
Definition lowerUDiv (rhs : option Z) : M LIR :=
  match rhs with
  | Some c =>
      let rhs := uint32 c in
      let shift := FloorLog2 rhs in
      power ← shl_w 32 1 shift;
      mret (if negb (rhs =? 0) && (power =? rhs) then LDivPowTwoI false shift false else LUDivOrModConstant rhs)
  | None => mret LUDivOrMod
  end.

Definition lowerUMod (rhs : option Z) : M LIR :=
  match rhs with
  | Some c =>
      let rhs := uint32 c in
      let shift := FloorLog2 rhs in
      power ← shl_w 32 1 shift;
      mret (if negb (rhs =? 0) && (power =? rhs) then LModPowTwoI shift else LUDivOrModConstant rhs)
  | None => mret LUDivOrMod
  end.

Definition lowerDivI (div : MDivMod) (rhs : option Z) : M LIR :=
  if isUnsigned div then lowerUDiv rhs
  else match rhs with
  | Some rhs =>
      let shift := FloorLog2 (Z.abs rhs) in
      power ← shl_w 32 1 shift;
      if negb (rhs =? 0) && (power =? Z.abs rhs) then
        negative ← canBeNegativeDividend div;
        let needRoundNeg := negative && isTruncated div in
        mret (LDivPowTwoI needRoundNeg shift (rhs <? 0))
      else mret (if negb (rhs =? 0) then LDivOrModConstantI rhs else LDivI)
  | None => mret LDivI
  end.

Definition lowerModI (mod_ : MDivMod) (rhs : option Z) : M LIR :=
  if isUnsigned mod_ then lowerUMod rhs
  else match rhs with
  | Some rhs =>
      let shift := FloorLog2 (Z.abs rhs) in
      power ← shl_w 32 1 shift;
      if negb (rhs =? 0) && (power =? Z.abs rhs) then mret (LModPowTwoI shift)
      else mret (if negb (rhs =? 0) then LDivOrModConstantI rhs else LModI)
  | None => mret LModI
  end.

(** The registers that lowering fixes for the result. *)
Definition output_of (mir : MDivMod) (lir : LIR) (lhs : Z) : Z :=
  match lir with
  | LDivPowTwoI _ _ _ | LModPowTwoI _ => lhs
  | LDivOrModConstantI _ | LUDivOrModConstant _ => if isDiv mir then edx else eax
  | LDivI | LModI | LUDivOrMod => if isDiv mir then eax else edx
  end.

Definition visit (mir : MDivMod) (lir : LIR) (lhs rhs copy : Z) : M code :=
  let output := output_of mir lir lhs in
  let alone (c : M code) := c ← c; mret (assemble_code c []) in
  match lir with
  | LDivPowTwoI copied shift negativeDivisor => alone (visitDivPowTwoI mir lhs (if copied : bool then copy else lhs) shift negativeDivisor)
  | LModPowTwoI shift => alone (visitModPowTwoI mir lhs shift)
  | LDivOrModConstantI d => alone (visitDivOrModConstantI mir lhs output d)
  | LUDivOrModConstant d => alone (visitUDivOrModConstant mir lhs output d)
  | LDivI => visitDivI mir lhs rhs
  | LModI => visitModI mir lhs rhs
  | LUDivOrMod => visitUDivOrMod mir lhs rhs output
  end.

(** A node, from its operands to its code. *)
Definition lower (mir : MDivMod) (constant : option Z) : M LIR := if isDiv mir then lowerDivI mir constant else lowerModI mir constant.

Definition generate (mir : MDivMod) (constant : option Z) (lhs rhs copy : Z) : M (LIR * code) :=
  lir ← lower mir constant;
  c ← visit mir lir lhs rhs copy;
  mret (lir, c).
