(* ===== verification/JitMagic.v ===== *)
(** The constants of a division by multiplication: the proof that the comment
    of computeDivisionConstants sketches. *)
From S2P Require Import Prelude Words CheckedArithmetic BigIntRep BigIntMul JitCode JitDivision.

(** * Powers of two *)

Lemma divides_power d p : 0 < d -> 0 <= p -> (d | 2 ^ p) -> exists k, 0 <= k /\ d = 2 ^ k.
Proof.
  intros Hd Hp. revert p Hp d Hd. apply (natlike_ind (fun p => forall d, 0 < d -> (d | 2 ^ p) -> exists k, 0 <= k /\ d = 2 ^ k)).
  - intros d Hd H. exists 0. split; [done|]. apply Z.divide_1_r_nonneg in H; [done|lia].
  - intros p Hp IH d Hd H. rewrite Z.pow_succ_r in H by done. destruct (Z.Even_or_Odd d) as [[k ->]|[k ->]].
    + apply Z.mul_divide_cancel_l in H; [|done]. destruct (IH k ltac:(lia) H) as (j & Hj & ->). exists (j + 1). split; [lia|]. rewrite Z.pow_add_r by lia. lia.
    + apply Z.gauss in H; [by apply IH|]. apply Z.bezout_1_gcd. exists 1, (- k). lia.
Qed.

Lemma power_land k : 0 <= k -> Z.land (2 ^ k) (2 ^ k - 1) = 0.
Proof. intros Hk. replace (2 ^ k - 1) with (Z.ones k) by (rewrite Z.ones_equiv; lia). rewrite Z.land_ones, Z.mod_same; [done| |done]. pose proof (Z.pow_pos_nonneg 2 k). lia. Qed.

Lemma not_power d p : 0 < d < 2 ^ 32 -> 0 <= p -> Z.land d (uint32 (d - 1)) <> 0 -> 2 ^ p mod d <> 0.
Proof.
  intros Hd Hp Hland Hm. apply Z.mod_divide in Hm; [|lia]. destruct (divides_power d p ltac:(lia) Hp Hm) as (k & Hk & ->). apply Hland. unfold uint32. rewrite Z.mod_small by lia. by apply power_land.
Qed.

(** * The search *)

Section Magic.
Context (d L : Z) (HL : 31 <= L <= 32) (Hd : 0 < d < 2 ^ L) (Hland : Z.land d (uint32 (d - 1)) <> 0).

(** How far [d] times the multiplier is above the power. *)
Definition excess (p : Z) : Z := d - ((2 ^ p - 1) mod d + 1).
Definition good (p : Z) : Prop := excess p <= 2 ^ (p - L).

Lemma d_small : 0 < d < 2 ^ 32.
Proof. pose proof (Z.pow_le_mono_r 2 L 32 ltac:(lia) ltac:(lia)). lia. Qed.

Lemma d_three : 3 <= d.
Proof. destruct (Z.eq_dec d 1) as [->|]; [done|]. destruct (Z.eq_dec d 2) as [->|]; [done|]. lia. Qed.

Lemma excess_range p : 0 <= p -> 0 < excess p < d.
Proof.
  intros Hp. pose proof d_small as Hs. pose proof d_three. pose proof (Z.mod_pos_bound (2 ^ p - 1) d ltac:(lia)) as Hm. unfold excess. enough ((2 ^ p - 1) mod d <> d - 1) by lia.
  intros E. apply (not_power d p Hs Hp Hland). replace (2 ^ p) with (2 ^ p - 1 + 1) by lia. rewrite <- Z.add_mod_idemp_l, E by lia. replace (d - 1 + 1) with d by lia. apply Z.mod_same. lia.
Qed.

Lemma ones_of_eq p : 1 <= p <= 64 -> ones_of p = mret (2 ^ p - 1).
Proof.
  intros Hp. unfold ones_of, shr_w. replace ((0 <=? 64 - p) && (64 - p <? 64)) with true by lia. do 2 f_equal. unfold UINT64_MAX. rewrite Z.shiftr_div_pow2 by lia.
  assert (E : 2 ^ 64 = 2 ^ p * 2 ^ (64 - p)) by (rewrite <- Z.pow_add_r by lia; f_equal; lia). assert (H : 0 < 2 ^ (64 - p)) by (apply Z.pow_pos_nonneg; lia). symmetry. apply (Z.div_unique_pos _ _ _ (2 ^ (64 - p) - 1)); [lia|]. rewrite E. ring.
Qed.

Lemma power_step_eq p : 32 <= p <= 64 -> power_step d L p = mret (if 2 ^ (p - L) <? excess p then inl (p + 1) else inr p).
Proof.
  intros Hp. pose proof d_small as Hs. unfold power_step, shl_w. replace ((0 <=? p - L) && (p - L <? 64)) with true by lia. rewrite bind_ret, ones_of_eq, bind_ret by lia. do 2 f_equal.
  rewrite Z.shiftl_mul_pow2, Z.mul_1_l by lia. pose proof (Z.pow_le_mono_r 2 (p - L) 33 ltac:(lia) ltac:(lia)) as H1. pose proof (Z.pow_pos_nonneg 2 (p - L) ltac:(lia) ltac:(lia)) as H2. change (2 ^ 33) with 8589934592 in H1.
  pose proof (Z.mod_pos_bound (2 ^ p - 1) d ltac:(lia)) as Hm. unfold uint64. rewrite (Z.mod_small (2 ^ (p - L))) by lia. rewrite (Z.mod_small (_ + _ mod d)) by lia. rewrite Z.mod_small by lia. unfold excess.
  destruct (Z.ltb_spec (2 ^ (p - L) + (2 ^ p - 1) mod d + 1) d), (Z.ltb_spec (2 ^ (p - L)) (d - ((2 ^ p - 1) mod d + 1))); done || lia.
Qed.

(** From [p = c + L] on, for [d <= 2 ^ c], every exponent is good. *)
Lemma good_above c p : 0 <= c -> d <= 2 ^ c -> c + L <= p -> good p.
Proof.
  intros Hc Hdc Hp. unfold good. pose proof (excess_range p ltac:(lia)). pose proof (Z.pow_le_mono_r 2 c (p - L) ltac:(lia) ltac:(lia)). lia.
Qed.

Lemma search_ok c fuel p : 0 <= c <= L -> d <= 2 ^ c -> 32 <= p <= c + L -> c + L < p + Z.of_nat fuel ->
  exists p', loop fuel (power_step d L) p = mret p' /\ good p' /\ p <= p' <= c + L.
Proof.
  intros Hc Hdc. revert p. induction fuel as [|fuel IH]; intros p Hp Hf; [lia|]. cbn [loop]. rewrite power_step_eq, bind_ret by lia. destruct (Z.ltb_spec (2 ^ (p - L)) (excess p)) as [Hlt|Hge].
  - assert (Hne : p < c + L). { apply Z.le_neq. split; [lia|]. intros ->. pose proof (good_above c (c + L) ltac:(lia) Hdc ltac:(lia)) as Hg. unfold good in Hg. lia. }
    destruct (IH (p + 1) ltac:(lia) ltac:(lia)) as (p' & E & Hg & Hb). exists p'. split; [done|]. split; [done|lia].
  - exists p. split; [done|]. split; [exact Hge|lia].
Qed.

(** * The multiplier *)

Section Multiplier.
Context (p : Z) (Hp : 32 <= p) (Hg : good p).

Definition magic : Z := (2 ^ p - 1) / d + 1.

Lemma magic_eq : magic * d = 2 ^ p + excess p.
Proof. unfold magic, excess. pose proof d_small. pose proof (Z.div_mod (2 ^ p - 1) d ltac:(lia)). lia. Qed.

Lemma power_split : 2 ^ p = 2 ^ (p - L) * 2 ^ L /\ 0 < 2 ^ (p - L).
Proof. split; [rewrite <- Z.pow_add_r by lia; f_equal; lia|apply Z.pow_pos_nonneg; lia]. Qed.

Lemma magic_nonnegative n : 0 <= n < 2 ^ L -> (magic * n) / 2 ^ p = n / d.
Proof.
  intros Hn. pose proof magic_eq as HM. destruct power_split as [Hpw H0]. pose proof (excess_range p ltac:(lia)) as He. unfold good in Hg. pose proof d_small. symmetry.
  pose proof (Z.div_mod n d ltac:(lia)) as Hq. pose proof (Z.mod_pos_bound n d ltac:(lia)) as Hr. set (q := n / d) in *. set (r := n mod d) in *. clearbody q r. set (P := 2 ^ p) in *. set (e := excess p) in *. set (M := magic) in *. clearbody P e M.
  set (A := 2 ^ (p - L)) in *. set (B := 2 ^ L) in *. clearbody A B.
  assert (Hen : e * n < P). { destruct (Z.eq_dec n 0) as [->|]; [lia|]. assert (e * n <= A * n) by (apply Z.mul_le_mono_nonneg_r; lia). assert (A * n < A * B) by (apply Z.mul_lt_mono_pos_l; lia). lia. }
  assert (Hlo : d * (q * P) <= d * (M * n)). { replace (d * (M * n)) with ((M * d) * n) by ring. rewrite HM. replace (d * (q * P)) with (P * (d * q)) by ring. assert (P * (d * q) <= P * n) by (apply Z.mul_le_mono_nonneg_l; lia). assert (0 <= e * n) by (apply Z.mul_nonneg_nonneg; lia). lia. }
  assert (Hhi : d * (M * n) < d * ((q + 1) * P)). { replace (d * (M * n)) with ((M * d) * n) by ring. rewrite HM. replace (d * ((q + 1) * P)) with (P * (d * q + d)) by ring. assert (P * n <= P * (d * q + d - 1)) by (apply Z.mul_le_mono_nonneg_l; lia). lia. }
  apply Z.mul_le_mono_pos_l in Hlo; [|lia]. apply Z.mul_lt_mono_pos_l in Hhi; [|lia]. apply (Z.div_unique_pos _ _ _ (M * n - q * P)); lia.
Qed.

Lemma magic_negative n : - 2 ^ L <= n < 0 -> (magic * n) / 2 ^ p = Z.quot n d - 1.
Proof.
  intros Hn. pose proof magic_eq as HM. destruct power_split as [Hpw H0]. pose proof (excess_range p ltac:(lia)) as He. unfold good in Hg. pose proof d_small.
  replace n with (- (- n)) by lia. set (m := - n) in *. assert (Hm : 0 < m <= 2 ^ L) by lia. clearbody m. rewrite Z.quot_opp_l, Z.quot_div_nonneg by lia. symmetry.
  pose proof (Z.div_mod m d ltac:(lia)) as Hq. pose proof (Z.mod_pos_bound m d ltac:(lia)) as Hr. set (q := m / d) in *. set (r := m mod d) in *. clearbody q r. set (P := 2 ^ p) in *. set (e := excess p) in *. set (M := magic) in *. clearbody P e M.
  set (A := 2 ^ (p - L)) in *. set (B := 2 ^ L) in *. clearbody A B.
  assert (Hem : 0 < e * m <= P). { split; [apply Z.mul_pos_pos; lia|]. assert (e * m <= A * m) by (apply Z.mul_le_mono_nonneg_r; lia). assert (A * m <= A * B) by (apply Z.mul_le_mono_nonneg_l; lia). lia. }
  assert (Hlo : d * (q * P) < d * (M * m)). { replace (d * (M * m)) with ((M * d) * m) by ring. rewrite HM. replace (d * (q * P)) with (P * (d * q)) by ring. assert (P * (d * q) <= P * m) by (apply Z.mul_le_mono_nonneg_l; lia). lia. }
  assert (Hhi : d * (M * m) <= d * ((q + 1) * P)). { replace (d * (M * m)) with ((M * d) * m) by ring. rewrite HM. replace (d * ((q + 1) * P)) with (P * (d * q + d)) by ring. assert (P * m <= P * (d * q + d - 1)) by (apply Z.mul_le_mono_nonneg_l; lia). lia. }
  apply Z.mul_lt_mono_pos_l in Hlo; [|lia]. apply Z.mul_le_mono_pos_l in Hhi; [|lia]. apply (Z.div_unique_pos _ _ _ ((q + 1) * P - M * m)); lia.
Qed.

Lemma magic_pos : 0 < magic.
Proof. unfold magic. pose proof d_small. pose proof (Z.div_pos (2 ^ p - 1) d). pose proof (Z.pow_pos_nonneg 2 p). lia. Qed.

(** The bound (a) of the comment. *)
Lemma magic_bound D : 0 < D -> D < d -> 2 ^ p <= 2 * D * 2 ^ L -> magic < 2 ^ (L + 1).
Proof.
  intros HD HDd Hb. pose proof magic_eq as HM. pose proof (excess_range p ltac:(lia)) as He. rewrite Z.pow_add_r by lia. change (2 ^ 1) with 2. apply Z.nle_gt. intros Hc.
  assert (H : (2 ^ L * 2 - 1) * (D + 1) < 2 * D * 2 ^ L).
  { apply Z.lt_le_trans with (2 := Hb). assert ((2 ^ L * 2 - 1) * (D + 1) <= (magic - 1) * d) by (apply Z.mul_le_mono_nonneg; lia). lia. }
  assert (D < 2 ^ L) by lia. lia.
Qed.
End Multiplier.

(** * The constants *)

Record magic_ok (m s : Z) : Prop := {
  magic_shift : 0 <= s <= 2 * L - 32;
  magic_range : 0 < m < 2 ^ (L + 1);
  magic_no_shift : s = 0 -> m < 2 ^ 31;
  magic_short : m < 2 ^ 32 -> s < 32;
  magic_up : forall n, 0 <= n < 2 ^ L -> (m * n) / 2 ^ (32 + s) = n / d;
  magic_down : forall n, - 2 ^ L <= n < 0 -> (m * n) / 2 ^ (32 + s) = Z.quot n d - 1;
}.

Lemma constants_ok : exists m s, computeDivisionConstants d L = mret (MkReciprocal m s) /\ magic_ok m s.
Proof.
  pose proof d_small as Hs. pose proof d_three as H3. set (c := Z.log2_up d). assert (Hc : 2 ^ (c - 1) < d <= 2 ^ c) by (replace (c - 1) with (Z.pred c) by lia; apply Z.log2_up_spec; lia).
  assert (Hc0 : 2 <= c). { change 2 with (Z.log2_up 3). by apply Z.log2_up_le_mono. } assert (HcL : c <= L). { rewrite <- (Z.log2_up_pow2 L) by lia. apply Z.log2_up_le_mono. lia. }
  destruct (search_ok c 34 32 ltac:(lia) (proj2 Hc) ltac:(lia) ltac:(lia)) as (p & Ep & Hg & Hp). unfold computeDivisionConstants. replace ((L >=? 2) && (L <=? 32)) with true by lia.
  rewrite Z.shiftl_mul_pow2, Z.mul_1_l by lia. replace (d <? 2 ^ L) with true by lia. replace (Z.land d (uint32 (d - 1)) =? 0) with false by lia. cbn [negb andb]. change (moz_assert true) with (mret tt : M unit). rewrite !bind_ret, Ep, bind_ret, ones_of_eq, bind_ret by lia.
  exists (magic p), (p - 32). split; [done|]. replace (32 + (p - 32)) with p by lia. split; replace (32 + (p - 32)) with p by lia.
  - lia.
  - split; [apply magic_pos; lia|]. apply (magic_bound p ltac:(lia) (2 ^ (c - 1))); [apply Z.pow_pos_nonneg; lia|lia|]. rewrite <- (Z.pow_succ_r 2) by lia. rewrite <- Z.pow_add_r by lia. apply Z.pow_le_mono_r; lia.
  - intros E. assert (p = 32) as -> by lia. unfold magic. assert ((2 ^ 32 - 1) / d <= (2 ^ 32 - 1) / 3) by (apply Z.div_le_compat_l; lia). change ((2 ^ 32 - 1) / 3) with 1431655765 in *. lia.
  - intros Hm. apply Z.nle_gt. intros Hge. pose proof (magic_eq p) as HM. pose proof (excess_range p ltac:(lia)). pose proof (Z.pow_le_mono_r 2 64 p ltac:(lia) ltac:(lia)). assert (magic p * d <= (2 ^ 32 - 1) * d) by (apply Z.mul_le_mono_nonneg_r; lia). lia.
  - intros n Hn. apply magic_nonnegative; [lia|done|done].
  - intros n Hn. apply magic_negative; [lia|done|done].
Qed.
End Magic.
