(* ===== verification/JitExec.v ===== *)
(** What the code of a division node has to do, and the lemmas and tactics to
    execute code symbolically. *)
From S2P Require Import Prelude Words CheckedArithmetic BigIntRep BigIntMul JitCode JitDivision.

(** * The specification *)

Definition in_range (u : bool) (v : Z) : Prop := if u then 0 <= v < 2 ^ 32 else - 2 ^ 31 <= v < 2 ^ 31.

(** The integer that the operation stands for, when infinities are truncated. *)
Definition division_result (mir : MDivMod) (n d : Z) : Z :=
  if d =? 0 then 0 else if isDiv mir then Z.quot n d else Z.rem n d.

(** The number that JavaScript prescribes is an int32, and not negative zero. *)
Definition representable (mir : MDivMod) (n d : Z) : bool :=
  negb (d =? 0) &&
  (if isDiv mir then (Z.rem n d =? 0) && negb ((n =? 0) && (d <? 0)) && (Z.quot n d <? 2 ^ 31)
   else negb ((n <? 0) && (Z.rem n d =? 0)) && (Z.rem n d <? 2 ^ 31)).

(** WebAssembly's traps. *)
Definition trap_of (mir : MDivMod) (n d : Z) : option Trap :=
  if negb (trapOnError mir) then None
  else if d =? 0 then Some IntegerDivideByZero
  else if isDiv mir && negb (isUnsigned mir) && (Z.quot n d =? 2 ^ 31) then Some IntegerOverflow else None.

(** What earlier passes may have found out about the operands. *)
Record operands_ok (mir : MDivMod) (n d : Z) : Prop := {
  ok_numerator : in_range (isUnsigned mir) n;
  ok_divisor : in_range (isUnsigned mir) d;
  ok_nonzero : mir_canBeDivideByZero mir = false -> d <> 0;
  ok_dividend : isUnsigned mir = false -> mir_canBeNegativeDividend mir = false -> 0 <= n;
  ok_overflow : mir_canBeNegativeOverflow mir = false -> ~ (n = - 2 ^ 31 /\ d = -1);
  ok_negative_zero : mir_canBeNegativeZero mir = false -> ~ (n = 0 /\ d < 0);
  ok_trap : trapOnError mir = true -> isTruncated mir = true;
}.

Definition outcome_ok (mir : MDivMod) (n d out : Z) (o : outcome) : Prop :=
  match o with
  | Finished st => trap_of mir n d = None /\ get st out = uint32 (division_result mir n d) /\
      (isTruncated mir = false -> representable mir n d = true \/ isTruncatedIndirectly mir = true /\ d <> 0 /\ (isDiv mir = true -> Z.rem n d = 0))
  | BailedOut => isTruncated mir = false /\ representable mir n d = false
  | Trapped t => trap_of mir n d = Some t
  | _ => False
  end.

(** * Registers *)

Lemma get_same st r v f : get (put st r v f) r = v.
Proof. unfold get, put. cbn. by rewrite Z.eqb_refl. Qed.
Lemma get_other st r r' v f : r <> r' -> get (put st r v f) r' = get st r'.
Proof. intros H. unfold get, put. cbn. by replace (r' =? r) with false by lia. Qed.
Lemma get_flags st f r : get (set_flags st f) r = get st r.
Proof. done. Qed.
Lemma status_put st r v f : status (put st r v f) = f.
Proof. done. Qed.
Lemma status_set st f : status (set_flags st f) = f.
Proof. done. Qed.

(** * Words *)

Lemma uint32_range v : 0 <= uint32 v < 2 ^ 32.
Proof. by apply Z.mod_pos_bound. Qed.
Lemma uint32_small v : 0 <= v < 2 ^ 32 -> uint32 v = v.
Proof. intros. by apply Z.mod_small. Qed.
Lemma uint32_idem v : uint32 (uint32 v) = uint32 v.
Proof. apply uint32_small, uint32_range. Qed.
Lemma uint32_eq v w : uint32 v = uint32 w <-> (v - w) mod 2 ^ 32 = 0.
Proof.
  unfold uint32. split; intros H.
  - rewrite Zminus_mod, H, Z.sub_diag. done.
  - apply Z.mod_divide in H as [k H]; [|done]. replace v with (w + k * 2 ^ 32) by lia. by rewrite Z.mod_add.
Qed.
Lemma uint32_add v w : add_result (uint32 v) (uint32 w) = uint32 (v + w).
Proof. unfold add_result, uint32. by rewrite <- Zplus_mod. Qed.
Lemma uint32_sub v w : sub_result (uint32 v) (uint32 w) = uint32 (v - w).
Proof. unfold sub_result, uint32. by rewrite <- Zminus_mod. Qed.
Lemma uint32_mul v w : uint32 (uint32 v * w) = uint32 (v * w).
Proof. unfold uint32. by rewrite Z.mul_mod_idemp_l. Qed.
Lemma int32_of v : - 2 ^ 31 <= v < 2 ^ 31 -> int32 (uint32 v) = v.
Proof. intros Hv. rewrite int32_uint32. apply int32_id. unfold is_int32. lia. Qed.
Lemma uint32_int32 v : uint32 (int32 v) = uint32 v.
Proof. unfold uint32, int32. rewrite Zminus_mod_idemp_l. f_equal. lia. Qed.
Lemma uint32_inj v w : - 2 ^ 31 <= v < 2 ^ 31 -> - 2 ^ 31 <= w < 2 ^ 31 -> uint32 v = uint32 w -> v = w.
Proof. intros Hv Hw H. rewrite <- (int32_of v Hv), <- (int32_of w Hw). by rewrite H. Qed.
Lemma uint32_zero v : - 2 ^ 32 < v < 2 ^ 32 -> (uint32 v =? 0) = (v =? 0).
Proof.
  intros Hv. destruct (Z.eqb_spec v 0) as [->|Hne]; [done|]. apply Z.eqb_neq. intros H. apply Z.mod_divide in H as [k H]; [|done]. lia.
Qed.

(** ** Flags of a word *)

Lemma flags_signed v : - 2 ^ 31 <= v < 2 ^ 31 -> result_flags (uint32 v) false = Some (MkFlags (v =? 0) (v <? 0) false).
Proof. intros Hv. unfold result_flags. by rewrite uint32_zero, int32_of by lia. Qed.

Lemma flags_test v : - 2 ^ 31 <= v < 2 ^ 31 -> result_flags (Z.land (uint32 v) (uint32 v)) false = Some (MkFlags (v =? 0) (v <? 0) false).
Proof. intros Hv. by rewrite Z.land_diag, flags_signed. Qed.

(** A comparison decides the order of the signed numbers. *)
Lemma flags_compare v w : - 2 ^ 31 <= v < 2 ^ 31 -> - 2 ^ 31 <= w < 2 ^ 31 ->
  exists f, sub_flags (uint32 v) (uint32 w) = Some f /\ fl_zero f = (v =? w) /\ xorb (fl_sign f) (fl_overflow f) = (v <? w).
Proof.
  intros Hv Hw. unfold sub_flags, result_flags. eexists. split; [done|]. cbn [fl_zero fl_sign fl_overflow]. rewrite uint32_sub, (int32_of v Hv), (int32_of w Hw). split.
  - rewrite uint32_zero by lia. lia.
  - rewrite int32_uint32. destruct (is_int32 (v - w)) eqn:E.
    + rewrite int32_id by done. cbn [negb]. rewrite xorb_false_r. lia.
    + cbn [negb]. rewrite xorb_true_r. unfold is_int32 in E. unfold int32. destruct (Z.le_gt_cases (2 ^ 31) (v - w)).
      * rewrite <- (Z.mod_unique_pos (v - w + 2 ^ 31) (2 ^ 32) 1 (v - w - 2 ^ 31)) by lia. lia.
      * rewrite <- (Z.mod_unique_pos (v - w + 2 ^ 31) (2 ^ 32) (-1) (v - w + 2 ^ 31 + 2 ^ 32)) by lia. lia.
Qed.

(** * Steps *)

Lemma exec_plain fuel whole i c st : match i with I_j _ _ | I_jmp _ | I_bind _ | I_bailout _ | I_trap _ | I_end => False | _ => True end ->
  exec (S fuel) whole (i :: c) st = match execute i st with Some st => exec fuel whole c st | None => Fault end.
Proof. by destruct i. Qed.
Lemma exec_bind fuel whole l c st : exec (S fuel) whole (I_bind l :: c) st = exec fuel whole c st.
Proof. done. Qed.
Lemma exec_jmp fuel whole l c st c' : after l whole = Some c' -> exec (S fuel) whole (I_jmp l :: c) st = exec fuel whole c' st.
Proof. intros H. cbn [exec]. by rewrite H. Qed.
Lemma exec_j fuel whole cond l c c' st f : status st = Some f -> after l whole = Some c' -> exec (S fuel) whole (I_j cond l :: c) st = if holds cond f then exec fuel whole c' st else exec fuel whole c st.
Proof. intros H H'. cbn [exec]. by rewrite H, H'. Qed.
Lemma exec_bailout fuel whole cond c st f : status st = Some f -> exec (S fuel) whole (I_bailout (Some cond) :: c) st = if holds cond f then BailedOut else exec fuel whole c st.
Proof. intros H. cbn [exec]. by rewrite H. Qed.
Lemma exec_end fuel whole c st : exec (S fuel) whole (I_end :: c) st = Finished st.
Proof. done. Qed.

(** * Emission *)

Lemma code_app_ret a b : code_app (mret a) (mret b) = mret (a ++ b).
Proof. done. Qed.

(** The registers of the state in the goal. *)
Ltac regs := repeat first [rewrite get_same|rewrite get_other by (done || congruence || lia)|rewrite get_flags|rewrite status_put|rewrite status_set].

(** One step of straight code, the registers read. *)
Ltac step := first
  [ rewrite exec_plain by exact I; cbn [execute]; regs
  | rewrite exec_bind
  | rewrite exec_end
  | erewrite exec_jmp by reflexivity
  | erewrite exec_j by first [reflexivity|(regs; eassumption)|(regs; reflexivity)]; regs
  | erewrite exec_bailout by first [reflexivity|(regs; eassumption)|(regs; reflexivity)]; regs ].

(** The code of an emitter, its assertions passed. *)
Ltac emit := repeat first [progress change (moz_assert true) with (mret tt : M unit)|rewrite bind_ret|rewrite code_app_ret|progress cbn [when negb andb orb app]].
