(* ===== verification/JitConstant.v ===== *)
(** The code of a division by a constant that is not a power of two computes
    the division. *)
From S2P Require Import Prelude Words CheckedArithmetic BigIntRep BigIntMul JitCode JitDivision JitMagic JitExec.

(** * Unsigned *)

(** The high word of a product with the low word of the multiplier. *)
Lemma high_word m n : 2 ^ 32 <= m < 2 ^ 33 -> (m * n) / 2 ^ 32 = ((m - 2 ^ 32) * n) / 2 ^ 32 + n.
Proof. intros Hm. replace (m * n) with ((m - 2 ^ 32) * n + n * 2 ^ 32) by ring. by rewrite Z.div_add. Qed.

Section Unsigned.
Context (d n : Z) (Hd : 0 < d < 2 ^ 32) (Hland : Z.land d (uint32 (d - 1)) <> 0) (Hn : 0 <= n < 2 ^ 32).

Lemma quotient_word m s : magic_ok d 32 m s -> (m * n) / 2 ^ 32 / 2 ^ s = n / d.
Proof. intros [H _ _ _ Hu _]. rewrite Z.div_div by (apply Z.pow_pos_nonneg || done; lia). rewrite <- Z.pow_add_r by lia. by apply Hu. Qed.

(** The overflow-free sum of a word and the high word below it. *)
Lemma halved_sum e s : 0 <= e <= n -> 0 < s -> ((n - e) / 2 + e) / 2 ^ (s - 1) = (e + n) / 2 ^ s.
Proof.
  intros He Hs. replace s with (1 + (s - 1)) at 2 by lia. rewrite Z.pow_add_r by lia. rewrite <- Z.div_div by (apply Z.pow_pos_nonneg || done; lia). f_equal. change (2 ^ 1) with 2. rewrite <- Z.div_add by done. f_equal. lia.
Qed.

Context (mir : MDivMod) (Hu : isUnsigned mir = true) (lhs : Z) (H0 : lhs <> eax) (H2 : lhs <> edx).

(** The code up to the quotient in [edx]. *)
Definition quotient_code (m s : Z) : code :=
  [I_mov_i m eax; I_mull lhs] ++
  (if m >? 2 ^ 32 - 1 then [I_mov lhs eax; I_sub edx eax; I_shr 1 eax; I_add eax edx; I_shr (s - 1) edx] else [I_shr s edx]).

Lemma quotient_exec m s : magic_ok d 32 m s -> forall k whole c st, get st lhs = n -> exists st', exec (7 + k) whole (quotient_code m s ++ c) st = exec (if m >? 2 ^ 32 - 1 then k else 4 + k) whole c st' /\
  get st' lhs = n /\ get st' edx = n / d.
Proof.
  intros Hm k whole c st Hlhs. pose proof (quotient_word m s Hm) as Hq. destruct Hm as [Hs Hr Hns Hsh _ _]. unfold quotient_code. destruct (Z.gtb_spec m (2 ^ 32 - 1)) as [Hbig|Hsmall]; cbn [app].
  - assert (Hs0 : 0 < s) by (destruct (Z.eq_dec s 0) as [E|]; [specialize (Hns E); lia|lia]). change (2 ^ (32 + 1)) with (2 ^ 33) in Hr. rewrite high_word in Hq by lia. change (7 + k)%nat with (S (S (S (S (S (S (S k))))))).
    step. step. rewrite Hlhs. replace (uint32 m) with (m - 2 ^ 32) by (unfold uint32; apply (Z.mod_unique_pos _ _ 1); lia). set (e := ((m - 2 ^ 32) * n) / 2 ^ 32) in *.
    assert (He : 0 <= e <= n) by (unfold e; split; [apply Z.div_pos; [apply Z.mul_nonneg_nonneg; lia|done]|apply Z.div_le_upper_bound; [done|apply Z.mul_le_mono_nonneg_r; lia]]).
    rewrite Z.shiftr_div_pow2 by lia. fold e. rewrite (uint32_small e) by lia. step. step. step. step. step. rewrite Hlhs. eexists. split; [reflexivity|]. regs. split; [done|].
    unfold sub_result, add_result. rewrite !Z.shiftr_div_pow2 by lia. change (2 ^ 1) with 2. rewrite (uint32_small (n - e)) by lia. assert (Hhalf : 0 <= (n - e) / 2 <= n - e) by (split; [apply Z.div_pos; lia|apply Z.div_le_upper_bound; lia]).
    rewrite (uint32_small (_ + _)) by lia. rewrite (Z.add_comm e). by rewrite halved_sum.
  - change (7 + k)%nat with (S (S (S (4 + k)))). step. step. step. rewrite Hlhs. eexists. split; [reflexivity|]. regs. split; [done|]. rewrite (uint32_small m) by lia.
    assert (He : 0 <= (m * n) / 2 ^ 32 < 2 ^ 32) by (split; [apply Z.div_pos; [apply Z.mul_nonneg_nonneg; lia|done]|apply Z.div_lt_upper_bound; [done|]; apply Z.mul_lt_mono_nonneg; lia]).
    rewrite (Z.shiftr_div_pow2 _ 32), (uint32_small ((m * n) / 2 ^ 32)), Z.shiftr_div_pow2 by lia. exact Hq.
Qed.

(** The quotient times the divisor, and what is left. *)
Lemma remainder_word : uint32 (n - uint32 (n / d * d)) = n mod d /\ uint32 (n / d * d) = n / d * d /\ 0 <= n / d * d <= n.
Proof.
  pose proof (Z.div_mod n d ltac:(lia)) as E. pose proof (Z.mod_pos_bound n d ltac:(lia)) as Hm. assert (Hq : 0 <= n / d) by (apply Z.div_pos; lia). assert (0 <= n / d * d) by (apply Z.mul_nonneg_nonneg; lia).
  rewrite (uint32_small (n / d * d)) by lia. split; [rewrite uint32_small; lia|lia].
Qed.

Lemma unsigned_fallible : fallible mir = negb (isTruncated mir).
Proof. unfold fallible. rewrite Hu. destruct (isDiv mir); [done|]. cbn [orb]. by rewrite andb_true_r. Qed.

Lemma unsigned_results : division_result mir n d = (if isDiv mir then n / d else n mod d) /\ trap_of mir n d = None /\
  representable mir n d = (if isDiv mir then (n mod d =? 0) else (n mod d <? 2 ^ 31)).
Proof.
  unfold division_result, trap_of, representable. rewrite Hu. replace (d =? 0) with false by lia. cbn [negb andb]. rewrite andb_false_r, Z.quot_div_nonneg, Z.rem_mod_nonneg by lia. replace (d <? 0) with false by lia. replace (n <? 0) with false by lia. rewrite andb_false_r. cbn [andb negb].
  assert (d <> 1) by (intros ->; done). assert (Hq : n / d < 2 ^ 31) by (apply Z.div_lt_upper_bound; lia). replace (n / d <? 2 ^ 31) with true by lia. rewrite !andb_true_r. split_and!; [done|by destruct (trapOnError mir)|done].
Qed.

Lemma unsigned_constant : exists c, visitUDivOrModConstant mir lhs (if isDiv mir then edx else eax) d = mret c /\
  forall st, get st lhs = n -> outcome_ok mir n d (if isDiv mir then edx else eax) (run_code (assemble_code c []) st).
Proof.
  destruct (constants_ok d 32 ltac:(lia) Hd Hland) as (m & s & Em & Hm). pose proof (quotient_exec m s Hm) as Hex. destruct Hm as [Hs Hr Hns Hsh _ _]. pose proof unsigned_fallible as Hf. destruct unsigned_results as (Eres & Etrap & Erep). destruct remainder_word as (Rw & Mw & Mb).
  assert (Hcode : exists tail, visitUDivOrModConstant mir lhs (if isDiv mir then edx else eax) d = mret (quotient_code m s ++ tail) /\
    tail = if isDiv mir then if isTruncated mir then [] else [I_imul_i d edx eax; I_cmp lhs eax; I_bailout (Some NotEqual)]
           else [I_imul_i d edx edx; I_mov lhs eax; I_sub edx eax] ++ if isTruncated mir then [] else [I_bailout (Some Signed)]).
  { eexists. split; [|reflexivity]. unfold visitUDivOrModConstant, bailoutIf, quotient_code, shrl. rewrite Hf, Em. replace (lhs =? eax) with false by lia. replace (lhs =? edx) with false by lia. replace (d =? 0) with false by lia. replace (Z.land d (uint32 (d - 1)) =? 0) with false by lia.
    assert (Hout : (((if isDiv mir then edx else eax) =? eax) || ((if isDiv mir then edx else eax) =? edx)) = true) by (by destruct (isDiv mir)). rewrite Hout. cbn [negb andb]. change (moz_assert true) with (mret tt : M unit). rewrite !bind_ret. cbn [multiplier shiftAmount]. change (1 <? 32) with true. destruct (Z.gtb_spec m (2 ^ 32 - 1)) as [Hbig|Hsmall].
    - assert (0 < s) by (destruct (Z.eq_dec s 0) as [E|]; [specialize (Hns E); lia|lia]). replace (s >? 0) with true by lia. change (2 ^ (32 + 1)) with (2 ^ 33) in Hr. replace (m <? 2 ^ 33) with true by lia. replace (s - 1 <? 32) with true by lia. destruct (isDiv mir), (isTruncated mir); reflexivity.
    - replace (s <? 32) with true by lia. destruct (isDiv mir), (isTruncated mir); reflexivity. }
  destruct Hcode as (tail & Ec & Et). rewrite Ec. eexists. split; [done|]. intros st Hst. unfold run_code, assemble_code. rewrite <- app_assoc. set (whole := quotient_code m s ++ tail ++ [I_end]).
  destruct (Hex 53%nat whole (tail ++ [I_end]) st Hst) as (st' & E & Gl & Ge). change (7 + 53)%nat with 60%nat in E. change (exec 60 whole whole st) with (exec 60 whole (quotient_code m s ++ tail ++ [I_end]) st). rewrite E. clear E Hex Ec. clearbody whole.
  assert (Hrun : forall k, outcome_ok mir n d (if isDiv mir then edx else eax) (exec (10 + k) whole (tail ++ [I_end]) st')).
  { intros k. change (10 + k)%nat with (S (S (S (S (S (5 + k)))))). subst tail. destruct (isDiv mir) eqn:Ediv, (isTruncated mir) eqn:Etr; cbn [app].
    - step. split; [done|]. split; [|congruence]. rewrite Ge, Eres, uint32_small; [done|]. split; [apply Z.div_pos; lia|]. apply Z.div_lt_upper_bound; lia.
    - step. step. rewrite Ge, Gl, Mw. assert (Hne : (n / d * d =? n) = (n mod d =? 0)) by (pose proof (Z.div_mod n d ltac:(lia)); lia).
      erewrite exec_bailout by reflexivity. regs. cbn [holds fl_zero]. unfold sub_result. rewrite uint32_zero by lia. replace (n - n / d * d =? 0) with (n mod d =? 0) by lia. destruct (n mod d =? 0) eqn:Er; cbn [negb]; [|by split].
      step. split; [done|]. regs. split; [|by left]. rewrite Ge, Eres, uint32_small; [done|]. split; [apply Z.div_pos; lia|]. apply Z.div_lt_upper_bound; lia.
    - step. step. step. step. split; [done|]. regs. rewrite Ge, Gl, Eres. unfold sub_result. rewrite Rw. split; [|congruence]. symmetry. apply uint32_small. pose proof (Z.mod_pos_bound n d). lia.
    - step. step. step. rewrite Ge, Gl. erewrite exec_bailout by reflexivity. regs. cbn [holds fl_sign]. unfold sub_result. rewrite Rw. pose proof (Z.mod_pos_bound n d ltac:(lia)) as Hm'. 
      assert (Hsg : (int32 (n mod d) <? 0) = negb (n mod d <? 2 ^ 31)). { unfold int32. destruct (Z.lt_ge_cases (n mod d) (2 ^ 31)); [rewrite Z.mod_small by lia; lia|]. rewrite <- (Z.mod_unique_pos (n mod d + 2 ^ 31) (2 ^ 32) 1 (n mod d - 2 ^ 31)) by lia. lia. }
      rewrite Hsg. destruct (n mod d <? 2 ^ 31) eqn:Er; cbn [negb]; [|by split]. step. split; [done|]. regs. split; [|by left]. rewrite Eres. symmetry. apply uint32_small. lia. }
  destruct (m >? 2 ^ 32 - 1); [exact (Hrun 43%nat)|exact (Hrun 47%nat)].
Qed.
End Unsigned.

(** A divisor of zero. *)
Lemma unsigned_zero mir n lhs : isUnsigned mir = true -> lhs <> eax -> lhs <> edx -> (trapOnError mir = true -> isTruncated mir = true) ->
  exists c, visitUDivOrModConstant mir lhs (if isDiv mir then edx else eax) 0 = mret c /\
  forall st, get st lhs = n -> outcome_ok mir n 0 (if isDiv mir then edx else eax) (run_code (assemble_code c []) st).
Proof.
  intros Hu H0 H2 Ht. unfold visitUDivOrModConstant, bailout. rewrite unsigned_fallible by done. replace (lhs =? eax) with false by lia. replace (lhs =? edx) with false by lia.
  assert (Hout : (((if isDiv mir then edx else eax) =? eax) || ((if isDiv mir then edx else eax) =? edx)) = true) by (by destruct (isDiv mir)). rewrite Hout. cbn [negb andb Z.eqb]. change (moz_assert true) with (mret tt : M unit). rewrite !bind_ret.
  destruct (isTruncated mir) eqn:Etr; [destruct (trapOnError mir) eqn:Etp|]; (eexists; split; [reflexivity|]); intros st _; unfold run_code, assemble_code, outcome_ok, trap_of, representable, division_result; cbn [app exec execute]; rewrite ?Etr, ?Etp; cbn.
  - done.
  - split; [done|]. split; [|done]. by rewrite Z.eqb_refl, Z.lxor_nilpotent.
  - done.
Qed.

(** * Signed *)

Section Signed.
Context (d n : Z) (Hd : - 2 ^ 31 <= d < 2 ^ 31) (Hd0 : d <> 0) (Hland : Z.land (Z.abs d) (uint32 (Z.abs d - 1)) <> 0) (Hn : - 2 ^ 31 <= n < 2 ^ 31).
Context (mir : MDivMod) (Hu : isUnsigned mir = false) (Hneg : mir_canBeNegativeDividend mir = false -> 0 <= n) (lhs : Z) (H0 : lhs <> eax) (H2 : lhs <> edx).

#[local] Abbreviation nd := (mir_canBeNegativeDividend mir).

Lemma divisor_range : 3 <= Z.abs d < 2 ^ 31.
Proof.
  assert (Z.abs d <> 2 ^ 31) by (intros E; apply Hland; by rewrite E). assert (Z.abs d <> 1) by (intros E; apply Hland; by rewrite E). assert (Z.abs d <> 2) by (intros E; apply Hland; by rewrite E). lia.
Qed.

Lemma quot_abs_divisor : Z.quot n d = if d <? 0 then - Z.quot n (Z.abs d) else Z.quot n (Z.abs d).
Proof. destruct (Z.ltb_spec d 0); [rewrite (Z.abs_neq d) by lia; rewrite Z.quot_opp_r by done; lia|by rewrite Z.abs_eq]. Qed.

Definition signed_code (m s : Z) : code :=
  [I_mov_i m eax; I_imull lhs] ++ (if m >? 2 ^ 31 - 1 then [I_add lhs edx] else []) ++ [I_sar s edx] ++
  (if nd then [I_mov lhs eax; I_sar 31 eax; I_sub eax edx] else []) ++ (if d <? 0 then [I_neg edx] else []).

Definition high_code (m s : Z) : code := [I_mov_i m eax; I_imull lhs] ++ (if m >? 2 ^ 31 - 1 then [I_add lhs edx] else []) ++ [I_sar s edx].

(** The high word of the product, shifted. *)
Lemma high_exec m s : magic_ok (Z.abs d) 31 m s -> forall k whole c st, get st lhs = uint32 n -> exists st', exec (4 + k) whole (high_code m s ++ c) st = exec (if m >? 2 ^ 31 - 1 then k else 1 + k) whole c st' /\
  get st' lhs = uint32 n /\ get st' edx = uint32 ((m * n) / 2 ^ (32 + s)).
Proof.
  intros [Hs Hr _ _ _ _] k whole c st Hlhs. change (2 ^ (31 + 1)) with (2 ^ 32) in Hr. unfold high_code. set (h := (m * n) / 2 ^ 32).
  assert (Hh : - 2 ^ 31 <= h < 2 ^ 31).
  { unfold h. split; [apply Z.div_le_lower_bound; [done|]|apply Z.div_lt_upper_bound; [done|]].
    - assert (m * (- 2 ^ 31) <= m * n) by (apply Z.mul_le_mono_nonneg_l; lia). lia.
    - destruct (Z.le_gt_cases n 0); [assert (m * n <= 0) by (apply Z.mul_nonneg_nonpos; lia); lia|]. assert (m * n <= 2 ^ 32 * n) by (apply Z.mul_le_mono_nonneg_r; lia). lia. }
  assert (Eh : uint32 (Z.shiftr h s) = uint32 ((m * n) / 2 ^ (32 + s))).
  { rewrite Z.shiftr_div_pow2 by lia. unfold h. rewrite Z.div_div by (apply Z.pow_pos_nonneg || done; lia). by rewrite <- Z.pow_add_r by lia. }
  destruct (Z.gtb_spec m (2 ^ 31 - 1)) as [Hbig|Hsmall]; cbn [app].
  - change (4 + k)%nat with (S (S (S (S k)))). step. step. step. step. rewrite Hlhs. eexists. split; [reflexivity|]. regs. split; [done|].
    rewrite (int32_of n Hn), int32_uint32. assert (Em : int32 m = m - 2 ^ 32) by (unfold int32; rewrite <- (Z.mod_unique_pos (m + 2 ^ 31) (2 ^ 32) 1 (m - 2 ^ 31)) by lia; lia). rewrite Em, (Z.shiftr_div_pow2 _ 32) by lia.
    rewrite uint32_add. replace (((m - 2 ^ 32) * n) / 2 ^ 32 + n) with h; [by rewrite int32_of|]. unfold h. replace (m * n) with ((m - 2 ^ 32) * n + n * 2 ^ 32) by ring. by rewrite Z.div_add.
  - change (4 + k)%nat with (S (S (S (1 + k)))). step. step. step. rewrite Hlhs. eexists. split; [reflexivity|]. regs. split; [done|].
    rewrite (int32_of n Hn), (int32_of m), (Z.shiftr_div_pow2 _ 32) by lia. fold h. by rewrite int32_of.
Qed.

Lemma quotient_of m s : magic_ok (Z.abs d) 31 m s -> (m * n) / 2 ^ (32 + s) = Z.quot n (Z.abs d) - (if n <? 0 then 1 else 0).
Proof.
  intros [_ _ _ _ Hup Hdown]. destruct (Z.ltb_spec n 0); [rewrite Hdown by lia; lia|]. rewrite Hup by lia. pose proof divisor_range. rewrite Z.quot_div_nonneg by lia. lia.
Qed.

Lemma signed_exec m s : magic_ok (Z.abs d) 31 m s -> forall k whole c st, get st lhs = uint32 n -> exists st' j, exec (8 + k) whole (signed_code m s ++ c) st = exec (j + k) whole c st' /\
  get st' lhs = uint32 n /\ get st' edx = uint32 (Z.quot n d).
Proof.
  intros Hm k whole c st Hlhs. destruct (high_exec m s Hm (4 + k) whole ((if nd then [I_mov lhs eax; I_sar 31 eax; I_sub eax edx] else []) ++ (if d <? 0 then [I_neg edx] else []) ++ c) st Hlhs) as (st1 & E1 & G1 & G2). rewrite (quotient_of m s Hm) in G2.
  assert (Ecode : signed_code m s ++ c = high_code m s ++ (if nd then [I_mov lhs eax; I_sar 31 eax; I_sub eax edx] else []) ++ (if d <? 0 then [I_neg edx] else []) ++ c) by (unfold signed_code, high_code; by rewrite <- !app_assoc).
  rewrite Ecode. change (8 + k)%nat with (4 + (4 + k))%nat. rewrite E1. clear E1 Ecode.
  assert (Hfix : forall k' c', exists st2 j, exec (3 + k') whole ((if nd then [I_mov lhs eax; I_sar 31 eax; I_sub eax edx] else []) ++ c') st1 = exec (j + k') whole c' st2 /\ get st2 lhs = uint32 n /\ get st2 edx = uint32 (Z.quot n (Z.abs d))).
  { intros k' c'. destruct nd; cbn [app].
    - change (3 + k')%nat with (S (S (S k'))). step. step. step. exists (put (put (put st1 eax (uint32 n) (status st1)) eax (uint32 (Z.shiftr n 31)) None) edx (uint32 (Z.quot n (Z.abs d))) (sub_flags (get st1 edx) (uint32 (Z.shiftr n 31)))), 0%nat. regs. split; [|done].
      rewrite G1, G2, int32_of by done. rewrite uint32_sub. do 3 f_equal. rewrite Z.shiftr_div_pow2 by lia. destruct (Z.ltb_spec n 0); [rewrite <- (Z.div_unique_pos n (2 ^ 31) (-1) (n + 2 ^ 31)) by lia; lia|rewrite Z.div_small by lia; lia].
    - exists st1, 3%nat. split; [done|]. split; [done|]. rewrite G2. specialize (Hneg eq_refl). replace (n <? 0) with false by lia. by rewrite Z.sub_0_r. }
  assert (Hk : exists k', (if m >? 2 ^ 31 - 1 then 4 + k else 1 + (4 + k))%nat = (3 + (1 + k'))%nat /\ exists j, k' = (j + k)%nat) by (destruct (m >? 2 ^ 31 - 1); [exists k; split; [done|by exists 0%nat]|exists (1 + k)%nat; split; [done|by exists 1%nat]]).
  destruct Hk as (k' & -> & j0 & ->). destruct (Hfix (1 + (j0 + k))%nat ((if d <? 0 then [I_neg edx] else []) ++ c)) as (st2 & j & E2 & G3 & G4). rewrite E2. rewrite quot_abs_divisor. destruct (d <? 0); cbn [app].
  - replace (j + (1 + (j0 + k)))%nat with (S (j + (j0 + k)))%nat by lia. step. eexists _, (j + j0)%nat. split; [f_equal; lia|]. regs. split; [done|]. rewrite G4. unfold sub_result, uint32. by rewrite Zminus_mod_idemp_r.
  - exists st2, (j + (1 + j0))%nat. split; [f_equal; lia|]. done.
Qed.

Lemma signed_quotient : Z.abs (Z.quot n d) < 2 ^ 31 /\ n = Z.quot n d * d + Z.rem n d /\ - 2 ^ 31 <= Z.quot n d * d < 2 ^ 31 /\ - 2 ^ 31 <= Z.rem n d < 2 ^ 31 /\ (0 <= n -> 0 <= Z.rem n d).
Proof.
  pose proof divisor_range as Hr. pose proof (Z.quot_rem n d Hd0) as E. pose proof (Z.rem_bound_abs n d Hd0) as Hb. pose proof (Z.rem_sign_mul n d Hd0) as Hs.
  assert (Hq : Z.abs (Z.quot n d) = Z.abs n / Z.abs d) by (rewrite <- Z.quot_abs by done; by rewrite Z.quot_div_nonneg by lia).
  assert (Z.abs n / Z.abs d < 2 ^ 31) by (apply Z.div_lt_upper_bound; lia).
  assert (Hsg : 0 <= n -> 0 <= Z.rem n d) by (intros Hn0; destruct (Z.eq_dec n 0) as [->|]; [by rewrite Z.rem_0_l|]; apply Z.rem_nonneg; lia).
  assert (Hsg' : n <= 0 -> Z.rem n d <= 0) by (intros Hn0; apply Z.rem_nonpos; lia).
  assert (Hab : Z.abs (Z.rem n d) <= Z.abs n) by (rewrite <- Z.rem_abs by done; rewrite Z.rem_mod_nonneg by lia; apply Z.mod_le; lia).
  split_and!; lia.
Qed.

Lemma signed_results : division_result mir n d = (if isDiv mir then Z.quot n d else Z.rem n d) /\ trap_of mir n d = None /\
  representable mir n d = (if isDiv mir then (Z.rem n d =? 0) && negb ((n =? 0) && (d <? 0)) else negb ((n <? 0) && (Z.rem n d =? 0))).
Proof.
  destruct signed_quotient as (Hq & _ & _ & Hrem & _). unfold division_result, trap_of, representable. replace (d =? 0) with false by lia. replace (Z.quot n d <? 2 ^ 31) with true by lia. replace (Z.rem n d <? 2 ^ 31) with true by lia. replace (Z.quot n d =? 2 ^ 31) with false by lia. rewrite !andb_false_r, !andb_true_r. cbn [negb andb]. split_and!; [done|by destruct (trapOnError mir)|done].
Qed.

Definition signed_tail : code :=
  if isDiv mir then if isTruncated mir then [] else [I_imul_i d edx eax; I_cmp lhs eax; I_bailout (Some NotEqual)] ++ (if d <? 0 then [I_test lhs lhs; I_bailout (Some Zero)] else [])
  else [I_imul_i (- d) edx eax; I_add lhs eax] ++ (if negb (isTruncated mir) && nd then [I_cmp_i lhs 0; I_j GreaterThanOrEqual l_done; I_test eax eax; I_bailout (Some Zero); I_bind l_done] else []).

Lemma signed_emitted m s : magic_ok (Z.abs d) 31 m s -> computeDivisionConstants (Z.abs d) 31 = mret (MkReciprocal m s) ->
  visitDivOrModConstantI mir lhs (if isDiv mir then edx else eax) d = mret (signed_code m s ++ signed_tail).
Proof.
  intros [Hs Hr _ Hsh _ _] Em. unfold visitDivOrModConstantI, bailoutIf, signed_code, signed_tail, sarl, canBeNegativeDividend, fallible. rewrite Em, Hu. replace (lhs =? eax) with false by lia. replace (lhs =? edx) with false by lia. replace (Z.land (Z.abs d) (uint32 (Z.abs d - 1)) =? 0) with false by lia.
  assert (Hout : (((if isDiv mir then edx else eax) =? eax) || ((if isDiv mir then edx else eax) =? edx)) = true) by (by destruct (isDiv mir)). rewrite Hout. cbn [negb andb]. change (moz_assert true) with (mret tt : M unit). rewrite !bind_ret. cbn [multiplier shiftAmount]. change (31 <? 32) with true.
  change (2 ^ (31 + 1)) with (2 ^ 32) in Hr. replace (m <? 2 ^ 32) with true by lia. replace (s <? 32) with true by lia.
  destruct (m >? 2 ^ 31 - 1), nd, (d <? 0), (isDiv mir), (isTruncated mir); cbn [negb andb orb]; rewrite ?orb_true_r; reflexivity.
Qed.

Lemma after_app l a b : after l a = None -> after l (a ++ b) = after l b.
Proof. induction a as [|i a IH]; [done|]. destruct i; cbn [after app]; try exact IH. by case_decide. Qed.

Lemma signed_code_labels l m s : after l (signed_code m s) = None.
Proof. unfold signed_code. by destruct (m >? 2 ^ 31 - 1), nd, (d <? 0). Qed.

Lemma signed_division : isDiv mir = true -> forall k whole st, get st lhs = uint32 n -> get st edx = uint32 (Z.quot n d) -> outcome_ok mir n d edx (exec (10 + k) whole (signed_tail ++ [I_end]) st).
Proof.
  intros Ediv k whole st Gl Ge. destruct signed_quotient as (Hq & Eq & Hqd & Hrem & _). destruct signed_results as (Eres & Etrap & Erep). unfold signed_tail. rewrite Ediv in *. change (10 + k)%nat with (S (S (S (S (S (S (4 + k))))))). destruct (isTruncated mir) eqn:Etr; cbn [app].
  - step. split; [done|]. split; [by rewrite Ge, Eres|congruence].
  - destruct (flags_compare n (Z.quot n d * d) Hn Hqd) as (f & Ef & Ez & _). step. step. rewrite Gl, Ge, uint32_mul, Ef. step. cbn [holds]. rewrite Ez. replace (n =? Z.quot n d * d) with (Z.rem n d =? 0) by lia.
    destruct (Z.rem n d =? 0) eqn:Er; cbn [negb]; [|by split]. destruct (Z.ltb_spec d 0); cbn [app].
    + step. rewrite Gl, flags_test by done. step. cbn [holds fl_zero]. cbn [andb] in Erep. rewrite andb_true_r in Erep. destruct (n =? 0); [by split|]. step. split; [done|]. regs. split; [by rewrite Ge, Eres|by left].
    + step. split; [done|]. regs. split; [by rewrite Ge, Eres|]. left. by rewrite Erep, andb_false_r.
Qed.

Lemma signed_remainder : isDiv mir = false -> forall k whole st, after l_done whole = after l_done (signed_tail ++ [I_end]) -> get st lhs = uint32 n -> get st edx = uint32 (Z.quot n d) -> outcome_ok mir n d eax (exec (10 + k) whole (signed_tail ++ [I_end]) st).
Proof.
  intros Ediv k whole st Ea Gl Ge. destruct signed_quotient as (Hq & Eq & Hqd & Hrem & Hpos). destruct signed_results as (Eres & Etrap & Erep). unfold signed_tail in *. rewrite Ediv in *. change (10 + k)%nat with (S (S (S (S (S (S (S (S (2 + k))))))))). 
  assert (Er : add_result (uint32 (uint32 (Z.quot n d) * - d)) (uint32 n) = uint32 (Z.rem n d)) by (rewrite uint32_mul, uint32_add; f_equal; lia).
  cbn [app] in *. step. step. rewrite Gl, Ge, Er.
  destruct (negb (isTruncated mir) && nd) eqn:Ec; cbn [app] in *.
  - apply andb_prop in Ec as [Etr _]. destruct (flags_compare n 0 Hn ltac:(lia)) as (f & Ef & _ & Elt). change (uint32 0) with 0 in Ef. step. change (uint32 0) with 0. rewrite Gl, Ef. erewrite exec_j by first [exact Ea|(regs; reflexivity)]. cbn [holds]. rewrite Elt. destruct (n <? 0) eqn:En; cbn [negb].
    + step. rewrite flags_test by done. step. cbn [holds fl_zero]. cbn [andb] in Erep. destruct (Z.rem n d =? 0) eqn:Ez; [split; [by destruct (isTruncated mir)|done]|]. step. step. split; [done|]. regs. split; [by rewrite Eres|by left].
    + step. split; [done|]. regs. split; [by rewrite Eres|by left].
  - step. split; [done|]. regs. split; [by rewrite Eres|]. intros Etr. rewrite Etr in Ec. left. rewrite Erep. specialize (Hneg Ec). by replace (n <? 0) with false by lia.
Qed.

Lemma signed_constant : exists c, visitDivOrModConstantI mir lhs (if isDiv mir then edx else eax) d = mret c /\
  forall st, get st lhs = uint32 n -> outcome_ok mir n d (if isDiv mir then edx else eax) (run_code (assemble_code c []) st).
Proof.
  pose proof divisor_range as Hr. destruct (constants_ok (Z.abs d) 31 ltac:(lia) ltac:(lia) Hland) as (m & s & Em & Hm). exists (signed_code m s ++ signed_tail). split; [by apply signed_emitted|]. intros st Hst.
  unfold run_code, assemble_code. rewrite <- app_assoc. set (whole := signed_code m s ++ signed_tail ++ [I_end]). assert (Ea : after l_done whole = after l_done (signed_tail ++ [I_end])) by apply after_app, signed_code_labels.
  destruct (signed_exec m s Hm 52%nat whole (signed_tail ++ [I_end]) st Hst) as (st' & j & E & Gl & Ge). change (exec 60 whole whole st) with (exec (8 + 52) whole (signed_code m s ++ signed_tail ++ [I_end]) st). rewrite E. replace (j + 52)%nat with (10 + (j + 42))%nat by lia.
  destruct (isDiv mir) eqn:Ediv; [by apply signed_division|by apply signed_remainder].
Qed.
End Signed.
