(* ===== verification/JitPowerTwo.v ===== *)
(** The code of a division by a power of two, or by its opposite, computes the
    division. *)
From S2P Require Import Prelude Words CheckedArithmetic BigIntRep BigIntMul JitCode JitDivision JitMagic JitExec JitConstant.

(** * Powers of two *)

Lemma power_range sh : 0 <= sh <= 31 -> 1 <= 2 ^ sh <= 2 ^ 31.
Proof. intros H. split; [pose proof (Z.pow_pos_nonneg 2 sh); lia|apply Z.pow_le_mono_r; lia]. Qed.

(** Truncation is a floor, once the dividend is adjusted. *)
Lemma quot_power n sh : 0 <= sh -> Z.quot n (2 ^ sh) = (n + (if n <? 0 then 2 ^ sh - 1 else 0)) / 2 ^ sh.
Proof.
  intros Hs. pose proof (Z.pow_pos_nonneg 2 sh ltac:(lia) Hs) as Hp. destruct (Z.ltb_spec n 0).
  - pose proof (Z.div_mod (- n) (2 ^ sh) ltac:(lia)) as E. pose proof (Z.mod_pos_bound (- n) (2 ^ sh) Hp) as Hm. replace n with (- - n) at 1 by lia. rewrite Z.quot_opp_l, Z.quot_div_nonneg by lia.
    apply (Z.div_unique_pos _ _ _ (2 ^ sh - 1 - (- n) mod 2 ^ sh)); lia.
  - rewrite Z.add_0_r. apply Z.quot_div_nonneg; lia.
Qed.

Lemma rem_power n sh : 0 <= sh -> Z.rem n (2 ^ sh) = (if n <? 0 then - ((- n) mod 2 ^ sh) else n mod 2 ^ sh).
Proof.
  intros Hs. pose proof (Z.pow_pos_nonneg 2 sh ltac:(lia) Hs) as Hp. destruct (Z.ltb_spec n 0).
  - replace n with (- - n) at 1 by lia. rewrite Z.rem_opp_l, Z.rem_mod_nonneg by lia. done.
  - apply Z.rem_mod_nonneg; lia.
Qed.

Lemma rem_power_zero n sh : 0 <= sh -> (Z.rem n (2 ^ sh) =? 0) = (n mod 2 ^ sh =? 0).
Proof.
  intros Hs. pose proof (Z.pow_pos_nonneg 2 sh ltac:(lia) Hs) as Hp. rewrite rem_power by done. destruct (n <? 0); [|done].
  destruct (Z.eq_dec (n mod 2 ^ sh) 0) as [E|E]; [rewrite (Z_mod_zero_opp_full _ _ E), E; done|rewrite (Z_mod_nz_opp_full _ _ E); pose proof (Z.mod_pos_bound n (2 ^ sh) Hp); lia].
Qed.

(** The low bits of a word. *)
Lemma land_low_word v sh : 0 <= sh <= 31 -> Z.land (uint32 v) (uint32 (2 ^ sh - 1)) = v mod 2 ^ sh.
Proof.
  intros H. pose proof (power_range sh H). rewrite (uint32_small (2 ^ sh - 1)) by lia. replace (2 ^ sh - 1) with (Z.ones sh) by (rewrite Z.ones_equiv; lia). rewrite Z.land_ones by lia. unfold uint32.
  apply Z.mod_mod_divide. exists (2 ^ (32 - sh)). rewrite <- Z.pow_add_r by lia. f_equal. lia.
Qed.

Lemma high_mask sh : 1 <= sh <= 31 -> shr_w 32 (2 ^ 32 - 1) (32 - sh) = mret (2 ^ sh - 1).
Proof.
  intros H. unfold shr_w. replace ((0 <=? 32 - sh) && (32 - sh <? 32)) with true by lia. do 2 f_equal. rewrite Z.shiftr_div_pow2 by lia. assert (E : 2 ^ 32 = 2 ^ sh * 2 ^ (32 - sh)) by (rewrite <- Z.pow_add_r by lia; f_equal; lia).
  assert (0 < 2 ^ (32 - sh)) by (apply Z.pow_pos_nonneg; lia). symmetry. apply (Z.div_unique_pos _ _ _ (2 ^ (32 - sh) - 1)); [lia|]. rewrite E. ring.
Qed.

Lemma low_mask_eq sh : 0 <= sh <= 31 -> low_mask sh = mret (2 ^ sh - 1).
Proof.
  intros H. pose proof (power_range sh H). unfold low_mask, shl_w. replace ((0 <=? sh) && (sh <? 32)) with true by lia. rewrite bind_ret, Z.shiftl_mul_pow2, Z.mul_1_l by lia. rewrite (Z.mod_small (2 ^ sh)) by lia. by rewrite uint32_small by lia.
Qed.

(** * Divisions *)

Section PowerOfTwo.
Context (sh : Z) (Hsh : 0 <= sh <= 31) (neg : bool) (n : Z).
Context (mir : MDivMod) (Hn : in_range (isUnsigned mir) n) (Hneg : mir_canBeNegativeDividend mir = false -> isUnsigned mir = false -> 0 <= n) (Hun : isUnsigned mir = true -> neg = false).
Context (Htop : isUnsigned mir = false -> neg = false -> sh <= 30).

#[local] Abbreviation nd := (mir_canBeNegativeDividend mir).
#[local] Abbreviation tr := (isTruncated mir).
#[local] Abbreviation d := (if neg then - 2 ^ sh else 2 ^ sh).

Lemma power_quot : Z.quot n d = if neg then - Z.quot n (2 ^ sh) else Z.quot n (2 ^ sh).
Proof. pose proof (power_range sh Hsh). destruct neg; [|done]. by rewrite Z.quot_opp_r by lia. Qed.

Lemma power_rem : Z.rem n d = Z.rem n (2 ^ sh).
Proof. pose proof (power_range sh Hsh). destruct neg; [|done]. by rewrite Z.rem_opp_r by lia. Qed.

Lemma power_divisor : (d =? 0) = false /\ (d <? 0) = neg.
Proof. pose proof (power_range sh Hsh). destruct neg; lia. Qed.

Context (lhs copy : Z) (Hdiv : isDiv mir = true) (Htrap : trapOnError mir = true -> tr = true) (Hcopy : isUnsigned mir = false -> nd && tr = true -> copy <> lhs).

Definition round_code : code := if nd && tr then (if sh >? 1 then [I_sar 31 lhs] else []) ++ [I_shr (32 - sh) lhs; I_add copy lhs] else [].

Definition shift_code : code := if isUnsigned mir then [I_shr sh lhs] else round_code ++ [I_sar sh lhs] ++ (if neg then [I_neg lhs] else []).

Definition negate_code : code :=
  if neg then I_neg lhs :: (if negb tr then [I_bailout (Some Overflow)] else if trapOnError mir then [I_j NoOverflow l_ok; I_trap IntegerOverflow; I_bind l_ok] else [])
  else if isUnsigned mir && negb tr then [I_test lhs lhs; I_bailout (Some Signed)] else [].

Definition power_code : code :=
  (if negb tr && neg then [I_test lhs lhs; I_bailout (Some Zero)] else []) ++
  (if sh =? 0 then negate_code else (if negb tr then [I_test_i lhs (2 ^ sh - 1); I_bailout (Some NonZero)] else []) ++ shift_code).

Lemma power_emitted : visitDivPowTwoI mir lhs copy sh neg = mret power_code.
Proof.
  unfold visitDivPowTwoI, power_code, negate_code, shift_code, round_code, bailoutIf, sarl, shrl, canBeNegativeDividend, fallible. rewrite Hdiv. change (31 <? 32) with true.
  destruct (Z.eqb_spec sh 0) as [E|E]; cbn [negb].
  - destruct tr, neg, (isUnsigned mir), (trapOnError mir); reflexivity.
  - rewrite (high_mask sh ltac:(lia)). replace (sh <? 32) with true by lia. replace (32 - sh <? 32) with true by lia. destruct (isUnsigned mir) eqn:Eu; [|specialize (Hcopy eq_refl)].
    + destruct tr, neg; reflexivity.
    + destruct nd, tr; cbn [andb negb] in *; try (replace (copy =? lhs) with false by (specialize (Hcopy eq_refl); lia)); destruct (sh >? 1), neg; reflexivity.
Qed.

(** ** Execution *)

Lemma power_results : division_result mir n d = Z.quot n d /\ representable mir n d = (n mod 2 ^ sh =? 0) && negb ((n =? 0) && neg) && (Z.quot n d <? 2 ^ 31) /\
  trap_of mir n d = (if trapOnError mir && negb (isUnsigned mir) && (Z.quot n d =? 2 ^ 31) then Some IntegerOverflow else None).
Proof.
  destruct power_divisor as [Ez Eneg]. unfold division_result, representable, trap_of. rewrite Hdiv, Ez, Eneg, power_rem, rem_power_zero by lia. cbn [negb andb]. split_and!; [done|done|]. by destruct (trapOnError mir).
Qed.

(** Shifts of at least one bit do not overflow. *)
Lemma shifted_range : sh <> 0 -> in_range (isUnsigned mir) n -> Z.quot n d < 2 ^ 31.
Proof.
  intros Hs Hr. rewrite power_quot. pose proof (quot_power n sh ltac:(lia)) as Eq. assert (Hp : 2 <= 2 ^ sh) by (change 2 with (2 ^ 1) at 1; apply Z.pow_le_mono_r; lia). unfold in_range in Hr. destruct (isUnsigned mir).
  - rewrite (Hun eq_refl), Eq. replace (n <? 0) with false by lia. rewrite Z.add_0_r. apply Z.div_lt_upper_bound; lia.
  - assert (Z.abs (Z.quot n (2 ^ sh)) <= 2 ^ 30); [|destruct neg; lia]. rewrite <- Z.quot_abs, (Z.abs_eq (2 ^ sh)), Z.quot_div_nonneg by lia. apply Z.div_le_upper_bound; lia.
Qed.

Lemma round_exec st : isUnsigned mir = false -> sh <> 0 -> (tr = true \/ n mod 2 ^ sh = 0) -> get st lhs = uint32 n -> (nd && tr = true -> get st copy = uint32 n) ->
  exists n' , - 2 ^ 31 <= n' < 2 ^ 31 /\ n' / 2 ^ sh = Z.quot n (2 ^ sh) /\ forall k whole c, exists j st', exec (3 + k) whole (round_code ++ c) st = exec (j + k) whole c st' /\ get st' lhs = uint32 n'.
Proof.
  intros Eu Hs Htr Gl Gc. rewrite quot_power by lia. pose proof (power_range sh Hsh) as Hp. unfold round_code. pose proof Hn as Hr. rewrite Eu in Hr. cbn [in_range] in Hr. destruct (nd && tr) eqn:Ec.
  - specialize (Gc eq_refl). pose proof (Hcopy Eu eq_refl) as Hcp. eexists. split; [|split; [reflexivity|]]; [destruct (Z.ltb_spec n 0); lia|]. intros k whole c.
    assert (Hadj : forall v, v = (if n <? 0 then - 1 else 0) -> uint32 v / 2 ^ (32 - sh) = (if n <? 0 then 2 ^ sh - 1 else 0)).
    { intros v ->. assert (0 < 2 ^ (32 - sh)) by (apply Z.pow_pos_nonneg; lia). assert (E : 2 ^ 32 = 2 ^ sh * 2 ^ (32 - sh)) by (rewrite <- Z.pow_add_r by lia; f_equal; lia). destruct (n <? 0); [|by rewrite Z.div_0_l by lia].
      change (uint32 (-1)) with (2 ^ 32 - 1). symmetry. apply (Z.div_unique_pos _ _ _ (2 ^ (32 - sh) - 1)); [lia|]. rewrite E. ring. }
    destruct (Z.gtb_spec sh 1) as [Hbig|Hone]; cbn [app].
    + exists 0%nat. eexists. change (3 + k)%nat with (S (S (S k))). step. step. step. split; [reflexivity|]. regs. rewrite Gl, Gc, (int32_of n Hr), (Z.shiftr_div_pow2 _ (32 - sh)) by lia.
      rewrite (Hadj (Z.shiftr n 31)).
      * rewrite <- (uint32_small (if n <? 0 then _ else _)) at 1 by (destruct (n <? 0); lia). rewrite uint32_add. f_equal. lia.
      * rewrite Z.shiftr_div_pow2 by lia. destruct (Z.ltb_spec n 0); [symmetry; apply (Z.div_unique_pos n (2 ^ 31) (-1) (n + 2 ^ 31)); lia|apply Z.div_small; lia].
    + assert (sh = 1) as E1 by lia. exists 1%nat. eexists. change (3 + k)%nat with (S (S (1 + k))). step. step. split; [reflexivity|]. regs. rewrite Gl, Gc, E1. change (32 - 1) with 31. rewrite Z.shiftr_div_pow2 by lia. change (2 ^ 1 - 1) with 1.
      assert (Eh : uint32 n / 2 ^ 31 = if n <? 0 then 1 else 0) by (destruct (Z.ltb_spec n 0); [unfold uint32; rewrite <- (Z.mod_unique_pos n (2 ^ 32) (-1) (n + 2 ^ 32)) by lia; symmetry; apply (Z.div_unique_pos _ _ _ (n + 2 ^ 31)); lia|rewrite uint32_small by lia; apply Z.div_small; lia]).
      rewrite Eh. rewrite <- (uint32_small (if n <? 0 then _ else _)) at 1 by (destruct (n <? 0); lia). rewrite uint32_add. f_equal. lia.
  - exists n. split; [exact Hr|]. split; [|intros k whole c; exists 3%nat, st; done]. destruct (Z.ltb_spec n 0) as [Hlt|]; [|by rewrite Z.add_0_r].
    destruct Htr as [Htr|Hm]; [rewrite Htr, andb_true_r in Ec; pose proof (Hneg Ec Eu); lia|]. pose proof (Z.div_mod n (2 ^ sh) ltac:(lia)). apply (Z.div_unique_pos _ _ _ (2 ^ sh - 1)); lia.
Qed.

Lemma shift_exec : forall k whole st, sh <> 0 -> (tr = true \/ n mod 2 ^ sh = 0 /\ (neg = true -> n <> 0)) -> get st lhs = uint32 n -> (isUnsigned mir = false -> nd && tr = true -> get st copy = uint32 n) ->
  outcome_ok mir n d lhs (exec (8 + k) whole (shift_code ++ [I_end]) st).
Proof.
  intros k whole st Hs Htr Gl Gc. destruct power_results as (Eres & Erep & Etrap). pose proof (shifted_range Hs Hn) as Hlt. pose proof power_quot as Hq. pose proof (power_range sh Hsh) as Hp. replace (Z.quot n d =? 2 ^ 31) with false in Etrap by lia. rewrite andb_false_r in Etrap. replace (Z.quot n d <? 2 ^ 31) with true in Erep by lia. rewrite andb_true_r in Erep.
  assert (Hdone : forall st', get st' lhs = uint32 (Z.quot n d) -> outcome_ok mir n d lhs (Finished st')).
  { intros st' G. split; [done|]. split; [by rewrite Eres|]. intros Et. left. rewrite Erep. destruct Htr as [Htr|[-> Hz]]; [congruence|]. destruct neg; [|by rewrite andb_false_r]. specialize (Hz eq_refl). by replace (n =? 0) with false by lia. }
  unfold shift_code. pose proof Hn as Hr. destruct (Sumbool.sumbool_of_bool (isUnsigned mir)) as [Eu|Eu]; rewrite Eu in Hr |- *; cbn [in_range] in *.
  - cbn [app]. change (8 + k)%nat with (S (S (6 + k))). step. step. apply Hdone. regs. rewrite Gl, uint32_small, Z.shiftr_div_pow2, Hq, (Hun Eu), quot_power by lia. replace (n <? 0) with false by lia. rewrite Z.add_0_r. symmetry. apply uint32_small. split; [apply Z.div_pos; lia|apply Z.div_lt_upper_bound; lia].
  - assert (Htr' : tr = true \/ n mod 2 ^ sh = 0) by (destruct Htr as [|[]]; auto). destruct (round_exec st Eu Hs Htr' Gl (Gc Eu)) as (n' & Hn' & En' & Hex). destruct (Hex (5 + k)%nat whole ([I_sar sh lhs] ++ (if neg then [I_neg lhs] else []) ++ [I_end])) as (j & st' & E & G). rewrite <- !app_assoc. change (8 + k)%nat with (3 + (5 + k))%nat. rewrite E. replace (j + (5 + k))%nat with (S (S (S (2 + (j + k))))) by lia. cbn [app].
    step. rewrite G, int32_of, Z.shiftr_div_pow2, En' by lia. destruct neg; cbn [app].
    + step. step. apply Hdone. regs. rewrite Hq. unfold sub_result, uint32. by rewrite Zminus_mod_idemp_r.
    + step. apply Hdone. by regs.
Qed.

Lemma negate_exec : forall k whole st, sh = 0 -> (tr = false -> neg = true -> n <> 0) -> after l_ok whole = after l_ok (negate_code ++ [I_end]) -> get st lhs = uint32 n ->
  outcome_ok mir n d lhs (exec (8 + k) whole (negate_code ++ [I_end]) st).
Proof.
  intros k whole st Es Hz Ea Gl. destruct power_results as (Eres & Erep & Etrap). pose proof Hn as Hr. rewrite Es in *. change (2 ^ 0) with 1 in *. rewrite Z.mod_1_r in Erep. cbn [andb Z.eqb] in Erep.
  change (8 + k)%nat with (S (S (S (S (S (3 + k)))))). unfold negate_code in *. destruct (Sumbool.sumbool_of_bool neg) as [En|En]; rewrite En in Eres, Erep, Etrap, Ea |- *; cbv iota in Eres, Erep, Etrap, Ea |- *; cbn [app] in *.
  - assert (Eu : isUnsigned mir = false) by (destruct (isUnsigned mir) eqn:E; [rewrite Hun in En by done; done|done]). rewrite Eu in *. cbn [in_range negb andb] in *. rewrite Z.quot_opp_r, Z.quot_1_r in Eres, Erep, Etrap by done.
    assert (Eov : is_int32 (int32 0 - int32 (uint32 n)) = negb (- n =? 2 ^ 31)) by (rewrite (int32_of n Hr); change (int32 0) with 0; unfold is_int32; lia).
    assert (Eneg : sub_result 0 (uint32 n) = uint32 (- n)) by (unfold sub_result, uint32; by rewrite Zminus_mod_idemp_r).
    assert (Hdone : forall st', trapOnError mir && (- n =? 2 ^ 31) = false -> (tr = false -> - n < 2 ^ 31) -> get st' lhs = uint32 (- n) -> outcome_ok mir n (- (1)) lhs (Finished st')).
    { intros st' Ht Hlt G. split; [rewrite Etrap, andb_true_r, Ht; done|]. split; [by rewrite Eres|]. intros Et. left. rewrite Erep. specialize (Hz Et En). specialize (Hlt Et). lia. }
    step. rewrite Gl. destruct (Sumbool.sumbool_of_bool tr) as [Et|Et]; rewrite Et in Ea |- *; cbn [negb app] in *.
    + destruct (trapOnError mir); cbn [app andb] in *.
      * unfold sub_flags, result_flags. erewrite exec_j by first [exact Ea|(regs; reflexivity)]. cbn [holds fl_overflow]. rewrite Eov, negb_involutive. destruct (- n =? 2 ^ 31) eqn:E; cbn [negb].
        -- exact Etrap.
        -- step. apply Hdone; [done|congruence|by regs].
      * step. apply Hdone; [done|congruence|by regs].
    + unfold sub_flags, result_flags. step. cbn [holds fl_overflow]. rewrite Eov, negb_involutive. destruct (- n =? 2 ^ 31) eqn:E.
      * split; [done|]. rewrite Erep. lia.
      * step. apply Hdone; [by rewrite andb_false_r|lia|by regs].
  - rewrite Z.quot_1_r in *. rewrite andb_false_r in Erep. cbn [negb andb] in Erep. assert (Etrap' : trap_of mir n 1 = None) by (rewrite Etrap; destruct (isUnsigned mir) eqn:E; [by rewrite andb_false_r|]; cbn [in_range] in Hr; replace (n =? 2 ^ 31) with false by lia; by rewrite andb_false_r).
    destruct (isUnsigned mir && negb tr) eqn:Ec; cbn [app].
    + apply andb_prop in Ec as [Eu Et]. rewrite Eu in Hr. cbn [in_range] in Hr. step. unfold result_flags. step. cbn [holds fl_sign]. rewrite Gl, Z.land_diag, uint32_small by lia.
      assert (Hsg : (int32 n <? 0) = negb (n <? 2 ^ 31)) by (unfold int32; destruct (Z.lt_ge_cases n (2 ^ 31)); [rewrite Z.mod_small by lia; lia|rewrite <- (Z.mod_unique_pos (n + 2 ^ 31) (2 ^ 32) 1 (n - 2 ^ 31)) by lia; lia]).
      rewrite Hsg. destruct (n <? 2 ^ 31) eqn:E; cbn [negb].
      * step. split; [done|]. regs. split; [by rewrite Eres|by left].
      * split; [by destruct tr|done].
    + step. split; [done|]. split; [by rewrite Eres|]. intros Et. rewrite Et in Ec. left. rewrite Erep. destruct (isUnsigned mir); [done|]. cbn [in_range] in Hr. lia.
Qed.

Lemma power_division : forall st, get st lhs = uint32 n -> (isUnsigned mir = false -> nd && tr = true -> get st copy = uint32 n) -> outcome_ok mir n d lhs (run_code (assemble_code power_code []) st).
Proof.
  intros st Gl Gc. destruct power_results as (Eres & Erep & Etrap). unfold run_code, assemble_code, power_code. set (rest := if sh =? 0 then _ else _). rewrite <- app_assoc. set (whole := _ ++ rest ++ [I_end]).
  assert (Hrest : forall k st', (tr = false -> neg = true -> n <> 0) -> get st' lhs = uint32 n -> (isUnsigned mir = false -> nd && tr = true -> get st' copy = uint32 n) -> outcome_ok mir n d lhs (exec (10 + k) whole (rest ++ [I_end]) st')).
  { intros k st' Hz Gl' Gc'. assert (Ea : after l_ok whole = after l_ok (rest ++ [I_end])) by (unfold whole; by destruct (negb tr && neg)). clearbody whole. unfold rest in *. destruct (Z.eqb_spec sh 0) as [Es|Es].
    - change (10 + k)%nat with (8 + (2 + k))%nat. by apply negate_exec.
    - rewrite <- app_assoc. destruct (Sumbool.sumbool_of_bool tr) as [Et|Et]; rewrite Et; cbn [negb app].
      + change (10 + k)%nat with (8 + (2 + k))%nat. apply shift_exec; [done|by left|done|done].
      + change (10 + k)%nat with (S (S (8 + k))). step. rewrite Gl', land_low_word by done. unfold result_flags. step. cbn [holds fl_zero]. destruct (Z.eqb_spec (n mod 2 ^ sh) 0) as [Em|Em]; cbn [negb].
        * apply shift_exec; [done| |done|done]. right. split; [done|]. by apply Hz.
        * split; [done|]. rewrite Erep. by replace (n mod 2 ^ sh =? 0) with false by lia. }
  destruct (Sumbool.sumbool_of_bool (negb tr && neg)) as [Ec|Ec].
  - change (exec 60 whole whole st) with (exec 60 whole ((if negb tr && neg then [I_test lhs lhs; I_bailout (Some Zero)] else []) ++ rest ++ [I_end]) st). clearbody whole rest. rewrite Ec. cbn [app]. apply andb_prop in Ec as [Et En]. change 60%nat with (S (S (10 + 48))). step. rewrite Gl. pose proof Hn as Hr.
    assert (Eu : isUnsigned mir = false) by (destruct (isUnsigned mir) eqn:E; [rewrite Hun in En by done; done|done]). rewrite Eu in Hr. rewrite flags_test by exact Hr. step. cbn [holds fl_zero]. destruct (n =? 0) eqn:E0.
    + split; [by destruct tr|]. rewrite Erep, En. cbn [andb negb]. by rewrite andb_false_r.
    + apply Hrest; [lia|done|done].
  - change (exec 60 whole whole st) with (exec 60 whole ((if negb tr && neg then [I_test lhs lhs; I_bailout (Some Zero)] else []) ++ rest ++ [I_end]) st). clearbody whole rest. rewrite Ec. cbn [app]. change 60%nat with (10 + 50)%nat. apply Hrest; [|done|done]. intros Et En. by rewrite Et, En in Ec.
Qed.
End PowerOfTwo.

(** * Remainders *)

Section RemainderOfPower.
Context (sh : Z) (Hsh : 0 <= sh <= 31) (d n : Z) (Hd : d = 2 ^ sh \/ d = - 2 ^ sh).
Context (mir : MDivMod) (Hmod : isDiv mir = false) (Hn : in_range (isUnsigned mir) n) (lhs : Z).

Definition may_be_negative : bool := negb (isUnsigned mir) && mir_canBeNegativeDividend mir.
Context (Hneg : may_be_negative = false -> 0 <= n).

#[local] Abbreviation mask := (2 ^ sh - 1).

Definition mask_code : code :=
  if may_be_negative then branchTest32 Signed lhs lhs l_negative ++ [I_and_i mask lhs; I_jmp l_done; I_bind l_negative; I_neg lhs; I_and_i mask lhs; I_neg lhs] ++ (if isTruncated mir then [] else [I_bailout (Some Zero)]) ++ [I_bind l_done]
  else [I_and_i mask lhs].

Lemma mask_emitted : visitModPowTwoI mir lhs sh = mret mask_code.
Proof.
  unfold visitModPowTwoI, mask_code, may_be_negative, bailoutIf, canBeNegativeDividend, fallible. rewrite (low_mask_eq sh Hsh), Hmod.
  destruct (isUnsigned mir), (mir_canBeNegativeDividend mir), (isTruncated mir), (mir_canBeDivideByZero mir); reflexivity.
Qed.

Lemma mask_results : division_result mir n d = Z.rem n (2 ^ sh) /\ representable mir n d = negb ((n <? 0) && (Z.rem n (2 ^ sh) =? 0)) /\ trap_of mir n d = None.
Proof.
  pose proof (power_range sh Hsh) as Hp. unfold division_result, representable, trap_of. rewrite Hmod. replace (d =? 0) with false by lia. assert (E : Z.rem n d = Z.rem n (2 ^ sh)) by (destruct Hd as [->| ->]; [done|by rewrite Z.rem_opp_r by lia]).
  rewrite E. cbn [negb andb]. split_and!; [done| |by destruct (trapOnError mir)]. replace (Z.rem n (2 ^ sh) <? 2 ^ 31) with true; [by rewrite andb_true_r|]. pose proof (Z.rem_bound_abs n (2 ^ sh) ltac:(lia)). lia.
Qed.

Lemma power_remainder : forall st, get st lhs = uint32 n -> outcome_ok mir n d lhs (run_code (assemble_code mask_code []) st).
Proof.
  intros st Gl. destruct mask_results as (Eres & Erep & Etrap). rewrite rem_power in Eres, Erep by lia. pose proof (power_range sh Hsh) as Hp. unfold run_code, assemble_code. set (whole := mask_code ++ [I_end]).
  assert (Hdone : forall v st', get st' lhs = uint32 v -> division_result mir n d = v -> (isTruncated mir = false -> representable mir n d = true) -> outcome_ok mir n d lhs (Finished st')) by (intros v st' G E H; split; [done|]; split; [by rewrite G, E|]; intros Et; left; auto).
  assert (Hmodulus : forall v, v mod 2 ^ sh = uint32 (v mod 2 ^ sh)) by (intros v; symmetry; apply uint32_small; pose proof (Z.mod_pos_bound v (2 ^ sh) ltac:(lia)); lia).
  assert (Hopp : forall v, sub_result 0 (uint32 v) = uint32 (- v)) by (intros v; unfold sub_result, uint32; by rewrite Zminus_mod_idemp_r).
  destruct (Sumbool.sumbool_of_bool may_be_negative) as [Em|Em]; change (exec 60 whole whole st) with (exec 60 whole (mask_code ++ [I_end]) st); unfold whole, mask_code; rewrite Em; cbn [app branchTest32].
  - assert (Hr : - 2 ^ 31 <= n < 2 ^ 31) by (unfold may_be_negative in Em; destruct (isUnsigned mir); [done|exact Hn]). step. rewrite Gl, flags_test by done. step. cbn [holds fl_sign]. destruct (n <? 0) eqn:En; cbn [andb] in *.
    + step. rewrite Gl, Hopp. step. rewrite land_low_word by done. rewrite Hmodulus. step. rewrite Hopp. destruct (isTruncated mir) eqn:Et; cbn [app].
      * step. step. eapply Hdone; [by regs|done|congruence].
      * unfold sub_flags, result_flags. step. cbn [holds fl_zero]. rewrite Hopp, uint32_zero by (pose proof (Z.mod_pos_bound (- n) (2 ^ sh) ltac:(lia)); lia). destruct (- ((- n) mod 2 ^ sh) =? 0) eqn:E0; [by split|].
        step. step. eapply Hdone; [by regs|done|]. intros _. by rewrite Erep.
    + step. rewrite Gl, land_low_word by done. destruct (isTruncated mir); cbn [app]; step; step; (eapply Hdone; [regs; apply Hmodulus|done|intros _; by rewrite Erep]).
  - specialize (Hneg Em). replace (n <? 0) with false in * by lia. step. rewrite Gl, land_low_word by done. step. eapply Hdone; [regs; apply Hmodulus|done|]. intros _. by rewrite Erep.
Qed.
End RemainderOfPower.
