(* ===== verification/JitRegister.v ===== *)
(** The code of a division by a register computes the division. *)
From S2P Require Import Prelude Words CheckedArithmetic BigIntRep BigIntMul JitCode JitDivision JitMagic JitExec JitConstant JitPowerTwo.

(** * Rules of execution

    From the code [c] of [whole], any [m] steps or more lead to an outcome that
    satisfies [P]. *)
Section Rules.
Context (P : outcome -> Prop) (whole : code).

Definition runs (m : nat) (c : code) (st : state) : Prop := forall f, (m <= f)%nat -> P (exec f whole c st).

Lemma runs_more m m' c st : runs m c st -> (m <= m')%nat -> runs m' c st.
Proof. intros H Hm f Hf. apply H. lia. Qed.

Lemma runs_end m c st : P (Finished st) -> runs (S m) (I_end :: c) st.
Proof. intros H f Hf. destruct f; [lia|]. exact H. Qed.

Lemma runs_plain m i c st st' : match i with I_j _ _ | I_jmp _ | I_bind _ | I_bailout _ | I_trap _ | I_end => False | _ => True end ->
  execute i st = Some st' -> runs m c st' -> runs (S m) (i :: c) st.
Proof. intros Hi E H f Hf. destruct f; [lia|]. rewrite exec_plain, E by done. apply H. lia. Qed.

Lemma runs_bind m l c st : runs m c st -> runs (S m) (I_bind l :: c) st.
Proof. intros H f Hf. destruct f; [lia|]. rewrite exec_bind. apply H. lia. Qed.

Lemma runs_jmp m l c c' st : after l whole = Some c' -> runs m c' st -> runs (S m) (I_jmp l :: c) st.
Proof. intros E H f Hf. destruct f; [lia|]. rewrite (exec_jmp _ _ _ _ _ _ E). apply H. lia. Qed.

Lemma runs_j m cond l c c' st fl : status st = Some fl -> after l whole = Some c' -> (holds cond fl = true -> runs m c' st) -> (holds cond fl = false -> runs m c st) -> runs (S m) (I_j cond l :: c) st.
Proof. intros Es E H1 H2 f Hf. destruct f; [lia|]. rewrite (exec_j _ _ _ _ _ _ _ _ Es E). destruct (holds cond fl); [apply H1|apply H2]; done || lia. Qed.

Lemma runs_bailout m cond c st fl : status st = Some fl -> (holds cond fl = true -> P BailedOut) -> (holds cond fl = false -> runs m c st) -> runs (S m) (I_bailout (Some cond) :: c) st.
Proof. intros Es H1 H2 f Hf. destruct f; [lia|]. rewrite (exec_bailout _ _ _ _ _ _ Es). destruct (holds cond fl); [by apply H1|apply H2; done || lia]. Qed.

Lemma runs_trap m t c st : P (Trapped t) -> runs (S m) (I_trap t :: c) st.
Proof. intros H f Hf. destruct f; [lia|]. exact H. Qed.
End Rules.

(** One straight instruction. *)
Ltac plain_step := eapply runs_plain; [exact I|cbn [execute]; reflexivity|].

Lemma after_hit l a b r : after l a = Some r -> after l (a ++ b) = Some (r ++ b).
Proof. revert r. induction a as [|i a IH]; [done|]. intros r. destruct i; cbn [after app]; try exact (IH r). case_decide; [congruence|exact (IH r)]. Qed.

(** * The operands of a division *)

Section Register.
Context (mir : MDivMod) (n d lhs rhs out : Z) (Hops : operands_ok mir n d).
Context (Hlhs : lhs <> edx) (Hrhs : rhs <> edx) (Heax : lhs <> rhs -> rhs <> eax) (Hout : out = if isDiv mir then eax else edx).
Context (whole : code).

#[local] Abbreviation tr := (isTruncated mir).
#[local] Abbreviation ok := (runs (outcome_ok mir n d out) whole).

Record holding (st : state) : Prop := {
  hold_eax : get st eax = uint32 n;
  hold_lhs : get st lhs = uint32 n;
  hold_rhs : get st rhs = uint32 d;
}.

Definition move_code : code := if not_same lhs eax then [I_mov lhs eax] else [].

Lemma move_ok m c st : get st lhs = uint32 n -> get st rhs = uint32 d -> (forall st', holding st' -> ok m c st') -> ok (1 + m) (move_code ++ c) st.
Proof.
  intros Gl Gr H. unfold move_code, not_same. destruct (Z.eqb_spec lhs eax) as [E|E]; cbn [negb app].
  - eapply runs_more; [apply H|lia]. constructor; [by rewrite <- E|done|done].
  - plain_step. apply H. constructor; by regs.
Qed.

(** Only [edx] or the flags may change. *)
Lemma holding_edx st v f : holding st -> holding (put st edx v f).
Proof. intros [H1 H2 H3]. by constructor; rewrite get_other by (done || congruence). Qed.
Lemma holding_flags st f : holding st -> holding (set_flags st f).
Proof. by intros [H1 H2 H3]. Qed.

(** A word is zero when the number is. *)
Lemma test_zero v : in_range (isUnsigned mir) v -> exists f, result_flags (Z.land (uint32 v) (uint32 v)) false = Some f /\ fl_zero f = (v =? 0).
Proof. intros Hv. rewrite Z.land_diag. unfold result_flags. eexists. split; [done|]. cbn. apply uint32_zero. unfold in_range in Hv. destruct (isUnsigned mir); lia. Qed.

(** ** Divisors of zero *)

Definition returns_zero : bool := mir_canBeDivideByZero mir && tr && negb (trapOnError mir).

Definition zero_code : code :=
  if mir_canBeDivideByZero mir then I_test rhs rhs :: (if tr then if trapOnError mir then trap_unless_nonzero else [I_j Zero l_entry] else [I_bailout (Some Zero)]) else [].

Lemma zero_ok m c st : (trapOnError mir = true -> after l_nonZero whole = after l_nonZero (zero_code ++ c)) ->
  (returns_zero = true -> exists r r', after l_entry whole = Some (mov_zero out ++ I_jmp l_rejoin :: r) /\ after l_rejoin whole = Some (I_end :: r')) ->
  holding st -> (d <> 0 -> forall st', holding st' -> ok m c st') -> ok (6 + m) (zero_code ++ c) st.
Proof.
  intros Hn Hz Hst H. pose proof (ok_nonzero _ _ _ Hops) as Hd0. unfold returns_zero, zero_code in *. destruct (mir_canBeDivideByZero mir); cbn [app]; [|eapply runs_more; [by apply H; [apply Hd0|]|lia]]. clear Hd0.
  destruct (test_zero d (ok_divisor _ _ _ Hops)) as (f & Ef & Ez). pose proof (ok_trap _ _ _ Hops) as Htrap. change (6 + m)%nat with (S (5 + m)). plain_step. rewrite !(hold_rhs _ Hst), Ef. destruct tr eqn:Et; cbn [app andb] in *; [destruct (trapOnError mir) eqn:Etp; cbn [app andb negb] in *|].
  - change (5 + m)%nat with (S (S (3 + m))). eapply runs_j; [reflexivity|by apply Hn|cbn [holds]; rewrite Ez; intros E|cbn [holds]; rewrite Ez; intros E].
    + eapply runs_more; [apply H; [lia|by apply holding_flags]|lia].
    + apply runs_trap. unfold outcome_ok, trap_of. rewrite Etp. replace (d =? 0) with true by lia. done.
  - destruct (Hz eq_refl) as (r & r' & E1 & E2). change (5 + m)%nat with (S (S (S (S (1 + m))))). eapply runs_j; [reflexivity|exact E1|cbn [holds]; rewrite Ez; intros E|cbn [holds]; rewrite Ez; intros E].
    + cbn [mov_zero app]. plain_step. eapply runs_jmp; [exact E2|]. eapply runs_end. unfold outcome_ok, trap_of, division_result. rewrite Etp, E. cbn [negb]. split; [done|]. split; [|congruence]. rewrite get_same. apply Z.lxor_nilpotent.
    + eapply runs_more; [apply H; [lia|by apply holding_flags]|lia].
  - change (5 + m)%nat with (S (4 + m)). eapply runs_bailout; [reflexivity|cbn [holds]; rewrite Ez; intros E|cbn [holds]; rewrite Ez; intros E].
    + unfold outcome_ok, representable. by rewrite E.
    + eapply runs_more; [apply H; [lia|by apply holding_flags]|lia].
Qed.

(** ** Signed divisions *)

Definition finish_code (ool : code) : code := (if returns_zero then [I_bind l_rejoin] else []) ++ I_end :: ool.

Lemma finish_ok m r st : outcome_ok mir n d out (Finished st) -> ok (2 + m) (finish_code r) st.
Proof. intros H. unfold finish_code. destruct returns_zero; cbn [app]; [apply runs_bind|]; by apply runs_end. Qed.

Section Signed.
Context (Hu : isUnsigned mir = false).

Lemma signed_operands : - 2 ^ 31 <= n < 2 ^ 31 /\ - 2 ^ 31 <= d < 2 ^ 31.
Proof. destruct Hops as [H1 H2 _ _ _ _ _]. by rewrite Hu in H1, H2. Qed.

(** The quotient and the remainder are words, with one exception. *)
Lemma signed_bounds : d <> 0 -> ~ (n = - 2 ^ 31 /\ d = -1) -> - 2 ^ 31 <= Z.quot n d < 2 ^ 31 /\ - 2 ^ 31 <= Z.rem n d < 2 ^ 31.
Proof.
  intros Hd Hov. destruct signed_operands as [Hn Hr]. pose proof (Z.quot_rem n d Hd) as E. pose proof (Z.rem_bound_abs n d Hd) as Hb. split; [|lia].
  assert (Hq : Z.abs (Z.quot n d) = Z.abs n / Z.abs d) by (rewrite <- Z.quot_abs by done; by rewrite Z.quot_div_nonneg by lia). destruct (Z.eq_dec (Z.abs d) 1) as [E1|E1].
  - rewrite E1, Z.div_1_r in Hq. destruct (Z.eq_dec d 1) as [->|]; [rewrite Z.quot_1_r; lia|]. assert (d = -1) as -> by lia. change (-1) with (- (1)). rewrite Z.quot_opp_r, Z.quot_1_r by done. lia.
  - assert (Z.abs n / Z.abs d < 2 ^ 31) by (apply Z.div_lt_upper_bound; lia). lia.
Qed.

Lemma divide_word m c st : holding st -> d <> 0 -> ~ (n = - 2 ^ 31 /\ d = -1) -> dividend st = n ->
  (forall st', get st' lhs = uint32 n \/ lhs = eax -> get st' eax = uint32 (Z.quot n d) -> get st' edx = uint32 (Z.rem n d) -> ok m c st') -> ok (1 + m) (I_idiv rhs :: c) st.
Proof.
  intros Hst Hd Hov En H. destruct (signed_bounds Hd Hov) as [Hq Hr]. destruct signed_operands as [_ Hdr]. eapply runs_plain; [exact I| |].
  - cbn [execute]. rewrite (hold_rhs _ Hst), (int32_of d Hdr), En. replace (d =? 0) with false by lia. replace (is_int32 (Z.quot n d)) with true by (unfold is_int32; lia). cbn [negb andb]. reflexivity.
  - apply H; [|by regs|by regs]. destruct (Z.eq_dec lhs eax); [by right|left]. regs. apply (hold_lhs _ Hst).
Qed.

Lemma divide_ok m c st : holding st -> d <> 0 -> ~ (n = - 2 ^ 31 /\ d = -1) ->
  (forall st', get st' eax = uint32 (Z.quot n d) -> get st' edx = uint32 (Z.rem n d) -> ok m c st') -> ok (2 + m) (I_cdq :: I_idiv rhs :: c) st.
Proof.
  intros Hst Hd Hov H. destruct signed_operands as [Hn _]. change (2 + m)%nat with (S (1 + m)). plain_step. apply divide_word; [by apply holding_edx|done|done| |intros; by apply H].
  unfold dividend. rewrite get_same, get_other by done. rewrite (hold_eax _ Hst), (int32_of n Hn). destruct (Z.ltb_spec n 0).
  - change (int32 (2 ^ 32 - 1)) with (-1). unfold uint32. rewrite <- (Z.mod_unique_pos n (2 ^ 32) (-1) (n + 2 ^ 32)) by lia. lia.
  - change (int32 0) with 0. rewrite uint32_small by lia. lia.
Qed.

(** ** The node MDiv *)

Section Quotients.
Context (Hdiv : isDiv mir = true).

Definition overflow_code : code :=
  if mir_canBeNegativeOverflow mir then
    [I_cmp_i lhs (- 2 ^ 31); I_j NotEqual l_notOverflow; I_cmp_i rhs (-1)] ++
    (if trapOnError mir then [I_j NotEqual l_notOverflow; I_trap IntegerOverflow] else if canTruncateOverflow mir then [I_j Equal l_done] else [I_bailout (Some Equal)]) ++ [I_bind l_notOverflow]
  else [].

Definition negative_zero_code : code :=
  if negb (canTruncateNegativeZero mir) && mir_canBeNegativeZero mir then [I_test lhs lhs; I_j NonZero l_nonzero; I_cmp_i rhs 0; I_bailout (Some LessThan); I_bind l_nonzero] else [].

Definition inexact_code : code := if tr then [] else [I_test edx edx; I_bailout (Some NonZero)].

Lemma overflow_ok m c r st : (mir_canBeNegativeOverflow mir = true -> after l_notOverflow whole = Some c) -> after l_done whole = Some (finish_code r) -> holding st -> d <> 0 ->
  (~ (n = - 2 ^ 31 /\ d = -1) -> forall st', holding st' -> ok m c st') -> ok (8 + m) (overflow_code ++ c) st.
Proof.
  intros Hl Hdone Hst Hd H. pose proof (ok_overflow _ _ _ Hops) as Hov. pose proof (ok_trap _ _ _ Hops) as Htrap. unfold overflow_code in *. destruct (mir_canBeNegativeOverflow mir); cbn [app]; [|eapply runs_more; [by apply H; [apply Hov|]|lia]]. clear Hov.
  specialize (Hl eq_refl). destruct signed_operands as [Hn Hr]. destruct (flags_compare n (- 2 ^ 31) Hn ltac:(lia)) as (f & Ef & Ez & _). destruct (flags_compare d (-1) Hr ltac:(lia)) as (g & Eg & Ez' & _).
  assert (Hplain : ~ (n = - 2 ^ 31 /\ d = -1) -> forall k st', holding st' -> (m <= k)%nat -> ok k c st') by (intros Hno k st' Hst' Hk; eapply runs_more; [by apply H|done]).
  assert (Hsome : n = - 2 ^ 31 -> d = -1 -> trap_of mir n d = (if trapOnError mir then Some IntegerOverflow else None) /\ representable mir n d = false /\ uint32 (division_result mir n d) = uint32 n /\ Z.rem n d = 0) by (intros -> ->; unfold trap_of, representable, division_result; rewrite Hdiv, Hu; by destruct (trapOnError mir)).
  change (8 + m)%nat with (S (S (S (5 + m)))). plain_step. rewrite (hold_lhs _ Hst), Ef. eapply runs_j; [reflexivity|exact Hl|cbn [holds]; rewrite Ez; intros E|cbn [holds]; rewrite Ez; intros E].
  { apply Hplain; [lia|by apply holding_flags|lia]. }
  plain_step. rewrite get_flags, (hold_rhs _ Hst), Eg. destruct (trapOnError mir) eqn:Et; cbn [app]; [|destruct (canTruncateOverflow mir) eqn:Ec; cbn [app]].
  - change (5 + m)%nat with (S (S (3 + m))). eapply runs_j; [reflexivity|exact Hl|cbn [holds]; rewrite Ez'; intros E'|cbn [holds]; rewrite Ez'; intros E']; [apply Hplain; [lia|by apply holding_flags, holding_flags|lia]|].
    apply runs_trap. apply Hsome; lia.
  - change (5 + m)%nat with (S (2 + S (1 + m))). eapply runs_j; [reflexivity|exact Hdone|cbn [holds]; rewrite Ez'; intros E'|cbn [holds]; rewrite Ez'; intros E'].
    + destruct Hsome as (E1 & E2 & E3 & E4); [lia|lia|]. apply finish_ok. split; [done|]. rewrite Hout, Hdiv, E3. split; [apply (hold_eax _ Hst)|]. intros Etr. right. unfold canTruncateOverflow in Ec. rewrite Etr in Ec. auto.
    + apply runs_bind. apply Hplain; [lia|by apply holding_flags, holding_flags|lia].
  - change (5 + m)%nat with (S (S (3 + m))). eapply runs_bailout; [reflexivity|cbn [holds]; rewrite Ez'; intros E'|cbn [holds]; rewrite Ez'; intros E'].
    + unfold canTruncateOverflow in Ec. split; [by destruct tr|]. apply Hsome; lia.
    + apply runs_bind. apply Hplain; [lia|by apply holding_flags, holding_flags|lia].
Qed.

Lemma negative_zero_ok m c st : (negb (canTruncateNegativeZero mir) && mir_canBeNegativeZero mir = true -> after l_nonzero whole = Some c) -> holding st ->
  ((canTruncateNegativeZero mir = false -> ~ (n = 0 /\ d < 0)) -> forall st', holding st' -> ok m c st') -> ok (5 + m) (negative_zero_code ++ c) st.
Proof.
  intros Hl Hst H. unfold negative_zero_code. destruct (negb (canTruncateNegativeZero mir) && mir_canBeNegativeZero mir) eqn:Ec; cbn [app].
  - specialize (Hl eq_refl). destruct signed_operands as [Hn Hr]. destruct (flags_compare d 0 Hr ltac:(lia)) as (g & Eg & _ & Elt). change (5 + m)%nat with (S (S (S (2 + m)))). plain_step. rewrite (hold_lhs _ Hst), (flags_test n Hn). eapply runs_j; [reflexivity|exact Hl|cbn [holds fl_zero]; intros E|cbn [holds fl_zero]; intros E].
    { eapply runs_more; [apply H; [lia|by apply holding_flags]|lia]. }
    plain_step. rewrite get_flags, (hold_rhs _ Hst), Eg. eapply runs_bailout; [reflexivity|cbn [holds]; rewrite Elt; intros E'|cbn [holds]; rewrite Elt; intros E'].
    + apply andb_prop in Ec as [Ec _]. unfold canTruncateNegativeZero in Ec. split; [by destruct tr|]. unfold representable. rewrite Hdiv. replace ((n =? 0) && (d <? 0)) with true by lia. cbn [negb]. by rewrite andb_false_r, andb_false_r.
    + apply runs_bind. eapply runs_more; [apply H; [lia|by do 2 apply holding_flags]|lia].
  - eapply runs_more; [apply H; [|done]|lia]. intros Et. rewrite Et in Ec. cbn [negb andb] in Ec. by apply (ok_negative_zero _ _ _ Hops).
Qed.

Lemma inexact_ok m r st : d <> 0 -> ~ (n = - 2 ^ 31 /\ d = -1) -> (canTruncateNegativeZero mir = false -> ~ (n = 0 /\ d < 0)) -> get st eax = uint32 (Z.quot n d) -> get st edx = uint32 (Z.rem n d) ->
  ok (5 + m) (inexact_code ++ I_bind l_done :: finish_code r) st.
Proof.
  intros Hd Hov Hnz G1 G2. destruct (signed_bounds Hd Hov) as [Hq Hr].
  assert (Et : trap_of mir n d = None) by (unfold trap_of; rewrite Hdiv, Hu; replace (d =? 0) with false by lia; replace (Z.quot n d =? 2 ^ 31) with false by lia; by destruct (trapOnError mir)).
  assert (Hfin : forall st', (tr = false -> Z.rem n d = 0) -> get st' eax = uint32 (Z.quot n d) -> outcome_ok mir n d out (Finished st')).
  { intros st' Hrem G. split; [done|]. split; [unfold division_result; rewrite Hout, Hdiv; by replace (d =? 0) with false by lia|]. intros Etr. specialize (Hrem Etr). unfold canTruncateNegativeZero in Hnz. rewrite Etr in Hnz. destruct (isTruncatedIndirectly mir); [by right|left].
    specialize (Hnz eq_refl). unfold representable. rewrite Hdiv. lia. }
  unfold inexact_code. destruct tr eqn:Etr; cbn [app].
  - eapply runs_more; [apply runs_bind, (finish_ok 0); apply Hfin; done|lia].
  - change (5 + m)%nat with (S (S (S (2 + m)))). plain_step. rewrite G2, (flags_test _ Hr). eapply runs_bailout; [reflexivity|cbn [holds fl_zero]; intros E|cbn [holds fl_zero]; intros E].
    + split; [done|]. unfold representable. rewrite Hdiv. replace (Z.rem n d =? 0) with false by lia. cbn [andb]. by rewrite andb_false_r.
    + apply runs_bind, finish_ok, Hfin; [lia|done].
Qed.
End Quotients.

(** ** The node MMod *)

Section Remainders.
Context (Hmod : isDiv mir = false).

#[local] Abbreviation nd := (mir_canBeNegativeDividend mir).

Definition done_code (r : code) : code := (if nd then [I_bind l_overflow_done] else []) ++ finish_code r.

Lemma done_ok m r st : outcome_ok mir n d out (Finished st) -> ok (3 + m) (done_code r) st.
Proof. intros H. unfold done_code. destruct nd; cbn [app]; [apply runs_bind, finish_ok, H|eapply runs_more; [by apply (finish_ok 0)|lia]]. Qed.

Lemma remainder_results : d <> 0 -> division_result mir n d = Z.rem n d /\ trap_of mir n d = None /\ representable mir n d = negb ((n <? 0) && (Z.rem n d =? 0)).
Proof.
  intros Hd. destruct signed_operands as [Hn Hr]. pose proof (Z.rem_bound_abs n d Hd). unfold division_result, trap_of, representable. rewrite Hmod. replace (d =? 0) with false by lia. replace (Z.rem n d <? 2 ^ 31) with true by lia. rewrite andb_true_r. split_and!; [done|by destruct (trapOnError mir)|done].
Qed.

Lemma remainder_finished st : d <> 0 -> (tr = false -> n < 0 -> Z.rem n d <> 0) -> get st edx = uint32 (Z.rem n d) -> outcome_ok mir n d out (Finished st).
Proof.
  intros Hd Hz G. destruct (remainder_results Hd) as (E1 & E2 & E3). split; [done|]. split; [by rewrite Hout, Hmod, E1|]. intros Et. left. rewrite E3. specialize (Hz Et). lia.
Qed.

Definition sign_code : code := if nd then [I_test lhs lhs; I_j Signed l_negative] else [].

Lemma sign_ok m c c' st : (nd = true -> after l_negative whole = Some c') -> holding st -> (0 <= n -> forall st', holding st' -> ok m c st') -> (nd = true -> n < 0 -> forall st', holding st' -> ok m c' st') -> ok (2 + m) (sign_code ++ c) st.
Proof.
  intros Hl Hst H H'. pose proof (ok_dividend _ _ _ Hops Hu) as Hnn. unfold sign_code. destruct nd; cbn [app]; [|eapply runs_more; [by apply H; [apply Hnn|]|lia]]. destruct signed_operands as [Hn _]. change (2 + m)%nat with (S (S m)). plain_step. rewrite (hold_lhs _ Hst), (flags_test n Hn).
  eapply runs_j; [reflexivity|by apply Hl|cbn [holds fl_sign]; intros E|cbn [holds fl_sign]; intros E]; [apply H'; [done|lia|by apply holding_flags]|apply H; [lia|by apply holding_flags]].
Qed.

Definition power_divisor_code : code :=
  if mir_canBePowerOfTwoDivisor mir then [I_mov rhs edx; I_sub_i 1 edx; I_test edx rhs; I_j NonZero l_notPowerOfTwo; I_and lhs edx; I_jmp l_done; I_bind l_notPowerOfTwo] else [].

(** A word that shares no bit with its predecessor is a power of two. *)
Lemma land_pred D : 0 < D < 2 ^ 32 -> Z.land (D - 1) D = 0 -> exists k, 0 <= k <= 31 /\ D = 2 ^ k.
Proof.
  intros HD H. pose proof (Z.log2_spec D ltac:(lia)) as Hl. pose proof (Z.log2_nonneg D) as H0. exists (Z.log2 D). split; [split; [done|]; assert (Z.log2 D < 32) by (apply Z.log2_lt_pow2; lia); lia|].
  destruct (Z.eq_dec D (2 ^ Z.log2 D)) as [|Hne]; [done|exfalso]. assert (El : Z.log2 (D - 1) = Z.log2 D) by (apply Z.log2_unique; lia).
  assert (Hb : Z.testbit (Z.land (D - 1) D) (Z.log2 D) = true) by (rewrite Z.land_spec, <- El at 1; rewrite !Z.bit_log2 by lia; done). rewrite H, Z.bits_0 in Hb. done.
Qed.

(** The mask of such a divisor. *)
Lemma mask_divisor : 0 <= n -> d <> 0 -> Z.land (uint32 (d - 1)) (uint32 d) = 0 -> Z.land (uint32 (d - 1)) (uint32 n) = Z.rem n d.
Proof.
  intros Hn Hd H. destruct signed_operands as [Hnr Hr].
  set (D := uint32 d) in *. assert (HD : 0 < D < 2 ^ 32 /\ D = if d <? 0 then d + 2 ^ 32 else d) by (unfold D, uint32; destruct (Z.ltb_spec d 0); [rewrite <- (Z.mod_unique_pos d (2 ^ 32) (-1) (d + 2 ^ 32)) by lia; lia|rewrite Z.mod_small by lia; lia]).
  assert (E : uint32 (d - 1) = D - 1) by (destruct HD as [Hp E]; replace (uint32 (d - 1)) with (uint32 (D - 1)) by (apply uint32_eq; destruct (d <? 0); rewrite E; [replace (d + 2 ^ 32 - 1 - (d - 1)) with (1 * 2 ^ 32) by lia; by rewrite Z.mod_mul|by rewrite Z.sub_diag]); apply uint32_small; lia).
  rewrite E in *. destruct HD as [Hp HD]. destruct (land_pred D Hp H) as (k & Hk & Ek). assert (Hrem : Z.rem n d = Z.rem n (2 ^ k)).
  { destruct (Z.ltb_spec d 0); [|by rewrite <- Ek, HD]. assert (k = 31) as -> by (destruct (Z.eq_dec k 31); [done|]; pose proof (Z.pow_le_mono_r 2 k 30 ltac:(lia) ltac:(lia)); lia). replace d with (- 2 ^ 31) by lia. by rewrite Z.rem_opp_r. }
  rewrite Hrem, Z.rem_mod_nonneg, Z.land_comm by lia. rewrite (uint32_small n) by lia. rewrite Ek. replace (2 ^ k - 1) with (Z.ones k) by (rewrite Z.ones_equiv; lia). apply Z.land_ones. lia.
Qed.

Lemma power_ok m c r st : (mir_canBePowerOfTwoDivisor mir = true -> after l_notPowerOfTwo whole = Some c) -> after l_done whole = Some (done_code r) -> holding st -> 0 <= n -> d <> 0 ->
  (forall st', holding st' -> ok m c st') -> ok (9 + m) (power_divisor_code ++ c) st.
Proof.
  intros Hl Hdone Hst Hn Hd H. unfold power_divisor_code. destruct (mir_canBePowerOfTwoDivisor mir); cbn [app]; [|eapply runs_more; [by apply H|lia]]. specialize (Hl eq_refl).
  change (9 + m)%nat with (S (S (S (S (5 + m))))). plain_step. plain_step. plain_step. regs. rewrite (hold_rhs _ Hst). change (uint32 1) with (uint32 (1)). rewrite uint32_sub.
  eapply runs_j; [reflexivity|exact Hl|cbn [holds fl_zero]; intros E|cbn [holds fl_zero]; intros E].
  - eapply runs_more; [apply H; by apply holding_flags, holding_edx, holding_edx|lia].
  - change (5 + m)%nat with (S (S (3 + m))). plain_step. eapply runs_jmp; [exact Hdone|]. apply done_ok, remainder_finished; [done|lia|]. regs. rewrite (hold_lhs _ Hst), mask_divisor by (done || lia).
    symmetry. apply uint32_small. destruct signed_operands as [_ Hr]. pose proof (Z.rem_nonneg n d Hd Hn). pose proof (Z.rem_bound_abs n d Hd). lia.
Qed.

Definition zero_remainder_code : code := if tr then [] else [I_test edx edx; I_bailout (Some Zero)].
Definition rejoin_code (r : code) : code := [I_cdq; I_idiv rhs] ++ zero_remainder_code ++ I_bind l_done :: done_code r.
Definition negative_code (r : code) : code := [I_cmp_i lhs (- 2 ^ 31); I_j Equal l_overflow_entry; I_bind l_overflow_rejoin] ++ rejoin_code r.
Definition positive_code (r : code) : code :=
  mov_zero edx ++ [I_idiv rhs] ++ (if nd then [I_jmp l_done; I_bind l_negative] ++ negative_code r else I_bind l_done :: done_code r).
Definition overflow_check_code : code :=
  I_cmp_i rhs (-1) :: (if tr then [I_j NotEqual l_overflow_rejoin] ++ mov_zero edx ++ [I_jmp l_overflow_done] else [I_bailout (Some Equal); I_jmp l_overflow_rejoin]).

Lemma positive_ok m r st : after l_done whole = Some (done_code r) -> holding st -> 0 <= n -> d <> 0 -> ok (6 + m) (positive_code r) st.
Proof.
  intros Hdone Hst Hn Hd. destruct signed_operands as [Hnr _]. unfold positive_code. cbn [mov_zero app]. change (6 + m)%nat with (S (1 + (4 + m))). plain_step. apply divide_word; [by apply holding_edx|done|lia| |].
  - unfold dividend. rewrite get_same, get_other by done. rewrite Z.lxor_nilpotent, (hold_eax _ Hst), uint32_small by lia. done.
  - intros st' _ _ G. change (4 + m)%nat with (S (3 + m)). destruct nd; cbn [app]; [eapply runs_jmp; [exact Hdone|]|apply runs_bind]; apply done_ok, remainder_finished; done || lia.
Qed.

Lemma rejoin_ok m r st : holding st -> d <> 0 -> ~ (n = - 2 ^ 31 /\ d = -1) -> n < 0 -> ok (8 + m) (rejoin_code r) st.
Proof.
  intros Hst Hd Hov Hn. destruct (signed_bounds Hd Hov) as [_ Hr]. destruct (remainder_results Hd) as (_ & _ & Erep). unfold rejoin_code, zero_remainder_code. change (8 + m)%nat with (2 + (S (S (4 + m))))%nat. apply divide_ok; [done|done|done|]. intros st' _ G. destruct tr eqn:Et; cbn [app].
  - apply runs_bind. change (S (4 + m)) with (3 + (2 + m))%nat. apply done_ok, remainder_finished; [done|congruence|done].
  - plain_step. rewrite G, (flags_test _ Hr). eapply runs_bailout; [reflexivity|cbn [holds fl_zero]; intros E|cbn [holds fl_zero]; intros E].
    + split; [done|]. rewrite Erep. lia.
    + apply runs_bind, done_ok, remainder_finished; [done|lia|by regs].
Qed.

Lemma negative_ok m r rest st : after l_overflow_entry whole = Some (overflow_check_code ++ rest) -> after l_overflow_rejoin whole = Some (rejoin_code r) -> after l_overflow_done whole = Some (finish_code r) ->
  holding st -> d <> 0 -> n < 0 -> ok (14 + m) (negative_code r) st.
Proof.
  intros Hentry Hrejoin Hfinish Hst Hd Hn. destruct signed_operands as [Hnr Hr]. destruct (flags_compare n (- 2 ^ 31) Hnr ltac:(lia)) as (f & Ef & Ez & _). destruct (flags_compare d (-1) Hr ltac:(lia)) as (g & Eg & Ez' & _). destruct (remainder_results Hd) as (_ & _ & Erep).
  unfold negative_code. cbn [app]. change (14 + m)%nat with (S (S (S (S (2 + (8 + m)))))). plain_step. rewrite (hold_lhs _ Hst), Ef. eapply runs_j; [reflexivity|exact Hentry|cbn [holds]; rewrite Ez; intros E|cbn [holds]; rewrite Ez; intros E].
  - unfold overflow_check_code. cbn [app]. plain_step. rewrite get_flags, (hold_rhs _ Hst), Eg. assert (Hrest : d <> -1 -> forall st', holding st' -> ok (1 + (8 + m)) (rejoin_code r) st') by (intros; eapply runs_more; [apply (rejoin_ok 0); done || lia|lia]). 
    assert (Hrem : d = -1 -> Z.rem n d = 0) by (intros ->; change (-1) with (- (1)); by rewrite Z.rem_opp_r, Z.rem_1_r).
    destruct tr eqn:Et; cbn [app mov_zero].
    + eapply runs_j; [reflexivity|exact Hrejoin|cbn [holds]; rewrite Ez'; intros E'|cbn [holds]; rewrite Ez'; intros E'].
      * eapply runs_more; [apply Hrest; [lia|by do 2 apply holding_flags]|lia].
      * plain_step. eapply runs_jmp; [exact Hfinish|]. apply (finish_ok (6 + m)), remainder_finished; [done|congruence|]. rewrite get_same, Z.lxor_nilpotent, Hrem by lia. done.
    + eapply runs_bailout; [reflexivity|cbn [holds]; rewrite Ez'; intros E'|cbn [holds]; rewrite Ez'; intros E'].
      * split; [done|]. rewrite Erep, Hrem by lia. lia.
      * eapply runs_jmp; [exact Hrejoin|]. apply Hrest; [lia|by do 2 apply holding_flags].
  - apply runs_bind. eapply runs_more; [apply (rejoin_ok 0); [by apply holding_flags|done|lia|done]|lia].
Qed.
End Remainders.
End Signed.

(** ** Unsigned divisions *)

Section Unsigned.
Context (Hu : isUnsigned mir = true).

Definition inexact_quotient_code : code := if isDiv mir && negb tr then [I_test edx edx; I_bailout (Some NonZero)] else [].
Definition large_code : code := if tr then [] else [I_test out out; I_bailout (Some Signed)].

Lemma unsigned_register_ok m r st : holding st -> d <> 0 -> ok (8 + m) (mov_zero edx ++ [I_div rhs] ++ inexact_quotient_code ++ large_code ++ finish_code r) st.
Proof.
  intros Hst Hd. assert (Hn : 0 <= n < 2 ^ 32 /\ 0 <= d < 2 ^ 32) by (destruct Hops as [H1 H2 _ _ _ _ _]; by rewrite Hu in H1, H2). pose proof (Z.div_mod n d Hd) as E. pose proof (Z.mod_pos_bound n d ltac:(lia)) as Hm. assert (Hq : 0 <= n / d < 2 ^ 32) by (split; [apply Z.div_pos; lia|apply Z.div_lt_upper_bound; lia]).
  set (res := if isDiv mir then n / d else n mod d). assert (Hres : 0 <= res < 2 ^ 32) by (unfold res; destruct (isDiv mir); lia).
  assert (Eres : division_result mir n d = res /\ trap_of mir n d = None /\ representable mir n d = (if isDiv mir then (n mod d =? 0) else true) && (res <? 2 ^ 31)).
  { unfold division_result, trap_of, representable, res. rewrite Hu, Z.quot_div_nonneg, Z.rem_mod_nonneg by lia. replace (d =? 0) with false by lia. replace (d <? 0) with false by lia. replace (n <? 0) with false by lia. rewrite andb_false_r. cbn [negb andb]. destruct (isDiv mir), (trapOnError mir); rewrite ?andb_false_r, ?andb_true_r; done. }
  destruct Eres as (Eres & Etrap & Erep).
  assert (Hword : forall v, 0 <= v < 2 ^ 32 -> Z.land v v = v /\ (int32 v <? 0) = negb (v <? 2 ^ 31)).
  { intros v Hv. split; [apply Z.land_diag|]. unfold int32. destruct (Z.lt_ge_cases v (2 ^ 31)); [rewrite Z.mod_small by lia; lia|rewrite <- (Z.mod_unique_pos (v + 2 ^ 31) (2 ^ 32) 1 (v - 2 ^ 31)) by lia; lia]. }
  assert (Hfin : forall st', (tr = false -> representable mir n d = true) -> get st' out = res -> outcome_ok mir n d out (Finished st')) by (intros st' Ht G; split; [done|]; split; [by rewrite G, Eres, uint32_small|]; intros Et; left; auto).
  assert (Hlarge : forall k st', (tr = false -> isDiv mir = true -> n mod d = 0) -> get st' out = res -> ok (4 + k) (large_code ++ finish_code r) st').
  { intros k st' Hz G. unfold large_code. destruct tr eqn:Et; cbn [app]; [eapply runs_more; [apply (finish_ok 0), Hfin; [congruence|done]|lia]|]. specialize (Hz eq_refl). change (4 + k)%nat with (S (S (2 + k))). destruct (Hword res Hres) as [Hl Hs]. plain_step. rewrite G, Hl. unfold result_flags.
    eapply runs_bailout; [reflexivity|cbn [holds fl_sign]; rewrite Hs; intros E'|cbn [holds fl_sign]; rewrite Hs; intros E'].
    - split; [done|]. rewrite Erep. replace (res <? 2 ^ 31) with false by lia. by rewrite andb_false_r.
    - apply finish_ok, Hfin; [|done]. intros _. rewrite Erep. destruct (isDiv mir); [specialize (Hz eq_refl)|]; lia. }
  cbn [mov_zero app]. change (8 + m)%nat with (S (S (S (S (4 + m))))). plain_step. eapply runs_plain; [exact I| |].
  { cbn [execute]. unfold unsigned_dividend. rewrite get_same, (get_other st edx eax), (get_other st edx rhs) by (done || congruence). rewrite (hold_rhs _ Hst), (hold_eax _ Hst), Z.lxor_nilpotent, !uint32_small by lia. rewrite Z.mul_0_l, Z.add_0_l. replace (d =? 0) with false by lia. replace (n / d <? 2 ^ 32) with true by lia. cbn [negb andb]. reflexivity. }
  match goal with |- ok _ _ ?st' => assert (G : get st' out = res /\ get st' edx = n mod d) by (rewrite Hout; unfold res; destruct (isDiv mir); by regs); generalize dependent st' end. intros st' [G1 G2]. unfold inexact_quotient_code. destruct (isDiv mir && negb tr) eqn:Ec; cbn [app].
  - apply andb_prop in Ec as [Ediv Etr]. plain_step. rewrite G2. destruct (Hword (n mod d) ltac:(lia)) as [Hl _]. rewrite Hl. unfold result_flags. eapply runs_bailout; [reflexivity|cbn [holds fl_zero]; intros E'|cbn [holds fl_zero]; intros E'].
    + split; [by destruct tr|]. rewrite Erep, Ediv. lia.
    + apply Hlarge; [lia|done].
  - change (S (S (4 + m))) with (4 + (2 + m))%nat. apply Hlarge; [|done]. intros Et Ed. by rewrite Et, Ed in Ec.
Qed.
End Unsigned.
End Register.

(** * The nodes *)

Section Nodes.
Context (mir : MDivMod) (n d lhs rhs : Z) (Hops : operands_ok mir n d).
Context (Hlhs : lhs <> edx) (Hrhs : rhs <> edx) (Heax : lhs <> rhs -> rhs <> eax).

#[local] Abbreviation out := (if isDiv mir then eax else edx).

Definition return_code : code := if returns_zero mir then return_zero out else [].

Lemma registers_apart : (if not_same lhs rhs then not_same rhs eax else true) = true /\ not_same rhs edx = true.
Proof. unfold not_same. destruct (Z.eqb_spec lhs rhs) as [E|E]; cbn [negb]; [|specialize (Heax E)]; lia. Qed.

Definition div_code : code :=
  move_code lhs ++ zero_code mir rhs ++ overflow_code mir lhs rhs ++ negative_zero_code mir lhs rhs ++ move_code lhs ++ I_cdq :: I_idiv rhs :: inexact_code mir ++ I_bind l_done :: finish_code mir return_code.

Lemma div_emitted : isDiv mir = true -> visitDivI mir lhs rhs = mret div_code.
Proof.
  intros Hd. pose proof (ok_trap _ _ _ Hops) as Ht. destruct registers_apart as [E1 E2]. unfold visitDivI, div_code, move_code, zero_code, overflow_code, negative_zero_code, inexact_code, finish_code, return_code, returns_zero, bailoutIf, canTruncateOverflow, canTruncateNegativeZero, fallible. rewrite E1, E2, Hd. clear - Ht.
  destruct (isTruncated mir), (trapOnError mir); try (by specialize (Ht eq_refl)); destruct (isTruncatedIndirectly mir), (mir_canBeDivideByZero mir), (mir_canBeNegativeOverflow mir), (mir_canBeNegativeZero mir), (not_same lhs eax); reflexivity.
Qed.

(** The labels of the code of a division. *)
Lemma div_labels : (trapOnError mir = true -> isTruncated mir = true) ->
  let c1 := negative_zero_code mir lhs rhs ++ move_code lhs ++ I_cdq :: I_idiv rhs :: inexact_code mir ++ I_bind l_done :: finish_code mir return_code in
  (trapOnError mir = true -> after l_nonZero div_code = after l_nonZero (zero_code mir rhs ++ overflow_code mir lhs rhs ++ c1)) /\
  (returns_zero mir = true -> exists r r', after l_entry div_code = Some (mov_zero out ++ I_jmp l_rejoin :: r) /\ after l_rejoin div_code = Some (I_end :: r')) /\
  (mir_canBeNegativeOverflow mir = true -> after l_notOverflow div_code = Some c1) /\ after l_done div_code = Some (finish_code mir return_code) /\
  (negb (canTruncateNegativeZero mir) && mir_canBeNegativeZero mir = true -> after l_nonzero div_code = Some (move_code lhs ++ I_cdq :: I_idiv rhs :: inexact_code mir ++ I_bind l_done :: finish_code mir return_code)).
Proof.
  unfold div_code, move_code, zero_code, overflow_code, negative_zero_code, inexact_code, finish_code, return_code, returns_zero, canTruncateOverflow, canTruncateNegativeZero. intros Ht. cbv zeta.
  destruct (isTruncated mir), (trapOnError mir); try (by specialize (Ht eq_refl)); clear Ht; destruct (isTruncatedIndirectly mir), (mir_canBeDivideByZero mir), (mir_canBeNegativeOverflow mir), (mir_canBeNegativeZero mir), (not_same lhs eax);
    (split; [by intros|]); (split; [intros H; first [discriminate H|by eexists _, _]|]); (split; [by intros|]); by split.
Qed.

Lemma div_register : isDiv mir = true -> isUnsigned mir = false -> exists c, visitDivI mir lhs rhs = mret c /\
  forall st, get st lhs = uint32 n -> get st rhs = uint32 d -> outcome_ok mir n d eax (run_code c st).
Proof.
  intros Hd Hu. exists div_code. split; [by apply div_emitted|]. intros st Gl Gr. destruct (div_labels (ok_trap _ _ _ Hops)) as (L1 & L2 & L3 & L4 & L5). assert (Eo : out = eax) by (by rewrite Hd).
  enough (H : runs (outcome_ok mir n d eax) div_code 28 div_code st) by (apply H; lia). rewrite <- Eo. unfold div_code at 2.
  apply (move_ok mir n d lhs rhs out Hlhs Hrhs Heax div_code 27); [done|done|]. intros st1 H1.
  apply (zero_ok mir n d lhs rhs out Hops Hlhs Hrhs div_code 21); [done|done|done|]. intros Hd0 st2 H2.
  eapply (overflow_ok mir n d lhs rhs out Hops Hlhs Hrhs eq_refl div_code Hu Hd 13); [done|exact L4|done|done|]. intros Hov st3 H3.
  apply (negative_zero_ok mir n d lhs rhs out Hops Hlhs Hrhs div_code Hu Hd 8); [done|done|]. intros Hnz st4 H4.
  apply (move_ok mir n d lhs rhs out Hlhs Hrhs Heax div_code 7); [apply H4|apply H4|]. intros st5 H5.
  apply (divide_ok mir n d lhs rhs out Hops Hlhs Hrhs div_code Hu 5); [done|done|done|]. intros st6 G1 G2.
  by apply (inexact_ok mir n d lhs rhs out Hops Hlhs Hrhs eq_refl div_code Hu Hd 0).
Qed.

(** ** Remainders *)

Definition mod_return : code := (if mir_canBeNegativeDividend mir then I_bind l_overflow_entry :: overflow_check_code mir rhs else []) ++ return_code.

Definition mod_code : code :=
  move_code lhs ++ zero_code mir rhs ++ sign_code mir lhs ++ power_divisor_code mir lhs rhs ++ positive_code mir lhs rhs mod_return.

Lemma mod_emitted : isDiv mir = false -> isUnsigned mir = false -> visitModI mir lhs rhs = mret mod_code.
Proof.
  intros Hd Hu. destruct registers_apart as [E1 E2].
  unfold visitModI, visitModOverflowCheck, mod_code, mod_return, move_code, zero_code, sign_code, power_divisor_code, positive_code, negative_code, rejoin_code, zero_remainder_code, overflow_check_code, done_code, finish_code, return_code, returns_zero, bailoutIf, canBeNegativeDividend, fallible. rewrite E1, E2, Hd, Hu.
  destruct (isTruncated mir), (trapOnError mir), (mir_canBeDivideByZero mir), (mir_canBeNegativeDividend mir), (mir_canBePowerOfTwoDivisor mir), (not_same lhs eax); reflexivity.
Qed.

Lemma mod_labels : isDiv mir = false ->
  let c2 := positive_code mir lhs rhs mod_return in
  let c1 := sign_code mir lhs ++ power_divisor_code mir lhs rhs ++ c2 in
  (trapOnError mir = true -> after l_nonZero mod_code = after l_nonZero (zero_code mir rhs ++ c1)) /\
  (returns_zero mir = true -> exists r r', after l_entry mod_code = Some (mov_zero out ++ I_jmp l_rejoin :: r) /\ after l_rejoin mod_code = Some (I_end :: r')) /\
  (mir_canBeNegativeDividend mir = true -> after l_negative mod_code = Some (negative_code mir lhs rhs mod_return)) /\
  (mir_canBePowerOfTwoDivisor mir = true -> after l_notPowerOfTwo mod_code = Some c2) /\
  after l_done mod_code = Some (done_code mir mod_return) /\
  (mir_canBeNegativeDividend mir = true -> after l_overflow_entry mod_code = Some (overflow_check_code mir rhs ++ return_code) /\ after l_overflow_rejoin mod_code = Some (rejoin_code mir rhs mod_return) /\ after l_overflow_done mod_code = Some (finish_code mir mod_return)).
Proof.
  intros Hd. unfold mod_code, mod_return, move_code, zero_code, sign_code, power_divisor_code, positive_code, negative_code, rejoin_code, zero_remainder_code, overflow_check_code, done_code, finish_code, return_code, returns_zero. rewrite Hd. cbv zeta.
  destruct (isTruncated mir), (trapOnError mir), (mir_canBeDivideByZero mir), (mir_canBeNegativeDividend mir), (mir_canBePowerOfTwoDivisor mir), (not_same lhs eax);
    (split; [by intros|]); (split; [intros H; first [discriminate H|by eexists _, _]|]); (split; [by intros|]); (split; [by intros|]); by split.
Qed.

Lemma mod_register : isDiv mir = false -> isUnsigned mir = false -> exists c, visitModI mir lhs rhs = mret c /\
  forall st, get st lhs = uint32 n -> get st rhs = uint32 d -> outcome_ok mir n d edx (run_code c st).
Proof.
  intros Hd Hu. exists mod_code. split; [by apply mod_emitted|]. intros st Gl Gr. destruct (mod_labels Hd) as (L1 & L2 & L3 & L4 & L5 & L6). assert (Eo : out = edx) by (by rewrite Hd).
  enough (H : runs (outcome_ok mir n d edx) mod_code 33 mod_code st) by (apply H; lia). rewrite <- Eo. unfold mod_code at 2.
  apply (move_ok mir n d lhs rhs out Hlhs Hrhs Heax mod_code 32); [done|done|]. intros st1 H1.
  apply (zero_ok mir n d lhs rhs out Hops Hlhs Hrhs mod_code 26); [done|done|done|]. intros Hd0 st2 H2.
  eapply (sign_ok mir n d lhs rhs out Hops mod_code Hu 24); [exact L3|done| |].
  - intros Hn st3 H3. apply (power_ok mir n d lhs rhs out Hops Hlhs Hrhs eq_refl mod_code Hu Hd 15 _ mod_return); [done|done|done|done|done|]. intros st4 H4.
    by apply (positive_ok mir n d lhs rhs out Hops Hlhs Hrhs eq_refl mod_code Hu Hd 9).
  - intros End Hn st3 H3. destruct (L6 End) as (L7 & L8 & L9). by apply (negative_ok mir n d lhs rhs out Hops Hlhs Hrhs eq_refl mod_code Hu Hd 10 mod_return return_code).
Qed.

(** ** Unsigned *)

Definition udiv_code : code :=
  move_code lhs ++ zero_code mir rhs ++ mov_zero edx ++ [I_div rhs] ++ inexact_quotient_code mir ++ large_code mir out ++ finish_code mir return_code.

Lemma udiv_emitted : isUnsigned mir = true -> visitUDivOrMod mir lhs rhs out = mret udiv_code.
Proof.
  intros Hu. destruct registers_apart as [E1 E2]. unfold visitUDivOrMod, udiv_code, move_code, zero_code, inexact_quotient_code, large_code, finish_code, return_code, returns_zero, bailoutIf, fallible. rewrite E1, E2, Hu.
  destruct (isDiv mir), (isTruncated mir), (trapOnError mir), (mir_canBeDivideByZero mir), (not_same lhs eax); reflexivity.
Qed.

Lemma udiv_labels : let c1 := mov_zero edx ++ [I_div rhs] ++ inexact_quotient_code mir ++ large_code mir out ++ finish_code mir return_code in
  (trapOnError mir = true -> after l_nonZero udiv_code = after l_nonZero (zero_code mir rhs ++ c1)) /\
  (returns_zero mir = true -> exists r r', after l_entry udiv_code = Some (mov_zero out ++ I_jmp l_rejoin :: r) /\ after l_rejoin udiv_code = Some (I_end :: r')).
Proof.
  unfold udiv_code, move_code, zero_code, inexact_quotient_code, large_code, finish_code, return_code, returns_zero. cbv zeta.
  destruct (isDiv mir), (isTruncated mir), (trapOnError mir), (mir_canBeDivideByZero mir), (not_same lhs eax);
    (split; [by intros|]); intros H; first [discriminate H|by eexists _, _].
Qed.

Lemma unsigned_register : isUnsigned mir = true -> exists c, visitUDivOrMod mir lhs rhs out = mret c /\
  forall st, get st lhs = uint32 n -> get st rhs = uint32 d -> outcome_ok mir n d out (run_code c st).
Proof.
  intros Hu. exists udiv_code. split; [by apply udiv_emitted|]. intros st Gl Gr. destruct udiv_labels as (L1 & L2).
  enough (H : runs (outcome_ok mir n d out) udiv_code 15 udiv_code st) by (apply H; lia). unfold udiv_code at 2.
  apply (move_ok mir n d lhs rhs out Hlhs Hrhs Heax udiv_code 14); [done|done|]. intros st1 H1.
  apply (zero_ok mir n d lhs rhs out Hops Hlhs Hrhs udiv_code 8); [done|done|done|]. intros Hd0 st2 H2.
  by apply (unsigned_register_ok mir n d lhs rhs out Hops Hlhs Hrhs eq_refl udiv_code Hu 0).
Qed.
End Nodes.
