(* ===== verification/JitTheorems.v ===== *)
(** The properties of the JIT's integer divisions. *)
From S2P Require Import Prelude Words CheckedArithmetic BigIntRep BigIntMul JitCode JitDivision JitMagic JitExec JitConstant JitPowerTwo JitRegister.

(** * Operands in registers *)

(** The operand that a constant stands for. *)
Definition divisor_of (mir : MDivMod) (c : Z) : Z := if isUnsigned mir then uint32 c else c.

Definition needs_division (lir : LIR) : bool := match lir with LDivI | LModI | LUDivOrMod => true | _ => false end.

(** What register allocation guarantees, by the kinds of the operands. *)
Definition registers_ok (lir : LIR) (lhs rhs copy : Z) : Prop :=
  match lir with
  | LDivPowTwoI copied _ _ => copied = true -> copy <> lhs
  | LModPowTwoI _ => True
  | LDivOrModConstantI _ | LUDivOrModConstant _ => lhs <> eax /\ lhs <> edx
  | LDivI | LModI | LUDivOrMod => lhs <> edx /\ rhs <> edx /\ (lhs <> rhs -> rhs <> eax)
  end.

Definition operands_in (lir : LIR) (n d lhs rhs copy : Z) (st : state) : Prop :=
  get st lhs = uint32 n /\
  match lir with
  | LDivPowTwoI copied _ _ => copied = true -> get st copy = uint32 n
  | LDivI | LModI | LUDivOrMod => get st rhs = uint32 d
  | _ => True
  end.

(** The code that [generate] returns for [lir] computes the operation. *)
Definition computes (mir : MDivMod) (constant : option Z) (lir : LIR) (n d lhs rhs copy : Z) : Prop :=
  exists c, generate mir constant lhs rhs copy = mret (lir, c) /\
  forall st, operands_in lir n d lhs rhs copy st -> outcome_ok mir n d (output_of mir lir lhs) (run_code c st).

Lemma computes_visit mir constant lir n d lhs rhs copy c : lower mir constant = mret lir -> visit mir lir lhs rhs copy = mret c ->
  (forall st, operands_in lir n d lhs rhs copy st -> outcome_ok mir n d (output_of mir lir lhs) (run_code c st)) -> computes mir constant lir n d lhs rhs copy.
Proof. intros E1 E2 H. exists c. split; [|done]. unfold generate. by rewrite E1, bind_ret, E2, bind_ret. Qed.

(** * Divisors *)

Lemma power_test D : 0 < D < 2 ^ 32 -> shl_w 32 1 (FloorLog2 D) = mret (2 ^ Z.log2 D) /\ 0 <= Z.log2 D <= 31 /\ ((2 ^ Z.log2 D =? D) = false -> Z.land D (uint32 (D - 1)) <> 0).
Proof.
  intros HD. assert (Hk : 0 <= Z.log2 D <= 31) by (pose proof (Z.log2_nonneg D); assert (Z.log2 D < 32) by (apply Z.log2_lt_pow2; lia); lia). pose proof (power_range _ Hk). split_and!; [|lia|lia|].
  - unfold shl_w. rewrite FloorLog2_spec by lia. replace ((0 <=? Z.log2 D) && (Z.log2 D <? 32)) with true by lia. by rewrite Z.shiftl_mul_pow2, Z.mul_1_l, Z.mod_small by lia.
  - intros E H0. rewrite (uint32_small (D - 1)), Z.land_comm in H0 by lia. destruct (land_pred D HD H0) as (k & Hk' & Ek). rewrite Ek, Z.log2_pow2 in E by lia. lia.
Qed.

Lemma lowered mir c : - 2 ^ 31 <= c < 2 ^ 31 -> divisor_of mir c <> 0 -> let d := divisor_of mir c in let D := Z.abs d in let power := 2 ^ Z.log2 D =? D in
  lower mir (Some c) = mret (if power then if isDiv mir then LDivPowTwoI (negb (isUnsigned mir) && mir_canBeNegativeDividend mir && isTruncated mir) (Z.log2 D) (d <? 0) else LModPowTwoI (Z.log2 D)
    else if isUnsigned mir then LUDivOrModConstant d else LDivOrModConstantI d).
Proof.
  intros Hc. unfold divisor_of, lower, lowerDivI, lowerModI, lowerUDiv, lowerUMod, canBeNegativeDividend. destruct (isUnsigned mir); intros Hd; cbv zeta.
  - pose proof (uint32_range c) as Hr. rewrite (Z.abs_eq (uint32 c)) by lia. destruct (power_test (uint32 c) ltac:(lia)) as (E & _ & _). rewrite E, !bind_ret, FloorLog2_spec by lia. replace (uint32 c =? 0) with false by lia. replace (uint32 c <? 0) with false by lia. cbn [negb andb]. by destruct (isDiv mir), (2 ^ Z.log2 (uint32 c) =? uint32 c).
  - destruct (power_test (Z.abs c) ltac:(lia)) as (E & _ & _). rewrite E, !bind_ret, FloorLog2_spec by lia. replace (c =? 0) with false by lia. cbn [negb andb]. destruct (isDiv mir), (2 ^ Z.log2 (Z.abs c) =? Z.abs c); reflexivity.
Qed.

Section Nodes.
Context (mir : MDivMod) (n : Z) (lhs rhs copy : Z).

Lemma divisor_bounds c : - 2 ^ 31 <= c < 2 ^ 31 -> in_range (isUnsigned mir) (divisor_of mir c).
Proof. intros Hc. unfold in_range, divisor_of. destruct (isUnsigned mir); [apply uint32_range|done]. Qed.

Lemma power_computes c : - 2 ^ 31 <= c < 2 ^ 31 -> let d := divisor_of mir c in let D := Z.abs d in operands_ok mir n d -> d <> 0 -> 2 ^ Z.log2 D = D ->
  forall lir, lower mir (Some c) = mret lir -> lir = (if isDiv mir then LDivPowTwoI (negb (isUnsigned mir) && mir_canBeNegativeDividend mir && isTruncated mir) (Z.log2 D) (d <? 0) else LModPowTwoI (Z.log2 D)) ->
  registers_ok lir lhs rhs copy -> computes mir (Some c) lir n d lhs rhs copy.
Proof.
  intros Hc d D Hops Hd HD lir El -> Hregs. pose proof (divisor_bounds c Hc) as Hr. fold d in Hr. pose proof Hops as [Hn _ _ Hneg _ _ Htrap]. assert (Hrange : 0 < D < 2 ^ 32) by (unfold in_range in Hr; destruct (isUnsigned mir); lia). destruct (power_test D Hrange) as (_ & Hsh & _).
  assert (Hun : isUnsigned mir = true -> (d <? 0) = false) by (intros E; rewrite E in Hr; cbn in Hr; lia).
  assert (Htop : isUnsigned mir = false -> (d <? 0) = false -> Z.log2 D <= 30) by (intros E En; rewrite E in Hr; cbn in Hr; enough (Z.log2 D < 31) by lia; apply Z.log2_lt_pow2; lia).
  assert (Ed : d = if d <? 0 then - 2 ^ Z.log2 D else 2 ^ Z.log2 D) by (rewrite HD; unfold D; destruct (Z.ltb_spec d 0); lia).
  destruct (isDiv mir) eqn:Ediv.
  - set (copied := negb (isUnsigned mir) && mir_canBeNegativeDividend mir && isTruncated mir) in *. set (r := if copied then copy else lhs).
    assert (Hcopy : isUnsigned mir = false -> mir_canBeNegativeDividend mir && isTruncated mir = true -> copied = true) by (intros E1 E2; unfold copied; by rewrite E1, <- E2).
    assert (Hne : isUnsigned mir = false -> mir_canBeNegativeDividend mir && isTruncated mir = true -> r <> lhs) by (intros E1 E2; unfold r; rewrite (Hcopy E1 E2); apply Hregs, Hcopy; done).
    eapply computes_visit; [exact El| |].
    + cbn [visit]. fold r. rewrite (power_emitted (Z.log2 D) Hsh (d <? 0) n mir) by (done || (intros; by apply Hneg)). rewrite bind_ret. reflexivity.
    + cbn [output_of]. intros st [Gl Gc]. rewrite Ed at 1. apply power_division; [done|done|by intros; apply Hneg|done|done|done|done|done|done|]. intros E1 E2. unfold r. rewrite (Hcopy E1 E2). apply Gc, Hcopy; done.
  - eapply computes_visit; [exact El| |].
    + cbn [visit]. rewrite (mask_emitted (Z.log2 D) Hsh n mir) by done. rewrite bind_ret. reflexivity.
    + cbn [output_of]. intros st [Gl _]. apply power_remainder; [done|destruct (d <? 0); [by right|by left]|done|done| |done].
      unfold may_be_negative. intros E. destruct (isUnsigned mir); [cbn in Hn; lia|by apply Hneg].
Qed.

Lemma multiplication_computes c : - 2 ^ 31 <= c < 2 ^ 31 -> let d := divisor_of mir c in operands_ok mir n d -> d <> 0 -> (2 ^ Z.log2 (Z.abs d) =? Z.abs d) = false ->
  lower mir (Some c) = mret (if isUnsigned mir then LUDivOrModConstant d else LDivOrModConstantI d) -> registers_ok (if isUnsigned mir then LUDivOrModConstant d else LDivOrModConstantI d) lhs rhs copy ->
  computes mir (Some c) (if isUnsigned mir then LUDivOrModConstant d else LDivOrModConstantI d) n d lhs rhs copy.
Proof.
  intros Hc d Hops Hd HD El Hregs. pose proof (divisor_bounds c Hc) as Hr. fold d in Hr. pose proof Hops as [Hn _ _ Hneg _ _ _]. destruct (power_test (Z.abs d)) as (_ & _ & Hland); [unfold in_range in Hr; destruct (isUnsigned mir); lia|]. specialize (Hland HD).
  destruct (isUnsigned mir) eqn:Eu; cbn [in_range] in Hr, Hn; destruct Hregs as [H0 H2].
  - rewrite (Z.abs_eq d) in Hland by lia. destruct (unsigned_constant d n ltac:(lia) Hland Hn mir Eu lhs H0 H2) as (code & Ec & H).
    eapply computes_visit; [exact El|cbn [visit output_of]; rewrite Ec, bind_ret; reflexivity|]. intros st [Gl _]. cbn [output_of]. apply H. by rewrite Gl, uint32_small.
  - destruct (signed_constant d n Hr Hd Hland Hn mir Eu (Hneg eq_refl) lhs H0 H2) as (code & Ec & H).
    eapply computes_visit; [exact El|cbn [visit output_of]; rewrite Ec, bind_ret; reflexivity|]. intros st [Gl _]. cbn [output_of]. by apply H.
Qed.

(** The nodes with a division instruction. *)
Lemma division_computes constant d : let lir := if isUnsigned mir then LUDivOrMod else if isDiv mir then LDivI else LModI in
  operands_ok mir n d -> lower mir constant = mret lir -> registers_ok lir lhs rhs copy -> computes mir constant lir n d lhs rhs copy.
Proof.
  intros lir Hops El Hregs. unfold lir in *. clear lir. destruct (isUnsigned mir) eqn:Eu; [|destruct (isDiv mir) eqn:Ed]; destruct Hregs as (H1 & H2 & H3).
  - destruct (unsigned_register mir n d lhs rhs Hops H1 H2 H3 Eu) as (c & Ec & H). eapply computes_visit; [exact El|exact Ec|]. intros st [Gl Gr]. by apply H.
  - destruct (div_register mir n d lhs rhs Hops H1 H2 H3 Ed Eu) as (c & Ec & H). eapply computes_visit; [exact El|exact Ec|]. intros st [Gl Gr]. cbn [output_of]. rewrite Ed. by apply H.
  - destruct (mod_register mir n d lhs rhs Hops H1 H2 H3 Ed Eu) as (c & Ec & H). eapply computes_visit; [exact El|exact Ec|]. intros st [Gl Gr]. cbn [output_of]. rewrite Ed. by apply H.
Qed.

(** A constant of zero. *)
Lemma zero_divisor : operands_ok mir n (divisor_of mir 0) -> exists lir, lower mir (Some 0) = mret lir /\ (0 <> 0 -> needs_division lir = false) /\
  (registers_ok lir lhs rhs copy -> computes mir (Some 0) lir n (divisor_of mir 0) lhs rhs copy).
Proof.
  assert (E0 : divisor_of mir 0 = 0) by (unfold divisor_of; by destruct (isUnsigned mir)). rewrite E0. intros Hops. destruct (isUnsigned mir) eqn:Eu.
  - assert (El : lower mir (Some 0) = mret (LUDivOrModConstant 0)) by (unfold lower, lowerDivI, lowerModI; rewrite Eu; by destruct (isDiv mir)). exists (LUDivOrModConstant 0). split; [exact El|]. split; [done|]. intros [H0 H2].
    destruct (unsigned_zero mir n lhs Eu H0 H2 (ok_trap _ _ _ Hops)) as (c & Ec & H). eapply computes_visit; [exact El|cbn [visit output_of]; rewrite Ec, bind_ret; reflexivity|]. intros st [Gl _]. cbn [output_of]. apply H. rewrite Gl, uint32_small; [done|]. pose proof (ok_numerator _ _ _ Hops) as Hn. by rewrite Eu in Hn.
  - assert (El : lower mir (Some 0) = mret (if isDiv mir then LDivI else LModI)) by (unfold lower, lowerDivI, lowerModI; rewrite Eu; by destruct (isDiv mir)). exists (if isDiv mir then LDivI else LModI). split; [exact El|]. split; [done|]. intros Hregs.
    pose proof (division_computes (Some 0) 0) as H. rewrite Eu in H. by apply H.
Qed.
End Nodes.

(** * The properties *)

(** C7: the code that the JIT emits for an integer division or remainder by a
    constant computes it, without a division instruction unless the constant is
    zero.  For every 32-bit constant and dividend, in each mode of MDiv and MMod
    (signed or unsigned, truncated or not, JavaScript or WebAssembly) and with
    what earlier passes proved of the operands, lowering picks a node, no
    assertion of the code generator fails, and the code ends with the quotient
    or remainder in the output register, bails out exactly when JavaScript's
    result is not an int32, or traps as WebAssembly prescribes.  It covers the
    multiplication by the constants of computeDivisionConstants, shifts and
    masks. *)
Theorem constant_division_correct mir n c lhs rhs copy : - 2 ^ 31 <= c < 2 ^ 31 -> operands_ok mir n (divisor_of mir c) ->
  exists lir, lower mir (Some c) = mret lir /\ (c <> 0 -> needs_division lir = false) /\
    (registers_ok lir lhs rhs copy -> computes mir (Some c) lir n (divisor_of mir c) lhs rhs copy).
Proof.
  intros Hc Hops. destruct (Z.eq_dec (divisor_of mir c) 0) as [E0|E0].
  - assert (Ec : c = 0) by (unfold divisor_of in E0; destruct (isUnsigned mir); [apply (uint32_inj c 0); done || lia|done]). subst c. by apply zero_divisor.
  - pose proof (lowered mir c Hc E0) as El. cbv zeta in El. pose proof (divisor_bounds mir c Hc) as Hr. eexists. split; [exact El|]. split; [intros _; by repeat case_match|].
    intros Hregs. destruct (2 ^ Z.log2 (Z.abs (divisor_of mir c)) =? Z.abs (divisor_of mir c)) eqn:Ep.
    + by apply power_computes; [done|done|done|lia|..].
    + by apply multiplication_computes.
Qed.

(** Minus seven into the least int32, truncated: the quotient in [edx]. *)
Lemma constant_division_correct_witness :
  let mir := MkDivMod true false true false false true true false true false in
  (exists lir, lower mir (Some (-7)) = mret lir /\ (-7 <> 0 -> needs_division lir = false) /\
     (registers_ok lir 1 3 6 -> computes mir (Some (-7)) lir (- 2 ^ 31) (divisor_of mir (-7)) 1 3 6)) /\
  (c ← generate mir (Some (-7)) 1 3 6; mret (match run_code (snd c) (MkState (fun _ => 2 ^ 31) None) with Finished st => int32 (get st edx) | _ => 0 end)) = mret (Z.quot (- 2 ^ 31) (-7)).
Proof.
  split; [|vm_compute; reflexivity]. apply (constant_division_correct (MkDivMod true false true false false true true false true false) (- 2 ^ 31) (-7) 1 3 6); [lia|].
  constructor; cbn; done || lia.
Defined.

(** C25: the code that the JIT emits for a division or remainder of two
    registers computes it.  The tests around the division instruction keep it
    from faulting, on a divisor of zero and on the least int32 divided by minus
    one, jumps go to labels of the code and read defined flags; the result, the
    bailouts and the traps are those of JavaScript and WebAssembly, whether or
    not the operands share a register. *)
Theorem register_division_correct mir n d lhs rhs copy : operands_ok mir n d ->
  exists lir, lower mir None = mret lir /\ (registers_ok lir lhs rhs copy -> computes mir None lir n d lhs rhs copy).
Proof.
  intros Hops. exists (if isUnsigned mir then LUDivOrMod else if isDiv mir then LDivI else LModI). assert (El : lower mir None = mret (if isUnsigned mir then LUDivOrMod else if isDiv mir then LDivI else LModI)) by (unfold lower, lowerDivI, lowerModI; by destruct (isUnsigned mir), (isDiv mir)).
  split; [exact El|]. intros Hregs. by apply division_computes.
Qed.

(** The least int32 divided by minus one traps in WebAssembly. *)
Lemma register_division_correct_witness :
  let mir := MkDivMod true false true false true true true true true false in
  (exists lir, lower mir None = mret lir /\ (registers_ok lir 1 3 6 -> computes mir None lir (- 2 ^ 31) (-1) 1 3 6)) /\
  (c ← generate mir None 1 3 6; mret (run_code (snd c) (MkState (fun r => if r =? 1 then 2 ^ 31 else 2 ^ 32 - 1) None))) = mret (Trapped IntegerOverflow).
Proof.
  split; [|vm_compute; reflexivity]. apply (register_division_correct (MkDivMod true false true false true true true true true false) (- 2 ^ 31) (-1) 1 3 6).
  constructor; cbn; done || lia.
Defined.
